(* ===== verification/_CoqProject ===== *)
-Q . S2P
Prelude.v
Mem.v
Result.v
Allocator.v
Growth.v
Vector.v
Stack.v
Deque.v
Queue.v
Ring.v
Compare.v
Heap.v
Sort.v
HashTable.v
HashMap.v
HashSet.v
Text.v
Hex.v
Base64.v
Uri.v
Spsc.v
Bitset.v
StateMachine.v
Pool.v
Glob.v
Machine.v
Links.v
Words.v
LinkedList.v
Lru.v
Bloom.v
StringBuilder.v
Trie.v
Uuid.v
Semver.v
Str.v
Arena.v
ArenaBuffers.v
ArenaBlocks.v
Csv.v
Path.v
ThreadPool.v
ThreadPoolInv.v
ThreadPoolLive.v
Arrays.v
Graph.v
GraphMemory.v
GraphSpec.v
GraphRefine.v
GraphWalk.v
JsonNumber.v
Json.v
JsonSpec.v
JsonText.v
JsonMemory.v
JsonTree.v
JsonParse.v
JsonPrint.v
JsonEdit.v
Posix.v
Io.v
IoFiles.v
IoLine.v
IoCopy.v
IoClient.v
Dir.v
DirCreate.v
DirList.v
Timer.v
