(* ===== verification/Prelude.v ===== *)
(** * LibZenit: a verification library

    LibZenit is a C library of containers, text codecs and memory utilities
    (sources under [src/src/], public headers under [src/include/libzenit/]).
    This development is a shallow embedding of its core: every modelled function
    is a Rocq definition of the same name, written from the C source with its
    guards, early returns and index arithmetic, and the theorems state what callers
    of the library rely on.

    ** Conventions of the model

    - Code returns an [outcome]: [Ret] of its result, [Undef] where C leaves the
      behaviour undefined (an access outside an object or through NULL, a zero
      divisor, [int] overflow where it can happen), [NoFuel] where a loop or a
      recursion used up the fuel it was given.  Theorems prove [Ret], so they
      include memory safety and termination; the fuel they ask for is stated in
      them (a bound on the length of a probe, a list, a depth or a key).
    - [size_t], [uint64_t], [uint32_t] and bytes are [Z] with their wrap-around
      written out ([u64], [u32], [u8]).  A buffer is the list of its bytes, a
      pointer that may be NULL an [option]; [Mem] has the block accesses
      ([memcpy], [memmove], [memset] as [rd], [wr] and their pointer versions).
    - Functions that change an object return its new state; the state behind an
      allocator's [ctx] is threaded through every call as a state of any type.
    - Callbacks are functions; one that has a context is a function on it.

    ** Parts and files

    - [Prelude] (this file): outcomes, machine integers, list lengths, arrays,
      tactics and rewrite databases.  [Mem]: byte buffers and buffers of
      fixed-size slots.  [Machine]: sequences of calls, the traces of an abstract
      specification and the lemma that lifts a simulation of one call to
      sequences.  [Links]: stores of nodes reached by pointers, trails of links,
      ownership of blocks.  [Words]: arrays of 64-bit words.  [Text]: characters
      and NUL-terminated strings.  [Growth]: the growth policy of three
      containers.  [Compare]: the laws of a comparison callback.
    - [Result] ([result.h], [result.c]), [Allocator] ([allocator.h],
      [allocator.c]): error codes; the allocator record, the contract [AllocSpec]
      that the containers' theorems assume of a user's allocator, and a model of
      the C heap, with a schedule of failures, that meets it.
    - Containers: [Vector] ([vector.c]), [Stack] ([stack.c]), [Deque]
      ([deque.c]), [Queue] ([queue.c]), [Ring] ([ring.c]), [Heap] ([heap.c]),
      [HashTable] ([_hash_common.h] and what [map.c] and [set.c] share),
      [HashMap] ([map.c]), [HashSet] ([set.c]), [Bitset] ([bitset.c]), [Pool]
      ([pool.c]), [LinkedList] ([list.c]), [Lru] ([lru.c]), [Bloom] ([bloom.c]),
      [Trie] ([trie.c]), [Spsc] ([spsc.c]), [StringBuilder] ([string.c]).
    - Memory: [Arena] ([arena.c]) is the model of the arena on 64-bit words;
      [ArenaBuffers] proves the boundary-tag allocator inside one region,
      [ArenaBlocks] the bitmap of blocks, the runs and the arena as a whole.
    - Graphs: [Arrays] holds arrays of elements larger than a byte, [Graph]
      ([graph.c]) the model; [GraphMemory] proves what its helpers do to the arrays,
      the neighbour lists and the memory, [GraphSpec] is the adjacency map with its
      operations and edge counts, [GraphRefine] the refinement, [GraphWalk] the
      traversals.
    - Algorithms and text: [Sort] ([sort.c]), [StateMachine] ([state.c]), [Hex]
      ([hex.c]), [Base64] ([base64.c]), [Uri] ([uri.c]), [Glob] ([glob.c]),
      [Uuid] ([uuid.c]), [Semver] ([semver.c]), [Str] ([str.c]), [Csv]
      ([csv.c]), [Path] ([path.c]).
    - Threads: [ThreadPool] ([thread_pool.c], the POSIX variant) is the pool with its
      workers and callers as an interleaving of turns; [ThreadPoolInv] the invariant
      of every reachable state, [ThreadPoolLive] what callers rely on.

    - JSON: [Json] ([json.c]) is the model, over [JsonNumber] (the numbers of C with
      [strtod] and the formats of [snprintf] the code uses).  [JsonSpec] has JSON values,
      their text and a parser on lists of bytes, [JsonText] that the two are inverse to
      each other, [JsonMemory] what a document owns and whether a request was refused,
      [JsonTree] which nodes stand for which value; [JsonParse] proves the parser,
      [JsonPrint] the serializer, [JsonEdit] the calls that make, read and change values.

    - Files: [Posix] has the file calls of the platform as a record with the contract
      [PosixSpec] and a file system in memory that meets it; [Io] ([io.c], the POSIX
      variant) is the model, [IoFiles], [IoLine] and [IoCopy] prove its functions,
      [IoClient] what callers rely on.  [Dir] ([dir.c], the POSIX variant) is the model
      of the directory functions over a record of calls; [DirCreate] has their contract
      [DirSpec] and proves the creation of directories, [DirList] the listing.  [Timer]
      ([timer.c]) has the arithmetic of time points.

    The stack and the string builder call the vector, the JSON serializer the string
    builder, the queue calls the deque, the map, the set, the cache and the filter share the hash functions, and every
    part that owns memory calls the allocator it was created with; the model
    composes them in the same way.

    ** What the theorems show

    - Refinement: each container behaves, from creation to destruction and for
      every sequence of calls and every pattern of allocation failures, as its
      abstract counterpart: a sequence ([vector_refines], [list_sequence],
      [string_builder]), a double-ended or bounded queue ([deque_refines],
      [queue_fifo], [ring_bounded_queue]), a stack ([stack_lifo]), a multiset with
      a greatest element ([heap_priority_queue]), a finite map ([map_dictionary],
      [trie_dictionary]), a finite set ([set_membership], [bitset_correct]), a
      recency list of bounded length ([lru_cache]), an adjacency map with its
      vertex and edge counts ([graph_refines]), a graph of JSON values
      ([json_edit_refines]), a map from names to contents ([file_calls_refine], whatever
      the platform transfers at a time and refuses; the fuel exceeds the sizes of the
      files).  Destruction releases exactly
      the blocks that creation and growth took.
    - Safety and invariants: objects of the pool are handed out exclusively
      ([pool_exclusive]), runs and buffers of an arena never overlap and keep their
      words ([arena_refines], for clients that choose every call from what the
      calls before returned); under every interleaving of one producer and one consumer
      the SPSC queue is first in first out, never overflows, and the two sides
      never touch the same slot ([spsc_fifo], [spsc_race_free],
      [spsc_calls_are_steps]); under every interleaving of documented use the thread
      pool takes tasks in order, runs each once, is not touched once freed
      ([pool_safe]), returns from waiting and destruction when all tasks have run
      ([pool_completes]) and never deadlocks ([pool_live]); a Bloom filter has no false negatives
      ([bloom_no_false_negatives]).
    - Functional correctness: the sorts return a sorted permutation, the merge sort
      a stable one, the searches the positions they promise; the glob matcher
      accepts the language of its pattern; the state machine follows the first
      matching rule; version comparison is a lexicographic one; paths are
      normalised component by component and taken apart at their last slash and dot
      ([path_normalize_correct], [path_parts_correct]); the graph traversals
      visit what can be reached, once, and [zenit_graph_bfs] in the order of the
      distances ([bfs_correct], [dfs_correct]), with the number of vertices as fuel; the
      JSON parser accepts what its grammar accepts and builds that value, or gives all its
      memory back ([json_parse_correct], with the length of the text as fuel), and the
      serializer returns the text of the value ([json_serialize_correct]); directories are
      created with their parents ([dir_create_correct]) and listed completely
      ([dir_list_correct], with the number of entries as fuel); time points are added,
      subtracted and compared as their nanoseconds ([time_arithmetic]).
    - Round trips and errors: hexadecimal, base64 and percent-encoded text, UUIDs,
      versions, CSV records, split strings, JSON values ([json_roundtrip]) and files
      ([file_roundtrip]) are recovered; decoders reject what is malformed
      and stay inside their buffers.
    - Departures: where the code does not do what it or its documentation says, a
      theorem states what it does (a growth loop that does not end from capacity
      one, a probe loop that does not end in a full table, a deque whose tail is
      left outside its buffer after shrinking, a free list of the arena that becomes
      a cycle, an arena request whose size wraps around, a trie key that survives a clear, a
      version order with a cycle, a graph of capacity one that does not grow, an edge
      count that wraps, a depth-first traversal that is none, path functions that treat
      the last slash otherwise than documented, a pool whose creation hangs when a
      thread cannot be started, JSON numbers that are refused and JSON strings whose
      terminator is written behind their buffer, a file that shrinks while it is read, a
      file copied to itself, a directory that is not made because of a file).

    ** Outside the model

    - The Windows variants of the files, directories, threads and clocks; changes that
      other processes make to files during a call.
    - Logging ([logger.c]) and benchmarks ([benchmark.c]) are formatted output of the C
      library around a level test and two clock readings; [version.c] is a constant and
      [optional.h] holds macros that set a flag and a value.
    - Element pointers that alias the container's own buffer, callbacks that call
      back into the same object, and weak memory beyond the barriers of [spsc.c]
      are outside the model; so are locales other than C in [strtod] and [snprintf]. *)

From Stdlib Require Import ZArith Lia.
From stdpp Require Import base tactics option list numbers.

Declare Scope zenit_scope.
Delimit Scope zenit_scope with zenit.

(** ** Outcomes of C code

    [Ret a]: the code returns [a].  [Undef]: the code performs an access that C
    leaves undefined (outside an object, through NULL, through an index with no
    element).  [NoFuel]: a loop used up the fuel the model gives it. *)
Inductive outcome (A : Type) : Type :=
| Ret (a : A)
| Undef
| NoFuel.
Arguments Ret {A} a.
Arguments Undef {A}.
Arguments NoFuel {A}.

Definition obind {A B : Type} (m : outcome A) (k : A -> outcome B) : outcome B :=
  match m with
  | Ret a => k a
  | Undef => Undef
  | NoFuel => NoFuel
  end.

Notation "'let!' p := m 'in' k" := (obind m (fun p => k))
  (at level 10, p pattern, m at level 100, k at level 200,
   format "'[v' 'let!'  p  :=  m  'in' '/' k ']'") : zenit_scope.
Open Scope zenit_scope.
Open Scope Z_scope.

(** ** Machine integers

    A [w]-bit unsigned value is a [Z] in range; every C operation that can wrap
    is followed by [u64], [u32] or [u8]. *)
Abbreviation two64 := 18446744073709551616 (only parsing).
Abbreviation two63 := 9223372036854775808 (only parsing).
Abbreviation two32 := 4294967296 (only parsing).

Definition u64 (x : Z) : Z := x mod two64.
Definition u32 (x : Z) : Z := x mod two32.
Definition u8 (x : Z) : Z := x mod 256.

(** [SIZE_MAX] and [PTRDIFF_MAX] of an LP64 target. *)
Abbreviation SIZE_MAX := 18446744073709551615.
Abbreviation PTRDIFF_MAX := 9223372036854775807.

Definition is_size (x : Z) : Prop := 0 <= x < two64.
Definition is_byte (x : Z) : Prop := 0 <= x < 256.

(** Length of a list as a [Z]. *)
Definition zlen {A : Type} (l : list A) : Z := Z.of_nat (length l).

(** Read and write of an array of whole elements at a [size_t] index. *)
Definition aget {A : Type} (l : list A) (i : Z) : outcome A :=
  if decide (0 <= i) then
    match l !! Z.to_nat i with Some x => Ret x | None => Undef end
  else Undef.

Definition aset {A : Type} (l : list A) (i : Z) (x : A) : outcome (list A) :=
  if decide (0 <= i < zlen l) then Ret (<[Z.to_nat i := x]> l) else Undef.

(** [x % y] and [x / y] on [size_t], undefined for a zero divisor. *)
Definition umod (x y : Z) : outcome Z := if decide (y = 0) then Undef else Ret (x mod y).
Definition udiv (x y : Z) : outcome Z := if decide (y = 0) then Undef else Ret (x / y).

(** ** Tactics and hint databases *)

Create HintDb zenit.

(** Case analysis on the conditions of a definition under execution. *)
Ltac zcase :=
  repeat (case_match || case_decide || case_bool_decide); try done.

(** Replace [u64 e] by [e] wherever linear (then nonlinear) arithmetic shows
    that [e] is in range. *)
Ltac unwrap_side := first [lia | nia].

(** ** Generic lemmas *)

Lemma obind_ret {A B : Type} (a : A) (k : A -> outcome B) :
  obind (Ret a) k = k a.
Proof. done. Qed.

Lemma obind_Ret_inv {A B : Type} (m : outcome A) (k : A -> outcome B) b :
  obind m k = Ret b -> exists a, m = Ret a /\ k a = Ret b.
Proof. destruct m; naive_solver. Qed.

Lemma u64_small x : 0 <= x < two64 -> u64 x = x.
Proof. apply Z.mod_small. Qed.

Lemma u64_range x : 0 <= u64 x < two64.
Proof. apply Z.mod_pos_bound; lia. Qed.

Lemma u32_small x : 0 <= x < two32 -> u32 x = x.
Proof. apply Z.mod_small. Qed.

Lemma u32_range x : 0 <= u32 x < two32.
Proof. apply Z.mod_pos_bound; lia. Qed.

Lemma u8_small x : 0 <= x < 256 -> u8 x = x.
Proof. apply Z.mod_small. Qed.

Lemma u8_range x : 0 <= u8 x < 256.
Proof. apply Z.mod_pos_bound; lia. Qed.

Ltac unwrap :=
  repeat match goal with
  | |- context [u64 ?e] => rewrite (u64_small e) by unwrap_side
  | H : context [u64 ?e] |- _ => rewrite (u64_small e) in H by unwrap_side
  end.

Lemma umod_Ret x y : y <> 0 -> umod x y = Ret (x mod y).
Proof. intros. unfold umod. by rewrite decide_False. Qed.

Lemma udiv_Ret x y : y <> 0 -> udiv x y = Ret (x / y).
Proof. intros. unfold udiv. by rewrite decide_False. Qed.

(** A cursor that runs past the end once wraps once. *)
Lemma mod_wrap x n : 0 <= x < 2 * n -> x mod n = if decide (x < n) then x else x - n.
Proof.
  intros H. case_decide; [by apply Z.mod_small; lia|].
  symmetry. apply (Z.mod_unique_pos _ _ 1); lia.
Qed.

Section ListFacts.
Context {A : Type}.
Implicit Types (l : list A) (x : A).

Lemma zlen_nonneg l : 0 <= zlen l.
Proof. unfold zlen; lia. Qed.

Lemma zlen_nil : zlen (@nil A) = 0.
Proof. done. Qed.

Lemma zlen_cons x l : zlen (x :: l) = 1 + zlen l.
Proof. unfold zlen; simpl; lia. Qed.

Lemma zlen_app l1 l2 : zlen (l1 ++ l2) = zlen l1 + zlen l2.
Proof. unfold zlen; rewrite length_app; lia. Qed.

Lemma zlen_take n l : zlen (take n l) = Z.min (Z.of_nat n) (zlen l).
Proof. unfold zlen; rewrite length_take; lia. Qed.

Lemma zlen_drop n l : zlen (drop n l) = Z.max 0 (zlen l - Z.of_nat n).
Proof. unfold zlen; rewrite length_drop; lia. Qed.

Lemma zlen_replicate n x : zlen (replicate n x) = Z.of_nat n.
Proof. unfold zlen; rewrite length_replicate; lia. Qed.

Lemma zlen_insert n x l : zlen (<[n := x]> l) = zlen l.
Proof. unfold zlen; rewrite length_insert; lia. Qed.

Lemma zlen_pos l : l <> [] -> 0 < zlen l.
Proof. destruct l; [done|]. unfold zlen. simpl. lia. Qed.

Lemma zlen_0 l : zlen l = 0 -> l = [].
Proof. unfold zlen; destruct l; simpl; [done | lia]. Qed.

Lemma aget_lookup l i x :
  0 <= i -> l !! Z.to_nat i = Some x -> aget l i = Ret x.
Proof. intros ? E. unfold aget. rewrite E. by rewrite decide_True. Qed.

Lemma aget_range l i :
  0 <= i < zlen l -> exists x, l !! Z.to_nat i = Some x /\ aget l i = Ret x.
Proof.
  intros Hi. destruct (lookup_lt_is_Some_2 l (Z.to_nat i)) as [x E].
  { unfold zlen in Hi; lia. }
  exists x; split; [done|]. apply aget_lookup; [lia|done].
Qed.

Lemma aset_range l i x :
  0 <= i < zlen l -> aset l i x = Ret (<[Z.to_nat i := x]> l).
Proof. intros. unfold aset. by rewrite decide_True. Qed.

(** A list splits at any position below its length. *)
Lemma list_split_at l (i : Z) :
  0 <= i <= zlen l -> exists l1 l2, l = l1 ++ l2 /\ zlen l1 = i.
Proof.
  intros Hi. exists (take (Z.to_nat i) l), (drop (Z.to_nat i) l).
  rewrite take_drop. split; [done|]. rewrite zlen_take. lia.
Qed.
End ListFacts.

Create Rewrite HintDb zlen.
#[export] Hint Rewrite @zlen_nil @zlen_cons @zlen_app @zlen_take @zlen_drop
  @zlen_replicate @zlen_insert : zlen.

#[export] Hint Resolve zlen_nonneg u64_range u32_range u8_range : zenit.

(** Arithmetic goals that mention lengths. *)
Ltac zl :=
  autorewrite with zlen in *;
  repeat match goal with
  | |- context [zlen ?l] =>
      lazymatch goal with H : 0 <= zlen l |- _ => fail | _ => pose proof (zlen_nonneg l) end
  | H0 : context [zlen ?l] |- _ =>
      lazymatch goal with H : 0 <= zlen l |- _ => fail | _ => pose proof (zlen_nonneg l) end
  end; lia.
