(* ===== verification/Mem.v ===== *)
(** * Byte memory

    The buffers the library allocates are flat byte arrays addressed by
    [base + index * elem_size].  [rd] and [wr] are [memcpy] out of and into such
    an array, [memmove] copies inside one, [memset] fills a range; an access
    outside the array is [Undef].  [is_slots] views an array as a list of
    fixed-size slots, and the lemmas below turn the byte accesses of the sources
    into list operations on the slots. *)

From Stdlib Require Import ZArith Lia.
From stdpp Require Import base tactics option list numbers.
From S2P Require Import Prelude.
Open Scope Z_scope.

Abbreviation bytes := (list Z).

(** [memcpy(dst, buf + off, n)]: the [n] bytes at [off]. *)
Definition rd (buf : bytes) (off n : Z) : outcome bytes :=
  if decide (0 <= off /\ 0 <= n /\ off + n <= zlen buf)
  then Ret (take (Z.to_nat n) (drop (Z.to_nat off) buf))
  else Undef.

(** [memcpy(buf + off, data, len data)]. *)
Definition wr (buf : bytes) (off : Z) (data : bytes) : outcome bytes :=
  if decide (0 <= off /\ off + zlen data <= zlen buf)
  then Ret (take (Z.to_nat off) buf ++ data ++ drop (Z.to_nat off + length data) buf)
  else Undef.

(** [memmove(buf + dst, buf + src, n)]. *)
Definition memmove (buf : bytes) (dst src n : Z) : outcome bytes :=
  let! d := rd buf src n in wr buf dst d.

(** [memset(buf + off, v, n)]. *)
Definition memset (buf : bytes) (off v n : Z) : outcome bytes :=
  if decide (0 <= n) then wr buf off (replicate (Z.to_nat n) v) else Undef.

(** [buf] is the concatenation of [slots], each of [es] bytes. *)
Definition is_slots (es : Z) (buf : bytes) (slots : list bytes) : Prop :=
  buf = concat slots /\ Forall (fun s => zlen s = es) slots.

(** The slots of a buffer, computed. *)
Fixpoint slots_of (es : nat) (n : nat) (buf : bytes) : list bytes :=
  match n with
  | O => []
  | S n => take es buf :: slots_of es n (drop es buf)
  end.

(** ** Reads and writes of a decomposed buffer *)

Lemma rd_app a b c off n :
  off = zlen a -> n = zlen b -> rd (a ++ b ++ c) off n = Ret b.
Proof.
  intros -> ->. unfold rd. rewrite decide_True by zl.
  unfold zlen. rewrite !Nat2Z.id, drop_app_length, take_app_length. done.
Qed.

Lemma wr_app a b b' c off :
  off = zlen a -> zlen b' = zlen b -> wr (a ++ b ++ c) off b' = Ret (a ++ b' ++ c).
Proof.
  intros -> E. unfold wr. rewrite decide_True by zl.
  unfold zlen in *. rewrite Nat2Z.id, take_app_length.
  rewrite <- drop_drop, drop_app_length.
  assert (length b' = length b) as -> by lia.
  by rewrite drop_app_length.
Qed.

Lemma rd_Ret buf off n :
  0 <= off -> 0 <= n -> off + n <= zlen buf ->
  rd buf off n = Ret (take (Z.to_nat n) (drop (Z.to_nat off) buf)).
Proof. intros. unfold rd. by rewrite decide_True. Qed.

Lemma rd_whole buf n : n = zlen buf -> rd buf 0 n = Ret buf.
Proof.
  intros ->. rewrite <- (app_nil_r buf) at 1.
  by apply (rd_app [] buf []).
Qed.

Lemma wr_whole buf d : zlen d = zlen buf -> wr buf 0 d = Ret d.
Proof.
  intros E. rewrite <- (app_nil_r buf).
  rewrite (wr_app [] buf d []); [|done|done]. by rewrite app_nil_l, app_nil_r.
Qed.

Lemma wr_zlen buf off d buf' : wr buf off d = Ret buf' -> zlen buf' = zlen buf.
Proof. unfold wr. case_decide; [|done]. intros [= <-]. unfold zlen in *. simpl in *.
  rewrite !length_app, length_take, length_drop. lia.
Qed.

(** ** Slots *)

Section Slots.
Context (es : Z).
Implicit Types (buf : bytes) (slots : list bytes).

Lemma zlen_concat slots :
  Forall (fun s => zlen s = es) slots -> zlen (concat slots) = zlen slots * es.
Proof. induction 1; simpl; autorewrite with zlen; nia. Qed.

Lemma is_slots_zlen buf slots : is_slots es buf slots -> zlen buf = zlen slots * es.
Proof. intros [-> H]. by apply zlen_concat. Qed.

Lemma is_slots_nil : is_slots es [] [].
Proof. by split. Qed.

Lemma is_slots_app buf slots1 slots2 :
  is_slots es buf (slots1 ++ slots2) <->
  exists b1 b2, buf = b1 ++ b2 /\ is_slots es b1 slots1 /\ is_slots es b2 slots2.
Proof.
  unfold is_slots. split.
  - intros [-> [H1 H2]%Forall_app]. exists (concat slots1), (concat slots2).
    by rewrite concat_app.
  - intros (b1 & b2 & -> & [-> H1] & [-> H2]). rewrite concat_app.
    split; [done|]. by apply Forall_app.
Qed.

Lemma zlen_slots_of k (n : nat) buf : zlen (slots_of k n buf) = Z.of_nat n.
Proof. revert buf. induction n as [|n IH]; intros buf; simpl; [done|]. rewrite zlen_cons, IH. lia. Qed.

(** Every buffer of [n * es] bytes has slots. *)
Lemma is_slots_exists (n : nat) buf :
  zlen buf = Z.of_nat n * es -> is_slots es buf (slots_of (Z.to_nat es) n buf).
Proof.
  revert buf. induction n as [|n IH]; intros buf E.
  - assert (buf = []) as -> by (apply zlen_0; lia). by split.
  - destruct (decide (0 <= es)) as [Hes|]; [|exfalso; pose proof (zlen_nonneg buf); nia].
    destruct (IH (drop (Z.to_nat es) buf)) as [E1 E2]; [zl|].
    split; simpl.
    + by rewrite <- E1, take_drop.
    + constructor; [zl|done].
Qed.

Lemma slots_of_is_slots buf slots :
  0 < es -> is_slots es buf slots -> slots_of (Z.to_nat es) (length slots) buf = slots.
Proof.
  intros Hes. revert buf. induction slots as [|s slots IH]; intros buf [-> H]; [done|].
  apply Forall_cons_1 in H as [H1 H2]. simpl.
  assert (Z.to_nat es = length s) as -> by (unfold zlen in H1; lia).
  rewrite take_app_length, drop_app_length. f_equal.
  assert (length s = Z.to_nat es) as -> by (unfold zlen in H1; lia).
  apply IH. by split.
Qed.

(** [memcpy(out, buf + i * es, n * es)]: [n] slots from slot [i]. *)
Lemma rd_slots buf s1 s2 s3 off n :
  is_slots es buf (s1 ++ s2 ++ s3) ->
  off = zlen s1 * es -> n = zlen s2 * es ->
  rd buf off n = Ret (concat s2).
Proof.
  intros (b1 & b23 & -> & [H1 H1'] & (b2 & b3 & -> & [H2 H2'] & [H3 H3'])%is_slots_app)%is_slots_app -> ->.
  subst. apply rd_app; by rewrite zlen_concat.
Qed.

(** Overwriting the slots [s2] by [s2'] of the same number. *)
Lemma wr_slots buf s1 s2 s2' s3 off :
  is_slots es buf (s1 ++ s2 ++ s3) ->
  off = zlen s1 * es -> zlen s2' = zlen s2 ->
  Forall (fun s => zlen s = es) s2' ->
  exists buf', wr buf off (concat s2') = Ret buf' /\ is_slots es buf' (s1 ++ s2' ++ s3).
Proof.
  intros (b1 & b23 & -> & [H1 H1'] & (b2 & b3 & -> & [H2 H2'] & [H3 H3'])%is_slots_app)%is_slots_app -> E F.
  subst. eexists. split.
  - apply wr_app; rewrite !zlen_concat by done; [done|]. by rewrite E.
  - split; [by rewrite !concat_app|]. by rewrite !Forall_app.
Qed.

Lemma rd_slot buf slots i s :
  is_slots es buf slots -> 0 <= i -> slots !! Z.to_nat i = Some s ->
  rd buf (i * es) es = Ret s.
Proof.
  intros H Hi E. apply list_elem_of_split_length in E as (s1 & s2 & -> & E).
  erewrite (rd_slots buf s1 [s] s2); [..|done| |].
  - simpl. by rewrite app_nil_r.
  - f_equal. unfold zlen. lia.
  - unfold zlen. simpl. lia.
Qed.

Lemma wr_slot buf slots i x :
  is_slots es buf slots -> 0 <= i < zlen slots -> zlen x = es ->
  exists buf', wr buf (i * es) x = Ret buf' /\ is_slots es buf' (<[Z.to_nat i := x]> slots).
Proof.
  intros H Hi Hx.
  destruct (lookup_lt_is_Some_2 slots (Z.to_nat i)) as [s E]; [unfold zlen in Hi; lia|].
  apply list_elem_of_split_length in E as (s1 & s2 & -> & E).
  destruct (wr_slots buf s1 [s] [x] s2 (i * es)) as (buf' & W & S); [done| |done| |].
  - f_equal. unfold zlen. lia.
  - by constructor.
  - exists buf'. simpl in W. rewrite app_nil_r in W. split; [done|].
    rewrite E. by rewrite <- (Nat.add_0_r (length s1)), insert_app_r.
Qed.

(** Access to a part of a slot, at offset [o] inside it. *)
Lemma rd_sub buf slots i s o n :
  is_slots es buf slots -> 0 <= i -> slots !! Z.to_nat i = Some s -> 0 <= o -> 0 <= n ->
  o + n <= es -> rd buf (i * es + o) n = Ret (take (Z.to_nat n) (drop (Z.to_nat o) s)).
Proof.
  intros [-> F] Hi E Ho Hn Hon.
  pose proof (Forall_lookup_1 _ _ _ _ F E) as Ls. simpl in Ls.
  apply list_elem_of_split_length in E as (s1 & s2 & -> & E).
  apply Forall_app in F as [F1 F2].
  rewrite concat_app. simpl.
  rewrite <- (take_drop (Z.to_nat o) s) at 1.
  rewrite <- (take_drop (Z.to_nat n) (drop (Z.to_nat o) s)) at 1.
  rewrite <- !app_assoc, app_assoc. apply rd_app.
  - rewrite zlen_app, zlen_concat, zlen_take by done. unfold zlen in *. nia.
  - rewrite zlen_take, zlen_drop. unfold zlen in *. lia.
Qed.

Lemma wr_sub buf slots i s o x :
  is_slots es buf slots -> 0 <= i -> slots !! Z.to_nat i = Some s -> 0 <= o ->
  o + zlen x <= es ->
  exists buf', wr buf (i * es + o) x = Ret buf' /\
    is_slots es buf'
      (<[Z.to_nat i := take (Z.to_nat o) s ++ x ++ drop (Z.to_nat o + length x) s]> slots).
Proof.
  intros [-> F] Hi E Ho Hon.
  pose proof (Forall_lookup_1 _ _ _ _ F E) as Ls. simpl in Ls.
  apply list_elem_of_split_length in E as (s1 & s2 & -> & E).
  pose proof F as [F1 F2]%Forall_app. apply Forall_cons_1 in F2 as [_ F2].
  set (s' := take (Z.to_nat o) s ++ x ++ drop (Z.to_nat o + length x) s).
  exists (concat (s1 ++ s' :: s2)). split.
  - rewrite !concat_app. simpl. unfold s'.
    rewrite <- (take_drop (Z.to_nat o) s) at 1.
    rewrite <- (take_drop (length x) (drop (Z.to_nat o) s)) at 1.
    rewrite drop_drop, <- !app_assoc, !(app_assoc (concat s1)). apply wr_app.
    + rewrite zlen_app, zlen_concat, zlen_take by done. unfold zlen in *. nia.
    + rewrite zlen_take, zlen_drop. unfold zlen in *. lia.
  - rewrite E, <- (Nat.add_0_r (length s1)), insert_app_r. simpl. split; [done|].
    apply Forall_app. split; [done|]. constructor; [|done].
    unfold s'. autorewrite with zlen. unfold zlen in *. lia.
Qed.

(** Slots outside a prefix survive a reallocation that keeps a prefix. *)
Lemma is_slots_take buf slots (n : Z) :
  is_slots es buf slots -> 0 <= n <= zlen slots -> 0 <= es ->
  is_slots es (take (Z.to_nat (n * es)) buf) (take (Z.to_nat n) slots).
Proof.
  intros H Hn Hes. destruct (list_split_at slots n Hn) as (s1 & s2 & -> & E).
  apply is_slots_app in H as (b1 & b2 & -> & H1 & H2).
  pose proof (is_slots_zlen _ _ H1) as L.
  replace (Z.to_nat (n * es)) with (length b1) by (unfold zlen in *; nia).
  replace (Z.to_nat n) with (length s1) by (unfold zlen in *; lia).
  by rewrite !take_app_length.
Qed.

(** A resized copy of a buffer that keeps the common prefix keeps the leading
    slots [l]. *)
Lemma slots_resize old new l spare n :
  0 < es -> is_slots es old (l ++ spare) -> zlen new = n * es -> zlen l <= n ->
  take (length old) new = take (length new) old ->
  exists spare', is_slots es new (l ++ spare') /\ zlen l + zlen spare' = n.
Proof.
  intros Hes H Hn Hl E.
  pose proof (is_slots_zlen _ _ H) as Lo. apply is_slots_app in H as (b1 & b2 & -> & H1 & H2).
  pose proof (is_slots_zlen _ _ H1) as L1.
  assert (take (length b1) new = b1) as P.
  { apply (f_equal (take (length b1))) in E. rewrite !take_take in E.
    rewrite !Nat.min_l in E; [|unfold zlen in *; nia..|rewrite length_app; lia].
    by rewrite take_app_length in E. }
  exists (slots_of (Z.to_nat es) (Z.to_nat (n - zlen l)) (drop (length b1) new)).
  assert (is_slots es (drop (length b1) new)
            (slots_of (Z.to_nat es) (Z.to_nat (n - zlen l)) (drop (length b1) new))) as S.
  { apply is_slots_exists. rewrite zlen_drop. unfold zlen in *. nia. }
  split.
  - apply is_slots_app. exists b1, (drop (length b1) new).
    rewrite <- P at 1. by rewrite take_drop.
  - apply is_slots_zlen in S. rewrite zlen_drop in S. unfold zlen in *. nia.
Qed.
End Slots.
