(* ===== verification/Result.v ===== *)
(** * Results and iterators ([include/libzenit/result.h], [src/result.c])

    [zenit_result_t] is a struct whose only field is its error code, so a result
    is modelled by that code.  [zenit_iter_t] is the cursor the containers share;
    its [container] pointer is an argument of the [_iter_next] functions. *)

From Stdlib Require Import ZArith String.
From stdpp Require Import base tactics.
From S2P Require Import Prelude.
Open Scope Z_scope.

Inductive zenit_error_t : Set :=
| ZENIT_OK
| ZENIT_ERROR_NULL
| ZENIT_ERROR_ALLOC
| ZENIT_ERROR_PARAM
| ZENIT_ERROR_NOT_FOUND
| ZENIT_ERROR_CORRUPT
| ZENIT_ERROR_DOUBLE_FREE
| ZENIT_ERROR_STATE
| ZENIT_ERROR_SIZE
| ZENIT_ERROR_FULL
| ZENIT_ERROR_EMPTY
| ZENIT_ERROR_OVERFLOW.

#[export] Instance zenit_error_t_eq_dec : EqDecision zenit_error_t.
Proof. solve_decision. Defined.

(** The enumerators' values. *)
Definition error_code (e : zenit_error_t) : Z :=
  match e with
  | ZENIT_OK => 0
  | ZENIT_ERROR_NULL => 1
  | ZENIT_ERROR_ALLOC => 2
  | ZENIT_ERROR_PARAM => 3
  | ZENIT_ERROR_NOT_FOUND => 4
  | ZENIT_ERROR_CORRUPT => 5
  | ZENIT_ERROR_DOUBLE_FREE => 6
  | ZENIT_ERROR_STATE => 7
  | ZENIT_ERROR_SIZE => 8
  | ZENIT_ERROR_FULL => 9
  | ZENIT_ERROR_EMPTY => 10
  | ZENIT_ERROR_OVERFLOW => 11
  end.

Definition zenit_result_is_ok (r : zenit_error_t) : bool := bool_decide (r = ZENIT_OK).
Definition zenit_result_is_error (r : zenit_error_t) : bool := bool_decide (r <> ZENIT_OK).

Definition zenit_error_string (error : zenit_error_t) : string :=
  match error with
  | ZENIT_OK => "ok"
  | ZENIT_ERROR_NULL => "null pointer"
  | ZENIT_ERROR_ALLOC => "allocation failed"
  | ZENIT_ERROR_PARAM => "invalid parameter"
  | ZENIT_ERROR_NOT_FOUND => "not found"
  | ZENIT_ERROR_CORRUPT => "corrupted data"
  | ZENIT_ERROR_DOUBLE_FREE => "double free"
  | ZENIT_ERROR_STATE => "invalid state"
  | ZENIT_ERROR_SIZE => "size mismatch"
  | ZENIT_ERROR_FULL => "buffer full"
  | ZENIT_ERROR_EMPTY => "buffer empty"
  | ZENIT_ERROR_OVERFLOW => "overflow"
  end%string.

(** [zenit_iter_t] without its [container] pointer; [it_internal] is the
    container-specific cursor (a node of the linked list). *)
Record zenit_iter_t : Set := mk_iter {
  it_index : Z;
  it_count : Z;
  it_is_valid : bool;
  it_internal : option positive }.

(** The twelve error codes have distinct descriptions. *)
Lemma zenit_error_string_inj e1 e2 :
  zenit_error_string e1 = zenit_error_string e2 -> e1 = e2.
Proof. by destruct e1, e2. Qed.
