(* ===== verification/Allocator.v ===== *)
(** * Memory allocators ([include/libzenit/allocator.h], [src/allocator.c])

    A [zenit_allocator_t] is a record of the user's functions over a state [C]
    (what [ctx] points to, and the heap behind it).  A block carries its address,
    so that a handle and a buffer can be told apart, and its bytes.

    [AllocSpec] states what the documentation of [zenit_allocator_t] asks of those
    functions, with [live] the addresses currently allocated; the containers'
    theorems are proved against it.  [malloc_allocator] is the default allocator
    over a model of [malloc], [realloc] and [free] with a failure schedule, and
    discharges it. *)

From Stdlib Require Import ZArith Lia.
From stdpp Require Import base tactics option list numbers gmap sets.
From S2P Require Import Prelude Mem Result.
Open Scope Z_scope.

Abbreviation addr := positive.

Record block : Type := Block { b_addr : addr; b_data : bytes }.

(** The bytes and the address behind a possibly NULL pointer. *)
Definition pbytes (p : option block) : bytes :=
  match p with Some b => b_data b | None => [] end.
Definition pown (p : option block) : gset addr :=
  match p with Some b => {[ b_addr b ]} | None => empty end.
Definition paddr (p : option block) : option addr := b_addr <$> p.

(** Accesses through a possibly NULL buffer pointer. *)
Definition prd (p : option block) (off n : Z) : outcome bytes :=
  match p with Some b => rd (b_data b) off n | None => Undef end.
Definition pwr (p : option block) (off : Z) (data : bytes) : outcome (option block) :=
  match p with
  | Some b => let! d := wr (b_data b) off data in Ret (Some (Block (b_addr b) d))
  | None => Undef
  end.
Definition pmemmove (p : option block) (dst src n : Z) : outcome (option block) :=
  let! d := prd p src n in pwr p dst d.
Definition pmemset (p : option block) (off v n : Z) : outcome (option block) :=
  if decide (0 <= n) then pwr p off (replicate (Z.to_nat n) v) else Undef.

(** Single bytes behind a pointer. *)
Definition pget (p : option block) (i : Z) : outcome Z :=
  match p with Some b => aget (b_data b) i | None => Undef end.
Definition pset (p : option block) (i v : Z) : outcome (option block) :=
  match p with
  | Some b => let! d := aset (b_data b) i v in Ret (Some (Block (b_addr b) d))
  | None => Undef
  end.

Record zenit_allocator_t (C : Type) : Type := mk_allocator {
  alloc_fn : Z -> C -> option block * C;
  realloc_fn : option (option block -> Z -> C -> option block * C);
  free_fn : option addr -> C -> C }.
Arguments mk_allocator {C}.
Arguments alloc_fn {C}.
Arguments realloc_fn {C}.
Arguments free_fn {C}.

Definition zenit_allocator_alloc_zero {C : Type} (a : zenit_allocator_t C) (nmemb size : Z)
    (c : C) : outcome (option block * C) :=
  match alloc_fn a (u64 (nmemb * size)) c with
  | (None, c1) => Ret (None, c1)
  | (ptr, c1) => let! p := pmemset ptr 0 0 (u64 (nmemb * size)) in Ret (p, c1)
  end.

Definition zenit_allocator_realloc {C : Type} (a : zenit_allocator_t C) (ptr : option block)
    (old_size new_size : Z) (c : C) : outcome (option block * C) :=
  match realloc_fn a with
  | Some f => Ret (f ptr new_size c)
  | None =>
      match alloc_fn a new_size c with
      | (None, c1) => Ret (None, c1)
      | (new_ptr, c1) =>
          match ptr with
          | None => Ret (new_ptr, c1)
          | Some p =>
              let copy_size := if decide (old_size < new_size) then old_size else new_size in
              let! d := rd (b_data p) 0 copy_size in
              let! q := pwr new_ptr 0 d in
              Ret (q, free_fn a (Some (b_addr p)) c1)
          end
      end
  end.

(** ** The contract of an allocator *)

Class AllocSpec {C : Type} (a : zenit_allocator_t C) : Type := {
  live : C -> gset addr;
  alloc_some n c b c' :
    alloc_fn a n c = (Some b, c') ->
    zlen (b_data b) = n /\ n <= PTRDIFF_MAX /\ (b_addr b ∉ live c) /\
    live c' = {[ b_addr b ]} ∪ live c;
  alloc_none n c c' :
    alloc_fn a n c = (None, c') -> live c' = live c;
  realloc_some f p n c b c' :
    realloc_fn a = Some f -> pown p ⊆ live c ->
    f p n c = (Some b, c') ->
    zlen (b_data b) = n /\ n <= PTRDIFF_MAX /\
    take (length (pbytes p)) (b_data b) = take (Z.to_nat n) (pbytes p) /\
    (b_addr b ∉ live c ∖ pown p) /\
    live c' = {[ b_addr b ]} ∪ (live c ∖ pown p);
  realloc_none f p n c c' :
    realloc_fn a = Some f -> f p n c = (None, c') -> live c' = live c;
  free_some x c : x ∈ live c -> live (free_fn a (Some x) c) = live c ∖ {[ x ]};
  free_none c : live (free_fn a None c) = live c }.

(** Between [c] and [c'] a component that owned [O] now owns [O'], and nothing
    else was allocated or freed. *)
Definition transfer {C : Type} (a : zenit_allocator_t C) {SP : AllocSpec a}
    (O O' : gset addr) (c c' : C) : Prop :=
  O' ⊆ live c' /\ live c' ∖ O' = live c ∖ O.

(** ** The default allocator over a model of the C heap

    [h_fail] schedules which of the next requests fail. *)
Record heap : Type := mk_heap { h_live : gset addr; h_fail : list bool }.

Definition h_fresh (h : heap) : addr :=
  Pos.succ (foldr Pos.max 1%positive (elements (h_live h))).

(** A request is refused when the schedule says so, or when it exceeds the
    largest object. *)
Definition h_refuse (size : Z) (h : heap) : bool :=
  bool_decide (size < 0) || bool_decide (PTRDIFF_MAX < size) || default false (head (h_fail h)).

(** Fresh memory has unspecified contents, here a junk pattern. *)
Definition malloc (size : Z) (h : heap) : option block * heap :=
  if h_refuse size h then (None, mk_heap (h_live h) (tail (h_fail h)))
  else (Some (Block (h_fresh h) (replicate (Z.to_nat size) 165)),
        mk_heap ({[ h_fresh h ]} ∪ h_live h) (tail (h_fail h))).

Definition free (p : option addr) (h : heap) : heap :=
  match p with
  | None => h
  | Some x => mk_heap (h_live h ∖ {[ x ]}) (h_fail h)
  end.

Definition realloc (p : option block) (size : Z) (h : heap) : option block * heap :=
  if h_refuse size h then (None, mk_heap (h_live h) (tail (h_fail h)))
  else
    let old := pbytes p in
    let kept := take (Z.to_nat size) old in
    (Some (Block (h_fresh h) (kept ++ replicate (Z.to_nat size - length kept) 165)),
     mk_heap ({[ h_fresh h ]} ∪ (h_live h ∖ pown p)) (tail (h_fail h))).

Definition zenit_default_alloc (size : Z) (h : heap) : option block * heap := malloc size h.
Definition zenit_default_realloc (ptr : option block) (size : Z) (h : heap) : option block * heap :=
  realloc ptr size h.
Definition zenit_default_free (ptr : option addr) (h : heap) : heap := free ptr h.

Definition ZENIT_ALLOCATOR_DEFAULT : zenit_allocator_t heap :=
  mk_allocator zenit_default_alloc (Some zenit_default_realloc) zenit_default_free.

(** The same heap without a [realloc_fn], as an arena-style allocator has. *)
Definition no_realloc_allocator : zenit_allocator_t heap :=
  mk_allocator zenit_default_alloc None zenit_default_free.

Definition empty_heap : heap := mk_heap empty [].

(** ** The heap model meets the contract *)

Lemma h_fresh_not_live h : h_fresh h ∉ h_live h.
Proof.
  rewrite <- elem_of_elements. unfold h_fresh.
  assert (forall l x, x ∈ l -> (x <= foldr Pos.max 1 l)%positive) as B.
  { induction l as [|y l IH]; intros x Hx; [by apply elem_of_nil in Hx|].
    apply elem_of_cons in Hx as [->|Hx]; simpl; [lia|]. specialize (IH _ Hx). lia. }
  intros H%B. lia.
Qed.

Lemma h_refuse_false size h :
  h_refuse size h = false -> 0 <= size <= PTRDIFF_MAX.
Proof.
  unfold h_refuse. intros [[H1 H2]%orb_false_iff _]%orb_false_iff.
  apply bool_decide_eq_false in H1, H2. lia.
Qed.

Lemma malloc_some n h b h' :
  malloc n h = (Some b, h') ->
  zlen (b_data b) = n /\ n <= PTRDIFF_MAX /\ (b_addr b ∉ h_live h) /\
  h_live h' = {[ b_addr b ]} ∪ h_live h.
Proof.
  unfold malloc. destruct (h_refuse n h) eqn:E; intros [= <- <-]; simpl.
  apply h_refuse_false in E. rewrite zlen_replicate.
  repeat split; try lia. apply h_fresh_not_live.
Qed.

Lemma malloc_none n h h' : malloc n h = (None, h') -> h_live h' = h_live h.
Proof. unfold malloc. destruct (h_refuse n h); by intros [= <-]. Qed.

Lemma free_addr_live x h : x ∈ h_live h -> h_live (free (Some x) h) = h_live h ∖ {[ x ]}.
Proof. done. Qed.

#[export] Program Instance malloc_spec : AllocSpec ZENIT_ALLOCATOR_DEFAULT :=
  {| live := h_live |}.
Next Obligation. apply malloc_some. Qed.
Next Obligation. apply malloc_none. Qed.
Next Obligation.
  intros f p n c b c' [= <-] Hp. unfold zenit_default_realloc, realloc.
  destruct (h_refuse n c) eqn:E; intros [= <- <-]; simpl.
  apply h_refuse_false in E. split_and!; [|lia| | |done].
  - autorewrite with zlen. unfold zlen. rewrite length_take. lia.
  - rewrite take_app, take_take, length_take.
    destruct (decide (Z.to_nat n <= length (pbytes p))%nat).
    + replace (Z.to_nat n - _)%nat with O by lia. simpl. rewrite take_nil, app_nil_r.
      f_equal. lia.
    + replace (length (pbytes p) - _)%nat with O by lia.
      rewrite take_0, app_nil_r, !take_ge by lia. done.
  - pose proof (h_fresh_not_live c). set_solver.
Qed.
Next Obligation.
  intros f p n c c' [= <-]. unfold zenit_default_realloc, realloc.
  destruct (h_refuse n c); by intros [= <-].
Qed.
Next Obligation. apply free_addr_live. Qed.
Next Obligation. done. Qed.

#[export] Program Instance no_realloc_spec : AllocSpec no_realloc_allocator :=
  {| live := h_live |}.
Next Obligation. apply malloc_some. Qed.
Next Obligation. apply malloc_none. Qed.
Next Obligation. done. Qed.
Next Obligation. done. Qed.
Next Obligation. apply free_addr_live. Qed.
Next Obligation. done. Qed.

(** ** Accesses through pointers *)

Lemma prd_Some b off n : prd (Some b) off n = rd (b_data b) off n.
Proof. done. Qed.

Lemma pwr_wr p off d d' :
  p <> None -> wr (pbytes p) off d = Ret d' ->
  exists p', pwr p off d = Ret p' /\ pbytes p' = d' /\ pown p' = pown p /\
             paddr p' = paddr p /\ p' <> None.
Proof. destruct p as [b|]; [|done]. intros _ E. simpl in *. rewrite E. simpl. by eexists. Qed.

Lemma prd_rd p off n : p <> None -> prd p off n = rd (pbytes p) off n.
Proof. by destruct p. Qed.

Lemma pget_lookup p i x :
  p <> None -> 0 <= i -> pbytes p !! Z.to_nat i = Some x -> pget p i = Ret x.
Proof. destruct p; [|done]. intros _ Hi E. by apply aget_lookup. Qed.

Lemma pset_range p i x :
  p <> None -> 0 <= i < zlen (pbytes p) ->
  exists p', pset p i x = Ret p' /\ p' <> None /\ pown p' = pown p /\
    pbytes p' = <[Z.to_nat i := x]> (pbytes p).
Proof.
  destruct p as [b|]; [|done]. intros _ Hi. simpl in *. rewrite aset_range by done. simpl.
  by eexists.
Qed.

(** Slots of a buffer behind a pointer. *)
Lemma prd_slots es p s1 s2 s3 off n :
  p <> None -> is_slots es (pbytes p) (s1 ++ s2 ++ s3) ->
  off = zlen s1 * es -> n = zlen s2 * es -> prd p off n = Ret (concat s2).
Proof. intros Hp S -> ->. rewrite prd_rd by done. by eapply rd_slots. Qed.

Lemma prd_slot es p slots i s :
  p <> None -> is_slots es (pbytes p) slots -> 0 <= i -> slots !! Z.to_nat i = Some s ->
  prd p (i * es) es = Ret s.
Proof. intros Hp S Hi E. rewrite prd_rd by done. by eapply rd_slot. Qed.

Lemma pwr_slots es p s1 s2 s2' s3 off :
  p <> None -> is_slots es (pbytes p) (s1 ++ s2 ++ s3) ->
  off = zlen s1 * es -> zlen s2' = zlen s2 ->
  Forall (fun s => zlen s = es) s2' ->
  exists p', pwr p off (concat s2') = Ret p' /\ p' <> None /\ pown p' = pown p /\
    is_slots es (pbytes p') (s1 ++ s2' ++ s3).
Proof.
  intros Hp S -> E F.
  destruct (wr_slots _ _ s1 s2 s2' s3 _ S eq_refl E F) as (d & W & S').
  destruct (pwr_wr p _ _ _ Hp W) as (p' & P & <- & Ho & _ & Hn). by exists p'.
Qed.

Lemma pwr_slot es p slots i x :
  p <> None -> is_slots es (pbytes p) slots -> 0 <= i < zlen slots -> zlen x = es ->
  exists p', pwr p (i * es) x = Ret p' /\ p' <> None /\ pown p' = pown p /\
    is_slots es (pbytes p') (<[Z.to_nat i := x]> slots).
Proof.
  intros Hp S Hi Hx. destruct (wr_slot _ _ _ _ _ S Hi Hx) as (d & W & S').
  destruct (pwr_wr p _ _ _ Hp W) as (p' & P & <- & Ho & _ & Hn). by exists p'.
Qed.

Lemma pwr_sub es p slots i s o x :
  p <> None -> is_slots es (pbytes p) slots -> 0 <= i -> slots !! Z.to_nat i = Some s -> 0 <= o ->
  o + zlen x <= es ->
  exists p', pwr p (i * es + o) x = Ret p' /\ p' <> None /\ pown p' = pown p /\
    is_slots es (pbytes p')
      (<[Z.to_nat i := take (Z.to_nat o) s ++ x ++ drop (Z.to_nat o + length x) s]> slots).
Proof.
  intros Hp S Hi E Ho Hx. destruct (wr_sub _ _ _ _ _ _ _ S Hi E Ho Hx) as (d & W & S').
  destruct (pwr_wr p _ _ _ Hp W) as (p' & P & <- & O & _ & Hn). by exists p'.
Qed.

(** [memmove] of the slots [s2] of a buffer to the place of [t2]. *)
Lemma pmemmove_slots es p s1 s2 s3 t1 t2 t3 dst src n :
  p <> None -> is_slots es (pbytes p) (s1 ++ s2 ++ s3) ->
  s1 ++ s2 ++ s3 = t1 ++ t2 ++ t3 ->
  src = zlen s1 * es -> n = zlen s2 * es -> dst = zlen t1 * es -> zlen s2 = zlen t2 ->
  exists p', pmemmove p dst src n = Ret p' /\ p' <> None /\ pown p' = pown p /\
    is_slots es (pbytes p') (t1 ++ s2 ++ t3).
Proof.
  intros Hp S Eq -> -> -> E. unfold pmemmove.
  erewrite prd_slots by done. simpl.
  apply (pwr_slots es p t1 t2 s2 t3); [done|by rewrite <- Eq|done|done|].
  destruct S as [_ F]. apply Forall_app in F as [_ F]. by apply Forall_app in F as [F _].
Qed.

(** ** Ownership transfer *)

Section Contract.
Context {C : Type} (a : zenit_allocator_t C) {SP : AllocSpec a}.
Implicit Types (c : C) (O : gset addr).

Lemma transfer_refl O c : O ⊆ live c -> transfer a O O c c.
Proof. by split. Qed.

Lemma transfer_trans O1 O2 O3 c1 c2 c3 :
  transfer a O1 O2 c1 c2 -> transfer a O2 O3 c2 c3 -> transfer a O1 O3 c1 c3.
Proof. unfold transfer. intros [_ H1] [H2 H3]. split; [done|congruence]. Qed.

(** Releasing everything a component owned leaves exactly the rest. *)
Lemma transfer_empty O c c' : transfer a O ∅ c c' -> live c' = live c ∖ O.
Proof. unfold transfer. intros [_ H]. set_solver. Qed.

(** What a client owns besides the component stays owned. *)
Lemma transfer_frame F O O' c c' :
  transfer a O O' c c' -> F ⊆ live c -> F ## O ->
  transfer a (F ∪ O) (F ∪ O') c c' /\ F ⊆ live c' /\ F ## O'.
Proof.
  intros [T1 T2] HF HD.
  assert (forall y, y ∈ live c' /\ y ∉ O' <-> y ∈ live c /\ y ∉ O) as E
    by (intros y; rewrite <- !elem_of_difference, T2; done).
  assert (F ⊆ live c' /\ F ## O') as [F1 F2].
  { split; intros y Hy; [apply E; set_solver|]. intros Hy'. apply (E y); set_solver. }
  split; [|done]. split; [set_solver|]. apply set_eq. intros y.
  rewrite !elem_of_difference, !elem_of_union. specialize (E y). naive_solver.
Qed.

Lemma transfer_alloc c n b c' O :
  O ⊆ live c -> alloc_fn a n c = (Some b, c') -> transfer a O ({[ b_addr b ]} ∪ O) c c'.
Proof.
  intros HO (_ & _ & Hb & Hl)%alloc_some. split; rewrite Hl; set_solver.
Qed.

Lemma transfer_alloc_none c n c' O :
  O ⊆ live c -> alloc_fn a n c = (None, c') -> transfer a O O c c'.
Proof. intros HO Hl%alloc_none. split; rewrite Hl; set_solver. Qed.

Lemma transfer_free O x c :
  O ⊆ live c -> x ∈ O -> transfer a O (O ∖ {[ x ]}) c (free_fn a (Some x) c).
Proof. intros HO Hx. split; rewrite free_some by set_solver; [set_solver|].
  apply set_eq. intros y. destruct (decide (y = x)); set_solver.
Qed.

Lemma transfer_pfree O p c :
  O ⊆ live c -> pown p ⊆ O ->
  transfer a O (O ∖ pown p) c (free_fn a (paddr p) c).
Proof.
  intros HO Hp. destruct p as [b|]; simpl in *.
  - apply transfer_free; set_solver.
  - split; rewrite free_none; set_solver.
Qed.

Lemma pfree_live p c : pown p ⊆ live c -> live (free_fn a (paddr p) c) = live c ∖ pown p.
Proof.
  intros Hp. destruct p as [b|]; simpl in *; [apply free_some; set_solver|].
  rewrite free_none. set_solver.
Qed.

(** A component that keeps [K], gives back [D] and takes [N]. *)
Lemma transfer_replace K D N c c' :
  K ∪ D ⊆ live c -> K ## D -> N ## live c -> live c' = (N ∪ live c) ∖ D ->
  transfer a (K ∪ D) (K ∪ N) c c'.
Proof.
  intros H1 H2 H3 E. unfold transfer. rewrite E. generalize dependent (live c). intros L H1 H3 E.
  split; [set_solver|]. apply set_eq. intros x. set_solver.
Qed.

(** What [zenit_allocator_alloc_zero] returns: NULL and an unchanged heap, or a
    fresh block of zero bytes. *)
Lemma alloc_zero_cases n m c :
  0 <= n * m < two64 ->
  exists r c', zenit_allocator_alloc_zero a n m c = Ret (r, c') /\
    match r with
    | None => live c' = live c
    | Some b => b_data b = replicate (Z.to_nat (n * m)) 0 /\ n * m <= PTRDIFF_MAX /\
                (b_addr b ∉ live c) /\ live c' = {[ b_addr b ]} ∪ live c
    end.
Proof.
  intros Hnm. unfold zenit_allocator_alloc_zero. rewrite u64_small by done.
  destruct (alloc_fn a (n * m) c) as [[b|] c'] eqn:E.
  - apply alloc_some in E as (L & M & Hb & Hl).
    unfold pmemset. rewrite decide_True by lia.
    simpl. rewrite wr_whole by (rewrite zlen_replicate; lia). simpl.
    by eexists (Some _), _.
  - eexists None, c'. split; [done|]. by eapply alloc_none.
Qed.

(** [zenit_allocator_realloc] with or without a [realloc_fn]: NULL and the old
    block intact, or a block of the new size that keeps the common prefix and
    takes the old block's place. *)
Lemma realloc_cases ptr old_size new_size c :
  pown ptr ⊆ live c -> zlen (pbytes ptr) = old_size -> 0 <= new_size ->
  exists r c', zenit_allocator_realloc a ptr old_size new_size c = Ret (r, c') /\
    match r with
    | None => live c' = live c
    | Some b => zlen (b_data b) = new_size /\ new_size <= PTRDIFF_MAX /\
        take (length (pbytes ptr)) (b_data b) = take (Z.to_nat new_size) (pbytes ptr) /\
        (b_addr b ∉ live c ∖ pown ptr) /\
        live c' = {[ b_addr b ]} ∪ (live c ∖ pown ptr)
    end.
Proof.
  intros Hp <- Hn. unfold zenit_allocator_realloc.
  destruct (realloc_fn a) as [f|] eqn:F.
  { destruct (f ptr new_size c) as [[b|] c'] eqn:E; eexists _, c'; (split; [done|]).
    - by eapply realloc_some.
    - by eapply realloc_none. }
  destruct (alloc_fn a new_size c) as [[b|] c1] eqn:E.
  2: { eexists None, c1. split; [done|]. by eapply alloc_none. }
  apply alloc_some in E as (L & M & Hb & Hl).
  destruct ptr as [p|]; simpl in *.
  2: { eexists (Some b), c1. rewrite take_nil. split; [done|].
       split_and!; [done|done|done|set_solver|set_solver]. }
  set (k := if decide _ then _ else _).
  assert (0 <= k <= zlen (b_data p) /\ k <= new_size) as [Hk1 Hk2]
    by (unfold k; pose proof (zlen_nonneg (b_data p)); case_decide; lia).
  rewrite rd_Ret by lia. simpl. rewrite drop_0.
  unfold wr. rewrite decide_True by zl. simpl.
  eexists (Some _), _. split; [done|]. simpl.
  assert (Hlen : length (take (Z.to_nat k) (b_data p)) = Z.to_nat k)
    by (rewrite length_take; unfold zlen in *; lia).
  split_and!; [|done| |set_solver|].
  - rewrite zlen_app, zlen_drop, Hlen. unfold zlen in *. rewrite Hlen. lia.
  - rewrite take_app, take_take, Hlen. unfold k in *. unfold zlen in *. case_decide.
    + replace (_ - _)%nat with O by lia. rewrite take_0, app_nil_r.
      rewrite !take_ge by lia. done.
    + replace (drop _ (b_data b)) with (@nil Z) by (symmetry; apply drop_ge; lia).
      rewrite take_nil, app_nil_r. f_equal. lia.
  - rewrite free_some by set_solver. rewrite Hl. set_solver.
Qed.
End Contract.
