(* ===== verification/Growth.v ===== *)
(** * The 1.5x growth loop

    [grow] of [src/vector.c], [src/deque.c] and [src/heap.c] run the same loop:
    [while (new_cap < min) new_cap = new_cap ? new_cap + new_cap / 2 : 8].
    [grow15] is that loop with fuel; the lemmas say when it ends, and that from
    capacity 1 it never does ([1 + 1 / 2 = 1]). *)

From Stdlib Require Import ZArith Lia.
From stdpp Require Import base tactics numbers.
From S2P Require Import Prelude.
Open Scope Z_scope.

Definition DEFAULT_CAPACITY : Z := 8.
Definition GROWTH_FACTOR (num : Z) : Z := u64 (num + num / 2).

Fixpoint grow15 (fuel : nat) (new_cap min_capacity : Z) : outcome Z :=
  if decide (new_cap < min_capacity) then
    match fuel with
    | O => NoFuel
    | S fuel =>
        grow15 fuel (if decide (new_cap = 0) then DEFAULT_CAPACITY else GROWTH_FACTOR new_cap)
          min_capacity
    end
  else Ret new_cap.

(** One more element than the capacity: a single turn of the loop. *)
Lemma grow15_next fuel cap :
  (1 <= fuel)%nat -> 0 <= cap -> cap <> 1 -> cap + cap / 2 < two64 ->
  grow15 fuel cap (cap + 1) =
    Ret (if decide (cap = 0) then DEFAULT_CAPACITY else cap + cap / 2).
Proof.
  intros Hf H0 H1 H2. destruct fuel as [|fuel]; [lia|]. simpl.
  rewrite decide_True by lia. unfold DEFAULT_CAPACITY, GROWTH_FACTOR.
  case_decide.
  - subst. by destruct fuel.
  - assert (1 <= cap / 2) by (apply Z.div_le_lower_bound; lia).
    rewrite u64_small by lia. destruct fuel; simpl; by rewrite decide_False by lia.
Qed.

Lemma grow15_ge fuel cap min n : grow15 fuel cap min = Ret n -> min <= n.
Proof.
  revert cap. induction fuel; intros cap; simpl; case_decide; try done.
  - intros [= <-]. lia.
  - apply IHfuel.
  - intros [= <-]. lia.
Qed.

(** From capacity 1 the loop never reaches a larger one. *)
Lemma grow15_one_diverges fuel min : 1 < min -> grow15 fuel 1 min = NoFuel.
Proof. intros H. induction fuel; simpl; rewrite decide_True by lia; done. Qed.
