(* ===== verification/Vector.v ===== *)
(** * Dynamic array ([src/vector.c])

    [zenit_vector_t] stores its elements as raw bytes in one buffer.  The model
    keeps the byte buffer and the index arithmetic of the source; NULL arguments
    are [None], an out-parameter is the bytes it points to, and a pointer into
    the buffer is its offset.  [vec_rep] relates a vector to the list of its
    elements and to the memory it owns. *)

From Stdlib Require Import ZArith Lia.
From stdpp Require Import base tactics option list numbers gmap sets.
From S2P Require Import Prelude Mem Result Allocator Growth.
Open Scope Z_scope.

Record zenit_vector_t (C : Type) : Type := mk_vector {
  v_self : addr;                        (** the handle's own address *)
  v_buffer : option block;
  v_elem_size : Z;
  v_count : Z;
  v_capacity : Z;
  v_allocator : zenit_allocator_t C }.
Arguments mk_vector {C}.
Arguments v_self {C}.
Arguments v_buffer {C}.
Arguments v_elem_size {C}.
Arguments v_count {C}.
Arguments v_capacity {C}.
Arguments v_allocator {C}.

Definition SIZEOF_VECTOR : Z := 64.

Section VectorModel.
Context {C : Type}.
Implicit Types (v : zenit_vector_t C) (c : C) (a : zenit_allocator_t C).

Definition set_buffer v (b : option block) (cap : Z) : zenit_vector_t C :=
  mk_vector (v_self v) b (v_elem_size v) (v_count v) cap (v_allocator v).
Definition set_count v (n : Z) : zenit_vector_t C :=
  mk_vector (v_self v) (v_buffer v) (v_elem_size v) n (v_capacity v) (v_allocator v).

Definition realloc_buffer v (new_cap : Z) c
    : outcome (zenit_error_t * zenit_vector_t C * C) :=
  let a := v_allocator v in
  if decide (new_cap = 0) then
    Ret (ZENIT_OK, set_buffer v None 0, free_fn a (paddr (v_buffer v)) c)
  else
    let! (new_buf, c1) := zenit_allocator_realloc a (v_buffer v)
                             (u64 (v_capacity v * v_elem_size v))
                             (u64 (new_cap * v_elem_size v)) c in
    match new_buf with
    | None => Ret (ZENIT_ERROR_ALLOC, v, c1)
    | Some _ => Ret (ZENIT_OK, set_buffer v new_buf new_cap, c1)
    end.

Definition grow (fuel : nat) v (min_capacity : Z) c
    : outcome (zenit_error_t * zenit_vector_t C * C) :=
  let! new_cap := grow15 fuel (v_capacity v) min_capacity in
  realloc_buffer v new_cap c.

Definition zenit_vector_create_with_allocator (elem_size : Z) a c
    : option (zenit_vector_t C) * C :=
  if decide (elem_size = 0) then (None, c)
  else
    match alloc_fn a SIZEOF_VECTOR c with
    | (None, c1) => (None, c1)
    | (Some h, c1) => (Some (mk_vector (b_addr h) None elem_size 0 0 a), c1)
    end.

Definition zenit_vector_create_with_capacity_and_allocator (elem_size capacity : Z) a c
    : option (zenit_vector_t C) * C :=
  if decide (elem_size = 0 \/ capacity = 0) then (None, c)
  else
    match alloc_fn a SIZEOF_VECTOR c with
    | (None, c1) => (None, c1)
    | (Some h, c1) =>
        match alloc_fn a (u64 (capacity * elem_size)) c1 with
        | (None, c2) => (None, free_fn a (Some (b_addr h)) c2)
        | (buffer, c2) => (Some (mk_vector (b_addr h) buffer elem_size 0 capacity a), c2)
        end
    end.

Definition zenit_vector_destroy (vector : option (zenit_vector_t C)) c : C :=
  match vector with
  | None => c
  | Some v =>
      let a := v_allocator v in
      let c1 := free_fn a (paddr (v_buffer v)) c in
      free_fn a (Some (v_self v)) c1
  end.

Definition zenit_vector_push (fuel : nat) (vector : option (zenit_vector_t C))
    (elem : option bytes) c : outcome (zenit_error_t * option (zenit_vector_t C) * C) :=
  match vector, elem with
  | Some v, Some e =>
      let! (r, v1, c1) :=
        if decide (v_count v = v_capacity v)
        then grow fuel v (u64 (v_capacity v + 1)) c
        else Ret (ZENIT_OK, v, c) in
      if decide (r <> ZENIT_OK) then Ret (r, Some v1, c1)
      else
        let! d := rd e 0 (v_elem_size v1) in
        let! buf := pwr (v_buffer v1) (u64 (v_count v1 * v_elem_size v1)) d in
        Ret (ZENIT_OK,
             Some (set_count (set_buffer v1 buf (v_capacity v1)) (u64 (v_count v1 + 1))), c1)
  | _, _ => Ret (ZENIT_ERROR_NULL, vector, c)
  end.

Definition zenit_vector_pop (vector : option (zenit_vector_t C)) (out_elem : option bytes)
    : outcome (zenit_error_t * option (zenit_vector_t C) * option bytes) :=
  match vector, out_elem with
  | Some v, Some out =>
      if decide (v_count v = 0) then Ret (ZENIT_ERROR_EMPTY, vector, out_elem)
      else
        let v1 := set_count v (u64 (v_count v - 1)) in
        let! d := prd (v_buffer v1) (u64 (v_count v1 * v_elem_size v1)) (v_elem_size v1) in
        let! out1 := wr out 0 d in
        Ret (ZENIT_OK, Some v1, Some out1)
  | _, _ => Ret (ZENIT_ERROR_NULL, vector, out_elem)
  end.

Definition zenit_vector_insert (fuel : nat) (vector : option (zenit_vector_t C)) (index : Z)
    (elem : option bytes) c : outcome (zenit_error_t * option (zenit_vector_t C) * C) :=
  match vector, elem with
  | Some v, Some e =>
      if decide (v_count v < index) then Ret (ZENIT_ERROR_PARAM, vector, c)
      else
        let! (r, v1, c1) :=
          if decide (v_count v = v_capacity v)
          then grow fuel v (u64 (v_count v + 1)) c
          else Ret (ZENIT_OK, v, c) in
        if decide (r <> ZENIT_OK) then Ret (r, Some v1, c1)
        else
          let! buf1 :=
            if decide (index < v_count v1)
            then pmemmove (v_buffer v1) (u64 (u64 (index + 1) * v_elem_size v1))
                   (u64 (index * v_elem_size v1))
                   (u64 (u64 (v_count v1 - index) * v_elem_size v1))
            else Ret (v_buffer v1) in
          let! d := rd e 0 (v_elem_size v1) in
          let! buf2 := pwr buf1 (u64 (index * v_elem_size v1)) d in
          Ret (ZENIT_OK,
               Some (set_count (set_buffer v1 buf2 (v_capacity v1)) (u64 (v_count v1 + 1))), c1)
  | _, _ => Ret (ZENIT_ERROR_NULL, vector, c)
  end.

Definition zenit_vector_remove (vector : option (zenit_vector_t C)) (index : Z)
    (out_elem : option bytes)
    : outcome (zenit_error_t * option (zenit_vector_t C) * option bytes) :=
  match vector, out_elem with
  | Some v, Some out =>
      if decide (v_count v <= index) then Ret (ZENIT_ERROR_PARAM, vector, out_elem)
      else
        let! d := prd (v_buffer v) (u64 (index * v_elem_size v)) (v_elem_size v) in
        let! out1 := wr out 0 d in
        let! buf :=
          if decide (u64 (index + 1) < v_count v)
          then pmemmove (v_buffer v) (u64 (index * v_elem_size v))
                 (u64 (u64 (index + 1) * v_elem_size v))
                 (u64 (u64 (v_count v - index - 1) * v_elem_size v))
          else Ret (v_buffer v) in
        Ret (ZENIT_OK,
             Some (set_count (set_buffer v buf (v_capacity v)) (u64 (v_count v - 1))), Some out1)
  | _, _ => Ret (ZENIT_ERROR_NULL, vector, out_elem)
  end.

(** A pointer into the buffer is its byte offset. *)
Definition zenit_vector_get (vector : option (zenit_vector_t C)) (index : Z) : option Z :=
  match vector with
  | None => None
  | Some v =>
      if decide (v_count v <= index) then None
      else Some (u64 (index * v_elem_size v))
  end.

Definition zenit_vector_set (vector : option (zenit_vector_t C)) (index : Z)
    (elem : option bytes) : outcome (zenit_error_t * option (zenit_vector_t C)) :=
  match vector, elem with
  | Some v, Some e =>
      if decide (v_count v <= index) then Ret (ZENIT_ERROR_PARAM, vector)
      else
        let! d := rd e 0 (v_elem_size v) in
        let! buf := pwr (v_buffer v) (u64 (index * v_elem_size v)) d in
        Ret (ZENIT_OK, Some (set_buffer v buf (v_capacity v)))
  | _, _ => Ret (ZENIT_ERROR_NULL, vector)
  end.

Definition zenit_vector_count (vector : option (zenit_vector_t C)) : Z :=
  match vector with None => 0 | Some v => v_count v end.

Definition zenit_vector_capacity (vector : option (zenit_vector_t C)) : Z :=
  match vector with None => 0 | Some v => v_capacity v end.

Definition zenit_vector_reserve (vector : option (zenit_vector_t C)) (capacity : Z) c
    : outcome (zenit_error_t * option (zenit_vector_t C) * C) :=
  match vector with
  | None => Ret (ZENIT_ERROR_NULL, vector, c)
  | Some v =>
      if decide (capacity <= v_capacity v) then Ret (ZENIT_OK, vector, c)
      else let! (r, v1, c1) := realloc_buffer v capacity c in Ret (r, Some v1, c1)
  end.

Definition zenit_vector_shrink_to_fit (vector : option (zenit_vector_t C)) c
    : outcome (zenit_error_t * option (zenit_vector_t C) * C) :=
  match vector with
  | None => Ret (ZENIT_ERROR_NULL, vector, c)
  | Some v =>
      if decide (v_count v = v_capacity v) then Ret (ZENIT_OK, vector, c)
      else let! (r, v1, c1) := realloc_buffer v (v_count v) c in Ret (r, Some v1, c1)
  end.

Definition zenit_vector_clear (vector : option (zenit_vector_t C))
    : option (zenit_vector_t C) :=
  match vector with None => None | Some v => Some (set_count v 0) end.

Definition zenit_vector_empty (vector : option (zenit_vector_t C)) : bool :=
  match vector with None => true | Some v => bool_decide (v_count v = 0) end.

Definition zenit_vector_iter (vector : option (zenit_vector_t C)) : zenit_iter_t :=
  mk_iter 0 (match vector with Some v => v_count v | None => 0 end)
    (match vector with Some _ => true | None => false end) None.

(** [zenit_vector_iter_next(&iter)] on the vector [iter.container] points to:
    the element's offset and the advanced iterator. *)
Definition zenit_vector_iter_next (iter : option zenit_iter_t)
    (container : option (zenit_vector_t C)) : outcome (option Z * option zenit_iter_t) :=
  match iter with
  | None => Ret (None, None)
  | Some it =>
      if negb (it_is_valid it) then Ret (None, iter)
      else if decide (it_count it <= it_index it) then Ret (None, iter)
      else
        match container with
        | None => Undef
        | Some v =>
            Ret (Some (u64 (it_index it * v_elem_size v)),
                 Some (mk_iter (u64 (it_index it + 1)) (it_count it) (it_is_valid it)
                         (it_internal it)))
        end
  end.

Definition zenit_vector_data (vector : option (zenit_vector_t C)) : option addr :=
  match vector with None => None | Some v => paddr (v_buffer v) end.
End VectorModel.

(** The constructors with the default allocator. *)
Definition zenit_vector_create (elem_size : Z) (h : heap) : option (zenit_vector_t heap) * heap :=
  zenit_vector_create_with_allocator elem_size ZENIT_ALLOCATOR_DEFAULT h.
Definition zenit_vector_create_with_capacity (elem_size capacity : Z) (h : heap)
    : option (zenit_vector_t heap) * heap :=
  zenit_vector_create_with_capacity_and_allocator elem_size capacity ZENIT_ALLOCATOR_DEFAULT h.

(** ** Representation

    [vec_rep a v l c]: in heap [c], [v] is a vector over [a] that holds the
    elements [l] and owns its handle and its buffer. *)
Definition vec_owns {C : Type} (v : zenit_vector_t C) : gset addr :=
  {[ v_self v ]} ∪ pown (v_buffer v).

Record vec_rep {C : Type} (a : zenit_allocator_t C) {SP : AllocSpec a}
    (v : zenit_vector_t C) (l : list bytes) (c : C) : Prop := {
  vr_alloc : v_allocator v = a;
  vr_es : 0 < v_elem_size v /\ 8 * v_elem_size v < two64;
  vr_count : v_count v = zlen l;
  vr_cap : v_capacity v * v_elem_size v <= PTRDIFF_MAX;
  vr_null : v_buffer v = None <-> v_capacity v = 0;
  vr_slots : exists spare,
    is_slots (v_elem_size v) (pbytes (v_buffer v)) (l ++ spare) /\
    v_capacity v = zlen l + zlen spare;
  vr_self : v_self v ∉ pown (v_buffer v);
  vr_live : vec_owns v ⊆ live c }.

(** What a vector operation that may allocate does: it succeeds with contents
    [l'], or reports [ZENIT_ERROR_ALLOC] and leaves the vector as it was. *)
Definition vec_post {C : Type} (a : zenit_allocator_t C) {SP : AllocSpec a}
    (v : zenit_vector_t C) (l l' : list bytes) (c : C)
    (r : zenit_error_t) (v' : zenit_vector_t C) (c' : C) : Prop :=
  transfer a (vec_owns v) (vec_owns v') c c' /\
  v_self v' = v_self v /\ v_elem_size v' = v_elem_size v /\
  ((r = ZENIT_OK /\ vec_rep a v' l' c') \/
   (r = ZENIT_ERROR_ALLOC /\ v' = v /\ vec_rep a v l c')).

(** ** Abstract specification

    The documented behaviour of the mutators on the list of elements: the error
    code, the element returned through the out-parameter, and the new list. *)
Inductive vector_op : Type :=
| VPush (x : bytes)
| VPop
| VInsert (index : Z) (x : bytes)
| VRemove (index : Z)
| VSet (index : Z) (x : bytes)
| VReserve (capacity : Z)
| VShrink
| VClear.

Definition vector_abs (op : vector_op) (l : list bytes)
    : zenit_error_t * option bytes * list bytes :=
  match op with
  | VPush x => (ZENIT_OK, None, l ++ [x])
  | VPop =>
      match last l with
      | None => (ZENIT_ERROR_EMPTY, None, l)
      | Some x => (ZENIT_OK, Some x, take (length l - 1) l)
      end
  | VInsert i x =>
      if decide (zlen l < i) then (ZENIT_ERROR_PARAM, None, l)
      else (ZENIT_OK, None, take (Z.to_nat i) l ++ x :: drop (Z.to_nat i) l)
  | VRemove i =>
      match l !! Z.to_nat i with
      | None => (ZENIT_ERROR_PARAM, None, l)
      | Some x => (ZENIT_OK, Some x, delete (Z.to_nat i) l)
      end
  | VSet i x =>
      if decide (zlen l <= i) then (ZENIT_ERROR_PARAM, None, l)
      else (ZENIT_OK, None, <[Z.to_nat i := x]> l)
  | VReserve _ => (ZENIT_OK, None, l)
  | VShrink => (ZENIT_OK, None, l)
  | VClear => (ZENIT_OK, None, [])
  end.

(** The calls themselves, with an out-buffer of one element where there is one. *)
Definition vector_exec {C : Type} (fuel : nat) (op : vector_op) (v : zenit_vector_t C) (c : C)
    : outcome (zenit_error_t * option bytes * option (zenit_vector_t C) * C) :=
  let out := replicate (Z.to_nat (v_elem_size v)) 0 in
  match op with
  | VPush x => let! (r, v', c') := zenit_vector_push fuel (Some v) (Some x) c in
               Ret (r, None, v', c')
  | VPop => let! (r, v', o) := zenit_vector_pop (Some v) (Some out) in
            Ret (r, if decide (r = ZENIT_OK) then o else None, v', c)
  | VInsert i x => let! (r, v', c') := zenit_vector_insert fuel (Some v) i (Some x) c in
                   Ret (r, None, v', c')
  | VRemove i => let! (r, v', o) := zenit_vector_remove (Some v) i (Some out) in
                 Ret (r, if decide (r = ZENIT_OK) then o else None, v', c)
  | VSet i x => let! (r, v') := zenit_vector_set (Some v) i (Some x) in Ret (r, None, v', c)
  | VReserve n => let! (r, v', c') := zenit_vector_reserve (Some v) n c in Ret (r, None, v', c')
  | VShrink => let! (r, v', c') := zenit_vector_shrink_to_fit (Some v) c in Ret (r, None, v', c')
  | VClear => Ret (ZENIT_OK, None, zenit_vector_clear (Some v), c)
  end.

(** What the caller must respect: elements of the right size, indices that are
    [size_t] values, no overflow of the requested byte count, and no growth of a
    full vector of capacity 1. *)
Definition vector_pre {C : Type} (v : zenit_vector_t C) (op : vector_op) : Prop :=
  match op with
  | VPush x => zlen x = v_elem_size v /\ ~ (v_count v = 1 /\ v_capacity v = 1)
  | VInsert i x => 0 <= i /\ zlen x = v_elem_size v /\ ~ (v_count v = 1 /\ v_capacity v = 1)
  | VRemove i => 0 <= i
  | VSet i x => 0 <= i /\ zlen x = v_elem_size v
  | VReserve n => n * v_elem_size v < two64
  | VPop | VShrink | VClear => True
  end.

(** The capacity a call may leave. *)
Definition vector_cap_post {C : Type} (op : vector_op) (v v' : zenit_vector_t C) : Prop :=
  v_capacity v' = v_capacity v \/
  match op with
  | VPush _ | VInsert _ _ => 1 < v_capacity v'
  | VReserve n => v_capacity v' = n
  | VShrink => v_capacity v' = v_count v
  | VPop | VRemove _ | VSet _ _ | VClear => False
  end.

(** The calls that may report [ZENIT_ERROR_ALLOC]. *)
Definition vector_may_alloc (op : vector_op) : Prop :=
  match op with
  | VPush _ | VInsert _ _ | VReserve _ | VShrink => True
  | VPop | VRemove _ | VSet _ _ | VClear => False
  end.

(** The result of a call agrees with the abstract specification, or reports an
    allocation failure and changes nothing; ownership is accounted for. *)
Definition vector_post {C : Type} (a : zenit_allocator_t C) {SP : AllocSpec a}
    (op : vector_op) (v : zenit_vector_t C) (l : list bytes) (c : C)
    (m : outcome (zenit_error_t * option bytes * option (zenit_vector_t C) * C)) : Prop :=
  exists r out v' c', m = Ret (r, out, Some v', c') /\
    transfer a (vec_owns v) (vec_owns v') c c' /\
    v_elem_size v' = v_elem_size v /\ vector_cap_post op v v' /\
    ((exists l', vector_abs op l = (r, out, l') /\ vec_rep a v' l' c') \/
     (vector_may_alloc op /\ r = ZENIT_ERROR_ALLOC /\ out = None /\ v' = v /\ vec_rep a v l c')).

(** A sequence of calls on one vector. *)
Fixpoint vector_run {C : Type} (fuel : nat) (ops : list vector_op) (v : zenit_vector_t C) (c : C)
    : outcome (zenit_vector_t C * C) :=
  match ops with
  | [] => Ret (v, c)
  | op :: ops =>
      let! (_, _, v', c') := vector_exec fuel op v c in
      match v' with Some v' => vector_run fuel ops v' c' | None => Undef end
  end.

(** Calls whose arguments are in order whatever the state of the vector: nothing
    that could bring the capacity to 1. *)
Definition vector_static_pre (es : Z) (op : vector_op) : Prop :=
  match op with
  | VPush x => zlen x = es
  | VInsert i x => 0 <= i /\ zlen x = es
  | VRemove i => 0 <= i
  | VSet i x => 0 <= i /\ zlen x = es
  | VReserve n => n * es < two64 /\ n <> 1
  | VPop | VClear => True
  | VShrink => False
  end.

Section VectorSpec.
Context {C : Type} (a : zenit_allocator_t C) {SP : AllocSpec a}.
Implicit Types (v : zenit_vector_t C) (c : C) (l : list bytes).

Lemma vec_bounds v l c :
  vec_rep a v l c ->
  0 <= v_count v <= v_capacity v /\ v_capacity v <= PTRDIFF_MAX /\
  0 <= v_count v * v_elem_size v <= v_capacity v * v_elem_size v /\
  v_capacity v * v_elem_size v <= PTRDIFF_MAX /\ zlen l = v_count v.
Proof.
  intros H. destruct (vr_es _ _ _ _ H), (vr_slots _ _ _ _ H) as (sp & _ & E).
  pose proof (vr_cap _ _ _ _ H). pose proof (vr_count _ _ _ _ H).
  pose proof (zlen_nonneg l). pose proof (zlen_nonneg sp).
  repeat split; nia.
Qed.

Lemma vec_rep_live v l c c' :
  vec_rep a v l c -> vec_owns v ⊆ live c' -> vec_rep a v l c'.
Proof. intros []. by constructor. Qed.

Lemma realloc_buffer_spec v l c new_cap :
  vec_rep a v l c -> zlen l <= new_cap -> new_cap * v_elem_size v < two64 ->
  exists r v' c', realloc_buffer v new_cap c = Ret (r, v', c') /\
    vec_post a v l l c r v' c' /\ (r = ZENIT_OK -> v_capacity v' = new_cap).
Proof.
  intros H Hl Hov. pose proof (vec_bounds _ _ _ H) as (Hc & Hcap & Hb & Hb' & Hz).
  destruct (vr_es _ _ _ _ H) as [Hes Hes8], (vr_slots _ _ _ _ H) as (sp & S & E).
  pose proof (vr_live _ _ _ _ H) as Hlive. pose proof (vr_self _ _ _ _ H) as Hself.
  pose proof (is_slots_zlen _ _ _ S) as LB. rewrite zlen_app in LB.
  unfold realloc_buffer. case_decide as Hn.
  - subst new_cap. assert (l = []) as -> by (apply zlen_0; pose proof (zlen_nonneg l); lia).
    rewrite (vr_alloc _ _ _ _ H).
    assert (transfer a (vec_owns v) {[v_self v]} c (free_fn a (paddr (v_buffer v)) c)) as T.
    { replace {[v_self v]} with (vec_owns v ∖ pown (v_buffer v))
        by (unfold vec_owns; set_solver).
      apply transfer_pfree; [done|]. unfold vec_owns. set_solver. }
    eexists _, _, _. split; [done|]. split; [|done].
    assert (vec_owns (set_buffer v None 0) = {[v_self v]}) as Ho
      by (unfold vec_owns; simpl; set_solver).
    split; [by rewrite Ho|]. do 2 (split; [done|]). left. split; [done|].
    constructor; simpl; try done.
    + apply H.
    + exists []. split; [apply is_slots_nil|done].
    + rewrite Ho. apply T.
  - rewrite (vr_alloc _ _ _ _ H), !u64_small by nia.
    destruct (realloc_cases a (v_buffer v) (v_capacity v * v_elem_size v)
                (new_cap * v_elem_size v) c) as (r & c' & R & P).
    { unfold vec_owns in Hlive. set_solver. } { rewrite LB, E. lia. } { nia. }
    rewrite R. simpl. destruct r as [b|].
    + destruct P as (P1 & P2 & P3 & P4 & P5).
      destruct (slots_resize (v_elem_size v) _ (b_data b) l sp new_cap Hes S P1 Hl)
        as (sp' & S' & E').
      { rewrite P3. f_equal. unfold zlen in P1. lia. }
      eexists _, _, _. split; [done|]. split; [|done].
      assert (vec_owns (set_buffer v (Some b) new_cap) = {[v_self v; b_addr b]}) as Ho by done.
      unfold vec_owns in Hlive.
      assert (transfer a (vec_owns v) {[v_self v; b_addr b]} c c') as T.
      { unfold vec_owns. split; rewrite P5; [set_solver|].
        apply set_eq. intros y. destruct (decide (y = b_addr b)); set_solver. }
      split; [by rewrite Ho|]. do 2 (split; [done|]). left. split; [done|].
      constructor; simpl; try done.
      * apply H.
      * exists sp'. by split.
      * rewrite elem_of_singleton. intros Eq. apply P4. rewrite <- Eq. set_solver.
      * apply T.
    + eexists _, _, _. split; [done|]. split; [|done].
      assert (vec_rep a v l c') as H' by (apply (vec_rep_live _ _ c); [done|by rewrite P]).
      split; [split; rewrite P; [done|set_solver]|]. do 2 (split; [done|]).
      by right.
Qed.

(** The growth guard shared by push and insert. *)
Lemma ensure_room fuel v l c :
  vec_rep a v l c -> (1 <= fuel)%nat -> (v_count v = v_capacity v -> v_capacity v <> 1) ->
  exists r v1 c1,
    (if decide (v_count v = v_capacity v)
     then grow fuel v (u64 (v_capacity v + 1)) c else Ret (ZENIT_OK, v, c)) = Ret (r, v1, c1) /\
    vec_post a v l l c r v1 c1 /\ (r = ZENIT_OK -> v_count v1 < v_capacity v1) /\
    (v_capacity v1 = v_capacity v \/ 1 < v_capacity v1).
Proof.
  intros H Hf H1. pose proof (vec_bounds _ _ _ H) as (Hc & Hcap & Hb & Hb' & Hz).
  destruct (vr_es _ _ _ _ H) as [Hes Hes8]. case_decide as Hfull.
  - assert (v_capacity v / 2 <= v_capacity v / 2 * v_elem_size v) as Hd
      by (assert (0 <= v_capacity v / 2) by (apply Z.div_pos; lia); nia).
    assert (v_capacity v / 2 * v_elem_size v * 2 <= v_capacity v * v_elem_size v) as Hd2
      by (pose proof (Z.mul_div_le (v_capacity v) 2); nia).
    unfold grow. rewrite u64_small by lia. rewrite grow15_next by lia. simpl.
    set (n := if decide _ then _ else _).
    assert (v_capacity v < n /\ 1 < n /\ n * v_elem_size v < two64) as (Hn1 & Hn1' & Hn2).
    { unfold n, DEFAULT_CAPACITY. case_decide; [lia|].
      assert (1 <= v_capacity v / 2) by (apply Z.div_le_lower_bound; lia). nia. }
    destruct (realloc_buffer_spec v l c n H) as (r & v' & c' & -> & P & Q); [lia|done|].
    eexists _, _, _. split; [done|]. split; [done|].
    destruct P as (_ & _ & _ & [[-> R]|(-> & -> & R)]).
    + rewrite Q by done. rewrite (vr_count _ _ _ _ R). lia.
    + split; [done|by left].
  - eexists _, _, _. split; [done|]. split; [|lia].
    split; [apply transfer_refl, H|]. do 2 (split; [done|]). by left.
Qed.

(** A new buffer in the same block, holding [l'] in its leading slots. *)
Lemma vec_update v l c buf l' spare :
  vec_rep a v l c -> buf <> None -> pown buf = pown (v_buffer v) -> v_capacity v <> 0 ->
  is_slots (v_elem_size v) (pbytes buf) (l' ++ spare) ->
  v_capacity v = zlen l' + zlen spare ->
  vec_rep a (set_count (set_buffer v buf (v_capacity v)) (zlen l')) l' c /\
  vec_owns (set_count (set_buffer v buf (v_capacity v)) (zlen l')) = vec_owns v.
Proof.
  intros H Hb Ho Hc S E. unfold vec_owns. simpl. rewrite Ho. split; [|done].
  constructor; simpl; try done.
  - apply H.
  - apply H.
  - apply H.
  - exists spare. by split.
  - rewrite Ho. apply H.
  - unfold vec_owns. simpl. rewrite Ho. apply H.
Qed.

Lemma vec_nonnull v l c : vec_rep a v l c -> v_capacity v <> 0 -> v_buffer v <> None.
Proof. intros H Hc N. by apply H in N. Qed.

Lemma vec_post_ok v l l' c v' :
  vec_rep a v l c -> vec_rep a v' l' c -> vec_owns v' = vec_owns v ->
  v_self v' = v_self v -> v_elem_size v' = v_elem_size v ->
  vec_post a v l l' c ZENIT_OK v' c.
Proof.
  intros H H' Ho Hs He. split; [|split; [done|split; [done|by left]]].
  rewrite Ho. apply transfer_refl, H.
Qed.

Lemma vec_post_trans v l l' c r v1 c1 r2 v2 c2 :
  vec_post a v l l c r v1 c1 -> r = ZENIT_OK ->
  vec_post a v1 l l' c1 r2 v2 c2 -> r2 = ZENIT_OK -> vec_post a v l l' c r2 v2 c2.
Proof.
  intros (T1 & S1 & E1 & _) -> (T2 & S2 & E2 & [[_ R]|[? _]]) ->; [|done].
  split; [by eapply transfer_trans|]. split_and!; [congruence|congruence|by left].
Qed.

(** The stores that put an element after the last one. *)
Lemma store_last v l c x :
  vec_rep a v l c -> zlen x = v_elem_size v -> v_count v < v_capacity v ->
  exists v', (let! d := rd x 0 (v_elem_size v) in
      let! buf := pwr (v_buffer v) (u64 (v_count v * v_elem_size v)) d in
      Ret (ZENIT_OK, Some (set_count (set_buffer v buf (v_capacity v)) (u64 (v_count v + 1))), c))
    = Ret (ZENIT_OK, Some v', c) /\
    vec_rep a v' (l ++ [x]) c /\ vec_owns v' = vec_owns v /\ v_self v' = v_self v /\
    v_elem_size v' = v_elem_size v /\ v_capacity v' = v_capacity v.
Proof.
  intros R Hx Q. pose proof (vec_bounds _ _ _ R) as (Hc & Hcap & Hb & Hb' & Hz).
  destruct (vr_slots _ _ _ _ R) as (sp & S & E).
  destruct sp as [|s sp]; [rewrite zlen_nil in E; lia|].
  rewrite rd_whole by congruence. simpl.
  destruct (pwr_slots (v_elem_size v) (v_buffer v) l [s] [x] sp (v_count v * v_elem_size v))
    as (buf & W & Hn & Ho & S'); [eapply vec_nonnull; [done|lia]|done|by rewrite Hz|done| |].
  { constructor; [congruence|done]. }
  simpl in W. rewrite app_nil_r in W. rewrite u64_small, W by lia. simpl.
  rewrite u64_small by lia.
  replace (v_count v + 1) with (zlen (l ++ [x])) by (rewrite zlen_app, zlen_cons, zlen_nil; lia).
  destruct (vec_update v l c buf (l ++ [x]) sp R Hn Ho) as [R' Ho']; [lia| | |].
  { by rewrite <- app_assoc. } { zl. }
  eexists. split; [done|]. by split_and!.
Qed.

(** With room left a push neither fails nor allocates. *)
Lemma push_room_spec fuel v l c x :
  vec_rep a v l c -> zlen x = v_elem_size v -> v_count v < v_capacity v ->
  exists v', zenit_vector_push fuel (Some v) (Some x) c = Ret (ZENIT_OK, Some v', c) /\
    vec_rep a v' (l ++ [x]) c /\ vec_owns v' = vec_owns v /\ v_self v' = v_self v /\
    v_elem_size v' = v_elem_size v /\ v_capacity v' = v_capacity v.
Proof.
  intros R Hx Q. unfold zenit_vector_push. rewrite decide_False by lia. cbn [obind].
  rewrite decide_False by (intros D; by apply D). by apply store_last.
Qed.

(** [zenit_vector_push] appends the element, or reports [ZENIT_ERROR_ALLOC]. *)
Lemma push_spec fuel v l c x :
  vec_rep a v l c -> zlen x = v_elem_size v -> (1 <= fuel)%nat ->
  (v_count v = v_capacity v -> v_capacity v <> 1) ->
  exists r v' c', zenit_vector_push fuel (Some v) (Some x) c = Ret (r, Some v', c') /\
    vec_post a v l (l ++ [x]) c r v' c' /\
    (v_capacity v' = v_capacity v \/ 1 < v_capacity v').
Proof.
  intros H Hx Hf H1. unfold zenit_vector_push.
  destruct (ensure_room fuel v l c H Hf H1) as (r & v1 & c1 & -> & P & Q & K). cbn [obind].
  destruct (decide (r <> ZENIT_OK)) as [N|Y].
  { eexists _, _, _. split; [done|]. split; [|done].
    destruct P as (T & S & E & [[? _]|R]); [done|]. split_and!; [done|done|done|by right]. }
  assert (r = ZENIT_OK) as -> by (destruct r; try done; by destruct Y).
  pose proof P as (_ & _ & E1 & [[_ R]|[? _]]); [|done]. specialize (Q eq_refl).
  destruct (store_last v1 l c1 x R) as (v2 & -> & R2 & O2 & S2 & Es2 & K2); [congruence|done|].
  eexists _, _, _. split; [done|]. split; [|by rewrite K2].
  eapply vec_post_trans; [done|done| |done]. by apply vec_post_ok.
Qed.

Lemma set_buffer_id v : set_buffer v (v_buffer v) (v_capacity v) = v.
Proof. by destruct v. Qed.

(** Dropping or keeping leading elements only changes the count. *)
Lemma vec_recount v l l' spare c :
  vec_rep a v l c ->
  is_slots (v_elem_size v) (pbytes (v_buffer v)) (l' ++ spare) ->
  v_capacity v = zlen l' + zlen spare ->
  vec_rep a (set_count v (zlen l')) l' c.
Proof.
  intros H S E. constructor; simpl; try apply H; try done. exists spare. by split.
Qed.

(** Emptiness and the last element. *)
Lemma pop_empty_spec v c out :
  vec_rep a v [] c ->
  zenit_vector_pop (Some v) (Some out) = Ret (ZENIT_ERROR_EMPTY, Some v, Some out).
Proof.
  intros H. unfold zenit_vector_pop. rewrite decide_True; [done|]. apply H.
Qed.

Lemma pop_spec v l x c out :
  vec_rep a v (l ++ [x]) c -> zlen out = v_elem_size v ->
  exists v', zenit_vector_pop (Some v) (Some out) = Ret (ZENIT_OK, Some v', Some x) /\
    vec_rep a v' l c /\ vec_owns v' = vec_owns v /\ v_elem_size v' = v_elem_size v /\
    v_capacity v' = v_capacity v.
Proof.
  intros H Ho. pose proof (vec_bounds _ _ _ H) as (Hc & Hcap & Hb & Hb' & Hz).
  destruct (vr_slots _ _ _ _ H) as (sp & S & E), (vr_es _ _ _ _ H) as [Hes Hes8].
  rewrite <- app_assoc in S. rewrite zlen_app, zlen_cons, zlen_nil in *.
  pose proof (zlen_nonneg l). pose proof (zlen_nonneg sp).
  unfold zenit_vector_pop. rewrite decide_False by lia. simpl.
  rewrite (u64_small (v_count v - 1)) by lia. rewrite u64_small by nia.
  rewrite (prd_slots (v_elem_size v) _ l [x] sp); [|eapply vec_nonnull; [done|lia]|done|nia|].
  2: { rewrite zlen_cons, zlen_nil. lia. }
  simpl. rewrite app_nil_r.
  assert (zlen x = v_elem_size v) as Hx.
  { destruct S as [_ F]. apply Forall_app in F as [_ F]. by inversion F. }
  rewrite wr_whole by congruence. simpl.
  replace (v_count v - 1) with (zlen l) by lia.
  eexists. split; [done|]. split; [|done].
  eapply vec_recount; [done|done|]. rewrite zlen_app, zlen_cons, zlen_nil. lia.
Qed.

(** The [memmove] of [zenit_vector_insert] opens a slot at [index]. *)
Lemma insert_gap v l1 l2 c :
  vec_rep a v (l1 ++ l2) c -> v_count v < v_capacity v ->
  exists y sp buf,
    (if decide (zlen l1 < v_count v)
     then pmemmove (v_buffer v) (u64 (u64 (zlen l1 + 1) * v_elem_size v))
            (u64 (zlen l1 * v_elem_size v))
            (u64 (u64 (v_count v - zlen l1) * v_elem_size v))
     else Ret (v_buffer v)) = Ret buf /\ buf <> None /\ pown buf = pown (v_buffer v) /\
    is_slots (v_elem_size v) (pbytes buf) (l1 ++ [y] ++ l2 ++ sp) /\
    v_capacity v = zlen l1 + zlen l2 + 1 + zlen sp.
Proof.
  intros R Q. pose proof (vec_bounds _ _ _ R) as (Hc & Hcap & Hb & Hb' & Hz).
  destruct (vr_slots _ _ _ _ R) as (sp & S & E), (vr_es _ _ _ _ R) as [Hes Hes8].
  assert (v_buffer v <> None) as Bn by (eapply vec_nonnull; [done|lia]).
  rewrite zlen_app in *. pose proof (zlen_nonneg l1). pose proof (zlen_nonneg l2).
  destruct sp as [|s sp]; [rewrite zlen_nil in E; lia|]. rewrite zlen_cons in E.
  pose proof (zlen_nonneg sp). rewrite <- app_assoc in S. case_decide.
  - destruct l2 as [|y l2]; [rewrite zlen_nil in *; lia|]. rewrite zlen_cons in *.
    pose proof (zlen_nonneg l2).
    rewrite (u64_small (zlen l1 + 1)), (u64_small (v_count v - zlen l1)), !u64_small by nia.
    destruct (pmemmove_slots (v_elem_size v) (v_buffer v) l1 (y :: l2) (s :: sp)
                (l1 ++ [y]) (l2 ++ [s]) sp ((zlen l1 + 1) * v_elem_size v)
                (zlen l1 * v_elem_size v) ((v_count v - zlen l1) * v_elem_size v))
      as (p' & M & Pn & Po & Ps); [done|done| |done|f_equal; zl|f_equal; zl|zl|].
    { by rewrite <- !app_assoc. }
    exists y, sp, p'. rewrite <- app_assoc in Ps. split_and!; try done. lia.
  - assert (l2 = []) as -> by (apply zlen_0; lia). exists s, sp, (v_buffer v).
    split_and!; try done. lia.
Qed.

(** [zenit_vector_insert] puts the element at [index]. *)
Lemma insert_spec fuel v l1 l2 c x :
  vec_rep a v (l1 ++ l2) c -> zlen x = v_elem_size v -> (1 <= fuel)%nat ->
  (v_count v = v_capacity v -> v_capacity v <> 1) ->
  exists r v' c',
    zenit_vector_insert fuel (Some v) (zlen l1) (Some x) c = Ret (r, Some v', c') /\
    vec_post a v (l1 ++ l2) (l1 ++ x :: l2) c r v' c' /\
    (v_capacity v' = v_capacity v \/ 1 < v_capacity v').
Proof.
  intros H Hx Hf H1. unfold zenit_vector_insert.
  pose proof (vec_bounds _ _ _ H) as (_ & _ & _ & _ & Hz0). rewrite zlen_app in Hz0.
  pose proof (zlen_nonneg l1). pose proof (zlen_nonneg l2). rewrite decide_False by lia.
  destruct (ensure_room fuel v _ c H Hf H1) as (r & v1 & c1 & R0 & P & Q & K).
  replace (if decide (v_count v = v_capacity v) then grow fuel v (u64 (v_count v + 1)) c
           else Ret (ZENIT_OK, v, c)) with (@Ret (zenit_error_t * zenit_vector_t C * C) (r, v1, c1)).
  2: { rewrite <- R0. case_decide as Y; [by rewrite Y|done]. }
  simpl. destruct (decide (r <> ZENIT_OK)) as [N|Y].
  { eexists _, _, _. split; [done|]. split; [|done].
    destruct P as (T & S & E & [[? _]|R]); [done|]. split_and!; [done|done|done|by right]. }
  assert (r = ZENIT_OK) as -> by (destruct r; try done; by destruct Y).
  pose proof P as (_ & _ & E1 & [[_ R]|[? _]]); [|done]. specialize (Q eq_refl).
  pose proof (vec_bounds _ _ _ R) as (Hc & Hcap & Hb & Hb' & Hz). rewrite zlen_app in Hz.
  destruct (vr_es _ _ _ _ R) as [Hes Hes8].
  destruct (insert_gap v1 l1 l2 c1 R Q) as (y & sp & buf & -> & Bn & Bo & Bs & E).
  simpl. rewrite rd_whole by congruence. simpl.
  destruct (pwr_slots (v_elem_size v1) buf l1 [y] [x] (l2 ++ sp) (zlen l1 * v_elem_size v1))
    as (buf2 & W & Bn2 & Bo2 & Bs2); [done|done|done|done|constructor; [congruence|done]|].
  simpl in W. rewrite app_nil_r in W. rewrite (u64_small (zlen l1 * _)), W by nia. simpl.
  rewrite u64_small by lia.
  replace (v_count v1 + 1) with (zlen (l1 ++ x :: l2)) by (rewrite zlen_app, zlen_cons; lia).
  destruct (vec_update v1 _ c1 buf2 (l1 ++ x :: l2) sp R Bn2) as [R' Ho'];
    [congruence|lia|by rewrite <- app_assoc|rewrite zlen_app, zlen_cons; lia|].
  eexists _, _, _. split; [done|]. split; [|done].
  eapply vec_post_trans; [done|done| |done]. by apply vec_post_ok.
Qed.

(** The [memmove] of [zenit_vector_remove] closes the gap at [index]. *)
Lemma remove_gap v l1 x l2 sp :
  is_slots (v_elem_size v) (pbytes (v_buffer v)) (l1 ++ x :: l2 ++ sp) ->
  v_buffer v <> None -> v_count v = zlen l1 + (1 + zlen l2) -> 0 < v_elem_size v ->
  v_count v * v_elem_size v <= PTRDIFF_MAX ->
  exists y buf, (if decide (zlen l1 + 1 < v_count v)
      then pmemmove (v_buffer v) (zlen l1 * v_elem_size v)
             (u64 ((zlen l1 + 1) * v_elem_size v))
             (u64 (u64 (v_count v - zlen l1 - 1) * v_elem_size v))
      else Ret (v_buffer v)) = Ret buf /\ buf <> None /\ pown buf = pown (v_buffer v) /\
      is_slots (v_elem_size v) (pbytes buf) (l1 ++ l2 ++ y :: sp).
Proof.
  intros S Bn Hz Hes Hb. pose proof (zlen_nonneg l1). pose proof (zlen_nonneg l2). case_decide.
  - destruct l2 as [|z l2 _] using rev_ind; [rewrite zlen_nil in *; lia|].
    rewrite zlen_app, zlen_cons, zlen_nil in *. pose proof (zlen_nonneg l2).
    rewrite (u64_small (v_count v - _ - _)), !u64_small by nia.
    destruct (pmemmove_slots (v_elem_size v) (v_buffer v) (l1 ++ [x]) (l2 ++ [z]) sp
                l1 (x :: l2) (z :: sp) (zlen l1 * v_elem_size v)
                ((zlen l1 + 1) * v_elem_size v) ((v_count v - zlen l1 - 1) * v_elem_size v))
      as (p' & M & Pn & Po & Ps); [done| | |f_equal; zl|f_equal; zl|done|zl|].
    { by rewrite <- app_assoc. } { by rewrite <- !app_assoc. }
    exists z, p'. rewrite <- !app_assoc in Ps |- *. done.
  - assert (l2 = []) as -> by (apply zlen_0; lia). by exists x, (v_buffer v).
Qed.

(** [zenit_vector_remove] returns the element at [index] and closes the gap. *)
Lemma remove_spec v l1 x l2 c out :
  vec_rep a v (l1 ++ x :: l2) c -> zlen out = v_elem_size v ->
  exists v', zenit_vector_remove (Some v) (zlen l1) (Some out) = Ret (ZENIT_OK, Some v', Some x) /\
    vec_rep a v' (l1 ++ l2) c /\ vec_owns v' = vec_owns v /\
    v_elem_size v' = v_elem_size v /\ v_capacity v' = v_capacity v.
Proof.
  intros H Ho. pose proof (vec_bounds _ _ _ H) as (Hc & Hcap & Hb & Hb' & Hz).
  destruct (vr_slots _ _ _ _ H) as (sp & S & E), (vr_es _ _ _ _ H) as [Hes Hes8].
  assert (v_buffer v <> None) as Bn by (pose proof (zlen_nonneg sp);
    rewrite zlen_app, zlen_cons in *; eapply vec_nonnull; [done|zl]).
  rewrite zlen_app, zlen_cons in *. pose proof (zlen_nonneg l1). pose proof (zlen_nonneg l2).
  pose proof (zlen_nonneg sp). rewrite <- app_assoc in S. simpl in S.
  unfold zenit_vector_remove. rewrite decide_False by lia.
  rewrite (u64_small (zlen l1 * _)), (u64_small (zlen l1 + 1)) by nia.
  rewrite (prd_slots (v_elem_size v) _ l1 [x] (l2 ++ sp)); [|done|done|done|zl].
  simpl. rewrite app_nil_r.
  assert (zlen x = v_elem_size v) as Hx.
  { destruct S as [_ F]. apply Forall_app in F as [_ F]. by inversion F. }
  rewrite wr_whole by congruence. simpl.
  destruct (remove_gap v l1 x l2 sp S Bn) as (y & buf & -> & Bn' & Bo & Bs); [lia|lia|lia|].
  simpl. rewrite u64_small by lia.
  replace (v_count v - 1) with (zlen (l1 ++ l2)) by (rewrite zlen_app; lia).
  destruct (vec_update v _ c buf (l1 ++ l2) (y :: sp) H Bn') as [R' Ho'];
    [done|lia|by rewrite <- app_assoc|rewrite zlen_app, zlen_cons; lia|].
  eexists. split; [done|]. done.
Qed.

(** [zenit_vector_set] overwrites the element at [index]. *)
Lemma set_spec v l1 x l2 c y :
  vec_rep a v (l1 ++ x :: l2) c -> zlen y = v_elem_size v ->
  exists v', zenit_vector_set (Some v) (zlen l1) (Some y) = Ret (ZENIT_OK, Some v') /\
    vec_rep a v' (l1 ++ y :: l2) c /\ vec_owns v' = vec_owns v /\
    v_elem_size v' = v_elem_size v /\ v_capacity v' = v_capacity v.
Proof.
  intros H Hy. pose proof (vec_bounds _ _ _ H) as (Hc & Hcap & Hb & Hb' & Hz).
  destruct (vr_slots _ _ _ _ H) as (sp & S & E), (vr_es _ _ _ _ H) as [Hes Hes8].
  pose proof (vr_count _ _ _ _ H) as Hcnt.
  rewrite zlen_app, zlen_cons in *. pose proof (zlen_nonneg l1). pose proof (zlen_nonneg l2).
  pose proof (zlen_nonneg sp). rewrite <- app_assoc in S. simpl in S.
  unfold zenit_vector_set. rewrite decide_False by lia.
  rewrite rd_whole by congruence. simpl. rewrite u64_small by nia.
  destruct (pwr_slots (v_elem_size v) (v_buffer v) l1 [x] [y] (l2 ++ sp) (zlen l1 * v_elem_size v))
    as (buf & W & Bn & Bo & Bs); [eapply vec_nonnull; [done|lia]|done|done|done| |].
  { constructor; [congruence|done]. }
  simpl in W. rewrite app_nil_r in W. rewrite W. simpl.
  destruct (vec_update v _ c buf (l1 ++ y :: l2) sp H Bn) as [R' Ho'];
    [done|lia|by rewrite <- app_assoc|rewrite zlen_app, zlen_cons; lia|].
  rewrite zlen_app, zlen_cons, <- Hcnt in R'. rewrite zlen_app, zlen_cons, <- Hcnt in Ho'.
  eexists. split; [done|]. split; [by destruct v|]. split; [by destruct v|]. done.
Qed.

Lemma reserve_spec v l c n :
  vec_rep a v l c -> n * v_elem_size v < two64 ->
  exists r v' c', zenit_vector_reserve (Some v) n c = Ret (r, Some v', c') /\
    vec_post a v l l c r v' c' /\ (r = ZENIT_OK -> n <= v_capacity v') /\
    v_count v' = v_count v /\ (v_capacity v' = v_capacity v \/ v_capacity v' = n).
Proof.
  intros H Hn. pose proof (vec_bounds _ _ _ H) as (Hc & _ & _ & _ & Hz).
  unfold zenit_vector_reserve. case_decide.
  - eexists _, _, _. split; [done|]. split; [by apply vec_post_ok|].
    split; [done|]. split; [done|by left].
  - destruct (realloc_buffer_spec v l c n H) as (r & v' & c' & -> & P & Q); [lia|done|].
    simpl. eexists _, _, _. split; [done|]. split; [done|].
    destruct P as (_ & _ & _ & [[-> R]|(-> & -> & _)]).
    + rewrite Q by done. rewrite (vr_count _ _ _ _ R), (vr_count _ _ _ _ H). lia.
    + split; [done|]. split; [done|by left].
Qed.

Lemma shrink_spec v l c :
  vec_rep a v l c ->
  exists r v' c', zenit_vector_shrink_to_fit (Some v) c = Ret (r, Some v', c') /\
    vec_post a v l l c r v' c' /\
    (v_capacity v' = v_capacity v \/ v_capacity v' = v_count v).
Proof.
  intros H. pose proof (vec_bounds _ _ _ H) as (Hc & ? & ? & ? & Hz).
  unfold zenit_vector_shrink_to_fit. case_decide.
  - eexists _, _, _. split; [done|]. split; [by apply vec_post_ok|by left].
  - destruct (realloc_buffer_spec v l c (v_count v) H) as (r & v' & c' & -> & P & Q); [lia|lia|].
    simpl. eexists _, _, _. split; [done|]. split; [done|].
    destruct P as (_ & _ & _ & [[-> _]|(_ & -> & _)]); [right; by apply Q|by left].
Qed.

Lemma clear_spec v l c :
  vec_rep a v l c ->
  exists v', zenit_vector_clear (Some v) = Some v' /\ vec_rep a v' [] c /\
    vec_owns v' = vec_owns v /\ v_elem_size v' = v_elem_size v /\
    v_capacity v' = v_capacity v.
Proof.
  intros H. destruct (vr_slots _ _ _ _ H) as (sp & S & E).
  eexists. split; [done|]. split; [|done].
  apply (vec_recount v l [] (l ++ sp) c); [done|done|]. rewrite zlen_app, zlen_nil. lia.
Qed.

(** A pointer returned by [zenit_vector_get] reads the element. *)
Lemma get_spec v l c i :
  vec_rep a v l c -> 0 <= i ->
  match l !! Z.to_nat i with
  | None => zenit_vector_get (Some v) i = None
  | Some x => exists off, zenit_vector_get (Some v) i = Some off /\
                prd (v_buffer v) off (v_elem_size v) = Ret x
  end.
Proof.
  intros H Hi. pose proof (vec_bounds _ _ _ H) as (Hc & Hcap & Hb & Hb' & Hz).
  destruct (vr_slots _ _ _ _ H) as (sp & S & E), (vr_es _ _ _ _ H) as [Hes _].
  unfold zenit_vector_get. destruct (l !! Z.to_nat i) as [x|] eqn:L.
  - pose proof (lookup_lt_Some _ _ _ L) as Lt. unfold zlen in Hz.
    rewrite decide_False by lia. rewrite u64_small by nia. eexists. split; [done|].
    eapply prd_slot; [eapply vec_nonnull; [done|lia]|done|done|].
    by rewrite lookup_app_l.
  - apply lookup_ge_None in L. unfold zlen in Hz. by rewrite decide_True by lia.
Qed.

(** [zenit_vector_create_with_allocator]: NULL and no allocation left behind, or
    an empty vector. *)
Lemma create_spec es c :
  0 <= es -> 8 * es < two64 ->
  match zenit_vector_create_with_allocator es a c with
  | (None, c') => live c' = live c
  | (Some v, c') => vec_rep a v [] c' /\ transfer a ∅ (vec_owns v) c c' /\
                    v_elem_size v = es /\ v_capacity v = 0
  end.
Proof.
  intros H0 H8. unfold zenit_vector_create_with_allocator. case_decide; [done|].
  destruct (alloc_fn a SIZEOF_VECTOR c) as [[h|] c'] eqn:A; [|by eapply alloc_none].
  assert (transfer a ∅ {[b_addr h]} c c') as T.
  { replace {[b_addr h]} with ({[b_addr h]} ∪ ∅ : gset addr) by set_solver.
    by eapply transfer_alloc. }
  assert (vec_owns (mk_vector (b_addr h) None es 0 0 a) = {[b_addr h]}) as Ho
    by (unfold vec_owns; simpl; set_solver).
  split; [|by rewrite Ho]. constructor; simpl; try done; try lia.
  - exists []. split; [apply is_slots_nil|done].
  - rewrite Ho. apply T.
Qed.

Lemma create_capacity_spec es cap c :
  0 <= es -> 8 * es < two64 -> 0 <= cap -> cap * es < two64 ->
  match zenit_vector_create_with_capacity_and_allocator es cap a c with
  | (None, c') => live c' = live c
  | (Some v, c') => vec_rep a v [] c' /\ transfer a ∅ (vec_owns v) c c' /\
                    v_elem_size v = es /\ v_capacity v = cap
  end.
Proof.
  intros H0 H8 Hc Hov. unfold zenit_vector_create_with_capacity_and_allocator.
  case_decide as D; [done|].
  destruct (alloc_fn a SIZEOF_VECTOR c) as [[h|] c1] eqn:A1; [|by eapply alloc_none].
  rewrite u64_small by nia.
  destruct (alloc_fn a (cap * es) c1) as [[b|] c2] eqn:A2.
  - apply alloc_some in A1 as (_ & _ & F1 & L1).
    apply alloc_some in A2 as (Z2 & M2 & F2 & L2).
    assert (vec_owns (mk_vector (b_addr h) (Some b) es 0 cap a) = {[b_addr h; b_addr b]}) as Ho
      by done.
    assert (transfer a ∅ {[b_addr h; b_addr b]} c c2) as T
      by (split; rewrite L2, L1; set_solver).
    split; [|by rewrite Ho]. constructor; simpl; try done; try lia.
    + split; [done|]. intros ->. destruct D. by right.
    + exists (slots_of (Z.to_nat es) (Z.to_nat cap) (b_data b)).
      assert (is_slots es (b_data b) (slots_of (Z.to_nat es) (Z.to_nat cap) (b_data b))) as S
        by (apply is_slots_exists; rewrite Z2; f_equal; lia).
      split; [done|]. apply is_slots_zlen in S. rewrite zlen_nil. nia.
    + set_solver.
    + rewrite Ho. apply T.
  - apply alloc_some in A1 as (_ & _ & F1 & L1). apply alloc_none in A2.
    rewrite free_some, A2, L1; set_solver.
Qed.

Lemma destroy_spec v l c :
  vec_rep a v l c -> transfer a (vec_owns v) ∅ c (zenit_vector_destroy (Some v) c).
Proof.
  intros H. pose proof (vr_self _ _ _ _ H) as Hs. pose proof (vr_live _ _ _ _ H) as Hl.
  unfold zenit_vector_destroy. rewrite (vr_alloc _ _ _ _ H).
  pose proof (transfer_pfree a (vec_owns v) (v_buffer v) c Hl) as T1.
  unfold vec_owns in *.
  specialize (T1 ltac:(set_solver)). replace (({[v_self v]} ∪ pown (v_buffer v)) ∖ pown (v_buffer v))
    with ({[v_self v]} : gset addr) in T1 by set_solver.
  eapply transfer_trans; [exact T1|].
  replace (∅ : gset addr) with ({[v_self v]} ∖ {[v_self v]} : gset addr) by set_solver.
  apply transfer_free; [apply T1|set_solver].
Qed.
End VectorSpec.

Section VectorRefinement.
Context {C : Type} (a : zenit_allocator_t C) {SP : AllocSpec a}.
Implicit Types (v : zenit_vector_t C) (c : C) (l : list bytes).

Lemma post_alloc op v l l' c r v' c' :
  vec_post a v l l' c r v' c' -> vector_cap_post op v v' -> vector_may_alloc op ->
  vector_abs op l = (ZENIT_OK, None, l') ->
  vector_post a op v l c (Ret (r, None, Some v', c')).
Proof.
  intros (T & _ & Es & P) K M E. eexists _, _, _, _. do 4 (split; [done|]).
  destruct P as [[-> R]|(-> & -> & R)]; [left; by exists l'|by right].
Qed.

Lemma post_stay op v l l' c r out v' :
  vec_rep a v l c -> vec_rep a v' l' c -> vec_owns v' = vec_owns v ->
  v_elem_size v' = v_elem_size v -> v_capacity v' = v_capacity v ->
  vector_abs op l = (r, out, l') ->
  vector_post a op v l c (Ret (r, out, Some v', c)).
Proof.
  intros H H' O Es K E. eexists _, _, _, _. split; [done|]. rewrite O.
  split; [apply transfer_refl, H|]. do 2 (split; [by try left|]). left; by exists l'.
Qed.

Lemma out_size v l c :
  vec_rep a v l c -> zlen (replicate (Z.to_nat (v_elem_size v)) 0) = v_elem_size v.
Proof. intros H. rewrite zlen_replicate. pose proof (vr_es _ _ _ _ H). lia. Qed.

Lemma vector_step fuel op v l c :
  vec_rep a v l c -> vector_pre v op -> (1 <= fuel)%nat ->
  vector_post a op v l c (vector_exec fuel op v c).
Proof.
  intros H Hpre Hf. pose proof (vec_bounds _ _ _ _ H) as (Hc & _ & _ & _ & Hz).
  pose proof (out_size _ _ _ H) as Hout.
  destruct op as [x| |i x|i|i x|n| |]; cbn [vector_exec]; simpl in Hpre.
  - destruct (push_spec a fuel v l c x H) as (r & v' & c' & -> & P & K); [apply Hpre|done|lia|].
    by eapply post_alloc.
  - destruct l as [|x l _] using rev_ind.
    + rewrite (pop_empty_spec a v c) by done. by eapply post_stay.
    + destruct (pop_spec a v l x c _ H Hout) as (v' & -> & R & O & ? & ?).
      eapply post_stay; try done. simpl. rewrite last_snoc, length_app. simpl.
      rewrite Nat.add_sub. by rewrite take_app_length.
  - destruct (decide (zlen l < i)) as [Hi|Hi].
    + unfold zenit_vector_insert. rewrite decide_True by lia.
      eapply post_stay; try done. simpl. by rewrite decide_True.
    + destruct (list_split_at l i) as (l1 & l2 & -> & E); [lia|]. subst i.
      destruct (insert_spec a fuel v l1 l2 c x H)
        as (r & v' & c' & -> & P & K); [apply Hpre|done|lia|].
      eapply post_alloc; [done|done|done|]. simpl. rewrite decide_False by done. unfold zlen.
      by rewrite Nat2Z.id, take_app_length, drop_app_length.
  - destruct (l !! Z.to_nat i) as [x|] eqn:L.
    + pose proof L as (l1 & l2 & -> & E)%list_elem_of_split_length.
      destruct (remove_spec a v l1 x l2 c _ H Hout) as (v' & R & R' & O & ? & ?).
      replace i with (zlen l1) by (unfold zlen; lia). rewrite R.
      eapply post_stay; try done. simpl. unfold zlen. rewrite Nat2Z.id, <- E, L, E.
      by rewrite delete_middle.
    + pose proof L as G%lookup_ge_None. unfold zenit_vector_remove.
      rewrite decide_True by (unfold zlen in Hz; lia).
      eapply post_stay; try done. simpl. by rewrite L.
  - destruct (decide (zlen l <= i)) as [Hi|Hi].
    + unfold zenit_vector_set. rewrite decide_True by lia.
      eapply post_stay; try done. simpl. by rewrite decide_True.
    + destruct (lookup_lt_is_Some_2 l (Z.to_nat i)) as [y L]; [unfold zlen in *; lia|].
      apply list_elem_of_split_length in L as (l1 & l2 & -> & E).
      destruct (set_spec a v l1 y l2 c x H) as (v' & R & R' & O & ? & ?); [apply Hpre|].
      replace i with (zlen l1) in * by (unfold zlen; lia). rewrite R.
      eapply post_stay; try done. simpl. rewrite decide_False by done. unfold zlen.
      by rewrite Nat2Z.id, <- (Nat.add_0_r (length l1)), insert_app_r.
  - destruct (reserve_spec a v l c n H Hpre) as (r & v' & c' & -> & P & _ & _ & K).
    by eapply post_alloc.
  - destruct (shrink_spec a v l c H) as (r & v' & c' & -> & P & K). by eapply post_alloc.
  - destruct (clear_spec a v l c H) as (v' & E & R & O & ? & ?). rewrite E. by eapply post_stay.
Qed.

Lemma vector_static_step fuel es op v l c :
  vec_rep a v l c -> v_elem_size v = es -> v_capacity v <> 1 ->
  vector_static_pre es op -> (1 <= fuel)%nat ->
  exists r o v' l' c', vector_exec fuel op v c = Ret (r, o, Some v', c') /\
    transfer a (vec_owns v) (vec_owns v') c c' /\ vec_rep a v' l' c' /\
    v_elem_size v' = es /\ v_capacity v' <> 1.
Proof.
  intros H <- Hc Hs Hf.
  assert (vector_pre v op) as Hpre by (destruct op; simpl in *; naive_solver).
  destruct (vector_step fuel op v l c H Hpre Hf)
    as (r & o & v' & c' & -> & T & Es & K & R).
  assert (v_capacity v' <> 1) as K'.
  { destruct K as [K|K]; [congruence|]. destruct op; simpl in *; naive_solver lia. }
  destruct R as [(l' & _ & R)|(_ & _ & _ & -> & R)]; eexists _, _, _, _, _; done.
Qed.


(** From creation to destruction: a vector created with room for [cap]
    elements accepts any sequence of calls that never asks for capacity 1, every
    call returns without undefined behaviour, and [zenit_vector_destroy] then
    releases exactly the memory the vector held.  When creation fails nothing
    stays allocated. *)
Theorem vector_lifecycle fuel es cap ops c :
  0 <= es -> 8 * es < two64 -> 0 <= cap -> cap <> 1 -> cap * es < two64 ->
  Forall (vector_static_pre es) ops -> (1 <= fuel)%nat ->
  match zenit_vector_create_with_capacity_and_allocator es cap a c with
  | (None, c1) => live c1 = live c
  | (Some v, c1) => exists v' c2, vector_run fuel ops v c1 = Ret (v', c2) /\
      live (zenit_vector_destroy (Some v') c2) = live c
  end.
Proof.
  intros H0 H8 Hc0 Hc1 Hov Hops Hf.
  pose proof (create_capacity_spec a es cap c H0 H8 Hc0 Hov) as Cr.
  destruct (zenit_vector_create_with_capacity_and_allocator es cap a c) as [[v|] c1]; [|done].
  destruct Cr as (R & T & Es & Cap). rewrite <- Cap in Hc1. clear Cap Hc0 Hov.
  generalize dependent c1. generalize (@nil bytes) as l. revert v Es Hc1.
  induction Hops as [|op ops Hop _ IH]; intros v Es Hc1 l c1 R T; simpl.
  - eexists _, _. split; [done|].
    pose proof (transfer_trans _ _ _ _ _ _ _ T (destroy_spec a v l c1 R)) as D.
    apply transfer_empty in D. by rewrite difference_empty_L in D.
  - destruct (vector_static_step fuel es op v l c1 R Es Hc1 Hop Hf)
      as (r & o & v' & l' & c' & -> & T' & R' & Es' & K). simpl.
    eapply IH; [done|done|done|]. by eapply transfer_trans.
Qed.

(** A vector whose capacity is 1 and that is full never accepts another
    element: [grow] computes [1 + 1 / 2 = 1] for ever, so no amount of fuel makes
    [zenit_vector_push] or an in-range [zenit_vector_insert] return. *)
Theorem vector_capacity_one_diverges v x c :
  vec_rep a v [x] c -> v_capacity v = 1 ->
  forall fuel y i c', 0 <= i <= 1 ->
    zenit_vector_push fuel (Some v) (Some y) c' = NoFuel /\
    zenit_vector_insert fuel (Some v) i (Some y) c' = NoFuel.
Proof.
  intros H Hc fuel y i c' Hi. pose proof (vr_count _ _ _ _ H) as Hn. rewrite zlen_cons, zlen_nil in Hn.
  unfold zenit_vector_push, zenit_vector_insert, grow.
  rewrite (decide_False (P := v_count v < i)) by lia.
  rewrite !decide_True by lia. rewrite Hn, Hc, !u64_small by lia.
  by rewrite !grow15_one_diverges by lia.
Qed.
End VectorRefinement.

(** ** Witnesses *)

(** Two-byte elements, one stored, room for three, on the default allocator. *)
Definition wit_vector : zenit_vector_t heap :=
  mk_vector 2 (Some (Block 3 [1; 2; 165; 165; 165; 165])) 2 1 3 ZENIT_ALLOCATOR_DEFAULT.
Definition wit_heap : heap := mk_heap {[ 2%positive; 3%positive ]} [].

Lemma wit_vector_rep : vec_rep ZENIT_ALLOCATOR_DEFAULT wit_vector [[1; 2]] wit_heap.
Proof.
  constructor; simpl; try done.
  exists [[165; 165]; [165; 165]]. split; [|done]. split; [done|].
  repeat constructor.
Qed.


Lemma vector_lifecycle_witness :
  match zenit_vector_create_with_capacity_and_allocator 2 2 ZENIT_ALLOCATOR_DEFAULT empty_heap with
  | (None, c1) => h_live c1 = h_live empty_heap
  | (Some v, c1) => exists v' c2,
      vector_run 1 [VPush [1; 2]; VPush [3; 4]; VInsert 1 [5; 6]; VPop; VRemove 0; VClear] v c1
        = Ret (v', c2) /\
      h_live (zenit_vector_destroy (Some v') c2) = h_live empty_heap
  end.
Proof.
  refine (vector_lifecycle ZENIT_ALLOCATOR_DEFAULT 1 2 2
    [VPush [1; 2]; VPush [3; 4]; VInsert 1 [5; 6]; VPop; VRemove 0; VClear] empty_heap
    _ _ _ _ _ _ _); try lia.
  repeat constructor; simpl; lia.
Defined.

(** A vector created with capacity 1 and given one element. *)
Definition wit_full_one : zenit_vector_t heap :=
  mk_vector 2 (Some (Block 3 [9])) 1 1 1 ZENIT_ALLOCATOR_DEFAULT.

Lemma wit_full_one_reached :
  match zenit_vector_create_with_capacity 1 1 empty_heap with
  | (Some v, h) => exists h', zenit_vector_push 1 (Some v) (Some [9]) h
                     = Ret (ZENIT_OK, Some wit_full_one, h')
  | _ => False
  end.
Proof. vm_compute. by eexists. Qed.

Lemma vector_capacity_one_diverges_witness :
  zenit_vector_push 1000 (Some wit_full_one) (Some [5]) wit_heap = NoFuel /\
  zenit_vector_insert 1000 (Some wit_full_one) 0 (Some [5]) wit_heap = NoFuel.
Proof.
  apply (vector_capacity_one_diverges ZENIT_ALLOCATOR_DEFAULT wit_full_one [9] wit_heap);
    [|reflexivity|lia].
  constructor; simpl; try done. exists []. split; [|done]. split; [done|]. repeat constructor.
Defined.
