(* ===== verification/Stack.v ===== *)
(** * LIFO stack ([src/stack.c])

    A [zenit_stack_t] owns a vector and forwards to it.  [stack_rep] keeps the
    elements with the top first; its invariant that the vector's capacity is never
    1 makes every operation total, although the vector alone is not. *)

From Stdlib Require Import ZArith Lia.
From stdpp Require Import base tactics option list numbers gmap sets.
From S2P Require Import Prelude Mem Result Allocator Growth Vector.
Open Scope Z_scope.

Record zenit_stack_t (C : Type) : Type := mk_stack {
  s_self : addr;
  s_vector : option (zenit_vector_t C);
  s_elem_size : Z;
  s_allocator : zenit_allocator_t C }.
Arguments mk_stack {C}.
Arguments s_self {C}.
Arguments s_vector {C}.
Arguments s_elem_size {C}.
Arguments s_allocator {C}.

Definition SIZEOF_STACK : Z := 48.

Section StackModel.
Context {C : Type}.
Implicit Types (k : zenit_stack_t C) (c : C) (a : zenit_allocator_t C).

Definition set_vector k (v : option (zenit_vector_t C)) : zenit_stack_t C :=
  mk_stack (s_self k) v (s_elem_size k) (s_allocator k).

Definition zenit_stack_create_with_allocator (elem_size : Z) a c : option (zenit_stack_t C) * C :=
  if decide (elem_size = 0) then (None, c)
  else
    match alloc_fn a SIZEOF_STACK c with
    | (None, c1) => (None, c1)
    | (Some h, c1) =>
        match zenit_vector_create_with_allocator elem_size a c1 with
        | (None, c2) => (None, free_fn a (Some (b_addr h)) c2)
        | (vector, c2) => (Some (mk_stack (b_addr h) vector elem_size a), c2)
        end
    end.

Definition zenit_stack_destroy (stack : option (zenit_stack_t C)) c : C :=
  match stack with
  | None => c
  | Some k =>
      let a := s_allocator k in
      let c1 := zenit_vector_destroy (s_vector k) c in
      free_fn a (Some (s_self k)) c1
  end.

Definition zenit_stack_push (fuel : nat) (stack : option (zenit_stack_t C)) (elem : option bytes) c
    : outcome (zenit_error_t * option (zenit_stack_t C) * C) :=
  match stack, elem with
  | Some k, Some _ =>
      let! (r, v, c1) := zenit_vector_push fuel (s_vector k) elem c in
      Ret (r, Some (set_vector k v), c1)
  | _, _ => Ret (ZENIT_ERROR_NULL, stack, c)
  end.

Definition zenit_stack_pop (stack : option (zenit_stack_t C)) (out_elem : option bytes)
    : outcome (zenit_error_t * option (zenit_stack_t C) * option bytes) :=
  match stack, out_elem with
  | Some k, Some _ =>
      let! (r, v, o) := zenit_vector_pop (s_vector k) out_elem in
      Ret (r, Some (set_vector k v), o)
  | _, _ => Ret (ZENIT_ERROR_NULL, stack, out_elem)
  end.

(** The top element's offset in the vector's buffer. *)
Definition zenit_stack_peek (stack : option (zenit_stack_t C)) : option Z :=
  match stack with
  | None => None
  | Some k =>
      let count := zenit_vector_count (s_vector k) in
      if decide (count = 0) then None else zenit_vector_get (s_vector k) (u64 (count - 1))
  end.

Definition zenit_stack_count (stack : option (zenit_stack_t C)) : Z :=
  match stack with None => 0 | Some k => zenit_vector_count (s_vector k) end.

Definition zenit_stack_empty (stack : option (zenit_stack_t C)) : bool :=
  match stack with None => true | Some k => zenit_vector_empty (s_vector k) end.

Definition zenit_stack_clear (stack : option (zenit_stack_t C)) : option (zenit_stack_t C) :=
  match stack with
  | None => None
  | Some k => Some (set_vector k (zenit_vector_clear (s_vector k)))
  end.
End StackModel.

Definition zenit_stack_create (elem_size : Z) (h : heap) : option (zenit_stack_t heap) * heap :=
  zenit_stack_create_with_allocator elem_size ZENIT_ALLOCATOR_DEFAULT h.

(** ** Representation and abstract specification *)

Definition stack_owns {C : Type} (k : zenit_stack_t C) : gset addr :=
  {[ s_self k ]} ∪ match s_vector k with Some v => vec_owns v | None => ∅ end.

(** [stack_rep a k l c]: the stack [k] holds [l], top first. *)
Definition stack_rep {C : Type} (a : zenit_allocator_t C) {SP : AllocSpec a}
    (k : zenit_stack_t C) (l : list bytes) (c : C) : Prop :=
  exists v, s_vector k = Some v /\ vec_rep a v (reverse l) c /\ s_allocator k = a /\
    v_elem_size v = s_elem_size k /\ v_capacity v <> 1 /\
    (s_self k ∉ vec_owns v) /\ s_self k ∈ live c.

Inductive stack_op : Type := SPush (x : bytes) | SPop | SPeek | SCount | SEmpty | SClear.

(** What a call returns: an error code, an element, a number or a truth value. *)
Inductive stack_res : Type :=
| RErr (e : zenit_error_t) (out : option bytes)
| RElem (x : option bytes)
| RNum (n : Z)
| RBool (b : bool)
| RVoid.

Definition stack_abs (op : stack_op) (l : list bytes) : stack_res * list bytes :=
  match op, l with
  | SPush x, _ => (RErr ZENIT_OK None, x :: l)
  | SPop, [] => (RErr ZENIT_ERROR_EMPTY None, [])
  | SPop, x :: l' => (RErr ZENIT_OK (Some x), l')
  | SPeek, _ => (RElem (head l), l)
  | SCount, _ => (RNum (zlen l), l)
  | SEmpty, _ => (RBool (bool_decide (l = [])), l)
  | SClear, _ => (RVoid, [])
  end.

Definition stack_exec {C : Type} (fuel : nat) (op : stack_op) (k : zenit_stack_t C) (c : C)
    : outcome (stack_res * option (zenit_stack_t C) * C) :=
  match op with
  | SPush x =>
      let! (r, k', c') := zenit_stack_push fuel (Some k) (Some x) c in
      Ret (RErr r None, k', c')
  | SPop =>
      let! (r, k', o) := zenit_stack_pop (Some k) (Some (replicate (Z.to_nat (s_elem_size k)) 0)) in
      Ret (RErr r (if decide (r = ZENIT_OK) then o else None), k', c)
  | SPeek =>
      match zenit_stack_peek (Some k) with
      | None => Ret (RElem None, Some k, c)
      | Some off =>
          let! x := match s_vector k with
                    | Some v => prd (v_buffer v) off (v_elem_size v)
                    | None => Undef end in
          Ret (RElem (Some x), Some k, c)
      end
  | SCount => Ret (RNum (zenit_stack_count (Some k)), Some k, c)
  | SEmpty => Ret (RBool (zenit_stack_empty (Some k)), Some k, c)
  | SClear => Ret (RVoid, zenit_stack_clear (Some k), c)
  end.

Definition stack_pre (es : Z) (op : stack_op) : Prop :=
  match op with SPush x => zlen x = es | _ => True end.

(** Each result agrees with the LIFO specification, or the push could not
    allocate and the contents are unchanged. *)
Definition stack_post {C : Type} (a : zenit_allocator_t C) {SP : AllocSpec a}
    (op : stack_op) (k : zenit_stack_t C) (l : list bytes) (c : C)
    (m : outcome (stack_res * option (zenit_stack_t C) * C)) : Prop :=
  exists r k' c' l', m = Ret (r, Some k', c') /\ stack_rep a k' l' c' /\
    s_elem_size k' = s_elem_size k /\
    transfer a (stack_owns k) (stack_owns k') c c' /\
    (stack_abs op l = (r, l') \/
     ((exists x, op = SPush x) /\ r = RErr ZENIT_ERROR_ALLOC None /\ l' = l)).

(** A sequence of calls on one stack, with what each returned. *)
Fixpoint stack_run {C : Type} (fuel : nat) (ops : list stack_op) (k : zenit_stack_t C) (c : C)
    : outcome (list stack_res * zenit_stack_t C * C) :=
  match ops with
  | [] => Ret ([], k, c)
  | op :: ops =>
      let! (r, k', c') := stack_exec fuel op k c in
      match k' with
      | Some k' => let! (rs, k2, c2) := stack_run fuel ops k' c' in Ret (r :: rs, k2, c2)
      | None => Undef
      end
  end.

(** The results a LIFO stack may give from contents [l]: those of [stack_abs],
    except that a push may fail to allocate. *)
Inductive lifo_trace : list bytes -> list stack_op -> list stack_res -> Prop :=
| lifo_nil l : lifo_trace l [] []
| lifo_step l op ops r rs l' :
    stack_abs op l = (r, l') -> lifo_trace l' ops rs -> lifo_trace l (op :: ops) (r :: rs)
| lifo_alloc l x ops rs :
    lifo_trace l ops rs ->
    lifo_trace l (SPush x :: ops) (RErr ZENIT_ERROR_ALLOC None :: rs).

Section StackSpec.
Context {C : Type} (a : zenit_allocator_t C) {SP : AllocSpec a}.
Implicit Types (k : zenit_stack_t C) (c : C) (l : list bytes).

(** Rebuilding the stack around a changed vector. *)
Lemma stack_rep_vector k l l' c v v' c' :
  stack_rep a k l c -> s_vector k = Some v ->
  vec_rep a v' (reverse l') c' -> v_elem_size v' = v_elem_size v -> v_capacity v' <> 1 ->
  transfer a (vec_owns v) (vec_owns v') c c' ->
  stack_rep a (set_vector k (Some v')) l' c' /\
  transfer a (stack_owns k) (stack_owns (set_vector k (Some v'))) c c'.
Proof.
  intros (w & Ev & R & Ea & Es & K & Hs & Hl) Ev' R' Es' K' T.
  rewrite Ev in Ev'. injection Ev' as ->.
  destruct (transfer_frame a {[s_self k]} _ _ _ _ T) as (T' & Hl' & Hs'); [set_solver..|].
  split.
  - exists v'. simpl. split_and!; [done|done|done|congruence|done|set_solver|set_solver].
  - unfold stack_owns. simpl. by rewrite Ev.
Qed.

Lemma stack_post_pure op k l c r :
  stack_rep a k l c -> stack_abs op l = (r, l) -> stack_post a op k l c (Ret (r, Some k, c)).
Proof.
  intros H E. exists r, k, c, l. split_and!; try done; [|by left].
  destruct H as (v & Ev & R & _ & _ & _ & _ & Hl). apply transfer_refl.
  unfold stack_owns. rewrite Ev. pose proof (vr_live _ _ _ _ R). set_solver.
Qed.

Lemma set_vector_id k : set_vector k (s_vector k) = k.
Proof. by destruct k. Qed.

Lemma stack_push_step fuel k l c x :
  stack_rep a k l c -> zlen x = s_elem_size k -> (1 <= fuel)%nat ->
  stack_post a (SPush x) k l c (stack_exec fuel (SPush x) k c).
Proof.
  intros H Hx Hf. pose proof H as (v & Ev & R & Ea & Es & K & Hs & Hl).
  simpl. rewrite Ev.
  destruct (push_spec a fuel v _ c x R) as (r & v' & c' & -> & (T & _ & Es' & P) & K');
    [congruence|done|naive_solver|]. simpl.
  assert (v_capacity v' <> 1) by lia.
  destruct P as [[-> R']|(-> & -> & R')].
  - rewrite <- reverse_cons in R'.
    destruct (stack_rep_vector k l (x :: l) c v v' c') as [Q1 Q2]; try done.
    eexists _, _, _, _. split_and!; [done|done|done|done|by left].
  - destruct (stack_rep_vector k l l c v v c') as [Q1 Q2]; try done.
    eexists _, _, _, _. split_and!; [done|done|done|done|right; by eauto].
Qed.

Lemma stack_pop_step fuel k l c :
  stack_rep a k l c -> stack_post a SPop k l c (stack_exec fuel SPop k c).
Proof.
  intros H. pose proof H as (v & Ev & R & Ea & Es & K & Hs & Hl).
  simpl. rewrite Ev. destruct l as [|x l].
  - rewrite (pop_empty_spec a v c) by done. simpl.
    rewrite <- Ev, set_vector_id.
    by apply stack_post_pure.
  - rewrite reverse_cons in R.
    destruct (pop_spec a v (reverse l) x c (replicate (Z.to_nat (s_elem_size k)) 0) R)
      as (v' & -> & R' & O & Es' & K').
    { rewrite zlen_replicate, <- Es. pose proof (vr_es _ _ _ _ R). lia. }
    simpl. destruct (stack_rep_vector k (x :: l) l c v v' c) as [Q1 Q2]; try done.
    { congruence. } { rewrite O. apply transfer_refl, R. }
    eexists _, _, _, _. split_and!; [done|done|done|done|by left].
Qed.

Lemma stack_peek_step fuel k l c :
  stack_rep a k l c -> stack_post a SPeek k l c (stack_exec fuel SPeek k c).
Proof.
  intros H. pose proof H as (v & Ev & R & Ea & Es & K & Hs & Hl).
  pose proof (vec_bounds _ _ _ _ R) as (Hc & Hcap & _ & _ & Hz).
  unfold zlen in Hz. rewrite length_reverse in Hz.
  simpl. rewrite Ev. simpl. case_decide as D.
  - assert (l = []) as -> by (apply zlen_0; unfold zlen; lia). by apply stack_post_pure.
  - rewrite u64_small by lia. destruct l as [|x l]; [simpl in Hz; lia|]. simpl in Hz.
    pose proof (get_spec a v _ c (v_count v - 1) R ltac:(lia)) as G.
    rewrite reverse_cons, lookup_app_r in G by (rewrite length_reverse; lia).
    replace (Z.to_nat (v_count v - 1) - length (reverse l))%nat with O in G
      by (rewrite length_reverse; lia).
    destruct G as (off & G1 & G2). cbn in G1. rewrite G1, G2. by apply stack_post_pure.
Qed.

Lemma stack_step fuel op k l c :
  stack_rep a k l c -> stack_pre (s_elem_size k) op -> (1 <= fuel)%nat ->
  stack_post a op k l c (stack_exec fuel op k c).
Proof.
  intros H Hp Hf. pose proof H as (v & Ev & R & Ea & Es & K & Hs & Hl).
  pose proof (vr_count _ _ _ _ R) as Hz. unfold zlen in Hz. rewrite length_reverse in Hz.
  destruct op as [x| | | | |].
  - by apply stack_push_step.
  - by apply stack_pop_step.
  - by apply stack_peek_step.
  - apply stack_post_pure; [done|]. simpl. rewrite Ev. simpl. by rewrite Hz.
  - apply stack_post_pure; [done|]. simpl. rewrite Ev. simpl. do 2 f_equal.
    apply bool_decide_ext. rewrite Hz. destruct l; simpl; [done|]. split; [done|lia].
  - simpl. rewrite Ev. destruct (clear_spec a v _ c R) as (v' & E & R' & O & Es' & K').
    rewrite E. destruct (stack_rep_vector k l [] c v v' c) as [Q1 Q2]; try done.
    { congruence. } { rewrite O. apply transfer_refl, R. }
    eexists _, _, _, _. split_and!; [done|done|done|done|by left].
Qed.

Lemma stack_create_spec es c :
  0 <= es -> 8 * es < two64 ->
  match zenit_stack_create_with_allocator es a c with
  | (None, c') => live c' = live c
  | (Some k, c') => stack_rep a k [] c' /\ transfer a ∅ (stack_owns k) c c' /\ s_elem_size k = es
  end.
Proof.
  intros H0 H8. unfold zenit_stack_create_with_allocator. case_decide; [done|].
  destruct (alloc_fn a SIZEOF_STACK c) as [[h|] c1] eqn:A; [|by eapply alloc_none].
  apply alloc_some in A as (_ & _ & F & L).
  pose proof (create_spec a es c1 H0 H8) as V.
  destruct (zenit_vector_create_with_allocator es a c1) as [[v|] c2].
  - destruct V as (R & T & Es & Cap).
    destruct (transfer_frame a {[b_addr h]} _ _ _ _ T) as (T' & Hl & Hs); [set_solver..|].
    split; [|split; [|done]].
    + exists v. simpl. split_and!; [done|done|done|done|lia|set_solver|set_solver].
    + unfold stack_owns. simpl. eapply transfer_trans; [|exact T'].
      split; rewrite L; set_solver.
  - rewrite free_some by (rewrite V; set_solver). rewrite V, L. set_solver.
Qed.

Lemma stack_destroy_spec k l c :
  stack_rep a k l c -> transfer a (stack_owns k) ∅ c (zenit_stack_destroy (Some k) c).
Proof.
  intros (v & Ev & R & Ea & _ & _ & Hs & Hl). unfold zenit_stack_destroy, stack_owns.
  rewrite Ev, Ea.
  destruct (transfer_frame a {[s_self k]} _ _ _ _ (destroy_spec a v _ c R))
    as (T & Hl' & _); [set_solver..|].
  eapply transfer_trans; [exact T|].
  replace ({[s_self k]} ∪ ∅ : gset addr) with ({[s_self k]} : gset addr) by set_solver.
  replace (∅ : gset addr) with ({[s_self k]} ∖ {[s_self k]} : gset addr) by set_solver.
  apply transfer_free; set_solver.
Qed.

Lemma stack_run_spec fuel ops k l c :
  stack_rep a k l c -> Forall (stack_pre (s_elem_size k)) ops -> (1 <= fuel)%nat ->
  exists rs k' l' c', stack_run fuel ops k c = Ret (rs, k', c') /\
    lifo_trace l ops rs /\ stack_rep a k' l' c' /\ transfer a (stack_owns k) (stack_owns k') c c'.
Proof.
  intros H Hops Hf. revert k l c H Hops.
  induction ops as [|op ops IH]; intros k l c H Hops.
  - exists [], k, l, c. split_and!; [done|constructor|done|].
    destruct (stack_post_pure SCount k l c _ H eq_refl) as (? & ? & ? & ? & [= <- <- <-] & _ & _ & T & _).
    done.
  - apply Forall_cons_1 in Hops as [Hop Hops]. simpl.
    destruct (stack_step fuel op k l c H Hop Hf)
      as (r & k1 & c1 & l1 & -> & R1 & Es & T1 & P). simpl.
    rewrite <- Es in Hops.
    destruct (IH k1 l1 c1 R1 Hops) as (rs & k2 & l2 & c2 & -> & Tr & R2 & T2).
    simpl. eexists _, _, _, _. split; [done|]. split; [|split; [done|by eapply transfer_trans]].
    destruct P as [P|((x & ->) & -> & ->)]; [by eapply lifo_step|by apply lifo_alloc].
Qed.

(** The stack is a LIFO: after a successful creation any sequence of pushes,
    pops, peeks, counts and clears returns, without undefined behaviour or
    divergence, exactly what a LIFO of the pushed elements returns, a push being
    allowed to report [ZENIT_ERROR_ALLOC] and change nothing; destruction gives
    back exactly the memory held, and a failed creation leaves none. *)
Theorem stack_lifo fuel es ops c :
  0 <= es -> 8 * es < two64 -> Forall (stack_pre es) ops -> (1 <= fuel)%nat ->
  match zenit_stack_create_with_allocator es a c with
  | (None, c1) => live c1 = live c
  | (Some k, c1) => exists rs k' c2, stack_run fuel ops k c1 = Ret (rs, k', c2) /\
      lifo_trace [] ops rs /\ live (zenit_stack_destroy (Some k') c2) = live c
  end.
Proof.
  intros H0 H8 Hops Hf. pose proof (stack_create_spec es c H0 H8) as Cr.
  destruct (zenit_stack_create_with_allocator es a c) as [[k|] c1]; [|done].
  destruct Cr as (R & T & Es). rewrite <- Es in Hops.
  destruct (stack_run_spec fuel ops k [] c1 R Hops Hf) as (rs & k' & l' & c2 & -> & Tr & R' & T').
  eexists _, _, _. split; [done|]. split; [done|].
  pose proof (stack_destroy_spec k' l' c2 R') as D.
  rewrite (transfer_empty a ∅ c); [set_solver|].
  eapply transfer_trans; [exact T|]. by eapply transfer_trans.
Qed.
End StackSpec.

(** ** Witness *)

Lemma stack_lifo_witness :
  match zenit_stack_create 1 empty_heap with
  | (None, c1) => h_live c1 = h_live empty_heap
  | (Some k, c1) => exists rs k' c2,
      stack_run 1 [SPush [1]; SPush [2]; SPeek; SPop; SPop; SPop; SCount] k c1 = Ret (rs, k', c2) /\
      lifo_trace [] [SPush [1]; SPush [2]; SPeek; SPop; SPop; SPop; SCount] rs /\
      h_live (zenit_stack_destroy (Some k') c2) = h_live empty_heap
  end.
Proof.
  refine (stack_lifo ZENIT_ALLOCATOR_DEFAULT 1 1
    [SPush [1]; SPush [2]; SPeek; SPop; SPop; SPop; SCount] empty_heap _ _ _ _); try lia.
  repeat constructor.
Defined.
