(* ===== verification/Deque.v ===== *)
(** * Double-ended queue ([src/deque.c])

    A circular buffer of elements with [head] and [tail] cursors.  [deq_rep]
    relates it to the list of its elements; the cursor invariant is
    [tail = (head + count) mod capacity].  [zenit_deque_shrink_to_fit] is the one
    operation that breaks it, and the last theorems follow that state to the
    out-of-bounds write it leads to. *)

From Stdlib Require Import ZArith Lia.
From stdpp Require Import base tactics option list numbers gmap sets.
From S2P Require Import Prelude Mem Result Allocator Growth.
Open Scope Z_scope.

Record zenit_deque_t (C : Type) : Type := mk_deque {
  d_self : addr;
  d_buffer : option block;
  d_elem_size : Z;
  d_count : Z;
  d_capacity : Z;
  d_head : Z;
  d_tail : Z;
  d_allocator : zenit_allocator_t C }.
Arguments mk_deque {C}.
Arguments d_self {C}.
Arguments d_buffer {C}.
Arguments d_elem_size {C}.
Arguments d_count {C}.
Arguments d_capacity {C}.
Arguments d_head {C}.
Arguments d_tail {C}.
Arguments d_allocator {C}.

Definition SIZEOF_DEQUE : Z := 80.

Section DequeModel.
Context {C : Type}.
Implicit Types (d : zenit_deque_t C) (c : C) (a : zenit_allocator_t C).

(** Assignments to the buffer, the count and the two cursors. *)
Definition upd_deque d (buffer : option block) (count capacity head tail : Z) : zenit_deque_t C :=
  mk_deque (d_self d) buffer (d_elem_size d) count capacity head tail (d_allocator d).

(** [for (i = 0; i < count; i++)] of [realloc_buffer], [n] turns left. *)
Fixpoint copy_elems (n : nat) (i : Z) d (new_buf : option block) : outcome (option block) :=
  match n with
  | O => Ret new_buf
  | S n =>
      let es := d_elem_size d in
      let! src_idx := umod (u64 (d_head d + i)) (d_capacity d) in
      let! x := prd (d_buffer d) (u64 (src_idx * es)) es in
      let! nb := pwr new_buf (u64 (i * es)) x in
      copy_elems n (i + 1) d nb
  end.

Definition realloc_buffer d (new_cap : Z) c : outcome (zenit_error_t * zenit_deque_t C * C) :=
  let a := d_allocator d in
  if decide (new_cap = 0) then
    Ret (ZENIT_OK, upd_deque d None (d_count d) 0 0 0, free_fn a (paddr (d_buffer d)) c)
  else
    match alloc_fn a (u64 (new_cap * d_elem_size d)) c with
    | (None, c1) => Ret (ZENIT_ERROR_ALLOC, d, c1)
    | (new_buf, c1) =>
        let! nb := copy_elems (Z.to_nat (d_count d)) 0 d new_buf in
        Ret (ZENIT_OK, upd_deque d nb (d_count d) new_cap 0 (d_count d),
             free_fn a (paddr (d_buffer d)) c1)
    end.

Definition grow (fuel : nat) d (min_capacity : Z) c
    : outcome (zenit_error_t * zenit_deque_t C * C) :=
  let! new_cap := grow15 fuel (d_capacity d) min_capacity in
  realloc_buffer d new_cap c.

Definition zenit_deque_create_with_capacity_and_allocator (elem_size capacity : Z) a c
    : option (zenit_deque_t C) * C :=
  if decide (elem_size = 0 \/ capacity = 0) then (None, c)
  else
    match alloc_fn a SIZEOF_DEQUE c with
    | (None, c1) => (None, c1)
    | (Some h, c1) =>
        match alloc_fn a (u64 (capacity * elem_size)) c1 with
        | (None, c2) => (None, free_fn a (Some (b_addr h)) c2)
        | (buffer, c2) => (Some (mk_deque (b_addr h) buffer elem_size 0 capacity 0 0 a), c2)
        end
    end.

Definition zenit_deque_create_with_allocator (elem_size : Z) a c
    : option (zenit_deque_t C) * C :=
  zenit_deque_create_with_capacity_and_allocator elem_size DEFAULT_CAPACITY a c.

Definition zenit_deque_destroy (deque : option (zenit_deque_t C)) c : C :=
  match deque with
  | None => c
  | Some d =>
      let a := d_allocator d in
      let c1 := free_fn a (paddr (d_buffer d)) c in
      free_fn a (Some (d_self d)) c1
  end.

Definition zenit_deque_push_front (fuel : nat) (deque : option (zenit_deque_t C))
    (elem : option bytes) c : outcome (zenit_error_t * option (zenit_deque_t C) * C) :=
  match deque, elem with
  | Some d, Some e =>
      let! (r, d1, c1) :=
        if decide (d_count d = d_capacity d)
        then grow fuel d (u64 (d_capacity d + 1)) c
        else Ret (ZENIT_OK, d, c) in
      if decide (r <> ZENIT_OK) then Ret (r, Some d1, c1)
      else
        let head := if decide (d_head d1 = 0) then u64 (d_capacity d1 - 1)
                    else u64 (d_head d1 - 1) in
        let! x := rd e 0 (d_elem_size d1) in
        let! buf := pwr (d_buffer d1) (u64 (head * d_elem_size d1)) x in
        Ret (ZENIT_OK,
             Some (upd_deque d1 buf (u64 (d_count d1 + 1)) (d_capacity d1) head (d_tail d1)), c1)
  | _, _ => Ret (ZENIT_ERROR_NULL, deque, c)
  end.

Definition zenit_deque_push_back (fuel : nat) (deque : option (zenit_deque_t C))
    (elem : option bytes) c : outcome (zenit_error_t * option (zenit_deque_t C) * C) :=
  match deque, elem with
  | Some d, Some e =>
      let! (r, d1, c1) :=
        if decide (d_count d = d_capacity d)
        then grow fuel d (u64 (d_capacity d + 1)) c
        else Ret (ZENIT_OK, d, c) in
      if decide (r <> ZENIT_OK) then Ret (r, Some d1, c1)
      else
        let! x := rd e 0 (d_elem_size d1) in
        let! buf := pwr (d_buffer d1) (u64 (d_tail d1 * d_elem_size d1)) x in
        let! tail := umod (u64 (d_tail d1 + 1)) (d_capacity d1) in
        Ret (ZENIT_OK,
             Some (upd_deque d1 buf (u64 (d_count d1 + 1)) (d_capacity d1) (d_head d1) tail), c1)
  | _, _ => Ret (ZENIT_ERROR_NULL, deque, c)
  end.

Definition zenit_deque_pop_front (deque : option (zenit_deque_t C)) (out_elem : option bytes)
    : outcome (zenit_error_t * option (zenit_deque_t C) * option bytes) :=
  match deque, out_elem with
  | Some d, Some out =>
      if decide (d_count d = 0) then Ret (ZENIT_ERROR_EMPTY, deque, out_elem)
      else
        let! x := prd (d_buffer d) (u64 (d_head d * d_elem_size d)) (d_elem_size d) in
        let! out1 := wr out 0 x in
        let! head := umod (u64 (d_head d + 1)) (d_capacity d) in
        Ret (ZENIT_OK,
             Some (upd_deque d (d_buffer d) (u64 (d_count d - 1)) (d_capacity d) head (d_tail d)),
             Some out1)
  | _, _ => Ret (ZENIT_ERROR_NULL, deque, out_elem)
  end.

Definition zenit_deque_pop_back (deque : option (zenit_deque_t C)) (out_elem : option bytes)
    : outcome (zenit_error_t * option (zenit_deque_t C) * option bytes) :=
  match deque, out_elem with
  | Some d, Some out =>
      if decide (d_count d = 0) then Ret (ZENIT_ERROR_EMPTY, deque, out_elem)
      else
        let tail := if decide (d_tail d = 0) then u64 (d_capacity d - 1)
                    else u64 (d_tail d - 1) in
        let! x := prd (d_buffer d) (u64 (tail * d_elem_size d)) (d_elem_size d) in
        let! out1 := wr out 0 x in
        Ret (ZENIT_OK,
             Some (upd_deque d (d_buffer d) (u64 (d_count d - 1)) (d_capacity d) (d_head d) tail),
             Some out1)
  | _, _ => Ret (ZENIT_ERROR_NULL, deque, out_elem)
  end.

(** The accessors return an offset into the buffer. *)
Definition zenit_deque_get (deque : option (zenit_deque_t C)) (index : Z) : outcome (option Z) :=
  match deque with
  | None => Ret None
  | Some d =>
      if decide (d_count d <= index) then Ret None
      else
        let! offset := umod (u64 (d_head d + index)) (d_capacity d) in
        Ret (Some (u64 (offset * d_elem_size d)))
  end.

Definition zenit_deque_front (deque : option (zenit_deque_t C)) : option Z :=
  match deque with
  | None => None
  | Some d =>
      if decide (d_count d = 0) then None else Some (u64 (d_head d * d_elem_size d))
  end.

Definition zenit_deque_back (deque : option (zenit_deque_t C)) : option Z :=
  match deque with
  | None => None
  | Some d =>
      if decide (d_count d = 0) then None
      else
        let back := if decide (d_tail d = 0) then u64 (d_capacity d - 1)
                    else u64 (d_tail d - 1) in
        Some (u64 (back * d_elem_size d))
  end.

Definition zenit_deque_count (deque : option (zenit_deque_t C)) : Z :=
  match deque with None => 0 | Some d => d_count d end.

Definition zenit_deque_capacity (deque : option (zenit_deque_t C)) : Z :=
  match deque with None => 0 | Some d => d_capacity d end.

Definition zenit_deque_empty (deque : option (zenit_deque_t C)) : bool :=
  match deque with None => true | Some d => bool_decide (d_count d = 0) end.

Definition zenit_deque_reserve (deque : option (zenit_deque_t C)) (capacity : Z) c
    : outcome (zenit_error_t * option (zenit_deque_t C) * C) :=
  match deque with
  | None => Ret (ZENIT_ERROR_NULL, deque, c)
  | Some d =>
      if decide (capacity <= d_capacity d) then Ret (ZENIT_OK, deque, c)
      else let! (r, d1, c1) := realloc_buffer d capacity c in Ret (r, Some d1, c1)
  end.

Definition zenit_deque_shrink_to_fit (deque : option (zenit_deque_t C)) c
    : outcome (zenit_error_t * option (zenit_deque_t C) * C) :=
  match deque with
  | None => Ret (ZENIT_ERROR_NULL, deque, c)
  | Some d =>
      if decide (d_count d = d_capacity d) then Ret (ZENIT_OK, deque, c)
      else let! (r, d1, c1) := realloc_buffer d (d_count d) c in Ret (r, Some d1, c1)
  end.

Definition zenit_deque_clear (deque : option (zenit_deque_t C)) : option (zenit_deque_t C) :=
  match deque with
  | None => None
  | Some d => Some (upd_deque d (d_buffer d) 0 (d_capacity d) 0 0)
  end.

Definition zenit_deque_iter (deque : option (zenit_deque_t C)) : zenit_iter_t :=
  mk_iter 0 (match deque with Some d => d_count d | None => 0 end)
    (match deque with Some _ => true | None => false end) None.

Definition zenit_deque_iter_next (iter : option zenit_iter_t)
    (container : option (zenit_deque_t C)) : outcome (option Z * option zenit_iter_t) :=
  match iter with
  | None => Ret (None, None)
  | Some it =>
      if negb (it_is_valid it) then Ret (None, iter)
      else if decide (it_count it <= it_index it) then Ret (None, iter)
      else
        match container with
        | None => Undef
        | Some d =>
            let! offset := umod (u64 (d_head d + it_index it)) (d_capacity d) in
            Ret (Some (u64 (offset * d_elem_size d)),
                 Some (mk_iter (u64 (it_index it + 1)) (it_count it) (it_is_valid it)
                         (it_internal it)))
        end
  end.
End DequeModel.

Definition zenit_deque_create (elem_size : Z) (h : heap) : option (zenit_deque_t heap) * heap :=
  zenit_deque_create_with_allocator elem_size ZENIT_ALLOCATOR_DEFAULT h.
Definition zenit_deque_create_with_capacity (elem_size capacity : Z) (h : heap)
    : option (zenit_deque_t heap) * heap :=
  zenit_deque_create_with_capacity_and_allocator elem_size capacity ZENIT_ALLOCATOR_DEFAULT h.

(** ** Representation *)

Definition deq_owns {C : Type} (d : zenit_deque_t C) : gset addr :=
  {[ d_self d ]} ∪ pown (d_buffer d).

(** The element at distance [i] from the front of the circular array. *)
Definition deq_view (slots : list bytes) (cap head : Z) (l : list bytes) : Prop :=
  forall i, 0 <= i < zlen l -> slots !! Z.to_nat ((head + i) mod cap) = l !! Z.to_nat i.

(** Everything but the [tail] cursor. *)
Record deq_core {C : Type} (a : zenit_allocator_t C) {SP : AllocSpec a}
    (d : zenit_deque_t C) (l : list bytes) (c : C) : Prop := {
  dr_alloc : d_allocator d = a;
  dr_es : 0 < d_elem_size d /\ 8 * d_elem_size d < two64;
  dr_count : d_count d = zlen l;
  dr_fit : d_count d <= d_capacity d;
  dr_cap : d_capacity d * d_elem_size d <= PTRDIFF_MAX;
  dr_null : d_buffer d = None <-> d_capacity d = 0;
  dr_head : 0 <= d_head d /\ (d_head d = 0 \/ d_head d < d_capacity d);
  dr_slots : exists slots,
    is_slots (d_elem_size d) (pbytes (d_buffer d)) slots /\ zlen slots = d_capacity d /\
    deq_view slots (d_capacity d) (d_head d) l;
  dr_self : d_self d ∉ pown (d_buffer d);
  dr_live : deq_owns d ⊆ live c }.

Definition deq_rep {C : Type} (a : zenit_allocator_t C) {SP : AllocSpec a}
    (d : zenit_deque_t C) (l : list bytes) (c : C) : Prop :=
  deq_core a d l c /\ d_tail d = (d_head d + d_count d) mod d_capacity d.

(** What an operation that may allocate does. *)
Definition deq_post {C : Type} (a : zenit_allocator_t C) {SP : AllocSpec a}
    (d : zenit_deque_t C) (l l' : list bytes) (c : C)
    (r : zenit_error_t) (d' : zenit_deque_t C) (c' : C) : Prop :=
  transfer a (deq_owns d) (deq_owns d') c c' /\
  d_self d' = d_self d /\ d_elem_size d' = d_elem_size d /\
  ((r = ZENIT_OK /\ deq_rep a d' l' c') \/
   (r = ZENIT_ERROR_ALLOC /\ d' = d /\ deq_rep a d l c')).

(** ** Abstract specification: a double-ended queue of elements *)

Inductive deque_op : Type :=
| DPushFront (x : bytes)
| DPushBack (x : bytes)
| DPopFront
| DPopBack
| DReserve (capacity : Z)
| DShrink
| DClear.

Definition deque_abs (op : deque_op) (l : list bytes)
    : zenit_error_t * option bytes * list bytes :=
  match op with
  | DPushFront x => (ZENIT_OK, None, x :: l)
  | DPushBack x => (ZENIT_OK, None, l ++ [x])
  | DPopFront =>
      match l with
      | [] => (ZENIT_ERROR_EMPTY, None, l)
      | x :: l' => (ZENIT_OK, Some x, l')
      end
  | DPopBack =>
      match last l with
      | None => (ZENIT_ERROR_EMPTY, None, l)
      | Some x => (ZENIT_OK, Some x, take (length l - 1) l)
      end
  | DReserve _ => (ZENIT_OK, None, l)
  | DShrink => (ZENIT_OK, None, l)
  | DClear => (ZENIT_OK, None, [])
  end.

Definition deque_exec {C : Type} (fuel : nat) (op : deque_op) (d : zenit_deque_t C) (c : C)
    : outcome (zenit_error_t * option bytes * option (zenit_deque_t C) * C) :=
  let out := replicate (Z.to_nat (d_elem_size d)) 0 in
  match op with
  | DPushFront x => let! (r, d', c') := zenit_deque_push_front fuel (Some d) (Some x) c in
                    Ret (r, None, d', c')
  | DPushBack x => let! (r, d', c') := zenit_deque_push_back fuel (Some d) (Some x) c in
                   Ret (r, None, d', c')
  | DPopFront => let! (r, d', o) := zenit_deque_pop_front (Some d) (Some out) in
                 Ret (r, if decide (r = ZENIT_OK) then o else None, d', c)
  | DPopBack => let! (r, d', o) := zenit_deque_pop_back (Some d) (Some out) in
                Ret (r, if decide (r = ZENIT_OK) then o else None, d', c)
  | DReserve n => let! (r, d', c') := zenit_deque_reserve (Some d) n c in Ret (r, None, d', c')
  | DShrink => let! (r, d', c') := zenit_deque_shrink_to_fit (Some d) c in Ret (r, None, d', c')
  | DClear => Ret (ZENIT_OK, None, zenit_deque_clear (Some d), c)
  end.

(** What the caller must respect: elements of the right size, no overflow of a
    requested byte count, no growth of a full deque of capacity 1, and
    [zenit_deque_shrink_to_fit] only where it has nothing to copy. *)
Definition deque_pre {C : Type} (d : zenit_deque_t C) (op : deque_op) : Prop :=
  match op with
  | DPushFront x | DPushBack x =>
      zlen x = d_elem_size d /\ ~ (d_count d = 1 /\ d_capacity d = 1)
  | DReserve n => n * d_elem_size d < two64
  | DShrink => d_count d = 0 \/ d_count d = d_capacity d
  | DPopFront | DPopBack | DClear => True
  end.

Definition deque_cap_post {C : Type} (op : deque_op) (d d' : zenit_deque_t C) : Prop :=
  d_capacity d' = d_capacity d \/
  match op with
  | DPushFront _ | DPushBack _ => 1 < d_capacity d'
  | DReserve n => d_capacity d' = n
  | DShrink => d_capacity d' = 0
  | DPopFront | DPopBack | DClear => False
  end.

(** The calls that may report [ZENIT_ERROR_ALLOC]. *)
Definition deque_may_alloc (op : deque_op) : Prop :=
  match op with
  | DPushFront _ | DPushBack _ | DReserve _ | DShrink => True
  | DPopFront | DPopBack | DClear => False
  end.

Definition deque_post {C : Type} (a : zenit_allocator_t C) {SP : AllocSpec a}
    (op : deque_op) (d : zenit_deque_t C) (l : list bytes) (c : C)
    (m : outcome (zenit_error_t * option bytes * option (zenit_deque_t C) * C)) : Prop :=
  exists r out d' c', m = Ret (r, out, Some d', c') /\
    transfer a (deq_owns d) (deq_owns d') c c' /\
    d_elem_size d' = d_elem_size d /\ deque_cap_post op d d' /\
    ((exists l', deque_abs op l = (r, out, l') /\ deq_rep a d' l' c') \/
     (deque_may_alloc op /\ r = ZENIT_ERROR_ALLOC /\ out = None /\ d' = d /\ deq_rep a d l c')).

(** ** Cursor arithmetic *)

(** Distinct distances from [head] reach distinct slots. *)
Lemma ring_inj cap h i j :
  0 <= h < cap -> 0 <= i < cap -> 0 <= j < cap ->
  (h + i) mod cap = (h + j) mod cap -> i = j.
Proof. intros ???. rewrite !mod_wrap by lia. repeat case_decide; lia. Qed.

Lemma ring_range cap h i : 0 < cap -> 0 <= (h + i) mod cap < cap.
Proof. apply Z.mod_pos_bound. Qed.

(** Moving the head forward by one shortens every distance by one. *)
Lemma ring_next cap h i : ((h + 1) mod cap + i) mod cap = (h + (i + 1)) mod cap.
Proof. rewrite Zplus_mod_idemp_l. f_equal. lia. Qed.

(** The slot before [h]. *)
Definition ring_prev (cap h : Z) : Z := if decide (h = 0) then cap - 1 else h - 1.

Lemma ring_prev_range cap h : 0 <= h < cap -> 0 <= ring_prev cap h < cap.
Proof. unfold ring_prev. case_decide; lia. Qed.

Lemma ring_prev_next cap h : 0 <= h < cap -> (ring_prev cap h + 1) mod cap = h.
Proof. intros H. unfold ring_prev. rewrite mod_wrap; repeat case_decide; lia. Qed.

Lemma ring_prev_add cap h i :
  0 <= h < cap -> (ring_prev cap h + (i + 1)) mod cap = (h + i) mod cap.
Proof. intros H. rewrite <- ring_next, ring_prev_next; done. Qed.

Lemma deq_view_nil slots cap h : deq_view slots cap h [].
Proof. intros i Hi. unfold zlen in Hi. simpl in Hi. lia. Qed.

Lemma deq_view_cons slots cap h x l :
  0 <= h < cap -> slots !! Z.to_nat h = Some x -> deq_view slots cap ((h + 1) mod cap) l ->
  deq_view slots cap h (x :: l).
Proof.
  intros Hh E V i Hi. destruct (decide (i = 0)) as [->|].
  - rewrite Z.add_0_r, Z.mod_small by done. done.
  - rewrite zlen_cons in Hi. replace (Z.to_nat i) with (S (Z.to_nat (i - 1))) by lia. simpl.
    rewrite <- V by lia. rewrite ring_next. do 3 f_equal. lia.
Qed.

Lemma deq_view_uncons slots cap h x l :
  0 <= h < cap -> deq_view slots cap h (x :: l) ->
  slots !! Z.to_nat h = Some x /\ deq_view slots cap ((h + 1) mod cap) l.
Proof.
  intros Hh V. pose proof (zlen_nonneg l). split.
  - specialize (V 0). rewrite Z.add_0_r, Z.mod_small in V by done. apply V.
    rewrite zlen_cons. lia.
  - intros i Hi. rewrite ring_next, V by (rewrite zlen_cons; lia).
    by replace (Z.to_nat (i + 1)) with (S (Z.to_nat i)) by lia.
Qed.

(** Writing a slot outside the occupied ones. *)
Lemma deq_view_insert slots cap h l j x :
  0 <= h < cap -> zlen l <= j < cap -> deq_view slots cap h l ->
  deq_view (<[Z.to_nat ((h + j) mod cap) := x]> slots) cap h l.
Proof.
  intros Hh Hj V i Hi. rewrite list_lookup_insert_ne; [by apply V|].
  pose proof (ring_range cap h i). pose proof (ring_range cap h j).
  intros E. apply Z2Nat.inj in E; [|lia..]. apply ring_inj in E; lia.
Qed.

Lemma deq_view_snoc slots cap h l x :
  0 <= h < cap -> zlen l < cap -> zlen slots = cap -> deq_view slots cap h l ->
  deq_view (<[Z.to_nat ((h + zlen l) mod cap) := x]> slots) cap h (l ++ [x]).
Proof.
  intros Hh Hl Hs V i Hi. autorewrite with zlen in Hi.
  destruct (decide (i = zlen l)) as [->|].
  - rewrite list_lookup_insert_eq.
    + rewrite lookup_app_r by (unfold zlen; lia).
      by replace (_ - _)%nat with O by (unfold zlen; lia).
    + pose proof (ring_range cap h (zlen l)). unfold zlen in *. lia.
  - rewrite (deq_view_insert _ _ _ l) by (done || lia).
    rewrite lookup_app_l; [done|]. unfold zlen in *. lia.
Qed.

Lemma deq_view_front slots cap h l l2 :
  deq_view slots cap h (l ++ l2) -> deq_view slots cap h l.
Proof.
  intros V i Hi. rewrite V by zl. rewrite lookup_app_l; [done|]. unfold zlen in *; lia.
Qed.

Lemma deq_view_flat l rest cap : zlen l <= cap -> deq_view (l ++ rest) cap 0 l.
Proof.
  intros Hl i Hi. rewrite Z.add_0_l, Z.mod_small by lia.
  rewrite lookup_app_l; [done|]. unfold zlen in *; lia.
Qed.

Section DequeSpec.
Context {C : Type} (a : zenit_allocator_t C) {SP : AllocSpec a}.
Implicit Types (d : zenit_deque_t C) (c : C) (l : list bytes).

Lemma deq_bounds d l c :
  deq_core a d l c ->
  0 <= d_count d <= d_capacity d /\ d_capacity d <= PTRDIFF_MAX /\
  0 <= d_capacity d * d_elem_size d <= PTRDIFF_MAX /\ zlen l = d_count d /\
  0 < d_elem_size d.
Proof.
  intros H. destruct (dr_es _ _ _ _ H). pose proof (dr_cap _ _ _ _ H).
  pose proof (dr_count _ _ _ _ H). pose proof (dr_fit _ _ _ _ H). pose proof (zlen_nonneg l).
  repeat split; nia.
Qed.

Lemma deq_nonnull d l c : deq_core a d l c -> d_capacity d <> 0 -> d_buffer d <> None.
Proof. intros H Hc N. by apply H in N. Qed.

Lemma deq_head d l c : deq_core a d l c -> d_capacity d <> 0 -> 0 <= d_head d < d_capacity d.
Proof.
  intros H Hc. pose proof (dr_head _ _ _ _ H). pose proof (deq_bounds _ _ _ H). lia.
Qed.

Lemma deq_core_live d l c c' :
  deq_core a d l c -> deq_owns d ⊆ live c' -> deq_core a d l c'.
Proof. intros []. by constructor. Qed.

(** New contents, cursors or buffer of the same block. *)
Lemma deq_update d l c buf l' slots head tail :
  deq_core a d l c -> buf <> None -> pown buf = pown (d_buffer d) ->
  is_slots (d_elem_size d) (pbytes buf) slots -> zlen slots = d_capacity d ->
  deq_view slots (d_capacity d) head l' -> 0 <= head < d_capacity d ->
  zlen l' <= d_capacity d -> tail = (head + zlen l') mod d_capacity d ->
  deq_rep a (upd_deque d buf (zlen l') (d_capacity d) head tail) l' c /\
  deq_owns (upd_deque d buf (zlen l') (d_capacity d) head tail) = deq_owns d.
Proof.
  intros H Hn Ho S Hs V Hh Hf Ht. unfold deq_owns. simpl. rewrite Ho.
  split; [|done]. split; [|done]. constructor; simpl; try done; try apply H; try lia.
  - split; [done|]. lia.
  - by exists slots.
  - rewrite Ho. apply H.
  - unfold deq_owns. simpl. rewrite Ho. apply H.
Qed.

Lemma copy_elems_spec d l c l1 l2 :
  deq_core a d l c -> l = l1 ++ l2 -> forall nb l2' rest,
  nb <> None -> is_slots (d_elem_size d) (pbytes nb) (l1 ++ l2' ++ rest) ->
  zlen l2' = zlen l2 -> zlen (pbytes nb) < two64 ->
  exists nb', copy_elems (length l2) (zlen l1) d nb = Ret nb' /\ nb' <> None /\
    pown nb' = pown nb /\ is_slots (d_elem_size d) (pbytes nb') (l1 ++ l2 ++ rest).
Proof.
  intros H. pose proof (deq_bounds _ _ _ H) as (Hc & Hcap & Hb & Hz & Hes).
  revert l1. induction l2 as [|x l2 IH]; intros l1 El nb l2' rest Hn S Hl Hnb.
  - assert (l2' = []) as -> by (by apply zlen_0). by exists nb.
  - destruct l2' as [|y l2']; [rewrite zlen_cons, zlen_nil in Hl; pose proof (zlen_nonneg l2); lia|].
    pose proof (is_slots_zlen _ _ _ S) as LB.
    assert (zlen l1 < d_capacity d) by (subst l; zl).
    pose proof (zlen_nonneg l1) as G1.
    assert (d_capacity d <> 0) as Hc0 by lia. pose proof (deq_head _ _ _ H Hc0) as Hh.
    destruct (dr_slots _ _ _ _ H) as (slots & Sd & Ls & V). simpl.
    assert (slots !! Z.to_nat ((d_head d + zlen l1) mod d_capacity d) = Some x) as Lx.
    { rewrite V by (subst l; zl). subst l. rewrite lookup_app_r by (unfold zlen; lia).
      by replace (_ - _)%nat with O by (unfold zlen; lia). }
    pose proof (ring_range (d_capacity d) (d_head d) (zlen l1) ltac:(lia)) as Hr.
    rewrite (u64_small (d_head d + _)) by lia. rewrite umod_Ret by done. simpl.
    rewrite (u64_small (_ mod _ * _)) by nia.
    rewrite (prd_slot (d_elem_size d) _ slots _ x);
      [|by eapply deq_nonnull|done|lia|done].
    simpl. rewrite u64_small.
    2:{ rewrite LB in Hnb. autorewrite with zlen in Hnb. pose proof (zlen_nonneg l2').
        pose proof (zlen_nonneg rest). nia. }
    destruct (pwr_slots (d_elem_size d) nb l1 [y] [x] (l2' ++ rest) (zlen l1 * d_elem_size d))
      as (nb1 & W & Hn1 & Ho1 & S1); [done|done|done|done| |].
    { constructor; [|done]. destruct Sd as [_ F]. by eapply (Forall_lookup_1 _ _ _ x F). }
    simpl in W. rewrite app_nil_r in W. rewrite W. simpl.
    replace (zlen l1 + 1) with (zlen (l1 ++ [x])) by (rewrite zlen_app, zlen_cons, zlen_nil; lia).
    destruct (IH (l1 ++ [x])) with (nb := nb1) (l2' := l2') (rest := rest)
      as (nb' & -> & Hn' & Ho' & S').
    + by rewrite <- app_assoc.
    + done.
    + by rewrite <- app_assoc.
    + rewrite !zlen_cons in Hl. lia.
    + rewrite (is_slots_zlen _ _ _ S1). rewrite LB in Hnb. autorewrite with zlen in *.
      lia.
    + exists nb'. rewrite <- app_assoc in S'. split_and!; [done|done|congruence|done].
Qed.

(** [realloc_buffer] keeps the elements and leaves [head = 0], [tail = count]:
    the cursor invariant holds again unless the new buffer is exactly full. *)
Lemma deq_realloc_buffer_spec d l c new_cap :
  deq_core a d l c -> zlen l <= new_cap -> new_cap * d_elem_size d < two64 ->
  exists r d' c', realloc_buffer d new_cap c = Ret (r, d', c') /\
    transfer a (deq_owns d) (deq_owns d') c c' /\
    d_self d' = d_self d /\ d_elem_size d' = d_elem_size d /\
    ((r = ZENIT_OK /\ deq_core a d' l c' /\ d_capacity d' = new_cap /\
      d_head d' = 0 /\ d_tail d' = zlen l) \/
     (r = ZENIT_ERROR_ALLOC /\ d' = d /\ live c' = live c)).
Proof.
  intros H Hl Hov. pose proof (deq_bounds _ _ _ H) as (Hc & Hcap & Hb & Hz & Hes).
  pose proof (dr_live _ _ _ _ H) as Hlive. pose proof (dr_self _ _ _ _ H) as Hself.
  pose proof (zlen_nonneg l) as G.
  unfold realloc_buffer. rewrite (dr_alloc _ _ _ _ H). unfold deq_owns in *. case_decide as Hn.
  - subst new_cap. assert (l = []) as -> by (apply zlen_0; lia).
    assert (transfer a ({[d_self d]} ∪ pown (d_buffer d)) ({[d_self d]} ∪ ∅) c
              (free_fn a (paddr (d_buffer d)) c)) as T.
    { replace ({[d_self d]} ∪ ∅) with (({[d_self d]} ∪ pown (d_buffer d)) ∖ pown (d_buffer d))
        by set_solver. apply transfer_pfree; set_solver. }
    eexists _, _, _. split; [done|]. split; [done|]. do 2 (split; [done|]).
    left. split; [done|]. split; [|done]. constructor; simpl; try done; try apply H; try lia.
    + exists []. split; [apply is_slots_nil|]. split; [done|]. apply deq_view_nil.
    + apply T.
  - rewrite u64_small by nia.
    destruct (alloc_fn a (new_cap * d_elem_size d) c) as [[b|] c1] eqn:A.
    2:{ apply alloc_none in A. eexists _, _, _. split; [done|].
        split; [split; rewrite A; set_solver|]. do 2 (split; [done|]). right. done. }
    apply alloc_some in A as (LB & MB & Fr & Lv).
    assert (is_slots (d_elem_size d) (b_data b)
      (slots_of (Z.to_nat (d_elem_size d)) (Z.to_nat new_cap) (b_data b))) as S
      by (apply is_slots_exists; rewrite LB; f_equal; lia).
    set (sl := slots_of _ _ _) in S. assert (zlen sl = new_cap) as Ls
      by (apply is_slots_zlen in S; nia).
    destruct (list_split_at sl (zlen l)) as (s1 & s2 & Esl & L1); [lia|]. rewrite Esl in S.
    destruct (copy_elems_spec d l c [] l H eq_refl (Some b) s1 s2)
      as (nb & K & Hnb & Ho & S'); [done|done|done|simpl; lia|].
    replace (Z.to_nat (d_count d)) with (length l) by (unfold zlen in Hz; lia).
    rewrite zlen_nil in K. rewrite K. simpl.
    assert (transfer a ({[d_self d]} ∪ pown (d_buffer d)) ({[d_self d]} ∪ {[b_addr b]}) c
              (free_fn a (paddr (d_buffer d)) c1)) as T.
    { eapply transfer_trans; [split; [|]|].
      3:{ replace ({[d_self d]} ∪ {[b_addr b]}) with
            (({[d_self d]} ∪ {[b_addr b]} ∪ pown (d_buffer d)) ∖ pown (d_buffer d)) by set_solver.
          apply transfer_pfree; set_solver. }
      - set_solver.
      - rewrite Lv. set_solver. }
    simpl in Ho. eexists _, _, _. split; [done|]. simpl. rewrite Ho.
    split; [done|]. do 2 (split; [done|]). left. split; [done|]. split; [|done].
    constructor; simpl; try apply H; try lia; try done.
    + exists (l ++ s2). split; [done|]. split; [rewrite Esl in Ls; zl|].
      apply deq_view_flat. lia.
    + rewrite Ho. set_solver.
    + unfold deq_owns. simpl. rewrite Ho. apply T.
Qed.

(** The growth guard of the two pushes. *)
Lemma deq_ensure_room fuel d l c :
  deq_rep a d l c -> (1 <= fuel)%nat -> (d_count d = d_capacity d -> d_capacity d <> 1) ->
  exists r d1 c1,
    (if decide (d_count d = d_capacity d)
     then grow fuel d (u64 (d_capacity d + 1)) c else Ret (ZENIT_OK, d, c)) = Ret (r, d1, c1) /\
    deq_post a d l l c r d1 c1 /\ (r = ZENIT_OK -> d_count d1 < d_capacity d1) /\
    (d_capacity d1 = d_capacity d \/ 1 < d_capacity d1).
Proof.
  intros [H Ht] Hf H1. pose proof (deq_bounds _ _ _ H) as (Hc & Hcap & Hb & Hz & Hes).
  pose proof (dr_es _ _ _ _ H) as [_ Hes8]. case_decide as Hfull.
  - assert (0 <= d_capacity d / 2) as Hd0 by (apply Z.div_pos; lia).
    pose proof (Z.mul_div_le (d_capacity d) 2) as Hd2.
    unfold grow. rewrite u64_small by lia. rewrite grow15_next by nia. simpl.
    set (n := if decide _ then _ else _).
    assert (d_capacity d < n /\ 1 < n /\ n * d_elem_size d < two64) as (Hn1 & Hn1' & Hn2).
    { unfold n, DEFAULT_CAPACITY. case_decide; [lia|].
      assert (1 <= d_capacity d / 2) by (apply Z.div_le_lower_bound; lia). nia. }
    destruct (deq_realloc_buffer_spec d l c n H)
      as (r & d' & c' & -> & T & Es & E8 & P); [lia|done|].
    eexists _, _, _. split; [done|]. destruct P as [(-> & R & Ec & Eh & Et)|(-> & -> & Lc)].
    + pose proof (dr_count _ _ _ _ R). split; [|lia].
      split; [done|]. do 2 (split; [done|]). left. split; [done|]. split; [done|].
      rewrite Eh, Et, Z.mod_small by lia. lia.
    + split; [|split; [done|by left]].
      split; [done|]. do 2 (split; [done|]). right. do 2 (split; [done|]).
      split; [|done]. apply (deq_core_live _ _ c); [done|]. rewrite Lc. apply H.
  - eexists _, _, _. split; [done|]. split; [|lia].
    split; [apply transfer_refl, H|]. do 2 (split; [done|]). by left.
Qed.
Lemma deq_post_ok d l l' c d' :
  deq_rep a d l c -> deq_rep a d' l' c -> deq_owns d' = deq_owns d ->
  d_self d' = d_self d -> d_elem_size d' = d_elem_size d ->
  deq_post a d l l' c ZENIT_OK d' c.
Proof.
  intros [H _] H' Ho Hs He. split; [|split; [done|split; [done|by left]]].
  rewrite Ho. apply transfer_refl, H.
Qed.

Lemma deq_post_trans d l l' c d1 c1 d2 :
  deq_post a d l l c ZENIT_OK d1 c1 -> deq_post a d1 l l' c1 ZENIT_OK d2 c1 ->
  deq_post a d l l' c ZENIT_OK d2 c1.
Proof.
  intros (T1 & S1 & E1 & _) (T2 & S2 & E2 & [[_ R]|[? _]]); [|done].
  split; [by eapply transfer_trans|]. split_and!; [congruence|congruence|by left].
Qed.

(** What both pushes do once there is room: write one free slot of the buffer. *)
Lemma deq_write d l c x j :
  deq_core a d l c -> zlen x = d_elem_size d -> zlen l < d_capacity d ->
  0 <= j < d_capacity d ->
  exists slots buf, zlen slots = d_capacity d /\ buf <> None /\ pown buf = pown (d_buffer d) /\
    deq_view slots (d_capacity d) (d_head d) l /\
    pwr (d_buffer d) (u64 (j * d_elem_size d)) x = Ret buf /\
    is_slots (d_elem_size d) (pbytes buf) (<[Z.to_nat j := x]> slots).
Proof.
  intros H Hx Hl Hj. pose proof (deq_bounds _ _ _ H) as (Hc & Hcap & Hb & Hz & Hes).
  destruct (dr_slots _ _ _ _ H) as (slots & S & Ls & V).
  destruct (pwr_slot (d_elem_size d) (d_buffer d) slots j x)
    as (buf & W & Hn & Ho & S'); [eapply deq_nonnull; [done|lia]|done|lia|done|].
  exists slots, buf. rewrite u64_small by nia. done.
Qed.

Lemma push_back_spec fuel d l c x :
  deq_rep a d l c -> zlen x = d_elem_size d -> (1 <= fuel)%nat ->
  (d_count d = d_capacity d -> d_capacity d <> 1) ->
  exists r d' c', zenit_deque_push_back fuel (Some d) (Some x) c = Ret (r, Some d', c') /\
    deq_post a d l (l ++ [x]) c r d' c' /\ (d_capacity d' = d_capacity d \/ 1 < d_capacity d').
Proof.
  intros H Hx Hf H1. unfold zenit_deque_push_back.
  destruct (deq_ensure_room fuel d l c H Hf H1) as (r & d1 & c1 & -> & P & Q & K). simpl.
  destruct (decide (r <> ZENIT_OK)) as [N|Y].
  { eexists _, _, _. split; [done|]. split; [|done].
    destruct P as (T & S & E & [[? _]|R]); [done|]. split_and!; [done|done|done|by right]. }
  assert (r = ZENIT_OK) as -> by (destruct r; try done; by destruct Y).
  pose proof P as (_ & _ & E1 & [[_ R]|[? _]]); [|done]. specialize (Q eq_refl).
  destruct R as [R Ht]. pose proof (deq_bounds _ _ _ R) as (Hc & Hcap & Hb & Hz & Hes).
  assert (d_capacity d1 <> 0) as Hc0 by lia. pose proof (deq_head _ _ _ R Hc0) as Hh.
  rewrite rd_whole by congruence. simpl. rewrite Ht.
  pose proof (ring_range (d_capacity d1) (d_head d1) (d_count d1) ltac:(lia)) as Hr.
  destruct (deq_write d1 l c1 x ((d_head d1 + d_count d1) mod d_capacity d1) R)
    as (slots & buf & Ls & Hn & Ho & V & -> & S); [congruence|lia|lia|]. simpl.
  rewrite (u64_small (_ mod _ + 1)), umod_Ret, u64_small by lia. simpl.
  replace (d_count d1 + 1) with (zlen (l ++ [x])) by (rewrite zlen_app, zlen_cons, zlen_nil; lia).
  rewrite <- Hz in S.
  destruct (deq_update d1 l c1 buf (l ++ [x]) _ (d_head d1)
    (((d_head d1 + d_count d1) mod d_capacity d1 + 1) mod d_capacity d1) R Hn Ho S)
    as [R' Ho'].
  - by rewrite zlen_insert.
  - apply deq_view_snoc; [done|lia|done|done].
  - done.
  - zl.
  - rewrite Zplus_mod_idemp_l. f_equal. zl.
  - eexists _, _, _. split; [done|]. split; [|done].
    eapply deq_post_trans; [exact P|]. by apply deq_post_ok.
Qed.

Lemma push_front_spec fuel d l c x :
  deq_rep a d l c -> zlen x = d_elem_size d -> (1 <= fuel)%nat ->
  (d_count d = d_capacity d -> d_capacity d <> 1) ->
  exists r d' c', zenit_deque_push_front fuel (Some d) (Some x) c = Ret (r, Some d', c') /\
    deq_post a d l (x :: l) c r d' c' /\ (d_capacity d' = d_capacity d \/ 1 < d_capacity d').
Proof.
  intros H Hx Hf H1. unfold zenit_deque_push_front.
  destruct (deq_ensure_room fuel d l c H Hf H1) as (r & d1 & c1 & -> & P & Q & K). simpl.
  destruct (decide (r <> ZENIT_OK)) as [N|Y].
  { eexists _, _, _. split; [done|]. split; [|done].
    destruct P as (T & S & E & [[? _]|R]); [done|]. split_and!; [done|done|done|by right]. }
  assert (r = ZENIT_OK) as -> by (destruct r; try done; by destruct Y).
  pose proof P as (_ & _ & E1 & [[_ R]|[? _]]); [|done]. specialize (Q eq_refl).
  destruct R as [R Ht]. pose proof (deq_bounds _ _ _ R) as (Hc & Hcap & Hb & Hz & Hes).
  assert (d_capacity d1 <> 0) as Hc0 by lia. pose proof (deq_head _ _ _ R Hc0) as Hh.
  rewrite rd_whole by congruence. simpl.
  assert ((if decide (d_head d1 = 0) then u64 (d_capacity d1 - 1) else u64 (d_head d1 - 1))
          = ring_prev (d_capacity d1) (d_head d1)) as ->
    by (unfold ring_prev; case_decide; apply u64_small; lia).
  pose proof (ring_prev_range (d_capacity d1) (d_head d1) Hh) as Hr.
  destruct (deq_write d1 l c1 x (ring_prev (d_capacity d1) (d_head d1)) R)
    as (slots & buf & Ls & Hn & Ho & V & -> & S); [congruence|lia|lia|]. simpl.
  rewrite u64_small by lia.
  replace (d_count d1 + 1) with (zlen (x :: l)) by (rewrite zlen_cons; lia).
  destruct (deq_update d1 l c1 buf (x :: l) _ (ring_prev (d_capacity d1) (d_head d1))
    (d_tail d1) R Hn Ho S) as [R' Ho'].
  - by rewrite zlen_insert.
  - apply deq_view_cons; [done| |].
    + rewrite list_lookup_insert_eq; [done|]. unfold zlen in Ls. lia.
    + rewrite ring_prev_next by done.
      replace (ring_prev (d_capacity d1) (d_head d1))
        with ((d_head d1 + (d_capacity d1 - 1)) mod d_capacity d1)
        by (unfold ring_prev; rewrite mod_wrap by lia; repeat case_decide; lia).
      apply deq_view_insert; [done|lia|done].
  - done.
  - zl.
  - rewrite zlen_cons, (Z.add_comm 1), ring_prev_add by done. by rewrite Hz.
  - eexists _, _, _. split; [done|]. split; [|done].
    eapply deq_post_trans; [exact P|]. by apply deq_post_ok.
Qed.

(** A buffer slot holding an element, read through its offset. *)
Lemma deq_read d l c i x :
  deq_core a d l c -> 0 <= i < zlen l -> l !! Z.to_nat i = Some x ->
  prd (d_buffer d) (u64 ((d_head d + i) mod d_capacity d * d_elem_size d)) (d_elem_size d) = Ret x
  /\ zlen x = d_elem_size d.
Proof.
  intros H Hi L. pose proof (deq_bounds _ _ _ H) as (Hc & Hcap & Hb & Hz & Hes).
  destruct (dr_slots _ _ _ _ H) as (slots & S & Ls & V).
  pose proof (ring_range (d_capacity d) (d_head d) i ltac:(lia)) as Hr.
  assert (slots !! Z.to_nat ((d_head d + i) mod d_capacity d) = Some x) as Lx by (by rewrite V).
  rewrite u64_small by nia. split.
  - eapply prd_slot; [eapply deq_nonnull; [done|lia]|done|lia|done].
  - destruct S as [_ F]. by eapply (Forall_lookup_1 _ _ _ x F).
Qed.

Lemma pop_front_spec d l c x out :
  deq_rep a d (x :: l) c -> zlen out = d_elem_size d ->
  exists d', zenit_deque_pop_front (Some d) (Some out) = Ret (ZENIT_OK, Some d', Some x) /\
    deq_rep a d' l c /\ deq_owns d' = deq_owns d /\ d_elem_size d' = d_elem_size d /\
    d_capacity d' = d_capacity d.
Proof.
  intros [H Ht] Hout. pose proof (deq_bounds _ _ _ H) as (Hc & Hcap & Hb & Hz & Hes).
  rewrite zlen_cons in Hz. pose proof (zlen_nonneg l) as G.
  assert (d_capacity d <> 0) as Hc0 by lia. pose proof (deq_head _ _ _ H Hc0) as Hh.
  destruct (deq_read d (x :: l) c 0 x H) as [Rx Lx]; [zl|done|].
  rewrite Z.add_0_r, Z.mod_small in Rx by done.
  destruct (dr_slots _ _ _ _ H) as (slots & S & Ls & V).
  apply deq_view_uncons in V as [V1 V2]; [|done].
  unfold zenit_deque_pop_front. rewrite decide_False by lia. rewrite Rx. simpl.
  rewrite wr_whole by congruence. simpl. rewrite u64_small, umod_Ret by lia. simpl.
  rewrite u64_small by lia. replace (d_count d - 1) with (zlen l) by lia.
  destruct (deq_update d (x :: l) c (d_buffer d) l slots ((d_head d + 1) mod d_capacity d)
    (d_tail d) H) as [R' Ho'];
    [by eapply deq_nonnull|done|done|done|done|apply Z.mod_pos_bound; lia|lia| |].
  { rewrite Ht, ring_next. f_equal. lia. }
  eexists. split; [done|]. done.
Qed.

Lemma pop_back_spec d l c x out :
  deq_rep a d (l ++ [x]) c -> zlen out = d_elem_size d ->
  exists d', zenit_deque_pop_back (Some d) (Some out) = Ret (ZENIT_OK, Some d', Some x) /\
    deq_rep a d' l c /\ deq_owns d' = deq_owns d /\ d_elem_size d' = d_elem_size d /\
    d_capacity d' = d_capacity d.
Proof.
  intros [H Ht] Hout. pose proof (deq_bounds _ _ _ H) as (Hc & Hcap & Hb & Hz & Hes).
  rewrite zlen_app, zlen_cons, zlen_nil in Hz. pose proof (zlen_nonneg l) as G.
  assert (d_capacity d <> 0) as Hc0 by lia. pose proof (deq_head _ _ _ H Hc0) as Hh.
  destruct (deq_read d (l ++ [x]) c (zlen l) x H) as [Rx Lx]; [zl| |].
  { rewrite lookup_app_r by (unfold zlen; lia).
    by replace (_ - _)%nat with O by (unfold zlen; lia). }
  assert ((if decide (d_tail d = 0) then u64 (d_capacity d - 1) else u64 (d_tail d - 1))
          = (d_head d + zlen l) mod d_capacity d) as Et.
  { rewrite Ht. rewrite !mod_wrap by lia. repeat case_decide; rewrite ?u64_small; lia. }
  destruct (dr_slots _ _ _ _ H) as (slots & S & Ls & V).
  apply deq_view_front in V.
  unfold zenit_deque_pop_back. rewrite decide_False by lia. rewrite Et, Rx. simpl.
  rewrite wr_whole by congruence. simpl.
  rewrite u64_small by lia. replace (d_count d - 1) with (zlen l) by lia.
  destruct (deq_update d (l ++ [x]) c (d_buffer d) l slots (d_head d)
    ((d_head d + zlen l) mod d_capacity d) H) as [R' Ho'];
    [by eapply deq_nonnull|done|done|done|done|lia|lia|done|].
  eexists. split; [done|]. done.
Qed.
End DequeSpec.

Section DequeRefinement.
Context {C : Type} (a : zenit_allocator_t C) {SP : AllocSpec a}.
Implicit Types (d : zenit_deque_t C) (c : C) (l : list bytes).

Lemma deq_get_spec d l c i :
  deq_rep a d l c -> 0 <= i < two64 ->
  match l !! Z.to_nat i with
  | None => zenit_deque_get (Some d) i = Ret None
  | Some x => exists off, zenit_deque_get (Some d) i = Ret (Some off) /\
                prd (d_buffer d) off (d_elem_size d) = Ret x
  end.
Proof.
  intros [H _] Hi. pose proof (deq_bounds _ _ _ _ H) as (Hc & Hcap & Hb & Hz & Hes).
  unfold zenit_deque_get. destruct (l !! Z.to_nat i) as [x|] eqn:L.
  - pose proof (lookup_lt_Some _ _ _ L) as Lt. unfold zlen in Hz.
    pose proof (deq_head a _ _ _ H ltac:(lia)) as Hh.
    rewrite decide_False by lia. rewrite (u64_small (_ + i)), umod_Ret by lia. simpl.
    eexists. split; [done|]. eapply deq_read; [done|unfold zlen; lia|done].
  - apply lookup_ge_None in L. unfold zlen in Hz. by rewrite decide_True by lia.
Qed.

Lemma deq_front_spec d l c :
  deq_rep a d l c ->
  match head l with
  | None => zenit_deque_front (Some d) = None
  | Some x => exists off, zenit_deque_front (Some d) = Some off /\
                prd (d_buffer d) off (d_elem_size d) = Ret x
  end.
Proof.
  intros [H _]. pose proof (deq_bounds _ _ _ _ H) as (Hc & Hcap & Hb & Hz & Hes).
  unfold zenit_deque_front. destruct l as [|x l]; simpl.
  - rewrite zlen_nil in Hz. by rewrite decide_True by lia.
  - rewrite zlen_cons in Hz. pose proof (zlen_nonneg l).
    pose proof (deq_head a _ _ _ H ltac:(lia)) as Hh. rewrite decide_False by lia.
    eexists. split; [done|].
    destruct (deq_read a d (x :: l) c 0 x H) as [R _]; [zl|done|].
    by rewrite Z.add_0_r, Z.mod_small in R.
Qed.

Lemma deq_back_spec d l c :
  deq_rep a d l c ->
  match last l with
  | None => zenit_deque_back (Some d) = None
  | Some x => exists off, zenit_deque_back (Some d) = Some off /\
                prd (d_buffer d) off (d_elem_size d) = Ret x
  end.
Proof.
  intros [H Ht]. pose proof (deq_bounds _ _ _ _ H) as (Hc & Hcap & Hb & Hz & Hes).
  unfold zenit_deque_back. destruct l as [|x l _] using rev_ind.
  - rewrite zlen_nil in Hz. simpl. by rewrite decide_True by lia.
  - rewrite last_snoc. autorewrite with zlen in Hz. pose proof (zlen_nonneg l).
    pose proof (deq_head a _ _ _ H ltac:(lia)) as Hh. rewrite decide_False by lia.
    eexists. split; [done|].
    destruct (deq_read a d (l ++ [x]) c (zlen l) x H) as [R _]; [zl| |].
    { rewrite lookup_app_r by (unfold zlen; lia).
      by replace (_ - _)%nat with O by (unfold zlen; lia). }
    rewrite <- R. do 3 f_equal.
    rewrite Ht. rewrite !mod_wrap by lia. repeat case_decide; rewrite ?u64_small; lia.
Qed.

Lemma deq_reserve_spec d l c n :
  deq_rep a d l c -> n * d_elem_size d < two64 ->
  exists r d' c', zenit_deque_reserve (Some d) n c = Ret (r, Some d', c') /\
    deq_post a d l l c r d' c' /\ (d_capacity d' = d_capacity d \/ d_capacity d' = n).
Proof.
  intros [H Ht] Hov. pose proof (deq_bounds _ _ _ _ H) as (Hc & Hcap & Hb & Hz & Hes).
  unfold zenit_deque_reserve. case_decide as Hn.
  - eexists _, _, _. split; [done|]. split; [|by left]. by apply deq_post_ok.
  - destruct (deq_realloc_buffer_spec a d l c n H)
      as (r & d' & c' & -> & T & Es & E8 & P); [lia|done|]. simpl.
    eexists _, _, _. split; [done|]. destruct P as [(-> & R & Ec & Eh & Et)|(-> & -> & Lc)].
    + split; [|by right]. split; [done|]. do 2 (split; [done|]). left. do 2 (split; [done|]).
      pose proof (dr_count _ _ _ _ R). rewrite Eh, Et, Z.mod_small; lia.
    + split; [|by left]. split; [done|]. do 2 (split; [done|]). right. do 2 (split; [done|]).
      split; [|done]. apply (deq_core_live a _ _ c); [done|]. rewrite Lc. apply H.
Qed.

Lemma deq_shrink_spec d l c :
  deq_rep a d l c -> d_count d = 0 \/ d_count d = d_capacity d ->
  exists r d' c', zenit_deque_shrink_to_fit (Some d) c = Ret (r, Some d', c') /\
    deq_post a d l l c r d' c' /\ (d_capacity d' = d_capacity d \/ d_capacity d' = 0).
Proof.
  intros [H Ht] Hs. pose proof (deq_bounds _ _ _ _ H) as (Hc & Hcap & Hb & Hz & Hes).
  unfold zenit_deque_shrink_to_fit. case_decide as Hn.
  - eexists _, _, _. split; [done|]. split; [|by left]. by apply deq_post_ok.
  - destruct (deq_realloc_buffer_spec a d l c (d_count d) H)
      as (r & d' & c' & -> & T & Es & E8 & P); [lia|nia|]. simpl.
    eexists _, _, _. split; [done|]. destruct P as [(-> & R & Ec & Eh & Et)|(-> & -> & Lc)].
    + split; [|right; lia]. split; [done|]. do 2 (split; [done|]). left. do 2 (split; [done|]).
      pose proof (dr_count _ _ _ _ R). rewrite Eh, Et. replace (d_count d') with 0 by lia.
      rewrite Zmod_0_l. lia.
    + split; [|by left]. split; [done|]. do 2 (split; [done|]). right. do 2 (split; [done|]).
      split; [|done]. apply (deq_core_live a _ _ c); [done|]. rewrite Lc. apply H.
Qed.

Lemma deq_clear_spec d l c :
  deq_rep a d l c ->
  exists d', zenit_deque_clear (Some d) = Some d' /\ deq_rep a d' [] c /\
    deq_owns d' = deq_owns d /\ d_elem_size d' = d_elem_size d /\ d_capacity d' = d_capacity d.
Proof.
  intros [H _]. pose proof (deq_bounds _ _ _ _ H) as (Hc & Hcap & Hb & Hz & Hes).
  eexists. split; [done|]. split; [|done]. split; [|by rewrite Zmod_0_l].
  destruct (dr_slots _ _ _ _ H) as (slots & S & Ls & V).
  constructor; simpl; try done; try apply H; try lia.
  exists slots. split; [done|]. split; [done|]. apply deq_view_nil.
Qed.

Lemma deq_create_spec es cap c :
  0 <= es -> 8 * es < two64 -> 0 <= cap -> cap * es < two64 ->
  match zenit_deque_create_with_capacity_and_allocator es cap a c with
  | (None, c') => live c' = live c
  | (Some d, c') => deq_rep a d [] c' /\ transfer a ∅ (deq_owns d) c c' /\
                    d_elem_size d = es /\ d_capacity d = cap
  end.
Proof.
  intros H0 H8 Hc Hov. unfold zenit_deque_create_with_capacity_and_allocator.
  case_decide as D; [done|].
  destruct (alloc_fn a SIZEOF_DEQUE c) as [[h|] c1] eqn:A1; [|by eapply alloc_none].
  rewrite u64_small by nia.
  destruct (alloc_fn a (cap * es) c1) as [[b|] c2] eqn:A2.
  - apply alloc_some in A1 as (_ & _ & F1 & L1).
    apply alloc_some in A2 as (Z2 & M2 & F2 & L2).
    set (d := mk_deque _ _ _ _ _ _ _ _).
    assert (transfer a ∅ (deq_owns d) c c2) as T
      by (unfold deq_owns; simpl; split; rewrite L2, L1; set_solver).
    split; [|done]. split; [|by rewrite Zmod_0_l].
    constructor; simpl; try done; try lia.
    + split; [done|]. intros ->. destruct D. by right.
    + exists (slots_of (Z.to_nat es) (Z.to_nat cap) (b_data b)).
      assert (is_slots es (b_data b) (slots_of (Z.to_nat es) (Z.to_nat cap) (b_data b))) as S
        by (apply is_slots_exists; rewrite Z2; f_equal; lia).
      split; [done|]. apply is_slots_zlen in S. split; [nia|]. apply deq_view_nil.
    + set_solver.
    + apply T.
  - apply alloc_some in A1 as (_ & _ & F1 & L1). apply alloc_none in A2.
    rewrite free_some, A2, L1; set_solver.
Qed.

Lemma deq_destroy_spec d l c :
  deq_core a d l c -> transfer a (deq_owns d) ∅ c (zenit_deque_destroy (Some d) c).
Proof.
  intros H. pose proof (dr_self _ _ _ _ H) as Hs. pose proof (dr_live _ _ _ _ H) as Hl.
  unfold zenit_deque_destroy. rewrite (dr_alloc _ _ _ _ H).
  pose proof (transfer_pfree a (deq_owns d) (d_buffer d) c Hl) as T1.
  unfold deq_owns in *.
  specialize (T1 ltac:(set_solver)). replace (({[d_self d]} ∪ pown (d_buffer d)) ∖ pown (d_buffer d))
    with ({[d_self d]} : gset addr) in T1 by set_solver.
  eapply transfer_trans; [exact T1|].
  replace (∅ : gset addr) with ({[d_self d]} ∖ {[d_self d]} : gset addr) by set_solver.
  apply transfer_free; [apply T1|set_solver].
Qed.

Lemma deque_post_alloc op d l l' c r d' c' :
  deq_post a d l l' c r d' c' -> deque_cap_post op d d' -> deque_may_alloc op ->
  deque_abs op l = (ZENIT_OK, None, l') ->
  deque_post a op d l c (Ret (r, None, Some d', c')).
Proof.
  intros (T & _ & Es & P) K M E. eexists _, _, _, _. do 4 (split; [done|]).
  destruct P as [[-> R]|(-> & -> & R)]; [left; by exists l'|by right].
Qed.

Lemma deque_post_stay op d l l' c r out d' :
  deq_rep a d l c -> deq_rep a d' l' c -> deq_owns d' = deq_owns d ->
  d_elem_size d' = d_elem_size d -> d_capacity d' = d_capacity d ->
  deque_abs op l = (r, out, l') ->
  deque_post a op d l c (Ret (r, out, Some d', c)).
Proof.
  intros [H _] H' O Es K E. eexists _, _, _, _. split; [done|]. rewrite O.
  split; [apply transfer_refl, H|]. do 2 (split; [by try left|]). left; by exists l'.
Qed.

Lemma deque_step fuel op d l c :
  deq_rep a d l c -> deque_pre d op -> (1 <= fuel)%nat ->
  deque_post a op d l c (deque_exec fuel op d c).
Proof.
  intros H Hpre Hf. pose proof (deq_bounds a _ _ _ (proj1 H)) as (Hc & _ & _ & Hz & Hes).
  assert (zlen (replicate (Z.to_nat (d_elem_size d)) 0) = d_elem_size d) as Hout
    by (rewrite zlen_replicate; lia).
  destruct op as [x|x| | |n| |]; cbn [deque_exec]; simpl in Hpre.
  - destruct (push_front_spec a fuel d l c x H) as (r & d' & c' & -> & P & K); [apply Hpre|done|lia|].
    by eapply deque_post_alloc.
  - destruct (push_back_spec a fuel d l c x H) as (r & d' & c' & -> & P & K); [apply Hpre|done|lia|].
    by eapply deque_post_alloc.
  - destruct l as [|x l].
    + unfold zenit_deque_pop_front. rewrite zlen_nil in Hz. rewrite decide_True by lia.
      by eapply deque_post_stay.
    + destruct (pop_front_spec a d l c x _ H Hout) as (d' & -> & R & O & ? & ?).
      by eapply deque_post_stay.
  - destruct l as [|x l _] using rev_ind.
    + unfold zenit_deque_pop_back. rewrite zlen_nil in Hz. rewrite decide_True by lia.
      by eapply deque_post_stay.
    + destruct (pop_back_spec a d l c x _ H Hout) as (d' & -> & R & O & ? & ?).
      eapply deque_post_stay; try done. simpl. rewrite last_snoc, length_app. simpl.
      rewrite Nat.add_sub. by rewrite take_app_length.
  - destruct (deq_reserve_spec d l c n H Hpre) as (r & d' & c' & -> & P & K).
    by eapply deque_post_alloc.
  - destruct (deq_shrink_spec d l c H Hpre) as (r & d' & c' & -> & P & K).
    by eapply deque_post_alloc.
  - destruct (deq_clear_spec d l c H) as (d' & E & R & O & ? & ?). rewrite E.
    by eapply deque_post_stay.
Qed.


(** The accessors of the deque point at the right bytes: [zenit_deque_get i]
    at element [i], [zenit_deque_front] and [zenit_deque_back] at the ends, and
    they are NULL exactly when there is no such element. *)
Theorem deque_accessors d l c i :
  deq_rep a d l c -> 0 <= i < two64 ->
  match l !! Z.to_nat i with
  | None => zenit_deque_get (Some d) i = Ret None
  | Some x => exists off, zenit_deque_get (Some d) i = Ret (Some off) /\
                prd (d_buffer d) off (d_elem_size d) = Ret x
  end /\
  match head l with
  | None => zenit_deque_front (Some d) = None
  | Some x => exists off, zenit_deque_front (Some d) = Some off /\
                prd (d_buffer d) off (d_elem_size d) = Ret x
  end /\
  match last l with
  | None => zenit_deque_back (Some d) = None
  | Some x => exists off, zenit_deque_back (Some d) = Some off /\
                prd (d_buffer d) off (d_elem_size d) = Ret x
  end.
Proof.
  intros H Hi.
  split; [by eapply deq_get_spec|]. split; [by eapply deq_front_spec|by eapply deq_back_spec].
Qed.

(** [zenit_deque_shrink_to_fit] on a deque with unused room leaves
    [tail = capacity], one past the end of the new buffer; after one
    [zenit_deque_pop_front] the deque is not full, so the next
    [zenit_deque_push_back] writes outside the buffer. *)
Theorem deque_shrink_breaks_tail d l x c d' c' out y :
  deq_rep a d (x :: l) c -> zlen (x :: l) < d_capacity d ->
  zlen out = d_elem_size d -> zlen y = d_elem_size d ->
  zenit_deque_shrink_to_fit (Some d) c = Ret (ZENIT_OK, Some d', c') ->
  d_tail d' = d_capacity d' /\
  exists d2, zenit_deque_pop_front (Some d') (Some out) = Ret (ZENIT_OK, Some d2, Some x) /\
    forall fuel, zenit_deque_push_back fuel (Some d2) (Some y) c' = Undef.
Proof.
  intros [H Ht] Hlt Hout Hy. pose proof (deq_bounds a _ _ _ H) as (Hc & Hcap & Hb & Hz & Hes).
  assert (d_count d * d_elem_size d < two64) as Hov by nia.
  unfold zenit_deque_shrink_to_fit. rewrite decide_False by lia.
  destruct (deq_realloc_buffer_spec a d (x :: l) c (d_count d) H)
    as (r & d1 & c1 & -> & T & Es & E8 & P); [lia|done|].
  simpl. intros [= -> -> ->]. destruct P as [(_ & R & Ec & Eh & Et)|(? & _)]; [|done].
  rewrite zlen_cons in Hz. pose proof (zlen_nonneg l) as G.
  rewrite zlen_cons in Et. split; [lia|].
  pose proof (dr_count _ _ _ _ R) as Hc1. rewrite zlen_cons in Hc1.
  destruct (dr_slots _ _ _ _ R) as (slots & S & Ls & V).
  destruct (deq_read a d' (x :: l) c' 0 x R) as [Rx Lx]; [zl|done|].
  rewrite Eh, Zmod_0_l in Rx.
  unfold zenit_deque_pop_front. rewrite decide_False by lia. rewrite Eh, Rx. simpl.
  rewrite wr_whole by congruence. simpl. rewrite !u64_small, umod_Ret by lia. simpl.
  eexists. split; [done|]. intros fuel. unfold zenit_deque_push_back. simpl.
  rewrite decide_False by lia. simpl. rewrite rd_whole by congruence. simpl.
  rewrite u64_small by nia. rewrite Et.
  destruct (d_buffer d') as [b|]; [|done]. simpl in *.
  pose proof (is_slots_zlen _ _ _ S) as LB. rewrite Ls, Ec, <- Hz, E8 in LB.
  unfold wr. rewrite decide_False; [done|]. rewrite E8, LB. lia.
Qed.
End DequeRefinement.

(** ** Witnesses *)

(** One-byte elements 1, 2, 3 wrapped around the end of a buffer of 4. *)
Definition wit_deque : zenit_deque_t heap :=
  mk_deque 2 (Some (Block 3 [2; 3; 165; 1])) 1 3 4 3 2 ZENIT_ALLOCATOR_DEFAULT.
Definition wit_deque_heap : heap := mk_heap {[ 2%positive; 3%positive ]} [].

Lemma wit_deque_rep : deq_rep ZENIT_ALLOCATOR_DEFAULT wit_deque [[1]; [2]; [3]] wit_deque_heap.
Proof.
  split; [|done]. constructor; simpl; try done; try lia.
  exists [[2]; [3]; [165]; [1]]. split; [split; [done|repeat constructor]|]. split; [done|].
  intros i Hi. unfold zlen in Hi; simpl in Hi.
  assert (i = 0 \/ i = 1 \/ i = 2) as [->|[->| ->]] by lia; reflexivity.
Qed.


Lemma deque_accessors_witness :
  (exists off, zenit_deque_get (Some wit_deque) 2 = Ret (Some off) /\
     prd (d_buffer wit_deque) off 1 = Ret [3]) /\
  (exists off, zenit_deque_front (Some wit_deque) = Some off /\
     prd (d_buffer wit_deque) off 1 = Ret [1]) /\
  (exists off, zenit_deque_back (Some wit_deque) = Some off /\
     prd (d_buffer wit_deque) off 1 = Ret [3]).
Proof.
  exact (deque_accessors ZENIT_ALLOCATOR_DEFAULT wit_deque [[1]; [2]; [3]] wit_deque_heap 2
           wit_deque_rep ltac:(lia)).
Defined.

Lemma deque_shrink_breaks_tail_witness :
  match zenit_deque_shrink_to_fit (Some wit_deque) wit_deque_heap with
  | Ret (ZENIT_OK, Some d', c') =>
      d_tail d' = d_capacity d' /\
      exists d2, zenit_deque_pop_front (Some d') (Some [0]) = Ret (ZENIT_OK, Some d2, Some [1]) /\
        forall fuel, zenit_deque_push_back fuel (Some d2) (Some [9]) c' = Undef
  | _ => False
  end.
Proof.
  refine (deque_shrink_breaks_tail ZENIT_ALLOCATOR_DEFAULT wit_deque [[2]; [3]] [1]
    wit_deque_heap _ _ [0] [9] wit_deque_rep _ _ _ _); reflexivity.
Defined.
