(* ===== verification/Queue.v ===== *)
(** * FIFO queue ([src/queue.c])

    A [zenit_queue_t] owns a deque and forwards to it: enqueue pushes at the back,
    dequeue pops at the front.  The deque it creates starts with capacity 8 and is
    never shrunk, which keeps it away from the two states in which a deque alone
    misbehaves; every operation of the queue is therefore total. *)

From Stdlib Require Import ZArith Lia.
From stdpp Require Import base tactics option list numbers gmap sets.
From S2P Require Import Prelude Mem Result Allocator Growth Deque.
Open Scope Z_scope.

Record zenit_queue_t (C : Type) : Type := mk_queue {
  q_self : addr;
  q_deque : option (zenit_deque_t C);
  q_elem_size : Z;
  q_allocator : zenit_allocator_t C }.
Arguments mk_queue {C}.
Arguments q_self {C}.
Arguments q_deque {C}.
Arguments q_elem_size {C}.
Arguments q_allocator {C}.

Definition SIZEOF_QUEUE : Z := 48.

Section QueueModel.
Context {C : Type}.
Implicit Types (q : zenit_queue_t C) (c : C) (a : zenit_allocator_t C).

Definition set_deque q (d : option (zenit_deque_t C)) : zenit_queue_t C :=
  mk_queue (q_self q) d (q_elem_size q) (q_allocator q).

Definition zenit_queue_create_with_allocator (elem_size : Z) a c : option (zenit_queue_t C) * C :=
  if decide (elem_size = 0) then (None, c)
  else
    match alloc_fn a SIZEOF_QUEUE c with
    | (None, c1) => (None, c1)
    | (Some h, c1) =>
        match zenit_deque_create_with_allocator elem_size a c1 with
        | (None, c2) => (None, free_fn a (Some (b_addr h)) c2)
        | (deque, c2) => (Some (mk_queue (b_addr h) deque elem_size a), c2)
        end
    end.

Definition zenit_queue_destroy (queue : option (zenit_queue_t C)) c : C :=
  match queue with
  | None => c
  | Some q =>
      let a := q_allocator q in
      let c1 := zenit_deque_destroy (q_deque q) c in
      free_fn a (Some (q_self q)) c1
  end.

Definition zenit_queue_enqueue (fuel : nat) (queue : option (zenit_queue_t C))
    (elem : option bytes) c : outcome (zenit_error_t * option (zenit_queue_t C) * C) :=
  match queue, elem with
  | Some q, Some _ =>
      let! (r, d, c1) := zenit_deque_push_back fuel (q_deque q) elem c in
      Ret (r, Some (set_deque q d), c1)
  | _, _ => Ret (ZENIT_ERROR_NULL, queue, c)
  end.

Definition zenit_queue_dequeue (queue : option (zenit_queue_t C)) (out_elem : option bytes)
    : outcome (zenit_error_t * option (zenit_queue_t C) * option bytes) :=
  match queue, out_elem with
  | Some q, Some _ =>
      let! (r, d, o) := zenit_deque_pop_front (q_deque q) out_elem in
      Ret (r, Some (set_deque q d), o)
  | _, _ => Ret (ZENIT_ERROR_NULL, queue, out_elem)
  end.

(** The front element's offset in the deque's buffer. *)
Definition zenit_queue_peek (queue : option (zenit_queue_t C)) : option Z :=
  match queue with None => None | Some q => zenit_deque_front (q_deque q) end.

Definition zenit_queue_count (queue : option (zenit_queue_t C)) : Z :=
  match queue with None => 0 | Some q => zenit_deque_count (q_deque q) end.

Definition zenit_queue_empty (queue : option (zenit_queue_t C)) : bool :=
  match queue with None => true | Some q => zenit_deque_empty (q_deque q) end.

Definition zenit_queue_clear (queue : option (zenit_queue_t C)) : option (zenit_queue_t C) :=
  match queue with
  | None => None
  | Some q => Some (set_deque q (zenit_deque_clear (q_deque q)))
  end.
End QueueModel.

Definition zenit_queue_create (elem_size : Z) (h : heap) : option (zenit_queue_t heap) * heap :=
  zenit_queue_create_with_allocator elem_size ZENIT_ALLOCATOR_DEFAULT h.

(** ** Representation and abstract specification *)

Definition queue_owns {C : Type} (q : zenit_queue_t C) : gset addr :=
  {[ q_self q ]} ∪ match q_deque q with Some d => deq_owns d | None => ∅ end.

(** [queue_rep a q l c]: the queue [q] holds [l], oldest first. *)
Definition queue_rep {C : Type} (a : zenit_allocator_t C) {SP : AllocSpec a}
    (q : zenit_queue_t C) (l : list bytes) (c : C) : Prop :=
  exists d, q_deque q = Some d /\ deq_rep a d l c /\ q_allocator q = a /\
    d_elem_size d = q_elem_size q /\ d_capacity d <> 1 /\
    (q_self q ∉ deq_owns d) /\ q_self q ∈ live c.

Inductive queue_op : Type := QEnqueue (x : bytes) | QDequeue | QPeek | QCount | QEmpty | QClear.

Inductive queue_res : Type :=
| QErr (e : zenit_error_t) (out : option bytes)
| QElem (x : option bytes)
| QNum (n : Z)
| QBool (b : bool)
| QVoid.

Definition queue_abs (op : queue_op) (l : list bytes) : queue_res * list bytes :=
  match op, l with
  | QEnqueue x, _ => (QErr ZENIT_OK None, l ++ [x])
  | QDequeue, [] => (QErr ZENIT_ERROR_EMPTY None, [])
  | QDequeue, x :: l' => (QErr ZENIT_OK (Some x), l')
  | QPeek, _ => (QElem (head l), l)
  | QCount, _ => (QNum (zlen l), l)
  | QEmpty, _ => (QBool (bool_decide (l = [])), l)
  | QClear, _ => (QVoid, [])
  end.

Definition queue_exec {C : Type} (fuel : nat) (op : queue_op) (q : zenit_queue_t C) (c : C)
    : outcome (queue_res * option (zenit_queue_t C) * C) :=
  match op with
  | QEnqueue x =>
      let! (r, q', c') := zenit_queue_enqueue fuel (Some q) (Some x) c in
      Ret (QErr r None, q', c')
  | QDequeue =>
      let! (r, q', o) :=
        zenit_queue_dequeue (Some q) (Some (replicate (Z.to_nat (q_elem_size q)) 0)) in
      Ret (QErr r (if decide (r = ZENIT_OK) then o else None), q', c)
  | QPeek =>
      match zenit_queue_peek (Some q) with
      | None => Ret (QElem None, Some q, c)
      | Some off =>
          let! x := match q_deque q with
                    | Some d => prd (d_buffer d) off (d_elem_size d)
                    | None => Undef end in
          Ret (QElem (Some x), Some q, c)
      end
  | QCount => Ret (QNum (zenit_queue_count (Some q)), Some q, c)
  | QEmpty => Ret (QBool (zenit_queue_empty (Some q)), Some q, c)
  | QClear => Ret (QVoid, zenit_queue_clear (Some q), c)
  end.

Definition queue_pre (es : Z) (op : queue_op) : Prop :=
  match op with QEnqueue x => zlen x = es | _ => True end.

Definition queue_post {C : Type} (a : zenit_allocator_t C) {SP : AllocSpec a}
    (op : queue_op) (q : zenit_queue_t C) (l : list bytes) (c : C)
    (m : outcome (queue_res * option (zenit_queue_t C) * C)) : Prop :=
  exists r q' c' l', m = Ret (r, Some q', c') /\ queue_rep a q' l' c' /\
    q_elem_size q' = q_elem_size q /\
    transfer a (queue_owns q) (queue_owns q') c c' /\
    (queue_abs op l = (r, l') \/
     ((exists x, op = QEnqueue x) /\ r = QErr ZENIT_ERROR_ALLOC None /\ l' = l)).

Fixpoint queue_run {C : Type} (fuel : nat) (ops : list queue_op) (q : zenit_queue_t C) (c : C)
    : outcome (list queue_res * zenit_queue_t C * C) :=
  match ops with
  | [] => Ret ([], q, c)
  | op :: ops =>
      let! (r, q', c') := queue_exec fuel op q c in
      match q' with
      | Some q' => let! (rs, q2, c2) := queue_run fuel ops q' c' in Ret (r :: rs, q2, c2)
      | None => Undef
      end
  end.

(** The results a FIFO may give from contents [l]: those of [queue_abs], except
    that an enqueue may fail to allocate. *)
Inductive fifo_trace : list bytes -> list queue_op -> list queue_res -> Prop :=
| fifo_nil l : fifo_trace l [] []
| fifo_step l op ops r rs l' :
    queue_abs op l = (r, l') -> fifo_trace l' ops rs -> fifo_trace l (op :: ops) (r :: rs)
| fifo_alloc l x ops rs :
    fifo_trace l ops rs ->
    fifo_trace l (QEnqueue x :: ops) (QErr ZENIT_ERROR_ALLOC None :: rs).

Section QueueSpec.
Context {C : Type} (a : zenit_allocator_t C) {SP : AllocSpec a}.
Implicit Types (q : zenit_queue_t C) (c : C) (l : list bytes).

(** Rebuilding the queue around a changed deque. *)
Lemma queue_rep_deque q l l' c d d' c' :
  queue_rep a q l c -> q_deque q = Some d ->
  deq_rep a d' l' c' -> d_elem_size d' = d_elem_size d -> d_capacity d' <> 1 ->
  transfer a (deq_owns d) (deq_owns d') c c' ->
  queue_rep a (set_deque q (Some d')) l' c' /\
  transfer a (queue_owns q) (queue_owns (set_deque q (Some d'))) c c'.
Proof.
  intros (w & Ed & R & Ea & Es & K & Hs & Hl) Ed' R' Es' K' T.
  rewrite Ed in Ed'. injection Ed' as ->.
  destruct (transfer_frame a {[q_self q]} _ _ _ _ T) as (T' & Hl' & Hs'); [set_solver..|].
  split.
  - exists d'. simpl. split_and!; [done|done|done|congruence|done|set_solver|set_solver].
  - unfold queue_owns. simpl. by rewrite Ed.
Qed.

Lemma queue_owned q l c : queue_rep a q l c -> queue_owns q ⊆ live c.
Proof.
  intros (d & Ed & [R _] & _ & _ & _ & _ & Hl). unfold queue_owns. rewrite Ed.
  pose proof (dr_live _ _ _ _ R). set_solver.
Qed.

Lemma queue_post_pure op q l c r :
  queue_rep a q l c -> queue_abs op l = (r, l) -> queue_post a op q l c (Ret (r, Some q, c)).
Proof.
  intros H E. exists r, q, c, l. split_and!; try done; [|by left].
  by eapply transfer_refl, queue_owned.
Qed.

(** The deque calls the queue makes meet the deque's precondition, so that
    [deque_step] applies to them. *)
Lemma queue_deque_step fuel op q l c d :
  queue_rep a q l c -> q_deque q = Some d -> (1 <= fuel)%nat ->
  match op with DPushBack x => zlen x = q_elem_size q | DPopFront | DClear => True | _ => False end ->
  exists r out d' c' l', deque_exec fuel op d c = Ret (r, out, Some d', c') /\
    queue_rep a (set_deque q (Some d')) l' c' /\
    transfer a (queue_owns q) (queue_owns (set_deque q (Some d'))) c c' /\
    (deque_abs op l = (r, out, l') \/ (deque_may_alloc op /\ r = ZENIT_ERROR_ALLOC /\ l' = l)).
Proof.
  intros H Ed Hf Hop. pose proof H as (w & Ed' & R & Ea & Es & K & Hs & Hl).
  rewrite Ed in Ed'. injection Ed' as <-.
  assert (deque_pre d op) as Hpre.
  { destruct op; simpl; try done. split; [congruence|]. by intros [_ ?]. }
  destruct (deque_step a fuel op d l c R Hpre Hf) as (r & out & d' & c' & E & T & Es' & Kp & P).
  assert (d_capacity d' <> 1) as K'.
  { destruct Kp as [->|Kp]; [done|]. destruct op; simpl in Kp; try done. lia. }
  destruct P as [(l' & Ab & R')|(M & -> & -> & -> & R')].
  - destruct (queue_rep_deque q l l' c d d' c') as [Q1 Q2]; try done.
    eexists _, _, _, _, l'. split_and!; [done|done|done|by left].
  - destruct (queue_rep_deque q l l c d d c') as [Q1 Q2]; try done.
    eexists _, _, _, _, l. split_and!; [done|done|done|by right].
Qed.

Lemma queue_step fuel op q l c :
  queue_rep a q l c -> queue_pre (q_elem_size q) op -> (1 <= fuel)%nat ->
  queue_post a op q l c (queue_exec fuel op q c).
Proof.
  intros H Hp Hf. pose proof H as (d & Ed & R & Ea & Es & K & Hs & Hl).
  pose proof (dr_count _ _ _ _ (proj1 R)) as Hz.
  destruct op as [x| | | | |].
  - destruct (queue_deque_step fuel (DPushBack x) q l c d H Ed Hf Hp)
      as (r & out & d' & c' & l' & E & Q & T & P).
    cbn [deque_exec] in E. cbn [queue_exec zenit_queue_enqueue]. rewrite Ed.
    apply obind_Ret_inv in E as ([[r1 d1] c1] & -> & [= -> <- -> ->]). simpl.
    eexists _, _, _, _. split; [done|]. split; [done|]. split; [done|]. split; [done|].
    destruct P as [P|(_ & -> & ->)]; [left; simpl in *; congruence|right; by eauto].
  - destruct (queue_deque_step fuel DPopFront q l c d H Ed Hf I)
      as (r & out & d' & c' & l' & E & Q & T & P).
    cbn [deque_exec] in E. cbn [queue_exec zenit_queue_dequeue]. rewrite Ed, <- Es.
    apply obind_Ret_inv in E as ([[r1 d1] o1] & -> & [= -> <- -> <-]). simpl.
    eexists _, _, _, _. split; [done|]. split; [done|]. split; [done|]. split; [done|].
    destruct P as [P|([] & _)].
    left. destruct l; simpl in *; congruence.
  - cbn [queue_exec zenit_queue_peek]. rewrite Ed. pose proof (deq_front_spec a d l c R) as F.
    destruct (head l) as [x|] eqn:Eh.
    + destruct F as (off & -> & ->). apply queue_post_pure; [done|]. simpl. by rewrite Eh.
    + rewrite F. by apply queue_post_pure; [|simpl; rewrite Eh].
  - apply queue_post_pure; [done|]. simpl. rewrite Ed. simpl. by rewrite Hz.
  - apply queue_post_pure; [done|]. simpl. rewrite Ed. simpl. do 2 f_equal.
    apply bool_decide_ext. rewrite Hz. unfold zlen. destruct l; simpl; [done|]. split; [done|lia].
  - destruct (queue_deque_step fuel DClear q l c d H Ed Hf I)
      as (r & out & d' & c' & l' & E & Q & T & P).
    simpl in *. rewrite Ed. injection E as <- <- <- <-.
    eexists _, _, _, _. split; [done|]. split; [done|]. split; [done|]. split; [done|].
    left. destruct P as [P|([] & _)]. injection P as <-. by destruct l.
Qed.
Lemma queue_create_spec es c :
  0 <= es -> 8 * es < two64 ->
  match zenit_queue_create_with_allocator es a c with
  | (None, c') => live c' = live c
  | (Some q, c') => queue_rep a q [] c' /\ transfer a ∅ (queue_owns q) c c' /\ q_elem_size q = es
  end.
Proof.
  intros H0 H8. unfold zenit_queue_create_with_allocator. case_decide; [done|].
  destruct (alloc_fn a SIZEOF_QUEUE c) as [[h|] c1] eqn:A; [|by eapply alloc_none].
  apply alloc_some in A as (_ & _ & F & L).
  pose proof (deq_create_spec a es DEFAULT_CAPACITY c1 H0 H8 ltac:(done) H8) as V.
  unfold zenit_deque_create_with_allocator.
  destruct (zenit_deque_create_with_capacity_and_allocator es _ a c1) as [[d|] c2].
  - destruct V as (R & T & Es & Cap).
    destruct (transfer_frame a {[b_addr h]} _ _ _ _ T) as (T' & Hl & Hs); [set_solver..|].
    split; [|split; [|done]].
    + exists d. simpl. split_and!; [done|done|done|done|by rewrite Cap|set_solver|set_solver].
    + unfold queue_owns. simpl. eapply transfer_trans; [|exact T'].
      split; rewrite L; set_solver.
  - rewrite free_some by (rewrite V; set_solver). rewrite V, L. set_solver.
Qed.

Lemma queue_destroy_spec q l c :
  queue_rep a q l c -> transfer a (queue_owns q) ∅ c (zenit_queue_destroy (Some q) c).
Proof.
  intros (d & Ed & [R _] & Ea & _ & _ & Hs & Hl). unfold zenit_queue_destroy, queue_owns.
  rewrite Ed, Ea.
  destruct (transfer_frame a {[q_self q]} _ _ _ _ (deq_destroy_spec a d _ c R))
    as (T & Hl' & _); [set_solver..|].
  eapply transfer_trans; [exact T|].
  replace ({[q_self q]} ∪ ∅ : gset addr) with ({[q_self q]} : gset addr) by set_solver.
  replace (∅ : gset addr) with ({[q_self q]} ∖ {[q_self q]} : gset addr) by set_solver.
  apply transfer_free; set_solver.
Qed.

Lemma queue_run_spec fuel ops q l c :
  queue_rep a q l c -> Forall (queue_pre (q_elem_size q)) ops -> (1 <= fuel)%nat ->
  exists rs q' l' c', queue_run fuel ops q c = Ret (rs, q', c') /\
    fifo_trace l ops rs /\ queue_rep a q' l' c' /\ transfer a (queue_owns q) (queue_owns q') c c'.
Proof.
  intros H Hops Hf. revert q l c H Hops.
  induction ops as [|op ops IH]; intros q l c H Hops.
  - exists [], q, l, c. split_and!; [done|constructor|done|]. by eapply transfer_refl, queue_owned.
  - apply Forall_cons_1 in Hops as [Hop Hops]. simpl.
    destruct (queue_step fuel op q l c H Hop Hf)
      as (r & q1 & c1 & l1 & -> & R1 & Es & T1 & P). simpl.
    rewrite <- Es in Hops.
    destruct (IH q1 l1 c1 R1 Hops) as (rs & q2 & l2 & c2 & -> & Tr & R2 & T2).
    simpl. eexists _, _, _, _. split; [done|]. split; [|split; [done|by eapply transfer_trans]].
    destruct P as [P|((x & ->) & -> & ->)]; [by eapply fifo_step|by apply fifo_alloc].
Qed.

(** The queue is a FIFO: after a successful creation any sequence of enqueues,
    dequeues, peeks, counts and clears returns, without undefined behaviour or
    divergence, exactly what a FIFO of the enqueued elements returns, an enqueue
    being allowed to report [ZENIT_ERROR_ALLOC] and change nothing; destruction
    gives back exactly the memory held, and a failed creation leaves none. *)
Theorem queue_fifo fuel es ops c :
  0 <= es -> 8 * es < two64 -> Forall (queue_pre es) ops -> (1 <= fuel)%nat ->
  match zenit_queue_create_with_allocator es a c with
  | (None, c1) => live c1 = live c
  | (Some q, c1) => exists rs q' c2, queue_run fuel ops q c1 = Ret (rs, q', c2) /\
      fifo_trace [] ops rs /\ live (zenit_queue_destroy (Some q') c2) = live c
  end.
Proof.
  intros H0 H8 Hops Hf. pose proof (queue_create_spec es c H0 H8) as Cr.
  destruct (zenit_queue_create_with_allocator es a c) as [[q|] c1]; [|done].
  destruct Cr as (R & T & Es). rewrite <- Es in Hops.
  destruct (queue_run_spec fuel ops q [] c1 R Hops Hf) as (rs & q' & l' & c2 & -> & Tr & R' & T').
  eexists _, _, _. split; [done|]. split; [done|].
  pose proof (queue_destroy_spec q' l' c2 R') as D.
  rewrite (transfer_empty a ∅ c); [set_solver|].
  eapply transfer_trans; [exact T|]. by eapply transfer_trans.
Qed.
End QueueSpec.

(** ** Witness *)

Lemma queue_fifo_witness :
  match zenit_queue_create 1 empty_heap with
  | (None, c1) => h_live c1 = h_live empty_heap
  | (Some q, c1) => exists rs q' c2,
      queue_run 1 [QEnqueue [1]; QEnqueue [2]; QPeek; QDequeue; QCount; QDequeue; QDequeue] q c1
        = Ret (rs, q', c2) /\
      fifo_trace [] [QEnqueue [1]; QEnqueue [2]; QPeek; QDequeue; QCount; QDequeue; QDequeue] rs /\
      h_live (zenit_queue_destroy (Some q') c2) = h_live empty_heap
  end.
Proof.
  refine (queue_fifo ZENIT_ALLOCATOR_DEFAULT 1 1
    [QEnqueue [1]; QEnqueue [2]; QPeek; QDequeue; QCount; QDequeue; QDequeue] empty_heap _ _ _ _);
    try lia.
  repeat constructor.
Defined.
