(* ===== verification/Ring.v ===== *)
(** * Ring buffer of bytes ([src/ring.c])

    A fixed-size byte queue with a write cursor [head], a read cursor [tail] and a
    separate count.  Transfers wrap around the end of the buffer and are done in
    two [memcpy] calls.  [ring_view] describes where the stored bytes lie, and the
    theorems show that the calls implement a bounded queue of bytes. *)

From Stdlib Require Import ZArith Lia.
From stdpp Require Import base tactics option list numbers gmap sets.
From S2P Require Import Prelude Mem Result Allocator.
Open Scope Z_scope.

Record zenit_ring_t (C : Type) : Type := mk_ring {
  r_self : addr;
  r_buffer : option block;
  r_capacity : Z;
  r_head : Z;
  r_tail : Z;
  r_count : Z;
  r_allocator : zenit_allocator_t C }.
Arguments mk_ring {C}.
Arguments r_self {C}.
Arguments r_buffer {C}.
Arguments r_capacity {C}.
Arguments r_head {C}.
Arguments r_tail {C}.
Arguments r_count {C}.
Arguments r_allocator {C}.

Definition SIZEOF_RING : Z := 72.

Section RingModel.
Context {C : Type}.
Implicit Types (g : zenit_ring_t C) (c : C) (a : zenit_allocator_t C).

Definition upd_ring g (buffer : option block) (capacity head tail count : Z) : zenit_ring_t C :=
  mk_ring (r_self g) buffer capacity head tail count (r_allocator g).

Definition zenit_ring_create_with_allocator (capacity : Z) a c
    : outcome (option (zenit_ring_t C) * C) :=
  if decide (capacity = 0) then Ret (None, c)
  else
    match alloc_fn a SIZEOF_RING c with
    | (None, c1) => Ret (None, c1)
    | (Some h, c1) =>
        let! (buffer, c2) := zenit_allocator_alloc_zero a 1 capacity c1 in
        match buffer with
        | None => Ret (None, free_fn a (Some (b_addr h)) c2)
        | Some _ => Ret (Some (mk_ring (b_addr h) buffer capacity 0 0 0 a), c2)
        end
    end.

Definition zenit_ring_destroy (ring : option (zenit_ring_t C)) c : C :=
  match ring with
  | None => c
  | Some g =>
      let a := r_allocator g in
      let c1 := free_fn a (paddr (r_buffer g)) c in
      free_fn a (Some (r_self g)) c1
  end.

(** The two [memcpy] calls of [zenit_ring_push]. *)
Definition copy_in (buffer : option block) (capacity head : Z) (d : bytes) (size : Z)
    : outcome (option block) :=
  let room := u64 (capacity - head) in
  let first_chunk := if decide (size < room) then size else room in
  let! d1 := rd d 0 first_chunk in
  let! buf1 := pwr buffer head d1 in
  let second_chunk := u64 (size - first_chunk) in
  if decide (0 < second_chunk)
  then let! d2 := rd d first_chunk second_chunk in pwr buf1 0 d2
  else Ret buf1.

Definition zenit_ring_push (ring : option (zenit_ring_t C)) (data : option bytes) (size : Z)
    : outcome (zenit_error_t * option (zenit_ring_t C)) :=
  match ring, data with
  | Some g, Some d =>
      if decide (size = 0) then Ret (ZENIT_ERROR_PARAM, ring)
      else if decide (r_capacity g < u64 (r_count g + size)) then Ret (ZENIT_ERROR_FULL, ring)
      else
        let! buf2 := copy_in (r_buffer g) (r_capacity g) (r_head g) d size in
        let! head := umod (u64 (r_head g + size)) (r_capacity g) in
        Ret (ZENIT_OK,
             Some (upd_ring g buf2 (r_capacity g) head (r_tail g) (u64 (r_count g + size))))
  | _, _ => Ret (ZENIT_ERROR_NULL, ring)
  end.

(** The wrap-around copy of [to_read] bytes from [tail] shared by
    [zenit_ring_pop], [zenit_ring_peek] and [zenit_ring_reserve]. *)
Definition copy_out g (to_read : Z) (dst : bytes) : outcome bytes :=
  let room := u64 (r_capacity g - r_tail g) in
  let first_chunk := if decide (to_read < room) then to_read else room in
  let! d1 := prd (r_buffer g) (r_tail g) first_chunk in
  let! dst1 := wr dst 0 d1 in
  let second_chunk := u64 (to_read - first_chunk) in
  if decide (0 < second_chunk)
  then let! d2 := prd (r_buffer g) 0 second_chunk in wr dst1 first_chunk d2
  else Ret dst1.

Definition zenit_ring_pop (ring : option (zenit_ring_t C)) (data : option bytes) (size : option Z)
    : outcome (zenit_error_t * option (zenit_ring_t C) * option bytes * option Z) :=
  match ring, data, size with
  | Some g, Some d, Some n =>
      if decide (n = 0) then Ret (ZENIT_ERROR_PARAM, ring, data, size)
      else if decide (r_count g = 0) then Ret (ZENIT_ERROR_EMPTY, ring, data, size)
      else
        let to_read := if decide (r_count g < n) then r_count g else n in
        let! d' := copy_out g to_read d in
        let! tail := umod (u64 (r_tail g + to_read)) (r_capacity g) in
        Ret (ZENIT_OK,
             Some (upd_ring g (r_buffer g) (r_capacity g) (r_head g) tail
                     (u64 (r_count g - to_read))), Some d', Some to_read)
  | _, _, _ => Ret (ZENIT_ERROR_NULL, ring, data, size)
  end.

Definition zenit_ring_peek (ring : option (zenit_ring_t C)) (data : option bytes) (size : option Z)
    : outcome (zenit_error_t * option bytes * option Z) :=
  match ring, data, size with
  | Some g, Some d, Some n =>
      if decide (n = 0) then Ret (ZENIT_ERROR_PARAM, data, size)
      else if decide (r_count g = 0) then Ret (ZENIT_ERROR_EMPTY, data, size)
      else
        let to_read := if decide (r_count g < n) then r_count g else n in
        let! d' := copy_out g to_read d in
        Ret (ZENIT_OK, Some d', Some to_read)
  | _, _, _ => Ret (ZENIT_ERROR_NULL, data, size)
  end.

Definition zenit_ring_count (ring : option (zenit_ring_t C)) : Z :=
  match ring with None => 0 | Some g => r_count g end.

Definition zenit_ring_capacity (ring : option (zenit_ring_t C)) : Z :=
  match ring with None => 0 | Some g => r_capacity g end.

Definition zenit_ring_clear (ring : option (zenit_ring_t C)) : option (zenit_ring_t C) :=
  match ring with
  | None => None
  | Some g => Some (upd_ring g (r_buffer g) (r_capacity g) 0 0 0)
  end.

Definition zenit_ring_reserve (ring : option (zenit_ring_t C)) (new_capacity : Z) c
    : outcome (zenit_error_t * option (zenit_ring_t C) * C) :=
  match ring with
  | None => Ret (ZENIT_ERROR_NULL, ring, c)
  | Some g =>
      if decide (new_capacity = 0) then Ret (ZENIT_ERROR_PARAM, ring, c)
      else
        let a := r_allocator g in
        match alloc_fn a new_capacity c with
        | (None, c1) => Ret (ZENIT_ERROR_ALLOC, ring, c1)
        | (Some nb, c1) =>
            let to_copy := if decide (new_capacity < r_count g) then new_capacity
                           else r_count g in
            let! d := if decide (0 < to_copy) then copy_out g to_copy (b_data nb)
                      else Ret (b_data nb) in
            let c2 := free_fn a (paddr (r_buffer g)) c1 in
            Ret (ZENIT_OK,
                 Some (upd_ring g (Some (Block (b_addr nb) d)) new_capacity to_copy 0 to_copy), c2)
        end
  end.

Definition zenit_ring_shrink_to_fit (ring : option (zenit_ring_t C)) c
    : outcome (zenit_error_t * option (zenit_ring_t C) * C) :=
  match ring with
  | None => Ret (ZENIT_ERROR_NULL, ring, c)
  | Some g =>
      let target := if decide (r_count g = 0) then 1 else r_count g in
      zenit_ring_reserve ring target c
  end.
End RingModel.

Definition zenit_ring_create (capacity : Z) (h : heap)
    : outcome (option (zenit_ring_t heap) * heap) :=
  zenit_ring_create_with_allocator capacity ZENIT_ALLOCATOR_DEFAULT h.

(** ** Representation *)

Definition ring_owns {C : Type} (g : zenit_ring_t C) : gset addr :=
  {[ r_self g ]} ∪ pown (r_buffer g).

(** The stored bytes [l] lie in one piece from [tail], or in two pieces around
    the end of the buffer. *)
Inductive ring_view (buf : bytes) (tail : Z) (l : bytes) : Prop :=
| view_straight p s :
    buf = p ++ l ++ s -> tail = zlen p -> ring_view buf tail l
| view_wrapped l1 l2 f :
    l = l1 ++ l2 -> l2 <> [] -> buf = l2 ++ f ++ l1 -> tail = zlen l2 + zlen f ->
    ring_view buf tail l.

Record ring_rep {C : Type} (a : zenit_allocator_t C) {SP : AllocSpec a}
    (g : zenit_ring_t C) (l : bytes) (c : C) : Prop := {
  rr_alloc : r_allocator g = a;
  rr_null : r_buffer g <> None;
  rr_cap : 0 < r_capacity g <= PTRDIFF_MAX;
  rr_len : zlen (pbytes (r_buffer g)) = r_capacity g;
  rr_count : r_count g = zlen l;
  rr_fit : zlen l <= r_capacity g;
  rr_tail : 0 <= r_tail g < r_capacity g;
  rr_head : 0 <= r_head g <= r_capacity g;
  rr_cursor : r_head g mod r_capacity g = (r_tail g + zlen l) mod r_capacity g;
  rr_view : ring_view (pbytes (r_buffer g)) (r_tail g) l;
  rr_self : r_self g ∉ pown (r_buffer g);
  rr_live : ring_owns g ⊆ live c }.

(** ** Abstract specification: a bounded queue of bytes *)

Inductive ring_op : Type :=
| GPush (data : bytes)
| GPop (n : Z)
| GPeek (n : Z)
| GReserve (n : Z)
| GShrink
| GClear
| GCount
| GCapacity.

Inductive ring_res : Type :=
| GErr (e : zenit_error_t) (out : option bytes)
| GNum (n : Z)
| GVoid.

(** State: capacity and contents, oldest byte first. *)
Definition ring_abs (op : ring_op) (st : Z * bytes) : ring_res * (Z * bytes) :=
  let (cap, l) := st in
  match op with
  | GPush data =>
      if decide (data = []) then (GErr ZENIT_ERROR_PARAM None, st)
      else if decide (cap < zlen l + zlen data) then (GErr ZENIT_ERROR_FULL None, st)
      else (GErr ZENIT_OK None, (cap, l ++ data))
  | GPop n =>
      if decide (n = 0) then (GErr ZENIT_ERROR_PARAM None, st)
      else if decide (l = []) then (GErr ZENIT_ERROR_EMPTY None, st)
      else (GErr ZENIT_OK (Some (take (Z.to_nat n) l)), (cap, drop (Z.to_nat n) l))
  | GPeek n =>
      if decide (n = 0) then (GErr ZENIT_ERROR_PARAM None, st)
      else if decide (l = []) then (GErr ZENIT_ERROR_EMPTY None, st)
      else (GErr ZENIT_OK (Some (take (Z.to_nat n) l)), st)
  | GReserve n =>
      if decide (n = 0) then (GErr ZENIT_ERROR_PARAM None, st)
      else (GErr ZENIT_OK None, (n, take (Z.to_nat n) l))
  | GShrink => (GErr ZENIT_OK None, (Z.max 1 (zlen l), l))
  | GClear => (GVoid, (cap, []))
  | GCount => (GNum (zlen l), st)
  | GCapacity => (GNum cap, st)
  end.

(** What the caller finds in its buffer after a successful read: the first
    [*size] bytes. *)
Definition ring_out (r : zenit_error_t) (data : option bytes) (size : option Z) : option bytes :=
  if decide (r = ZENIT_OK) then
    match data, size with Some d, Some n => Some (take (Z.to_nat n) d) | _, _ => None end
  else None.

Definition ring_exec {C : Type} (op : ring_op) (g : zenit_ring_t C) (c : C)
    : outcome (ring_res * option (zenit_ring_t C) * C) :=
  match op with
  | GPush data => let! (r, g') := zenit_ring_push (Some g) (Some data) (zlen data) in
                  Ret (GErr r None, g', c)
  | GPop n =>
      let! (r, g', d, sz) :=
        zenit_ring_pop (Some g) (Some (replicate (Z.to_nat n) 0)) (Some n) in
      Ret (GErr r (ring_out r d sz), g', c)
  | GPeek n =>
      let! (r, d, sz) :=
        zenit_ring_peek (Some g) (Some (replicate (Z.to_nat n) 0)) (Some n) in
      Ret (GErr r (ring_out r d sz), Some g, c)
  | GReserve n => let! (r, g', c') := zenit_ring_reserve (Some g) n c in Ret (GErr r None, g', c')
  | GShrink => let! (r, g', c') := zenit_ring_shrink_to_fit (Some g) c in Ret (GErr r None, g', c')
  | GClear => Ret (GVoid, zenit_ring_clear (Some g), c)
  | GCount => Ret (GNum (zenit_ring_count (Some g)), Some g, c)
  | GCapacity => Ret (GNum (zenit_ring_capacity (Some g)), Some g, c)
  end.

(** Arguments are [size_t] values, and no C object exceeds [PTRDIFF_MAX] bytes. *)
Definition ring_pre (op : ring_op) : Prop :=
  match op with
  | GPush data => zlen data <= PTRDIFF_MAX
  | GPop n | GPeek n | GReserve n => 0 <= n < two64
  | GShrink | GClear | GCount | GCapacity => True
  end.

Definition ring_may_alloc (op : ring_op) : Prop :=
  match op with GReserve _ | GShrink => True | _ => False end.

Definition ring_post {C : Type} (a : zenit_allocator_t C) {SP : AllocSpec a}
    (op : ring_op) (g : zenit_ring_t C) (l : bytes) (c : C)
    (m : outcome (ring_res * option (zenit_ring_t C) * C)) : Prop :=
  exists r g' c' l', m = Ret (r, Some g', c') /\ ring_rep a g' l' c' /\
    transfer a (ring_owns g) (ring_owns g') c c' /\
    (ring_abs op (r_capacity g, l) = (r, (r_capacity g', l')) \/
     (ring_may_alloc op /\ r = GErr ZENIT_ERROR_ALLOC None /\ g' = g /\ l' = l)).

Fixpoint ring_run {C : Type} (ops : list ring_op) (g : zenit_ring_t C) (c : C)
    : outcome (list ring_res * zenit_ring_t C * C) :=
  match ops with
  | [] => Ret ([], g, c)
  | op :: ops =>
      let! (r, g', c') := ring_exec op g c in
      match g' with
      | Some g' => let! (rs, g2, c2) := ring_run ops g' c' in Ret (r :: rs, g2, c2)
      | None => Undef
      end
  end.

(** The results a bounded byte queue may give. *)
Inductive ring_trace : Z * bytes -> list ring_op -> list ring_res -> Prop :=
| rt_nil st : ring_trace st [] []
| rt_step st op ops r rs st' :
    ring_abs op st = (r, st') -> ring_trace st' ops rs -> ring_trace st (op :: ops) (r :: rs)
| rt_alloc st op ops rs :
    ring_may_alloc op -> ring_trace st ops rs ->
    ring_trace st (op :: ops) (GErr ZENIT_ERROR_ALLOC None :: rs).

(** ** Two-chunk transfers *)

Lemma wr_front dst d :
  zlen d <= zlen dst -> wr dst 0 d = Ret (d ++ drop (length d) dst).
Proof. intros H. unfold wr. rewrite decide_True by lia. done. Qed.

Lemma wr_after x dst d off :
  off = zlen x -> zlen d <= zlen dst -> wr (x ++ dst) off d = Ret (x ++ d ++ drop (length d) dst).
Proof.
  intros -> H. destruct (list_split_at dst (zlen d)) as (e1 & e2 & -> & E); [zl|].
  rewrite (wr_app x e1 d e2); [|done|done]. do 3 f_equal.
  replace (length d) with (length e1) by (unfold zlen in E; lia). by rewrite drop_app_length.
Qed.

Section RingSpec.
Context {C : Type} (a : zenit_allocator_t C) {SP : AllocSpec a}.
Implicit Types (g : zenit_ring_t C) (c : C) (l : bytes).

(** A straight piece of [to_read] bytes needs one copy. *)
Lemma copy_out_one g (p x s dst : bytes) :
  r_buffer g <> None -> pbytes (r_buffer g) = p ++ x ++ s -> r_tail g = zlen p ->
  r_capacity g = zlen (p ++ x ++ s) -> r_capacity g <= PTRDIFF_MAX ->
  zlen x <= zlen dst ->
  copy_out g (zlen x) dst = Ret (x ++ drop (length x) dst).
Proof.
  intros Hn Hb Ht Hc Hm Hd. unfold copy_out. autorewrite with zlen in Hc.
  pose proof (zlen_nonneg p). pose proof (zlen_nonneg x). pose proof (zlen_nonneg s).
  rewrite (u64_small (r_capacity g - _)) by lia.
  assert ((if decide (zlen x < r_capacity g - r_tail g) then zlen x
           else r_capacity g - r_tail g) = zlen x) as -> by (case_decide; lia).
  rewrite prd_rd, Hb, (rd_app p x s) by done. simpl. rewrite wr_front by done. simpl.
  rewrite Z.sub_diag. rewrite decide_False; [done|]. rewrite u64_small; lia.
Qed.

Lemma copy_out_spec g l c x l' dst :
  ring_rep a g l c -> l = x ++ l' -> zlen x <= zlen dst ->
  copy_out g (zlen x) dst = Ret (x ++ drop (length x) dst).
Proof.
  intros H El Hd. pose proof (rr_cap _ _ _ _ H) as Hc. pose proof (rr_len _ _ _ _ H) as Hl.
  pose proof (rr_null _ _ _ _ H) as Hn.
  destruct (rr_view _ _ _ _ H) as [p s E Et|l1 l2 f E N Eb Et].
  - subst l. apply (copy_out_one g p x (l' ++ s)); [done| |done| |lia|done].
    + by rewrite E, <- app_assoc.
    + by rewrite <- Hl, E, <- app_assoc.
  - destruct (decide (zlen x <= zlen l1)) as [Hx|Hx].
    + destruct (list_split_at l1 (zlen x)) as (x1 & y & -> & Ex); [zl|].
      rewrite El, <- app_assoc in E. apply app_inj_1 in E as [-> _]; [|unfold zlen in Ex; lia].
      apply (copy_out_one g (l2 ++ f) x1 y); [done| | | |lia|done].
      * by rewrite Eb, <- app_assoc.
      * zl.
      * rewrite <- Hl, Eb. zl.
    + destruct (list_split_at x (zlen l1)) as (x1 & y & -> & Ex); [zl|].
      rewrite El, <- app_assoc in E. apply app_inj_1 in E as [-> El2]; [|unfold zlen in Ex; lia].
      unfold copy_out. rewrite Eb in Hl. autorewrite with zlen in *.
      pose proof (zlen_nonneg l1). pose proof (zlen_nonneg f). pose proof (zlen_nonneg l2).
      pose proof (rr_tail _ _ _ _ H).
      rewrite (u64_small (r_capacity g - _)) by lia. rewrite decide_False by lia.
      replace (r_capacity g - r_tail g) with (zlen l1) by lia.
      rewrite !prd_rd, Eb by done.
      replace (l2 ++ f ++ l1) with ((l2 ++ f) ++ l1 ++ []) by (by rewrite app_nil_r, <- app_assoc).
      rewrite rd_app by (done || zl). simpl. rewrite wr_front by lia. simpl.
      replace (zlen l1 + zlen y - zlen l1) with (zlen y) by lia.
      pose proof (f_equal zlen El2) as Ly. rewrite u64_small by zl.
      rewrite decide_True by lia.
      replace ((l2 ++ f) ++ l1 ++ []) with ([] ++ y ++ (l' ++ f ++ l1))
        by (rewrite app_nil_r, <- El2; simpl; by rewrite <- !app_assoc).
      rewrite rd_app by done. simpl. rewrite wr_after by (done || (unfold zlen in *; rewrite length_drop; lia)).
      rewrite drop_drop, length_app. by rewrite <- app_assoc.
Qed.
(** [copy_in] when everything fits before the end of the buffer. *)
Lemma copy_in_one (x : addr) (p o s d : bytes) cap :
  cap = zlen (p ++ o ++ s) -> cap <= PTRDIFF_MAX -> zlen d = zlen o ->
  copy_in (Some (Block x (p ++ o ++ s))) cap (zlen p) d (zlen d)
    = Ret (Some (Block x (p ++ d ++ s))).
Proof.
  intros Hc Hm Hd. unfold copy_in. autorewrite with zlen in Hc.
  pose proof (zlen_nonneg p). pose proof (zlen_nonneg s). pose proof (zlen_nonneg o).
  rewrite (u64_small (cap - _)) by lia.
  assert ((if decide (zlen d < cap - zlen p) then zlen d else cap - zlen p) = zlen d) as ->
    by (case_decide; lia).
  rewrite rd_whole by done. simpl. rewrite wr_app by done. simpl.
  rewrite Z.sub_diag. rewrite decide_False; [done|]. rewrite u64_small; lia.
Qed.

(** [copy_in] around the end of the buffer [q ++ m ++ s], [s] free up to the end. *)
Lemma copy_in_two (x : addr) (q m s d1 d2 : bytes) cap :
  cap = zlen (q ++ m ++ s) -> cap <= PTRDIFF_MAX -> zlen d1 = zlen s -> zlen d2 = zlen q ->
  0 < zlen d2 ->
  copy_in (Some (Block x (q ++ m ++ s))) cap (zlen q + zlen m) (d1 ++ d2) (zlen d1 + zlen d2)
    = Ret (Some (Block x (d2 ++ m ++ d1))).
Proof.
  intros Hc Hm H1 H2 H3. unfold copy_in. autorewrite with zlen in Hc.
  pose proof (zlen_nonneg q). pose proof (zlen_nonneg s). pose proof (zlen_nonneg m).
  rewrite (u64_small (cap - _)) by lia. rewrite decide_False by lia.
  replace (cap - (zlen q + zlen m)) with (zlen d1) by lia.
  rewrite (rd_app [] d1 d2) by done. simpl.
  replace (q ++ m ++ s) with ((q ++ m) ++ s ++ []) by (by rewrite app_nil_r, <- app_assoc).
  rewrite (wr_app (q ++ m) s d1 []) by (done || zl). simpl.
  replace (zlen d1 + zlen d2 - zlen d1) with (zlen d2) by lia. rewrite u64_small by lia.
  rewrite decide_True by lia.
  rewrite <- (app_nil_r (d1 ++ d2)), <- app_assoc, (rd_app d1 d2 []) by done. simpl.
  rewrite app_nil_r, <- app_assoc. rewrite (wr_app [] q d2 (m ++ d1)) by done. done.
Qed.

Lemma copy_in_view x buf cap head tail l d :
  ring_view buf tail l -> zlen buf = cap -> 0 < cap <= PTRDIFF_MAX -> 0 <= tail < cap ->
  0 <= head <= cap -> head mod cap = (tail + zlen l) mod cap ->
  zlen l + zlen d <= cap -> 0 < zlen d ->
  exists buf', copy_in (Some (Block x buf)) cap head d (zlen d) = Ret (Some (Block x buf')) /\
    zlen buf' = cap /\ ring_view buf' tail (l ++ d).
Proof.
  intros V Hb Hc Ht Hh Hm Hd Hd0. destruct V as [p s E Et|l1 l2 f E N Eb Et].
  - subst buf. autorewrite with zlen in Hb.
    pose proof (zlen_nonneg p). pose proof (zlen_nonneg s). pose proof (zlen_nonneg l).
    rewrite !mod_wrap in Hm by lia.
    destruct (decide (head = zlen p + zlen l)) as [->|].
    + destruct (decide (zlen d <= zlen s)) as [Hs|Hs].
      * destruct (list_split_at s (zlen d)) as (o & s' & -> & Eo); [lia|].
        exists (p ++ (l ++ d) ++ s'). rewrite <- zlen_app.
        replace (p ++ l ++ o ++ s') with ((p ++ l) ++ o ++ s') by (by rewrite <- app_assoc).
        rewrite (copy_in_one x (p ++ l) o s' d) by (zl || done).
        split; [by rewrite <- !app_assoc|]. split; [zl|]. by econstructor.
      * destruct (list_split_at d (zlen s)) as (d1 & d2 & -> & E1); [lia|].
        autorewrite with zlen in *.
        destruct (list_split_at p (zlen d2)) as (q & p' & -> & Eq); [lia|].
        autorewrite with zlen in *.
        exists (d2 ++ (p' ++ l) ++ d1).
        replace ((q ++ p') ++ l ++ s) with (q ++ (p' ++ l) ++ s) by (by rewrite <- !app_assoc).
        replace (zlen q + zlen p' + zlen l) with (zlen q + zlen (p' ++ l)) by zl.
        rewrite copy_in_two by (zl || lia). split; [done|]. split; [zl|].
        apply (view_wrapped _ _ _ (l ++ d1) d2 p').
        -- by rewrite app_assoc.
        -- intros ->. rewrite zlen_nil in *. lia.
        -- by rewrite <- !app_assoc.
        -- lia.
    + assert (zlen s = 0 /\ head = 0 \/ zlen p = 0 /\ zlen l = 0 /\ head = cap) as [[G1 G2]|(G1 & G2 & G3)]
        by (repeat case_decide; lia).
      * apply zlen_0 in G1 as ->. subst head. rewrite app_nil_r.
        destruct (list_split_at p (zlen d)) as (o & p' & -> & Eo); [zl|].
        exists (d ++ (p' ++ l)). rewrite <- app_assoc. autorewrite with zlen in *.
        rewrite (copy_in_one x [] o (p' ++ l) d) by (zl || done).
        split; [done|]. split; [zl|]. apply (view_wrapped _ _ _ l d p'); [done| |done|lia].
        intros ->. rewrite zlen_nil in *. lia.
      * apply zlen_0 in G1 as ->. apply zlen_0 in G2 as ->. simpl in *. subst.
        destruct (list_split_at s (zlen d)) as (o & s' & -> & Eo); [zl|].
        exists (d ++ s'). autorewrite with zlen in *.
        pose proof (copy_in_two x o s' [] [] d (zlen o + zlen s')) as K.
        rewrite app_nil_r, zlen_nil, Z.add_0_l in K. simpl in K.
        replace (0 + (0 + (zlen o + zlen s'))) with (zlen o + zlen s') by lia.
        rewrite K by (zl || lia). split; [done|]. split; [lia|]. by apply (view_straight _ _ _ [] s').
  - subst buf. autorewrite with zlen in *. subst l. autorewrite with zlen in *.
    pose proof (zlen_nonneg l1). pose proof (zlen_nonneg f).
    assert (0 < zlen l2) by (destruct l2; [done|]; rewrite zlen_cons; pose proof (zlen_nonneg l2); lia).
    assert (head = zlen l2) as ->.
    { replace (tail + (zlen l1 + zlen l2)) with (zlen l2 + 1 * cap) in Hm by lia.
      rewrite Z_mod_plus_full, !mod_wrap in Hm by lia. repeat case_decide; lia. }
    destruct (list_split_at f (zlen d)) as (o & f' & -> & Eo); [lia|].
    exists (l2 ++ d ++ f' ++ l1). rewrite <- app_assoc. autorewrite with zlen in *.
    rewrite (copy_in_one x l2 o (f' ++ l1) d) by (zl || done). split; [done|]. split; [zl|].
    apply (view_wrapped _ _ _ l1 (l2 ++ d) f').
    + by rewrite app_assoc.
    + by destruct l2.
    + by rewrite <- !app_assoc.
    + zl.
Qed.
(** Consuming a prefix of the contents moves [tail] past it. *)
Lemma pop_view buf cap tail x l' :
  ring_view buf tail (x ++ l') -> zlen buf = cap -> 0 <= tail < cap ->
  ring_view buf ((tail + zlen x) mod cap) l'.
Proof.
  intros V Hb Ht. destruct V as [p s E Et|l1 l2 f E N Eb Et].
  - subst buf. autorewrite with zlen in Hb. pose proof (zlen_nonneg x).
    pose proof (zlen_nonneg l'). pose proof (zlen_nonneg s). rewrite mod_wrap by lia. case_decide.
    + apply (view_straight _ _ _ (p ++ x) s); [by rewrite <- !app_assoc|zl].
    + assert (l' = []) as -> by (apply zlen_0; lia). rewrite app_nil_r.
      apply (view_straight _ _ _ [] (p ++ x ++ s)); [done|rewrite zlen_nil; lia].
  - subst buf. autorewrite with zlen in Hb. pose proof (zlen_nonneg f).
    assert (0 < zlen l2) by (destruct l2; [done|]; rewrite zlen_cons; pose proof (zlen_nonneg l2); lia).
    destruct (decide (zlen x <= zlen l1)) as [Hx|Hx].
    + destruct (list_split_at l1 (zlen x)) as (x1 & y & -> & Ex); [zl|].
      rewrite <- app_assoc in E. apply app_inj_1 in E as [-> ->]; [|unfold zlen in Ex; lia].
      autorewrite with zlen in *. pose proof (zlen_nonneg y). pose proof (zlen_nonneg x1). rewrite mod_wrap by lia. case_decide.
      * apply (view_wrapped _ _ _ y l2 (f ++ x1)); [done|done|by rewrite <- !app_assoc|zl].
      * assert (y = []) as -> by (apply zlen_0; lia). rewrite app_nil_r. simpl.
        apply (view_straight _ _ _ [] (f ++ x1)); [done|rewrite zlen_nil in *; lia].
    + destruct (list_split_at x (zlen l1)) as (x1 & y & -> & Ex); [zl|].
      rewrite <- app_assoc in E. apply app_inj_1 in E as [-> El2]; [|unfold zlen in Ex; lia].
      subst l2. autorewrite with zlen in *. pose proof (zlen_nonneg l'). pose proof (zlen_nonneg y).
      replace (tail + (zlen l1 + zlen y)) with (zlen y + 1 * cap) by lia.
      rewrite Z_mod_plus_full. pose proof (zlen_nonneg l1).
      assert (zlen y < cap) by lia. rewrite Z.mod_small by lia.
      apply (view_straight _ _ _ y (f ++ l1)); [by rewrite <- !app_assoc|done].
Qed.

Lemma ring_rep_update g l c buf head tail l' :
  ring_rep a g l c -> buf <> None -> pown buf = pown (r_buffer g) ->
  zlen (pbytes buf) = r_capacity g -> zlen l' <= r_capacity g ->
  0 <= tail < r_capacity g -> 0 <= head <= r_capacity g ->
  head mod r_capacity g = (tail + zlen l') mod r_capacity g ->
  ring_view (pbytes buf) tail l' ->
  ring_rep a (upd_ring g buf (r_capacity g) head tail (zlen l')) l' c /\
  ring_owns (upd_ring g buf (r_capacity g) head tail (zlen l')) = ring_owns g.
Proof.
  intros H Hn Ho Hl Hf Ht Hh Hm V. unfold ring_owns. simpl. rewrite Ho. split; [|done].
  constructor; simpl; try done; try apply H.
  - rewrite Ho. apply H.
  - unfold ring_owns. simpl. rewrite Ho. apply H.
Qed.

Lemma ring_post_stay op g l c r g' l' :
  ring_rep a g l c -> ring_rep a g' l' c -> ring_owns g' = ring_owns g ->
  ring_abs op (r_capacity g, l) = (r, (r_capacity g', l')) ->
  ring_post a op g l c (Ret (r, Some g', c)).
Proof.
  intros H H' Ho E. exists r, g', c, l'. split; [done|]. split; [done|].
  split; [|by left]. rewrite Ho. apply transfer_refl, H.
Qed.

Lemma ring_push_step g l c d :
  ring_rep a g l c -> zlen d <= PTRDIFF_MAX ->
  ring_post a (GPush d) g l c (ring_exec (GPush d) g c).
Proof.
  intros H Hd. pose proof (rr_cap _ _ _ _ H) as Hc. pose proof (rr_count _ _ _ _ H) as Hn.
  pose proof (rr_fit _ _ _ _ H) as Hf. pose proof (rr_head _ _ _ _ H) as Hh.
  pose proof (zlen_nonneg l). pose proof (zlen_nonneg d). pose proof (rr_tail _ _ _ _ H) as Ht.
  cbn [ring_exec zenit_ring_push]. case_decide as D0.
  { apply zlen_0 in D0 as ->. by eapply ring_post_stay. }
  rewrite Hn. rewrite u64_small by lia. case_decide as D1.
  { eapply ring_post_stay; [done|done|done|]. simpl. rewrite decide_False by (by intros ->).
    by rewrite decide_True. }
  pose proof (rr_null _ _ _ _ H) as Hnn. pose proof (rr_len _ _ _ _ H) as Hlen.
  pose proof (rr_view _ _ _ _ H) as V. pose proof (rr_cursor _ _ _ _ H) as Cu.
  destruct (r_buffer g) as [[x buf]|] eqn:Eb; [|done]. simpl in Hlen, V.
  destruct (copy_in_view x buf (r_capacity g) (r_head g) (r_tail g) l d)
    as (buf' & -> & Lb & V'); try done; try lia. simpl.
  rewrite u64_small, umod_Ret by lia. simpl.
  rewrite <- zlen_app.
  destruct (ring_rep_update g l c (Some (Block x buf')) ((r_head g + zlen d) mod r_capacity g)
    (r_tail g) (l ++ d) H) as [R Ho]; simpl; try done; try lia.
  { by rewrite Eb. } { zl. } { pose proof (Z.mod_pos_bound (r_head g + zlen d) (r_capacity g)). lia. }
  { rewrite Zmod_mod, zlen_app, Z.add_assoc. rewrite <- (Zplus_mod_idemp_l (r_head g)), Cu.
    by rewrite Zplus_mod_idemp_l. }
  eapply ring_post_stay; [done|done|done|]. simpl.
  rewrite decide_False by (by intros ->). by rewrite decide_False.
Qed.

(** What [zenit_ring_pop] and [zenit_ring_peek] copy. *)
Lemma ring_read_step g l c n :
  ring_rep a g l c -> 0 <= n ->
  copy_out g (if decide (zlen l < n) then zlen l else n) (replicate (Z.to_nat n) 0)
    = Ret (take (Z.to_nat n) l ++ drop (length (take (Z.to_nat n) l)) (replicate (Z.to_nat n) 0)) /\
  (if decide (zlen l < n) then zlen l else n) = zlen (take (Z.to_nat n) l).
Proof.
  intros H Hn. set (k := if decide _ then _ else _).
  assert (k = zlen (take (Z.to_nat n) l)) as Ek.
  { unfold k. rewrite zlen_take. case_decide; lia. }
  split; [|done]. rewrite Ek. eapply (copy_out_spec g l c _ (drop (Z.to_nat n) l)); [done| |].
  - by rewrite take_drop.
  - rewrite zlen_replicate, zlen_take. lia.
Qed.

Lemma ring_pop_step g l c n :
  ring_rep a g l c -> 0 <= n -> ring_post a (GPop n) g l c (ring_exec (GPop n) g c).
Proof.
  intros H Hn. pose proof (rr_cap _ _ _ _ H) as Hc. pose proof (rr_count _ _ _ _ H) as Hz.
  pose proof (rr_fit _ _ _ _ H) as Hf. pose proof (rr_tail _ _ _ _ H) as Ht.
  cbn [ring_exec zenit_ring_pop]. case_decide as D0.
  { eapply ring_post_stay; [done|done|done|]. simpl. by rewrite decide_True. }
  rewrite Hz. case_decide as D1.
  { apply zlen_0 in D1 as ->. eapply ring_post_stay; [done|done|done|]. simpl.
    by rewrite decide_False by done. }
  destruct (ring_read_step g l c n H Hn) as [-> ->]. simpl.
  set (x := take (Z.to_nat n) l). set (l' := drop (Z.to_nat n) l).
  assert (l = x ++ l') as El by (unfold x, l'; by rewrite take_drop).
  pose proof (zlen_nonneg x). pose proof (zlen_nonneg l').
  assert (zlen l = zlen x + zlen l') as Ll by (rewrite El at 1; zl).
  rewrite (u64_small (r_tail g + _)), umod_Ret by lia. simpl.
  rewrite u64_small by lia. replace (zlen l - zlen x) with (zlen l') by lia.
  pose proof (rr_view _ _ _ _ H) as V. rewrite El in V.
  destruct (ring_rep_update g l c (r_buffer g) (r_head g) ((r_tail g + zlen x) mod r_capacity g) l' H)
    as [R Ho]; try done; try apply H; try lia.
  { apply Z.mod_pos_bound. lia. }
  { rewrite Zplus_mod_idemp_l, (rr_cursor _ _ _ _ H), Ll. f_equal. lia. }
  { apply pop_view; [done|apply H|done]. }
  eapply ring_post_stay; [done|done|done|]. simpl. rewrite decide_False by done.
  rewrite decide_False by (by intros ->).
  unfold ring_out. simpl. unfold zlen. by rewrite Nat2Z.id, take_app_length.
Qed.

Lemma ring_peek_step g l c n :
  ring_rep a g l c -> 0 <= n -> ring_post a (GPeek n) g l c (ring_exec (GPeek n) g c).
Proof.
  intros H Hn. pose proof (rr_count _ _ _ _ H) as Hz.
  cbn [ring_exec zenit_ring_peek]. case_decide as D0.
  { eapply ring_post_stay; [done|done|done|]. simpl. by rewrite decide_True. }
  rewrite Hz. case_decide as D1.
  { apply zlen_0 in D1 as ->. eapply ring_post_stay; [done|done|done|]. simpl.
    by rewrite decide_False by done. }
  destruct (ring_read_step g l c n H Hn) as [-> ->]. simpl.
  eapply ring_post_stay; [done|done|done|]. simpl. rewrite decide_False by done.
  rewrite decide_False by (by intros ->).
  unfold ring_out. simpl. unfold zlen. by rewrite Nat2Z.id, take_app_length.
Qed.
(** [zenit_ring_reserve] keeps the oldest bytes that fit. *)
Lemma ring_reserve_spec g l c n :
  ring_rep a g l c -> 0 < n < two64 ->
  exists r g' c' l', zenit_ring_reserve (Some g) n c = Ret (r, Some g', c') /\
    ring_rep a g' l' c' /\ transfer a (ring_owns g) (ring_owns g') c c' /\
    ((r = ZENIT_OK /\ r_capacity g' = n /\ l' = take (Z.to_nat n) l) \/
     (r = ZENIT_ERROR_ALLOC /\ g' = g /\ l' = l)).
Proof.
  intros H Hn. pose proof (rr_count _ _ _ _ H) as Hz. pose proof (rr_live _ _ _ _ H) as Hl.
  pose proof (rr_self _ _ _ _ H) as Hs. unfold zenit_ring_reserve. rewrite decide_False by lia.
  rewrite (rr_alloc _ _ _ _ H), Hz. unfold ring_owns in *.
  destruct (alloc_fn a n c) as [[b|] c1] eqn:A.
  2:{ apply alloc_none in A. eexists _, _, _, _. split; [done|].
      assert (ring_rep a g l c1) as H' by (destruct H; constructor; try done; by rewrite A).
      split; [done|]. split; [split; rewrite A; set_solver|]. by right. }
  apply alloc_some in A as (Lb & Mb & Fr & Lv).
  set (x := take (Z.to_nat n) l).
  assert ((if decide (n < zlen l) then n else zlen l) = zlen x) as ->
    by (unfold x; rewrite zlen_take; case_decide; lia).
  assert (zlen x <= n) as Hx by (unfold x; rewrite zlen_take; lia).
  assert ((if decide (0 < zlen x) then copy_out g (zlen x) (b_data b) else Ret (b_data b))
          = Ret (x ++ drop (length x) (b_data b))) as ->.
  { case_decide as D.
    - eapply (copy_out_spec g l c x (drop (Z.to_nat n) l)); [done| |lia].
      unfold x. by rewrite take_drop.
    - assert (x = []) as -> by (apply zlen_0; pose proof (zlen_nonneg x); lia). by rewrite drop_0. }
  simpl. eexists _, _, _, x. split; [done|]. simpl.
  assert (transfer a ({[r_self g]} ∪ pown (r_buffer g)) ({[r_self g]} ∪ {[b_addr b]}) c
            (free_fn a (paddr (r_buffer g)) c1)) as T.
  { eapply transfer_trans; [split; [|]|].
    3:{ replace ({[r_self g]} ∪ {[b_addr b]}) with
          (({[r_self g]} ∪ {[b_addr b]} ∪ pown (r_buffer g)) ∖ pown (r_buffer g)) by set_solver.
        apply transfer_pfree; set_solver. }
    - set_solver.
    - rewrite Lv. set_solver. }
  split; [|split; [done|by left]].
  pose proof (zlen_nonneg x). constructor; simpl; try done; try lia.
  - apply H.
  - rewrite zlen_app, zlen_drop. unfold zlen in *. lia.
  - by apply (view_straight _ _ _ [] (drop (length x) (b_data b))).
  - set_solver.
  - apply T.
Qed.

Lemma ring_step op g l c :
  ring_rep a g l c -> ring_pre op -> ring_post a op g l c (ring_exec op g c).
Proof.
  intros H Hp. pose proof (rr_count _ _ _ _ H) as Hz. pose proof (rr_fit _ _ _ _ H) as Hf.
  pose proof (rr_cap _ _ _ _ H) as Hc. pose proof (zlen_nonneg l) as Hnn.
  destruct op as [d|n|n|n| | | |]; simpl in Hp.
  - by apply ring_push_step.
  - apply ring_pop_step; [done|lia].
  - apply ring_peek_step; [done|lia].
  - cbn [ring_exec]. destruct (decide (n = 0)) as [->|N].
    + eapply ring_post_stay; [done|done|done|done].
    + destruct (ring_reserve_spec g l c n H ltac:(lia)) as (r & g' & c' & l' & -> & R & T & P).
      eexists _, _, _, _. split; [done|]. split; [done|]. split; [done|].
      destruct P as [(-> & <- & ->)|(-> & -> & ->)]; [left|by right].
      simpl. by rewrite decide_False.
  - cbn [ring_exec zenit_ring_shrink_to_fit]. rewrite Hz.
    set (n := if decide _ then _ else _).
    assert (n = Z.max 1 (zlen l)) as En by (unfold n; case_decide; lia).
    destruct (ring_reserve_spec g l c n H ltac:(lia)) as (r & g' & c' & l' & -> & R & T & P).
    eexists _, _, _, _. split; [done|]. split; [done|]. split; [done|].
    destruct P as [(-> & -> & ->)|(-> & -> & ->)]; [left|by right].
    simpl. rewrite En. rewrite take_ge; [done|]. unfold zlen. lia.
  - destruct (ring_rep_update g l c (r_buffer g) 0 0 [] H) as [R Ho]; try done; try apply H; try lia.
    { rewrite zlen_nil. lia. }
    { by apply (view_straight _ _ _ [] (pbytes (r_buffer g))). }
    exact (ring_post_stay GClear g l c _ _ _ H R Ho eq_refl).
  - eapply ring_post_stay; [done|done|done|]. simpl. by rewrite Hz.
  - by eapply ring_post_stay.
Qed.

Lemma ring_create_spec n c :
  0 <= n < two64 ->
  exists r c', zenit_ring_create_with_allocator n a c = Ret (r, c') /\
  match r with
  | None => live c' = live c
  | Some g => ring_rep a g [] c' /\ r_capacity g = n /\ transfer a ∅ (ring_owns g) c c'
  end.
Proof.
  intros Hn. unfold zenit_ring_create_with_allocator. case_decide as D; [by eexists None, c|].
  destruct (alloc_fn a SIZEOF_RING c) as [[h|] c1] eqn:A.
  2:{ eexists None, c1. split; [done|]. by eapply alloc_none. }
  apply alloc_some in A as (_ & _ & F & L).
  destruct (alloc_zero_cases a 1 n c1) as (r & c2 & E & P); [lia|].
  rewrite E. simpl. destruct r as [b|].
  - destruct P as (Eb & Mb & Fb & Lb). eexists (Some _), c2. split; [done|]. simpl.
    rewrite Z.mul_1_l in Eb.
    assert (transfer a ∅ ({[b_addr h]} ∪ {[b_addr b]}) c c2) as T
      by (split; rewrite Lb, L; set_solver).
    split; [|split; [done|done]]. constructor; simpl; try done; try lia.
    + rewrite Eb. zl.
    + rewrite zlen_nil. lia.
    + by apply (view_straight _ _ _ [] (b_data b)).
    + rewrite L in Fb. set_solver.
    + apply T.
  - eexists None, _. split; [done|]. rewrite free_some by (rewrite P, L; set_solver).
    rewrite P, L. set_solver.
Qed.

Lemma ring_destroy_spec g l c :
  ring_rep a g l c -> transfer a (ring_owns g) ∅ c (zenit_ring_destroy (Some g) c).
Proof.
  intros H. pose proof (rr_self _ _ _ _ H) as Hs. pose proof (rr_live _ _ _ _ H) as Hl.
  unfold zenit_ring_destroy. rewrite (rr_alloc _ _ _ _ H).
  pose proof (transfer_pfree a (ring_owns g) (r_buffer g) c Hl) as T1.
  unfold ring_owns in *.
  specialize (T1 ltac:(set_solver)). replace (({[r_self g]} ∪ pown (r_buffer g)) ∖ pown (r_buffer g))
    with ({[r_self g]} : gset addr) in T1 by set_solver.
  eapply transfer_trans; [exact T1|].
  replace (∅ : gset addr) with ({[r_self g]} ∖ {[r_self g]} : gset addr) by set_solver.
  apply transfer_free; [apply T1|set_solver].
Qed.

Lemma ring_run_spec ops g l c :
  ring_rep a g l c -> Forall ring_pre ops ->
  exists rs g' l' c', ring_run ops g c = Ret (rs, g', c') /\
    ring_trace (r_capacity g, l) ops rs /\ ring_rep a g' l' c' /\
    transfer a (ring_owns g) (ring_owns g') c c'.
Proof.
  intros H Hops. revert g l c H.
  induction Hops as [|op ops Hop _ IH]; intros g l c H; simpl.
  - exists [], g, l, c. split_and!; [done|constructor|done|]. by apply transfer_refl, H.
  - destruct (ring_step op g l c H Hop) as (r & g1 & c1 & l1 & -> & R1 & T1 & P). simpl.
    destruct (IH g1 l1 c1 R1) as (rs & g2 & l2 & c2 & -> & Tr & R2 & T2).
    simpl. eexists _, _, _, _. split; [done|]. split; [|split; [done|by eapply transfer_trans]].
    destruct P as [P|(M & -> & -> & ->)]; [by eapply rt_step|by apply rt_alloc].
Qed.


(** Reserving less than the stored bytes keeps the oldest [n] of them and
    drops the newest, although the documentation of [zenit_ring_reserve] says that
    the oldest bytes are discarded. *)
Theorem ring_reserve_drops_newest g old new c g' c' :
  ring_rep a g (old ++ new) c -> 0 < zlen old < two64 -> 0 < zlen new ->
  zenit_ring_reserve (Some g) (zlen old) c = Ret (ZENIT_OK, Some g', c') ->
  ring_rep a g' old c' /\ r_capacity g' = zlen old.
Proof.
  intros H Ho Hn E. destruct (ring_reserve_spec g _ c _ H Ho) as (r & g1 & c1 & l' & E' & R & _ & P).
  rewrite E in E'. injection E' as <- <- <-. destruct P as [(_ & Cap & ->)|(? & _)]; [|done].
  split; [|done]. unfold zlen in R. by rewrite Nat2Z.id, take_app_length in R.
Qed.
End RingSpec.

(** ** Witnesses *)


(** Bytes 1, 2, 3 wrapped around the end of a buffer of 4. *)
Definition wit_ring : zenit_ring_t heap :=
  mk_ring 2 (Some (Block 3 [2; 3; 0; 1])) 4 2 3 3 ZENIT_ALLOCATOR_DEFAULT.

Lemma wit_ring_rep :
  ring_rep ZENIT_ALLOCATOR_DEFAULT wit_ring [1; 2; 3] (mk_heap {[ 2%positive; 3%positive ]} []).
Proof.
  constructor; simpl; try done; try lia.
  by apply (view_wrapped _ _ _ [1] [2; 3] [0]).
Qed.

Lemma ring_reserve_drops_newest_witness :
  match zenit_ring_reserve (Some wit_ring) 2 (mk_heap {[ 2%positive; 3%positive ]} []) with
  | Ret (ZENIT_OK, Some g', c') =>
      ring_rep ZENIT_ALLOCATOR_DEFAULT g' [1; 2] c' /\ r_capacity g' = 2
  | _ => False
  end.
Proof.
  refine (ring_reserve_drops_newest ZENIT_ALLOCATOR_DEFAULT wit_ring [1; 2] [3]
    (mk_heap {[ 2%positive; 3%positive ]} []) _ _ wit_ring_rep _ _ _);
    [unfold zlen; simpl; lia|unfold zlen; simpl; lia|reflexivity].
Defined.
