(* ===== verification/Compare.v ===== *)
(** * Comparison callbacks ([include/libzenit/heap.h], [include/libzenit/sort.h])

    The heap and the sorting routines take an ordering function from the caller.
    [Comparator] states what the headers document about it: the sign of the result
    orders the elements.  The components' theorems are proved against this
    interface; [first_byte_compare] is an instance.  The file also holds what both
    need about arrays of elements. *)

From Stdlib Require Import ZArith Lia.
From stdpp Require Import base tactics option list numbers.
From S2P Require Import Prelude Mem.
Open Scope Z_scope.

Class Comparator {A : Type} (compare : A -> A -> Z) : Prop := {
  cmp_flip x y : 0 < compare x y <-> compare y x < 0;
  cmp_trans x y z : compare x y <= 0 -> compare y z <= 0 -> compare x z <= 0 }.

(** [x] does not come after [y]. *)
Definition cle {A : Type} (compare : A -> A -> Z) (x y : A) : Prop := compare x y <= 0.

Section ComparatorFacts.
Context {A : Type} (compare : A -> A -> Z) `{!Comparator compare}.

Lemma cle_total x y : cle compare x y \/ cle compare y x.
Proof. unfold cle. pose proof (cmp_flip x y). lia. Qed.

Lemma cle_refl x : cle compare x x.
Proof. destruct (cle_total x x); done. Qed.

Lemma cle_not x y : ~ cle compare x y -> cle compare y x.
Proof. destruct (cle_total x y); done. Qed.

#[export] Instance cle_transitive : Transitive (cle compare).
Proof. intros x y z. apply cmp_trans. Qed.

#[export] Instance cle_reflexive : Reflexive (cle compare).
Proof. intros x. apply cle_refl. Qed.

#[export] Instance cle_decision x y : Decision (cle compare x y).
Proof. unfold cle. apply _. Defined.

Lemma cmp_eq_flip x y : compare x y = 0 -> compare y x = 0.
Proof. pose proof (cmp_flip x y). pose proof (cmp_flip y x). lia. Qed.
End ComparatorFacts.

(** ** Arrays of elements

    The element at an index, and the exchange of two elements. *)
Definition el (l : list bytes) (i : Z) : bytes := default [] (l !! Z.to_nat i).

Definition swapped (l : list bytes) (i j : Z) : list bytes :=
  <[Z.to_nat j := el l i]> (<[Z.to_nat i := el l j]> l).

Lemma el_lookup l i : 0 <= i < zlen l -> l !! Z.to_nat i = Some (el l i).
Proof.
  intros Hi. unfold el. destruct (lookup_lt_is_Some_2 l (Z.to_nat i)) as [x ->]; [unfold zlen in Hi; lia|done].
Qed.

Lemma zlen_swapped l i j : zlen (swapped l i j) = zlen l.
Proof. unfold swapped. by rewrite !zlen_insert. Qed.

Lemma el_swapped l i j k :
  0 <= i < zlen l -> 0 <= j < zlen l -> 0 <= k ->
  el (swapped l i j) k = if decide (k = j) then el l i else if decide (k = i) then el l j else el l k.
Proof.
  intros Hi Hj Hk. unfold swapped. unfold el at 1. repeat case_decide; subst.
  - rewrite list_lookup_insert_eq; [done|]. rewrite length_insert. unfold zlen in Hj. lia.
  - rewrite list_lookup_insert_ne by lia. rewrite list_lookup_insert_eq; [done|unfold zlen in Hi; lia].
  - by rewrite !list_lookup_insert_ne by lia.
Qed.

Lemma swapped_perm l i j :
  0 <= i < zlen l -> 0 <= j < zlen l -> swapped l i j ≡ₚ l.
Proof. intros Hi Hj. apply Permutation_insert_swap; by apply el_lookup. Qed.

Lemma el_app_l l1 l2 i : 0 <= i < zlen l1 -> el (l1 ++ l2) i = el l1 i.
Proof. intros Hi. unfold el. rewrite lookup_app_l; [done|]. unfold zlen in Hi. lia. Qed.

(** ** An instance: elements ordered by their first byte *)
Definition first_byte_compare (x y : bytes) : Z := default 0 (head x) - default 0 (head y).

#[export] Instance first_byte_comparator : Comparator first_byte_compare.
Proof. unfold first_byte_compare. split; lia. Qed.
