(* ===== verification/Heap.v ===== *)
(** * Binary heap ([src/heap.c])

    A priority queue in one byte buffer, ordered by the caller's comparison
    function.  The storage is that of the vector of [src/vector.c] with the same
    growth, so the representation reuses [vec_rep] through [as_vector]; on top of
    it [heap_ordered] says that no element comes after its parent. *)

From Stdlib Require Import ZArith Lia.
From stdpp Require Import base tactics option list numbers gmap sets.
From S2P Require Import Prelude Mem Result Allocator Growth Compare Vector.
Open Scope Z_scope.

Record zenit_heap_t (C : Type) : Type := mk_heap_t {
  hp_self : addr;
  hp_buffer : option block;
  hp_elem_size : Z;
  hp_count : Z;
  hp_capacity : Z;
  hp_compare : bytes -> bytes -> Z;
  hp_allocator : zenit_allocator_t C }.
Arguments mk_heap_t {C}.
Arguments hp_self {C}.
Arguments hp_buffer {C}.
Arguments hp_elem_size {C}.
Arguments hp_count {C}.
Arguments hp_capacity {C}.
Arguments hp_compare {C}.
Arguments hp_allocator {C}.

Definition SIZEOF_HEAP : Z := 72.
Definition HEAP_DEFAULT_CAPACITY : Z := DEFAULT_CAPACITY.

(** The element at index [i] of the buffer. *)
Definition elem_at (buf : option block) (es i : Z) : outcome bytes := prd buf (u64 (i * es)) es.

(** The exchange of two elements; the source does it byte by byte. *)
Definition swap_elements (buf : option block) (elem_size i j : Z) : outcome (option block) :=
  let! x := elem_at buf elem_size i in
  let! y := elem_at buf elem_size j in
  let! b1 := pwr buf (u64 (i * elem_size)) y in
  pwr b1 (u64 (j * elem_size)) x.

Section HeapModel.
Context {C : Type}.
Implicit Types (h : zenit_heap_t C) (c : C) (a : zenit_allocator_t C).

Definition upd_heap h (buffer : option block) (count capacity : Z) : zenit_heap_t C :=
  mk_heap_t (hp_self h) buffer (hp_elem_size h) count capacity (hp_compare h) (hp_allocator h).

Fixpoint sift_up (fuel : nat) h (idx : Z) : outcome (zenit_heap_t C) :=
  if decide (0 < idx) then
    match fuel with
    | O => NoFuel
    | S fuel =>
        let parent := u64 (idx - 1) / 2 in
        let! x := elem_at (hp_buffer h) (hp_elem_size h) idx in
        let! y := elem_at (hp_buffer h) (hp_elem_size h) parent in
        if decide (hp_compare h x y <= 0) then Ret h
        else
          let! buf := swap_elements (hp_buffer h) (hp_elem_size h) idx parent in
          sift_up fuel (upd_heap h buf (hp_count h) (hp_capacity h)) parent
    end
  else Ret h.

(** One of the two guarded updates of [largest] in [sift_down]. *)
Definition pick_larger h (child largest : Z) : outcome Z :=
  if decide (child < hp_count h) then
    let! x := elem_at (hp_buffer h) (hp_elem_size h) child in
    let! y := elem_at (hp_buffer h) (hp_elem_size h) largest in
    if decide (0 < hp_compare h x y) then Ret child else Ret largest
  else Ret largest.

Fixpoint sift_down (fuel : nat) h (idx : Z) : outcome (zenit_heap_t C) :=
  match fuel with
  | O => NoFuel
  | S fuel =>
      let left := u64 (2 * idx + 1) in
      let right := u64 (2 * idx + 2) in
      let! largest := pick_larger h left idx in
      let! largest := pick_larger h right largest in
      if decide (largest = idx) then Ret h
      else
        let! buf := swap_elements (hp_buffer h) (hp_elem_size h) idx largest in
        sift_down fuel (upd_heap h buf (hp_count h) (hp_capacity h)) largest
  end.

Definition realloc_buffer h (new_cap : Z) c : outcome (zenit_error_t * zenit_heap_t C * C) :=
  let! (new_buf, c1) := zenit_allocator_realloc (hp_allocator h) (hp_buffer h)
                          (u64 (hp_capacity h * hp_elem_size h))
                          (u64 (new_cap * hp_elem_size h)) c in
  match new_buf with
  | None => Ret (ZENIT_ERROR_ALLOC, h, c1)
  | Some _ => Ret (ZENIT_OK, upd_heap h new_buf (hp_count h) new_cap, c1)
  end.

Definition grow (fuel : nat) h (min_capacity : Z) c
    : outcome (zenit_error_t * zenit_heap_t C * C) :=
  let! new_cap := grow15 fuel (hp_capacity h) min_capacity in
  realloc_buffer h new_cap c.

Definition zenit_heap_create_with_capacity_and_allocator (elem_size : Z)
    (compare : option (bytes -> bytes -> Z)) (capacity : Z) a c : option (zenit_heap_t C) * C :=
  match compare with
  | None => (None, c)
  | Some cmp =>
      if decide (elem_size = 0 \/ capacity = 0) then (None, c)
      else
        match alloc_fn a SIZEOF_HEAP c with
        | (None, c1) => (None, c1)
        | (Some h, c1) =>
            match alloc_fn a (u64 (capacity * elem_size)) c1 with
            | (None, c2) => (None, free_fn a (Some (b_addr h)) c2)
            | (buffer, c2) => (Some (mk_heap_t (b_addr h) buffer elem_size 0 capacity cmp a), c2)
            end
        end
  end.

Definition zenit_heap_create_with_allocator (elem_size : Z)
    (compare : option (bytes -> bytes -> Z)) a c : option (zenit_heap_t C) * C :=
  zenit_heap_create_with_capacity_and_allocator elem_size compare HEAP_DEFAULT_CAPACITY a c.

Definition zenit_heap_destroy (heap : option (zenit_heap_t C)) c : C :=
  match heap with
  | None => c
  | Some h =>
      let a := hp_allocator h in
      let c1 := free_fn a (paddr (hp_buffer h)) c in
      free_fn a (Some (hp_self h)) c1
  end.

Definition zenit_heap_push (fuel : nat) (heap : option (zenit_heap_t C)) (elem : option bytes) c
    : outcome (zenit_error_t * option (zenit_heap_t C) * C) :=
  match heap, elem with
  | Some h, Some e =>
      let! (r, h1, c1) :=
        if decide (hp_count h = hp_capacity h)
        then grow fuel h (u64 (hp_capacity h + 1)) c
        else Ret (ZENIT_OK, h, c) in
      if decide (r <> ZENIT_OK) then Ret (r, Some h1, c1)
      else
        let! d := rd e 0 (hp_elem_size h1) in
        let! buf := pwr (hp_buffer h1) (u64 (hp_count h1 * hp_elem_size h1)) d in
        let h2 := upd_heap h1 buf (u64 (hp_count h1 + 1)) (hp_capacity h1) in
        let! h3 := sift_up fuel h2 (u64 (hp_count h2 - 1)) in
        Ret (ZENIT_OK, Some h3, c1)
  | _, _ => Ret (ZENIT_ERROR_NULL, heap, c)
  end.

Definition zenit_heap_pop (fuel : nat) (heap : option (zenit_heap_t C)) (out_elem : option bytes)
    : outcome (zenit_error_t * option (zenit_heap_t C) * option bytes) :=
  match heap, out_elem with
  | Some h, Some out =>
      if decide (hp_count h = 0) then Ret (ZENIT_ERROR_EMPTY, heap, out_elem)
      else
        let! top := prd (hp_buffer h) 0 (hp_elem_size h) in
        let! out1 := wr out 0 top in
        let h1 := upd_heap h (hp_buffer h) (u64 (hp_count h - 1)) (hp_capacity h) in
        let! h2 :=
          if decide (0 < hp_count h1) then
            let! x := prd (hp_buffer h1) (u64 (hp_count h1 * hp_elem_size h1)) (hp_elem_size h1) in
            let! buf := pwr (hp_buffer h1) 0 x in
            sift_down fuel (upd_heap h1 buf (hp_count h1) (hp_capacity h1)) 0
          else Ret h1 in
        Ret (ZENIT_OK, Some h2, Some out1)
  | _, _ => Ret (ZENIT_ERROR_NULL, heap, out_elem)
  end.

(** The top element's offset in the buffer. *)
Definition zenit_heap_peek (heap : option (zenit_heap_t C)) : option Z :=
  match heap with
  | None => None
  | Some h => if decide (hp_count h = 0) then None else Some 0
  end.

Definition zenit_heap_count (heap : option (zenit_heap_t C)) : Z :=
  match heap with None => 0 | Some h => hp_count h end.

Definition zenit_heap_capacity (heap : option (zenit_heap_t C)) : Z :=
  match heap with None => 0 | Some h => hp_capacity h end.

Definition zenit_heap_empty (heap : option (zenit_heap_t C)) : bool :=
  match heap with None => true | Some h => bool_decide (hp_count h = 0) end.

Definition zenit_heap_clear (heap : option (zenit_heap_t C)) : option (zenit_heap_t C) :=
  match heap with
  | None => None
  | Some h => Some (upd_heap h (hp_buffer h) 0 (hp_capacity h))
  end.

Definition zenit_heap_reserve (heap : option (zenit_heap_t C)) (capacity : Z) c
    : outcome (zenit_error_t * option (zenit_heap_t C) * C) :=
  match heap with
  | None => Ret (ZENIT_ERROR_NULL, heap, c)
  | Some h =>
      if decide (capacity <= hp_capacity h) then Ret (ZENIT_OK, heap, c)
      else let! (r, h1, c1) := realloc_buffer h capacity c in Ret (r, Some h1, c1)
  end.

(** [while (idx > 0) { idx--; sift_down(heap, idx); }] *)
Fixpoint heapify_loop (fuel : nat) (idx : nat) h : outcome (zenit_heap_t C) :=
  match idx with
  | O => Ret h
  | S idx => let! h1 := sift_down fuel h (Z.of_nat idx) in heapify_loop fuel idx h1
  end.

Definition zenit_heap_build (fuel : nat) (heap : option (zenit_heap_t C)) (array : option bytes)
    (count : Z) c : outcome (zenit_error_t * option (zenit_heap_t C) * C) :=
  match heap, array with
  | Some h, Some arr =>
      if decide (count = 0) then
        Ret (ZENIT_OK, Some (upd_heap h (hp_buffer h) 0 (hp_capacity h)), c)
      else
        let! (r, h1, c1) :=
          if decide (hp_capacity h < count) then realloc_buffer h count c
          else Ret (ZENIT_OK, h, c) in
        if decide (r <> ZENIT_OK) then Ret (r, Some h1, c1)
        else
          let! d := rd arr 0 (u64 (count * hp_elem_size h1)) in
          let! buf := pwr (hp_buffer h1) 0 d in
          let h2 := upd_heap h1 buf count (hp_capacity h1) in
          let! h3 := heapify_loop fuel (Z.to_nat (count / 2)) h2 in
          Ret (ZENIT_OK, Some h3, c1)
  | _, _ => Ret (ZENIT_ERROR_NULL, heap, c)
  end.
End HeapModel.

Definition zenit_heap_create_with_capacity (elem_size : Z) (compare : option (bytes -> bytes -> Z))
    (capacity : Z) (h : heap) : option (zenit_heap_t heap) * heap :=
  zenit_heap_create_with_capacity_and_allocator elem_size compare capacity ZENIT_ALLOCATOR_DEFAULT h.
Definition zenit_heap_create (elem_size : Z) (compare : option (bytes -> bytes -> Z)) (h : heap)
    : option (zenit_heap_t heap) * heap :=
  zenit_heap_create_with_allocator elem_size compare ZENIT_ALLOCATOR_DEFAULT h.

(** ** Representation *)

(** The storage of a heap, seen as a vector. *)
Definition as_vector {C : Type} (h : zenit_heap_t C) : zenit_vector_t C :=
  mk_vector (hp_self h) (hp_buffer h) (hp_elem_size h) (hp_count h) (hp_capacity h) (hp_allocator h).

Definition heap_owns {C : Type} (h : zenit_heap_t C) : gset addr := vec_owns (as_vector h).

Definition parent (i : Z) : Z := (i - 1) / 2.

(** No element from [lo] on comes after its parent, except possibly the children
    of [hole]. *)
Definition ordered_from (cmp : bytes -> bytes -> Z) (l : list bytes) (lo : Z) (hole : option Z) : Prop :=
  forall i, 0 < i < zlen l -> lo <= parent i -> hole <> Some (parent i) ->
    cle cmp (el l i) (el l (parent i)).

Definition heap_ordered (cmp : bytes -> bytes -> Z) (l : list bytes) : Prop :=
  ordered_from cmp l 0 None.

Definition heap_storage {C : Type} (a : zenit_allocator_t C) {SP : AllocSpec a}
    (h : zenit_heap_t C) (l : list bytes) (c : C) : Prop :=
  vec_rep a (as_vector h) l c /\ hp_capacity h <> 0.

Definition heap_rep {C : Type} (a : zenit_allocator_t C) {SP : AllocSpec a}
    (h : zenit_heap_t C) (l : list bytes) (c : C) : Prop :=
  heap_storage a h l c /\ heap_ordered (hp_compare h) l.

(** What an operation inside the buffer leaves alone. *)
Definition heap_frame {C : Type} (h h' : zenit_heap_t C) : Prop :=
  heap_owns h' = heap_owns h /\ hp_elem_size h' = hp_elem_size h /\
  hp_compare h' = hp_compare h /\ hp_capacity h' = hp_capacity h.

(** ** Abstract specification: a priority queue

    The contents are a multiset, a list up to permutation. *)
Inductive heap_op : Type :=
| PPush (x : bytes)
| PPop
| PPeek
| PBuild (xs : list bytes)
| PReserve (n : Z)
| PCount
| PClear.

Inductive heap_res : Type :=
| PErr (e : zenit_error_t) (out : option bytes)
| PElem (x : option bytes)
| PNum (n : Z)
| PVoid.

(** [x] has the highest priority among [l]. *)
Definition is_top (cmp : bytes -> bytes -> Z) (x : bytes) (l : list bytes) : Prop :=
  Forall (fun y => cle cmp y x) l.

(** The results of a priority queue with contents [l]; any of the elements of
    highest priority may be returned. *)
Inductive pq_step (cmp : bytes -> bytes -> Z) : heap_op -> list bytes -> heap_res -> list bytes -> Prop :=
| pq_push x l : pq_step cmp (PPush x) l (PErr ZENIT_OK None) (x :: l)
| pq_push_alloc x l : pq_step cmp (PPush x) l (PErr ZENIT_ERROR_ALLOC None) l
| pq_pop_empty : pq_step cmp PPop [] (PErr ZENIT_ERROR_EMPTY None) []
| pq_pop x l : is_top cmp x l -> pq_step cmp PPop (x :: l) (PErr ZENIT_OK (Some x)) l
| pq_peek_empty : pq_step cmp PPeek [] (PElem None) []
| pq_peek x l : is_top cmp x l -> pq_step cmp PPeek (x :: l) (PElem (Some x)) (x :: l)
| pq_build xs l : pq_step cmp (PBuild xs) l (PErr ZENIT_OK None) xs
| pq_build_alloc xs l : pq_step cmp (PBuild xs) l (PErr ZENIT_ERROR_ALLOC None) l
| pq_reserve n l : pq_step cmp (PReserve n) l (PErr ZENIT_OK None) l
| pq_reserve_alloc n l : pq_step cmp (PReserve n) l (PErr ZENIT_ERROR_ALLOC None) l
| pq_count l : pq_step cmp PCount l (PNum (zlen l)) l
| pq_clear l : pq_step cmp PClear l PVoid []
| pq_perm op l1 l2 r l1' l2' :
    l1 ≡ₚ l2 -> pq_step cmp op l2 r l2' -> l2' ≡ₚ l1' -> pq_step cmp op l1 r l1'.

Definition heap_exec {C : Type} (fuel : nat) (op : heap_op) (h : zenit_heap_t C) (c : C)
    : outcome (heap_res * option (zenit_heap_t C) * C) :=
  match op with
  | PPush x =>
      let! (r, h', c') := zenit_heap_push fuel (Some h) (Some x) c in Ret (PErr r None, h', c')
  | PPop =>
      let! (r, h', o) :=
        zenit_heap_pop fuel (Some h) (Some (replicate (Z.to_nat (hp_elem_size h)) 0)) in
      Ret (PErr r (if decide (r = ZENIT_OK) then o else None), h', c)
  | PPeek =>
      match zenit_heap_peek (Some h) with
      | None => Ret (PElem None, Some h, c)
      | Some off => let! x := prd (hp_buffer h) off (hp_elem_size h) in Ret (PElem (Some x), Some h, c)
      end
  | PBuild xs =>
      let! (r, h', c') := zenit_heap_build fuel (Some h) (Some (concat xs)) (zlen xs) c in
      Ret (PErr r None, h', c')
  | PReserve n => let! (r, h', c') := zenit_heap_reserve (Some h) n c in Ret (PErr r None, h', c')
  | PCount => Ret (PNum (zenit_heap_count (Some h)), Some h, c)
  | PClear => Ret (PVoid, zenit_heap_clear (Some h), c)
  end.

(** Elements of the right size, no overflow of a requested byte count, and never
    capacity 1. *)
Definition heap_pre (es : Z) (op : heap_op) : Prop :=
  match op with
  | PPush x => zlen x = es
  | PBuild xs => Forall (fun x => zlen x = es) xs /\ zlen xs * es <= PTRDIFF_MAX
  | PReserve n => 0 <= n /\ n * es < two64
  | PPop | PPeek | PCount | PClear => True
  end.

(** ** Parents and children *)

Lemma parent_child i p : 0 < i -> parent i = p <-> i = 2 * p + 1 \/ i = 2 * p + 2.
Proof.
  intros Hi. unfold parent. pose proof (Z.div_mod (i - 1) 2). pose proof (Z.mod_pos_bound (i - 1) 2).
  lia.
Qed.

Lemma parent_range i : 0 < i -> 0 <= parent i < i.
Proof.
  intros Hi. unfold parent. pose proof (Z.div_mod (i - 1) 2). pose proof (Z.mod_pos_bound (i - 1) 2).
  lia.
Qed.

(** The invariants of the two sifting loops. *)
Definition up_inv (cmp : bytes -> bytes -> Z) (l : list bytes) (idx : Z) : Prop :=
  (forall i, 0 < i < zlen l -> i <> idx -> cle cmp (el l i) (el l (parent i))) /\
  (forall k, 0 < k < zlen l -> parent k = idx -> 0 < idx -> cle cmp (el l k) (el l (parent idx))).

Definition down_inv (cmp : bytes -> bytes -> Z) (l : list bytes) (lo idx : Z) : Prop :=
  ordered_from cmp l lo (Some idx) /\
  (forall k, 0 < k < zlen l -> parent k = idx -> 0 < idx -> lo <= parent idx ->
     cle cmp (el l k) (el l (parent idx))).

Section Sifting.
Context (cmp : bytes -> bytes -> Z) `{!Comparator cmp}.
Implicit Types (l : list bytes).

(** An element that belongs above its parent changes places with it. *)
Lemma up_step l idx :
  0 < idx < zlen l -> up_inv cmp l idx -> ~ cle cmp (el l idx) (el l (parent idx)) ->
  up_inv cmp (swapped l idx (parent idx)) (parent idx).
Proof.
  intros Hi [H1 H2] Hc. pose proof (parent_range idx ltac:(lia)) as Hp.
  apply cle_not in Hc; [|done]. set (p := parent idx) in *.
  split; rewrite zlen_swapped; intros i Hr.
  - intros Hne. pose proof (parent_range i ltac:(lia)) as Hpi.
    rewrite !el_swapped by lia. destruct (decide (i = idx)) as [->|Hii].
    + rewrite (decide_False (P := idx = p)), (decide_True (P := parent idx = p)) by done. done.
    + rewrite (decide_False (P := i = p)) by done.
      case_decide as D1; [etransitivity; [apply H1; done|]; rewrite D1; done|].
      case_decide as D2; [by apply H2; [|..|lia]|]. by apply H1.
  - intros Hk Hp0. pose proof (parent_range p ltac:(lia)) as Hpp.
    rewrite !el_swapped by lia.
    rewrite (decide_False (P := parent p = p)), (decide_False (P := parent p = idx)) by lia.
    pose proof (parent_range i ltac:(lia)) as Hpi.
    rewrite (decide_False (P := i = p)) by lia.
    assert (cle cmp (el l p) (el l (parent p))) as Hpar by (apply H1; lia).
    case_decide as D; [done|]. etransitivity; [|exact Hpar]. rewrite <- Hk. by apply H1.
Qed.

Lemma up_done l idx :
  up_inv cmp l idx -> (0 < idx -> cle cmp (el l idx) (el l (parent idx))) -> heap_ordered cmp l.
Proof.
  intros [H1 _] H i Hi _ _. destruct (decide (i = idx)) as [->|]; [apply H; lia|by apply H1].
Qed.

(** The larger child changes places with its parent. *)
Lemma down_step l lo idx g :
  0 <= lo <= idx -> 0 < g < zlen l -> parent g = idx -> down_inv cmp l lo idx ->
  cle cmp (el l idx) (el l g) ->
  (forall k, 0 < k < zlen l -> parent k = idx -> cle cmp (el l k) (el l g)) ->
  down_inv cmp (swapped l idx g) lo g.
Proof.
  intros Hlo Hg Hpg [H1 H2] Hle Hmax. pose proof (parent_range g ltac:(lia)) as Hr.
  split.
  - intros i Hi Hl Hn. rewrite zlen_swapped in Hi. pose proof (parent_range i ltac:(lia)) as Hpi.
    assert (parent i <> g) as Hng by congruence.
    rewrite !el_swapped by lia. rewrite (decide_False (P := parent i = g)) by done.
    destruct (decide (parent i = idx)) as [D|D].
    + case_decide as D1; [done|]. case_decide as D2; [exfalso; lia|]. by apply Hmax.
    + case_decide as D1; [congruence|]. case_decide as D2.
      * subst i. apply H2; try done. lia.
      * apply H1; [done|done|congruence].
  - intros k Hk Hpk Hg0 Hl. rewrite zlen_swapped in Hk.
    pose proof (parent_range k ltac:(lia)) as Hpk'. rewrite Hpg in *.
    rewrite !el_swapped by lia.
    rewrite (decide_False (P := idx = g)), (decide_True (P := idx = idx)) by (done || lia).
    rewrite (decide_False (P := k = g)), (decide_False (P := k = idx)) by lia.
    rewrite <- Hpk. apply H1; [done|lia|]. rewrite Hpk. intros [= E]. lia.
Qed.

Lemma down_done l lo idx :
  ordered_from cmp l lo (Some idx) ->
  (forall k, 0 < k < zlen l -> parent k = idx -> cle cmp (el l k) (el l idx)) ->
  ordered_from cmp l lo None.
Proof.
  intros H Hk i Hi Hl _. destruct (decide (parent i = idx)) as [E|E].
  - rewrite E. by apply Hk.
  - apply H; [done|done|congruence].
Qed.

(** The root of an ordered heap has the highest priority. *)
Lemma root_is_top l : heap_ordered cmp l -> forall i, 0 <= i < zlen l -> cle cmp (el l i) (el l 0).
Proof.
  intros H i Hi. destruct (decide (i = 0)) as [->|Hn]; [by apply cle_refl|].
  revert Hi Hn. induction i as [i IH] using (well_founded_induction (Z.lt_wf 0)). intros Hi Hn.
  pose proof (parent_range i ltac:(lia)) as Hp.
  assert (cle cmp (el l i) (el l (parent i))) as Hle by (apply H; [lia|lia|done]).
  destruct (decide (parent i = 0)) as [E|E]; [by rewrite E in Hle|].
  etransitivity; [exact Hle|]. apply IH; lia.
Qed.
End Sifting.

Section HeapSpec.
Context {C : Type} (a : zenit_allocator_t C) {SP : AllocSpec a}.
Implicit Types (h : zenit_heap_t C) (c : C) (l : list bytes).

Lemma storage_bounds h l c :
  heap_storage a h l c ->
  0 <= hp_count h <= hp_capacity h /\ 0 < hp_capacity h <= PTRDIFF_MAX /\
  hp_capacity h * hp_elem_size h <= PTRDIFF_MAX /\ zlen l = hp_count h /\
  0 < hp_elem_size h /\ 8 * hp_elem_size h < two64.
Proof.
  intros [H Hc]. pose proof (vec_bounds a _ _ _ H) as (B1 & B2 & B3 & B4 & B5). simpl in *.
  pose proof (vr_es _ _ _ _ H) as [B6 B7]. simpl in *. lia.
Qed.

Lemma storage_elem h l c i :
  heap_storage a h l c -> 0 <= i < zlen l ->
  elem_at (hp_buffer h) (hp_elem_size h) i = Ret (el l i) /\ zlen (el l i) = hp_elem_size h.
Proof.
  intros H Hi. pose proof (storage_bounds _ _ _ H) as (B1 & B2 & B3 & B4 & B5 & _).
  destruct H as [H Hc]. destruct (vr_slots _ _ _ _ H) as (sp & S & E). simpl in *.
  assert ((l ++ sp) !! Z.to_nat i = Some (el l i)) as L
    by (rewrite lookup_app_l; [by apply el_lookup|unfold zlen in Hi; lia]).
  unfold elem_at. rewrite u64_small by nia. split.
  - eapply prd_slot; [by apply (vec_nonnull a _ _ _ H)|done|lia|done].
  - destruct S as [_ F]. by eapply (Forall_lookup_1 _ _ _ _ F).
Qed.

(** A buffer of the same block whose leading slots hold [l']. *)
Lemma storage_update h l c buf l' spare :
  heap_storage a h l c -> buf <> None -> pown buf = pown (hp_buffer h) ->
  is_slots (hp_elem_size h) (pbytes buf) (l' ++ spare) ->
  hp_capacity h = zlen l' + zlen spare ->
  heap_storage a (upd_heap h buf (zlen l') (hp_capacity h)) l' c /\
  heap_frame h (upd_heap h buf (zlen l') (hp_capacity h)).
Proof.
  intros [H Hc] Hn Ho S E.
  destruct (vec_update a (as_vector h) l c buf l' spare H Hn Ho Hc S E) as [R O].
  split; [by split|]. by split.
Qed.

Lemma storage_swap h l c i j :
  heap_storage a h l c -> 0 <= i < zlen l -> 0 <= j < zlen l ->
  exists buf, swap_elements (hp_buffer h) (hp_elem_size h) i j = Ret buf /\
    heap_storage a (upd_heap h buf (hp_count h) (hp_capacity h)) (swapped l i j) c /\
    heap_frame h (upd_heap h buf (hp_count h) (hp_capacity h)).
Proof.
  intros H Hi Hj. pose proof (storage_bounds _ _ _ H) as (B1 & B2 & B3 & B4 & B5 & _).
  destruct (storage_elem h l c i H Hi) as [Ri Li], (storage_elem h l c j H Hj) as [Rj Lj].
  unfold swap_elements. rewrite Ri, Rj. simpl. rewrite !u64_small by nia.
  destruct (vr_slots _ _ _ _ (proj1 H)) as (sp & S & E). simpl in *.
  assert (hp_buffer h <> None) as Hn by (apply (vec_nonnull a _ _ _ (proj1 H)); apply H).
  destruct (pwr_slot (hp_elem_size h) (hp_buffer h) (l ++ sp) i (el l j))
    as (b1 & -> & N1 & O1 & S1); [done|done|zl|done|]. simpl.
  destruct (pwr_slot (hp_elem_size h) b1 (<[Z.to_nat i := el l j]> (l ++ sp)) j (el l i))
    as (b2 & -> & N2 & O2 & S2); [done|done|zl|done|].
  exists b2. split; [done|].
  rewrite !insert_app_l in S2 by (rewrite ?length_insert; unfold zlen in *; lia).
  rewrite <- B4, <- (zlen_swapped l i j).
  eapply storage_update; [done|done|congruence|exact S2|].
  rewrite zlen_swapped. lia.
Qed.

Lemma frame_trans h1 h2 h3 : heap_frame h1 h2 -> heap_frame h2 h3 -> heap_frame h1 h3.
Proof. unfold heap_frame. intuition congruence. Qed.

Lemma frame_refl h : heap_frame h h.
Proof. done. Qed.

Lemma sift_up_spec fuel h l c idx :
  heap_storage a h l c -> Comparator (hp_compare h) -> 0 <= idx < zlen l ->
  up_inv (hp_compare h) l idx -> (Z.to_nat idx <= fuel)%nat ->
  exists h' l', sift_up fuel h idx = Ret h' /\ heap_rep a h' l' c /\ l' ≡ₚ l /\ heap_frame h h'.
Proof.
  revert h l idx. induction fuel as [|fuel IH]; intros h l idx H Hcmp Hi Hinv Hf; simpl.
  { rewrite decide_False by lia. exists h, l. split; [done|]. split; [|done]. split; [done|].
    apply (up_done _ _ idx Hinv). lia. }
  case_decide as D.
  2:{ exists h, l. split; [done|]. split; [|done]. split; [done|]. apply (up_done _ _ idx Hinv). lia. }
  pose proof (storage_bounds _ _ _ H) as (B1 & B2 & B3 & B4 & B5 & _).
  pose proof (parent_range idx D) as Hp. rewrite u64_small by lia.
  change ((idx - 1) / 2) with (parent idx).
  rewrite (proj1 (storage_elem h l c idx H Hi)).
  rewrite (proj1 (storage_elem h l c (parent idx) H ltac:(lia))). simpl. case_decide as Dc.
  { exists h, l. split; [done|]. split; [|done]. split; [done|]. by apply (up_done _ _ idx Hinv). }
  destruct (storage_swap h l c idx (parent idx) H Hi) as (buf & -> & H' & F); [lia|]. simpl.
  destruct (IH _ _ (parent idx) H') as (h' & l' & -> & R & P & F');
    [done|rewrite zlen_swapped; lia|by apply up_step; [|lia|..]|lia|].
  exists h', l'. split; [done|]. split; [done|]. split; [|by eapply frame_trans].
  rewrite P. apply swapped_perm; lia.
Qed.

(** [largest] after a guarded comparison. *)
Lemma pick_larger_spec h l c child largest :
  heap_storage a h l c -> 0 <= child -> 0 <= largest < zlen l ->
  pick_larger h child largest = Ret (if decide (child < zlen l /\
    0 < hp_compare h (el l child) (el l largest)) then child else largest).
Proof.
  intros H Hc Hl. pose proof (storage_bounds _ _ _ H) as (B1 & B2 & B3 & B4 & B5 & _).
  unfold pick_larger. rewrite <- B4. destruct (decide (child < zlen l)) as [D|D].
  - rewrite (proj1 (storage_elem h l c child H ltac:(lia))).
    rewrite (proj1 (storage_elem h l c largest H Hl)). simpl.
    destruct (decide (0 < hp_compare h (el l child) (el l largest))) as [D2|D2].
    + by rewrite decide_True.
    + rewrite decide_False; [done|]. by intros [_ ?].
  - rewrite decide_False; [done|]. by intros [? _].
Qed.

(** The child chosen by [sift_down]. *)
Lemma choose_child h l c idx :
  heap_storage a h l c -> Comparator (hp_compare h) -> 0 <= idx < zlen l ->
  exists g, (let! largest := pick_larger h (u64 (2 * idx + 1)) idx in
             pick_larger h (u64 (2 * idx + 2)) largest) = Ret g /\ 0 <= g < zlen l /\
    cle (hp_compare h) (el l idx) (el l g) /\ (g = idx \/ parent g = idx /\ idx < g) /\
    (forall k, 0 < k < zlen l -> parent k = idx -> cle (hp_compare h) (el l k) (el l g)).
Proof.
  intros H Hcmp Hi. pose proof (storage_bounds _ _ _ H) as (B1 & B2 & B3 & B4 & B5 & _).
  rewrite !u64_small by lia. rewrite (pick_larger_spec h l c) by (done || lia). simpl.
  set (g1 := if decide (2 * idx + 1 < zlen l /\ _) then _ else _).
  assert (0 <= g1 < zlen l /\ cle (hp_compare h) (el l idx) (el l g1) /\
    (g1 = idx \/ g1 = 2 * idx + 1) /\
    (2 * idx + 1 < zlen l -> cle (hp_compare h) (el l (2 * idx + 1)) (el l g1))) as (G1 & G2 & G3 & G4).
  { unfold g1. case_decide as D.
    - split; [lia|]. split; [apply cle_not; unfold cle; [done|lia]|]. split; [by right|]. by intros _; apply cle_refl.
    - split; [lia|]. split; [by apply cle_refl|]. split; [by left|]. unfold cle.
      intros Hlt. destruct (decide (0 < hp_compare h (el l (2 * idx + 1)) (el l idx))); [|lia].
      by destruct D. }
  rewrite (pick_larger_spec h l c) by (done || lia).
  eexists. split; [done|]. case_decide as D.
  - assert (cle (hp_compare h) (el l g1) (el l (2 * idx + 2))) as Hle
      by (apply cle_not; unfold cle; [done|lia]).
    split; [lia|]. split; [by etransitivity|].
    split; [right; split; [apply parent_child; lia|lia]|].
    intros k Hk [->| ->]%parent_child; [|by apply cle_refl|lia].
    etransitivity; [apply G4; lia|done].
  - split; [lia|]. split; [done|]. split.
    { destruct G3 as [->| ->]; [by left|right]. split; [apply parent_child; lia|lia]. }
    intros k Hk [->| ->]%parent_child; [apply G4; lia|..|lia]. unfold cle.
    destruct (decide (0 < hp_compare h (el l (2 * idx + 2)) (el l g1))); [|lia]. destruct D. lia.
Qed.

Lemma sift_down_spec fuel h l c lo idx :
  heap_storage a h l c -> Comparator (hp_compare h) -> 0 <= lo <= idx -> idx < zlen l ->
  down_inv (hp_compare h) l lo idx -> (Z.to_nat (zlen l - idx) <= fuel)%nat ->
  exists h' l', sift_down fuel h idx = Ret h' /\ heap_storage a h' l' c /\
    ordered_from (hp_compare h) l' lo None /\ l' ≡ₚ l /\ heap_frame h h'.
Proof.
  revert h l idx. induction fuel as [|fuel IH]; intros h l idx H Hcmp Hlo Hi Hinv Hf; [lia|].
  destruct (choose_child h l c idx H Hcmp ltac:(lia)) as (g & E & Hg & Hle & Hcase & Hmax).
  simpl. apply obind_Ret_inv in E as (g1 & -> & E). simpl. rewrite E. simpl.
  case_decide as D.
  { subst g. exists h, l. split; [done|]. split; [done|]. split; [|done].
    destruct Hinv. by eapply down_done. }
  destruct Hcase as [?|[Hpg Hlt]]; [done|].
  destruct (storage_swap h l c idx g H) as (buf & -> & H' & F); [lia|lia|]. simpl.
  destruct (IH _ (swapped l idx g) g H') as (h' & l' & -> & R & O & P & F').
  - done.
  - lia.
  - rewrite zlen_swapped. lia.
  - apply down_step; try done; lia.
  - rewrite zlen_swapped. lia.
  - exists h', l'. split; [done|]. split; [done|]. split; [done|]. split; [|by eapply frame_trans].
    rewrite P. apply swapped_perm; lia.
Qed.
End HeapSpec.


(** How many elements an operation may add. *)
Definition heap_weight (op : heap_op) : Z :=
  match op with PPush _ => 1 | PBuild xs => zlen xs | _ => 0 end.

Definition heap_weights (ops : list heap_op) : Z :=
  foldr (fun op n => heap_weight op + n) 0 ops.

Definition heap_post {C : Type} (a : zenit_allocator_t C) {SP : AllocSpec a}
    (op : heap_op) (h : zenit_heap_t C) (l : list bytes) (c : C)
    (m : outcome (heap_res * option (zenit_heap_t C) * C)) : Prop :=
  exists r h' c' l', m = Ret (r, Some h', c') /\ heap_rep a h' l' c' /\
    hp_elem_size h' = hp_elem_size h /\ hp_compare h' = hp_compare h /\ hp_capacity h' <> 1 /\
    transfer a (heap_owns h) (heap_owns h') c c' /\
    zlen l' <= zlen l + heap_weight op /\ pq_step (hp_compare h) op l r l'.

Fixpoint heap_run {C : Type} (fuel : nat) (ops : list heap_op) (h : zenit_heap_t C) (c : C)
    : outcome (list heap_res * zenit_heap_t C * C) :=
  match ops with
  | [] => Ret ([], h, c)
  | op :: ops =>
      let! (r, h', c') := heap_exec fuel op h c in
      match h' with
      | Some h' => let! (rs, h2, c2) := heap_run fuel ops h' c' in Ret (r :: rs, h2, c2)
      | None => Undef
      end
  end.

Inductive pq_trace (cmp : bytes -> bytes -> Z) : list bytes -> list heap_op -> list heap_res -> Prop :=
| pqt_nil l : pq_trace cmp l [] []
| pqt_step l op ops r rs l' :
    pq_step cmp op l r l' -> pq_trace cmp l' ops rs -> pq_trace cmp l (op :: ops) (r :: rs).

Section HeapOps.
Context {C : Type} (a : zenit_allocator_t C) {SP : AllocSpec a}.
Implicit Types (h : zenit_heap_t C) (c : C) (l : list bytes).

(** The reallocation of the heap is that of the vector. *)
Lemma realloc_as_vector h n c :
  n <> 0 ->
  Vector.realloc_buffer (as_vector h) n c
    = let! (r, h', c') := realloc_buffer h n c in Ret (r, as_vector h', c').
Proof.
  intros Hn. unfold Vector.realloc_buffer, realloc_buffer. rewrite decide_False by done. simpl.
  destruct (zenit_allocator_realloc _ _ _ _ _) as [[[b|] c1]| |]; done.
Qed.

Lemma heap_realloc_spec h l c n :
  heap_storage a h l c -> zlen l <= n -> 0 < n -> n * hp_elem_size h < two64 ->
  exists r h' c', realloc_buffer h n c = Ret (r, h', c') /\
    transfer a (heap_owns h) (heap_owns h') c c' /\ hp_elem_size h' = hp_elem_size h /\
    hp_compare h' = hp_compare h /\
    ((r = ZENIT_OK /\ heap_storage a h' l c' /\ hp_capacity h' = n) \/
     (r = ZENIT_ERROR_ALLOC /\ h' = h /\ heap_storage a h l c')).
Proof.
  intros [H Hc] Hl Hn Hov.
  destruct (Vector.realloc_buffer_spec a (as_vector h) l c n H Hl Hov) as (r & v & c' & E & P & Q).
  rewrite realloc_as_vector in E by lia.
  apply obind_Ret_inv in E as ([[r1 h'] c1] & E & [= -> <- ->]).
  exists r, h', c'. split; [done|].
  assert (hp_compare h' = hp_compare h /\ (r = ZENIT_ERROR_ALLOC -> h' = h)) as [Ec Eh].
  { revert E. unfold realloc_buffer.
    destruct (zenit_allocator_realloc _ _ _ _ _) as [[[b|] c2]| |]; simpl; by intros [= <- <- <-]. }
  destruct P as (T & _ & Es & P). split; [done|]. split; [done|]. split; [done|].
  destruct P as [[-> R]|(-> & _ & R)].
  - left. split; [done|]. specialize (Q eq_refl). simpl in Q. split; [|done]. split; [done|lia].
  - right. split; [done|]. split; [by apply Eh|]. by split.
Qed.

Lemma heap_room fuel h l c :
  heap_storage a h l c -> (1 <= fuel)%nat -> hp_capacity h <> 1 ->
  exists r h1 c1,
    (if decide (hp_count h = hp_capacity h)
     then grow fuel h (u64 (hp_capacity h + 1)) c else Ret (ZENIT_OK, h, c)) = Ret (r, h1, c1) /\
    transfer a (heap_owns h) (heap_owns h1) c c1 /\ hp_elem_size h1 = hp_elem_size h /\
    hp_compare h1 = hp_compare h /\ hp_capacity h1 <> 1 /\
    ((r = ZENIT_OK /\ heap_storage a h1 l c1 /\ hp_count h1 < hp_capacity h1) \/
     (r = ZENIT_ERROR_ALLOC /\ h1 = h /\ heap_storage a h l c1)).
Proof.
  intros H Hf H1. pose proof (storage_bounds a _ _ _ H) as (B1 & B2 & B3 & B4 & B5 & B6).
  case_decide as Hfull.
  - assert (0 <= hp_capacity h / 2) as Hd0 by (apply Z.div_pos; lia).
    pose proof (Z.mul_div_le (hp_capacity h) 2) as Hd2.
    assert (1 <= hp_capacity h / 2) as Hd1 by (apply Z.div_le_lower_bound; lia).
    unfold grow. rewrite u64_small by lia. rewrite grow15_next by lia. simpl.
    rewrite decide_False by lia.
    destruct (heap_realloc_spec h l c (hp_capacity h + hp_capacity h / 2) H)
      as (r & h' & c' & -> & T & Es & Ec & P); [lia|lia|nia|].
    eexists _, _, _. split; [done|]. do 3 (split; [done|]).
    destruct P as [(-> & R & Cap)|(-> & -> & R)].
    + split; [lia|]. left. split; [done|]. split; [done|].
      pose proof (storage_bounds a _ _ _ R) as (_ & _ & _ & B4' & _). lia.
    + split; [done|]. by right.
  - eexists _, _, _. split; [done|]. split; [apply transfer_refl, H|]. do 3 (split; [done|]).
    left. split; [done|]. split; [done|lia].
Qed.

Lemma heap_push_step fuel h l c x :
  heap_rep a h l c -> Comparator (hp_compare h) -> hp_capacity h <> 1 ->
  zlen x = hp_elem_size h -> (Z.to_nat (zlen l + 1) <= fuel)%nat ->
  heap_post a (PPush x) h l c (heap_exec fuel (PPush x) h c).
Proof.
  intros [H O] Hcmp H1 Hx Hf. pose proof (zlen_nonneg l) as Hl.
  cbn [heap_exec zenit_heap_push].
  destruct (heap_room fuel h l c H ltac:(lia) H1) as (r & h1 & c1 & -> & T & Es & Ec & K & P). simpl.
  destruct P as [(-> & R & Hlt)|(-> & -> & R)]; simpl.
  2:{ eexists _, _, _, l. split; [done|]. split; [by split|]. do 4 (split; [done|]).
      split; [simpl; lia|]. apply pq_push_alloc. }
  pose proof (storage_bounds a _ _ _ R) as (B1 & B2 & B3 & B4 & B5 & B6).
  rewrite rd_whole by congruence. simpl.
  destruct (vr_slots _ _ _ _ (proj1 R)) as (sp & S & E). simpl in S, E.
  destruct sp as [|y sp]; [rewrite zlen_nil in E; lia|].
  destruct (pwr_slots (hp_elem_size h1) (hp_buffer h1) l [y] [x] sp (zlen l * hp_elem_size h1))
    as (buf & W & Nb & Ob & Sb); [apply (vec_nonnull a _ _ _ (proj1 R)); apply R|done|done|done| |].
  { constructor; [congruence|done]. }
  simpl in W. rewrite app_nil_r in W. rewrite <- B4. rewrite u64_small, W by nia. simpl.
  rewrite !u64_small by (rewrite ?u64_small; lia).
  replace (zlen l + 1) with (zlen (l ++ [x])) by (rewrite zlen_app, zlen_cons, zlen_nil; lia).
  rewrite app_assoc in Sb.
  destruct (storage_update a h1 l c1 buf (l ++ [x]) sp R Nb Ob Sb) as [R2 F2]; [zl|].
  destruct (sift_up_spec a fuel _ (l ++ [x]) c1 (zlen (l ++ [x]) - 1) R2)
    as (h3 & l3 & -> & R3 & P3 & F3).
  - simpl. by rewrite Ec.
  - autorewrite with zlen. lia.
  - simpl. rewrite Ec. split.
    + intros i Hi Hn. autorewrite with zlen in *. pose proof (parent_range i ltac:(lia)).
      rewrite !el_app_l by lia. apply O; [lia|lia|done].
    + intros k Hk Hp _. autorewrite with zlen in *. pose proof (parent_range k ltac:(lia)). lia.
  - autorewrite with zlen. lia.
  - simpl. pose proof (frame_trans _ _ _ F2 F3) as (Fo & Fe & Fc & Fcap).
    eexists _, _, _, l3. split; [done|]. split; [done|]. split; [congruence|]. split; [congruence|].
    split; [congruence|]. split; [by rewrite Fo|]. simpl.
    assert (l3 ≡ₚ x :: l) as Pm by (rewrite P3; by rewrite Permutation_app_comm).
    split; [apply Permutation_length in Pm; unfold zlen; simpl in Pm; lia|].
    eapply pq_perm; [done|apply pq_push|done].
Qed.

(** The root is returned; the last element takes its place and sinks. *)
Lemma heap_pop_step fuel h l c :
  heap_rep a h l c -> Comparator (hp_compare h) -> hp_capacity h <> 1 ->
  (Z.to_nat (zlen l) <= fuel)%nat ->
  heap_post a PPop h l c (heap_exec fuel PPop h c).
Proof.
  intros [H O] Hcmp H1 Hf. pose proof (storage_bounds a _ _ _ H) as (B1 & B2 & B3 & B4 & B5 & B6).
  cbn [heap_exec zenit_heap_pop]. destruct l as [|x l].
  { rewrite zlen_nil in B4. rewrite decide_True by lia. simpl.
    eexists _, _, _, []. split; [done|]. split; [by split|]. do 3 (split; [done|]).
    split; [apply transfer_refl, H|]. split; [done|]. apply pq_pop_empty. }
  rewrite zlen_cons in B4. pose proof (zlen_nonneg l) as Hl. rewrite decide_False by lia.
  destruct (storage_elem a h (x :: l) c 0 H ltac:(zl)) as [Rx Lx].
  unfold elem_at in Rx. change (u64 (0 * hp_elem_size h)) with 0 in Rx. rewrite Rx. simpl.
  rewrite wr_whole by (rewrite zlen_replicate; lia). simpl.
  assert (is_top (hp_compare h) x l) as Htop.
  { apply Forall_lookup_2. intros i y Ey. pose proof (lookup_lt_Some _ _ _ Ey) as Hlt.
    pose proof (root_is_top (hp_compare h) (x :: l) O (Z.of_nat (S i))) as Rt.
    unfold el in Rt. rewrite Nat2Z.id in Rt. simpl in Rt. rewrite Ey in Rt. apply Rt.
    unfold zlen. simpl. lia. }
  rewrite u64_small by lia. replace (hp_count h - 1) with (zlen l) by lia.
  destruct (vr_slots _ _ _ _ (proj1 H)) as (sp & S & E). simpl in S, E.
  assert (hp_buffer h <> None) as Hn by (apply (vec_nonnull a _ _ _ (proj1 H)); apply H).
  destruct l as [|y m _] using rev_ind.
  { change (zlen (@nil bytes)) with 0. simpl.
    destruct (storage_update a h [x] c (hp_buffer h) [] (x :: sp) H Hn) as [R F];
      [done|done|zl|]. rewrite zlen_nil in R, F. destruct F as (Fo & Fe & Fc & Fcap).
    eexists _, _, _, []. split; [done|]. split; [split; [done|intros i Hi; unfold zlen in Hi; simpl in Hi; lia]|].
    do 3 (split; [done|]). split; [rewrite Fo; apply transfer_refl, H|]. split; [done|].
    by apply pq_pop. }
  autorewrite with zlen in *. pose proof (zlen_nonneg m) as Hm.
  rewrite decide_True by lia.
  destruct (storage_elem a h (x :: m ++ [y]) c (zlen m + 1) H ltac:(zl)) as [Ry Ly].
  assert (el (x :: m ++ [y]) (zlen m + 1) = y) as Ey.
  { unfold el. rewrite app_comm_cons, lookup_app_r by (unfold zlen; simpl; lia).
    replace (_ - _)%nat with 0%nat by (unfold zlen; simpl; lia). done. }
  rewrite Ey in Ry, Ly. unfold elem_at in Ry. replace (zlen m + (1 + 0)) with (zlen m + 1) by lia.
  rewrite Ry. simpl.
  destruct (pwr_slots (hp_elem_size h) (hp_buffer h) [] [x] [y] (m ++ [y] ++ sp) 0)
    as (buf & W & Nb & Ob & Sb);
    [done|simpl in S; by rewrite <- app_assoc in S|done|done|by constructor|].
  simpl in W. rewrite app_nil_r in W. rewrite W. simpl.
  destruct (storage_update a h (x :: m ++ [y]) c buf (y :: m) (y :: sp) H Nb Ob Sb) as [R F]; [zl|].
  replace (zlen m + 1) with (zlen (y :: m)) by (rewrite zlen_cons; lia).
  change (upd_heap (upd_heap h _ _ _) buf _ _) with (upd_heap h buf (zlen (y :: m)) (hp_capacity h)).
  destruct (sift_down_spec a fuel _ (y :: m) c 0 0 R) as (h3 & l3 & -> & R3 & O3 & P3 & F3).
  - done.
  - lia.
  - zl.
  - split.
    + intros i Hi _ Hp. rewrite zlen_cons in Hi. pose proof (parent_range i ltac:(lia)).
      assert (parent i <> 0) as Hp0 by congruence.
      pose proof (O i) as Oi. unfold el in *. 
      replace (Z.to_nat i) with (Datatypes.S (Z.to_nat (i - 1))) in * by lia.
      replace (Z.to_nat (parent i)) with (Datatypes.S (Z.to_nat (parent i - 1))) in * by lia. simpl in *.
      rewrite !lookup_app_l in Oi by (unfold zlen in *; lia).
      apply Oi; [zl|lia|done].
    + intros k _ _ ?. lia.
  - zl.
  - simpl. pose proof (frame_trans _ _ _ F F3) as (Fo & Fe & Fc & Fcap).
    eexists _, _, _, l3. split; [done|]. split; [split; [done|by rewrite Fc]|].
    split; [congruence|]. split; [congruence|]. split; [congruence|].
    split; [rewrite Fo; apply transfer_refl, H|].
    assert (m ++ [y] ≡ₚ l3) as Pm by (rewrite P3; by rewrite Permutation_app_comm).
    split; [apply Permutation_length in Pm; rewrite length_app in Pm; unfold zlen; simpl in *; rewrite length_app; simpl; lia|].
    eapply pq_perm; [done|by apply pq_pop|done].
Qed.
End HeapOps.

Section HeapTheorems.
Context {C : Type} (a : zenit_allocator_t C) {SP : AllocSpec a}.
Implicit Types (h : zenit_heap_t C) (c : C) (l : list bytes).

(** Floyd's bottom-up construction. *)
Lemma heapify_loop_spec fuel idx h l c :
  heap_storage a h l c -> Comparator (hp_compare h) -> Z.of_nat idx <= zlen l ->
  ordered_from (hp_compare h) l (Z.of_nat idx) None -> (Z.to_nat (zlen l) <= fuel)%nat ->
  exists h' l', heapify_loop fuel idx h = Ret h' /\ heap_rep a h' l' c /\ l' ≡ₚ l /\ heap_frame h h'.
Proof.
  revert h l. induction idx as [|idx IH]; intros h l H Hcmp Hi O Hf; simpl.
  { exists h, l. split; [done|]. split; [by split|done]. }
  destruct (sift_down_spec a fuel h l c (Z.of_nat idx) (Z.of_nat idx) H)
    as (h1 & l1 & -> & H1 & O1 & P1 & F1); [done|lia|lia| |lia|].
  { split.
    - intros i Hr Hl Hn. apply O; [done| |done].
      assert (parent i <> Z.of_nat idx) by congruence. lia.
    - intros k _ _ Hpos Hl. pose proof (parent_range (Z.of_nat idx) Hpos). lia. }
  simpl. pose proof F1 as (_ & _ & Fc & _). rewrite <- Fc in O1.
  assert (zlen l1 = zlen l) as El by (unfold zlen; by rewrite P1).
  destruct (IH h1 l1 H1) as (h' & l' & -> & R & P & F); [by rewrite Fc|lia|done|lia|].
  exists h', l'. split; [done|]. split; [done|]. split; [by rewrite P|by eapply frame_trans].
Qed.

Lemma heap_build_step fuel h l c xs :
  heap_rep a h l c -> Comparator (hp_compare h) -> hp_capacity h <> 1 ->
  Forall (fun x => zlen x = hp_elem_size h) xs -> zlen xs * hp_elem_size h <= PTRDIFF_MAX ->
  (Z.to_nat (zlen xs) <= fuel)%nat ->
  heap_post a (PBuild xs) h l c (heap_exec fuel (PBuild xs) h c).
Proof.
  intros [H O] Hcmp H1 Hxs Hov Hf.
  pose proof (storage_bounds a _ _ _ H) as (B1 & B2 & B3 & B4 & B5 & B6).
  pose proof (zlen_nonneg xs) as Hx0. pose proof (zlen_nonneg l) as Hl0.
  cbn [heap_exec zenit_heap_build]. case_decide as D0.
  { apply zlen_0 in D0 as ->. simpl.
    destruct (vr_slots _ _ _ _ (proj1 H)) as (sp & S & E). simpl in S, E.
    destruct (storage_update a h l c (hp_buffer h) [] (l ++ sp) H) as [R F];
      [apply (vec_nonnull a _ _ _ (proj1 H)); apply H|done|done|zl|].
    rewrite zlen_nil in R, F. destruct F as (Fo & Fe & Fc & Fcap).
    eexists _, _, _, []. split; [done|]. split; [split; [done|intros i Hi; unfold zlen in Hi; simpl in Hi; lia]|].
    do 3 (split; [done|]). split; [rewrite Fo; apply transfer_refl, H|].
    split; [simpl; change (zlen (@nil bytes)) with 0; lia|]. apply pq_build. }
  assert (exists r h1 c1, (if decide (hp_capacity h < zlen xs) then realloc_buffer h (zlen xs) c
      else Ret (ZENIT_OK, h, c)) = Ret (r, h1, c1) /\
    transfer a (heap_owns h) (heap_owns h1) c c1 /\ hp_elem_size h1 = hp_elem_size h /\
    hp_compare h1 = hp_compare h /\ hp_capacity h1 <> 1 /\
    ((r = ZENIT_OK /\ heap_storage a h1 l c1 /\ zlen xs <= hp_capacity h1) \/
     (r = ZENIT_ERROR_ALLOC /\ h1 = h /\ heap_storage a h l c1)))
    as (r & h1 & c1 & -> & T & Es & Ec & K & P).
  { case_decide as D1.
    - destruct (heap_realloc_spec a h l c (zlen xs) H) as (r & h1 & c1 & -> & T & Es & Ec & P);
        [lia|lia|lia|].
      eexists _, _, _. split; [done|]. do 3 (split; [done|]).
      destruct P as [(-> & R & Cap)|(-> & -> & R)].
      + split; [lia|]. left. split; [done|]. split; [done|lia].
      + split; [done|]. by right.
    - eexists _, _, _. split; [done|]. split; [apply transfer_refl, H|]. do 3 (split; [done|]).
      left. split; [done|]. split; [done|lia]. }
  simpl. destruct P as [(-> & R & Hcap)|(-> & -> & R)]; simpl.
  2:{ eexists _, _, _, l. split; [done|]. split; [by split|]. do 4 (split; [done|]).
      split; [simpl; lia|]. apply pq_build_alloc. }
  pose proof (storage_bounds a _ _ _ R) as (C1 & C2 & C3 & C4 & C5 & C6).
  rewrite u64_small by nia.
  rewrite rd_whole by (rewrite Es; symmetry; by apply zlen_concat). simpl.
  destruct (vr_slots _ _ _ _ (proj1 R)) as (sp & S & E). simpl in S, E.
  destruct (list_split_at (l ++ sp) (zlen xs)) as (s1 & s2 & Esp & L1); [zl|].
  assert (zlen l + zlen sp = zlen s1 + zlen s2) as Lsum by (rewrite <- !zlen_app; by rewrite Esp).
  rewrite Esp in S.
  destruct (pwr_slots (hp_elem_size h1) (hp_buffer h1) [] s1 xs s2 0)
    as (buf & W & Nb & Ob & Sb);
    [apply (vec_nonnull a _ _ _ (proj1 R)); apply R|done|done|done|by rewrite Es|].
  rewrite W. simpl.
  destruct (storage_update a h1 l c1 buf xs s2 R Nb Ob Sb) as [R2 F2]; [lia|].
  destruct (heapify_loop_spec fuel (Z.to_nat (zlen xs / 2)) _ xs c1 R2)
    as (h3 & l3 & -> & R3 & P3 & F3).
  - simpl. by rewrite Ec.
  - pose proof (Z.mul_div_le (zlen xs) 2). pose proof (Z.div_pos (zlen xs) 2). lia.
  - intros i Hi Hl _. pose proof (Z.div_pos (zlen xs) 2). rewrite Z2Nat.id in Hl by lia.
    pose proof (Z.mod_pos_bound (zlen xs) 2). pose proof (Z.div_mod (zlen xs) 2).
    pose proof (proj1 (parent_child i (parent i) ltac:(lia)) eq_refl). lia.
  - lia.
  - simpl. pose proof (frame_trans _ _ _ F2 F3) as (Fo & Fe & Fc & Fcap).
    eexists _, _, _, l3. split; [done|]. split; [done|]. split; [congruence|]. split; [congruence|].
    split; [congruence|]. split; [by rewrite Fo|].
    split; [simpl; assert (zlen l3 = zlen xs) by (unfold zlen; by rewrite P3); lia|].
    eapply pq_perm; [done|apply pq_build|done].
Qed.

Lemma heap_post_pure op h l c r :
  heap_rep a h l c -> hp_capacity h <> 1 -> zlen l <= zlen l + heap_weight op ->
  pq_step (hp_compare h) op l r l -> heap_post a op h l c (Ret (r, Some h, c)).
Proof.
  intros R H1 Hw P. exists r, h, c, l. do 5 (split; [done|]).
  split; [apply transfer_refl, R|done].
Qed.

Lemma heap_step fuel op h l c :
  heap_rep a h l c -> Comparator (hp_compare h) -> hp_capacity h <> 1 ->
  heap_pre (hp_elem_size h) op -> (Z.to_nat (zlen l + heap_weight op) <= fuel)%nat ->
  heap_post a op h l c (heap_exec fuel op h c).
Proof.
  intros R Hcmp H1 Hp Hf. pose proof R as [H O].
  pose proof (storage_bounds a _ _ _ H) as (B1 & B2 & B3 & B4 & B5 & B6).
  pose proof (zlen_nonneg l) as Hl0.
  destruct op as [x| | |xs|n| |]; simpl in Hp, Hf.
  - by apply heap_push_step.
  - apply heap_pop_step; try done. lia.
  - cbn [heap_exec zenit_heap_peek]. case_decide as D.
    + assert (l = []) as -> by (apply zlen_0; lia).
      apply heap_post_pure; [done|done|simpl; lia|apply pq_peek_empty].
    + destruct l as [|x l]; [rewrite zlen_nil in B4; lia|].
      destruct (storage_elem a h (x :: l) c 0 H ltac:(lia)) as [Rx Lx].
      unfold elem_at in Rx. change (u64 (0 * hp_elem_size h)) with 0 in Rx. rewrite Rx. simpl.
      apply heap_post_pure; [done|done|simpl; lia|].
      apply (pq_peek _ x l). apply Forall_lookup_2. intros i y Ey.
      pose proof (lookup_lt_Some _ _ _ Ey) as Hlt.
      pose proof (root_is_top (hp_compare h) (x :: l) O (Z.of_nat (S i))) as Rt.
      unfold el in Rt. rewrite Nat2Z.id in Rt. simpl in Rt. rewrite Ey in Rt. apply Rt.
      unfold zlen. simpl. lia.
  - pose proof (zlen_nonneg xs). destruct Hp. apply heap_build_step; try done. lia.
  - cbn [heap_exec zenit_heap_reserve]. case_decide as D.
    + apply heap_post_pure; [done|done|simpl; lia|apply pq_reserve].
    + destruct (heap_realloc_spec a h l c n H) as (r & h1 & c1 & -> & T & Es & Ec & P); [lia|lia|lia|].
      simpl. destruct P as [(-> & R1 & Cap)|(-> & -> & R1)].
      * eexists _, _, _, l. split; [done|]. split; [split; [done|by rewrite Ec]|]. do 2 (split; [done|]).
        split; [lia|]. split; [done|]. split; [simpl; lia|apply pq_reserve].
      * eexists _, _, _, l. split; [done|]. split; [by split|]. do 4 (split; [done|]).
        split; [simpl; lia|apply pq_reserve_alloc].
  - simpl. rewrite <- B4. apply heap_post_pure; [done|done|simpl; lia|apply pq_count].
  - simpl. destruct (vr_slots _ _ _ _ (proj1 H)) as (sp & S & E). simpl in S, E.
    destruct (storage_update a h l c (hp_buffer h) [] (l ++ sp) H) as [R1 F];
      [apply (vec_nonnull a _ _ _ (proj1 H)); apply H|done|done|zl|].
    rewrite zlen_nil in R1, F. destruct F as (Fo & Fe & Fc & Fcap).
    eexists _, _, _, []. split; [done|].
    split; [split; [done|intros i Hi; unfold zlen in Hi; simpl in Hi; lia]|].
    do 3 (split; [done|]). split; [rewrite Fo; apply transfer_refl, H|].
    split; [simpl; change (zlen (@nil bytes)) with 0; lia|apply pq_clear].
Qed.

Lemma heap_create_spec es cmp cap c :
  0 <= es -> 8 * es < two64 -> 0 <= cap -> cap * es < two64 ->
  match zenit_heap_create_with_capacity_and_allocator es (Some cmp) cap a c with
  | (None, c') => live c' = live c
  | (Some h, c') => heap_rep a h [] c' /\ transfer a ∅ (heap_owns h) c c' /\
                    hp_elem_size h = es /\ hp_capacity h = cap /\ hp_compare h = cmp
  end.
Proof.
  intros H0 H8 Hc Hov. unfold zenit_heap_create_with_capacity_and_allocator.
  case_decide as D; [done|].
  destruct (alloc_fn a SIZEOF_HEAP c) as [[b0|] c1] eqn:A1; [|by eapply alloc_none].
  rewrite u64_small by nia.
  destruct (alloc_fn a (cap * es) c1) as [[b|] c2] eqn:A2.
  - apply alloc_some in A1 as (_ & _ & F1 & L1).
    apply alloc_some in A2 as (Z2 & M2 & F2 & L2).
    set (h := mk_heap_t _ _ _ _ _ _ _).
    assert (transfer a ∅ (heap_owns h) c c2) as T
      by (unfold heap_owns, vec_owns; simpl; split; rewrite L2, L1; set_solver).
    split; [|done]. split; [|intros i Hi; unfold zlen in Hi; simpl in Hi; lia].
    split; [|simpl; lia]. constructor; simpl; try done; try lia.
    + split; [done|]. intros ->. destruct D. by right.
    + exists (slots_of (Z.to_nat es) (Z.to_nat cap) (b_data b)).
      split; [apply is_slots_exists; rewrite Z2; f_equal; lia|].
      rewrite zlen_slots_of. change (zlen (@nil bytes)) with 0. lia.
    + set_solver.
    + apply T.
  - apply alloc_some in A1 as (_ & _ & F1 & L1). apply alloc_none in A2.
    rewrite free_some, A2, L1; set_solver.
Qed.

Lemma heap_weights_nonneg ops : 0 <= heap_weights ops.
Proof.
  induction ops as [|o os IHo]; simpl; [lia|].
  assert (0 <= heap_weight o) by (destruct o; simpl; try lia; apply zlen_nonneg). lia.
Qed.

Lemma heap_run_spec fuel ops h l c :
  heap_rep a h l c -> Comparator (hp_compare h) -> hp_capacity h <> 1 ->
  Forall (heap_pre (hp_elem_size h)) ops ->
  (Z.to_nat (zlen l + heap_weights ops) <= fuel)%nat ->
  exists rs h' l' c', heap_run fuel ops h c = Ret (rs, h', c') /\
    pq_trace (hp_compare h) l ops rs /\ heap_rep a h' l' c' /\
    transfer a (heap_owns h) (heap_owns h') c c'.
Proof.
  revert h l c. induction ops as [|op ops IH]; intros h l c R Hcmp H1 Hops Hf.
  - exists [], h, l, c. split; [done|]. split; [constructor|]. split; [done|]. apply transfer_refl, R.
  - apply Forall_cons_1 in Hops as [Hop Hops]. simpl in Hf.
    pose proof (heap_weights_nonneg ops) as Hw. pose proof (zlen_nonneg l).
    destruct (heap_step fuel op h l c R Hcmp H1 Hop)
      as (r & h1 & c1 & l1 & E & R1 & Es & Ec & K & T1 & Hl & P); [lia|]. simpl. rewrite E. simpl.
    rewrite <- Es in Hops.
    destruct (IH h1 l1 c1 R1) as (rs & h2 & l2 & c2 & -> & Tr & R2 & T2);
      [by rewrite Ec|done|done|lia|].
    simpl. rewrite Ec in Tr. eexists _, _, _, _. split; [done|].
    split; [by econstructor|]. split; [done|by eapply transfer_trans].
Qed.

(** C4. The heap is a priority queue.  For a comparison function that orders the
    elements, a heap created with any capacity but 1 gives, for every sequence of
    pushes, pops, peeks, bulk builds, reservations, counts and clears, results
    that a priority queue over the multiset of its elements gives: pop and peek
    return an element that no other one comes after.  Every sifting loop ends, no
    access leaves the buffer, an operation that cannot allocate reports
    [ZENIT_ERROR_ALLOC] and keeps the contents, and destruction releases exactly
    what the heap held. *)
Theorem heap_priority_queue fuel es cmp cap ops c :
  Comparator cmp ->
  0 <= es -> 8 * es < two64 -> 0 <= cap -> cap <> 1 -> cap * es < two64 ->
  Forall (heap_pre es) ops ->
  (Z.to_nat (heap_weights ops) <= fuel)%nat ->
  match zenit_heap_create_with_capacity_and_allocator es (Some cmp) cap a c with
  | (None, c1) => live c1 = live c
  | (Some h, c1) => exists rs h' c2, heap_run fuel ops h c1 = Ret (rs, h', c2) /\
      pq_trace cmp [] ops rs /\ live (zenit_heap_destroy (Some h') c2) = live c
  end.
Proof.
  intros Hcmp H0 H8 Hc H1 Hov Hops Hf.
  pose proof (heap_create_spec es cmp cap c H0 H8 Hc Hov) as Cr.
  destruct (zenit_heap_create_with_capacity_and_allocator es (Some cmp) cap a c) as [[h|] c1]; [|done].
  destruct Cr as (R & T & Es & Cap & Ec).
  destruct (heap_run_spec fuel ops h [] c1 R) as (rs & h' & l' & c2 & -> & Tr & R' & T');
    [by rewrite Ec|congruence|by rewrite Es|by rewrite zlen_nil, Z.add_0_l|].
  rewrite Ec in Tr. eexists _, _, _. split; [done|]. split; [done|].
  pose proof (destroy_spec a (as_vector h') l' c2 (proj1 (proj1 R'))) as D.
  change (zenit_vector_destroy (Some (as_vector h')) c2) with (zenit_heap_destroy (Some h') c2) in D.
  rewrite (transfer_empty a ∅ c); [set_solver|].
  eapply transfer_trans; [exact T|]. by eapply transfer_trans.
Qed.
End HeapTheorems.

(** ** Witness *)

Lemma heap_priority_queue_witness :
  match zenit_heap_create_with_capacity 1 (Some first_byte_compare) 2 empty_heap with
  | (None, c1) => h_live c1 = h_live empty_heap
  | (Some h, c1) => exists rs h' c2,
      heap_run 10 [PPush [3]; PPush [9]; PPush [5]; PPop; PBuild [[4]; [8]; [6]]; PPeek; PPop] h c1
        = Ret (rs, h', c2) /\
      pq_trace first_byte_compare []
        [PPush [3]; PPush [9]; PPush [5]; PPop; PBuild [[4]; [8]; [6]]; PPeek; PPop] rs /\
      h_live (zenit_heap_destroy (Some h') c2) = h_live empty_heap
  end.
Proof.
  refine (heap_priority_queue ZENIT_ALLOCATOR_DEFAULT 10 1 first_byte_compare 2
    [PPush [3]; PPush [9]; PPush [5]; PPop; PBuild [[4]; [8]; [6]]; PPeek; PPop] empty_heap
    _ _ _ _ _ _ _ _); try lia.
  - repeat constructor; unfold zlen; simpl; lia.
  - apply Nat.leb_le. reflexivity.
Defined.
