(* ===== verification/Sort.v ===== *)
(** * Sorting and searching ([src/sort.c])

    The array behind [base] is the list of its elements: [b + i * es] is element
    [i], a [memcpy] of [es] bytes moves one element, and an access outside the
    list is undefined.  [mergesort_impl] sorts stably with the help of a buffer;
    [quicksort] uses Hoare partitioning around the element the [pivot] pointer
    refers to, which changes when that place is swapped, as in the source; the
    binary searches return element indices for pointers.  [partition] may exchange an
    element with itself; the [memcpy] onto itself is taken to change nothing. *)

From Stdlib Require Import ZArith Lia.
From stdpp Require Import base tactics option list numbers sorting gmap sets.
From S2P Require Import Prelude Mem Result Allocator Compare.
Open Scope Z_scope.

Abbreviation elems := (list bytes).

(** [memcpy(dst + off * es, src, n * es)]. *)
Definition copy_elems (dst : elems) (off : Z) (src : elems) (n : Z) : outcome elems :=
  if decide (0 <= off /\ 0 <= n /\ off + n <= zlen dst /\ n <= zlen src)
  then Ret (take (Z.to_nat off) dst ++ take (Z.to_nat n) src ++ drop (Z.to_nat off + Z.to_nat n) dst)
  else Undef.

Section SortModel.
Context (compare : bytes -> bytes -> Z).

(** The first loop of [merge]. *)
Fixpoint merge_loop (fuel : nat) (b : elems) (mid hi i j k : Z) (buf : elems)
    : outcome (Z * Z * Z * elems) :=
  if decide (i < mid /\ j < hi) then
    match fuel with
    | O => NoFuel
    | S fuel =>
        let! x := aget b i in
        let! y := aget b j in
        if decide (compare x y <= 0) then
          let! buf' := aset buf k x in merge_loop fuel b mid hi (u64 (i + 1)) j (u64 (k + 1)) buf'
        else
          let! buf' := aset buf k y in merge_loop fuel b mid hi i (u64 (j + 1)) (u64 (k + 1)) buf'
    end
  else Ret (i, j, k, buf).

(** The two loops that copy what is left of one half. *)
Fixpoint copy_loop (fuel : nat) (b : elems) (stop i k : Z) (buf : elems) : outcome (Z * elems) :=
  if decide (i < stop) then
    match fuel with
    | O => NoFuel
    | S fuel =>
        let! x := aget b i in
        let! buf' := aset buf k x in
        copy_loop fuel b stop (u64 (i + 1)) (u64 (k + 1)) buf'
    end
  else Ret (k, buf).

Definition merge (fuel : nat) (b : elems) (lo mid hi : Z) (buf : elems) : outcome (elems * elems) :=
  let! (i, j, k, buf1) := merge_loop fuel b mid hi lo mid 0 buf in
  let! (k2, buf2) := copy_loop fuel b mid i k buf1 in
  let! (k3, buf3) := copy_loop fuel b hi j k2 buf2 in
  let! b' := copy_elems b lo buf3 k3 in
  Ret (b', buf3).

Fixpoint mergesort_impl (fuel : nat) (b : elems) (lo hi : Z) (buf : elems)
    : outcome (elems * elems) :=
  if decide (u64 (hi - lo) < 2) then Ret (b, buf)
  else
    match fuel with
    | O => NoFuel
    | S fuel =>
        let mid := u64 (lo + u64 (hi - lo) / 2) in
        let! (b1, buf1) := mergesort_impl fuel b lo mid buf in
        let! (b2, buf2) := mergesort_impl fuel b1 mid hi buf1 in
        merge (S (S fuel)) b2 lo mid hi buf2
    end.

(** The exchange of two elements. *)
Definition swap_elements (b : elems) (i j : Z) : outcome elems :=
  let! x := aget b i in
  let! y := aget b j in
  let! b1 := aset b i y in
  aset b1 j x.

(** [if (compare(b + i * es, b + j * es) > 0) swap_elements(...)] *)
Definition order_pair (b : elems) (i j : Z) : outcome elems :=
  let! x := aget b i in
  let! y := aget b j in
  if decide (0 < compare x y) then swap_elements b i j else Ret b.

Definition median_of_three (b : elems) (lo hi : Z) : outcome (Z * elems) :=
  let mid := u64 (lo + u64 (hi - lo) / 2) in
  let! b1 := order_pair b lo mid in
  let! b2 := order_pair b1 lo hi in
  let! b3 := order_pair b2 mid hi in
  Ret (mid, b3).

(** [do { i++; } while (compare(b + i * es, pivot) < 0)]; the pivot is the element
    at [lo] of the array as it is now. *)
Fixpoint scan_up (fuel : nat) (b : elems) (lo i : Z) : outcome Z :=
  match fuel with
  | O => NoFuel
  | S fuel =>
      let i := u64 (i + 1) in
      let! x := aget b i in
      let! pivot := aget b lo in
      if decide (compare x pivot < 0) then scan_up fuel b lo i else Ret i
  end.

Fixpoint scan_down (fuel : nat) (b : elems) (lo j : Z) : outcome Z :=
  match fuel with
  | O => NoFuel
  | S fuel =>
      let j := u64 (j - 1) in
      let! x := aget b j in
      let! pivot := aget b lo in
      if decide (0 < compare x pivot) then scan_down fuel b lo j else Ret j
  end.

Fixpoint partition_loop (fuel : nat) (b : elems) (lo i j : Z) : outcome (Z * elems) :=
  match fuel with
  | O => NoFuel
  | S fuel' =>
      let! i := scan_up fuel b lo i in
      let! j := scan_down fuel b lo j in
      if decide (j <= i) then Ret (j, b)
      else
        let! b1 := swap_elements b i j in
        partition_loop fuel' b1 lo i j
  end.

Definition partition (fuel : nat) (b : elems) (lo hi : Z) : outcome (Z * elems) :=
  let! (mid, b1) := median_of_three b lo hi in
  let! b2 := swap_elements b1 lo mid in
  partition_loop fuel b2 lo (u64 (lo - 1)) (u64 (hi + 1)).

Fixpoint quicksort (fuel : nat) (b : elems) (lo hi : Z) : outcome elems :=
  if decide (lo < hi) then
    match fuel with
    | O => NoFuel
    | S fuel =>
        let! (p, b1) := partition (S (S fuel)) b lo hi in
        if decide (u64 (p - lo) < u64 (hi - p)) then
          let! b2 := quicksort fuel b1 lo p in
          quicksort fuel b2 (u64 (p + 1)) hi
        else
          let! b2 := quicksort fuel b1 (u64 (p + 1)) hi in
          quicksort fuel b2 lo p
    end
  else Ret b.

(** The search loops: [lo] and [hi] close in on the result. *)
Fixpoint binary_loop (fuel : nat) (key : bytes) (b : elems) (lo hi : Z) : outcome (option Z) :=
  if decide (lo < hi) then
    match fuel with
    | O => NoFuel
    | S fuel =>
        let mid := u64 (lo + u64 (hi - lo) / 2) in
        let! x := aget b mid in
        let cmp := compare key x in
        if decide (cmp = 0) then Ret (Some mid)
        else if decide (cmp < 0) then binary_loop fuel key b lo mid
        else binary_loop fuel key b (u64 (mid + 1)) hi
    end
  else Ret None.

(** [zenit_lower_bound] goes left when [compare <= 0], [zenit_upper_bound] when
    [compare < 0]. *)
Fixpoint bound_loop (left : Z -> bool) (fuel : nat) (key : bytes) (b : elems) (lo hi : Z)
    : outcome Z :=
  if decide (lo < hi) then
    match fuel with
    | O => NoFuel
    | S fuel =>
        let mid := u64 (lo + u64 (hi - lo) / 2) in
        let! x := aget b mid in
        if left (compare key x) then bound_loop left fuel key b lo mid
        else bound_loop left fuel key b (u64 (mid + 1)) hi
    end
  else Ret lo.
End SortModel.

Definition zenit_sort_quick (fuel : nat) (base : option elems) (count elem_size : Z)
    (compare : option (bytes -> bytes -> Z)) : outcome (option elems) :=
  match base, compare with
  | Some b, Some cmp =>
      if decide (count < 2 \/ elem_size = 0) then Ret base
      else let! b' := quicksort cmp fuel b 0 (u64 (count - 1)) in Ret (Some b')
  | _, _ => Ret base
  end.

(** The buffer comes from [malloc]: its block, its bytes grouped into elements. *)
Definition zenit_sort_stable (fuel : nat) (base : option elems) (count elem_size : Z)
    (compare : option (bytes -> bytes -> Z)) (h : heap)
    : outcome (zenit_error_t * option elems * heap) :=
  match base, compare with
  | Some b, Some cmp =>
      if decide (count < 2 \/ elem_size = 0) then Ret (ZENIT_OK, base, h)
      else
        match malloc (u64 (count * elem_size)) h with
        | (None, h1) => Ret (ZENIT_ERROR_ALLOC, base, h1)
        | (Some blk, h1) =>
            let buf := slots_of (Z.to_nat elem_size) (Z.to_nat (zlen (b_data blk) / elem_size)) (b_data blk) in
            let! (b', _) := mergesort_impl cmp fuel b 0 count buf in
            Ret (ZENIT_OK, Some b', free (Some (b_addr blk)) h1)
        end
  | _, _ => Ret (ZENIT_OK, base, h)
  end.

Definition zenit_binary_search (fuel : nat) (key : option bytes) (base : option elems)
    (count elem_size : Z) (compare : option (bytes -> bytes -> Z)) : outcome (option Z) :=
  match key, base, compare with
  | Some k, Some b, Some cmp =>
      if decide (elem_size = 0) then Ret None else binary_loop cmp fuel k b 0 count
  | _, _, _ => Ret None
  end.

Definition zenit_lower_bound (fuel : nat) (key : option bytes) (base : option elems)
    (count elem_size : Z) (compare : option (bytes -> bytes -> Z)) : outcome (option Z) :=
  match key, base, compare with
  | Some k, Some b, Some cmp =>
      if decide (elem_size = 0) then Ret None
      else
        let! lo := bound_loop cmp (fun c => bool_decide (c <= 0)) fuel k b 0 count in
        Ret (if decide (lo < count) then Some lo else None)
  | _, _, _ => Ret None
  end.

Definition zenit_upper_bound (fuel : nat) (key : option bytes) (base : option elems)
    (count elem_size : Z) (compare : option (bytes -> bytes -> Z)) : outcome (option Z) :=
  match key, base, compare with
  | Some k, Some b, Some cmp =>
      if decide (elem_size = 0) then Ret None
      else
        let! lo := bound_loop cmp (fun c => bool_decide (c < 0)) fuel k b 0 count in
        Ret (if decide (lo < count) then Some lo else None)
  | _, _, _ => Ret None
  end.

(** ** Specification *)

(** Sorted: no element comes after a later one. *)
Definition sorted (cmp : bytes -> bytes -> Z) (l : elems) : Prop := StronglySorted (cle cmp) l.

(** The elements that compare equal to [z], in order. *)
Definition class_of (cmp : bytes -> bytes -> Z) (z : bytes) (l : elems) : elems :=
  filter (fun x => cmp z x = 0) l.

(** Elements that compare equal keep their order. *)
Definition stable (cmp : bytes -> bytes -> Z) (l l' : elems) : Prop :=
  forall z, class_of cmp z l' = class_of cmp z l.

(** The reference merge of two lists, taking from the left on ties. *)
Fixpoint pmerge (cmp : bytes -> bytes -> Z) (l1 : elems) : elems -> elems :=
  fix go (l2 : elems) : elems :=
    match l1, l2 with
    | [], _ => l2
    | _, [] => l1
    | x :: l1', y :: l2' => if decide (cmp x y <= 0) then x :: pmerge cmp l1' l2 else y :: go l2'
    end.

#[global] Arguments pmerge : simpl never.

(** [b] sorted between two indices. *)
Definition sorted_range (cmp : bytes -> bytes -> Z) (b : elems) (lo hi : Z) : Prop :=
  forall i j, lo <= i <= j -> j <= hi -> cle cmp (el b i) (el b j).

(** [b'] is [b] with the elements of [lo .. hi] rearranged among themselves. *)
Definition rearranged (b b' : elems) (lo hi : Z) : Prop :=
  zlen b' = zlen b /\ b' ≡ₚ b /\
  (forall k, 0 <= k -> k < lo \/ hi < k -> el b' k = el b k) /\
  (forall P : bytes -> Prop, (forall k, lo <= k <= hi -> P (el b k)) ->
     forall k, lo <= k <= hi -> P (el b' k)).

(** ** Element access *)

Lemma aget_middle (x1 y1 : elems) x i : i = zlen x1 -> aget (x1 ++ x :: y1) i = Ret x.
Proof.
  intros ->. apply aget_lookup; [apply zlen_nonneg|]. unfold zlen. rewrite Nat2Z.id.
  by apply list_lookup_middle.
Qed.

Lemma aget_middle_eq (b x1 y1 : elems) x i : b = x1 ++ x :: y1 -> i = zlen x1 -> aget b i = Ret x.
Proof. intros ->. apply aget_middle. Qed.

Lemma aset_middle (x1 y1 : elems) x y i :
  i = zlen x1 -> aset (x1 ++ x :: y1) i y = Ret ((x1 ++ [y]) ++ y1).
Proof.
  intros ->. rewrite aset_range by zl. unfold zlen. rewrite Nat2Z.id, insert_app_r_alt by lia.
  rewrite Nat.sub_diag. simpl. by rewrite <- app_assoc.
Qed.

(** ** Merge sort *)

Section Merge.
Context (cmp : bytes -> bytes -> Z) `{!Comparator cmp}.

Lemma pmerge_nil_r l : pmerge cmp l [] = l.
Proof. by destruct l. Qed.

Lemma pmerge_cons x l1 y l2 :
  pmerge cmp (x :: l1) (y :: l2) =
    if decide (cmp x y <= 0) then x :: pmerge cmp l1 (y :: l2) else y :: pmerge cmp (x :: l1) l2.
Proof. done. Qed.

Lemma merge_loop_spec fuel b mid hi y1 y2 : forall r1 r2 x1 x2 out rest,
  b = x1 ++ r1 ++ y1 -> mid = zlen x1 + zlen r1 -> b = x2 ++ r2 ++ y2 -> hi = zlen x2 + zlen r2 ->
  zlen r1 + zlen r2 <= zlen rest -> zlen b <= PTRDIFF_MAX -> zlen (out ++ rest) <= PTRDIFF_MAX ->
  (Z.to_nat (zlen r1 + zlen r2) <= fuel)%nat ->
  exists x1' r1' x2' r2' out' rest',
    merge_loop cmp fuel b mid hi (zlen x1) (zlen x2) (zlen out) (out ++ rest)
      = Ret (zlen x1', zlen x2', zlen out', out' ++ rest') /\
    b = x1' ++ r1' ++ y1 /\ mid = zlen x1' + zlen r1' /\
    b = x2' ++ r2' ++ y2 /\ hi = zlen x2' + zlen r2' /\
    zlen r1' + zlen r2' <= zlen rest' /\ zlen (out' ++ rest') = zlen (out ++ rest) /\
    zlen r1' <= zlen r1 /\ zlen r2' <= zlen r2 /\
    out' ++ r1' ++ r2' = out ++ pmerge cmp r1 r2.
Proof.
  induction fuel as [|fuel IH]; intros r1 r2 x1 x2 out rest E1 M1 E2 M2 Hr Hb Ho Hf;
    pose proof (zlen_nonneg x1); pose proof (zlen_nonneg x2);
    pose proof (zlen_nonneg r1); pose proof (zlen_nonneg r2); simpl.
  - assert (r1 = []) as -> by (apply zlen_0; lia). assert (r2 = []) as -> by (apply zlen_0; lia).
    rewrite zlen_nil in *. rewrite decide_False by lia.
    exists x1, [], x2, [], out, rest. rewrite zlen_nil. split_and!; try done; lia.
  - destruct r1 as [|u r1].
    { rewrite zlen_nil in *. rewrite decide_False by lia.
      exists x1, [], x2, r2, out, rest. rewrite zlen_nil. split_and!; try done; try lia. by destruct r2. }
    destruct r2 as [|v r2].
    { rewrite zlen_nil in *. rewrite decide_False by lia.
      exists x1, (u :: r1), x2, [], out, rest. rewrite zlen_nil. split_and!; try done; try lia.
      by rewrite pmerge_nil_r, app_nil_r. }
    rewrite !zlen_cons in *. pose proof (zlen_nonneg r1). pose proof (zlen_nonneg r2).
    rewrite decide_True by lia. simpl in E1, E2.
    rewrite (aget_middle_eq b x1 (r1 ++ y1) u), (aget_middle_eq b x2 (r2 ++ y2) v) by done. simpl.
    destruct rest as [|z rest]; [rewrite zlen_nil in Hr; lia|]. rewrite zlen_cons in Hr.
    pose proof (zlen_nonneg out). pose proof (zlen_nonneg rest).
    autorewrite with zlen in Ho. pose proof (f_equal zlen E1) as L1.
    pose proof (f_equal zlen E2) as L2. autorewrite with zlen in L1, L2.
    pose proof (zlen_nonneg y1). pose proof (zlen_nonneg y2).
    rewrite pmerge_cons. rewrite !u64_small by lia. case_decide as D.
    + rewrite (aset_middle out rest z u) by done. simpl.
      replace (zlen x1 + 1) with (zlen (x1 ++ [u])) by (autorewrite with zlen; lia).
      replace (zlen out + 1) with (zlen (out ++ [u])) by (autorewrite with zlen; lia).
      destruct (IH r1 (v :: r2) (x1 ++ [u]) x2 (out ++ [u]) rest)
        as (x1' & r1' & x2' & r2' & out' & rest' & Q); rewrite ?zlen_cons; try done;
        autorewrite with zlen; try lia.
      { by rewrite <- app_assoc. }
      autorewrite with zlen in Q.
      destruct Q as (-> & Q1 & Q2 & Q3 & Q4 & Q5 & Q6 & Q7 & Q8 & Q9).
      exists x1', r1', x2', r2', out', rest'. autorewrite with zlen in *.
      split_and!; try done; try lia. by rewrite Q9, <- app_assoc.
    + rewrite (aset_middle out rest z v) by done. simpl.
      replace (zlen x2 + 1) with (zlen (x2 ++ [v])) by (autorewrite with zlen; lia).
      replace (zlen out + 1) with (zlen (out ++ [v])) by (autorewrite with zlen; lia).
      destruct (IH (u :: r1) r2 x1 (x2 ++ [v]) (out ++ [v]) rest)
        as (x1' & r1' & x2' & r2' & out' & rest' & Q); rewrite ?zlen_cons; try done;
        autorewrite with zlen; try lia.
      { by rewrite <- app_assoc. }
      autorewrite with zlen in Q.
      destruct Q as (-> & Q1 & Q2 & Q3 & Q4 & Q5 & Q6 & Q7 & Q8 & Q9).
      exists x1', r1', x2', r2', out', rest'. autorewrite with zlen in *.
      split_and!; try done; try lia. by rewrite Q9, <- app_assoc.
Qed.

Lemma copy_loop_spec fuel b stop y : forall r x out rest,
  b = x ++ r ++ y -> stop = zlen x + zlen r -> zlen r <= zlen rest ->
  zlen b <= PTRDIFF_MAX -> zlen (out ++ rest) <= PTRDIFF_MAX -> (Z.to_nat (zlen r) <= fuel)%nat ->
  exists rest', copy_loop fuel b stop (zlen x) (zlen out) (out ++ rest)
      = Ret (zlen (out ++ r), (out ++ r) ++ rest') /\ zlen rest' = zlen rest - zlen r.
Proof.
  induction fuel as [|fuel IH]; intros r x out rest E M Hr Hb Ho Hf; pose proof (zlen_nonneg r); simpl.
  - assert (r = []) as -> by (apply zlen_0; lia). rewrite zlen_nil in *.
    rewrite decide_False by lia. exists rest. rewrite app_nil_r. split; [done|lia].
  - destruct r as [|u r].
    { rewrite zlen_nil in *. rewrite decide_False by lia. exists rest. rewrite app_nil_r. split; [done|lia]. }
    rewrite zlen_cons in *. pose proof (zlen_nonneg r). pose proof (zlen_nonneg out).
    pose proof (zlen_nonneg x). rewrite decide_True by lia. simpl in E.
    rewrite (aget_middle_eq b x (r ++ y) u) by done. simpl.
    destruct rest as [|z rest]; [rewrite zlen_nil in Hr; lia|]. rewrite zlen_cons in Hr.
    rewrite (aset_middle out rest z u) by done. simpl.
    pose proof (f_equal zlen E) as L. autorewrite with zlen in L, Ho.
    pose proof (zlen_nonneg y). pose proof (zlen_nonneg rest). rewrite !u64_small by lia.
    replace (zlen x + 1) with (zlen (x ++ [u])) by (autorewrite with zlen; lia).
    replace (zlen out + 1) with (zlen (out ++ [u])) by (autorewrite with zlen; lia).
    destruct (IH r (x ++ [u]) (out ++ [u]) rest) as (rest' & -> & L'); try lia.
    { by rewrite <- app_assoc. } { autorewrite with zlen. lia. } { autorewrite with zlen. lia. }
    exists rest'. rewrite <- (app_assoc out [u] r). split; [done|]. rewrite zlen_cons. lia.
Qed.

Lemma zlen_pmerge l1 l2 : zlen (pmerge cmp l1 l2) = zlen l1 + zlen l2.
Proof.
  revert l2. induction l1 as [|x l1 IH1]; intros l2; [by destruct l2|].
  induction l2 as [|y l2 IH2]; [rewrite pmerge_nil_r, zlen_nil; lia|].
  rewrite pmerge_cons. case_decide; rewrite zlen_cons.
  - rewrite IH1, !zlen_cons. lia.
  - rewrite IH2, !zlen_cons. lia.
Qed.

Lemma merge_spec fuel pre l1 l2 post buf lo mid hi :
  lo = zlen pre -> mid = zlen pre + zlen l1 -> hi = zlen pre + zlen l1 + zlen l2 ->
  zlen l1 + zlen l2 <= zlen buf -> zlen (pre ++ l1 ++ l2 ++ post) <= PTRDIFF_MAX ->
  zlen buf <= PTRDIFF_MAX -> (Z.to_nat (zlen l1 + zlen l2) <= fuel)%nat ->
  exists buf', merge cmp fuel (pre ++ l1 ++ l2 ++ post) lo mid hi buf
      = Ret (pre ++ pmerge cmp l1 l2 ++ post, buf') /\ zlen buf' = zlen buf.
Proof.
  intros -> -> -> Hbuf Hb Hm Hf. unfold merge. set (b := pre ++ l1 ++ l2 ++ post) in *.
  destruct (merge_loop_spec fuel b (zlen pre + zlen l1) (zlen pre + zlen l1 + zlen l2)
    (l2 ++ post) post l1 l2 pre (pre ++ l1) [] buf)
    as (x1 & r1 & x2 & r2 & out & rest & Q); try done; autorewrite with zlen; try lia.
  { by rewrite <- app_assoc. }
  destruct Q as (Q0 & Q1 & Q2 & Q3 & Q4 & Q5 & Q6 & Q7 & Q8 & Q9).
  rewrite zlen_app in Q0. change (zlen (@nil bytes)) with 0 in Q0. simpl in Q0, Q6, Q9.
  rewrite Q0. simpl.
  pose proof (zlen_nonneg r1). pose proof (zlen_nonneg r2).
  destruct (copy_loop_spec fuel b (zlen pre + zlen l1) (l2 ++ post) r1 x1 out rest)
    as (rest1 & -> & L1); try done; try lia. simpl.
  destruct (copy_loop_spec fuel b (zlen pre + zlen l1 + zlen l2) post r2 x2 (out ++ r1) rest1)
    as (rest2 & -> & L2); try done; try lia.
  { rewrite <- Q6 in Hm. autorewrite with zlen in *. lia. }
  simpl. rewrite <- (app_assoc out r1 r2), Q9. set (m := pmerge cmp l1 l2).
  assert (zlen m = zlen l1 + zlen l2) as Lm by apply zlen_pmerge.
  unfold copy_elems. subst b. pose proof (zlen_nonneg pre). pose proof (zlen_nonneg post).
  pose proof (zlen_nonneg rest2). pose proof (zlen_nonneg l1). pose proof (zlen_nonneg l2).
  rewrite decide_True by (autorewrite with zlen; lia). simpl.
  eexists. split; [f_equal; f_equal|].
  - unfold zlen at 1. rewrite Nat2Z.id, take_app_length. f_equal.
    unfold zlen at 1. rewrite Nat2Z.id, take_app_length. f_equal.
    replace (Z.to_nat (zlen pre) + Z.to_nat (zlen m))%nat with (length (pre ++ l1 ++ l2))
      by (rewrite !length_app; unfold zlen in *; lia).
    replace (pre ++ l1 ++ l2 ++ post) with ((pre ++ l1 ++ l2) ++ post) by (by rewrite <- !app_assoc).
    apply drop_app_length.
  - apply (f_equal zlen) in Q9. fold m in Q9. autorewrite with zlen in *. lia.
Qed.

Lemma filter_none (P : bytes -> Prop) `{!forall x, Decision (P x)} l :
  Forall (fun x => ~ P x) l -> filter P l = [].
Proof. induction 1; [done|]. by rewrite filter_cons_False. Qed.

(** Merging sorted lists: sorted, a permutation, and stable. *)
Lemma pmerge_perm l1 l2 : pmerge cmp l1 l2 ≡ₚ l1 ++ l2.
Proof.
  revert l2. induction l1 as [|x l1 IH1]; intros l2; [by destruct l2|].
  induction l2 as [|y l2 IH2]; [by rewrite pmerge_nil_r, app_nil_r|].
  rewrite pmerge_cons. case_decide.
  - by rewrite IH1.
  - rewrite IH2. by rewrite <- Permutation_middle.
Qed.

Lemma pmerge_sorted l1 l2 : sorted cmp l1 -> sorted cmp l2 -> sorted cmp (pmerge cmp l1 l2).
Proof.
  intros H1. revert l2. induction H1 as [|x l1 H1 IH1 F1]; intros l2 H2; [by destruct l2|].
  induction H2 as [|y l2 H2 IH2 F2]; [rewrite pmerge_nil_r; by constructor|].
  rewrite pmerge_cons. case_decide as D.
  - constructor; [apply IH1; by constructor|]. rewrite pmerge_perm. apply Forall_app.
    split; [done|]. constructor; [done|]. eapply Forall_impl; [exact F2|].
    intros z Hz. by etransitivity.
  - assert (cle cmp y x) as Hyx by (by apply cle_not). constructor; [done|].
    rewrite pmerge_perm. apply Forall_app. split; [|done]. constructor; [done|].
    eapply Forall_impl; [exact F1|]. intros z Hz. by etransitivity.
Qed.

Lemma pmerge_class z l1 l2 :
  sorted cmp l1 -> class_of cmp z (pmerge cmp l1 l2) = class_of cmp z l1 ++ class_of cmp z l2.
Proof.
  intros H1. revert l2. induction H1 as [|x l1 H1 IH1 F1]; intros l2; [by destruct l2|].
  induction l2 as [|y l2 IH2]; [by rewrite pmerge_nil_r, app_nil_r|].
  rewrite pmerge_cons. unfold class_of in *. case_decide as D.
  - rewrite !filter_cons. case_decide; [simpl; f_equal|]; rewrite IH1; by rewrite filter_cons.
  - rewrite (filter_cons _ y), (filter_cons _ y). rewrite IH2. case_decide as Dy; [|done].
    assert (filter (fun x0 => cmp z x0 = 0) (x :: l1) = []) as ->; [|done].
    apply filter_none. assert (Forall (fun u => cle cmp x u) (x :: l1)) as F
      by (constructor; [by apply cle_refl|done]).
    eapply Forall_impl; [exact F|]. intros u Hu Hz. apply D.
    assert (cle cmp u z) by (unfold cle; pose proof (cmp_eq_flip cmp z u Hz); lia).
    assert (cle cmp z y) by (unfold cle; lia).
    change (cle cmp x y). by do 2 (etransitivity; [eassumption|]).
Qed.

Lemma stable_trans l1 l2 l3 : stable cmp l1 l2 -> stable cmp l2 l3 -> stable cmp l1 l3.
Proof. intros H1 H2 z. by rewrite H2. Qed.

Lemma mergesort_spec fuel : forall pre l post buf lo hi,
  lo = zlen pre -> hi = zlen pre + zlen l -> zlen l <= zlen buf ->
  zlen (pre ++ l ++ post) <= PTRDIFF_MAX -> zlen buf <= PTRDIFF_MAX ->
  (Z.to_nat (zlen l) <= fuel)%nat ->
  exists l' buf', mergesort_impl cmp fuel (pre ++ l ++ post) lo hi buf
      = Ret (pre ++ l' ++ post, buf') /\ zlen buf' = zlen buf /\
    sorted cmp l' /\ l' ≡ₚ l /\ stable cmp l l'.
Proof.
  induction fuel as [|fuel IH]; intros pre l post buf lo hi -> -> Hl Hb Hm Hf;
    pose proof (zlen_nonneg l) as Hl0; pose proof (zlen_nonneg pre) as Hp0;
    pose proof (zlen_nonneg post) as Hq0; autorewrite with zlen in Hb; simpl;
    replace (zlen pre + zlen l - zlen pre) with (zlen l) by lia; rewrite !(u64_small (zlen l)) by lia.
  { rewrite decide_True by lia. exists l, buf. assert (l = []) as -> by (apply zlen_0; lia).
    do 2 (split; [done|]). split; [constructor|done]. }
  case_decide as D.
  { exists l, buf. do 2 (split; [done|]). split; [|done].
    destruct l as [|x [|y l]]; [constructor|by repeat constructor|].
    rewrite !zlen_cons in D. pose proof (zlen_nonneg l). lia. }
  set (n1 := zlen l / 2).
  assert (1 <= n1 /\ 2 * n1 <= zlen l) as [N1 N2]
    by (unfold n1; pose proof (Z.mul_div_le (zlen l) 2); split; [apply Z.div_le_lower_bound; lia|lia]).
  destruct (list_split_at l n1) as (l1 & l2 & -> & E1); [lia|]. autorewrite with zlen in *.
  rewrite u64_small by lia. rewrite <- (app_assoc l1).
  destruct (IH pre l1 (l2 ++ post) buf (zlen pre) (zlen pre + n1))
    as (l1' & buf1 & -> & B1 & S1 & P1 & T1); autorewrite with zlen; try done; try lia. simpl.
  assert (zlen l1' = zlen l1) as L1 by (unfold zlen; by rewrite P1).
  rewrite (app_assoc pre).
  destruct (IH (pre ++ l1') l2 post buf1 (zlen pre + n1) (zlen pre + (zlen l1 + zlen l2)))
    as (l2' & buf2 & -> & B2 & S2 & P2 & T2); autorewrite with zlen; try done; try lia. simpl.
  assert (zlen l2' = zlen l2) as L2 by (unfold zlen; by rewrite P2).
  rewrite <- (app_assoc pre).
  destruct (merge_spec (S (S fuel)) pre l1' l2' post buf2 (zlen pre) (zlen pre + n1)
    (zlen pre + (zlen l1 + zlen l2))) as (buf3 & E & B3); autorewrite with zlen; try lia.
  exists (pmerge cmp l1' l2'), buf3. split; [done|]. split; [lia|].
  split; [by apply pmerge_sorted|]. split; [by rewrite pmerge_perm, P1, P2|].
  intros z. rewrite pmerge_class by done. rewrite T1, T2. unfold class_of. by rewrite filter_app.
Qed.
End Merge.

(** ** Quicksort *)

Section Rearranged.
Implicit Types b : elems.

Lemma aget_el b i : 0 <= i < zlen b -> aget b i = Ret (el b i).
Proof. intros Hi. apply aget_lookup; [lia|]. by apply el_lookup. Qed.

Lemma rearranged_refl b lo hi : rearranged b b lo hi.
Proof. split_and!; auto. Qed.

Lemma rearranged_trans b1 b2 b3 lo hi :
  rearranged b1 b2 lo hi -> rearranged b2 b3 lo hi -> rearranged b1 b3 lo hi.
Proof.
  intros (L1 & P1 & F1 & Q1) (L2 & P2 & F2 & Q2). split_and!.
  - by rewrite L2.
  - by rewrite P2.
  - intros k Hk Ho. rewrite F2, F1; auto.
  - intros P HP. apply Q2, Q1, HP.
Qed.

Lemma rearranged_widen b b' lo hi lo' hi' :
  0 <= lo' <= lo -> hi <= hi' -> rearranged b b' lo hi -> rearranged b b' lo' hi'.
Proof.
  intros Hlo Hhi (L & P & F & Q). split_and!; try done.
  - intros k Hk Ho. apply F; lia.
  - intros X HX k Hk. destruct (decide (lo <= k <= hi)) as [Hin|Hout].
    + apply (Q X); [|done]. intros k' Hk'. apply HX. lia.
    + rewrite F by lia. by apply HX.
Qed.

Lemma rearranged_swap b i j lo hi :
  0 <= lo -> hi < zlen b -> lo <= i <= hi -> lo <= j <= hi -> rearranged b (swapped b i j) lo hi.
Proof.
  intros Hlo Hhi Hi Hj. split_and!.
  - apply zlen_swapped.
  - apply swapped_perm; lia.
  - intros k Hk Ho. rewrite el_swapped by lia. by rewrite !decide_False by lia.
  - intros P HP k Hk. rewrite el_swapped by lia. repeat case_decide; apply HP; lia.
Qed.

Lemma swap_elements_spec b i j :
  0 <= i < zlen b -> 0 <= j < zlen b -> swap_elements b i j = Ret (swapped b i j).
Proof.
  intros Hi Hj. unfold swap_elements. rewrite !aget_el by done. simpl.
  rewrite aset_range by done. simpl. rewrite aset_range by (rewrite zlen_insert; done). done.
Qed.
End Rearranged.

Section Quick.
Context (cmp : bytes -> bytes -> Z) `{!Comparator cmp}.
Implicit Types b : elems.

Lemma order_pair_spec b i j lo hi :
  0 <= lo -> hi < zlen b -> lo <= i <= hi -> lo <= j <= hi ->
  exists b', order_pair cmp b i j = Ret b' /\ rearranged b b' lo hi.
Proof.
  intros Hlo Hhi Hi Hj. unfold order_pair. rewrite !aget_el by lia. simpl. case_decide.
  - rewrite swap_elements_spec by lia. eexists. split; [done|]. by apply rearranged_swap.
  - eexists. split; [done|]. apply rearranged_refl.
Qed.

Lemma median_spec b lo hi :
  0 <= lo < hi -> hi < zlen b -> zlen b <= PTRDIFF_MAX ->
  exists mid b', median_of_three cmp b lo hi = Ret (mid, b') /\ lo <= mid <= hi /\
    rearranged b b' lo hi.
Proof.
  intros Hlo Hhi Hb. unfold median_of_three. rewrite (u64_small (hi - lo)) by lia.
  assert (0 <= (hi - lo) / 2 <= hi - lo) as Hm
    by (split; [apply Z.div_pos; lia|apply Z.div_le_upper_bound; lia]).
  rewrite u64_small by lia. set (mid := lo + (hi - lo) / 2).
  destruct (order_pair_spec b lo mid lo hi) as (b1 & -> & R1); try lia. simpl.
  destruct (order_pair_spec b1 lo hi lo hi) as (b2 & -> & R2); try lia. { destruct R1; lia. } simpl.
  destruct (order_pair_spec b2 mid hi lo hi) as (b3 & -> & R3); try lia.
  { destruct R1, R2; lia. } simpl.
  exists mid, b3. split; [done|]. split; [lia|]. eauto using rearranged_trans.
Qed.

Lemma scan_up_spec fuel : forall b lo i s,
  0 <= lo < zlen b -> -1 <= i < s -> s < zlen b -> zlen b <= PTRDIFF_MAX ->
  cle cmp (el b lo) (el b s) -> (Z.to_nat (s - i) <= fuel)%nat ->
  exists i', scan_up cmp fuel b lo (u64 i) = Ret i' /\ i < i' <= s /\
    (forall k, i < k < i' -> cle cmp (el b k) (el b lo)) /\ cle cmp (el b lo) (el b i').
Proof.
  induction fuel as [|fuel IH]; intros b lo i s Hlo Hi Hs Hb Hc Hf; [lia|]. cbn [scan_up].
  replace (u64 (u64 i + 1)) with (i + 1).
  2:{ unfold u64. rewrite Zplus_mod_idemp_l. by rewrite Z.mod_small by lia. }
  rewrite !aget_el by lia. cbn [obind]. case_decide as D.
  - destruct (decide (i + 1 = s)) as [Heq|Hne].
    { exfalso. rewrite Heq in D. unfold cle in Hc. pose proof (cmp_flip (el b lo) (el b s)). lia. }
    destruct (IH b lo (i + 1) s) as (i' & E & Hi' & Hk & He); try lia; [done|].
    rewrite u64_small in E by lia. rewrite E.
    exists i'. split; [done|]. split; [lia|]. split; [|done]. intros k Hk'.
    destruct (decide (k = i + 1)) as [->|]; [unfold cle; lia|]. apply Hk. lia.
  - exists (i + 1). split; [done|]. split; [lia|]. split; [intros; lia|].
    unfold cle. pose proof (cmp_flip (el b lo) (el b (i + 1))). lia.
Qed.

Lemma scan_down_spec fuel : forall b lo j s,
  0 <= lo < zlen b -> 0 <= s < j -> j <= zlen b -> zlen b <= PTRDIFF_MAX ->
  cle cmp (el b s) (el b lo) -> (Z.to_nat (j - s) <= fuel)%nat ->
  exists j', scan_down cmp fuel b lo j = Ret j' /\ s <= j' < j /\
    (forall k, j' < k < j -> cle cmp (el b lo) (el b k)) /\ cle cmp (el b j') (el b lo).
Proof.
  induction fuel as [|fuel IH]; intros b lo j s Hlo Hj Hs Hb Hc Hf; [lia|]. cbn [scan_down].
  rewrite u64_small by lia. rewrite !aget_el by lia. cbn [obind]. case_decide as D.
  - destruct (decide (j - 1 = s)) as [Heq|Hne]; [rewrite Heq in D; unfold cle in Hc; lia|].
    destruct (IH b lo (j - 1) s) as (j' & -> & Hj' & Hk & He); try lia; [done|].
    exists j'. split; [done|]. split; [lia|]. split; [|done]. intros k Hk'.
    destruct (decide (k = j - 1)) as [->|]; [|apply Hk; lia].
    unfold cle. pose proof (cmp_flip (el b (j - 1)) (el b lo)). lia.
  - exists (j - 1). split; [done|]. split; [lia|]. split; [intros; lia|]. unfold cle. lia.
Qed.

(** [lo .. hi] split at [p]: nothing up to [p] is above [q], nothing after it below. *)
Definition split_at (b : elems) (lo p hi : Z) (q : bytes) : Prop :=
  (forall k, lo <= k <= p -> cle cmp (el b k) q) /\ (forall k, p < k <= hi -> cle cmp q (el b k)).

(** The loop once [i] has stopped inside the array: the pivot does not move any more. *)
Lemma partition_loop_spec fuel : forall b lo hi i j,
  0 <= lo <= i -> i < j <= hi -> hi < zlen b -> zlen b <= PTRDIFF_MAX ->
  (forall k, lo <= k <= i -> cle cmp (el b k) (el b lo)) ->
  (forall k, j <= k <= hi -> cle cmp (el b lo) (el b k)) ->
  (Z.to_nat (j - i) <= fuel)%nat ->
  exists p b' q, partition_loop cmp fuel b lo i j = Ret (p, b') /\ lo <= p < hi /\
    rearranged b b' lo hi /\ split_at b' lo p hi q.
Proof.
  induction fuel as [|fuel IH]; intros b lo hi i j Hlo Hij Hhi Hb Hl Hr Hf; [lia|].
  cbn [partition_loop].
  destruct (scan_up_spec (S fuel) b lo i j) as (i' & E1 & I1 & I2 & I3); try lia; [apply Hr; lia|].
  rewrite u64_small in E1 by lia. rewrite E1. cbn [obind].
  destruct (scan_down_spec (S fuel) b lo j i) as (j' & -> & J1 & J2 & J3); try lia; [apply Hl; lia|].
  cbn [obind]. case_decide as D.
  - exists j', b, (el b lo). split; [done|]. split; [lia|]. split; [apply rearranged_refl|]. split.
    + intros k Hk. destruct (decide (k <= i)); [apply Hl; lia|].
      destruct (decide (k = j')) as [->|]; [done|]. apply I2. lia.
    + intros k Hk. destruct (decide (k < j)); [apply J2; lia|]. apply Hr. lia.
  - rewrite swap_elements_spec by lia. cbn [obind].
    assert (el (swapped b i' j') lo = el b lo) as Elo
      by (rewrite el_swapped by lia; by rewrite !decide_False by lia).
    destruct (IH (swapped b i' j') lo hi i' j') as (p & b' & q & -> & Hp & R & Q);
      rewrite ?zlen_swapped, ?Elo; try lia.
    + intros k Hk. rewrite el_swapped by lia. rewrite decide_False by lia. case_decide; [done|].
      destruct (decide (k <= i)); [apply Hl; lia|]. apply I2. lia.
    + intros k Hk. rewrite el_swapped by lia. case_decide; [done|]. rewrite decide_False by lia.
      destruct (decide (k < j)); [apply J2; lia|]. apply Hr. lia.
    + exists p, b', q. split; [done|]. split; [done|]. split; [|done].
      eapply rearranged_trans; [|exact R]. apply rearranged_swap; lia.
Qed.

Lemma partition_spec fuel b lo hi :
  0 <= lo < hi -> hi < zlen b -> zlen b <= PTRDIFF_MAX -> (Z.to_nat (hi - lo + 1) <= fuel)%nat ->
  exists p b' q, partition cmp fuel b lo hi = Ret (p, b') /\ lo <= p < hi /\
    rearranged b b' lo hi /\ split_at b' lo p hi q.
Proof.
  intros Hlo Hhi Hb Hf. unfold partition.
  destruct (median_spec b lo hi) as (mid & b1 & -> & Hm & R1); try lia. cbn [obind].
  assert (zlen b1 = zlen b) as L1 by apply R1.
  rewrite swap_elements_spec by lia. cbn [obind]. set (b2 := swapped b1 lo mid).
  assert (rearranged b b2 lo hi) as R2
    by (eapply rearranged_trans; [exact R1|]; apply rearranged_swap; lia).
  assert (zlen b2 = zlen b) as L2 by apply R2. clearbody b2.
  destruct fuel as [|fuel]; [lia|]. cbn [partition_loop].
  destruct (scan_up_spec (S fuel) b2 lo (lo - 1) lo) as (i & -> & I1 & I2 & I3); try lia; [done|].
  cbn [obind]. assert (i = lo) as -> by lia. rewrite (u64_small (hi + 1)) by lia.
  destruct (scan_down_spec (S fuel) b2 lo (hi + 1) lo) as (j & -> & J1 & J2 & J3); try lia; [done|].
  cbn [obind]. case_decide as D.
  - assert (j = lo) as -> by lia. exists lo, b2, (el b2 lo). split; [done|]. split; [lia|].
    split; [done|]. split.
    + intros k Hk. replace k with lo by lia. done.
    + intros k Hk. apply J2. lia.
  - rewrite swap_elements_spec by lia. cbn [obind].
    assert (el (swapped b2 lo j) lo = el b2 j) as Elo
      by (rewrite el_swapped by lia; rewrite decide_False, decide_True by lia; done).
    destruct (partition_loop_spec fuel (swapped b2 lo j) lo hi lo j) as (p & b' & q & -> & Hp & R & Q);
      rewrite ?zlen_swapped, ?Elo; try lia.
    + intros k Hk. replace k with lo by lia. by rewrite Elo.
    + intros k Hk. rewrite el_swapped by lia. case_decide; [done|]. rewrite decide_False by lia.
      etransitivity; [exact J3|]. apply J2. lia.
    + exists p, b', q. split; [done|]. split; [done|]. split; [|done].
      eapply rearranged_trans; [exact R2|]. eapply rearranged_trans; [|exact R].
      apply rearranged_swap; lia.
Qed.

Lemma sorted_range_frame b b' lo hi lo' hi' :
  0 <= lo -> hi < lo' \/ hi' < lo -> rearranged b b' lo' hi' ->
  sorted_range cmp b lo hi -> sorted_range cmp b' lo hi.
Proof.
  intros Hlo Hd (_ & _ & F & _) Hs i j Hi Hj. rewrite (F i), (F j) by lia. by apply Hs.
Qed.

Lemma split_at_frame b b' lo p hi q lo' hi' :
  0 <= lo <= lo' -> lo <= p -> hi' <= hi -> hi' <= p \/ p < lo' -> rearranged b b' lo' hi' ->
  split_at b lo p hi q -> split_at b' lo p hi q.
Proof.
  intros Hlo Hp Hhi Hd R [Hl Hr]. destruct R as (_ & _ & F & Q). split; intros k Hk.
  - destruct (decide (lo' <= k <= hi')) as [Hin|]; [|rewrite F by lia; by apply Hl].
    apply (Q (fun x => cle cmp x q)); [|done]. intros k' Hk'. apply Hl. lia.
  - destruct (decide (lo' <= k <= hi')) as [Hin|]; [|rewrite F by lia; by apply Hr].
    apply (Q (fun x => cle cmp q x)); [|done]. intros k' Hk'. apply Hr. lia.
Qed.

Lemma sorted_range_join b lo p hi q :
  split_at b lo p hi q -> sorted_range cmp b lo p -> sorted_range cmp b (p + 1) hi ->
  sorted_range cmp b lo hi.
Proof.
  intros [Hl Hr] S1 S2 i j Hi Hj. destruct (decide (j <= p)); [apply S1; lia|].
  destruct (decide (p < i)); [apply S2; lia|]. etransitivity; [apply Hl|apply Hr]; lia.
Qed.

Lemma quicksort_spec fuel : forall b lo hi,
  0 <= lo -> 0 <= hi < zlen b -> zlen b <= PTRDIFF_MAX -> (Z.to_nat (hi - lo) <= fuel)%nat ->
  exists b', quicksort cmp fuel b lo hi = Ret b' /\ rearranged b b' lo hi /\ sorted_range cmp b' lo hi.
Proof.
  induction fuel as [|fuel IH]; intros b lo hi Hlo Hhi Hb Hf; cbn [quicksort]; case_decide as D;
    try lia; try (exists b; split; [done|]; split; [apply rearranged_refl|];
      intros i j Hi Hj; assert (i = j) as -> by lia; done).
  destruct (partition_spec (S (S fuel)) b lo hi) as (p & b1 & q & -> & Hp & R1 & Q1); try lia.
  cbn [obind]. assert (zlen b1 = zlen b) as L1 by apply R1.
  rewrite (u64_small (p + 1)) by lia. case_decide.
  - destruct (IH b1 lo p) as (b2 & -> & R2 & S2); try lia. cbn [obind].
    assert (zlen b2 = zlen b) as L2 by (rewrite <- L1; apply R2).
    destruct (IH b2 (p + 1) hi) as (b3 & -> & R3 & S3); try lia.
    exists b3. split; [done|]. split.
    + eapply rearranged_trans; [exact R1|].
      eapply rearranged_trans;
        [eapply rearranged_widen; [| |exact R2]|eapply rearranged_widen; [| |exact R3]]; lia.
    + eapply sorted_range_join; [|eapply sorted_range_frame; [| |exact R3|exact S2]; lia|exact S3].
      eapply split_at_frame; [| | | |exact R3|]; try lia.
      eapply split_at_frame; [| | | |exact R2|exact Q1]; lia.
  - destruct (IH b1 (p + 1) hi) as (b2 & -> & R2 & S2); try lia. cbn [obind].
    assert (zlen b2 = zlen b) as L2 by (rewrite <- L1; apply R2).
    destruct (IH b2 lo p) as (b3 & -> & R3 & S3); try lia.
    exists b3. split; [done|]. split.
    + eapply rearranged_trans; [exact R1|].
      eapply rearranged_trans;
        [eapply rearranged_widen; [| |exact R2]|eapply rearranged_widen; [| |exact R3]]; lia.
    + eapply sorted_range_join; [|exact S3|eapply sorted_range_frame; [| |exact R3|exact S2]; lia].
      eapply split_at_frame; [| | | |exact R3|]; try lia.
      eapply split_at_frame; [| | | |exact R2|exact Q1]; lia.
Qed.

(** The two ways to say that an array is sorted. *)
Lemma sorted_of_range l : sorted_range cmp l 0 (zlen l - 1) -> sorted cmp l.
Proof.
  induction l as [|x l IH]; intros Hs; [constructor|]. rewrite zlen_cons in Hs. constructor.
  - apply IH. intros i j Hi Hj. specialize (Hs (i + 1) (j + 1)). unfold el in *.
    replace (Z.to_nat (i + 1)) with (S (Z.to_nat i)) in Hs by lia.
    replace (Z.to_nat (j + 1)) with (S (Z.to_nat j)) in Hs by lia. apply Hs; lia.
  - apply Forall_lookup. intros k y Hk. apply lookup_lt_Some in Hk as Hlt.
    specialize (Hs 0 (Z.of_nat (S k))). unfold el in Hs. rewrite Nat2Z.id in Hs. simpl in Hs.
    rewrite Hk in Hs. apply Hs; unfold zlen; lia.
Qed.

Lemma sorted_lookup l : sorted cmp l -> sorted_range cmp l 0 (zlen l - 1).
Proof.
  induction 1 as [|x l _ IH F]; intros i j Hi Hj; [rewrite zlen_nil in Hj; lia|].
  rewrite zlen_cons in Hj. destruct (decide (j = 0)) as [->|].
  { assert (i = 0) as -> by lia. done. }
  assert (el (x :: l) j = el l (j - 1)) as ->
    by (unfold el; by replace (Z.to_nat j) with (S (Z.to_nat (j - 1))) by lia).
  destruct (decide (i = 0)) as [->|].
  - rewrite Forall_lookup in F. apply (F (Z.to_nat (j - 1))). apply el_lookup. lia.
  - assert (el (x :: l) i = el l (i - 1)) as ->
      by (unfold el; by replace (Z.to_nat i) with (S (Z.to_nat (i - 1))) by lia).
    apply IH; lia.
Qed.
End Quick.

(** ** Searching *)

Section Search.
Context (cmp : bytes -> bytes -> Z) `{!Comparator cmp}.
Implicit Types b : elems.

Lemma midpoint lo hi :
  0 <= lo < hi -> hi <= PTRDIFF_MAX ->
  exists mid, u64 (lo + u64 (hi - lo) / 2) = mid /\ lo <= mid < hi.
Proof.
  intros Hlo Hhi. rewrite (u64_small (hi - lo)) by lia.
  assert (0 <= (hi - lo) / 2 < hi - lo) by (split; [apply Z.div_pos|apply Z.div_lt_upper_bound]; lia).
  eexists. rewrite u64_small by lia. split; [done|lia].
Qed.

(** The elements [left] accepts form a suffix; the loop finds where it starts. *)
Lemma bound_loop_spec (left : Z -> bool) key b :
  zlen b <= PTRDIFF_MAX ->
  (forall i j, 0 <= i <= j -> j < zlen b -> left (cmp key (el b i)) = true ->
     left (cmp key (el b j)) = true) ->
  forall fuel lo hi, 0 <= lo <= hi -> hi <= zlen b -> (Z.to_nat (hi - lo) <= fuel)%nat ->
    (forall k, 0 <= k < lo -> left (cmp key (el b k)) = false) ->
    (forall k, hi <= k < zlen b -> left (cmp key (el b k)) = true) ->
    exists p, bound_loop cmp left fuel key b lo hi = Ret p /\ 0 <= p <= zlen b /\
      (forall k, 0 <= k < p -> left (cmp key (el b k)) = false) /\
      (forall k, p <= k < zlen b -> left (cmp key (el b k)) = true).
Proof.
  intros Hb Hmono. induction fuel as [|fuel IH]; intros lo hi Hlo Hhi Hf Hl Hr; cbn [bound_loop];
    case_decide as D; try lia;
    try (exists lo; split; [done|]; split; [lia|]; split; [done|]; intros k Hk; apply Hr; lia).
  destruct (midpoint lo hi) as (mid & -> & Hm); try lia. rewrite aget_el by lia. cbn [obind].
  destruct (left (cmp key (el b mid))) eqn:E.
  - apply IH; try lia; [done|]. intros k Hk. apply (Hmono mid); [lia|lia|done].
  - rewrite u64_small by lia. apply IH; try lia; [|done]. intros k Hk.
    destruct (left (cmp key (el b k))) eqn:E'; [|done].
    rewrite <- E. symmetry. apply (Hmono k); [lia|lia|done].
Qed.

Lemma le_mono key b : sorted cmp b -> forall i j, 0 <= i <= j -> j < zlen b ->
  bool_decide (cmp key (el b i) <= 0) = true -> bool_decide (cmp key (el b j) <= 0) = true.
Proof.
  intros Hs i j Hi Hj. rewrite !bool_decide_eq_true. intros Hk. change (cle cmp key (el b j)).
  etransitivity; [exact Hk|]. apply (sorted_lookup cmp b Hs); lia.
Qed.

Lemma lt_mono key b : sorted cmp b -> forall i j, 0 <= i <= j -> j < zlen b ->
  bool_decide (cmp key (el b i) < 0) = true -> bool_decide (cmp key (el b j) < 0) = true.
Proof.
  intros Hs i j Hi Hj. rewrite !bool_decide_eq_true. intros Hk.
  destruct (decide (cmp key (el b j) < 0)) as [|Hn]; [done|]. exfalso.
  assert (cle cmp (el b i) (el b j)) as Hij by (apply (sorted_lookup cmp b Hs); lia).
  pose proof (cmp_flip (el b i) key) as F1. pose proof (cmp_flip (el b j) key) as F2.
  assert (cle cmp (el b j) key) as Hjk by (unfold cle; lia).
  assert (cle cmp (el b i) key) as Hik by (by etransitivity). unfold cle in Hik. lia.
Qed.

Lemma binary_loop_spec key b :
  zlen b <= PTRDIFF_MAX -> sorted cmp b ->
  forall fuel lo hi, 0 <= lo <= hi -> hi <= zlen b -> (Z.to_nat (hi - lo) <= fuel)%nat ->
    (forall k, 0 <= k < lo -> cmp key (el b k) <> 0) ->
    (forall k, hi <= k < zlen b -> cmp key (el b k) <> 0) ->
    exists r, binary_loop cmp fuel key b lo hi = Ret r /\
      match r with
      | Some m => 0 <= m < zlen b /\ cmp key (el b m) = 0
      | None => forall k, 0 <= k < zlen b -> cmp key (el b k) <> 0
      end.
Proof.
  intros Hb Hs. induction fuel as [|fuel IH]; intros lo hi Hlo Hhi Hf Hl Hr; cbn [binary_loop];
    case_decide as D; try lia;
    try (exists None; split; [done|]; intros k Hk; destruct (decide (k < lo)); [apply Hl|apply Hr]; lia).
  destruct (midpoint lo hi) as (mid & -> & Hm); try lia. rewrite aget_el by lia. cbn [obind].
  case_decide as E; [by exists (Some mid); split_and!; try lia|].
  case_decide as E2.
  - apply IH; try lia; [done|]. intros k Hk.
    pose proof (lt_mono key b Hs mid k) as M. rewrite !bool_decide_eq_true in M. lia.
  - rewrite u64_small by lia. apply IH; try lia; [|done]. intros k Hk He.
    pose proof (le_mono key b Hs k mid) as M. rewrite !bool_decide_eq_true in M. lia.
Qed.
End Search.

(** ** Correctness *)

Section SortTheorems.
Context (cmp : bytes -> bytes -> Z) `{!Comparator cmp}.

(** C7. [zenit_sort_quick] returns (no access outside the array, no endless
    partitioning, for any comparison function that orders the elements, also one
    with ties) and leaves the array sorted and a permutation of what it was. *)
Theorem sort_quick_correct (b : elems) (es : Z) (fuel : nat)
  (Hes : 0 < es) (Hlen : zlen b <= PTRDIFF_MAX) (Hfuel : (length b <= fuel)%nat) :
  exists b', zenit_sort_quick fuel (Some b) (zlen b) es (Some cmp) = Ret (Some b') /\
    sorted cmp b' /\ b' ≡ₚ b.
Proof.
  unfold zenit_sort_quick. case_decide as D.
  - exists b. split; [done|]. split; [|done]. destruct b as [|x [|y b]]; [constructor| |].
    + by repeat constructor.
    + rewrite !zlen_cons in D. zl.
  - rewrite u64_small by lia.
    destruct (quicksort_spec cmp fuel b 0 (zlen b - 1)) as (b' & -> & (L & P & _) & S);
      try lia; [unfold zlen; lia|].
    exists b'. split; [done|]. split; [|done]. apply sorted_of_range. by rewrite L.
Qed.

(** C8. [zenit_sort_stable] either reports [ZENIT_ERROR_ALLOC] and leaves the array
    alone, or sorts it: the result is sorted, a permutation, and elements that
    compare equal keep their order; the buffer is released in every case. *)
Theorem sort_stable_correct (b : elems) (es : Z) (fuel : nat) (h : heap)
  (Hes : 0 < es) (Hlen : zlen b * es <= PTRDIFF_MAX) (Hfuel : (length b <= fuel)%nat) :
  exists r b' h', zenit_sort_stable fuel (Some b) (zlen b) es (Some cmp) h = Ret (r, Some b', h') /\
    h_live h' = h_live h /\
    match r with
    | ZENIT_OK => sorted cmp b' /\ b' ≡ₚ b /\ stable cmp b b'
    | ZENIT_ERROR_ALLOC => b' = b
    | _ => False
    end.
Proof.
  unfold zenit_sort_stable. pose proof (zlen_nonneg b). case_decide as D.
  - exists ZENIT_OK, b, h. split_and!; try done. destruct b as [|x [|y b]]; [constructor| |].
    + by repeat constructor.
    + rewrite !zlen_cons in D. zl.
  - destruct (malloc (u64 (zlen b * es)) h) as [[blk|] h1] eqn:E.
    + apply malloc_some in E as (Hz & _ & Hf & Hl). rewrite u64_small in Hz by nia.
      rewrite Hz, Z.div_mul by lia.
      destruct (mergesort_spec cmp fuel [] b [] (slots_of (Z.to_nat es) (Z.to_nat (zlen b)) (b_data blk)) 0 (zlen b))
        as (b' & buf & Em & _ & S & P & T); rewrite ?zlen_slots_of, ?app_nil_r; try done; try nia.
      { simpl. nia. } { unfold zlen. lia. }
      rewrite !app_nil_r in Em. simpl in Em. rewrite Em. cbn [obind].
      eexists ZENIT_OK, b', _. split; [done|]. split; [|done].
      rewrite free_addr_live by set_solver. set_solver.
    + eexists ZENIT_ERROR_ALLOC, b, h1. split; [done|]. split; [by eapply malloc_none|done].
Qed.

(** C9. On a sorted array the three searches return what they promise:
    [zenit_binary_search] an element equal to the key, or NULL only when there is
    none; [zenit_lower_bound] the first element not below the key and
    [zenit_upper_bound] the first element above it, or NULL when there is none. *)
Theorem searches_correct (key : bytes) (b : elems) (es : Z) (fuel : nat)
  (Hes : 0 < es) (Hlen : zlen b <= PTRDIFF_MAX) (Hfuel : (length b <= fuel)%nat)
  (Hsorted : sorted cmp b) :
  (exists r, zenit_binary_search fuel (Some key) (Some b) (zlen b) es (Some cmp) = Ret r /\
     match r with
     | Some m => 0 <= m < zlen b /\ cmp key (el b m) = 0
     | None => forall k, 0 <= k < zlen b -> cmp key (el b k) <> 0
     end) /\
  (exists r, zenit_lower_bound fuel (Some key) (Some b) (zlen b) es (Some cmp) = Ret r /\
     match r with
     | Some m => 0 <= m < zlen b /\ cmp key (el b m) <= 0 /\ forall k, 0 <= k < m -> 0 < cmp key (el b k)
     | None => forall k, 0 <= k < zlen b -> 0 < cmp key (el b k)
     end) /\
  (exists r, zenit_upper_bound fuel (Some key) (Some b) (zlen b) es (Some cmp) = Ret r /\
     match r with
     | Some m => 0 <= m < zlen b /\ cmp key (el b m) < 0 /\ forall k, 0 <= k < m -> 0 <= cmp key (el b k)
     | None => forall k, 0 <= k < zlen b -> 0 <= cmp key (el b k)
     end).
Proof.
  pose proof (zlen_nonneg b). assert (Z.to_nat (zlen b - 0) <= fuel)%nat by (unfold zlen; lia).
  unfold zenit_binary_search, zenit_lower_bound, zenit_upper_bound. rewrite !decide_False by lia.
  split_and!.
  - apply binary_loop_spec; try done; lia.
  - destruct (bound_loop_spec cmp (fun c => bool_decide (c <= 0)) key b Hlen (le_mono cmp key b Hsorted)
      fuel 0 (zlen b)) as (p & -> & Hp & Hl & Hr); try lia. cbn [obind].
    setoid_rewrite bool_decide_eq_false in Hl. setoid_rewrite bool_decide_eq_true in Hr.
    case_decide; eexists; (split; [done|]).
    + split; [lia|]. split; [apply Hr; lia|]. intros k Hk. specialize (Hl k). lia.
    + intros k Hk. specialize (Hl k). lia.
  - destruct (bound_loop_spec cmp (fun c => bool_decide (c < 0)) key b Hlen (lt_mono cmp key b Hsorted)
      fuel 0 (zlen b)) as (p & -> & Hp & Hl & Hr); try lia. cbn [obind].
    setoid_rewrite bool_decide_eq_false in Hl. setoid_rewrite bool_decide_eq_true in Hr.
    case_decide; eexists; (split; [done|]).
    + split; [lia|]. split; [apply Hr; lia|]. intros k Hk. specialize (Hl k). lia.
    + intros k Hk. specialize (Hl k). lia.
Qed.
End SortTheorems.

(** ** Concrete runs *)

Definition wit_array : elems := [[5; 1]; [2; 1]; [5; 2]; [9; 0]; [2; 2]; [0; 7]].

Lemma sort_quick_correct_witness :
  exists b', zenit_sort_quick 6 (Some wit_array) 6 2 (Some first_byte_compare) = Ret (Some b') /\
    sorted first_byte_compare b' /\ b' ≡ₚ wit_array.
Proof. refine (sort_quick_correct first_byte_compare wit_array 2 6 _ _ _); unfold zlen; simpl; lia. Defined.

Lemma sort_stable_correct_witness :
  exists r b' h', zenit_sort_stable 6 (Some wit_array) 6 2 (Some first_byte_compare) empty_heap
      = Ret (r, Some b', h') /\
    h_live h' = h_live empty_heap /\
    match r with
    | ZENIT_OK => sorted first_byte_compare b' /\ b' ≡ₚ wit_array /\ stable first_byte_compare wit_array b'
    | ZENIT_ERROR_ALLOC => b' = wit_array
    | _ => False
    end.
Proof. refine (sort_stable_correct first_byte_compare wit_array 2 6 empty_heap _ _ _); unfold zlen; simpl; lia. Defined.

Definition wit_sorted : elems := [[0; 7]; [2; 1]; [2; 2]; [5; 1]].

Lemma searches_correct_witness :
  (exists r, zenit_binary_search 4 (Some [2; 0]) (Some wit_sorted) 4 2 (Some first_byte_compare) = Ret r /\
     match r with
     | Some m => 0 <= m < 4 /\ first_byte_compare [2; 0] (el wit_sorted m) = 0
     | None => forall k, 0 <= k < 4 -> first_byte_compare [2; 0] (el wit_sorted k) <> 0
     end).
Proof.
  refine (proj1 (searches_correct first_byte_compare [2; 0] wit_sorted 2 4 _ _ _ _));
    unfold zlen; simpl; try lia.
  unfold sorted, wit_sorted. repeat constructor; unfold cle, first_byte_compare; simpl; lia.
Defined.

(** The two sorts on the same array. *)
Example sort_runs :
  zenit_sort_quick 6 (Some wit_array) 6 2 (Some first_byte_compare)
    = Ret (Some [[0; 7]; [2; 1]; [2; 2]; [5; 1]; [5; 2]; [9; 0]]) /\
  (exists h, zenit_sort_stable 6 (Some wit_array) 6 2 (Some first_byte_compare) empty_heap
    = Ret (ZENIT_OK, Some [[0; 7]; [2; 1]; [2; 2]; [5; 1]; [5; 2]; [9; 0]], h)).
Proof. split; [vm_compute; reflexivity|eexists; vm_compute; reflexivity]. Qed.
