(* ===== verification/HashTable.v ===== *)
(** * Open addressing ([src/_hash_common.h], the probing loops of [src/map.c] and [src/set.c])

    The FNV-1a hash, the rounding of capacities to powers of two, and the linear
    probing loops that [src/map.c] and [src/set.c] share, over the slot and state
    byte arrays.  A table is abstracted to a list of slots ([slot]), empty,
    deleted or occupied; [table_ok] is the invariant of linear probing with
    tombstones, and the lemmas say what the probing loops find and how insertion
    and removal keep the invariant. *)

From Stdlib Require Import ZArith Lia.
From stdpp Require Import base tactics option list numbers gmap sets.
From S2P Require Import Prelude Mem Result Allocator.
Open Scope Z_scope.

Definition HASH_SLOT_EMPTY : Z := 0.
Definition HASH_SLOT_OCCUPIED : Z := 1.
Definition HASH_SLOT_DELETED : Z := 2.
Definition HASH_DEFAULT_CAPACITY : Z := 16.
Definition HASH_LOAD_PERCENT : Z := 75.
Definition HASH_GROWTH_FACTOR : Z := 2.

Definition round_pow2 (n : Z) : Z :=
  let n := u64 (n - 1) in
  let n := Z.lor n (Z.shiftr n 1) in
  let n := Z.lor n (Z.shiftr n 2) in
  let n := Z.lor n (Z.shiftr n 4) in
  let n := Z.lor n (Z.shiftr n 8) in
  let n := Z.lor n (Z.shiftr n 16) in
  let n := Z.lor n (Z.shiftr n 32) in
  u64 (n + 1).

(** One turn of the hashing loop, and the loop over the bytes of [data]. *)
Definition fnv1a_step (h b : Z) : Z := u64 (Z.lxor h b * 1099511628211).
Definition fnv1a (data : bytes) : Z := foldl fnv1a_step 14695981039346656037 data.

Definition hash_fnv1a (data : bytes) (len : Z) : outcome Z :=
  let! d := rd data 0 len in Ret (fnv1a d).

(** The [while (1)] loop of [probe_slot], [stride] bytes per slot. [found] is
    [found_deleted] together with [first_deleted].  Returns the state and the
    index. *)
Fixpoint probe_walk (fuel : nat) (slots states : option block) (stride key_size : Z)
    (key : bytes) (mask index : Z) (found : option Z) : outcome (Z * Z) :=
  match fuel with
  | O => NoFuel
  | S fuel =>
      let! state := pget states index in
      if decide (state = HASH_SLOT_EMPTY) then
        match found with
        | Some first_deleted => Ret (HASH_SLOT_DELETED, first_deleted)
        | None => Ret (HASH_SLOT_EMPTY, index)
        end
      else if decide (state = HASH_SLOT_DELETED) then
        probe_walk fuel slots states stride key_size key mask (Z.land (u64 (index + 1)) mask)
          (match found with Some f => Some f | None => Some index end)
      else
        let! k1 := prd slots (u64 (index * stride)) key_size in
        let! k2 := rd key 0 key_size in
        if decide (k1 = k2) then Ret (HASH_SLOT_OCCUPIED, index)
        else probe_walk fuel slots states stride key_size key mask
               (Z.land (u64 (index + 1)) mask) found
  end.

(** The [while (states[index] == OCCUPIED)] loop of [rehash]. *)
Fixpoint free_walk (fuel : nat) (states : option block) (mask index : Z) : outcome Z :=
  match fuel with
  | O => NoFuel
  | S fuel =>
      let! state := pget states index in
      if decide (state = HASH_SLOT_OCCUPIED)
      then free_walk fuel states mask (Z.land (u64 (index + 1)) mask)
      else Ret index
  end.

(** ** Abstract tables *)

Inductive slot : Type := SEmpty | SDeleted | SOcc (e : bytes).

#[export] Instance slot_eq_dec : EqDecision slot.
Proof. solve_decision. Defined.

Definition slot_code (s : slot) : Z :=
  match s with
  | SEmpty => HASH_SLOT_EMPTY
  | SDeleted => HASH_SLOT_DELETED
  | SOcc _ => HASH_SLOT_OCCUPIED
  end.

(** The state bytes are the codes of the slots, and the occupied entries are in
    the slot array. *)
Record table_mem (stride : Z) (slots states : option block) (tbl : list slot) : Prop := {
  tm_states_null : states <> None;
  tm_slots_null : slots <> None;
  tm_states : pbytes states = slot_code <$> tbl;
  tm_slots : exists sl, is_slots stride (pbytes slots) sl /\ zlen sl = zlen tbl /\
    forall i e, tbl !! i = Some (SOcc e) -> sl !! i = Some e }.

(** Sums over the slots, for the counters. *)
Definition slot_sum (f : slot -> Z) (tbl : list slot) : Z := foldr (fun s n => f s + n) 0 tbl.
Definition is_occ (s : slot) : Z := match s with SOcc _ => 1 | _ => 0 end.
Definition is_del (s : slot) : Z := match s with SDeleted => 1 | _ => 0 end.
Definition n_occ (tbl : list slot) : Z := slot_sum is_occ tbl.
Definition n_del (tbl : list slot) : Z := slot_sum is_del tbl.

(** The occupied entries in slot order. *)
Fixpoint entries (tbl : list slot) : list bytes :=
  match tbl with
  | [] => []
  | SOcc e :: tbl => e :: entries tbl
  | _ :: tbl => entries tbl
  end.

Section Table.
Context (ks : Z).

Definition key_of (e : bytes) : bytes := take (Z.to_nat ks) e.

(** Slot [d] steps after the home slot of key [k]. *)
Definition probe_at (cap : Z) (k : bytes) (d : Z) : Z := (fnv1a k + d) mod cap.

(** No empty slot on the first [d] steps of the probe of [k]. *)
Definition chain (tbl : list slot) (k : bytes) (d : Z) : Prop :=
  forall d', 0 <= d' < d -> tbl !! Z.to_nat (probe_at (zlen tbl) k d') <> Some SEmpty.

(** Every entry is reachable from its home slot without crossing an empty slot,
    and no key occurs twice. *)
Record table_ok (tbl : list slot) : Prop := {
  ok_pos : 0 < zlen tbl;
  ok_chain i e : tbl !! i = Some (SOcc e) ->
    exists d, 0 <= d < zlen tbl /\ i = Z.to_nat (probe_at (zlen tbl) (key_of e) d) /\
      chain tbl (key_of e) d;
  ok_distinct i j e e' :
    tbl !! i = Some (SOcc e) -> tbl !! j = Some (SOcc e') -> key_of e = key_of e' -> i = j }.

(** What probing for [k] may return. *)
Inductive probe_result (tbl : list slot) (k : bytes) : Z -> Z -> Prop :=
| pr_found i e :
    0 <= i < zlen tbl -> tbl !! Z.to_nat i = Some (SOcc e) -> key_of e = k ->
    probe_result tbl k HASH_SLOT_OCCUPIED i
| pr_free s d :
    (forall e, SOcc e ∈ tbl -> key_of e <> k) ->
    0 <= d < zlen tbl -> chain tbl k d ->
    tbl !! Z.to_nat (probe_at (zlen tbl) k d) = Some s -> s = SEmpty \/ s = SDeleted ->
    probe_result tbl k (slot_code s) (probe_at (zlen tbl) k d).
End Table.

(** ** Powers of two *)

Definition is_pow2 (n : Z) : Prop := exists k, 0 <= k /\ n = 2 ^ k.

Lemma is_pow2_pos n : is_pow2 n -> 0 < n.
Proof. intros (k & Hk & ->). apply Z.pow_pos_nonneg; lia. Qed.

Lemma is_pow2_double n : is_pow2 n -> is_pow2 (n * 2).
Proof. intros (k & Hk & ->). exists (k + 1). rewrite Z.pow_add_r by lia. lia. Qed.

Lemma land_mask x n : is_pow2 n -> Z.land x (n - 1) = x mod n.
Proof.
  intros (k & Hk & ->). rewrite <- Z.land_ones by done. by rewrite Z.ones_equiv.
Qed.

(** [x] has bit [i] set exactly when one of the [k] bits of [n] from [i] on is:
    the state of the smearing steps of [round_pow2]. *)
Definition smeared (n k x : Z) : Prop :=
  forall i, 0 <= i -> Z.testbit x i = true <-> exists t, 0 <= t < k /\ Z.testbit n (i + t) = true.

Lemma smeared_init n : smeared n 1 n.
Proof.
  intros i Hi. split.
  - intros H. exists 0. rewrite Z.add_0_r. split; [lia|done].
  - intros (t & Ht & H). assert (t = 0) as -> by lia. by rewrite Z.add_0_r in H.
Qed.

Lemma smeared_step n k x :
  0 <= k -> smeared n k x -> smeared n (k + k) (Z.lor x (Z.shiftr x k)).
Proof.
  intros Hk H i Hi. rewrite Z.lor_spec, Z.shiftr_spec by done. rewrite orb_true_iff.
  rewrite (H i Hi), (H (i + k)) by lia. split.
  - intros [(t & Ht & B)|(t & Ht & B)]; [exists t; split; [lia|done]|].
    exists (k + t). split; [lia|]. by rewrite Z.add_assoc.
  - intros (t & Ht & B). destruct (decide (t < k)).
    + left. exists t. split; [lia|done].
    + right. exists (t - k). split; [lia|]. rewrite <- B. f_equal. lia.
Qed.

Lemma smeared_ones w n x :
  0 < n < 2 ^ w -> 0 <= x -> smeared n w x -> x = 2 ^ (Z.log2 n + 1) - 1.
Proof.
  intros Hn Hx H. rewrite Z.sub_1_r, <- Z.ones_equiv.
  pose proof (Z.log2_nonneg n) as L0.
  apply Z.bits_inj'. intros i Hi.
  assert (Z.testbit x i = true <-> i <= Z.log2 n) as E.
  { rewrite (H i Hi). split.
    - intros (t & Ht & B). destruct (decide (i <= Z.log2 n)); [done|].
      rewrite Z.bits_above_log2 in B; [done|lia|lia].
    - intros Hl. exists (Z.log2 n - i). split.
      + assert (Z.log2 n < w) by (apply Z.log2_lt_pow2; lia). lia.
      + replace (i + (Z.log2 n - i)) with (Z.log2 n) by lia. apply Z.bit_log2; lia. }
  destruct (decide (i <= Z.log2 n)).
  - rewrite (proj2 E) by done. symmetry. apply Z.ones_spec_low. lia.
  - rewrite Z.ones_spec_high by lia. destruct (Z.testbit x i); [|done]. lia.
Qed.

Lemma round_pow2_spec n :
  1 <= n <= two63 -> round_pow2 n = 2 ^ Z.log2_up n.
Proof.
  intros Hn. unfold round_pow2. rewrite (u64_small (n - 1)) by lia.
  destruct (decide (n = 1)) as [->|]; [done|].
  pose proof (smeared_init (n - 1)) as S.
  do 6 (apply smeared_step in S; [|lia]; simpl in S).
  set (x := Z.lor _ _) in S |- *. assert (0 <= x) as Hx.
  { unfold x. repeat (apply Z.lor_nonneg; split); repeat apply Z.shiftr_nonneg;
      repeat (apply Z.lor_nonneg; split; try apply Z.shiftr_nonneg); lia. }
  apply smeared_ones in S; [|lia|done]. rewrite S.
  unfold Z.log2_up. rewrite (proj2 (Z.compare_lt_iff 1 n)) by lia.
  rewrite <- Z.sub_1_r, (Z.add_1_r (Z.log2 _)).
  assert (2 ^ Z.succ (Z.log2 (n - 1)) <= 2 ^ 63).
  { apply Z.pow_le_mono_r; [lia|]. assert (Z.log2 (n - 1) < 63); [|lia].
    apply Z.log2_lt_pow2; lia. }
  pose proof (Z.pow_pos_nonneg 2 (Z.succ (Z.log2 (n - 1)))). pose proof (Z.log2_nonneg (n - 1)).
  rewrite u64_small; lia.
Qed.

Lemma round_pow2_bounds n : 4 < n <= two63 -> 8 <= round_pow2 n <= 2 * n.
Proof.
  intros Hn. rewrite round_pow2_spec by lia. pose proof (Z.log2_up_spec n ltac:(lia)) as [L1 L2].
  assert (3 <= Z.log2_up n) as L3.
  { pose proof (Z.log2_up_le_mono 5 n ltac:(lia)) as L. replace (Z.log2_up 5) with 3 in L by done. lia. }
  split.
  - change 8 with (2 ^ 3). apply Z.pow_le_mono_r; lia.
  - rewrite <- (Z.succ_pred (Z.log2_up n)), Z.pow_succ_r by lia. lia.
Qed.

Lemma fnv1a_range d : 0 <= fnv1a d < two64.
Proof.
  unfold fnv1a. induction d as [|b d _] using rev_ind; [done|].
  rewrite foldl_app. apply u64_range.
Qed.

(** ** Counters *)

Lemma slot_sum_insert f tbl i s s' :
  tbl !! i = Some s -> slot_sum f (<[i := s']> tbl) = slot_sum f tbl - f s + f s'.
Proof.
  revert i. induction tbl as [|x tbl IH]; intros [|i] E; try done; simpl in *.
  - injection E as ->. lia.
  - rewrite (IH i E). lia.
Qed.

Lemma n_occ_insert tbl i s s' :
  tbl !! i = Some s -> n_occ (<[i := s']> tbl) = n_occ tbl - is_occ s + is_occ s'.
Proof. apply slot_sum_insert. Qed.

Lemma n_del_insert tbl i s s' :
  tbl !! i = Some s -> n_del (<[i := s']> tbl) = n_del tbl - is_del s + is_del s'.
Proof. apply slot_sum_insert. Qed.

Lemma slot_sum_app f t1 t2 : slot_sum f (t1 ++ t2) = slot_sum f t1 + slot_sum f t2.
Proof. induction t1; simpl; lia. Qed.

Lemma n_occ_nonneg tbl : 0 <= n_occ tbl.
Proof. unfold n_occ. induction tbl as [|[] ? ?]; simpl; lia. Qed.

Lemma n_del_nonneg tbl : 0 <= n_del tbl.
Proof. unfold n_del. induction tbl as [|[] ? ?]; simpl; lia. Qed.

Lemma n_used_bound tbl : n_occ tbl + n_del tbl <= zlen tbl.
Proof.
  unfold n_occ, n_del. induction tbl as [|[] ? ?]; rewrite ?zlen_cons; simpl; [done|lia..].
Qed.

Lemma has_empty tbl :
  n_occ tbl + n_del tbl < zlen tbl -> exists i, tbl !! i = Some SEmpty.
Proof.
  unfold n_occ, n_del. induction tbl as [|s tbl IH]; [unfold zlen; simpl; lia|].
  rewrite zlen_cons. destruct s; simpl; intros H; [by exists O|..];
    (destruct IH as (i & Hi); [lia|by exists (S i)]).
Qed.

Lemma full_no_empty tbl i :
  n_occ tbl + n_del tbl = zlen tbl -> tbl !! i <> Some SEmpty.
Proof.
  intros E Hi. pose proof (n_used_bound (<[i := SDeleted]> tbl)) as B.
  rewrite (n_occ_insert _ _ _ _ Hi), (n_del_insert _ _ _ _ Hi), zlen_insert in B. simpl in B. lia.
Qed.

Lemma entries_elem tbl e : e ∈ entries tbl <-> SOcc e ∈ tbl.
Proof.
  induction tbl as [|[| |x] tbl IH]; simpl; rewrite ?elem_of_nil, ?elem_of_cons; naive_solver.
Qed.

Lemma entries_length tbl : zlen (entries tbl) = n_occ tbl.
Proof.
  unfold n_occ. induction tbl as [|[| |x] tbl IH]; simpl; rewrite ?zlen_cons; try done; lia.
Qed.

Lemma n_occ_replicate n : n_occ (replicate n SEmpty) = 0.
Proof. unfold n_occ. induction n; simpl; lia. Qed.

Lemma n_del_replicate n : n_del (replicate n SEmpty) = 0.
Proof. unfold n_del. induction n; simpl; lia. Qed.

(** ** Memory of a table *)

Section TableMem.
Context (stride : Z).

Lemma table_mem_state slots states tbl i s :
  table_mem stride slots states tbl -> 0 <= i -> tbl !! Z.to_nat i = Some s ->
  pget states i = Ret (slot_code s).
Proof.
  intros H Hi E. apply pget_lookup; [apply H|done|].
  rewrite (tm_states _ _ _ _ H), list_lookup_fmap, E. done.
Qed.

Lemma table_mem_part slots states tbl i e o n :
  table_mem stride slots states tbl -> 0 <= i -> tbl !! Z.to_nat i = Some (SOcc e) ->
  0 <= o -> 0 <= n -> o + n <= stride ->
  prd slots (i * stride + o) n = Ret (take (Z.to_nat n) (drop (Z.to_nat o) e)).
Proof.
  intros H Hi E Ho Hn Hon. destruct (tm_slots _ _ _ _ H) as (sl & S & L & V).
  rewrite prd_rd by apply H. eapply rd_sub; [done|done|by apply V|done..].
Qed.

Lemma table_mem_len slots states tbl e :
  table_mem stride slots states tbl -> SOcc e ∈ tbl -> zlen e = stride.
Proof.
  intros H [i Ei]%list_elem_of_lookup. destruct (tm_slots _ _ _ _ H) as (sl & [_ F] & _ & V).
  eapply (Forall_lookup_1 _ _ _ e F). by apply V.
Qed.

(** Changing a state byte only. *)
Lemma table_mem_set_state slots states tbl i s s' :
  table_mem stride slots states tbl -> 0 <= i -> tbl !! Z.to_nat i = Some s ->
  (forall e, s' = SOcc e -> s = SOcc e) ->
  exists states', pset states i (slot_code s') = Ret states' /\ pown states' = pown states /\
    table_mem stride slots states' (<[Z.to_nat i := s']> tbl).
Proof.
  intros H Hi E Hs. pose proof (lookup_lt_Some _ _ _ E) as Hlt.
  destruct (pset_range states i (slot_code s')) as (st & P & N & O & B).
  { apply H. } { rewrite (tm_states _ _ _ _ H). unfold zlen. rewrite length_fmap. lia. }
  exists st. split; [done|]. split; [done|]. constructor; try apply H; try done.
  - by rewrite B, (tm_states _ _ _ _ H), list_fmap_insert.
  - destruct (tm_slots _ _ _ _ H) as (sl & S & L & V). exists sl. rewrite zlen_insert.
    split; [done|]. split; [done|]. intros j e Ej.
    destruct (decide (j = Z.to_nat i)) as [->|]; [|rewrite list_lookup_insert_ne in Ej by done; by apply V].
    rewrite list_lookup_insert_eq in Ej by done. injection Ej as ->.
    apply V. rewrite E. f_equal. by apply Hs.
Qed.

(** Entry [e] has been written into slot [i], whose state byte is then set. *)
Lemma table_mem_put slots slots' states tbl sl i e :
  table_mem stride slots states tbl -> zlen sl = zlen tbl ->
  (forall j e, tbl !! j = Some (SOcc e) -> sl !! j = Some e) ->
  0 <= i < zlen tbl -> slots' <> None ->
  is_slots stride (pbytes slots') (<[Z.to_nat i := e]> sl) ->
  exists states', pset states i HASH_SLOT_OCCUPIED = Ret states' /\ pown states' = pown states /\
    table_mem stride slots' states' (<[Z.to_nat i := SOcc e]> tbl).
Proof.
  intros H L V Hi N S.
  destruct (pset_range states i HASH_SLOT_OCCUPIED) as (st & P & Nst & O & B).
  { apply H. } { rewrite (tm_states _ _ _ _ H). unfold zlen in *. rewrite length_fmap. lia. }
  exists st. split; [done|]. split; [done|]. constructor; try done.
  - by rewrite B, (tm_states _ _ _ _ H), list_fmap_insert.
  - eexists. split; [done|]. rewrite !zlen_insert. split; [done|]. intros j e' Ej.
    destruct (decide (j = Z.to_nat i)) as [->|].
    + rewrite list_lookup_insert_eq in Ej by (unfold zlen in *; lia). injection Ej as <-.
      apply list_lookup_insert_eq. unfold zlen in *; lia.
    + rewrite list_lookup_insert_ne in Ej by done. rewrite list_lookup_insert_ne by done.
      by apply V.
Qed.

(** Overwriting the entry of an occupied slot. *)
Lemma table_mem_overwrite slots slots' states tbl sl i e e' :
  table_mem stride slots states tbl -> zlen sl = zlen tbl ->
  (forall j e, tbl !! j = Some (SOcc e) -> sl !! j = Some e) ->
  0 <= i -> tbl !! Z.to_nat i = Some (SOcc e) -> slots' <> None ->
  is_slots stride (pbytes slots') (<[Z.to_nat i := e']> sl) ->
  table_mem stride slots' states (<[Z.to_nat i := SOcc e']> tbl).
Proof.
  intros H L V Hi E N S. pose proof (lookup_lt_Some _ _ _ E) as Hlt.
  constructor; try done; try apply H.
  - rewrite (tm_states _ _ _ _ H), list_fmap_insert. simpl. symmetry. apply list_insert_id.
    by rewrite list_lookup_fmap, E.
  - eexists. split; [done|]. rewrite !zlen_insert. split; [done|]. intros j x Ej.
    destruct (decide (j = Z.to_nat i)) as [->|].
    + rewrite list_lookup_insert_eq in Ej by done. injection Ej as <-.
      apply list_lookup_insert_eq. unfold zlen in *; lia.
    + rewrite list_lookup_insert_ne in Ej by done. rewrite list_lookup_insert_ne by done.
      by apply V.
Qed.

(** Freshly zeroed arrays are an empty table. *)
Lemma table_mem_empty bs bt n :
  0 < stride -> 0 <= n ->
  b_data bs = replicate (Z.to_nat (n * stride)) 0 -> b_data bt = replicate (Z.to_nat (n * 1)) 0 ->
  table_mem stride (Some bs) (Some bt) (replicate (Z.to_nat n) SEmpty).
Proof.
  intros Hs Hn Es Et. assert (0 <= n * stride) by nia. constructor; simpl; try done.
  - rewrite Et, Z.mul_1_r. by rewrite fmap_replicate.
  - exists (slots_of (Z.to_nat stride) (Z.to_nat n) (b_data bs)).
    assert (is_slots stride (b_data bs) (slots_of (Z.to_nat stride) (Z.to_nat n) (b_data bs))) as S
      by (apply is_slots_exists; rewrite Es, zlen_replicate, !Z2Nat.id by lia; done).
    split; [done|]. split.
    + by rewrite zlen_slots_of, zlen_replicate.
    + intros i e Ei. apply lookup_replicate in Ei as [? _]. done.
Qed.
End TableMem.

(** ** Probing *)

Section Probing.
Context (ks stride : Z).
Implicit Types (tbl : list slot) (k : bytes).

Lemma probe_at_range cap k d : 0 < cap -> 0 <= probe_at cap k d < cap.
Proof. apply Z.mod_pos_bound. Qed.

Lemma probe_at_home cap k : is_pow2 cap -> Z.land (fnv1a k) (cap - 1) = probe_at cap k 0.
Proof. intros H. rewrite land_mask by done. unfold probe_at. by rewrite Z.add_0_r. Qed.

Lemma probe_at_next cap k d :
  is_pow2 cap -> cap <= PTRDIFF_MAX ->
  Z.land (u64 (probe_at cap k d + 1)) (cap - 1) = probe_at cap k (d + 1).
Proof.
  intros H Hm. pose proof (is_pow2_pos _ H). pose proof (probe_at_range cap k d).
  rewrite u64_small, land_mask by (done || lia). unfold probe_at.
  rewrite Zplus_mod_idemp_l. f_equal. lia.
Qed.

(** Every slot is some number of steps after the home slot of [k]. *)
Lemma probe_at_cover cap k i :
  0 <= i < cap -> exists d, 0 <= d < cap /\ probe_at cap k d = i.
Proof.
  intros Hi. exists ((i - fnv1a k) mod cap). split; [apply Z.mod_pos_bound; lia|].
  unfold probe_at. rewrite Zplus_mod_idemp_r. replace (fnv1a k + (i - fnv1a k)) with i by lia.
  by apply Z.mod_small.
Qed.

Lemma probe_lookup tbl k d :
  0 < zlen tbl -> exists s, tbl !! Z.to_nat (probe_at (zlen tbl) k d) = Some s.
Proof.
  intros H. pose proof (probe_at_range (zlen tbl) k d H).
  apply lookup_lt_is_Some_2. unfold zlen in *. lia.
Qed.

(** The key is absent when an empty slot is reached without meeting it. *)
Lemma absent_at_empty tbl k d :
  table_ok ks tbl ->
  (forall d' e, 0 <= d' < d -> tbl !! Z.to_nat (probe_at (zlen tbl) k d') = Some (SOcc e) ->
     key_of ks e <> k) ->
  tbl !! Z.to_nat (probe_at (zlen tbl) k d) = Some SEmpty -> 0 <= d ->
  forall e, SOcc e ∈ tbl -> key_of ks e <> k.
Proof.
  intros H Hno He Hd e [i Ei]%list_elem_of_lookup <-.
  destruct (ok_chain _ _ H _ _ Ei) as (de & Hde & -> & Ch).
  destruct (Z.lt_trichotomy de d) as [L|[->|L]].
  - apply (Hno de e); [lia|done|done].
  - congruence.
  - apply (Ch d); [lia|done].
Qed.

(** An empty slot stops the walk before it has gone round. *)
Lemma empty_ahead tbl k d :
  0 < zlen tbl -> (exists i, tbl !! i = Some SEmpty) -> 0 <= d ->
  (forall d', 0 <= d' < d -> tbl !! Z.to_nat (probe_at (zlen tbl) k d') <> Some SEmpty) ->
  d < zlen tbl.
Proof.
  intros Hp (i & Hi) Hd Hno. pose proof (lookup_lt_Some _ _ _ Hi) as Hlt.
  destruct (probe_at_cover (zlen tbl) k (Z.of_nat i)) as (d0 & Hd0 & E); [unfold zlen; lia|].
  destruct (decide (d0 < d)); [|lia]. exfalso. apply (Hno d0); [lia|].
  rewrite E, Nat2Z.id. done.
Qed.

Section Walk.
Context (slots states : option block) (tbl : list slot) (k : bytes).
Context (Hok : table_ok ks tbl) (Hmem : table_mem stride slots states tbl)
  (Hpow : is_pow2 (zlen tbl)) (Hsz : zlen tbl * stride <= PTRDIFF_MAX)
  (Hks : 0 < ks <= stride) (Hk : zlen k = ks).

Lemma walk_bounds d :
  zlen tbl <= PTRDIFF_MAX /\
  u64 (probe_at (zlen tbl) k d * stride) = probe_at (zlen tbl) k d * stride.
Proof.
  pose proof (probe_at_range (zlen tbl) k d (is_pow2_pos _ Hpow)).
  split; [nia|]. apply u64_small. nia.
Qed.

(** The key comparison of the probing loop at an occupied slot. *)
Lemma walk_key d e :
  tbl !! Z.to_nat (probe_at (zlen tbl) k d) = Some (SOcc e) ->
  prd slots (u64 (probe_at (zlen tbl) k d * stride)) ks = Ret (key_of ks e).
Proof.
  intros E. pose proof (probe_at_range (zlen tbl) k d (is_pow2_pos _ Hpow)).
  rewrite (proj2 (walk_bounds d)), <- (Z.add_0_r (_ * stride)).
  erewrite table_mem_part by (done || lia). done.
Qed.

Lemma probe_walk_spec fuel d found :
  (exists i, tbl !! i = Some SEmpty) -> 0 <= d -> (Z.to_nat (zlen tbl - d) <= fuel)%nat ->
  (forall d', 0 <= d' < d -> tbl !! Z.to_nat (probe_at (zlen tbl) k d') <> Some SEmpty) ->
  (forall d' e, 0 <= d' < d -> tbl !! Z.to_nat (probe_at (zlen tbl) k d') = Some (SOcc e) ->
     key_of ks e <> k) ->
  match found with
  | None => True
  | Some f => exists df, 0 <= df < d /\ f = probe_at (zlen tbl) k df /\
                tbl !! Z.to_nat f = Some SDeleted
  end ->
  exists st i, probe_walk fuel slots states stride ks k (zlen tbl - 1) (probe_at (zlen tbl) k d) found
      = Ret (st, i) /\ probe_result ks tbl k st i.
Proof.
  intros He Hd Hf Hne Hno Hfd. revert d found Hd Hf Hne Hno Hfd.
  induction fuel as [|fuel IH]; intros d found Hd Hf Hne Hno Hfd.
  all: pose proof (empty_ahead tbl k d (is_pow2_pos _ Hpow) He Hd Hne) as Hlt.
  { lia. }
  destruct (probe_lookup tbl k d (is_pow2_pos _ Hpow)) as [s Es].
  pose proof (probe_at_range (zlen tbl) k d (is_pow2_pos _ Hpow)) as Hr. simpl.
  rewrite (table_mem_state _ _ _ _ _ _ Hmem (proj1 Hr) Es). simpl.
  destruct s as [| |e]; simpl.
  - pose proof (absent_at_empty tbl k d Hok Hno Es Hd) as Habs.
    destruct found as [f|].
    + destruct Hfd as (df & Hdf & -> & Ef). eexists _, _. split; [done|].
      eapply (pr_free _ _ _ SDeleted df); [done|lia| |done|by right].
      intros d' Hd'. apply Hne. lia.
    + eexists _, _. split; [done|]. by apply (pr_free _ _ _ SEmpty d); [..|left].
  - rewrite probe_at_next by (done || apply (walk_bounds d)). apply IH; try lia.
    + intros d' Hd'. destruct (decide (d' = d)) as [->|]; [congruence|apply Hne; lia].
    + intros d' e' Hd'. destruct (decide (d' = d)) as [->|]; [congruence|apply Hno; lia].
    + destruct found as [f|].
      * destruct Hfd as (df & Hdf & Ef). exists df. split; [lia|done].
      * exists d. split; [lia|done].
  - rewrite (walk_key d e Es). simpl. rewrite rd_whole by done. simpl. case_decide as Heq.
    + eexists _, _. split; [done|]. by apply (pr_found _ _ _ _ e).
    + rewrite probe_at_next by (done || apply (walk_bounds d)). apply IH; try lia.
      * intros d' Hd'. destruct (decide (d' = d)) as [->|]; [congruence|apply Hne; lia].
      * intros d' e' Hd' E'. destruct (decide (d' = d)) as [->|]; [congruence|by apply (Hno d'); [lia|]].
      * destruct found as [f|]; [|done]. destruct Hfd as (df & Hdf & Ef). exists df. split; [lia|done].
Qed.

(** With no empty slot left, looking for an absent key never ends. *)
Lemma probe_walk_diverges fuel d found :
  (forall i, tbl !! i <> Some SEmpty) -> (forall e, SOcc e ∈ tbl -> key_of ks e <> k) ->
  probe_walk fuel slots states stride ks k (zlen tbl - 1) (probe_at (zlen tbl) k d) found = NoFuel.
Proof.
  intros Hne Hno. revert d found. induction fuel as [|fuel IH]; intros d found; [done|].
  destruct (probe_lookup tbl k d (is_pow2_pos _ Hpow)) as [s Es].
  pose proof (probe_at_range (zlen tbl) k d (is_pow2_pos _ Hpow)) as Hr. simpl.
  rewrite (table_mem_state _ _ _ _ _ _ Hmem (proj1 Hr) Es). simpl.
  destruct s as [| |e]; simpl.
  - by destruct (Hne _ Es).
  - rewrite probe_at_next by (done || apply (walk_bounds d)). apply IH.
  - rewrite (walk_key d e Es). simpl. rewrite rd_whole by done. simpl.
    rewrite decide_False by (apply Hno; by eapply list_elem_of_lookup_2).
    rewrite probe_at_next by (done || apply (walk_bounds d)). apply IH.
Qed.

Lemma free_walk_spec fuel d :
  (exists i, tbl !! i = Some SEmpty) -> 0 <= d -> (Z.to_nat (zlen tbl - d) <= fuel)%nat ->
  chain tbl k d ->
  exists d', free_walk fuel states (zlen tbl - 1) (probe_at (zlen tbl) k d)
      = Ret (probe_at (zlen tbl) k d') /\ 0 <= d' < zlen tbl /\ chain tbl k d' /\
    exists s, tbl !! Z.to_nat (probe_at (zlen tbl) k d') = Some s /\ is_occ s = 0.
Proof.
  intros He. revert d. induction fuel as [|fuel IH]; intros d Hd Hf Hc.
  all: pose proof (empty_ahead tbl k d (is_pow2_pos _ Hpow) He Hd Hc) as Hlt.
  { lia. }
  destruct (probe_lookup tbl k d (is_pow2_pos _ Hpow)) as [s Es].
  pose proof (probe_at_range (zlen tbl) k d (is_pow2_pos _ Hpow)) as Hr. simpl.
  rewrite (table_mem_state _ _ _ _ _ _ Hmem (proj1 Hr) Es). simpl.
  destruct s as [| |e]; simpl.
  1,2: exists d; do 3 (split; [done|]); by eexists.
  rewrite probe_at_next by (done || apply (walk_bounds d)). apply IH; try lia.
  intros d' Hd'. destruct (decide (d' = d)) as [->|]; [congruence|apply Hc; lia].
Qed.
End Walk.
End Probing.

(** ** Updates keep the invariant *)

Section Updates.
Context (ks : Z).
Implicit Types (tbl : list slot) (k e : bytes).

Lemma table_ok_empty n : (0 < n)%nat -> table_ok ks (replicate n SEmpty).
Proof.
  intros Hn. constructor.
  - rewrite zlen_replicate. lia.
  - intros i e [? _]%lookup_replicate. done.
  - intros i j e e' [? _]%lookup_replicate. done.
Qed.

(** A slot that becomes or stays non-empty breaks no chain. *)
Lemma chain_insert tbl i s k d :
  s <> SEmpty -> chain tbl k d -> chain (<[i := s]> tbl) k d.
Proof.
  intros Hs H d' Hd'. rewrite zlen_insert. specialize (H d' Hd').
  destruct (decide (Z.to_nat (probe_at (zlen tbl) k d') = i)) as [<-|].
  - intros E. apply list_lookup_insert_Some in E as [(_ & ? & _)|[_ E]]; [congruence|done].
  - by rewrite list_lookup_insert_ne.
Qed.

Lemma table_ok_put tbl k d e :
  table_ok ks tbl -> 0 <= d < zlen tbl -> chain tbl k d ->
  key_of ks e = k -> (forall x, SOcc x ∈ tbl -> key_of ks x <> k) ->
  table_ok ks (<[Z.to_nat (probe_at (zlen tbl) k d) := SOcc e]> tbl).
Proof.
  intros H Hd Hc Hk Habs. constructor.
  - rewrite zlen_insert. apply H.
  - intros i x E. rewrite zlen_insert.
    apply list_lookup_insert_Some in E as [(<- & [= <-] & _)|[_ E]].
    + exists d. rewrite Hk. split; [done|]. split; [done|]. by apply chain_insert.
    + destruct (ok_chain _ _ H _ _ E) as (dx & Hdx & Ei & Ch). exists dx.
      do 2 (split; [done|]). by apply chain_insert.
  - intros i j x y Ei Ej Hxy.
    apply list_lookup_insert_Some in Ei as [(<- & [= <-] & _)|[Ni Ei]];
      apply list_lookup_insert_Some in Ej as [(<- & [= <-] & _)|[Nj Ej]]; [done|..].
    + destruct (Habs y); [by eapply list_elem_of_lookup_2|congruence].
    + destruct (Habs x); [by eapply list_elem_of_lookup_2|congruence].
    + by eapply (ok_distinct _ _ H).
Qed.

Lemma table_ok_overwrite tbl i e e' :
  table_ok ks tbl -> tbl !! i = Some (SOcc e) -> key_of ks e' = key_of ks e ->
  table_ok ks (<[i := SOcc e']> tbl).
Proof.
  intros H Ei Hk. constructor.
  - rewrite zlen_insert. apply H.
  - intros j x E. rewrite zlen_insert.
    assert (exists y, tbl !! j = Some (SOcc y) /\ key_of ks x = key_of ks y) as (y & Ey & Ky).
    { apply list_lookup_insert_Some in E as [(-> & [= <-] & _)|[_ E]]; by eexists. }
    destruct (ok_chain _ _ H _ _ Ey) as (d & Hd & Ej & Ch). exists d. rewrite Ky.
    do 2 (split; [done|]). by apply chain_insert.
  - intros j1 j2 x1 x2 E1 E2 Hx.
    assert (forall j x, <[i := SOcc e']> tbl !! j = Some (SOcc x) ->
      exists y, tbl !! j = Some (SOcc y) /\ key_of ks x = key_of ks y) as G.
    { intros j x E. apply list_lookup_insert_Some in E as [(-> & [= <-] & _)|[_ E]]; by eexists. }
    apply G in E1 as (y1 & E1 & K1), E2 as (y2 & E2 & K2).
    eapply (ok_distinct _ _ H); [done|done|congruence].
Qed.

Lemma table_ok_delete tbl i : table_ok ks tbl -> table_ok ks (<[i := SDeleted]> tbl).
Proof.
  intros H. constructor.
  - rewrite zlen_insert. apply H.
  - intros j x E. rewrite zlen_insert.
    apply list_lookup_insert_Some in E as [(_ & ? & _)|[_ E]]; [done|].
    destruct (ok_chain _ _ H _ _ E) as (d & Hd & Ej & Ch). exists d.
    do 2 (split; [done|]). by apply chain_insert.
  - intros j1 j2 x1 x2 E1 E2.
    apply list_lookup_insert_Some in E1 as [(_ & ? & _)|[_ E1]]; [done|].
    apply list_lookup_insert_Some in E2 as [(_ & ? & _)|[_ E2]]; [done|].
    by apply (ok_distinct _ _ H).
Qed.

(** The entries after an update. *)
Lemma elem_put tbl i s e x :
  tbl !! i = Some s -> is_occ s = 0 ->
  SOcc x ∈ <[i := SOcc e]> tbl <-> x = e \/ SOcc x ∈ tbl.
Proof.
  intros Ei Hs. rewrite !list_elem_of_lookup. split.
  - intros (j & E). apply list_lookup_insert_Some in E as [(_ & [= <-] & _)|[_ E]]; [by left|right; by exists j].
  - intros [->|(j & E)].
    + exists i. apply list_lookup_insert_eq. by eapply lookup_lt_Some.
    + exists j. rewrite list_lookup_insert_ne; [done|]. intros ->. rewrite E in Ei.
      by injection Ei as <-.
Qed.

Lemma elem_overwrite tbl i e e' x :
  table_ok ks tbl -> tbl !! i = Some (SOcc e) ->
  SOcc x ∈ <[i := SOcc e']> tbl <-> x = e' \/ (SOcc x ∈ tbl /\ key_of ks x <> key_of ks e).
Proof.
  intros H Ei. rewrite !list_elem_of_lookup. split.
  - intros (j & E). apply list_lookup_insert_Some in E as [(_ & [= <-] & _)|[N E]]; [by left|right].
    split; [by exists j|]. intros Hk. apply N. by eapply (ok_distinct _ _ H).
  - intros [->|((j & E) & Hk)].
    + exists i. apply list_lookup_insert_eq. by eapply lookup_lt_Some.
    + exists j. rewrite list_lookup_insert_ne; [done|]. intros ->. congruence.
Qed.

Lemma elem_delete tbl i e x :
  table_ok ks tbl -> tbl !! i = Some (SOcc e) ->
  SOcc x ∈ <[i := SDeleted]> tbl <-> SOcc x ∈ tbl /\ key_of ks x <> key_of ks e.
Proof.
  intros H Ei. rewrite !list_elem_of_lookup. split.
  - intros (j & E). apply list_lookup_insert_Some in E as [(_ & ? & _)|[N E]]; [done|].
    split; [by exists j|]. intros Hk. apply N. by eapply (ok_distinct _ _ H).
  - intros ((j & E) & Hk). exists j. rewrite list_lookup_insert_ne; [done|]. intros ->. congruence.
Qed.

(** No key is listed twice by [entries]. *)
Lemma entries_keys_nodup tbl : table_ok ks tbl -> NoDup (key_of ks <$> entries tbl).
Proof.
  intros H. pose proof (ok_distinct _ _ H) as D. clear H.
  assert (forall tbl, (forall i j e e', tbl !! i = Some (SOcc e) -> tbl !! j = Some (SOcc e') ->
    key_of ks e = key_of ks e' -> i = j) -> NoDup (key_of ks <$> entries tbl)) as G; [|by apply G].
  clear. induction tbl as [|s tbl IH]; intros D; [constructor|].
  assert (NoDup (key_of ks <$> entries tbl)) as N.
  { apply IH. intros i j e e' Ei Ej Hk. specialize (D (S i) (S j) e e' Ei Ej Hk). lia. }
  destruct s as [| |e]; simpl; [done|done|]. constructor; [|done].
  intros (y & Hy & Ey)%list_elem_of_fmap. apply entries_elem, list_elem_of_lookup in Ey as (j & Ej).
  specialize (D O (S j) e y eq_refl Ej Hy). lia.
Qed.
End Updates.

(** [round_pow2] returns the least power of two that is not below its argument,
    for every argument up to 2^63. *)
Theorem round_pow2_correct n :
  1 <= n <= two63 ->
  is_pow2 (round_pow2 n) /\ n <= round_pow2 n /\ (forall p, is_pow2 p -> n <= p -> round_pow2 n <= p).
Proof.
  intros Hn. rewrite round_pow2_spec by done. split; [|split].
  - eexists. split; [apply Z.log2_up_nonneg|done].
  - destruct (decide (n = 1)) as [->|]; [done|]. apply Z.log2_up_spec. lia.
  - intros p (k & Hk & ->) Hp. apply Z.pow_le_mono_r; [lia|].
    rewrite <- (Z.log2_up_pow2 k) by done. by apply Z.log2_up_le_mono.
Qed.

Lemma round_pow2_correct_witness :
  is_pow2 (round_pow2 5) /\ 5 <= round_pow2 5 /\
  (forall p, is_pow2 p -> 5 <= p -> round_pow2 5 <= p).
Proof. apply (round_pow2_correct 5). lia. Defined.
