(* ===== verification/HashMap.v ===== *)
(** * Hash map ([src/map.c])

    Keys and values of fixed sizes side by side in a flat slot array, with a state
    byte per slot.  [map_rep] relates a map to the finite map ([gmap]) of its
    bindings; the theorems show that the operations implement a dictionary for
    tables of at least 8 slots, that enumeration visits each binding once, and
    that smaller tables can fill up completely, after which looking for an absent
    key never ends. *)

From Stdlib Require Import ZArith Lia.
From stdpp Require Import base tactics option list numbers gmap sets fin_maps.
From S2P Require Import Prelude Mem Result Allocator HashTable.
Open Scope Z_scope.

Record zenit_map_t (C : Type) : Type := mk_map {
  m_self : addr;
  m_slots : option block;
  m_states : option block;
  m_key_size : Z;
  m_value_size : Z;
  m_slot_size : Z;
  m_capacity : Z;
  m_count : Z;
  m_deleted : Z;
  m_allocator : zenit_allocator_t C }.
Arguments mk_map {C}.
Arguments m_self {C}.
Arguments m_slots {C}.
Arguments m_states {C}.
Arguments m_key_size {C}.
Arguments m_value_size {C}.
Arguments m_slot_size {C}.
Arguments m_capacity {C}.
Arguments m_count {C}.
Arguments m_deleted {C}.
Arguments m_allocator {C}.

Definition SIZEOF_MAP : Z := 96.

Section MapModel.
Context {C : Type}.
Implicit Types (m : zenit_map_t C) (c : C) (a : zenit_allocator_t C).

Definition upd_map m (slots states : option block) (capacity count deleted : Z) : zenit_map_t C :=
  mk_map (m_self m) slots states (m_key_size m) (m_value_size m) (m_slot_size m)
    capacity count deleted (m_allocator m).

Definition probe_slot (fuel : nat) m (key : bytes) : outcome (Z * Z) :=
  let! hash := hash_fnv1a key (m_key_size m) in
  let mask := u64 (m_capacity m - 1) in
  probe_walk fuel (m_slots m) (m_states m) (m_slot_size m) (m_key_size m) key mask
    (Z.land hash mask) None.

(** [memcpy] of a key and a value into slot [index], which becomes occupied. *)
Definition put_entry m (index : Z) (key value : bytes) : outcome (option block * option block) :=
  let! slots1 := pwr (m_slots m) (u64 (index * m_slot_size m)) key in
  let! slots2 := pwr slots1 (u64 (u64 (index * m_slot_size m) + m_key_size m)) value in
  let! states := pset (m_states m) index HASH_SLOT_OCCUPIED in
  Ret (slots2, states).

(** The [for] loop of [rehash], [n] slots left from slot [i]. *)
Fixpoint rehash_loop (fuel : nat) (n : nat) (i : Z) (old_slots old_states : option block)
    (mask : Z) m : outcome (zenit_map_t C) :=
  match n with
  | O => Ret m
  | S n =>
      let! state := pget old_states i in
      let! m1 :=
        if decide (state = HASH_SLOT_OCCUPIED) then
          let old_slot := u64 (i * m_slot_size m) in
          let! key := prd old_slots old_slot (m_key_size m) in
          let! hash := hash_fnv1a key (m_key_size m) in
          let! index := free_walk fuel (m_states m) mask (Z.land hash mask) in
          let! value := prd old_slots (u64 (old_slot + m_key_size m)) (m_value_size m) in
          let! (slots, states) := put_entry m index key value in
          Ret (upd_map m slots states (m_capacity m) (u64 (m_count m + 1)) (m_deleted m))
        else Ret m in
      rehash_loop fuel n (i + 1) old_slots old_states mask m1
  end.

Definition rehash (fuel : nat) m (new_capacity : Z) c
    : outcome (zenit_error_t * zenit_map_t C * C) :=
  let a := m_allocator m in
  let! (new_slots, c1) := zenit_allocator_alloc_zero a new_capacity (m_slot_size m) c in
  match new_slots with
  | None => Ret (ZENIT_ERROR_ALLOC, m, c1)
  | Some bs =>
      let! (new_states, c2) := zenit_allocator_alloc_zero a new_capacity 1 c1 in
      match new_states with
      | None => Ret (ZENIT_ERROR_ALLOC, m, free_fn a (Some (b_addr bs)) c2)
      | Some _ =>
          let m1 := upd_map m new_slots new_states new_capacity 0 0 in
          let mask := u64 (new_capacity - 1) in
          let! m2 := rehash_loop fuel (Z.to_nat (m_capacity m)) 0 (m_slots m) (m_states m) mask m1 in
          let c3 := free_fn a (paddr (m_slots m)) c2 in
          let c4 := free_fn a (paddr (m_states m)) c3 in
          Ret (ZENIT_OK, m2, c4)
      end
  end.

Definition ensure_load (fuel : nat) m c : outcome (zenit_error_t * zenit_map_t C * C) :=
  let used := u64 (m_count m + m_deleted m) in
  if decide (u64 (m_capacity m * HASH_LOAD_PERCENT) < u64 (used * 100))
  then rehash fuel m (u64 (m_capacity m * HASH_GROWTH_FACTOR)) c
  else Ret (ZENIT_OK, m, c).

Definition zenit_map_create_with_capacity_and_allocator (key_size value_size capacity : Z) a c
    : outcome (option (zenit_map_t C) * C) :=
  if decide (key_size = 0 \/ value_size = 0 \/ capacity = 0) then Ret (None, c)
  else
    let cap := round_pow2 capacity in
    match alloc_fn a SIZEOF_MAP c with
    | (None, c1) => Ret (None, c1)
    | (Some h, c1) =>
        let slot_size := u64 (key_size + value_size) in
        let! (slots, c2) := zenit_allocator_alloc_zero a cap slot_size c1 in
        match slots with
        | None => Ret (None, free_fn a (Some (b_addr h)) c2)
        | Some bs =>
            let! (states, c3) := zenit_allocator_alloc_zero a cap 1 c2 in
            match states with
            | None =>
                let c4 := free_fn a (Some (b_addr bs)) c3 in
                Ret (None, free_fn a (Some (b_addr h)) c4)
            | Some _ =>
                Ret (Some (mk_map (b_addr h) slots states key_size value_size slot_size cap 0 0 a), c3)
            end
        end
    end.

Definition zenit_map_create_with_allocator (key_size value_size : Z) a c
    : outcome (option (zenit_map_t C) * C) :=
  zenit_map_create_with_capacity_and_allocator key_size value_size HASH_DEFAULT_CAPACITY a c.

Definition zenit_map_destroy (map : option (zenit_map_t C)) c : C :=
  match map with
  | None => c
  | Some m =>
      let a := m_allocator m in
      let c1 := free_fn a (paddr (m_slots m)) c in
      let c2 := free_fn a (paddr (m_states m)) c1 in
      free_fn a (Some (m_self m)) c2
  end.

(** The part of [zenit_map_insert] after the load check. *)
Definition insert_loaded (fuel : nat) m (k v : bytes) c
    : outcome (zenit_error_t * option (zenit_map_t C) * C) :=
  let! (state, index) := probe_slot fuel m k in
  if decide (state = HASH_SLOT_OCCUPIED) then
    let! vb := rd v 0 (m_value_size m) in
    let! slots := pwr (m_slots m) (u64 (u64 (index * m_slot_size m) + m_key_size m)) vb in
    Ret (ZENIT_OK,
         Some (upd_map m slots (m_states m) (m_capacity m) (m_count m) (m_deleted m)), c)
  else
    let! kb := rd k 0 (m_key_size m) in
    let! vb := rd v 0 (m_value_size m) in
    let! (slots, states) := put_entry m index kb vb in
    Ret (ZENIT_OK,
         Some (upd_map m slots states (m_capacity m) (u64 (m_count m + 1))
                 (if decide (state = HASH_SLOT_DELETED) then u64 (m_deleted m - 1)
                  else m_deleted m)), c).

Definition zenit_map_insert (fuel : nat) (map : option (zenit_map_t C)) (key value : option bytes) c
    : outcome (zenit_error_t * option (zenit_map_t C) * C) :=
  match map, key, value with
  | Some m, Some k, Some v =>
      let! (lr, m1, c1) := ensure_load fuel m c in
      if decide (lr <> ZENIT_OK) then Ret (lr, Some m1, c1)
      else insert_loaded fuel m1 k v c1
  | _, _, _ => Ret (ZENIT_ERROR_NULL, map, c)
  end.

Definition zenit_map_get (fuel : nat) (map : option (zenit_map_t C)) (key out_value : option bytes)
    : outcome (zenit_error_t * option bytes) :=
  match map, key, out_value with
  | Some m, Some k, Some out =>
      let! (state, index) := probe_slot fuel m k in
      if decide (state <> HASH_SLOT_OCCUPIED) then Ret (ZENIT_ERROR_NOT_FOUND, out_value)
      else
        let! v := prd (m_slots m) (u64 (u64 (index * m_slot_size m) + m_key_size m))
                    (m_value_size m) in
        let! out1 := wr out 0 v in
        Ret (ZENIT_OK, Some out1)
  | _, _, _ => Ret (ZENIT_ERROR_NULL, out_value)
  end.

Definition zenit_map_remove (fuel : nat) (map : option (zenit_map_t C)) (key : option bytes)
    : outcome (zenit_error_t * option (zenit_map_t C)) :=
  match map, key with
  | Some m, Some k =>
      let! (state, index) := probe_slot fuel m k in
      if decide (state <> HASH_SLOT_OCCUPIED) then Ret (ZENIT_ERROR_NOT_FOUND, map)
      else
        let! states := pset (m_states m) index HASH_SLOT_DELETED in
        Ret (ZENIT_OK,
             Some (upd_map m (m_slots m) states (m_capacity m) (u64 (m_count m - 1))
                     (u64 (m_deleted m + 1))))
  | _, _ => Ret (ZENIT_ERROR_NULL, map)
  end.

Definition zenit_map_contains (fuel : nat) (map : option (zenit_map_t C)) (key : option bytes)
    : outcome bool :=
  match map, key with
  | Some m, Some k =>
      let! (state, _) := probe_slot fuel m k in Ret (bool_decide (state = HASH_SLOT_OCCUPIED))
  | _, _ => Ret false
  end.

Definition zenit_map_count (map : option (zenit_map_t C)) : Z :=
  match map with None => 0 | Some m => m_count m end.

Definition zenit_map_capacity (map : option (zenit_map_t C)) : Z :=
  match map with None => 0 | Some m => m_capacity m end.

Definition zenit_map_clear (map : option (zenit_map_t C)) : outcome (option (zenit_map_t C)) :=
  match map with
  | None => Ret None
  | Some m =>
      let! states := pmemset (m_states m) 0 HASH_SLOT_EMPTY (m_capacity m) in
      Ret (Some (upd_map m (m_slots m) states (m_capacity m) 0 0))
  end.

(** The loop of [zenit_map_foreach]; the callback is a function on its own state
    [ctx], given the bytes its two pointers refer to. *)
Fixpoint foreach_loop {S : Type} (n : nat) (i : Z) m (visit : bytes -> bytes -> S -> S) (ctx : S)
    : outcome S :=
  match n with
  | O => Ret ctx
  | Datatypes.S n =>
      let! state := pget (m_states m) i in
      let! ctx1 :=
        if decide (state = HASH_SLOT_OCCUPIED) then
          let slot := u64 (i * m_slot_size m) in
          let! k := prd (m_slots m) slot (m_key_size m) in
          let! v := prd (m_slots m) (u64 (slot + m_key_size m)) (m_value_size m) in
          Ret (visit k v ctx)
        else Ret ctx in
      foreach_loop n (i + 1) m visit ctx1
  end.

Definition zenit_map_foreach {S : Type} (map : option (zenit_map_t C))
    (visit : option (bytes -> bytes -> S -> S)) (ctx : S) : outcome S :=
  match map, visit with
  | Some m, Some f => foreach_loop (Z.to_nat (m_capacity m)) 0 m f ctx
  | _, _ => Ret ctx
  end.

Definition zenit_map_iter (map : option (zenit_map_t C)) : zenit_iter_t :=
  mk_iter 0 (match map with Some m => m_count m | None => 0 end)
    (match map with Some _ => true | None => false end) None.

(** The scan of [zenit_map_iter_next], at most [n] slots: the slot's offset and
    the index after it. *)
Fixpoint iter_scan (n : nat) (index : Z) m : outcome (option Z * Z) :=
  match n with
  | O => Ret (None, index)
  | Datatypes.S n =>
      if decide (index < m_capacity m) then
        let! state := pget (m_states m) index in
        if decide (state = HASH_SLOT_OCCUPIED)
        then Ret (Some (u64 (index * m_slot_size m)), u64 (index + 1))
        else iter_scan n (u64 (index + 1)) m
      else Ret (None, index)
  end.

Definition zenit_map_iter_next (iter : option zenit_iter_t) (container : option (zenit_map_t C))
    : outcome (option Z * option zenit_iter_t) :=
  match iter with
  | None => Ret (None, None)
  | Some it =>
      if negb (it_is_valid it) then Ret (None, iter)
      else
        match container with
        | None => Undef
        | Some m =>
            let! (p, index) := iter_scan (Z.to_nat (m_capacity m - it_index it)) (it_index it) m in
            Ret (p, Some (mk_iter index (it_count it) (it_is_valid it) (it_internal it)))
        end
  end.

(** The collecting loop shared by [zenit_map_keys] and [zenit_map_values]: the
    [part] bytes at offset [off] of every occupied slot go to [dst]. *)
Fixpoint collect_loop (n : nat) (i pos : Z) m (off part : Z) (dst : option block)
    : outcome (option block * Z) :=
  match n with
  | O => Ret (dst, pos)
  | Datatypes.S n =>
      let! state := pget (m_states m) i in
      let! (dst1, pos1) :=
        if decide (state = HASH_SLOT_OCCUPIED) then
          let! x := prd (m_slots m) (u64 (u64 (i * m_slot_size m) + off)) part in
          let! d := pwr dst (u64 (pos * part)) x in
          Ret (d, u64 (pos + 1))
        else Ret (dst, pos) in
      collect_loop n (i + 1) pos1 m off part dst1
  end.

Definition collect (map : option (zenit_map_t C)) (out_ptrs : bool)
    (off part : zenit_map_t C -> Z) c : outcome (zenit_error_t * option block * Z * C) :=
  match map, out_ptrs with
  | None, _ | _, false => Ret (ZENIT_ERROR_NULL, None, 0, c)
  | Some m, true =>
      if decide (m_count m = 0) then Ret (ZENIT_OK, None, 0, c)
      else
        match alloc_fn (m_allocator m) (u64 (m_count m * part m)) c with
        | (None, c1) => Ret (ZENIT_ERROR_ALLOC, None, 0, c1)
        | (dst, c1) =>
            let! (d, pos) := collect_loop (Z.to_nat (m_capacity m)) 0 0 m (off m) (part m) dst in
            Ret (ZENIT_OK, d, pos, c1)
        end
  end.

(** [out_ptrs]: neither out-pointer is NULL; what they point to is returned. *)
Definition zenit_map_keys (map : option (zenit_map_t C)) (out_ptrs : bool) c
    : outcome (zenit_error_t * option block * Z * C) :=
  collect map out_ptrs (fun _ => 0) m_key_size c.

Definition zenit_map_values (map : option (zenit_map_t C)) (out_ptrs : bool) c
    : outcome (zenit_error_t * option block * Z * C) :=
  collect map out_ptrs m_key_size m_value_size c.

Definition zenit_map_keys_free (map : option (zenit_map_t C)) (keys : option addr) c
    : zenit_error_t * C :=
  match map, keys with
  | Some m, Some _ => (ZENIT_OK, free_fn (m_allocator m) keys c)
  | _, _ => (ZENIT_ERROR_NULL, c)
  end.

Definition zenit_map_values_free (map : option (zenit_map_t C)) (values : option addr) c
    : zenit_error_t * C :=
  match map, values with
  | Some m, Some _ => (ZENIT_OK, free_fn (m_allocator m) values c)
  | _, _ => (ZENIT_ERROR_NULL, c)
  end.
End MapModel.

Definition zenit_map_create_with_capacity (key_size value_size capacity : Z) (h : heap)
    : outcome (option (zenit_map_t heap) * heap) :=
  zenit_map_create_with_capacity_and_allocator key_size value_size capacity
    ZENIT_ALLOCATOR_DEFAULT h.
Definition zenit_map_create (key_size value_size : Z) (h : heap)
    : outcome (option (zenit_map_t heap) * heap) :=
  zenit_map_create_with_capacity key_size value_size HASH_DEFAULT_CAPACITY h.

(** ** Representation and abstract specification *)

(** The bindings stored in a table. *)
Definition tbl_map (ks : Z) (tbl : list slot) : gmap bytes bytes :=
  list_to_map ((fun e => (key_of ks e, drop (Z.to_nat ks) e)) <$> entries tbl).

Definition map_owns {C : Type} (m : zenit_map_t C) : gset addr :=
  {[ m_self m ]} ∪ (pown (m_slots m) ∪ pown (m_states m)).

(** Everything but the room for another probe: [used < capacity]. *)
Record map_core {C : Type} (a : zenit_allocator_t C) {SP : AllocSpec a}
    (m : zenit_map_t C) (tbl : list slot) (c : C) : Prop := {
  mr_alloc : m_allocator m = a;
  mr_sizes : 0 < m_key_size m /\ 0 < m_value_size m /\
             m_slot_size m = m_key_size m + m_value_size m;
  mr_ok : table_ok (m_key_size m) tbl;
  mr_mem : table_mem (m_slot_size m) (m_slots m) (m_states m) tbl;
  mr_cap : zlen tbl = m_capacity m;
  mr_pow : is_pow2 (m_capacity m);
  mr_fit : m_capacity m * m_slot_size m <= PTRDIFF_MAX;
  mr_count : m_count m = n_occ tbl;
  mr_deleted : m_deleted m = n_del tbl;
  mr_self : m_self m ∉ pown (m_slots m) ∪ pown (m_states m);
  mr_disj : pown (m_slots m) ## pown (m_states m);
  mr_live : map_owns m ⊆ live c }.

Definition map_used {C : Type} (m : zenit_map_t C) : Z := m_count m + m_deleted m.

(** [map_rep a m g c]: the map [m] holds the bindings [g]. *)
Definition map_rep {C : Type} (a : zenit_allocator_t C) {SP : AllocSpec a}
    (m : zenit_map_t C) (g : gmap bytes bytes) (c : C) : Prop :=
  exists tbl, map_core a m tbl c /\ g = tbl_map (m_key_size m) tbl /\
    map_used m < m_capacity m.

Inductive map_op : Type :=
| MInsert (k v : bytes)
| MGet (k : bytes)
| MRemove (k : bytes)
| MContains (k : bytes)
| MCount
| MClear.

Inductive map_res : Type :=
| MErr (e : zenit_error_t) (out : option bytes)
| MBool (b : bool)
| MNum (n : Z)
| MVoid.

(** The documented behaviour: a dictionary. *)
Definition map_abs (op : map_op) (g : gmap bytes bytes) : map_res * gmap bytes bytes :=
  match op with
  | MInsert k v => (MErr ZENIT_OK None, <[k := v]> g)
  | MGet k =>
      match g !! k with
      | Some v => (MErr ZENIT_OK (Some v), g)
      | None => (MErr ZENIT_ERROR_NOT_FOUND None, g)
      end
  | MRemove k =>
      match g !! k with
      | Some _ => (MErr ZENIT_OK None, delete k g)
      | None => (MErr ZENIT_ERROR_NOT_FOUND None, g)
      end
  | MContains k => (MBool (bool_decide (is_Some (g !! k))), g)
  | MCount => (MNum (Z.of_nat (size g)), g)
  | MClear => (MVoid, ∅)
  end.

Definition map_exec {C : Type} (fuel : nat) (op : map_op) (m : zenit_map_t C) (c : C)
    : outcome (map_res * option (zenit_map_t C) * C) :=
  match op with
  | MInsert k v =>
      let! (r, m', c') := zenit_map_insert fuel (Some m) (Some k) (Some v) c in
      Ret (MErr r None, m', c')
  | MGet k =>
      let! (r, o) :=
        zenit_map_get fuel (Some m) (Some k) (Some (replicate (Z.to_nat (m_value_size m)) 0)) in
      Ret (MErr r (if decide (r = ZENIT_OK) then o else None), Some m, c)
  | MRemove k => let! (r, m') := zenit_map_remove fuel (Some m) (Some k) in Ret (MErr r None, m', c)
  | MContains k => let! b := zenit_map_contains fuel (Some m) (Some k) in Ret (MBool b, Some m, c)
  | MCount => Ret (MNum (zenit_map_count (Some m)), Some m, c)
  | MClear => let! m' := zenit_map_clear (Some m) in Ret (MVoid, m', c)
  end.

Definition map_pre (ks vs : Z) (op : map_op) : Prop :=
  match op with
  | MInsert k v => zlen k = ks /\ zlen v = vs
  | MGet k | MRemove k | MContains k => zlen k = ks
  | MCount | MClear => True
  end.

(** The result of a call agrees with the dictionary, or an insertion could not
    allocate and changed nothing.  The table grows at most twofold, and only when
    three quarters of it are in use. *)
Definition map_post {C : Type} (a : zenit_allocator_t C) {SP : AllocSpec a}
    (op : map_op) (m : zenit_map_t C) (g : gmap bytes bytes) (c : C)
    (o : outcome (map_res * option (zenit_map_t C) * C)) : Prop :=
  exists r m' c' g', o = Ret (r, Some m', c') /\ map_rep a m' g' c' /\
    m_key_size m' = m_key_size m /\ m_value_size m' = m_value_size m /\
    transfer a (map_owns m) (map_owns m') c c' /\
    map_used m' <= map_used m + 1 /\
    (m_capacity m' = m_capacity m \/
     (m_capacity m' = 2 * m_capacity m /\ 75 * m_capacity m < 100 * map_used m)) /\
    (map_abs op g = (r, g') \/
     ((exists k v, op = MInsert k v) /\ r = MErr ZENIT_ERROR_ALLOC None /\ g' = g)).

Fixpoint map_run {C : Type} (fuel : nat) (ops : list map_op) (m : zenit_map_t C) (c : C)
    : outcome (list map_res * zenit_map_t C * C) :=
  match ops with
  | [] => Ret ([], m, c)
  | op :: ops =>
      let! (r, m', c') := map_exec fuel op m c in
      match m' with
      | Some m' => let! (rs, m2, c2) := map_run fuel ops m' c' in Ret (r :: rs, m2, c2)
      | None => Undef
      end
  end.

(** The results a dictionary may give, insertions being allowed to fail to
    allocate. *)
Inductive map_trace : gmap bytes bytes -> list map_op -> list map_res -> Prop :=
| mt_nil g : map_trace g [] []
| mt_step g op ops r rs g' :
    map_abs op g = (r, g') -> map_trace g' ops rs -> map_trace g (op :: ops) (r :: rs)
| mt_alloc g k v ops rs :
    map_trace g ops rs ->
    map_trace g (MInsert k v :: ops) (MErr ZENIT_ERROR_ALLOC None :: rs).

(** ** The bindings of a table *)

Section TblMap.
Context (ks : Z).

Lemma tbl_map_lookup tbl k v :
  table_ok ks tbl ->
  tbl_map ks tbl !! k = Some v <->
  exists e, SOcc e ∈ tbl /\ key_of ks e = k /\ drop (Z.to_nat ks) e = v.
Proof.
  intros H. unfold tbl_map. rewrite <- elem_of_list_to_map.
  2:{ rewrite <- list_fmap_compose. by apply entries_keys_nodup. }
  rewrite list_elem_of_fmap. setoid_rewrite entries_elem. naive_solver.
Qed.

Lemma tbl_map_none tbl k :
  table_ok ks tbl -> (forall e, SOcc e ∈ tbl -> key_of ks e <> k) -> tbl_map ks tbl !! k = None.
Proof.
  intros H Habs. destruct (tbl_map ks tbl !! k) as [v|] eqn:E; [|done].
  apply tbl_map_lookup in E as (e & He & Hk & _); [|done]. by destruct (Habs e).
Qed.

Lemma tbl_map_size tbl : table_ok ks tbl -> Z.of_nat (size (tbl_map ks tbl)) = n_occ tbl.
Proof.
  intros H. rewrite <- entries_length. unfold tbl_map, zlen. f_equal.
  rewrite map_size_list_to_map; [apply length_fmap|].
  rewrite <- list_fmap_compose. by apply entries_keys_nodup.
Qed.

(** Two tables with the same entries hold the same bindings. *)
Lemma tbl_map_ext t1 t2 :
  table_ok ks t1 -> table_ok ks t2 -> (forall x, SOcc x ∈ t1 <-> SOcc x ∈ t2) ->
  tbl_map ks t1 = tbl_map ks t2.
Proof.
  intros H1 H2 E. apply map_eq. intros k. apply option_eq. intros v.
  rewrite !tbl_map_lookup by done. by setoid_rewrite E.
Qed.

Lemma tbl_map_insert t1 t2 k v :
  table_ok ks t1 -> table_ok ks t2 -> zlen k = ks ->
  (forall x, SOcc x ∈ t2 <-> x = k ++ v \/ (SOcc x ∈ t1 /\ key_of ks x <> k)) ->
  tbl_map ks t2 = <[k := v]> (tbl_map ks t1).
Proof.
  intros H1 H2 Hk E. assert (Z.to_nat ks = length k) as Hn by (unfold zlen in Hk; lia).
  apply map_eq. intros j. apply option_eq. intros w.
  rewrite lookup_insert_Some, !tbl_map_lookup by done. setoid_rewrite E. split.
  - intros (e & [->|[He Hne]] & <- & <-).
    + left. unfold key_of. rewrite Hn, take_app_length, drop_app_length. done.
    + right. split; [done|]. by exists e.
  - intros [[<- <-]|[Hne (e & He & Hj & Hw)]].
    + exists (k ++ v). split; [by left|]. unfold key_of. by rewrite Hn, take_app_length, drop_app_length.
    + exists e. split; [right; split; [done|congruence]|done].
Qed.

Lemma tbl_map_delete t1 t2 k :
  table_ok ks t1 -> table_ok ks t2 ->
  (forall x, SOcc x ∈ t2 <-> SOcc x ∈ t1 /\ key_of ks x <> k) ->
  tbl_map ks t2 = delete k (tbl_map ks t1).
Proof.
  intros H1 H2 E. apply map_eq. intros j. apply option_eq. intros w.
  rewrite lookup_delete_Some, !tbl_map_lookup by done. setoid_rewrite E. naive_solver.
Qed.

Lemma tbl_map_empty n : tbl_map ks (replicate n SEmpty) = ∅.
Proof. unfold tbl_map. assert (entries (replicate n SEmpty) = []) as -> by (by induction n). done. Qed.
End TblMap.

Section MapSpec.
Context {C : Type} (a : zenit_allocator_t C) {SP : AllocSpec a}.
Implicit Types (m : zenit_map_t C) (c : C) (tbl : list slot) (g : gmap bytes bytes).

Lemma map_bounds m tbl c :
  map_core a m tbl c ->
  0 < m_capacity m <= PTRDIFF_MAX /\ 0 <= n_occ tbl /\ 0 <= n_del tbl /\
  n_occ tbl + n_del tbl <= m_capacity m /\ 0 < m_key_size m /\ 0 < m_value_size m /\
  m_slot_size m = m_key_size m + m_value_size m /\ u64 (m_capacity m - 1) = zlen tbl - 1.
Proof.
  intros H. destruct (mr_sizes _ _ _ _ H) as (H1 & H2 & H3).
  pose proof (is_pow2_pos _ (mr_pow _ _ _ _ H)). pose proof (mr_fit _ _ _ _ H).
  pose proof (n_occ_nonneg tbl). pose proof (n_del_nonneg tbl).
  pose proof (n_used_bound tbl) as B. rewrite (mr_cap _ _ _ _ H) in *.
  assert (m_capacity m <= PTRDIFF_MAX) by nia. rewrite u64_small by lia. lia.
Qed.

Lemma probe_slot_spec fuel m tbl c k :
  map_core a m tbl c -> map_used m < m_capacity m -> zlen k = m_key_size m ->
  (Z.to_nat (m_capacity m) <= fuel)%nat ->
  exists st i, probe_slot fuel m k = Ret (st, i) /\ probe_result (m_key_size m) tbl k st i.
Proof.
  intros H Hu Hk Hf. pose proof (map_bounds _ _ _ H) as (B1 & B2 & B3 & B4 & B5 & B6 & B7 & B8).
  unfold probe_slot, hash_fnv1a. rewrite rd_whole by done. simpl. rewrite B8.
  pose proof (mr_cap _ _ _ _ H) as Hc. pose proof (mr_pow _ _ _ _ H) as Hp.
  rewrite <- Hc in Hp. rewrite probe_at_home by done.
  apply probe_walk_spec; try done; try apply H; try lia.
  - rewrite Hc. apply H.
  - apply has_empty. unfold map_used in Hu.
    rewrite (mr_count _ _ _ _ H), (mr_deleted _ _ _ _ H) in Hu. lia.
Qed.

Lemma put_entry_spec m tbl c i k v :
  map_core a m tbl c -> 0 <= i < m_capacity m -> zlen k = m_key_size m -> zlen v = m_value_size m ->
  exists slots states, put_entry m i k v = Ret (slots, states) /\
    pown slots = pown (m_slots m) /\ pown states = pown (m_states m) /\
    table_mem (m_slot_size m) slots states (<[Z.to_nat i := SOcc (k ++ v)]> tbl).
Proof.
  intros H Hi Hk Hv. pose proof (map_bounds _ _ _ H) as (B1 & B2 & B3 & B4 & B5 & B6 & B7 & B8).
  pose proof (mr_fit _ _ _ _ H) as Hfit. pose proof (mr_cap _ _ _ _ H) as Hc.
  pose proof (mr_mem _ _ _ _ H) as M. destruct (tm_slots _ _ _ _ M) as (sl & S & L & V).
  destruct (lookup_lt_is_Some_2 sl (Z.to_nat i)) as [s Es]; [unfold zlen in *; lia|].
  pose proof (proj2 S) as F. pose proof (Forall_lookup_1 _ _ _ s F Es) as Ls. simpl in Ls.
  unfold put_entry. rewrite !(u64_small (i * _)), u64_small by nia.
  destruct (pwr_sub (m_slot_size m) (m_slots m) sl i s 0 k)
    as (p1 & W1 & N1 & O1 & S1); [apply M|done|lia|done|lia|lia|].
  rewrite Z.add_0_r in W1. rewrite W1. simpl.
  set (s1 := take _ s ++ _) in S1.
  destruct (pwr_sub (m_slot_size m) p1 (<[Z.to_nat i := s1]> sl) i s1 (m_key_size m) v)
    as (p2 & W2 & N2 & O2 & S2); [done|done|lia| |lia|lia|].
  { apply list_lookup_insert_eq. by eapply lookup_lt_Some. }
  rewrite W2. simpl.
  assert (take (Z.to_nat (m_key_size m)) s1 ++ v ++
            drop (Z.to_nat (m_key_size m) + length v) s1 = k ++ v) as E.
  { unfold s1. simpl. replace (Z.to_nat (m_key_size m)) with (length k) by (unfold zlen in Hk; lia).
    rewrite take_app_length, drop_ge; [by rewrite app_nil_r|].
    rewrite length_app, length_drop. unfold zlen in *. lia. }
  rewrite E, list_insert_insert_eq in S2.
  destruct (table_mem_put (m_slot_size m) (m_slots m) p2 (m_states m) tbl sl i (k ++ v))
    as (st & P & Ost & T); [done|done|done|lia|done|done|].
  rewrite P. simpl. exists p2, st. split; [done|]. split; [congruence|done].
Qed.

(** New table contents in the same memory blocks. *)
Lemma map_core_update m tbl c slots states tbl' :
  map_core a m tbl c -> table_ok (m_key_size m) tbl' ->
  table_mem (m_slot_size m) slots states tbl' -> zlen tbl' = zlen tbl ->
  pown slots = pown (m_slots m) -> pown states = pown (m_states m) ->
  map_core a (upd_map m slots states (m_capacity m) (n_occ tbl') (n_del tbl')) tbl' c /\
  map_owns (upd_map m slots states (m_capacity m) (n_occ tbl') (n_del tbl')) = map_owns m.
Proof.
  intros H Hok Hm Hl Hs Ht. unfold map_owns. simpl. rewrite Hs, Ht. split; [|done].
  constructor; simpl; try done; try apply H.
  - rewrite Hl. apply H.
  - rewrite Hs, Ht. apply H.
  - rewrite Hs, Ht. apply H.
  - unfold map_owns. simpl. rewrite Hs, Ht. apply H.
Qed.
End MapSpec.

Section MapRehash.
Context {C : Type} (a : zenit_allocator_t C) {SP : AllocSpec a}.
Implicit Types (m : zenit_map_t C) (c : C) (tbl : list slot) (g : gmap bytes bytes).

(** Reading the key and the value of an occupied slot. *)
Lemma read_entry ks vs ss slots states tbl cap i e :
  table_mem ss slots states tbl -> ss = ks + vs -> 0 < ks -> 0 < vs ->
  0 <= i < cap -> cap * ss <= PTRDIFF_MAX -> tbl !! Z.to_nat i = Some (SOcc e) ->
  prd slots (u64 (i * ss)) ks = Ret (key_of ks e) /\
  prd slots (u64 (u64 (i * ss) + ks)) vs = Ret (drop (Z.to_nat ks) e) /\
  key_of ks e ++ drop (Z.to_nat ks) e = e /\
  zlen (key_of ks e) = ks /\ zlen (drop (Z.to_nat ks) e) = vs.
Proof.
  intros M Hss Hk Hv Hi Hc E.
  assert (zlen e = ss) as Le by (eapply table_mem_len; [done|by eapply list_elem_of_lookup_2]).
  assert (i * ss + ss <= cap * ss) by nia.
  rewrite !(u64_small (i * ss)), u64_small by nia. split_and!.
  - rewrite <- (Z.add_0_r (i * ss)). erewrite table_mem_part by (done || lia). done.
  - erewrite table_mem_part by (done || lia). rewrite take_ge; [done|].
    rewrite length_drop. unfold zlen in Le. lia.
  - apply take_drop.
  - unfold key_of. rewrite zlen_take. lia.
  - rewrite zlen_drop. lia.
Qed.

Lemma rehash_loop_spec fuel old_slots old_states old_tbl t1 t2 : forall m tbl c,
  map_core a m tbl c -> old_tbl = t1 ++ t2 -> table_ok (m_key_size m) old_tbl ->
  table_mem (m_slot_size m) old_slots old_states old_tbl ->
  zlen old_tbl * m_slot_size m <= PTRDIFF_MAX ->
  (forall x, SOcc x ∈ tbl <-> SOcc x ∈ t1) -> n_occ tbl = n_occ t1 -> n_del tbl = 0 ->
  n_occ old_tbl < m_capacity m -> (Z.to_nat (m_capacity m) <= fuel)%nat ->
  exists m' tbl',
    rehash_loop fuel (length t2) (zlen t1) old_slots old_states (u64 (m_capacity m - 1)) m = Ret m' /\
    map_core a m' tbl' c /\ map_owns m' = map_owns m /\ m_self m' = m_self m /\
    m_key_size m' = m_key_size m /\ m_value_size m' = m_value_size m /\
    m_capacity m' = m_capacity m /\
    (forall x, SOcc x ∈ tbl' <-> SOcc x ∈ old_tbl) /\ n_occ tbl' = n_occ old_tbl /\ n_del tbl' = 0.
Proof.
  revert t1. induction t2 as [|s t2 IH]; intros t1 m tbl c H Eo Hok Hm Hsz Hin Hn Hd Hlt Hf.
  { rewrite app_nil_r in Eo. subst. by exists m, tbl. }
  pose proof (map_bounds a _ _ _ H) as (B1 & B2 & B3 & B4 & B5 & B6 & B7 & B8).
  assert (old_tbl !! Z.to_nat (zlen t1) = Some s) as Es.
  { subst old_tbl. unfold zlen. rewrite Nat2Z.id. by apply list_lookup_middle. }
  pose proof (zlen_nonneg t1) as L1. simpl.
  rewrite (table_mem_state _ _ _ _ _ _ Hm L1 Es). simpl.
  assert (old_tbl = (t1 ++ [s]) ++ t2) as Eo' by (by rewrite <- app_assoc).
  replace (zlen t1 + 1) with (zlen (t1 ++ [s])) by (rewrite zlen_app, zlen_cons, zlen_nil; lia).
  assert (n_occ (t1 ++ [s]) = n_occ t1 + is_occ s) as Hns
    by (unfold n_occ; rewrite slot_sum_app; simpl; lia).
  assert (forall x, SOcc x ∈ t1 ++ [s] <-> SOcc x ∈ t1 \/ s = SOcc x) as Hins.
  { intros x. rewrite elem_of_app, list_elem_of_singleton. naive_solver. }
  destruct s as [| |e]; simpl in *.
  1,2: apply (IH (t1 ++ [_]) m tbl c); try done; [|lia];
       intros x; rewrite Hins, Hin; naive_solver.
  destruct (read_entry (m_key_size m) (m_value_size m) (m_slot_size m) old_slots old_states old_tbl
    (zlen old_tbl) (zlen t1) e) as (R1 & R2 & Ee & Lk & Lv); try done; try lia.
  { subst old_tbl. zl. }
  rewrite R1. simpl. unfold hash_fnv1a. rewrite rd_whole by done. simpl.
  set (k := key_of (m_key_size m) e) in *. rewrite B8.
  pose proof (mr_cap _ _ _ _ H) as Hc. pose proof (mr_pow _ _ _ _ H) as Hp. rewrite <- Hc in Hp.
  rewrite probe_at_home by done.
  assert (n_occ t1 + 1 <= n_occ old_tbl) as Hb.
  { subst old_tbl. unfold n_occ. rewrite slot_sum_app. simpl. pose proof (n_occ_nonneg t2).
    unfold n_occ in *. lia. }
  destruct (free_walk_spec (m_key_size m) (m_slot_size m) (m_slots m) (m_states m) tbl k)
    with (fuel := fuel) (d := 0) as (d & -> & Hd' & Hch & s' & Es' & Hs'); try done; try apply H; try lia.
  { rewrite Hc. apply H. } { apply has_empty. lia. } { intros d' Hd'. lia. }
  simpl. rewrite R2. simpl.
  pose proof (probe_at_range (zlen tbl) k d ltac:(lia)) as Hr.
  destruct (put_entry_spec a m tbl c (probe_at (zlen tbl) k d) k (drop (Z.to_nat (m_key_size m)) e) H)
    as (slots & states & -> & O1 & O2 & M'); [lia|done|done|]. simpl. rewrite Ee in M'.
  set (tbl' := <[_ := SOcc e]> tbl) in M'.
  assert (forall x, SOcc x ∈ tbl -> key_of (m_key_size m) x <> k) as Habs.
  { intros x (j & Ej)%Hin%list_elem_of_lookup Hk.
    pose proof (lookup_lt_Some _ _ _ Ej) as Hj.
    assert (old_tbl !! j = Some (SOcc x)) as Ej' by (subst old_tbl; by rewrite lookup_app_l).
    pose proof (ok_distinct _ _ Hok _ _ _ _ Ej' Es Hk). unfold zlen in *. lia. }
  assert (table_ok (m_key_size m) tbl') as Hok'
    by (apply table_ok_put; [apply H|done|done|done|done]).
  assert (n_occ tbl' = n_occ tbl + 1 /\ n_del tbl' = 0) as [N1 N2].
  { unfold tbl'. rewrite (n_occ_insert _ _ _ _ Es'), (n_del_insert _ _ _ _ Es'). simpl.
    assert (is_del s' = 0) as Hds.
    { destruct s'; try done. exfalso. pose proof (n_del_nonneg (<[Z.to_nat (probe_at (zlen tbl) k d) := SEmpty]> tbl)) as ND.
      rewrite (n_del_insert _ _ _ _ Es') in ND. simpl in ND. lia. }
    lia. }
  destruct (map_core_update a m tbl c slots states tbl' H Hok' M') as [H' Ho'];
    [by unfold tbl'; rewrite zlen_insert|done|done|].
  rewrite u64_small by (rewrite (mr_count _ _ _ _ H); lia).
  replace (m_count m + 1) with (n_occ tbl') by (rewrite (mr_count _ _ _ _ H); lia).
  replace (m_deleted m) with (n_del tbl') by (rewrite (mr_deleted _ _ _ _ H); lia).
  set (m1 := upd_map m slots states (m_capacity m) (n_occ tbl') (n_del tbl')) in *.
  rewrite <- B8. change (m_capacity m) with (m_capacity m1) at 1.
  destruct (IH (t1 ++ [SOcc e]) m1 tbl' c H') as (m' & t' & E1 & E2 & E3 & E4); try done.
  - intros x. unfold tbl'. rewrite (elem_put _ _ s') by done. rewrite Hins, Hin. naive_solver.
  - rewrite Hns. lia.
  - exists m', t'. rewrite Ho' in E3. split; [exact E1|]. split; [exact E2|]. split; [exact E3|]. exact E4.
Qed.

Lemma rehash_spec fuel m tbl c n :
  map_core a m tbl c -> is_pow2 n -> m_capacity m < n -> n * m_slot_size m < two64 ->
  (Z.to_nat n <= fuel)%nat ->
  exists r m' c', rehash fuel m n c = Ret (r, m', c') /\
    transfer a (map_owns m) (map_owns m') c c' /\
    m_key_size m' = m_key_size m /\ m_value_size m' = m_value_size m /\
    ((r = ZENIT_OK /\ m_capacity m' = n /\ m_deleted m' = 0 /\ m_count m' = m_count m /\
      exists tbl', map_core a m' tbl' c' /\
        tbl_map (m_key_size m) tbl' = tbl_map (m_key_size m) tbl) \/
     (r = ZENIT_ERROR_ALLOC /\ m' = m /\ live c' = live c)).
Proof.
  intros H Hp Hn Hov Hf. pose proof (map_bounds a _ _ _ H) as (B1 & B2 & B3 & B4 & B5 & B6 & B7 & B8).
  pose proof (mr_live _ _ _ _ H) as Hl. pose proof (mr_self _ _ _ _ H) as Hs.
  pose proof (mr_disj _ _ _ _ H) as Hd. unfold map_owns in Hl.
  unfold rehash. rewrite (mr_alloc _ _ _ _ H).
  destruct (alloc_zero_cases a n (m_slot_size m) c) as (r1 & c1 & -> & P1); [nia|]. simpl.
  destruct r1 as [bs|].
  2:{ eexists _, _, _. split; [done|]. split; [split; rewrite P1; set_solver|].
      do 2 (split; [done|]). by right. }
  destruct P1 as (E1 & M1 & F1 & L1).
  destruct (alloc_zero_cases a n 1 c1) as (r2 & c2 & -> & P2); [nia|]. simpl.
  destruct r2 as [bt|].
  2:{ eexists _, _, _. split; [done|].
      assert (live (free_fn a (Some (b_addr bs)) c2) = live c) as El
        by (rewrite free_some; rewrite P2, L1; set_solver).
      split; [split; rewrite El; set_solver|]. do 2 (split; [done|]). by right. }
  destruct P2 as (E2 & M2 & F2 & L2).
  set (m1 := upd_map m (Some bs) (Some bt) n 0 0).
  assert (map_core a m1 (replicate (Z.to_nat n) SEmpty) c2) as H1.
  { constructor; simpl; try apply H; try done.
    - apply table_ok_empty. lia.
    - apply table_mem_empty; try done; lia.
    - rewrite zlen_replicate. lia.
    - by rewrite n_occ_replicate.
    - by rewrite n_del_replicate.
    - rewrite L1 in F2. set_solver.
    - rewrite L1 in F2. set_solver.
    - unfold map_owns. simpl. rewrite L2, L1. set_solver. }
  pose proof (mr_cap _ _ _ _ H) as Hc.
  destruct (rehash_loop_spec fuel (m_slots m) (m_states m) tbl [] tbl m1 _ c2 H1)
    as (m' & t' & E & H' & Ho & Hse & Hk & Hv & Hcap & Hin & No & Nd);
    try done; try apply H; try (simpl; lia).
  { rewrite Hc. apply H. }
  { intros x. rewrite elem_of_nil. split; [|done]. intros [? _]%elem_of_replicate. done. }
  { by rewrite n_occ_replicate. } { by rewrite n_del_replicate. }
  replace (Z.to_nat (m_capacity m)) with (length tbl) by (unfold zlen in Hc; lia).
  rewrite zlen_nil in E. simpl in E. rewrite E. simpl.
  eexists _, m', _. split; [done|]. simpl in *.
  pose proof (mr_live _ _ _ _ H') as Hl'. rewrite Ho in Hl'. unfold map_owns in Ho, Hl'. simpl in Ho, Hl'.
  set (c3 := free_fn a (paddr (m_slots m)) c2). set (c4 := free_fn a (paddr (m_states m)) c3).
  assert (transfer a (map_owns m) (map_owns m') c c4) as T.
  { unfold map_owns. rewrite Ho. apply transfer_replace.
    - done.
    - clear - Hs. set_solver.
    - rewrite L1 in F2. clear - F1 F2. set_solver.
    - assert (live c3 = ({[b_addr bt]} ∪ ({[b_addr bs]} ∪ live c)) ∖ pown (m_slots m)) as L3.
      { unfold c3. rewrite pfree_live; rewrite L2, L1; [done|]. clear - Hl. set_solver. }
      unfold c4. rewrite pfree_live; rewrite L3; [clear; set_solver|clear - Hl Hd; set_solver]. }
  split; [done|]. do 2 (split; [done|]). left. split; [done|]. split; [done|].
  split; [rewrite (mr_deleted _ _ _ _ H'); lia|].
  split; [rewrite (mr_count _ _ _ _ H'), (mr_count _ _ _ _ H); done|].
  exists t'. split.
  - destruct H'. constructor; try done. apply T.
  - apply tbl_map_ext; [rewrite <- Hk; apply H'|apply H|done].
Qed.
End MapRehash.

Section MapOps.
Context {C : Type} (a : zenit_allocator_t C) {SP : AllocSpec a}.
Implicit Types (m : zenit_map_t C) (c : C) (tbl : list slot) (g : gmap bytes bytes).

Lemma map_core_live m tbl c c' :
  map_core a m tbl c -> live c' = live c -> map_core a m tbl c'.
Proof. intros [] E. constructor; try done. by rewrite E. Qed.

(** After [ensure_load] there is room for one more entry and an empty slot
    besides, when the table has at least 8 slots. *)
Lemma ensure_load_spec fuel m tbl c :
  map_core a m tbl c -> map_used m < m_capacity m -> 8 <= m_capacity m <= 2 ^ 56 ->
  (Z.to_nat (2 * m_capacity m) <= fuel)%nat ->
  exists r m1 c1, ensure_load fuel m c = Ret (r, m1, c1) /\
    transfer a (map_owns m) (map_owns m1) c c1 /\
    m_key_size m1 = m_key_size m /\ m_value_size m1 = m_value_size m /\
    ((r = ZENIT_OK /\ map_used m1 + 1 < m_capacity m1 /\ map_used m1 <= map_used m /\
      (m_capacity m1 = m_capacity m \/
       (m_capacity m1 = 2 * m_capacity m /\ 75 * m_capacity m < 100 * map_used m)) /\
      exists tbl1, map_core a m1 tbl1 c1 /\
        tbl_map (m_key_size m) tbl1 = tbl_map (m_key_size m) tbl) \/
     (r = ZENIT_ERROR_ALLOC /\ m1 = m /\ live c1 = live c)).
Proof.
  intros H Hu Hc Hf. pose proof (map_bounds a _ _ _ H) as (B1 & B2 & B3 & B4 & B5 & B6 & B7 & B8).
  pose proof (mr_count _ _ _ _ H) as Hn. pose proof (mr_deleted _ _ _ _ H) as Hd.
  unfold map_used in *. unfold ensure_load, HASH_LOAD_PERCENT, HASH_GROWTH_FACTOR.
  rewrite (u64_small (m_count m + _)) by lia. rewrite !u64_small by lia. case_decide as D.
  - destruct (rehash_spec a fuel m tbl c (m_capacity m * 2) H)
      as (r & m1 & c1 & -> & T & Ek & Ev & P).
    { apply is_pow2_double, H. } { lia. } { pose proof (mr_fit _ _ _ _ H). nia. }
    { rewrite Z.mul_comm. done. }
    eexists _, _, _. split; [done|]. do 3 (split; [done|]).
    destruct P as [(-> & Ec & Ed & En & P)|P]; [left|by right].
    split; [done|]. split; [lia|]. split; [lia|]. split; [right; lia|done].
  - eexists _, _, _. split; [done|]. split; [apply transfer_refl, H|]. do 2 (split; [done|]).
    left. split; [done|]. split; [lia|]. split; [lia|]. split; [by left|]. by exists tbl.
Qed.

(** The binding a probe found. *)
Lemma found_lookup m tbl c k i e :
  map_core a m tbl c -> tbl !! Z.to_nat i = Some (SOcc e) -> key_of (m_key_size m) e = k ->
  tbl_map (m_key_size m) tbl !! k = Some (drop (Z.to_nat (m_key_size m)) e).
Proof.
  intros H E Hk. apply tbl_map_lookup; [apply H|]. exists e.
  split; [by eapply list_elem_of_lookup_2|done].
Qed.

Lemma map_post_pure op m g c r :
  map_rep a m g c -> map_abs op g = (r, g) -> map_post a op m g c (Ret (r, Some m, c)).
Proof.
  intros H E. exists r, m, c, g. do 4 (split; [done|]).
  split; [destruct H as (t & H & _); apply transfer_refl, H|]. split; [lia|].
  split; [by left|by left].
Qed.

(** Writing a new entry, or overwriting one, after the load check. *)
Lemma insert_loaded_spec fuel m tbl c k v :
  map_core a m tbl c -> map_used m + 1 < m_capacity m ->
  zlen k = m_key_size m -> zlen v = m_value_size m -> (Z.to_nat (m_capacity m) <= fuel)%nat ->
  exists m', insert_loaded fuel m k v c = Ret (ZENIT_OK, Some m', c) /\
    map_rep a m' (<[k := v]> (tbl_map (m_key_size m) tbl)) c /\ map_owns m' = map_owns m /\
    m_key_size m' = m_key_size m /\ m_value_size m' = m_value_size m /\
    m_capacity m' = m_capacity m /\ map_used m' <= map_used m + 1.
Proof.
  intros H Hu Hk Hv Hf. pose proof (map_bounds a _ _ _ H) as (B1 & B2 & B3 & B4 & B5 & B6 & B7 & B8).
  pose proof (mr_count _ _ _ _ H) as Hn. pose proof (mr_deleted _ _ _ _ H) as Hd.
  pose proof (mr_cap _ _ _ _ H) as Hc. unfold map_used in *. unfold insert_loaded.
  destruct (probe_slot_spec a fuel m tbl c k H) as (st & i & -> & P);
    [unfold map_used; lia|done|done|]. simpl.
  destruct P as [i e Hi Ei Ke|s d Habs Hd' Hch Es Hs]; simpl.
  - rewrite rd_whole by done. simpl.
    pose proof (mr_mem _ _ _ _ H) as M. destruct (tm_slots _ _ _ _ M) as (sl & S & L & V).
    destruct (read_entry (m_key_size m) (m_value_size m) (m_slot_size m) (m_slots m) (m_states m)
      tbl (zlen tbl) i e) as (_ & _ & Ee & Lk & Lv); try done.
    { rewrite Hc. apply H. }
    pose proof (mr_fit _ _ _ _ H) as Hfit. rewrite (u64_small (i * _)), u64_small by nia.
    destruct (pwr_sub (m_slot_size m) (m_slots m) sl i e (m_key_size m) v)
      as (p & -> & Np & Op & Sp); [apply M|done|lia|by apply V|lia|lia|]. simpl.
    rewrite drop_ge, app_nil_r in Sp
      by (unfold zlen in *; rewrite length_drop in Lv; lia).
    change (take (Z.to_nat (m_key_size m)) e) with (key_of (m_key_size m) e) in Sp.
    rewrite Ke in Sp.
    assert (table_mem (m_slot_size m) p (m_states m) (<[Z.to_nat i := SOcc (k ++ v)]> tbl)) as M'
      by (eapply (table_mem_overwrite _ (m_slots m) p _ tbl sl i e); [done|done|done|lia|done|done|done]).
    assert (key_of (m_key_size m) (k ++ v) = k) as Kkv.
    { unfold key_of. replace (Z.to_nat (m_key_size m)) with (length k) by (unfold zlen in Hk; lia).
      apply take_app_length. }
    assert (table_ok (m_key_size m) (<[Z.to_nat i := SOcc (k ++ v)]> tbl)) as Hok'
      by (eapply table_ok_overwrite; [apply H|done|congruence]).
    destruct (map_core_update a m tbl c p (m_states m) _ H Hok' M') as [H' Ho'];
      [by rewrite zlen_insert|done|done|].
    rewrite (n_occ_insert _ _ _ _ Ei), (n_del_insert _ _ _ _ Ei) in H', Ho'. simpl in H', Ho'.
    replace (n_occ tbl - 1 + 1) with (m_count m) in * by lia.
    replace (n_del tbl - 0 + 0) with (m_deleted m) in * by lia.
    eexists. split; [done|]. split; [|simpl; split_and!; try done; lia].
    eexists. split; [exact H'|]. simpl. split; [|unfold map_used; simpl; lia].
    symmetry. apply tbl_map_insert; [apply H|done|done|].
    intros x. rewrite (elem_overwrite (m_key_size m) _ _ e) by (apply H || done). by rewrite Ke.
  - rewrite decide_False by (by destruct Hs as [->| ->]).
    rewrite !rd_whole by done. simpl.
    pose proof (probe_at_range (zlen tbl) k d ltac:(lia)) as Hr.
    destruct (put_entry_spec a m tbl c _ k v H ltac:(rewrite <- Hc; exact Hr) Hk Hv)
      as (slots & states & -> & O1 & O2 & M'). simpl.
    assert (key_of (m_key_size m) (k ++ v) = k) as Kkv.
    { unfold key_of. replace (Z.to_nat (m_key_size m)) with (length k) by (unfold zlen in Hk; lia).
      apply take_app_length. }
    assert (table_ok (m_key_size m) (<[Z.to_nat (probe_at (zlen tbl) k d) := SOcc (k ++ v)]> tbl)) as Hok'
      by (apply table_ok_put; [apply H|done|done|done|done]).
    destruct (map_core_update a m tbl c slots states _ H Hok' M') as [H' Ho'];
      [by rewrite zlen_insert|done|done|].
    rewrite (n_occ_insert _ _ _ _ Es), (n_del_insert _ _ _ _ Es) in H', Ho'.
    assert (is_occ s = 0) as Hso by (by destruct Hs as [->| ->]).
    assert ((if decide (slot_code s = HASH_SLOT_DELETED) then u64 (m_deleted m - 1) else m_deleted m)
            = n_del tbl - is_del s + is_del (SOcc (k ++ v))) as ->.
    { pose proof (n_del_nonneg (<[Z.to_nat (probe_at (zlen tbl) k d) := SOcc (k ++ v)]> tbl)) as ND.
      rewrite (n_del_insert _ _ _ _ Es) in ND.
      destruct Hs as [->| ->]; simpl in *; [lia|]. rewrite u64_small; lia. }
    rewrite u64_small by lia.
    replace (m_count m + 1) with (n_occ tbl - is_occ s + is_occ (SOcc (k ++ v))) by (simpl; lia).
    eexists. split; [done|].
    split; [|simpl; split_and!; try done; destruct Hs as [->| ->]; simpl; lia].
    eexists. split; [exact H'|]. simpl.
    split; [|unfold map_used; simpl; destruct Hs as [->| ->]; simpl; lia].
    symmetry. apply tbl_map_insert; [apply H|done|done|].
    intros x. rewrite (elem_put _ _ s) by done. split; [|naive_solver].
    intros [->|Hx]; [by left|right]. split; [done|by apply Habs].
Qed.
End MapOps.

Section MapRefinement.
Context {C : Type} (a : zenit_allocator_t C) {SP : AllocSpec a}.
Implicit Types (m : zenit_map_t C) (c : C) (tbl : list slot) (g : gmap bytes bytes).

Lemma map_insert_step fuel m g c k v :
  map_rep a m g c -> 8 <= m_capacity m <= 2 ^ 56 -> zlen k = m_key_size m ->
  zlen v = m_value_size m -> (Z.to_nat (2 * m_capacity m) <= fuel)%nat ->
  map_post a (MInsert k v) m g c (map_exec fuel (MInsert k v) m c).
Proof.
  intros (tbl & H & -> & Hu) Hc Hk Hv Hf. cbn [map_exec zenit_map_insert].
  destruct (ensure_load_spec a fuel m tbl c H Hu Hc Hf)
    as (r & m1 & c1 & -> & T & Ek & Ev & P). simpl.
  destruct P as [(-> & Hroom & Hle & Hcap & t1 & H1 & Et)|(-> & -> & Lc)]; simpl.
  - destruct (insert_loaded_spec a fuel m1 t1 c1 k v H1 Hroom)
      as (m' & -> & R & Ho & Ek' & Ev' & Ec' & Hu'); [congruence|congruence|lia|]. simpl.
    rewrite Ek, Et in R. eexists _, _, _, _. split; [done|]. split; [done|].
    split; [congruence|]. split; [congruence|]. split; [by rewrite Ho|]. split; [lia|].
    split; [by rewrite Ec'|by left].
  - eexists _, _, _, _. split; [done|]. split.
    { exists tbl. split; [by eapply map_core_live|done]. }
    do 3 (split; [done|]). split; [lia|]. split; [by left|]. right. by eauto.
Qed.

Lemma map_get_step fuel m g c k :
  map_rep a m g c -> zlen k = m_key_size m -> (Z.to_nat (m_capacity m) <= fuel)%nat ->
  map_post a (MGet k) m g c (map_exec fuel (MGet k) m c).
Proof.
  intros R Hk Hf. pose proof R as (tbl & H & -> & Hu).
  pose proof (map_bounds a _ _ _ H) as (B1 & B2 & B3 & B4 & B5 & B6 & B7 & B8).
  cbn [map_exec zenit_map_get].
  destruct (probe_slot_spec a fuel m tbl c k H Hu Hk Hf) as (st & i & -> & P). simpl.
  destruct P as [i e Hi Ei Ke|s d Habs Hd' Hch Es Hs]; simpl.
  - destruct (read_entry (m_key_size m) (m_value_size m) (m_slot_size m) (m_slots m) (m_states m)
      tbl (zlen tbl) i e) as (_ & -> & Ee & Lk & Lv); try done; try apply H.
    { rewrite (mr_cap _ _ _ _ H). apply H. }
    simpl. rewrite wr_whole by (rewrite zlen_replicate; lia). simpl.
    apply map_post_pure; [done|]. simpl. by erewrite found_lookup.
  - rewrite decide_True by (by destruct Hs as [->| ->]). simpl.
    apply map_post_pure; [done|]. simpl. rewrite tbl_map_none; [done|apply H|done].
Qed.

Lemma map_contains_step fuel m g c k :
  map_rep a m g c -> zlen k = m_key_size m -> (Z.to_nat (m_capacity m) <= fuel)%nat ->
  map_post a (MContains k) m g c (map_exec fuel (MContains k) m c).
Proof.
  intros R Hk Hf. pose proof R as (tbl & H & -> & Hu). cbn [map_exec zenit_map_contains].
  destruct (probe_slot_spec a fuel m tbl c k H Hu Hk Hf) as (st & i & -> & P). simpl.
  apply map_post_pure; [done|]. simpl. do 2 f_equal.
  destruct P as [i e Hi Ei Ke|s d Habs Hd' Hch Es Hs]; simpl.
  - rewrite (found_lookup a m tbl c k i e) by done. by rewrite !bool_decide_eq_true_2.
  - rewrite tbl_map_none by (apply H || done).
    rewrite !bool_decide_eq_false_2; [done|by destruct Hs as [->| ->]|by intros [? ?]].
Qed.

Lemma map_remove_step fuel m g c k :
  map_rep a m g c -> zlen k = m_key_size m -> (Z.to_nat (m_capacity m) <= fuel)%nat ->
  map_post a (MRemove k) m g c (map_exec fuel (MRemove k) m c).
Proof.
  intros R Hk Hf. pose proof R as (tbl & H & -> & Hu).
  pose proof (map_bounds a _ _ _ H) as (B1 & B2 & B3 & B4 & B5 & B6 & B7 & B8).
  pose proof (mr_count _ _ _ _ H) as Hn. pose proof (mr_deleted _ _ _ _ H) as Hd.
  cbn [map_exec zenit_map_remove].
  destruct (probe_slot_spec a fuel m tbl c k H Hu Hk Hf) as (st & i & -> & P). simpl.
  destruct P as [i e Hi Ei Ke|s d Habs Hd' Hch Es Hs]; simpl.
  - destruct (table_mem_set_state (m_slot_size m) (m_slots m) (m_states m) tbl i (SOcc e) SDeleted)
      as (st & Pst & O & M); [apply H|lia|done|done|].
    simpl in Pst. rewrite Pst. simpl.
    pose proof (table_ok_delete (m_key_size m) tbl (Z.to_nat i) (mr_ok _ _ _ _ H)) as Hok'.
    destruct (map_core_update a m tbl c (m_slots m) st _ H Hok' M) as [H' Ho'];
      [by rewrite zlen_insert|done|done|].
    rewrite (n_occ_insert _ _ _ _ Ei), (n_del_insert _ _ _ _ Ei) in H', Ho'. simpl in H', Ho'.
    pose proof (n_occ_nonneg (<[Z.to_nat i := SDeleted]> tbl)) as NN.
    rewrite (n_occ_insert _ _ _ _ Ei) in NN. simpl in NN.
    unfold map_used in *. rewrite !u64_small by lia.
    replace (m_count m - 1) with (n_occ tbl - 1 + 0) by lia.
    replace (m_deleted m + 1) with (n_del tbl - 0 + 1) by lia.
    eexists _, _, _, _. split; [done|]. split; [eexists; split; [exact H'|split; [done|]]|].
    { unfold map_used. simpl. lia. }
    do 2 (split; [done|]). split; [rewrite Ho'; apply transfer_refl, H|].
    split; [unfold map_used; simpl; lia|]. split; [by left|left].
    simpl. erewrite found_lookup by done. f_equal. symmetry.
    apply tbl_map_delete; [apply H|done|]. intros x.
    rewrite (elem_delete (m_key_size m) _ _ e) by (apply H || done). by rewrite Ke.
  - rewrite decide_True by (by destruct Hs as [->| ->]). simpl.
    apply map_post_pure; [done|]. simpl. rewrite tbl_map_none; [done|apply H|done].
Qed.

Lemma map_clear_step fuel m g c :
  map_rep a m g c -> map_post a MClear m g c (map_exec fuel MClear m c).
Proof.
  intros (tbl & H & -> & Hu).
  pose proof (map_bounds a _ _ _ H) as (B1 & B2 & B3 & B4 & B5 & B6 & B7 & B8).
  pose proof (mr_mem _ _ _ _ H) as M. pose proof (mr_cap _ _ _ _ H) as Hc.
  pose proof (tm_states _ _ _ _ M) as Est.
  assert (zlen (pbytes (m_states m)) = m_capacity m) as Ls
    by (rewrite Est; unfold zlen in *; rewrite length_fmap; lia).
  cbn [map_exec zenit_map_clear]. unfold pmemset. rewrite decide_True by lia.
  destruct (pwr_wr (m_states m) 0 (replicate (Z.to_nat (m_capacity m)) HASH_SLOT_EMPTY)
    (replicate (Z.to_nat (m_capacity m)) HASH_SLOT_EMPTY)) as (st & -> & Eb & O & _ & N).
  { apply M. } { apply wr_whole. rewrite zlen_replicate. lia. }
  simpl. set (tbl' := replicate (Z.to_nat (m_capacity m)) SEmpty).
  assert (table_ok (m_key_size m) tbl') as Hok' by (apply table_ok_empty; lia).
  assert (table_mem (m_slot_size m) (m_slots m) st tbl') as M'.
  { constructor; try done; try apply M.
    - rewrite Eb. unfold tbl'. by rewrite fmap_replicate.
    - destruct (tm_slots _ _ _ _ M) as (sl & S & L & _). exists sl. split; [done|].
      split; [unfold tbl'; rewrite zlen_replicate; lia|].
      intros i e [? _]%lookup_replicate. done. }
  destruct (map_core_update a m tbl c (m_slots m) st tbl' H Hok' M') as [H' Ho'];
    [unfold tbl'; rewrite zlen_replicate; lia|done|done|].
  unfold tbl' in H', Ho'. rewrite n_occ_replicate, n_del_replicate in H', Ho'.
  unfold map_used in *.
  eexists _, _, _, _. split; [done|]. split; [eexists; split; [exact H'|split; [done|]]|].
  { unfold map_used. simpl. lia. }
  do 2 (split; [done|]). split; [rewrite Ho'; apply transfer_refl, H|].
  pose proof (mr_count _ _ _ _ H). pose proof (mr_deleted _ _ _ _ H).
  split; [unfold map_used; simpl; lia|]. split; [by left|left]. simpl. by rewrite tbl_map_empty.
Qed.

Lemma map_step fuel op m g c :
  map_rep a m g c -> map_pre (m_key_size m) (m_value_size m) op -> 8 <= m_capacity m <= 2 ^ 56 ->
  (Z.to_nat (2 * m_capacity m) <= fuel)%nat ->
  map_post a op m g c (map_exec fuel op m c).
Proof.
  intros R Hp Hc Hf. destruct op as [k v|k|k|k| |]; simpl in Hp.
  - apply map_insert_step; naive_solver.
  - apply map_get_step; [done|done|lia].
  - apply map_remove_step; [done|done|lia].
  - apply map_contains_step; [done|done|lia].
  - apply map_post_pure; [done|]. destruct R as (tbl & H & -> & _). simpl.
    rewrite tbl_map_size by apply H. by rewrite (mr_count _ _ _ _ H).
  - by apply map_clear_step.
Qed.

Lemma map_create_spec ks vs n c :
  0 <= ks -> 0 <= vs -> 0 <= n <= two63 -> round_pow2 n * (ks + vs) < two64 ->
  exists r c', zenit_map_create_with_capacity_and_allocator ks vs n a c = Ret (r, c') /\
  match r with
  | None => live c' = live c
  | Some m => map_rep a m ∅ c' /\ transfer a ∅ (map_owns m) c c' /\ m_key_size m = ks /\
              m_value_size m = vs /\ m_capacity m = round_pow2 n /\ map_used m = 0
  end.
Proof.
  intros Hks Hvs Hn Hov. unfold zenit_map_create_with_capacity_and_allocator.
  case_decide as D; [by eexists None, c|].
  assert (0 < ks /\ 0 < vs /\ 1 <= n) as (K1 & K2 & K3) by lia.
  pose proof (round_pow2_spec n ltac:(lia)) as Ep.
  assert (is_pow2 (round_pow2 n)) as Hp by (rewrite Ep; eexists; split; [apply Z.log2_up_nonneg|done]).
  pose proof (is_pow2_pos _ Hp) as Hpos. set (cap := round_pow2 n) in *.
  destruct (alloc_fn a SIZEOF_MAP c) as [[h|] c1] eqn:A.
  2:{ eexists None, c1. split; [done|]. by eapply alloc_none. }
  apply alloc_some in A as (_ & _ & F & L). rewrite (u64_small (ks + vs)) by nia.
  destruct (alloc_zero_cases a cap (ks + vs) c1) as (r1 & c2 & -> & P1); [nia|]. simpl.
  destruct r1 as [bs|].
  2:{ eexists None, _. split; [done|]. rewrite free_some by (rewrite P1, L; set_solver).
      rewrite P1, L. set_solver. }
  destruct P1 as (E1 & M1 & F1 & L1).
  destruct (alloc_zero_cases a cap 1 c2) as (r2 & c3 & -> & P2); [nia|]. simpl.
  rewrite L in L1, F1.
  destruct r2 as [bt|].
  2:{ eexists None, _. split; [done|]. rewrite L1 in P2.
      rewrite free_some by (rewrite free_some; rewrite P2; set_solver).
      rewrite free_some by (rewrite P2; set_solver). rewrite P2. set_solver. }
  destruct P2 as (E2 & M2 & F2 & L2). rewrite L1 in L2, F2.
  eexists (Some _), _. split; [done|].
  set (m := mk_map _ _ _ _ _ _ _ _ _ _).
  assert (transfer a ∅ (map_owns m) c c3) as T
    by (unfold map_owns; simpl; split; rewrite L2; set_solver).
  split; [|by split_and!]. exists (replicate (Z.to_nat cap) SEmpty).
  split; [|split; [by rewrite tbl_map_empty|unfold map_used; simpl; lia]].
  constructor; simpl; try done.
  - apply table_ok_empty. lia.
  - apply table_mem_empty; try done; lia.
  - rewrite zlen_replicate. lia.
  - by rewrite n_occ_replicate.
  - by rewrite n_del_replicate.
  - set_solver.
  - set_solver.
  - apply T.
Qed.

Lemma map_destroy_spec m tbl c :
  map_core a m tbl c -> live (zenit_map_destroy (Some m) c) = live c ∖ map_owns m.
Proof.
  intros H. pose proof (mr_self _ _ _ _ H) as Hs. pose proof (mr_live _ _ _ _ H) as Hl.
  pose proof (mr_disj _ _ _ _ H) as Hd. unfold map_owns in *. unfold zenit_map_destroy.
  rewrite (mr_alloc _ _ _ _ H).
  assert (live (free_fn a (paddr (m_slots m)) c) = live c ∖ pown (m_slots m)) as L1
    by (apply pfree_live; set_solver).
  assert (live (free_fn a (paddr (m_states m)) (free_fn a (paddr (m_slots m)) c))
          = (live c ∖ pown (m_slots m)) ∖ pown (m_states m)) as L2
    by (rewrite pfree_live; rewrite L1; [done|set_solver]).
  rewrite free_some; rewrite L2; [clear; set_solver|clear - Hs Hl; set_solver].
Qed.
End MapRefinement.

(** The bindings in slot order. *)
Definition pairs (ks : Z) (tbl : list slot) : list (bytes * bytes) :=
  (fun e => (key_of ks e, drop (Z.to_nat ks) e)) <$> entries tbl.

(** What filling an array from the map returned: a block with the [parts] of all
    bindings, their number, and the ownership of the block; or an allocation
    failure. *)
Definition collected {C : Type} (a : zenit_allocator_t C) {SP : AllocSpec a}
    (parts : list bytes) (c : C) (o : outcome (zenit_error_t * option block * Z * C)) : Prop :=
  exists r b n c', o = Ret (r, b, n, c') /\ transfer a ∅ (pown b) c c' /\
    ((r = ZENIT_OK /\ pbytes b = concat parts /\ n = zlen parts) \/
     (r = ZENIT_ERROR_ALLOC /\ b = None /\ n = 0)).

Section MapEnumeration.
Context {C : Type} (a : zenit_allocator_t C) {SP : AllocSpec a}.
Implicit Types (m : zenit_map_t C) (c : C) (tbl : list slot) (g : gmap bytes bytes).

Lemma pairs_permutation ks tbl :
  table_ok ks tbl -> pairs ks tbl ≡ₚ map_to_list (tbl_map ks tbl).
Proof.
  intros H. unfold tbl_map. rewrite map_to_list_to_map; [done|].
  rewrite <- list_fmap_compose. by apply entries_keys_nodup.
Qed.

Lemma read_entry_core m tbl c i e :
  map_core a m tbl c -> 0 <= i -> tbl !! Z.to_nat i = Some (SOcc e) ->
  prd (m_slots m) (u64 (i * m_slot_size m)) (m_key_size m) = Ret (key_of (m_key_size m) e) /\
  prd (m_slots m) (u64 (u64 (i * m_slot_size m) + m_key_size m)) (m_value_size m)
    = Ret (drop (Z.to_nat (m_key_size m)) e) /\
  zlen (key_of (m_key_size m) e) = m_key_size m /\
  zlen (drop (Z.to_nat (m_key_size m)) e) = m_value_size m.
Proof.
  intros H Hi E. pose proof (map_bounds a _ _ _ H) as (B1 & B2 & B3 & B4 & B5 & B6 & B7 & B8).
  pose proof (lookup_lt_Some _ _ _ E) as Hlt.
  destruct (read_entry (m_key_size m) (m_value_size m) (m_slot_size m) (m_slots m) (m_states m)
    tbl (zlen tbl) i e) as (R1 & R2 & _ & R3 & R4); try done; try apply H.
  - unfold zlen. lia.
  - rewrite (mr_cap _ _ _ _ H). apply H.
Qed.

Lemma foreach_loop_spec {S : Type} m tbl c (visit : bytes -> bytes -> S -> S) t1 t2 ctx :
  map_core a m tbl c -> tbl = t1 ++ t2 ->
  foreach_loop (length t2) (zlen t1) m visit ctx
    = Ret (foldl (fun s kv => visit kv.1 kv.2 s) ctx (pairs (m_key_size m) t2)).
Proof.
  intros H. revert t1 ctx. induction t2 as [|s t2 IH]; intros t1 ctx E; [done|].
  assert (tbl !! Z.to_nat (zlen t1) = Some s) as Es.
  { subst tbl. unfold zlen. rewrite Nat2Z.id. by apply list_lookup_middle. }
  pose proof (zlen_nonneg t1) as L1. simpl.
  rewrite (table_mem_state _ _ _ _ _ _ (mr_mem _ _ _ _ H) L1 Es). simpl.
  assert (tbl = (t1 ++ [s]) ++ t2) as E' by (by rewrite <- app_assoc).
  replace (zlen t1 + 1) with (zlen (t1 ++ [s])) by (rewrite zlen_app, zlen_cons, zlen_nil; lia).
  destruct s as [| |e]; simpl; try by apply IH.
  destruct (read_entry_core m tbl c (zlen t1) e H L1 Es) as (-> & -> & _). simpl.
  by rewrite IH.
Qed.

(** [off] and [part] select the key or the value of an entry. *)
Lemma collect_loop_spec m tbl c off part (f : bytes -> bytes) t1 t2 :
  map_core a m tbl c -> tbl = t1 ++ t2 -> 0 < part <= m_slot_size m ->
  (forall i e, 0 <= i -> tbl !! Z.to_nat i = Some (SOcc e) ->
     prd (m_slots m) (u64 (u64 (i * m_slot_size m) + off)) part = Ret (f e) /\ zlen (f e) = part) ->
  forall dst l rest, dst <> None -> is_slots part (pbytes dst) (l ++ rest) ->
  zlen rest = n_occ t2 -> zlen (pbytes dst) <= PTRDIFF_MAX ->
  exists dst', collect_loop (length t2) (zlen t1) (zlen l) m off part dst
      = Ret (dst', zlen l + n_occ t2) /\ pown dst' = pown dst /\
    pbytes dst' = concat (l ++ (f <$> entries t2)).
Proof.
  intros H E Hp Hf. revert t1 E. induction t2 as [|s t2 IH]; intros t1 E dst l rest Hn S Hr Hl.
  { assert (rest = []) as -> by (by apply zlen_0). exists dst. simpl. unfold n_occ. simpl.
    rewrite Z.add_0_r. split; [done|]. split; [done|]. by destruct S. }
  assert (tbl !! Z.to_nat (zlen t1) = Some s) as Es.
  { subst tbl. unfold zlen. rewrite Nat2Z.id. by apply list_lookup_middle. }
  pose proof (zlen_nonneg t1) as L1. simpl.
  rewrite (table_mem_state _ _ _ _ _ _ (mr_mem _ _ _ _ H) L1 Es). simpl.
  assert (tbl = (t1 ++ [s]) ++ t2) as E' by (by rewrite <- app_assoc).
  replace (zlen t1 + 1) with (zlen (t1 ++ [s])) by (rewrite zlen_app, zlen_cons, zlen_nil; lia).
  pose proof (n_occ_nonneg t2) as Nn.
  destruct s as [| |e]; simpl; unfold n_occ in Hr |- *; simpl in Hr |- *; try by (eapply IH).
  fold (n_occ t2) in *.
  destruct (Hf (zlen t1) e L1 Es) as (-> & Le). simpl.
  destruct rest as [|y rest]; [rewrite zlen_nil in Hr; lia|]. rewrite zlen_cons in Hr.
  pose proof (is_slots_zlen _ _ _ S) as LS. rewrite zlen_app, zlen_cons in LS.
  pose proof (zlen_nonneg l). pose proof (zlen_nonneg rest).
  rewrite (u64_small (zlen l * part)) by nia.
  destruct (pwr_slots part dst l [y] [f e] rest (zlen l * part)) as (d' & W & Nd & Od & Sd);
    [done|done|done|done|by constructor|].
  simpl in W. rewrite app_nil_r in W. rewrite W. simpl.
  rewrite u64_small by nia.
  replace (zlen l + 1) with (zlen (l ++ [f e])) by (rewrite zlen_app, zlen_cons, zlen_nil; lia).
  destruct (IH (t1 ++ [SOcc e]) E' d' (l ++ [f e]) rest) as (d2 & R & O2 & B2); [done| |lia| |].
  { by rewrite <- app_assoc. }
  { rewrite (is_slots_zlen _ _ _ Sd). rewrite LS in Hl. autorewrite with zlen in *. lia. }
  exists d2. rewrite R. split; [|split; [congruence|by rewrite B2, <- app_assoc]].
  do 2 f_equal. zl.
Qed.

Lemma collect_spec m tbl c off part (f : bytes -> bytes) :
  map_core a m tbl c -> 0 < part m <= m_slot_size m ->
  (forall i e, 0 <= i -> tbl !! Z.to_nat i = Some (SOcc e) ->
     prd (m_slots m) (u64 (u64 (i * m_slot_size m) + off m)) (part m) = Ret (f e) /\
     zlen (f e) = part m) ->
  collected a (f <$> entries tbl) c (collect (Some m) true off part c).
Proof.
  intros H Hp Hf. pose proof (map_bounds a _ _ _ H) as (B1 & B2 & B3 & B4 & B5 & B6 & B7 & B8).
  pose proof (mr_fit _ _ _ _ H) as Hfit. pose proof (mr_count _ _ _ _ H) as Hn.
  assert (zlen (f <$> entries tbl) = n_occ tbl) as Lf
    by (rewrite <- entries_length; unfold zlen; by rewrite length_fmap).
  assert (n_occ tbl * part m <= PTRDIFF_MAX) as Hov by nia.
  unfold collect. case_decide as D.
  { assert (f <$> entries tbl = []) as -> by (apply zlen_0; lia).
    eexists _, _, _, _. split; [done|]. simpl. split; [apply transfer_refl; set_solver|]. by left. }
  rewrite (mr_alloc _ _ _ _ H), u64_small by nia.
  destruct (alloc_fn a (m_count m * part m) c) as [[b|] c1] eqn:A.
  2:{ eexists _, _, _, _. split; [done|]. split; [eapply transfer_alloc_none; [set_solver|done]|].
      by right. }
  pose proof A as (Lb & _ & _ & _)%alloc_some.
  replace (Z.to_nat (m_capacity m)) with (length tbl)
    by (rewrite <- (mr_cap _ _ _ _ H); unfold zlen; lia).
  destruct (collect_loop_spec m tbl c (off m) (part m) f [] tbl H eq_refl Hp Hf (Some b) []
    (slots_of (Z.to_nat (part m)) (Z.to_nat (n_occ tbl)) (b_data b))) as (d & R & O & B).
  - done.
  - apply is_slots_exists. simpl. rewrite Lb, Z2Nat.id, Hn; done.
  - rewrite zlen_slots_of. lia.
  - simpl. rewrite Lb. lia.
  - change (zlen (@nil bytes)) with 0 in R. rewrite zlen_nil, Z.add_0_l in R. rewrite R. simpl. eexists _, _, _, _. split; [done|].
    rewrite O. simpl. split; [|left; by rewrite Lf].
    replace {[b_addr b]} with ({[b_addr b]} ∪ ∅ : gset addr) by set_solver.
    eapply transfer_alloc; [set_solver|done].
Qed.
End MapEnumeration.

Section MapTheorems.
Context {C : Type} (a : zenit_allocator_t C) {SP : AllocSpec a}.
Implicit Types (m : zenit_map_t C) (c : C) (tbl : list slot) (g : gmap bytes bytes).

Lemma map_run_spec fuel bound ops m g c :
  map_rep a m g c -> Forall (map_pre (m_key_size m) (m_value_size m)) ops ->
  8 <= m_capacity m <= bound -> 4 * (map_used m + zlen ops) <= bound -> bound <= 2 ^ 56 ->
  (Z.to_nat (2 * bound) <= fuel)%nat ->
  exists rs m' g' c', map_run fuel ops m c = Ret (rs, m', c') /\ map_trace g ops rs /\
    map_rep a m' g' c' /\ transfer a (map_owns m) (map_owns m') c c'.
Proof.
  intros R Hops Hc Hb Hm Hf. revert m g c R Hops Hc Hb.
  induction ops as [|op ops IH]; intros m g c R Hops Hc Hb.
  - exists [], m, g, c. split; [done|]. split; [constructor|]. split; [done|].
    destruct R as (t & H & _). apply transfer_refl, H.
  - apply Forall_cons_1 in Hops as [Hop Hops]. rewrite zlen_cons in Hb. simpl.
    pose proof (zlen_nonneg ops) as Hz.
    destruct (map_step a fuel op m g c R Hop)
      as (r & m1 & c1 & g1 & -> & R1 & Ek & Ev & T1 & Hu & Hcap & P); [lia|lia|]. simpl.
    rewrite <- Ek, <- Ev in Hops.
    destruct (IH m1 g1 c1 R1 Hops) as (rs & m2 & g2 & c2 & -> & Tr & R2 & T2); [lia|lia|].
    simpl. eexists _, _, _, _. split; [done|]. split; [|split; [done|by eapply transfer_trans]].
    destruct P as [P|((k & v & ->) & -> & ->)]; [by eapply mt_step|by apply mt_alloc].
Qed.

(** C1. The hash map is a dictionary.  A map created with a capacity above 4 gives,
    for any sequence of insertions, lookups, removals, membership tests, counts
    and clears, exactly the results of a finite map from keys to values; every
    probe and every rehash terminates within the capacity, no access leaves the
    arrays, an insertion that cannot allocate reports [ZENIT_ERROR_ALLOC] and
    changes nothing, and destruction releases exactly what the map held. *)
Theorem map_dictionary fuel ks vs n ops c :
  0 <= ks -> 0 <= vs -> 4 < n -> 2 * n + 4 * zlen ops <= 2 ^ 56 ->
  round_pow2 n * (ks + vs) < two64 -> Forall (map_pre ks vs) ops ->
  (Z.to_nat (2 * (2 * n + 4 * zlen ops)) <= fuel)%nat ->
  exists r c1, zenit_map_create_with_capacity_and_allocator ks vs n a c = Ret (r, c1) /\
  match r with
  | None => live c1 = live c
  | Some m => exists rs m' c2, map_run fuel ops m c1 = Ret (rs, m', c2) /\
      map_trace ∅ ops rs /\ live (zenit_map_destroy (Some m') c2) = live c
  end.
Proof.
  intros Hk Hv Hn Hb Hov Hops Hf. pose proof (zlen_nonneg ops) as Hz.
  destruct (map_create_spec a ks vs n c Hk Hv) as (r & c1 & -> & Cr); [lia|done|].
  exists r, c1. split; [done|]. destruct r as [m|]; [|done].
  destruct Cr as (R & T & Ek & Ev & Ec & Eu).
  assert (8 <= round_pow2 n <= 2 * n) as Hcap by (apply round_pow2_bounds; lia).
  destruct (map_run_spec fuel (2 * n + 4 * zlen ops) ops m ∅ c1 R)
    as (rs & m' & g' & c2 & -> & Tr & R' & T'); [by rewrite Ek, Ev|lia|lia|lia|done|].
  eexists _, _, _. split; [done|]. split; [done|]. destruct R' as (tbl & H & _ & _).
  rewrite (map_destroy_spec a m' tbl) by done.
  pose proof (transfer_trans _ _ _ _ _ _ _ T T') as [T1 T2]. rewrite T2. set_solver.
Qed.

(** Enumeration visits every binding exactly once: there is one ordering of
    the bindings such that [zenit_map_foreach] calls the visitor on them in that
    order, and [zenit_map_keys] and [zenit_map_values] return the keys and the
    values in that order, in a block of exactly the right size, with the number
    of bindings. *)
Theorem map_enumerates m g c :
  map_rep a m g c ->
  exists l, l ≡ₚ map_to_list g /\
    (forall S (visit : bytes -> bytes -> S -> S) ctx,
       zenit_map_foreach (Some m) (Some visit) ctx
         = Ret (foldl (fun s kv => visit kv.1 kv.2 s) ctx l)) /\
    collected a l.*1 c (zenit_map_keys (Some m) true c) /\
    collected a l.*2 c (zenit_map_values (Some m) true c).
Proof.
  intros (tbl & H & -> & _). exists (pairs (m_key_size m) tbl).
  pose proof (map_bounds a _ _ _ H) as (B1 & B2 & B3 & B4 & B5 & B6 & B7 & B8).
  split; [by apply pairs_permutation, H|]. split; [|split].
  - intros S visit ctx. unfold zenit_map_foreach.
    replace (Z.to_nat (m_capacity m)) with (length tbl)
      by (rewrite <- (mr_cap _ _ _ _ H); unfold zlen; lia).
    by apply (foreach_loop_spec a m tbl c visit [] tbl).
  - unfold pairs. rewrite <- list_fmap_compose.
    apply (collect_spec a m tbl c (fun _ => 0) m_key_size (key_of (m_key_size m)) H); [lia|].
    intros i e Hi E. destruct (read_entry_core a m tbl c i e H Hi E) as (R & _ & L & _).
    rewrite Z.add_0_r. rewrite (u64_small (u64 _)) by apply u64_range. done.
  - unfold pairs. rewrite <- list_fmap_compose.
    apply (collect_spec a m tbl c m_key_size m_value_size (drop (Z.to_nat (m_key_size m))) H); [lia|].
    intros i e Hi E. by destruct (read_entry_core a m tbl c i e H Hi E) as (_ & R & _ & L).
Qed.

End MapTheorems.

(** ** Witnesses *)

Lemma map_dictionary_witness :
  exists r c1, zenit_map_create_with_capacity 1 1 5 empty_heap = Ret (r, c1) /\
  match r with
  | None => h_live c1 = h_live empty_heap
  | Some m => exists rs m' c2,
      map_run 100 [MInsert [1] [10]; MInsert [2] [20]; MGet [1]; MRemove [1]; MGet [1]; MCount]
        m c1 = Ret (rs, m', c2) /\
      map_trace ∅ [MInsert [1] [10]; MInsert [2] [20]; MGet [1]; MRemove [1]; MGet [1]; MCount] rs /\
      h_live (zenit_map_destroy (Some m') c2) = h_live empty_heap
  end.
Proof.
  refine (map_dictionary ZENIT_ALLOCATOR_DEFAULT 100 1 1 5
    [MInsert [1] [10]; MInsert [2] [20]; MGet [1]; MRemove [1]; MGet [1]; MCount] empty_heap
    _ _ _ _ _ _ _); try lia.
  - unfold zlen. simpl. lia.
  - reflexivity.
  - repeat constructor.
  - unfold zlen. simpl. lia.
Defined.

(** Capacity 1, holding the binding 7 -> 9. *)
Definition wit_full_map : zenit_map_t heap :=
  mk_map 2 (Some (Block 3 [7; 9])) (Some (Block 4 [1])) 1 1 2 1 1 0 ZENIT_ALLOCATOR_DEFAULT.
Definition wit_map_heap : heap := mk_heap {[ 2%positive; 3%positive; 4%positive ]} [].

Lemma wit_full_map_reached :
  match zenit_map_create_with_capacity 1 1 1 empty_heap with
  | Ret (Some m, h) => exists h',
      zenit_map_insert 1 (Some m) (Some [7]) (Some [9]) h = Ret (ZENIT_OK, Some wit_full_map, h')
  | _ => False
  end.
Proof. vm_compute. by eexists. Qed.

Lemma wit_table_ok ks e : table_ok ks [SOcc e].
Proof.
  constructor; [done|..].
  - intros [|i] x Ex; [|done]. exists 0. split; [by unfold zlen; simpl|].
    split; [unfold probe_at; change (zlen [SOcc e]) with 1; by rewrite Z.mod_1_r|].
    intros d Hd. lia.
  - by intros [|i] [|j] x y.
Qed.

Lemma wit_full_map_core :
  map_core ZENIT_ALLOCATOR_DEFAULT wit_full_map [SOcc [7; 9]] wit_map_heap.
Proof.
  constructor; simpl; try done.
  - apply wit_table_ok.
  - constructor; simpl; try done. exists [[7; 9]].
    split; [by split; [|repeat constructor]|]. split; [done|]. by intros [|i] e [= <-].
  - by exists 0.
  - set_solver.
Qed.


(** Two slots, the binding 7 -> 9 in its home slot. *)
Definition wit_map : zenit_map_t heap :=
  mk_map 2 (Some (Block 3 [7; 9; 0; 0])) (Some (Block 4 [1; 0])) 1 1 2 2 1 0 ZENIT_ALLOCATOR_DEFAULT.

Lemma wit_map_rep :
  map_rep ZENIT_ALLOCATOR_DEFAULT wit_map (tbl_map 1 [SOcc [7; 9]; SEmpty]) wit_map_heap.
Proof.
  exists [SOcc [7; 9]; SEmpty]. split; [|done]. constructor; simpl; try done.
  - constructor; [done|..].
    + intros [|[|i]] x Ex; try done. injection Ex as <-. exists 0.
      split; [by unfold zlen; simpl|]. split; [by vm_compute|]. intros d Hd. lia.
    + by intros [|[|i]] [|[|j]] x y.
  - constructor; simpl; try done. exists [[7; 9]; [0; 0]].
    split; [by split; [|repeat constructor]|]. split; [done|].
    intros [|[|i]] e Ee; try done. by injection Ee as <-.
  - by exists 1.
  - set_solver.
Qed.

Lemma map_enumerates_witness :
  exists l, l ≡ₚ map_to_list (tbl_map 1 [SOcc [7; 9]; SEmpty]) /\
    (forall S (visit : bytes -> bytes -> S -> S) ctx,
       zenit_map_foreach (Some wit_map) (Some visit) ctx
         = Ret (foldl (fun s kv => visit kv.1 kv.2 s) ctx l)) /\
    collected ZENIT_ALLOCATOR_DEFAULT l.*1 wit_map_heap
      (zenit_map_keys (Some wit_map) true wit_map_heap) /\
    collected ZENIT_ALLOCATOR_DEFAULT l.*2 wit_map_heap
      (zenit_map_values (Some wit_map) true wit_map_heap).
Proof. exact (map_enumerates ZENIT_ALLOCATOR_DEFAULT _ _ _ wit_map_rep). Defined.
