(* ===== verification/HashSet.v ===== *)
(** * Hash set ([src/set.c])

    Keys of a fixed size in a flat array with a state byte per slot: the table of
    [src/map.c] without values.  [set_rep] relates a set to the finite set
    ([gset]) of its keys. *)

From Stdlib Require Import ZArith Lia.
From stdpp Require Import base tactics option list numbers gmap sets fin_maps fin_sets.
From S2P Require Import Prelude Mem Result Allocator HashTable.
Open Scope Z_scope.

Record zenit_set_t (C : Type) : Type := mk_hset {
  hs_self : addr;
  hs_slots : option block;
  hs_states : option block;
  hs_key_size : Z;
  hs_capacity : Z;
  hs_count : Z;
  hs_deleted : Z;
  hs_allocator : zenit_allocator_t C }.
Arguments mk_hset {C}.
Arguments hs_self {C}.
Arguments hs_slots {C}.
Arguments hs_states {C}.
Arguments hs_key_size {C}.
Arguments hs_capacity {C}.
Arguments hs_count {C}.
Arguments hs_deleted {C}.
Arguments hs_allocator {C}.

Definition SIZEOF_SET : Z := 80.

Section SetModel.
Context {C : Type}.
Implicit Types (s : zenit_set_t C) (c : C) (a : zenit_allocator_t C).

Definition upd_set s (slots states : option block) (capacity count deleted : Z) : zenit_set_t C :=
  mk_hset (hs_self s) slots states (hs_key_size s) capacity count deleted (hs_allocator s).

Definition probe_slot (fuel : nat) s (key : bytes) : outcome (Z * Z) :=
  let! hash := hash_fnv1a key (hs_key_size s) in
  let mask := u64 (hs_capacity s - 1) in
  probe_walk fuel (hs_slots s) (hs_states s) (hs_key_size s) (hs_key_size s) key mask
    (Z.land hash mask) None.

(** [memcpy] of a key into slot [index], which becomes occupied. *)
Definition put_key s (index : Z) (key : bytes) : outcome (option block * option block) :=
  let! slots := pwr (hs_slots s) (u64 (index * hs_key_size s)) key in
  let! states := pset (hs_states s) index HASH_SLOT_OCCUPIED in
  Ret (slots, states).

Fixpoint rehash_loop (fuel : nat) (n : nat) (i : Z) (old_slots old_states : option block)
    (mask : Z) s : outcome (zenit_set_t C) :=
  match n with
  | O => Ret s
  | S n =>
      let! state := pget old_states i in
      let! s1 :=
        if decide (state = HASH_SLOT_OCCUPIED) then
          let! key := prd old_slots (u64 (i * hs_key_size s)) (hs_key_size s) in
          let! hash := hash_fnv1a key (hs_key_size s) in
          let! index := free_walk fuel (hs_states s) mask (Z.land hash mask) in
          let! (slots, states) := put_key s index key in
          Ret (upd_set s slots states (hs_capacity s) (u64 (hs_count s + 1)) (hs_deleted s))
        else Ret s in
      rehash_loop fuel n (i + 1) old_slots old_states mask s1
  end.

Definition rehash (fuel : nat) s (new_capacity : Z) c
    : outcome (zenit_error_t * zenit_set_t C * C) :=
  let a := hs_allocator s in
  let! (new_slots, c1) := zenit_allocator_alloc_zero a new_capacity (hs_key_size s) c in
  match new_slots with
  | None => Ret (ZENIT_ERROR_ALLOC, s, c1)
  | Some bs =>
      let! (new_states, c2) := zenit_allocator_alloc_zero a new_capacity 1 c1 in
      match new_states with
      | None => Ret (ZENIT_ERROR_ALLOC, s, free_fn a (Some (b_addr bs)) c2)
      | Some _ =>
          let s1 := upd_set s new_slots new_states new_capacity 0 0 in
          let mask := u64 (new_capacity - 1) in
          let! s2 := rehash_loop fuel (Z.to_nat (hs_capacity s)) 0 (hs_slots s) (hs_states s) mask s1 in
          let c3 := free_fn a (paddr (hs_slots s)) c2 in
          let c4 := free_fn a (paddr (hs_states s)) c3 in
          Ret (ZENIT_OK, s2, c4)
      end
  end.

Definition ensure_load (fuel : nat) s c : outcome (zenit_error_t * zenit_set_t C * C) :=
  let used := u64 (hs_count s + hs_deleted s) in
  if decide (u64 (hs_capacity s * HASH_LOAD_PERCENT) < u64 (used * 100))
  then rehash fuel s (u64 (hs_capacity s * HASH_GROWTH_FACTOR)) c
  else Ret (ZENIT_OK, s, c).

Definition zenit_set_create_with_capacity_and_allocator (key_size capacity : Z) a c
    : outcome (option (zenit_set_t C) * C) :=
  if decide (key_size = 0 \/ capacity = 0) then Ret (None, c)
  else
    let cap := round_pow2 capacity in
    match alloc_fn a SIZEOF_SET c with
    | (None, c1) => Ret (None, c1)
    | (Some h, c1) =>
        let! (slots, c2) := zenit_allocator_alloc_zero a cap key_size c1 in
        match slots with
        | None => Ret (None, free_fn a (Some (b_addr h)) c2)
        | Some bs =>
            let! (states, c3) := zenit_allocator_alloc_zero a cap 1 c2 in
            match states with
            | None =>
                let c4 := free_fn a (Some (b_addr bs)) c3 in
                Ret (None, free_fn a (Some (b_addr h)) c4)
            | Some _ => Ret (Some (mk_hset (b_addr h) slots states key_size cap 0 0 a), c3)
            end
        end
    end.

Definition zenit_set_create_with_allocator (key_size : Z) a c
    : outcome (option (zenit_set_t C) * C) :=
  zenit_set_create_with_capacity_and_allocator key_size HASH_DEFAULT_CAPACITY a c.

Definition zenit_set_destroy (set : option (zenit_set_t C)) c : C :=
  match set with
  | None => c
  | Some s =>
      let a := hs_allocator s in
      let c1 := free_fn a (paddr (hs_slots s)) c in
      let c2 := free_fn a (paddr (hs_states s)) c1 in
      free_fn a (Some (hs_self s)) c2
  end.

(** The part of [zenit_set_insert] after the load check. *)
Definition insert_loaded (fuel : nat) s (k : bytes) c
    : outcome (zenit_error_t * option (zenit_set_t C) * C) :=
  let! (state, index) := probe_slot fuel s k in
  if decide (state = HASH_SLOT_OCCUPIED) then Ret (ZENIT_OK, Some s, c)
  else
    let! kb := rd k 0 (hs_key_size s) in
    let! (slots, states) := put_key s index kb in
    Ret (ZENIT_OK,
         Some (upd_set s slots states (hs_capacity s) (u64 (hs_count s + 1))
                 (if decide (state = HASH_SLOT_DELETED) then u64 (hs_deleted s - 1)
                  else hs_deleted s)), c).

Definition zenit_set_insert (fuel : nat) (set : option (zenit_set_t C)) (key : option bytes) c
    : outcome (zenit_error_t * option (zenit_set_t C) * C) :=
  match set, key with
  | Some s, Some k =>
      let! (lr, s1, c1) := ensure_load fuel s c in
      if decide (lr <> ZENIT_OK) then Ret (lr, Some s1, c1)
      else insert_loaded fuel s1 k c1
  | _, _ => Ret (ZENIT_ERROR_NULL, set, c)
  end.

Definition zenit_set_remove (fuel : nat) (set : option (zenit_set_t C)) (key : option bytes)
    : outcome (zenit_error_t * option (zenit_set_t C)) :=
  match set, key with
  | Some s, Some k =>
      let! (state, index) := probe_slot fuel s k in
      if decide (state <> HASH_SLOT_OCCUPIED) then Ret (ZENIT_ERROR_NOT_FOUND, set)
      else
        let! states := pset (hs_states s) index HASH_SLOT_DELETED in
        Ret (ZENIT_OK,
             Some (upd_set s (hs_slots s) states (hs_capacity s) (u64 (hs_count s - 1))
                     (u64 (hs_deleted s + 1))))
  | _, _ => Ret (ZENIT_ERROR_NULL, set)
  end.

Definition zenit_set_contains (fuel : nat) (set : option (zenit_set_t C)) (key : option bytes)
    : outcome bool :=
  match set, key with
  | Some s, Some k =>
      let! (state, _) := probe_slot fuel s k in Ret (bool_decide (state = HASH_SLOT_OCCUPIED))
  | _, _ => Ret false
  end.

Definition zenit_set_count (set : option (zenit_set_t C)) : Z :=
  match set with None => 0 | Some s => hs_count s end.

Definition zenit_set_capacity (set : option (zenit_set_t C)) : Z :=
  match set with None => 0 | Some s => hs_capacity s end.

Definition zenit_set_clear (set : option (zenit_set_t C)) : outcome (option (zenit_set_t C)) :=
  match set with
  | None => Ret None
  | Some s =>
      let! states := pmemset (hs_states s) 0 HASH_SLOT_EMPTY (hs_capacity s) in
      Ret (Some (upd_set s (hs_slots s) states (hs_capacity s) 0 0))
  end.

Fixpoint foreach_loop {S : Type} (n : nat) (i : Z) s (visit : bytes -> S -> S) (ctx : S)
    : outcome S :=
  match n with
  | O => Ret ctx
  | Datatypes.S n =>
      let! state := pget (hs_states s) i in
      let! ctx1 :=
        if decide (state = HASH_SLOT_OCCUPIED) then
          let! k := prd (hs_slots s) (u64 (i * hs_key_size s)) (hs_key_size s) in
          Ret (visit k ctx)
        else Ret ctx in
      foreach_loop n (i + 1) s visit ctx1
  end.

Definition zenit_set_foreach {S : Type} (set : option (zenit_set_t C))
    (visit : option (bytes -> S -> S)) (ctx : S) : outcome S :=
  match set, visit with
  | Some s, Some f => foreach_loop (Z.to_nat (hs_capacity s)) 0 s f ctx
  | _, _ => Ret ctx
  end.

Definition zenit_set_iter (set : option (zenit_set_t C)) : zenit_iter_t :=
  mk_iter 0 (match set with Some s => hs_count s | None => 0 end)
    (match set with Some _ => true | None => false end) None.

Fixpoint iter_scan (n : nat) (index : Z) s : outcome (option Z * Z) :=
  match n with
  | O => Ret (None, index)
  | Datatypes.S n =>
      if decide (index < hs_capacity s) then
        let! state := pget (hs_states s) index in
        if decide (state = HASH_SLOT_OCCUPIED)
        then Ret (Some (u64 (index * hs_key_size s)), u64 (index + 1))
        else iter_scan n (u64 (index + 1)) s
      else Ret (None, index)
  end.

Definition zenit_set_iter_next (iter : option zenit_iter_t) (container : option (zenit_set_t C))
    : outcome (option Z * option zenit_iter_t) :=
  match iter with
  | None => Ret (None, None)
  | Some it =>
      if negb (it_is_valid it) then Ret (None, iter)
      else
        match container with
        | None => Undef
        | Some s =>
            let! (p, index) := iter_scan (Z.to_nat (hs_capacity s - it_index it)) (it_index it) s in
            Ret (p, Some (mk_iter index (it_count it) (it_is_valid it) (it_internal it)))
        end
  end.

Fixpoint to_array_loop (n : nat) (i pos : Z) s (dst : option block) : outcome (option block * Z) :=
  match n with
  | O => Ret (dst, pos)
  | Datatypes.S n =>
      let! state := pget (hs_states s) i in
      let! (dst1, pos1) :=
        if decide (state = HASH_SLOT_OCCUPIED) then
          let! x := prd (hs_slots s) (u64 (i * hs_key_size s)) (hs_key_size s) in
          let! d := pwr dst (u64 (pos * hs_key_size s)) x in
          Ret (d, u64 (pos + 1))
        else Ret (dst, pos) in
      to_array_loop n (i + 1) pos1 s dst1
  end.

(** [out_ptrs]: neither out-pointer is NULL; what they point to is returned. *)
Definition zenit_set_to_array (set : option (zenit_set_t C)) (out_ptrs : bool) c
    : outcome (zenit_error_t * option block * Z * C) :=
  match set, out_ptrs with
  | None, _ | _, false => Ret (ZENIT_ERROR_NULL, None, 0, c)
  | Some s, true =>
      if decide (hs_count s = 0) then Ret (ZENIT_OK, None, 0, c)
      else
        match alloc_fn (hs_allocator s) (u64 (hs_count s * hs_key_size s)) c with
        | (None, c1) => Ret (ZENIT_ERROR_ALLOC, None, 0, c1)
        | (keys, c1) =>
            let! (d, pos) := to_array_loop (Z.to_nat (hs_capacity s)) 0 0 s keys in
            Ret (ZENIT_OK, d, pos, c1)
        end
  end.

Definition zenit_set_to_array_free (set : option (zenit_set_t C)) (keys : option addr) c
    : zenit_error_t * C :=
  match set, keys with
  | Some s, Some _ => (ZENIT_OK, free_fn (hs_allocator s) keys c)
  | _, _ => (ZENIT_ERROR_NULL, c)
  end.
End SetModel.

Definition zenit_set_create_with_capacity (key_size capacity : Z) (h : heap)
    : outcome (option (zenit_set_t heap) * heap) :=
  zenit_set_create_with_capacity_and_allocator key_size capacity ZENIT_ALLOCATOR_DEFAULT h.
Definition zenit_set_create (key_size : Z) (h : heap)
    : outcome (option (zenit_set_t heap) * heap) :=
  zenit_set_create_with_capacity key_size HASH_DEFAULT_CAPACITY h.

(** ** Representation and abstract specification *)

Definition tbl_set (tbl : list slot) : gset bytes := list_to_set (entries tbl).

Definition set_owns {C : Type} (s : zenit_set_t C) : gset addr :=
  {[ hs_self s ]} ∪ (pown (hs_slots s) ∪ pown (hs_states s)).

Record set_core {C : Type} (a : zenit_allocator_t C) {SP : AllocSpec a}
    (s : zenit_set_t C) (tbl : list slot) (c : C) : Prop := {
  sr_alloc : hs_allocator s = a;
  sr_size : 0 < hs_key_size s;
  sr_ok : table_ok (hs_key_size s) tbl;
  sr_mem : table_mem (hs_key_size s) (hs_slots s) (hs_states s) tbl;
  sr_cap : zlen tbl = hs_capacity s;
  sr_pow : is_pow2 (hs_capacity s);
  sr_fit : hs_capacity s * hs_key_size s <= PTRDIFF_MAX;
  sr_count : hs_count s = n_occ tbl;
  sr_deleted : hs_deleted s = n_del tbl;
  sr_self : hs_self s ∉ pown (hs_slots s) ∪ pown (hs_states s);
  sr_disj : pown (hs_slots s) ## pown (hs_states s);
  sr_live : set_owns s ⊆ live c }.

Definition set_used {C : Type} (s : zenit_set_t C) : Z := hs_count s + hs_deleted s.

(** [set_rep a s g c]: the set [s] holds the keys [g]. *)
Definition set_rep {C : Type} (a : zenit_allocator_t C) {SP : AllocSpec a}
    (s : zenit_set_t C) (g : gset bytes) (c : C) : Prop :=
  exists tbl, set_core a s tbl c /\ g = tbl_set tbl /\ set_used s < hs_capacity s.

Inductive set_op : Type :=
| TInsert (k : bytes)
| TRemove (k : bytes)
| TContains (k : bytes)
| TCount
| TClear.

Inductive set_res : Type :=
| TErr (e : zenit_error_t)
| TBool (b : bool)
| TNum (n : Z)
| TVoid.

Definition set_abs (op : set_op) (g : gset bytes) : set_res * gset bytes :=
  match op with
  | TInsert k => (TErr ZENIT_OK, {[ k ]} ∪ g)
  | TRemove k =>
      if decide (k ∈ g) then (TErr ZENIT_OK, g ∖ {[ k ]}) else (TErr ZENIT_ERROR_NOT_FOUND, g)
  | TContains k => (TBool (bool_decide (k ∈ g)), g)
  | TCount => (TNum (Z.of_nat (size g)), g)
  | TClear => (TVoid, ∅)
  end.

Definition set_exec {C : Type} (fuel : nat) (op : set_op) (s : zenit_set_t C) (c : C)
    : outcome (set_res * option (zenit_set_t C) * C) :=
  match op with
  | TInsert k => let! (r, s', c') := zenit_set_insert fuel (Some s) (Some k) c in Ret (TErr r, s', c')
  | TRemove k => let! (r, s') := zenit_set_remove fuel (Some s) (Some k) in Ret (TErr r, s', c)
  | TContains k => let! b := zenit_set_contains fuel (Some s) (Some k) in Ret (TBool b, Some s, c)
  | TCount => Ret (TNum (zenit_set_count (Some s)), Some s, c)
  | TClear => let! s' := zenit_set_clear (Some s) in Ret (TVoid, s', c)
  end.

Definition set_pre (ks : Z) (op : set_op) : Prop :=
  match op with TInsert k | TRemove k | TContains k => zlen k = ks | TCount | TClear => True end.

Definition set_post {C : Type} (a : zenit_allocator_t C) {SP : AllocSpec a}
    (op : set_op) (s : zenit_set_t C) (g : gset bytes) (c : C)
    (o : outcome (set_res * option (zenit_set_t C) * C)) : Prop :=
  exists r s' c' g', o = Ret (r, Some s', c') /\ set_rep a s' g' c' /\
    hs_key_size s' = hs_key_size s /\
    transfer a (set_owns s) (set_owns s') c c' /\
    set_used s' <= set_used s + 1 /\
    (hs_capacity s' = hs_capacity s \/
     (hs_capacity s' = 2 * hs_capacity s /\ 75 * hs_capacity s < 100 * set_used s)) /\
    (set_abs op g = (r, g') \/
     ((exists k, op = TInsert k) /\ r = TErr ZENIT_ERROR_ALLOC /\ g' = g)).

Fixpoint set_run {C : Type} (fuel : nat) (ops : list set_op) (s : zenit_set_t C) (c : C)
    : outcome (list set_res * zenit_set_t C * C) :=
  match ops with
  | [] => Ret ([], s, c)
  | op :: ops =>
      let! (r, s', c') := set_exec fuel op s c in
      match s' with
      | Some s' => let! (rs, s2, c2) := set_run fuel ops s' c' in Ret (r :: rs, s2, c2)
      | None => Undef
      end
  end.

Inductive set_trace : gset bytes -> list set_op -> list set_res -> Prop :=
| st_nil g : set_trace g [] []
| st_step g op ops r rs g' :
    set_abs op g = (r, g') -> set_trace g' ops rs -> set_trace g (op :: ops) (r :: rs)
| st_alloc g k ops rs :
    set_trace g ops rs -> set_trace g (TInsert k :: ops) (TErr ZENIT_ERROR_ALLOC :: rs).

(** ** The keys of a table *)

Lemma tbl_set_elem tbl k : k ∈ tbl_set tbl <-> SOcc k ∈ tbl.
Proof. unfold tbl_set. by rewrite elem_of_list_to_set, entries_elem. Qed.

(** A key fills its slot. *)
Lemma key_of_full ks e : zlen e = ks -> key_of ks e = e.
Proof. intros H. unfold key_of. apply take_ge. unfold zlen in H. lia. Qed.

Lemma table_mem_key ks slots states tbl e :
  table_mem ks slots states tbl -> SOcc e ∈ tbl -> key_of ks e = e.
Proof. intros M He. apply key_of_full. by eapply table_mem_len. Qed.

Lemma tbl_set_size ks slots states tbl :
  table_ok ks tbl -> table_mem ks slots states tbl -> Z.of_nat (size (tbl_set tbl)) = n_occ tbl.
Proof.
  intros H M. rewrite <- entries_length. unfold tbl_set, zlen. f_equal.
  apply size_list_to_set. pose proof (entries_keys_nodup ks tbl H) as N.
  assert (key_of ks <$> entries tbl = entries tbl) as E; [|by rewrite E in N].
  rewrite <- (list_fmap_id (entries tbl)) at 2. apply list_fmap_ext.
  intros i e He%list_elem_of_lookup_2%entries_elem. by eapply table_mem_key.
Qed.

Lemma tbl_set_empty n : tbl_set (replicate n SEmpty) = ∅.
Proof. unfold tbl_set. assert (entries (replicate n SEmpty) = []) as -> by (by induction n). done. Qed.

Section SetSpec.
Context {C : Type} (a : zenit_allocator_t C) {SP : AllocSpec a}.
Implicit Types (s : zenit_set_t C) (c : C) (tbl : list slot) (g : gset bytes).

Lemma set_bounds s tbl c :
  set_core a s tbl c ->
  0 < hs_capacity s <= PTRDIFF_MAX /\ 0 <= n_occ tbl /\ 0 <= n_del tbl /\
  n_occ tbl + n_del tbl <= hs_capacity s /\ 0 < hs_key_size s /\
  u64 (hs_capacity s - 1) = zlen tbl - 1.
Proof.
  intros H. pose proof (sr_size _ _ _ _ H).
  pose proof (is_pow2_pos _ (sr_pow _ _ _ _ H)). pose proof (sr_fit _ _ _ _ H).
  pose proof (n_occ_nonneg tbl). pose proof (n_del_nonneg tbl).
  pose proof (n_used_bound tbl) as B. rewrite (sr_cap _ _ _ _ H) in *.
  assert (hs_capacity s <= PTRDIFF_MAX) by nia. rewrite u64_small by lia. lia.
Qed.

Lemma set_probe_slot_spec fuel s tbl c k :
  set_core a s tbl c -> set_used s < hs_capacity s -> zlen k = hs_key_size s ->
  (Z.to_nat (hs_capacity s) <= fuel)%nat ->
  exists st i, probe_slot fuel s k = Ret (st, i) /\ probe_result (hs_key_size s) tbl k st i.
Proof.
  intros H Hu Hk Hf. pose proof (set_bounds _ _ _ H) as (B1 & B2 & B3 & B4 & B5 & B8).
  unfold probe_slot, hash_fnv1a. rewrite rd_whole by done. simpl. rewrite B8.
  pose proof (sr_cap _ _ _ _ H) as Hc. pose proof (sr_pow _ _ _ _ H) as Hp.
  rewrite <- Hc in Hp. rewrite probe_at_home by done.
  apply probe_walk_spec; try done; try apply H; try lia.
  - rewrite Hc. apply H.
  - apply has_empty. unfold set_used in Hu.
    rewrite (sr_count _ _ _ _ H), (sr_deleted _ _ _ _ H) in Hu. lia.
Qed.

(** What a probe says about membership. *)
Lemma probe_member s tbl c k st i :
  set_core a s tbl c -> probe_result (hs_key_size s) tbl k st i ->
  (st = HASH_SLOT_OCCUPIED <-> k ∈ tbl_set tbl) /\
  (st = HASH_SLOT_OCCUPIED -> 0 <= i < zlen tbl /\ tbl !! Z.to_nat i = Some (SOcc k)).
Proof.
  intros H P. destruct P as [i e Hi Ei Ke|x d Habs Hd' Hch Es Hs].
  - assert (SOcc e ∈ tbl) as He by (by eapply list_elem_of_lookup_2).
    rewrite (table_mem_key _ _ _ _ _ (sr_mem _ _ _ _ H) He) in Ke. subst e.
    split; [|done]. by rewrite tbl_set_elem.
  - assert (slot_code x <> HASH_SLOT_OCCUPIED) as Hx by (by destruct Hs as [->| ->]).
    split; [|done]. split; [done|]. intros Hk%tbl_set_elem. destruct (Habs k Hk).
    by eapply table_mem_key; [apply H|].
Qed.

Lemma put_key_spec s tbl c i k :
  set_core a s tbl c -> 0 <= i < hs_capacity s -> zlen k = hs_key_size s ->
  exists slots states, put_key s i k = Ret (slots, states) /\
    pown slots = pown (hs_slots s) /\ pown states = pown (hs_states s) /\
    table_mem (hs_key_size s) slots states (<[Z.to_nat i := SOcc k]> tbl).
Proof.
  intros H Hi Hk. pose proof (set_bounds _ _ _ H) as (B1 & B2 & B3 & B4 & B5 & B8).
  pose proof (sr_fit _ _ _ _ H) as Hfit. pose proof (sr_cap _ _ _ _ H) as Hc.
  pose proof (sr_mem _ _ _ _ H) as M. destruct (tm_slots _ _ _ _ M) as (sl & S & L & V).
  unfold put_key. rewrite u64_small by nia.
  destruct (pwr_slot (hs_key_size s) (hs_slots s) sl i k) as (p & -> & N & O & S');
    [apply M|done|lia|done|]. simpl.
  destruct (table_mem_put (hs_key_size s) (hs_slots s) p (hs_states s) tbl sl i k)
    as (st & P & Ost & T); [done|done|done|lia|done|done|].
  rewrite P. simpl. by exists p, st.
Qed.

Lemma set_core_update s tbl c slots states tbl' :
  set_core a s tbl c -> table_ok (hs_key_size s) tbl' ->
  table_mem (hs_key_size s) slots states tbl' -> zlen tbl' = zlen tbl ->
  pown slots = pown (hs_slots s) -> pown states = pown (hs_states s) ->
  set_core a (upd_set s slots states (hs_capacity s) (n_occ tbl') (n_del tbl')) tbl' c /\
  set_owns (upd_set s slots states (hs_capacity s) (n_occ tbl') (n_del tbl')) = set_owns s.
Proof.
  intros H Hok Hm Hl Hs Ht. unfold set_owns. simpl. rewrite Hs, Ht. split; [|done].
  constructor; simpl; try done; try apply H.
  - rewrite Hl. apply H.
  - rewrite Hs, Ht. apply H.
  - rewrite Hs, Ht. apply H.
  - unfold set_owns. simpl. rewrite Hs, Ht. apply H.
Qed.

Lemma read_key ks slots states tbl i e :
  table_mem ks slots states tbl -> 0 < ks -> 0 <= i -> zlen tbl * ks <= PTRDIFF_MAX ->
  tbl !! Z.to_nat i = Some (SOcc e) ->
  prd slots (u64 (i * ks)) ks = Ret e /\ zlen e = ks.
Proof.
  intros M Hk Hi Hc E. pose proof (lookup_lt_Some _ _ _ E) as Hlt.
  assert (zlen e = ks) as Le by (eapply table_mem_len; [done|by eapply list_elem_of_lookup_2]).
  split; [|done]. destruct (tm_slots _ _ _ _ M) as (sl & S & L & V).
  rewrite u64_small by (unfold zlen in *; nia).
  eapply prd_slot; [apply M|done|done|by apply V].
Qed.

Lemma set_rehash_loop_spec fuel old_slots old_states old_tbl t1 t2 : forall s tbl c,
  set_core a s tbl c -> old_tbl = t1 ++ t2 -> table_ok (hs_key_size s) old_tbl ->
  table_mem (hs_key_size s) old_slots old_states old_tbl ->
  zlen old_tbl * hs_key_size s <= PTRDIFF_MAX ->
  (forall x, SOcc x ∈ tbl <-> SOcc x ∈ t1) -> n_occ tbl = n_occ t1 -> n_del tbl = 0 ->
  n_occ old_tbl < hs_capacity s -> (Z.to_nat (hs_capacity s) <= fuel)%nat ->
  exists s' tbl',
    rehash_loop fuel (length t2) (zlen t1) old_slots old_states (u64 (hs_capacity s - 1)) s = Ret s' /\
    set_core a s' tbl' c /\ set_owns s' = set_owns s /\
    hs_key_size s' = hs_key_size s /\ hs_capacity s' = hs_capacity s /\
    (forall x, SOcc x ∈ tbl' <-> SOcc x ∈ old_tbl) /\ n_occ tbl' = n_occ old_tbl /\ n_del tbl' = 0.
Proof.
  revert t1. induction t2 as [|x t2 IH]; intros t1 s tbl c H Eo Hok Hm Hsz Hin Hn Hd Hlt Hf.
  { rewrite app_nil_r in Eo. subst. by exists s, tbl. }
  pose proof (set_bounds _ _ _ H) as (B1 & B2 & B3 & B4 & B5 & B8).
  assert (old_tbl !! Z.to_nat (zlen t1) = Some x) as Es.
  { subst old_tbl. unfold zlen. rewrite Nat2Z.id. by apply list_lookup_middle. }
  pose proof (zlen_nonneg t1) as L1. simpl.
  rewrite (table_mem_state _ _ _ _ _ _ Hm L1 Es). simpl.
  assert (old_tbl = (t1 ++ [x]) ++ t2) as Eo' by (by rewrite <- app_assoc).
  replace (zlen t1 + 1) with (zlen (t1 ++ [x])) by (rewrite zlen_app, zlen_cons, zlen_nil; lia).
  assert (n_occ (t1 ++ [x]) = n_occ t1 + is_occ x) as Hns
    by (unfold n_occ; rewrite slot_sum_app; simpl; lia).
  assert (forall y, SOcc y ∈ t1 ++ [x] <-> SOcc y ∈ t1 \/ x = SOcc y) as Hins.
  { intros y. rewrite elem_of_app, list_elem_of_singleton. naive_solver. }
  destruct x as [| |e]; simpl in *.
  1,2: apply (IH (t1 ++ [_]) s tbl c); try done; [|lia];
       intros y; rewrite Hins, Hin; naive_solver.
  destruct (read_key (hs_key_size s) old_slots old_states old_tbl (zlen t1) e) as [R1 Le]; try done.
  rewrite R1. simpl. unfold hash_fnv1a. rewrite rd_whole by done. simpl. rewrite B8.
  pose proof (sr_cap _ _ _ _ H) as Hc. pose proof (sr_pow _ _ _ _ H) as Hp. rewrite <- Hc in Hp.
  rewrite probe_at_home by done.
  assert (n_occ t1 + 1 <= n_occ old_tbl) as Hb.
  { subst old_tbl. unfold n_occ. rewrite slot_sum_app. simpl. pose proof (n_occ_nonneg t2).
    unfold n_occ in *. lia. }
  destruct (free_walk_spec (hs_key_size s) (hs_key_size s) (hs_slots s) (hs_states s) tbl e)
    with (fuel := fuel) (d := 0) as (d & -> & Hd' & Hch & s' & Es' & Hs'); try done; try apply H; try lia.
  { rewrite Hc. apply H. } { apply has_empty. lia. } { intros d' Hd'. lia. }
  simpl. pose proof (probe_at_range (zlen tbl) e d ltac:(lia)) as Hr.
  destruct (put_key_spec s tbl c (probe_at (zlen tbl) e d) e H)
    as (slots & states & -> & O1 & O2 & M'); [lia|done|]. simpl.
  set (tbl' := <[_ := SOcc e]> tbl) in M'.
  assert (forall y, SOcc y ∈ tbl -> key_of (hs_key_size s) y <> e) as Habs.
  { intros y (j & Ej)%Hin%list_elem_of_lookup Hk.
    pose proof (lookup_lt_Some _ _ _ Ej) as Hj.
    assert (old_tbl !! j = Some (SOcc y)) as Ej' by (subst old_tbl; by rewrite lookup_app_l).
    rewrite <- (key_of_full (hs_key_size s) e Le) in Hk.
    pose proof (ok_distinct _ _ Hok _ _ _ _ Ej' Es Hk). unfold zlen in *. lia. }
  assert (table_ok (hs_key_size s) tbl') as Hok'
    by (apply table_ok_put; [apply H|done|done|by apply key_of_full|done]).
  assert (n_occ tbl' = n_occ tbl + 1 /\ n_del tbl' = 0) as [N1 N2].
  { unfold tbl'. rewrite (n_occ_insert _ _ _ _ Es'), (n_del_insert _ _ _ _ Es'). simpl.
    assert (is_del s' = 0) as Hds.
    { destruct s'; try done. exfalso.
      pose proof (n_del_nonneg (<[Z.to_nat (probe_at (zlen tbl) e d) := SEmpty]> tbl)) as ND.
      rewrite (n_del_insert _ _ _ _ Es') in ND. simpl in ND. lia. }
    lia. }
  destruct (set_core_update s tbl c slots states tbl' H Hok' M') as [H' Ho'];
    [by unfold tbl'; rewrite zlen_insert|done|done|].
  rewrite u64_small by (rewrite (sr_count _ _ _ _ H); lia).
  replace (hs_count s + 1) with (n_occ tbl') by (rewrite (sr_count _ _ _ _ H); lia).
  replace (hs_deleted s) with (n_del tbl') by (rewrite (sr_deleted _ _ _ _ H); lia).
  set (s1 := upd_set s slots states (hs_capacity s) (n_occ tbl') (n_del tbl')) in *.
  rewrite <- B8. change (hs_capacity s) with (hs_capacity s1) at 1.
  destruct (IH (t1 ++ [SOcc e]) s1 tbl' c H') as (s2 & t' & E1 & E2 & E3 & E4); try done.
  - intros y. unfold tbl'. rewrite (elem_put _ _ s') by done. rewrite Hins, Hin. naive_solver.
  - rewrite Hns. lia.
  - exists s2, t'. rewrite Ho' in E3.
    split; [exact E1|]. split; [exact E2|]. split; [exact E3|]. exact E4.
Qed.
End SetSpec.

Section SetOps.
Context {C : Type} (a : zenit_allocator_t C) {SP : AllocSpec a}.
Implicit Types (s : zenit_set_t C) (c : C) (tbl : list slot) (g : gset bytes).

Lemma tbl_set_ext t1 t2 : (forall x, SOcc x ∈ t1 <-> SOcc x ∈ t2) -> tbl_set t1 = tbl_set t2.
Proof. intros E. apply set_eq. intros x. by rewrite !tbl_set_elem. Qed.

Lemma set_core_live s tbl c c' :
  set_core a s tbl c -> live c' = live c -> set_core a s tbl c'.
Proof. intros [] E. constructor; try done. by rewrite E. Qed.

Lemma set_rehash_spec fuel s tbl c n :
  set_core a s tbl c -> is_pow2 n -> hs_capacity s < n -> n * hs_key_size s < two64 ->
  (Z.to_nat n <= fuel)%nat ->
  exists r s' c', rehash fuel s n c = Ret (r, s', c') /\
    transfer a (set_owns s) (set_owns s') c c' /\ hs_key_size s' = hs_key_size s /\
    ((r = ZENIT_OK /\ hs_capacity s' = n /\ hs_deleted s' = 0 /\ hs_count s' = hs_count s /\
      exists tbl', set_core a s' tbl' c' /\ tbl_set tbl' = tbl_set tbl) \/
     (r = ZENIT_ERROR_ALLOC /\ s' = s /\ live c' = live c)).
Proof.
  intros H Hp Hn Hov Hf. pose proof (set_bounds a _ _ _ H) as (B1 & B2 & B3 & B4 & B5 & B8).
  pose proof (sr_live _ _ _ _ H) as Hl. pose proof (sr_self _ _ _ _ H) as Hs.
  pose proof (sr_disj _ _ _ _ H) as Hd. unfold set_owns in Hl.
  unfold rehash. rewrite (sr_alloc _ _ _ _ H).
  destruct (alloc_zero_cases a n (hs_key_size s) c) as (r1 & c1 & -> & P1); [nia|]. simpl.
  destruct r1 as [bs|].
  2:{ eexists _, _, _. split; [done|]. split; [split; rewrite P1; set_solver|].
      split; [done|]. by right. }
  destruct P1 as (E1 & M1 & F1 & L1).
  destruct (alloc_zero_cases a n 1 c1) as (r2 & c2 & -> & P2); [nia|]. simpl.
  destruct r2 as [bt|].
  2:{ eexists _, _, _. split; [done|].
      assert (live (free_fn a (Some (b_addr bs)) c2) = live c) as El
        by (rewrite free_some; rewrite P2, L1; set_solver).
      split; [split; rewrite El; set_solver|]. split; [done|]. by right. }
  destruct P2 as (E2 & M2 & F2 & L2).
  set (s1 := upd_set s (Some bs) (Some bt) n 0 0).
  assert (set_core a s1 (replicate (Z.to_nat n) SEmpty) c2) as H1.
  { constructor; simpl; try apply H; try done.
    - apply table_ok_empty. lia.
    - apply table_mem_empty; try done; lia.
    - rewrite zlen_replicate. lia.
    - by rewrite n_occ_replicate.
    - by rewrite n_del_replicate.
    - rewrite L1 in F2. set_solver.
    - rewrite L1 in F2. set_solver.
    - unfold set_owns. simpl. rewrite L2, L1. set_solver. }
  pose proof (sr_cap _ _ _ _ H) as Hc.
  destruct (set_rehash_loop_spec a fuel (hs_slots s) (hs_states s) tbl [] tbl s1 _ c2 H1)
    as (s' & t' & E & H' & Ho & Hk & Hcap & Hin & No & Nd);
    try done; try apply H; try (simpl; lia).
  { rewrite Hc. apply H. }
  { intros x. rewrite elem_of_nil. split; [|done]. intros [? _]%elem_of_replicate. done. }
  { by rewrite n_occ_replicate. } { by rewrite n_del_replicate. }
  replace (Z.to_nat (hs_capacity s)) with (length tbl) by (unfold zlen in Hc; lia).
  rewrite zlen_nil in E. simpl in E. rewrite E. simpl.
  eexists _, s', _. split; [done|]. simpl in *.
  unfold set_owns in Ho. simpl in Ho.
  set (c3 := free_fn a (paddr (hs_slots s)) c2). set (c4 := free_fn a (paddr (hs_states s)) c3).
  assert (transfer a (set_owns s) (set_owns s') c c4) as T.
  { unfold set_owns. rewrite Ho. apply transfer_replace.
    - done.
    - clear - Hs. set_solver.
    - rewrite L1 in F2. clear - F1 F2. set_solver.
    - assert (live c3 = ({[b_addr bt]} ∪ ({[b_addr bs]} ∪ live c)) ∖ pown (hs_slots s)) as L3.
      { unfold c3. rewrite pfree_live; rewrite L2, L1; [done|]. clear - Hl. set_solver. }
      unfold c4. rewrite pfree_live; rewrite L3; [clear; set_solver|clear - Hl Hd; set_solver]. }
  split; [done|]. split; [done|]. left. split; [done|]. split; [done|].
  split; [rewrite (sr_deleted _ _ _ _ H'); lia|].
  split; [rewrite (sr_count _ _ _ _ H'), (sr_count _ _ _ _ H); done|].
  exists t'. split; [|by apply tbl_set_ext].
  destruct H'. constructor; try done. apply T.
Qed.

Lemma set_ensure_load_spec fuel s tbl c :
  set_core a s tbl c -> set_used s < hs_capacity s -> 8 <= hs_capacity s <= 2 ^ 56 ->
  (Z.to_nat (2 * hs_capacity s) <= fuel)%nat ->
  exists r s1 c1, ensure_load fuel s c = Ret (r, s1, c1) /\
    transfer a (set_owns s) (set_owns s1) c c1 /\ hs_key_size s1 = hs_key_size s /\
    ((r = ZENIT_OK /\ set_used s1 + 1 < hs_capacity s1 /\ set_used s1 <= set_used s /\
      (hs_capacity s1 = hs_capacity s \/
       (hs_capacity s1 = 2 * hs_capacity s /\ 75 * hs_capacity s < 100 * set_used s)) /\
      exists tbl1, set_core a s1 tbl1 c1 /\ tbl_set tbl1 = tbl_set tbl) \/
     (r = ZENIT_ERROR_ALLOC /\ s1 = s /\ live c1 = live c)).
Proof.
  intros H Hu Hc Hf. pose proof (set_bounds a _ _ _ H) as (B1 & B2 & B3 & B4 & B5 & B8).
  pose proof (sr_count _ _ _ _ H) as Hn. pose proof (sr_deleted _ _ _ _ H) as Hd.
  unfold set_used in *. unfold ensure_load, HASH_LOAD_PERCENT, HASH_GROWTH_FACTOR.
  rewrite (u64_small (hs_count s + _)) by lia. rewrite !u64_small by lia. case_decide as D.
  - destruct (set_rehash_spec fuel s tbl c (hs_capacity s * 2) H)
      as (r & s1 & c1 & -> & T & Ek & P).
    { apply is_pow2_double, H. } { lia. } { pose proof (sr_fit _ _ _ _ H). nia. }
    { rewrite Z.mul_comm. done. }
    eexists _, _, _. split; [done|]. do 2 (split; [done|]).
    destruct P as [(-> & Ec & Ed & En & P)|P]; [left|by right].
    split; [done|]. split; [lia|]. split; [lia|]. split; [right; lia|done].
  - eexists _, _, _. split; [done|]. split; [apply transfer_refl, H|]. split; [done|].
    left. split; [done|]. split; [lia|]. split; [lia|]. split; [by left|]. by exists tbl.
Qed.

Lemma set_post_pure op s g c r :
  set_rep a s g c -> set_abs op g = (r, g) -> set_post a op s g c (Ret (r, Some s, c)).
Proof.
  intros H E. exists r, s, c, g. do 3 (split; [done|]).
  split; [destruct H as (t & H & _); apply transfer_refl, H|]. split; [lia|].
  split; [by left|by left].
Qed.

Lemma set_insert_loaded_spec fuel s tbl c k :
  set_core a s tbl c -> set_used s + 1 < hs_capacity s ->
  zlen k = hs_key_size s -> (Z.to_nat (hs_capacity s) <= fuel)%nat ->
  exists s', insert_loaded fuel s k c = Ret (ZENIT_OK, Some s', c) /\
    set_rep a s' ({[ k ]} ∪ tbl_set tbl) c /\ set_owns s' = set_owns s /\
    hs_key_size s' = hs_key_size s /\
    hs_capacity s' = hs_capacity s /\ set_used s' <= set_used s + 1.
Proof.
  intros H Hu Hk Hf. pose proof (set_bounds a _ _ _ H) as (B1 & B2 & B3 & B4 & B5 & B8).
  pose proof (sr_count _ _ _ _ H) as Hn. pose proof (sr_deleted _ _ _ _ H) as Hd.
  pose proof (sr_cap _ _ _ _ H) as Hc. unfold set_used in *. unfold insert_loaded.
  destruct (set_probe_slot_spec a fuel s tbl c k H) as (st & i & -> & P);
    [unfold set_used; lia|done|done|]. simpl.
  destruct (probe_member a s tbl c k st i H P) as [Pm _].
  destruct P as [i e Hi Ei Ke|x d Habs Hd' Hch Es Hs]; simpl.
  - exists s. split; [done|]. split; [|split_and!; try done; lia]. exists tbl. split; [done|].
    split; [|unfold set_used; lia]. assert (k ∈ tbl_set tbl) as Hin by (by apply Pm). set_solver.
  - rewrite decide_False by (by destruct Hs as [->| ->]).
    rewrite rd_whole by done. simpl.
    pose proof (probe_at_range (zlen tbl) k d ltac:(lia)) as Hr.
    destruct (put_key_spec a s tbl c _ k H ltac:(rewrite <- Hc; exact Hr) Hk)
      as (slots & states & -> & O1 & O2 & M'). simpl.
    assert (table_ok (hs_key_size s) (<[Z.to_nat (probe_at (zlen tbl) k d) := SOcc k]> tbl)) as Hok'
      by (apply table_ok_put; [apply H|done|done|by apply key_of_full|done]).
    destruct (set_core_update a s tbl c slots states _ H Hok' M') as [H' Ho'];
      [by rewrite zlen_insert|done|done|].
    rewrite (n_occ_insert _ _ _ _ Es), (n_del_insert _ _ _ _ Es) in H', Ho'.
    assert (is_occ x = 0) as Hso by (by destruct Hs as [->| ->]).
    assert ((if decide (slot_code x = HASH_SLOT_DELETED) then u64 (hs_deleted s - 1) else hs_deleted s)
            = n_del tbl - is_del x + is_del (SOcc k)) as ->.
    { pose proof (n_del_nonneg (<[Z.to_nat (probe_at (zlen tbl) k d) := SOcc k]> tbl)) as ND.
      rewrite (n_del_insert _ _ _ _ Es) in ND.
      destruct Hs as [->| ->]; simpl in *; [lia|]. rewrite u64_small; lia. }
    rewrite u64_small by lia.
    replace (hs_count s + 1) with (n_occ tbl - is_occ x + is_occ (SOcc k)) by (simpl; lia).
    eexists. split; [done|].
    split; [|simpl; split_and!; try done; destruct Hs as [->| ->]; simpl; lia].
    eexists. split; [exact H'|]. simpl.
    split; [|unfold set_used; simpl; destruct Hs as [->| ->]; simpl; lia].
    apply set_eq. intros y. rewrite elem_of_union, elem_of_singleton, !tbl_set_elem.
    by rewrite (elem_put _ _ x).
Qed.

Lemma set_insert_step fuel s g c k :
  set_rep a s g c -> 8 <= hs_capacity s <= 2 ^ 56 -> zlen k = hs_key_size s ->
  (Z.to_nat (2 * hs_capacity s) <= fuel)%nat ->
  set_post a (TInsert k) s g c (set_exec fuel (TInsert k) s c).
Proof.
  intros (tbl & H & -> & Hu) Hc Hk Hf. cbn [set_exec zenit_set_insert].
  destruct (set_ensure_load_spec fuel s tbl c H Hu Hc Hf) as (r & s1 & c1 & -> & T & Ek & P). simpl.
  destruct P as [(-> & Hroom & Hle & Hcap & t1 & H1 & Et)|(-> & -> & Lc)]; simpl.
  - destruct (set_insert_loaded_spec fuel s1 t1 c1 k H1 Hroom)
      as (s' & -> & R & Ho & Ek' & Ec' & Hu'); [congruence|lia|]. simpl.
    rewrite Et in R. eexists _, _, _, _. split; [done|]. split; [done|].
    split; [congruence|]. split; [by rewrite Ho|]. split; [lia|].
    split; [by rewrite Ec'|by left].
  - eexists _, _, _, _. split; [done|]. split.
    { exists tbl. split; [by eapply set_core_live|done]. }
    do 2 (split; [done|]). split; [lia|]. split; [by left|]. right. by eauto.
Qed.

Lemma set_contains_step fuel s g c k :
  set_rep a s g c -> zlen k = hs_key_size s -> (Z.to_nat (hs_capacity s) <= fuel)%nat ->
  set_post a (TContains k) s g c (set_exec fuel (TContains k) s c).
Proof.
  intros R Hk Hf. pose proof R as (tbl & H & -> & Hu). cbn [set_exec zenit_set_contains].
  destruct (set_probe_slot_spec a fuel s tbl c k H Hu Hk Hf) as (st & i & -> & P). simpl.
  apply set_post_pure; [done|]. simpl. do 2 f_equal.
  apply bool_decide_ext. symmetry. by eapply probe_member.
Qed.

Lemma set_remove_step fuel s g c k :
  set_rep a s g c -> zlen k = hs_key_size s -> (Z.to_nat (hs_capacity s) <= fuel)%nat ->
  set_post a (TRemove k) s g c (set_exec fuel (TRemove k) s c).
Proof.
  intros R Hk Hf. pose proof R as (tbl & H & -> & Hu).
  pose proof (set_bounds a _ _ _ H) as (B1 & B2 & B3 & B4 & B5 & B8).
  pose proof (sr_count _ _ _ _ H) as Hn. pose proof (sr_deleted _ _ _ _ H) as Hd.
  cbn [set_exec zenit_set_remove].
  destruct (set_probe_slot_spec a fuel s tbl c k H Hu Hk Hf) as (st & i & -> & P). simpl.
  destruct (probe_member a s tbl c k st i H P) as [Pm Pf]. case_decide as D.
  { apply set_post_pure; [done|]. simpl. rewrite decide_False; [done|]. by rewrite <- Pm. }
  assert (st = HASH_SLOT_OCCUPIED) as Est by (destruct (decide (st = HASH_SLOT_OCCUPIED)); [done|by destruct D]).
  destruct (Pf Est) as [Hi Ei]. clear P.
  destruct (table_mem_set_state (hs_key_size s) (hs_slots s) (hs_states s) tbl i (SOcc k) SDeleted)
    as (st' & Pst & O & M); [apply H|lia|done|done|].
  simpl in Pst. rewrite Pst. simpl.
  pose proof (table_ok_delete (hs_key_size s) tbl (Z.to_nat i) (sr_ok _ _ _ _ H)) as Hok'.
  destruct (set_core_update a s tbl c (hs_slots s) st' _ H Hok' M) as [H' Ho'];
    [by rewrite zlen_insert|done|done|].
  rewrite (n_occ_insert _ _ _ _ Ei), (n_del_insert _ _ _ _ Ei) in H', Ho'. simpl in H', Ho'.
  pose proof (n_occ_nonneg (<[Z.to_nat i := SDeleted]> tbl)) as NN.
  rewrite (n_occ_insert _ _ _ _ Ei) in NN. simpl in NN.
  unfold set_used in *. rewrite !u64_small by lia.
  replace (hs_count s - 1) with (n_occ tbl - 1 + 0) by lia.
  replace (hs_deleted s + 1) with (n_del tbl - 0 + 1) by lia.
  eexists _, _, _, _. split; [done|]. split; [eexists; split; [exact H'|split; [done|]]|].
  { unfold set_used. simpl. lia. }
  split; [done|]. split; [rewrite Ho'; apply transfer_refl, H|].
  split; [unfold set_used; simpl; lia|]. split; [by left|left].
  simpl. rewrite decide_True by (by apply Pm). f_equal. apply set_eq. intros y.
  rewrite elem_of_difference, elem_of_singleton, !tbl_set_elem.
  rewrite (elem_delete (hs_key_size s) _ _ k) by (apply H || done).
  rewrite (key_of_full _ k) by done. split.
  - intros [Hy Hne]. split; [done|]. rewrite (table_mem_key _ _ _ _ y (sr_mem _ _ _ _ H)) by done. done.
  - intros [Hy Hne]. split; [done|]. by rewrite (table_mem_key _ _ _ _ y (sr_mem _ _ _ _ H)) in Hne.
Qed.

Lemma set_clear_step fuel s g c :
  set_rep a s g c -> set_post a TClear s g c (set_exec fuel TClear s c).
Proof.
  intros (tbl & H & -> & Hu). pose proof (set_bounds a _ _ _ H) as (B1 & B2 & B3 & B4 & B5 & B8).
  pose proof (sr_mem _ _ _ _ H) as M. pose proof (sr_cap _ _ _ _ H) as Hc.
  pose proof (tm_states _ _ _ _ M) as Est.
  assert (zlen (pbytes (hs_states s)) = hs_capacity s) as Ls
    by (rewrite Est; unfold zlen in *; rewrite length_fmap; lia).
  cbn [set_exec zenit_set_clear]. unfold pmemset. rewrite decide_True by lia.
  destruct (pwr_wr (hs_states s) 0 (replicate (Z.to_nat (hs_capacity s)) HASH_SLOT_EMPTY)
    (replicate (Z.to_nat (hs_capacity s)) HASH_SLOT_EMPTY)) as (st & -> & Eb & O & _ & N).
  { apply M. } { apply wr_whole. rewrite zlen_replicate. lia. }
  simpl. set (tbl' := replicate (Z.to_nat (hs_capacity s)) SEmpty).
  assert (table_ok (hs_key_size s) tbl') as Hok' by (apply table_ok_empty; lia).
  assert (table_mem (hs_key_size s) (hs_slots s) st tbl') as M'.
  { constructor; try done; try apply M.
    - rewrite Eb. unfold tbl'. by rewrite fmap_replicate.
    - destruct (tm_slots _ _ _ _ M) as (sl & S & L & _). exists sl. split; [done|].
      split; [unfold tbl'; rewrite zlen_replicate; lia|].
      intros i e [? _]%lookup_replicate. done. }
  destruct (set_core_update a s tbl c (hs_slots s) st tbl' H Hok' M') as [H' Ho'];
    [unfold tbl'; rewrite zlen_replicate; lia|done|done|].
  unfold tbl' in H', Ho'. rewrite n_occ_replicate, n_del_replicate in H', Ho'.
  unfold set_used in *.
  eexists _, _, _, _. split; [done|]. split; [eexists; split; [exact H'|split; [done|]]|].
  { unfold set_used. simpl. lia. }
  split; [done|]. split; [rewrite Ho'; apply transfer_refl, H|].
  pose proof (sr_count _ _ _ _ H). pose proof (sr_deleted _ _ _ _ H).
  split; [unfold set_used; simpl; lia|]. split; [by left|left]. simpl. by rewrite tbl_set_empty.
Qed.

Lemma set_step fuel op s g c :
  set_rep a s g c -> set_pre (hs_key_size s) op -> 8 <= hs_capacity s <= 2 ^ 56 ->
  (Z.to_nat (2 * hs_capacity s) <= fuel)%nat ->
  set_post a op s g c (set_exec fuel op s c).
Proof.
  intros R Hp Hc Hf. destruct op as [k|k|k| |]; simpl in Hp.
  - by apply set_insert_step.
  - apply set_remove_step; [done|done|lia].
  - apply set_contains_step; [done|done|lia].
  - apply set_post_pure; [done|]. destruct R as (tbl & H & -> & _). simpl.
    rewrite (tbl_set_size (hs_key_size s) (hs_slots s) (hs_states s)) by apply H.
    by rewrite (sr_count _ _ _ _ H).
  - by apply set_clear_step.
Qed.
End SetOps.

(** What [zenit_set_to_array] returned: a block with all keys and their number, or
    an allocation failure. *)
Definition collected {C : Type} (a : zenit_allocator_t C) {SP : AllocSpec a}
    (keys : list bytes) (c : C) (o : outcome (zenit_error_t * option block * Z * C)) : Prop :=
  exists r b n c', o = Ret (r, b, n, c') /\ transfer a ∅ (pown b) c c' /\
    ((r = ZENIT_OK /\ pbytes b = concat keys /\ n = zlen keys) \/
     (r = ZENIT_ERROR_ALLOC /\ b = None /\ n = 0)).

Section SetTheorems.
Context {C : Type} (a : zenit_allocator_t C) {SP : AllocSpec a}.
Implicit Types (s : zenit_set_t C) (c : C) (tbl : list slot) (g : gset bytes).

Lemma set_create_spec ks n c :
  0 <= ks -> 0 <= n <= two63 -> round_pow2 n * ks < two64 ->
  exists r c', zenit_set_create_with_capacity_and_allocator ks n a c = Ret (r, c') /\
  match r with
  | None => live c' = live c
  | Some s => set_rep a s ∅ c' /\ transfer a ∅ (set_owns s) c c' /\ hs_key_size s = ks /\
              hs_capacity s = round_pow2 n /\ set_used s = 0
  end.
Proof.
  intros Hks Hn Hov. unfold zenit_set_create_with_capacity_and_allocator.
  case_decide as D; [by eexists None, c|].
  assert (0 < ks /\ 1 <= n) as (K1 & K3) by lia.
  pose proof (round_pow2_spec n ltac:(lia)) as Ep.
  assert (is_pow2 (round_pow2 n)) as Hp by (rewrite Ep; eexists; split; [apply Z.log2_up_nonneg|done]).
  pose proof (is_pow2_pos _ Hp) as Hpos. set (cap := round_pow2 n) in *.
  destruct (alloc_fn a SIZEOF_SET c) as [[h|] c1] eqn:A.
  2:{ eexists None, c1. split; [done|]. by eapply alloc_none. }
  apply alloc_some in A as (_ & _ & F & L).
  destruct (alloc_zero_cases a cap ks c1) as (r1 & c2 & -> & P1); [nia|]. simpl.
  destruct r1 as [bs|].
  2:{ eexists None, _. split; [done|]. rewrite free_some by (rewrite P1, L; set_solver).
      rewrite P1, L. set_solver. }
  destruct P1 as (E1 & M1 & F1 & L1).
  destruct (alloc_zero_cases a cap 1 c2) as (r2 & c3 & -> & P2); [nia|]. simpl.
  rewrite L in L1, F1.
  destruct r2 as [bt|].
  2:{ eexists None, _. split; [done|]. rewrite L1 in P2.
      rewrite free_some by (rewrite free_some; rewrite P2; set_solver).
      rewrite free_some by (rewrite P2; set_solver). rewrite P2. set_solver. }
  destruct P2 as (E2 & M2 & F2 & L2). rewrite L1 in L2, F2.
  eexists (Some _), _. split; [done|].
  set (s := mk_hset _ _ _ _ _ _ _ _).
  assert (transfer a ∅ (set_owns s) c c3) as T
    by (unfold set_owns; simpl; split; rewrite L2; set_solver).
  split; [|by split_and!]. exists (replicate (Z.to_nat cap) SEmpty).
  split; [|split; [by rewrite tbl_set_empty|unfold set_used; simpl; lia]].
  constructor; simpl; try done.
  - apply table_ok_empty. lia.
  - apply table_mem_empty; try done; lia.
  - rewrite zlen_replicate. lia.
  - by rewrite n_occ_replicate.
  - by rewrite n_del_replicate.
  - set_solver.
  - set_solver.
  - apply T.
Qed.

Lemma set_destroy_spec s tbl c :
  set_core a s tbl c -> live (zenit_set_destroy (Some s) c) = live c ∖ set_owns s.
Proof.
  intros H. pose proof (sr_self _ _ _ _ H) as Hs. pose proof (sr_live _ _ _ _ H) as Hl.
  pose proof (sr_disj _ _ _ _ H) as Hd. unfold set_owns in *. unfold zenit_set_destroy.
  rewrite (sr_alloc _ _ _ _ H).
  assert (live (free_fn a (paddr (hs_slots s)) c) = live c ∖ pown (hs_slots s)) as L1
    by (apply pfree_live; set_solver).
  assert (live (free_fn a (paddr (hs_states s)) (free_fn a (paddr (hs_slots s)) c))
          = (live c ∖ pown (hs_slots s)) ∖ pown (hs_states s)) as L2
    by (rewrite pfree_live; rewrite L1; [done|set_solver]).
  rewrite free_some; rewrite L2; [clear; set_solver|clear - Hs Hl; set_solver].
Qed.

Lemma set_run_spec fuel bound ops s g c :
  set_rep a s g c -> Forall (set_pre (hs_key_size s)) ops ->
  8 <= hs_capacity s <= bound -> 4 * (set_used s + zlen ops) <= bound -> bound <= 2 ^ 56 ->
  (Z.to_nat (2 * bound) <= fuel)%nat ->
  exists rs s' g' c', set_run fuel ops s c = Ret (rs, s', c') /\ set_trace g ops rs /\
    set_rep a s' g' c' /\ transfer a (set_owns s) (set_owns s') c c'.
Proof.
  intros R Hops Hc Hb Hm Hf. revert s g c R Hops Hc Hb.
  induction ops as [|op ops IH]; intros s g c R Hops Hc Hb.
  - exists [], s, g, c. split; [done|]. split; [constructor|]. split; [done|].
    destruct R as (t & H & _). apply transfer_refl, H.
  - apply Forall_cons_1 in Hops as [Hop Hops]. rewrite zlen_cons in Hb. simpl.
    pose proof (zlen_nonneg ops) as Hz.
    destruct (set_step a fuel op s g c R Hop)
      as (r & s1 & c1 & g1 & -> & R1 & Ek & T1 & Hu & Hcap & P); [lia|lia|]. simpl.
    rewrite <- Ek in Hops.
    destruct (IH s1 g1 c1 R1 Hops) as (rs & s2 & g2 & c2 & -> & Tr & R2 & T2); [lia|lia|].
    simpl. eexists _, _, _, _. split; [done|]. split; [|split; [done|by eapply transfer_trans]].
    destruct P as [P|((k & ->) & -> & ->)]; [by eapply st_step|by apply st_alloc].
Qed.

Lemma read_key_core s tbl c i e :
  set_core a s tbl c -> 0 <= i -> tbl !! Z.to_nat i = Some (SOcc e) ->
  prd (hs_slots s) (u64 (i * hs_key_size s)) (hs_key_size s) = Ret e /\ zlen e = hs_key_size s.
Proof.
  intros H Hi E. eapply read_key; [apply H|apply H|done| |done].
  rewrite (sr_cap _ _ _ _ H). apply H.
Qed.

Lemma set_foreach_loop_spec {S : Type} s tbl c (visit : bytes -> S -> S) t1 t2 ctx :
  set_core a s tbl c -> tbl = t1 ++ t2 ->
  foreach_loop (length t2) (zlen t1) s visit ctx = Ret (foldl (fun x k => visit k x) ctx (entries t2)).
Proof.
  intros H. revert t1 ctx. induction t2 as [|x t2 IH]; intros t1 ctx E; [done|].
  assert (tbl !! Z.to_nat (zlen t1) = Some x) as Es.
  { subst tbl. unfold zlen. rewrite Nat2Z.id. by apply list_lookup_middle. }
  pose proof (zlen_nonneg t1) as L1. simpl.
  rewrite (table_mem_state _ _ _ _ _ _ (sr_mem _ _ _ _ H) L1 Es). simpl.
  assert (tbl = (t1 ++ [x]) ++ t2) as E' by (by rewrite <- app_assoc).
  replace (zlen t1 + 1) with (zlen (t1 ++ [x])) by (rewrite zlen_app, zlen_cons, zlen_nil; lia).
  destruct x as [| |e]; simpl; try by apply IH.
  destruct (read_key_core s tbl c (zlen t1) e H L1 Es) as (-> & _). simpl. by rewrite IH.
Qed.

Lemma to_array_loop_spec s tbl c t1 t2 :
  set_core a s tbl c -> tbl = t1 ++ t2 ->
  forall dst l rest, dst <> None -> is_slots (hs_key_size s) (pbytes dst) (l ++ rest) ->
  zlen rest = n_occ t2 -> zlen (pbytes dst) <= PTRDIFF_MAX ->
  exists dst', to_array_loop (length t2) (zlen t1) (zlen l) s dst = Ret (dst', zlen l + n_occ t2) /\
    pown dst' = pown dst /\ pbytes dst' = concat (l ++ entries t2).
Proof.
  intros H E. pose proof (sr_size _ _ _ _ H) as Hp.
  revert t1 E. induction t2 as [|x t2 IH]; intros t1 E dst l rest Hn S Hr Hl.
  { assert (rest = []) as -> by (by apply zlen_0). exists dst. simpl. unfold n_occ. simpl.
    rewrite Z.add_0_r. split; [done|]. split; [done|]. by destruct S. }
  assert (tbl !! Z.to_nat (zlen t1) = Some x) as Es.
  { subst tbl. unfold zlen. rewrite Nat2Z.id. by apply list_lookup_middle. }
  pose proof (zlen_nonneg t1) as L1. simpl.
  rewrite (table_mem_state _ _ _ _ _ _ (sr_mem _ _ _ _ H) L1 Es). simpl.
  assert (tbl = (t1 ++ [x]) ++ t2) as E' by (by rewrite <- app_assoc).
  replace (zlen t1 + 1) with (zlen (t1 ++ [x])) by (rewrite zlen_app, zlen_cons, zlen_nil; lia).
  pose proof (n_occ_nonneg t2) as Nn.
  destruct x as [| |e]; simpl; unfold n_occ in Hr |- *; simpl in Hr |- *; try by (eapply IH).
  fold (n_occ t2) in *.
  destruct (read_key_core s tbl c (zlen t1) e H L1 Es) as (-> & Le). simpl.
  destruct rest as [|y rest]; [rewrite zlen_nil in Hr; lia|]. rewrite zlen_cons in Hr.
  pose proof (is_slots_zlen _ _ _ S) as LS. rewrite zlen_app, zlen_cons in LS.
  pose proof (zlen_nonneg l). pose proof (zlen_nonneg rest).
  rewrite (u64_small (zlen l * hs_key_size s)) by nia.
  destruct (pwr_slots (hs_key_size s) dst l [y] [e] rest (zlen l * hs_key_size s))
    as (d' & W & Nd & Od & Sd); [done|done|done|done|by constructor|].
  simpl in W. rewrite app_nil_r in W. rewrite W. simpl.
  rewrite u64_small by nia.
  replace (zlen l + 1) with (zlen (l ++ [e])) by (rewrite zlen_app, zlen_cons, zlen_nil; lia).
  destruct (IH (t1 ++ [SOcc e]) E' d' (l ++ [e]) rest) as (d2 & R & O2 & B2); [done| |lia| |].
  { by rewrite <- app_assoc. }
  { rewrite (is_slots_zlen _ _ _ Sd). rewrite LS in Hl. autorewrite with zlen in *. lia. }
  exists d2. rewrite R. split; [|split; [congruence|by rewrite B2, <- app_assoc]].
  do 2 f_equal. zl.
Qed.

Lemma to_array_spec s tbl c :
  set_core a s tbl c -> collected a (entries tbl) c (zenit_set_to_array (Some s) true c).
Proof.
  intros H. pose proof (set_bounds a _ _ _ H) as (B1 & B2 & B3 & B4 & B5 & B8).
  pose proof (sr_fit _ _ _ _ H) as Hfit. pose proof (sr_count _ _ _ _ H) as Hn.
  pose proof (entries_length tbl) as Lf.
  assert (n_occ tbl * hs_key_size s <= PTRDIFF_MAX) as Hov by nia.
  unfold zenit_set_to_array. case_decide as D.
  { assert (entries tbl = []) as -> by (apply zlen_0; lia).
    eexists _, _, _, _. split; [done|]. simpl. split; [apply transfer_refl; set_solver|]. by left. }
  rewrite (sr_alloc _ _ _ _ H), u64_small by nia.
  destruct (alloc_fn a (hs_count s * hs_key_size s) c) as [[b|] c1] eqn:A.
  2:{ eexists _, _, _, _. split; [done|]. split; [eapply transfer_alloc_none; [set_solver|done]|].
      by right. }
  pose proof A as (Lb & _ & _ & _)%alloc_some.
  replace (Z.to_nat (hs_capacity s)) with (length tbl)
    by (rewrite <- (sr_cap _ _ _ _ H); unfold zlen; lia).
  destruct (to_array_loop_spec s tbl c [] tbl H eq_refl (Some b) []
    (slots_of (Z.to_nat (hs_key_size s)) (Z.to_nat (n_occ tbl)) (b_data b))) as (d & R & O & B).
  - done.
  - apply is_slots_exists. simpl. rewrite Lb, Z2Nat.id, Hn; done.
  - rewrite zlen_slots_of. lia.
  - simpl. rewrite Lb. lia.
  - change (zlen (@nil bytes)) with 0 in R. rewrite zlen_nil, Z.add_0_l in R. rewrite R. simpl.
    eexists _, _, _, _. split; [done|].
    rewrite O. simpl. split; [|left; by rewrite Lf].
    replace {[b_addr b]} with ({[b_addr b]} ∪ ∅ : gset addr) by set_solver.
    eapply transfer_alloc; [set_solver|done].
Qed.

(** C10. The hash set is a set of keys.  A set created with a capacity above 4
    gives, for any sequence of insertions, removals, membership tests, counts and
    clears, exactly the results of a finite set; every probe and every rehash
    terminates within the capacity, no access leaves the arrays, an insertion that
    cannot allocate reports [ZENIT_ERROR_ALLOC] and changes nothing, and
    destruction releases exactly what the set held. *)
Theorem set_membership fuel ks n ops c :
  0 <= ks -> 4 < n -> 2 * n + 4 * zlen ops <= 2 ^ 56 ->
  round_pow2 n * ks < two64 -> Forall (set_pre ks) ops ->
  (Z.to_nat (2 * (2 * n + 4 * zlen ops)) <= fuel)%nat ->
  exists r c1, zenit_set_create_with_capacity_and_allocator ks n a c = Ret (r, c1) /\
  match r with
  | None => live c1 = live c
  | Some s => exists rs s' c2, set_run fuel ops s c1 = Ret (rs, s', c2) /\
      set_trace ∅ ops rs /\ live (zenit_set_destroy (Some s') c2) = live c
  end.
Proof.
  intros Hk Hn Hb Hov Hops Hf. pose proof (zlen_nonneg ops) as Hz.
  destruct (set_create_spec ks n c Hk) as (r & c1 & -> & Cr); [lia|done|].
  exists r, c1. split; [done|]. destruct r as [s|]; [|done].
  destruct Cr as (R & T & Ek & Ec & Eu).
  assert (8 <= round_pow2 n <= 2 * n) as Hcap by (apply round_pow2_bounds; lia).
  destruct (set_run_spec fuel (2 * n + 4 * zlen ops) ops s ∅ c1 R)
    as (rs & s' & g' & c2 & -> & Tr & R' & T'); [by rewrite Ek|lia|lia|lia|done|].
  eexists _, _, _. split; [done|]. split; [done|]. destruct R' as (tbl & H & _ & _).
  rewrite (set_destroy_spec s' tbl) by done.
  pose proof (transfer_trans _ _ _ _ _ _ _ T T') as [T1 T2]. rewrite T2. set_solver.
Qed.

(** Enumeration of the set lists every key exactly once: [zenit_set_foreach]
    and [zenit_set_to_array] go through the same duplicate-free list of the
    members, and the array and the count returned are those of that list. *)
Theorem set_enumerates s g c :
  set_rep a s g c ->
  exists l, l ≡ₚ elements g /\
    (forall S (visit : bytes -> S -> S) ctx,
       zenit_set_foreach (Some s) (Some visit) ctx = Ret (foldl (fun x k => visit k x) ctx l)) /\
    collected a l c (zenit_set_to_array (Some s) true c).
Proof.
  intros (tbl & H & -> & _). exists (entries tbl). split; [|split].
  - unfold tbl_set. symmetry. apply elements_list_to_set.
    pose proof (entries_keys_nodup (hs_key_size s) tbl (sr_ok _ _ _ _ H)) as N.
    assert (key_of (hs_key_size s) <$> entries tbl = entries tbl) as E; [|by rewrite E in N].
    rewrite <- (list_fmap_id (entries tbl)) at 2. apply list_fmap_ext.
    intros i e He%list_elem_of_lookup_2%entries_elem. by eapply table_mem_key; [apply H|].
  - intros S visit ctx. unfold zenit_set_foreach.
    replace (Z.to_nat (hs_capacity s)) with (length tbl)
      by (rewrite <- (sr_cap _ _ _ _ H); unfold zlen; lia).
    by apply (set_foreach_loop_spec s tbl c visit [] tbl).
  - by apply to_array_spec.
Qed.
End SetTheorems.

(** ** Witnesses *)

Lemma set_membership_witness :
  exists r c1, zenit_set_create_with_capacity 1 5 empty_heap = Ret (r, c1) /\
  match r with
  | None => h_live c1 = h_live empty_heap
  | Some s => exists rs s' c2,
      set_run 100 [TInsert [1]; TInsert [2]; TInsert [1]; TRemove [1]; TContains [1]; TCount]
        s c1 = Ret (rs, s', c2) /\
      set_trace ∅ [TInsert [1]; TInsert [2]; TInsert [1]; TRemove [1]; TContains [1]; TCount] rs /\
      h_live (zenit_set_destroy (Some s') c2) = h_live empty_heap
  end.
Proof.
  refine (set_membership ZENIT_ALLOCATOR_DEFAULT 100 1 5
    [TInsert [1]; TInsert [2]; TInsert [1]; TRemove [1]; TContains [1]; TCount] empty_heap
    _ _ _ _ _ _); try lia.
  - unfold zlen. simpl. lia.
  - reflexivity.
  - repeat constructor.
  - unfold zlen. simpl. lia.
Defined.

(** Two slots, the key 7 in its home slot. *)
Definition wit_set : zenit_set_t heap :=
  mk_hset 2 (Some (Block 3 [7; 0])) (Some (Block 4 [1; 0])) 1 2 1 0 ZENIT_ALLOCATOR_DEFAULT.
Definition wit_set_heap : heap := mk_heap {[ 2%positive; 3%positive; 4%positive ]} [].

Lemma wit_set_rep :
  set_rep ZENIT_ALLOCATOR_DEFAULT wit_set (tbl_set [SOcc [7]; SEmpty]) wit_set_heap.
Proof.
  exists [SOcc [7]; SEmpty]. split; [|done]. constructor; simpl; try done.
  - constructor; [done|..].
    + intros [|[|i]] x Ex; try done. injection Ex as <-. exists 0.
      split; [by unfold zlen; simpl|]. split; [by vm_compute|]. intros d Hd. lia.
    + by intros [|[|i]] [|[|j]] x y.
  - constructor; simpl; try done. exists [[7]; [0]].
    split; [by split; [|repeat constructor]|]. split; [done|].
    intros [|[|i]] e Ee; try done. by injection Ee as <-.
  - by exists 1.
  - set_solver.
Qed.

Lemma set_enumerates_witness :
  exists l, l ≡ₚ elements (tbl_set [SOcc [7]; SEmpty]) /\
    (forall S (visit : bytes -> S -> S) ctx,
       zenit_set_foreach (Some wit_set) (Some visit) ctx
         = Ret (foldl (fun x k => visit k x) ctx l)) /\
    collected ZENIT_ALLOCATOR_DEFAULT l wit_set_heap
      (zenit_set_to_array (Some wit_set) true wit_set_heap).
Proof. exact (set_enumerates ZENIT_ALLOCATOR_DEFAULT _ _ _ wit_set_rep). Defined.
