(* ===== verification/Text.v ===== *)
(** * C strings and sequential output

    What the text components share: characters, NUL-terminated strings in a byte
    buffer, [strlen], and the pattern in which a loop fills a fresh block from the
    left.  A [char] is its byte value; where the sources compare characters with
    ASCII constants the signedness of [char] makes no difference, where they order
    two characters [schar] gives the value of the signed type. *)

From Stdlib Require Import ZArith Lia Ascii String.
From stdpp Require Import base tactics option list numbers.
From S2P Require Import Prelude Mem Allocator.
Open Scope Z_scope.

(** The code of a character constant. *)
Definition ch (a : ascii) : Z := Z.of_N (N_of_ascii a).

Abbreviation NUL := 0 (only parsing).

(** The value of a byte read as a signed [char]. *)
Definition schar (c : Z) : Z := if decide (c < 128) then c else c - 256.

(** A string literal, without its terminator. *)
Definition lit (s : string) : bytes := map ch (list_ascii_of_string s).

(** [strlen]: undefined when the buffer has no terminator. *)
Fixpoint strlen (s : bytes) : outcome Z :=
  match s with
  | [] => Undef
  | c :: s => if decide (c = NUL) then Ret 0 else let! n := strlen s in Ret (n + 1)
  end.

(** [buf] holds the string [s]. *)
Definition cstr (buf s : bytes) : Prop :=
  exists rest, buf = s ++ NUL :: rest /\ Forall (fun c => 0 < c < 256) s.

Definition is_bytes (s : bytes) : Prop := Forall is_byte s.

(** ** Tactics *)

(** Evaluate character constants. *)
Ltac chars :=
  repeat match goal with
  | |- context [ch ?a] => let v := eval vm_compute in (ch a) in change (ch a) with v
  | H : context [ch ?a] |- _ => let v := eval vm_compute in (ch a) in change (ch a) with v in H
  end.

(** ** Strings *)

Lemma schar_inj c d : is_byte c -> is_byte d -> schar c = schar d -> c = d.
Proof. unfold is_byte, schar. intros Hc Hd. repeat case_decide; lia. Qed.

Lemma strlen_app s rest : Forall (fun c => 0 < c < 256) s -> strlen (s ++ NUL :: rest) = Ret (zlen s).
Proof.
  induction 1 as [|c s Hc _ IH]; [done|]. cbn [strlen app]. rewrite decide_False by lia.
  rewrite IH. cbn [obind]. f_equal. rewrite zlen_cons. lia.
Qed.

Lemma strlen_cstr buf s : cstr buf s -> strlen buf = Ret (zlen s).
Proof. intros (rest & -> & Hs). by apply strlen_app. Qed.

Lemma cstr_intro s : Forall (fun c => 0 < c < 256) s -> cstr (s ++ [NUL]) s.
Proof. by exists []. Qed.

(** A literal without NUL, by evaluation. *)
Lemma lit_chars (s : string) : forallb (fun c => bool_decide (0 < c < 256)) (lit s) = true ->
  Forall (fun c => 0 < c < 256) (lit s).
Proof.
  induction (lit s) as [|c l IH]; [constructor|]. cbn [forallb]. intros [H1 H2]%andb_true_iff.
  constructor; [by apply bool_decide_eq_true in H1|by apply IH].
Qed.

Lemma lit_cstr (s : string) : forallb (fun c => bool_decide (0 < c < 256)) (lit s) = true ->
  cstr (lit s ++ [NUL]) (lit s).
Proof. intros H. by apply cstr_intro, lit_chars. Qed.

(** ** Arrays split at a position *)

Section SplitAccess.
Context {A : Type}.
Implicit Types l : list A.

Lemma aget_split l pre x post i : l = pre ++ x :: post -> i = zlen pre -> aget l i = Ret x.
Proof.
  intros -> ->. apply aget_lookup; [apply zlen_nonneg|]. unfold zlen. rewrite Nat2Z.id.
  by apply list_lookup_middle.
Qed.

Lemma aset_split l pre x y post i :
  l = pre ++ x :: post -> i = zlen pre -> aset l i y = Ret ((pre ++ [y]) ++ post).
Proof.
  intros -> ->. rewrite aset_range by zl. unfold zlen. rewrite Nat2Z.id, insert_app_r_alt by lia.
  rewrite Nat.sub_diag. simpl. by rewrite <- app_assoc.
Qed.
End SplitAccess.

(** Writing the next byte of a block that is filled from the left. *)
Lemma pset_emit x out z room v i :
  i = zlen out ->
  pset (Some (Block x (out ++ z :: room))) i v = Ret (Some (Block x ((out ++ [v]) ++ room))).
Proof. intros ->. simpl. by rewrite (aset_split _ out z v room). Qed.

(** Room for one more byte. *)
Lemma room_cons (room : bytes) : 1 <= zlen room -> exists z room', room = z :: room' /\ zlen room' = zlen room - 1.
Proof.
  destruct room as [|z room]; [unfold zlen; simpl; lia|]. intros _. exists z, room.
  rewrite zlen_cons. split; [done|lia].
Qed.

(** ** Packing bit fields *)

Lemma lor_pack hi lo k : 0 <= k -> 0 <= lo < 2 ^ k -> Z.lor (Z.shiftl hi k) lo = hi * 2 ^ k + lo.
Proof.
  intros Hk Hlo. rewrite <- Z.shiftl_mul_pow2, <- Z.add_lor_land by done.
  assert (Z.land (Z.shiftl hi k) lo = 0) as ->; [|lia]. apply Z.bits_inj'. intros n Hn.
  rewrite Z.land_spec, Z.shiftl_spec, Z.bits_0 by done. destruct (decide (n < k)).
  - by rewrite (Z.testbit_neg_r hi) by lia.
  - rewrite <- (Z.mod_small lo (2 ^ k)) by done. rewrite Z.mod_pow2_bits_high by lia.
    by rewrite andb_false_r.
Qed.

Lemma shiftr_div x k m : 0 <= k -> 2 ^ k = m -> Z.shiftr x k = x / m.
Proof. intros Hk <-. by apply Z.shiftr_div_pow2. Qed.

Lemma land_mod x k m : 0 <= k -> 2 ^ k = m + 1 -> Z.land x m = x mod (m + 1).
Proof. intros Hk E. rewrite <- E, <- Z.land_ones by done. f_equal. rewrite Z.ones_equiv. lia. Qed.

(** A decidable fact about every number of a range, by evaluation. *)
Lemma check_range (P : Z -> Prop) `{!forall x, Decision (P x)} lo n :
  bool_decide (Forall P (seqZ lo n)) = true -> forall x, lo <= x < lo + n -> P x.
Proof. intros F%bool_decide_eq_true x Hx. rewrite Forall_forall in F. apply F, list_elem_of_In, elem_of_seqZ. lia. Qed.
