(* ===== verification/Hex.v ===== *)
(** * Hexadecimal text ([src/hex.c])

    Encoding to lowercase digits and decoding with either case and an optional
    missing leading zero.  The output is a fresh block of the caller's allocator. *)

From Stdlib Require Import ZArith Lia Ascii String.
From stdpp Require Import base tactics option list numbers.
From S2P Require Import Prelude Mem Result Allocator Text.
Open Scope Z_scope.

Definition nibble_to_hex (n : Z) : Z :=
  let n := Z.land n 15 in
  if decide (n < 10) then u8 (ch "0" + n) else u8 (ch "a" + n - 10).

Definition hex_to_nibble (c : Z) : Z :=
  if decide (ch "0" <= c /\ c <= ch "9") then u8 (c - ch "0")
  else if decide (ch "a" <= c /\ c <= ch "f") then u8 (c - ch "a" + 10)
  else if decide (ch "A" <= c /\ c <= ch "F") then u8 (c - ch "A" + 10)
  else 255.

Definition zenit_hex_encode_len (data_len : Z) : Z := u64 (u64 (data_len * 2) + 1).

Definition zenit_hex_decode_len (hex : option bytes) : outcome Z :=
  match hex with
  | None => Ret 0
  | Some s => let! len := strlen s in Ret (u64 (len + 1) / 2)
  end.

(** The [for] loop of [encode_impl], [n] turns left. *)
Fixpoint encode_loop (n : nat) (i : Z) (data : bytes) (out : option block) : outcome (option block) :=
  match n with
  | O => Ret out
  | S n =>
      let! b := aget data i in
      let! out1 := pset out (u64 (i * 2)) (nibble_to_hex (u8 (Z.shiftr b 4))) in
      let! out2 := pset out1 (u64 (u64 (i * 2) + 1)) (nibble_to_hex (u8 (Z.land b 15))) in
      encode_loop n (u64 (i + 1)) data out2
  end.

(** The [for] loop of [decode_impl]; [None] for a character that is no digit. *)
Fixpoint decode_loop (fuel : nat) (hex : bytes) (len i out_idx : Z) (out : option block)
    : outcome (option (option block)) :=
  if decide (i < len) then
    match fuel with
    | O => NoFuel
    | S fuel =>
        let! c0 := aget hex i in
        let! c1 := aget hex (u64 (i + 1)) in
        let hi := hex_to_nibble c0 in
        let lo := hex_to_nibble c1 in
        if decide (hi = 255 \/ lo = 255) then Ret None
        else
          let! out1 := pset out out_idx (u8 (Z.lor (Z.shiftl hi 4) lo)) in
          decode_loop fuel hex len (u64 (i + 2)) (u64 (out_idx + 1)) out1
    end
  else Ret (Some out).

Section HexModel.
Context {C : Type}.
Implicit Types (a : zenit_allocator_t C) (c : C).

Definition encode_impl (data : option bytes) (len : Z) a c : outcome (option block * C) :=
  match data with
  | None =>
      if decide (0 < len) then Ret (None, c)
      else
        match alloc_fn a (zenit_hex_encode_len len) c with
        | (None, c1) => Ret (None, c1)
        | (out, c1) => let! out1 := pset out (u64 (len * 2)) NUL in Ret (out1, c1)
        end
  | Some d =>
      match alloc_fn a (zenit_hex_encode_len len) c with
      | (None, c1) => Ret (None, c1)
      | (out, c1) =>
          let! out1 := encode_loop (Z.to_nat len) 0 d out in
          let! out2 := pset out1 (u64 (len * 2)) NUL in
          Ret (out2, c1)
      end
  end.

Definition decode_impl (hex : option bytes) (out_len : option Z) a c
    : outcome (option block * option Z * C) :=
  match hex, out_len with
  | Some s, Some _ =>
      let! len := strlen s in
      if decide (len = 0) then
        match alloc_fn a 1 c with
        | (None, c1) => Ret (None, Some 0, c1)
        | (out, c1) => let! out1 := pset out 0 0 in Ret (out1, Some 0, c1)
        end
      else
        let decoded_len := u64 (len + 1) / 2 in
        match alloc_fn a decoded_len c with
        | (None, c1) => Ret (None, out_len, c1)
        | (Some b, c1) =>
            let fail := Ret (None, out_len, free_fn a (Some (b_addr b)) c1) in
            let! first :=
              if decide (len mod 2 <> 0) then
                let! h0 := aget s 0 in
                let n := hex_to_nibble h0 in
                if decide (n = 255) then Ret None
                else let! out1 := pset (Some b) 0 n in Ret (Some (out1, 1, 1))
              else Ret (Some (Some b, 0, 0)) in
            match first with
            | None => fail
            | Some (out1, out_idx, i) =>
                let! r := decode_loop (Z.to_nat len) s len i out_idx out1 in
                match r with
                | None => fail
                | Some out2 => Ret (out2, Some decoded_len, c1)
                end
            end
        end
  | _, _ => Ret (None, out_len, c)
  end.

Definition zenit_hex_encode_with_allocator (data : option bytes) (len : Z) a c := encode_impl data len a c.
Definition zenit_hex_decode_with_allocator (hex : option bytes) (out_len : option Z) a c :=
  decode_impl hex out_len a c.
End HexModel.

Definition zenit_hex_encode (data : option bytes) (len : Z) (c : heap) :=
  zenit_hex_encode_with_allocator data len ZENIT_ALLOCATOR_DEFAULT c.
Definition zenit_hex_decode (hex : option bytes) (out_len : option Z) (c : heap) :=
  zenit_hex_decode_with_allocator hex out_len ZENIT_ALLOCATOR_DEFAULT c.

(** ** Specification *)

(** The two digits of a byte, high half first. *)
Definition hex_text (data : bytes) : bytes :=
  concat (map (fun b => [nibble_to_hex (b / 16); nibble_to_hex (b mod 16)]) data).

(** The value of a digit, if it is one. *)
Definition digit (c : Z) : option Z :=
  if decide (hex_to_nibble c = 255) then None else Some (hex_to_nibble c).

(** The bytes that a string of digit pairs stands for. *)
Fixpoint hex_pairs (s : bytes) : option bytes :=
  match s with
  | [] => Some []
  | [_] => None
  | c0 :: c1 :: s =>
      match digit c0, digit c1, hex_pairs s with
      | Some hi, Some lo, Some d => Some (16 * hi + lo :: d)
      | _, _, _ => None
      end
  end.

(** An odd digit at the front counts as the low half of the first byte. *)
Definition hex_bytes (s : bytes) : option bytes :=
  if decide (zlen s mod 2 <> 0) then
    match s with
    | [] => None
    | c0 :: s =>
        match digit c0, hex_pairs s with Some n, Some d => Some (n :: d) | _, _ => None end
    end
  else hex_pairs s.

(** ** Digits *)

Lemma nibble_range : forall n, 0 <= n < 16 ->
  0 < nibble_to_hex n < 256 /\ hex_to_nibble (nibble_to_hex n) = n.
Proof.
  apply (check_range (fun n => 0 < nibble_to_hex n < 256 /\ hex_to_nibble (nibble_to_hex n) = n) 0 16).
  vm_compute. reflexivity.
Qed.

Lemma digit_nibble n : 0 <= n < 16 -> digit (nibble_to_hex n) = Some n.
Proof. intros Hn. unfold digit. destruct (nibble_range n Hn) as [_ ->]. rewrite decide_False by lia. done. Qed.

Lemma digit_range c v : digit c = Some v -> hex_to_nibble c = v /\ v <> 255 /\ 0 <= v < 16.
Proof.
  unfold digit. case_decide as D; [done|]. intros [= <-]. do 2 (split; [done|]).
  revert D. unfold hex_to_nibble, u8. chars. repeat case_decide; intros; try lia; rewrite Z.mod_small by lia; lia.
Qed.

Lemma halves b : is_byte b ->
  u8 (Z.shiftr b 4) = b / 16 /\ u8 (Z.land b 15) = b mod 16 /\ 0 <= b / 16 < 16 /\ 0 <= b mod 16 < 16.
Proof.
  unfold is_byte. intros Hb. rewrite (shiftr_div b 4 16), (land_mod b 4 15) by done.
  change (15 + 1) with 16.
  assert (0 <= b / 16 < 16) by (split; [apply Z.div_pos|apply Z.div_lt_upper_bound]; lia).
  pose proof (Z.mod_pos_bound b 16 ltac:(lia)). rewrite !u8_small by lia. done.
Qed.

(** ** Encoding *)

Lemma hex_text_cons b data :
  hex_text (b :: data) = nibble_to_hex (b / 16) :: nibble_to_hex (b mod 16) :: hex_text data.
Proof. done. Qed.

Lemma zlen_hex_text data : zlen (hex_text data) = 2 * zlen data.
Proof. induction data as [|b data IH]; [done|]. rewrite hex_text_cons, !zlen_cons, IH. lia. Qed.

Lemma hex_text_chars data : is_bytes data -> Forall (fun c => 0 < c < 256) (hex_text data).
Proof.
  induction 1 as [|b data Hb _ IH]; [constructor|]. rewrite hex_text_cons.
  destruct (halves b Hb) as (_ & _ & H1 & H2).
  constructor; [|constructor; [|done]]; by apply nibble_range.
Qed.

Lemma hex_encode_loop_spec x data0 : zlen data0 <= PTRDIFF_MAX -> forall data pre out room,
  data0 = pre ++ data -> is_bytes data -> zlen out = 2 * zlen pre -> 2 * zlen data <= zlen room ->
  zlen (out ++ room) <= PTRDIFF_MAX ->
  exists room', encode_loop (length data) (zlen pre) data0 (Some (Block x (out ++ room)))
      = Ret (Some (Block x ((out ++ hex_text data) ++ room'))) /\ zlen room' = zlen room - 2 * zlen data.
Proof.
  intros Hd. induction data as [|b data IH]; intros pre out room E Hb Ho Hr Hm.
  { exists room. change (hex_text []) with (@nil Z). rewrite app_nil_r. split; [done|zl]. }
  cbn [encode_loop length]. rewrite zlen_cons in Hr. pose proof (zlen_nonneg data).
  pose proof (zlen_nonneg pre).
  destruct (room_cons room) as (z0 & room0 & -> & R0); [lia|]. rewrite zlen_cons in *.
  destruct (room_cons room0) as (z1 & room1 & -> & R1); [lia|].
  inversion Hb as [|? ? Hb0 Hb1]; subst. destruct (halves b Hb0) as (Q1 & Q2 & Q3 & Q4).
  rewrite (aget_split _ pre b data) by done. cbn [obind]. rewrite Q1, Q2.
  autorewrite with zlen in Hm, Hd. pose proof (zlen_nonneg room1).
  rewrite (u64_small (zlen pre * 2)) by lia. rewrite pset_emit by lia. cbn [obind].
  rewrite u64_small by lia. rewrite pset_emit by (autorewrite with zlen; lia). cbn [obind].
  rewrite u64_small by lia. replace (zlen pre + 1) with (zlen (pre ++ [b])) by (autorewrite with zlen; lia).
  destruct (IH (pre ++ [b]) ((out ++ [nibble_to_hex (b / 16)]) ++ [nibble_to_hex (b mod 16)]) room1)
    as (room' & -> & R'); try done; autorewrite with zlen in *; try lia.
  { by rewrite <- app_assoc. }
  exists room'. rewrite hex_text_cons, <- !app_assoc. split; [done|lia].
Qed.

Section HexTheorems.
Context {C : Type} (a : zenit_allocator_t C) {SP : AllocSpec a}.

Lemma hex_encode_impl_spec data c :
  is_bytes data -> 2 * zlen data + 1 <= PTRDIFF_MAX ->
  encode_impl (Some data) (zlen data) a c =
    Ret (match alloc_fn a (2 * zlen data + 1) c with
         | (Some b, c1) => (Some (Block (b_addr b) (hex_text data ++ [NUL])), c1)
         | (None, c1) => (None, c1)
         end).
Proof.
  intros Hb Hm. unfold encode_impl, zenit_hex_encode_len. pose proof (zlen_nonneg data).
  rewrite (u64_small (zlen data * 2)), u64_small by lia.
  replace (zlen data * 2 + 1) with (2 * zlen data + 1) by lia.
  destruct (alloc_fn a _ c) as [[[x d]|] c1] eqn:E; [|done].
  apply alloc_some in E as (L & _). simpl in L. simpl b_addr.
  replace (Z.to_nat (zlen data)) with (length data) by (unfold zlen; lia).
  destruct (hex_encode_loop_spec x data ltac:(lia) data [] [] d) as (room & E & R); try done; try (simpl; lia).
  simpl in E. rewrite zlen_nil in E. rewrite E. cbn [obind].
  destruct (room_cons room) as (z & room' & -> & R'); [lia|]. assert (room' = []) as -> by (apply zlen_0; lia).
  rewrite pset_emit by (rewrite zlen_hex_text; lia). cbn [obind]. by rewrite app_nil_r.
Qed.

(** ** Decoding *)

Lemma hex_pairs_length k : forall s d, (length s <= k)%nat -> hex_pairs s = Some d -> zlen s = 2 * zlen d.
Proof.
  induction k as [|k IH]; intros [|c0 [|c1 s]] d Hk Hd; simpl in Hk, Hd; try lia; try done.
  - by simplify_eq.
  - by simplify_eq.
  - destruct (digit c0), (digit c1), (hex_pairs s) as [d'|] eqn:E; simplify_eq.
    rewrite !zlen_cons, (IH s d') by (done || lia). lia.
Qed.

Lemma hex_decode_loop_spec x buf rest : zlen buf <= PTRDIFF_MAX -> forall fuel s pre out room k,
  buf = pre ++ s ++ NUL :: rest -> zlen s = 2 * k -> (length s <= fuel)%nat -> k <= zlen room ->
  zlen (out ++ room) <= PTRDIFF_MAX ->
  match hex_pairs s with
  | Some d =>
      exists room', decode_loop fuel buf (zlen pre + zlen s) (zlen pre) (zlen out) (Some (Block x (out ++ room)))
        = Ret (Some (Some (Block x ((out ++ d) ++ room')))) /\ zlen room' = zlen room - zlen d
  | None =>
      decode_loop fuel buf (zlen pre + zlen s) (zlen pre) (zlen out) (Some (Block x (out ++ room))) = Ret None
  end.
Proof.
  intros Hbuf. induction fuel as [|fuel IH]; intros s pre out room k E Hs Hf Hk Hm.
  { destruct s; [|simpl in Hf; lia]. cbn [hex_pairs decode_loop]. rewrite zlen_nil, decide_False by lia.
    exists room. rewrite app_nil_r. split; [done|lia]. }
  pose proof (zlen_nonneg pre). pose proof (zlen_nonneg out).
  destruct s as [|c0 [|c1 s]].
  { cbn [hex_pairs decode_loop]. rewrite zlen_nil, decide_False by lia.
    exists room. rewrite app_nil_r. split; [done|lia]. }
  { rewrite zlen_cons, zlen_nil in Hs. lia. }
  cbn [hex_pairs decode_loop]. rewrite !zlen_cons in Hs |- *. pose proof (zlen_nonneg s).
  rewrite decide_True by lia. pose proof (f_equal zlen E) as L. autorewrite with zlen in L.
  pose proof (zlen_nonneg rest).
  rewrite (aget_split buf pre c0 (c1 :: s ++ NUL :: rest)) by done. cbn [obind]. rewrite u64_small by lia.
  rewrite (aget_split buf (pre ++ [c0]) c1 (s ++ NUL :: rest))
    by (rewrite <- ?app_assoc; (done || autorewrite with zlen; lia)). cbn [obind].
  destruct (digit c0) as [hi|] eqn:D0.
  2:{ unfold digit in D0. case_decide; [|done]. rewrite decide_True by (by left). done. }
  destruct (digit c1) as [lo|] eqn:D1.
  2:{ unfold digit in D1. case_decide; [|done]. rewrite decide_True by (by right). done. }
  apply digit_range in D0 as (-> & N0 & B0). apply digit_range in D1 as (-> & N1 & B1).
  rewrite decide_False by lia. destruct (room_cons room) as (z & room0 & -> & R0); [lia|].
  rewrite pset_emit by done. cbn [obind]. rewrite zlen_cons in *.
  rewrite (lor_pack hi lo 4), (u8_small (hi * 2 ^ 4 + lo)) by lia.
  replace (hi * 2 ^ 4 + lo) with (16 * hi + lo) by lia. autorewrite with zlen in Hm.
  rewrite !u64_small by lia.
  specialize (IH s ((pre ++ [c0]) ++ [c1]) (out ++ [16 * hi + lo]) room0 (k - 1)).
  autorewrite with zlen in IH. simpl in Hf.
  replace (zlen pre + 2) with (zlen pre + (1 + 0) + (1 + 0)) by lia.
  replace (zlen pre + (1 + (1 + zlen s))) with (zlen pre + (1 + 0) + (1 + 0) + zlen s) by lia.
  replace (zlen out + 1) with (zlen out + (1 + 0)) by lia.
  destruct (hex_pairs s) as [d|].
  - destruct IH as (room' & -> & R'); try lia. { by rewrite <- !app_assoc. }
    exists room'. rewrite <- !app_assoc. split; [done|]. rewrite zlen_cons. lia.
  - rewrite IH; try done; try lia. by rewrite <- !app_assoc.
Qed.

Lemma hex_decode_impl_spec buf s out_len c :
  cstr buf s -> s <> [] -> zlen buf <= PTRDIFF_MAX ->
  decode_impl (Some buf) (Some out_len) a c =
    Ret (match alloc_fn a ((zlen s + 1) / 2) c with
         | (None, c1) => (None, Some out_len, c1)
         | (Some b, c1) =>
             match hex_bytes s with
             | Some d => (Some (Block (b_addr b) d), Some (zlen d), c1)
             | None => (None, Some out_len, free_fn a (Some (b_addr b)) c1)
             end
         end).
Proof.
  intros Hc Hne Hm. unfold decode_impl. rewrite (strlen_cstr buf s Hc). cbn [obind].
  destruct Hc as (rest & E & Hs). pose proof (f_equal zlen E) as L. autorewrite with zlen in L.
  pose proof (zlen_nonneg rest). pose proof (zlen_nonneg s).
  rewrite decide_False by (intros Hz; by apply Hne, zlen_0). rewrite u64_small by lia.
  destruct (alloc_fn a _ c) as [[[x d]|] c1] eqn:EA; [|done]. simpl b_addr.
  apply alloc_some in EA as (Ld & _). simpl in Ld. unfold hex_bytes.
  pose proof (Z.div_mod (zlen s) 2 ltac:(lia)) as DM. pose proof (Z.mod_pos_bound (zlen s) 2 ltac:(lia)).
  set (k := zlen s / 2) in *. case_decide as D.
  - assert ((zlen s + 1) / 2 = k + 1) as Hk by (symmetry; apply (Z.div_unique _ _ _ 0); lia).
    rewrite Hk in *. clearbody k.
    destruct s as [|c0 s]; [done|]. simpl in E. rewrite (aget_split buf [] c0 (s ++ NUL :: rest)) by done.
    cbn [obind]. unfold digit at 1. case_decide as D0; [done|].
    destruct (room_cons d) as (z & room & -> & R0); [lia|].
    rewrite (pset_emit x [] z room) by done. cbn [obind]. rewrite zlen_cons in *.
    pose proof (hex_decode_loop_spec x buf rest Hm (Z.to_nat (1 + zlen s)) s [c0] [hex_to_nibble c0] room k) as Q.
    pose proof (zlen_nonneg s). simpl app in Q |- *. rewrite !zlen_cons in Q. change (zlen (@nil Z)) with 0 in Q.
    replace (1 + 0) with 1 in Q by done.
    destruct (hex_pairs s) as [d'|] eqn:EP.
    + apply (hex_pairs_length (length s)) in EP as L'; [|done].
      destruct Q as (room' & -> & R'); try done; try lia; try (unfold zlen; lia). cbn [obind].
      assert (room' = []) as -> by (apply zlen_0; lia). rewrite app_nil_r.
      rewrite zlen_cons. by replace (1 + zlen d') with (k + 1) by lia.
    + rewrite Q; try done; try lia. unfold zlen; lia.
  - assert ((zlen s + 1) / 2 = k) as Hk by (symmetry; apply (Z.div_unique _ _ _ 1); lia).
    cbn [obind].
    pose proof (hex_decode_loop_spec x buf rest Hm (Z.to_nat (zlen s)) s [] [] d k) as Q.
    simpl app in Q. change (zlen (@nil Z)) with 0 in Q. replace (0 + zlen s) with (zlen s) in Q by done.
    destruct (hex_pairs s) as [d'|] eqn:EP.
    + apply (hex_pairs_length (length s)) in EP as L'; [|done].
      destruct Q as (room' & -> & R'); try done; try lia; try (unfold zlen; lia). cbn [obind].
      assert (room' = []) as -> by (apply zlen_0; lia). rewrite app_nil_r, Hk. by replace (zlen d') with k by lia.
    + rewrite Q; try done; try lia. unfold zlen; lia.
Qed.

Lemma hex_pairs_text data : is_bytes data -> hex_pairs (hex_text data) = Some data.
Proof.
  induction 1 as [|b data Hb _ IH]; [done|]. rewrite hex_text_cons. cbn [hex_pairs].
  destruct (halves b Hb) as (_ & _ & H1 & H2). rewrite !digit_nibble by done. rewrite IH.
  f_equal. f_equal. symmetry. apply Z.div_mod. lia.
Qed.

Lemma hex_bytes_text data : is_bytes data -> hex_bytes (hex_text data) = Some data.
Proof.
  intros Hd. unfold hex_bytes. rewrite zlen_hex_text, Z.mul_comm, Z.mod_mul by lia.
  rewrite decide_False by lia. by apply hex_pairs_text.
Qed.

(** What [zenit_hex_encode] produces is the two lowercase digits of every byte
    followed by the terminator, in a block of exactly that size, and
    [zenit_hex_decode] of it gives the bytes back with their number; either call
    returns NULL only when the allocator refuses the one block it asks for. *)
Theorem hex_roundtrip (data : bytes) (n0 : Z) (c c2 : C)
  (Hb : is_bytes data) (Hm : 2 * zlen data + 1 <= PTRDIFF_MAX) (Hne : data <> []) :
  zenit_hex_encode_with_allocator (Some data) (zlen data) a c =
    Ret (match alloc_fn a (2 * zlen data + 1) c with
         | (Some b, c1) => (Some (Block (b_addr b) (hex_text data ++ [NUL])), c1)
         | (None, c1) => (None, c1)
         end) /\
  zenit_hex_decode_with_allocator (Some (hex_text data ++ [NUL])) (Some n0) a c2 =
    Ret (match alloc_fn a (zlen data) c2 with
         | (Some b, c3) => (Some (Block (b_addr b) data), Some (zlen data), c3)
         | (None, c3) => (None, Some n0, c3)
         end).
Proof.
  split; [by apply hex_encode_impl_spec|]. unfold zenit_hex_decode_with_allocator.
  rewrite (hex_decode_impl_spec _ (hex_text data)).
  - rewrite zlen_hex_text, hex_bytes_text by done.
    by replace ((2 * zlen data + 1) / 2) with (zlen data) by (apply (Z.div_unique _ _ _ 1); lia).
  - by apply cstr_intro, hex_text_chars.
  - intros Hz%(f_equal zlen). rewrite zlen_hex_text in Hz. change (zlen (@nil Z)) with 0 in Hz.
    apply Hne, zlen_0. lia.
  - autorewrite with zlen. rewrite zlen_hex_text. lia.
Qed.

(** [zenit_hex_decode] accepts exactly the strings of hexadecimal digits, in
    either case, and computes their bytes, a lone first digit being the low half of
    the first byte; on any other string it returns NULL with the block it had
    allocated given back. *)
Theorem hex_decode_correct (buf s : bytes) (n0 : Z) (c : C)
  (Hc : cstr buf s) (Hne : s <> []) (Hm : zlen buf <= PTRDIFF_MAX) :
  zenit_hex_decode_with_allocator (Some buf) (Some n0) a c =
    Ret (match alloc_fn a ((zlen s + 1) / 2) c with
         | (None, c1) => (None, Some n0, c1)
         | (Some b, c1) =>
             match hex_bytes s with
             | Some d => (Some (Block (b_addr b) d), Some (zlen d), c1)
             | None => (None, Some n0, free_fn a (Some (b_addr b)) c1)
             end
         end) /\
  (is_Some (hex_bytes s) <-> Forall (fun c => is_Some (digit c)) s).
Proof.
  split; [by apply hex_decode_impl_spec|]. unfold hex_bytes.
  assert (forall k s, (length s <= k)%nat -> zlen s mod 2 = 0 ->
    is_Some (hex_pairs s) <-> Forall (fun c => is_Some (digit c)) s) as Hp.
  { clear. induction k as [|k IH]; intros [|c0 [|c1 s]] Hk He; simpl in Hk; try lia; cbn [hex_pairs].
    1,2: split; [constructor|by eexists].
    - by rewrite zlen_cons in He.
    - rewrite !zlen_cons in He. rewrite !list.Forall_cons, <- (IH s); [|lia|].
      2:{ rewrite <- (Z.mod_add (zlen s) 1 2) by lia. replace (zlen s + 1 * 2) with (1 + (1 + zlen s)) by lia. done. }
      destruct (digit c0), (digit c1), (hex_pairs s); unfold is_Some; naive_solver. }
  case_decide as D.
  - destruct s as [|c0 s]; [done|]. rewrite list.Forall_cons, <- (Hp (length s) s); [|done|].
    + destruct (digit c0), (hex_pairs s); unfold is_Some; naive_solver.
    + rewrite zlen_cons in D. pose proof (Z.mod_pos_bound (1 + zlen s) 2).
      apply Z.mod_divide; [lia|]. assert ((1 + zlen s) mod 2 = 1) as E1 by lia.
      exists ((1 + zlen s) / 2). pose proof (Z.div_mod (1 + zlen s) 2). lia.
  - apply (Hp (length s)); [done|lia].
Qed.
End HexTheorems.

(** ** Concrete runs *)

Definition wit_bytes : bytes := [0; 202; 254; 255].

Lemma hex_roundtrip_witness :
  zenit_hex_encode_with_allocator (Some wit_bytes) 4 ZENIT_ALLOCATOR_DEFAULT empty_heap =
    Ret (match malloc 9 empty_heap with
         | (Some b, c1) => (Some (Block (b_addr b) (lit "00cafeff" ++ [NUL])), c1)
         | (None, c1) => (None, c1)
         end) /\
  zenit_hex_decode_with_allocator (Some (lit "00cafeff" ++ [NUL])) (Some 0) ZENIT_ALLOCATOR_DEFAULT empty_heap =
    Ret (match malloc 4 empty_heap with
         | (Some b, c1) => (Some (Block (b_addr b) wit_bytes), Some 4, c1)
         | (None, c1) => (None, Some 0, c1)
         end).
Proof.
  refine (hex_roundtrip ZENIT_ALLOCATOR_DEFAULT wit_bytes 0 empty_heap empty_heap _ _ _).
  - repeat constructor; unfold is_byte; lia.
  - unfold zlen; simpl; lia.
  - done.
Defined.

Lemma hex_decode_correct_witness :
  zenit_hex_decode_with_allocator (Some (lit "aBc" ++ [NUL])) (Some 0) ZENIT_ALLOCATOR_DEFAULT empty_heap =
    Ret (match malloc 2 empty_heap with
         | (None, c1) => (None, Some 0, c1)
         | (Some b, c1) => (Some (Block (b_addr b) [10; 188]), Some 2, c1)
         end).
Proof.
  refine (proj1 (hex_decode_correct ZENIT_ALLOCATOR_DEFAULT (lit "aBc" ++ [NUL]) (lit "aBc") 0 empty_heap _ _ _)).
  - apply cstr_intro. vm_compute. by repeat constructor.
  - done.
  - unfold zlen; simpl; lia.
Defined.
