(* ===== verification/Base64.v ===== *)
(** * Base64 text ([src/base64.c])

    Encoding by groups of three bytes with padding, decoding by groups of four
    characters into a block sized by [zenit_base64_decode_len]. *)

From Stdlib Require Import ZArith Lia Ascii String.
From stdpp Require Import base tactics option list numbers gmap sets.
From S2P Require Import Prelude Mem Result Allocator Text.
Open Scope Z_scope.

Definition enc_table : bytes := lit "ABCDEFGHIJKLMNOPQRSTUVWXYZabcdefghijklmnopqrstuvwxyz0123456789+/".

(** The 256 entries, runs of equal or consecutive values written as such. *)
Definition dec_table : bytes :=
  replicate 43 255 ++ [62] ++ replicate 3 255 ++ [63] ++ seqZ 52 10 ++ replicate 7 255 ++
  seqZ 0 26 ++ replicate 6 255 ++ seqZ 26 26 ++ replicate 133 255.

Definition zenit_base64_encode_len (input_len : Z) : Z :=
  u64 (u64 (u64 (input_len + 2) / 3 * 4) + 1).

Definition zenit_base64_decode_len (encoded : option bytes) : outcome Z :=
  match encoded with
  | None => Ret 0
  | Some s => let! len := strlen s in Ret (u64 (len / 4 * 3))
  end.

(** [None] stands for the result -1. *)
Definition decode_quad (encoded : bytes) (i : Z) : outcome (option Z) :=
  let! e0 := aget encoded i in
  let! e1 := aget encoded (u64 (i + 1)) in
  let! e2 := aget encoded (u64 (i + 2)) in
  let! e3 := aget encoded (u64 (i + 3)) in
  let! d0 := aget dec_table e0 in
  let! d1 := aget dec_table e1 in
  let! d2 := aget dec_table e2 in
  let! d3 := aget dec_table e3 in
  if decide (d0 = 255 \/ d1 = 255) then Ret None
  else
    let t1 := Z.lor (Z.shiftl d0 18) (Z.shiftl d1 12) in
    if decide (e2 <> ch "=" /\ d2 = 255) then Ret None
    else
      let t2 := if decide (e2 <> ch "=") then Z.lor t1 (Z.shiftl d2 6) else t1 in
      if decide (e3 <> ch "=" /\ d3 = 255) then Ret None
      else Ret (Some (if decide (e3 <> ch "=") then Z.lor t2 d3 else t2)).

(** [out[o++] = v] *)
Definition put (out : option block) (o v : Z) : outcome (option block * Z) :=
  let! out1 := pset out o v in Ret (out1, u64 (o + 1)).

(** [out[o++] = enc_table[idx & 0x3F]] *)
Definition put_enc (out : option block) (o idx : Z) : outcome (option block * Z) :=
  let! v := aget enc_table (Z.land idx 63) in put out o v.

(** The [while] loop of [encode_impl]. *)
Fixpoint encode_loop (fuel : nat) (data : bytes) (len i o : Z) (out : option block)
    : outcome (Z * Z * option block) :=
  if decide (u64 (i + 3) <= len) then
    match fuel with
    | O => NoFuel
    | S fuel =>
        let! a0 := aget data i in
        let! b := aget data (u64 (i + 1)) in
        let! c := aget data (u64 (i + 2)) in
        let! (out1, o1) := put_enc out o (Z.shiftr a0 2) in
        let! (out2, o2) := put_enc out1 o1 (Z.lor (u32 (Z.shiftl a0 4)) (Z.shiftr b 4)) in
        let! (out3, o3) := put_enc out2 o2 (Z.lor (u32 (Z.shiftl b 2)) (Z.shiftr c 6)) in
        let! (out4, o4) := put_enc out3 o3 c in
        encode_loop fuel data len (u64 (i + 3)) o4 out4
    end
  else Ret (i, o, out).

(** The one or two bytes after the last full group. *)
Definition encode_tail (data : bytes) (len i o : Z) (out : option block) : outcome (option block * Z) :=
  let remaining := u64 (len - i) in
  if decide (remaining = 1) then
    let! a0 := aget data i in
    let! (out1, o1) := put_enc out o (Z.shiftr a0 2) in
    let! (out2, o2) := put_enc out1 o1 (u32 (Z.shiftl a0 4)) in
    let! (out3, o3) := put out2 o2 (ch "=") in
    put out3 o3 (ch "=")
  else if decide (remaining = 2) then
    let! a0 := aget data i in
    let! b := aget data (u64 (i + 1)) in
    let! (out1, o1) := put_enc out o (Z.shiftr a0 2) in
    let! (out2, o2) := put_enc out1 o1 (Z.lor (u32 (Z.shiftl a0 4)) (Z.shiftr b 4)) in
    let! (out3, o3) := put_enc out2 o2 (u32 (Z.shiftl b 2)) in
    put out3 o3 (ch "=")
  else Ret (out, o).

(** The [for] loop of [decode_impl]; [None] when a group is invalid. *)
Fixpoint decode_loop (fuel : nat) (encoded : bytes) (len i o : Z) (out : option block)
    : outcome (option (Z * option block)) :=
  if decide (i < len) then
    match fuel with
    | O => NoFuel
    | S fuel =>
        let! q := decode_quad encoded i in
        match q with
        | None => Ret None
        | Some triple =>
            let! (out1, o1) := put out o (u8 (Z.shiftr triple 16)) in
            let! e2 := aget encoded (u64 (i + 2)) in
            let! (out2, o2) :=
              if decide (e2 <> ch "=") then put out1 o1 (u8 (Z.shiftr triple 8)) else Ret (out1, o1) in
            let! e3 := aget encoded (u64 (i + 3)) in
            let! (out3, o3) :=
              if decide (e3 <> ch "=") then put out2 o2 (u8 triple) else Ret (out2, o2) in
            decode_loop fuel encoded len (u64 (i + 4)) o3 out3
        end
    end
  else Ret (Some (o, out)).

Section Base64Model.
Context {C : Type}.
Implicit Types (a : zenit_allocator_t C) (c : C).

(** A NULL [data] with a positive [len] is refused; with [len = 0] nothing is read. *)
Definition encode_impl (data : option bytes) (len : Z) a c : outcome (option block * C) :=
  if decide (data = None /\ 0 < len) then Ret (None, c)
  else
    match alloc_fn a (zenit_base64_encode_len len) c with
    | (None, c1) => Ret (None, c1)
    | (out, c1) =>
        let d := default [] data in
        let! (i, o, out1) := encode_loop (Z.to_nat len) d len 0 0 out in
        let! (out2, o2) := encode_tail d len i o out1 in
        let! out3 := pset out2 o2 NUL in
        Ret (out3, c1)
    end.

Definition decode_impl (encoded : option bytes) (out_len : option Z) a c
    : outcome (option block * option Z * C) :=
  match encoded with
  | None => Ret (None, out_len, c)
  | Some s =>
      let! len := strlen s in
      if decide (len < 4 \/ len mod 4 <> 0) then Ret (None, out_len, c)
      else
        let! max_out := zenit_base64_decode_len encoded in
        match alloc_fn a max_out c with
        | (None, c1) => Ret (None, out_len, c1)
        | (Some b, c1) =>
            let! r := decode_loop (Z.to_nat len) s len 0 0 (Some b) in
            match r with
            | None => Ret (None, out_len, free_fn a (Some (b_addr b)) c1)
            | Some (o, out) =>
                Ret (out, match out_len with Some _ => Some o | None => None end, c1)
            end
        end
  end.

Definition zenit_base64_encode_with_allocator (data : option bytes) (len : Z) a c := encode_impl data len a c.
Definition zenit_base64_decode_with_allocator (encoded : option bytes) (out_len : option Z) a c :=
  decode_impl encoded out_len a c.
End Base64Model.

Definition zenit_base64_encode (data : option bytes) (len : Z) (c : heap) :=
  zenit_base64_encode_with_allocator data len ZENIT_ALLOCATOR_DEFAULT c.
Definition zenit_base64_decode (encoded : option bytes) (out_len : option Z) (c : heap) :=
  zenit_base64_decode_with_allocator encoded out_len ZENIT_ALLOCATOR_DEFAULT c.

(** ** Specification *)

(** The character for a six-bit value. *)
Definition sextet (v : Z) : Z := nth (Z.to_nat v) enc_table 0.

(** The text of a byte string: four characters for every three bytes, the last
    group padded. *)
Fixpoint b64_text (data : bytes) : bytes :=
  match data with
  | [] => []
  | [x] => [sextet (x / 4); sextet (x mod 4 * 16); ch "="; ch "="]
  | [x; y] => [sextet (x / 4); sextet (x mod 4 * 16 + y / 16); sextet (y mod 16 * 4); ch "="]
  | x :: y :: z :: data =>
      sextet (x / 4) :: sextet (x mod 4 * 16 + y / 16) :: sextet (y mod 16 * 4 + z / 64) ::
      sextet (z mod 64) :: b64_text data
  end.

(** The value of a character of the alphabet; a character or padding. *)
Definition letter (e : Z) : option Z :=
  let d := nth (Z.to_nat e) dec_table 255 in if decide (d = 255) then None else Some d.
Definition letter_or_pad (e : Z) : option (option Z) :=
  if decide (e = ch "=") then Some None else Some <$> letter e.

(** The 24 bits of a group, and the bytes a group yields: padding drops a byte. *)
Definition group_bits (e0 e1 e2 e3 : Z) : option Z :=
  match letter e0, letter e1, letter_or_pad e2, letter_or_pad e3 with
  | Some d0, Some d1, Some m2, Some m3 =>
      Some (d0 * 262144 + d1 * 4096 + default 0 m2 * 64 + default 0 m3)
  | _, _, _, _ => None
  end.
Definition group_bytes (e2 e3 t : Z) : bytes :=
  t / 65536 :: (if decide (e2 = ch "=") then [] else [t / 256 mod 256]) ++
  (if decide (e3 = ch "=") then [] else [t mod 256]).

(** The bytes of a text of whole groups. *)
Fixpoint b64_bytes (s : bytes) : option bytes :=
  match s with
  | [] => Some []
  | e0 :: e1 :: e2 :: e3 :: s =>
      match group_bits e0 e1 e2 e3, b64_bytes s with
      | Some t, Some d => Some (group_bytes e2 e3 t ++ d)
      | _, _ => None
      end
  | _ => None
  end.

(** ** The tables *)

Lemma sextet_facts : forall v, 0 <= v < 64 ->
  enc_table !! Z.to_nat v = Some (sextet v) /\ letter (sextet v) = Some v /\ sextet v <> ch "=" /\
  0 < sextet v < 256.
Proof.
  apply (check_range (fun v => enc_table !! Z.to_nat v = Some (sextet v) /\
    letter (sextet v) = Some v /\ sextet v <> ch "=" /\ 0 < sextet v < 256) 0 64).
  vm_compute. reflexivity.
Qed.

Lemma dec_table_facts : forall e, 0 <= e < 256 ->
  dec_table !! Z.to_nat e = Some (default 255 (letter e)) /\
  0 <= default 0 (letter e) < 64 /\ letter e <> Some 255.
Proof.
  apply (check_range (fun e => dec_table !! Z.to_nat e = Some (default 255 (letter e)) /\
    0 <= default 0 (letter e) < 64 /\ letter e <> Some 255) 0 256).
  vm_compute. reflexivity.
Qed.

Lemma aget_dec e : is_byte e -> aget dec_table e = Ret (default 255 (letter e)).
Proof. intros He. apply aget_lookup; [unfold is_byte in He; lia|]. by apply dec_table_facts. Qed.

Lemma letter_range e d : is_byte e -> letter e = Some d -> 0 <= d < 64 /\ d <> 255.
Proof.
  intros He E. destruct (dec_table_facts e He) as (_ & H1 & H2). rewrite E in H1, H2. simpl in H1.
  split; [done|]. by intros ->.
Qed.

Lemma letter_pad : letter (ch "=") = None.
Proof. vm_compute. reflexivity. Qed.

(** ** Output *)

Lemma put_emit x out z room v o :
  o = zlen out -> zlen out + 1 <= PTRDIFF_MAX ->
  put (Some (Block x (out ++ z :: room))) o v
    = Ret (Some (Block x ((out ++ [v]) ++ room)), zlen (out ++ [v])).
Proof.
  intros -> Hm. unfold put. rewrite pset_emit by done. cbn [obind]. pose proof (zlen_nonneg out).
  rewrite u64_small by lia. autorewrite with zlen. by rewrite Z.add_0_r.
Qed.

Lemma put_enc_emit x out z room idx v o :
  o = zlen out -> zlen out + 1 <= PTRDIFF_MAX -> idx mod 64 = v ->
  put_enc (Some (Block x (out ++ z :: room))) o idx
    = Ret (Some (Block x ((out ++ [sextet v]) ++ room)), zlen (out ++ [sextet v])).
Proof.
  intros Ho Hm Hv. unfold put_enc. rewrite (land_mod idx 6 63) by done. change (63 + 1) with 64.
  rewrite Hv. pose proof (Z.mod_pos_bound idx 64 ltac:(lia)) as Hr. rewrite Hv in Hr.
  rewrite (aget_lookup enc_table v (sextet v)); [|lia|by apply sextet_facts]. cbn [obind].
  by apply put_emit.
Qed.

(** ** Encoding *)

Lemma enc_first x : is_byte x -> Z.shiftr x 2 mod 64 = x / 4.
Proof.
  unfold is_byte. intros Hx. rewrite (shiftr_div x 2 4) by done. apply Z.mod_small.
  split; [apply Z.div_pos|apply Z.div_lt_upper_bound]; lia.
Qed.

Lemma enc_second x y : is_byte x -> is_byte y ->
  Z.lor (u32 (Z.shiftl x 4)) (Z.shiftr y 4) mod 64 = x mod 4 * 16 + y / 16.
Proof.
  unfold is_byte. intros Hx Hy. rewrite u32_small by (rewrite Z.shiftl_mul_pow2; lia).
  rewrite (shiftr_div y 4 16) by done.
  assert (0 <= y / 16 < 16) by (split; [apply Z.div_pos|apply Z.div_lt_upper_bound]; lia).
  rewrite lor_pack by lia. symmetry. pose proof (Z.div_mod x 4 ltac:(lia)).
  pose proof (Z.mod_pos_bound x 4 ltac:(lia)). apply (Z.mod_unique_pos _ _ (x / 4)); lia.
Qed.

Lemma enc_third y z : is_byte y -> is_byte z ->
  Z.lor (u32 (Z.shiftl y 2)) (Z.shiftr z 6) mod 64 = y mod 16 * 4 + z / 64.
Proof.
  unfold is_byte. intros Hx Hy. rewrite u32_small by (rewrite Z.shiftl_mul_pow2; lia).
  rewrite (shiftr_div z 6 64) by done.
  assert (0 <= z / 64 < 4) by (split; [apply Z.div_pos|apply Z.div_lt_upper_bound]; lia).
  rewrite lor_pack by lia. symmetry. pose proof (Z.div_mod y 16 ltac:(lia)).
  pose proof (Z.mod_pos_bound y 16 ltac:(lia)). apply (Z.mod_unique_pos _ _ (y / 16)); lia.
Qed.

Lemma enc_second_last x : is_byte x -> u32 (Z.shiftl x 4) mod 64 = x mod 4 * 16.
Proof.
  intros Hx. pose proof (enc_second x 0 Hx ltac:(unfold is_byte; lia)) as E.
  rewrite Z.shiftr_0_l, Z.lor_0_r in E. rewrite E, Z.div_0_l by lia. lia.
Qed.

Lemma enc_third_last y : is_byte y -> u32 (Z.shiftl y 2) mod 64 = y mod 16 * 4.
Proof.
  intros Hy. pose proof (enc_third y 0 Hy ltac:(unfold is_byte; lia)) as E.
  rewrite Z.shiftr_0_l, Z.lor_0_r in E. rewrite E, Z.div_0_l by lia. lia.
Qed.

(** Splitting a list into whole groups of three and a rest. *)
Lemma triples_ind (P : bytes -> Prop) :
  (forall l, (length l < 3)%nat -> P l) -> (forall x y z l, P l -> P (x :: y :: z :: l)) -> forall l, P l.
Proof.
  intros H0 H3 l. assert (forall n l, (length l <= n)%nat -> P l) as H; [|by apply (H (length l))].
  clear l. induction n as [|n IH]; intros l Hl; [apply H0; lia|].
  destruct l as [|x [|y [|z l]]]; try (apply H0; simpl; lia). apply H3, IH. simpl in Hl. lia.
Qed.

Lemma zlen_b64_text data : zlen (b64_text data) = (zlen data + 2) / 3 * 4.
Proof.
  induction data as [l Hl|x y z l IH] using triples_ind.
  - destruct l as [|x [|y [|z l]]]; try done. simpl in Hl. lia.
  - cbn [b64_text]. rewrite !zlen_cons, IH.
    replace (1 + (1 + (1 + zlen l)) + 2) with (zlen l + 2 + 1 * 3) by lia. rewrite Z.div_add by lia. lia.
Qed.

(** The next byte of room, in a goal that writes it. *)
Ltac next_room :=
  match goal with
  | |- context [Block _ (_ ++ ?room)] =>
      is_var room;
      let z := fresh "z" in let r := fresh "room" in let E := fresh "R" in
      destruct (room_cons room) as (z & r & -> & E); [zl|]
  end.

Lemma encode_tail_spec x pre l out room :
  (length l < 3)%nat -> is_bytes l -> zlen (pre ++ l) * 2 <= PTRDIFF_MAX ->
  zlen (b64_text l) <= zlen room -> zlen (out ++ room) <= PTRDIFF_MAX ->
  exists room', encode_tail (pre ++ l) (zlen (pre ++ l)) (zlen pre) (zlen out) (Some (Block x (out ++ room)))
      = Ret (Some (Block x ((out ++ b64_text l) ++ room')), zlen (out ++ b64_text l)) /\
    zlen room' = zlen room - zlen (b64_text l).
Proof.
  intros Hl Hb Hd Hr Hm. unfold encode_tail. pose proof (zlen_nonneg pre).
  replace (u64 (zlen (pre ++ l) - zlen pre)) with (zlen l) by (rewrite u64_small; zl).
  destruct l as [|u [|v [|w l]]]; [| | |simpl in Hl; lia]; cbn [b64_text] in *.
  - exists room. rewrite !app_nil_r. split; [done|zl].
  - change (zlen [u]) with 1. rewrite decide_True by done.
    inversion Hb as [|? ? Hu _]; subst. rewrite (aget_split _ pre u []) by done. cbn [obind].
    next_room. rewrite (put_enc_emit _ _ _ _ _ (u / 4)) by first [done|by apply enc_first|zl]. cbn [obind].
    next_room. rewrite (put_enc_emit _ _ _ _ _ (u mod 4 * 16)) by first [done|by apply enc_second_last|zl].
    cbn [obind].
    next_room. rewrite put_emit by first [done|zl]. cbn [obind].
    next_room. rewrite put_emit by first [done|zl].
    eexists. rewrite <- !app_assoc. split; [done|zl].
  - change (zlen [u; v]) with 2. rewrite decide_False, decide_True by done.
    inversion Hb as [|? ? Hu Hb']; subst. inversion Hb' as [|? ? Hv _]; subst.
    rewrite (aget_split _ pre u [v]) by done. cbn [obind].
    rewrite u64_small by zl. rewrite (aget_split _ (pre ++ [u]) v []) by first [by rewrite <- ?app_assoc|zl].
    cbn [obind].
    next_room. rewrite (put_enc_emit _ _ _ _ _ (u / 4)) by first [done|by apply enc_first|zl]. cbn [obind].
    next_room. rewrite (put_enc_emit _ _ _ _ _ (u mod 4 * 16 + v / 16)) by first [done|by apply enc_second|zl].
    cbn [obind].
    next_room. rewrite (put_enc_emit _ _ _ _ _ (v mod 16 * 4)) by first [done|by apply enc_third_last|zl].
    cbn [obind]. next_room. rewrite put_emit by first [done|zl].
    eexists. rewrite <- !app_assoc. split; [done|zl].
Qed.

Lemma encode_spec x data0 : zlen data0 * 2 <= PTRDIFF_MAX -> forall data pre out room fuel,
  data0 = pre ++ data -> is_bytes data -> zlen (b64_text data) <= zlen room ->
  zlen (out ++ room) <= PTRDIFF_MAX -> (length data <= fuel)%nat ->
  exists room',
    (let! (i, o, out1) := encode_loop fuel data0 (zlen data0) (zlen pre) (zlen out) (Some (Block x (out ++ room))) in
     encode_tail data0 (zlen data0) i o out1)
      = Ret (Some (Block x ((out ++ b64_text data) ++ room')), zlen (out ++ b64_text data)) /\
    zlen room' = zlen room - zlen (b64_text data).
Proof.
  intros Hd data. induction data as [l Hl|u v w l IH] using triples_ind; intros pre out room fuel E Hb Hr Hm Hf.
  - assert (encode_loop fuel data0 (zlen data0) (zlen pre) (zlen out) (Some (Block x (out ++ room)))
      = Ret (zlen pre, zlen out, Some (Block x (out ++ room)))) as ->.
    { rewrite E in *. pose proof (zlen_nonneg pre). autorewrite with zlen in *.
      destruct fuel; cbn [encode_loop]; rewrite decide_False; try done; rewrite u64_small; unfold zlen in *; lia. }
    cbn [obind]. subst data0. by apply encode_tail_spec.
  - cbn [b64_text] in *. rewrite !zlen_cons in *. pose proof (zlen_nonneg pre). pose proof (zlen_nonneg l).
    pose proof (f_equal zlen E) as Ld. autorewrite with zlen in Ld.
    destruct fuel as [|fuel]; [simpl in Hf; lia|]. cbn [encode_loop].
    rewrite (u64_small (zlen pre + 3)) by lia. rewrite decide_True by lia.
    inversion Hb as [|? ? Hu Hb']; subst. inversion Hb' as [|? ? Hv Hb'']; subst.
    inversion Hb'' as [|? ? Hw Hl]; subst.
    rewrite (aget_split _ pre u (v :: w :: l)) by done. cbn [obind]. rewrite !u64_small by lia.
    rewrite (aget_split _ (pre ++ [u]) v (w :: l)) by first [by rewrite <- ?app_assoc|zl]. cbn [obind].
    rewrite (aget_split _ (pre ++ [u; v]) w l) by first [by rewrite <- ?app_assoc|zl]. cbn [obind].
    next_room. rewrite (put_enc_emit _ _ _ _ _ (u / 4)) by first [done|by apply enc_first|zl]. cbn [obind].
    next_room. rewrite (put_enc_emit _ _ _ _ _ (u mod 4 * 16 + v / 16)) by first [done|by apply enc_second|zl].
    cbn [obind].
    next_room. rewrite (put_enc_emit _ _ _ _ _ (v mod 16 * 4 + w / 64)) by first [done|by apply enc_third|zl].
    cbn [obind].
    next_room. rewrite (put_enc_emit _ _ _ _ _ (w mod 64)) by first [done|zl]. cbn [obind].
    replace (zlen pre + 3) with (zlen (pre ++ [u; v; w])) by zl.
    match goal with
    | |- context [Block x (?out4 ++ ?room4)] =>
        destruct (IH (pre ++ [u; v; w]) out4 room4 fuel) as (room' & -> & R')
    end; [by rewrite <- app_assoc|done|zl|zl|simpl in Hf; lia|].
    exists room'. rewrite <- !app_assoc. split; [done|zl].
Qed.

(** ** Decoding *)

Lemma decode_quad_spec buf pre e0 e1 e2 e3 post :
  buf = pre ++ e0 :: e1 :: e2 :: e3 :: post -> zlen buf <= PTRDIFF_MAX ->
  is_byte e0 -> is_byte e1 -> is_byte e2 -> is_byte e3 ->
  decode_quad buf (zlen pre) = Ret (group_bits e0 e1 e2 e3).
Proof.
  intros E Hm B0 B1 B2 B3. unfold decode_quad. pose proof (f_equal zlen E) as L. autorewrite with zlen in L.
  pose proof (zlen_nonneg pre). pose proof (zlen_nonneg post). rewrite !u64_small by lia.
  rewrite (aget_split buf pre e0 (e1 :: e2 :: e3 :: post)) by done. cbn [obind].
  rewrite (aget_split buf (pre ++ [e0]) e1 (e2 :: e3 :: post)) by first [by rewrite <- app_assoc|zl]. cbn [obind].
  rewrite (aget_split buf (pre ++ [e0; e1]) e2 (e3 :: post)) by first [by rewrite <- app_assoc|zl]. cbn [obind].
  rewrite (aget_split buf (pre ++ [e0; e1; e2]) e3 post) by first [by rewrite <- app_assoc|zl]. cbn [obind].
  rewrite !aget_dec by done. cbn [obind]. unfold group_bits, letter_or_pad.
  destruct (letter e0) as [d0|] eqn:L0; cbn [from_option id]; [|by rewrite decide_True by (by left)].
  destruct (letter e1) as [d1|] eqn:L1; cbn [from_option id]; [|by rewrite decide_True by (by right)].
  apply letter_range in L0 as [R0 N0]; [|done]. apply letter_range in L1 as [R1 N1]; [|done].
  rewrite decide_False by lia.
  rewrite lor_pack by (rewrite ?Z.shiftl_mul_pow2; lia). rewrite Z.shiftl_mul_pow2 by lia.
  replace (d0 * 2 ^ 18 + d1 * 2 ^ 12) with (Z.shiftl (d0 * 64 + d1) 12) by (rewrite Z.shiftl_mul_pow2; lia).
  assert (forall d2, 0 <= d2 < 64 ->
    Z.lor (Z.shiftl (d0 * 64 + d1) 12) (Z.shiftl d2 6) = Z.shiftl (d0 * 4096 + d1 * 64 + d2) 6) as P2.
  { intros d2 H2. rewrite lor_pack by (rewrite ?Z.shiftl_mul_pow2; lia). rewrite !Z.shiftl_mul_pow2 by lia. lia. }
  assert (forall d2, 0 <= d2 < 64 -> Z.shiftl (d0 * 4096 + d1 * 64 + d2) 6
    = d0 * 262144 + d1 * 4096 + d2 * 64) as P3 by (intros; rewrite Z.shiftl_mul_pow2; lia).
  destruct (decide (e2 = ch "=")) as [E2|E2], (decide (e3 = ch "=")) as [E3|E3].
  - rewrite !decide_False by tauto. cbn. rewrite Z.shiftl_mul_pow2 by lia. do 2 f_equal. lia.
  - rewrite (decide_False (P := e2 <> _ /\ _)), (decide_False (P := e2 <> _)) by tauto.
    destruct (letter e3) as [d3|] eqn:L3; cbn [from_option id fmap option_fmap option_map];
      [|by rewrite decide_True by (by split)].
    apply letter_range in L3 as [R3 N3]; [|done]. rewrite decide_False, decide_True by tauto.
    rewrite lor_pack by lia. do 2 f_equal. lia.
  - destruct (letter e2) as [d2|] eqn:L2; cbn [from_option id fmap option_fmap option_map];
      [|by rewrite decide_True by (by split)].
    apply letter_range in L2 as [R2 N2]; [|done]. 
    rewrite (decide_False (P := e2 <> _ /\ _)), (decide_True (P := e2 <> _)), (decide_False (P := e3 <> _ /\ _)),
      (decide_False (P := e3 <> _)) by tauto.
    rewrite P2, P3 by done. do 2 f_equal. lia.
  - destruct (letter e2) as [d2|] eqn:L2; cbn [from_option id fmap option_fmap option_map];
      [|by rewrite decide_True by (by split)].
    apply letter_range in L2 as [R2 N2]; [|done]. rewrite (decide_False (P := e2 <> _ /\ _)) by tauto.
    rewrite (decide_True (P := e2 <> _)) by done. rewrite P2 by done.
    destruct (letter e3) as [d3|] eqn:L3; cbn [from_option id fmap option_fmap option_map];
      [|by rewrite decide_True by (by split)].
    apply letter_range in L3 as [R3 N3]; [|done]. rewrite decide_False, decide_True by tauto.
    rewrite lor_pack by lia. do 2 f_equal. lia.
Qed.

Lemma group_bits_range e0 e1 e2 e3 t :
  is_byte e0 -> is_byte e1 -> is_byte e2 -> is_byte e3 ->
  group_bits e0 e1 e2 e3 = Some t -> 0 <= t < 16777216.
Proof.
  intros B0 B1 B2 B3. unfold group_bits, letter_or_pad.
  destruct (letter e0) as [d0|] eqn:L0; [|done]. destruct (letter e1) as [d1|] eqn:L1; [|done].
  apply letter_range in L0 as [R0 _]; [|done]. apply letter_range in L1 as [R1 _]; [|done].
  pose proof (dec_table_facts e2 B2) as (_ & R2 & _). pose proof (dec_table_facts e3 B3) as (_ & R3 & _).
  repeat case_decide; destruct (letter e2), (letter e3); cbn in *; intros [= <-]; lia.
Qed.

Lemma zlen_group_bytes e2 e3 t : 1 <= zlen (group_bytes e2 e3 t) <= 3.
Proof. unfold group_bytes. rewrite zlen_cons, zlen_app. repeat case_decide; zl. Qed.

(** Writing the one, two or three bytes of a group. *)
Lemma group_out x e2 e3 t out room :
  0 <= t < 16777216 -> 3 <= zlen room -> zlen (out ++ room) <= PTRDIFF_MAX ->
  exists room',
    (let! (out1, o1) := put (Some (Block x (out ++ room))) (zlen out) (u8 (Z.shiftr t 16)) in
     let! (out2, o2) :=
       if decide (e2 <> ch "=") then put out1 o1 (u8 (Z.shiftr t 8)) else Ret (out1, o1) in
     if decide (e3 <> ch "=") then put out2 o2 (u8 t) else Ret (out2, o2))
      = Ret (Some (Block x ((out ++ group_bytes e2 e3 t) ++ room')), zlen (out ++ group_bytes e2 e3 t)) /\
    zlen room' = zlen room - zlen (group_bytes e2 e3 t).
Proof.
  intros Ht Hr Hm. unfold group_bytes. rewrite (shiftr_div t 16 65536), (shiftr_div t 8 256) by done.
  rewrite (u8_small (t / 65536)) by (split; [apply Z.div_pos|apply Z.div_lt_upper_bound]; lia). unfold u8.
  next_room. rewrite put_emit by first [done|zl]. cbn [obind].
  destruct (decide (e2 = ch "=")) as [E2|E2], (decide (e3 = ch "=")) as [E3|E3].
  - rewrite decide_False by tauto. cbn [obind app]. rewrite decide_False by tauto.
    eexists. split; [done|zl].
  - rewrite decide_False by tauto. cbn [obind]. rewrite decide_True by tauto.
    next_room. rewrite put_emit by first [done|zl]. eexists. rewrite <- !app_assoc. split; [done|zl].
  - rewrite decide_True by tauto. next_room. rewrite put_emit by first [done|zl]. cbn [obind].
    rewrite decide_False by tauto. eexists. rewrite <- !app_assoc. split; [done|zl].
  - rewrite decide_True by tauto. next_room. rewrite put_emit by first [done|zl]. cbn [obind].
    rewrite decide_True by tauto. next_room. rewrite put_emit by first [done|zl].
    eexists. rewrite <- !app_assoc. split; [done|zl].
Qed.

Lemma obind_assoc {A B D : Type} (m : outcome A) (f : A -> outcome B) (g : B -> outcome D) :
  obind (obind m f) g = obind m (fun v => obind (f v) g).
Proof. by destruct m. Qed.

Lemma b64_decode_loop_spec x buf rest : zlen buf <= PTRDIFF_MAX -> forall fuel s pre out room k,
  buf = pre ++ s ++ NUL :: rest -> zlen s = 4 * k -> is_bytes s -> (length s <= fuel)%nat ->
  3 * k <= zlen room -> zlen (out ++ room) <= PTRDIFF_MAX ->
  match b64_bytes s with
  | Some d =>
      exists room', decode_loop fuel buf (zlen pre + zlen s) (zlen pre) (zlen out) (Some (Block x (out ++ room)))
        = Ret (Some (zlen (out ++ d), Some (Block x ((out ++ d) ++ room')))) /\
        zlen room' = zlen room - zlen d /\ zlen d <= 3 * k
  | None =>
      decode_loop fuel buf (zlen pre + zlen s) (zlen pre) (zlen out) (Some (Block x (out ++ room))) = Ret None
  end.
Proof.
  intros Hbuf. induction fuel as [|fuel IH]; intros s pre out room k E Hs Hb Hf Hk Hm.
  { destruct s; [|simpl in Hf; lia]. cbn [b64_bytes decode_loop]. rewrite zlen_nil, decide_False by lia.
    exists room. rewrite app_nil_r. rewrite zlen_nil in Hs. split; [done|]. lia. }
  pose proof (zlen_nonneg pre). pose proof (zlen_nonneg out).
  destruct s as [|e0 [|e1 [|e2 [|e3 s]]]]; try (rewrite !zlen_cons, zlen_nil in Hs; lia).
  { cbn [b64_bytes decode_loop]. rewrite zlen_nil, decide_False by lia.
    exists room. rewrite app_nil_r. rewrite zlen_nil in Hs. split; [done|]. lia. }
  cbn [b64_bytes decode_loop]. rewrite !zlen_cons in Hs |- *. pose proof (zlen_nonneg s).
  rewrite decide_True by lia. pose proof (f_equal zlen E) as L. autorewrite with zlen in L.
  pose proof (zlen_nonneg rest).
  unfold is_bytes in Hb. rewrite !list.Forall_cons in Hb. destruct Hb as (B0 & B1 & B2 & B3 & Hb).
  rewrite (decode_quad_spec buf pre e0 e1 e2 e3 (s ++ NUL :: rest)) by done. cbn [obind].
  destruct (group_bits e0 e1 e2 e3) as [t|] eqn:G; [|done].
  apply group_bits_range in G; try done. rewrite !u64_small by lia.
  rewrite (aget_split buf (pre ++ [e0; e1]) e2 (e3 :: s ++ NUL :: rest)) by first [by rewrite <- app_assoc|zl].
  rewrite (aget_split buf (pre ++ [e0; e1; e2]) e3 (s ++ NUL :: rest)) by first [by rewrite <- app_assoc|zl].
  destruct (group_out x e2 e3 t out room) as (room1 & Q & R1); [done|lia|done|].
  pose proof (zlen_group_bytes e2 e3 t). set (g := group_bytes e2 e3 t) in *.
  assert (forall (K : option block * Z -> outcome (option (Z * option block))),
    (let! (out1, o1) := put (Some (Block x (out ++ room))) (zlen out) (u8 (Z.shiftr t 16)) in
     let! e2 := Ret e2 in
     let! (out2, o2) := if decide (e2 <> ch "=") then put out1 o1 (u8 (Z.shiftr t 8)) else Ret (out1, o1) in
     let! e3 := Ret e3 in
     let! r := if decide (e3 <> ch "=") then put out2 o2 (u8 t) else Ret (out2, o2) in K r)
    = K (Some (Block x ((out ++ g) ++ room1)), zlen (out ++ g))) as QK.
  { intros K. rewrite <- (obind_ret _ K), <- Q, obind_assoc. destruct (put _ _ _) as [[o1 p1]| |]; [|done|done].
    cbn [obind]. rewrite obind_assoc. by destruct (if decide (e2 <> _) then _ else _) as [[o2 p2]| |]. }
  specialize (IH s (pre ++ [e0; e1; e2; e3]) (out ++ g) room1 (k - 1)).
  replace (zlen (pre ++ [e0; e1; e2; e3]) + zlen s) with (zlen pre + (1 + (1 + (1 + (1 + zlen s))))) in IH by zl.
  replace (zlen (pre ++ [e0; e1; e2; e3])) with (zlen pre + 4) in IH by zl.
  rewrite (QK (fun '(out3, o3) => decode_loop fuel buf _ _ o3 out3)).
  destruct (b64_bytes s) as [d|].
  - destruct IH as (room' & -> & R' & Rd); [by rewrite <- app_assoc|lia|done|simpl in Hf; lia|lia|zl|].
    exists room'. rewrite <- !app_assoc. split; [done|zl].
  - apply IH; [by rewrite <- app_assoc|lia|done|simpl in Hf; lia|lia|zl].
Qed.

(** ** The text decodes to the bytes *)

Lemma letter_sextet v : 0 <= v < 64 -> letter (sextet v) = Some v /\ letter_or_pad (sextet v) = Some (Some v).
Proof.
  intros Hv. destruct (sextet_facts v Hv) as (_ & E & N & _). unfold letter_or_pad.
  rewrite decide_False by done. by rewrite E.
Qed.

(** The six-bit pieces of one, two and three bytes. *)
Lemma pieces x y z : is_byte x -> is_byte y -> is_byte z ->
  (0 <= x / 4 < 64 /\ 0 <= x mod 4 * 16 < 64 /\ 0 <= x mod 4 * 16 + y / 16 < 64 /\
   0 <= y mod 16 * 4 < 64 /\ 0 <= y mod 16 * 4 + z / 64 < 64 /\ 0 <= z mod 64 < 64) /\
  x / 4 * 262144 + (x mod 4 * 16 + y / 16) * 4096 + (y mod 16 * 4 + z / 64) * 64 + z mod 64
    = x * 65536 + y * 256 + z /\
  x / 4 * 262144 + (x mod 4 * 16 + y / 16) * 4096 + y mod 16 * 4 * 64 = x * 65536 + y * 256 /\
  x / 4 * 262144 + x mod 4 * 16 * 4096 = x * 65536.
Proof.
  unfold is_byte. intros Hx Hy Hz.
  pose proof (Z.div_mod x 4 ltac:(lia)). pose proof (Z.mod_pos_bound x 4 ltac:(lia)).
  pose proof (Z.div_mod y 16 ltac:(lia)). pose proof (Z.mod_pos_bound y 16 ltac:(lia)).
  pose proof (Z.div_mod z 64 ltac:(lia)). pose proof (Z.mod_pos_bound z 64 ltac:(lia)).
  lia.
Qed.

Lemma unpack x y z : is_byte x -> is_byte y -> is_byte z ->
  (x * 65536 + y * 256 + z) / 65536 = x /\ (x * 65536 + y * 256 + z) / 256 mod 256 = y /\
  (x * 65536 + y * 256 + z) mod 256 = z.
Proof.
  unfold is_byte. intros Hx Hy Hz. split_and!.
  - symmetry. apply (Z.div_unique_pos _ _ _ (y * 256 + z)); lia.
  - replace ((x * 65536 + y * 256 + z) / 256) with (x * 256 + y) by (apply (Z.div_unique_pos _ _ _ z); lia).
    symmetry. apply (Z.mod_unique_pos _ _ x); lia.
  - symmetry. apply (Z.mod_unique_pos _ _ (x * 256 + y)); lia.
Qed.

Lemma b64_bytes_text data : is_bytes data -> b64_bytes (b64_text data) = Some data.
Proof.
  assert (is_byte 0) as B0 by (unfold is_byte; lia).
  assert (forall v, 0 <= v < 64 -> sextet v <> ch "=") as NP by (intros; by apply sextet_facts).
  induction data as [l Hl|x y z l IH] using triples_ind; intros Hb.
  - destruct l as [|x [|y [|z l]]]; [done| | |simpl in Hl; lia]; unfold is_bytes in Hb;
      rewrite ?list.Forall_cons in Hb; cbn [b64_text b64_bytes].
    + destruct Hb as [Hx _]. destruct (pieces x 0 0) as ((P1 & P2 & _) & _ & _ & E); try done.
      unfold group_bits. rewrite (proj1 (letter_sextet _ P1)), (proj1 (letter_sextet _ P2)).
      unfold letter_or_pad. rewrite decide_True by done. cbn [from_option]. rewrite E, !Z.add_0_r.
      unfold group_bytes. rewrite decide_True by done. destruct (unpack x 0 0) as (U & _); try done.
      rewrite !Z.add_0_r in U. by rewrite U.
    + destruct Hb as (Hx & Hy & _). destruct (pieces x y 0) as ((P1 & _ & P2 & P3 & _) & _ & E & _); try done.
      unfold group_bits. rewrite (proj1 (letter_sextet _ P1)), (proj1 (letter_sextet _ P2)), (proj2 (letter_sextet _ P3)).
      unfold letter_or_pad. rewrite decide_True by done. cbn [from_option id]. rewrite E, !Z.add_0_r.
      unfold group_bytes. rewrite (decide_True (P := ch "=" = ch "=")) by done. rewrite decide_False by (by apply NP).
      destruct (unpack x y 0) as (U1 & U2 & _); try done. rewrite !Z.add_0_r in U1, U2. by rewrite U1, U2.
  - unfold is_bytes in Hb. rewrite !list.Forall_cons in Hb. destruct Hb as (Hx & Hy & Hz & Hb).
    cbn [b64_text b64_bytes]. destruct (pieces x y z) as ((P1 & _ & P2 & _ & P3 & P4) & E & _); try done.
    unfold group_bits. rewrite (proj1 (letter_sextet _ P1)), (proj1 (letter_sextet _ P2)),
      (proj2 (letter_sextet _ P3)), (proj2 (letter_sextet _ P4)). cbn [from_option id]. rewrite E, IH by done.
    unfold group_bytes. rewrite !decide_False by (by apply NP).
    destruct (unpack x y z) as (-> & -> & ->); done.
Qed.

Lemma b64_text_chars data : is_bytes data -> Forall (fun c => 0 < c < 256) (b64_text data).
Proof.
  assert (is_byte 0) as B0 by (unfold is_byte; lia).
  assert (forall v, 0 <= v < 64 -> 0 < sextet v < 256) as NP by (intros; by apply sextet_facts).
  induction data as [l Hl|x y z l IH] using triples_ind; intros Hb.
  - destruct l as [|x [|y [|z l]]]; [constructor| | |simpl in Hl; lia]; unfold is_bytes in Hb;
      rewrite ?list.Forall_cons in Hb; cbn [b64_text].
    + destruct (pieces x 0 0) as ((P1 & P2 & _) & _); try done; [tauto|].
      repeat constructor; try (chars; lia); by apply NP.
    + destruct (pieces x y 0) as ((P1 & _ & P2 & P3 & _) & _); try tauto.
      repeat constructor; try (chars; lia); by apply NP.
  - unfold is_bytes in Hb. rewrite !list.Forall_cons in Hb. destruct Hb as (Hx & Hy & Hz & Hb).
    destruct (pieces x y z) as ((P1 & _ & P2 & _ & P3 & P4) & _); try done.
    cbn [b64_text]. repeat (constructor; [by apply NP|]). by apply IH.
Qed.

(** ** Correctness *)

Section Base64Theorems.
Context {C : Type} (a : zenit_allocator_t C) {SP : AllocSpec a}.

Lemma b64_encode_impl_spec data c :
  is_bytes data -> 2 * zlen data + 5 <= PTRDIFF_MAX ->
  encode_impl (Some data) (zlen data) a c =
    Ret (match alloc_fn a ((zlen data + 2) / 3 * 4 + 1) c with
         | (Some b, c1) => (Some (Block (b_addr b) (b64_text data ++ [NUL])), c1)
         | (None, c1) => (None, c1)
         end).
Proof.
  intros Hb Hm. unfold encode_impl. rewrite decide_False by (by intros [??]).
  unfold zenit_base64_encode_len. pose proof (zlen_nonneg data).
  assert (0 <= (zlen data + 2) / 3 * 4 <= 2 * zlen data + 4)
    by (pose proof (Z.mul_div_le (zlen data + 2) 3); pose proof (Z.div_pos (zlen data + 2) 3); lia).
  rewrite (u64_small (zlen data + 2)), (u64_small (_ * 4)), u64_small by lia.
  destruct (alloc_fn a _ c) as [[[x d]|] c1] eqn:E; [|done]. apply alloc_some in E as (L & Lm & _).
  simpl in L. simpl b_addr. cbn [default from_option id].
  destruct (encode_spec x data ltac:(lia) data [] [] d (Z.to_nat (zlen data))) as (room & Q & R);
    try done; try (rewrite ?zlen_b64_text; simpl; lia); [unfold zlen; lia|].
  simpl app in Q. change (zlen (@nil Z)) with 0 in Q.
  destruct (encode_loop _ _ _ _ _ _) as [[[i o] out1]| |]; [|done|done]. cbn [obind] in Q |- *. rewrite Q.
  cbn [obind]. rewrite zlen_b64_text in R.
  destruct (room_cons room) as (z & room' & -> & R'); [lia|]. assert (room' = []) as -> by (apply zlen_0; lia).
  rewrite pset_emit by done. cbn [obind]. by rewrite app_nil_r.
Qed.

(** A decoded block holds the bytes, then whatever the padding left unused. *)
Lemma b64_decode_impl_spec buf s n0 c :
  cstr buf s -> 4 <= zlen s -> zlen s mod 4 = 0 -> zlen buf <= PTRDIFF_MAX ->
  exists junk, decode_impl (Some buf) (Some n0) a c =
    Ret (match alloc_fn a (zlen s / 4 * 3) c with
         | (None, c1) => (None, Some n0, c1)
         | (Some b, c1) =>
             match b64_bytes s with
             | Some d => (Some (Block (b_addr b) (d ++ junk)), Some (zlen d), c1)
             | None => (None, Some n0, free_fn a (Some (b_addr b)) c1)
             end
         end) /\
    forall d b c1, b64_bytes s = Some d -> alloc_fn a (zlen s / 4 * 3) c = (Some b, c1) ->
      zlen (d ++ junk) = zlen s / 4 * 3.
Proof.
  intros Hc H4 Hmod Hm. unfold decode_impl, zenit_base64_decode_len. rewrite (strlen_cstr buf s Hc). cbn [obind].
  destruct Hc as (rest & E & Hs). pose proof (f_equal zlen E) as L. autorewrite with zlen in L.
  pose proof (zlen_nonneg rest). rewrite decide_False by lia.
  pose proof (Z.div_mod (zlen s) 4 ltac:(lia)) as DM. set (k := zlen s / 4) in *. rewrite u64_small by lia.
  assert (is_bytes s) as Hb by (eapply Forall_impl; [exact Hs|]; unfold is_byte; simpl; lia).
  destruct (alloc_fn a _ c) as [[[x room]|] c1] eqn:EA.
  - apply alloc_some in EA as (Ld & Lm & _). simpl in Ld. simpl b_addr.
    pose proof (b64_decode_loop_spec x buf rest Hm (Z.to_nat (zlen s)) s [] [] room k) as Q.
    simpl app in Q. change (zlen (@nil Z)) with 0 in Q. replace (0 + zlen s) with (zlen s) in Q by done.
    destruct (b64_bytes s) as [d|].
    + destruct Q as (room' & -> & R' & Rd); try done; try lia; [unfold zlen; lia|]. cbn [obind].
      exists room'. split; [done|]. intros ? ? ? [= <-] _. rewrite zlen_app. lia.
    + rewrite Q; try done; try lia; [|unfold zlen; lia]. by exists [].
  - exists []. split; [done|]. congruence.
Qed.

(** [zenit_base64_encode] produces the standard text of the bytes with its
    terminator in a block of exactly [zenit_base64_encode_len] bytes, and
    [zenit_base64_decode] of it gives back the bytes and their number; NULL only
    when the allocator refuses the block. *)
Theorem base64_roundtrip (data : bytes) (n0 : Z) (c c2 : C)
  (Hb : is_bytes data) (Hm : 2 * zlen data + 5 <= PTRDIFF_MAX) (Hne : data <> []) :
  zenit_base64_encode_with_allocator (Some data) (zlen data) a c =
    Ret (match alloc_fn a ((zlen data + 2) / 3 * 4 + 1) c with
         | (Some b, c1) => (Some (Block (b_addr b) (b64_text data ++ [NUL])), c1)
         | (None, c1) => (None, c1)
         end) /\
  exists junk,
    zenit_base64_decode_with_allocator (Some (b64_text data ++ [NUL])) (Some n0) a c2 =
    Ret (match alloc_fn a ((zlen data + 2) / 3 * 3) c2 with
         | (Some b, c3) => (Some (Block (b_addr b) (data ++ junk)), Some (zlen data), c3)
         | (None, c3) => (None, Some n0, c3)
         end).
Proof.
  split; [by apply b64_encode_impl_spec|]. unfold zenit_base64_decode_with_allocator.
  destruct (b64_decode_impl_spec (b64_text data ++ [NUL]) (b64_text data) n0 c2) as (junk & E & _).
  - by apply cstr_intro, b64_text_chars.
  - rewrite zlen_b64_text. assert (1 <= zlen data) by (destruct data; [done|zl]).
    assert (1 <= (zlen data + 2) / 3) by (apply Z.div_le_lower_bound; lia). lia.
  - rewrite zlen_b64_text. by apply Z.mod_mul.
  - autorewrite with zlen. rewrite zlen_b64_text.
    pose proof (Z.mul_div_le (zlen data + 2) 3). pose proof (zlen_nonneg data). lia.
  - exists junk. rewrite E, zlen_b64_text, Z.div_mul, b64_bytes_text by done. done.
Qed.

End Base64Theorems.

(** ** Concrete runs *)

Definition wit_text : bytes := lit "TWFueQ==".

Lemma base64_roundtrip_witness :
  zenit_base64_encode_with_allocator (Some (lit "Many")) 4 ZENIT_ALLOCATOR_DEFAULT empty_heap =
    Ret (match malloc 9 empty_heap with
         | (Some b, c1) => (Some (Block (b_addr b) (wit_text ++ [NUL])), c1)
         | (None, c1) => (None, c1)
         end) /\
  exists junk,
    zenit_base64_decode_with_allocator (Some (wit_text ++ [NUL])) (Some 0) ZENIT_ALLOCATOR_DEFAULT empty_heap =
    Ret (match malloc 6 empty_heap with
         | (Some b, c1) => (Some (Block (b_addr b) (lit "Many" ++ junk)), Some 4, c1)
         | (None, c1) => (None, Some 0, c1)
         end).
Proof.
  refine (base64_roundtrip ZENIT_ALLOCATOR_DEFAULT (lit "Many") 0 empty_heap empty_heap _ _ _).
  - unfold is_bytes. vm_compute. by repeat constructor.
  - vm_compute. congruence.
  - done.
Defined.

