(* ===== verification/Uri.v ===== *)
(** * Percent-encoding ([src/uri.c])

    Unreserved characters stay, everything else becomes an escape with two
    uppercase digits; decoding also turns [+] into a space and accepts digits of
    either case. *)

From Stdlib Require Import ZArith Lia Ascii String.
From stdpp Require Import base tactics option list numbers gmap sets.
From S2P Require Import Prelude Mem Result Allocator Text.
Open Scope Z_scope.

Definition is_unreserved (c : Z) : bool :=
  bool_decide ((ch "A" <= c /\ c <= ch "Z") \/ (ch "a" <= c /\ c <= ch "z") \/
    (ch "0" <= c /\ c <= ch "9") \/ c = ch "-" \/ c = ch "_" \/ c = ch "." \/ c = ch "~").

Definition hex_digit (v : Z) : Z :=
  let v := Z.land v 15 in
  if decide (v < 10) then u8 (ch "0" + v) else u8 (ch "A" + v - 10).

Definition hex_val (c : Z) : Z :=
  if decide (ch "0" <= c /\ c <= ch "9") then u8 (c - ch "0")
  else if decide (ch "a" <= c /\ c <= ch "f") then u8 (c - ch "a" + 10)
  else if decide (ch "A" <= c /\ c <= ch "F") then u8 (c - ch "A" + 10)
  else 255.

(** The [for] loop of [encode_impl], [n] turns left. *)
Fixpoint encode_loop (n : nat) (i : Z) (input : bytes) (o : Z) (out : option block)
    : outcome (Z * option block) :=
  match n with
  | O => Ret (o, out)
  | S n =>
      let! c := aget input i in
      let! (o1, out1) :=
        if is_unreserved c then let! p := pset out o c in Ret (u64 (o + 1), p)
        else
          let! p := pset out o (ch "%") in
          let! p := pset p (u64 (o + 1)) (hex_digit (Z.shiftr c 4)) in
          let! p := pset p (u64 (o + 2)) (hex_digit (Z.land c 15)) in
          Ret (u64 (o + 3), p) in
      encode_loop n (u64 (i + 1)) input o1 out1
  end.

(** The [while] loop of [decode_impl]; [None] for a broken escape. *)
Fixpoint decode_loop (fuel : nat) (encoded : bytes) (len i o : Z) (out : option block)
    : outcome (option (Z * option block)) :=
  if decide (i < len) then
    match fuel with
    | O => NoFuel
    | S fuel =>
        let! c := aget encoded i in
        if decide (c = ch "+") then
          let! out1 := pset out o (ch " ") in
          decode_loop fuel encoded len (u64 (i + 1)) (u64 (o + 1)) out1
        else if decide (c = ch "%") then
          if decide (len <= u64 (i + 2)) then Ret None
          else
            let! c1 := aget encoded (u64 (i + 1)) in
            let! c2 := aget encoded (u64 (i + 2)) in
            let hi := hex_val c1 in
            let lo := hex_val c2 in
            if decide (hi = 255 \/ lo = 255) then Ret None
            else
              let! out1 := pset out o (u8 (Z.lor (Z.shiftl hi 4) lo)) in
              decode_loop fuel encoded len (u64 (i + 3)) (u64 (o + 1)) out1
        else
          let! out1 := pset out o c in
          decode_loop fuel encoded len (u64 (i + 1)) (u64 (o + 1)) out1
    end
  else Ret (Some (o, out)).

Section UriModel.
Context {C : Type}.
Implicit Types (a : zenit_allocator_t C) (c : C).

Definition encode_impl (input : option bytes) a c : outcome (option block * C) :=
  match input with
  | None => Ret (None, c)
  | Some s =>
      let! len := strlen s in
      match alloc_fn a (u64 (u64 (len * 3) + 1)) c with
      | (None, c1) => Ret (None, c1)
      | (out, c1) =>
          let! (o, out1) := encode_loop (Z.to_nat len) 0 s 0 out in
          let! out2 := pset out1 o NUL in
          Ret (out2, c1)
      end
  end.

Definition decode_impl (encoded : option bytes) a c : outcome (option block * C) :=
  match encoded with
  | None => Ret (None, c)
  | Some s =>
      let! len := strlen s in
      match alloc_fn a (u64 (len + 1)) c with
      | (None, c1) => Ret (None, c1)
      | (Some b, c1) =>
          let! r := decode_loop (Z.to_nat len) s len 0 0 (Some b) in
          match r with
          | None => Ret (None, free_fn a (Some (b_addr b)) c1)
          | Some (o, out) => let! out1 := pset out o NUL in Ret (out1, c1)
          end
      end
  end.

Definition zenit_uri_encode_with_allocator (input : option bytes) a c := encode_impl input a c.
Definition zenit_uri_decode_with_allocator (encoded : option bytes) a c := decode_impl encoded a c.
End UriModel.

Definition zenit_uri_encode (input : option bytes) (c : heap) :=
  zenit_uri_encode_with_allocator input ZENIT_ALLOCATOR_DEFAULT c.
Definition zenit_uri_decode (encoded : option bytes) (c : heap) :=
  zenit_uri_decode_with_allocator encoded ZENIT_ALLOCATOR_DEFAULT c.

(** ** Specification *)

Definition escape (c : Z) : bytes :=
  if is_unreserved c then [c] else [ch "%"; hex_digit (c / 16); hex_digit (c mod 16)].

Definition uri_text (s : bytes) : bytes := concat (map escape s).

Definition uri_digit (c : Z) : option Z :=
  if decide (hex_val c = 255) then None else Some (hex_val c).

(** What a string decodes to; [None] when an escape is cut short or has a
    character that is no digit. *)
Fixpoint uri_decoded (s : bytes) : option bytes :=
  match s with
  | [] => Some []
  | c :: s =>
      if decide (c = ch "+") then cons (ch " ") <$> uri_decoded s
      else if decide (c = ch "%") then
        match s with
        | c1 :: c2 :: s =>
            match uri_digit c1, uri_digit c2 with
            | Some hi, Some lo => cons (16 * hi + lo) <$> uri_decoded s
            | _, _ => None
            end
        | _ => None
        end
      else cons c <$> uri_decoded s
  end.

(** ** Characters *)

Lemma hex_digit_facts : forall n, 0 <= n < 16 -> 0 < hex_digit n < 256 /\ uri_digit (hex_digit n) = Some n.
Proof.
  apply (check_range (fun n => 0 < hex_digit n < 256 /\ uri_digit (hex_digit n) = Some n) 0 16).
  vm_compute. reflexivity.
Qed.

Lemma uri_digit_range c v : uri_digit c = Some v -> hex_val c = v /\ v <> 255 /\ 0 <= v < 16.
Proof.
  unfold uri_digit. case_decide as D; [done|]. intros [= <-]. do 2 (split; [done|]).
  revert D. unfold hex_val, u8. chars. repeat case_decide; intros; try lia; rewrite Z.mod_small by lia; lia.
Qed.

Lemma unreserved_plain c : is_unreserved c = true -> c <> ch "+" /\ c <> ch "%".
Proof. intros H%bool_decide_eq_true. chars. split; intros ->; lia. Qed.

Lemma escape_facts c : 0 < c < 256 ->
  Forall (fun c => 0 < c < 256) (escape c) /\ 1 <= zlen (escape c) <= 3 /\
  forall s, uri_decoded (escape c ++ s) = cons c <$> uri_decoded s.
Proof.
  intros Hc. unfold escape. destruct (is_unreserved c) eqn:U.
  - split; [by apply Forall_singleton|]. split; [zl|]. intros s. simpl app. cbn [uri_decoded].
    apply unreserved_plain in U as [U1 U2]. by rewrite !decide_False by done.
  - assert (0 <= c / 16 < 16) as H1 by (split; [apply Z.div_pos|apply Z.div_lt_upper_bound]; lia).
    pose proof (Z.mod_pos_bound c 16 ltac:(lia)) as H2. apply hex_digit_facts in H1, H2.
    split.
    { unfold escape. rewrite !list.Forall_cons. split_and!; try tauto; try (chars; lia). by apply Forall_nil. }
    split; [zl|]. intros s. simpl app. cbn [uri_decoded].
    rewrite decide_False, decide_True by done. destruct H1 as [_ ->], H2 as [_ ->].
    by rewrite <- (Z.div_mod c 16) by lia.
Qed.

Lemma uri_text_facts s : Forall (fun c => 0 < c < 256) s ->
  Forall (fun c => 0 < c < 256) (uri_text s) /\ zlen (uri_text s) <= 3 * zlen s /\
  uri_decoded (uri_text s) = Some s.
Proof.
  induction 1 as [|c s Hc _ (I1 & I2 & I3)]; [by split|]. destruct (escape_facts c Hc) as (E1 & E2 & E3).
  change (uri_text (c :: s)) with (escape c ++ uri_text s). split; [by apply Forall_app|]. split; [zl|].
  by rewrite E3, I3.
Qed.

(** ** Encoding *)

Lemma uri_encode_loop_spec x rest : forall s pre out room,
  Forall (fun c => 0 < c < 256) s -> 3 * zlen s <= zlen room ->
  zlen (pre ++ s ++ NUL :: rest) <= PTRDIFF_MAX -> zlen (out ++ room) <= PTRDIFF_MAX ->
  exists room', encode_loop (length s) (zlen pre) (pre ++ s ++ NUL :: rest) (zlen out) (Some (Block x (out ++ room)))
      = Ret (zlen (out ++ uri_text s), Some (Block x ((out ++ uri_text s) ++ room'))) /\
    zlen room' = zlen room - zlen (uri_text s).
Proof.
  induction s as [|c s IH]; intros pre out room Hs Hr Hb Hm.
  { exists room. change (uri_text []) with (@nil Z). rewrite !app_nil_r. split; [done|zl]. }
  inversion Hs as [|? ? Hc Hs']; subst. cbn [encode_loop length].
  rewrite (aget_split _ pre c (s ++ NUL :: rest)) by done. cbn [obind].
  change (uri_text (c :: s)) with (escape c ++ uri_text s).
  destruct (escape_facts c Hc) as (_ & E2 & _).
  assert (exists room1, zlen room1 = zlen room - zlen (escape c) /\
    (if is_unreserved c then let! p := pset (Some (Block x (out ++ room))) (zlen out) c in Ret (u64 (zlen out + 1), p)
     else
       let! p := pset (Some (Block x (out ++ room))) (zlen out) (ch "%") in
       let! p := pset p (u64 (zlen out + 1)) (hex_digit (Z.shiftr c 4)) in
       let! p := pset p (u64 (zlen out + 2)) (hex_digit (Z.land c 15)) in
       Ret (u64 (zlen out + 3), p))
    = Ret (zlen (out ++ escape c), Some (Block x ((out ++ escape c) ++ room1)))) as (room1 & R1 & ->).
  { unfold escape in *. pose proof (zlen_nonneg out). pose proof (zlen_nonneg room).
    rewrite (shiftr_div c 4 16), (land_mod c 4 15) by done. change (15 + 1) with 16.
    autorewrite with zlen in Hm, Hr. pose proof (zlen_nonneg s). rewrite !u64_small by lia.
    destruct (is_unreserved c).
    - destruct (room_cons room) as (z & room1 & -> & R1); [lia|]. exists room1. split; [zl|].
      rewrite pset_emit by done. cbn [obind]. do 2 f_equal. zl.
    - destruct (room_cons room) as (z1 & r1 & -> & R1); [lia|].
      destruct (room_cons r1) as (z2 & r2 & -> & R2); [lia|].
      destruct (room_cons r2) as (z3 & r3 & -> & R3); [zl|]. exists r3. split; [zl|].
      rewrite pset_emit by done. cbn [obind]. rewrite pset_emit by zl. cbn [obind].
      rewrite pset_emit by zl. cbn [obind]. rewrite <- !app_assoc. do 2 f_equal. zl. }
  cbn [obind]. rewrite u64_small by zl.
  destruct (IH (pre ++ [c]) (out ++ escape c) room1) as (room' & Q & R'); [done|zl|zl|zl|].
  rewrite <- (app_assoc pre) in Q. replace (zlen (pre ++ [c])) with (zlen pre + 1) in Q by zl.
  simpl app in Q. simpl app. rewrite Q. exists room'. rewrite <- !app_assoc. split; [done|zl].
Qed.

(** ** Decoding *)

(** The loop, run from position [i] with the output [out] so far, ends as the
    decoding [r] of the remaining text says. *)
Definition decodes_to x (out room : bytes) (r : option bytes) (m : outcome (option (Z * option block))) : Prop :=
  match r with
  | Some d =>
      exists room', m = Ret (Some (zlen (out ++ d), Some (Block x ((out ++ d) ++ room')))) /\
        zlen room' = zlen room - zlen d
  | None => m = Ret None
  end.

Definition loop_correct x buf rest fuel : Prop := forall s pre out room,
  buf = pre ++ s ++ NUL :: rest -> (length s <= fuel)%nat -> zlen s <= zlen room ->
  zlen (out ++ room) <= PTRDIFF_MAX ->
  decodes_to x out room (uri_decoded s)
    (decode_loop fuel buf (zlen pre + zlen s) (zlen pre) (zlen out) (Some (Block x (out ++ room)))).

(** One turn that consumes [c :: k] and writes [v]. *)
Lemma decode_turn x buf rest fuel : loop_correct x buf rest fuel -> forall c k s pre out room v,
  zlen buf <= PTRDIFF_MAX -> buf = pre ++ c :: k ++ s ++ NUL :: rest -> (length (k ++ s) <= fuel)%nat ->
  zlen s + 1 <= zlen room -> zlen (out ++ room) <= PTRDIFF_MAX ->
  decodes_to x out room (cons v <$> uri_decoded s)
    (let! out1 := pset (Some (Block x (out ++ room))) (zlen out) v in
     decode_loop fuel buf (zlen pre + (1 + zlen (k ++ s))) (u64 (zlen pre + (1 + zlen k))) (u64 (zlen out + 1)) out1).
Proof.
  intros IH c k s pre out room v Hbuf E Hf Hr Hm. pose proof (zlen_nonneg s).
  pose proof (f_equal zlen E) as L. autorewrite with zlen in L. pose proof (zlen_nonneg rest).
  destruct (room_cons room) as (z & room1 & -> & R1); [lia|]. rewrite pset_emit by done. cbn [obind].
  rewrite !u64_small by zl. specialize (IH s (pre ++ c :: k) (out ++ [v]) room1).
  replace (zlen (pre ++ c :: k) + zlen s) with (zlen pre + (1 + zlen (k ++ s))) in IH by zl.
  replace (zlen (pre ++ c :: k)) with (zlen pre + (1 + zlen k)) in IH by zl.
  replace (zlen (out ++ [v])) with (zlen out + 1) in IH by zl. rewrite length_app in Hf.
  unfold decodes_to in *. destruct (uri_decoded s) as [d|]; cbn [fmap option_fmap option_map].
  - destruct IH as (room' & -> & R'); [by rewrite <- (app_assoc pre)|lia|zl|zl|].
    exists room'. rewrite <- (app_assoc out [v] d). split; [done|zl].
  - apply IH; [by rewrite <- (app_assoc pre)|lia|zl|zl].
Qed.

Lemma uri_decode_loop_spec x buf rest fuel : zlen buf <= PTRDIFF_MAX -> loop_correct x buf rest fuel.
Proof.
  intros Hbuf. induction fuel as [|fuel IH]; intros s pre out room E Hf Hr Hm;
    (destruct s as [|c s]; [cbn [uri_decoded decode_loop]; rewrite zlen_nil, decide_False by lia;
       exists room; rewrite !app_nil_r; (split; [done|zl])|]).
  { simpl in Hf. lia. }
  pose proof (zlen_nonneg pre). pose proof (f_equal zlen E) as L. autorewrite with zlen in L, Hr.
  pose proof (zlen_nonneg s). pose proof (zlen_nonneg rest). simpl in Hf.
  cbn [decode_loop]. rewrite zlen_cons, decide_True by lia.
  rewrite (aget_split buf pre c (s ++ NUL :: rest)) by done. cbn [obind uri_decoded].
  case_decide; [apply (decode_turn x buf rest fuel IH c []); try done; simpl; lia|].
  case_decide; [|apply (decode_turn x buf rest fuel IH c []); try done; simpl; lia].
  rewrite !(u64_small (zlen pre + _)) by lia.
  destruct s as [|c1 [|c2 s]]; [by rewrite decide_True by zl|by rewrite decide_True by zl|].
  rewrite !zlen_cons in *. rewrite decide_False by zl.
  rewrite (aget_split buf (pre ++ [c]) c1 (c2 :: s ++ NUL :: rest)) by first [by rewrite <- app_assoc|zl]. cbn [obind].
  rewrite (aget_split buf (pre ++ [c; c1]) c2 (s ++ NUL :: rest)) by first [by rewrite <- app_assoc|zl]. cbn [obind].
  destruct (uri_digit c1) as [hi|] eqn:D1.
  2:{ unfold uri_digit in D1. case_decide; [|done]. by rewrite decide_True by (by left). }
  destruct (uri_digit c2) as [lo|] eqn:D2.
  2:{ unfold uri_digit in D2. case_decide; [|done]. by rewrite decide_True by (by right). }
  apply uri_digit_range in D1 as (-> & N1 & B1). apply uri_digit_range in D2 as (-> & N2 & B2).
  rewrite decide_False by lia. rewrite lor_pack, u8_small by lia.
  replace (hi * 2 ^ 4 + lo) with (16 * hi + lo) by lia.
  pose proof (decode_turn x buf rest fuel IH c [c1; c2] s pre out room (16 * hi + lo)) as T.
  change (zlen [c1; c2]) with 2 in T. rewrite u64_small in T by lia.
  simpl app in T. rewrite !zlen_cons in T. apply T; try done; simpl in *; lia.
Qed.

Lemma uri_decoded_length n : forall s d, (length s <= n)%nat -> uri_decoded s = Some d -> zlen d <= zlen s.
Proof.
  induction n as [|n IH]; intros s d Hn; (destruct s as [|c s]; [intros [= <-]; zl|simpl in Hn]); [lia|].
  assert (forall s1 v, (length s1 <= length s)%nat -> cons v <$> uri_decoded s1 = Some d -> zlen d <= zlen (c :: s)) as K.
  { intros s1 v Hl. destruct (uri_decoded s1) as [d1|] eqn:E1; [|done]. intros [= <-].
    apply IH in E1; [|lia]. rewrite !zlen_cons. unfold zlen in *. lia. }
  cbn [uri_decoded]. case_decide; [by apply K|]. case_decide; [|by apply K].
  destruct s as [|c1 [|c2 s]]; try done. destruct (uri_digit c1), (uri_digit c2); try done.
  apply K. simpl. lia.
Qed.

(** ** Correctness *)

Section UriTheorems.
Context {C : Type} (a : zenit_allocator_t C) {SP : AllocSpec a}.

Lemma uri_encode_impl_spec buf s c :
  cstr buf s -> zlen buf * 3 <= PTRDIFF_MAX ->
  exists junk, encode_impl (Some buf) a c =
    Ret (match alloc_fn a (zlen s * 3 + 1) c with
         | (Some b, c1) => (Some (Block (b_addr b) (uri_text s ++ NUL :: junk)), c1)
         | (None, c1) => (None, c1)
         end).
Proof.
  intros Hc Hm. unfold encode_impl. rewrite (strlen_cstr buf s Hc). cbn [obind].
  destruct Hc as (rest & -> & Hs). pose proof (zlen_nonneg s). autorewrite with zlen in Hm.
  pose proof (zlen_nonneg rest). rewrite (u64_small (zlen s * 3)), u64_small by lia.
  destruct (alloc_fn a _ c) as [[[x d]|] c1] eqn:E; [|by exists []]. apply alloc_some in E as (L & _). simpl in L.
  replace (Z.to_nat (zlen s)) with (length s) by (unfold zlen; lia). simpl b_addr.
  destruct (uri_encode_loop_spec x rest s [] [] d) as (room & Q & R); [done|lia|zl|simpl; lia|].
  simpl app in Q. change (zlen (@nil Z)) with 0 in Q. rewrite Q. cbn [obind].
  destruct (uri_text_facts s Hs) as (_ & T & _). destruct (room_cons room) as (z & room' & -> & _); [lia|].
  rewrite pset_emit by done. cbn [obind]. exists room'. by rewrite <- app_assoc.
Qed.

Lemma uri_decode_impl_spec buf s c :
  cstr buf s -> zlen buf <= PTRDIFF_MAX ->
  exists junk, decode_impl (Some buf) a c =
    Ret (match alloc_fn a (zlen s + 1) c with
         | (Some b, c1) =>
             match uri_decoded s with
             | Some d => (Some (Block (b_addr b) (d ++ NUL :: junk)), c1)
             | None => (None, free_fn a (Some (b_addr b)) c1)
             end
         | (None, c1) => (None, c1)
         end).
Proof.
  intros Hc Hm. unfold decode_impl. rewrite (strlen_cstr buf s Hc). cbn [obind].
  destruct Hc as (rest & E & Hs). pose proof (f_equal zlen E) as L. autorewrite with zlen in L.
  pose proof (zlen_nonneg s). pose proof (zlen_nonneg rest). rewrite u64_small by lia.
  destruct (alloc_fn a _ c) as [[[x room]|] c1] eqn:EA; [|by exists []].
  apply alloc_some in EA as (Lr & Lm & _). simpl in Lr. simpl b_addr.
  pose proof (uri_decode_loop_spec x buf rest (Z.to_nat (zlen s)) Hm s [] [] room) as Q.
  simpl app in Q. change (zlen (@nil Z)) with 0 in Q. replace (0 + zlen s) with (zlen s) in Q by done.
  unfold decodes_to in Q. destruct (uri_decoded s) as [d|] eqn:Ed.
  - destruct Q as (room' & -> & R'); try done; try lia; [unfold zlen; lia|]. cbn [obind app].
    apply (uri_decoded_length (length s)) in Ed; [|done].
    destruct (room_cons room') as (z & junk & -> & _); [lia|]. rewrite pset_emit by done. cbn [obind].
    exists junk. by rewrite <- app_assoc.
  - rewrite Q by first [done|lia|unfold zlen; lia]. by exists [].
Qed.

(** [zenit_uri_encode] of a string gives its percent-encoding, made of
    unreserved characters and complete escapes, inside the block of three bytes per
    character it allocates; [zenit_uri_decode] of that gives the string back. *)
Theorem uri_roundtrip (buf s : bytes) (c c2 : C)
  (Hc : cstr buf s) (Hm : zlen buf * 3 <= PTRDIFF_MAX) :
  (exists junk, zenit_uri_encode_with_allocator (Some buf) a c =
    Ret (match alloc_fn a (zlen s * 3 + 1) c with
         | (Some b, c1) => (Some (Block (b_addr b) (uri_text s ++ NUL :: junk)), c1)
         | (None, c1) => (None, c1)
         end)) /\
  (forall junk, zlen (uri_text s ++ NUL :: junk) <= PTRDIFF_MAX -> exists junk2,
    zenit_uri_decode_with_allocator (Some (uri_text s ++ NUL :: junk)) a c2 =
    Ret (match alloc_fn a (zlen (uri_text s) + 1) c2 with
         | (Some b, c3) => (Some (Block (b_addr b) (s ++ NUL :: junk2)), c3)
         | (None, c3) => (None, c3)
         end)).
Proof.
  split; [by apply uri_encode_impl_spec|]. intros junk Hj. destruct Hc as (rest & E & Hs).
  destruct (uri_text_facts s Hs) as (T1 & _ & T3).
  destruct (uri_decode_impl_spec (uri_text s ++ NUL :: junk) (uri_text s) c2) as (junk2 & Q); [by exists junk|done|].
  rewrite T3 in Q. by exists junk2.
Qed.

(** [zenit_uri_decode] of any C string returns within its block: the decoded
    string, or NULL exactly when an escape is incomplete or has a character that is
    no digit (the block being given back) or the allocator refuses. *)
Theorem uri_decode_correct (buf s : bytes) (c : C)
  (Hc : cstr buf s) (Hm : zlen buf <= PTRDIFF_MAX) :
  exists r c', zenit_uri_decode_with_allocator (Some buf) a c = Ret (r, c') /\
    match r with
    | Some b => exists d junk, uri_decoded s = Some d /\ b_data b = d ++ NUL :: junk /\
        transfer a ∅ {[ b_addr b ]} c c'
    | None => live c' = live c /\
        (uri_decoded s = None \/ exists c1, alloc_fn a (zlen s + 1) c = (None, c1))
    end.
Proof.
  destruct (uri_decode_impl_spec buf s c Hc Hm) as (junk & E). unfold zenit_uri_decode_with_allocator. rewrite E.
  destruct (alloc_fn a _ c) as [[b|] c1] eqn:EA.
  - apply alloc_some in EA as (_ & _ & Hf & Hl). destruct (uri_decoded s) as [d|].
    + eexists _, c1. split; [done|]. exists d, junk. simpl. do 2 (split; [done|]). split; rewrite Hl; set_solver.
    + eexists _, _. split; [done|]. split; [|by left]. rewrite free_some by (rewrite Hl; set_solver).
      rewrite Hl. set_solver.
  - eexists _, c1. split; [done|]. split; [by eapply alloc_none|]. right. by eexists.
Qed.
End UriTheorems.

(** ** Concrete runs *)

Lemma uri_roundtrip_witness :
  exists junk, zenit_uri_encode_with_allocator (Some (lit "a b/~" ++ [NUL])) ZENIT_ALLOCATOR_DEFAULT empty_heap =
    Ret (match malloc 16 empty_heap with
         | (Some b, c1) => (Some (Block (b_addr b) (lit "a%20b%2F~" ++ NUL :: junk)), c1)
         | (None, c1) => (None, c1)
         end).
Proof.
  refine (proj1 (uri_roundtrip ZENIT_ALLOCATOR_DEFAULT (lit "a b/~" ++ [NUL]) (lit "a b/~") empty_heap empty_heap _ _)).
  - apply cstr_intro. vm_compute. by repeat constructor.
  - vm_compute. congruence.
Defined.

Lemma uri_decode_correct_witness :
  exists r c', zenit_uri_decode_with_allocator (Some (lit "a+%7e" ++ [NUL])) ZENIT_ALLOCATOR_DEFAULT empty_heap = Ret (r, c') /\
    match r with
    | Some b => exists d junk, uri_decoded (lit "a+%7e") = Some d /\ b_data b = d ++ NUL :: junk /\
        transfer ZENIT_ALLOCATOR_DEFAULT ∅ {[ b_addr b ]} empty_heap c'
    | None => live c' = live empty_heap /\
        (uri_decoded (lit "a+%7e") = None \/ exists c1, malloc (zlen (lit "a+%7e") + 1) empty_heap = (None, c1))
    end.
Proof.
  refine (uri_decode_correct ZENIT_ALLOCATOR_DEFAULT (lit "a+%7e" ++ [NUL]) (lit "a+%7e") empty_heap _ _).
  - apply cstr_intro. vm_compute. by repeat constructor.
  - vm_compute. congruence.
Defined.
