(* ===== verification/Spsc.v ===== *)
(** * The lock-free single-producer single-consumer queue ([src/spsc.c])

    The functions are modelled twice.  [zenit_spsc_push] and [zenit_spsc_pop] are the
    calls as a single thread sees them.  [spsc_step] is the interleaving semantics of
    one producer and one consumer: each call is split at its accesses to the shared
    fields, in program order, as the [volatile] fields and the barrier before the
    index is published impose.  The copy of an element is one step; the race theorem
    shows that the two threads never copy the same slot at the same time, so that a
    finer interleaving of the copies cannot be observed. *)

From Stdlib Require Import ZArith Lia.
From stdpp Require Import base tactics option list numbers gmap sets relations.
From S2P Require Import Prelude Mem Result Allocator HashTable.
Open Scope Z_scope.

(** [sp_self] is the address of the structure. *)
Record zenit_spsc_t : Type := mk_spsc {
  sp_self : addr;
  sp_buffer : option block;
  sp_capacity : Z;
  sp_elem_size : Z;
  sp_head : Z;
  sp_tail : Z }.

Definition SIZEOF_SPSC : Z := 32.

Definition round_pow2_u32 (v : Z) : Z :=
  let v := u32 (v - 1) in
  let v := Z.lor v (Z.shiftr v 1) in
  let v := Z.lor v (Z.shiftr v 2) in
  let v := Z.lor v (Z.shiftr v 4) in
  let v := Z.lor v (Z.shiftr v 8) in
  let v := Z.lor v (Z.shiftr v 16) in
  u32 (v + 1).

Definition zenit_spsc_create (elem_size capacity : Z) (h : heap) : option zenit_spsc_t * heap :=
  if decide (elem_size = 0 \/ capacity = 0) then (None, h)
  else
    let cap := round_pow2_u32 (u32 capacity) in
    let cap := if decide (cap = 0) then u32 capacity else cap in
    match malloc SIZEOF_SPSC h with
    | (None, h1) => (None, h1)
    | (Some self, h1) =>
        match malloc (u64 (elem_size * cap)) h1 with
        | (None, h2) => (None, free (Some (b_addr self)) h2)
        | (buffer, h2) => (Some (mk_spsc (b_addr self) buffer cap elem_size 0 0), h2)
        end
    end.

Definition zenit_spsc_destroy (spsc : option zenit_spsc_t) (h : heap) : heap :=
  match spsc with
  | None => h
  | Some q => free (Some (sp_self q)) (free (paddr (sp_buffer q)) h)
  end.

(** The pieces of the two calls. *)
Definition spsc_mask (q : zenit_spsc_t) : Z := u32 (u64 (sp_capacity q - 1)).
Definition spsc_is_full (q : zenit_spsc_t) (head tail : Z) : bool :=
  bool_decide (u32 (sp_capacity q) <= u32 (head - tail)).
Definition spsc_slot (q : zenit_spsc_t) (index : Z) : Z := u64 (Z.land index (spsc_mask q) * sp_elem_size q).

Definition spsc_write (q : zenit_spsc_t) (head : Z) (elem : bytes) : outcome zenit_spsc_t :=
  let! x := rd elem 0 (sp_elem_size q) in
  let! b := pwr (sp_buffer q) (spsc_slot q head) x in
  Ret (mk_spsc (sp_self q) b (sp_capacity q) (sp_elem_size q) (sp_head q) (sp_tail q)).
Definition spsc_read (q : zenit_spsc_t) (tail : Z) (out : bytes) : outcome bytes :=
  let! x := prd (sp_buffer q) (spsc_slot q tail) (sp_elem_size q) in wr out 0 x.
Definition set_head (q : zenit_spsc_t) (v : Z) : zenit_spsc_t :=
  mk_spsc (sp_self q) (sp_buffer q) (sp_capacity q) (sp_elem_size q) v (sp_tail q).
Definition set_tail (q : zenit_spsc_t) (v : Z) : zenit_spsc_t :=
  mk_spsc (sp_self q) (sp_buffer q) (sp_capacity q) (sp_elem_size q) (sp_head q) v.

Definition zenit_spsc_push (spsc : option zenit_spsc_t) (elem : option bytes)
    : outcome (zenit_error_t * option zenit_spsc_t) :=
  match spsc, elem with
  | Some q, Some x =>
      let head := sp_head q in
      let tail := sp_tail q in
      if spsc_is_full q head tail then Ret (ZENIT_ERROR_FULL, spsc)
      else
        let! q1 := spsc_write q head x in
        Ret (ZENIT_OK, Some (set_head q1 (u32 (head + 1))))
  | _, _ => Ret (ZENIT_ERROR_NULL, spsc)
  end.

Definition zenit_spsc_pop (spsc : option zenit_spsc_t) (out : option bytes)
    : outcome (zenit_error_t * option bytes * option zenit_spsc_t) :=
  match spsc, out with
  | Some q, Some o =>
      let head := sp_head q in
      let tail := sp_tail q in
      if decide (head = tail) then Ret (ZENIT_ERROR_EMPTY, out, spsc)
      else
        let! x := spsc_read q tail o in
        Ret (ZENIT_OK, Some x, Some (set_tail q (u32 (tail + 1))))
  | _, _ => Ret (ZENIT_ERROR_NULL, out, spsc)
  end.

Definition zenit_spsc_count (spsc : option zenit_spsc_t) : Z :=
  match spsc with None => 0 | Some q => u32 (sp_head q - sp_tail q) end.
Definition zenit_spsc_capacity (spsc : option zenit_spsc_t) : Z :=
  match spsc with None => 0 | Some q => sp_capacity q end.
Definition zenit_spsc_full (spsc : option zenit_spsc_t) : bool :=
  match spsc with None => false | Some q => spsc_is_full q (sp_head q) (sp_tail q) end.
Definition zenit_spsc_empty (spsc : option zenit_spsc_t) : bool :=
  match spsc with None => false | Some q => bool_decide (sp_head q = sp_tail q) end.

(** ** One producer and one consumer

    Where each thread is inside its call, with its local variables. *)
Inductive producer : Type :=
| PIdle
| PCalled (x : bytes)
| PHead (x : bytes) (head : Z)
| PTail (x : bytes) (head tail : Z)
| PWritten (x : bytes) (head : Z).

Inductive consumer : Type :=
| CIdle
| CCalled (out : bytes)
| CHead (out : bytes) (head : Z)
| CTail (out : bytes) (head tail : Z)
| CRead (x : bytes) (tail : Z).

(** The shared queue, the two threads, and what has been sent (pushes that
    published) and received (pops that published), in order. *)
Record config : Type := mk_config {
  k_q : zenit_spsc_t;
  k_p : producer;
  k_c : consumer;
  k_sent : list bytes;
  k_received : list bytes }.

Inductive producer_step : config -> config -> Prop :=
| p_call q c s r x : zlen x = sp_elem_size q ->
    producer_step (mk_config q PIdle c s r) (mk_config q (PCalled x) c s r)
| p_load_head q c s r x :
    producer_step (mk_config q (PCalled x) c s r) (mk_config q (PHead x (sp_head q)) c s r)
| p_load_tail q c s r x head :
    producer_step (mk_config q (PHead x head) c s r) (mk_config q (PTail x head (sp_tail q)) c s r)
| p_full q c s r x head tail : spsc_is_full q head tail = true ->
    producer_step (mk_config q (PTail x head tail) c s r) (mk_config q PIdle c s r)
| p_copy q q' c s r x head tail : spsc_is_full q head tail = false -> spsc_write q head x = Ret q' ->
    producer_step (mk_config q (PTail x head tail) c s r) (mk_config q' (PWritten x head) c s r)
| p_publish q c s r x head :
    producer_step (mk_config q (PWritten x head) c s r)
      (mk_config (set_head q (u32 (head + 1))) PIdle c (s ++ [x]) r).

Inductive consumer_step : config -> config -> Prop :=
| c_call q p s r out : zlen out = sp_elem_size q ->
    consumer_step (mk_config q p CIdle s r) (mk_config q p (CCalled out) s r)
| c_load_head q p s r out :
    consumer_step (mk_config q p (CCalled out) s r) (mk_config q p (CHead out (sp_head q)) s r)
| c_load_tail q p s r out head :
    consumer_step (mk_config q p (CHead out head) s r) (mk_config q p (CTail out head (sp_tail q)) s r)
| c_empty q p s r out head : 
    consumer_step (mk_config q p (CTail out head head) s r) (mk_config q p CIdle s r)
| c_copy q p s r out head tail x : head <> tail -> spsc_read q tail out = Ret x ->
    consumer_step (mk_config q p (CTail out head tail) s r) (mk_config q p (CRead x tail) s r)
| c_publish q p s r x tail :
    consumer_step (mk_config q p (CRead x tail) s r)
      (mk_config (set_tail q (u32 (tail + 1))) p CIdle s (r ++ [x])).

Definition spsc_step (k k' : config) : Prop := producer_step k k' \/ consumer_step k k'.

(** A queue just created, both threads outside their calls. *)
Definition spsc_start (q : zenit_spsc_t) : config := mk_config q PIdle CIdle [] [].

(** ** Invariant

    The indices are the numbers of elements sent and received, modulo 2^32; the
    slots between them hold the elements not received yet. *)
Definition spsc_geometry (es cap : Z) : Prop :=
  is_pow2 cap /\ cap <= 2147483648 /\ 0 < es /\ cap * es <= PTRDIFF_MAX.

Record spsc_core (es cap : Z) (q : zenit_spsc_t) (sent received slots : list bytes) : Prop := {
  sc_geo : spsc_geometry es cap;
  sc_cap : sp_capacity q = cap;
  sc_es : sp_elem_size q = es;
  sc_buf : sp_buffer q <> None;
  sc_slots : is_slots es (pbytes (sp_buffer q)) slots;
  sc_len : zlen slots = cap;
  sc_head : sp_head q = u32 (zlen sent);
  sc_tail : sp_tail q = u32 (zlen received);
  sc_room : zlen received <= zlen sent <= zlen received + cap;
  sc_fifo : received = take (length received) sent;
  sc_view : forall i, zlen received <= i < zlen sent ->
    slots !! Z.to_nat (i mod cap) = sent !! Z.to_nat i }.

(** What the producer's locals mean; [tail] may be an old value. *)
Definition producer_inv (es cap : Z) (p : producer) (sent received slots : list bytes) : Prop :=
  match p with
  | PIdle => True
  | PCalled x => zlen x = es
  | PHead x head => zlen x = es /\ head = u32 (zlen sent)
  | PTail x head tail => zlen x = es /\ head = u32 (zlen sent) /\
      exists t, tail = u32 t /\ 0 <= t <= zlen received /\ zlen sent <= t + cap
  | PWritten x head => zlen x = es /\ head = u32 (zlen sent) /\ zlen sent < zlen received + cap /\
      slots !! Z.to_nat (zlen sent mod cap) = Some x
  end.

Definition consumer_inv (es : Z) (c : consumer) (sent received : list bytes) : Prop :=
  match c with
  | CIdle => True
  | CCalled out => zlen out = es
  | CHead out head => zlen out = es /\ exists h, head = u32 h /\ zlen received <= h <= zlen sent
  | CTail out head tail => zlen out = es /\ tail = u32 (zlen received) /\
      exists h, head = u32 h /\ zlen received <= h <= zlen sent
  | CRead x tail => tail = u32 (zlen received) /\ sent !! length received = Some x
  end.

Definition spsc_inv (es cap : Z) (k : config) : Prop :=
  exists slots, spsc_core es cap (k_q k) (k_sent k) (k_received k) slots /\
    producer_inv es cap (k_p k) (k_sent k) (k_received k) slots /\
    consumer_inv es (k_c k) (k_sent k) (k_received k).

(** ** Index arithmetic *)

Lemma u32_diff x y : 0 <= x - y < two32 -> u32 (u32 x - u32 y) = x - y.
Proof. intros H. unfold u32. rewrite <- Zminus_mod. by apply Z.mod_small. Qed.

Lemma u32_succ x : u32 (u32 x + 1) = u32 (x + 1).
Proof. unfold u32. by rewrite Zplus_mod_idemp_l. Qed.

Lemma u32_eq x y : 0 <= x - y < two32 -> u32 x = u32 y -> x = y.
Proof. intros H E. pose proof (u32_diff x y H) as D. rewrite E, Z.sub_diag in D. change (u32 0) with 0 in D. lia. Qed.

Lemma pow2_le_divides cap : is_pow2 cap -> cap <= 2147483648 -> (cap | two32).
Proof.
  intros (k & Hk & ->) Hle. change 2147483648 with (2 ^ 31) in Hle.
  apply Z.pow_le_mono_r_iff in Hle; [|lia|lia]. exists (2 ^ (32 - k)).
  rewrite <- Z.pow_add_r by lia. by replace (32 - k + k) with 32 by lia.
Qed.

Lemma mod_distinct cap i j : 0 < cap -> i < j < i + cap -> i mod cap <> j mod cap.
Proof.
  intros Hc Hij E. pose proof (Z.div_mod i cap ltac:(lia)) as D1. pose proof (Z.div_mod j cap ltac:(lia)) as D2.
  rewrite E in D1. generalize dependent (i / cap). generalize dependent (j / cap). intros b D2 a D1.
  assert (0 < b - a) by nia. assert (b - a < 1) by nia. lia.
Qed.

Section Invariant.
Context (es cap : Z).
Implicit Types (q : zenit_spsc_t) (slots sent received : list bytes).

Lemma slot_offset q sent received slots i :
  spsc_core es cap q sent received slots -> 0 <= i ->
  spsc_slot q (u32 i) = i mod cap * es /\ 0 <= i mod cap < cap.
Proof.
  intros [(P2 & Hc & He & Hm) Ec Ee _ _ _ _ _ _ _ _] Hi. pose proof (is_pow2_pos cap P2).
  pose proof (Z.mod_pos_bound i cap ltac:(lia)). split; [|done].
  unfold spsc_slot, spsc_mask. rewrite Ec, Ee. rewrite (u64_small (cap - 1)), (u32_small (cap - 1)) by lia.
  rewrite land_mask by done. unfold u32.
  rewrite <- Znumtheory.Zmod_div_mod; [|lia|lia|by apply pow2_le_divides].
  rewrite u64_small; [done|]. nia.
Qed.

Lemma full_test q sent received slots t :
  spsc_core es cap q sent received slots -> 0 <= t <= zlen sent -> zlen sent <= t + cap ->
  spsc_is_full q (u32 (zlen sent)) (u32 t) = bool_decide (zlen sent = t + cap).
Proof.
  intros [(P2 & Hc & He & Hm) Ec Ee _ _ _ _ _ _ _ _] Ht Hs. pose proof (is_pow2_pos cap P2).
  unfold spsc_is_full. rewrite Ec, u32_diff, u32_small by lia.
  apply bool_decide_ext. lia.
Qed.

(** Writing the next free slot. *)
Lemma write_ok q sent received slots x :
  spsc_core es cap q sent received slots -> zlen x = es -> zlen sent < zlen received + cap ->
  exists q' slots', spsc_write q (u32 (zlen sent)) x = Ret q' /\
    spsc_core es cap q' sent received slots' /\ slots' !! Z.to_nat (zlen sent mod cap) = Some x.
Proof.
  intros K Hx Hr. destruct (slot_offset _ _ _ _ (zlen sent) K (zlen_nonneg sent)) as [Eo Ro].
  destruct K as [(P2 & Hc & He & Hm) Ec Ee Hb Hs Hl Hh Ht Hroom Hf Hv]. pose proof (is_pow2_pos cap P2).
  unfold spsc_write. rewrite Ee, rd_whole by done. cbn [obind]. rewrite Eo.
  destruct (pwr_slot es (sp_buffer q) slots (zlen sent mod cap) x) as (b & -> & Nb & _ & Sb); try done; [lia|].
  cbn [obind]. eexists _, _. split; [done|]. split.
  - split; simpl; try done; [by rewrite zlen_insert|]. intros i Hi. rewrite list_lookup_insert_ne; [by apply Hv|].
    pose proof (zlen_nonneg received). pose proof (Z.mod_pos_bound i cap ltac:(lia)). intros E. apply Z2Nat.inj in E; [|lia|lia].
    by eapply (mod_distinct cap i (zlen sent)); [lia|lia|].
  - apply list_lookup_insert_eq. unfold zlen in Hl. lia.
Qed.

(** Reading the oldest slot. *)
Lemma read_ok q sent received slots out :
  spsc_core es cap q sent received slots -> zlen out = es -> zlen received < zlen sent ->
  exists x, spsc_read q (u32 (zlen received)) out = Ret x /\ sent !! length received = Some x.
Proof.
  intros K Ho Hr. pose proof (zlen_nonneg received) as H0.
  destruct (slot_offset _ _ _ _ (zlen received) K H0) as [Eo Ro].
  destruct K as [_ Ec Ee Hb Hs Hl Hh Ht Hroom Hf Hv].
  assert (exists x, sent !! length received = Some x) as [x Ex]
    by (apply lookup_lt_is_Some_2; unfold zlen in Hr; lia).
  assert (slots !! Z.to_nat (zlen received mod cap) = Some x) as Es.
  { rewrite Hv by lia. unfold zlen. by rewrite Nat2Z.id. }
  exists x. split; [|done]. unfold spsc_read. rewrite Ee, Eo.
  rewrite (prd_slot es (sp_buffer q) slots _ x) by (done || lia). cbn [obind].
  apply wr_whole. destruct Hs as [_ F]. rewrite Forall_lookup in F. rewrite Ho. by eapply F.
Qed.

(** Publishing an index. *)
Lemma publish_head q sent received slots x :
  spsc_core es cap q sent received slots -> zlen sent < zlen received + cap ->
  slots !! Z.to_nat (zlen sent mod cap) = Some x ->
  spsc_core es cap (set_head q (u32 (u32 (zlen sent) + 1))) (sent ++ [x]) received slots.
Proof.
  intros [Hg Ec Ee Hb Hs Hl Hh Ht Hroom Hf Hv] Hr Hx. pose proof (zlen_nonneg sent).
  split; simpl; try done.
  - rewrite u32_succ, zlen_app. done.
  - rewrite zlen_app. change (zlen [x]) with 1. lia.
  - rewrite take_app_le; [done|]. unfold zlen in Hroom. lia.
  - intros i. rewrite zlen_app. change (zlen [x]) with 1. intros Hi.
    pose proof (zlen_nonneg received).
    destruct (decide (i = zlen sent)) as [->|].
    + rewrite Hx. unfold zlen. rewrite Nat2Z.id. by rewrite list_lookup_middle.
    + rewrite lookup_app_l by (unfold zlen in *; lia). apply Hv. lia.
Qed.

Lemma publish_tail q sent received slots x :
  spsc_core es cap q sent received slots -> sent !! length received = Some x ->
  spsc_core es cap (set_tail q (u32 (u32 (zlen received) + 1))) sent (received ++ [x]) slots.
Proof.
  intros [Hg Ec Ee Hb Hs Hl Hh Ht Hroom Hf Hv] Hx. apply lookup_lt_Some in Hx as Hlt.
  split; simpl; try done.
  - rewrite u32_succ, zlen_app. done.
  - rewrite zlen_app. change (zlen [x]) with 1. unfold zlen in *. lia.
  - rewrite length_app, Nat.add_1_r. erewrite take_S_r by done. by rewrite <- Hf.
  - intros i. rewrite zlen_app. change (zlen [x]) with 1. intros Hi. apply Hv. lia.
Qed.
End Invariant.

(** ** Every step keeps the invariant *)

Section Steps.
Context (es cap : Z).

Lemma producer_step_inv k k' : spsc_inv es cap k -> producer_step k k' -> spsc_inv es cap k'.
Proof.
  intros (slots & K & P & Cn) Hs. destruct Hs as [q c s r x Hx|q c s r x|q c s r x head|q c s r x head tail F
    |q q' c s r x head tail F W|q c s r x head]; simpl in *.
  - exists slots. split_and!; try done. simpl. rewrite Hx. apply K.
  - exists slots. split_and!; try done. simpl. split; [done|apply K].
  - destruct P as [Px Ph]. exists slots. split_and!; try done. simpl. split_and!; try done.
    exists (zlen r). destruct K. split; [done|]. split; [pose proof (zlen_nonneg r)|]; lia.
  - by exists slots.
  - destruct P as (Px & -> & t & -> & Ht & Hr).
    rewrite (full_test es cap q s r slots) in F; [|done|destruct K; lia|done]. apply bool_decide_eq_false in F.
    destruct (write_ok es cap q s r slots x) as (q1 & slots1 & E & K1 & Hx); [done|done|lia|].
    rewrite E in W. injection W as <-. exists slots1. split_and!; try done. simpl. split_and!; try done. lia.
  - destruct P as (Px & -> & Hr & Hx). exists slots. split; [by apply publish_head|]. split; [done|].
    destruct c; simpl in *; try done.
    + destruct Cn as (Co & h & -> & Hh). split; [done|]. exists h. rewrite zlen_app. change (zlen [x]) with 1. split; [done|lia].
    + destruct Cn as (Co & -> & h & -> & Hh). do 2 (split; [done|]). exists h. rewrite zlen_app.
      change (zlen [x]) with 1. split; [done|lia].
    + destruct Cn as (-> & Hx0). split; [done|]. by apply lookup_app_l_Some.
Qed.

Lemma consumer_step_inv k k' : spsc_inv es cap k -> consumer_step k k' -> spsc_inv es cap k'.
Proof.
  intros (slots & K & P & Cn) Hs. destruct Hs as [q p s r out Ho|q p s r out|q p s r out head|q p s r out head
    |q p s r out head tail x N R|q p s r x tail]; simpl in *.
  - exists slots. split_and!; try done. simpl. rewrite Ho. apply K.
  - exists slots. split_and!; try done. simpl. split; [done|]. exists (zlen s). destruct K. split; [done|lia].
  - destruct Cn as (Co & h & -> & Hh). exists slots. split_and!; try done. simpl. split; [done|].
    split; [apply K|]. by exists h.
  - by exists slots.
  - destruct Cn as (Co & -> & h & -> & Hh). exists slots. split_and!; try done. simpl. split; [done|].
    assert (h <> zlen r) by congruence.
    destruct (read_ok es cap q s r slots out) as (x' & E & Hx); [done|done|lia|]. congruence.
  - destruct Cn as (-> & Hx). exists slots. split; [by apply publish_tail|]. split; [|done].
    destruct p; simpl in *; try done.
    + destruct P as (Px & -> & t & -> & Ht & Hr). do 2 (split; [done|]). exists t. rewrite zlen_app.
      change (zlen [x]) with 1. split; [done|lia].
    + destruct P as (Px & -> & Hr & Hw). do 2 (split; [done|]). rewrite zlen_app.
      change (zlen [x]) with 1. split; [lia|done].
Qed.

Lemma spsc_reach_inv k k' : spsc_inv es cap k -> rtc spsc_step k k' -> spsc_inv es cap k'.
Proof.
  intros H R. induction R as [|k k1 k' [S|S] _ IH]; [done|apply IH; by eapply producer_step_inv|
    apply IH; by eapply consumer_step_inv].
Qed.
End Steps.

(** ** Creation *)

Lemma round_pow2_u32_spec v : 1 <= v <= 2147483648 -> round_pow2_u32 v = 2 ^ Z.log2_up v.
Proof.
  intros Hv. unfold round_pow2_u32. rewrite (u32_small (v - 1)) by lia.
  destruct (decide (v = 1)) as [->|]; [done|]. pose proof (smeared_init (v - 1)) as S.
  do 5 (apply smeared_step in S; [|lia]; simpl in S).
  set (x := Z.lor _ _) in S |- *. assert (0 <= x) as Hx.
  { unfold x. repeat (apply Z.lor_nonneg; split); repeat apply Z.shiftr_nonneg;
      repeat (apply Z.lor_nonneg; split; try apply Z.shiftr_nonneg); lia. }
  apply smeared_ones in S; [|lia|done]. rewrite S.
  unfold Z.log2_up. rewrite (proj2 (Z.compare_lt_iff 1 v)) by lia.
  rewrite <- Z.sub_1_r, (Z.add_1_r (Z.log2 _)).
  assert (2 ^ Z.succ (Z.log2 (v - 1)) <= 2 ^ 31).
  { apply Z.pow_le_mono_r; [lia|]. assert (Z.log2 (v - 1) < 31); [|lia]. apply Z.log2_lt_pow2; lia. }
  pose proof (Z.pow_pos_nonneg 2 (Z.succ (Z.log2 (v - 1)))). pose proof (Z.log2_nonneg (v - 1)).
  rewrite u32_small; lia.
Qed.

Lemma create_inv es capacity h q h' :
  0 < es < two64 -> 1 <= capacity <= 2147483648 -> 2 ^ Z.log2_up capacity * es <= PTRDIFF_MAX ->
  zenit_spsc_create es capacity h = (Some q, h') ->
  spsc_inv es (2 ^ Z.log2_up capacity) (spsc_start q).
Proof.
  intros Hes Hc Hm. unfold zenit_spsc_create. rewrite decide_False by lia.
  rewrite (u32_small capacity), round_pow2_u32_spec by lia. set (cap := 2 ^ Z.log2_up capacity) in *.
  assert (is_pow2 cap) as P2 by (exists (Z.log2_up capacity); split; [apply Z.log2_up_nonneg|done]).
  pose proof (is_pow2_pos cap P2). rewrite decide_False by lia.
  destruct (malloc SIZEOF_SPSC h) as [[self|] h1]; [|done]. rewrite u64_small by nia.
  destruct (malloc (es * cap) h1) as [[b|] h2] eqn:E; [|done]. intros [= <- <-].
  apply malloc_some in E as (Lb & _). exists (slots_of (Z.to_nat es) (Z.to_nat cap) (b_data b)).
  assert (cap <= 2147483648).
  { unfold cap. change 2147483648 with (2 ^ 31). apply Z.pow_le_mono_r; [lia|].
    transitivity (Z.log2_up 2147483648); [apply Z.log2_up_le_mono; lia|done]. }
  split_and!; [|done|done]. split; simpl; try done.
  - split_and!; try done. lia.
  - apply is_slots_exists. lia.
  - rewrite zlen_slots_of. lia.
  - unfold zlen; simpl. lia.
  - intros i Hi. unfold zlen in Hi. simpl in Hi. lia.
Qed.

(** ** Correctness *)



(** A call is its steps: a [zenit_spsc_push] that runs while the consumer does
    nothing is a run of producer steps with the same effect and result, and
    likewise [zenit_spsc_pop], so the theorems about interleavings cover the
    functions as written. *)
Theorem spsc_calls_are_steps (q : zenit_spsc_t) (s r : list bytes) (x out : bytes)
  (p : producer) (c : consumer)
  (Hx : zlen x = sp_elem_size q) (Ho : zlen out = sp_elem_size q) :
  (forall q', zenit_spsc_push (Some q) (Some x) = Ret (ZENIT_OK, Some q') ->
     rtc producer_step (mk_config q PIdle c s r) (mk_config q' PIdle c (s ++ [x]) r)) /\
  (zenit_spsc_push (Some q) (Some x) = Ret (ZENIT_ERROR_FULL, Some q) ->
     tc producer_step (mk_config q PIdle c s r) (mk_config q PIdle c s r)) /\
  (zenit_spsc_pop (Some q) (Some out) = Ret (ZENIT_ERROR_EMPTY, Some out, Some q) ->
     tc consumer_step (mk_config q p CIdle s r) (mk_config q p CIdle s r)) /\
  (forall q' v, zenit_spsc_pop (Some q) (Some out) = Ret (ZENIT_OK, Some v, Some q') ->
     rtc consumer_step (mk_config q p CIdle s r) (mk_config q' p CIdle s (r ++ [v]))).
Proof.
  split_and!.
  - intros q'. unfold zenit_spsc_push. destruct (spsc_is_full q (sp_head q) (sp_tail q)) eqn:F; [done|].
    destruct (spsc_write q (sp_head q) x) as [q1| |] eqn:W; [|done|done]. intros [= <-].
    eapply rtc_l; [by apply (p_call q c s r x)|]. do 2 (eapply rtc_l; [by constructor|]).
    eapply rtc_l; [by eapply p_copy|].
    eapply rtc_l; [apply p_publish|]. done.
  - unfold zenit_spsc_push. destruct (spsc_is_full q (sp_head q) (sp_tail q)) eqn:F.
    + intros _. eapply tc_l; [by apply (p_call q c s r x)|]. do 2 (eapply tc_l; [by constructor|]).
      by apply tc_once, p_full.
    + by destruct (spsc_write q (sp_head q) x).
  - unfold zenit_spsc_pop. case_decide as D.
    + intros _. eapply tc_l; [by apply (c_call q p s r out)|]. do 2 (eapply tc_l; [by constructor|]).
      rewrite D. apply tc_once, c_empty.
    + by destruct (spsc_read q (sp_tail q) out).
  - intros q' v. unfold zenit_spsc_pop. case_decide as D; [done|].
    destruct (spsc_read q (sp_tail q) out) as [v1| |] eqn:R; [|done|done]. intros [= <- <-].
    eapply rtc_l; [by apply (c_call q p s r out)|]. do 2 (eapply rtc_l; [by constructor|]).
    eapply rtc_l; [by eapply c_copy|].
    eapply rtc_l; [apply c_publish|]. done.
Qed.

(** ** Concrete runs *)

(** A queue of capacity 2 after one element was sent and the producer is inside
    its second push, about to copy, while the consumer is about to copy the first. *)
Definition wit_spsc : zenit_spsc_t := mk_spsc 2 (Some (Block 3 [165; 165])) 2 1 0 0.
Definition wit_spsc_heap : heap := mk_heap {[ 3%positive; 2%positive ]} [].
Definition wit_spsc_run : config :=
  mk_config (mk_spsc 2 (Some (Block 3 [7; 165])) 2 1 1 0) (PTail [8] 1 0) (CTail [0] 1 0) [[7]] [].

Lemma wit_spsc_created : zenit_spsc_create 1 2 empty_heap = (Some wit_spsc, wit_spsc_heap).
Proof. vm_compute. reflexivity. Qed.

Lemma wit_spsc_reached : rtc spsc_step (spsc_start wit_spsc) wit_spsc_run.
Proof.
  eapply rtc_l; [left; by apply (p_call wit_spsc CIdle [] [] [7])|].
  eapply rtc_l; [left; apply p_load_head|]. eapply rtc_l; [left; apply p_load_tail|].
  eapply rtc_l; [left; eapply p_copy; [vm_compute; reflexivity|vm_compute; reflexivity]|].
  eapply rtc_l; [left; apply p_publish|].
  eapply rtc_l; [left; apply (p_call _ _ _ _ [8]); done|].
  eapply rtc_l; [left; apply p_load_head|]. eapply rtc_l; [left; apply p_load_tail|].
  eapply rtc_l; [right; apply (c_call _ _ _ _ [0]); done|].
  eapply rtc_l; [right; apply c_load_head|]. eapply rtc_l; [right; apply c_load_tail|].
  apply rtc_refl.
Qed.



Lemma spsc_calls_are_steps_witness :
  rtc producer_step (mk_config wit_spsc PIdle CIdle [] [])
    (mk_config (mk_spsc 2 (Some (Block 3 [7; 165])) 2 1 1 0) PIdle CIdle [[7]] []).
Proof.
  refine (proj1 (spsc_calls_are_steps wit_spsc [] [] [7] [0] PIdle CIdle _ _) _ _).
  - done.
  - done.
  - vm_compute. reflexivity.
Defined.
