(* ===== verification/Bitset.v ===== *)
(** * Bit sets ([src/bitset.c])

    Bits packed eight to a byte, least significant first, in a block that doubles
    on demand.  The specification is the function from positions to bits over all
    the allocated bytes, together with the number of usable bits. *)

From Stdlib Require Import ZArith Lia.
From stdpp Require Import base tactics option list numbers gmap sets.
From S2P Require Import Prelude Mem Result Allocator.
Open Scope Z_scope.

Record zenit_bitset_t (C : Type) : Type := mk_bitset {
  bs_self : addr;
  bs_bits : option block;
  bs_num_bytes : Z;
  bs_num_bits : Z;
  bs_allocator : zenit_allocator_t C }.
Arguments mk_bitset {C}.
Arguments bs_self {C}.
Arguments bs_bits {C}.
Arguments bs_num_bytes {C}.
Arguments bs_num_bits {C}.
Arguments bs_allocator {C}.

Definition SIZEOF_BITSET : Z := 56.

Definition BITSET_GROWTH_FACTOR (cap : Z) : Z := u64 (cap * 2).

Definition bytes_needed (bit_count : Z) : Z :=
  let n := u64 (bit_count + 7) / 8 in if decide (0 < n) then n else 1.

(** The population count of one byte. *)
Definition popcount (byte : Z) : Z :=
  foldr (fun k n => Z.b2z (Z.testbit byte k) + n) 0 (seqZ 0 8).

(** The [while] loop of [ensure_capacity]. *)
Fixpoint cap_loop (fuel : nat) (new_cap needed : Z) : outcome Z :=
  if decide (new_cap < needed) then
    match fuel with
    | O => NoFuel
    | S fuel =>
        cap_loop fuel (if decide (new_cap = 0) then 64 else BITSET_GROWTH_FACTOR new_cap) needed
    end
  else Ret new_cap.

Section BitsetModel.
Context {C : Type}.
Implicit Types (bs : zenit_bitset_t C) (c : C) (a : zenit_allocator_t C).

Definition upd_bits bs (bits : option block) : zenit_bitset_t C :=
  mk_bitset (bs_self bs) bits (bs_num_bytes bs) (bs_num_bits bs) (bs_allocator bs).

Definition zenit_bitset_resize (bs : option (zenit_bitset_t C)) (num_bits : Z) c
    : outcome (zenit_error_t * option (zenit_bitset_t C) * C) :=
  match bs with
  | None => Ret (ZENIT_ERROR_NULL, bs, c)
  | Some b =>
      let new_bytes := bytes_needed num_bits in
      let! (new_bits, c1) := zenit_allocator_realloc (bs_allocator b) (bs_bits b) (bs_num_bytes b) new_bytes c in
      match new_bits with
      | None => Ret (ZENIT_ERROR_ALLOC, bs, c1)
      | Some _ =>
          let! bits :=
            if decide (bs_num_bytes b < new_bytes)
            then pmemset new_bits (bs_num_bytes b) 0 (u64 (new_bytes - bs_num_bytes b))
            else Ret new_bits in
          Ret (ZENIT_OK, Some (mk_bitset (bs_self b) bits new_bytes num_bits (bs_allocator b)), c1)
      end
  end.

Definition ensure_capacity (fuel : nat) bs (required_pos : Z) c
    : outcome (zenit_error_t * option (zenit_bitset_t C) * C) :=
  let needed := u64 (required_pos + 1) in
  if decide (needed <= bs_num_bits bs) then Ret (ZENIT_OK, Some bs, c)
  else
    let! new_cap := cap_loop fuel (bs_num_bits bs) needed in
    zenit_bitset_resize (Some bs) new_cap c.

Definition zenit_bitset_create_with_allocator (num_bits : Z) a c : outcome (option (zenit_bitset_t C) * C) :=
  match alloc_fn a SIZEOF_BITSET c with
  | (None, c1) => Ret (None, c1)
  | (Some h, c1) =>
      let num_bytes := bytes_needed num_bits in
      let! (bits, c2) := zenit_allocator_alloc_zero a 1 num_bytes c1 in
      match bits with
      | None => Ret (None, free_fn a (Some (b_addr h)) c2)
      | Some _ => Ret (Some (mk_bitset (b_addr h) bits num_bytes num_bits a), c2)
      end
  end.

Definition zenit_bitset_destroy (bs : option (zenit_bitset_t C)) c : C :=
  match bs with
  | None => c
  | Some b => free_fn (bs_allocator b) (Some (bs_self b)) (free_fn (bs_allocator b) (paddr (bs_bits b)) c)
  end.

(** The common shape of the three single-bit operations: grow, then replace the
    byte that holds the bit by [f] of the byte and the bit's number. *)
Definition update_bit (f : Z -> Z -> Z) (fuel : nat) (bs : option (zenit_bitset_t C)) (pos : Z) c
    : outcome (zenit_error_t * option (zenit_bitset_t C) * C) :=
  match bs with
  | None => Ret (ZENIT_ERROR_NULL, bs, c)
  | Some b =>
      let! (r, b1, c1) := ensure_capacity fuel b pos c in
      if decide (r <> ZENIT_OK) then Ret (r, b1, c1)
      else
        match b1 with
        | None => Undef
        | Some b1 =>
            let byte := pos / 8 in
            let bit := u8 (pos mod 8) in
            let! v := pget (bs_bits b1) byte in
            let! bits := pset (bs_bits b1) byte (u8 (f v bit)) in
            Ret (ZENIT_OK, Some (upd_bits b1 bits), c1)
        end
  end.

Definition zenit_bitset_set := update_bit (fun v bit => Z.lor v (u8 (Z.shiftl 1 bit))).
Definition zenit_bitset_clear := update_bit (fun v bit => Z.land v (u8 (Z.lnot (Z.shiftl 1 bit)))).
Definition zenit_bitset_toggle := update_bit (fun v bit => Z.lxor v (u8 (Z.shiftl 1 bit))).

Definition zenit_bitset_test (bs : option (zenit_bitset_t C)) (pos : Z) : outcome Z :=
  match bs with
  | None => Ret 0
  | Some b =>
      if decide (bs_num_bits b <= pos) then Ret 0
      else
        let! v := pget (bs_bits b) (pos / 8) in
        Ret (Z.land (Z.shiftr v (u8 (pos mod 8))) 1)
  end.

Definition zenit_bitset_set_all (bs : option (zenit_bitset_t C)) : outcome (zenit_error_t * option (zenit_bitset_t C)) :=
  match bs with
  | None => Ret (ZENIT_ERROR_NULL, bs)
  | Some b => let! bits := pmemset (bs_bits b) 0 255 (bs_num_bytes b) in Ret (ZENIT_OK, Some (upd_bits b bits))
  end.

Definition zenit_bitset_clear_all (bs : option (zenit_bitset_t C)) : outcome (zenit_error_t * option (zenit_bitset_t C)) :=
  match bs with
  | None => Ret (ZENIT_ERROR_NULL, bs)
  | Some b => let! bits := pmemset (bs_bits b) 0 0 (bs_num_bytes b) in Ret (ZENIT_OK, Some (upd_bits b bits))
  end.

(** The loop of [zenit_bitset_count], [n] bytes left. *)
Fixpoint count_loop (n : nat) (i : Z) (bits : option block) (count : Z) : outcome Z :=
  match n with
  | O => Ret count
  | S n => let! byte := pget bits i in count_loop n (i + 1) bits (u64 (count + popcount byte))
  end.

Definition zenit_bitset_count (bs : option (zenit_bitset_t C)) : outcome Z :=
  match bs with
  | None => Ret 0
  | Some b => count_loop (Z.to_nat (bs_num_bytes b)) 0 (bs_bits b) 0
  end.

Definition zenit_bitset_capacity (bs : option (zenit_bitset_t C)) : Z :=
  match bs with None => 0 | Some b => bs_num_bits b end.
End BitsetModel.

Definition zenit_bitset_create (num_bits : Z) (c : heap) : outcome (option (zenit_bitset_t heap) * heap) :=
  zenit_bitset_create_with_allocator num_bits ZENIT_ALLOCATOR_DEFAULT c.

(** ** Specification *)

(** The bit at position [i] of a byte array, 0 outside. *)
Definition bit_at (data : bytes) (i : Z) : bool :=
  Z.testbit (nth (Z.to_nat (i / 8)) data 0) (i mod 8).

(** The number of positions below [m] with a 1. *)
Definition ones (f : Z -> bool) (m : Z) : Z :=
  foldr (fun i n => Z.b2z (f i) + n) 0 (seqZ 0 m).

Definition bits_own {C : Type} (bs : zenit_bitset_t C) : gset addr := {[ bs_self bs ]} ∪ pown (bs_bits bs).

(** [bs] has [n] usable bits and [f i] at position [i] of its bytes. *)
Record bitset_rep {C : Type} (a : zenit_allocator_t C) {SP : AllocSpec a}
    (bs : zenit_bitset_t C) (n : Z) (f : Z -> bool) (c : C) : Prop := {
  br_alloc : bs_allocator bs = a;
  br_null : bs_bits bs <> None;
  br_bits : bs_num_bits bs = n;
  br_n : 0 <= n <= two64 - 8;
  br_bytes : bs_num_bytes bs = bytes_needed n;
  br_len : zlen (pbytes (bs_bits bs)) = bytes_needed n;
  br_view : forall i, 0 <= i -> f i = bit_at (pbytes (bs_bits bs)) i;
  br_self : bs_self bs ∉ pown (bs_bits bs);
  br_live : bits_own bs ⊆ live c }.

Inductive bit_op : Type :=
| BSet (p : Z) | BClear (p : Z) | BToggle (p : Z) | BTest (p : Z)
| BSetAll | BClearAll | BCount | BCapacity | BResize (n : Z).

Inductive bit_res : Type := BErr (e : zenit_error_t) | BNum (n : Z).

(** The bit a single-bit operation leaves where there was [b]. *)
Definition new_bit (op : bit_op) (b : bool) : bool :=
  match op with BSet _ => true | BClear _ => false | BToggle _ => negb b | _ => b end.

Definition put_bit (f : Z -> bool) (p : Z) (b : bool) (i : Z) : bool := if decide (i = p) then b else f i.

(** The documented behaviour. A position beyond the usable bits grows the set, at
    most to twice what is needed; all other bits keep their value. *)
Inductive bit_step : bit_op -> Z -> (Z -> bool) -> bit_res -> Z -> (Z -> bool) -> Prop :=
| bs_update op p n f n' : op = BSet p \/ op = BClear p \/ op = BToggle p ->
    p < n' -> (p < n -> n' = n) -> n <= n' <= Z.max n (Z.max 64 (2 * (p + 1))) ->
    bit_step op n f (BErr ZENIT_OK) n' (put_bit f p (new_bit op (f p)))
| bs_test p n f : bit_step (BTest p) n f (BNum (if decide (p < n) then Z.b2z (f p) else 0)) n f
| bs_set_all n f : bit_step BSetAll n f (BErr ZENIT_OK) n (fun i => bool_decide (i < 8 * bytes_needed n))
| bs_clear_all n f : bit_step BClearAll n f (BErr ZENIT_OK) n (fun _ => false)
| bs_count n f : bit_step BCount n f (BNum (ones f (8 * bytes_needed n))) n f
| bs_capacity n f : bit_step BCapacity n f (BNum n) n f
| bs_resize m n f :
    bit_step (BResize m) n f (BErr ZENIT_OK) m (fun i => f i && bool_decide (i < 8 * bytes_needed m))
| bs_no_memory op n f : (match op with BSet _ | BClear _ | BToggle _ | BResize _ => True | _ => False end) ->
    bit_step op n f (BErr ZENIT_ERROR_ALLOC) n f.

Definition bit_exec {C : Type} (fuel : nat) (op : bit_op) (bs : zenit_bitset_t C) (c : C)
    : outcome (bit_res * option (zenit_bitset_t C) * C) :=
  match op with
  | BSet p => let! (r, b, c) := zenit_bitset_set fuel (Some bs) p c in Ret (BErr r, b, c)
  | BClear p => let! (r, b, c) := zenit_bitset_clear fuel (Some bs) p c in Ret (BErr r, b, c)
  | BToggle p => let! (r, b, c) := zenit_bitset_toggle fuel (Some bs) p c in Ret (BErr r, b, c)
  | BTest p => let! v := zenit_bitset_test (Some bs) p in Ret (BNum v, Some bs, c)
  | BSetAll => let! (r, b) := zenit_bitset_set_all (Some bs) in Ret (BErr r, b, c)
  | BClearAll => let! (r, b) := zenit_bitset_clear_all (Some bs) in Ret (BErr r, b, c)
  | BCount => let! v := zenit_bitset_count (Some bs) in Ret (BNum v, Some bs, c)
  | BCapacity => Ret (BNum (zenit_bitset_capacity (Some bs)), Some bs, c)
  | BResize n => let! (r, b, c) := zenit_bitset_resize (Some bs) n c in Ret (BErr r, b, c)
  end.

(** Positions and sizes far enough from the top of [size_t] that neither the
    doubling nor the rounding to bytes wraps. *)
Definition bit_pre (op : bit_op) : Prop :=
  match op with
  | BSet p | BClear p | BToggle p => 0 <= p < 4611686018427387904
  | BTest p => 0 <= p < two64
  | BResize n => 0 <= n <= two64 - 8
  | _ => True
  end.

Fixpoint bit_run {C : Type} (fuel : nat) (ops : list bit_op) (bs : zenit_bitset_t C) (c : C)
    : outcome (list bit_res * zenit_bitset_t C * C) :=
  match ops with
  | [] => Ret ([], bs, c)
  | op :: ops =>
      let! (r, bs1, c1) := bit_exec fuel op bs c in
      match bs1 with
      | None => Undef
      | Some b => let! (rs, b2, c2) := bit_run fuel ops b c1 in Ret (r :: rs, b2, c2)
      end
  end.

Inductive bit_trace : Z -> (Z -> bool) -> list bit_op -> list bit_res -> Prop :=
| bt_nil n f : bit_trace n f [] []
| bt_step n f op ops r rs n' f' :
    bit_step op n f r n' f' -> bit_trace n' f' ops rs -> bit_trace n f (op :: ops) (r :: rs).

(** ** Bytes and bits *)

Lemma bytes_needed_spec n : 0 <= n <= two64 - 8 ->
  bytes_needed n = Z.max 1 ((n + 7) / 8) /\ n <= 8 * bytes_needed n /\ 1 <= bytes_needed n <= 2305843009213693951.
Proof.
  intros Hn. unfold bytes_needed. rewrite u64_small by lia.
  pose proof (Z.div_mod (n + 7) 8 ltac:(lia)). pose proof (Z.mod_pos_bound (n + 7) 8 ltac:(lia)).
  case_decide; lia.
Qed.

Lemma bit_at_beyond data i : 8 * zlen data <= i -> bit_at data i = false.
Proof.
  intros Hi. unfold bit_at. pose proof (zlen_nonneg data).
  rewrite nth_overflow; [apply Z.bits_0|]. unfold zlen in Hi.
  assert (Z.of_nat (length data) <= i / 8) by (apply Z.div_le_lower_bound; lia). lia.
Qed.

Lemma bit_at_insert data p v i :
  0 <= p -> p / 8 < zlen data -> 0 <= i ->
  bit_at (<[Z.to_nat (p / 8) := v]> data) i =
    if decide (i / 8 = p / 8) then Z.testbit v (i mod 8) else bit_at data i.
Proof.
  intros Hp Hl Hi. unfold bit_at. rewrite !nth_lookup.
  pose proof (Z.div_pos p 8). pose proof (Z.div_pos i 8). case_decide as D.
  - rewrite D, list_lookup_insert_eq; [done|]. unfold zlen in Hl. lia.
  - rewrite list_lookup_insert_ne by lia. done.
Qed.

Lemma bit_at_app_zeros data k i : bit_at (data ++ replicate k 0) i = bit_at data i.
Proof.
  unfold bit_at. f_equal. destruct (decide (Z.to_nat (i / 8) < length data)%nat).
  - by rewrite app_nth1.
  - rewrite app_nth2, (nth_overflow data) by lia. rewrite nth_lookup.
    destruct (replicate k 0 !! _) as [v|] eqn:E; [|done]. by apply lookup_replicate in E as [-> _].
Qed.

Lemma bit_at_take data m i : 0 <= i -> 0 <= m ->
  bit_at (take (Z.to_nat m) data) i = bit_at data i && bool_decide (i < 8 * m).
Proof.
  intros Hi Hm. unfold bit_at. rewrite !nth_lookup. pose proof (Z.div_mod i 8 ltac:(lia)).
  pose proof (Z.mod_pos_bound i 8 ltac:(lia)). pose proof (Z.div_pos i 8). case_bool_decide.
  - rewrite lookup_take_lt by lia. by rewrite andb_true_r.
  - rewrite lookup_take_ge by lia. simpl. by rewrite Z.bits_0, andb_false_r.
Qed.

(** The bit a byte operation leaves at its own and at the other positions. *)
Lemma u8_bits v k : 0 <= k < 8 -> Z.testbit (u8 v) k = Z.testbit v k.
Proof. intros Hk. unfold u8. change 256 with (2 ^ 8). apply Z.mod_pow2_bits_low. lia. Qed.

Lemma shift1_bits b k : 0 <= b -> 0 <= k -> Z.testbit (Z.shiftl 1 b) k = bool_decide (k = b).
Proof.
  intros Hb Hk. rewrite Z.shiftl_spec by done. case_bool_decide as D.
  - subst. by rewrite Z.sub_diag.
  - destruct (decide (k < b)); [by apply Z.testbit_neg_r; lia|]. apply Z.bits_above_log2; simpl; lia.
Qed.

(** What the three masks do to the bits of a byte. *)
Definition byte_fun (op : bit_op) (v bit : Z) : Z :=
  match op with
  | BSet _ => Z.lor v (u8 (Z.shiftl 1 bit))
  | BClear _ => Z.land v (u8 (Z.lnot (Z.shiftl 1 bit)))
  | BToggle _ => Z.lxor v (u8 (Z.shiftl 1 bit))
  | _ => v
  end.

Lemma byte_fun_bits op v b k : 0 <= b < 8 -> 0 <= k < 8 ->
  Z.testbit (u8 (byte_fun op v b)) k = if decide (k = b) then new_bit op (Z.testbit v k) else Z.testbit v k.
Proof.
  intros Hb Hk. rewrite u8_bits by done.
  destruct op; simpl; rewrite ?Z.lor_spec, ?Z.land_spec, ?Z.lxor_spec, ?u8_bits, ?Z.lnot_spec, ?shift1_bits by lia;
    try (by case_decide); case_decide as D.
  1,3,5: rewrite bool_decide_eq_true_2 by done; by destruct (Z.testbit v k).
  all: rewrite bool_decide_eq_false_2 by done; by destruct (Z.testbit v k).
Qed.

(** ** Counting *)

Lemma ones_ext f g m : (forall i, 0 <= i < m -> f i = g i) -> ones f m = ones g m.
Proof.
  intros H. unfold ones. assert (forall l, Forall (fun i => f i = g i) l ->
    foldr (fun i n => Z.b2z (f i) + n) 0 l = foldr (fun i n => Z.b2z (g i) + n) 0 l) as K.
  { intros l F. induction F as [|i l E _ IH]; [done|]. simpl. by rewrite E, IH. }
  apply K, list.Forall_forall. intros i Hi%elem_of_seqZ. apply H. lia.
Qed.

Lemma ones_add (f : Z -> bool) l1 l2 : foldr (fun i n => Z.b2z (f i) + n) 0 (l1 ++ l2)
  = foldr (fun i n => Z.b2z (f i) + n) 0 l1 + foldr (fun i n => Z.b2z (f i) + n) 0 l2.
Proof. induction l1 as [|i l1 IH]; [done|]. simpl. rewrite IH. lia. Qed.

Lemma ones_byte data k : 0 <= k < zlen data ->
  ones (bit_at data) (8 * (k + 1)) = ones (bit_at data) (8 * k) + popcount (nth (Z.to_nat k) data 0).
Proof.
  intros Hk. unfold ones. replace (8 * (k + 1)) with (8 * k + 8) by lia.
  rewrite seqZ_app by lia. rewrite ones_add. f_equal. rewrite Z.add_0_l. unfold popcount.
  assert (forall b, 0 <= b < 8 -> bit_at data (8 * k + b) = Z.testbit (nth (Z.to_nat k) data 0) b) as B.
  { intros b Hb. unfold bit_at.
    replace ((8 * k + b) / 8) with k by (apply (Z.div_unique_pos _ _ _ b); lia).
    by replace ((8 * k + b) mod 8) with b by (apply (Z.mod_unique_pos _ _ k); lia). }
  replace (seqZ (8 * k) 8) with ((fun b => 8 * k + b) <$> seqZ 0 8) by (rewrite fmap_add_seqZ; f_equal; lia).
  assert (Forall (fun b => 0 <= b < 8) (seqZ 0 8)) as F by (apply list.Forall_forall; intros b Hb%elem_of_seqZ; lia).
  induction F as [|b l Hb _ IH]; [done|]. rewrite fmap_cons. cbn [foldr]. rewrite B by done. by f_equal.
Qed.

Lemma ones_range f m : 0 <= m -> 0 <= ones f m <= m.
Proof.
  intros Hm. unfold ones. assert (forall l, 0 <= foldr (fun i n => Z.b2z (f i) + n) 0 l <= zlen l) as K.
  { intros l. induction l as [|i l IH]; [done|]. rewrite zlen_cons. simpl. destruct (f i); simpl; lia. }
  specialize (K (seqZ 0 m)). unfold zlen in K. rewrite length_seqZ in K. lia.
Qed.

Lemma count_loop_spec bits : bits <> None -> forall n i count,
  Z.of_nat n + i = zlen (pbytes bits) -> 0 <= i -> zlen (pbytes bits) <= PTRDIFF_MAX / 4 ->
  count = ones (bit_at (pbytes bits)) (8 * i) ->
  count_loop n i bits count = Ret (ones (bit_at (pbytes bits)) (8 * zlen (pbytes bits))).
Proof.
  intros Hb. induction n as [|n IH]; intros i count E Hi Hm ->; cbn [count_loop].
  - by replace i with (zlen (pbytes bits)) by lia.
  - destruct (aget_range (pbytes bits) i) as (v & Ev & _); [lia|].
    rewrite (pget_lookup bits i v) by done. cbn [obind].
    assert (nth (Z.to_nat i) (pbytes bits) 0 = v) as En by (by rewrite nth_lookup, Ev).
    pose proof (ones_byte (pbytes bits) i ltac:(lia)) as Eo. rewrite En in Eo.
    pose proof (ones_range (bit_at (pbytes bits)) (8 * (i + 1)) ltac:(lia)).
    change (PTRDIFF_MAX / 4) with 2305843009213693951 in Hm.
    rewrite u64_small by lia. apply IH; try done; lia.
Qed.

(** ** Operations *)

Section BitsetProofs.
Context {C : Type} (a : zenit_allocator_t C) {SP : AllocSpec a}.
Implicit Types (bs : zenit_bitset_t C) (c : C).

(** A failed request leaves the set as it was. *)
Lemma bitset_rep_live bs n f c c' : bitset_rep a bs n f c -> live c' = live c -> bitset_rep a bs n f c'.
Proof. intros [] E. split; try done. by rewrite E. Qed.

Lemma bitset_rep_ext bs n f g c : bitset_rep a bs n f c -> (forall i, 0 <= i -> g i = f i) -> bitset_rep a bs n g c.
Proof. intros [] E. split; try done. intros i Hi. rewrite E; auto. Qed.

Lemma bit_beyond bs n f c i : bitset_rep a bs n f c -> 8 * bytes_needed n <= i -> f i = false.
Proof.
  intros [_ _ _ Hn _ L V _ _] Hi. pose proof (bytes_needed_spec n Hn). rewrite V by lia.
  apply bit_at_beyond. by rewrite L.
Qed.

(** The bytes of a resized block: a prefix, or everything followed by zeros. *)
Lemma resized_bits old new m x :
  zlen new = m -> 1 <= m <= PTRDIFF_MAX -> take (length old) new = take (Z.to_nat m) old ->
  zlen old <= PTRDIFF_MAX ->
  exists bits, (if decide (zlen old < m) then pmemset (Some (Block x new)) (zlen old) 0 (u64 (m - zlen old))
                else Ret (Some (Block x new))) = Ret (Some (Block x bits)) /\ zlen bits = m /\
    forall i, 0 <= i -> bit_at bits i = bit_at old i && bool_decide (i < 8 * m).
Proof.
  intros L Hm E Ho. pose proof (zlen_nonneg old). case_decide as D.
  - rewrite u64_small by lia. unfold pmemset. rewrite decide_True by lia.
    rewrite (take_ge old) in E by (unfold zlen in *; lia).
    assert (new = old ++ drop (length old) new ++ []) as En by (rewrite app_nil_r, <- E at 1; by rewrite take_drop).
    exists (old ++ replicate (Z.to_nat (m - zlen old)) 0). split_and!; try done.
    + simpl. rewrite En, wr_app by (rewrite ?zlen_replicate, ?zlen_drop; unfold zlen in *; lia).
      simpl. by rewrite app_nil_r.
    + zl.
    + intros i Hi. rewrite bit_at_app_zeros. case_bool_decide; [by rewrite andb_true_r|].
      rewrite bit_at_beyond by lia. done.
  - rewrite (take_ge new) in E by (unfold zlen in *; lia). exists new. split_and!; try done.
    intros i Hi. rewrite E. apply bit_at_take; lia.
Qed.

Lemma resize_spec bs n f m c :
  bitset_rep a bs n f c -> 0 <= m <= two64 - 8 ->
  exists r bs' c', zenit_bitset_resize (Some bs) m c = Ret (r, Some bs', c') /\
    transfer a (bits_own bs) (bits_own bs') c c' /\
    ((r = ZENIT_OK /\ bitset_rep a bs' m (fun i => f i && bool_decide (i < 8 * bytes_needed m)) c') \/
     (r = ZENIT_ERROR_ALLOC /\ bs' = bs /\ bitset_rep a bs n f c')).
Proof.
  intros H Hm. pose proof H as [Ha Hb Hn Rn Hy Hl Hv Hs Hlv]. pose proof (bytes_needed_spec m Hm) as (_ & _ & Bm).
  pose proof (bytes_needed_spec n Rn) as (_ & _ & Bn). unfold zenit_bitset_resize. rewrite Ha, Hy.
  destruct (realloc_cases a (bs_bits bs) (bytes_needed n) (bytes_needed m) c) as (r & c' & -> & P);
    [unfold bits_own in Hlv; set_solver|done|lia|]. cbn [obind]. destruct r as [[x new]|].
  - destruct P as (P1 & P2 & P3 & P4 & P5). simpl in *.
    destruct (resized_bits (pbytes (bs_bits bs)) new (bytes_needed m) x) as (bits & E & Lb & Vb);
      [done|lia|done|lia|]. rewrite Hl in E. rewrite E. cbn [obind].
    eexists _, _, _. split; [done|]. unfold bits_own in Hlv |- *. simpl.
    assert (transfer a ({[bs_self bs]} ∪ pown (bs_bits bs)) {[bs_self bs; x]} c c') as T.
    { split; rewrite P5; [set_solver|]. apply set_eq. intros y. destruct (decide (y = x)); set_solver. }
    split; [done|]. left. split; [done|]. split; simpl; try done.
    + intros i Hi. by rewrite Vb, Hv.
    + rewrite elem_of_singleton. intros Eq. apply P4. rewrite <- Eq. set_solver.
    + apply T.
  - eexists _, _, _. split; [done|]. split; [split; rewrite P; [done|set_solver]|]. right.
    do 2 (split; [done|]). by eapply bitset_rep_live.
Qed.

Lemma cap_loop_spec needed : 0 < needed <= 4611686018427387904 -> forall fuel cap,
  0 < cap -> cap <= Z.max 64 (2 * needed) -> needed <= cap * 2 ^ Z.of_nat fuel ->
  exists r, cap_loop fuel cap needed = Ret r /\ needed <= r <= Z.max cap (Z.max 64 (2 * needed)) /\ cap <= r.
Proof.
  intros Hn. induction fuel as [|fuel IH]; intros cap Hc Hm Hf; cbn [cap_loop]; case_decide as D; try lia;
    try (exists cap; split; [done|lia]).
  - rewrite (decide_False (P := cap = 0)) by lia. unfold BITSET_GROWTH_FACTOR. rewrite u64_small by lia.
    destruct (IH (cap * 2)) as (r & -> & Hr); [lia|lia| |exists r; split; [done|lia]].
    rewrite Nat2Z.inj_succ, Z.pow_succ_r in Hf by lia. lia.
Qed.

Lemma ensure_spec fuel bs n f p c :
  bitset_rep a bs n f c -> 0 <= p < 4611686018427387904 -> (64 <= fuel)%nat ->
  exists r bs' c' n', ensure_capacity fuel bs p c = Ret (r, Some bs', c') /\
    transfer a (bits_own bs) (bits_own bs') c c' /\
    ((r = ZENIT_OK /\ bitset_rep a bs' n' f c' /\ p < n' /\ (p < n -> n' = n) /\
        n <= n' <= Z.max n (Z.max 64 (2 * (p + 1)))) \/
     (r = ZENIT_ERROR_ALLOC /\ bs' = bs /\ bitset_rep a bs n f c')).
Proof.
  intros H Hp Hf. pose proof H as [_ _ Hn Rn _ _ _ _ Hlv]. unfold ensure_capacity.
  rewrite u64_small, Hn by lia. case_decide as D.
  { exists ZENIT_OK, bs, c, n. split; [done|]. split; [by apply transfer_refl|]. left. split_and!; try done; lia. }
  assert (exists r, cap_loop fuel n (p + 1) = Ret r /\ p + 1 <= r <= Z.max 64 (2 * (p + 1)) /\ n <= r)
    as (r & -> & Hr & Hnr).
  { destruct fuel as [|fuel]; [lia|]. assert (2 ^ 63 <= 2 ^ Z.of_nat fuel) by (apply Z.pow_le_mono_r; lia).
    destruct (decide (n = 0)) as [->|].
    - cbn [cap_loop]. rewrite decide_True, (decide_True (P := 0 = 0)) by lia.
      destruct (cap_loop_spec (p + 1) ltac:(lia) fuel 64) as (r & -> & Hr); [lia|lia|nia|].
      exists r. split; [done|lia].
    - destruct (cap_loop_spec (p + 1) ltac:(lia) (S fuel) n) as (r & -> & Hr); [lia|lia| |exists r; split; [done|lia]].
      rewrite Nat2Z.inj_succ, Z.pow_succ_r by lia. nia. }
  cbn [obind]. destruct (resize_spec bs n f r c H) as (e & bs' & c' & -> & T & [[-> R]|[-> [-> R]]]); [lia| |].
  - exists ZENIT_OK, bs', c', r. split; [done|]. split; [done|]. left. split; [done|]. split; [|lia].
    eapply bitset_rep_ext; [exact R|]. intros i Hi. simpl. case_bool_decide; [by rewrite andb_true_r|].
    assert (bytes_needed n <= bytes_needed r).
    { rewrite (proj1 (bytes_needed_spec n Rn)), (proj1 (bytes_needed_spec r ltac:(lia))).
      assert ((n + 7) / 8 <= (r + 7) / 8) by (apply Z.div_le_mono; lia). lia. }
    rewrite (bit_beyond bs n f c) by (done || lia). done.
  - exists ZENIT_ERROR_ALLOC, bs, c', n. split; [done|]. split; [done|]. by right.
Qed.

Lemma update_spec op fuel bs n f p c :
  bitset_rep a bs n f c -> 0 <= p < 4611686018427387904 -> (64 <= fuel)%nat ->
  exists r bs' c' n', update_bit (byte_fun op) fuel (Some bs) p c = Ret (r, Some bs', c') /\
    transfer a (bits_own bs) (bits_own bs') c c' /\
    ((r = ZENIT_OK /\ bitset_rep a bs' n' (put_bit f p (new_bit op (f p))) c' /\ p < n' /\ (p < n -> n' = n) /\
        n <= n' <= Z.max n (Z.max 64 (2 * (p + 1)))) \/
     (r = ZENIT_ERROR_ALLOC /\ bitset_rep a bs' n f c')).
Proof.
  intros H Hp Hf. unfold update_bit.
  destruct (ensure_spec fuel bs n f p c H Hp Hf) as (r & b1 & c1 & n' & -> & T & [(-> & R & Hn')|(-> & -> & R)]);
    cbn [obind].
  2:{ rewrite decide_True by done. exists ZENIT_ERROR_ALLOC, bs, c1, n. split; [done|]. split; [done|]. by right. }
  rewrite decide_False by (by intros ?). pose proof R as [Ra Rb Rn Rr Ry Rl Rv Rs Rlv].
  pose proof (bytes_needed_spec n' Rr) as (_ & Bn & _).
  assert (0 <= p / 8 < zlen (pbytes (bs_bits b1))) as Hb
    by (rewrite Rl; split; [apply Z.div_pos; lia|apply Z.div_lt_upper_bound; lia]).
  pose proof (Z.mod_pos_bound p 8 ltac:(lia)) as Hk. rewrite u8_small by lia.
  destruct (aget_range _ _ Hb) as (v & Ev & _). rewrite (pget_lookup _ _ v) by (done || lia). cbn [obind].
  destruct (pset_range (bs_bits b1) (p / 8) (u8 (byte_fun op v (p mod 8)))) as (bits & -> & Nb & Ob & Eb); [done|done|].
  cbn [obind]. exists ZENIT_OK, (upd_bits b1 bits), c1, n'. split; [done|].
  split; [unfold bits_own in *; simpl; by rewrite Ob|]. left. split; [done|]. split; [|done].
  split; simpl; try done; try (by rewrite Ob).
  - by rewrite Eb, zlen_insert.
  - intros i Hi. rewrite Eb, bit_at_insert by lia. unfold put_bit.
    assert (forall j, j / 8 = p / 8 -> 0 <= j -> f j = Z.testbit v (j mod 8)) as Fv.
    { intros j Ej Hj. rewrite Rv by done. unfold bit_at. by rewrite Ej, nth_lookup, Ev. }
    pose proof (Z.div_mod i 8 ltac:(lia)). pose proof (Z.div_mod p 8 ltac:(lia)).
    pose proof (Z.mod_pos_bound i 8 ltac:(lia)). destruct (decide (i / 8 = p / 8)) as [E|E].
    + rewrite byte_fun_bits by lia. destruct (decide (i = p)) as [->|].
      * rewrite decide_True by done. f_equal. by apply Fv; [|lia].
      * rewrite decide_False by lia. by apply Fv.
    + rewrite decide_False by congruence. by apply Rv.
  - unfold bits_own in *. simpl. by rewrite Ob.
Qed.

(** Overwriting every byte. *)
Lemma fill_spec bs n f c v g :
  bitset_rep a bs n f c -> 
  (forall i, 0 <= i -> g i = Z.testbit v (i mod 8) && bool_decide (i < 8 * bytes_needed n)) ->
  exists bits, pmemset (bs_bits bs) 0 v (bs_num_bytes bs) = Ret bits /\
    bits_own (upd_bits bs bits) = bits_own bs /\ bitset_rep a (upd_bits bs bits) n g c.
Proof.
  intros [Ha Hb Hn Rn Hy Hl Hv Hs Hlv] Hg. pose proof (bytes_needed_spec n Rn) as (_ & _ & Bb).
  unfold pmemset. rewrite Hy, decide_True by lia.
  destruct (pwr_wr (bs_bits bs) 0 (replicate (Z.to_nat (bytes_needed n)) v) (replicate (Z.to_nat (bytes_needed n)) v) Hb)
    as (bits & -> & Eb & Ob & _ & Nb); [apply wr_whole; zl|].
  exists bits. split; [done|]. assert (bits_own (upd_bits bs bits) = bits_own bs) as Eo by (unfold bits_own; simpl; by rewrite Ob).
  split; [done|]. split; simpl; try done; [rewrite Eb; zl| |by rewrite Ob|by rewrite Eo].
  intros i Hi. rewrite Hg by done. rewrite Eb. unfold bit_at. rewrite nth_lookup.
  pose proof (Z.div_mod i 8 ltac:(lia)). pose proof (Z.mod_pos_bound i 8 ltac:(lia)). pose proof (Z.div_pos i 8).
  case_bool_decide.
  - rewrite lookup_replicate_2 by lia. by rewrite andb_true_r.
  - rewrite lookup_ge_None_2 by (rewrite length_replicate; lia). simpl. by rewrite Z.bits_0, andb_false_r.
Qed.

Lemma test_spec bs n f p c : bitset_rep a bs n f c -> 0 <= p < two64 ->
  zenit_bitset_test (Some bs) p = Ret (if decide (p < n) then Z.b2z (f p) else 0).
Proof.
  intros [Ha Hb Hn Rn Hy Hl Hv Hs Hlv] Hp. pose proof (bytes_needed_spec n Rn) as (_ & Bn & _).
  unfold zenit_bitset_test. rewrite Hn. case_decide; [by rewrite decide_False by lia|]. rewrite decide_True by lia.
  assert (0 <= p / 8 < zlen (pbytes (bs_bits bs))) as Hi
    by (rewrite Hl; split; [apply Z.div_pos; lia|apply Z.div_lt_upper_bound; lia]).
  destruct (aget_range _ _ Hi) as (v & Ev & _). rewrite (pget_lookup _ _ v) by (done || lia). cbn [obind].
  pose proof (Z.mod_pos_bound p 8 ltac:(lia)). rewrite u8_small by lia. f_equal.
  rewrite Hv by lia. unfold bit_at. rewrite nth_lookup, Ev. simpl.
  change 1 with (Z.ones 1). rewrite Z.land_ones, Z.pow_1_r by lia. rewrite Z.testbit_spec' by lia.
  by rewrite Z.shiftr_div_pow2 by lia.
Qed.

Lemma bit_exec_spec fuel op bs n f c :
  bitset_rep a bs n f c -> bit_pre op -> (64 <= fuel)%nat ->
  exists r bs' c' n' f', bit_exec fuel op bs c = Ret (r, Some bs', c') /\
    transfer a (bits_own bs) (bits_own bs') c c' /\ bitset_rep a bs' n' f' c' /\ bit_step op n f r n' f'.
Proof.
  intros H Hp Hf. pose proof H as [Ha Hb Hn Rn Hy Hl Hv Hs Hlv]. pose proof (bytes_needed_spec n Rn) as (_ & _ & Bb).
  assert (transfer a (bits_own bs) (bits_own bs) c c) as T0 by (by apply transfer_refl).
  destruct op as [p|p|p|p| | | | |m]; simpl in Hp; unfold bit_exec.
  1,2,3: match goal with |- context [bit_step ?op] =>
      destruct (update_spec op fuel bs n f p c H Hp Hf) as (r & bs' & c' & n' & E & T & [(-> & R & Q)|(-> & R)]) end;
    [eexists _, bs', c', n', _|eexists _, bs', c', n, f];
    (split; [unfold zenit_bitset_set, zenit_bitset_clear, zenit_bitset_toggle; unfold byte_fun in E; by rewrite E|]);
    (split; [done|]); (split; [exact R|]); [apply bs_update; tauto|by apply bs_no_memory].
  - rewrite (test_spec bs n f p c) by done. cbn [obind]. eexists _, bs, c, n, f. split_and!; try done. apply bs_test.
  - destruct (fill_spec bs n f c 255 (fun i => bool_decide (i < 8 * bytes_needed n)) H) as (bits & E & Eo & R).
    { intros i Hi. pose proof (Z.mod_pos_bound i 8 ltac:(lia)). change 255 with (Z.ones 8).
      by rewrite Z.ones_spec_low by lia. }
    unfold zenit_bitset_set_all. rewrite E. cbn [obind]. eexists _, _, c, n, _. split; [done|]. rewrite Eo.
    split; [done|]. split; [exact R|]. apply bs_set_all.
  - destruct (fill_spec bs n f c 0 (fun _ => false) H) as (bits & E & Eo & R).
    { intros i Hi. by rewrite Z.bits_0. }
    unfold zenit_bitset_clear_all. rewrite E. cbn [obind]. eexists _, _, c, n, _. split; [done|]. rewrite Eo.
    split; [done|]. split; [exact R|]. apply bs_clear_all.
  - unfold zenit_bitset_count. rewrite (count_loop_spec _ Hb _ 0 0); [|rewrite Hy, Hl; lia|done|rewrite Hl; transitivity 2305843009213693951; [apply Bb|done]|done]. cbn [obind].
    eexists _, bs, c, n, f. split_and!; try done. rewrite Hl.
    rewrite <- (ones_ext f) by (intros i Hi; apply Hv; lia). apply bs_count.
  - eexists _, bs, c, n, f. split_and!; try done. simpl. rewrite Hn. apply bs_capacity.
  - destruct (resize_spec bs n f m c H Hp) as (r & bs' & c' & -> & T & [[-> R]|[-> [-> R]]]); cbn [obind].
    + eexists _, bs', c', m, _. split; [done|]. split; [done|]. split; [exact R|]. apply bs_resize.
    + eexists _, bs, c', n, f. split_and!; try done. by apply bs_no_memory.
Qed.

Lemma bit_run_spec fuel ops : (64 <= fuel)%nat -> Forall bit_pre ops -> forall bs n f c,
  bitset_rep a bs n f c ->
  exists rs bs' c' n' f', bit_run fuel ops bs c = Ret (rs, bs', c') /\ bitset_rep a bs' n' f' c' /\
    transfer a (bits_own bs) (bits_own bs') c c' /\ bit_trace n f ops rs.
Proof.
  intros Hf Ho. induction Ho as [|op ops Hop _ IH]; intros bs n f c H; cbn [bit_run].
  - exists [], bs, c, n, f. split_and!; try done; [apply transfer_refl, H|constructor].
  - destruct (bit_exec_spec fuel op bs n f c H Hop Hf) as (r & b1 & c1 & n1 & f1 & -> & T & R & S). cbn [obind].
    destruct (IH b1 n1 f1 c1 R) as (rs & b2 & c2 & n2 & f2 & -> & R2 & T2 & S2). cbn [obind].
    exists (r :: rs), b2, c2, n2, f2. split_and!; try done; [by eapply transfer_trans|by econstructor].
Qed.

Lemma bitset_create_spec m c : 0 <= m <= two64 - 8 ->
  exists r c', zenit_bitset_create_with_allocator m a c = Ret (r, c') /\
    match r with
    | Some bs => bitset_rep a bs m (fun _ => false) c' /\ transfer a ∅ (bits_own bs) c c'
    | None => live c' = live c
    end.
Proof.
  intros Hm. pose proof (bytes_needed_spec m Hm) as (_ & _ & Bm). unfold zenit_bitset_create_with_allocator.
  destruct (alloc_fn a SIZEOF_BITSET c) as [[h|] c1] eqn:E.
  2:{ exists None, c1. split; [done|]. by eapply alloc_none. }
  apply alloc_some in E as (_ & _ & Hf & Hl).
  destruct (alloc_zero_cases a 1 (bytes_needed m) c1) as (r & c2 & -> & P); [lia|]. cbn [obind].
  destruct r as [b|].
  - destruct P as (Pd & _ & Pf & Pl). eexists (Some _), c2. split; [done|].
    unfold bits_own. simpl. split; [|split; rewrite Pl, Hl; set_solver].
    split; simpl; try done.
    + rewrite Pd, zlen_replicate. lia.
    + intros i Hi. rewrite Pd. rewrite <- (app_nil_l (replicate _ 0)), bit_at_app_zeros.
      symmetry. apply bit_at_beyond. change (zlen (@nil Z)) with 0. lia.
    + rewrite elem_of_singleton. intros Eq. apply Pf. rewrite <- Eq, Hl. set_solver.
    + unfold bits_own. simpl. rewrite Pl, Hl. set_solver.
  - exists None, (free_fn a (Some (b_addr h)) c2). split; [done|].
    rewrite free_some by (rewrite P, Hl; set_solver). rewrite P, Hl. set_solver.
Qed.


(** [zenit_bitset_set_all] also sets the bits beyond the usable ones, so that
    [zenit_bitset_count] then reports more ones than the set has bits whenever its
    size is not a multiple of eight. *)
Theorem bitset_set_all_overcounts (bs : zenit_bitset_t C) (n : Z) (f : Z -> bool) (c : C)
  (H : bitset_rep a bs n f c) (Hn : n mod 8 <> 0) :
  exists bs' v, zenit_bitset_set_all (Some bs) = Ret (ZENIT_OK, Some bs') /\
    zenit_bitset_count (Some bs') = Ret v /\ zenit_bitset_capacity (Some bs') < v.
Proof.
  pose proof (br_n _ _ _ _ _ H) as Rn. pose proof (bytes_needed_spec n Rn) as (_ & Bn & Bb).
  destruct (bit_exec_spec 64 BSetAll bs n f c H I ltac:(lia)) as (r & bs1 & c1 & n1 & f1 & E1 & _ & R1 & S1).
  inversion S1; subst; try naive_solver. unfold bit_exec in E1.
  destruct (zenit_bitset_set_all (Some bs)) as [[e b]| |]; [|done|done]. cbn [obind] in E1. injection E1 as <- -> <-.
  destruct (bit_exec_spec 64 BCount bs1 n1 _ c R1 I ltac:(lia)) as (r2 & bs2 & c2 & n2 & f2 & E2 & _ & R2 & S2).
  inversion S2; subst; try naive_solver. unfold bit_exec in E2.
  destruct (zenit_bitset_count (Some bs1)) as [v| |] eqn:Ec; [|done|done]. cbn [obind] in E2. injection E2 as -> <- <-.
  eexists bs1, _. split; [done|]. split; [exact Ec|]. simpl. rewrite (br_bits _ _ _ _ _ R1).
  assert (ones (fun i => bool_decide (i < 8 * bytes_needed n2)) (8 * bytes_needed n2) = 8 * bytes_needed n2) as ->.
  { rewrite (ones_ext _ (fun _ => true)) by (intros i Hi; apply bool_decide_eq_true_2; lia).
    unfold ones. assert (forall l, foldr (fun (_ : Z) k => Z.b2z true + k) 0 l = zlen l) as ->.
    { induction l as [|x l IH]; [done|]. cbn [foldr]. rewrite IH, zlen_cons. done. }
    unfold zlen. rewrite length_seqZ. lia. }
  assert (n2 <> 8 * bytes_needed n2); [|lia]. intros E. apply Hn. rewrite E, Z.mul_comm. by apply Z.mod_mul.
Qed.

(** Setting the bit at position [SIZE_MAX] is undefined: the wrapped size passes
    for one that needs no growth, and the byte written is outside the block. *)
Theorem bitset_size_max_undefined (bs : zenit_bitset_t C) (n : Z) (f : Z -> bool) (fuel : nat) (c : C)
  (H : bitset_rep a bs n f c) :
  zenit_bitset_set fuel (Some bs) SIZE_MAX c = Undef.
Proof.
  destruct H as [Ha Hb Hn Rn Hy Hl Hv Hs Hlv]. pose proof (bytes_needed_spec n Rn) as (Em & _ & Bb).
  unfold zenit_bitset_set, update_bit, ensure_capacity. change (u64 (SIZE_MAX + 1)) with 0.
  rewrite Hn, decide_True by lia. cbn [obind]. rewrite decide_False by (by intros ?).
  destruct (bs_bits bs) as [b|]; [|done]. simpl pget. unfold aget. change (SIZE_MAX / 8) with 2305843009213693951.
  rewrite decide_True by lia. rewrite lookup_ge_None_2; [done|]. simpl in Hl.
  apply Nat2Z.inj_le. rewrite Z2Nat.id by lia. fold (zlen (b_data b)). lia.
Qed.
End BitsetProofs.

(** ** Concrete runs *)

Definition wit_bit_ops : list bit_op := [BSet 3; BTest 3; BSet 100; BToggle 3; BCount; BResize 4; BCapacity].


Definition wit_bitset : zenit_bitset_t heap :=
  mk_bitset 2%positive (Some (Block 3%positive [0; 0])) 2 10 ZENIT_ALLOCATOR_DEFAULT.
Definition wit_bitset_heap : heap := mk_heap {[ 2%positive; 3%positive ]} [].

Lemma wit_bitset_rep : bitset_rep ZENIT_ALLOCATOR_DEFAULT wit_bitset 10 (fun _ => false) wit_bitset_heap.
Proof.
  split; try done; simpl; try lia.
  - intros i Hi. unfold bit_at. destruct (Z.to_nat (i / 8)) as [|[|[|k]]]; simpl; by rewrite Z.bits_0.
Qed.

Lemma bitset_set_all_overcounts_witness :
  exists bs' v, zenit_bitset_set_all (Some wit_bitset) = Ret (ZENIT_OK, Some bs') /\
    zenit_bitset_count (Some bs') = Ret v /\ zenit_bitset_capacity (Some bs') < v.
Proof.
  refine (bitset_set_all_overcounts ZENIT_ALLOCATOR_DEFAULT wit_bitset 10 (fun _ => false) wit_bitset_heap wit_bitset_rep _).
  done.
Defined.

Lemma bitset_size_max_undefined_witness :
  zenit_bitset_set 64 (Some wit_bitset) SIZE_MAX wit_bitset_heap = Undef.
Proof.
  exact (bitset_size_max_undefined ZENIT_ALLOCATOR_DEFAULT wit_bitset 10 (fun _ => false) 64 wit_bitset_heap wit_bitset_rep).
Defined.
