(* ===== verification/StateMachine.v ===== *)
(** * Table-driven state machines ([src/state.c])

    The transition table belongs to the caller.  A callback is a function on what
    [context] points to; it is given the event and both states.  A callback that
    calls back into the same machine is not modelled. *)

From Stdlib Require Import ZArith Lia.
From stdpp Require Import base tactics option list numbers gmap sets.
From S2P Require Import Prelude Mem Result Allocator.
Open Scope Z_scope.

Record zenit_state_transition_t (X : Type) : Type := mk_transition {
  from_state : Z;
  event_id : Z;
  to_state : Z;
  on_transition : option (Z -> Z -> Z -> X -> X) }.
Arguments mk_transition {X}.
Arguments from_state {X}.
Arguments event_id {X}.
Arguments to_state {X}.
Arguments on_transition {X}.

Record zenit_state_t (C X : Type) : Type := mk_state {
  st_self : addr;
  st_table : list (zenit_state_transition_t X);
  st_count : Z;
  st_current : Z;
  st_allocator : zenit_allocator_t C }.
Arguments mk_state {C X}.
Arguments st_self {C X}.
Arguments st_table {C X}.
Arguments st_count {C X}.
Arguments st_current {C X}.
Arguments st_allocator {C X}.

Definition SIZEOF_STATE : Z := 56.

Section StateModel.
Context {C X : Type}.
Implicit Types (m : zenit_state_t C X) (c : C) (a : zenit_allocator_t C) (context : X).

Definition set_current m (v : Z) : zenit_state_t C X :=
  mk_state (st_self m) (st_table m) (st_count m) v (st_allocator m).

Definition zenit_state_allocate_with_allocator (table : list (zenit_state_transition_t X))
    (count initial_state : Z) a c : option (zenit_state_t C X) * C :=
  match alloc_fn a SIZEOF_STATE c with
  | (None, c1) => (None, c1)
  | (Some h, c1) => (Some (mk_state (b_addr h) table count initial_state a), c1)
  end.

(** The scan of the table from rule [i], [n] rules left. *)
Fixpoint scan_rules (n : nat) (i : Z) m (from event : Z) context
    : outcome (zenit_error_t * zenit_state_t C X * X) :=
  match n with
  | O => Ret (ZENIT_ERROR_NOT_FOUND, m, context)
  | S n =>
      let! t := aget (st_table m) i in
      if decide (from_state t = from /\ event_id t = event) then
        let m1 := set_current m (to_state t) in
        let ctx := match on_transition t with
                   | Some f => f event from (to_state t) context
                   | None => context
                   end in
        Ret (ZENIT_OK, m1, ctx)
      else scan_rules n (u64 (i + 1)) m from event context
  end.

Definition zenit_state_process_event (state : option (zenit_state_t C X)) (event : Z) context
    : outcome (zenit_error_t * option (zenit_state_t C X) * X) :=
  match state with
  | None => Ret (ZENIT_ERROR_NULL, state, context)
  | Some m =>
      let! (r, m1, ctx) := scan_rules (Z.to_nat (st_count m)) 0 m (st_current m) event context in
      Ret (r, Some m1, ctx)
  end.

Definition zenit_state_current (state : option (zenit_state_t C X)) : Z :=
  match state with None => 0 | Some m => st_current m end.

Definition zenit_state_reset (state : option (zenit_state_t C X)) (new_state : Z)
    : zenit_error_t * option (zenit_state_t C X) :=
  match state with
  | None => (ZENIT_ERROR_NULL, state)
  | Some m => (ZENIT_OK, Some (set_current m new_state))
  end.

Definition zenit_state_deallocate (state : option (zenit_state_t C X)) c : C :=
  match state with None => c | Some m => free_fn (st_allocator m) (Some (st_self m)) c end.
End StateModel.

Definition zenit_state_allocate {X : Type} (table : list (zenit_state_transition_t X))
    (count initial_state : Z) (c : heap) : option (zenit_state_t heap X) * heap :=
  zenit_state_allocate_with_allocator table count initial_state ZENIT_ALLOCATOR_DEFAULT c.

(** ** Specification: a deterministic automaton

    The rule for a state and an event is the first of the table that has both. *)
Definition rule_for {X : Type} (table : list (zenit_state_transition_t X)) (q e : Z)
    : option (zenit_state_transition_t X) :=
  head (filter (fun t => from_state t = q /\ event_id t = e) table).

Definition fire {X : Type} (t : zenit_state_transition_t X) (q e : Z) (x : X) : X :=
  match on_transition t with Some f => f e q (to_state t) x | None => x end.

(** One event: the answer, the next state and the effect of the callback. *)
Definition delta {X : Type} (table : list (zenit_state_transition_t X)) (q : Z) (x : X) (e : Z)
    : zenit_error_t * Z * X :=
  match rule_for table q e with
  | Some t => (ZENIT_OK, to_state t, fire t q e x)
  | None => (ZENIT_ERROR_NOT_FOUND, q, x)
  end.

Fixpoint delta_run {X : Type} (table : list (zenit_state_transition_t X)) (q : Z) (x : X) (es : list Z)
    : list zenit_error_t * Z * X :=
  match es with
  | [] => ([], q, x)
  | e :: es =>
      let '(r, q1, x1) := delta table q x e in
      let '(rs, q2, x2) := delta_run table q1 x1 es in (r :: rs, q2, x2)
  end.

(** The machine fed with events. *)
Fixpoint state_run {C X : Type} (es : list Z) (m : option (zenit_state_t C X)) (x : X)
    : outcome (list zenit_error_t * option (zenit_state_t C X) * X) :=
  match es with
  | [] => Ret ([], m, x)
  | e :: es =>
      let! (r, m1, x1) := zenit_state_process_event m e x in
      let! (rs, m2, x2) := state_run es m1 x1 in
      Ret (r :: rs, m2, x2)
  end.

Section StateProofs.
Context {C X : Type}.
Implicit Types m : zenit_state_t C X.

Lemma scan_rules_spec m from e x : forall post pre,
  st_table m = pre ++ post -> zlen (st_table m) <= PTRDIFF_MAX ->
  scan_rules (length post) (zlen pre) m from e x =
    Ret (match rule_for post from e with
         | Some t => (ZENIT_OK, set_current m (to_state t), fire t from e x)
         | None => (ZENIT_ERROR_NOT_FOUND, m, x)
         end).
Proof.
  induction post as [|t post IH]; intros pre E Hm; [done|]. cbn [scan_rules length].
  rewrite (aget_lookup _ _ t); [|apply zlen_nonneg|].
  2:{ rewrite E. unfold zlen. rewrite Nat2Z.id. by apply list_lookup_middle. }
  cbn [obind]. unfold rule_for. rewrite filter_cons. case_decide as D; [done|].
  pose proof (f_equal zlen E) as L. rewrite zlen_app, zlen_cons in L. pose proof (zlen_nonneg post).
  pose proof (zlen_nonneg pre). rewrite u64_small by lia.
  replace (zlen pre + 1) with (zlen (pre ++ [t])) by zl. apply IH; [|done]. by rewrite <- app_assoc.
Qed.

Lemma process_event_spec m e x :
  st_count m = zlen (st_table m) -> zlen (st_table m) <= PTRDIFF_MAX ->
  zenit_state_process_event (Some m) e x =
    Ret (let '(r, q, y) := delta (st_table m) (st_current m) x e in (r, Some (set_current m q), y)).
Proof.
  intros Hc Hm. unfold zenit_state_process_event. rewrite Hc.
  replace (Z.to_nat (zlen (st_table m))) with (length (st_table m)) by (unfold zlen; lia).
  pose proof (scan_rules_spec m (st_current m) e x (st_table m) [] eq_refl Hm) as E.
  change (zlen []) with 0 in E. rewrite E. cbn [obind]. unfold delta.
  destruct (rule_for (st_table m) (st_current m) e); [done|]. by destruct m.
Qed.

(** A machine fed with any sequence of events is the deterministic automaton of
    its table: every event takes the first rule for the current state and the event,
    fires its callback exactly once with the event and both states, and answers
    [ZENIT_OK]; without a rule the machine and the context stay as they are and the
    answer is [ZENIT_ERROR_NOT_FOUND]; no rule outside the table is read. *)
Theorem state_machine_runs (m : zenit_state_t C X) (es : list Z) (x : X)
  (Hc : st_count m = zlen (st_table m)) (Hm : zlen (st_table m) <= PTRDIFF_MAX) :
  exists m', state_run es (Some m) x =
      Ret (let '(rs, _, y) := delta_run (st_table m) (st_current m) x es in (rs, Some m', y)) /\
    zenit_state_current (Some m') = (let '(_, q, _) := delta_run (st_table m) (st_current m) x es in q) /\
    st_table m' = st_table m.
Proof.
  revert m x Hc Hm. induction es as [|e es IH]; intros m x Hc Hm; [by exists m|].
  cbn [state_run delta_run]. rewrite process_event_spec by done.
  destruct (delta (st_table m) (st_current m) x e) as [[r q] y]. cbn [obind].
  destruct (IH (set_current m q) y Hc Hm) as (m' & -> & E1 & E2). simpl in E1, E2 |- *.
  exists m'. destruct (delta_run (st_table m) q y es) as [[rs q2] y2]. done.
Qed.
End StateProofs.

(** ** A concrete run: a turnstile that counts its passages *)

Definition wit_table : list (zenit_state_transition_t Z) :=
  [mk_transition 0 1 1 None; mk_transition 1 2 0 (Some (fun _ _ _ n => n + 1)); mk_transition 1 2 7 None].
Definition wit_machine : zenit_state_t heap Z := mk_state 2%positive wit_table 3 0 ZENIT_ALLOCATOR_DEFAULT.

Lemma state_machine_runs_witness :
  exists m', state_run [2; 1; 2; 1; 2] (Some wit_machine) 0 =
      Ret ([ZENIT_ERROR_NOT_FOUND; ZENIT_OK; ZENIT_OK; ZENIT_OK; ZENIT_OK], Some m', 2) /\
    zenit_state_current (Some m') = 0 /\ st_table m' = wit_table.
Proof.
  refine (state_machine_runs wit_machine [2; 1; 2; 1; 2] 0 _ _); [done|vm_compute; congruence].
Defined.
