(* ===== verification/Pool.v ===== *)
(** * Object pools ([src/pool.c])

    A block of [capacity] objects and a stack of the indices of the free ones.
    An object pointer is its distance from the start of the block.  The index array
    is a list of [size_t] values; what fresh memory holds before the first loop
    writes it is written as zeros, since nothing reads it. *)

From Stdlib Require Import ZArith Lia.
From stdpp Require Import base tactics option list numbers gmap sets.
From S2P Require Import Prelude Mem Result Allocator Text.
Open Scope Z_scope.

Record zenit_pool_t (C : Type) : Type := mk_pool {
  po_self : addr;
  po_buffer : option block;
  po_free_addr : addr;
  po_free_list : list Z;
  po_capacity : Z;
  po_object_size : Z;
  po_free_count : Z;
  po_allocator : zenit_allocator_t C }.
Arguments mk_pool {C}.
Arguments po_self {C}.
Arguments po_buffer {C}.
Arguments po_free_addr {C}.
Arguments po_free_list {C}.
Arguments po_capacity {C}.
Arguments po_object_size {C}.
Arguments po_free_count {C}.
Arguments po_allocator {C}.

Definition SIZEOF_POOL : Z := 72.
Definition SIZEOF_SIZE_T : Z := 8.

(** [for (i = 0; i < capacity; i++) free_list[i] = i], [n] turns left. *)
Fixpoint fill_free (n : nat) (i : Z) (free_list : list Z) : outcome (list Z) :=
  match n with
  | O => Ret free_list
  | S n => let! l := aset free_list i i in fill_free n (i + 1) l
  end.

(** The double-free scan: whether [slot] is among the first free entries. *)
Fixpoint is_free (n : nat) (i : Z) (free_list : list Z) (slot : Z) : outcome bool :=
  match n with
  | O => Ret false
  | S n =>
      let! v := aget free_list i in
      if decide (v = slot) then Ret true else is_free n (i + 1) free_list slot
  end.

Section PoolModel.
Context {C : Type}.
Implicit Types (p : zenit_pool_t C) (c : C) (a : zenit_allocator_t C).

Definition upd_free p (free_list : list Z) (free_count : Z) : zenit_pool_t C :=
  mk_pool (po_self p) (po_buffer p) (po_free_addr p) free_list (po_capacity p) (po_object_size p)
    free_count (po_allocator p).

Definition zenit_pool_create_with_allocator (object_size capacity : Z) a c
    : outcome (option (zenit_pool_t C) * C) :=
  if decide (object_size = 0 \/ capacity = 0) then Ret (None, c)
  else
    match alloc_fn a SIZEOF_POOL c with
    | (None, c1) => Ret (None, c1)
    | (Some h, c1) =>
        let! (buffer, c2) := zenit_allocator_alloc_zero a capacity object_size c1 in
        match buffer with
        | None => Ret (None, free_fn a (Some (b_addr h)) c2)
        | Some b =>
            match alloc_fn a (u64 (capacity * SIZEOF_SIZE_T)) c2 with
            | (None, c3) => Ret (None, free_fn a (Some (b_addr h)) (free_fn a (Some (b_addr b)) c3))
            | (Some fb, c3) =>
                let words := replicate (Z.to_nat (zlen (b_data fb) / SIZEOF_SIZE_T)) 0 in
                let! free_list := fill_free (Z.to_nat capacity) 0 words in
                Ret (Some (mk_pool (b_addr h) buffer (b_addr fb) free_list capacity object_size capacity a), c3)
            end
        end
    end.

Definition zenit_pool_destroy (pool : option (zenit_pool_t C)) c : C :=
  match pool with
  | None => c
  | Some p =>
      let a := po_allocator p in
      let c1 := free_fn a (Some (po_free_addr p)) c in
      let c2 := free_fn a (paddr (po_buffer p)) c1 in
      free_fn a (Some (po_self p)) c2
  end.

(** The returned pointer is an offset into the buffer. *)
Definition zenit_pool_acquire (pool : option (zenit_pool_t C)) : outcome (option Z * option (zenit_pool_t C)) :=
  match pool with
  | None => Ret (None, pool)
  | Some p =>
      if decide (po_free_count p = 0) then Ret (None, pool)
      else
        let free_count := u64 (po_free_count p - 1) in
        let! slot := aget (po_free_list p) free_count in
        Ret (Some (u64 (slot * po_object_size p)), Some (upd_free p (po_free_list p) free_count))
  end.

(** [obj] is the distance of the pointer from the start of the buffer. *)
Definition zenit_pool_release (pool : option (zenit_pool_t C)) (obj : option Z)
    : outcome (zenit_error_t * option (zenit_pool_t C)) :=
  match pool, obj with
  | Some p, Some offset =>
      if decide (offset < 0 \/ u64 (po_capacity p * po_object_size p) <= u64 offset)
      then Ret (ZENIT_ERROR_PARAM, pool)
      else
        let! slot := udiv (u64 offset) (po_object_size p) in
        let! rest := umod (u64 offset) (po_object_size p) in
        if decide (rest <> 0) then Ret (ZENIT_ERROR_PARAM, pool)
        else
          let! dup := is_free (Z.to_nat (po_free_count p)) 0 (po_free_list p) slot in
          if dup : bool then Ret (ZENIT_ERROR_DOUBLE_FREE, pool)
          else
            let! free_list := aset (po_free_list p) (po_free_count p) slot in
            Ret (ZENIT_OK, Some (upd_free p free_list (u64 (po_free_count p + 1))))
  | _, _ => Ret (ZENIT_ERROR_NULL, pool)
  end.

Definition zenit_pool_count (pool : option (zenit_pool_t C)) : Z :=
  match pool with None => 0 | Some p => u64 (po_capacity p - po_free_count p) end.
Definition zenit_pool_capacity (pool : option (zenit_pool_t C)) : Z :=
  match pool with None => 0 | Some p => po_capacity p end.
Definition zenit_pool_available (pool : option (zenit_pool_t C)) : Z :=
  match pool with None => 0 | Some p => po_free_count p end.

Definition zenit_pool_clear (pool : option (zenit_pool_t C)) : outcome (option (zenit_pool_t C)) :=
  match pool with
  | None => Ret None
  | Some p =>
      let! free_list := fill_free (Z.to_nat (po_capacity p)) 0 (po_free_list p) in
      Ret (Some (upd_free p free_list (po_capacity p)))
  end.
End PoolModel.

Definition zenit_pool_create (object_size capacity : Z) (c : heap) : outcome (option (zenit_pool_t heap) * heap) :=
  zenit_pool_create_with_allocator object_size capacity ZENIT_ALLOCATOR_DEFAULT c.

(** ** Specification: the set of objects in use *)

Inductive pool_op : Type := OAcquire | ORelease (offset : Z) | OCount | OAvailable | OCapacity | OClear.

Inductive pool_res : Type := OPtr (offset : option Z) | OErr (e : zenit_error_t) | ONum (n : Z) | OVoid.

(** [pool_step size cap op used res used']: the calls on a pool of [cap] objects
    of [size] bytes with the objects [used] handed out. *)
Inductive pool_step (size cap : Z) : pool_op -> gset Z -> pool_res -> gset Z -> Prop :=
| ps_exhausted used : Z.of_nat (base.size used) = cap -> pool_step size cap OAcquire used (OPtr None) used
| ps_acquire used s : 0 <= s < cap -> s ∉ used ->
    pool_step size cap OAcquire used (OPtr (Some (s * size))) ({[ s ]} ∪ used)
| ps_outside used off : off < 0 \/ cap * size <= off ->
    pool_step size cap (ORelease off) used (OErr ZENIT_ERROR_PARAM) used
| ps_unaligned used off : 0 <= off < cap * size -> off mod size <> 0 ->
    pool_step size cap (ORelease off) used (OErr ZENIT_ERROR_PARAM) used
| ps_double used s : 0 <= s < cap -> s ∉ used ->
    pool_step size cap (ORelease (s * size)) used (OErr ZENIT_ERROR_DOUBLE_FREE) used
| ps_release used s : s ∈ used ->
    pool_step size cap (ORelease (s * size)) used (OErr ZENIT_OK) (used ∖ {[ s ]})
| ps_count used : pool_step size cap OCount used (ONum (Z.of_nat (base.size used))) used
| ps_available used : pool_step size cap OAvailable used (ONum (cap - Z.of_nat (base.size used))) used
| ps_capacity used : pool_step size cap OCapacity used (ONum cap) used
| ps_clear used : pool_step size cap OClear used OVoid ∅.

Definition pool_exec {C : Type} (op : pool_op) (p : zenit_pool_t C)
    : outcome (pool_res * option (zenit_pool_t C)) :=
  match op with
  | OAcquire => let! (r, p1) := zenit_pool_acquire (Some p) in Ret (OPtr r, p1)
  | ORelease off => let! (r, p1) := zenit_pool_release (Some p) (Some off) in Ret (OErr r, p1)
  | OCount => Ret (ONum (zenit_pool_count (Some p)), Some p)
  | OAvailable => Ret (ONum (zenit_pool_available (Some p)), Some p)
  | OCapacity => Ret (ONum (zenit_pool_capacity (Some p)), Some p)
  | OClear => let! p1 := zenit_pool_clear (Some p) in Ret (OVoid, p1)
  end.

Fixpoint pool_run {C : Type} (ops : list pool_op) (p : zenit_pool_t C)
    : outcome (list pool_res * zenit_pool_t C) :=
  match ops with
  | [] => Ret ([], p)
  | op :: ops =>
      let! (r, p1) := pool_exec op p in
      match p1 with
      | None => Undef
      | Some p1 => let! (rs, p2) := pool_run ops p1 in Ret (r :: rs, p2)
      end
  end.

Inductive pool_trace (size cap : Z) : gset Z -> list pool_op -> list pool_res -> Prop :=
| pt_nil used : pool_trace size cap used [] []
| pt_step used op ops r rs used' :
    pool_step size cap op used r used' -> pool_trace size cap used' ops rs ->
    pool_trace size cap used (op :: ops) (r :: rs).

(** Pointers are machine addresses: distances from the buffer fit [ptrdiff_t]. *)
Definition pool_pre (op : pool_op) : Prop :=
  match op with ORelease off => -9223372036854775808 <= off <= PTRDIFF_MAX | _ => True end.

(** The first [free_count] entries are the objects not in use, each once. *)
Record pool_rep {C : Type} (p : zenit_pool_t C) (size cap : Z) (used : gset Z) : Prop := {
  pr_size : po_object_size p = size;
  pr_cap : po_capacity p = cap;
  pr_dims : 0 < size /\ 0 < cap /\ cap * size <= PTRDIFF_MAX /\ cap * 8 <= PTRDIFF_MAX;
  pr_len : zlen (po_free_list p) = cap;
  pr_count : 0 <= po_free_count p <= cap;
  pr_nodup : NoDup (take (Z.to_nat (po_free_count p)) (po_free_list p));
  pr_free : forall s, s ∈ take (Z.to_nat (po_free_count p)) (po_free_list p) <-> 0 <= s < cap /\ s ∉ used;
  pr_used : forall s, s ∈ used -> 0 <= s < cap }.

(** Everything but the stack of free objects stays. *)
Definition pool_frame {C : Type} (p p' : zenit_pool_t C) : Prop :=
  po_self p' = po_self p /\ po_free_addr p' = po_free_addr p /\ po_buffer p' = po_buffer p /\
  po_allocator p' = po_allocator p.

Definition pool_owns {C : Type} (p : zenit_pool_t C) : gset addr :=
  {[ po_self p; po_free_addr p ]} ∪ pown (po_buffer p).

(** ** The index array *)

Lemma fill_free_spec : forall n i rest, 0 <= i -> n = length rest ->
  fill_free n i (seqZ 0 i ++ rest) = Ret (seqZ 0 (i + Z.of_nat n)).
Proof.
  induction n as [|n IH]; intros i rest Hi En; cbn [fill_free].
  - destruct rest; [|done]. by rewrite app_nil_r, Z.add_0_r.
  - destruct rest as [|x rest]; [done|].
    rewrite (aset_split _ (seqZ 0 i) x i rest) by (unfold zlen; rewrite ?length_seqZ; done || lia).
    cbn [obind]. replace (seqZ 0 i ++ [i]) with (seqZ 0 (i + 1)) by (by rewrite seqZ_app by lia).
    rewrite IH by (simpl in En; lia). f_equal. f_equal. lia.
Qed.

Lemma is_free_spec slot : forall n i l, 0 <= i -> Z.of_nat n + i <= zlen l ->
  is_free n i l slot = Ret (bool_decide (slot ∈ take n (drop (Z.to_nat i) l))).
Proof.
  induction n as [|n IH]; intros i l Hi Hl; cbn [is_free].
  - rewrite take_0. by rewrite bool_decide_eq_false_2 by (apply not_elem_of_nil).
  - destruct (aget_range l i) as (v & Ev & ->); [lia|]. cbn [obind].
    erewrite (drop_S l v) by exact Ev. rewrite firstn_cons. case_decide as D.
    + subst. by rewrite bool_decide_eq_true_2 by (by left).
    + rewrite IH by lia. f_equal. replace (Z.to_nat (i + 1)) with (S (Z.to_nat i)) by lia.
      apply bool_decide_ext. rewrite elem_of_cons. naive_solver.
Qed.

(** ** Operations *)

Section PoolProofs.
Context {C : Type}.
Implicit Types p : zenit_pool_t C.

Lemma used_size p size cap used : pool_rep p size cap used ->
  Z.of_nat (base.size used) = cap - po_free_count p.
Proof.
  intros [Es Ec Hd Hl Hc Hn Hf Hu]. set (free := take (Z.to_nat (po_free_count p)) (po_free_list p)) in *.
  assert (length free = Z.to_nat (po_free_count p)) as Lf by (unfold free; rewrite length_take; unfold zlen in Hl; lia).
  assert (list_to_set free ∪ used = (list_to_set (seqZ 0 cap) : gset Z)) as E.
  { apply set_eq. intros s. rewrite elem_of_union, !elem_of_list_to_set, elem_of_seqZ, Hf.
    destruct (decide (s ∈ used)) as [Hs|]; [specialize (Hu s Hs)|]; naive_solver lia. }
  apply (f_equal base.size) in E. rewrite size_union in E by (intros s; rewrite elem_of_list_to_set, Hf; tauto).
  rewrite !size_list_to_set, length_seqZ in E by (done || apply NoDup_seqZ). lia.
Qed.

(** All objects free. *)
Lemma full_rep p size cap :
  po_object_size p = size -> po_capacity p = cap ->
  0 < size /\ 0 < cap /\ cap * size <= PTRDIFF_MAX /\ cap * 8 <= PTRDIFF_MAX ->
  po_free_list p = seqZ 0 cap -> po_free_count p = cap -> pool_rep p size cap ∅.
Proof.
  intros Es Ec Hd Hl Hc.
  assert (take (Z.to_nat cap) (seqZ 0 cap) = seqZ 0 cap) as Et by (apply take_ge; rewrite length_seqZ; lia).
  split; rewrite ?Hl, ?Hc, ?Et; try done; try lia.
  - unfold zlen. rewrite length_seqZ. lia.
  - apply NoDup_seqZ.
  - intros s. rewrite elem_of_seqZ. set_solver by lia.
Qed.

Lemma acquire_spec p size cap used : pool_rep p size cap used ->
  exists r p' used', zenit_pool_acquire (Some p) = Ret (r, Some p') /\ pool_rep p' size cap used' /\
    pool_frame p p' /\
    pool_step size cap OAcquire used (OPtr r) used'.
Proof.
  intros H. pose proof (used_size p size cap used H) as Hsz. destruct H as [Es Ec Hd Hl Hc Hn Hf Hu].
  unfold zenit_pool_acquire. case_decide as D.
  { exists None, p, used. split_and!; try done. apply ps_exhausted. lia. }
  rewrite u64_small by lia. destruct (aget_range (po_free_list p) (po_free_count p - 1)) as (s & Ev & ->); [lia|].
  cbn [obind]. assert (take (Z.to_nat (po_free_count p)) (po_free_list p)
    = take (Z.to_nat (po_free_count p - 1)) (po_free_list p) ++ [s]) as Et.
  { replace (Z.to_nat (po_free_count p)) with (S (Z.to_nat (po_free_count p - 1))) by lia. by apply take_S_r. }
  assert (0 <= s < cap /\ s ∉ used) as [Hs1 Hs2] by (apply Hf; rewrite Et; set_solver).
  rewrite u64_small by (rewrite Es; nia). rewrite Es.
  eexists _, _, ({[ s ]} ∪ used). split; [done|]. split_and!; try done; [|by apply ps_acquire].
  rewrite Et in Hn, Hf. apply NoDup_app in Hn as (N1 & N2 & _).
  split; simpl; try done; [lia| |set_solver].
  intros t. specialize (Hf t). rewrite elem_of_app, list_elem_of_singleton in Hf.
  rewrite not_elem_of_union, not_elem_of_singleton. split.
  - intros Ht. assert (t <> s) by (intros ->; by apply (N2 s Ht), list_elem_of_singleton). naive_solver.
  - intros (Ht & Hne & Hnu). destruct (proj2 Hf) as [|]; [done|done|congruence].
Qed.

Lemma release_spec p size cap used off : pool_rep p size cap used -> pool_pre (ORelease off) ->
  exists r p' used', zenit_pool_release (Some p) (Some off) = Ret (r, Some p') /\ pool_rep p' size cap used' /\
    pool_frame p p' /\
    pool_step size cap (ORelease off) used (OErr r) used'.
Proof.
  intros H Hoff. pose proof (used_size p size cap used H) as Hsz. pose proof H as [Es Ec Hd Hl Hc Hn Hf Hu].
  simpl in Hoff. unfold zenit_pool_release. rewrite Es, Ec, (u64_small (cap * size)) by nia. case_decide as D.
  { exists ZENIT_ERROR_PARAM, p, used. split_and!; try done. apply ps_outside.
    destruct (decide (off < 0)); [by left|right]. rewrite u64_small in D by lia. lia. }
  assert (0 <= off) by lia. rewrite u64_small in D |- * by lia. rewrite udiv_Ret, umod_Ret by lia. cbn [obind].
  case_decide as D2.
  { exists ZENIT_ERROR_PARAM, p, used. split_and!; try done. apply ps_unaligned; [lia|done]. }
  assert (off = off / size * size) as Eo by (pose proof (Z.div_mod off size); lia).
  set (s := off / size) in *. assert (0 <= s < cap) as Hs by (split; [apply Z.div_pos; lia|nia]).
  rewrite is_free_spec by lia. change (Z.to_nat 0) with O. rewrite drop_0. cbn [obind]. rewrite Eo.
  case_bool_decide as B; apply Hf in B as Hs' || idtac.
  - exists ZENIT_ERROR_DOUBLE_FREE, p, used. split_and!; try done. apply ps_double; apply Hs'.
  - assert (s ∈ used) as Hin by (destruct (decide (s ∈ used)); [done|]; exfalso; apply B, Hf; done).
    assert (po_free_count p < cap) as Hlt.
    { assert (base.size used <> O); [|lia]. intros E0. apply size_empty_inv in E0. set_solver. }
    rewrite aset_range by lia. cbn [obind]. rewrite u64_small by nia.
    eexists _, _, (used ∖ {[ s ]}). split; [done|]. split_and!; try done; [|by apply ps_release].
    assert (take (Z.to_nat (po_free_count p + 1)) (<[Z.to_nat (po_free_count p) := s]> (po_free_list p))
      = take (Z.to_nat (po_free_count p)) (po_free_list p) ++ [s]) as Et.
    { replace (Z.to_nat (po_free_count p + 1)) with (S (Z.to_nat (po_free_count p))) by lia.
      erewrite take_S_r by (apply list_lookup_insert_eq; unfold zlen in Hl; lia).
      by rewrite take_insert_ge by lia. }
    split; simpl; try done; rewrite ?zlen_insert, ?Et; try done; [lia| | |set_solver].
    + apply NoDup_app. split_and!; [done| |apply NoDup_singleton]. intros t Ht. rewrite list_elem_of_singleton. by intros ->.
    + intros t. rewrite elem_of_app, list_elem_of_singleton, Hf, elem_of_difference, not_elem_of_singleton.
      destruct (decide (t = s)) as [->|]; naive_solver.
Qed.

Lemma pool_exec_spec op p size cap used : pool_rep p size cap used -> pool_pre op ->
  exists r p' used', pool_exec op p = Ret (r, Some p') /\ pool_rep p' size cap used' /\
    pool_frame p p' /\ pool_step size cap op used r used'.
Proof.
  intros H Hp. pose proof (used_size p size cap used H) as Hsz. pose proof H as [Es Ec Hd Hl Hc Hn Hf Hu].
  destruct op as [|off| | | |]; unfold pool_exec.
  - destruct (acquire_spec p size cap used H) as (r & p' & used' & -> & Q). cbn [obind]. by eexists _, p', used'.
  - destruct (release_spec p size cap used off H Hp) as (r & p' & used' & -> & Q). cbn [obind]. by eexists _, p', used'.
  - eexists _, p, used. split_and!; try done. simpl. rewrite Ec, u64_small by nia.
    replace (cap - po_free_count p) with (Z.of_nat (base.size used)) by lia. apply ps_count.
  - eexists _, p, used. split_and!; try done. simpl.
    replace (po_free_count p) with (cap - Z.of_nat (base.size used)) by lia. apply ps_available.
  - eexists _, p, used. split_and!; try done. simpl. rewrite Ec. apply ps_capacity.
  - unfold zenit_pool_clear. rewrite Ec.
    pose proof (fill_free_spec (Z.to_nat cap) 0 (po_free_list p) ltac:(lia)) as F. simpl app in F.
    rewrite F by (unfold zlen in Hl; lia). cbn [obind]. rewrite Z.add_0_l, Z2Nat.id by lia.
    eexists _, _, ∅. split; [done|]. split_and!; try done; [by apply full_rep|apply ps_clear].
Qed.

Lemma pool_run_spec size cap ops : Forall pool_pre ops -> forall p used, pool_rep p size cap used ->
  exists rs p', pool_run ops p = Ret (rs, p') /\ pool_frame p p' /\
    pool_trace size cap used ops rs.
Proof.
  intros Ho. induction Ho as [|op ops Hop _ IH]; intros p used H; cbn [pool_run].
  - exists [], p. split_and!; try done. constructor.
  - destruct (pool_exec_spec op p size cap used H Hop) as (r & p1 & u1 & -> & R & O & S). cbn [obind].
    destruct (IH p1 u1 R) as (rs & p2 & -> & O2 & S2). cbn [obind].
    exists (r :: rs), p2. split_and!; try done; [unfold pool_frame in *; intuition congruence|by econstructor].
Qed.
End PoolProofs.

(** ** Creation and correctness *)

Section PoolTheorems.
Context {C : Type} (a : zenit_allocator_t C) {SP : AllocSpec a}.

Lemma pool_create_spec size cap c :
  0 < size -> 0 < cap -> cap * size <= PTRDIFF_MAX -> cap * 8 <= PTRDIFF_MAX ->
  exists r c', zenit_pool_create_with_allocator size cap a c = Ret (r, c') /\
    match r with
    | Some p => pool_rep p size cap ∅ /\ po_allocator p = a /\ transfer a ∅ (pool_owns p) c c' /\
        po_self p <> po_free_addr p /\ ({[ po_self p; po_free_addr p ]} ## pown (po_buffer p))
    | None => live c' = live c
    end.
Proof.
  intros Hs Hc H1 H2. unfold zenit_pool_create_with_allocator. rewrite decide_False by lia.
  destruct (alloc_fn a SIZEOF_POOL c) as [[h|] c1] eqn:E1.
  2:{ exists None, c1. split; [done|]. by eapply alloc_none. }
  apply alloc_some in E1 as (_ & _ & F1 & L1).
  destruct (alloc_zero_cases a cap size c1) as (r & c2 & -> & P); [nia|]. cbn [obind]. destruct r as [b|].
  2:{ eexists None, _. split; [done|]. rewrite free_some by (rewrite P, L1; set_solver). rewrite P, L1. set_solver. }
  destruct P as (_ & _ & F2 & L2). unfold SIZEOF_SIZE_T. rewrite u64_small by lia.
  destruct (alloc_fn a (cap * 8) c2) as [[fb|] c3] eqn:E3.
  - apply alloc_some in E3 as (Lf & _ & F3 & L3). rewrite Lf, Z.div_mul by done.
    pose proof (fill_free_spec (Z.to_nat cap) 0 (replicate (Z.to_nat cap) 0) ltac:(lia)) as F. simpl app in F.
    rewrite F by (by rewrite length_replicate). cbn [obind]. rewrite Z.add_0_l, Z2Nat.id by lia.
    eexists (Some _), c3. split; [done|]. split_and!; simpl; try done.
    + by apply full_rep.
    + unfold pool_owns. simpl. split; rewrite L3, L2, L1; set_solver.
    + intros E. apply F3. rewrite <- E, L2, L1. set_solver.
    + set_solver.
  - apply alloc_none in E3. eexists None, _. split; [done|].
    rewrite free_some by (rewrite free_some by (rewrite E3, L2; set_solver); rewrite E3, L2, L1; set_solver).
    rewrite free_some by (rewrite E3, L2; set_solver). rewrite E3, L2, L1. set_solver.
Qed.

(** C13. A pool hands out each object to one user at a time: from creation on, any
    sequence of calls behaves as [pool_step] says. An acquired object lies inside the
    block, is none of those in use, and is refused only when all are; releasing
    accepts exactly the objects in use, answers [ZENIT_ERROR_DOUBLE_FREE] for a free
    one and [ZENIT_ERROR_PARAM] for any other pointer, without effect; and destroying
    the pool gives back exactly what it allocated. *)
Theorem pool_exclusive (size cap : Z) (ops : list pool_op) (c : C)
  (Hs : 0 < size) (Hc : 0 < cap) (H1 : cap * size <= PTRDIFF_MAX) (H2 : cap * 8 <= PTRDIFF_MAX)
  (Hops : Forall pool_pre ops) :
  exists r c1, zenit_pool_create_with_allocator size cap a c = Ret (r, c1) /\
    match r with
    | None => live c1 = live c
    | Some p => exists rs p', pool_run ops p = Ret (rs, p') /\ pool_trace size cap ∅ ops rs /\
        live (zenit_pool_destroy (Some p') c1) = live c
    end.
Proof.
  destruct (pool_create_spec size cap c Hs Hc H1 H2) as (r & c1 & -> & P). exists r, c1. split; [done|].
  destruct r as [p|]; [|done]. destruct P as (R & A & T & N1 & N2).
  destruct (pool_run_spec size cap ops Hops p ∅ R) as (rs & p' & -> & (E1 & E2 & E3 & E4) & Tr).
  exists rs, p'. split; [done|]. split; [done|]. destruct T as [T1 T2]. unfold pool_owns, zenit_pool_destroy in *.
  rewrite E4, A, E1, E2, E3. assert (po_free_addr p ∈ live c1) as M1 by set_solver.
  assert (live (free_fn a (Some (po_free_addr p)) c1) = live c1 ∖ {[ po_free_addr p ]}) as L1 by (by apply free_some).
  assert (live (free_fn a (paddr (po_buffer p)) (free_fn a (Some (po_free_addr p)) c1))
    = live c1 ∖ {[ po_free_addr p ]} ∖ pown (po_buffer p)) as L2.
  { rewrite (pfree_live a), L1; [done|]. rewrite L1. set_solver. }
  rewrite free_some by (rewrite L2; set_solver). rewrite L2.
  transitivity (live c1 ∖ ({[ po_self p; po_free_addr p ]} ∪ pown (po_buffer p))); [set_solver|]. rewrite T2. set_solver.
Qed.
End PoolTheorems.

(** ** A concrete run *)

Definition wit_pool_ops : list pool_op :=
  [OAcquire; OAcquire; OAcquire; ORelease 8; ORelease 8; ORelease 9; OAcquire; OCount; OClear; OAvailable].

Lemma pool_exclusive_witness :
  exists r c1, zenit_pool_create_with_allocator 8 2 ZENIT_ALLOCATOR_DEFAULT empty_heap = Ret (r, c1) /\
    match r with
    | None => live c1 = live empty_heap
    | Some p => exists rs p', pool_run wit_pool_ops p = Ret (rs, p') /\ pool_trace 8 2 ∅ wit_pool_ops rs /\
        live (zenit_pool_destroy (Some p') c1) = live empty_heap
    end.
Proof.
  refine (pool_exclusive ZENIT_ALLOCATOR_DEFAULT 8 2 wit_pool_ops empty_heap _ _ _ _ _); try lia.
  repeat constructor; simpl; lia.
Defined.
