(* ===== verification/Glob.v ===== *)
(** * Glob patterns ([src/glob.c])

    A [char] pointer into a string is the rest of the buffer from there on, with
    the terminator: [*p] is its first byte, [p + 1] its tail.  [char] is signed, as
    on the platforms the library targets, which matters in the range comparisons.
    The specification reads a pattern as a sequence of items and says declaratively
    which strings it matches; the theorem covers every pattern, also one with an
    unclosed class. *)

From Stdlib Require Import ZArith Lia Ascii String.
From stdpp Require Import base tactics option list numbers.
From S2P Require Import Prelude Mem Result Text.
Open Scope Z_scope.

(** The [while] loop of [match_char_class]: whether a piece matched, and where the
    loop stopped. *)
Fixpoint class_loop (fuel : nat) (p : bytes) (c : Z) (matched : bool) : outcome (bool * bytes) :=
  let! c0 := aget p 0 in
  if decide (c0 <> NUL /\ c0 <> ch "]") then
    match fuel with
    | O => NoFuel
    | S fuel =>
        let! c1 := aget p 1 in
        let! range := if decide (c1 = ch "-") then
                        let! c2 := aget p 2 in Ret (bool_decide (c2 <> NUL /\ c2 <> ch "]"))
                      else Ret false in
        if range : bool then
          let! c2 := aget p 2 in
          class_loop fuel (drop 3 p) c
            (matched || bool_decide (schar c0 <= schar c /\ schar c <= schar c2))
        else class_loop fuel (drop 1 p) c (matched || bool_decide (c = c0))
    end
  else Ret (matched, p).

(** The answer and the pattern after the class. *)
Definition match_char_class (fuel : nat) (p : bytes) (c : Z) : outcome (bool * bytes) :=
  let! c0 := aget p 0 in
  let negated := bool_decide (c0 = ch "!") in
  let! (matched, p1) := class_loop fuel (if negated then drop 1 p else p) c false in
  let! e := aget p1 0 in
  let p2 := if decide (e = ch "]") then drop 1 p1 else p1 in
  Ret ((negated && negb matched) || (negb negated && matched), p2).

(** [match] and the loop of [match_star]; every turn of a loop and every call uses
    one unit of fuel. *)
Fixpoint gmatch (fuel : nat) (p s : bytes) : outcome bool :=
  match fuel with
  | O => NoFuel
  | S fuel =>
      let! pc := aget p 0 in
      if decide (pc = NUL) then let! sc := aget s 0 in Ret (bool_decide (sc = NUL))
      else if decide (pc = ch "*") then
        let! p1 := aget p 1 in
        if decide (p1 = NUL) then Ret true else star_loop fuel (drop 1 p) s
      else
        let! sc := aget s 0 in
        if decide (sc = NUL) then Ret false
        else if decide (pc = ch "?") then gmatch fuel (drop 1 p) (drop 1 s)
        else if decide (pc = ch "[") then
          let! (ok, p2) := match_char_class fuel (drop 1 p) sc in
          if ok : bool then gmatch fuel p2 (drop 1 s) else Ret false
        else if decide (pc <> sc) then Ret false
        else gmatch fuel (drop 1 p) (drop 1 s)
  end
with star_loop (fuel : nat) (p s : bytes) : outcome bool :=
  match fuel with
  | O => NoFuel
  | S fuel =>
      let! sc := aget s 0 in
      if decide (sc <> NUL) then
        let! m := gmatch fuel p s in
        if m : bool then Ret true else star_loop fuel p (drop 1 s)
      else gmatch fuel p s
  end.

Definition zenit_glob_match (fuel : nat) (pattern str : option bytes) : outcome Z :=
  match pattern, str with
  | Some p, Some s => let! m := gmatch fuel p s in Ret (Z.b2z m)
  | _, _ => Ret 0
  end.

(** ** Specification *)

(** The pieces of a class, as ranges of characters, and the pattern after it. *)
Fixpoint class_pieces (p : bytes) : list (Z * Z) * bytes :=
  match p with
  | [] => ([], [])
  | c0 :: p1 =>
      if decide (c0 = ch "]") then ([], p1)
      else
        match p1 with
        | c1 :: c2 :: p3 =>
            if decide (c1 = ch "-" /\ c2 <> ch "]")
            then let '(l, r) := class_pieces p3 in ((c0, c2) :: l, r)
            else let '(l, r) := class_pieces p1 in ((c0, c0) :: l, r)
        | _ => let '(l, r) := class_pieces p1 in ((c0, c0) :: l, r)
        end
  end.

(** [c] is in one of the ranges; characters compare as signed numbers. *)
Definition in_pieces (c : Z) (l : list (Z * Z)) : Prop :=
  Exists (fun r => schar r.1 <= schar c /\ schar c <= schar r.2) l.

(** What a class (after its bracket) says of a character, and what follows it. *)
Definition class_of (p : bytes) : bool * list (Z * Z) * bytes :=
  let negated := bool_decide (head p = Some (ch "!")) in
  let '(l, r) := class_pieces (if negated then tail p else p) in (negated, l, r).

Definition class_accepts (p : bytes) (c : Z) : Prop :=
  let '(negated, l, _) := class_of p in if negated : bool then ~ in_pieces c l else in_pieces c l.

Inductive glob : bytes -> bytes -> Prop :=
| glob_end : glob [] []
| glob_star p s1 s2 : glob p s2 -> glob (ch "*" :: p) (s1 ++ s2)
| glob_any p c s : glob p s -> glob (ch "?" :: p) (c :: s)
| glob_class p c s : class_accepts p c -> glob (class_of p).2 s -> glob (ch "[" :: p) (c :: s)
| glob_char p c s : c <> ch "*" -> c <> ch "?" -> c <> ch "[" -> glob p s -> glob (c :: p) (c :: s).

(** ** Classes *)

#[export] Instance in_pieces_dec c l : Decision (in_pieces c l).
Proof. unfold in_pieces. apply _. Defined.

Lemma class_pieces_step c0 p1 : c0 <> ch "]" ->
  class_pieces (c0 :: p1) =
    match p1 with
    | c1 :: c2 :: p3 =>
        if decide (c1 = ch "-" /\ c2 <> ch "]")
        then ((c0, c2) :: (class_pieces p3).1, (class_pieces p3).2)
        else ((c0, c0) :: (class_pieces p1).1, (class_pieces p1).2)
    | _ => ((c0, c0) :: (class_pieces p1).1, (class_pieces p1).2)
    end.
Proof.
  intros N. cbn [class_pieces]. rewrite decide_False by done.
  destruct p1 as [|c1 [|c2 p3]]; [done|by destruct (class_pieces [c1])|].
  case_decide; [by destruct (class_pieces p3)|by destruct (class_pieces (c1 :: c2 :: p3))].
Qed.

Lemma class_rest_suffix n : forall p, (length p <= n)%nat -> exists k, p = k ++ (class_pieces p).2.
Proof.
  induction n as [|n IH]; intros p Hn; (destruct p as [|c0 p1]; [by exists []|simpl in Hn]); [lia|].
  destruct (decide (c0 = ch "]")) as [->|N].
  { exists [ch "]"]. cbn [class_pieces]. by rewrite decide_True by done. }
  assert (forall q, (length q <= length p1)%nat -> forall k0, p1 = k0 ++ q ->
    exists k, c0 :: p1 = k ++ (class_pieces q).2) as K.
  { intros q Hq k0 ->. destruct (IH q) as (k & E); [lia|]. exists (c0 :: k0 ++ k). simpl. rewrite <- app_assoc. by f_equal; f_equal. }
  rewrite class_pieces_step by done. destruct p1 as [|c1 [|c2 p3]]; simpl snd.
  - by apply (K [] ltac:(done) []).
  - by apply (K [c1] ltac:(done) []).
  - case_decide; [by apply (K p3 ltac:(simpl; lia) [c1; c2])|by apply (K (c1 :: c2 :: p3) ltac:(done) [])].
Qed.

(** Where the loop stops: at the bracket, or at the end of an unclosed class. *)
Definition class_stop (p r stop : bytes) : Prop :=
  stop = ch "]" :: (class_pieces p).2 ++ NUL :: r \/ (stop = NUL :: r /\ (class_pieces p).2 = []).

Lemma pieces_acc c d e l (m : bool) :
  (m || bool_decide (schar d <= schar c /\ schar c <= schar e)) || bool_decide (in_pieces c l)
    = m || bool_decide (in_pieces c ((d, e) :: l)).
Proof.
  rewrite <- orb_assoc. f_equal. unfold in_pieces. rewrite <- bool_decide_or. apply bool_decide_ext.
  by rewrite Exists_cons.
Qed.

Lemma one_piece c d : is_byte c -> is_byte d ->
  bool_decide (c = d) = bool_decide (schar d <= schar c /\ schar c <= schar d).
Proof.
  intros Hc Hd. apply bool_decide_ext. split; [intros ->; lia|]. intros H. apply schar_inj; [done|done|lia].
Qed.

Lemma class_loop_spec r c : is_byte c -> forall fuel p matched,
  Forall (fun x => 0 < x < 256) p -> (length p <= fuel)%nat ->
  exists stop, class_loop fuel (p ++ NUL :: r) c matched
      = Ret (matched || bool_decide (in_pieces c (class_pieces p).1), stop) /\ class_stop p r stop.
Proof.
  intros Hc.
  induction fuel as [|fuel IH]; intros p matched Hp Hf;
    (destruct p as [|c0 p1]; [exists (NUL :: r); split; [|by right]; change (in_pieces c (class_pieces []).1)
       with (in_pieces c []); rewrite bool_decide_eq_false_2 by (by inversion 1); by rewrite orb_false_r|]);
    [simpl in Hf; lia|].
  inversion Hp as [|? ? H0 Hp1]; subst. simpl in Hf. cbn [class_loop].
  change (aget ((c0 :: p1) ++ NUL :: r) 0) with (Ret c0). cbn [obind].
  destruct (decide (c0 = ch "]")) as [->|N].
  { rewrite decide_False by tauto. eexists. split; [|left; cbn [class_pieces]; by rewrite decide_True by done].
    cbn [class_pieces]. rewrite decide_True by done. by rewrite orb_false_r. }
  rewrite decide_True by (split; [lia|done]). unfold class_stop. rewrite class_pieces_step by done.
  assert (is_byte c0) as B0 by (unfold is_byte; lia).
  assert (exists stop, class_loop fuel (p1 ++ NUL :: r) c (matched || bool_decide (c = c0)) =
      Ret (matched || bool_decide (in_pieces c ((c0, c0) :: (class_pieces p1).1)), stop) /\ class_stop p1 r stop) as Hone.
  { destruct (IH p1 (matched || bool_decide (c = c0)) Hp1 ltac:(lia)) as (stop & -> & S). exists stop. split; [|done].
    by rewrite one_piece, pieces_acc. }
  destruct p1 as [|c1 [|c2 p3]].
  - change (aget ([c0] ++ NUL :: r) 1) with (Ret (A := Z) NUL). cbn [obind]. rewrite decide_False by done. exact Hone.
  - change (aget ([c0; c1] ++ NUL :: r) 1) with (Ret c1). change (aget ([c0; c1] ++ NUL :: r) 2) with (Ret (A := Z) NUL).
    cbn [obind]. destruct (decide (c1 = ch "-")); cbn [obind];
      [rewrite (bool_decide_eq_false_2 (NUL <> NUL /\ _)) by tauto|]; exact Hone.
  - change (aget ((c0 :: c1 :: c2 :: p3) ++ NUL :: r) 1) with (Ret c1).
    change (aget ((c0 :: c1 :: c2 :: p3) ++ NUL :: r) 2) with (Ret c2). cbn [obind].
    inversion Hp1 as [|? ? H1 Hp2]; subst. inversion Hp2 as [|? ? H2 Hp3]; subst.
    destruct (decide (c1 = ch "-")) as [E1|N1]; cbn [obind]; [|rewrite decide_False by tauto; exact Hone].
    destruct (decide (c2 = ch "]")) as [E2|N2].
    + rewrite (bool_decide_eq_false_2 (c2 <> NUL /\ _)), decide_False by tauto. exact Hone.
    + rewrite (bool_decide_eq_true_2 (c2 <> NUL /\ _)), decide_True by (split; [lia|done] || done).
      change (drop 3 ((c0 :: c1 :: c2 :: p3) ++ NUL :: r)) with (p3 ++ NUL :: r). simpl in Hf.
      destruct (IH p3 (matched || bool_decide (schar c0 <= schar c /\ schar c <= schar c2)) Hp3 ltac:(lia)) as (stop & -> & S).
      exists stop. split; [by rewrite pieces_acc|done].
Qed.

Lemma match_char_class_spec fuel p r c :
  is_byte c -> Forall (fun x => 0 < x < 256) p -> (length p <= fuel)%nat ->
  exists b, match_char_class fuel (p ++ NUL :: r) c = Ret (b, (class_of p).2 ++ NUL :: r) /\
    (b = true <-> class_accepts p c) /\ (length (class_of p).2 <= length p)%nat.
Proof.
  intros Hc Hp Hf. unfold match_char_class, class_accepts, class_of.
  assert (exists c0, aget (p ++ NUL :: r) 0 = Ret c0 /\ (c0 = ch "!" <-> head p = Some (ch "!"))) as (c0 & -> & E0).
  { destruct p as [|c0 p]; [exists NUL; done|]. exists c0. split; [done|]. simpl. split; [by intros ->|congruence]. }
  cbn [obind]. rewrite (bool_decide_ext _ _ E0).
  set (q := if bool_decide (head p = Some (ch "!")) then tail p else p).
  assert ((if bool_decide (head p = Some (ch "!")) then drop 1 (p ++ NUL :: r) else p ++ NUL :: r) = q ++ NUL :: r) as ->.
  { unfold q. case_bool_decide as B; [|done]. by destruct p. }
  assert (Forall (fun x => 0 < x < 256) q /\ (length q <= length p)%nat) as [Hq Lq].
  { unfold q. case_bool_decide; [|done]. destruct p; [done|]. inversion Hp; subst. simpl. split; [done|lia]. }
  destruct (class_loop_spec r c Hc fuel q false Hq ltac:(lia)) as (stop & -> & S). cbn [obind].
  destruct (class_rest_suffix (length q) q ltac:(lia)) as (k & Lr). apply (f_equal length) in Lr.
  rewrite length_app in Lr. unfold class_stop in S. destruct (class_pieces q) as [l rest]. simpl in S, Lr |- *.
  assert (exists e, aget stop 0 = Ret e /\ (if decide (e = ch "]") then drop 1 stop else stop) = rest ++ NUL :: r)
    as (e & -> & Ee) by (destruct S as [->|[-> ->]]; by eexists).
  cbn [obind]. rewrite Ee. eexists. split; [done|]. split; [|lia].
  case_bool_decide as B; simpl; rewrite ?orb_false_r; [rewrite negb_true_iff, bool_decide_eq_false|]; [done|].
  apply bool_decide_eq_true.
Qed.

(** ** Matching *)

Lemma glob_cons_inv p0 p s : glob (p0 :: p) s ->
  (p0 = ch "*" /\ exists s1 s2, s = s1 ++ s2 /\ glob p s2) \/
  (p0 = ch "?" /\ exists c s', s = c :: s' /\ glob p s') \/
  (p0 = ch "[" /\ exists c s', s = c :: s' /\ class_accepts p c /\ glob (class_of p).2 s') \/
  (p0 <> ch "*" /\ p0 <> ch "?" /\ p0 <> ch "[" /\ exists s', s = p0 :: s' /\ glob p s').
Proof. inversion 1; subst; [left|right; left|do 2 right; left|do 3 right]; eauto 10. Qed.

(** What the two functions promise with a given fuel. *)
Definition text (s : bytes) : Prop := Forall (fun x => 0 < x < 256) s.

Definition match_ok pr sr fuel : Prop := forall p s, text p -> text s ->
  (2 * length p + length s + 1 <= fuel)%nat ->
  exists b, gmatch fuel (p ++ NUL :: pr) (s ++ NUL :: sr) = Ret b /\ (b = true <-> glob p s).

Definition star_ok pr sr fuel : Prop := forall p s, text p -> text s ->
  (2 * length p + length s + 2 <= fuel)%nat ->
  exists b, star_loop fuel (p ++ NUL :: pr) (s ++ NUL :: sr) = Ret b /\
    (b = true <-> exists s1 s2, s = s1 ++ s2 /\ glob p s2).

Lemma class_rest_text p : text p -> text (class_of p).2.
Proof.
  intros Hp. unfold class_of. set (q := if bool_decide _ then tail p else p).
  assert (text q) as Hq by (unfold q; case_bool_decide; [destruct p; [done|by inversion Hp]|done]).
  destruct (class_rest_suffix (length q) q ltac:(done)) as (k & E). destruct (class_pieces q) as [l r]. simpl in *.
  rewrite E in Hq. by apply Forall_app in Hq as [_ ?].
Qed.

Lemma star_step pr sr fuel : match_ok pr sr fuel -> star_ok pr sr fuel -> star_ok pr sr (S fuel).
Proof.
  intros IHm IHs p s Hp Hs Hf. cbn [star_loop].
  destruct (IHm p s Hp Hs ltac:(lia)) as (b & E & Hb). destruct s as [|s0 s].
  - change (aget ([] ++ NUL :: sr) 0) with (Ret (A := Z) NUL). cbn [obind]. rewrite decide_False by tauto.
    exists b. split; [done|]. rewrite Hb. split; [intros G; by exists [], []|].
    intros (s1 & s2 & E2 & G). symmetry in E2. by apply app_nil in E2 as [_ ->].
  - inversion Hs as [|? ? H0 Hs']; subst. change (aget ((s0 :: s) ++ NUL :: sr) 0) with (Ret s0). cbn [obind].
    rewrite decide_True by lia. rewrite E. cbn [obind]. destruct b.
    + exists true. split; [done|]. split; [|done]. intros _. exists [], (s0 :: s). split; [done|by apply Hb].
    + change (drop 1 ((s0 :: s) ++ NUL :: sr)) with (s ++ NUL :: sr).
      destruct (IHs p s Hp Hs' ltac:(simpl in Hf; lia)) as (b & -> & Hb2). exists b. split; [done|]. rewrite Hb2. split.
      * intros (s1 & s2 & -> & G). by exists (s0 :: s1), s2.
      * intros (s1 & s2 & E2 & G). destruct s1 as [|x s1]; simpl in E2; [|by exists s1, s2; simplify_eq].
        subst s2. apply Hb in G. done.
Qed.

Lemma match_step pr sr fuel : match_ok pr sr fuel -> star_ok pr sr fuel -> match_ok pr sr (S fuel).
Proof.
  intros IHm IHs p s Hp Hs Hf. cbn [gmatch]. destruct p as [|p0 p].
  { change (aget ([] ++ NUL :: pr) 0) with (Ret (A := Z) NUL). cbn [obind]. rewrite decide_True by done.
    destruct s as [|s0 s]; [exists true; split; [done|]; split; [constructor|done]|].
    inversion Hs; subst. exists false. change (aget ((s0 :: s) ++ NUL :: sr) 0) with (Ret s0). cbn [obind].
    rewrite bool_decide_eq_false_2 by lia. split; [done|]. split; [done|inversion 1]. }
  inversion Hp as [|? ? H0 Hp']; subst. simpl in Hf.
  change (aget ((p0 :: p) ++ NUL :: pr) 0) with (Ret p0). cbn [obind]. rewrite decide_False by lia.
  change (drop 1 ((p0 :: p) ++ NUL :: pr)) with (p ++ NUL :: pr).
  destruct (decide (p0 = ch "*")) as [->|N1].
  { assert (exists p1, aget ((ch "*" :: p) ++ NUL :: pr) 1 = Ret p1 /\ (p1 = NUL <-> p = [])) as (p1 & -> & E1).
    { destruct p as [|p1 p]; [by exists NUL|]. inversion Hp'; subst. exists p1. split; [done|]. split; [lia|done]. }
    cbn [obind]. case_decide as D.
    - apply E1 in D as ->. exists true. split; [done|]. split; [|done]. intros _. rewrite <- (app_nil_r s).
      apply glob_star, glob_end.
    - destruct (IHs p s Hp' Hs ltac:(lia)) as (b & -> & Hb). exists b. split; [done|]. rewrite Hb. split.
      + intros (s1 & s2 & -> & G). by apply glob_star.
      + intros G. apply glob_cons_inv in G as [(_ & G)|[(E & _)|[(E & _)|(N & _)]]]; done. }
  destruct s as [|s0 s].
  { change (aget ([] ++ NUL :: sr) 0) with (Ret (A := Z) NUL). cbn [obind]. rewrite decide_True by done.
    exists false. split; [done|]. split; [done|]. intros G.
    apply glob_cons_inv in G as [(E & _)|[(_ & G)|[(_ & G)|(_ & _ & _ & G)]]]; naive_solver. }
  inversion Hs as [|? ? S0 Hs']; subst. simpl in Hf.
  change (aget ((s0 :: s) ++ NUL :: sr) 0) with (Ret s0). cbn [obind]. rewrite decide_False by lia.
  change (drop 1 ((s0 :: s) ++ NUL :: sr)) with (s ++ NUL :: sr).
  destruct (IHm p s Hp' Hs' ltac:(lia)) as (b & Eb & Hb).
  destruct (decide (p0 = ch "?")) as [->|N2].
  { exists b. split; [done|]. rewrite Hb. split; [intros G; by apply glob_any|]. intros G.
    apply glob_cons_inv in G as [(E & _)|[(_ & G)|[(E & _)|(_ & N & _)]]]; naive_solver. }
  destruct (decide (p0 = ch "[")) as [->|N3].
  { destruct (match_char_class_spec fuel p pr s0) as (ok & -> & Hok & Lq); [unfold is_byte; lia|done|lia|].
    cbn [obind]. assert (forall G : glob (ch "[" :: p) (s0 :: s), class_accepts p s0 /\ glob (class_of p).2 s) as Inv.
    { intros G. apply glob_cons_inv in G as [(E & _)|[(E & _)|[(_ & G)|(_ & _ & N & _)]]]; naive_solver. }
    destruct ok.
    - assert (text (class_of p).2) as Ht by (by apply class_rest_text).
      destruct (IHm (class_of p).2 s Ht Hs' ltac:(lia)) as (b2 & -> & Hb2). exists b2. split; [done|]. rewrite Hb2.
      split; [intros G; apply glob_class; [by apply Hok|done]|]. intros G. by apply Inv.
    - exists false. split; [done|]. split; [done|]. intros G. apply Inv in G as [G _]. by apply Hok in G. }
  destruct (decide (p0 = s0)) as [->|N4].
  - rewrite decide_False by tauto. exists b. split; [done|]. rewrite Hb. split; [intros G; by apply glob_char|].
    intros G. apply glob_cons_inv in G as [(E & _)|[(E & _)|[(E & _)|(_ & _ & _ & G)]]]; naive_solver.
  - rewrite decide_True by done. exists false. split; [done|]. split; [done|]. intros G.
    apply glob_cons_inv in G as [(E & _)|[(E & _)|[(E & _)|(_ & _ & _ & G)]]]; naive_solver.
Qed.

Lemma gmatch_spec pr sr fuel : match_ok pr sr fuel /\ star_ok pr sr fuel.
Proof.
  induction fuel as [|fuel [IHm IHs]]; [split; intros p s _ _ Hf; lia|].
  split; [by apply match_step|by apply star_step].
Qed.

(** C27. [zenit_glob_match] always returns, and returns 1 exactly for the strings the
    pattern matches: a star stands for any text, a question mark for any character,
    a class for the characters of its pieces or, after an exclamation mark, for the
    others, and any other character for itself. *)
Theorem glob_match_correct (pattern str p s : bytes) (fuel : nat)
  (Hp : cstr pattern p) (Hs : cstr str s) (Hf : (2 * length p + length s + 1 <= fuel)%nat) :
  exists r, zenit_glob_match fuel (Some pattern) (Some str) = Ret r /\
    (r = 1 <-> glob p s) /\ (r = 0 <-> ~ glob p s).
Proof.
  destruct Hp as (pr & -> & Hp), Hs as (sr & -> & Hs).
  destruct (proj1 (gmatch_spec pr sr fuel) p s Hp Hs Hf) as (b & E & Hb). unfold zenit_glob_match. rewrite E. cbn [obind].
  exists (Z.b2z b). split; [done|]. rewrite <- Hb. by destruct b.
Qed.

(** ** A concrete match *)
Lemma glob_match_correct_witness :
  exists r, zenit_glob_match 64 (Some (lit "*.[!a-bx]?" ++ [NUL])) (Some (lit "a.b.cd" ++ [NUL])) = Ret r /\
    (r = 1 <-> glob (lit "*.[!a-bx]?") (lit "a.b.cd")) /\ (r = 0 <-> ~ glob (lit "*.[!a-bx]?") (lit "a.b.cd")).
Proof.
  refine (glob_match_correct _ _ (lit "*.[!a-bx]?") (lit "a.b.cd") 64 _ _ _).
  - apply cstr_intro. vm_compute. by repeat constructor.
  - apply cstr_intro. vm_compute. by repeat constructor.
  - simpl. lia.
Defined.

Example glob_runs :
  zenit_glob_match 64 (Some (lit "*.[!a-bx]?" ++ [NUL])) (Some (lit "a.b.cd" ++ [NUL])) = Ret 1 /\
  zenit_glob_match 64 (Some (lit "*.[!a-bx]?" ++ [NUL])) (Some (lit "a.b.bd" ++ [NUL])) = Ret 0.
Proof. split; vm_compute; reflexivity. Qed.
