(* ===== verification/Machine.v ===== *)
(** * Sequences of calls and their specification

    A component is a state with an executable [exec] of its calls; its
    specification is a relation [step] on abstract states.  [run] makes a sequence
    of calls, [trace] is the sequence of results the specification allows, and
    [run_simulates] lifts a simulation of one call to sequences of calls.  The
    representation relation carries the number of calls still to come, for the
    components whose counters would wrap after 2^64 of them. *)

From Stdlib Require Import ZArith Lia.
From stdpp Require Import base tactics option list numbers.
From S2P Require Import Prelude.

Section Machine.
Context {St Op Res Abs : Type}.
Context (exec : Op -> St -> outcome (Res * St)) (step : Op -> Abs -> Res -> Abs -> Prop).
Implicit Types (s : St) (x : Abs) (op : Op) (r : Res).

Fixpoint run (ops : list Op) (s : St) : outcome (list Res * St) :=
  match ops with
  | [] => Ret ([], s)
  | op :: ops =>
      let! (r, s1) := exec op s in
      let! (rs, s2) := run ops s1 in
      Ret (r :: rs, s2)
  end.

Inductive trace : Abs -> list Op -> list Res -> Abs -> Prop :=
| trace_nil x : trace x [] [] x
| trace_cons x op r x1 ops rs x2 :
    step op x r x1 -> trace x1 ops rs x2 -> trace x (op :: ops) (r :: rs) x2.

(** [n] further calls of a client that keeps to [legal], each chosen as it likes:
    every one returns, with a result the specification allows. *)
Fixpoint follows (legal : Op -> Abs -> Prop) (n : nat) (s : St) (x : Abs) : Prop :=
  match n with
  | O => True
  | S n => forall op, legal op x ->
      exists r s' x', exec op s = Ret (r, s') /\ step op x r x' /\ follows legal n s' x'
  end.

Lemma follows_sim (rep : St -> Abs -> Prop) (legal : Op -> Abs -> Prop) :
  (forall op s x, rep s x -> legal op x ->
     exists r s' x', exec op s = Ret (r, s') /\ step op x r x' /\ rep s' x') ->
  forall n s x, rep s x -> follows legal n s x.
Proof.
  intros Sim. induction n as [|n IH]; intros s x H; [done|]. intros op Hop.
  destruct (Sim op s x H Hop) as (r & s' & x' & E & HS & H'). exists r, s', x'. auto.
Qed.

Lemma run_simulates (rep : nat -> St -> Abs -> Prop) (pre : Op -> Prop) :
  (forall n op s x, rep (S n) s x -> pre op ->
     exists r s' x', exec op s = Ret (r, s') /\ rep n s' x' /\ step op x r x') ->
  forall ops n s x, rep (length ops + n)%nat s x -> Forall pre ops ->
    exists rs s' x', run ops s = Ret (rs, s') /\ trace x ops rs x' /\ rep n s' x'.
Proof.
  intros Sim. induction ops as [|op ops IH]; intros n s x H F; cbn [run].
  { exists [], s, x. split_and!; [done|constructor|done]. }
  apply list.Forall_cons in F as [Hop F].
  destruct (Sim _ _ _ _ H Hop) as (r & s1 & x1 & -> & H1 & St1). cbn [obind].
  destruct (IH _ _ _ H1 F) as (rs & s2 & x2 & -> & T & H2). cbn [obind].
  exists (r :: rs), s2, x2. split_and!; [done|by econstructor|done].
Qed.

(** With the invariant established by the state alone the sequence may be as
    long as one likes. *)
Lemma run_simulates_any (rep : St -> Abs -> Prop) (pre : Op -> Prop) :
  (forall op s x, rep s x -> pre op ->
     exists r s' x', exec op s = Ret (r, s') /\ rep s' x' /\ step op x r x') ->
  forall ops s x, rep s x -> Forall pre ops ->
    exists rs s' x', run ops s = Ret (rs, s') /\ trace x ops rs x' /\ rep s' x'.
Proof.
  intros Sim ops s x H F. by apply (run_simulates (fun _ => rep) pre (fun _ => Sim) ops O).
Qed.
End Machine.
