(* ===== verification/Links.v ===== *)
(** * Linked structures

    Nodes that the code reaches through pointers live in a store, a finite map
    from addresses to nodes: dereferencing NULL or an address without a node is
    undefined, and freeing a node takes it out of the store.  [trail f ps e] says
    that following [f] from the first of [ps] goes through [ps] and ends in [e];
    a doubly linked list is a trail of its [next] links and a trail of its [prev]
    links through the reversed list. *)

From Stdlib Require Import ZArith Lia.
From stdpp Require Import base tactics option list numbers gmap sets.
From S2P Require Import Prelude Mem Result Allocator.
Open Scope Z_scope.

Section Store.
Context {N : Type}.
Implicit Types (s : gmap addr N) (p : option addr).

Definition sget s p : outcome N :=
  match p with
  | None => Undef
  | Some x => match s !! x with Some n => Ret n | None => Undef end
  end.

Definition supd s p (f : N -> N) : outcome (gmap addr N) :=
  match p with
  | None => Undef
  | Some x => match s !! x with Some n => Ret (<[x := f n]> s) | None => Undef end
  end.

(** The object behind a pointer changed, if there is one. *)
Definition upd_opt p (f : N -> N) s : gmap addr N :=
  match p with Some x => alter f x s | None => s end.

Lemma supd_alter s x f : is_Some (s !! x) -> supd s (Some x) f = Ret (alter f x s).
Proof.
  intros [n E]. unfold supd. rewrite E. f_equal. apply map_eq. intros y.
  destruct (decide (y = x)) as [->|D]; [by rewrite lookup_alter_eq, lookup_insert_eq, E|].
  by rewrite lookup_alter_ne, lookup_insert_ne by done.
Qed.

Lemma sget_Some s x n : s !! x = Some n -> sget s (Some x) = Ret n.
Proof. intros E. unfold sget. by rewrite E. Qed.

Lemma supd_Some s x n f : s !! x = Some n -> supd s (Some x) f = Ret (<[x := f n]> s).
Proof. intros E. unfold supd. by rewrite E. Qed.
End Store.

(** The first of [ps], or the end of the trail. *)
Definition hd_or {K : Type} (ps : list K) (e : option K) : option K :=
  match ps with [] => e | p :: _ => Some p end.

Fixpoint trail {K : Type} (f : K -> option (option K)) (ps : list K) (e : option K) : Prop :=
  match ps with
  | [] => True
  | p :: ps => f p = Some (hd_or ps e) /\ trail f ps e
  end.

Section ElemFacts.
Context {A B : Type}.

Lemma Forall2_elem_impl (P Q : A -> B -> Prop) l k :
  Forall2 P l k -> (forall x y, x ∈ l -> P x y -> Q x y) -> Forall2 Q l k.
Proof.
  induction 1 as [|x y l k H1 H2 IH]; intros H; constructor.
  - apply H; [by left|done].
  - apply IH. intros u v Hu. apply H. by right.
Qed.

Lemma NoDup_reversed (l : list A) : NoDup l -> NoDup (reverse l).
Proof. by rewrite reverse_Permutation. Qed.
End ElemFacts.

Section Trail.
Context {K : Type}.
Implicit Types (f g : K -> option (option K)) (ps : list K) (e : option K).

Lemma hd_or_app ps1 ps2 e : hd_or (ps1 ++ ps2) e = hd_or ps1 (hd_or ps2 e).
Proof. by destruct ps1. Qed.

Lemma hd_or_None ps : hd_or ps None = head ps.
Proof. by destruct ps. Qed.

Lemma trail_app f ps1 ps2 e : trail f (ps1 ++ ps2) e <-> trail f ps1 (hd_or ps2 e) /\ trail f ps2 e.
Proof.
  induction ps1 as [|p ps1 IH]; simpl; [tauto|]. rewrite IH, hd_or_app. tauto.
Qed.

Lemma trail_ext f g ps e : (forall p, p ∈ ps -> g p = f p) -> trail f ps e -> trail g ps e.
Proof.
  induction ps as [|p ps IH]; [done|]. intros H [H1 H2]. split.
  - rewrite H by (by left). done.
  - apply IH; [|done]. intros q Hq. apply H. by right.
Qed.

(** The last link of a trail redirected. *)
Lemma trail_redirect f g ps e e' :
  NoDup ps -> (forall p, p ∈ ps -> last ps <> Some p -> g p = f p) ->
  (forall p, last ps = Some p -> g p = Some e') -> trail f ps e -> trail g ps e'.
Proof.
  destruct ps as [|q ps' _] using rev_ind; [done|]. rewrite !last_snoc. intros ND H1 H2 C.
  apply trail_app in C as [C _]. apply trail_app. split; [|by split; [apply H2|]].
  apply NoDup_app in ND as (_ & ND & _).
  eapply trail_ext; [|exact C]. intros p Hp. apply H1; [set_solver|].
  intros [= ->]. apply (ND p Hp). set_solver.
Qed.

(** A node linked in between two parts of a trail. *)
Lemma trail_insert f g ps1 n ps2 e :
  NoDup (ps1 ++ ps2) -> trail f (ps1 ++ ps2) e ->
  (forall p, p ∈ ps1 ++ ps2 -> last ps1 <> Some p -> g p = f p) ->
  (forall p, last ps1 = Some p -> g p = Some (Some n)) ->
  g n = Some (hd_or ps2 e) -> trail g (ps1 ++ n :: ps2) e.
Proof.
  intros ND C H1 H2 H3. apply trail_app in C as [C1 C2].
  apply NoDup_app in ND as (ND1 & ND & _). apply trail_app. split; [|split; [done|]].
  - eapply trail_redirect; [done| |exact H2|exact C1]. intros p Hp. apply H1. set_solver.
  - eapply trail_ext; [|exact C2]. intros p Hp. apply H1; [set_solver|].
    intros Hl. apply (ND p); [|done]. by apply last_Some_elem_of.
Qed.

(** A node taken out of a trail. *)
Lemma trail_delete f g ps1 n ps2 e :
  NoDup (ps1 ++ ps2) -> trail f (ps1 ++ n :: ps2) e ->
  (forall p, p ∈ ps1 ++ ps2 -> last ps1 <> Some p -> g p = f p) ->
  (forall p, last ps1 = Some p -> g p = Some (hd_or ps2 e)) -> trail g (ps1 ++ ps2) e.
Proof.
  intros ND C H1 H2. apply trail_app in C as [C1 [_ C2]].
  apply NoDup_app in ND as (ND1 & ND & _). apply trail_app. split.
  - eapply trail_redirect; [done| |exact H2|exact C1]. intros p Hp. apply H1. set_solver.
  - eapply trail_ext; [|exact C2]. intros p Hp. apply H1; [set_solver|].
    intros Hl. apply (ND p); [|done]. by apply last_Some_elem_of.
Qed.

Lemma trail_lookup f ps1 n ps2 e : trail f (ps1 ++ n :: ps2) e -> f n = Some (hd_or ps2 e).
Proof. intros [_ [H _]]%trail_app. done. Qed.
End Trail.

(** ** Ownership of several blocks

    [owns a c0 c L]: since [c0] exactly the addresses [L] were allocated. *)

Section Owns.
Context {C : Type} (a : zenit_allocator_t C) {SP : AllocSpec a}.
Implicit Types (c : C) (L : list addr).

Definition owns (c0 c : C) L : Prop :=
  NoDup L /\ (forall x, x ∈ L -> x ∉ live c0) /\ live c = list_to_set L ∪ live c0.

(** The address behind a pointer that may be NULL. *)
Definition opt_addr (o : option addr) : list addr := match o with Some x => [x] | None => [] end.

Lemma owns_refl c : owns c c [].
Proof. split_and!; [constructor|set_solver|set_solver]. Qed.

Lemma owns_alloc c0 c L n b c' : owns c0 c L -> alloc_fn a n c = (Some b, c') -> owns c0 c' (b_addr b :: L).
Proof.
  intros (N & D & E) (_ & _ & Hb & Hl)%alloc_some. rewrite E in Hb, Hl. split_and!.
  - constructor; [set_solver|done].
  - set_solver.
  - rewrite Hl. simpl. set_solver.
Qed.

Lemma owns_same c0 c c' L : owns c0 c L -> live c' = live c -> owns c0 c' L.
Proof. intros (N & D & E) Hl. split_and!; [done|done|congruence]. Qed.

Lemma owns_perm c0 c L L' : owns c0 c L -> L ≡ₚ L' -> owns c0 c L'.
Proof.
  intros (N & D & E) P. pose proof (list_to_set_perm_L (C := gset addr) _ _ P) as EP. split_and!.
  - by rewrite <- P.
  - intros x. rewrite <- P. apply D.
  - by rewrite E, EP.
Qed.

Lemma owns_free c0 c x L : owns c0 c (x :: L) -> owns c0 (free_fn a (Some x) c) L.
Proof.
  intros (N & D & E). apply NoDup_cons in N as [Hx N]. simpl in E. split_and!; [done|set_solver|].
  rewrite free_some by (rewrite E; set_solver). rewrite E.
  assert (x ∉ live c0) by (apply D; set_solver). set_solver.
Qed.

Lemma owns_free_opt c0 c o L : owns c0 c (opt_addr o ++ L) -> owns c0 (free_fn a o c) L.
Proof.
  destruct o as [x|]; simpl; [apply owns_free|]. intros H. eapply owns_same; [exact H|]. apply free_none.
Qed.

(** A block that moved. *)
Lemma owns_realloc c0 c c' x y L : owns c0 c (x :: L) -> y ∉ live c ∖ {[ x ]} ->
  live c' = {[ y ]} ∪ (live c ∖ {[ x ]}) -> owns c0 c' (y :: L).
Proof.
  intros (N & D & E) Hy Hl. apply NoDup_cons in N as [Hx N]. simpl in E.
  assert (x ∉ live c0) by (apply D; by left).
  assert (y ∉ L) by (intros H'; apply Hy; rewrite E; set_solver).
  assert (y ∉ live c0) by (intros H'; apply Hy; rewrite E; set_solver).
  split_and!; [by constructor|set_solver|]. rewrite Hl, E. simpl. apply set_eq. intros z. set_solver.
Qed.

Lemma owns_nil c0 c : owns c0 c [] -> live c = live c0.
Proof. intros (_ & _ & E). rewrite E. set_solver. Qed.
End Owns.
