(* ===== verification/Words.v ===== *)
(** * Arrays of 64-bit words

    An array of [size_t] or [uint64_t] is the list of its words with the address it
    was allocated at; NULL is [None]. *)

From Stdlib Require Import ZArith Lia.
From stdpp Require Import base tactics option list numbers gmap sets.
From S2P Require Import Prelude Mem Result Allocator.
Open Scope Z_scope.

Record words : Type := Words { w_addr : addr; w_data : list Z }.
Definition waddr (w : option words) : option addr := w_addr <$> w.

Definition wdata (w : option words) : list Z := match w with Some a => w_data a | None => [] end.

Definition wget (w : option words) (i : Z) : outcome Z :=
  match w with Some a => aget (w_data a) i | None => Undef end.
Definition wset (w : option words) (i v : Z) : outcome (option words) :=
  match w with
  | Some a => let! d := aset (w_data a) i v in Ret (Some (Words (w_addr a) d))
  | None => Undef
  end.

Lemma wget_aget w i : w <> None -> wget w i = aget (wdata w) i.
Proof. by destruct w. Qed.

Lemma wset_range w i v : w <> None -> 0 <= i < zlen (wdata w) ->
  exists w', wset w i v = Ret w' /\ w' <> None /\ waddr w' = waddr w /\
    wdata w' = <[Z.to_nat i := v]> (wdata w).
Proof. destruct w as [a|]; [|done]. intros _ Hi. simpl in *. rewrite aset_range by done. by eexists. Qed.
