(* ===== verification/LinkedList.v ===== *)
(** * Doubly linked list ([src/list.c])

    A node is an object of the store at the address the allocator returned; its
    [data] is the flexible array member.  Operations pass the list handle, the
    store and the allocator state; a pointer to an element is the address of its
    node. *)

From Stdlib Require Import ZArith Lia.
From stdpp Require Import base tactics option list numbers gmap sets.
From S2P Require Import Prelude Mem Result Allocator Machine Links.
Open Scope Z_scope.

Record list_node : Type := mk_node { n_prev : option addr; n_next : option addr; n_data : bytes }.

Record zenit_list_t (C : Type) : Type := mk_list {
  li_self : addr;
  li_head : option addr;
  li_tail : option addr;
  li_elem_size : Z;
  li_count : Z;
  li_allocator : zenit_allocator_t C }.
Arguments mk_list {C}.
Arguments li_self {C}.
Arguments li_head {C}.
Arguments li_tail {C}.
Arguments li_elem_size {C}.
Arguments li_count {C}.
Arguments li_allocator {C}.

Abbreviation nodes := (gmap addr list_node).

(** [sizeof(struct list_node)] and [sizeof(zenit_list_t)]. *)
Definition SIZEOF_LIST_NODE : Z := 16.
Definition SIZEOF_LIST : Z := 64.

Definition set_prev (v : option addr) (n : list_node) : list_node := mk_node v (n_next n) (n_data n).
Definition set_next (v : option addr) (n : list_node) : list_node := mk_node (n_prev n) v (n_data n).
Definition set_data (d : bytes) (n : list_node) : list_node := mk_node (n_prev n) (n_next n) d.

Section ListModel.
Context {C : Type}.
Implicit Types (l : zenit_list_t C) (s : nodes) (c : C) (a : zenit_allocator_t C).

(** The fields that change. *)
Definition upd_list l (head tail : option addr) (count : Z) : zenit_list_t C :=
  mk_list (li_self l) head tail (li_elem_size l) count (li_allocator l).

Definition node_alloc a (elem_size : Z) (elem : bytes) s c : outcome (option addr * nodes * C) :=
  match alloc_fn a (u64 (SIZEOF_LIST_NODE + elem_size)) c with
  | (None, c1) => Ret (None, s, c1)
  | (Some b, c1) =>
      let! d := rd elem 0 elem_size in
      let! raw := wr (b_data b) SIZEOF_LIST_NODE d in
      Ret (Some (b_addr b),
           <[b_addr b := mk_node None None (drop (Z.to_nat SIZEOF_LIST_NODE) raw)]> s, c1)
  end.

(** [n] steps along [link]. *)
Fixpoint follow (link : list_node -> option addr) (n : nat) s (p : option addr) : outcome (option addr) :=
  match n with
  | O => Ret p
  | S n => let! nd := sget s p in follow link n s (link nd)
  end.

Definition node_at l (index : Z) s : outcome (option addr) :=
  if decide (li_count l <= index) then Ret None
  else if decide (index < li_count l / 2) then follow n_next (Z.to_nat index) s (li_head l)
  else
    let from_back := u64 (u64 (li_count l - 1) - index) in
    follow n_prev (Z.to_nat from_back) s (li_tail l).

Definition zenit_list_create_with_allocator (elem_size : Z) a c : option (zenit_list_t C) * C :=
  if decide (elem_size = 0) then (None, c)
  else
    match alloc_fn a SIZEOF_LIST c with
    | (None, c1) => (None, c1)
    | (Some b, c1) => (Some (mk_list (b_addr b) None None elem_size 0 a), c1)
    end.

(** [free_fn] of a node. *)
Definition node_free l (p : addr) s c : nodes * C := (delete p s, free_fn (li_allocator l) (Some p) c).

(** Walk forward and free every node. *)
Fixpoint free_nodes (fuel : nat) l (n : option addr) s c : outcome (nodes * C) :=
  match n with
  | None => Ret (s, c)
  | Some p =>
      match fuel with
      | O => NoFuel
      | S fuel =>
          let! nd := sget s n in
          let '(s1, c1) := node_free l p s c in
          free_nodes fuel l (n_next nd) s1 c1
      end
  end.

Definition zenit_list_destroy (fuel : nat) (list : option (zenit_list_t C)) s c : outcome (nodes * C) :=
  match list with
  | None => Ret (s, c)
  | Some l =>
      let! (s1, c1) := free_nodes fuel l (li_head l) s c in
      Ret (s1, free_fn (li_allocator l) (Some (li_self l)) c1)
  end.

Abbreviation result := (outcome (zenit_error_t * option (zenit_list_t C) * nodes * C)) (only parsing).
Abbreviation result_out :=
  (outcome (zenit_error_t * option (zenit_list_t C) * option bytes * nodes * C)) (only parsing).

Definition zenit_list_push_front (list : option (zenit_list_t C)) (elem : option bytes) s c : result :=
  match list, elem with
  | Some l, Some e =>
      let! (n, s1, c1) := node_alloc (li_allocator l) (li_elem_size l) e s c in
      match n with
      | None => Ret (ZENIT_ERROR_ALLOC, list, s1, c1)
      | Some _ =>
          let! s2 := supd s1 n (set_next (li_head l)) in
          let! s3 := supd s2 n (set_prev None) in
          let! (s4, tail) :=
            match li_head l with
            | Some _ => let! s4 := supd s3 (li_head l) (set_prev n) in Ret (s4, li_tail l)
            | None => Ret (s3, n)
            end in
          Ret (ZENIT_OK, Some (upd_list l n tail (u64 (li_count l + 1))), s4, c1)
      end
  | _, _ => Ret (ZENIT_ERROR_NULL, list, s, c)
  end.

Definition zenit_list_push_back (list : option (zenit_list_t C)) (elem : option bytes) s c : result :=
  match list, elem with
  | Some l, Some e =>
      let! (n, s1, c1) := node_alloc (li_allocator l) (li_elem_size l) e s c in
      match n with
      | None => Ret (ZENIT_ERROR_ALLOC, list, s1, c1)
      | Some _ =>
          let! s2 := supd s1 n (set_prev (li_tail l)) in
          let! s3 := supd s2 n (set_next None) in
          let! (s4, head) :=
            match li_tail l with
            | Some _ => let! s4 := supd s3 (li_tail l) (set_next n) in Ret (s4, li_head l)
            | None => Ret (s3, n)
            end in
          Ret (ZENIT_OK, Some (upd_list l head n (u64 (li_count l + 1))), s4, c1)
      end
  | _, _ => Ret (ZENIT_ERROR_NULL, list, s, c)
  end.

Definition zenit_list_pop_front (list : option (zenit_list_t C)) (out_elem : option bytes) s c : result_out :=
  match list, out_elem with
  | Some l, Some out =>
      if decide (li_count l = 0) then Ret (ZENIT_ERROR_EMPTY, list, out_elem, s, c)
      else
        let! nd := sget s (li_head l) in
        let! x := rd (n_data nd) 0 (li_elem_size l) in
        let! out1 := wr out 0 x in
        let head := n_next nd in
        let! (s1, tail) :=
          match head with
          | Some _ => let! s1 := supd s head (set_prev None) in Ret (s1, li_tail l)
          | None => Ret (s, None)
          end in
        let '(s2, c2) := match li_head l with Some p => node_free l p s1 c | None => (s1, c) end in
        Ret (ZENIT_OK, Some (upd_list l head tail (u64 (li_count l - 1))), Some out1, s2, c2)
  | _, _ => Ret (ZENIT_ERROR_NULL, list, out_elem, s, c)
  end.

Definition zenit_list_pop_back (list : option (zenit_list_t C)) (out_elem : option bytes) s c : result_out :=
  match list, out_elem with
  | Some l, Some out =>
      if decide (li_count l = 0) then Ret (ZENIT_ERROR_EMPTY, list, out_elem, s, c)
      else
        let! nd := sget s (li_tail l) in
        let! x := rd (n_data nd) 0 (li_elem_size l) in
        let! out1 := wr out 0 x in
        let tail := n_prev nd in
        let! (s1, head) :=
          match tail with
          | Some _ => let! s1 := supd s tail (set_next None) in Ret (s1, li_head l)
          | None => Ret (s, None)
          end in
        let '(s2, c2) := match li_tail l with Some p => node_free l p s1 c | None => (s1, c) end in
        Ret (ZENIT_OK, Some (upd_list l head tail (u64 (li_count l - 1))), Some out1, s2, c2)
  | _, _ => Ret (ZENIT_ERROR_NULL, list, out_elem, s, c)
  end.

Definition zenit_list_insert (list : option (zenit_list_t C)) (index : Z) (elem : option bytes) s c : result :=
  match list, elem with
  | Some l, Some e =>
      if decide (li_count l < index) then Ret (ZENIT_ERROR_PARAM, list, s, c)
      else if decide (index = 0) then zenit_list_push_front list elem s c
      else if decide (index = li_count l) then zenit_list_push_back list elem s c
      else
        let! next := node_at l index s in
        let! (n, s1, c1) := node_alloc (li_allocator l) (li_elem_size l) e s c in
        match n with
        | None => Ret (ZENIT_ERROR_ALLOC, list, s1, c1)
        | Some _ =>
            let! nd := sget s1 next in
            let! s2 := supd s1 n (set_prev (n_prev nd)) in
            let! s3 := supd s2 n (set_next next) in
            let! nd3 := sget s3 next in
            let! s4 := supd s3 (n_prev nd3) (set_next n) in
            let! s5 := supd s4 next (set_prev n) in
            Ret (ZENIT_OK, Some (upd_list l (li_head l) (li_tail l) (u64 (li_count l + 1))), s5, c1)
        end
  | _, _ => Ret (ZENIT_ERROR_NULL, list, s, c)
  end.

Definition zenit_list_remove (list : option (zenit_list_t C)) (index : Z) (out_elem : option bytes) s c
    : result_out :=
  match list, out_elem with
  | Some l, Some out =>
      if decide (li_count l <= index) then Ret (ZENIT_ERROR_PARAM, list, out_elem, s, c)
      else if decide (index = 0) then zenit_list_pop_front list out_elem s c
      else if decide (index = u64 (li_count l - 1)) then zenit_list_pop_back list out_elem s c
      else
        let! n := node_at l index s in
        let! nd := sget s n in
        let! x := rd (n_data nd) 0 (li_elem_size l) in
        let! out1 := wr out 0 x in
        let! s1 := supd s (n_prev nd) (set_next (n_next nd)) in
        let! nd1 := sget s1 n in
        let! s2 := supd s1 (n_next nd1) (set_prev (n_prev nd1)) in
        let '(s3, c3) := match n with Some p => node_free l p s2 c | None => (s2, c) end in
        Ret (ZENIT_OK, Some (upd_list l (li_head l) (li_tail l) (u64 (li_count l - 1))), Some out1, s3, c3)
  | _, _ => Ret (ZENIT_ERROR_NULL, list, out_elem, s, c)
  end.

Definition zenit_list_get (list : option (zenit_list_t C)) (index : Z) s : outcome (option addr) :=
  match list with
  | None => Ret None
  | Some l => let! n := node_at l index s in Ret n
  end.

Definition zenit_list_set (list : option (zenit_list_t C)) (index : Z) (elem : option bytes) s
    : outcome (zenit_error_t * nodes) :=
  match list, elem with
  | Some l, Some e =>
      let! n := node_at l index s in
      match n with
      | None => Ret (ZENIT_ERROR_PARAM, s)
      | Some _ =>
          let! nd := sget s n in
          let! x := rd e 0 (li_elem_size l) in
          let! d := wr (n_data nd) 0 x in
          let! s1 := supd s n (set_data d) in
          Ret (ZENIT_OK, s1)
      end
  | _, _ => Ret (ZENIT_ERROR_NULL, s)
  end.

Definition zenit_list_count (list : option (zenit_list_t C)) : Z :=
  match list with None => 0 | Some l => li_count l end.

Definition zenit_list_empty (list : option (zenit_list_t C)) : Z :=
  match list with None => 1 | Some l => if decide (li_count l = 0) then 1 else 0 end.

Definition zenit_list_clear (fuel : nat) (list : option (zenit_list_t C)) s c
    : outcome (option (zenit_list_t C) * nodes * C) :=
  match list with
  | None => Ret (None, s, c)
  | Some l =>
      let! (s1, c1) := free_nodes fuel l (li_head l) s c in
      Ret (Some (upd_list l None None 0), s1, c1)
  end.

(** The visitor gets the element as [const void *] and changes its context only. *)
Fixpoint visit_nodes {X : Type} (fuel : nat) (link : list_node -> option addr) (visit : bytes -> X -> X)
    (n : option addr) s (ctx : X) : outcome X :=
  match n with
  | None => Ret ctx
  | Some _ =>
      match fuel with
      | O => NoFuel
      | S fuel => let! nd := sget s n in visit_nodes fuel link visit (link nd) s (visit (n_data nd) ctx)
      end
  end.

Definition zenit_list_foreach {X : Type} (fuel : nat) (list : option (zenit_list_t C))
    (visit : option (bytes -> X -> X)) s (ctx : X) : outcome X :=
  match list, visit with
  | Some l, Some f => visit_nodes fuel n_next f (li_head l) s ctx
  | _, _ => Ret ctx
  end.

Definition zenit_list_reverse_foreach {X : Type} (fuel : nat) (list : option (zenit_list_t C))
    (visit : option (bytes -> X -> X)) s (ctx : X) : outcome X :=
  match list, visit with
  | Some l, Some f => visit_nodes fuel n_prev f (li_tail l) s ctx
  | _, _ => Ret ctx
  end.

Definition zenit_list_front (list : option (zenit_list_t C)) : option addr :=
  match list with None => None | Some l => li_head l end.

Definition zenit_list_back (list : option (zenit_list_t C)) : option addr :=
  match list with None => None | Some l => li_tail l end.

Definition zenit_list_iter (list : option (zenit_list_t C)) : zenit_iter_t :=
  match list with
  | None => mk_iter 0 0 false None
  | Some l => mk_iter 0 (li_count l) true (li_head l)
  end.
End ListModel.

Definition zenit_list_iter_next (iter : option zenit_iter_t) (s : nodes)
    : outcome (option addr * option zenit_iter_t) :=
  match iter with
  | None => Ret (None, None)
  | Some it =>
      if it_is_valid it then
        match it_internal it with
        | None => Ret (None, iter)
        | Some p =>
            let! nd := sget s (Some p) in
            Ret (Some p, Some (mk_iter (u64 (it_index it + 1)) (it_count it) true (n_next nd)))
        end
      else Ret (None, iter)
  end.

Definition zenit_list_create (elem_size : Z) (c : heap) : option (zenit_list_t heap) * heap :=
  zenit_list_create_with_allocator elem_size ZENIT_ALLOCATOR_DEFAULT c.

(** ** Specification: a sequence of elements *)

Inductive list_op : Type :=
| LPushFront (x : bytes) | LPushBack (x : bytes) | LPopFront (out : bytes) | LPopBack (out : bytes)
| LInsert (i : Z) (x : bytes) | LRemove (i : Z) (out : bytes) | LGet (i : Z) | LSet (i : Z) (x : bytes)
| LFront | LBack | LCount | LEmpty | LClear | LForeach | LReverse | LIterate.

Inductive list_res : Type :=
| LErr (e : zenit_error_t) | LOut (e : zenit_error_t) (out : option bytes) | LElem (x : option bytes)
| LNum (n : Z) | LAll (xs : list bytes) | LVoid.

Definition list_spec (op : list_op) (xs : list bytes) : list_res * list bytes :=
  match op with
  | LPushFront x => (LErr ZENIT_OK, x :: xs)
  | LPushBack x => (LErr ZENIT_OK, xs ++ [x])
  | LPopFront out =>
      match xs with
      | [] => (LOut ZENIT_ERROR_EMPTY (Some out), [])
      | x :: xs => (LOut ZENIT_OK (Some x), xs)
      end
  | LPopBack out =>
      match last xs with
      | None => (LOut ZENIT_ERROR_EMPTY (Some out), xs)
      | Some x => (LOut ZENIT_OK (Some x), take (length xs - 1) xs)
      end
  | LInsert i x =>
      if decide (i <= zlen xs) then (LErr ZENIT_OK, take (Z.to_nat i) xs ++ x :: drop (Z.to_nat i) xs)
      else (LErr ZENIT_ERROR_PARAM, xs)
  | LRemove i out =>
      match xs !! Z.to_nat i with
      | Some x => (LOut ZENIT_OK (Some x), delete (Z.to_nat i) xs)
      | None => (LOut ZENIT_ERROR_PARAM (Some out), xs)
      end
  | LGet i => (LElem (xs !! Z.to_nat i), xs)
  | LSet i x =>
      if decide (i < zlen xs) then (LErr ZENIT_OK, <[Z.to_nat i := x]> xs) else (LErr ZENIT_ERROR_PARAM, xs)
  | LFront => (LElem (head xs), xs)
  | LBack => (LElem (last xs), xs)
  | LCount => (LNum (zlen xs), xs)
  | LEmpty => (LNum (if decide (xs = []) then 1 else 0), xs)
  | LClear => (LVoid, [])
  | LForeach | LIterate => (LAll xs, xs)
  | LReverse => (LAll (reverse xs), xs)
  end.

(** The calls that may report [ZENIT_ERROR_ALLOC] instead. *)
Definition allocates (op : list_op) (xs : list bytes) : Prop :=
  match op with LPushFront _ | LPushBack _ => True | LInsert i _ => i <= zlen xs | _ => False end.

Inductive list_step : list_op -> list bytes -> list_res -> list bytes -> Prop :=
| ls_done op xs : list_step op xs (list_spec op xs).1 (list_spec op xs).2
| ls_alloc op xs : allocates op xs -> list_step op xs (LErr ZENIT_ERROR_ALLOC) xs.

(** ** Execution of the calls *)

Section ListRun.
Context {C : Type}.

Definition list_state : Type := zenit_list_t C * nodes * C.

(** What a returned element pointer shows. *)
Definition deref (p : option addr) (s : nodes) : outcome (option bytes) :=
  match p with None => Ret None | Some _ => let! nd := sget s p in Ret (Some (n_data nd)) end.

(** [zenit_list_iter_next] called until it returns NULL. *)
Fixpoint iterate (fuel : nat) (it : zenit_iter_t) (s : nodes) : outcome (list bytes) :=
  let! (p, it1) := zenit_list_iter_next (Some it) s in
  match p, it1, fuel with
  | None, _, _ => Ret []
  | _, None, _ | _, _, O => NoFuel
  | Some _, Some it1, S fuel =>
      let! x := deref p s in
      let! xs := iterate fuel it1 s in
      Ret (match x with Some x => x :: xs | None => xs end)
  end.

Definition with_handle {X : Type} (r : X * option (zenit_list_t C) * nodes * C) : outcome (X * list_state) :=
  match r with
  | (x, Some l, s, c) => Ret (x, (l, s, c))
  | (_, None, _, _) => Undef
  end.

Definition list_exec (fuel : nat) (op : list_op) (st : list_state) : outcome (list_res * list_state) :=
  let '(l, s, c) := st in
  match op with
  | LPushFront x =>
      let! (e, l1, s1, c1) := zenit_list_push_front (Some l) (Some x) s c in with_handle (LErr e, l1, s1, c1)
  | LPushBack x =>
      let! (e, l1, s1, c1) := zenit_list_push_back (Some l) (Some x) s c in with_handle (LErr e, l1, s1, c1)
  | LPopFront out =>
      let! (e, l1, o, s1, c1) := zenit_list_pop_front (Some l) (Some out) s c in with_handle (LOut e o, l1, s1, c1)
  | LPopBack out =>
      let! (e, l1, o, s1, c1) := zenit_list_pop_back (Some l) (Some out) s c in with_handle (LOut e o, l1, s1, c1)
  | LInsert i x =>
      let! (e, l1, s1, c1) := zenit_list_insert (Some l) i (Some x) s c in with_handle (LErr e, l1, s1, c1)
  | LRemove i out =>
      let! (e, l1, o, s1, c1) := zenit_list_remove (Some l) i (Some out) s c in with_handle (LOut e o, l1, s1, c1)
  | LGet i => let! p := zenit_list_get (Some l) i s in let! x := deref p s in Ret (LElem x, st)
  | LSet i x => let! (e, s1) := zenit_list_set (Some l) i (Some x) s in Ret (LErr e, (l, s1, c))
  | LFront => let! x := deref (zenit_list_front (Some l)) s in Ret (LElem x, st)
  | LBack => let! x := deref (zenit_list_back (Some l)) s in Ret (LElem x, st)
  | LCount => Ret (LNum (zenit_list_count (Some l)), st)
  | LEmpty => Ret (LNum (zenit_list_empty (Some l)), st)
  | LClear =>
      let! (l1, s1, c1) := zenit_list_clear fuel (Some l) s c in with_handle (LVoid, l1, s1, c1)
  | LForeach =>
      let! xs := zenit_list_foreach fuel (Some l) (Some (fun x acc => acc ++ [x])) s [] in Ret (LAll xs, st)
  | LReverse =>
      let! xs := zenit_list_reverse_foreach fuel (Some l) (Some (fun x acc => acc ++ [x])) s [] in
      Ret (LAll xs, st)
  | LIterate => let! xs := iterate fuel (zenit_list_iter (Some l)) s in Ret (LAll xs, st)
  end.
End ListRun.
Arguments list_state : clear implicits.

Definition list_pre (es : Z) (op : list_op) : Prop :=
  match op with
  | LPushFront x | LPushBack x | LPopFront x | LPopBack x => zlen x = es
  | LInsert i x | LRemove i x | LSet i x => 0 <= i < two64 /\ zlen x = es
  | LGet i => 0 <= i < two64
  | _ => True
  end.

(** ** Invariant *)

Definition nx (s : nodes) (p : addr) : option (option addr) := n_next <$> s !! p.
Definition pv (s : nodes) (p : addr) : option (option addr) := n_prev <$> s !! p.
Definition holds (s : nodes) (es : Z) (p : addr) (x : bytes) : Prop :=
  n_data <$> s !! p = Some x /\ zlen x = es.

Record linked (s : nodes) (es : Z) (ps : list addr) (xs : list bytes) : Prop := {
  lk_next : trail (nx s) ps None;
  lk_prev : trail (pv s) (reverse ps) None;
  lk_nodup : NoDup ps;
  lk_data : Forall2 (holds s es) ps xs }.
Arguments lk_next {s es ps xs}.
Arguments lk_prev {s es ps xs}.
Arguments lk_nodup {s es ps xs}.
Arguments lk_data {s es ps xs}.

(** [F] is what was allocated before the list existed, [m] bounds the length the
    list can reach with the calls that are left. *)
Record list_shape {C : Type} (a : zenit_allocator_t C) {SP : AllocSpec a} (es : Z) (F : gset addr)
    (l : zenit_list_t C) (s : nodes) (c : C) (ps : list addr) (xs : list bytes) : Prop := {
  lr_alloc : li_allocator l = a;
  lr_es : li_elem_size l = es;
  lr_head : li_head l = head ps;
  lr_tail : li_tail l = last ps;
  lr_count : li_count l = zlen ps;
  lr_linked : linked s es ps xs;
  lr_self : li_self l ∉ ps;
  lr_owns : {[ li_self l ]} ∪ list_to_set ps ⊆ live c;
  lr_rest : live c ∖ ({[ li_self l ]} ∪ list_to_set ps) = F }.

Arguments lr_alloc {C a SP es F l s c ps xs}.
Arguments lr_es {C a SP es F l s c ps xs}.
Arguments lr_head {C a SP es F l s c ps xs}.
Arguments lr_tail {C a SP es F l s c ps xs}.
Arguments lr_count {C a SP es F l s c ps xs}.
Arguments lr_linked {C a SP es F l s c ps xs}.
Arguments lr_self {C a SP es F l s c ps xs}.
Arguments lr_owns {C a SP es F l s c ps xs}.
Arguments lr_rest {C a SP es F l s c ps xs}.

Definition list_rep {C : Type} (a : zenit_allocator_t C) {SP : AllocSpec a} (es : Z) (F : gset addr)
    (m : nat) (budget : nat) (st : list_state C) (xs : list bytes) : Prop :=
  exists ps, (length ps + budget <= m)%nat /\ list_shape a es F st.1.1 st.1.2 st.2 ps xs.

(** ** Chains in the store *)

Section LinkFacts.
Implicit Types (s : nodes) (p q : addr) (ps : list addr).

Lemma nx_alter s f p q : nx (alter f p s) q = if decide (q = p) then (fun n => n_next (f n)) <$> s !! p else nx s q.
Proof.
  unfold nx. destruct (decide (q = p)) as [->|D]; [|by rewrite lookup_alter_ne by done].
  rewrite lookup_alter_eq. by destruct (s !! p).
Qed.

Lemma pv_alter s f p q : pv (alter f p s) q = if decide (q = p) then (fun n => n_prev (f n)) <$> s !! p else pv s q.
Proof.
  unfold pv. destruct (decide (q = p)) as [->|D]; [|by rewrite lookup_alter_ne by done].
  rewrite lookup_alter_eq. by destruct (s !! p).
Qed.

Lemma linked_store s es ps xs p : linked s es ps xs -> p ∈ ps -> exists n, s !! p = Some n.
Proof.
  intros [_ _ _ D] [i Hi]%list_elem_of_lookup. destruct (Forall2_lookup_l _ _ _ _ _ D Hi) as (x & _ & [E _]).
  destruct (s !! p); [by eexists|done].
Qed.

Lemma linked_length s es ps xs : linked s es ps xs -> zlen ps = zlen xs.
Proof. intros [_ _ _ D%Forall2_length]. unfold zlen. lia. Qed.

Lemma head_reverse_last ps : hd_or (reverse ps) None = last ps.
Proof. by rewrite hd_or_None, head_reverse. Qed.

(** Nodes linked in: [n] between [ps1] and [ps2]. *)
Lemma linked_insert s s' es ps1 ps2 xs1 xs2 n x :
  linked s es (ps1 ++ ps2) (xs1 ++ xs2) -> length ps1 = length xs1 -> n ∉ ps1 ++ ps2 -> zlen x = es ->
  (forall p, p ∈ ps1 ++ ps2 -> n_data <$> s' !! p = n_data <$> s !! p) ->
  s' !! n = Some (mk_node (last ps1) (head ps2) x) ->
  (forall p, p ∈ ps1 ++ ps2 -> nx s' p = if decide (last ps1 = Some p) then Some (Some n) else nx s p) ->
  (forall p, p ∈ ps1 ++ ps2 -> pv s' p = if decide (head ps2 = Some p) then Some (Some n) else pv s p) ->
  linked s' es (ps1 ++ n :: ps2) (xs1 ++ x :: xs2).
Proof.
  intros [Cn Cp ND D] L Hn Hx Hd Hs Hnx Hpv. split.
  - eapply trail_insert; [exact ND|exact Cn| | |unfold nx; rewrite Hs; by rewrite hd_or_None].
    + intros p Hp Hl. by rewrite Hnx, decide_False by done.
    + intros p Hl. rewrite Hnx, decide_True; [done|done|]. apply last_Some_elem_of in Hl. set_solver.
  - rewrite reverse_app, reverse_cons, <- app_assoc. rewrite reverse_app in Cp.
    eapply trail_insert; [|exact Cp| | |].
    + rewrite <- reverse_app. by apply NoDup_reversed.
    + intros p Hp. rewrite last_reverse. intros Hl. rewrite Hpv, decide_False; [done|done|].
      rewrite <- reverse_app, elem_of_reverse in Hp. done.
    + intros p. rewrite last_reverse. intros Hl. rewrite Hpv, decide_True; [done|done|].
      apply head_Some_elem_of in Hl. set_solver.
    + unfold pv. rewrite Hs. by rewrite head_reverse_last.
  - apply NoDup_app in ND as (N1 & N2 & N3). apply NoDup_app. split_and!; [done|set_solver|].
    apply NoDup_cons. set_solver.
  - assert (Forall2 (holds s' es) (ps1 ++ ps2) (xs1 ++ xs2)) as D'.
    { eapply Forall2_elem_impl; [exact D|]. intros p y Hp [E1 E2]. split; [by rewrite Hd|done]. }
    apply Forall2_app_inv in D' as [D1 D2]; [|done]. apply Forall2_app; [done|]. constructor; [|done].
    unfold holds. rewrite Hs. done.
Qed.

Lemma linked_delete s s' es ps1 ps2 xs1 xs2 n x :
  linked s es (ps1 ++ n :: ps2) (xs1 ++ x :: xs2) -> length ps1 = length xs1 ->
  (forall p, p ∈ ps1 ++ ps2 -> n_data <$> s' !! p = n_data <$> s !! p) ->
  (forall p, p ∈ ps1 ++ ps2 -> nx s' p = if decide (last ps1 = Some p) then Some (head ps2) else nx s p) ->
  (forall p, p ∈ ps1 ++ ps2 -> pv s' p = if decide (head ps2 = Some p) then Some (last ps1) else pv s p) ->
  linked s' es (ps1 ++ ps2) (xs1 ++ xs2).
Proof.
  intros [Cn Cp ND D] L Hd Hnx Hpv.
  assert (NoDup (ps1 ++ ps2)) as ND'.
  { apply NoDup_app in ND as (N1 & N2 & N3). apply NoDup_cons in N3 as [_ N3]. apply NoDup_app. set_solver. }
  split.
  - eapply trail_delete; [exact ND'|exact Cn| |].
    + intros p Hp Hl. by rewrite Hnx, decide_False by done.
    + intros p Hl. rewrite Hnx, decide_True; [by rewrite hd_or_None|done|].
      apply last_Some_elem_of in Hl. set_solver.
  - rewrite reverse_app, reverse_cons, <- app_assoc in Cp. rewrite reverse_app.
    eapply trail_delete; [|exact Cp| |].
    + rewrite <- reverse_app. by apply NoDup_reversed.
    + intros p Hp. rewrite last_reverse. intros Hl. rewrite Hpv, decide_False; [done|done|].
      rewrite <- reverse_app, elem_of_reverse in Hp. done.
    + intros p. rewrite last_reverse. intros Hl. rewrite Hpv, decide_True; [by rewrite head_reverse_last|done|].
      apply head_Some_elem_of in Hl. set_solver.
  - done.
  - apply Forall2_app_inv in D as [D1 D2]; [|done]. inversion D2; subst.
    eapply Forall2_elem_impl; [by apply Forall2_app|]. intros p y Hp [E1 E2]. split; [by rewrite Hd|done].
Qed.

(** The store after [n] was put between [prev] and [next], and after it was taken out. *)
Definition relink s (n : addr) (prev next : option addr) (x : bytes) : nodes :=
  upd_opt next (set_prev (Some n)) (upd_opt prev (set_next (Some n)) (<[n := mk_node prev next x]> s)).

Definition unlink s (n : addr) (prev next : option addr) : nodes :=
  delete n (upd_opt next (set_prev prev) (upd_opt prev (set_next next) s)).

Lemma upd_opt_lookup s o f p :
  (upd_opt o f s : nodes) !! p = if decide (o = Some p) then f <$> s !! p else s !! p.
Proof.
  destruct o as [q|]; simpl; [|done].
  destruct (decide (Some q = Some p)) as [[= ->]|D]; [by rewrite lookup_alter_eq|].
  by rewrite lookup_alter_ne by congruence.
Qed.

Lemma linked_relink s es ps1 ps2 xs1 xs2 n x :
  linked s es (ps1 ++ ps2) (xs1 ++ xs2) -> length ps1 = length xs1 -> n ∉ ps1 ++ ps2 -> zlen x = es ->
  linked (relink s n (last ps1) (head ps2) x) es (ps1 ++ n :: ps2) (xs1 ++ x :: xs2).
Proof.
  intros H L Hn Hx.
  assert (forall p, p ∈ ps1 ++ ps2 -> n <> p) as Hne by (intros p Hp ->; done).
  assert (forall p, last ps1 = Some p -> p ∈ ps1 ++ ps2) as H1
    by (intros p ?%last_Some_elem_of; set_solver).
  assert (forall p, head ps2 = Some p -> p ∈ ps1 ++ ps2) as H2
    by (intros p ?%head_Some_elem_of; set_solver).
  eapply linked_insert; [exact H|done|done|done| | | |]; unfold relink, nx, pv.
  - intros p Hp. rewrite !upd_opt_lookup, lookup_insert_ne by auto.
    destruct (linked_store s es _ _ _ H Hp) as [nd ->]. by repeat case_decide.
  - rewrite !upd_opt_lookup, lookup_insert_eq. rewrite !decide_False by naive_solver. done.
  - intros p Hp. rewrite !upd_opt_lookup, lookup_insert_ne by auto.
    destruct (linked_store s es _ _ _ H Hp) as [nd ->]. by repeat case_decide.
  - intros p Hp. rewrite !upd_opt_lookup, lookup_insert_ne by auto.
    destruct (linked_store s es _ _ _ H Hp) as [nd ->]. by repeat case_decide.
Qed.

Lemma linked_unlink s es ps1 ps2 xs1 xs2 n x :
  linked s es (ps1 ++ n :: ps2) (xs1 ++ x :: xs2) -> length ps1 = length xs1 ->
  linked (unlink s n (last ps1) (head ps2)) es (ps1 ++ ps2) (xs1 ++ xs2).
Proof.
  intros H L.
  assert (forall p, p ∈ ps1 ++ ps2 -> n <> p /\ p ∈ ps1 ++ n :: ps2) as Hne.
  { intros p Hp. split; [|set_solver]. intros ->. pose proof (lk_nodup H) as ND.
    rewrite <- Permutation_middle in ND. by apply NoDup_cons in ND as [? _]. }
  eapply linked_delete; [exact H|done| | |]; unfold unlink, nx, pv;
    intros p [Hp Hi]%Hne; rewrite lookup_delete_ne, !upd_opt_lookup by done;
    destruct (linked_store s es _ _ _ H Hi) as [nd ->]; by repeat case_decide.
Qed.

(** Walking a list. *)
Lemma follow_spec link s : forall n ps e, trail (fun p => link <$> s !! p) ps e -> (n <= length ps)%nat ->
  follow link n s (hd_or ps e) = Ret (hd_or (drop n ps) e).
Proof.
  induction n as [|n IH]; intros ps e C L; cbn [follow]; [by rewrite drop_0|].
  destruct ps as [|p ps]; simpl in L; [lia|]. destruct C as [H C]. cbn [hd_or drop].
  unfold sget. destruct (s !! p) as [nd|]; [|done]. injection H as H. cbn [obind]. rewrite H. apply IH; [done|lia].
Qed.

Lemma hd_or_drop ps i : hd_or (drop i ps) None = ps !! i.
Proof. rewrite hd_or_None, head_lookup, lookup_drop. f_equal. lia. Qed.
End LinkFacts.

Section ListProofs.
Context {C : Type} (a : zenit_allocator_t C) {SP : AllocSpec a}.
Implicit Types (l : zenit_list_t C) (s : nodes) (c : C).

Lemma node_at_spec l s es ps xs i :
  li_head l = head ps -> li_tail l = last ps -> li_count l = zlen ps -> zlen ps < two64 ->
  linked s es ps xs -> 0 <= i -> node_at l i s = Ret (ps !! Z.to_nat i).
Proof.
  intros Eh Et Ec Hm [Cn Cp ND D] Hi. unfold node_at. rewrite Ec.
  destruct (decide (zlen ps <= i)).
  { f_equal. symmetry. apply lookup_ge_None. unfold zlen in *. lia. }
  pose proof (zlen_nonneg ps). destruct (decide (i < zlen ps / 2)).
  - rewrite Eh, <- hd_or_None, follow_spec by (done || unfold zlen in *; lia). f_equal. apply hd_or_drop.
  - rewrite (u64_small (zlen ps - 1)), u64_small by lia. rewrite Et, <- head_reverse_last, follow_spec
      by (done || rewrite length_reverse; unfold zlen in *; lia).
    f_equal. rewrite hd_or_drop, reverse_lookup by (unfold zlen in *; lia). f_equal. unfold zlen in *. lia.
Qed.

Lemma node_alloc_spec es e s c :
  0 < es < two64 - SIZEOF_LIST_NODE -> zlen e = es ->
  exists r c', match r with
    | None => node_alloc a es e s c = Ret (None, s, c') /\ live c' = live c
    | Some p => node_alloc a es e s c = Ret (Some p, <[p := mk_node None None e]> s, c') /\
        p ∉ live c /\ live c' = {[ p ]} ∪ live c
    end.
Proof.
  unfold SIZEOF_LIST_NODE. intros Hes He. unfold node_alloc, SIZEOF_LIST_NODE.
  rewrite u64_small by lia. destruct (alloc_fn a (16 + es) c) as [[b|] c'] eqn:E.
  2: { exists None, c'. split; [done|]. by eapply alloc_none. }
  apply alloc_some in E as (L & M & Hb & Hl). exists (Some (b_addr b)), c'. split; [|done].
  rewrite rd_Ret by lia. cbn [obind]. rewrite drop_0, take_ge by (unfold zlen in He; lia).
  unfold wr. rewrite decide_True by lia. cbn [obind].
  do 2 f_equal. f_equal. f_equal.
  rewrite (drop_ge (b_data b)) by (unfold zlen in *; lia). rewrite app_nil_r.
  rewrite drop_app_length' by (rewrite length_take; unfold zlen in *; lia). done.
Qed.

(** The handle after a node was linked in, and after one was taken out and freed. *)
Lemma shape_grow es F l s s' c c' ps ps' xs xs' p h t n :
  list_shape a es F l s c ps xs -> (p ∉ live c) -> live c' = {[ p ]} ∪ live c -> ps' ≡ₚ p :: ps ->
  linked s' es ps' xs' -> h = head ps' -> t = last ps' -> n = zlen ps' ->
  list_shape a es F (upd_list l h t n) s' c' ps' xs'.
Proof.
  intros [] Hp Hl P HL -> -> ->. pose proof (list_to_set_perm_L (C := gset addr) _ _ P) as E. simpl in E.
  split; try done; simpl.
  - rewrite P. set_solver.
  - rewrite E, Hl. set_solver.
  - rewrite E, Hl, <- lr_rest0. set_solver.
Qed.

Lemma shape_shrink es F l s s' c ps ps' xs xs' p h t n :
  list_shape a es F l s c ps xs -> ps ≡ₚ p :: ps' ->
  linked s' es ps' xs' -> h = head ps' -> t = last ps' -> n = zlen ps' ->
  list_shape a es F (upd_list l h t n) s' (free_fn (li_allocator l) (Some p) c) ps' xs'.
Proof.
  intros [] P HL -> -> ->.
  assert (NoDup ps) as ND by apply lr_linked0. rewrite P in ND. apply NoDup_cons in ND as [Hp _].
  rewrite P in lr_self0. pose proof (list_to_set_perm_L (C := gset addr) _ _ P) as E. simpl in E.
  rewrite E in lr_owns0, lr_rest0.
  rewrite lr_alloc0. split; try done; simpl; [set_solver| |]; rewrite free_some by set_solver.
  - set_solver.
  - rewrite <- lr_rest0. set_solver.
Qed.

Lemma relink_shape es F l s c c' ps1 ps2 xs1 xs2 p x :
  list_shape a es F l s c (ps1 ++ ps2) (xs1 ++ xs2) -> length ps1 = length xs1 ->
  (p ∉ live c) -> live c' = {[ p ]} ∪ live c -> zlen x = es -> zlen (ps1 ++ ps2) + 1 < two64 ->
  list_shape a es F (upd_list l (head (ps1 ++ p :: ps2)) (last (ps1 ++ p :: ps2)) (u64 (li_count l + 1)))
    (relink s p (last ps1) (head ps2) x) c' (ps1 ++ p :: ps2) (xs1 ++ x :: xs2).
Proof.
  intros H L Hp Hl Hx Hm. eapply shape_grow; [exact H|exact Hp|done| |..]; try done.
  - by rewrite Permutation_middle.
  - apply linked_relink; [by apply H|done| |done]. pose proof (lr_owns H). set_solver.
  - rewrite (lr_count H), u64_small by zl. zl.
Qed.

Lemma unlink_shape es F l s c ps1 ps2 xs1 xs2 p x :
  list_shape a es F l s c (ps1 ++ p :: ps2) (xs1 ++ x :: xs2) -> length ps1 = length xs1 ->
  zlen (ps1 ++ p :: ps2) < two64 ->
  list_shape a es F (upd_list l (head (ps1 ++ ps2)) (last (ps1 ++ ps2)) (u64 (li_count l - 1)))
    (unlink s p (last ps1) (head ps2)) (free_fn (li_allocator l) (Some p) c) (ps1 ++ ps2) (xs1 ++ xs2).
Proof.
  intros H L Hm. eapply shape_shrink; [exact H| |..]; try done.
  - by rewrite Permutation_middle.
  - eapply linked_unlink; [by apply H|done].
  - rewrite (lr_count H), u64_small by zl. zl.
Qed.

(** A new node filled in. *)
Lemma fill_node s p x pr nx0 : 
  supd (<[p := mk_node None None x]> s) (Some p) (set_prev pr) = Ret (<[p := mk_node pr None x]> s) /\
  supd (<[p := mk_node None None x]> s) (Some p) (set_next nx0) = Ret (<[p := mk_node None nx0 x]> s) /\
  supd (<[p := mk_node pr None x]> s) (Some p) (set_next nx0) = Ret (<[p := mk_node pr nx0 x]> s) /\
  supd (<[p := mk_node None nx0 x]> s) (Some p) (set_prev pr) = Ret (<[p := mk_node pr nx0 x]> s).
Proof. split_and!; by erewrite supd_Some, insert_insert_eq by apply lookup_insert_eq. Qed.

(** What a call on a list that holds [xs] must achieve, with room for [k] more nodes. *)
Definition call_ok es F (k : nat) (op : list_op) (ps : list addr) (xs : list bytes)
    (r : outcome (list_res * list_state C)) : Prop :=
  exists res l' s' c' ps' xs', r = Ret (res, (l', s', c')) /\ list_shape a es F l' s' c' ps' xs' /\
    (length ps' <= k + length ps)%nat /\ list_step op xs res xs'.

(** A refused allocation leaves everything as it was. *)
Lemma call_refused es F k op l s c c' ps xs :
  list_shape a es F l s c ps xs -> live c' = live c -> allocates op xs ->
  call_ok es F k op ps xs (Ret (LErr ZENIT_ERROR_ALLOC, (l, s, c'))).
Proof.
  intros H Hl Ha. eexists _, l, s, c', ps, xs. split; [done|]. split_and!; [|lia|by constructor].
  destruct H; split; rewrite ?Hl; done.
Qed.

Lemma store_insert es F l s c ps xs p q nd :
  list_shape a es F l s c ps xs -> q ∈ ps -> is_Some ((<[p := nd]> s : nodes) !! q).
Proof.
  intros H Hq. destruct (linked_store s es _ _ q (lr_linked H) Hq) as [m E].
  destruct (decide (q = p)) as [->|]; [by rewrite lookup_insert_eq|by rewrite lookup_insert_ne, E by done].
Qed.
Arguments store_insert {es F l s c ps xs p q nd}.

Lemma ll_push_front_spec es F fuel l s c ps xs x :
  0 < es < two64 - SIZEOF_LIST_NODE -> list_shape a es F l s c ps xs -> zlen x = es -> zlen ps + 1 < two64 ->
  call_ok es F 1 (LPushFront x) ps xs (list_exec fuel (LPushFront x) (l, s, c)).
Proof.
  intros He H Hx Hm. cbn [list_exec zenit_list_push_front].
  rewrite (lr_alloc H), (lr_es H).
  destruct (node_alloc_spec es x s c He Hx) as ([p|] & c' & E); [destruct E as (-> & Hp & Hl)|destruct E as (-> & Hl)];
    cbn [obind].
  2: by apply (call_refused es F 1 _ l s c c' ps xs H Hl).
  destruct (fill_node s p x None (li_head l)) as (_ & E1 & _ & E2).
  rewrite E1. cbn [obind]. rewrite E2. cbn [obind].
  pose proof (relink_shape es F l s c c' [] ps [] xs p x H eq_refl Hp Hl Hx Hm) as R.
  simpl in R. rewrite (lr_head H), (lr_tail H).
  eexists _, _, _, _, _, _. split; [|split; [exact R|]].
  - unfold relink. destruct ps as [|q ps]; [done|]. cbn [head]. rewrite supd_alter by (apply (store_insert H); set_solver).
    cbn [obind with_handle]. done.
  - split; [simpl; lia|]. apply (ls_done (LPushFront x)).
Qed.
Lemma ll_push_back_spec es F fuel l s c ps xs x :
  0 < es < two64 - SIZEOF_LIST_NODE -> list_shape a es F l s c ps xs -> zlen x = es -> zlen ps + 1 < two64 ->
  call_ok es F 1 (LPushBack x) ps xs (list_exec fuel (LPushBack x) (l, s, c)).
Proof.
  intros He H Hx Hm. cbn [list_exec zenit_list_push_back]. rewrite (lr_alloc H), (lr_es H).
  destruct (node_alloc_spec es x s c He Hx) as ([p|] & c' & E); [destruct E as (-> & Hp & Hl)|destruct E as (-> & Hl)];
    cbn [obind].
  2: by apply (call_refused es F 1 _ l s c c' ps xs H Hl).
  destruct (fill_node s p x (li_tail l) None) as (E1 & _ & E2 & _).
  rewrite E1. cbn [obind]. rewrite E2. cbn [obind].
  assert (list_shape a es F l s c (ps ++ []) (xs ++ [])) as H' by (by rewrite !app_nil_r).
  assert (length ps = length xs) as L by (pose proof (linked_length _ _ _ _ (lr_linked H)); unfold zlen in *; lia).
  assert (zlen (ps ++ []) + 1 < two64) as Hm' by zl.
  pose proof (relink_shape es F l s c c' ps [] xs [] p x H' L Hp Hl Hx Hm') as R.
  rewrite last_snoc in R. rewrite (lr_head H), (lr_tail H).
  eexists _, _, _, _, _, _. split; [|split; [exact R|]].
  - unfold relink. destruct ps as [|q ps _] using rev_ind; [done|]. rewrite last_snoc.
    rewrite supd_alter by (apply (store_insert H); set_solver). cbn [obind with_handle upd_opt].
    by destruct ps.
  - split; [rewrite length_app; simpl; lia|]. apply (ls_done (LPushBack x)).
Qed.

(** The node of an element. *)
Lemma linked_node s es ps1 p ps2 xs1 x xs2 :
  linked s es (ps1 ++ p :: ps2) (xs1 ++ x :: xs2) -> length ps1 = length xs1 ->
  s !! p = Some (mk_node (last ps1) (head ps2) x) /\ zlen x = es.
Proof.
  intros [Cn Cp ND D] L. apply Forall2_app_inv in D as [_ D]; [|done]. inversion D as [|? ? ? ? [E1 E2] _]; subst.
  apply trail_lookup in Cn. rewrite reverse_app, reverse_cons, <- app_assoc in Cp. apply trail_lookup in Cp.
  rewrite hd_or_None in Cn. rewrite head_reverse_last in Cp. unfold nx, pv in *.
  destruct (s !! p) as [[]|]; simplify_eq/=. done.
Qed.

(** A list with its [i]th element singled out. *)
Lemma linked_split s es ps xs i p :
  linked s es ps xs -> ps !! i = Some p ->
  exists ps1 ps2 xs1 x xs2, ps = ps1 ++ p :: ps2 /\ xs = xs1 ++ x :: xs2 /\ length ps1 = length xs1 /\
    i = length ps1.
Proof.
  intros H Hi. pose proof (linked_length _ _ _ _ H) as L.
  destruct (lookup_lt_is_Some_2 xs i) as [x Hx]; [apply lookup_lt_Some in Hi; unfold zlen in L; lia|].
  exists (take i ps), (drop (S i) ps), (take i xs), x, (drop (S i) xs).
  pose proof (lookup_lt_Some _ _ _ Hi). pose proof (lookup_lt_Some _ _ _ Hx).
  rewrite !take_drop_middle by done. rewrite !length_take. split_and!; try done; lia.
Qed.

Lemma copy_elem es d out : zlen d = es -> zlen out = es -> rd d 0 es = Ret d /\ wr out 0 d = Ret d.
Proof. intros Hd Ho. split; [by apply rd_whole|by apply wr_whole; lia]. Qed.

Lemma ll_pop_front_spec es F fuel l s c ps xs out :
  list_shape a es F l s c ps xs -> zlen out = es -> zlen ps < two64 ->
  call_ok es F 0 (LPopFront out) ps xs (list_exec fuel (LPopFront out) (l, s, c)).
Proof.
  intros H Ho Hm. pose proof (lr_linked H) as HL. pose proof (linked_length _ _ _ _ HL) as L.
  cbn [list_exec zenit_list_pop_front]. rewrite (lr_count H), (lr_head H), (lr_es H), (lr_tail H).
  destruct ps as [|p ps], xs as [|x xs]; try (exfalso; zl).
  { rewrite decide_True by done. cbn [obind with_handle]. eexists _, l, s, c, [], []. split_and!; try done.
    apply (ls_done (LPopFront out)). }
  rewrite decide_False by zl. cbn [head].
  destruct (linked_node s es [] p ps [] x xs HL eq_refl) as [E Hx]. cbn [last] in E.
  rewrite (sget_Some _ _ _ E). cbn [obind n_next n_data].
  destruct (copy_elem es x out Hx Ho) as [-> Hw]. cbn [obind]. rewrite Hw. cbn [obind].
  pose proof (unlink_shape es F l s c [] ps [] xs p x H eq_refl Hm) as R. simpl app in R.
  eexists _, _, _, _, _, _. split; [|split; [exact R|]].
  - rewrite (lr_count H). unfold unlink. destruct ps as [|q ps]; [done|]. cbn [head].
    rewrite supd_alter; [done|]. destruct (linked_store _ _ _ _ q HL) as [m Hq]; [set_solver|by rewrite Hq].
  - split; [simpl; lia|]. apply (ls_done (LPopFront out) (x :: xs)).
Qed.

Lemma ll_pop_back_spec es F fuel l s c ps xs out :
  list_shape a es F l s c ps xs -> zlen out = es -> zlen ps < two64 ->
  call_ok es F 0 (LPopBack out) ps xs (list_exec fuel (LPopBack out) (l, s, c)).
Proof.
  intros H Ho Hm. pose proof (lr_linked H) as HL. pose proof (linked_length _ _ _ _ HL) as L.
  cbn [list_exec zenit_list_pop_back]. rewrite (lr_count H), (lr_head H), (lr_es H), (lr_tail H).
  destruct ps as [|p ps _] using rev_ind; destruct xs as [|x xs _] using rev_ind; try (exfalso; zl).
  { rewrite decide_True by done. cbn [obind with_handle]. eexists _, l, s, c, [], []. split_and!; try done.
    apply (ls_done (LPopBack out)). }
  rewrite decide_False by zl. rewrite last_snoc. assert (length ps = length xs) as L' by (unfold zlen in L; rewrite !length_app in L; simpl in L; lia).
  destruct (linked_node s es ps p [] xs x [] HL L') as [E Hx]. cbn [head] in E.
  rewrite (sget_Some _ _ _ E). cbn [obind n_prev n_data].
  destruct (copy_elem es x out Hx Ho) as [-> Hw]. cbn [obind]. rewrite Hw. cbn [obind].
  pose proof (unlink_shape es F l s c ps [] xs [] p x H L' Hm) as R. rewrite !app_nil_r in R.
  eexists _, _, _, _, _, _. split; [|split; [exact R|]].
  - rewrite (lr_count H). unfold unlink. destruct ps as [|q ps _] using rev_ind; [done|]. rewrite !last_snoc.
    rewrite supd_alter; [by destruct ps|].
    destruct (linked_store _ _ _ _ q HL) as [m Hq]; [set_solver|by rewrite Hq].
  - split; [rewrite length_app; simpl; lia|].
    replace xs with (take (length (xs ++ [x]) - 1) (xs ++ [x])) at 2
      by (rewrite length_app; simpl; rewrite Nat.add_sub; apply take_app_length).
    pose proof (ls_done (LPopBack out) (xs ++ [x])) as S. cbn [list_spec] in S. by rewrite last_snoc in S.
Qed.

Lemma call_as es F k op op' ps xs r :
  call_ok es F k op ps xs r -> (forall e xs', list_step op xs e xs' -> list_step op' xs e xs') ->
  call_ok es F k op' ps xs r.
Proof. intros (e & l & s & c & ps1 & xs1 & -> & H1 & H2 & H3) Hs. by exists e, l, s, c, ps1, xs1; eauto. Qed.

Lemma insert_ends x xs e xs' :
  (list_step (LPushFront x) xs e xs' -> list_step (LInsert 0 x) xs e xs') /\
  (list_step (LPushBack x) xs e xs' -> list_step (LInsert (zlen xs) x) xs e xs').
Proof.
  pose proof (zlen_nonneg xs) as L.
  pose proof (ls_done (LInsert 0 x) xs) as S0. pose proof (ls_done (LInsert (zlen xs) x) xs) as S1.
  cbn [list_spec] in S0, S1. rewrite decide_True in S0 by lia. rewrite decide_True in S1 by lia. cbn [fst snd] in S0, S1.
  replace (Z.to_nat (zlen xs)) with (length xs) in S1 by (unfold zlen; lia).
  rewrite take_ge, drop_ge in S1 by lia.
  split; inversion 1; subst; try done; apply ls_alloc; simpl; lia.
Qed.

Lemma ll_insert_spec es F fuel l s c ps xs i x :
  0 < es < two64 - SIZEOF_LIST_NODE -> list_shape a es F l s c ps xs -> 0 <= i -> zlen x = es ->
  zlen ps + 1 < two64 ->
  call_ok es F 1 (LInsert i x) ps xs (list_exec fuel (LInsert i x) (l, s, c)).
Proof.
  intros He H Hi Hx Hm. pose proof (lr_linked H) as HL. pose proof (linked_length _ _ _ _ HL) as L.
  cbn [list_exec]. unfold zenit_list_insert. rewrite (lr_count H).
  destruct (decide (zlen ps < i)) as [D|D].
  { eexists _, l, s, c, ps, xs. split; [done|]. split_and!; [done|lia|].
    pose proof (ls_done (LInsert i x) xs) as S. cbn [list_spec] in S. by rewrite decide_False in S by lia. }
  destruct (decide (i = 0)) as [->|D0].
  { eapply call_as; [exact (ll_push_front_spec es F fuel l s c ps xs x He H Hx Hm)|]. intros. by apply insert_ends. }
  destruct (decide (i = zlen ps)) as [->|D1].
  { rewrite L. eapply call_as; [exact (ll_push_back_spec es F fuel l s c ps xs x He H Hx Hm)|].
    intros. by apply insert_ends. }
  rewrite (node_at_spec l s es ps xs i) by (by apply H || lia). cbn [obind].
  destruct (lookup_lt_is_Some_2 ps (Z.to_nat i)) as [q Hq]; [unfold zlen in *; lia|]. rewrite Hq.
  rewrite (lr_alloc H), (lr_es H).
  destruct (node_alloc_spec es x s c He Hx) as ([p|] & c' & E); [destruct E as (-> & Hp & Hl)|destruct E as (-> & Hl)];
    cbn [obind].
  2: apply (call_refused es F 1 _ l s c c' ps xs H Hl); simpl; lia.
  destruct (linked_split s es ps xs _ q HL Hq) as (ps1 & ps2 & xs1 & y & xs2 & -> & -> & L1 & Ei).
  destruct (linked_node s es ps1 q ps2 xs1 y xs2 HL L1) as [Eq _].
  assert (p ∉ ps1 ++ q :: ps2) as Hpn by (pose proof (lr_owns H); set_solver).
  assert (q <> p) as Hqp by set_solver.
  rewrite (sget_Some _ q _ (eq_trans (lookup_insert_ne _ _ _ _ (not_eq_sym Hqp)) Eq)). cbn [obind n_prev].
  destruct (fill_node s p x (last ps1) (Some q)) as (E1 & _ & E2 & _).
  rewrite E1. cbn [obind]. rewrite E2. cbn [obind].
  rewrite (sget_Some _ q _ (eq_trans (lookup_insert_ne _ _ _ _ (not_eq_sym Hqp)) Eq)). cbn [obind n_prev].
  destruct ps1 as [|r ps1 _] using rev_ind; [simpl in Ei; lia|]. rewrite last_snoc.
  rewrite supd_alter by (apply (store_insert H); set_solver). cbn [obind].
  rewrite supd_alter.
  2: { apply lookup_alter_is_Some, (store_insert H). set_solver. }
  cbn [obind with_handle].
  pose proof (relink_shape es F l s c c' (ps1 ++ [r]) (q :: ps2) xs1 (y :: xs2) p x H L1 Hp Hl Hx Hm) as R.
  rewrite last_snoc in R. eexists _, _, _, _, _, _. split; [|split; [exact R|]].
  - unfold relink. cbn [upd_opt head]. do 3 f_equal. f_equal. f_equal;
      [rewrite (lr_head H); by destruct ps1|rewrite (lr_tail H), !last_app; done|by rewrite (lr_count H)].
  - split; [rewrite !length_app; simpl; lia|].
    pose proof (ls_done (LInsert i x) (xs1 ++ y :: xs2)) as S. cbn [list_spec] in S.
    rewrite decide_True in S by lia. rewrite Ei, L1, take_app_length, drop_app_length in S. exact S.
Qed.

Lemma remove_ends x xs out e xs' :
  (list_step (LPopFront out) (x :: xs) e xs' -> list_step (LRemove 0 out) (x :: xs) e xs') /\
  (list_step (LPopBack out) (xs ++ [x]) e xs' -> list_step (LRemove (zlen xs) out) (xs ++ [x]) e xs').
Proof.
  pose proof (ls_done (LRemove 0 out) (x :: xs)) as S0.
  pose proof (ls_done (LRemove (zlen xs) out) (xs ++ [x])) as S1.
  cbn [list_spec] in S1. replace (Z.to_nat (zlen xs)) with (length xs) in S1 by (unfold zlen; lia).
  rewrite list_lookup_middle, delete_middle, app_nil_r in S1 by done.
  split; inversion 1; subst; try done.
  cbn [list_spec]. rewrite last_snoc. cbn [fst snd]. rewrite length_app. simpl length.
  by rewrite Nat.add_sub, take_app_length.
Qed.

Lemma ll_remove_spec es F fuel l s c ps xs i out :
  list_shape a es F l s c ps xs -> 0 <= i -> zlen out = es -> zlen ps < two64 ->
  call_ok es F 0 (LRemove i out) ps xs (list_exec fuel (LRemove i out) (l, s, c)).
Proof.
  intros H Hi Ho Hm. pose proof (lr_linked H) as HL. pose proof (linked_length _ _ _ _ HL) as L.
  cbn [list_exec]. unfold zenit_list_remove. rewrite (lr_count H).
  destruct (decide (zlen ps <= i)) as [D|D].
  { eexists _, l, s, c, ps, xs. split; [done|]. split_and!; [done|lia|].
    pose proof (ls_done (LRemove i out) xs) as S. cbn [list_spec] in S.
    rewrite lookup_ge_None_2 in S by (unfold zlen in *; lia). done. }
  destruct (lookup_lt_is_Some_2 ps (Z.to_nat i)) as [p Hp]; [unfold zlen in *; lia|].
  destruct (linked_split s es ps xs _ p HL Hp) as (ps1 & ps2 & xs1 & x & xs2 & -> & -> & L1 & Ei).
  destruct (decide (i = 0)) as [->|D0].
  { eapply call_as; [exact (ll_pop_front_spec es F fuel l s c _ _ out H Ho Hm)|]. intros.
    destruct xs1; [by apply remove_ends|simpl in *; lia]. }
  rewrite u64_small by zl. destruct (decide (i = zlen (ps1 ++ p :: ps2) - 1)) as [D1|D1].
  { eapply call_as; [exact (ll_pop_back_spec es F fuel l s c _ _ out H Ho Hm)|]. intros.
    assert (zlen xs2 = 0) as ->%zlen_0 by (unfold zlen in *; rewrite !length_app in *; simpl in *; lia).
    replace i with (zlen xs1) by (unfold zlen in *; lia). by apply remove_ends. }
  rewrite (node_at_spec l s es _ (xs1 ++ x :: xs2) i) by (by apply H || lia). cbn [obind]. rewrite Hp.
  destruct (linked_node s es ps1 p ps2 xs1 x xs2 HL L1) as [E Hx].
  rewrite (sget_Some _ _ _ E). cbn [obind n_prev n_next n_data]. rewrite (lr_es H).
  destruct (copy_elem es x out Hx Ho) as [-> Hw]. cbn [obind]. rewrite Hw. cbn [obind].
  destruct ps1 as [|r ps1 _] using rev_ind; [simpl in Ei; lia|]. rewrite last_snoc in *.
  destruct ps2 as [|q ps2]; [exfalso; unfold zlen in *; rewrite !length_app in *; simpl in *; lia|]. cbn [head] in *.
  assert (forall y, y ∈ [r; q] -> y <> p /\ is_Some (s !! y)) as Hn.
  { intros y Hy. split; [|apply (linked_store _ _ _ _ y HL); set_solver].
    pose proof (lk_nodup HL) as ND. rewrite <- Permutation_middle in ND. apply NoDup_cons in ND as [ND _].
    set_solver. }
  destruct (Hn r) as [Nr Sr]; [set_solver|]. destruct (Hn q) as [Nq Sq]; [set_solver|].
  rewrite supd_alter by done. cbn [obind].
  rewrite (sget_Some _ p (mk_node (Some r) (Some q) x)) by (by rewrite lookup_alter_ne). cbn [obind n_next n_prev].
  rewrite supd_alter by (by apply lookup_alter_is_Some). cbn [obind].
  pose proof (unlink_shape es F l s c (ps1 ++ [r]) (q :: ps2) xs1 xs2 p x H L1 Hm) as R.
  rewrite last_snoc in R. eexists _, _, _, _, _, _. split; [|split; [exact R|]].
  - unfold node_free. cbn [obind with_handle]. rewrite (lr_head H), (lr_tail H), (lr_count H), !last_app, u64_small by zl.
    by destruct ps1.
  - split; [rewrite !length_app; simpl; lia|].
    pose proof (ls_done (LRemove i out) (xs1 ++ x :: xs2)) as S. cbn [list_spec] in S.
    rewrite Ei, L1, list_lookup_middle, delete_middle in S by done. exact S.
Qed.

Lemma deref_spec s es ps xs i : linked s es ps xs -> deref (ps !! i) s = Ret (xs !! i).
Proof.
  intros H. destruct (ps !! i) as [p|] eqn:Hp; cbn [deref].
  - destruct (linked_split s es ps xs i p H Hp) as (ps1 & ps2 & xs1 & x & xs2 & -> & -> & L1 & ->).
    destruct (linked_node s es ps1 p ps2 xs1 x xs2 H L1) as [E _]. rewrite (sget_Some _ _ _ E).
    cbn [obind n_data]. by rewrite list_lookup_middle.
  - apply lookup_ge_None in Hp. apply linked_length in H. rewrite lookup_ge_None_2; [done|unfold zlen in H; lia].
Qed.

Lemma ll_set_spec es F fuel l s c ps xs i x :
  list_shape a es F l s c ps xs -> 0 <= i -> zlen x = es -> zlen ps < two64 ->
  call_ok es F 0 (LSet i x) ps xs (list_exec fuel (LSet i x) (l, s, c)).
Proof.
  intros H Hi Hx Hm. pose proof (lr_linked H) as HL. pose proof (linked_length _ _ _ _ HL) as L.
  cbn [list_exec zenit_list_set]. rewrite (node_at_spec l s es ps xs i) by (by apply H || lia). cbn [obind].
  pose proof (ls_done (LSet i x) xs) as S. cbn [list_spec] in S.
  destruct (ps !! Z.to_nat i) as [p|] eqn:Hp.
  2: { apply lookup_ge_None in Hp. rewrite decide_False in S by (unfold zlen in *; lia).
       eexists _, l, s, c, ps, xs. split; [done|]. split_and!; [done|lia|done]. }
  destruct (linked_split s es ps xs _ p HL Hp) as (ps1 & ps2 & xs1 & y & xs2 & -> & -> & L1 & Ei).
  destruct (linked_node s es ps1 p ps2 xs1 y xs2 HL L1) as [E Hy].
  rewrite (sget_Some _ _ _ E). cbn [obind n_data]. rewrite (lr_es H).
  destruct (copy_elem es x y Hx Hy) as [-> Hw]. cbn [obind]. rewrite Hw. cbn [obind].
  rewrite supd_alter by (by rewrite E). cbn [obind].
  rewrite decide_True in S by (unfold zlen; rewrite length_app; simpl; lia).
  rewrite Ei, L1, insert_app_r_alt, Nat.sub_diag in S by lia. simpl in S.
  eexists _, l, _, c, (ps1 ++ p :: ps2), _. split; [done|]. split; [|split; [lia|exact S]].
  destruct H. split; try done. destruct HL as [Cn Cp ND D]. split; [| |done|].
  - eapply trail_ext; [|exact Cn]. intros q _. rewrite nx_alter. unfold nx. case_decide; [subst; by rewrite E|done].
  - eapply trail_ext; [|exact Cp]. intros q _. rewrite pv_alter. unfold pv. case_decide; [subst; by rewrite E|done].
  - apply NoDup_app in ND as (N1 & N2 & N3). apply NoDup_cons in N3 as [N3 _].
    apply Forall2_app_inv in D as [D1 D2]; [|done]. inversion D2; subst.
    apply Forall2_app; [|constructor; [by unfold holds; rewrite lookup_alter_eq, E|]].
    all: eapply Forall2_elem_impl; [eassumption|]; intros q z Hq [Q1 Q2]; split; [|done].
    all: rewrite lookup_alter_ne; [done|set_solver].
Qed.

Lemma free_nodes_spec l s c : li_allocator l = a -> forall ps fuel s c,
  trail (nx s) ps None -> NoDup ps -> list_to_set ps ⊆ live c -> (length ps <= fuel)%nat ->
  exists s' c', free_nodes fuel l (head ps) s c = Ret (s', c') /\ live c' = live c ∖ list_to_set ps.
Proof.
  intros Ea. clear s c. induction ps as [|p ps IH]; intros fuel s c Cn ND Hl Hf.
  { exists s, c. split; [by destruct fuel|set_solver]. }
  destruct fuel as [|fuel]; simpl in Hf; [lia|]. destruct Cn as [H Cn]. apply NoDup_cons in ND as [Hp ND].
  unfold nx in H. cbn [free_nodes head]. unfold sget, node_free. destruct (s !! p) as [nd|]; [|done].
  injection H as H. cbn [obind]. rewrite H, hd_or_None, Ea.
  destruct (IH fuel (delete p s) (free_fn a (Some p) c)) as (s' & c' & -> & E); [|done| |lia|].
  - eapply trail_ext; [|exact Cn]. intros q Hq. unfold nx. rewrite lookup_delete_ne; [done|set_solver].
  - rewrite free_some by set_solver. set_solver.
  - exists s', c'. split; [done|]. rewrite E, free_some by set_solver. simpl. set_solver.
Qed.

Lemma visit_nodes_spec {X : Type} es link (visit : bytes -> X -> X) s : forall ps xs fuel ctx,
  trail (fun p => link <$> s !! p) ps None -> Forall2 (holds s es) ps xs -> (length ps <= fuel)%nat ->
  visit_nodes fuel link visit (head ps) s ctx = Ret (foldl (fun acc x => visit x acc) ctx xs).
Proof.
  induction ps as [|p ps IH]; intros xs fuel ctx Cn D Hf; inversion D as [|? x ? xs' [E _] D']; subst.
  { by destruct fuel. }
  destruct fuel as [|fuel]; simpl in Hf; [lia|]. destruct Cn as [H Cn]. cbn [visit_nodes head]. unfold sget.
  destruct (s !! p) as [nd|]; [|done]. injection H as H. injection E as <-. cbn [obind].
  rewrite H, hd_or_None. apply (IH xs' fuel (visit (n_data nd) ctx)); [done|done|lia].
Qed.

Lemma iterate_spec es s : forall ps xs fuel i n,
  trail (nx s) ps None -> Forall2 (holds s es) ps xs -> (length ps <= fuel)%nat ->
  iterate fuel (mk_iter i n true (head ps)) s = Ret xs.
Proof.
  induction ps as [|p ps IH]; intros xs fuel i n Cn D Hf; inversion D as [|? x ? xs' [E _] D']; subst.
  { by destruct fuel. }
  destruct fuel as [|fuel]; simpl in Hf; [lia|]. destruct Cn as [H Cn]. unfold nx in H.
  cbn [iterate zenit_list_iter_next head it_is_valid it_internal]. unfold deref, sget.
  destruct (s !! p) as [nd|] eqn:Es; [|done]. injection H as H. injection E as <-. cbn [obind].
  rewrite Es. cbn [obind]. rewrite H, hd_or_None, (IH xs') by (done || lia). done.
Qed.

Lemma foldl_collect {X : Type} (xs acc : list X) : foldl (fun acc x => acc ++ [x]) acc xs = acc ++ xs.
Proof. revert acc. induction xs as [|x xs IH]; intros acc; simpl; [by rewrite app_nil_r|]. by rewrite IH, <- app_assoc. Qed.

Lemma ll_clear_spec es F fuel l s c ps xs :
  list_shape a es F l s c ps xs -> (length ps <= fuel)%nat ->
  call_ok es F 0 LClear ps xs (list_exec fuel LClear (l, s, c)).
Proof.
  intros H Hf. pose proof (lr_linked H) as HL. cbn [list_exec zenit_list_clear]. rewrite (lr_head H).
  destruct (free_nodes_spec l s c (lr_alloc H) ps fuel s c) as (s' & c' & -> & E);
    [apply HL|apply HL|pose proof (lr_owns H); set_solver|done|].
  cbn [obind with_handle]. eexists _, _, _, _, [], []. split; [done|].
  split; [|split; [simpl; lia|apply (ls_done LClear)]].
  pose proof (lr_self H) as Hs. pose proof (lr_owns H) as Ho. pose proof (lr_rest H) as Hr.
  split; simpl; try done; try apply H.
  - split; [done|done|constructor|constructor].
  - set_solver.
  - rewrite E. set_solver.
  - rewrite E, <- Hr. set_solver.
Qed.

(** The calls that only read. *)
Lemma call_reads es F fuel op l s c ps xs r :
  list_shape a es F l s c ps xs -> list_spec op xs = (r, xs) -> list_exec fuel op (l, s, c) = Ret (r, (l, s, c)) ->
  call_ok es F 0 op ps xs (list_exec fuel op (l, s, c)).
Proof.
  intros H Hs ->. exists r, l, s, c, ps, xs. split_and!; try done.
  pose proof (ls_done op xs) as S. by rewrite Hs in S.
Qed.

Lemma list_exec_spec es F fuel op l s c ps xs :
  0 < es < two64 - SIZEOF_LIST_NODE -> list_shape a es F l s c ps xs -> list_pre es op ->
  zlen ps + 1 < two64 -> (length ps <= fuel)%nat ->
  call_ok es F 1 op ps xs (list_exec fuel op (l, s, c)).
Proof.
  intros He H Hp Hm Hf. pose proof (lr_linked H) as HL. pose proof (linked_length _ _ _ _ HL) as L.
  assert (forall r, call_ok es F 0 op ps xs r -> call_ok es F 1 op ps xs r) as W.
  { intros r (e & l' & s' & c' & ps' & xs' & ? & ? & ? & ?). exists e, l', s', c', ps', xs'. split_and!; try done. lia. }
  destruct op; cbn [list_pre] in Hp.
  - by apply ll_push_front_spec.
  - by apply ll_push_back_spec.
  - apply W, ll_pop_front_spec; [done|done|lia].
  - apply W, ll_pop_back_spec; [done|done|lia].
  - apply ll_insert_spec; [done|done|lia|by apply Hp|done].
  - apply W, ll_remove_spec; [done|lia|by apply Hp|lia].
  - apply W. eapply call_reads; [done|done|]. cbn [list_exec zenit_list_get].
    rewrite (node_at_spec l s es ps xs i) by (by apply H || lia). cbn [obind].
    by erewrite deref_spec.
  - apply W, ll_set_spec; [done|lia|by apply Hp|lia].
  - apply W. eapply call_reads; [done|done|]. cbn [list_exec zenit_list_front].
    rewrite (lr_head H), head_lookup. erewrite deref_spec by done. by rewrite head_lookup.
  - apply W. eapply call_reads; [done|done|]. cbn [list_exec zenit_list_back].
    rewrite (lr_tail H), last_lookup. erewrite deref_spec by done. rewrite last_lookup.
    unfold zlen in L. by replace (length ps) with (length xs) by lia.
  - apply W. eapply call_reads; [done|done|]. cbn [list_exec zenit_list_count]. by rewrite (lr_count H), L.
  - apply W. eapply call_reads; [done|done|]. cbn [list_exec zenit_list_empty]. rewrite (lr_count H), L.
    do 3 f_equal. destruct xs; [done|]. by rewrite !decide_False by zl.
  - by apply W, ll_clear_spec.
  - apply W. eapply call_reads; [done|done|]. cbn [list_exec zenit_list_foreach]. rewrite (lr_head H).
    erewrite visit_nodes_spec; [|apply HL|apply HL|done]. cbn [obind]. by rewrite foldl_collect.
  - apply W. eapply call_reads; [done|done|]. cbn [list_exec zenit_list_reverse_foreach]. rewrite (lr_tail H).
    rewrite <- head_reverse. erewrite visit_nodes_spec; [|apply HL| |by rewrite length_reverse].
    2: apply Forall2_reverse; apply HL.
    cbn [obind]. by rewrite foldl_collect.
  - apply W. eapply call_reads; [done|done|]. cbn [list_exec zenit_list_iter]. rewrite (lr_head H).
    erewrite iterate_spec; [done|apply HL|apply HL|done].
Qed.

Lemma list_created es c l c1 s :
  es <> 0 -> zenit_list_create_with_allocator es a c = (Some l, c1) -> list_shape a es (live c) l s c1 [] [].
Proof.
  intros He. unfold zenit_list_create_with_allocator. rewrite decide_False by done.
  destruct (alloc_fn a SIZEOF_LIST c) as [[b|] c'] eqn:E; [|done]. intros [= <- <-].
  apply alloc_some in E as (_ & _ & Hb & Hl). split; simpl; try done.
  - split; [done|done|constructor|constructor].
  - set_solver.
  - rewrite Hl. set_solver.
  - rewrite Hl. set_solver.
Qed.

(** C29. The linked list is a sequence of elements. From creation on, any sequence of
    calls (both ends, insertion and removal at an index reached from the nearer
    end, access, in-order, reverse and iterator traversal, clearing) returns what
    the sequence operations return; no call follows a NULL or freed pointer, an
    insertion that cannot allocate reports [ZENIT_ERROR_ALLOC] and changes nothing,
    and destruction frees every node and the handle, once each. *)
Theorem list_sequence es ops fuel c s :
  0 < es < two64 - SIZEOF_LIST_NODE -> Forall (list_pre es) ops -> zlen ops < two64 - 1 ->
  (length ops <= fuel)%nat ->
  match zenit_list_create_with_allocator es a c with
  | (None, c1) => live c1 = live c
  | (Some l, c1) => exists rs l' s' c2 xs,
      run (list_exec fuel) ops (l, s, c1) = Ret (rs, (l', s', c2)) /\ trace list_step [] ops rs xs /\
      exists s3 c3, zenit_list_destroy fuel (Some l') s' c2 = Ret (s3, c3) /\ live c3 = live c
  end.
Proof.
  intros He Hops Hm Hf. destruct (zenit_list_create_with_allocator es a c) as [[l|] c1] eqn:E.
  2: { unfold zenit_list_create_with_allocator in E. rewrite decide_False in E by lia.
       destruct (alloc_fn a SIZEOF_LIST c) as [[b|] c'] eqn:Ea; simplify_eq. by eapply alloc_none. }
  destruct (run_simulates (list_exec fuel) list_step (list_rep a es (live c) (length ops)) (list_pre es))
    with (ops := ops) (n := O) (s := (l, s, c1)) (x := @nil bytes) as (rs & [[l' s'] c2] & xs & -> & T & R).
  - intros n op [[l0 s0] c0] x (ps & Hl & H) Hp. cbn [fst snd] in H.
    destruct (list_exec_spec es (live c) fuel op l0 s0 c0 ps x He H Hp) as (r & l' & s' & c' & ps' & xs' & -> & H' & L' & S);
      [unfold zlen in *; lia|lia|]. exists r, (l', s', c'), xs'. split; [done|]. split; [|done].
    exists ps'. split; [lia|done].
  - exists []. split; [simpl; lia|]. apply list_created; [lia|done].
  - done.
  - destruct R as (ps & Hl & H). cbn [fst snd] in H. exists rs, l', s', c2, xs. split_and!; [done|done|].
    pose proof (lr_linked H) as HL. unfold zenit_list_destroy. rewrite (lr_head H).
    destruct (free_nodes_spec l' s' c2 (lr_alloc H) ps fuel s' c2) as (s3 & c3 & -> & E3);
      [apply HL|apply HL|pose proof (lr_owns H); set_solver|lia|].
    cbn [obind]. eexists _, _. split; [done|]. rewrite (lr_alloc H).
    pose proof (lr_self H). pose proof (lr_owns H). rewrite free_some by set_solver.
    rewrite E3, <- (lr_rest H). set_solver.
Qed.
End ListProofs.

(** ** A concrete run *)

Definition wit_list_ops : list list_op :=
  [LPushBack [1]; LPushFront [2]; LInsert 1 [3]; LReverse; LRemove 1 [0]; LSet 0 [7]; LIterate; LPopBack [0]].

Example list_run_example :
  match zenit_list_create 1 empty_heap with
  | (Some l, h) => match run (list_exec 8) wit_list_ops (l, ∅, h) with
                   | Ret (rs, _) => rs
                   | _ => []
                   end
  | _ => []
  end = [LErr ZENIT_OK; LErr ZENIT_OK; LErr ZENIT_OK; LAll [[1]; [3]; [2]]; LOut ZENIT_OK (Some [3]);
         LErr ZENIT_OK; LAll [[7]; [1]]; LOut ZENIT_OK (Some [1])].
Proof. vm_compute. reflexivity. Qed.

Lemma list_sequence_witness :
  match zenit_list_create_with_allocator 1 ZENIT_ALLOCATOR_DEFAULT empty_heap with
  | (None, c1) => live c1 = live empty_heap
  | (Some l, c1) => exists rs l' s' c2 xs,
      run (list_exec 8) wit_list_ops (l, ∅, c1) = Ret (rs, (l', s', c2)) /\ trace list_step [] wit_list_ops rs xs /\
      exists s3 c3, zenit_list_destroy 8 (Some l') s' c2 = Ret (s3, c3) /\ live c3 = live empty_heap
  end.
Proof.
  refine (list_sequence ZENIT_ALLOCATOR_DEFAULT 1 wit_list_ops 8 empty_heap ∅ _ _ _ _).
  - unfold SIZEOF_LIST_NODE. lia.
  - unfold wit_list_ops. repeat constructor; simpl; unfold zlen; simpl; lia.
  - unfold zlen. simpl. lia.
  - simpl. lia.
Defined.
