(* ===== verification/Lru.v ===== *)
(** * LRU cache ([src/lru.c])

    The cache keeps [capacity] nodes in flat arrays: keys and values as byte
    blocks, [prev]/[next] as arrays of node indices that hold the recency list
    (most recent first) and, through [next], the free list; [hash_table] maps key
    hashes to nodes by linear probing without tombstones.  An array of [size_t] is
    the list of its words with the address it was allocated at.  The eviction
    callback is a function on what [evict_ctx] points to; its documentation
    forbids it to touch the cache. *)

From Stdlib Require Import ZArith Lia.
From stdpp Require Import base tactics option list numbers gmap sets.
From S2P Require Import Prelude Mem Result Allocator Words HashTable Machine Links.
Open Scope Z_scope.

Definition LRU_NONE : Z := SIZE_MAX.
Definition HASH_EMPTY : Z := LRU_NONE.

Record zenit_lru_t (C X : Type) : Type := mk_lru {
  lu_self : addr;
  lu_key_size : Z;
  lu_value_size : Z;
  lu_capacity : Z;
  lu_count : Z;
  lu_keys : option block;
  lu_values : option block;
  lu_prev : option words;
  lu_next : option words;
  lu_hash_index : option words;
  lu_head : Z;
  lu_tail : Z;
  lu_free_head : Z;
  lu_hash_table : option words;
  lu_hash_capacity : Z;
  lu_evict_fn : option (bytes -> bytes -> X -> X);
  lu_allocator : zenit_allocator_t C }.
Arguments mk_lru {C X}.
Arguments lu_self {C X}.
Arguments lu_key_size {C X}.
Arguments lu_value_size {C X}.
Arguments lu_capacity {C X}.
Arguments lu_count {C X}.
Arguments lu_keys {C X}.
Arguments lu_values {C X}.
Arguments lu_prev {C X}.
Arguments lu_next {C X}.
Arguments lu_hash_index {C X}.
Arguments lu_head {C X}.
Arguments lu_tail {C X}.
Arguments lu_free_head {C X}.
Arguments lu_hash_table {C X}.
Arguments lu_hash_capacity {C X}.
Arguments lu_evict_fn {C X}.
Arguments lu_allocator {C X}.

(** [sizeof(zenit_lru_t)]. *)
Definition SIZEOF_LRU : Z := 160.

Section LruModel.
Context {C X : Type}.
Implicit Types (u : zenit_lru_t C X) (c : C) (a : zenit_allocator_t C) (x : X).

(** Field updates, by the group of fields that change together. *)
Definition upd_links u (prev next : option words) (head tail free_head : Z) : zenit_lru_t C X :=
  mk_lru (lu_self u) (lu_key_size u) (lu_value_size u) (lu_capacity u) (lu_count u) (lu_keys u) (lu_values u)
    prev next (lu_hash_index u) head tail free_head (lu_hash_table u) (lu_hash_capacity u)
    (lu_evict_fn u) (lu_allocator u).
Definition upd_entry u (keys values : option block) (count : Z) : zenit_lru_t C X :=
  mk_lru (lu_self u) (lu_key_size u) (lu_value_size u) (lu_capacity u) count keys values
    (lu_prev u) (lu_next u) (lu_hash_index u) (lu_head u) (lu_tail u) (lu_free_head u) (lu_hash_table u)
    (lu_hash_capacity u) (lu_evict_fn u) (lu_allocator u).
Definition upd_hash u (hash_table hash_index : option words) : zenit_lru_t C X :=
  mk_lru (lu_self u) (lu_key_size u) (lu_value_size u) (lu_capacity u) (lu_count u) (lu_keys u) (lu_values u)
    (lu_prev u) (lu_next u) hash_index (lu_head u) (lu_tail u) (lu_free_head u) hash_table
    (lu_hash_capacity u) (lu_evict_fn u) (lu_allocator u).

Definition freelist_pop u : outcome (Z * zenit_lru_t C X) :=
  let node := lu_free_head u in
  let! n := wget (lu_next u) node in
  Ret (node, upd_links u (lu_prev u) (lu_next u) (lu_head u) (lu_tail u) n).

Definition freelist_push u (node : Z) : outcome (zenit_lru_t C X) :=
  let! next := wset (lu_next u) node (lu_free_head u) in
  Ret (upd_links u (lu_prev u) next (lu_head u) (lu_tail u) node).

Definition lru_unlink u (node : Z) : outcome (zenit_lru_t C X) :=
  let! p := wget (lu_prev u) node in
  let! n := wget (lu_next u) node in
  let! (next, head) :=
    if decide (p <> LRU_NONE) then let! nx := wset (lu_next u) p n in Ret (nx, lu_head u)
    else Ret (lu_next u, n) in
  let! (prev, tail) :=
    if decide (n <> LRU_NONE) then let! pv := wset (lu_prev u) n p in Ret (pv, lu_tail u)
    else Ret (lu_prev u, p) in
  let! prev1 := wset prev node LRU_NONE in
  let! next1 := wset next node LRU_NONE in
  Ret (upd_links u prev1 next1 head tail (lu_free_head u)).

Definition lru_push_front u (node : Z) : outcome (zenit_lru_t C X) :=
  let! prev := wset (lu_prev u) node LRU_NONE in
  let! next := wset (lu_next u) node (lu_head u) in
  let! (prev1, tail) :=
    if decide (lu_head u <> LRU_NONE) then let! pv := wset prev (lu_head u) node in Ret (pv, lu_tail u)
    else Ret (prev, node) in
  Ret (upd_links u prev1 next node tail (lu_free_head u)).

Definition lru_move_to_front u (node : Z) : outcome (zenit_lru_t C X) :=
  if decide (lu_head u = node) then Ret u
  else let! u1 := lru_unlink u node in lru_push_front u1 node.

(** [for (i = 0; i < hash_capacity; i++) hash_table[i] = HASH_EMPTY], [n] slots left. *)
Fixpoint hash_reset (n : nat) (i : Z) (table : option words) : outcome (option words) :=
  match n with
  | O => Ret table
  | S n => let! t := wset table i HASH_EMPTY in hash_reset n (u64 (i + 1)) t
  end.

(** [while (hash_table[idx] != HASH_EMPTY) idx = (idx + 1) & mask]. *)
Fixpoint free_slot (fuel : nat) (table : option words) (mask idx : Z) : outcome Z :=
  let! v := wget table idx in
  if decide (v <> HASH_EMPTY) then
    match fuel with
    | O => NoFuel
    | S fuel => free_slot fuel table mask (Z.land (u64 (idx + 1)) mask)
    end
  else Ret idx.

(** The probe and the two stores that enter [node] with key [k]. *)
Definition hash_enter (fuel : nat) u (node : Z) (k : bytes) : outcome (zenit_lru_t C X) :=
  let! h := hash_fnv1a k (lu_key_size u) in
  let mask := u64 (lu_hash_capacity u - 1) in
  let! idx := free_slot fuel (lu_hash_table u) mask (Z.land h mask) in
  let! table := wset (lu_hash_table u) idx node in
  let! index := wset (lu_hash_index u) node idx in
  Ret (upd_hash u table index).

(** The walk along the recency list in [hash_rebuild]. *)
Fixpoint rebuild_loop (fuel : nat) u (n : Z) : outcome (zenit_lru_t C X) :=
  if decide (n <> LRU_NONE) then
    match fuel with
    | O => NoFuel
    | S fuel' =>
        let! k := prd (lu_keys u) (u64 (n * lu_key_size u)) (lu_key_size u) in
        let! u1 := hash_enter fuel u n k in
        let! n1 := wget (lu_next u1) n in
        rebuild_loop fuel' u1 n1
    end
  else Ret u.

Definition hash_rebuild (fuel : nat) u : outcome (zenit_lru_t C X) :=
  let! table := hash_reset (Z.to_nat (lu_hash_capacity u)) 0 (lu_hash_table u) in
  rebuild_loop fuel (upd_hash u table (lu_hash_index u)) (lu_head u).

(** The [for] loop of [hash_find_slot], [n] turns left: the slot and [*found]. *)
Fixpoint find_loop (n : nat) u (key : bytes) (mask idx : Z) : outcome (Z * bool) :=
  match n with
  | O => Ret (SIZE_MAX, false)
  | S n =>
      let! slot := wget (lu_hash_table u) idx in
      if decide (slot = HASH_EMPTY) then Ret (idx, false)
      else
        let! stored := prd (lu_keys u) (u64 (slot * lu_key_size u)) (lu_key_size u) in
        let! k := rd key 0 (lu_key_size u) in
        if decide (stored = k) then Ret (idx, true)
        else find_loop n u key mask (Z.land (u64 (idx + 1)) mask)
  end.

Definition hash_find_slot u (key : bytes) : outcome (Z * bool) :=
  let! h := hash_fnv1a key (lu_key_size u) in
  let mask := u64 (lu_hash_capacity u - 1) in
  find_loop (Z.to_nat (lu_hash_capacity u)) u key mask (Z.land h mask).

Definition alloc_array a (nmemb elem_size : Z) c : outcome (option block * C) :=
  if decide (nmemb = 0 \/ elem_size = 0) then Ret (None, c)
  else zenit_allocator_alloc_zero a nmemb elem_size c.

(** [alloc_array] of [size_t]: the zeroed block read as words of 8 bytes. *)
Definition alloc_words a (nmemb : Z) c : outcome (option words * C) :=
  let! (b, c1) := alloc_array a nmemb 8 c in
  Ret ((fun b => Words (b_addr b) (replicate (Z.to_nat (zlen (b_data b) / 8)) 0)) <$> b, c1).

Definition lru_free_internals u c : C :=
  let a := lu_allocator u in
  let c := free_fn a (paddr (lu_keys u)) c in
  let c := free_fn a (paddr (lu_values u)) c in
  let c := free_fn a (waddr (lu_prev u)) c in
  let c := free_fn a (waddr (lu_next u)) c in
  let c := free_fn a (waddr (lu_hash_index u)) c in
  free_fn a (waddr (lu_hash_table u)) c.

(** [for (i = 0; i < capacity; i++) next[i] = i + 1], [n] nodes left. *)
Fixpoint free_links (n : nat) (i : Z) (next : option words) : outcome (option words) :=
  match n with
  | O => Ret next
  | S n => let! t := wset next i (u64 (i + 1)) in free_links n (u64 (i + 1)) t
  end.

Definition lru_create_impl (key_size value_size capacity : Z) (evict_fn : option (bytes -> bytes -> X -> X)) a c
    : outcome (option (zenit_lru_t C X) * C) :=
  if decide (key_size = 0 \/ value_size = 0 \/ capacity = 0) then Ret (None, c)
  else
    match alloc_fn a SIZEOF_LRU c with
    | (None, c) => Ret (None, c)
    | (Some b, c) =>
        let hash_capacity := round_pow2 (u64 (capacity * 2)) in
        let! (keys, c) := alloc_array a capacity key_size c in
        let! (values, c) := alloc_array a capacity value_size c in
        let! (prev, c) := alloc_words a capacity c in
        let! (next, c) := alloc_words a capacity c in
        let! (hash_index, c) := alloc_words a capacity c in
        let! (hash_table, c) := alloc_words a hash_capacity c in
        let u := mk_lru (b_addr b) key_size value_size capacity 0 keys values prev next hash_index
                   LRU_NONE LRU_NONE 0 hash_table hash_capacity evict_fn a in
        if decide (keys = None \/ values = None \/ waddr prev = None \/ waddr next = None \/
                   waddr hash_index = None \/ waddr hash_table = None)
        then Ret (None, free_fn a (Some (b_addr b)) (lru_free_internals u c))
        else
          let! table := hash_reset (Z.to_nat hash_capacity) 0 hash_table in
          let! next := free_links (Z.to_nat capacity) 0 next in
          let! next := wset next (u64 (capacity - 1)) LRU_NONE in
          Ret (Some (upd_links (upd_hash u table hash_index) prev next LRU_NONE LRU_NONE 0), c)
    end.

Definition zenit_lru_create_with_allocator (key_size value_size capacity : Z) a c :=
  lru_create_impl key_size value_size capacity None a c.

Definition zenit_lru_create_with_evict_and_allocator (key_size value_size capacity : Z)
    (evict_fn : option (bytes -> bytes -> X -> X)) a c :=
  lru_create_impl key_size value_size capacity evict_fn a c.

(** The callback on the entry of [node], and on every entry from [node] on. *)
Definition evict_entry u (node : Z) x : outcome X :=
  match lu_evict_fn u with
  | None => Ret x
  | Some f =>
      let! k := prd (lu_keys u) (u64 (node * lu_key_size u)) (lu_key_size u) in
      let! v := prd (lu_values u) (u64 (node * lu_value_size u)) (lu_value_size u) in
      Ret (f k v x)
  end.

Fixpoint evict_loop (fuel : nat) u (node : Z) x : outcome X :=
  if decide (node <> LRU_NONE) then
    match fuel with
    | O => NoFuel
    | S fuel =>
        let! x1 := evict_entry u node x in
        let! n := wget (lu_next u) node in
        evict_loop fuel u n x1
    end
  else Ret x.

Definition evict_all (fuel : nat) u x : outcome X :=
  match lu_evict_fn u with None => Ret x | Some _ => evict_loop fuel u (lu_head u) x end.

Definition zenit_lru_destroy (fuel : nat) (cache : option (zenit_lru_t C X)) x c : outcome (X * C) :=
  match cache with
  | None => Ret (x, c)
  | Some u =>
      let! x1 := evict_all fuel u x in
      Ret (x1, free_fn (lu_allocator u) (Some (lu_self u)) (lru_free_internals u c))
  end.

(** The part of [zenit_lru_put] after the choice of the node. *)
Definition put_entry (fuel : nat) u (node : Z) (k v : bytes) (need_rebuild : bool)
    : outcome (zenit_lru_t C X) :=
  let! kb := rd k 0 (lu_key_size u) in
  let! keys := pwr (lu_keys u) (u64 (node * lu_key_size u)) kb in
  let! vb := rd v 0 (lu_value_size u) in
  let! values := pwr (lu_values u) (u64 (node * lu_value_size u)) vb in
  let! u1 := lru_push_front (upd_entry u keys values (lu_count u)) node in
  if need_rebuild then hash_rebuild fuel u1 else hash_enter fuel u1 node k.

Definition zenit_lru_put (fuel : nat) (cache : option (zenit_lru_t C X)) (key value : option bytes) x
    : outcome (zenit_error_t * option (zenit_lru_t C X) * X) :=
  match cache, key, value with
  | Some u, Some k, Some v =>
      let! (slot, found) := hash_find_slot u k in
      if found : bool then
        let! node := wget (lu_hash_table u) slot in
        let! vb := rd v 0 (lu_value_size u) in
        let! values := pwr (lu_values u) (u64 (node * lu_value_size u)) vb in
        let! u1 := lru_move_to_front (upd_entry u (lu_keys u) values (lu_count u)) node in
        Ret (ZENIT_OK, Some u1, x)
      else if decide (lu_count u = lu_capacity u) then
        let node := lu_tail u in
        let! x1 := evict_entry u node x in
        let! u1 := lru_unlink u node in
        let! u2 := put_entry fuel u1 node k v true in
        Ret (ZENIT_OK, Some u2, x1)
      else
        let! (node, u1) := freelist_pop u in
        let! u2 := put_entry fuel (upd_entry u1 (lu_keys u1) (lu_values u1) (u64 (lu_count u1 + 1))) node k v false in
        Ret (ZENIT_OK, Some u2, x)
  | _, _, _ => Ret (ZENIT_ERROR_NULL, cache, x)
  end.

(** [if (out_value != NULL) memcpy(out_value, ...)] *)
Definition copy_value u (node : Z) (out_value : option bytes) : outcome (option bytes) :=
  match out_value with
  | None => Ret None
  | Some out =>
      let! v := prd (lu_values u) (u64 (node * lu_value_size u)) (lu_value_size u) in
      let! o := wr out 0 v in
      Ret (Some o)
  end.

Definition zenit_lru_get (cache : option (zenit_lru_t C X)) (key out_value : option bytes)
    : outcome (Z * option (zenit_lru_t C X) * option bytes) :=
  match cache, key with
  | Some u, Some k =>
      let! (slot, found) := hash_find_slot u k in
      if found : bool then
        let! node := wget (lu_hash_table u) slot in
        let! out := copy_value u node out_value in
        let! u1 := lru_move_to_front u node in
        Ret (1, Some u1, out)
      else Ret (0, cache, out_value)
  | _, _ => Ret (0, cache, out_value)
  end.

Definition zenit_lru_peek (cache : option (zenit_lru_t C X)) (key out_value : option bytes)
    : outcome (Z * option bytes) :=
  match cache, key with
  | Some u, Some k =>
      let! (slot, found) := hash_find_slot u k in
      if found : bool then
        let! node := wget (lu_hash_table u) slot in
        let! out := copy_value u node out_value in
        Ret (1, out)
      else Ret (0, out_value)
  | _, _ => Ret (0, out_value)
  end.

Definition zenit_lru_contains (cache : option (zenit_lru_t C X)) (key : option bytes) : outcome Z :=
  match cache, key with
  | Some u, Some k => let! (_, found) := hash_find_slot u k in Ret (if found : bool then 1 else 0)
  | _, _ => Ret 0
  end.

Definition zenit_lru_remove (fuel : nat) (cache : option (zenit_lru_t C X)) (key : option bytes)
    : outcome (zenit_error_t * option (zenit_lru_t C X)) :=
  match cache, key with
  | Some u, Some k =>
      let! (_, found) := hash_find_slot u k in
      if found : bool then
        let! (slot, _) := hash_find_slot u k in
        let! node := wget (lu_hash_table u) slot in
        let! u1 := lru_unlink u node in
        let! u2 := freelist_push u1 node in
        let! u3 := hash_rebuild fuel (upd_entry u2 (lu_keys u2) (lu_values u2) (u64 (lu_count u2 - 1))) in
        Ret (ZENIT_OK, Some u3)
      else Ret (ZENIT_ERROR_NOT_FOUND, cache)
  | _, _ => Ret (ZENIT_ERROR_NULL, cache)
  end.

Definition zenit_lru_clear (fuel : nat) (cache : option (zenit_lru_t C X)) x
    : outcome (option (zenit_lru_t C X) * X) :=
  match cache with
  | None => Ret (None, x)
  | Some u =>
      let! x1 := evict_all fuel u x in
      let! table := hash_reset (Z.to_nat (lu_hash_capacity u)) 0 (lu_hash_table u) in
      let! next := free_links (Z.to_nat (lu_capacity u)) 0 (lu_next u) in
      let! next := wset next (u64 (lu_capacity u - 1)) LRU_NONE in
      let u1 := upd_links (upd_hash u table (lu_hash_index u)) (lu_prev u) next LRU_NONE LRU_NONE 0 in
      Ret (Some (upd_entry u1 (lu_keys u1) (lu_values u1) 0), x1)
  end.

Definition zenit_lru_count (cache : option (zenit_lru_t C X)) : Z :=
  match cache with None => 0 | Some u => lu_count u end.
Definition zenit_lru_capacity (cache : option (zenit_lru_t C X)) : Z :=
  match cache with None => 0 | Some u => lu_capacity u end.
End LruModel.

Definition zenit_lru_create {X : Type} (key_size value_size capacity : Z) (h : heap)
    : outcome (option (zenit_lru_t heap X) * heap) :=
  lru_create_impl key_size value_size capacity None ZENIT_ALLOCATOR_DEFAULT h.
Definition zenit_lru_create_with_evict {X : Type} (key_size value_size capacity : Z)
    (evict_fn : option (bytes -> bytes -> X -> X)) (h : heap) : outcome (option (zenit_lru_t heap X) * heap) :=
  lru_create_impl key_size value_size capacity evict_fn ZENIT_ALLOCATOR_DEFAULT h.

(** ** Specification: entries in order of use, most recent first *)

Inductive lru_op : Type :=
| CPut (k v : bytes) | CGet (k : bytes) (out : option bytes) | CPeek (k : bytes) (out : option bytes)
| CContains (k : bytes) | CRemove (k : bytes) | CClear | CCount | CCapacity.

Inductive lru_res : Type :=
| CErr (e : zenit_error_t) | CHit (found : Z) (out : option bytes) | CNum (n : Z) | CVoid.

Abbreviation entry := (bytes * bytes)%type.

Definition cached (k : bytes) (l : list entry) : option bytes :=
  snd <$> head (filter (fun e => e.1 = k) l).
Definition without (k : bytes) (l : list entry) : list entry := filter (fun e => e.1 <> k) l.

Section LruSpec.
Context {X : Type} (cap : Z) (evict : option (bytes -> bytes -> X -> X)).

Definition notify (x : X) (e : entry) : X :=
  match evict with Some f => f e.1 e.2 x | None => x end.

Definition lru_spec (op : lru_op) (s : list entry * X) : lru_res * (list entry * X) :=
  let '(l, x) := s in
  match op with
  | CPut k v =>
      match cached k l with
      | Some _ => (CErr ZENIT_OK, ((k, v) :: without k l, x))
      | None =>
          if decide (zlen l = cap) then
            (CErr ZENIT_OK, ((k, v) :: take (length l - 1) l,
                             match last l with Some e => notify x e | None => x end))
          else (CErr ZENIT_OK, ((k, v) :: l, x))
      end
  | CGet k out =>
      match cached k l with
      | Some v => (CHit 1 (match out with Some _ => Some v | None => None end), ((k, v) :: without k l, x))
      | None => (CHit 0 out, s)
      end
  | CPeek k out =>
      match cached k l with
      | Some v => (CHit 1 (match out with Some _ => Some v | None => None end), s)
      | None => (CHit 0 out, s)
      end
  | CContains k => (CNum (match cached k l with Some _ => 1 | None => 0 end), s)
  | CRemove k =>
      match cached k l with
      | Some _ => (CErr ZENIT_OK, (without k l, x))
      | None => (CErr ZENIT_ERROR_NOT_FOUND, s)
      end
  | CClear => (CVoid, ([], foldl notify x l))
  | CCount => (CNum (zlen l), s)
  | CCapacity => (CNum cap, s)
  end.

Definition lru_step (op : lru_op) (s : list entry * X) (r : lru_res) (s' : list entry * X) : Prop :=
  lru_spec op s = (r, s').
End LruSpec.

Definition lru_pre (ks vs : Z) (op : lru_op) : Prop :=
  match op with
  | CPut k v => zlen k = ks /\ zlen v = vs
  | CGet k out | CPeek k out => zlen k = ks /\ match out with Some o => zlen o = vs | None => True end
  | CContains k | CRemove k => zlen k = ks
  | _ => True
  end.

Section LruRun.
Context {C X : Type}.

Definition lru_exec (fuel : nat) (op : lru_op) (st : zenit_lru_t C X * X)
    : outcome (lru_res * (zenit_lru_t C X * X)) :=
  let '(u, x) := st in
  match op with
  | CPut k v =>
      let! (e, u1, x1) := zenit_lru_put fuel (Some u) (Some k) (Some v) x in
      match u1 with Some u1 => Ret (CErr e, (u1, x1)) | None => Undef end
  | CGet k out =>
      let! (n, u1, o) := zenit_lru_get (Some u) (Some k) out in
      match u1 with Some u1 => Ret (CHit n o, (u1, x)) | None => Undef end
  | CPeek k out => let! (n, o) := zenit_lru_peek (Some u) (Some k) out in Ret (CHit n o, st)
  | CContains k => let! n := zenit_lru_contains (Some u) (Some k) in Ret (CNum n, st)
  | CRemove k =>
      let! (e, u1) := zenit_lru_remove fuel (Some u) (Some k) in
      match u1 with Some u1 => Ret (CErr e, (u1, x)) | None => Undef end
  | CClear =>
      let! (u1, x1) := zenit_lru_clear fuel (Some u) x in
      match u1 with Some u1 => Ret (CVoid, (u1, x1)) | None => Undef end
  | CCount => Ret (CNum (zenit_lru_count (Some u)), st)
  | CCapacity => Ret (CNum (zenit_lru_capacity (Some u)), st)
  end.
End LruRun.

(** ** Links *)

Definition dec (v : Z) : option Z := if decide (v = LRU_NONE) then None else Some v.
Definition enc (o : option Z) : Z := default LRU_NONE o.
Definition lk (w : list Z) (p : Z) : option (option Z) := dec <$> w !! Z.to_nat p.

(** The recency list [ns], the free list [fs], and [fl], the node in neither. *)
Record links (cap : Z) (pv nx : list Z) (ns fs fl : list Z) (hd tl fh : Z) : Prop := {
  lks_cap : 0 < cap <= PTRDIFF_MAX;
  lks_pv : zlen pv = cap;
  lks_nx : zlen nx = cap;
  lks_nodes : ns ++ fs ++ fl ≡ₚ seqZ 0 cap;
  lks_next : trail (lk nx) ns None;
  lks_prev : trail (lk pv) (reverse ns) None;
  lks_free : trail (lk nx) fs None;
  lks_head : hd = enc (head ns);
  lks_tail : tl = enc (last ns);
  lks_free_head : fh = enc (head fs) }.
Arguments lks_cap {cap pv nx ns fs fl hd tl fh}.
Arguments lks_pv {cap pv nx ns fs fl hd tl fh}.
Arguments lks_nx {cap pv nx ns fs fl hd tl fh}.
Arguments lks_nodes {cap pv nx ns fs fl hd tl fh}.
Arguments lks_next {cap pv nx ns fs fl hd tl fh}.
Arguments lks_prev {cap pv nx ns fs fl hd tl fh}.
Arguments lks_free {cap pv nx ns fs fl hd tl fh}.
Arguments lks_head {cap pv nx ns fs fl hd tl fh}.
Arguments lks_tail {cap pv nx ns fs fl hd tl fh}.
Arguments lks_free_head {cap pv nx ns fs fl hd tl fh}.

(** A word changed, if there is one to change. *)
Definition wupd (o : option Z) (v : Z) (w : list Z) : list Z :=
  match o with Some p => <[Z.to_nat p := v]> w | None => w end.

Section LinkLists.
Context (cap : Z).
Implicit Types (w pv nx ns fs fl : list Z).

Lemma dec_enc p : 0 <= p < SIZE_MAX -> dec p = Some p.
Proof. intros H. unfold dec, LRU_NONE. by rewrite decide_False by lia. Qed.

Lemma dec_None : dec LRU_NONE = None.
Proof. done. Qed.

Lemma dec_inv v o : dec v = o -> v = enc o.
Proof. unfold dec, enc. intros <-. by case_decide. Qed.

Lemma zlen_wupd o v w : zlen (wupd o v w) = zlen w.
Proof. destruct o; simpl; [apply zlen_insert|done]. Qed.

Lemma lk_wupd w o v p : 0 <= p < zlen w -> (forall q, o = Some q -> 0 <= q) ->
  lk (wupd o v w) p = if decide (o = Some p) then Some (dec v) else lk w p.
Proof.
  intros Hp Ho. unfold lk. destruct o as [q|]; simpl; [|done]. specialize (Ho q eq_refl).
  destruct (decide (Some q = Some p)) as [[= ->]|D].
  - rewrite list_lookup_insert_eq by (unfold zlen in Hp; lia). done.
  - rewrite list_lookup_insert_ne; [done|]. intros E. apply D. f_equal. lia.
Qed.

Lemma lk_insert w i v p : 0 <= p < zlen w -> 0 <= i ->
  lk (<[Z.to_nat i := v]> w) p = if decide (i = p) then Some (dec v) else lk w p.
Proof.
  intros Hp Hi. pose proof (lk_wupd w (Some i) v p Hp) as E. simpl in E. rewrite E by naive_solver.
  by repeat case_decide; simplify_eq.
Qed.

Lemma links_range pv nx ns fs fl h t f p :
  links cap pv nx ns fs fl h t f -> p ∈ ns ++ fs ++ fl -> 0 <= p < cap.
Proof. intros H Hp. rewrite (lks_nodes H), elem_of_seqZ in Hp. lia. Qed.

Lemma links_nodup pv nx ns fs fl h t f : links cap pv nx ns fs fl h t f -> NoDup (ns ++ fs ++ fl).
Proof. intros H. rewrite (lks_nodes H). apply NoDup_seqZ. Qed.

(** The words of a node of the recency list. *)
Lemma links_words pv nx ns1 n ns2 fs fl h t f :
  links cap pv nx (ns1 ++ n :: ns2) fs fl h t f ->
  aget pv n = Ret (enc (last ns1)) /\ aget nx n = Ret (enc (head ns2)).
Proof.
  intros H. destruct (links_range _ _ _ _ _ _ _ _ n H) as [Hn _]; [set_solver|].
  pose proof (lks_next H) as T1. apply trail_lookup in T1. rewrite hd_or_None in T1.
  pose proof (lks_prev H) as T2. rewrite reverse_app, reverse_cons, <- app_assoc in T2.
  apply trail_lookup in T2. rewrite hd_or_None, head_reverse in T2. unfold lk in *.
  destruct (pv !! Z.to_nat n) as [v1|] eqn:E1; [|done]. destruct (nx !! Z.to_nat n) as [v2|] eqn:E2; [|done].
  injection T1 as T1%dec_inv. injection T2 as T2%dec_inv. subst. split; by apply aget_lookup.
Qed.

(** The link of a node after some words were changed. *)
Ltac lk_at H :=
  rewrite ?lk_insert, ?lk_wupd by
    (rewrite ?zlen_wupd, ?zlen_insert, ?(lks_nx H), ?(lks_pv H); naive_solver lia);
  rewrite ?lk_insert, ?lk_wupd by
    (rewrite ?zlen_wupd, ?zlen_insert, ?(lks_nx H), ?(lks_pv H); naive_solver lia).

Lemma links_unlink pv nx ns1 n ns2 fs h t f :
  links cap pv nx (ns1 ++ n :: ns2) fs [] h t f ->
  links cap (<[Z.to_nat n := LRU_NONE]> (wupd (head ns2) (enc (last ns1)) pv))
    (<[Z.to_nat n := LRU_NONE]> (wupd (last ns1) (enc (head ns2)) nx))
    (ns1 ++ ns2) fs [n]
    (match last ns1 with Some _ => h | None => enc (head ns2) end)
    (match head ns2 with Some _ => t | None => enc (last ns1) end) f.
Proof.
  intros H. pose proof (links_nodup _ _ _ _ _ _ _ _ H) as ND.
  pose proof (fun p => links_range _ _ _ _ _ _ _ _ p H) as Hr. pose proof (lks_cap H) as Hc.
  assert (ns1 ++ n :: ns2 ≡ₚ n :: ns1 ++ ns2) as P by (by rewrite Permutation_middle).
  rewrite app_nil_r, P in ND. apply NoDup_cons in ND as [Hn ND].
  assert (forall p, p ∈ ns1 ++ ns2 -> 0 <= p < cap /\ n <> p) as Hin.
  { intros p Hp. split; [apply Hr; set_solver|set_solver]. }
  assert (forall p, p ∈ fs -> 0 <= p < cap /\ n <> p /\ last ns1 <> Some p) as Hfs.
  { intros p Hp. split; [apply Hr; set_solver|]. split; [set_solver|]. intros Hl%last_Some_elem_of.
    apply NoDup_app in ND as (_ & ND & _). apply (ND p); set_solver. }
  assert (forall q, last ns1 = Some q -> 0 <= q < cap) as Hl
    by (intros q Hq%last_Some_elem_of; apply Hin; set_solver).
  assert (forall q, head ns2 = Some q -> 0 <= q < cap) as Hh
    by (intros q Hq%head_Some_elem_of; apply Hin; set_solver).
  assert (0 <= n < cap) as Hnr by (apply Hr; set_solver).
  assert (dec (enc (head ns2)) = head ns2 /\ dec (enc (last ns1)) = last ns1) as [D1 D2].
  { split; [destruct (head ns2)|destruct (last ns1)]; try done; apply dec_enc; naive_solver lia. }
  assert (NoDup (ns1 ++ ns2)) as ND' by (rewrite NoDup_app in ND; naive_solver).
  split; try (rewrite !zlen_insert, zlen_wupd; apply H); [done|..].
  - rewrite <- (lks_nodes H), P, app_nil_r. simpl. rewrite app_assoc. by rewrite Permutation_app_comm.
  - eapply trail_delete; [exact ND'|apply (lks_next H)| |]; intros p.
    + intros [Hp Np]%Hin Hlp. lk_at H.
      by rewrite !decide_False by done.
    + intros Hlp. destruct (Hin p) as [Hp Np]; [apply last_Some_elem_of in Hlp; set_solver|].
      lk_at H.
      rewrite decide_False, decide_True by done. by rewrite D1, hd_or_None.
  - pose proof (lks_prev H) as T. rewrite reverse_app, reverse_cons, <- app_assoc in T. rewrite reverse_app.
    eapply trail_delete; [rewrite <- reverse_app; by apply NoDup_reversed|exact T| |]; intros p; rewrite last_reverse.
    + rewrite <- reverse_app, elem_of_reverse. intros [Hp Np]%Hin Hlp.
      lk_at H.
      by rewrite !decide_False by done.
    + intros Hlp. destruct (Hin p) as [Hp Np]; [apply head_Some_elem_of in Hlp; set_solver|].
      lk_at H.
      rewrite decide_False, decide_True by done. by rewrite D2, hd_or_None, head_reverse.
  - eapply trail_ext; [|apply (lks_free H)]. intros p (Hp & Np & Lp)%Hfs.
    lk_at H.
    by rewrite !decide_False by done.
  - pose proof (lks_head H). destruct ns1 as [|q ns1]; [done|]. simpl. destruct (last (q :: ns1)) eqn:E; [done|by apply last_None in E].
  - pose proof (lks_tail H) as Ht. rewrite last_app in Ht |- *. destruct ns2 as [|q ns2]; simpl in *; [done|].
    destruct (last (q :: ns2)) eqn:E; [done|by apply last_None in E].
  - apply (lks_free_head H).
Qed.

Lemma links_push pv nx ns fs n h t f :
  links cap pv nx ns fs [n] h t f ->
  links cap (wupd (head ns) n (<[Z.to_nat n := LRU_NONE]> pv)) (<[Z.to_nat n := h]> nx)
    (n :: ns) fs [] n (match head ns with Some _ => t | None => n end) f.
Proof.
  intros H. pose proof (links_nodup _ _ _ _ _ _ _ _ H) as ND.
  pose proof (fun p => links_range _ _ _ _ _ _ _ _ p H) as Hr. pose proof (lks_cap H) as Hc.
  assert (ns ++ fs ++ [n] ≡ₚ n :: ns ++ fs) as P by (rewrite app_assoc; by rewrite Permutation_app_comm).
  rewrite P in ND. apply NoDup_cons in ND as [Hn ND].
  assert (forall p, p ∈ ns ++ fs -> 0 <= p < cap /\ n <> p) as Hin.
  { intros p Hp. split; [apply Hr; set_solver|set_solver]. }
  assert (0 <= n < cap) as Hnr by (apply Hr; set_solver).
  assert (forall q, head ns = Some q -> 0 <= q < cap) as Hh
    by (intros q Hq%head_Some_elem_of; apply Hin; set_solver).
  assert (NoDup ns) as ND' by (rewrite NoDup_app in ND; naive_solver).
  assert (dec h = head ns) as Dh by (rewrite (lks_head H); destruct (head ns); try done; apply dec_enc; naive_solver lia).
  assert (dec n = Some n) as Dn by (apply dec_enc; lia).
  split; try (rewrite ?zlen_wupd, ?zlen_insert; apply H); try done.
  - by rewrite <- (lks_nodes H), app_nil_r, P.
  - eapply (trail_insert _ _ [] n ns None); [done|apply (lks_next H)| |done|]; simpl.
    + intros p Hp _. destruct (Hin p) as [Hp1 Hp2]; [set_solver|]. lk_at H. by rewrite decide_False.
    + lk_at H. by rewrite decide_True, Dh, hd_or_None by done.
  - rewrite reverse_cons. pose proof (lks_prev H) as T. rewrite <- (app_nil_r (reverse ns)) in T.
    eapply trail_insert; [rewrite app_nil_r; by apply NoDup_reversed|exact T| | |]; try intros p; rewrite ?last_reverse.
    + rewrite app_nil_r, elem_of_reverse. intros Hp Hlp. destruct (Hin p) as [Hp1 Hp2]; [set_solver|].
      lk_at H. by rewrite !decide_False by done.
    + intros Hlp. destruct (Hin p) as [Hp1 Hp2]; [apply head_Some_elem_of in Hlp; set_solver|].
      lk_at H. by rewrite decide_True, Dn.
    + assert (head ns <> Some n) by (intros Hq%head_Some_elem_of; set_solver).
      lk_at H. by rewrite decide_False, decide_True by done.
  - eapply trail_ext; [|apply (lks_free H)]. intros p Hp. destruct (Hin p) as [Hp1 Hp2]; [set_solver|].
    lk_at H. by rewrite decide_False.
  - pose proof (lks_tail H) as Ht. destruct ns as [|q ns]; [done|]. simpl. rewrite Ht.
    by destruct (last (q :: ns)).
Qed.

Lemma links_pop pv nx ns n fs h t f :
  links cap pv nx ns (n :: fs) [] h t f ->
  f = n /\ aget nx n = Ret (enc (head fs)) /\ links cap pv nx ns fs [n] h t (enc (head fs)).
Proof.
  intros H. pose proof (lks_free H) as [E T]. rewrite hd_or_None in E.
  destruct (links_range _ _ _ _ _ _ _ _ n H) as [Hn _]; [set_solver|].
  split; [by rewrite (lks_free_head H)|]. split.
  - unfold lk in E. destruct (nx !! Z.to_nat n) as [v|] eqn:Ev; [|done]. injection E as E%dec_inv. subst.
    by apply aget_lookup.
  - split; try apply H; try done.
    rewrite <- (lks_nodes H), app_nil_r. apply Permutation_app_head. by rewrite Permutation_app_comm.
Qed.

Lemma links_give pv nx ns n fs h t f :
  links cap pv nx ns fs [n] h t f -> links cap pv (<[Z.to_nat n := f]> nx) ns (n :: fs) [] h t n.
Proof.
  intros H. pose proof (links_nodup _ _ _ _ _ _ _ _ H) as ND.
  pose proof (fun p => links_range _ _ _ _ _ _ _ _ p H) as Hr. pose proof (lks_cap H) as Hc.
  assert (0 <= n < cap) as Hnr by (apply Hr; set_solver).
  assert (forall p, p ∈ ns ++ fs -> 0 <= p < cap /\ n <> p) as Hin.
  { intros p Hp. split; [apply Hr; set_solver|]. rewrite app_assoc in ND. apply NoDup_app in ND as (_ & ND & _).
    intros ->. apply (ND p Hp). set_solver. }
  split; try (rewrite ?zlen_insert; apply H); try done.
  - rewrite <- (lks_nodes H), app_nil_r. apply Permutation_app_head. by rewrite Permutation_app_comm.
  - eapply trail_ext; [|apply (lks_next H)]. intros p Hp. destruct (Hin p) as [Hp1 Hp2]; [set_solver|].
    lk_at H. by rewrite decide_False.
  - split.
    + lk_at H. rewrite decide_True by done. rewrite (lks_free_head H), hd_or_None. f_equal.
      destruct (head fs) as [q|] eqn:Eq; [|done]. apply head_Some_elem_of in Eq.
      apply dec_enc. destruct (Hin q); [set_solver|]. lia.
    + eapply trail_ext; [|apply (lks_free H)]. intros p Hp. destruct (Hin p) as [Hp1 Hp2]; [set_solver|].
      lk_at H. by rewrite decide_False.
Qed.

(** Every node on the free list, in index order. *)
Lemma links_init pv nx :
  0 < cap <= PTRDIFF_MAX -> zlen pv = cap -> zlen nx = cap ->
  (forall i, 0 <= i < cap -> nx !! Z.to_nat i = Some (if decide (i = cap - 1) then LRU_NONE else i + 1)) ->
  links cap pv nx [] (seqZ 0 cap) [] LRU_NONE LRU_NONE 0.
Proof.
  intros Hc Lp Ln Hnx. split; try done.
  - by rewrite app_nil_r.
  - assert (forall m i, 0 <= i -> i + Z.of_nat m = cap -> trail (lk nx) (seqZ i (Z.of_nat m)) None) as G.
    { induction m as [|m IH]; intros i Hi Hm; [done|].
      rewrite seqZ_cons by lia. replace (Z.pred (Z.of_nat (S m))) with (Z.of_nat m) by lia. split; [|apply IH; lia].
      unfold lk. rewrite Hnx by lia. simpl. f_equal. destruct m as [|m]; [by rewrite decide_True by lia|].
      rewrite decide_False, seqZ_cons by lia. simpl. apply dec_enc. lia. }
    replace cap with (Z.of_nat (Z.to_nat cap)) at 1 by lia. apply G; lia.
  - rewrite seqZ_cons by lia. done.
Qed.
End LinkLists.

(** ** Loops over the arrays *)

Lemma hash_reset_spec : forall n i w pre suf, w <> None ->
  wdata w = pre ++ suf -> i = zlen pre -> n = length suf -> zlen (wdata w) <= PTRDIFF_MAX ->
  exists w', hash_reset n i w = Ret w' /\ w' <> None /\ waddr w' = waddr w /\
    wdata w' = pre ++ replicate n HASH_EMPTY.
Proof.
  induction n as [|n IH]; intros i w pre suf Hw E -> Hn Hm; cbn [hash_reset].
  { destruct suf; [|done]. exists w. by rewrite E. }
  destruct suf as [|y suf]; [done|]. destruct (wset_range w (zlen pre) HASH_EMPTY Hw) as (w1 & -> & H1 & A1 & D1).
  { rewrite E. zl. }
  cbn [obind]. rewrite E in Hm. rewrite u64_small by zl.
  assert (wdata w1 = (pre ++ [HASH_EMPTY]) ++ suf) as E1.
  { rewrite D1, E. replace (Z.to_nat (zlen pre)) with (length pre + 0)%nat by (unfold zlen; lia).
    rewrite insert_app_r. simpl. by rewrite <- app_assoc. }
  destruct (IH (zlen pre + 1) w1 (pre ++ [HASH_EMPTY]) suf) as (w2 & -> & H2 & A2 & D2);
    [done|done|zl|by injection Hn|rewrite E1; zl|].
  exists w2. split_and!; [done|done|congruence|]. rewrite D2, <- app_assoc. done.
Qed.

Lemma free_links_spec : forall n i w pre suf, w <> None ->
  wdata w = pre ++ suf -> i = zlen pre -> n = length suf -> zlen (wdata w) <= PTRDIFF_MAX ->
  exists w', free_links n i w = Ret w' /\ w' <> None /\ waddr w' = waddr w /\
    wdata w' = pre ++ seqZ (i + 1) (Z.of_nat n).
Proof.
  induction n as [|n IH]; intros i w pre suf Hw E -> Hn Hm; cbn [free_links].
  { destruct suf; [|done]. exists w. by rewrite E. }
  destruct suf as [|y suf]; [done|]. rewrite E in Hm. rewrite u64_small by zl.
  destruct (wset_range w (zlen pre) (zlen pre + 1) Hw) as (w1 & -> & H1 & A1 & D1).
  { rewrite E. zl. }
  cbn [obind].
  assert (wdata w1 = (pre ++ [zlen pre + 1]) ++ suf) as E1.
  { rewrite D1, E. replace (Z.to_nat (zlen pre)) with (length pre + 0)%nat by (unfold zlen; lia).
    rewrite insert_app_r. simpl. by rewrite <- app_assoc. }
  destruct (IH (zlen pre + 1) w1 (pre ++ [zlen pre + 1]) suf) as (w2 & -> & H2 & A2 & D2);
    [done|done|zl|by injection Hn|rewrite E1; zl|].
  exists w2. split_and!; [done|done|congruence|]. rewrite D2, <- app_assoc. simpl.
  rewrite (seqZ_cons _ (Z.of_nat (S n))) by lia. replace (Z.pred (Z.of_nat (S n))) with (Z.of_nat n) by lia.
  by replace (Z.succ (zlen pre + 1)) with (zlen pre + 1 + 1) by lia.
Qed.

(** ** The hash table of nodes, seen as a table of keys *)

Definition at_node (l : list bytes) (n : Z) : bytes := default [] (l !! Z.to_nat n).
Definition slot_of (kl : list bytes) (v : Z) : slot :=
  if decide (v = HASH_EMPTY) then SEmpty else SOcc (at_node kl v).
Definition key_table (kl : list bytes) (ht : list Z) : list slot := slot_of kl <$> ht.

(** [hs] are the nodes entered in [ht]. *)
Record hash_ok (ks : Z) (kl : list bytes) (ht : list Z) (hs : list Z) : Prop := {
  ho_table : table_ok ks (key_table kl ht);
  ho_nodes v : v <> HASH_EMPTY -> v ∈ ht <-> v ∈ hs;
  ho_count : n_occ (key_table kl ht) = zlen hs }.
Arguments ho_table {ks kl ht hs}.
Arguments ho_nodes {ks kl ht hs}.
Arguments ho_count {ks kl ht hs}.

Section HashNodes.
Context (ks : Z) (kl : list bytes).
Implicit Types (ht hs : list Z).

Lemma zlen_key_table ht : zlen (key_table kl ht) = zlen ht.
Proof. unfold key_table, zlen. by rewrite length_fmap. Qed.

Lemma n_del_key_table ht : n_del (key_table kl ht) = 0.
Proof.
  induction ht as [|v ht IH]; [done|]. change (is_del (slot_of kl v) + n_del (key_table kl ht) = 0).
  rewrite IH. unfold slot_of. by case_decide.
Qed.

Lemma hash_ok_perm ht hs hs' : hash_ok ks kl ht hs -> hs ≡ₚ hs' -> hash_ok ks kl ht hs'.
Proof.
  intros [] P. split; [done| |].
  - intros v Hv. rewrite <- P. by apply ho_nodes0.
  - rewrite ho_count0. unfold zlen. by rewrite P.
Qed.

Lemma hash_ok_empty n : (0 < n)%nat -> hash_ok ks kl (replicate n HASH_EMPTY) [].
Proof.
  intros Hn. assert (key_table kl (replicate n HASH_EMPTY) = replicate n SEmpty) as E
    by (unfold key_table; by rewrite fmap_replicate).
  split; rewrite ?E.
  - by apply table_ok_empty.
  - intros v Hv. rewrite elem_of_replicate. set_solver.
  - apply n_occ_replicate.
Qed.

Lemma hash_ok_has_empty ht hs : hash_ok ks kl ht hs -> zlen hs < zlen ht ->
  exists i, key_table kl ht !! i = Some SEmpty.
Proof.
  intros H Hl. apply has_empty. rewrite (ho_count H), n_del_key_table, zlen_key_table. lia.
Qed.

(** A node's key slot: the word is the node and the other way round. *)
Lemma key_table_lookup ht i s : key_table kl ht !! i = Some s ->
  exists v, ht !! i = Some v /\ s = slot_of kl v.
Proof. unfold key_table. rewrite list_lookup_fmap. intros (v & E & ->)%fmap_Some. by exists v. Qed.

Lemma hash_ok_enter ht hs k d n :
  hash_ok ks kl ht hs -> 0 <= d < zlen ht -> HashTable.chain (key_table kl ht) k d ->
  key_table kl ht !! Z.to_nat (probe_at (zlen ht) k d) = Some SEmpty ->
  n <> HASH_EMPTY -> at_node kl n = k -> key_of ks k = k -> n ∉ hs ->
  (forall m, m ∈ hs -> key_of ks (at_node kl m) <> k) ->
  hash_ok ks kl (<[Z.to_nat (probe_at (zlen ht) k d) := n]> ht) (n :: hs).
Proof.
  intros H Hd Hc He Hn Hk Hkk Hnew Habs.
  assert (key_table kl (<[Z.to_nat (probe_at (zlen ht) k d) := n]> ht)
    = <[Z.to_nat (probe_at (zlen ht) k d) := SOcc k]> (key_table kl ht)) as E.
  { unfold key_table. rewrite list_fmap_insert. f_equal. unfold slot_of. by rewrite decide_False, Hk by done. }
  destruct (key_table_lookup _ _ _ He) as (v & Ev & Sv).
  assert (v = HASH_EMPTY) as -> by (unfold slot_of in Sv; by case_decide).
  split; rewrite ?E.
  - rewrite <- zlen_key_table. apply table_ok_put; [apply H|by rewrite zlen_key_table|done|done|].
    intros x Hx. apply list_elem_of_lookup in Hx as (j & Hj).
    destruct (key_table_lookup _ _ _ Hj) as (m & Em & Sm). unfold slot_of in Sm. case_decide; [done|].
    injection Sm as ->. apply Habs. apply (ho_nodes H); [done|]. by eapply list_elem_of_lookup_2.
  - intros m Hm. rewrite elem_of_cons, <- (ho_nodes H m Hm), !list_elem_of_lookup. split.
    + intros (j & Ej). apply list_lookup_insert_Some in Ej as [(_ & -> & _)|[_ Ej]]; [by left|right; by exists j].
    + intros [->|(j & Ej)]; [eexists; apply list_lookup_insert_eq; by eapply lookup_lt_Some|].
      exists j. rewrite list_lookup_insert_ne; [done|]. intros <-. congruence.
  - rewrite (n_occ_insert _ _ _ _ He), (ho_count H). simpl. zl.
Qed.

(** Keys of other nodes do not matter. *)
Lemma hash_ok_keys kl' ht hs :
  hash_ok ks kl ht hs -> (forall n, n ∈ hs -> at_node kl' n = at_node kl n) -> hash_ok ks kl' ht hs.
Proof.
  intros H Hk. assert (key_table kl' ht = key_table kl ht) as E.
  { unfold key_table. apply list_fmap_ext. intros i v Hv. unfold slot_of. case_decide; [done|].
    rewrite Hk; [done|]. apply (ho_nodes H); [done|]. by eapply list_elem_of_lookup_2. }
  split; rewrite ?E; apply H.
Qed.
End HashNodes.

(** ** Operations on the links of a cache *)

Section LruProofs.
Context {C X : Type}.
Implicit Types (u : zenit_lru_t C X) (ns fs fl : list Z).

Definition lru_links u ns fs fl : Prop :=
  lu_prev u <> None /\ lu_next u <> None /\
  links (lu_capacity u) (wdata (lu_prev u)) (wdata (lu_next u)) ns fs fl (lu_head u) (lu_tail u) (lu_free_head u).

(** Results of the list operations: new link arrays in place of the old ones. *)
Definition relinked u ns fs fl (r : outcome (zenit_lru_t C X)) : Prop :=
  exists pv nx h t f, r = Ret (upd_links u pv nx h t f) /\
    waddr pv = waddr (lu_prev u) /\ waddr nx = waddr (lu_next u) /\
    lru_links (upd_links u pv nx h t f) ns fs fl.

Lemma enc_ne o cap : (forall q, o = Some q -> 0 <= q < cap) -> cap <= PTRDIFF_MAX ->
  enc o <> LRU_NONE <-> is_Some o.
Proof.
  intros H Hc. destruct o as [q|]; simpl.
  - specialize (H q eq_refl). unfold LRU_NONE. split; [done|lia].
  - split; [done|intros [? ?]; done].
Qed.

Lemma lru_unlink_spec u ns1 n ns2 fs :
  lru_links u (ns1 ++ n :: ns2) fs [] -> relinked u (ns1 ++ ns2) fs [n] (lru_unlink u n).
Proof.
  intros (Np & Nn & H). pose proof (links_unlink _ _ _ _ _ _ _ _ _ _ H) as H'.
  pose proof (fun p => links_range _ _ _ _ _ _ _ _ _ p H) as Hr. pose proof (lks_cap H) as Hc.
  destruct (links_words _ _ _ _ _ _ _ _ _ _ _ H) as [Ep En].
  assert (forall q, last ns1 = Some q -> 0 <= q < lu_capacity u) as Hl
    by (intros q Hq%last_Some_elem_of; apply Hr; set_solver).
  assert (forall q, head ns2 = Some q -> 0 <= q < lu_capacity u) as Hh
    by (intros q Hq%head_Some_elem_of; apply Hr; set_solver).
  assert (0 <= n < lu_capacity u) as Hn by (apply Hr; set_solver).
  unfold lru_unlink. rewrite !wget_aget by done. rewrite Ep. cbn [obind]. rewrite En. cbn [obind].
  assert (exists nx1, (if decide (enc (last ns1) <> LRU_NONE) then
      let! nx := wset (lu_next u) (enc (last ns1)) (enc (head ns2)) in Ret (nx, lu_head u)
      else Ret (lu_next u, enc (head ns2)))
    = Ret (nx1, match last ns1 with Some _ => lu_head u | None => enc (head ns2) end) /\
    nx1 <> None /\ waddr nx1 = waddr (lu_next u) /\ wdata nx1 = wupd (last ns1) (enc (head ns2)) (wdata (lu_next u)))
    as (nx1 & -> & N1 & A1 & D1).
  { destruct (last ns1) as [q|] eqn:El; [|by exists (lu_next u)]. specialize (Hl q eq_refl).
    rewrite decide_True by (simpl; unfold LRU_NONE; lia). simpl enc at 1.
    destruct (wset_range (lu_next u) q (enc (head ns2)) Nn) as (w & -> & ? & ? & ?); [rewrite (lks_nx H); lia|].
    by exists w. }
  cbn [obind].
  assert (exists pv1, (if decide (enc (head ns2) <> LRU_NONE) then
      let! pv := wset (lu_prev u) (enc (head ns2)) (enc (last ns1)) in Ret (pv, lu_tail u)
      else Ret (lu_prev u, enc (last ns1)))
    = Ret (pv1, match head ns2 with Some _ => lu_tail u | None => enc (last ns1) end) /\
    pv1 <> None /\ waddr pv1 = waddr (lu_prev u) /\ wdata pv1 = wupd (head ns2) (enc (last ns1)) (wdata (lu_prev u)))
    as (pv1 & -> & N2 & A2 & D2).
  { destruct (head ns2) as [q|] eqn:El; [|by exists (lu_prev u)]. specialize (Hh q eq_refl).
    rewrite decide_True by (simpl; unfold LRU_NONE; lia). simpl enc at 1.
    destruct (wset_range (lu_prev u) q (enc (last ns1)) Np) as (w & -> & ? & ? & ?); [rewrite (lks_pv H); lia|].
    by exists w. }
  cbn [obind].
  destruct (wset_range pv1 n LRU_NONE N2) as (pv2 & -> & N3 & A3 & D3); [rewrite D2, zlen_wupd, (lks_pv H); lia|].
  cbn [obind].
  destruct (wset_range nx1 n LRU_NONE N1) as (nx2 & -> & N4 & A4 & D4); [rewrite D1, zlen_wupd, (lks_nx H); lia|].
  cbn [obind]. eexists pv2, nx2, _, _, _. split; [done|]. split_and!; try congruence.
  split_and!; [done|done|]. cbn [upd_links lu_capacity lu_prev lu_next lu_head lu_tail lu_free_head].
  rewrite D3, D4, D1, D2. exact H'.
Qed.

Lemma lru_push_front_spec u ns n fs :
  lru_links u ns fs [n] -> relinked u (n :: ns) fs [] (lru_push_front u n).
Proof.
  intros (Np & Nn & H). pose proof (links_push _ _ _ _ _ _ _ _ _ H) as H'.
  pose proof (fun p => links_range _ _ _ _ _ _ _ _ _ p H) as Hr. pose proof (lks_cap H) as Hc.
  assert (forall q, head ns = Some q -> 0 <= q < lu_capacity u) as Hh
    by (intros q Hq%head_Some_elem_of; apply Hr; set_solver).
  assert (0 <= n < lu_capacity u) as Hn by (apply Hr; set_solver).
  unfold lru_push_front.
  destruct (wset_range (lu_prev u) n LRU_NONE Np) as (pv1 & -> & N1 & A1 & D1); [rewrite (lks_pv H); lia|].
  cbn [obind].
  destruct (wset_range (lu_next u) n (lu_head u) Nn) as (nx1 & -> & N2 & A2 & D2); [rewrite (lks_nx H); lia|].
  cbn [obind]. rewrite (lks_head H) in *.
  assert (exists pv2, (if decide (enc (head ns) <> LRU_NONE) then
      let! pv := wset pv1 (enc (head ns)) n in Ret (pv, lu_tail u) else Ret (pv1, n))
    = Ret (pv2, match head ns with Some _ => lu_tail u | None => n end) /\
    pv2 <> None /\ waddr pv2 = waddr pv1 /\ wdata pv2 = wupd (head ns) n (wdata pv1)) as (pv2 & -> & N3 & A3 & D3).
  { destruct (head ns) as [q|] eqn:El; [|by exists pv1]. specialize (Hh q eq_refl).
    rewrite decide_True by (simpl; unfold LRU_NONE; lia). simpl enc.
    destruct (wset_range pv1 q n N1) as (w & -> & ? & ? & ?); [rewrite D1, zlen_insert, (lks_pv H); lia|].
    by exists w. }
  cbn [obind]. eexists pv2, nx1, _, _, _. split; [done|]. split_and!; try congruence.
  split_and!; [done|done|]. cbn [upd_links lu_capacity lu_prev lu_next lu_head lu_tail lu_free_head].
  rewrite D3, D2, D1. exact H'.
Qed.

(** Moving a node keeps the nodes. *)
Lemma lru_move_to_front_spec u ns1 n ns2 fs :
  lru_links u (ns1 ++ n :: ns2) fs [] -> relinked u (n :: ns1 ++ ns2) fs [] (lru_move_to_front u n).
Proof.
  intros H. unfold lru_move_to_front. case_decide as D.
  - destruct ns1 as [|q ns1].
    + exists (lu_prev u), (lu_next u), (lu_head u), (lu_tail u), (lu_free_head u).
      split; [by destruct u|]. split; [done|]. split; [done|]. exact H.
    + destruct H as (_ & _ & H). rewrite (lks_head H) in D. simpl in D. subst q.
      pose proof (links_nodup _ _ _ _ _ _ _ _ _ H) as ND. simpl in ND. apply NoDup_cons in ND as [ND _]. set_solver.
  - destruct (lru_unlink_spec _ _ _ _ _ H) as (pv & nx & h & t & f & -> & A1 & A2 & H1). cbn [obind].
    destruct (lru_push_front_spec _ _ _ _ H1) as (pv' & nx' & h' & t' & f' & -> & A3 & A4 & H2).
    simpl in A3, A4. exists pv', nx', h', t', f'. split; [done|]. split; [congruence|]. split; [congruence|exact H2].
Qed.

Lemma freelist_pop_spec u ns n fs : lru_links u ns (n :: fs) [] ->
  exists f, freelist_pop u = Ret (n, upd_links u (lu_prev u) (lu_next u) (lu_head u) (lu_tail u) f) /\
    lru_links (upd_links u (lu_prev u) (lu_next u) (lu_head u) (lu_tail u) f) ns fs [n].
Proof.
  intros (Np & Nn & H). destruct (links_pop _ _ _ _ _ _ _ _ _ H) as (Ef & E & H').
  unfold freelist_pop. rewrite Ef, wget_aget by done. rewrite E. cbn [obind].
  eexists. split; [done|]. by split_and!.
Qed.

Lemma freelist_push_spec u ns n fs : lru_links u ns fs [n] -> relinked u ns (n :: fs) [] (freelist_push u n).
Proof.
  intros (Np & Nn & H). pose proof (links_give _ _ _ _ _ _ _ _ _ H) as H'.
  destruct (links_range _ _ _ _ _ _ _ _ _ n H) as [Hn1 Hn2]; [set_solver|].
  unfold freelist_push.
  destruct (wset_range (lu_next u) n (lu_free_head u) Nn) as (nx1 & -> & N1 & A1 & D1); [rewrite (lks_nx H); lia|].
  cbn [obind]. eexists (lu_prev u), nx1, _, _, _. split; [done|]. split_and!; try done.
  split_and!; [done|done|]. cbn [upd_links lu_capacity lu_prev lu_next lu_head lu_tail lu_free_head].
  rewrite D1. exact H'.
Qed.

(** ** Memory of a cache: [kl] and [vl] are the keys and values of the nodes *)

Record lru_mem u (kl vl : list bytes) : Prop := {
  lm_dims : 0 < lu_key_size u /\ 0 < lu_value_size u /\ 0 < lu_capacity u /\
    lu_capacity u * lu_key_size u <= PTRDIFF_MAX /\ lu_capacity u * lu_value_size u <= PTRDIFF_MAX;
  lm_hash : is_pow2 (lu_hash_capacity u) /\ 2 * lu_capacity u <= lu_hash_capacity u /\
    lu_hash_capacity u <= 4 * lu_capacity u /\ lu_hash_capacity u <= PTRDIFF_MAX;
  lm_keys : lu_keys u <> None /\ is_slots (lu_key_size u) (pbytes (lu_keys u)) kl /\ zlen kl = lu_capacity u;
  lm_values : lu_values u <> None /\ is_slots (lu_value_size u) (pbytes (lu_values u)) vl /\ zlen vl = lu_capacity u;
  lm_table : lu_hash_table u <> None /\ zlen (wdata (lu_hash_table u)) = lu_hash_capacity u;
  lm_index : lu_hash_index u <> None /\ zlen (wdata (lu_hash_index u)) = lu_capacity u }.
Arguments lm_dims {u kl vl}.
Arguments lm_hash {u kl vl}.
Arguments lm_keys {u kl vl}.
Arguments lm_values {u kl vl}.
Arguments lm_table {u kl vl}.
Arguments lm_index {u kl vl}.

Lemma node_slot es (buf : option block) sl cap n :
  buf <> None -> is_slots es (pbytes buf) sl -> zlen sl = cap -> 0 <= n < cap -> 0 < es ->
  cap * es <= PTRDIFF_MAX ->
  prd buf (u64 (n * es)) es = Ret (at_node sl n) /\ zlen (at_node sl n) = es /\ u64 (n * es) = n * es.
Proof.
  intros Hb Hs Hl Hn He Hm. destruct (lookup_lt_is_Some_2 sl (Z.to_nat n)) as [y Hy]; [unfold zlen in Hl; lia|].
  rewrite u64_small by nia. unfold at_node. rewrite Hy. simpl. split_and!; [|by destruct Hs as [_ F]; eapply (Forall_lookup_1 _ _ _ y F)|done].
  eapply prd_slot; [done|done|lia|done].
Qed.

Lemma key_of_whole ks k : zlen k = ks -> key_of ks k = k.
Proof. intros <-. unfold key_of, zlen. apply take_ge. lia. Qed.

Section Find.
Context (u : zenit_lru_t C X) (kl vl : list bytes) (hs : list Z) (k : bytes).
Context (M : lru_mem u kl vl) (Hk : zlen k = lu_key_size u).
Context (Hh : hash_ok (lu_key_size u) kl (wdata (lu_hash_table u)) hs).
Context (Hr : forall n, n ∈ hs -> 0 <= n < lu_capacity u) (Hc : zlen hs <= lu_capacity u).

Lemma node_key n : n ∈ hs ->
  prd (lu_keys u) (u64 (n * lu_key_size u)) (lu_key_size u) = Ret (at_node kl n) /\
  key_of (lu_key_size u) (at_node kl n) = at_node kl n.
Proof.
  intros Hn. destruct (lm_keys M) as (N & S & L).
  destruct (node_slot _ _ _ _ n N S L (Hr n Hn)) as (E & Z & _); [apply (lm_dims M)..|].
  split; [done|by apply key_of_whole].
Qed.

Lemma find_loop_spec : forall n d, 0 <= d -> Z.of_nat n = lu_hash_capacity u - d ->
  (forall d', 0 <= d' < d -> key_table kl (wdata (lu_hash_table u)) !! Z.to_nat (probe_at (lu_hash_capacity u) k d') <> Some SEmpty) ->
  (forall d' e, 0 <= d' < d -> key_table kl (wdata (lu_hash_table u)) !! Z.to_nat (probe_at (lu_hash_capacity u) k d') = Some (SOcc e) ->
     key_of (lu_key_size u) e <> k) ->
  exists i b, find_loop n u k (lu_hash_capacity u - 1) (probe_at (lu_hash_capacity u) k d) = Ret (i, b) /\
    if b : bool then exists m, m ∈ hs /\ wget (lu_hash_table u) i = Ret m /\ at_node kl m = k
    else forall m, m ∈ hs -> at_node kl m <> k.
Proof.
  destruct (lm_table M) as [Nt Lt]. destruct (lm_hash M) as (Hp & H2 & H4 & Hm).
  destruct (lm_dims M) as (Dk & Dv & Dc & _ & _).
  pose proof (hash_ok_has_empty _ _ _ _ Hh ltac:(lia)) as He.
  set (tb := key_table kl (wdata (lu_hash_table u))) in *.
  assert (zlen tb = lu_hash_capacity u) as Lb by (unfold tb; by rewrite zlen_key_table).
  induction n as [|n IH]; intros d Hd Hn Hne Hno.
  all: pose proof (empty_ahead tb k d ltac:(lia) He Hd) as Hlt; rewrite Lb in Hlt; specialize (Hlt Hne).
  { lia. }
  destruct (probe_lookup tb k d ltac:(lia)) as [s Es]. rewrite Lb in Es.
  pose proof (probe_at_range (lu_hash_capacity u) k d ltac:(lia)) as Hr'.
  destruct (key_table_lookup _ _ _ _ Es) as (v & Ev & Sv).
  cbn [find_loop]. rewrite wget_aget by done. erewrite aget_lookup by (done || lia). cbn [obind].
  unfold slot_of in Sv. destruct (decide (v = HASH_EMPTY)) as [->|Dv'].
  - eexists _, false. split; [done|]. intros m Hm' Ek. subst s.
    apply (absent_at_empty (lu_key_size u) tb k d (ho_table Hh)) with (e := at_node kl m); try done.
    + rewrite Lb. exact Hno.
    + by rewrite Lb.
    + assert (m <> HASH_EMPTY) as Hne' by (specialize (Hr m Hm'); unfold HASH_EMPTY, LRU_NONE; lia).
      apply (ho_nodes Hh m Hne'), list_elem_of_lookup in Hm' as (j & Ej). apply list_elem_of_lookup. exists j.
      unfold tb, key_table. rewrite list_lookup_fmap, Ej. simpl. unfold slot_of. by rewrite decide_False.
    + rewrite Ek. by apply key_of_whole.
  - assert (v ∈ hs) as Hv by (apply (ho_nodes Hh); [done|by eapply list_elem_of_lookup_2]).
    destruct (node_key v Hv) as [-> Kv]. cbn [obind]. rewrite rd_whole by done. cbn [obind].
    destruct (decide (at_node kl v = k)) as [Ek|Ek].
    + eexists _, true. split; [done|]. exists v. split; [done|]. split; [|done]. rewrite wget_aget by done.
      by apply aget_lookup; [lia|].
    + rewrite probe_at_next by done. apply IH; [lia|lia| |].
      * intros d' Hd'. destruct (decide (d' = d)) as [->|]; [congruence|apply Hne; lia].
      * intros d' e Hd' E'. destruct (decide (d' = d)) as [->|]; [|by apply (Hno d'); [lia|]].
        assert (SOcc e = s) as Es' by congruence. subst s. injection Es' as ->. by rewrite Kv.
Qed.

Lemma hash_find_slot_spec :
  exists i b, hash_find_slot u k = Ret (i, b) /\
    if b : bool then exists m, m ∈ hs /\ wget (lu_hash_table u) i = Ret m /\ at_node kl m = k
    else forall m, m ∈ hs -> at_node kl m <> k.
Proof.
  destruct (lm_hash M) as (Hp & H2 & H4 & Hm). pose proof (is_pow2_pos _ Hp).
  unfold hash_find_slot, hash_fnv1a. rewrite rd_whole by done. cbn [obind].
  rewrite u64_small by lia. rewrite probe_at_home by done. apply find_loop_spec; lia || naive_solver lia.
Qed.
End Find.

Definition rehashed u kl vl hs (r : outcome (zenit_lru_t C X)) : Prop :=
  exists t i, r = Ret (upd_hash u t i) /\ waddr t = waddr (lu_hash_table u) /\ waddr i = waddr (lu_hash_index u) /\
    lru_mem (upd_hash u t i) kl vl /\ hash_ok (lu_key_size u) kl (wdata t) hs.

Lemma free_slot_spec u kl vl k (M : lru_mem u kl vl) :
  (exists i, key_table kl (wdata (lu_hash_table u)) !! i = Some SEmpty) ->
  forall fuel d, 0 <= d -> lu_hash_capacity u - d <= Z.of_nat fuel ->
  HashTable.chain (key_table kl (wdata (lu_hash_table u))) k d ->
  exists d', free_slot fuel (lu_hash_table u) (lu_hash_capacity u - 1) (probe_at (lu_hash_capacity u) k d)
      = Ret (probe_at (lu_hash_capacity u) k d') /\ 0 <= d' < lu_hash_capacity u /\
    HashTable.chain (key_table kl (wdata (lu_hash_table u))) k d' /\
    key_table kl (wdata (lu_hash_table u)) !! Z.to_nat (probe_at (lu_hash_capacity u) k d') = Some SEmpty.
Proof.
  destruct (lm_table M) as [Nt Lt]. destruct (lm_hash M) as (Hp & H2 & H4 & Hm). pose proof (is_pow2_pos _ Hp).
  set (tb := key_table kl (wdata (lu_hash_table u))) in *. intros He.
  assert (zlen tb = lu_hash_capacity u) as Lb by (unfold tb; by rewrite zlen_key_table).
  induction fuel as [|fuel IH]; intros d Hd Hf Hch.
  all: pose proof (empty_ahead tb k d ltac:(lia) He Hd) as Hlt; specialize (Hlt Hch).
  { lia. }
  destruct (probe_lookup tb k d ltac:(lia)) as [s Es]. rewrite Lb in Es.
  pose proof (probe_at_range (lu_hash_capacity u) k d ltac:(lia)) as Hr'.
  destruct (key_table_lookup _ _ _ _ Es) as (v & Ev & Sv).
  cbn [free_slot]. rewrite wget_aget by done. erewrite aget_lookup by (done || lia). cbn [obind].
  unfold slot_of in Sv. destruct (decide (v = HASH_EMPTY)) as [->|Dv].
  - rewrite decide_False by naive_solver. exists d. subst s. split_and!; try done; lia.
  - rewrite decide_True by done. rewrite probe_at_next by done. apply IH; [lia|lia|].
    intros d' Hd'. destruct (decide (d' = d)) as [->|]; [rewrite Lb; congruence|apply Hch; lia].
Qed.

Lemma hash_enter_spec u kl vl hs n fuel :
  lru_mem u kl vl -> hash_ok (lu_key_size u) kl (wdata (lu_hash_table u)) hs -> zlen hs < lu_capacity u ->
  (forall m, m ∈ hs -> 0 <= m < lu_capacity u) -> 0 <= n < lu_capacity u -> n ∉ hs ->
  (forall m, m ∈ hs -> at_node kl m <> at_node kl n) -> lu_hash_capacity u <= Z.of_nat fuel ->
  rehashed u kl vl (n :: hs) (hash_enter fuel u n (at_node kl n)).
Proof.
  intros M Hh Hl Hr Hn Hnew Hk Hf.
  destruct (lm_table M) as [Nt Lt]. destruct (lm_hash M) as (Hp & H2 & H4 & Hm). pose proof (is_pow2_pos _ Hp).
  destruct (lm_keys M) as (Nk & Sk & Lk). destruct (lm_index M) as [Ni Li].
  destruct (node_slot _ _ _ _ n Nk Sk Lk Hn) as (_ & Zn & _); [apply (lm_dims M)..|].
  unfold hash_enter, hash_fnv1a. rewrite rd_whole by done. cbn [obind].
  rewrite u64_small by lia. rewrite probe_at_home by done.
  destruct (free_slot_spec u kl vl (at_node kl n) M) with (fuel := fuel) (d := 0) as (d & -> & Hd & Hch & He);
    [eapply hash_ok_has_empty; [done|lia]|lia|lia|intros ? ?; lia|]. cbn [obind].
  pose proof (probe_at_range (lu_hash_capacity u) (at_node kl n) d ltac:(lia)) as Hpr.
  destruct (wset_range (lu_hash_table u) (probe_at (lu_hash_capacity u) (at_node kl n) d) n Nt)
    as (t & -> & N1 & A1 & D1); [lia|]. cbn [obind].
  destruct (wset_range (lu_hash_index u) n (probe_at (lu_hash_capacity u) (at_node kl n) d) Ni)
    as (i & -> & N2 & A2 & D2); [lia|]. cbn [obind].
  exists t, i. split_and!; try done.
  - destruct M. split; simpl; try done; (split; [done|]); [rewrite D1|rewrite D2]; by rewrite zlen_insert.
  - rewrite D1. rewrite <- Lt in Hd, He |- *. apply hash_ok_enter; try done.
    + unfold HASH_EMPTY, LRU_NONE. destruct (lm_dims M). nia.
    + by apply key_of_whole.
    + intros m Hm'. rewrite key_of_whole; [by apply Hk|].
      destruct (node_slot _ _ _ _ m Nk Sk Lk (Hr m Hm')) as (_ & Zm & _); [apply (lm_dims M)..|done].
Qed.

(** The walk of [hash_rebuild] enters the nodes that are left. *)
Lemma rebuild_loop_spec kl vl nx : forall ns u hs fuel,
  lru_mem u kl vl -> hash_ok (lu_key_size u) kl (wdata (lu_hash_table u)) hs ->
  lu_next u <> None -> wdata (lu_next u) = nx -> trail (lk nx) ns None ->
  zlen (ns ++ hs) <= lu_capacity u -> NoDup (ns ++ hs) -> NoDup (at_node kl <$> ns ++ hs) ->
  (forall m, m ∈ ns ++ hs -> 0 <= m < lu_capacity u) ->
  lu_hash_capacity u + zlen ns <= Z.of_nat fuel ->
  rehashed u kl vl (reverse ns ++ hs) (rebuild_loop fuel u (enc (head ns))).
Proof.
  induction ns as [|n ns IH]; intros u hs fuel M Hh Nn En T Hl ND NK Hr Hf.
  { exists (lu_hash_table u), (lu_hash_index u). split; [destruct fuel, u; done|]. by destruct u. }
  destruct (lm_dims M) as (Dk & Dv & Dc & D1 & D2). destruct (lm_keys M) as (Nk & Sk & Lk).
  assert (0 <= n < lu_capacity u) as Hn by (apply Hr; set_solver).
  destruct (node_slot _ _ _ _ n Nk Sk Lk Hn Dk D1) as (En' & _ & _).
  destruct fuel as [|fuel]; [destruct (lm_hash M); zl|]. simpl enc. cbn [rebuild_loop].
  rewrite decide_True by (unfold LRU_NONE; nia). rewrite En'. cbn [obind].
  simpl in ND. apply NoDup_cons in ND as [Hnew ND]. simpl in NK. apply NoDup_cons in NK as [Hkey NK].
  destruct (hash_enter_spec u kl vl hs n (S fuel) M Hh) as (t & i & -> & A1 & A2 & M1 & H1);
    [zl|set_solver|done|set_solver| |zl|].
  { intros m Hm Ek. apply Hkey. apply list_elem_of_fmap. exists m. split; [done|set_solver]. }
  cbn [obind]. simpl lu_next at 1. rewrite wget_aget, En by done. destruct T as [E T]. unfold lk in E.
  destruct (nx !! Z.to_nat n) as [v|] eqn:Ev; [|done]. injection E as E%dec_inv. rewrite hd_or_None in E. subst v.
  erewrite aget_lookup by (done || lia). cbn [obind].
  destruct (IH (upd_hash u t i) (n :: hs) fuel) as (t2 & i2 & -> & A3 & A4 & M2 & H2); try done.
  - simpl. zl.
  - by rewrite <- Permutation_middle; constructor.
  - rewrite <- Permutation_middle. by constructor.
  - intros m Hm. apply Hr. set_solver.
  - simpl. zl.
  - simpl in *. exists t2, i2. split; [done|]. split_and!; [congruence|congruence|done|].
    rewrite reverse_cons, <- app_assoc. exact H2.
Qed.

Lemma hash_rebuild_spec u kl vl ns fs fuel :
  lru_mem u kl vl -> lru_links u ns fs [] -> NoDup (at_node kl <$> ns) ->
  5 * lu_capacity u <= Z.of_nat fuel -> rehashed u kl vl ns (hash_rebuild fuel u).
Proof.
  intros M (Np & Nn & H) NK Hf. destruct (lm_table M) as [Nt Lt]. destruct (lm_hash M) as (Hp & H2 & H4 & Hm).
  pose proof (is_pow2_pos _ Hp). pose proof (links_nodup _ _ _ _ _ _ _ _ _ H) as ND.
  pose proof (lks_nodes H) as P. apply Permutation_length in P. rewrite !length_app, length_seqZ in P. simpl in P.
  destruct (lm_dims M) as (Dk & Dv & Dc & _ & _).
  unfold hash_rebuild.
  destruct (hash_reset_spec (Z.to_nat (lu_hash_capacity u)) 0 (lu_hash_table u) [] (wdata (lu_hash_table u)))
    as (t & -> & N1 & A1 & D1); [done|done|done|unfold zlen in Lt; lia|lia|]. cbn [obind]. simpl in D1.
  assert (lru_mem (upd_hash u t (lu_hash_index u)) kl vl) as M1.
  { destruct M. split; simpl; try done. split; [done|]. rewrite D1, zlen_replicate. lia. }
  rewrite (lks_head H).
  destruct (rebuild_loop_spec kl vl (wdata (lu_next u)) ns (upd_hash u t (lu_hash_index u)) [] fuel M1)
    as (t2 & i2 & -> & A2 & A3 & M2 & H2'); simpl; try done.
  - rewrite D1. apply hash_ok_empty. lia.
  - apply (lks_next H).
  - rewrite app_nil_r. unfold zlen. lia.
  - rewrite app_nil_r. apply NoDup_app in ND. naive_solver.
  - by rewrite app_nil_r.
  - intros m Hm'. apply (links_range _ _ _ _ _ _ _ _ _ m H). set_solver.
  - unfold zlen in *. lia.
  - exists t2, i2. simpl in *. split_and!; try done; [congruence|].
    eapply hash_ok_perm; [exact H2'|]. rewrite app_nil_r. apply reverse_Permutation.
Qed.

(** What no operation but creation and destruction changes. *)
Definition lru_static u :=
  (lu_self u, lu_key_size u, lu_value_size u, lu_capacity u, lu_hash_capacity u, lu_evict_fn u, lu_allocator u,
   (paddr (lu_keys u), paddr (lu_values u), waddr (lu_prev u), waddr (lu_next u),
    waddr (lu_hash_index u), waddr (lu_hash_table u))).

Definition entries_of (kl vl : list bytes) (ns : list Z) : list entry :=
  (fun n => (at_node kl n, at_node vl n)) <$> ns.

(** The invariant of a cache with the nodes [ns] in use. *)
Record lru_at u (ns fs : list Z) (kl vl : list bytes) : Prop := {
  la_mem : lru_mem u kl vl;
  la_links : lru_links u ns fs [];
  la_hash : hash_ok (lu_key_size u) kl (wdata (lu_hash_table u)) ns;
  la_keys : NoDup (at_node kl <$> ns);
  la_count : lu_count u = zlen ns }.
Arguments la_mem {u ns fs kl vl}.
Arguments la_links {u ns fs kl vl}.
Arguments la_hash {u ns fs kl vl}.
Arguments la_keys {u ns fs kl vl}.
Arguments la_count {u ns fs kl vl}.

Definition lru_rep u (l : list entry) : Prop :=
  exists ns fs kl vl, lru_at u ns fs kl vl /\ l = entries_of kl vl ns.

Lemma without_miss k (l : list entry) : (forall e, e ∈ l -> e.1 <> k) -> cached k l = None /\ without k l = l.
Proof.
  unfold cached, without. induction l as [|e l IH]; intros H; [done|].
  destruct IH as [E1 E2]; [intros e' He'; apply H; set_solver|].
  rewrite !filter_cons. rewrite decide_False, decide_True by (apply H; set_solver). by rewrite E1, E2.
Qed.

Lemma cached_hit kl vl ns1 n ns2 :
  NoDup (at_node kl <$> ns1 ++ n :: ns2) ->
  cached (at_node kl n) (entries_of kl vl (ns1 ++ n :: ns2)) = Some (at_node vl n) /\
  without (at_node kl n) (entries_of kl vl (ns1 ++ n :: ns2)) = entries_of kl vl (ns1 ++ ns2).
Proof.
  intros ND. rewrite fmap_app, fmap_cons in ND. apply NoDup_app in ND as (_ & N1 & N2).
  apply NoDup_cons in N2 as [N2 _].
  destruct (without_miss (at_node kl n) (entries_of kl vl ns1)) as [E1 E2].
  { intros e (m & -> & Hm)%list_elem_of_fmap. simpl. intros E. apply (N1 (at_node kl m)).
    - apply list_elem_of_fmap. by exists m.
    - rewrite E. by left. }
  destruct (without_miss (at_node kl n) (entries_of kl vl ns2)) as [E3 E4].
  { intros e (m & -> & Hm)%list_elem_of_fmap. simpl. intros E. apply N2. rewrite <- E.
    apply list_elem_of_fmap. by exists m. }
  unfold entries_of in *. rewrite !fmap_app, fmap_cons. unfold cached, without in *.
  rewrite !filter_app, !filter_cons. cbn [fst]. rewrite (decide_True (P := at_node kl n = at_node kl n)) by done.
  rewrite (decide_False (P := at_node kl n <> at_node kl n)) by naive_solver. rewrite E2, E4.
  split; [|done]. destruct (filter (fun e => e.1 = at_node kl n) _); done.
Qed.

Lemma at_node_insert l n m y : 0 <= n < zlen l -> 0 <= m ->
  at_node (<[Z.to_nat n := y]> l) m = if decide (m = n) then y else at_node l m.
Proof.
  intros Hn Hm. unfold at_node. case_decide as D.
  - subst. by rewrite list_lookup_insert_eq by (unfold zlen in Hn; lia).
  - by rewrite list_lookup_insert_ne by lia.
Qed.

(** The entries of other nodes stay when node [n] is written. *)
Lemma entries_insert kl vl n ns k v :
  0 <= n < zlen kl -> 0 <= n < zlen vl -> (forall m, m ∈ ns -> 0 <= m /\ m <> n) ->
  entries_of (<[Z.to_nat n := k]> kl) (<[Z.to_nat n := v]> vl) ns = entries_of kl vl ns /\
  (at_node (<[Z.to_nat n := k]> kl) <$> ns) = (at_node kl <$> ns) /\
  entries_of kl (<[Z.to_nat n := v]> vl) ns = entries_of kl vl ns.
Proof.
  intros H1 H2 H. unfold entries_of.
  split_and!; apply list_fmap_ext; intros i m Hm%list_elem_of_lookup_2; apply H in Hm as [? ?];
    by rewrite ?at_node_insert, ?decide_False by (done || lia).
Qed.

(** Nodes of an invariant. *)
Lemma lru_at_nodes u ns fs kl vl : lru_at u ns fs kl vl ->
  (forall n, n ∈ ns -> 0 <= n < lu_capacity u) /\ NoDup ns /\ zlen ns + zlen fs = lu_capacity u.
Proof.
  intros A. destruct (la_links A) as (_ & _ & H). pose proof (links_nodup _ _ _ _ _ _ _ _ _ H) as ND.
  pose proof (lks_nodes H) as P. apply Permutation_length in P. rewrite !length_app, length_seqZ in P. simpl in P.
  pose proof (lks_cap H). split_and!.
  - intros n Hn. apply (links_range _ _ _ _ _ _ _ _ _ n H). set_solver.
  - apply NoDup_app in ND. naive_solver.
  - unfold zlen. lia.
Qed.

Lemma lru_find u ns fs kl vl k : lru_at u ns fs kl vl -> zlen k = lu_key_size u ->
  exists i b, hash_find_slot u k = Ret (i, b) /\
    if b : bool then exists ns1 n ns2, ns = ns1 ++ n :: ns2 /\ wget (lu_hash_table u) i = Ret n /\
      at_node kl n = k /\ cached k (entries_of kl vl ns) = Some (at_node vl n) /\
      without k (entries_of kl vl ns) = entries_of kl vl (ns1 ++ ns2)
    else (forall m, m ∈ ns -> at_node kl m <> k) /\ cached k (entries_of kl vl ns) = None.
Proof.
  intros A Hk. destruct (lru_at_nodes _ _ _ _ _ A) as (Hr & ND & Hl). pose proof (zlen_nonneg fs) as Lf.
  destruct (hash_find_slot_spec u kl vl ns k (la_mem A) Hk (la_hash A) Hr ltac:(lia)) as (i & b & E & H).
  exists i, b. split; [done|]. destruct b.
  - destruct H as (n & [ns1 [ns2 ->]]%list_elem_of_split & Hw & Hkn). exists ns1, n, ns2.
    destruct (cached_hit kl vl ns1 n ns2 (la_keys A)) as [E1 E2]. rewrite Hkn in E1, E2. by split_and!.
  - split; [done|]. apply without_miss. intros e (m & -> & Hm)%list_elem_of_fmap. by apply H.
Qed.

Lemma pown_paddr p p' : p <> None -> p' <> None -> pown p' = pown p -> paddr p' = paddr p.
Proof.
  destruct p as [b|], p' as [b'|]; try done. simpl. intros _ _ E.
  assert (b_addr b' ∈ ({[ b_addr b ]} : gset addr)) as H by (rewrite <- E; set_solver).
  apply elem_of_singleton in H. by rewrite H.
Qed.

Lemma copy_value_spec u kl vl n out :
  lru_mem u kl vl -> 0 <= n < lu_capacity u ->
  match out with Some o => zlen o = lu_value_size u | None => True end ->
  copy_value u n out = Ret (match out with Some _ => Some (at_node vl n) | None => None end).
Proof.
  intros M Hn Ho. destruct out as [o|]; [|done]. cbn [copy_value]. destruct (lm_values M) as (N & S & L).
  destruct (node_slot _ _ _ _ n N S L Hn) as (-> & Z & _); [apply (lm_dims M)..|]. cbn [obind].
  by rewrite wr_whole by lia.
Qed.

Lemma promote_spec u ns1 n ns2 fs kl vl : lru_at u (ns1 ++ n :: ns2) fs kl vl ->
  exists u', lru_move_to_front u n = Ret u' /\ lru_static u' = lru_static u /\ lru_at u' (n :: ns1 ++ ns2) fs kl vl.
Proof.
  intros A. destruct (lru_move_to_front_spec _ _ _ _ _ (la_links A)) as (pv & nx & h & t & f & -> & A1 & A2 & H).
  eexists. split; [done|]. split; [unfold lru_static; simpl; by rewrite A1, A2|]. destruct A as [M L Hh K Ct].
  assert (ns1 ++ n :: ns2 ≡ₚ n :: ns1 ++ ns2) as P by (by rewrite Permutation_middle).
  split; [by destruct M| done| | |].
  - simpl. by eapply hash_ok_perm.
  - by rewrite <- P.
  - simpl. rewrite Ct. unfold zlen. by rewrite P.
Qed.

(** A node's value overwritten. *)
Lemma write_value_spec u ns fs kl vl n v :
  lru_at u ns fs kl vl -> 0 <= n < lu_capacity u -> zlen v = lu_value_size u ->
  exists values, pwr (lu_values u) (u64 (n * lu_value_size u)) v = Ret values /\
    lru_static (upd_entry u (lu_keys u) values (lu_count u)) = lru_static u /\
    lru_at (upd_entry u (lu_keys u) values (lu_count u)) ns fs kl (<[Z.to_nat n := v]> vl).
Proof.
  intros A Hn Hv. pose proof (la_mem A) as M. destruct (lm_values M) as (N & S & L).
  destruct (node_slot _ _ _ _ n N S L Hn) as (_ & _ & ->); [apply (lm_dims M)..|].
  destruct (pwr_slot _ _ _ n v N S ltac:(lia) Hv) as (p & -> & Np & Op & Sp).
  exists p. split; [done|]. split; [unfold lru_static; simpl; by rewrite (pown_paddr _ _ N Np Op)|].
  destruct A as [M' L' H K Ct]. split; try done. destruct M'. split; simpl; try done.
  split_and!; [done|done|by rewrite zlen_insert].
Qed.

(** A free-standing node filled with an entry and linked in. *)
Lemma lru_put_entry_spec u ns fs kl vl n k v fuel (rebuild : bool) :
  lru_mem u kl vl -> lru_links u ns fs [n] -> zlen k = lu_key_size u -> zlen v = lu_value_size u ->
  NoDup (at_node kl <$> ns) -> (forall m, m ∈ ns -> at_node kl m <> k) -> lu_count u = zlen ns + 1 ->
  (rebuild = false -> hash_ok (lu_key_size u) kl (wdata (lu_hash_table u)) ns) ->
  5 * lu_capacity u <= Z.of_nat fuel ->
  exists u', put_entry fuel u n k v rebuild = Ret u' /\ lru_static u' = lru_static u /\
    lru_at u' (n :: ns) fs (<[Z.to_nat n := k]> kl) (<[Z.to_nat n := v]> vl).
Proof.
  intros M H Hk Hv NK Hnew Hcount Hhash Hf.
  destruct (lm_dims M) as (Dk & Dv & Dc & D1 & D2). destruct (lm_keys M) as (Nk & Sk & Lk).
  destruct (lm_values M) as (Nv & Sv & Lv). pose proof H as (_ & _ & HL).
  pose proof (links_nodup _ _ _ _ _ _ _ _ _ HL) as ND.
  pose proof (fun p => links_range _ _ _ _ _ _ _ _ _ p HL) as Hr.
  pose proof (lks_nodes HL) as P. apply Permutation_length in P. rewrite !length_app, length_seqZ in P. simpl in P.
  assert (0 <= n < lu_capacity u) as Hn by (apply Hr; set_solver).
  assert (forall m, m ∈ ns -> 0 <= m /\ m <> n) as Hns.
  { intros m Hm. split; [apply Hr; set_solver|]. apply NoDup_app in ND as (_ & ND & _).
    intros ->. apply (ND n Hm). set_solver. }
  destruct (entries_insert kl vl n ns k v ltac:(lia) ltac:(lia) Hns) as (_ & Ek & _).
  unfold put_entry. rewrite rd_whole by done. cbn [obind].
  destruct (node_slot _ _ _ _ n Nk Sk Lk Hn Dk D1) as (_ & _ & ->).
  destruct (pwr_slot _ _ _ n k Nk Sk ltac:(lia) Hk) as (pk & -> & Npk & Opk & Spk). cbn [obind].
  rewrite rd_whole by done. cbn [obind].
  destruct (node_slot _ _ _ _ n Nv Sv Lv Hn Dv D2) as (_ & _ & ->).
  destruct (pwr_slot _ _ _ n v Nv Sv ltac:(lia) Hv) as (pq & -> & Npq & Opq & Spq). cbn [obind].
  set (u1 := upd_entry u pk pq (lu_count u)).
  assert (lru_links u1 ns fs [n]) as H1 by exact H.
  destruct (lru_push_front_spec _ _ _ _ H1) as (pv & nx & h & t & f & -> & A1 & A2 & H2). cbn [obind].
  set (kl' := <[Z.to_nat n := k]> kl). set (vl' := <[Z.to_nat n := v]> vl).
  set (u2 := upd_links u1 pv nx h t f) in *.
  assert (lru_mem u2 kl' vl') as M2.
  { unfold kl', vl'. destruct M. split; simpl; try done; (split; [done|split; [done|by rewrite zlen_insert]]). }
  assert (at_node kl' n = k) as Ekn by (unfold kl'; rewrite at_node_insert by lia; by rewrite decide_True).
  assert (forall m, m ∈ ns -> at_node kl' m = at_node kl m) as Eks.
  { intros m Hm. destruct (Hns m Hm). unfold kl'. by rewrite at_node_insert, decide_False by lia. }
  assert (NoDup (at_node kl' <$> n :: ns)) as NK'.
  { rewrite fmap_cons. unfold kl' at 2. rewrite Ek. constructor; [|done].
    intros (m & E & Hm)%list_elem_of_fmap. apply (Hnew m Hm). congruence. }
  assert (rehashed u2 kl' vl' (n :: ns) (if rebuild then hash_rebuild fuel u2 else hash_enter fuel u2 n k))
    as (tb & ix & -> & A3 & A4 & M3 & Hh).
  { destruct rebuild; [by apply hash_rebuild_spec with (fs := fs)|].
    rewrite <- Ekn. apply hash_enter_spec; try done.
    - eapply hash_ok_keys; [by apply Hhash|done].
    - simpl. unfold zlen in *. lia.
    - intros m Hm. apply Hr. set_solver.
    - intros Hm. by destruct (Hns n Hm).
    - intros m Hm. rewrite Ekn, Eks by done. by apply Hnew.
    - destruct (lm_hash M) as (_ & _ & H4 & _). simpl. lia. }
  eexists. split; [done|]. split.
  - unfold lru_static. simpl in *. rewrite A1, A2, A3, A4.
    by rewrite (pown_paddr _ _ Nk Npk Opk), (pown_paddr _ _ Nv Npq Opq).
  - split; try done. simpl. rewrite Hcount. zl.
Qed.

Lemma evict_entry_spec u kl vl n x : lru_mem u kl vl -> 0 <= n < lu_capacity u ->
  evict_entry u n x = Ret (notify (lu_evict_fn u) x (at_node kl n, at_node vl n)).
Proof.
  intros M Hn. unfold evict_entry, notify. destruct (lu_evict_fn u) as [f|]; [|done].
  destruct (lm_keys M) as (Nk & Sk & Lk). destruct (lm_values M) as (Nv & Sv & Lv).
  destruct (node_slot _ _ _ _ n Nk Sk Lk Hn) as (-> & _ & _); [apply (lm_dims M)..|]. cbn [obind].
  by destruct (node_slot _ _ _ _ n Nv Sv Lv Hn) as (-> & _ & _); [apply (lm_dims M)..|].
Qed.

Lemma evict_loop_spec u kl vl : lru_mem u kl vl -> lu_next u <> None -> forall ns fuel x,
  trail (lk (wdata (lu_next u))) ns None -> (forall n, n ∈ ns -> 0 <= n < lu_capacity u) ->
  (length ns <= fuel)%nat ->
  evict_loop fuel u (enc (head ns)) x = Ret (foldl (notify (lu_evict_fn u)) x (entries_of kl vl ns)).
Proof.
  intros M Nn. induction ns as [|n ns IH]; intros fuel x T Hr Hf; [by destruct fuel|].
  destruct fuel as [|fuel]; simpl in Hf; [lia|]. simpl enc. cbn [evict_loop].
  assert (0 <= n < lu_capacity u) as Hn by (apply Hr; set_solver).
  destruct (lm_dims M) as (Dk & Dv & Dc & D1 & D2).
  rewrite decide_True by (unfold LRU_NONE; nia). erewrite evict_entry_spec by done. cbn [obind].
  rewrite wget_aget by done. destruct T as [E T]. unfold lk in E.
  destruct (wdata (lu_next u) !! Z.to_nat n) as [v|] eqn:Ev; [|done]. injection E as E%dec_inv.
  rewrite hd_or_None in E. subst v. erewrite aget_lookup by (done || lia). cbn [obind].
  rewrite IH; [done|done|set_solver|lia].
Qed.

Lemma evict_all_spec u ns fs kl vl fuel x : lru_at u ns fs kl vl -> lu_capacity u <= Z.of_nat fuel ->
  evict_all fuel u x = Ret (foldl (notify (lu_evict_fn u)) x (entries_of kl vl ns)).
Proof.
  intros A Hf. unfold evict_all. destruct (lru_at_nodes _ _ _ _ _ A) as (Hr & _ & Hl).
  destruct (la_links A) as (_ & Nn & H). destruct (lu_evict_fn u) as [f|] eqn:Ef.
  - rewrite (lks_head H), <- Ef. apply evict_loop_spec; [apply A|done|apply (lks_next H)|done|].
    pose proof (zlen_nonneg fs). unfold zlen in *. lia.
  - f_equal. generalize (entries_of kl vl ns). intros l. revert x. induction l as [|e l IH]; intros x; [done|]. apply IH.
Qed.

(** The effect of a call on the entries [l] and on the callback's context [x]. *)
Definition call_done (op : lru_op) u (l : list entry) (x : X) (r : outcome (lru_res * (zenit_lru_t C X * X))) : Prop :=
  exists res u' x' l', r = Ret (res, (u', x')) /\ lru_rep u' l' /\ lru_static u' = lru_static u /\
    lru_spec (lu_capacity u) (lu_evict_fn u) op (l, x) = (res, (l', x')).

Lemma put_spec u ns fs kl vl k v fuel x :
  lru_at u ns fs kl vl -> zlen k = lu_key_size u -> zlen v = lu_value_size u -> 5 * lu_capacity u <= Z.of_nat fuel ->
  call_done (CPut k v) u (entries_of kl vl ns) x (lru_exec fuel (CPut k v) (u, x)).
Proof.
  intros A Hk Hv Hf. destruct (lru_at_nodes _ _ _ _ _ A) as (Hr & ND & Hl).
  pose proof (la_mem A) as M. destruct (lm_dims M) as (Dk & Dv & Dc & D1 & D2).
  destruct (lm_keys M) as (Nk & Sk & Lk). destruct (lm_values M) as (Nv & Sv & Lv).
  cbn [lru_exec zenit_lru_put]. destruct (lru_find u ns fs kl vl k A Hk) as (i & b & -> & Hb). cbn [obind].
  unfold call_done. cbn [lru_spec]. assert (zlen (entries_of kl vl ns) = zlen ns) as Le
    by (unfold entries_of, zlen; by rewrite length_fmap).
  destruct b.
  - destruct Hb as (ns1 & n & ns2 & -> & -> & Ek & -> & ->). cbn [obind].
    assert (0 <= n < lu_capacity u) as Hn by (apply Hr; set_solver).
    rewrite rd_whole by done. cbn [obind].
    destruct (write_value_spec _ _ _ _ _ n v A Hn Hv) as (q & -> & Es & A1). cbn [obind].
    destruct (promote_spec _ _ _ _ _ _ _ A1) as (u' & -> & Es' & A2). cbn [obind].
    eexists _, u', x, _. split; [done|]. split; [|split; [congruence|done]].
    exists (n :: ns1 ++ ns2), fs, kl, (<[Z.to_nat n := v]> vl). split; [done|].
    assert (n ∉ ns1 ++ ns2) as Hnn.
    { rewrite <- Permutation_middle in ND. by apply NoDup_cons in ND as [? _]. }
    destruct (entries_insert kl vl n (ns1 ++ ns2) k v ltac:(lia) ltac:(lia)) as (_ & _ & E3).
    { intros m Hm. split; [apply Hr; set_solver|set_solver]. }
    unfold entries_of in *. rewrite fmap_cons, E3. by rewrite Ek, at_node_insert, decide_True by lia.
  - destruct Hb as [Hmiss ->]. rewrite (la_count A), Le. destruct (decide (zlen ns = lu_capacity u)) as [Hfull|Hroom].
    + destruct ns as [|n ns _] using rev_ind; [unfold zlen in Hfull; simpl in Hfull; lia|].
      destruct (la_links A) as (_ & _ & HL). rewrite (lks_tail HL), last_snoc. simpl enc.
      assert (0 <= n < lu_capacity u) as Hn by (apply Hr; set_solver).
      erewrite evict_entry_spec by done. cbn [obind].
      destruct (lru_unlink_spec _ _ _ _ _ (la_links A)) as (pv & nx & h & t & f & -> & A1 & A2 & H1). cbn [obind].
      rewrite app_nil_r in H1. pose proof (la_keys A) as NK. rewrite fmap_app in NK.
      apply NoDup_app in NK as (NK & _ & _).
      assert (NoDup ns /\ n ∉ ns) as [_ Hnn] by (apply NoDup_app in ND; set_solver).
      destruct (lru_put_entry_spec (upd_links u pv nx h t f) ns fs kl vl n k v fuel true) as (u' & -> & Es & A3);
        try done; [by destruct M|set_solver|simpl; rewrite (la_count A); zl|].
      cbn [obind]. eexists _, u', _, _. split; [done|]. split; [|split].
      * exists (n :: ns), fs, (<[Z.to_nat n := k]> kl), (<[Z.to_nat n := v]> vl). split; [done|]. reflexivity.
      * rewrite Es. unfold lru_static. simpl. by rewrite A1, A2.
      * destruct (entries_insert kl vl n ns k v ltac:(lia) ltac:(lia)) as (E3 & _ & _).
        { intros m Hm. split; [apply Hr; set_solver|set_solver]. }
        unfold entries_of in *. rewrite fmap_cons, E3, !at_node_insert, !decide_True by lia.
        rewrite fmap_app, fmap_cons, fmap_nil, last_snoc, length_app. simpl length.
        by rewrite Nat.add_sub, take_app_length.
    + destruct fs as [|n fs]; [unfold zlen in *; simpl in *; lia|].
      destruct (freelist_pop_spec _ _ _ _ (la_links A)) as (f & -> & H1). cbn [obind].
      pose proof H1 as (_ & _ & HL). pose proof (links_nodup _ _ _ _ _ _ _ _ _ HL) as ND'.
      assert (0 <= n < lu_capacity u) as Hn by (apply (links_range _ _ _ _ _ _ _ _ _ n HL); set_solver).
      assert (n ∉ ns) as Hnn by (apply NoDup_app in ND'; set_solver).
      match goal with |- context [put_entry fuel ?w n k v false] =>
        destruct (lru_put_entry_spec w ns fs kl vl n k v fuel false) as (u' & -> & Es & A3) end; simpl; try done.
      * by destruct M.
      * by apply A.
      * rewrite (la_count A), u64_small; [done|]. pose proof (lks_cap HL) as Hcap. simpl in Hcap. zl.
      * intros _. by apply A.
      * cbn [obind]. eexists _, u', _, _. split; [done|]. split; [|split; [done|]].
        -- exists (n :: ns), fs, (<[Z.to_nat n := k]> kl), (<[Z.to_nat n := v]> vl). split; [done|]. reflexivity.
        -- destruct (entries_insert kl vl n ns k v ltac:(lia) ltac:(lia)) as (E3 & _ & _).
           { intros m Hm. split; [apply Hr; set_solver|set_solver]. }
           unfold entries_of in *. by rewrite fmap_cons, E3, !at_node_insert, !decide_True by lia.
Qed.

Lemma lru_get_spec u ns fs kl vl k out fuel x :
  lru_at u ns fs kl vl -> lru_pre (lu_key_size u) (lu_value_size u) (CGet k out) ->
  call_done (CGet k out) u (entries_of kl vl ns) x (lru_exec fuel (CGet k out) (u, x)) /\
  call_done (CPeek k out) u (entries_of kl vl ns) x (lru_exec fuel (CPeek k out) (u, x)).
Proof.
  intros A [Hk Ho]. destruct (lru_at_nodes _ _ _ _ _ A) as (Hr & _ & _).
  cbn [lru_exec zenit_lru_get zenit_lru_peek]. destruct (lru_find u ns fs kl vl k A Hk) as (i & b & -> & Hb).
  cbn [obind]. unfold call_done. cbn [lru_spec]. destruct b.
  - destruct Hb as (ns1 & n & ns2 & -> & -> & Ek & -> & ->). cbn [obind].
    assert (0 <= n < lu_capacity u) as Hn by (apply Hr; set_solver).
    rewrite (copy_value_spec u kl vl n out (la_mem A) Hn Ho). cbn [obind].
    destruct (promote_spec _ _ _ _ _ _ _ A) as (u' & -> & Es & A'). cbn [obind]. split.
    + eexists _, u', x, _. split; [done|]. split; [|done]. exists (n :: ns1 ++ ns2), fs, kl, vl. split; [done|].
      unfold entries_of. by rewrite fmap_cons, Ek.
    + eexists _, u, x, _. split; [done|]. split; [|done]. by exists (ns1 ++ n :: ns2), fs, kl, vl.
  - destruct Hb as [_ ->]. split; eexists _, u, x, _; (split; [done|]); (split; [|done]); by exists ns, fs, kl, vl.
Qed.

Lemma lru_remove_spec u ns fs kl vl k fuel x :
  lru_at u ns fs kl vl -> zlen k = lu_key_size u -> 5 * lu_capacity u <= Z.of_nat fuel ->
  call_done (CRemove k) u (entries_of kl vl ns) x (lru_exec fuel (CRemove k) (u, x)).
Proof.
  intros A Hk Hf. destruct (lru_at_nodes _ _ _ _ _ A) as (Hr & ND & Hl).
  cbn [lru_exec zenit_lru_remove]. destruct (lru_find u ns fs kl vl k A Hk) as (i & b & E & Hb). rewrite E.
  cbn [obind]. unfold call_done. cbn [lru_spec]. destruct b.
  2: { destruct Hb as [_ ->]. eexists _, u, x, _. split; [done|]. split; [|done]. by exists ns, fs, kl, vl. }
  destruct Hb as (ns1 & n & ns2 & -> & Hw & Ek & -> & ->). cbn [obind]. rewrite Hw. cbn [obind].
  destruct (lru_unlink_spec _ _ _ _ _ (la_links A)) as (pv & nx & h & t & f & -> & A1 & A2 & H1). cbn [obind].
  destruct (freelist_push_spec _ _ _ _ H1) as (pv' & nx' & h' & t' & f' & -> & A3 & A4 & H2). cbn [obind].
  pose proof (la_keys A) as NK. rewrite fmap_app, fmap_cons, <- Permutation_middle in NK.
  apply NoDup_cons in NK as [_ NK]. rewrite <- fmap_app in NK.
  match goal with |- context [hash_rebuild fuel ?w] =>
    destruct (hash_rebuild_spec w kl vl (ns1 ++ ns2) (n :: fs) fuel) as (tb & ix & -> & A5 & A6 & M3 & Hh) end;
    simpl in *; try done.
  { by destruct (la_mem A). }
  cbn [obind]. eexists _, _, x, _. split; [done|]. split; [|split; [|done]].
  - exists (ns1 ++ ns2), (n :: fs), kl, vl. split; [|done]. split; try done. simpl. rewrite (la_count A).
    pose proof (zlen_nonneg fs). rewrite u64_small; [zl|].
    destruct H1 as (_ & _ & HL). pose proof (lks_cap HL) as Hcap. simpl in Hcap. zl.
  - unfold lru_static. simpl. by rewrite A3, A4, A5, A6, A1, A2.
Qed.

(** Tables reset and every node on the free list. *)
Lemma lru_reset_spec u kl vl next table (M : lru_mem u kl vl) :
  next <> None -> zlen (wdata next) = lu_capacity u -> lu_prev u <> None -> zlen (wdata (lu_prev u)) = lu_capacity u ->
  table <> None -> zlen (wdata table) = lu_hash_capacity u ->
  exists t n1 n2, hash_reset (Z.to_nat (lu_hash_capacity u)) 0 table = Ret t /\
    free_links (Z.to_nat (lu_capacity u)) 0 next = Ret n1 /\ wset n1 (u64 (lu_capacity u - 1)) LRU_NONE = Ret n2 /\
    waddr t = waddr table /\ waddr n2 = waddr next /\
    forall u', lu_key_size u' = lu_key_size u -> lru_mem u' kl vl -> lu_count u' = 0 -> lu_capacity u' = lu_capacity u ->
      lu_prev u' = lu_prev u -> lu_next u' = n2 -> lu_hash_table u' = t -> lu_head u' = LRU_NONE ->
      lu_tail u' = LRU_NONE -> lu_free_head u' = 0 -> lru_at u' [] (seqZ 0 (lu_capacity u)) kl vl.
Proof.
  intros Nn Ln Np Lp Nt Lt. destruct (lm_dims M) as (Dk & Dv & Dc & D1 & D2).
  destruct (lm_hash M) as (Hp & H2 & H4 & Hm).
  destruct (hash_reset_spec (Z.to_nat (lu_hash_capacity u)) 0 table [] (wdata table))
    as (t & -> & N1 & A1 & E1); [done|done|done|unfold zlen in Lt; lia|lia|].
  destruct (free_links_spec (Z.to_nat (lu_capacity u)) 0 next [] (wdata next))
    as (n1 & -> & N2 & A2 & E2); [done|done|done|unfold zlen in Ln; lia|nia|].
  rewrite u64_small by nia. rewrite Z2Nat.id in E2 by lia. simpl in E1, E2.
  assert (zlen (wdata n1) = lu_capacity u) as L1 by (rewrite E2; unfold zlen; rewrite length_seqZ; lia).
  destruct (wset_range n1 (lu_capacity u - 1) LRU_NONE N2) as (n2 & W3 & N3 & A3 & E3); [lia|].
  exists t, n1, n2. split_and!; try done; [congruence|].
  intros u' Ek M' Ec Ecap Ep En Et Eh Etl Ef. split; try done.
  - split; [by rewrite Ep|]. split; [by rewrite En|]. rewrite Ecap, Ep, En, Eh, Etl, Ef, E3.
    apply links_init; [nia|done|by rewrite zlen_insert|]. intros i Hi. case_decide as D.
    + subst i. apply list_lookup_insert_eq. unfold zlen in L1. lia.
    + rewrite list_lookup_insert_ne by lia. rewrite E2. apply lookup_seqZ. lia.
  - rewrite Ek, Et, E1. apply hash_ok_empty. lia.
  - constructor.
Qed.

Lemma lru_clear_spec u ns fs kl vl fuel x :
  lru_at u ns fs kl vl -> 5 * lu_capacity u <= Z.of_nat fuel ->
  call_done CClear u (entries_of kl vl ns) x (lru_exec fuel CClear (u, x)).
Proof.
  intros A Hf. cbn [lru_exec zenit_lru_clear]. pose proof (la_mem A) as M.
  destruct (lm_dims M) as (Dk & Dv & Dc & D1 & D2). erewrite evict_all_spec by (done || lia). cbn [obind].
  destruct (la_links A) as (Np & Nn & HL). destruct (lm_table M) as [Nt Lt].
  destruct (lru_reset_spec u kl vl (lu_next u) (lu_hash_table u) M Nn (lks_nx HL) Np (lks_pv HL) Nt Lt)
    as (t & n1 & n2 & E1 & E2 & E3 & A1 & A2 & R).
  rewrite E1. cbn [obind]. rewrite E2. cbn [obind]. rewrite E3. cbn [obind].
  eexists _, _, _, _. split; [done|]. split; [|split; [|done]].
  - eexists [], _, kl, vl. split; [|done]. apply R; try done.
    destruct (hash_reset_spec (Z.to_nat (lu_hash_capacity u)) 0 (lu_hash_table u) [] (wdata (lu_hash_table u)))
      as (t' & Et & N1 & _ & D); [done|done|done|unfold zlen in Lt; lia|destruct (lm_hash M); lia|].
    rewrite E1 in Et. injection Et as <-. destruct M as [? Hh]. split; simpl; try done. split; [done|].
    rewrite D. simpl. rewrite zlen_replicate. destruct Hh as (_ & ? & _). lia.
  - unfold lru_static. simpl. by rewrite A1, A2.
Qed.

Lemma lru_exec_spec fuel op u x l :
  lru_rep u l -> lru_pre (lu_key_size u) (lu_value_size u) op -> 5 * lu_capacity u <= Z.of_nat fuel ->
  call_done op u l x (lru_exec fuel op (u, x)).
Proof.
  intros (ns & fs & kl & vl & A & ->) Hp Hf. destruct op; cbn [lru_pre] in Hp.
  - destruct Hp. by apply put_spec with (fs := fs).
  - by apply lru_get_spec with (fs := fs).
  - by apply lru_get_spec with (fs := fs).
  - cbn [lru_exec zenit_lru_contains]. destruct (lru_find u ns fs kl vl k A Hp) as (i & b & -> & Hb). cbn [obind].
    unfold call_done. cbn [lru_spec]. destruct b.
    + destruct Hb as (? & ? & ? & -> & _ & _ & -> & _). eexists _, u, x, _. split; [done|]. split; [|done]. by eexists _, fs, kl, vl.
    + destruct Hb as [_ ->]. eexists _, u, x, _. split; [done|]. split; [|done]. by eexists _, fs, kl, vl.
  - by apply lru_remove_spec with (fs := fs).
  - by apply lru_clear_spec with (fs := fs).
  - eexists _, u, x, _. split; [done|]. split; [by eexists _, fs, kl, vl|]. split; [done|].
    cbn [lru_spec zenit_lru_count]. rewrite (la_count A). unfold entries_of, zlen. by rewrite length_fmap.
  - eexists _, u, x, _. split; [done|]. split; [by eexists _, fs, kl, vl|]. done.
Qed.
End LruProofs.

(** ** Creation and destruction *)

Section LruLife.
Context {C X : Type} (a : zenit_allocator_t C) {SP : AllocSpec a}.
Implicit Types (u : zenit_lru_t C X) (c : C).

Lemma alloc_array_spec n m c0 c L : owns a c0 c L -> 0 < n -> 0 < m -> n * m < two64 ->
  exists r c', alloc_array a n m c = Ret (r, c') /\ owns a c0 c' (opt_addr (paddr r) ++ L) /\
    match r with
    | Some b => b_data b = replicate (Z.to_nat (n * m)) 0 /\ n * m <= PTRDIFF_MAX
    | None => True
    end.
Proof.
  intros H Hn Hm Hs. unfold alloc_array. rewrite decide_False by lia.
  unfold zenit_allocator_alloc_zero. rewrite u64_small by nia.
  destruct (alloc_fn a (n * m) c) as [[b|] c1] eqn:E.
  - pose proof (owns_alloc a _ _ _ _ _ _ H E) as H1. apply alloc_some in E as (L1 & M1 & _ & _).
    unfold pmemset. rewrite decide_True by nia. simpl. rewrite wr_whole by (rewrite zlen_replicate; lia).
    cbn [obind]. eexists (Some _), c1. split; [done|]. split; [exact H1|done].
  - exists None, c1. split; [done|]. split; [|done]. eapply owns_same; [exact H|]. by eapply alloc_none.
Qed.

Lemma alloc_words_spec n c0 c L : owns a c0 c L -> 0 < n -> n * 8 < two64 ->
  exists r c', alloc_words a n c = Ret (r, c') /\ owns a c0 c' (opt_addr (waddr r) ++ L) /\
    match r with Some w => zlen (w_data w) = n /\ n * 8 <= PTRDIFF_MAX | None => True end.
Proof.
  intros H Hn Hs. unfold alloc_words. destruct (alloc_array_spec n 8 c0 c L H) as (r & c' & -> & H1 & Hr); try lia.
  cbn [obind]. eexists _, c'. split; [done|]. destruct r as [b|]; [|done]. simpl. split; [exact H1|].
  destruct Hr as [-> Hm]. rewrite zlen_replicate, zlen_replicate, !Z2Nat.id by (try apply Z.div_pos; lia).
  by rewrite Z.div_mul by lia.
Qed.

Definition lru_blocks u : list addr :=
  opt_addr (paddr (lu_keys u)) ++ opt_addr (paddr (lu_values u)) ++ opt_addr (waddr (lu_prev u)) ++
  opt_addr (waddr (lu_next u)) ++ opt_addr (waddr (lu_hash_index u)) ++ opt_addr (waddr (lu_hash_table u)).

Lemma free_internals_spec u c0 c L : lu_allocator u = a ->
  owns a c0 c (lru_blocks u ++ L) -> owns a c0 (lru_free_internals u c) L.
Proof.
  intros Ea H. unfold lru_free_internals. rewrite Ea. unfold lru_blocks in H. rewrite <- !app_assoc in H.
  by do 6 apply owns_free_opt in H.
Qed.

Lemma hash_capacity_spec cap : 0 < cap < 2 ^ 59 ->
  is_pow2 (round_pow2 (u64 (cap * 2))) /\ 2 * cap <= round_pow2 (u64 (cap * 2)) <= 4 * cap.
Proof.
  intros Hc. rewrite u64_small by lia. rewrite round_pow2_spec by lia.
  pose proof (Z.log2_up_nonneg (cap * 2)). split; [by exists (Z.log2_up (cap * 2))|].
  destruct (decide (cap = 1)) as [->|]; [done|].
  pose proof (Z.log2_up_spec (cap * 2) ltac:(lia)) as [L1 L2]. split; [lia|].
  assert (0 < Z.log2_up (cap * 2)) by (apply Z.log2_up_pos; lia).
  rewrite <- (Z.succ_pred (Z.log2_up (cap * 2))), Z.pow_succ_r by lia. lia.
Qed.

Lemma lru_created ks vs cap ev c :
  0 < ks -> 0 < vs -> 0 < cap < 2 ^ 59 -> cap * ks < two64 -> cap * vs < two64 ->
  exists r c', lru_create_impl (X := X) ks vs cap ev a c = Ret (r, c') /\
    match r with
    | None => live c' = live c
    | Some u => lru_rep u [] /\ owns a c c' (lru_blocks u ++ [lu_self u]) /\ lu_allocator u = a /\
        lu_key_size u = ks /\ lu_value_size u = vs /\ lu_capacity u = cap /\ lu_evict_fn u = ev
    end.
Proof.
  intros Hk Hv Hc Hck Hcv. destruct (hash_capacity_spec cap Hc) as [Hpow Hhc].
  unfold lru_create_impl. rewrite decide_False by lia.
  generalize dependent (round_pow2 (u64 (cap * 2))). intros hc Hpow Hhc.
  destruct (alloc_fn a SIZEOF_LRU c) as [[b|] c1] eqn:E.
  2: { exists None, c1. split; [done|]. by eapply alloc_none. }
  pose proof (owns_alloc a _ _ _ _ _ _ (owns_refl a c) E) as O.
  destruct (alloc_array_spec cap ks c c1 _ O) as (keys & c2 & -> & O2 & Hkeys); [lia..|]. cbn [obind].
  destruct (alloc_array_spec cap vs c c2 _ O2) as (values & c3 & -> & O3 & Hvals); [lia..|]. cbn [obind].
  destruct (alloc_words_spec cap c c3 _ O3) as (prev & c4 & -> & O4 & Hprev); [lia..|]. cbn [obind].
  destruct (alloc_words_spec cap c c4 _ O4) as (next & c5 & -> & O5 & Hnext); [lia..|]. cbn [obind].
  destruct (alloc_words_spec cap c c5 _ O5) as (index & c6 & -> & O6 & Hindex); [lia..|]. cbn [obind].
  destruct (alloc_words_spec hc c c6 _ O6) as (table & c7 & -> & O7 & Htable); [lia..|]. cbn [obind].
  assert (owns a c c7 ((opt_addr (paddr keys) ++ opt_addr (paddr values) ++ opt_addr (waddr prev) ++
    opt_addr (waddr next) ++ opt_addr (waddr index) ++ opt_addr (waddr table)) ++ [b_addr b])) as O8.
  { eapply owns_perm; [exact O7|].
    transitivity (concat (reverse [opt_addr (paddr keys); opt_addr (paddr values); opt_addr (waddr prev);
      opt_addr (waddr next); opt_addr (waddr index); opt_addr (waddr table)]) ++ [b_addr b]).
    - cbn. by rewrite app_nil_r, <- !app_assoc.
    - rewrite reverse_Permutation. cbn. by rewrite app_nil_r. }
  set (u := mk_lru _ _ _ _ _ _ _ _ _ _ _ _ _ _ _ _ _).
  case_decide as D.
  { eexists None, _. split; [done|]. apply (owns_nil a). apply owns_free.
    by apply (free_internals_spec u). }
  destruct keys as [keys|]; [|tauto]. destruct values as [values|]; [|tauto].
  destruct prev as [prev|]; [|simpl in D; tauto]. destruct next as [next|]; [|simpl in D; tauto].
  destruct index as [index|]; [|simpl in D; tauto]. destruct table as [table|]; [|simpl in D; tauto].
  destruct Hkeys as [Dkeys Mk], Hvals as [Dvals Mv].
  set (kl := slots_of (Z.to_nat ks) (Z.to_nat cap) (b_data keys)).
  set (vl := slots_of (Z.to_nat vs) (Z.to_nat cap) (b_data values)).
  assert (lru_mem u kl vl) as M.
  { split; simpl; try done; try lia.
    - split_and!; [done|lia..].
    - split; [done|]. split; [apply is_slots_exists; rewrite Dkeys, zlen_replicate, !Z2Nat.id by lia; done|].
      unfold kl. rewrite zlen_slots_of. lia.
    - split; [done|]. split; [apply is_slots_exists; rewrite Dvals, zlen_replicate, !Z2Nat.id by lia; done|].
      unfold vl. rewrite zlen_slots_of. lia.
    - split; [done|by apply Htable].
    - split; [done|by apply Hindex]. }
  destruct (lru_reset_spec u kl vl (Some next) (Some table) M) as (t & n1 & n2 & E1 & E2 & E3 & A1 & A2 & R);
    simpl; try done; [by apply Hnext|by apply Hprev|by apply Htable|]. simpl in E1, E2, E3.
  rewrite E1. cbn [obind]. rewrite E2. cbn [obind]. rewrite E3. cbn [obind].
  destruct (hash_reset_spec (Z.to_nat hc) 0 (Some table) [] (w_data table)) as (t' & Et & N1 & _ & Dt);
    [done|done|done|destruct Htable; unfold zlen in *; lia|simpl; destruct Htable; lia|].
  rewrite E1 in Et. injection Et as <-.
  eexists (Some _), c7. split; [done|]. split; [|split; [|done]].
  - eexists [], _, kl, vl. split; [|done]. apply R; try done.
    destruct M. split; simpl in *; try done. split; [done|]. rewrite Dt. simpl. rewrite zlen_replicate. lia.
  - unfold lru_blocks. simpl. rewrite A1, A2. exact O8.
Qed.

Lemma lru_destroyed u l x c c1 fuel :
  lru_rep u l -> lu_allocator u = a -> owns a c c1 (lru_blocks u ++ [lu_self u]) ->
  lu_capacity u <= Z.of_nat fuel ->
  exists c2, zenit_lru_destroy fuel (Some u) x c1 = Ret (foldl (notify (lu_evict_fn u)) x l, c2) /\ live c2 = live c.
Proof.
  intros (ns & fs & kl & vl & A & ->) Ea O Hf. cbn [zenit_lru_destroy].
  erewrite evict_all_spec by done. cbn [obind]. eexists. split; [done|].
  apply (owns_nil a). rewrite Ea. apply owns_free. by apply free_internals_spec.
Qed.

(** C28. The cache keeps the most recently used entries. After a successful creation
    any sequence of calls gives the results of an association list ordered by
    use: a hit moves the entry to the front, a put into a full cache evicts
    exactly the least recently used entry and reports it to the callback, removal
    and clearing forget entries; lookups by hashing find exactly the entries of
    the list, every probe and every rebuild of the hash table ends, no index
    leaves its array, and destruction reports the remaining entries to the
    callback and releases exactly what was allocated. *)
Theorem lru_cache ks vs cap ev ops fuel (x : X) c :
  0 < ks -> 0 < vs -> 0 < cap < 2 ^ 59 -> cap * ks < two64 -> cap * vs < two64 ->
  Forall (lru_pre ks vs) ops -> 5 * cap <= Z.of_nat fuel ->
  exists r c1, zenit_lru_create_with_evict_and_allocator ks vs cap ev a c = Ret (r, c1) /\
  match r with
  | None => live c1 = live c
  | Some u => exists rs u' x' l, run (lru_exec fuel) ops (u, x) = Ret (rs, (u', x')) /\
      trace (lru_step cap ev) ([], x) ops rs (l, x') /\
      exists c2, zenit_lru_destroy fuel (Some u') x' c1 = Ret (foldl (notify ev) x' l, c2) /\ live c2 = live c
  end.
Proof.
  intros Hk Hv Hc Hck Hcv Hops Hf.
  destruct (lru_created ks vs cap ev c Hk Hv Hc Hck Hcv) as (r & c1 & E & R). exists r, c1. split; [exact E|].
  destruct r as [u|]; [|done]. destruct R as (R & O & Ea & Eks & Evs & Ecap & Eev).
  destruct (run_simulates_any (lru_exec fuel) (lru_step cap ev)
    (fun st s => lru_rep st.1 s.1 /\ st.2 = s.2 /\ lru_static st.1 = lru_static u) (lru_pre ks vs))
    with (ops := ops) (s := (u, x)) (x := (@nil entry, x)) as (rs & [u' x'] & [l x2] & -> & T & (R' & Ex & Es)); try done.
  - intros op [u0 x0] [l0 y0] (R0 & Ex & Es) Hp. cbn [fst snd] in *. subst y0.
    unfold lru_static in Es. simplify_eq.
    destruct (lru_exec_spec fuel op u0 x0 l0 R0) as (res & u1 & x1 & l1 & -> & R1 & E1 & S1);
      [congruence|lia|]. exists res, (u1, x1), (l1, x1). split; [done|]. split.
    + split; [done|]. split; [done|]. cbn [fst]. rewrite E1. unfold lru_static. congruence.
    + unfold lru_step. congruence.
  - cbn [fst snd] in *. subst x2. exists rs, u', x', l. split; [done|]. split; [done|].
    unfold lru_static in Es. rewrite <- Eev. replace (lu_evict_fn u) with (lu_evict_fn u') by congruence.
    apply lru_destroyed; [done|congruence| |replace (lu_capacity u') with cap by congruence; lia].
    unfold lru_blocks in *. congruence.
Qed.
End LruLife.

(** ** A concrete run *)

Definition wit_lru_ops : list lru_op :=
  [CPut [1] [10]; CPut [2] [20]; CGet [1] (Some [0]); CPut [3] [30]; CPeek [2] (Some [0]); CContains [1];
   CRemove [3]; CPut [4] [40]; CPut [5] [50]].

(** Two entries; the callback collects the evicted keys. *)
Example lru_run_example :
  match zenit_lru_create_with_evict 1 1 2 (Some (fun k _ x => x ++ k)) empty_heap with
  | Ret (Some u, h) => match run (lru_exec 10) wit_lru_ops (u, []) with
                       | Ret (rs, (_, x)) => (rs, x)
                       | _ => ([], [])
                       end
  | _ => ([], [])
  end = ([CErr ZENIT_OK; CErr ZENIT_OK; CHit 1 (Some [10]); CErr ZENIT_OK; CHit 0 (Some [0]); CNum 1;
          CErr ZENIT_OK; CErr ZENIT_OK; CErr ZENIT_OK], [2; 1]).
Proof. vm_compute. reflexivity. Qed.

Lemma lru_cache_witness :
  exists r c1, zenit_lru_create_with_evict_and_allocator 1 1 2 (Some (fun k _ x => x ++ k))
      ZENIT_ALLOCATOR_DEFAULT empty_heap = Ret (r, c1) /\
  match r with
  | None => live c1 = live empty_heap
  | Some u => exists rs u' x' l, run (lru_exec 10) wit_lru_ops (u, []) = Ret (rs, (u', x')) /\
      trace (lru_step 2 (Some (fun k _ x => x ++ k))) ([], []) wit_lru_ops rs (l, x') /\
      exists c2, zenit_lru_destroy 10 (Some u') x' c1
        = Ret (foldl (notify (Some (fun k _ x => x ++ k))) x' l, c2) /\ live c2 = live empty_heap
  end.
Proof.
  refine (lru_cache ZENIT_ALLOCATOR_DEFAULT 1 1 2 _ wit_lru_ops 10 [] empty_heap _ _ _ _ _ _ _).
  - lia.
  - lia.
  - lia.
  - lia.
  - lia.
  - unfold wit_lru_ops. repeat constructor.
  - lia.
Defined.
