(* ===== verification/Bloom.v ===== *)
(** * Bloom filter ([src/bloom.c])

    The bit array is an array of 64-bit words, positions come from double hashing.
    A [double] is an IEEE 754 binary64 datum of [SpecFloat]; the library function
    [log] is a parameter of the constructor that derives the parameters from a
    capacity and a rate. *)

From Stdlib Require Import ZArith Lia SpecFloat.
From stdpp Require Import base tactics option list numbers gmap sets.
From S2P Require Import Prelude Mem Result Allocator Words HashTable Machine Links.
Open Scope Z_scope.

(** ** Doubles *)

Definition double : Type := spec_float.
Definition dmul : double -> double -> double := SFmul 53 1024.
Definition dadd : double -> double -> double := SFadd 53 1024.
Definition ddiv : double -> double -> double := SFdiv 53 1024.
Definition of_size (n : Z) : double := binary_normalize 53 1024 n 0 false.
Definition d_zero : double := S754_zero false.
Definition d_half : double := S754_finite false 4503599627370496 (-53).
Definition d_one : double := S754_finite false 4503599627370496 (-52).

(** [LN2] and [LN2_SQ], the doubles nearest to the literals. *)
Definition LN2 : double := S754_finite false 6243314768165359 (-53).
Definition LN2_SQ : double := S754_finite false 8655072057804174 (-54).

(** [(size_t)d]: truncation, undefined for a value outside the type. *)
Definition to_size (d : double) : outcome Z :=
  match d with
  | S754_zero _ => Ret 0
  | S754_finite s m e =>
      let q := if decide (0 <= e) then Zpos m * 2 ^ e else Zpos m / 2 ^ (- e) in
      if (if s then bool_decide (q = 0) else bool_decide (q < two64)) then Ret q else Undef
  | _ => Undef
  end.

Record zenit_bloom_t (C : Type) : Type := mk_bloom {
  bf_self : addr;
  bf_bits : option words;
  bf_num_bits : Z;
  bf_num_hashes : Z;
  bf_count : Z;
  bf_fpr : double;
  bf_allocator : zenit_allocator_t C }.
Arguments mk_bloom {C}.
Arguments bf_self {C}.
Arguments bf_bits {C}.
Arguments bf_num_bits {C}.
Arguments bf_num_hashes {C}.
Arguments bf_count {C}.
Arguments bf_fpr {C}.
Arguments bf_allocator {C}.

(** [sizeof(zenit_bloom_t)] and [sizeof(uint64_t)]. *)
Definition SIZEOF_BLOOM : Z := 72.
Definition SIZEOF_UINT64 : Z := 8.

Definition alt_seed : Z := Z.lxor 14695981039346656037 11400714819323198485.

Definition fnv1a_alt (data : bytes) : Z := foldl fnv1a_step alt_seed data.

Definition hash_fnv1a_alt (data : bytes) (len : Z) : outcome Z :=
  let! d := rd data 0 len in Ret (fnv1a_alt d).

Definition bit_set (bits : option words) (idx : Z) : outcome (option words) :=
  let! w := wget bits (idx / 64) in
  wset bits (idx / 64) (Z.lor w (u64 (Z.shiftl 1 (idx mod 64)))).

Definition bit_test (bits : option words) (idx : Z) : outcome Z :=
  let! w := wget bits (idx / 64) in
  Ret (Z.land (Z.shiftr w (idx mod 64)) 1).

(** The loops over the hash functions from the [i]th on, [n] left. *)
Fixpoint set_loop (n : nat) (i : Z) (bits : option words) (h1 h2 num_bits : Z) : outcome (option words) :=
  match n with
  | O => Ret bits
  | S n =>
      let! idx := umod (u64 (h1 + u64 (i * h2))) num_bits in
      let! bits1 := bit_set bits idx in
      set_loop n (u64 (i + 1)) bits1 h1 h2 num_bits
  end.

Fixpoint test_loop (n : nat) (i : Z) (bits : option words) (h1 h2 num_bits : Z) : outcome Z :=
  match n with
  | O => Ret 1
  | S n =>
      let! idx := umod (u64 (h1 + u64 (i * h2))) num_bits in
      let! b := bit_test bits idx in
      if decide (b = 0) then Ret 0
      else test_loop n (u64 (i + 1)) bits h1 h2 num_bits
  end.

(** [fpr *= 0.5], [n] times. *)
Fixpoint halve (n : nat) (fpr : double) : double :=
  match n with O => fpr | S n => halve n (dmul fpr d_half) end.

Section BloomModel.
Context {C : Type}.
Implicit Types (b : zenit_bloom_t C) (c : C) (a : zenit_allocator_t C).

Definition upd_bloom b (bits : option words) (count : Z) : zenit_bloom_t C :=
  mk_bloom (bf_self b) bits (bf_num_bits b) (bf_num_hashes b) count (bf_fpr b) (bf_allocator b).

Definition bloom_create_common (num_bits num_hashes : Z) (fpr : double) a c
    : outcome (option (zenit_bloom_t C) * C) :=
  if decide (num_bits = 0 \/ num_hashes = 0) then Ret (None, c)
  else
    let num_bits := if decide (num_bits mod 64 <> 0) then u64 (u64 (num_bits / 64 + 1) * 64) else num_bits in
    match alloc_fn a SIZEOF_BLOOM c with
    | (None, c1) => Ret (None, c1)
    | (Some h, c1) =>
        let arr_size := num_bits / 64 in
        let! (bits, c2) := zenit_allocator_alloc_zero a arr_size SIZEOF_UINT64 c1 in
        match bits with
        | None => Ret (None, free_fn a (Some (b_addr h)) c2)
        | Some w =>
            Ret (Some (mk_bloom (b_addr h)
                         (Some (Words (b_addr w) (replicate (Z.to_nat (zlen (b_data w) / SIZEOF_UINT64)) 0)))
                         num_bits num_hashes 0 fpr a), c2)
        end
    end.

Definition zenit_bloom_create_with_allocator (log : double -> double) (capacity : Z)
    (false_positive_rate : double) a c : outcome (option (zenit_bloom_t C) * C) :=
  if decide (capacity = 0) then Ret (None, c)
  else if SFleb false_positive_rate d_zero || SFleb d_one false_positive_rate then Ret (None, c)
  else
    let ln_p := log false_positive_rate in
    let m_d := ddiv (dmul (SFopp (of_size capacity)) ln_p) LN2_SQ in
    let! num_bits := to_size (dadd m_d d_half) in
    let num_bits := if decide (num_bits < 64) then 64 else num_bits in
    let k_d := dmul (ddiv (of_size num_bits) (of_size capacity)) LN2 in
    let! num_hashes := to_size (dadd k_d d_half) in
    let num_hashes := if decide (num_hashes < 1) then 1 else num_hashes in
    bloom_create_common num_bits num_hashes false_positive_rate a c.

Definition zenit_bloom_create_explicit_with_allocator (num_bits num_hashes : Z) a c
    : outcome (option (zenit_bloom_t C) * C) :=
  bloom_create_common num_bits num_hashes (halve (Z.to_nat num_hashes) d_one) a c.

Definition zenit_bloom_destroy (bf : option (zenit_bloom_t C)) c : C :=
  match bf with
  | None => c
  | Some b => free_fn (bf_allocator b) (Some (bf_self b)) (free_fn (bf_allocator b) (waddr (bf_bits b)) c)
  end.

Definition zenit_bloom_insert (bf : option (zenit_bloom_t C)) (data : option bytes) (len : Z)
    : outcome (option (zenit_bloom_t C)) :=
  match bf, data with
  | Some b, Some d =>
      let! h1 := hash_fnv1a d len in
      let! h2 := hash_fnv1a_alt d len in
      let! bits := set_loop (Z.to_nat (bf_num_hashes b)) 0 (bf_bits b) h1 (Z.lor h2 1) (bf_num_bits b) in
      Ret (Some (upd_bloom b bits (u64 (bf_count b + 1))))
  | _, _ => Ret bf
  end.

Definition zenit_bloom_contains (bf : option (zenit_bloom_t C)) (data : option bytes) (len : Z) : outcome Z :=
  match bf, data with
  | Some b, Some d =>
      let! h1 := hash_fnv1a d len in
      let! h2 := hash_fnv1a_alt d len in
      test_loop (Z.to_nat (bf_num_hashes b)) 0 (bf_bits b) h1 (Z.lor h2 1) (bf_num_bits b)
  | _, _ => Ret 0
  end.

(** [memset] of [arr_size] whole words. *)
Definition zero_words (bits : option words) (n : Z) : outcome (option words) :=
  match bits with
  | None => Undef
  | Some w => if decide (0 <= n <= zlen (w_data w))
              then Ret (Some (Words (w_addr w) (replicate (Z.to_nat n) 0 ++ drop (Z.to_nat n) (w_data w))))
              else Undef
  end.

Definition zenit_bloom_clear (bf : option (zenit_bloom_t C)) : outcome (option (zenit_bloom_t C)) :=
  match bf with
  | None => Ret None
  | Some b =>
      let! bits := zero_words (bf_bits b) (bf_num_bits b / 64) in
      Ret (Some (upd_bloom b bits 0))
  end.

Definition zenit_bloom_false_positive_rate (bf : option (zenit_bloom_t C)) : double :=
  match bf with None => d_zero | Some b => bf_fpr b end.
Definition zenit_bloom_count (bf : option (zenit_bloom_t C)) : Z :=
  match bf with None => 0 | Some b => bf_count b end.
Definition zenit_bloom_num_bits (bf : option (zenit_bloom_t C)) : Z :=
  match bf with None => 0 | Some b => bf_num_bits b end.
Definition zenit_bloom_num_hashes (bf : option (zenit_bloom_t C)) : Z :=
  match bf with None => 0 | Some b => bf_num_hashes b end.
End BloomModel.

Definition zenit_bloom_create (log : double -> double) (capacity : Z) (false_positive_rate : double) (h : heap)
    : outcome (option (zenit_bloom_t heap) * heap) :=
  zenit_bloom_create_with_allocator log capacity false_positive_rate ZENIT_ALLOCATOR_DEFAULT h.
Definition zenit_bloom_create_explicit (num_bits num_hashes : Z) (h : heap)
    : outcome (option (zenit_bloom_t heap) * heap) :=
  zenit_bloom_create_explicit_with_allocator num_bits num_hashes ZENIT_ALLOCATOR_DEFAULT h.

(** ** Specification: the elements inserted since the last clear *)

(** Position [i] of an element in a filter of [m] bits. *)
Definition position (m : Z) (d : bytes) (i : Z) : Z :=
  u64 (fnv1a d + u64 (i * Z.lor (fnv1a_alt d) 1)) mod m.

(** Every position of [d] is a position of an inserted element. *)
Definition covered (m k : Z) (xs : list bytes) (d : bytes) : Prop :=
  forall i, 0 <= i < k -> exists y j, y ∈ xs /\ 0 <= j < k /\ position m y j = position m d i.

Inductive bloom_op : Type := BInsert (d : bytes) | BContains (d : bytes) | BClear | BCount.
Inductive bloom_res : Type := BVoid | BNum (n : Z).

Inductive bloom_step (m k : Z) : bloom_op -> list bytes -> bloom_res -> list bytes -> Prop :=
| bs_insert d xs : bloom_step m k (BInsert d) xs BVoid (d :: xs)
| bs_hit d xs : covered m k xs d -> bloom_step m k (BContains d) xs (BNum 1) xs
| bs_miss d xs : ~ covered m k xs d -> d ∉ xs -> bloom_step m k (BContains d) xs (BNum 0) xs
| bs_clear xs : bloom_step m k BClear xs BVoid []
| bs_count xs : bloom_step m k BCount xs (BNum (u64 (zlen xs))) xs.

Definition bloom_exec {C : Type} (op : bloom_op) (b : zenit_bloom_t C) : outcome (bloom_res * zenit_bloom_t C) :=
  match op with
  | BInsert d =>
      let! b1 := zenit_bloom_insert (Some b) (Some d) (zlen d) in
      match b1 with Some b1 => Ret (BVoid, b1) | None => Undef end
  | BContains d => let! n := zenit_bloom_contains (Some b) (Some d) (zlen d) in Ret (BNum n, b)
  | BClear =>
      let! b1 := zenit_bloom_clear (Some b) in
      match b1 with Some b1 => Ret (BVoid, b1) | None => Undef end
  | BCount => Ret (BNum (zenit_bloom_count (Some b)), b)
  end.

(** ** Bits of a word array *)

Definition bit_of (ws : list Z) (q : Z) : bool := Z.testbit (default 0 (ws !! Z.to_nat (q / 64))) (q mod 64).

Lemma word_index n q : 0 <= q < n * 64 -> 0 <= q / 64 < n /\ 0 <= q mod 64 < 64.
Proof. intros H. split; [|apply Z.mod_pos_bound; lia]. split; [apply Z.div_pos; lia|apply Z.div_lt_upper_bound; lia]. Qed.

Lemma bit_set_spec w q : w <> None -> 0 <= q < zlen (wdata w) * 64 ->
  exists w', bit_set w q = Ret w' /\ w' <> None /\ waddr w' = waddr w /\ zlen (wdata w') = zlen (wdata w) /\
    forall r, 0 <= r -> bit_of (wdata w') r = bool_decide (r = q) || bit_of (wdata w) r.
Proof.
  intros Hw Hq. destruct (word_index _ _ Hq) as [H1 H2]. unfold bit_set. rewrite wget_aget by done.
  destruct (aget_range (wdata w) (q / 64)) as (v & Ev & ->); [lia|]. cbn [obind].
  assert (0 <= Z.shiftl 1 (q mod 64) < two64) as Hs.
  { rewrite Z.shiftl_1_l. split; [apply Z.pow_nonneg; lia|]. apply (Z.pow_lt_mono_r 2 (q mod 64) 64); lia. }
  rewrite u64_small by done.
  destruct (wset_range w (q / 64) (Z.lor v (Z.shiftl 1 (q mod 64))) Hw) as (w' & -> & N & A & D); [lia|].
  exists w'. split_and!; try done; [by rewrite D, zlen_insert|].
  intros r Hr. unfold bit_of. rewrite D. pose proof (Z.mod_pos_bound r 64 ltac:(lia)) as Hrm.
  assert (0 <= r / 64) by (apply Z.div_pos; lia).
  destruct (decide (r / 64 = q / 64)) as [E|E].
  - rewrite E, list_lookup_insert_eq, Ev by (unfold zlen in *; lia). simpl.
    rewrite Z.lor_spec, Z.shiftl_1_l, Z.pow2_bits_eqb, orb_comm by lia. f_equal.
    destruct (decide (r = q)) as [->|]; [by rewrite Z.eqb_refl, bool_decide_eq_true_2|].
    rewrite bool_decide_eq_false_2 by done. apply Z.eqb_neq. intros Em. apply n.
    rewrite (Z.div_mod r 64), (Z.div_mod q 64) by lia. lia.
  - rewrite list_lookup_insert_ne by lia. rewrite bool_decide_eq_false_2; [done|]. by intros ->.
Qed.

Lemma bit_test_spec w q : w <> None -> 0 <= q < zlen (wdata w) * 64 ->
  bit_test w q = Ret (if bit_of (wdata w) q then 1 else 0).
Proof.
  intros Hw Hq. destruct (word_index _ _ Hq) as [H1 H2]. unfold bit_test, bit_of. rewrite wget_aget by done.
  destruct (aget_range (wdata w) (q / 64)) as (v & Ev & ->); [lia|]. cbn [obind]. rewrite Ev. simpl. f_equal.
  pose proof (Z.land_ones (Z.shiftr v (q mod 64)) 1 ltac:(lia)) as E. change (Z.ones 1) with 1 in E.
  rewrite E. change (2 ^ 1) with 2.
  rewrite <- Z.bit0_mod, Z.shiftr_spec, Z.add_0_l by lia. by destruct (Z.testbit v (q mod 64)).
Qed.

Section Loops.
Context (m : Z) (d : bytes).
Context (Hm : 0 < m).

Lemma position_range i : 0 <= position m d i < m.
Proof. by apply Z.mod_pos_bound. Qed.

Lemma set_loop_spec : forall n i w, 0 <= i -> i + Z.of_nat n < two64 -> w <> None -> m <= zlen (wdata w) * 64 ->
  exists w', set_loop n i w (fnv1a d) (Z.lor (fnv1a_alt d) 1) m = Ret w' /\ w' <> None /\ waddr w' = waddr w /\
    zlen (wdata w') = zlen (wdata w) /\
    forall r, 0 <= r -> bit_of (wdata w') r = true <->
      (exists j, i <= j < i + Z.of_nat n /\ position m d j = r) \/ bit_of (wdata w) r = true.
Proof.
  induction n as [|n IH]; intros i w Hi Hn Hw Hl; cbn [set_loop].
  { exists w. split_and!; try done. intros r Hr. split; [by right|]. intros [(j & Hj & _)|?]; [lia|done]. }
  rewrite umod_Ret by lia. cbn [obind]. fold (position m d i). pose proof (position_range i) as Hp.
  destruct (bit_set_spec w (position m d i) Hw) as (w1 & -> & N1 & A1 & L1 & B1); [lia|]. cbn [obind].
  rewrite u64_small by lia. destruct (IH (i + 1) w1) as (w2 & -> & N2 & A2 & L2 & B2); [lia|lia|done|lia|].
  exists w2. split_and!; try done; [congruence|congruence|]. intros r Hr. rewrite B2, B1 by done.
  rewrite orb_true_iff, bool_decide_eq_true. split.
  - intros [(j & Hj & Ej)|[->|?]]; [left; exists j; split; [lia|done]|left; exists i; split; [lia|done]|by right].
  - intros [(j & Hj & Ej)|?]; [|by right; right].
    destruct (decide (j = i)) as [->|]; [by right; left|]. left. exists j. split; [lia|done].
Qed.

Lemma test_loop_spec w : w <> None -> m <= zlen (wdata w) * 64 ->
  forall n i, 0 <= i -> i + Z.of_nat n < two64 ->
  exists r, test_loop n i w (fnv1a d) (Z.lor (fnv1a_alt d) 1) m = Ret r /\
    (r = 0 \/ r = 1) /\
    (r = 1 <-> forall j, i <= j < i + Z.of_nat n -> bit_of (wdata w) (position m d j) = true).
Proof.
  intros Hw Hl. induction n as [|n IH]; intros i Hi Hn; cbn [test_loop].
  { exists 1. split; [done|]. split; [by right|]. split; [|done]. intros _ j Hj. lia. }
  rewrite umod_Ret by lia. cbn [obind]. fold (position m d i). pose proof (position_range i) as Hp.
  rewrite bit_test_spec by (done || lia). cbn [obind]. destruct (bit_of (wdata w) (position m d i)) eqn:E.
  - rewrite decide_False by done. rewrite u64_small by lia.
    destruct (IH (i + 1)) as (r & -> & H01 & Hr); [lia|lia|]. exists r. split; [done|]. split; [done|]. rewrite Hr.
    split; intros H j Hj; [|apply H; lia]. destruct (decide (j = i)) as [->|]; [done|]. apply H. lia.
  - rewrite decide_True by done. exists 0. split; [done|]. split; [by left|]. split; [done|]. intros H.
    rewrite H in E by lia. done.
Qed.
End Loops.

(** ** Invariant *)

Record bloom_rep {C : Type} (m k : Z) (b : zenit_bloom_t C) (xs : list bytes) : Prop := {
  br_bits : bf_num_bits b = m;
  br_hashes : bf_num_hashes b = k;
  br_dims : 0 < m /\ 0 < k < two64;
  br_words : bf_bits b <> None;
  br_size : zlen (wdata (bf_bits b)) * 64 = m;
  br_count : bf_count b = u64 (zlen xs);
  br_set r : 0 <= r -> bit_of (wdata (bf_bits b)) r = true <->
    exists y j, y ∈ xs /\ 0 <= j < k /\ position m y j = r }.

Lemma covered_self m k xs d : d ∈ xs -> covered m k xs d.
Proof. intros H i Hi. by exists d, i. Qed.

Lemma bit_of_zeros n r : bit_of (replicate n 0) r = false.
Proof.
  unfold bit_of. destruct (replicate n 0 !! Z.to_nat (r / 64)) as [v|] eqn:E; [|apply Z.bits_0].
  apply lookup_replicate in E as [-> _]. apply Z.bits_0.
Qed.

Section BloomProofs.
Context {C : Type}.
Implicit Types b : zenit_bloom_t C.

(** What stays, for destruction. *)
Definition bloom_static b := (bf_self b, bf_allocator b, waddr (bf_bits b)).

Lemma bloom_exec_spec m k b xs op :
  bloom_rep m k b xs ->
  exists r b' xs', bloom_exec op b = Ret (r, b') /\ bloom_rep m k b' xs' /\ bloom_static b' = bloom_static b /\
    bloom_step m k op xs r xs'.
Proof.
  intros R. pose proof R as [Em Ek [Hm Hk] Hw Hs Hc Hb]. destruct op as [d|d| |]; cbn [bloom_exec].
  - cbn [zenit_bloom_insert]. unfold hash_fnv1a, hash_fnv1a_alt. rewrite rd_whole by done. cbn [obind].
    rewrite Em, Ek. destruct (set_loop_spec m d Hm (Z.to_nat k) 0 (bf_bits b)) as (w & -> & N & A & L & B);
      [lia|lia|done|lia|]. cbn [obind].
    eexists _, _, (d :: xs). split; [done|]. split_and!; [|by unfold bloom_static; simpl; rewrite A|constructor].
    split; simpl; try done; [by rewrite L| |].
    + rewrite Hc. unfold u64. rewrite Zplus_mod_idemp_l. f_equal. zl.
    + intros r Hr. rewrite B, Hb by done. rewrite Z2Nat.id by lia. setoid_rewrite elem_of_cons. naive_solver.
  - cbn [zenit_bloom_contains]. unfold hash_fnv1a, hash_fnv1a_alt. rewrite rd_whole by done. cbn [obind].
    rewrite Em, Ek. destruct (test_loop_spec m d Hm (bf_bits b) Hw ltac:(lia) (Z.to_nat k) 0) as (r & -> & H01 & Hr);
      [lia|lia|]. cbn [obind]. exists (BNum r), b, xs. split; [done|]. split_and!; [done|done|].
    assert (r = 1 <-> covered m k xs d) as E.
    { rewrite Hr. unfold covered. split; intros H i Hi.
      - apply Hb; [apply position_range; lia|]. apply H. lia.
      - apply Hb; [apply position_range; lia|]. apply H. lia. }
    destruct H01 as [-> | ->].
    + assert (~ covered m k xs d) by (intros H; by apply E in H). apply bs_miss; [done|].
      intros Hd. by apply H, covered_self.
    + apply bs_hit. by apply E.
  - cbn [zenit_bloom_clear]. unfold zero_words. destruct (bf_bits b) as [w|] eqn:Ew; [|done]. simpl in Hs.
    rewrite Em. replace (m / 64) with (zlen (w_data w)) by (rewrite <- Hs; by rewrite Z.div_mul by lia).
    rewrite decide_True by zl. cbn [obind]. rewrite drop_ge by (unfold zlen; lia). rewrite app_nil_r.
    eexists _, _, []. split; [done|]. split_and!; [|by unfold bloom_static; rewrite Ew|constructor].
    split; simpl; try done.
    + rewrite zlen_replicate. pose proof (zlen_nonneg (w_data w)). lia.
    + intros r Hr. rewrite bit_of_zeros. split; [done|]. intros (y & _ & Hy & _). set_solver.
  - eexists _, b, xs. split; [done|]. split_and!; [done|done|]. simpl. rewrite Hc. constructor.
Qed.
End BloomProofs.

(** ** From creation to destruction *)

Section BloomLife.
Context {C : Type} (a : zenit_allocator_t C) {SP : AllocSpec a}.
Implicit Types (b : zenit_bloom_t C) (c : C).

(** Bits are rounded up to whole words. *)
Definition rounded (n : Z) : Z := (n + 63) / 64 * 64.

Lemma round_up n : 0 < n <= two64 - 64 ->
  (if decide (n mod 64 <> 0) then u64 (u64 (n / 64 + 1) * 64) else n) = rounded n /\ n <= rounded n <= two64 - 64.
Proof.
  intros Hn. unfold rounded. pose proof (Z.div_mod n 64 ltac:(lia)) as D.
  pose proof (Z.mod_pos_bound n 64 ltac:(lia)) as M. set (q := n / 64) in *. set (r := n mod 64) in *.
  assert ((n + 63) / 64 = if decide (r = 0) then q else q + 1) as ->.
  { rewrite D. replace (64 * q + r + 63) with ((r + 63) + q * 64) by lia. rewrite Z.div_add by lia.
    case_decide; [replace r with 0 by lia; done|]. replace ((r + 63) / 64) with 1; [lia|].
    apply (Z.div_unique_pos _ _ _ (r - 1)); lia. }
  destruct (decide (r = 0)) as [E|E].
  - rewrite decide_False by naive_solver. lia.
  - rewrite decide_True by done. rewrite (u64_small (q + 1)), u64_small by lia. lia.
Qed.

Lemma bloom_created nb k fpr c :
  0 < nb <= two64 - 64 -> 0 < k < two64 ->
  exists r c1, bloom_create_common nb k fpr a c = Ret (r, c1) /\
    match r with
    | None => live c1 = live c
    | Some b => bloom_rep (rounded nb) k b [] /\ bf_allocator b = a /\ bf_fpr b = fpr /\
        owns a c c1 (opt_addr (waddr (bf_bits b)) ++ [bf_self b])
    end.
Proof.
  intros Hn Hk. destruct (round_up nb Hn) as [E Hr]. unfold bloom_create_common. rewrite decide_False by lia.
  rewrite E. destruct (alloc_fn a SIZEOF_BLOOM c) as [[h|] c1] eqn:Ea.
  2: { exists None, c1. split; [done|]. by eapply alloc_none. }
  pose proof (owns_alloc a _ _ _ _ _ _ (owns_refl a c) Ea) as O.
  assert (rounded nb = rounded nb / 64 * 64) as Er by (unfold rounded; by rewrite Z.div_mul by lia).
  unfold SIZEOF_UINT64. destruct (alloc_zero_cases a (rounded nb / 64) 8 c1) as (r & c2 & -> & Hr2); [lia|].
  cbn [obind]. destruct r as [w|].
  - destruct Hr2 as (Dw & Mw & Fw & Lw). eexists (Some _), c2. split; [done|]. split_and!; try done.
    + split; simpl; try done; try lia.
      * rewrite Dw, !zlen_replicate, !Z2Nat.id, Z.div_mul by (try apply Z.div_pos; lia). lia.
      * intros q Hq. rewrite bit_of_zeros. split; [done|]. intros (y & _ & Hy & _). set_solver.
    + simpl. destruct O as (N & D & El). rewrite El in Fw, Lw. split_and!.
      * constructor; [set_solver|done].
      * set_solver.
      * rewrite Lw. set_solver.
  - eexists None, _. split; [done|]. apply (owns_nil a), owns_free. by eapply owns_same.
Qed.

(** C31. The filter has no false negatives, and its answers are exactly those of the
    positions: from creation with explicit parameters on, any sequence of
    insertions, queries and clears returns without leaving the bit array; a query
    answers 1 exactly when every position of the element is a position of some
    element inserted since the last clear, so never 0 for an inserted one; and
    destruction releases exactly the two blocks of the filter. *)
Theorem bloom_no_false_negatives nb k ops c :
  0 < nb <= two64 - 64 -> 0 < k < two64 ->
  exists r c1, zenit_bloom_create_explicit_with_allocator nb k a c = Ret (r, c1) /\
  match r with
  | None => live c1 = live c
  | Some b => exists rs b' xs, run bloom_exec ops b = Ret (rs, b') /\
      trace (bloom_step (rounded nb) k) [] ops rs xs /\ nb <= zenit_bloom_num_bits (Some b') /\
      live (zenit_bloom_destroy (Some b') c1) = live c
  end.
Proof.
  intros Hn Hk. unfold zenit_bloom_create_explicit_with_allocator.
  generalize (halve (Z.to_nat k) d_one). intros fpr.
  destruct (bloom_created nb k fpr c Hn Hk) as (r & c1 & -> & H). exists r, c1. split; [done|].
  destruct r as [b|]; [|done]. destruct H as (R & Ea & _ & O).
  destruct (run_simulates_any bloom_exec (bloom_step (rounded nb) k)
    (fun b1 xs => bloom_rep (rounded nb) k b1 xs /\ bloom_static b1 = bloom_static b) (fun _ => True))
    with (ops := ops) (s := b) (x := @nil bytes) as (rs & b' & xs & -> & T & R' & Es); try done.
  - intros op b1 xs [R1 E1] _. destruct (bloom_exec_spec _ _ b1 xs op R1) as (r & b2 & xs2 & -> & R2 & E2 & S).
    exists r, b2, xs2. split_and!; try done. congruence.
  - by apply list.Forall_forall.
  - exists rs, b', xs. split_and!; try done.
    + simpl. rewrite (br_bits _ _ _ _ R'). destruct (round_up nb Hn). lia.
    + unfold bloom_static in Es. simpl. apply (owns_nil a).
      replace (bf_allocator b') with a by congruence. apply owns_free, owns_free_opt.
      by replace (waddr (bf_bits b')) with (waddr (bf_bits b)) by congruence;
        replace (bf_self b') with (bf_self b) by congruence.
Qed.
End BloomLife.

Definition wit_bloom_ops : list bloom_op :=
  [BInsert [1; 2]; BContains [1; 2]; BContains [9]; BCount; BClear; BContains [1; 2]].

Example bloom_run_example :
  match zenit_bloom_create_explicit 100 3 empty_heap with
  | Ret (Some b, h) => match run bloom_exec wit_bloom_ops b with
                       | Ret (rs, _) => (zenit_bloom_num_bits (Some b), rs)
                       | _ => (0, [])
                       end
  | _ => (0, [])
  end = (128, [BVoid; BNum 1; BNum 0; BNum 1; BVoid; BNum 0]).
Proof. vm_compute. reflexivity. Qed.

(** The parameters for 1000 elements at a rate of 0.01, with the value glibc's
    [log] returns for it: 9585 bits and 7 functions. *)
Example bloom_parameters_example :
  match zenit_bloom_create (fun _ => S754_finite true 5184960683398421 (-50)) 1000
          (S754_finite false 5764607523034235 (-59)) empty_heap with
  | Ret (Some b, _) => (zenit_bloom_num_bits (Some b), zenit_bloom_num_hashes (Some b))
  | _ => (0, 0)
  end = (9600, 7).
Proof. vm_compute. reflexivity. Qed.

Lemma bloom_no_false_negatives_witness :
  exists r c1, zenit_bloom_create_explicit_with_allocator 100 3 ZENIT_ALLOCATOR_DEFAULT empty_heap = Ret (r, c1) /\
  match r with
  | None => live c1 = live empty_heap
  | Some b => exists rs b' xs, run bloom_exec wit_bloom_ops b = Ret (rs, b') /\
      trace (bloom_step (rounded 100) 3) [] wit_bloom_ops rs xs /\ 100 <= zenit_bloom_num_bits (Some b') /\
      live (zenit_bloom_destroy (Some b') c1) = live empty_heap
  end.
Proof. refine (bloom_no_false_negatives ZENIT_ALLOCATOR_DEFAULT 100 3 wit_bloom_ops empty_heap _ _); lia. Defined.
