(* ===== verification/StringBuilder.v ===== *)
(** * String builder ([src/string.c])

    A string is a vector of one-byte elements that always ends with the
    terminator.  The operations call the vector as the source does; the results
    of the pushes that the source ignores are ignored here too. *)

From Stdlib Require Import ZArith Lia.
From stdpp Require Import base tactics option list numbers gmap sets.
From S2P Require Import Prelude Mem Result Allocator Growth Vector Text Machine.
Open Scope Z_scope.

Record zenit_string_t (C : Type) : Type := mk_string {
  sb_self : addr;
  sb_vec : option (zenit_vector_t C);
  sb_allocator : zenit_allocator_t C }.
Arguments mk_string {C}.
Arguments sb_self {C}.
Arguments sb_vec {C}.
Arguments sb_allocator {C}.

(** [sizeof(zenit_string_t)]. *)
Definition SIZEOF_STRING : Z := 40.

Section StringModel.
Context {C : Type}.
Implicit Types (s : zenit_string_t C) (c : C) (a : zenit_allocator_t C).

Definition set_vec s (v : option (zenit_vector_t C)) : zenit_string_t C :=
  mk_string (sb_self s) v (sb_allocator s).

Definition push_null (fuel : nat) s c : outcome (zenit_error_t * zenit_string_t C * C) :=
  let! (r, v, c1) := zenit_vector_push fuel (sb_vec s) (Some [NUL]) c in
  Ret (r, set_vec s v, c1).

Definition string_create_empty (fuel : nat) a c : outcome (option (zenit_string_t C) * C) :=
  match alloc_fn a SIZEOF_STRING c with
  | (None, c1) => Ret (None, c1)
  | (Some h, c1) =>
      match zenit_vector_create_with_allocator 1 a c1 with
      | (None, c2) => Ret (None, free_fn a (Some (b_addr h)) c2)
      | (vec, c2) =>
          let! (r, s, c3) := push_null fuel (mk_string (b_addr h) vec a) c2 in
          if decide (r <> ZENIT_OK)
          then Ret (None, free_fn a (Some (b_addr h)) (zenit_vector_destroy (sb_vec s) c3))
          else Ret (Some s, c3)
      end
  end.

Definition zenit_string_create_with_allocator (fuel : nat) a c : outcome (option (zenit_string_t C) * C) :=
  string_create_empty fuel a c.

Definition zenit_string_destroy (s : option (zenit_string_t C)) c : C :=
  match s with
  | None => c
  | Some s => free_fn (sb_allocator s) (Some (sb_self s)) (zenit_vector_destroy (sb_vec s) c)
  end.

(** The loop of pushes, at byte [i] with [n] left. *)
Fixpoint append_loop (n : nat) (fuel : nat) (i : Z) (data : bytes) (vec : option (zenit_vector_t C)) c
    : outcome (option (zenit_vector_t C) * C) :=
  match n with
  | O => Ret (vec, c)
  | S n =>
      let! (_, vec1, c1) := zenit_vector_push fuel vec (Some (drop (Z.to_nat i) data)) c in
      append_loop n fuel (u64 (i + 1)) data vec1 c1
  end.

Definition zenit_string_append (fuel : nat) (s : option (zenit_string_t C)) (data : option bytes) (len : Z) c
    : outcome (zenit_error_t * option (zenit_string_t C) * C) :=
  match s with
  | None => Ret (ZENIT_ERROR_NULL, s, c)
  | Some t =>
      if decide (0 < len /\ data = None) then Ret (ZENIT_ERROR_NULL, s, c)
      else if decide (len = 0) then Ret (ZENIT_OK, s, c)
      else
        let count := zenit_vector_count (sb_vec t) in
        let needed := u64 (count + len) in
        let! (r, vec, c1) := zenit_vector_reserve (sb_vec t) needed c in
        if decide (r <> ZENIT_OK) then Ret (r, Some (set_vec t vec), c1)
        else
          let! (_, vec, _) := zenit_vector_pop vec (Some [NUL]) in
          let! (vec, c2) := append_loop (Z.to_nat len) fuel 0 (default [] data) vec c1 in
          let! (_, t1, c3) := push_null fuel (set_vec t vec) c2 in
          Ret (ZENIT_OK, Some t1, c3)
  end.

Definition zenit_string_append_cstr (fuel : nat) (s : option (zenit_string_t C)) (cstr : option bytes) c
    : outcome (zenit_error_t * option (zenit_string_t C) * C) :=
  match s, cstr with
  | None, _ => Ret (ZENIT_ERROR_NULL, s, c)
  | Some _, None => Ret (ZENIT_OK, s, c)
  | Some _, Some b =>
      let! first := aget b 0 in
      if decide (first = NUL) then Ret (ZENIT_OK, s, c)
      else let! len := strlen b in zenit_string_append fuel s cstr len c
  end.

Definition zenit_string_create_from_with_allocator (fuel : nat) (cstr : option bytes) a c
    : outcome (option (zenit_string_t C) * C) :=
  let! (s, c1) := string_create_empty fuel a c in
  match s, cstr with
  | None, _ => Ret (None, c1)
  | Some _, None => Ret (s, c1)
  | Some _, Some b =>
      let! first := aget b 0 in
      if decide (first = NUL) then Ret (s, c1)
      else
        let! len := strlen b in
        let! (r, s1, c2) := zenit_string_append fuel s cstr len c1 in
        if decide (r <> ZENIT_OK) then Ret (None, zenit_string_destroy s1 c2) else Ret (s1, c2)
  end.

(** The pointer to the first character, an offset in the vector's buffer. *)
Definition zenit_string_cstr (s : option (zenit_string_t C)) : option Z :=
  match s with None => None | Some t => zenit_vector_get (sb_vec t) 0 end.

Definition zenit_string_length (s : option (zenit_string_t C)) : Z :=
  match s with None => 0 | Some t => u64 (zenit_vector_count (sb_vec t) - 1) end.

Definition zenit_string_capacity (s : option (zenit_string_t C)) : Z :=
  match s with None => 0 | Some t => zenit_vector_capacity (sb_vec t) end.

Definition zenit_string_clear (fuel : nat) (s : option (zenit_string_t C)) c
    : outcome (option (zenit_string_t C) * C) :=
  match s with
  | None => Ret (None, c)
  | Some t =>
      let! (_, t1, c1) := push_null fuel (set_vec t (zenit_vector_clear (sb_vec t))) c in
      Ret (Some t1, c1)
  end.

Definition zenit_string_reserve (s : option (zenit_string_t C)) (capacity : Z) c
    : outcome (zenit_error_t * option (zenit_string_t C) * C) :=
  match s with
  | None => Ret (ZENIT_ERROR_NULL, s, c)
  | Some t => let! (r, v, c1) := zenit_vector_reserve (sb_vec t) capacity c in Ret (r, Some (set_vec t v), c1)
  end.

Definition zenit_string_shrink_to_fit (s : option (zenit_string_t C)) c
    : outcome (zenit_error_t * option (zenit_string_t C) * C) :=
  match s with
  | None => Ret (ZENIT_ERROR_NULL, s, c)
  | Some t => let! (r, v, c1) := zenit_vector_shrink_to_fit (sb_vec t) c in Ret (r, Some (set_vec t v), c1)
  end.

Definition zenit_string_empty (s : option (zenit_string_t C)) : Z :=
  match s with None => 1 | Some t => if decide (zenit_vector_count (sb_vec t) <= 1) then 1 else 0 end.
End StringModel.

Definition zenit_string_create (fuel : nat) (h : heap) : outcome (option (zenit_string_t heap) * heap) :=
  string_create_empty fuel ZENIT_ALLOCATOR_DEFAULT h.
Definition zenit_string_create_from (fuel : nat) (cstr : option bytes) (h : heap)
    : outcome (option (zenit_string_t heap) * heap) :=
  zenit_string_create_from_with_allocator fuel cstr ZENIT_ALLOCATOR_DEFAULT h.

(** ** Specification: a growing sequence of bytes *)

Inductive str_op : Type :=
| TAppend (d : bytes) | TAppendCstr (b : bytes) | TClear | TReserve (n : Z) | TShrink
| TCstr | TLength | TEmpty.

Inductive str_res : Type := TErr (e : zenit_error_t) | TBytes (s : bytes) | TNum (n : Z) | TVoid.

(** The characters of a C string. *)
Definition str_of (b : bytes) : bytes := take (Z.to_nat (match strlen b with Ret n => n | _ => 0 end)) b.

Definition str_spec (op : str_op) (t : bytes) : str_res * bytes :=
  match op with
  | TAppend d => (TErr ZENIT_OK, t ++ d)
  | TAppendCstr b => (TErr ZENIT_OK, t ++ str_of b)
  | TClear => (TVoid, [])
  | TReserve _ | TShrink => (TErr ZENIT_OK, t)
  | TCstr => (TBytes (t ++ [NUL]), t)
  | TLength => (TNum (zlen t), t)
  | TEmpty => (TNum (if decide (t = []) then 1 else 0), t)
  end.

(** Appending, reserving and shrinking may fail to allocate, and then change nothing. *)
Inductive str_step : str_op -> bytes -> str_res -> bytes -> Prop :=
| ss_done op t : str_step op t (str_spec op t).1 (str_spec op t).2
| ss_alloc op t :
    match op with TAppend _ | TAppendCstr _ | TReserve _ | TShrink => True | _ => False end ->
    str_step op t (TErr ZENIT_ERROR_ALLOC) t.

Definition str_pre (op : str_op) : Prop :=
  match op with
  | TAppend d => zlen d <= PTRDIFF_MAX
  | TAppendCstr b => zlen b <= PTRDIFF_MAX /\ exists s, cstr b s
  | TReserve n => 0 <= n < two64
  | _ => True
  end.

Section StringRun.
Context {C : Type}.

Definition with_string {X : Type} (x : X) (s : option (zenit_string_t C)) (c : C)
    : outcome (X * (zenit_string_t C * C)) :=
  match s with Some s => Ret (x, (s, c)) | None => Undef end.

Definition str_exec (fuel : nat) (op : str_op) (st : zenit_string_t C * C)
    : outcome (str_res * (zenit_string_t C * C)) :=
  let '(s, c) := st in
  match op with
  | TAppend d =>
      let! (r, s1, c1) := zenit_string_append fuel (Some s) (Some d) (zlen d) c in with_string (TErr r) s1 c1
  | TAppendCstr b =>
      let! (r, s1, c1) := zenit_string_append_cstr fuel (Some s) (Some b) c in with_string (TErr r) s1 c1
  | TClear => let! (s1, c1) := zenit_string_clear fuel (Some s) c in with_string TVoid s1 c1
  | TReserve n => let! (r, s1, c1) := zenit_string_reserve (Some s) n c in with_string (TErr r) s1 c1
  | TShrink => let! (r, s1, c1) := zenit_string_shrink_to_fit (Some s) c in with_string (TErr r) s1 c1
  | TCstr =>
      match zenit_string_cstr (Some s), sb_vec s with
      | Some off, Some v => let! b := prd (v_buffer v) off (zenit_string_length (Some s) + 1) in Ret (TBytes b, st)
      | _, _ => Undef
      end
  | TLength => Ret (TNum (zenit_string_length (Some s)), st)
  | TEmpty => Ret (TNum (zenit_string_empty (Some s)), st)
  end.
End StringRun.

(** ** Invariant *)

Definition singles (t : bytes) : list bytes := (fun b => [b]) <$> t.

Record string_rep {C : Type} (a : zenit_allocator_t C) {SP : AllocSpec a} (F : gset addr)
    (s : zenit_string_t C) (c : C) (v : zenit_vector_t C) (l : list bytes) : Prop := {
  sr_vec : sb_vec s = Some v;
  sr_rep : vec_rep a v l c;
  sr_es : v_elem_size v = 1;
  sr_alloc : sb_allocator s = a;
  sr_self : sb_self s ∉ vec_owns v;
  sr_live : sb_self s ∈ live c;
  sr_rest : live c ∖ ({[ sb_self s ]} ∪ vec_owns v) = F }.
Arguments sr_vec {C a SP F s c v l}.
Arguments sr_rep {C a SP F s c v l}.
Arguments sr_es {C a SP F s c v l}.
Arguments sr_alloc {C a SP F s c v l}.
Arguments sr_self {C a SP F s c v l}.
Arguments sr_live {C a SP F s c v l}.
Arguments sr_rest {C a SP F s c v l}.

(** The string [t]: its bytes and the terminator. *)
Definition holds_string {C : Type} (a : zenit_allocator_t C) {SP : AllocSpec a} (F : gset addr)
    (st : zenit_string_t C * C) (t : bytes) : Prop :=
  exists v, string_rep a F st.1 st.2 v (singles (t ++ [NUL])).

Lemma str_of_cstr b s : cstr b s -> str_of b = s.
Proof.
  intros H. unfold str_of. rewrite (strlen_cstr _ _ H). destruct H as (rest & -> & _).
  replace (Z.to_nat (zlen s)) with (length s) by (unfold zlen; lia). apply take_app_length.
Qed.

Section StringProofs.
Context {C : Type} (a : zenit_allocator_t C) {SP : AllocSpec a}.
Implicit Types (s : zenit_string_t C) (c : C) (v : zenit_vector_t C).

(** The handle around a changed vector. *)
Lemma string_rep_vec F s c v l v' l' c' :
  string_rep a F s c v l -> transfer a (vec_owns v) (vec_owns v') c c' -> v_elem_size v' = v_elem_size v ->
  vec_rep a v' l' c' -> string_rep a F (set_vec s (Some v')) c' v' l'.
Proof.
  intros [] T Es R. destruct (transfer_frame a {[ sb_self s ]} _ _ _ _ T) as ([T1 T2] & H1 & H2); [set_solver..|].
  split; simpl; try done; [congruence|set_solver|set_solver|]. by rewrite T2.
Qed.

(** One with the same blocks. *)
Lemma string_rep_same F s c v l v' l' :
  string_rep a F s c v l -> vec_owns v' = vec_owns v -> v_elem_size v' = v_elem_size v ->
  vec_rep a v' l' c -> string_rep a F (set_vec s (Some v')) c v' l'.
Proof.
  intros H O Es R. eapply string_rep_vec; [exact H| |done|done]. rewrite O. apply transfer_refl, H.
Qed.

Lemma zlen_singles t : zlen (singles t) = zlen t.
Proof. unfold singles, zlen. by rewrite length_fmap. Qed.

Lemma append_loop_spec fuel data c : forall n i v l,
  vec_rep a v l c -> v_elem_size v = 1 -> 0 <= i -> i + Z.of_nat n <= zlen data -> zlen data <= PTRDIFF_MAX ->
  v_count v + Z.of_nat n <= v_capacity v ->
  exists v', append_loop n fuel i data (Some v) c = Ret (Some v', c) /\
    vec_rep a v' (l ++ singles (take n (drop (Z.to_nat i) data))) c /\ vec_owns v' = vec_owns v /\
    v_elem_size v' = 1 /\ v_capacity v' = v_capacity v.
Proof.
  induction n as [|n IH]; intros i v l R Es Hi Hn Hm Hc; cbn [append_loop].
  { exists v. rewrite take_0, app_nil_r. by split_and!. }
  destruct (lookup_lt_is_Some_2 data (Z.to_nat i)) as [y Hy]; [unfold zlen in *; lia|].
  rewrite (drop_S _ _ _ Hy).
  assert (zenit_vector_push fuel (Some v) (Some (y :: drop (S (Z.to_nat i)) data)) c
    = zenit_vector_push fuel (Some v) (Some [y]) c) as ->.
  { unfold zenit_vector_push. rewrite decide_False by lia. cbn [obind].
    rewrite decide_False by (intros D; by apply D). rewrite Es.
    rewrite rd_Ret by zl. by rewrite (rd_whole [y]). }
  destruct (push_room_spec a fuel v l c [y] R) as (v1 & -> & R1 & O1 & _ & Es1 & K1); [by rewrite Es|lia|].
  cbn [obind]. rewrite u64_small by lia.
  destruct (IH (i + 1) v1 (l ++ [[y]])) as (v2 & -> & R2 & O2 & Es2 & K2); [done|congruence|lia|lia|done| |].
  { rewrite (vr_count _ _ _ _ R1), K1. pose proof (vr_count _ _ _ _ R). zl. }
  exists v2. split; [done|]. split_and!; [|congruence|done|congruence].
  replace (Z.to_nat (i + 1)) with (S (Z.to_nat i)) in R2 by lia.
  rewrite firstn_cons. unfold singles in *. rewrite fmap_cons. by rewrite <- app_assoc in R2.
Qed.

(** What a call on the string [t] must achieve. *)
Definition str_ok F (op : str_op) (t : bytes) (r : outcome (str_res * (zenit_string_t C * C))) : Prop :=
  exists res st t', r = Ret (res, st) /\ holds_string a F st t' /\ str_step op t res t'.

Lemma singles_snoc t b : singles (t ++ [b]) = singles t ++ [[b]].
Proof. unfold singles. by rewrite fmap_app. Qed.

Lemma push_null_room F s c v t fuel :
  string_rep a F s c v (singles t) -> v_count v < v_capacity v ->
  exists v', push_null fuel s c = Ret (ZENIT_OK, set_vec s (Some v'), c) /\
    string_rep a F (set_vec s (Some v')) c v' (singles (t ++ [NUL])).
Proof.
  intros H Hc. unfold push_null. rewrite (sr_vec H).
  destruct (push_room_spec a fuel v _ c [NUL] (sr_rep H)) as (v1 & -> & R1 & O1 & _ & Es1 & K1);
    [by rewrite (sr_es H)|done|]. cbn [obind].
  exists v1. split; [done|]. rewrite singles_snoc. by eapply string_rep_same.
Qed.

(** The failures of the calls that may allocate. *)
Lemma str_refused F op s c v l t c' :
  string_rep a F s c v l -> l = singles (t ++ [NUL]) -> transfer a (vec_owns v) (vec_owns v) c c' -> vec_rep a v l c' ->
  match op with TAppend _ | TAppendCstr _ | TReserve _ | TShrink => True | _ => False end ->
  str_ok F op t (Ret (TErr ZENIT_ERROR_ALLOC, (set_vec s (Some v), c'))).
Proof.
  intros H -> T R Ha. eexists _, _, t. split; [done|]. split; [|by constructor].
  exists v. by eapply string_rep_vec.
Qed.

Lemma append_spec F s c v t d rest fuel :
  string_rep a F s c v (singles (t ++ [NUL])) -> zlen (d ++ rest) <= PTRDIFF_MAX ->
  exists r s' c', zenit_string_append fuel (Some s) (Some (d ++ rest)) (zlen d) c = Ret (r, Some s', c') /\
    ((r = ZENIT_OK /\ holds_string a F (s', c') (t ++ d)) \/
     (r = ZENIT_ERROR_ALLOC /\ holds_string a F (s', c') t)).
Proof.
  intros H Hd. unfold zenit_string_append. rewrite decide_False by naive_solver.
  destruct (decide (zlen d = 0)) as [D|D].
  { apply zlen_0 in D as ->. eexists _, _, _. split; [done|]. left. rewrite (app_nil_r t). split; [done|by exists v]. }
  pose proof (zlen_nonneg d) as Ld. pose proof (zlen_nonneg rest) as Lr. rewrite zlen_app in Hd. rewrite (sr_vec H). cbn [zenit_vector_count].
  pose proof (vec_bounds _ _ _ _ (sr_rep H)) as (Hc & Hcap & _ & _ & Hz). rewrite zlen_singles in Hz.
  rewrite (u64_small (v_count v + zlen d)) by lia.
  destruct (reserve_spec a v _ c (v_count v + zlen d) (sr_rep H)) as (r & v1 & c1 & -> & (T & _ & Es & P) & Q & _ & _);
    [rewrite (sr_es H); lia|]. cbn [obind].
  destruct P as [[-> R1]|(-> & -> & R1)].
  2: { rewrite decide_True by done. eexists _, _, _. split; [done|]. right. split; [done|].
       exists v. by eapply string_rep_vec. }
  rewrite decide_False by (intros X; by apply X). specialize (Q eq_refl).
  pose proof (string_rep_vec F _ _ _ _ _ _ _ H T Es R1) as H1. rewrite (sr_es H) in Es.
  rewrite singles_snoc in R1.
  destruct (pop_spec a v1 (singles t) [NUL] c1 [NUL] R1) as (v2 & -> & R2 & O2 & Es2 & K2); [by rewrite Es|].
  cbn [obind]. assert (v_count v2 = zlen t) as C2 by (by rewrite (vr_count _ _ _ _ R2), zlen_singles).
  destruct (append_loop_spec fuel (d ++ rest) c1 (Z.to_nat (zlen d)) 0 v2 (singles t)) as (v3 & E3 & R3 & O3 & Es3 & K3);
    [done|congruence|lia|zl|zl|rewrite C2, K2; zl|].
  simpl default. rewrite E3. cbn [obind]. rewrite drop_0 in R3.
  replace (Z.to_nat (zlen d)) with (length d) in R3 by (unfold zlen; lia). rewrite take_app_length in R3. unfold singles in R3. rewrite <- fmap_app in R3.
  fold (singles (t ++ d)) in R3.
  assert (string_rep a F (set_vec s (Some v3)) c1 v3 (singles (t ++ d))) as H3.
  { eapply (string_rep_same F (set_vec s (Some v1)) c1 v1); [exact H1|congruence|congruence|done]. }
  destruct (push_null_room F _ _ _ _ fuel H3) as (v4 & -> & H4).
  { rewrite (vr_count _ _ _ _ R3), zlen_singles, K3, K2. zl. }
  cbn [obind]. eexists _, _, _. split; [done|]. left. split; [done|]. by exists v4.
Qed.



Lemma str_exec_spec F fuel op s c v t :
  string_rep a F s c v (singles (t ++ [NUL])) -> str_pre op -> str_ok F op t (str_exec fuel op (s, c)).
Proof.
  intros H Hp. pose proof (vec_bounds _ _ _ _ (sr_rep H)) as (Hc & Hcap & _ & _ & Hz).
  rewrite zlen_singles, zlen_app in Hz. change (zlen [NUL]) with 1 in Hz. pose proof (zlen_nonneg t) as Lt.
  assert (forall r, (str_spec op t).2 = t -> r = (str_spec op t).1 -> str_ok F op t (Ret (r, (s, c)))) as Pure.
  { intros r E ->. eexists _, _, t. split; [done|]. split; [by exists v|]. pose proof (ss_done op t) as S. by rewrite E in S. }
  destruct op as [d|b| |n| | | |]; cbn [str_exec str_pre] in *.
  - destruct (append_spec F s c v t d [] fuel H) as (r & s' & c' & E & P); [by rewrite app_nil_r|].
    rewrite app_nil_r in E. rewrite E. cbn [obind with_string].
    destruct P as [[-> R]|[-> R]]; eexists _, _, _; (split; [done|]); (split; [exact R|]);
      [apply (ss_done (TAppend d))|by apply ss_alloc].
  - destruct Hp as (Hm & d & Hd). pose proof (str_of_cstr _ _ Hd) as Es. pose proof (strlen_cstr _ _ Hd) as El.
    destruct Hd as (rest & -> & Fd). cbn [zenit_string_append_cstr]. destruct d as [|y d].
    + cbn. rewrite decide_True by done. cbn. eexists _, _, t. split; [done|]. split; [by exists v|].
      pose proof (ss_done (TAppendCstr (NUL :: rest)) t) as S. cbn [str_spec] in S. simpl app in Es.
      rewrite Es, app_nil_r in S. exact S.
    + apply list.Forall_cons in Fd as [Fy Fd]. cbn [aget]. rewrite (aget_lookup _ 0 y) by done. cbn [obind].
      rewrite decide_False by lia. rewrite El. cbn [obind].
      destruct (append_spec F s c v t (y :: d) (NUL :: rest) fuel H Hm) as (r & s' & c' & -> & P).
      cbn [obind with_string]. destruct P as [[-> R]|[-> R]]; eexists _, _, _; (split; [done|]); (split; [exact R|]);
      [|by apply ss_alloc].
      pose proof (ss_done (TAppendCstr ((y :: d) ++ NUL :: rest)) t) as S. cbn [str_spec] in S. by rewrite Es in S.
  - cbn [zenit_string_clear]. rewrite (sr_vec H).
    destruct (clear_spec a v _ c (sr_rep H)) as (v' & -> & R' & O & Es & K).
    assert (string_rep a F (set_vec s (Some v')) c v' (singles [])) as H' by (by eapply string_rep_same).
    destruct (push_null_room F _ _ _ _ fuel H') as (v2 & -> & H2).
    { rewrite (vr_count _ _ _ _ R'), K. change (zlen (@nil bytes)) with 0. lia. }
    cbn [obind with_string]. eexists _, _, []. split; [done|]. split; [by exists v2|]. apply (ss_done TClear).
  - cbn [zenit_string_reserve]. rewrite (sr_vec H).
    destruct (reserve_spec a v _ c n (sr_rep H)) as (r & v' & c' & -> & (T & _ & Es & P) & _); [rewrite (sr_es H); lia|].
    cbn [obind with_string]. destruct P as [[-> R']|(-> & -> & R')]; [|by eapply str_refused].
    eexists _, _, t. split; [done|]. split; [exists v'; by eapply string_rep_vec|]. apply (ss_done (TReserve n)).
  - cbn [zenit_string_shrink_to_fit]. rewrite (sr_vec H).
    destruct (shrink_spec a v _ c (sr_rep H)) as (r & v' & c' & -> & (T & _ & Es & P) & _).
    cbn [obind with_string]. destruct P as [[-> R']|(-> & -> & R')]; [|by eapply str_refused].
    eexists _, _, t. split; [done|]. split; [exists v'; by eapply string_rep_vec|]. apply (ss_done TShrink).
  - cbn [zenit_string_cstr zenit_string_length]. rewrite (sr_vec H). cbn [zenit_vector_get zenit_vector_count].
    rewrite decide_False by lia. rewrite (sr_es H), !u64_small by lia.
    destruct (vr_slots _ _ _ _ (sr_rep H)) as (sp & S & E). rewrite (sr_es H) in S.
    rewrite (prd_slots 1 (v_buffer v) [] (singles (t ++ [NUL])) sp).
    + cbn [obind]. apply Pure; [done|]. cbn [str_spec fst]. f_equal. unfold singles.
      generalize (t ++ [NUL]). intros l. induction l as [|y l IH]; [done|]. cbn. by rewrite IH.
    + eapply (vec_nonnull a); [apply H|lia].
    + exact S.
    + done.
    + rewrite zlen_singles. zl.
  - apply Pure; [done|]. cbn [zenit_string_length str_spec fst]. rewrite (sr_vec H). cbn [zenit_vector_count].
    rewrite u64_small by lia. f_equal. lia.
  - apply Pure; [done|]. cbn [zenit_string_empty str_spec fst]. rewrite (sr_vec H). cbn [zenit_vector_count]. f_equal.
    destruct t as [|y t]; [change (zlen (@nil Z)) with 0 in Hz; by rewrite !decide_True by (done || lia)|].
    rewrite zlen_cons in *.
    pose proof (zlen_nonneg t). by rewrite !decide_False by (done || lia).
Qed.

Lemma string_created fuel c : (1 <= fuel)%nat ->
  exists r c1, string_create_empty fuel a c = Ret (r, c1) /\
    match r with None => live c1 = live c | Some s => holds_string a (live c) (s, c1) [] end.
Proof.
  intros Hf. unfold string_create_empty. destruct (alloc_fn a SIZEOF_STRING c) as [[h|] c1] eqn:A.
  2: { exists None, c1. split; [done|]. by eapply alloc_none. }
  apply alloc_some in A as (_ & _ & Fh & L). pose proof (create_spec a 1 c1 ltac:(lia) ltac:(lia)) as V.
  destruct (zenit_vector_create_with_allocator 1 a c1) as [[v|] c2].
  2: { eexists None, _. split; [done|]. rewrite free_some by (rewrite V; set_solver). rewrite V, L. set_solver. }
  destruct V as (R & T & Es & Cap). unfold push_null. cbn [sb_vec].
  destruct (transfer_frame a {[b_addr h]} _ _ _ _ T) as ([T1 T2] & Hl & Hs); [set_solver..|].
  assert (string_rep a (live c) (mk_string (b_addr h) (Some v) a) c2 v []) as H.
  { split; simpl; try done; [set_solver|set_solver|]. rewrite T2, L. set_solver. }
  destruct (push_spec a fuel v [] c2 [NUL] R) as (r & v' & c3 & -> & (T' & _ & Es' & P) & _);
    [by rewrite Es|done|lia|]. cbn [obind sb_vec set_vec].
  destruct P as [[-> R']|(-> & -> & R')].
  - rewrite decide_False by (intros D; by apply D). eexists (Some _), _. split; [done|].
    exists v'. simpl. by eapply (string_rep_vec (live c) (mk_string (b_addr h) (Some v) a)).
  - rewrite decide_True by done. eexists None, _. split; [done|].
    pose proof (string_rep_vec _ _ _ _ _ _ _ _ H T' eq_refl R') as H'.
    destruct (transfer_frame a {[ b_addr h ]} _ _ _ _ (destroy_spec a v [] c3 R')) as ([U1 U2] & Hl' & _);
      [pose proof (sr_live H'); set_solver|pose proof (sr_self H'); set_solver|].
    rewrite free_some by set_solver. pose proof (sr_rest H') as E. simpl in E. rewrite <- E. set_solver.
Qed.

(** Destruction releases the handle and the vector. *)
Lemma string_destroyed F s c t : holds_string a F (s, c) t -> live (zenit_string_destroy (Some s) c) = F.
Proof.
  intros (v & H). cbn [fst snd] in H. cbn [zenit_string_destroy]. rewrite (sr_vec H), (sr_alloc H).
  destruct (transfer_frame a {[ sb_self s ]} _ _ _ _ (destroy_spec a v _ c (sr_rep H))) as ([U1 U2] & Hl & _);
    [pose proof (sr_live H); set_solver|pose proof (sr_self H); set_solver|].
  rewrite free_some by set_solver. rewrite <- (sr_rest H). set_solver.
Qed.

Lemma concat_singles t : concat (singles t) = t.
Proof. unfold singles. induction t as [|y t IH]; [done|]. cbn. by rewrite IH. Qed.

(** The characters and their terminator are at the start of the buffer. *)
Lemma string_text F s c t : holds_string a F (s, c) t ->
  zenit_string_cstr (Some s) = Some 0 /\ zlen t < PTRDIFF_MAX /\
  exists v b rest, sb_vec s = Some v /\ v_buffer v = Some b /\ b_data b = t ++ NUL :: rest.
Proof.
  intros (v & H). cbn [fst snd] in H. pose proof (vec_bounds _ _ _ _ (sr_rep H)) as (Hc & Hcap & _ & _ & Hz).
  rewrite zlen_singles, zlen_app in Hz. change (zlen [NUL]) with 1 in Hz. pose proof (zlen_nonneg t). cbn [zenit_string_cstr]. rewrite (sr_vec H).
  cbn [zenit_vector_get]. rewrite decide_False by lia. split; [done|]. split; [lia|].
  pose proof (vec_nonnull a _ _ _ (sr_rep H)) as Hn. destruct (vr_slots _ _ _ _ (sr_rep H)) as (sp & [E _] & _). exists v.
  destruct (v_buffer v) as [b|]; [|by destruct Hn; [lia|]]. exists b, (concat sp). split; [done|]. split; [done|].
  simpl in E. by rewrite E, concat_app, concat_singles, <- app_assoc.
Qed.

(** Another block that is allocated meanwhile. *)
Lemma string_alloc F s c t n b c' : holds_string a F (s, c) t -> alloc_fn a n c = (Some b, c') ->
  holds_string a ({[ b_addr b ]} ∪ F) (s, c') t /\ (b_addr b ∉ F).
Proof.
  intros (v & H) (_ & _ & Nb & Hl)%alloc_some. cbn [fst snd] in *. destruct H as [H1 H2 H3 H4 H5 H6 H7].
  pose proof (vr_live _ _ _ _ H2) as Hv. split; [|set_solver]. exists v. constructor; simpl; try done.
  - eapply vec_rep_live; [exact H2|]. rewrite Hl. set_solver.
  - set_solver.
  - rewrite Hl, <- H7. rewrite difference_union_distr_l_L. f_equal. apply difference_disjoint_L.
    intros y ->%elem_of_singleton. rewrite elem_of_union, elem_of_singleton. intros [E|E]; [apply Nb; by rewrite E|by apply Nb, Hv].
Qed.

(** C32. The string builder is a growing sequence of bytes that is always
    terminated. From creation on, any sequence of appends (of byte ranges and of C
    strings), clears, reservations, shrinkings and accesses returns, with the
    length and the terminated contents of the concatenated bytes; an append
    reports [ZENIT_ERROR_ALLOC] only before it changed anything, so the pushes
    whose results the code ignores never fail, also after a shrink to capacity
    one; destruction releases exactly what was allocated. *)
Theorem string_builder fuel ops c :
  (1 <= fuel)%nat -> Forall str_pre ops ->
  exists r c1, zenit_string_create_with_allocator fuel a c = Ret (r, c1) /\
  match r with
  | None => live c1 = live c
  | Some s => exists rs s' c2 t, run (str_exec fuel) ops (s, c1) = Ret (rs, (s', c2)) /\
      trace str_step [] ops rs t /\ zenit_string_length (Some s') = zlen t /\
      live (zenit_string_destroy (Some s') c2) = live c
  end.
Proof.
  intros Hf Hops. destruct (string_created fuel c Hf) as (r & c1 & E & R). exists r, c1. split; [exact E|].
  destruct r as [s|]; [|done].
  destruct (run_simulates_any (str_exec fuel) str_step (holds_string a (live c)) str_pre)
    with (ops := ops) (s := (s, c1)) (x := @nil Z) as (rs & [s' c2] & t & -> & T & v & H); try done.
  - intros op [s0 c0] x (v & H) Hp. destruct (str_exec_spec _ fuel op s0 c0 v x H Hp) as (res & st & t' & -> & R' & S).
    by exists res, st, t'.
  - exists rs, s', c2, t. cbn [fst snd] in H. split; [done|]. split; [done|]. split.
    + cbn [zenit_string_length]. rewrite (sr_vec H). cbn [zenit_vector_count].
      pose proof (vec_bounds _ _ _ _ (sr_rep H)) as (Hc & Hcap & _ & _ & Hz).
      rewrite zlen_singles, zlen_app in Hz. change (zlen [NUL]) with 1 in Hz. pose proof (zlen_nonneg t).
      rewrite u64_small; lia.
    + apply (string_destroyed _ _ _ t). by exists v.
Qed.
End StringProofs.

(** ** A concrete run *)

Definition wit_str_ops : list str_op :=
  [TAppendCstr [72; 105; 0]; TShrink; TAppend [33; 33]; TCstr; TLength; TClear; TShrink; TAppend [9]; TCstr; TEmpty].

Example string_run_example :
  match zenit_string_create 1 empty_heap with
  | Ret (Some s, h) => match run (str_exec 1) wit_str_ops (s, h) with Ret (rs, _) => rs | _ => [] end
  | _ => []
  end = [TErr ZENIT_OK; TErr ZENIT_OK; TErr ZENIT_OK; TBytes [72; 105; 33; 33; 0]; TNum 4; TVoid; TErr ZENIT_OK;
         TErr ZENIT_OK; TBytes [9; 0]; TNum 0].
Proof. vm_compute. reflexivity. Qed.

Lemma string_builder_witness :
  exists r c1, zenit_string_create_with_allocator 1 ZENIT_ALLOCATOR_DEFAULT empty_heap = Ret (r, c1) /\
  match r with
  | None => live c1 = live empty_heap
  | Some s => exists rs s' c2 t, run (str_exec 1) wit_str_ops (s, c1) = Ret (rs, (s', c2)) /\
      trace str_step [] wit_str_ops rs t /\ zenit_string_length (Some s') = zlen t /\
      live (zenit_string_destroy (Some s') c2) = live empty_heap
  end.
Proof.
  refine (string_builder ZENIT_ALLOCATOR_DEFAULT 1 wit_str_ops empty_heap _ _).
  - lia.
  - unfold wit_str_ops. repeat constructor; simpl; try (unfold zlen; simpl; lia).
    exists [72; 105], []. split; [done|]. repeat constructor; lia.
Defined.
