(* ===== verification/Trie.v ===== *)
(** * Trie of letter strings ([src/trie.c])

    Nodes live in a store; a key is a NUL-terminated byte string whose letters,
    folded to 0..25, spell the path from the root.  The invariant names the node of
    every path by a finite map from paths to addresses: the children of a node are
    the map's entries one letter further. *)

From Stdlib Require Import ZArith Lia Ascii String.
From stdpp Require Import base tactics option list numbers gmap sets.
From S2P Require Import Prelude Mem Result Allocator Machine Links Text.
Open Scope Z_scope.

Definition TRIE_ALPHABET_SIZE : Z := 26.

Record zenit_trie_node_t : Type := mk_tnode {
  tn_value : Z;
  tn_is_end : Z;
  tn_children : list (option addr) }.

Record zenit_trie_t (C : Type) : Type := mk_trie {
  tr_self : addr;
  tr_root : option addr;
  tr_count : Z;
  tr_allocator : zenit_allocator_t C }.
Arguments mk_trie {C}.
Arguments tr_self {C}.
Arguments tr_root {C}.
Arguments tr_count {C}.
Arguments tr_allocator {C}.

Abbreviation tnodes := (gmap addr zenit_trie_node_t).

(** [sizeof(struct zenit_trie_node_t)] and [sizeof(zenit_trie_t)]. *)
Definition SIZEOF_TRIE_NODE : Z := 216.
Definition SIZEOF_TRIE : Z := 48.

Definition char_to_index (c : Z) : Z :=
  if decide (ch "A" <= c /\ c <= ch "Z") then c - ch "A"
  else if decide (ch "a" <= c /\ c <= ch "z") then c - ch "a"
  else -1.

(** Assignments through a node pointer. *)
Definition set_child (idx : Z) (v : option addr) (n : zenit_trie_node_t) : zenit_trie_node_t :=
  mk_tnode (tn_value n) (tn_is_end n) (<[Z.to_nat idx := v]> (tn_children n)).
Definition set_is_end (v : Z) (n : zenit_trie_node_t) : zenit_trie_node_t :=
  mk_tnode (tn_value n) v (tn_children n).
Definition set_value (v : Z) (n : zenit_trie_node_t) : zenit_trie_node_t :=
  mk_tnode v (tn_is_end n) (tn_children n).

(** The walk of [zenit_trie_search], [zenit_trie_starts_with] and
    [zenit_trie_delete]: the node reached, or [None] when a child is missing. *)
Fixpoint walk (s : tnodes) (node : option addr) (p : bytes) : outcome (option (option addr)) :=
  match p with
  | [] => Undef
  | c :: p =>
      if decide (c = NUL) then Ret (Some node)
      else
        let idx := char_to_index c in
        if decide (idx < 0 \/ TRIE_ALPHABET_SIZE <= idx) then walk s node p
        else
          let! n := sget s node in
          let! child := aget (tn_children n) idx in
          match child with
          | None => Ret None
          | Some _ => walk s child p
          end
  end.

Section TrieModel.
Context {C : Type}.
Implicit Types (t : zenit_trie_t C) (s : tnodes) (c : C) (a : zenit_allocator_t C).

Definition set_count t (n : Z) : zenit_trie_t C := mk_trie (tr_self t) (tr_root t) n (tr_allocator t).

(** The zeroed block read as a node. *)
Definition node_create a s c : outcome (option addr * tnodes * C) :=
  let! (b, c1) := zenit_allocator_alloc_zero a 1 SIZEOF_TRIE_NODE c in
  match b with
  | None => Ret (None, s, c1)
  | Some b =>
      Ret (Some (b_addr b),
           <[b_addr b := mk_tnode 0 0 (replicate (Z.to_nat TRIE_ALPHABET_SIZE) None)]> s, c1)
  end.

(** The loop over the child slots from the [i]th on, [n] of them, for
    [node_destroy] and [zenit_trie_clear]. *)
Fixpoint children_loop (destroy : option addr -> tnodes -> C -> outcome (tnodes * C))
    (n : nat) (i : Z) (node : option addr) s c : outcome (tnodes * C) :=
  match n with
  | O => Ret (s, c)
  | S n =>
      let! nd := sget s node in
      let! child := aget (tn_children nd) i in
      let! (s1, c1) :=
        match child with
        | None => Ret (s, c)
        | Some _ =>
            let! (s1, c1) := destroy child s c in
            let! s2 := supd s1 node (set_child i None) in
            Ret (s2, c1)
        end in
      children_loop destroy n (i + 1) node s1 c1
  end.

(** [fuel] bounds the depth of the recursion. *)
Fixpoint node_destroy (fuel : nat) a (node : option addr) s c : outcome (tnodes * C) :=
  match node with
  | None => Ret (s, c)
  | Some x =>
      match fuel with
      | O => NoFuel
      | S fuel =>
          let! (s1, c1) := children_loop (node_destroy fuel a) (Z.to_nat TRIE_ALPHABET_SIZE) 0 node s c in
          Ret (delete x s1, free_fn a node c1)
      end
  end.

Definition zenit_trie_create_with_allocator a s c : outcome (option (zenit_trie_t C) * tnodes * C) :=
  match alloc_fn a SIZEOF_TRIE c with
  | (None, c1) => Ret (None, s, c1)
  | (Some h, c1) =>
      let! (root, s1, c2) := node_create a s c1 in
      match root with
      | None => Ret (None, s1, free_fn a (Some (b_addr h)) c2)
      | Some _ => Ret (Some (mk_trie (b_addr h) root 0 a), s1, c2)
      end
  end.

Definition zenit_trie_destroy (fuel : nat) (trie : option (zenit_trie_t C)) s c : outcome (tnodes * C) :=
  match trie with
  | None => Ret (s, c)
  | Some t =>
      let a := tr_allocator t in
      let! (s1, c1) := node_destroy fuel a (tr_root t) s c in
      Ret (s1, free_fn a (Some (tr_self t)) c1)
  end.

(** The walk of [zenit_trie_insert], which creates the missing nodes; [None] for
    the early return when a node cannot be allocated. *)
Fixpoint insert_walk a (p : bytes) (node : option addr) s c : outcome (option (option addr) * tnodes * C) :=
  match p with
  | [] => Undef
  | b :: p =>
      if decide (b = NUL) then Ret (Some node, s, c)
      else
        let idx := char_to_index b in
        if decide (idx < 0 \/ TRIE_ALPHABET_SIZE <= idx) then insert_walk a p node s c
        else
          let! n := sget s node in
          let! child := aget (tn_children n) idx in
          match child with
          | Some _ => insert_walk a p child s c
          | None =>
              let! (new, s1, c1) := node_create a s c in
              let! s2 := supd s1 node (set_child idx new) in
              match new with
              | None => Ret (None, s2, c1)
              | Some _ => insert_walk a p new s2 c1
              end
          end
  end.

Definition zenit_trie_insert (trie : option (zenit_trie_t C)) (key : option bytes) (value : Z) s c
    : outcome (zenit_error_t * option (zenit_trie_t C) * tnodes * C) :=
  match trie, key with
  | Some t, Some key =>
      let! (node, s1, c1) := insert_walk (tr_allocator t) key (tr_root t) s c in
      match node with
      | None => Ret (ZENIT_ERROR_ALLOC, trie, s1, c1)
      | Some node =>
          let! n := sget s1 node in
          let! (t1, s2) :=
            if decide (tn_is_end n = 0)
            then let! s2 := supd s1 node (set_is_end 1) in Ret (set_count t (u64 (tr_count t + 1)), s2)
            else Ret (t, s1) in
          let! s3 := supd s2 node (set_value value) in
          Ret (ZENIT_OK, Some t1, s3, c1)
      end
  | _, _ => Ret (ZENIT_ERROR_NULL, trie, s, c)
  end.

(** [out_value] is what the pointer shows, [None] for NULL. *)
Definition zenit_trie_search (trie : option (zenit_trie_t C)) (key : option bytes) (out_value : option Z) s
    : outcome (Z * option Z) :=
  match trie, key with
  | Some t, Some key =>
      let! r := walk s (tr_root t) key in
      match r with
      | None => Ret (0, out_value)
      | Some node =>
          let! n := sget s node in
          if decide (tn_is_end n = 0) then Ret (0, out_value)
          else Ret (1, match out_value with Some _ => Some (tn_value n) | None => None end)
      end
  | _, _ => Ret (0, out_value)
  end.

Definition zenit_trie_starts_with (trie : option (zenit_trie_t C)) (prefix : option bytes) s : outcome Z :=
  match trie, prefix with
  | Some t, Some prefix =>
      let! r := walk s (tr_root t) prefix in
      Ret (match r with None => 0 | Some _ => 1 end)
  | _, _ => Ret 0
  end.

Definition zenit_trie_delete (trie : option (zenit_trie_t C)) (key : option bytes) s
    : outcome (zenit_error_t * option (zenit_trie_t C) * tnodes) :=
  match trie, key with
  | Some t, Some key =>
      let! r := walk s (tr_root t) key in
      match r with
      | None => Ret (ZENIT_ERROR_NOT_FOUND, trie, s)
      | Some node =>
          let! n := sget s node in
          if decide (tn_is_end n = 0) then Ret (ZENIT_ERROR_NOT_FOUND, trie, s)
          else
            let! s1 := supd s node (set_is_end 0) in
            Ret (ZENIT_OK, Some (set_count t (u64 (tr_count t - 1))), s1)
      end
  | _, _ => Ret (ZENIT_ERROR_NULL, trie, s)
  end.

Definition zenit_trie_count (trie : option (zenit_trie_t C)) : Z :=
  match trie with None => 0 | Some t => tr_count t end.

Definition zenit_trie_clear (fuel : nat) (trie : option (zenit_trie_t C)) s c
    : outcome (option (zenit_trie_t C) * tnodes * C) :=
  match trie with
  | None => Ret (None, s, c)
  | Some t =>
      let! (s1, c1) :=
        children_loop (node_destroy fuel (tr_allocator t)) (Z.to_nat TRIE_ALPHABET_SIZE) 0 (tr_root t) s c in
      Ret (Some (set_count t 0), s1, c1)
  end.
End TrieModel.

Definition zenit_trie_create (s : tnodes) (h : heap) : outcome (option (zenit_trie_t heap) * tnodes * heap) :=
  zenit_trie_create_with_allocator ZENIT_ALLOCATOR_DEFAULT s h.

(** ** Specification: a finite map from letter strings, and the set of their prefixes *)

(** The letters of a key, folded. *)
Fixpoint letters (p : bytes) : list Z :=
  match p with
  | [] => []
  | c :: p =>
      if decide (c = NUL) then []
      else if decide (char_to_index c < 0) then letters p else char_to_index c :: letters p
  end.

Abbreviation word := (list Z).

Definition prefixes (w : word) : gset word := list_to_set ((fun i => take i w) <$> seq 0 (S (length w))).

(** The words stored with their values, and the prefixes that have a node. *)
Record trie_abs : Type := TrieAbs { ta_words : gmap word Z; ta_paths : gset word }.

Inductive trie_op : Type :=
| TInsert (key : bytes) (v : Z) | TSearch (key : bytes) (out : Z) | TStartsWith (prefix : bytes)
| TDelete (key : bytes) | TCount | TClear.

Inductive trie_res : Type := TErr (e : zenit_error_t) | TFound (found out : Z) | TNum (n : Z) | TVoid.

Inductive trie_step : trie_op -> trie_abs -> trie_res -> trie_abs -> Prop :=
| tst_insert key v W Q :
    trie_step (TInsert key v) (TrieAbs W Q) (TErr ZENIT_OK)
      (TrieAbs (<[letters key := v]> W) (Q ∪ prefixes (letters key)))
| tst_insert_fail key v W Q w :
    letters key ∉ Q -> w `prefix_of` letters key -> w <> letters key ->
    trie_step (TInsert key v) (TrieAbs W Q) (TErr ZENIT_ERROR_ALLOC) (TrieAbs W (Q ∪ prefixes w))
| tst_hit key out v W Q :
    W !! letters key = Some v -> trie_step (TSearch key out) (TrieAbs W Q) (TFound 1 v) (TrieAbs W Q)
| tst_miss key out W Q :
    W !! letters key = None -> trie_step (TSearch key out) (TrieAbs W Q) (TFound 0 out) (TrieAbs W Q)
| tst_starts p W Q :
    trie_step (TStartsWith p) (TrieAbs W Q) (TNum (if decide (letters p ∈ Q) then 1 else 0)) (TrieAbs W Q)
| tst_delete key v W Q :
    W !! letters key = Some v ->
    trie_step (TDelete key) (TrieAbs W Q) (TErr ZENIT_OK) (TrieAbs (delete (letters key) W) Q)
| tst_delete_miss key W Q :
    W !! letters key = None -> trie_step (TDelete key) (TrieAbs W Q) (TErr ZENIT_ERROR_NOT_FOUND) (TrieAbs W Q)
| tst_count W Q : trie_step TCount (TrieAbs W Q) (TNum (u64 (Z.of_nat (size W)))) (TrieAbs W Q)
| tst_clear W Q : trie_step TClear (TrieAbs W Q) TVoid (TrieAbs empty {[ [] ]}).

(** ** Execution of the calls *)

Section TrieRun.
Context {C : Type}.

Definition trie_state : Type := zenit_trie_t C * tnodes * C.

Definition with_trie {X : Type} (r : X * option (zenit_trie_t C) * tnodes * C) : outcome (X * trie_state) :=
  match r with
  | (x, Some t, s, c) => Ret (x, (t, s, c))
  | (_, None, _, _) => Undef
  end.

Definition trie_exec (fuel : nat) (op : trie_op) (st : trie_state) : outcome (trie_res * trie_state) :=
  let '(t, s, c) := st in
  match op with
  | TInsert key v =>
      let! (e, t1, s1, c1) := zenit_trie_insert (Some t) (Some key) v s c in with_trie (TErr e, t1, s1, c1)
  | TSearch key out =>
      let! (r, o) := zenit_trie_search (Some t) (Some key) (Some out) s in
      Ret (TFound r (default 0 o), st)
  | TStartsWith p => let! r := zenit_trie_starts_with (Some t) (Some p) s in Ret (TNum r, st)
  | TDelete key =>
      let! (e, t1, s1) := zenit_trie_delete (Some t) (Some key) s in with_trie (TErr e, t1, s1, c)
  | TCount => Ret (TNum (zenit_trie_count (Some t)), st)
  | TClear => let! (t1, s1, c1) := zenit_trie_clear fuel (Some t) s c in with_trie (TVoid, t1, s1, c1)
  end.
End TrieRun.
Arguments trie_state : clear implicits.

(** Keys are terminated and shorter than the fuel; an inserted one has a letter. *)
Definition trie_pre (fuel : nat) (op : trie_op) : Prop :=
  match op with
  | TInsert key _ => NUL ∈ key /\ letters key <> [] /\ (length (letters key) < fuel)%nat
  | TSearch key _ | TStartsWith key | TDelete key => NUL ∈ key
  | _ => True
  end.

(** ** Invariant *)

Abbreviation paths := (gmap word addr).

(** The children of the node at [u]. *)
Definition children_ok (P : paths) (u : word) (n : zenit_trie_node_t) : Prop :=
  length (tn_children n) = 26%nat /\
  forall i, 0 <= i < 26 -> tn_children n !! Z.to_nat i = Some (P !! (u ++ [i])).

Definition end_ok (W : gmap word Z) (u : word) (n : zenit_trie_node_t) : Prop :=
  W !! u = if decide (tn_is_end n = 0) then None else Some (tn_value n).

Definition owned (P : paths) (x : addr) : Prop := exists u, P !! u = Some x.

Record trie_shape (s : tnodes) (P : paths) (W : gmap word Z) : Prop := {
  ts_inj u v x : P !! u = Some x -> P !! v = Some x -> u = v;
  ts_node u x : P !! u = Some x -> exists n, s !! x = Some n /\ children_ok P u n /\ end_ok W u n;
  ts_up u i : is_Some (P !! (u ++ [i])) -> is_Some (P !! u) /\ 0 <= i < 26;
  ts_words u : is_Some (W !! u) -> is_Some (P !! u) }.
Arguments ts_inj {s P W}.
Arguments ts_node {s P W}.
Arguments ts_up {s P W}.
Arguments ts_words {s P W}.

(** [F] is what was allocated before the trie existed, [self] its handle. *)
Record trie_owns {C : Type} (a : zenit_allocator_t C) {SP : AllocSpec a} (self : addr) (F : gset addr)
    (P : paths) (c : C) : Prop := {
  to_live x : x ∈ live c <-> x = self \/ owned P x \/ x ∈ F;
  to_self : ~ owned P self /\ self ∉ F;
  to_rest x : owned P x -> x ∉ F }.

Record trie_with {C : Type} (a : zenit_allocator_t C) {SP : AllocSpec a} (fuel : nat) (F : gset addr)
    (P : paths) (st : trie_state C) (A : trie_abs) : Prop := {
  tp_alloc : tr_allocator st.1.1 = a;
  tp_root : tr_root st.1.1 = P !! [];
  tp_has_root : is_Some (P !! []);
  tp_count : tr_count st.1.1 = u64 (Z.of_nat (size (ta_words A)));
  tp_shape : trie_shape st.1.2 P (ta_words A);
  tp_no_empty : ta_words A !! [] = None;
  tp_dom : ta_paths A = dom P;
  tp_depth u : is_Some (P !! u) -> (length u < fuel)%nat;
  tp_owns : trie_owns a (tr_self st.1.1) F P st.2 }.

Definition trie_rep {C : Type} (a : zenit_allocator_t C) {SP : AllocSpec a} (fuel : nat) (F : gset addr)
    (st : trie_state C) (A : trie_abs) : Prop := exists P, trie_with a fuel F P st A.

(** ** Keys and paths *)

Lemma char_to_index_range c : char_to_index c < TRIE_ALPHABET_SIZE.
Proof. unfold char_to_index, TRIE_ALPHABET_SIZE. chars. repeat case_decide; lia. Qed.

Lemma elem_prefixes v w : v ∈ prefixes w <-> v `prefix_of` w.
Proof.
  unfold prefixes. rewrite elem_of_list_to_set, list_elem_of_fmap. split.
  - intros (i & -> & _). apply prefix_take.
  - intros [k ->]. exists (length v). split; [by rewrite take_app_length|].
    apply elem_of_seq. rewrite length_app. lia.
Qed.

Section PathFacts.
Context {s : tnodes} {P : paths} {W : gmap word Z}.
Hypothesis Sh : trie_shape s P W.
Implicit Types (u v w : word) (x y : addr).

Lemma path_prefix u v : is_Some (P !! (u ++ v)) -> is_Some (P !! u).
Proof using Sh.
  revert u. induction v as [|i v IH] using rev_ind; intros u; [by rewrite app_nil_r|].
  rewrite app_assoc. intros [H _]%(ts_up Sh). by apply IH.
Qed.

Lemma prefixes_dom u : is_Some (P !! u) -> prefixes u ⊆ dom P.
Proof using Sh.
  intros H v [k ->]%elem_prefixes. apply elem_of_dom. by eapply path_prefix.
Qed.

Lemma child_at u x i : P !! u = Some x -> 0 <= i < 26 ->
  exists n, s !! x = Some n /\ aget (tn_children n) i = Ret (P !! (u ++ [i])).
Proof using Sh.
  intros H Hi. destruct (ts_node Sh u x H) as (n & E & [_ Ch] & _). exists n. split; [done|].
  apply aget_lookup; [lia|]. by apply Ch.
Qed.

Lemma walk_spec p : forall u x, P !! u = Some x -> NUL ∈ p ->
  walk s (Some x) p = Ret (Some <$> P !! (u ++ letters p)).
Proof using Sh.
  induction p as [|c p IH]; intros u x Hx Hp; [by apply not_elem_of_nil in Hp|]. cbn [walk letters].
  destruct (decide (c = NUL)) as [->|Hc]; [by rewrite app_nil_r, Hx|].
  apply elem_of_cons in Hp as [Hp|Hp]; [done|]. pose proof (char_to_index_range c).
  destruct (decide (char_to_index c < 0)).
  { rewrite decide_True by lia. by apply IH. }
  rewrite decide_False by lia. unfold TRIE_ALPHABET_SIZE in *.
  destruct (child_at u x (char_to_index c) Hx ltac:(lia)) as (nd & E & Ec).
  rewrite (sget_Some _ _ _ E). cbn [obind]. rewrite Ec. cbn [obind].
  rewrite (cons_middle (char_to_index c) u (letters p)), app_assoc.
  destruct (P !! (u ++ [char_to_index c])) as [y|] eqn:Ey.
  - by apply IH.
  - destruct (P !! ((u ++ [char_to_index c]) ++ letters p)) as [z|] eqn:Ez; [|done].
    destruct (path_prefix (u ++ [char_to_index c]) (letters p) (mk_is_Some _ _ Ez)). congruence.
Qed.

(** The fields that do not matter to the paths. *)
Lemma shape_update u x f W' : P !! u = Some x ->
  (forall v, v <> u -> W' !! v = W !! v) ->
  (forall n, s !! x = Some n -> tn_children (f n) = tn_children n /\ end_ok W' u (f n)) ->
  trie_shape (alter f x s) P W'.
Proof using Sh.
  intros Hx HW He. split.
  - apply (ts_inj Sh).
  - intros v y Hy. destruct (ts_node Sh v y Hy) as (n & E & Ch & En).
    destruct (decide (y = x)) as [->|D].
    + assert (v = u) as -> by (by eapply (ts_inj Sh)). exists (f n). rewrite lookup_alter_eq, E.
      destruct (He n E) as [Hf He']. split_and!; [done| |done]. unfold children_ok. by rewrite Hf.
    + exists n. rewrite lookup_alter_ne by done. split_and!; [done|done|]. unfold end_ok. rewrite HW; [done|].
      intros ->. congruence.
  - apply (ts_up Sh).
  - intros v Hv. destruct (decide (v = u)) as [->|D]; [by rewrite Hx|]. rewrite HW in Hv by done.
    by apply (ts_words Sh).
Qed.

Lemma shape_add u x i y : P !! u = Some x -> 0 <= i < 26 -> P !! (u ++ [i]) = None -> ~ owned P y ->
  trie_shape (alter (set_child i (Some y)) x (<[y := mk_tnode 0 0 (replicate (Z.to_nat TRIE_ALPHABET_SIZE) None)]> s))
    (<[u ++ [i] := y]> P) W.
Proof using Sh.
  intros Hx Hi Hn Hy.
  assert (forall v, P !! v <> Some y) as Hy' by (intros v E; apply Hy; by exists v).
  assert (forall j, P !! ((u ++ [i]) ++ [j]) = None) as Hsub.
  { intros j. apply eq_None_not_Some. intros [[? ?] _]%(ts_up Sh). congruence. }
  assert (forall v j, v <> u -> <[u ++ [i] := y]> P !! (v ++ [j]) = P !! (v ++ [j])) as Hch.
  { intros v j D. apply lookup_insert_ne. intros [E _]%app_inj_tail. congruence. }
  split.
  - intros v w z [[<- <-]|[D1 H1]]%lookup_insert_Some [[<- E]|[D2 H2]]%lookup_insert_Some.
    + done.
    + by apply Hy' in H2.
    + subst. by apply Hy' in H1.
    + by eapply (ts_inj Sh).
  - intros v z [[<- <-]|[D H]]%lookup_insert_Some.
    + eexists. rewrite lookup_alter_ne, lookup_insert_eq by (intros ->; by eapply Hy'). split; [done|split; [split; [done|]|]].
      * intros j Hj. rewrite Hch by (intros E%(f_equal length); rewrite length_app in E; simpl in E; lia).
        rewrite Hsub. apply lookup_replicate_2. unfold TRIE_ALPHABET_SIZE. lia.
      * unfold end_ok. simpl. apply eq_None_not_Some. intros [? ?]%(ts_words Sh). congruence.
    + destruct (ts_node Sh v z H) as (n & E & [L Ch] & En).
      assert (y <> z) by (intros ->; by eapply Hy').
      destruct (decide (z = x)) as [->|Dz].
      * assert (v = u) as -> by (by eapply (ts_inj Sh)). eexists. rewrite lookup_alter_eq, lookup_insert_ne, E by done.
        split; [done|split; [split|done]]; simpl; [by rewrite length_insert|].
        intros j Hj. destruct (decide (j = i)) as [->|Dj].
        -- rewrite lookup_insert_eq, list_lookup_insert_eq by lia. done.
        -- rewrite lookup_insert_ne, list_lookup_insert_ne by (lia || intros [_ ?]%app_inj_tail; congruence).
           by apply Ch.
      * exists n. rewrite lookup_alter_ne, lookup_insert_ne by done. split; [done|split; [split; [done|]|done]].
        intros j Hj. rewrite Hch by (intros ->; congruence). by apply Ch.
  - intros v j [z [[E _]|[_ H]]%lookup_insert_Some].
    + apply app_inj_tail in E as [<- <-]. split; [|done].
      rewrite lookup_insert_ne; [by rewrite Hx|]. intros E%(f_equal length). rewrite length_app in E. simpl in E. lia.
    + destruct (ts_up Sh v j (mk_is_Some _ _ H)) as [Hv ?]. split; [|done].
      rewrite lookup_insert_is_Some. destruct (decide (u ++ [i] = v)); [by left|by right].
  - intros v Hv%(ts_words Sh). rewrite lookup_insert_is_Some. destruct (decide (u ++ [i] = v)); [by left|by right].
Qed.
End PathFacts.

Section TrieProofs.
Context {C : Type} (a : zenit_allocator_t C) {SP : AllocSpec a}.
Implicit Types (t : zenit_trie_t C) (s : tnodes) (c : C) (P : paths) (F : gset addr).

Lemma owned_insert P u y x : P !! u = None -> owned (<[u := y]> P) x <-> x = y \/ owned P x.
Proof.
  intros Hu. split.
  - intros (v & [[_ ->]|[_ H]]%lookup_insert_Some); [by left|right; by exists v].
  - intros [->|[v H]]; [exists u; by rewrite lookup_insert_eq|exists v].
    rewrite lookup_insert_ne; [done|]. intros ->. congruence.
Qed.

Lemma owns_add self F P c u y c' : trie_owns a self F P c -> P !! u = None -> y ∉ live c ->
  live c' = {[ y ]} ∪ live c -> trie_owns a self F (<[u := y]> P) c'.
Proof.
  intros [L [S1 S2] R] Hu Hy Hl. rewrite L in Hy. split.
  - intros x. rewrite owned_insert by done. rewrite Hl, elem_of_union, elem_of_singleton, L. tauto.
  - rewrite owned_insert by done. split; [intros [->|?]; tauto|done].
  - intros x. rewrite owned_insert by done. intros [->|?]; [tauto|by apply R].
Qed.

Lemma owns_live_same self F P c c' : trie_owns a self F P c -> live c' = live c -> trie_owns a self F P c'.
Proof. intros [L S R] E. split; [|done|done]. intros x. by rewrite E. Qed.

Lemma node_create_cases s c :
  exists r s' c', node_create a s c = Ret (r, s', c') /\
    match r with
    | None => s' = s /\ live c' = live c
    | Some y => s' = <[y := mk_tnode 0 0 (replicate (Z.to_nat TRIE_ALPHABET_SIZE) None)]> s /\
                y ∉ live c /\ live c' = {[ y ]} ∪ live c
    end.
Proof.
  unfold node_create. destruct (alloc_zero_cases a 1 SIZEOF_TRIE_NODE c) as (r & c' & -> & H); [done|].
  cbn [obind]. destruct r as [b|]; eexists _, _, _; split; [done| |done|done].
  destruct H as (_ & _ & Hn & Hl). done.
Qed.

(** What the insertion's walk leaves behind, from the node at [u]. *)
Definition walked W self F P c (u w : word) (r : option (option addr)) s' c' : Prop :=
  exists P', trie_shape s' P' W /\ trie_owns a self F P' c' /\ P ⊆ P' /\
    match r with
    | Some node => (exists x, node = Some x /\ P' !! (u ++ w) = Some x) /\ dom P' = dom P ∪ prefixes (u ++ w)
    | None => u ++ w ∉ dom P /\ exists v, u `prefix_of` v /\ v `prefix_of` u ++ w /\ v <> u ++ w /\
                dom P' = dom P ∪ prefixes v
    end.

(** A walk that continues at the node just created. *)
Lemma walked_created W self F P c u i y w r s' c1 c' :
  P !! (u ++ [i]) = None -> ~ is_Some (P !! (u ++ i :: w)) ->
  walked W self F (<[u ++ [i] := y]> P) c1 (u ++ [i]) w r s' c' ->
  walked W self F P c u (i :: w) r s' c'.
Proof.
  intros Hn Hnw (P' & S' & O' & Sub & H). rewrite <- app_assoc in H. simpl in H.
  assert (forall v : word, u ++ [i] `prefix_of` v ->
    dom P' = dom (<[u ++ [i] := y]> P) ∪ prefixes v -> dom P' = dom P ∪ prefixes v) as Hd.
  { intros v Hv ->. rewrite dom_insert_L. apply elem_prefixes in Hv. set_solver. }
  exists P'. split_and!; [done|done|by etrans; [apply insert_subseteq|]|].
  destruct r as [node|].
  - destruct H as [Hx H]. split; [done|]. apply Hd; [|done]. exists w. by rewrite <- app_assoc.
  - destruct H as (_ & v & H1 & H2 & H3 & H4). split; [by rewrite elem_of_dom|]. exists v.
    split_and!; [|done|done|by apply Hd]. etrans; [|exact H1]. by exists [i].
Qed.

Lemma insert_walk_spec W self F p : forall u x s P c,
  trie_shape s P W -> trie_owns a self F P c -> P !! u = Some x -> NUL ∈ p ->
  exists r s' c', insert_walk a p (Some x) s c = Ret (r, s', c') /\ walked W self F P c u (letters p) r s' c'.
Proof.
  induction p as [|b p IH]; intros u x s P c Sh O Hx Hp; [by apply not_elem_of_nil in Hp|].
  cbn [insert_walk letters]. destruct (decide (b = NUL)) as [->|Hb].
  { eexists _, _, _. split; [done|]. exists P. rewrite app_nil_r. split_and!; [done|done|done|by eexists|].
    pose proof (prefixes_dom Sh u (mk_is_Some _ _ Hx)). set_solver. }
  apply elem_of_cons in Hp as [Hp|Hp]; [done|]. pose proof (char_to_index_range b).
  destruct (decide (char_to_index b < 0)).
  { rewrite decide_True by lia. by apply IH. }
  rewrite decide_False by lia. unfold TRIE_ALPHABET_SIZE in *. set (i := char_to_index b) in *.
  destruct (child_at Sh u x i Hx ltac:(lia)) as (nd & E & Ec).
  rewrite (sget_Some _ _ _ E). cbn [obind]. rewrite Ec. cbn [obind].
  destruct (P !! (u ++ [i])) as [y|] eqn:Ey.
  { destruct (IH _ _ _ _ _ Sh O Ey Hp) as (r & s' & c' & -> & P' & S' & O' & Sub & Hd).
    rewrite <- app_assoc in Hd. eexists _, _, _. split; [done|]. exists P'. split_and!; [done|done|done|].
    destruct r as [node|]; [done|]. destruct Hd as (Hd & v & H1 & H2). split; [done|]. exists v.
    split; [|done]. etrans; [|exact H1]. by exists [i]. }
  assert (~ is_Some (P !! (u ++ i :: letters p))) as Hnw.
  { rewrite (cons_middle i u (letters p)), app_assoc. intros [? ?]%(path_prefix Sh). congruence. }
  destruct (node_create_cases s c) as (r & s1 & c1 & -> & Hr). cbn [obind]. destruct r as [y|].
  - destruct Hr as (-> & Hy & Hl).
    assert (y <> x) by (intros ->; apply Hy, (to_live _ _ _ _ _ O); right; left; by exists u).
    assert (~ owned P y) by (intros ?; apply Hy, (to_live _ _ _ _ _ O); auto).
    rewrite supd_alter by (rewrite lookup_insert_ne by done; by rewrite E). cbn [obind].
    pose proof (shape_add Sh u x i y Hx ltac:(lia) Ey ltac:(done)) as Sh1.
    pose proof (owns_add _ _ _ _ (u ++ [i]) _ c1 O Ey Hy Hl) as O1.
    destruct (IH _ _ _ _ _ Sh1 O1 (lookup_insert_eq P (u ++ [i]) y) Hp) as (r & s' & c' & -> & Hw).
    eexists _, _, _. split; [done|]. by eapply walked_created.
  - destruct Hr as [-> Hl]. rewrite supd_alter by (by rewrite E). cbn [obind].
    eexists _, _, _. split; [done|]. exists P. split_and!; [|by eapply owns_live_same|done|by rewrite elem_of_dom|].
    + eapply (shape_update Sh); [done|done|]. intros n1 En. assert (n1 = nd) as -> by congruence.
      destruct (ts_node Sh u x Hx) as (n' & E' & [Ln Ch] & He). assert (n' = nd) as -> by congruence.
      split; [|done]. simpl. apply list_insert_id. rewrite Ch by lia. by rewrite Ey.
    + exists u. split_and!; [done|by eexists| |pose proof (prefixes_dom Sh u (mk_is_Some _ _ Hx)); set_solver].
      intros E1%(f_equal length). rewrite length_app in E1. simpl in E1. lia.
Qed.

(** *** Destruction *)

(** The addresses below [w]. *)
Definition sub P (w : word) (y : addr) : Prop := exists v, P !! (w ++ v) = Some y.

Definition intact P (w : word) s c : Prop :=
  forall v x, P !! (w ++ v) = Some x -> x ∈ live c /\ exists n, s !! x = Some n /\ children_ok P (w ++ v) n.

Definition removed P (w : word) s c s' c' : Prop :=
  (forall y, ~ sub P w y -> s' !! y = s !! y) /\ (forall y, y ∈ live c' <-> y ∈ live c /\ ~ sub P w y).

(** The addresses below the children of [w] from the [i]th on. *)
Definition subs P (w : word) (i : Z) (y : addr) : Prop := exists j, i <= j < 26 /\ sub P (w ++ [j]) y.

Section Destroy.
Context {s0 : tnodes} {P : paths} {W : gmap word Z} (Sh : trie_shape s0 P W).

Lemma subs_step w i y : 0 <= i < 26 -> subs P w i y <-> sub P (w ++ [i]) y \/ subs P w (i + 1) y.
Proof.
  intros Hi. split.
  - intros (j & Hj & H). destruct (decide (j = i)) as [->|D]; [by left|]. right. exists j. split; [lia|done].
  - intros [H|(j & Hj & H)]; [exists i; split; [lia|done]|]. exists j. split; [lia|done].
Qed.

Lemma sub_split w x y : P !! w = Some x -> sub P w y <-> y = x \/ subs P w 0 y.
Proof using Sh.
  intros Hx. split.
  - intros [[|j v] H]; [left; rewrite app_nil_r in H; congruence|right].
    rewrite (cons_middle j w v), app_assoc in H. exists j. split; [|by exists v].
    pose proof (path_prefix Sh _ _ (mk_is_Some _ _ H)) as H1. by apply (ts_up Sh) in H1 as [_ ?].
  - intros [->|(j & _ & v & H)]; [exists []; by rewrite app_nil_r|]. exists (j :: v). by rewrite <- app_assoc in H.
Qed.

Lemma sub_disjoint w i j y : sub P (w ++ [i]) y -> sub P (w ++ [j]) y -> i = j.
Proof using Sh.
  intros [u Hu] [v Hv]. pose proof (ts_inj Sh _ _ _ Hu Hv) as E.
  rewrite <- !app_assoc in E. apply app_inv_head in E. by injection E.
Qed.

Lemma subs_not_top w x i : P !! w = Some x -> ~ subs P w i x.
Proof using Sh.
  intros Hx (j & _ & v & Hv). pose proof (ts_inj Sh _ _ _ Hx Hv) as E.
  apply (f_equal length) in E. rewrite !length_app in E. simpl in E. lia.
Qed.

(** What the loop over the slots leaves of the node at [w]. *)
Record emptied (w : word) (x : addr) (i : Z) (nd : zenit_trie_node_t) s c s' c' (nd' : zenit_trie_node_t) : Prop := {
  em_node : s' !! x = Some nd';
  em_value : tn_value nd' = tn_value nd;
  em_end : tn_is_end nd' = tn_is_end nd;
  em_length : length (tn_children nd') = 26%nat;
  em_children j : 0 <= j < 26 ->
    tn_children nd' !! Z.to_nat j = if decide (j < i) then tn_children nd !! Z.to_nat j else Some None;
  em_store y : y <> x -> ~ subs P w i y -> s' !! y = s !! y;
  em_live y : y ∈ live c' <-> y ∈ live c /\ ~ subs P w i y }.

Lemma emptied_skip w x i nd s c s' c' nd' : 0 <= i < 26 ->
  P !! (w ++ [i]) = None -> tn_children nd !! Z.to_nat i = Some None ->
  emptied w x (i + 1) nd s c s' c' nd' -> emptied w x i nd s c s' c' nd'.
Proof using Sh.
  intros Hi Ey Ec [M1 M2 M3 M4 M5 M6 M7].
  assert (forall z, ~ sub P (w ++ [i]) z) as Nz.
  { intros z [v Hv]. destruct (path_prefix Sh _ _ (mk_is_Some _ _ Hv)). congruence. }
  split; try done.
  - intros j Hj. rewrite M5 by done. destruct (decide (j = i)) as [->|D].
    + by rewrite decide_True, decide_False by lia.
    + destruct (decide (j < i)); [by rewrite decide_True by lia|by rewrite decide_False by lia].
  - intros z Dz Hz. rewrite subs_step in Hz by lia. apply M6; tauto.
  - intros z. rewrite M7, (subs_step w i z) by lia. specialize (Nz z). tauto.
Qed.

Lemma emptied_down w x i nd s c s1 c1 s' c' nd' : 0 <= i < 26 -> length (tn_children nd) = 26%nat ->
  removed P (w ++ [i]) s c s1 c1 ->
  emptied w x (i + 1) (set_child i None nd) (<[x := set_child i None nd]> s1) c1 s' c' nd' ->
  emptied w x i nd s c s' c' nd'.
Proof.
  intros Hi L [R1 R2] [M1 M2 M3 M4 M5 M6 M7]. split; try done.
  - intros j Hj. rewrite M5 by done. simpl. destruct (decide (j = i)) as [->|D].
    + by rewrite decide_True, decide_False, list_lookup_insert_eq by lia.
    + rewrite list_lookup_insert_ne by lia.
      destruct (decide (j < i)); [by rewrite decide_True by lia|by rewrite decide_False by lia].
  - intros z Dz Hz. rewrite subs_step in Hz by lia. rewrite M6 by tauto.
    rewrite lookup_insert_ne by done. apply R1. tauto.
  - intros z. rewrite M7, R2, (subs_step w i z) by lia. tauto.
Qed.

(** The other children after one was destroyed. *)
Lemma intact_others w x i j nd s c s1 c1 : P !! w = Some x -> i <> j -> 0 <= j < 26 ->
  removed P (w ++ [i]) s c s1 c1 -> intact P (w ++ [j]) s c -> intact P (w ++ [j]) (<[x := nd]> s1) c1.
Proof using Sh.
  intros Hx D Hj [R1 R2] In v z Hv. destruct (In v z Hv) as (Hz & n' & En & Cn).
  assert (~ sub P (w ++ [i]) z) as Nz.
  { intros H. apply D. eapply sub_disjoint; [exact H|by exists v]. }
  split; [by apply R2|]. exists n'. split; [|done]. rewrite lookup_insert_ne; [by rewrite R1|].
  intros ->. apply (subs_not_top w z j Hx). exists j. split; [lia|by exists v].
Qed.

Lemma children_loop_spec (destroy : option addr -> tnodes -> C -> outcome (tnodes * C)) w x :
  P !! w = Some x ->
  (forall i y s c, P !! (w ++ [i]) = Some y -> intact P (w ++ [i]) s c ->
     exists s' c', destroy (Some y) s c = Ret (s', c') /\ removed P (w ++ [i]) s c s' c') ->
  forall n i s c nd, Z.of_nat n + i = 26 -> 0 <= i -> s !! x = Some nd ->
  length (tn_children nd) = 26%nat ->
  (forall j, i <= j < 26 -> tn_children nd !! Z.to_nat j = Some (P !! (w ++ [j]))) ->
  (forall j, i <= j < 26 -> intact P (w ++ [j]) s c) ->
  exists s' c' nd', children_loop destroy n i (Some x) s c = Ret (s', c') /\ emptied w x i nd s c s' c' nd'.
Proof using Sh.
  intros Hx Hd. induction n as [|n IH]; intros i s c nd Hn Hi E L Ch In; cbn [children_loop].
  { exists s, c, nd. split; [done|]. split; try done.
    - intros j Hj. by rewrite decide_True by lia.
    - intros y. split; [|tauto]. intros H. split; [done|]. intros (j & ? & _). lia. }
  rewrite (sget_Some _ _ _ E). cbn [obind]. rewrite (aget_lookup _ _ _ Hi (Ch i ltac:(lia))). cbn [obind].
  destruct (P !! (w ++ [i])) as [y|] eqn:Ey; cbn [obind].
  - destruct (Hd i y s c Ey (In i ltac:(lia))) as (s1 & c1 & -> & R). cbn [obind].
    assert (~ sub P (w ++ [i]) x) as Nx.
    { intros H. apply (subs_not_top w x i Hx). exists i. split; [lia|done]. }
    rewrite (supd_Some _ x nd) by (by rewrite (proj1 R)). cbn [obind].
    edestruct (IH (i + 1) (<[x := set_child i None nd]> s1) c1) as (s' & c' & nd' & -> & M);
      [lia|lia|by rewrite lookup_insert_eq|simpl; by rewrite length_insert| | |].
    + intros j Hj. simpl. rewrite list_lookup_insert_ne by lia. apply Ch. lia.
    + intros j Hj. eapply intact_others; [exact Hx| |lia|exact R|apply In; lia]. lia.
    + exists s', c', nd'. split; [done|]. eapply emptied_down; [lia|done|exact R|exact M].
  - edestruct (IH (i + 1) s c nd) as (s' & c' & nd' & -> & M);
      [lia|lia|done|done|intros j Hj; apply Ch; lia|intros j Hj; apply In; lia|].
    exists s', c', nd'. split; [done|]. apply emptied_skip; [lia|done| |done]. rewrite Ch by lia. by rewrite Ey.
Qed.

Lemma node_destroy_spec fuel : forall w x s c, P !! w = Some x -> intact P w s c ->
  (forall v, is_Some (P !! (w ++ v)) -> (length v < fuel)%nat) ->
  exists s' c', node_destroy fuel a (Some x) s c = Ret (s', c') /\ removed P w s c s' c'.
Proof using Sh.
  induction fuel as [|fuel IH]; intros w x s c Hx In Hf.
  { specialize (Hf []). rewrite app_nil_r, Hx in Hf. specialize (Hf ltac:(done)). lia. }
  cbn [node_destroy].
  assert (forall j, intact P (w ++ [j]) s c) as In'.
  { intros j v y Hv. rewrite <- app_assoc in *. by apply In. }
  destruct (In [] x) as (Lx & nd & E & L & Ch); [by rewrite app_nil_r|]. rewrite app_nil_r in Ch.
  edestruct (children_loop_spec (node_destroy fuel a) w x Hx) with (n := Z.to_nat TRIE_ALPHABET_SIZE) (i := 0)
    as (s' & c' & nd' & -> & [_ _ _ _ _ M6 M7]); [|done|done|exact E|done|exact Ch|intros; apply In'|].
  { intros i y s1 c1 Hy In1. apply IH; [done|done|]. intros v Hv. rewrite <- app_assoc in Hv.
    apply Hf in Hv. simpl in Hv. lia. }
  cbn [obind]. eexists _, _. split; [done|]. pose proof (subs_not_top w x 0 Hx) as Nx. split.
  - intros y Hy. rewrite (sub_split w x y Hx) in Hy. rewrite lookup_delete_ne by (intros ->; tauto).
    apply M6; tauto.
  - intros y. rewrite free_some by (by apply M7). rewrite elem_of_difference, elem_of_singleton, M7.
    rewrite (sub_split w x y Hx). tauto.
Qed.
End Destroy.

(** *** The calls *)

Lemma singleton_owned (r y : addr) : owned ({[ [] := r ]} : paths) y <-> y = r.
Proof.
  split; [intros [u [_ <-]%lookup_singleton_Some]; done|]. intros ->. exists []. by rewrite lookup_singleton_eq.
Qed.

(** A root without children. *)
Lemma bare_shape s (r : addr) nd W : s !! r = Some nd -> length (tn_children nd) = 26%nat ->
  (forall j, 0 <= j < 26 -> tn_children nd !! Z.to_nat j = Some None) ->
  end_ok W [] nd -> (forall u, is_Some (W !! u) -> u = []) -> trie_shape s {[ [] := r ]} W.
Proof.
  intros E L Ch He HW. split.
  - intros u v x [<- _]%lookup_singleton_Some [<- _]%lookup_singleton_Some. done.
  - intros u x [<- <-]%lookup_singleton_Some. exists nd. split_and!; [done| |done]. split; [done|].
    intros i Hi. rewrite Ch by done. by rewrite lookup_singleton_ne.
  - intros u i [x [E1 _]%lookup_singleton_Some]. by destruct u.
  - intros u ->%HW. by rewrite lookup_singleton_eq.
Qed.

Lemma trie_created fuel s c : (0 < fuel)%nat ->
  exists r s' c', zenit_trie_create_with_allocator a s c = Ret (r, s', c') /\
  match r with
  | None => live c' = live c
  | Some t => trie_rep a fuel (live c) (t, s', c') (TrieAbs empty {[ [] ]})
  end.
Proof.
  intros Hf. unfold zenit_trie_create_with_allocator. destruct (alloc_fn a SIZEOF_TRIE c) as [[h|] c1] eqn:Eh.
  2:{ eexists None, _, _. split; [done|]. by eapply alloc_none. }
  apply alloc_some in Eh as (_ & _ & Hh & Lh).
  destruct (node_create_cases s c1) as (r & s1 & c2 & -> & H). cbn [obind]. destruct r as [y|].
  - destruct H as (-> & Hy & Ly). eexists (Some _), _, _. split; [done|]. exists {[ [] := y ]}.
    rewrite Lh in Hy. split; simpl; try done.
    + eapply bare_shape; [by rewrite lookup_insert_eq|done| |done|].
      * intros j Hj. change (replicate 26 (@None addr) !! Z.to_nat j = Some None). apply lookup_replicate_2. lia.
      * intros u [v Hv]. by rewrite lookup_empty in Hv.
    + intros u [x [<- _]%lookup_singleton_Some]. done.
    + split.
      * intros x. rewrite singleton_owned, Ly, Lh. set_solver.
      * rewrite singleton_owned. set_solver.
      * intros x. rewrite singleton_owned. set_solver.
  - destruct H as [-> Hl]. eexists None, _, _. split; [done|]. rewrite free_some by set_solver. set_solver.
Qed.

Lemma u64_succ n : u64 (u64 (Z.of_nat n) + 1) = u64 (Z.of_nat (S n)).
Proof. unfold u64. rewrite Zplus_mod_idemp_l. f_equal. lia. Qed.

Lemma u64_pred n : u64 (u64 (Z.of_nat (S n)) - 1) = u64 (Z.of_nat n).
Proof. unfold u64. rewrite Zminus_mod_idemp_l. f_equal. lia. Qed.

(** The value stored at a node, and the count with it. *)
Lemma mark_spec s P W (n : zenit_trie_node_t) u x v (cnt : Z) :
  trie_shape s P W -> P !! u = Some x -> s !! x = Some n -> cnt = u64 (Z.of_nat (size W)) ->
  exists s2 cnt2,
    (if decide (tn_is_end n = 0)
     then supd s (Some x) (set_is_end 1) = Ret s2 /\ cnt2 = u64 (cnt + 1) else s2 = s /\ cnt2 = cnt) /\
    exists s3, supd s2 (Some x) (set_value v) = Ret s3 /\ trie_shape s3 P (<[u := v]> W) /\
      cnt2 = u64 (Z.of_nat (size (<[u := v]> W))).
Proof.
  intros Sh Hx E Hc. destruct (ts_node Sh u x Hx) as (n' & E' & _ & En).
  assert (n' = n) as -> by congruence. unfold end_ok in En. destruct (decide (tn_is_end n = 0)) as [D|D].
  - eexists _, _. split; [split; [by rewrite (supd_alter _ _ _ (mk_is_Some _ _ E))|done]|].
    rewrite supd_alter by (rewrite lookup_alter_eq, E; by eexists). eexists. split; [done|]. split.
    + eapply (shape_update (W := <[u := tn_value n]> W)); [|done| |].
      * eapply (shape_update Sh); [done|intros w D'; by rewrite lookup_insert_ne|].
        intros n1 E1. assert (n1 = n) as -> by congruence. split; [done|]. unfold end_ok. simpl.
        by rewrite lookup_insert_eq.
      * intros w D'. by rewrite !lookup_insert_ne.
      * rewrite lookup_alter_eq, E. intros n1 [= <-]. split; [done|]. unfold end_ok. by rewrite lookup_insert_eq.
    + rewrite map_size_insert_None by done. by rewrite Hc, u64_succ.
  - eexists _, _. split; [done|]. rewrite (supd_alter _ _ _ (mk_is_Some _ _ E)). eexists. split; [done|]. split.
    + eapply (shape_update Sh); [done|intros w D'; by rewrite lookup_insert_ne|].
      intros n1 E1. assert (n1 = n) as -> by congruence. split; [done|]. unfold end_ok. simpl.
      by rewrite lookup_insert_eq, decide_False.
    + by rewrite map_size_insert_Some by (by rewrite En).
Qed.

Lemma insert_call fuel F t s c A key v :
  trie_rep a fuel F (t, s, c) A -> trie_pre fuel (TInsert key v) ->
  exists r st' A', trie_exec fuel (TInsert key v) (t, s, c) = Ret (r, st') /\
    trie_rep a fuel F st' A' /\ trie_step (TInsert key v) A r A'.
Proof.
  intros (P & [Ea Er [x Hx] Ec Sh Ne Hd De O]) (Hk & Hl & Hfu). destruct A as [W Q]. simpl in *.
  unfold zenit_trie_insert. rewrite Er, Hx, Ea.
  destruct (insert_walk_spec W (tr_self t) F key [] x s P c Sh O Hx Hk) as (r & s1 & c1 & -> & P1 & S1 & O1 & Sub & H).
  cbn [obind]. simpl in H.
  pose proof (lookup_weaken _ _ _ _ Hx Sub) as Hx1.
  assert (forall w : word, w `prefix_of` letters key -> dom P1 = dom P ∪ prefixes w ->
    forall u, is_Some (P1 !! u) -> (length u < fuel)%nat) as De1.
  { intros w Hw E u Hu. apply elem_of_dom in Hu. rewrite E in Hu. apply elem_of_union in Hu as [Hu|Hu].
    - apply De. by apply elem_of_dom.
    - apply elem_prefixes in Hu. apply prefix_length in Hu, Hw. lia. }
  destruct r as [node|].
  - destruct H as [(y & -> & Hy) E]. destruct (ts_node S1 _ _ Hy) as (n & En & _ & _).
    rewrite (sget_Some _ _ _ En). cbn [obind].
    destruct (mark_spec s1 P1 W n _ y v (tr_count t) S1 Hy En Ec) as (s2 & cnt & Hm & s3 & Hv & S3 & Hc).
    assert (exists t1, (let! (t1, s2) :=
        if decide (tn_is_end n = 0)
        then let! s2 := supd s1 (Some y) (set_is_end 1) in Ret (set_count t (u64 (tr_count t + 1)), s2)
        else Ret (t, s1) in
        let! s3 := supd s2 (Some y) (set_value v) in Ret (ZENIT_OK, Some t1, s3, c1)) = Ret (ZENIT_OK, Some t1, s3, c1)
      /\ tr_self t1 = tr_self t /\ tr_root t1 = tr_root t /\ tr_allocator t1 = tr_allocator t /\ tr_count t1 = cnt)
      as (t1 & -> & T1 & T2 & T3 & T4).
    { destruct (decide (tn_is_end n = 0)); destruct Hm as [Hs ->]; [rewrite Hs|subst s2];
        cbn [obind]; rewrite Hv; cbn [obind]; eexists; done. }
    cbn [obind with_trie]. eexists _, _, _. split; [done|]. split; [|constructor]. exists P1. split; simpl; try congruence.
    + by rewrite Hx1.
    + by rewrite lookup_insert_ne.
    + by eapply De1.
  - destruct H as (Hn & w & _ & Hw & Dw & E). cbn [obind with_trie]. eexists _, _, _. split; [done|].
    split; [|apply (tst_insert_fail key v W Q w); [by rewrite Hd|done|done]].
    exists P1. split; simpl; try congruence; [by rewrite Hx1|by eapply De1].
Qed.

Lemma walk_call fuel F t s c A key : trie_rep a fuel F (t, s, c) A -> NUL ∈ key ->
  exists P, trie_with a fuel F P (t, s, c) A /\
    walk s (tr_root t) key = Ret (Some <$> P !! letters key) /\
    (forall x, P !! letters key = Some x -> exists n, s !! x = Some n /\ end_ok (ta_words A) (letters key) n) /\
    (P !! letters key = None -> ta_words A !! letters key = None).
Proof.
  intros (P & R) Hk. exists P. split; [done|]. destruct R as [Ea Er [x Hx] Ec Sh Ne Hd De O]. simpl in *.
  split_and!.
  - rewrite Er, Hx. by rewrite (walk_spec Sh key [] x Hx Hk).
  - intros y Hy. destruct (ts_node Sh _ _ Hy) as (n & ? & _ & ?). by exists n.
  - intros E. apply eq_None_not_Some. intros [? ?]%(ts_words Sh). congruence.
Qed.

Lemma delete_call fuel F t s c A key :
  trie_rep a fuel F (t, s, c) A -> NUL ∈ key ->
  exists r st' A', trie_exec fuel (TDelete key) (t, s, c) = Ret (r, st') /\
    trie_rep a fuel F st' A' /\ trie_step (TDelete key) A r A'.
Proof.
  intros R Hk. pose proof R as (P & R1 & Ew & Hn & Hm)%(walk_call _ _ _ _ _ _ key); [|done].
  destruct A as [W Q]. simpl in *. rewrite Ew. destruct (P !! letters key) as [x|] eqn:Hx; cbn [obind fmap option_fmap option_map].
  2:{ cbn [with_trie]. eexists _, _, _. split; [done|]. split; [done|]. by constructor; apply Hm. }
  destruct (Hn x ltac:(done)) as (n & E & En). rewrite (sget_Some _ _ _ E). cbn [obind].
  unfold end_ok in En. destruct (decide (tn_is_end n = 0)) as [D|D].
  { cbn [obind with_trie]. eexists _, _, _. split; [done|]. split; [done|]. by constructor. }
  rewrite (supd_alter _ _ _ (mk_is_Some _ _ E)). cbn [obind with_trie].
  eexists _, _, _. split; [done|]. split; [|by econstructor].
  destruct R1 as [Ea Er [r Hr] Ec Sh Ne Hd De O]. simpl in *. exists P. split; simpl; try done.
  - rewrite Ec. rewrite (map_size_delete_Some (letters key) W) by (by rewrite En).
    assert (size W <> 0%nat) by (intros ->%map_size_empty_inv; by rewrite lookup_empty in En).
    destruct (size W) as [|k]; [done|]. rewrite u64_pred. f_equal.
  - eapply (shape_update Sh); [done|intros v Dv; by rewrite lookup_delete_ne|].
    intros n1 E1. split; [done|]. unfold end_ok. by rewrite lookup_delete_eq.
  - destruct (decide (letters key = [])) as [->|Dk]; [by rewrite lookup_delete_eq|by rewrite lookup_delete_ne].
Qed.

(** All the children of the root destroyed. *)
Lemma clear_loop_spec fuel self F s c P W x :
  trie_shape s P W -> trie_owns a self F P c -> P !! [] = Some x ->
  (forall u, is_Some (P !! u) -> (length u < fuel)%nat) ->
  exists s' c' nd nd',
    children_loop (node_destroy fuel a) (Z.to_nat TRIE_ALPHABET_SIZE) 0 (Some x) s c = Ret (s', c') /\
    s !! x = Some nd /\ end_ok W [] nd /\ s' !! x = Some nd' /\
    tn_value nd' = tn_value nd /\ tn_is_end nd' = tn_is_end nd /\ length (tn_children nd') = 26%nat /\
    (forall j, 0 <= j < 26 -> tn_children nd' !! Z.to_nat j = Some None) /\
    trie_owns a self F {[ [] := x ]} c'.
Proof.
  intros Sh O Hx De. destruct (ts_node Sh _ _ Hx) as (nd & E & [L Ch] & En).
  assert (forall w, intact P w s c) as In.
  { intros w v y Hv. split; [apply (to_live _ _ _ _ _ O); right; left; by eexists|].
    destruct (ts_node Sh _ _ Hv) as (n & ? & ? & _). by exists n. }
  edestruct (children_loop_spec Sh (node_destroy fuel a) [] x Hx) with (n := Z.to_nat TRIE_ALPHABET_SIZE) (i := 0)
    as (s' & c' & nd' & -> & [M1 M2 M3 M4 M5 _ M7]); [|done|done|exact E|done|exact Ch|intros; apply In|].
  { intros i y s1 c1 Hy In1. eapply (node_destroy_spec Sh); [done|done|]. intros v Hv%De. simpl in Hv. lia. }
  exists s', c', nd, nd'. split_and!; try done.
  { intros j Hj. rewrite M5 by done. by rewrite decide_False by lia. }
  destruct O as [OL [O1 O2] O3]. pose proof (subs_not_top Sh [] x 0 Hx) as Nx.
  assert (forall y, owned P y <-> y = x \/ subs P [] 0 y) as Own.
  { intros y. rewrite <- (sub_split Sh [] x y Hx). done. }
  split.
  - intros y. rewrite M7, OL, Own, singleton_owned. split; [tauto|].
    intros H. split; [tauto|]. intros Hs. pose proof (Own y). destruct H as [->|[->|H]]; [tauto|tauto|].
    apply (O3 y); [|done]. tauto.
  - rewrite singleton_owned. rewrite Own in O1. tauto.
  - intros y ->%singleton_owned. apply O3, Own. by left.
Qed.

Lemma clear_call fuel F t s c A : trie_rep a fuel F (t, s, c) A ->
  exists r st' A', trie_exec fuel TClear (t, s, c) = Ret (r, st') /\
    trie_rep a fuel F st' A' /\ trie_step TClear A r A'.
Proof.
  intros (P & [Ea Er [x Hx] Ec Sh Ne Hd De O]). destruct A as [W Q]. cbn [fst snd ta_words ta_paths trie_exec] in *.
  destruct (clear_loop_spec fuel _ _ _ _ _ _ _ Sh O Hx De)
    as (s' & c' & nd & nd' & Eq & E & En & E' & _ & E2 & L & Ch & O').
  unfold zenit_trie_clear. rewrite Er, Hx, Ea, Eq. cbn [obind with_trie].
  eexists _, _, _. split; [done|]. split; [|constructor]. exists {[ [] := x ]}.
  unfold end_ok in En. rewrite Ne in En. split; simpl; try done; [by rewrite Er, Hx, lookup_singleton_eq| |].
  - eapply bare_shape; [done|done|done| |].
    + unfold end_ok. rewrite lookup_empty, E2. by destruct (decide (tn_is_end nd = 0)).
    + intros u [v Hv]. by rewrite lookup_empty in Hv.
  - intros u [y [<- _]%lookup_singleton_Some]. simpl. specialize (De [] ltac:(by rewrite Hx)). done.
Qed.

Lemma trie_exec_spec fuel F op t s c A : trie_rep a fuel F (t, s, c) A -> trie_pre fuel op ->
  exists r st' A', trie_exec fuel op (t, s, c) = Ret (r, st') /\ trie_rep a fuel F st' A' /\ trie_step op A r A'.
Proof.
  intros R Hp. destruct op as [key v|key out|p|key| |].
  - by apply insert_call.
  - destruct (walk_call _ _ _ _ _ _ key R Hp) as (P & _ & Ew & Hn & Hm). destruct A as [W Q].
    simpl in *. rewrite Ew. destruct (P !! letters key) as [x|]; cbn [obind fmap option_fmap option_map].
    + destruct (Hn x ltac:(done)) as (n & E & En). rewrite (sget_Some _ _ _ E). cbn [obind].
      unfold end_ok in En. destruct (decide (tn_is_end n = 0)); eexists _, _, _; split; try done; split; try done;
        by constructor.
    + eexists _, _, _. split; [done|]. split; [done|]. by constructor; apply Hm.
  - destruct (walk_call _ _ _ _ _ _ p R Hp) as (P & RP & Ew & _ & _). destruct A as [W Q].
    pose proof (tp_dom _ _ _ _ _ _ RP) as Hd. simpl in *. rewrite Ew. cbn [obind].
    eexists _, _, _. split; [done|]. split; [done|].
    replace (match Some <$> P !! letters p with Some _ => 1 | None => 0 end)
      with (if decide (letters p ∈ Q) then 1 else 0); [constructor|].
    destruct (P !! letters p) eqn:E; [rewrite decide_True; [done|]|rewrite decide_False; [done|]];
      rewrite Hd, elem_of_dom, E; by try intros [? ?].
  - by apply delete_call.
  - destruct A as [W Q]. eexists _, _, _. split; [done|]. split; [done|]. destruct R as (P & R).
    pose proof (tp_count _ _ _ _ _ _ R) as E. simpl in E. simpl. rewrite E. constructor.
  - by apply clear_call.
Qed.

Lemma trie_destroyed fuel F t s c A : trie_rep a fuel F (t, s, c) A ->
  exists s' c', zenit_trie_destroy fuel (Some t) s c = Ret (s', c') /\ live c' = F.
Proof.
  intros (P & [Ea Er [x Hx] Ec Sh Ne Hd De O]). destruct A as [W Q]. simpl in *. rewrite Er, Hx, Ea.
  destruct (node_destroy_spec Sh fuel [] x s c Hx) as (s' & c' & -> & _ & R2).
  - intros v y Hv. split; [apply (to_live _ _ _ _ _ O); right; left; by eexists|].
    destruct (ts_node Sh _ _ Hv) as (n & ? & ? & _). by exists n.
  - intros v Hv. by apply De.
  - cbn [obind]. eexists _, _. split; [done|]. destruct O as [OL [O1 O2] O3].
    assert (tr_self t ∈ live c') as Hl by (apply R2; split; [apply OL; by left|]; intros [v ?]; apply O1; by eexists).
    rewrite free_some by done. apply set_eq. intros y. rewrite elem_of_difference, elem_of_singleton, R2, OL.
    change (sub P [] y) with (owned P y). split; [tauto|]. intros Hy. split_and!; [tauto| |intros ->; tauto].
    intros Ho. by apply (O3 y).
Qed.


Definition empty_key_ops (v o : Z) : list trie_op :=
  [TInsert [NUL] v; TClear; TCount; TSearch [NUL] o; TDelete [NUL]; TCount].

(** A key without letters is kept at the root, which [zenit_trie_clear] does
    not reset: after inserting the empty key and clearing, the count is 0 but a
    search still finds the value, and deleting it wraps the count to [SIZE_MAX]. *)
Theorem trie_clear_keeps_empty_key fuel v o s c t s1 c1 :
  (0 < fuel)%nat -> zenit_trie_create_with_allocator a s c = Ret (Some t, s1, c1) ->
  exists st, run (trie_exec fuel) (empty_key_ops v o) (t, s1, c1) =
    Ret ([TErr ZENIT_OK; TVoid; TNum 0; TFound 1 v; TErr ZENIT_OK; TNum SIZE_MAX], st).
Proof.
  intros Hf Hc. destruct (trie_created fuel s c Hf) as (r & s' & c' & E & H). rewrite Hc in E. injection E as <- <- <-.
  destruct H as (P & [Ea Er [x Hx] Ec Sh Ne Hd De O]). cbn [fst snd ta_words ta_paths] in *.
  destruct (ts_node Sh _ _ Hx) as (n & En & _ & Eo). unfold end_ok in Eo. rewrite lookup_empty in Eo.
  destruct (mark_spec s1 P empty n [] x v (tr_count t) Sh Hx En Ec) as (s2 & cnt & Hm & s3 & Hv & S3 & _).
  destruct (decide (tn_is_end n = 0)) as [D|D]; [|done]. destruct Hm as [Hs2 _].
  destruct (clear_loop_spec fuel _ _ _ _ _ _ _ S3 O Hx De)
    as (s4 & c4 & nd & nd' & Eq & _ & E3 & E4 & Ev & Ee & _).
  unfold end_ok in E3. rewrite lookup_insert_eq in E3. destruct (decide (tn_is_end nd = 0)) as [D2|D2]; [done|].
  injection E3 as E3. unfold empty_key_ops. rewrite Hx in Er. cbn [run trie_exec].
  cbn [zenit_trie_insert insert_walk]. rewrite decide_True by done. cbn [obind].
  rewrite Er, (sget_Some _ _ _ En). cbn [obind]. rewrite decide_True, Hs2 by done. cbn [obind]. rewrite Hv.
  cbn [obind with_trie trie_exec zenit_trie_clear]. cbn [set_count tr_root tr_allocator]. rewrite Er, Ea, Eq.
  cbn [obind with_trie trie_exec zenit_trie_count zenit_trie_search zenit_trie_delete set_count tr_root tr_count walk].
  rewrite decide_True by done. cbn [obind]. rewrite Er, (sget_Some _ _ _ E4). cbn [obind].
  rewrite decide_False by congruence. cbn [obind trie_exec zenit_trie_delete set_count tr_root tr_count walk].
  rewrite decide_True by done. cbn [obind]. rewrite Er, (sget_Some _ _ _ E4). cbn [obind].
  rewrite decide_False by congruence. cbn [obind]. rewrite (supd_Some _ _ _ _ E4).
  cbn [obind with_trie trie_exec zenit_trie_count set_count tr_count default].
  rewrite Ev, <- E3. eexists. reflexivity.
Qed.
End TrieProofs.

(** ** Witnesses *)

Definition wit_trie_ops : list trie_op :=
  [TInsert (lit "Ab-c" ++ [NUL]) 7; TSearch (lit "abC" ++ [NUL]) 0; TStartsWith (lit "A" ++ [NUL]);
   TSearch (lit "ab" ++ [NUL]) 5; TCount; TDelete (lit "abc" ++ [NUL]); TStartsWith (lit "ab" ++ [NUL]);
   TClear; TStartsWith (lit "ab" ++ [NUL])].

(** A prefix still answers 1 after its only word was deleted. *)
Example trie_run_example :
  match zenit_trie_create empty empty_heap with
  | Ret (Some t, s, h) =>
      match run (trie_exec 10) wit_trie_ops (t, s, h) with Ret (rs, _) => rs | _ => [] end
  | _ => []
  end = [TErr ZENIT_OK; TFound 1 7; TNum 1; TFound 0 5; TNum 1; TErr ZENIT_OK; TNum 1; TVoid; TNum 0].
Proof. vm_compute. reflexivity. Qed.


Lemma trie_clear_keeps_empty_key_witness :
  match zenit_trie_create_with_allocator ZENIT_ALLOCATOR_DEFAULT empty empty_heap with
  | Ret (Some t, s1, c1) => exists st, run (trie_exec 10) (empty_key_ops 4 0) (t, s1, c1) =
      Ret ([TErr ZENIT_OK; TVoid; TNum 0; TFound 1 4; TErr ZENIT_OK; TNum SIZE_MAX], st)
  | _ => False
  end.
Proof.
  refine (trie_clear_keeps_empty_key ZENIT_ALLOCATOR_DEFAULT 10 4 0 empty empty_heap _ _ _ _ _); [lia|].
  vm_compute. reflexivity.
Defined.
