(* ===== verification/Uuid.v ===== *)
(** * UUIDs ([src/uuid.c])

    A [zenit_uuid_t] is its 16 bytes; the text form is the 36 characters
    8-4-4-4-12 in a caller's buffer.  The platform's random source (the Linux
    branch: [getrandom], and [/dev/urandom] as a fallback) is a record of functions
    over an environment, with the documented behaviour of those calls as
    [RandomSpec]. *)

From Stdlib Require Import ZArith Lia Ascii String.
From stdpp Require Import base tactics option list numbers.
From S2P Require Import Prelude Mem Result Allocator Text.
Open Scope Z_scope.

Record random_source (E : Type) : Type := mk_random {
  getrandom : Z -> E -> Z * bytes * E;
  fopen_urandom : E -> bool * E;
  fread_urandom : Z -> E -> bytes * E;
  fclose_urandom : E -> E }.
Arguments mk_random {E}.
Arguments getrandom {E}.
Arguments fopen_urandom {E}.
Arguments fread_urandom {E}.
Arguments fclose_urandom {E}.

(** [getrandom] reports the bytes it wrote or -1, [fread] writes at most what it
    was asked for. *)
Class RandomSpec {E : Type} (src : random_source E) : Prop := {
  getrandom_ok n e : 0 <= n -> let '(r, bs, _) := getrandom src n e in
    is_bytes bs /\ ((r = zlen bs /\ r <= n) \/ (r = -1 /\ bs = []));
  fread_ok n e : 0 <= n -> is_bytes (fread_urandom src n e).1 /\ zlen (fread_urandom src n e).1 <= n }.

Section RandomModel.
Context {E : Type} (src : random_source E).

(** The loop that reads [/dev/urandom], with [total] bytes read. *)
Fixpoint read_loop (fuel : nat) (buf : bytes) (total len : Z) (e : E) : outcome (zenit_error_t * bytes * E) :=
  if decide (total < len) then
    match fuel with
    | O => NoFuel
    | S fuel =>
        let '(bs, e1) := fread_urandom src (u64 (len - total)) e in
        if decide (zlen bs = 0) then Ret (ZENIT_ERROR_ALLOC, buf, fclose_urandom src e1)
        else
          let! buf1 := wr buf total bs in
          read_loop fuel buf1 (u64 (total + zlen bs)) len e1
    end
  else Ret (ZENIT_OK, buf, fclose_urandom src e).

Definition random_bytes (fuel : nat) (buf : bytes) (len : Z) (e : E) : outcome (zenit_error_t * bytes * E) :=
  let '(n, bs, e1) := getrandom src len e in
  let! buf1 := wr buf 0 bs in
  if decide (0 < n /\ n = len) then Ret (ZENIT_OK, buf1, e1)
  else
    match fopen_urandom src e1 with
    | (false, e2) => Ret (ZENIT_ERROR_ALLOC, buf1, e2)
    | (true, e2) => read_loop fuel buf1 0 len e2
    end.

Definition zenit_uuid_generate (fuel : nat) (out : option bytes) (e : E)
    : outcome (zenit_error_t * option bytes * E) :=
  match out with
  | None => Ret (ZENIT_ERROR_NULL, None, e)
  | Some u =>
      let! (r, u1, e1) := random_bytes fuel u 16 e in
      if decide (r <> ZENIT_OK) then Ret (r, Some u1, e1)
      else
        let! b6 := aget u1 6 in
        let! u2 := aset u1 6 (Z.lor (Z.land b6 15) 64) in
        let! b8 := aget u2 8 in
        let! u3 := aset u2 8 (Z.lor (Z.land b8 63) 128) in
        Ret (ZENIT_OK, Some u3, e1)
  end.
End RandomModel.

(** The table [hex] of [zenit_uuid_format]. *)
Definition hex : bytes := lit "0123456789abcdef" ++ [NUL].

(** The bytes before which a dash stands. *)
Definition dash_at (i : Z) : bool := bool_decide (i = 4 \/ i = 6 \/ i = 8 \/ i = 10).

(** The loop over the bytes from the [i]th on, [n] of them. *)
Fixpoint format_loop (n : nat) (i pos : Z) (uuid out : bytes) : outcome (Z * bytes) :=
  match n with
  | O => Ret (pos, out)
  | S n =>
      let! (pos, out) :=
        if dash_at i then let! out := aset out pos (ch "-") in Ret (pos + 1, out) else Ret (pos, out) in
      let! b := aget uuid i in
      let! hi := aget hex (Z.land (Z.shiftr b 4) 15) in
      let! out := aset out pos hi in
      let! lo := aget hex (Z.land b 15) in
      let! out := aset out (pos + 1) lo in
      format_loop n (i + 1) (pos + 2) uuid out
  end.

Definition zenit_uuid_format (uuid out : option bytes) : outcome (zenit_error_t * option bytes) :=
  match uuid, out with
  | Some u, Some o =>
      let! (pos, o) := format_loop 16 0 0 u o in
      let! o := aset o pos NUL in
      Ret (ZENIT_OK, Some o)
  | _, _ => Ret (ZENIT_ERROR_NULL, out)
  end.

Definition hex_val (c : Z) : Z :=
  if decide (ch "0" <= c /\ c <= ch "9") then c - ch "0"
  else if decide (ch "a" <= c /\ c <= ch "f") then c - ch "a" + 10
  else if decide (ch "A" <= c /\ c <= ch "F") then c - ch "A" + 10
  else -1.

Fixpoint parse_loop (n : nat) (bi si : Z) (str out : bytes) : outcome (zenit_error_t * bytes) :=
  match n with
  | O => Ret (ZENIT_OK, out)
  | S n =>
      let si := if dash_at bi then si + 1 else si in
      let! c1 := aget str si in
      let! c2 := aget str (si + 1) in
      let hi := hex_val c1 in
      let lo := hex_val c2 in
      if decide (hi < 0 \/ lo < 0) then Ret (ZENIT_ERROR_PARAM, out)
      else
        let! out := aset out bi (u8 (Z.lor (Z.shiftl hi 4) lo)) in
        parse_loop n (bi + 1) (si + 2) str out
  end.

Definition zenit_uuid_parse (str out : option bytes) : outcome (zenit_error_t * option bytes) :=
  match str, out with
  | Some s, Some o =>
      let! len := strlen s in
      if decide (len <> 36) then Ret (ZENIT_ERROR_PARAM, out)
      else
        let! d1 := aget s 8 in
        let! d2 := aget s 13 in
        let! d3 := aget s 18 in
        let! d4 := aget s 23 in
        if decide (d1 <> ch "-" \/ d2 <> ch "-" \/ d3 <> ch "-" \/ d4 <> ch "-") then Ret (ZENIT_ERROR_PARAM, out)
        else let! (r, o1) := parse_loop 16 0 0 s o in Ret (r, Some o1)
  | _, _ => Ret (ZENIT_ERROR_NULL, out)
  end.

Definition zenit_uuid_equal (a b : option bytes) : outcome Z :=
  match a, b with
  | Some x, Some y =>
      let! bx := rd x 0 16 in
      let! by' := rd y 0 16 in
      Ret (if decide (bx = by') then 1 else 0)
  | _, _ => Ret 0
  end.

(** ** Specification *)

Definition digit_of (d : Z) : Z := default 0 (hex !! Z.to_nat d).

(** The text of the bytes [u], the first of which is the [i]th. *)
Fixpoint text_from (i : Z) (u : bytes) : bytes :=
  match u with
  | [] => []
  | b :: u => (if dash_at i then [ch "-"] else []) ++ digit_of (b / 16) :: digit_of (b mod 16) :: text_from (i + 1) u
  end.

Definition uuid_text (u : bytes) : bytes := text_from 0 u.

(** ** Text *)

Lemma digit_of_facts d : 0 <= d < 16 -> aget hex d = Ret (digit_of d) /\ hex_val (digit_of d) = d /\ 0 < digit_of d < 256.
Proof.
  intros Hd. split.
  - destruct (aget_range hex d) as (x & E & ->); [vm_compute zlen; lia|]. unfold digit_of. by rewrite E.
  - revert d Hd. apply (check_range (fun d => hex_val (digit_of d) = d /\ 0 < digit_of d < 256) 0 16).
    vm_compute. reflexivity.
Qed.

Lemma uuid_halves b : is_byte b ->
  Z.land (Z.shiftr b 4) 15 = b / 16 /\ Z.land b 15 = b mod 16 /\ 0 <= b / 16 < 16 /\ 0 <= b mod 16 < 16 /\
  u8 (Z.lor (Z.shiftl (b / 16) 4) (b mod 16)) = b.
Proof.
  unfold is_byte. intros Hb.
  assert (0 <= b / 16 < 16) by (split; [apply Z.div_pos|apply Z.div_lt_upper_bound]; lia).
  pose proof (Z.mod_pos_bound b 16 ltac:(lia)).
  rewrite (shiftr_div b 4 16), !(land_mod _ 4 15) by done. change (15 + 1) with 16.
  rewrite (Z.mod_small (b / 16)) by lia. rewrite lor_pack by (done || lia). change (2 ^ 4) with 16.
  split_and!; try lia. rewrite (Z.mul_comm _ 16), <- Z.div_mod by lia. by apply u8_small.
Qed.

Lemma text_from_chars u : forall i, is_bytes u -> Forall (fun c => 0 < c < 256) (text_from i u).
Proof.
  induction u as [|b u IH]; intros i Hu; [constructor|]. inversion Hu as [|? ? Hb Hu']; subst.
  destruct (uuid_halves b Hb) as (_ & _ & H1 & H2 & _). cbn [text_from].
  apply Forall_app. split; [destruct (dash_at i); repeat constructor|].
  constructor; [|constructor]; [by apply digit_of_facts|by apply digit_of_facts|by apply IH].
Qed.

Lemma text_from_length u : forall i, 0 <= i ->
  zlen (text_from i u) = 2 * zlen u + Z.of_nat (length (List.filter dash_at (seqZ i (zlen u)))).
Proof.
  induction u as [|b u IH]; intros i Hi; [done|]. cbn [text_from]. rewrite zlen_app, !zlen_cons, IH by lia.
  pose proof (zlen_nonneg u). rewrite (seqZ_cons i) by lia. replace (Z.pred (1 + zlen u)) with (zlen u) by lia.
  cbn [List.filter]. replace (Z.succ i) with (i + 1) by lia. destruct (dash_at i); cbn [length]; zl.
Qed.

Lemma uuid_text_length u : zlen u = 16 -> zlen (uuid_text u) = 36.
Proof. intros Hu. unfold uuid_text. rewrite text_from_length, Hu by done. vm_compute. done. Qed.

(** The dashes stand where the parser looks for them. *)
Lemma uuid_text_dashes u rest : zlen u = 16 -> forall k, k = 8 \/ k = 13 \/ k = 18 \/ k = 23 ->
  aget (uuid_text u ++ rest) k = Ret (ch "-").
Proof.
  unfold zlen. intros Hu k Hk. do 16 (destruct u as [|? u]; [simpl in Hu; lia|]). destruct u; [|simpl in Hu; lia].
  destruct Hk as [-> | [-> | [-> | ->]]]; reflexivity.
Qed.

Lemma format_loop_spec u : forall i pre done_ room u0,
  u0 = pre ++ u -> zlen pre = i -> is_bytes u -> zlen (text_from i u) <= zlen room ->
  exists room', zlen room' = zlen room - zlen (text_from i u) /\
    format_loop (length u) i (zlen done_) u0 (done_ ++ room) =
      Ret (zlen (done_ ++ text_from i u), (done_ ++ text_from i u) ++ room').
Proof.
  induction u as [|b u IH]; intros i pre done_ room u0 E Ei Hu Hr.
  { exists room. cbn [text_from format_loop length]. rewrite !app_nil_r. change (zlen (@nil Z)) with 0. split; [lia|done]. }
  inversion Hu as [|? ? Hb Hu']; subst. destruct (uuid_halves b Hb) as (Q1 & Q2 & H1 & H2 & _).
  destruct (digit_of_facts _ H1) as (D1 & _ & _), (digit_of_facts _ H2) as (D2 & _ & _).
  cbn [text_from format_loop length] in *. pose proof (zlen_nonneg (text_from (zlen pre + 1) u)).
  set (d := if dash_at (zlen pre) then [ch "-"] else []) in *.
  assert (exists room1, zlen room1 = zlen room - zlen d /\
    (if dash_at (zlen pre) then let! out := aset (done_ ++ room) (zlen done_) (ch "-") in Ret (zlen done_ + 1, out)
     else Ret (zlen done_, done_ ++ room)) = Ret (zlen (done_ ++ d), (done_ ++ d) ++ room1)) as (room1 & R1 & ->).
  { subst d. rewrite zlen_app, !zlen_cons in Hr. destruct (dash_at (zlen pre)).
    - change (zlen [ch "-"]) with 1 in *. destruct (room_cons room) as (z & room' & -> & R'); [lia|].
      exists room'. split; [done|]. rewrite (aset_split _ done_ z _ room') by done. cbn [obind]. by rewrite zlen_app.
    - exists room. rewrite app_nil_r. change (zlen (@nil Z)) with 0. split; [lia|done]. }
  cbn [obind]. rewrite (aget_split _ pre b u) by done. cbn [obind]. rewrite Q1, Q2, D1. cbn [obind].
  autorewrite with zlen in Hr.
  destruct (room_cons room1) as (z2 & room2 & -> & R2); [lia|].
  destruct (room_cons room2) as (z3 & room3 & -> & R3); [lia|].
  rewrite (aset_split _ (done_ ++ d) z2 _ (z3 :: room3)) by done. cbn [obind]. rewrite D2. cbn [obind].
  rewrite (aset_split _ ((done_ ++ d) ++ [digit_of (b / 16)]) z3 _ room3) by (done || zl). cbn [obind].
  destruct (IH (zlen pre + 1) (pre ++ [b]) (((done_ ++ d) ++ [digit_of (b / 16)]) ++ [digit_of (b mod 16)]) room3 (pre ++ b :: u))
    as (room' & R' & E'); [by rewrite <- app_assoc|zl|done|zl|].
  exists room'. split; [autorewrite with zlen in *; lia|].
  replace (zlen (((done_ ++ d) ++ [digit_of (b / 16)]) ++ [digit_of (b mod 16)])) with (zlen (done_ ++ d) + 2) in E' by zl.
  rewrite E'. by rewrite <- !app_assoc.
Qed.

Lemma uuid_parse_loop_spec u : forall i pre str s0 rest done_ room,
  str = s0 ++ text_from i u ++ rest -> zlen done_ = i -> pre = zlen s0 -> is_bytes u -> zlen room = zlen u ->
  parse_loop (length u) i pre str (done_ ++ room) = Ret (ZENIT_OK, done_ ++ u).
Proof.
  induction u as [|b u IH]; intros i pre str s0 rest done_ room E Hd Hp Hu Hr.
  { change (zlen (@nil Z)) with 0 in Hr. apply zlen_0 in Hr. subst. done. }
  inversion Hu as [|? ? Hb Hu']; subst. destruct (uuid_halves b Hb) as (_ & _ & H1 & H2 & Hv).
  destruct (digit_of_facts _ H1) as (_ & V1 & _), (digit_of_facts _ H2) as (_ & V2 & _).
  cbn [text_from parse_loop length]. set (d := if dash_at (zlen done_) then [ch "-"] else []).
  replace (if dash_at (zlen done_) then zlen s0 + 1 else zlen s0) with (zlen (s0 ++ d))
    by (subst d; destruct (dash_at _); zl).
  set (t := text_from (zlen done_ + 1) u). 
  rewrite (aget_split _ (s0 ++ d) (digit_of (b / 16)) (digit_of (b mod 16) :: t ++ rest)) by (done || by rewrite <- !app_assoc).
  cbn [obind]. rewrite (aget_split _ ((s0 ++ d) ++ [digit_of (b / 16)]) (digit_of (b mod 16)) (t ++ rest))
    by first [by rewrite <- !app_assoc | zl].
  cbn [obind]. rewrite V1, V2. rewrite decide_False by lia. rewrite Hv.
  destruct (room_cons room) as (z & room' & -> & R'); [zl; pose proof (zlen_nonneg u); lia|].
  rewrite (aset_split _ done_ z b room') by done. cbn [obind].
  replace (zlen done_ + 1) with (zlen (done_ ++ [b])) by zl.
  erewrite (IH (zlen (done_ ++ [b])) _ _ ((s0 ++ d) ++ [digit_of (b / 16); digit_of (b mod 16)]) rest (done_ ++ [b]) room').
  - by rewrite <- app_assoc.
  - subst t. rewrite <- !app_assoc. replace (zlen (done_ ++ [b])) with (zlen done_ + 1) by zl. done.
  - done.
  - zl.
  - done.
  - autorewrite with zlen in *. lia.
Qed.

(** The text of a UUID is 36 characters, 8-4-4-4-12 lowercase digits, and parses
    back to the same UUID: [zenit_uuid_format] fills the caller's 37 bytes with the
    terminated text, from which [zenit_uuid_parse] recovers every byte whatever its
    destination held, and [zenit_uuid_equal] tells the two equal. *)
Theorem uuid_roundtrip u o v (Hu : is_bytes u) (Lu : zlen u = 16) (Lo : 37 <= zlen o) (Lv : zlen v = 16) :
  exists o', zenit_uuid_format (Some u) (Some o) = Ret (ZENIT_OK, Some o') /\
    cstr o' (uuid_text u) /\ zlen (uuid_text u) = 36 /\
    zenit_uuid_parse (Some o') (Some v) = Ret (ZENIT_OK, Some u) /\
    zenit_uuid_equal (Some u) (Some u) = Ret 1.
Proof.
  pose proof (uuid_text_length u Lu) as L. pose proof (text_from_chars u 0 Hu) as Hc.
  destruct (format_loop_spec u 0 [] [] o u) as (room & R & E); [done|done|done|fold (uuid_text u); lia|].
  fold (uuid_text u) in *. replace (length u) with 16%nat in E by (unfold zlen in Lu; lia).
  unfold zenit_uuid_format. change (zlen (@nil Z)) with 0 in E. cbn [app] in E. rewrite E. cbn [obind].
  destruct (room_cons room) as (z & room' & -> & _); [lia|].
  rewrite (aset_split _ (uuid_text u) z NUL room') by done. cbn [obind].
  rewrite <- app_assoc. cbn [app]. eexists. split; [done|].
  assert (cstr (uuid_text u ++ NUL :: room') (uuid_text u)) as Hs by (by exists room').
  split_and!; [done|done| |].
  - unfold zenit_uuid_parse. rewrite (strlen_cstr _ _ Hs), L. cbn [obind]. rewrite decide_False by lia.
    rewrite !uuid_text_dashes by (done || tauto). cbn [obind]. rewrite decide_False by tauto.
    change v with ([] ++ v). replace 16%nat with (length u) by (unfold zlen in Lu; lia).
    rewrite (uuid_parse_loop_spec u 0 0 _ [] (NUL :: room') [] v) by (done || lia). done.
  - unfold zenit_uuid_equal. unfold rd. rewrite Lu, decide_True by lia. cbn [obind]. by rewrite decide_True.
Qed.

(** ** Generation *)

Section Generate.
Context {E : Type} (src : random_source E) {RS : RandomSpec src}.

Lemma wr_bytes buf off d : 0 <= off -> off + zlen d <= zlen buf -> is_bytes buf -> is_bytes d ->
  exists buf', wr buf off d = Ret buf' /\ zlen buf' = zlen buf /\ is_bytes buf'.
Proof.
  intros H1 H2 Hb Hd. unfold wr. rewrite decide_True by done. eexists. split; [done|]. split; [eapply (wr_zlen buf off d); unfold wr; by rewrite decide_True|].
  unfold is_bytes. rewrite !Forall_app. split_and!; [by apply Forall_take|done|by apply Forall_drop].
Qed.

Lemma read_loop_spec fuel : forall buf total len e,
  is_bytes buf -> zlen buf = len -> 0 <= total <= len -> len < two64 -> (Z.to_nat (len - total) < fuel)%nat ->
  exists r buf' e', read_loop src fuel buf total len e = Ret (r, buf', e') /\
    (r = ZENIT_OK \/ r = ZENIT_ERROR_ALLOC) /\ zlen buf' = len /\ is_bytes buf'.
Proof using RS.
  induction fuel as [|fuel IH]; intros buf total len e Hb Hl Ht Hn Hf; [lia|]. cbn [read_loop].
  destruct (decide (total < len)); [|eexists _, _, _; split_and!; try done; by left].
  rewrite (u64_small (len - total)) by lia. pose proof (fread_ok (len - total) e ltac:(lia)) as [F1 F2].
  destruct (fread_urandom src (len - total) e) as [bs e1]. simpl in F1, F2. pose proof (zlen_nonneg bs).
  destruct (decide (zlen bs = 0)); [eexists _, _, _; split_and!; try done; by right|].
  destruct (wr_bytes buf total bs) as (buf1 & -> & L1 & B1); [lia|lia|done|done|]. cbn [obind].
  rewrite u64_small by lia. apply IH; try done; lia.
Qed.

Lemma random_bytes_spec fuel buf e : is_bytes buf -> zlen buf = 16 -> (16 < fuel)%nat ->
  exists r buf' e', random_bytes src fuel buf 16 e = Ret (r, buf', e') /\
    (r = ZENIT_OK \/ r = ZENIT_ERROR_ALLOC) /\ zlen buf' = 16 /\ is_bytes buf'.
Proof using RS.
  intros Hb Hl Hf. unfold random_bytes. pose proof (getrandom_ok 16 e ltac:(lia)) as G.
  destruct (getrandom src 16 e) as [[n bs] e1]. destruct G as [G1 G2].
  assert (zlen bs <= 16) by (destruct G2 as [[-> ?]|[_ ->]]; [done|done]).
  destruct (wr_bytes buf 0 bs) as (buf1 & -> & L1 & B1); [lia|lia|done|done|]. cbn [obind].
  destruct (decide (0 < n /\ n = 16)); [eexists _, _, _; split_and!; try done; [by left|lia]|].
  destruct (fopen_urandom src e1) as [[|] e2].
  - apply read_loop_spec; try done; lia.
  - eexists _, _, _; split_and!; try done; [by right|lia].
Qed.

(** The stamped version and variant. *)
Lemma stamp_bits b : is_byte b ->
  Z.lor (Z.land b 15) 64 = 64 + b mod 16 /\ Z.lor (Z.land b 63) 128 = 128 + b mod 64.
Proof.
  revert b. apply (check_range (fun b => Z.lor (Z.land b 15) 64 = 64 + b mod 16 /\
    Z.lor (Z.land b 63) 128 = 128 + b mod 64) 0 256). vm_compute. reflexivity.
Qed.

(** [zenit_uuid_generate] returns for every behaviour of the random source, an
    error or a UUID of version 4 and the RFC variant: the source's 16 bytes with
    the high half of byte 6 replaced by 4 and the two high bits of byte 8 by 10. *)
Theorem uuid_generate_version4 fuel o e (Ho : is_bytes o) (Lo : zlen o = 16) (Hf : (16 < fuel)%nat) :
  exists r u e', zenit_uuid_generate src fuel (Some o) e = Ret (r, Some u, e') /\
    is_bytes u /\ zlen u = 16 /\
    (r = ZENIT_ERROR_ALLOC \/
     r = ZENIT_OK /\ exists rnd b6 b8, random_bytes src fuel o 16 e = Ret (ZENIT_OK, rnd, e') /\
       rnd !! 6%nat = Some b6 /\ rnd !! 8%nat = Some b8 /\
       u = <[8%nat := 128 + b8 mod 64]> (<[6%nat := 64 + b6 mod 16]> rnd)).
Proof using RS.
  unfold zenit_uuid_generate. destruct (random_bytes_spec fuel o e Ho Lo Hf) as (r & rnd & e' & E1 & Hr & L & B).
  rewrite E1. cbn [obind]. destruct (decide (r <> ZENIT_OK)) as [D|D].
  { eexists _, _, _. split_and!; try done. left. by destruct Hr. }
  destruct Hr as [-> | ->]; [|by exfalso; apply D].
  destruct (aget_range rnd 6) as (b6 & E6 & ->); [lia|]. cbn [obind]. rewrite aset_range by lia. cbn [obind].
  assert (is_byte b6) as B6 by (by eapply Forall_lookup_1; [exact B|]).
  destruct (aget_range rnd 8) as (b8 & E8 & _); [lia|].
  assert (is_byte b8) as B8 by (by eapply Forall_lookup_1; [exact B|]).
  erewrite aget_lookup; [|lia|]; [|rewrite list_lookup_insert_ne by lia; exact E8]. cbn [obind].
  rewrite aset_range by zl. cbn [obind].
  destruct (stamp_bits b6 B6) as [-> _], (stamp_bits b8 B8) as [_ ->].
  eexists _, _, _. split; [done|]. split_and!; [|zl|right; split; [done|]; by exists rnd, b6, b8].
  unfold is_byte in *. pose proof (Z.mod_pos_bound b6 16 ltac:(lia)). pose proof (Z.mod_pos_bound b8 64 ltac:(lia)).
  apply Forall_insert; [apply Forall_insert; [done|]|]; unfold is_byte; lia.
Qed.
End Generate.

(** ** Witnesses *)

(** A source that fails once and then delivers bytes one at a time. *)
Definition wit_random : random_source nat :=
  mk_random (fun _ e => (-1, [], e)) (fun e => (true, e))
    (fun n e => if decide (n <= 0) then ([], e) else ([u8 (Z.of_nat e * 37)], S e)) (fun e => e).

#[export] Instance wit_random_spec : RandomSpec wit_random.
Proof.
  split.
  - intros n e _. simpl. split; [constructor|by right].
  - intros n e Hn. simpl. case_decide; simpl; [split; [constructor|done]|].
    split; [repeat constructor; apply u8_range|]. change (zlen [u8 (Z.of_nat e * 37)]) with 1. lia.
Qed.

Example uuid_text_example :
  uuid_text [18; 62; 69; 103; 232; 155; 18; 211; 164; 86; 66; 102; 20; 23; 64; 0]
  = lit "123e4567-e89b-12d3-a456-426614174000".
Proof. vm_compute. reflexivity. Qed.

Lemma uuid_roundtrip_witness :
  let u := replicate 16 171 in
  exists o', zenit_uuid_format (Some u) (Some (replicate 40 7)) = Ret (ZENIT_OK, Some o') /\
    cstr o' (uuid_text u) /\ zlen (uuid_text u) = 36 /\
    zenit_uuid_parse (Some o') (Some (replicate 16 0)) = Ret (ZENIT_OK, Some u) /\
    zenit_uuid_equal (Some u) (Some u) = Ret 1.
Proof.
  refine (uuid_roundtrip (replicate 16 171) (replicate 40 7) (replicate 16 0) _ _ _ _).
  - apply Forall_replicate. unfold is_byte. lia.
  - reflexivity.
  - vm_compute. discriminate.
  - reflexivity.
Defined.

Lemma uuid_generate_version4_witness :
  exists r u e', zenit_uuid_generate wit_random 17 (Some (replicate 16 0)) 5%nat = Ret (r, Some u, e') /\
    is_bytes u /\ zlen u = 16 /\
    (r = ZENIT_ERROR_ALLOC \/
     r = ZENIT_OK /\ exists rnd b6 b8, random_bytes wit_random 17 (replicate 16 0) 16 5%nat = Ret (ZENIT_OK, rnd, e') /\
       rnd !! 6%nat = Some b6 /\ rnd !! 8%nat = Some b8 /\
       u = <[8%nat := 128 + b8 mod 64]> (<[6%nat := 64 + b6 mod 16]> rnd)).
Proof.
  refine (uuid_generate_version4 wit_random 17 (replicate 16 0) 5%nat _ _ _).
  - apply Forall_replicate. unfold is_byte. lia.
  - reflexivity.
  - lia.
Defined.
