(* ===== verification/Semver.v ===== *)
(** * Semantic versions ([src/semver.c])

    A [const char *] that moves through a string is the rest of the buffer from
    there on.  [int] is 32 bits wide and its overflow undefined.  [snprintf] is
    modelled for the conversions the code uses, [%d] and [%s]. *)

From Stdlib Require Import ZArith Lia Ascii String.
From stdpp Require Import base tactics option list numbers.
From S2P Require Import Prelude Mem Result Allocator Text.
Open Scope Z_scope.

Abbreviation INT_MAX := 2147483647.
Definition ZENIT_SEMVER_MAX_PRERELEASE : Z := 64.
Definition ZENIT_SEMVER_MAX_BUILD : Z := 64.

(** An [int] result, undefined outside the type. *)
Definition to_int (x : Z) : outcome Z :=
  if decide (-2147483648 <= x <= INT_MAX) then Ret x else Undef.

Record zenit_semver_t : Type := mk_semver {
  sv_major : Z;
  sv_minor : Z;
  sv_patch : Z;
  sv_pre_release : bytes;
  sv_build : bytes }.

Definition is_digit (c : Z) : bool := bool_decide (ch "0" <= c /\ c <= ch "9").

(** The number read, where the reading stopped, and [*ok]. *)
Fixpoint parse_digits (p : bytes) (n : Z) (started : bool) (ok : bool) : outcome (Z * bytes * bool) :=
  match p with
  | [] => Undef
  | c :: p' =>
      if is_digit c then
        let d := c - ch "0" in
        if decide ((INT_MAX - d) / 10 < n) then Ret (0, p, false)
        else parse_digits p' (n * 10 + d) true ok
      else Ret (n, p, if started then ok else false)
  end.

Definition parse_num (p : bytes) (ok : bool) : outcome (Z * bytes * bool) := parse_digits p 0 false ok.

Fixpoint parse_meta (p dest : bytes) (max_len stop : Z) : outcome (zenit_error_t * bytes * bytes) :=
  match p with
  | [] => Undef
  | c :: p' =>
      if decide (c <> NUL /\ c <> stop) then
        let! idx := strlen dest in
        if decide (max_len - 1 <= idx) then Ret (ZENIT_ERROR_PARAM, p, dest)
        else
          let! dest1 := aset dest idx c in
          let! dest2 := aset dest1 (idx + 1) NUL in
          parse_meta p' dest2 max_len stop
      else
        let! first := aget dest 0 in
        if decide (first = NUL) then Ret (ZENIT_ERROR_PARAM, p, dest) else Ret (ZENIT_OK, p, dest)
  end.

(** [*p]. *)
Definition cur (p : bytes) : outcome Z := aget p 0.

Definition zero_semver : zenit_semver_t :=
  mk_semver 0 0 0 (replicate (Z.to_nat ZENIT_SEMVER_MAX_PRERELEASE) 0) (replicate (Z.to_nat ZENIT_SEMVER_MAX_BUILD) 0).

(** From the pre-release on. *)
Definition parse_tail (p : bytes) (out : zenit_semver_t) : outcome (zenit_error_t * zenit_semver_t) :=
  let '(mk_semver ma mi pa pre bld) := out in
  let! c := cur p in
  let! (r, p, pre) :=
    if decide (c = ch "-") then parse_meta (tail p) pre ZENIT_SEMVER_MAX_PRERELEASE (ch "+")
    else Ret (ZENIT_OK, p, pre) in
  if decide (r <> ZENIT_OK) then Ret (r, mk_semver ma mi pa pre bld)
  else
    let! c := cur p in
    let! (r, p, bld) :=
      if decide (c = ch "+") then parse_meta (tail p) bld ZENIT_SEMVER_MAX_BUILD NUL
      else Ret (ZENIT_OK, p, bld) in
    if decide (r <> ZENIT_OK) then Ret (r, mk_semver ma mi pa pre bld)
    else
      let! c := cur p in
      Ret (if decide (c <> NUL) then ZENIT_ERROR_PARAM else ZENIT_OK, mk_semver ma mi pa pre bld).

Definition zenit_semver_parse (str : option bytes) (out : option zenit_semver_t)
    : outcome (zenit_error_t * option zenit_semver_t) :=
  match str, out with
  | Some str, Some _ =>
      let '(mk_semver _ _ _ pre bld) := zero_semver in
      let! (ma, p, ok) := parse_num str true in
      let! c := cur p in
      if decide (ok = false \/ c <> ch ".") then Ret (ZENIT_ERROR_PARAM, Some (mk_semver ma 0 0 pre bld))
      else
        let! (mi, p, ok) := parse_num (tail p) ok in
        let! c := cur p in
        if decide (ok = false \/ c <> ch ".") then Ret (ZENIT_ERROR_PARAM, Some (mk_semver ma mi 0 pre bld))
        else
          let! (pa, p, ok) := parse_num (tail p) ok in
          if decide (ok = false) then Ret (ZENIT_ERROR_PARAM, Some (mk_semver ma mi pa pre bld))
          else
            let! s0 := aget str 0 in
            let! lead := if decide (s0 = ch "0") then let! s1 := aget str 1 in Ret (is_digit s1) else Ret false in
            if lead then Ret (ZENIT_ERROR_PARAM, Some (mk_semver ma mi pa pre bld))
            else
              let! (r, v) := parse_tail p (mk_semver ma mi pa pre bld) in
              Ret (r, Some v)
  | _, _ => Ret (ZENIT_ERROR_NULL, out)
  end.

(** [%d]: at most ten digits. *)
Fixpoint digits (fuel : nat) (n : Z) (acc : bytes) : bytes :=
  match fuel with
  | O => acc
  | S fuel =>
      let acc := (ch "0" + n mod 10) :: acc in
      if decide (n / 10 = 0) then acc else digits fuel (n / 10) acc
  end.

Definition show_int (n : Z) : bytes := if decide (n < 0) then ch "-" :: digits 10 (- n) [] else digits 10 n [].

(** [%s]. *)
Definition show_str (s : bytes) : outcome bytes := let! n := strlen s in Ret (take (Z.to_nat n) s).

(** [snprintf]: the length of the whole text, of which what fits is stored. *)
Definition snprintf (buf : bytes) (size : Z) (text : bytes) : outcome (Z * bytes) :=
  if decide (size = 0) then Ret (zlen text, buf)
  else let! b := wr buf 0 (take (Z.to_nat (size - 1)) text ++ [NUL]) in Ret (zlen text, b).

Section SemverModel.
Context {C : Type}.
Implicit Types (c : C) (a : zenit_allocator_t C).

Definition format_impl (v : option zenit_semver_t) a c : outcome (option block * C) :=
  match v with
  | None => Ret (None, c)
  | Some v =>
      let base_len := 32 in
      let! pre_len := strlen (sv_pre_release v) in
      let! build_len := strlen (sv_build v) in
      let total := base_len + (if decide (0 < pre_len) then 1 + pre_len else 0)
                   + (if decide (0 < build_len) then 1 + build_len else 0) + 1 in
      match alloc_fn a total c with
      | (None, c1) => Ret (None, c1)
      | (Some out, c1) =>
          let core := show_int (sv_major v) ++ [ch "."] ++ show_int (sv_minor v) ++ [ch "."] ++ show_int (sv_patch v) in
          let! text :=
            if decide (0 < pre_len /\ 0 < build_len) then
              let! s := show_str (sv_pre_release v) in
              let! t := show_str (sv_build v) in Ret (core ++ [ch "-"] ++ s ++ [ch "+"] ++ t)
            else if decide (0 < pre_len) then let! s := show_str (sv_pre_release v) in Ret (core ++ [ch "-"] ++ s)
            else if decide (0 < build_len) then let! t := show_str (sv_build v) in Ret (core ++ [ch "+"] ++ t)
            else Ret core in
          let! (written, d) := snprintf (b_data out) total text in
          if decide (written < 0 \/ total <= written) then Ret (None, free_fn a (Some (b_addr out)) c1)
          else Ret (Some (Block (b_addr out) d), c1)
      end
  end.

(** [out] is what the caller's [char *] holds. *)
Definition zenit_semver_format_with_allocator (v : option zenit_semver_t) (out : option (option block)) a c
    : outcome (zenit_error_t * option (option block) * C) :=
  match v, out with
  | Some _, Some _ =>
      let! (s, c1) := format_impl v a c in
      match s with
      | None => Ret (ZENIT_ERROR_ALLOC, out, c1)
      | Some _ => Ret (ZENIT_OK, Some s, c1)
      end
  | _, _ => Ret (ZENIT_ERROR_NULL, out, c)
  end.
End SemverModel.

Definition zenit_semver_format (v : option zenit_semver_t) (out : option (option block)) (h : heap)
    : outcome (zenit_error_t * option (option block) * heap) :=
  zenit_semver_format_with_allocator v out ZENIT_ALLOCATOR_DEFAULT h.

(** ** Comparison *)

(** [s\[i..i+n)] all digits. *)
Fixpoint is_numeric_from (n : nat) (s : bytes) (i : Z) : outcome bool :=
  match n with
  | O => Ret true
  | S n => let! c := aget s i in if is_digit c then is_numeric_from n s (i + 1) else Ret false
  end.

Definition is_numeric (s : bytes) (len : Z) : outcome bool := is_numeric_from (Z.to_nat len) s 0.

Fixpoint id_value (n : nat) (s : bytes) (i v : Z) : outcome Z :=
  match n with
  | O => Ret v
  | S n =>
      let! c := aget s i in
      let! m := to_int (v * 10) in
      let! v1 := to_int (m + (c - ch "0")) in
      id_value n s (i + 1) v1
  end.

Fixpoint id_lex (n : nat) (a b : bytes) (i : Z) : outcome Z :=
  match n with
  | O => Ret 0
  | S n =>
      let! x := aget a i in
      let! y := aget b i in
      if decide (x <> y) then Ret (if decide (schar x < schar y) then -1 else 1) else id_lex n a b (i + 1)
  end.

Definition cmp_pre_id (a_start : bytes) (a_len : Z) (b_start : bytes) (b_len : Z) : outcome Z :=
  let! a_num := is_numeric a_start a_len in
  let! b_num := is_numeric b_start b_len in
  if a_num && b_num then
    let! a_val := id_value (Z.to_nat a_len) a_start 0 0 in
    let! b_val := id_value (Z.to_nat b_len) b_start 0 0 in
    Ret (if decide (a_val <> b_val) then (if decide (a_val < b_val) then -1 else 1) else 0)
  else
    let min_len := if decide (a_len < b_len) then a_len else b_len in
    let! c := id_lex (Z.to_nat min_len) a_start b_start 0 in
    if decide (c <> 0) then Ret c
    else Ret (if decide (a_len <> b_len) then (if decide (a_len < b_len) then -1 else 1) else 0).

(** The first dot from [s] on, as a distance. *)
Fixpoint find_dot (s : bytes) (k : Z) : outcome (option Z) :=
  match s with
  | [] => Undef
  | c :: s => if decide (c = NUL) then Ret None else if decide (c = ch ".") then Ret (Some k) else find_dot s (k + 1)
  end.

(** [None] when there is no further identifier, else its start, its length and
    where to go on. *)
Definition next_ident (sp : bytes) : outcome (option (bytes * Z * bytes)) :=
  let! c := cur sp in
  if decide (c = NUL) then Ret None
  else
    let! dot := find_dot sp 0 in
    match dot with
    | Some d => Ret (Some (sp, d, drop (Z.to_nat (d + 1)) sp))
    | None => let! len := strlen sp in Ret (Some (sp, len, drop (Z.to_nat len) sp))
    end.

Fixpoint cmp_prerelease (fuel : nat) (a b : bytes) : outcome Z :=
  match fuel with
  | O => NoFuel
  | S fuel =>
      let! ia := next_ident a in
      let! ib := next_ident b in
      match ia, ib with
      | Some _, None => Ret 1
      | None, Some _ => Ret (-1)
      | None, None => Ret 0
      | Some (a_start, a_len, a), Some (b_start, b_len, b) =>
          let! c := cmp_pre_id a_start a_len b_start b_len in
          if decide (c <> 0) then Ret c else cmp_prerelease fuel a b
      end
  end.

Definition zenit_semver_compare (fuel : nat) (a b : option zenit_semver_t) : outcome Z :=
  match a, b with
  | None, None => Ret 0
  | None, Some _ => Ret (-1)
  | Some _, None => Ret 1
  | Some a, Some b =>
      if decide (sv_major a <> sv_major b) then to_int (sv_major a - sv_major b)
      else if decide (sv_minor a <> sv_minor b) then to_int (sv_minor a - sv_minor b)
      else if decide (sv_patch a <> sv_patch b) then to_int (sv_patch a - sv_patch b)
      else cmp_prerelease fuel (sv_pre_release a) (sv_pre_release b)
  end.

(** ** Specification *)

Definition version_text (ma mi pa : Z) (pr bd : bytes) : bytes :=
  show_int ma ++ [ch "."] ++ show_int mi ++ [ch "."] ++ show_int pa ++
  (if decide (pr = []) then [] else ch "-" :: pr) ++ (if decide (bd = []) then [] else ch "+" :: bd).

(** The field that holds [s], zero up to its end. *)
Definition field (s : bytes) : bytes := s ++ replicate (64 - length s) 0.

Definition meta_ok (stop : Z) (s : bytes) : Prop := Forall (fun c => 0 < c < 256 /\ c <> stop) s /\ zlen s <= 63.

Definition semver_wf (v : zenit_semver_t) (pr bd : bytes) : Prop :=
  0 <= sv_major v <= INT_MAX /\ 0 <= sv_minor v <= INT_MAX /\ 0 <= sv_patch v <= INT_MAX /\
  cstr (sv_pre_release v) pr /\ meta_ok (ch "+") pr /\ cstr (sv_build v) bd /\ meta_ok NUL bd.

(** ** Numbers *)

Definition value (v : Z) (ds : bytes) : Z := foldl (fun v c => v * 10 + (c - ch "0")) v ds.

Lemma is_digit_range c : is_digit c = true <-> 48 <= c <= 57.
Proof. unfold is_digit. chars. rewrite bool_decide_eq_true. lia. Qed.

Lemma value_mono ds : Forall (fun c => is_digit c = true) ds -> forall v, 0 <= v -> v <= value v ds.
Proof.
  induction 1 as [|c ds Hc _ IH]; intros v Hv; [done|]. apply is_digit_range in Hc.
  unfold value in *. cbn [foldl]. chars. etrans; [|apply IH]; lia.
Qed.

Lemma parse_digits_spec ds rest e : Forall (fun c => is_digit c = true) ds -> is_digit e = false ->
  forall v st ok, 0 <= v -> value v ds <= INT_MAX ->
  parse_digits (ds ++ e :: rest) v st ok =
    Ret (value v ds, e :: rest, if st || negb (bool_decide (ds = [])) then ok else false).
Proof.
  intros Hd He. induction Hd as [|c ds Hc Hd IH]; intros v st ok Hv Hm; cbn [parse_digits app].
  { rewrite He. by destruct st. }
  rewrite Hc. pose proof (proj1 (is_digit_range c) Hc) as Rc.
  assert (v * 10 + (c - 48) <= INT_MAX).
  { change (value v (c :: ds)) with (value (v * 10 + (c - ch "0")) ds) in Hm. revert Hm. chars. intros Hm.
    etrans; [|exact Hm]. apply value_mono; [done|lia]. }
  rewrite decide_False.
  2:{ apply Z.le_ngt, Z.div_le_lower_bound; [lia|]. chars. lia. }
  rewrite IH; [|chars; lia|done]. by destruct st.
Qed.

Lemma digits_spec fuel : forall n acc, 0 <= n < 10 ^ Z.of_nat fuel -> fuel <> O ->
  exists ds, digits fuel n acc = ds ++ acc /\ Forall (fun c => is_digit c = true) ds /\
    ds <> [] /\ (length ds <= fuel)%nat /\ value 0 ds = n /\ (head ds = Some (ch "0") -> ds = [ch "0"]).
Proof.
  induction fuel as [|fuel IH]; intros n acc Hn Hf; [done|]. cbn [digits].
  pose proof (Z.mod_pos_bound n 10 ltac:(lia)). pose proof (Z.div_mod n 10 ltac:(lia)).
  assert (is_digit (ch "0" + n mod 10) = true) as Hd by (apply is_digit_range; chars; lia).
  destruct (decide (n / 10 = 0)) as [E|E].
  { exists [ch "0" + n mod 10]. split_and!; [done|by constructor|done|simpl; lia|unfold value; simpl; lia|].
    intros [= ->]. done. }
  assert (0 <= n / 10) by (apply Z.div_pos; lia).
  assert (fuel <> O) as Hf' by (intros ->; simpl in Hn; apply E, Z.div_small; lia).
  destruct (IH (n / 10) ((ch "0" + n mod 10) :: acc)) as (ds & -> & D1 & D2 & D3 & D4 & D5); [|done|].
  { split; [done|]. apply Z.div_lt_upper_bound; [lia|]. rewrite <- Z.pow_succ_r by lia.
    replace (Z.succ (Z.of_nat fuel)) with (Z.of_nat (S fuel)) by lia. apply Hn. }
  exists (ds ++ [ch "0" + n mod 10]). split_and!.
  - by rewrite <- app_assoc.
  - apply Forall_app. split; [done|by constructor].
  - by destruct ds.
  - rewrite length_app. simpl. lia.
  - unfold value in *. rewrite foldl_app. simpl. rewrite D4. lia.
  - destruct ds as [|d ds]; [done|]. intros Hh. simpl in Hh. specialize (D5 Hh). injection D5 as -> ->.
    exfalso. apply E. rewrite <- D4. reflexivity.
Qed.

Lemma show_int_spec n : 0 <= n <= INT_MAX ->
  Forall (fun c => is_digit c = true) (show_int n) /\ show_int n <> [] /\ zlen (show_int n) <= 10 /\
  value 0 (show_int n) = n /\ (head (show_int n) = Some (ch "0") -> show_int n = [ch "0"]).
Proof.
  intros Hn. unfold show_int. rewrite decide_False by lia.
  destruct (digits_spec 10 n []) as (ds & -> & D1 & D2 & D3 & D4 & D5); [simpl; lia|done|].
  rewrite app_nil_r. unfold zlen. split_and!; try done. lia.
Qed.

Lemma parse_shown n e rest : 0 <= n <= INT_MAX -> is_digit e = false ->
  parse_num (show_int n ++ e :: rest) true = Ret (n, e :: rest, true).
Proof.
  intros Hn He. destruct (show_int_spec n Hn) as (D1 & D2 & _ & D4 & _). unfold parse_num.
  rewrite parse_digits_spec by (done || lia). rewrite D4. by rewrite bool_decide_eq_false_2.
Qed.

Lemma digit_chars ds : Forall (fun c => is_digit c = true) ds -> Forall (fun c => 0 < c < 256) ds.
Proof. apply Forall_impl. intros c Hc%is_digit_range. lia. Qed.

(** ** Fields *)

Lemma field_length s : zlen s <= 63 -> zlen (field s) = 64.
Proof. unfold field, zlen. intros. rewrite length_app, length_replicate. lia. Qed.

Lemma field_cstr s : zlen s <= 63 -> exists rest, field s = s ++ NUL :: rest.
Proof.
  intros H. unfold field. unfold zlen in H. destruct (64 - length s)%nat as [|k] eqn:E; [lia|]. by exists (replicate k 0).
Qed.

(** One character more. *)
Lemma field_push s c : zlen s < 63 -> 
  (let! d := aset (field s) (zlen s) c in aset d (zlen s + 1) NUL) = Ret (field (s ++ [c])).
Proof.
  intros H. unfold field. unfold zlen in H.
  destruct (64 - length s)%nat as [|[|k]] eqn:E; [lia|lia|]. cbn [replicate].
  rewrite (aset_split _ s 0 c (0 :: replicate k 0)) by done. cbn [obind].
  rewrite (aset_split _ (s ++ [c]) 0 NUL (replicate k 0)) by (done || zl). f_equal.
  rewrite length_app. simpl. replace (64 - (length s + 1))%nat with (S k) by lia. cbn [replicate].
  by rewrite <- (app_assoc (s ++ [c])).
Qed.

Lemma parse_meta_spec stop e rest : e = NUL \/ e = stop -> forall s pre,
  Forall (fun c => 0 < c < 256 /\ c <> stop) s -> Forall (fun c => 0 < c < 256) pre -> zlen (pre ++ s) <= 63 ->
  parse_meta (s ++ e :: rest) (field pre) 64 stop =
    Ret (if decide (pre ++ s = []) then ZENIT_ERROR_PARAM else ZENIT_OK, e :: rest, field (pre ++ s)).
Proof.
  intros He. induction s as [|c s IH]; intros pre Hs Hp Hl; cbn [parse_meta app].
  { rewrite decide_False by naive_solver. rewrite app_nil_r in *.
    destruct pre as [|p pre]; [reflexivity|]. inversion Hp as [|? ? Hp0 _]; subst.
    erewrite (aget_lookup _ 0 p); [|lia|reflexivity]. cbn [obind]. rewrite decide_False by lia.
    by rewrite decide_False by done. }
  inversion Hs as [|? ? [Hc1 Hc2] Hs']; subst. rewrite decide_True by (split; [lia|done]).
  autorewrite with zlen in Hl. pose proof (zlen_nonneg s).
  destruct (field_cstr pre) as (r0 & E0); [lia|].
  rewrite E0 at 1. rewrite strlen_app by done. cbn [obind]. rewrite decide_False by lia.
  pose proof (field_push pre c ltac:(lia)) as Ep.
  destruct (aset (field pre) (zlen pre) c) as [d| |]; [|done|done]. cbn [obind] in *. rewrite Ep. cbn [obind].
  rewrite IH; [by rewrite <- app_assoc|done|apply Forall_app; split; [done|by constructor]|zl].
Qed.

(** ** Parsing what was printed *)

Lemma cur_cons c p : cur (c :: p) = Ret c.
Proof. done. Qed.

Definition tail_text (pr bd : bytes) : bytes :=
  (if decide (pr = []) then [] else ch "-" :: pr) ++ (if decide (bd = []) then [] else ch "+" :: bd).

(** The first character of what follows the numbers is no digit. *)
Lemma tail_text_head pr bd rest : exists e t, tail_text pr bd ++ NUL :: rest = e :: t /\ is_digit e = false.
Proof.
  unfold tail_text. destruct (decide (pr = [])); [destruct (decide (bd = []))|]; eexists _, _; split; reflexivity.
Qed.

Lemma parse_tail_spec ma mi pa pr bd rest : meta_ok (ch "+") pr -> meta_ok NUL bd ->
  parse_tail (tail_text pr bd ++ NUL :: rest) (mk_semver ma mi pa (field []) (field [])) =
    Ret (ZENIT_OK, mk_semver ma mi pa (field pr) (field bd)).
Proof.
  intros [P1 P2] [B1 B2]. unfold parse_tail, tail_text, ZENIT_SEMVER_MAX_PRERELEASE, ZENIT_SEMVER_MAX_BUILD.
  set (t := if decide (bd = []) then [] else ch "+" :: bd).
  assert (exists e t', t ++ NUL :: rest = e :: t' /\ (e = NUL \/ e = ch "+")) as (e & t' & Et & He).
  { subst t. destruct (decide (bd = [])); eexists _, _; (split; [reflexivity|tauto]). }
  assert ((let! c := cur (((if decide (pr = []) then [] else ch "-" :: pr) ++ t) ++ NUL :: rest) in
    if decide (c = ch "-") then parse_meta (tail (((if decide (pr = []) then [] else ch "-" :: pr) ++ t) ++ NUL :: rest))
      (field []) 64 (ch "+")
    else Ret (ZENIT_OK, ((if decide (pr = []) then [] else ch "-" :: pr) ++ t) ++ NUL :: rest, field [])) =
    Ret (ZENIT_OK, t ++ NUL :: rest, field pr)) as E1.
  { rewrite <- app_assoc, Et. destruct (decide (pr = [])) as [->|D].
    - cbn [app]. rewrite cur_cons. cbn [obind]. rewrite decide_False; [done|]. by destruct He as [-> | ->].
    - cbn [app]. rewrite cur_cons. cbn [obind tail]. rewrite decide_True by done.
      rewrite (parse_meta_spec (ch "+") e t' He pr []) by done. by rewrite decide_False. }
  destruct (cur _) as [c| |] eqn:Ec; [|done|done]. cbn [obind] in *. rewrite E1. cbn [obind].
  rewrite decide_False by tauto. subst t. destruct (decide (bd = [])) as [->|D].
  - reflexivity.
  - cbn [app]. rewrite cur_cons. cbn [obind tail]. rewrite decide_True by done.
    rewrite (parse_meta_spec NUL NUL rest (or_introl eq_refl) bd []) by done.
    rewrite decide_False by done. cbn [obind]. rewrite decide_False by tauto. reflexivity.
Qed.

Lemma parse_text ma mi pa pr bd rest w :
  0 <= ma <= INT_MAX -> 0 <= mi <= INT_MAX -> 0 <= pa <= INT_MAX -> meta_ok (ch "+") pr -> meta_ok NUL bd ->
  zenit_semver_parse (Some (version_text ma mi pa pr bd ++ NUL :: rest)) (Some w) =
    Ret (ZENIT_OK, Some (mk_semver ma mi pa (field pr) (field bd))).
Proof.
  intros Hma Hmi Hpa Hpr Hbd. destruct (tail_text_head pr bd rest) as (e & t & Et & He).
  set (t2 := show_int pa ++ e :: t). set (t1 := show_int mi ++ ch "." :: t2).
  assert (version_text ma mi pa pr bd ++ NUL :: rest = show_int ma ++ ch "." :: t1) as Etxt.
  { subst t1 t2. rewrite <- Et. unfold version_text, tail_text. by rewrite <- !app_assoc. }
  rewrite Etxt. unfold zenit_semver_parse, zero_semver.
  rewrite parse_shown by done. cbn [obind]. rewrite cur_cons. cbn [obind]. rewrite decide_False by naive_solver.
  cbn [tail]. subst t1. rewrite parse_shown by done. cbn [obind]. rewrite cur_cons. cbn [obind].
  rewrite decide_False by naive_solver. cbn [tail]. subst t2. rewrite parse_shown by done. cbn [obind].
  rewrite decide_False by done.
  assert ((let! s0 := aget (show_int ma ++ ch "." :: show_int mi ++ ch "." :: show_int pa ++ e :: t) 0 in
    if decide (s0 = ch "0") then let! s1 := aget (show_int ma ++ ch "." :: show_int mi ++ ch "." :: show_int pa ++ e :: t) 1 in
      Ret (is_digit s1) else Ret false) = Ret false) as El.
  { destruct (show_int_spec ma Hma) as (_ & D2 & _ & _ & D5). destruct (show_int ma) as [|d ds]; [done|].
    cbn [app]. erewrite (aget_lookup _ 0 d); [|lia|reflexivity]. cbn [obind].
    destruct (decide (d = ch "0")) as [->|]; [|done]. specialize (D5 eq_refl). injection D5 as ->. reflexivity. }
  destruct (aget _ 0) as [s0| |]; [|done|done]. cbn [obind] in *. rewrite El. cbn [obind].
  rewrite <- Et. change (replicate (Z.to_nat ZENIT_SEMVER_MAX_PRERELEASE) 0) with (field []).
  change (replicate (Z.to_nat ZENIT_SEMVER_MAX_BUILD) 0) with (field []).
  by rewrite parse_tail_spec.
Qed.

Lemma show_str_cstr buf s : cstr buf s -> show_str buf = Ret s.
Proof.
  intros H. unfold show_str. rewrite (strlen_cstr _ _ H). cbn [obind]. destruct H as (rest & -> & _).
  unfold zlen. by rewrite Nat2Z.id, take_app_length.
Qed.

Lemma snprintf_fits buf size text : zlen buf = size -> zlen text < size ->
  exists rest, snprintf buf size text = Ret (zlen text, text ++ NUL :: rest).
Proof.
  intros Hb Ht. pose proof (zlen_nonneg text). unfold snprintf. rewrite decide_False by lia.
  rewrite take_ge by (unfold zlen in *; lia). unfold wr. rewrite decide_True by zl. cbn [obind].
  change (Z.to_nat 0) with O. rewrite take_0. cbn [app]. eexists. by rewrite <- app_assoc.
Qed.

(** The four formats are one text. *)
Lemma chosen_text core v pr bd : cstr (sv_pre_release v) pr -> cstr (sv_build v) bd ->
  (if decide (0 < zlen pr /\ 0 < zlen bd) then
     let! s := show_str (sv_pre_release v) in
     let! t := show_str (sv_build v) in Ret (core ++ [ch "-"] ++ s ++ [ch "+"] ++ t)
   else if decide (0 < zlen pr) then let! s := show_str (sv_pre_release v) in Ret (core ++ [ch "-"] ++ s)
   else if decide (0 < zlen bd) then let! t := show_str (sv_build v) in Ret (core ++ [ch "+"] ++ t)
   else Ret core) = Ret (core ++ tail_text pr bd).
Proof.
  intros Cp Cb. rewrite (show_str_cstr _ _ Cp), (show_str_cstr _ _ Cb). cbn [obind]. unfold tail_text.
  pose proof (zlen_pos pr). pose proof (zlen_pos bd).
  destruct (decide (pr = [])) as [->|Dp], (decide (bd = [])) as [->|Db]; change (zlen (@nil Z)) with 0.
  - rewrite !decide_False by lia. by rewrite app_nil_r.
  - rewrite !decide_False by lia. by rewrite decide_True by auto.
  - rewrite decide_False by lia. rewrite decide_True by auto. by rewrite app_nil_r.
  - by rewrite decide_True by auto.
Qed.

Lemma tail_text_chars pr bd : Forall (fun c => 0 < c < 256) pr -> Forall (fun c => 0 < c < 256) bd ->
  Forall (fun c => 0 < c < 256) (tail_text pr bd).
Proof.
  intros. unfold tail_text. apply Forall_app.
  split; case_decide; constructor; done.
Qed.

Lemma tail_text_length pr bd :
  zlen (tail_text pr bd) = (if decide (0 < zlen pr) then 1 + zlen pr else 0) + (if decide (0 < zlen bd) then 1 + zlen bd else 0).
Proof.
  unfold tail_text.
  destruct (decide (pr = [])) as [->|Dp], (decide (bd = [])) as [->|Db];
    try (apply zlen_pos in Dp); try (apply zlen_pos in Db); repeat case_decide; zl.
Qed.

(** Versions survive printing and parsing: [zenit_semver_format] of a version
    with non-negative numbers, a pre-release without [+] and any build string
    produces, in a block that is always large enough, the text
    MAJOR.MINOR.PATCH[-PRE][+BUILD], and [zenit_semver_parse] of that text
    succeeds and gives back the same numbers and strings; the only error of the
    formatter is a refused allocation. *)
Theorem semver_roundtrip {C : Type} (a : zenit_allocator_t C) {SP : AllocSpec a} v pr bd o w c
  (Hv : semver_wf v pr bd) :
  let text := version_text (sv_major v) (sv_minor v) (sv_patch v) pr bd in
  exists total, match alloc_fn a total c with
  | (None, c1) => zenit_semver_format_with_allocator (Some v) (Some o) a c = Ret (ZENIT_ERROR_ALLOC, Some o, c1)
  | (Some b, c1) => exists d,
      zenit_semver_format_with_allocator (Some v) (Some o) a c =
        Ret (ZENIT_OK, Some (Some (Block (b_addr b) d)), c1) /\
      cstr d text /\
      zenit_semver_parse (Some d) (Some w) =
        Ret (ZENIT_OK, Some (mk_semver (sv_major v) (sv_minor v) (sv_patch v) (field pr) (field bd)))
  end.
Proof.
  destruct Hv as (Hma & Hmi & Hpa & Cp & Mp & Cb & Mb). intros text.
  destruct (show_int_spec _ Hma) as (A1 & _ & A3 & _), (show_int_spec _ Hmi) as (B1 & _ & B3 & _),
    (show_int_spec _ Hpa) as (C1 & _ & C3 & _).
  unfold zenit_semver_format_with_allocator, format_impl.
  rewrite (strlen_cstr _ _ Cp), (strlen_cstr _ _ Cb). cbn [obind].
  set (core := show_int (sv_major v) ++ [ch "."] ++ show_int (sv_minor v) ++ [ch "."] ++ show_int (sv_patch v)).
  set (total := 32 + _ + _ + 1). exists total.
  destruct (alloc_fn a total c) as [[b|] c1] eqn:Ea; [|done]. apply alloc_some in Ea as (Lb & _).
  rewrite chosen_text by done. cbn [obind].
  assert (core ++ tail_text pr bd = text) as -> by (unfold text, version_text, core, tail_text; by rewrite <- !app_assoc).
  assert (text = core ++ tail_text pr bd) as Et by (unfold text, version_text, core, tail_text; by rewrite <- !app_assoc).
  assert (zlen text < total) as Hl.
  { rewrite Et, zlen_app, tail_text_length. subst total core. zl. }
  destruct (snprintf_fits (b_data b) total text Lb Hl) as (rest & ->). cbn [obind].
  pose proof (zlen_nonneg text). rewrite decide_False by lia. cbn [obind]. eexists. split; [done|].
  split; [|by apply parse_text]. exists rest. split; [done|]. rewrite Et. unfold core.
  destruct Cp as (_ & _ & Cp), Cb as (_ & _ & Cb).
  rewrite !Forall_app. split_and!; try (by apply digit_chars); try (by repeat constructor). by apply tail_text_chars.
Qed.

(** ** Comparison *)

(** The identifiers of a pre-release string; nothing follows a final dot. *)
Fixpoint idents_from (x s : bytes) : list bytes :=
  match s with
  | [] => [x]
  | c :: s =>
      if decide (c = ch ".") then x :: match s with [] => [] | _ => idents_from [] s end
      else idents_from (x ++ [c]) s
  end.

Definition idents (s : bytes) : list bytes := match s with [] => [] | _ => idents_from [] s end.

Definition numeric (x : bytes) : bool := forallb is_digit x.

Fixpoint lex_cmp (x y : bytes) : Z :=
  match x, y with
  | [], [] => 0
  | [], _ :: _ => -1
  | _ :: _, [] => 1
  | c :: x, d :: y => if decide (c = d) then lex_cmp x y else if decide (schar c < schar d) then -1 else 1
  end.

Definition sign_cmp (x y : Z) : Z := if decide (x = y) then 0 else if decide (x < y) then -1 else 1.

(** Two identifiers: by value when both are numbers, else by their characters. *)
Definition id_cmp (x y : bytes) : Z :=
  if numeric x && numeric y then sign_cmp (value 0 x) (value 0 y) else lex_cmp x y.

Fixpoint ids_cmp (xs ys : list bytes) : Z :=
  match xs, ys with
  | [], [] => 0
  | [], _ :: _ => -1
  | _ :: _, [] => 1
  | x :: xs, y :: ys => if decide (id_cmp x y = 0) then ids_cmp xs ys else id_cmp x y
  end.

(** Precedence: the numbers first, then the pre-release identifiers. *)
Definition version_cmp (a b : zenit_semver_t) (pa pb : bytes) : Z :=
  if decide (sv_major a <> sv_major b) then sign_cmp (sv_major a) (sv_major b)
  else if decide (sv_minor a <> sv_minor b) then sign_cmp (sv_minor a) (sv_minor b)
  else if decide (sv_patch a <> sv_patch b) then sign_cmp (sv_patch a) (sv_patch b)
  else ids_cmp (idents pa) (idents pb).

(** Numeric identifiers that fit an [int]. *)
Definition small_ids (s : bytes) : Prop := Forall (fun x => numeric x = true -> value 0 x <= INT_MAX) (idents s).

Definition comparable (v : zenit_semver_t) (p : bytes) : Prop :=
  0 <= sv_major v <= INT_MAX /\ 0 <= sv_minor v <= INT_MAX /\ 0 <= sv_patch v <= INT_MAX /\
  cstr (sv_pre_release v) p /\ small_ids p.

Lemma numeric_Forall x : numeric x = true -> Forall (fun c => is_digit c = true) x.
Proof.
  induction x as [|c x IH]; [constructor|]. cbn [numeric forallb]. intros [? ?]%andb_true_iff. constructor; auto.
Qed.

Lemma is_numeric_spec x : forall pre rest, 
  is_numeric_from (length x) (pre ++ x ++ rest) (zlen pre) = Ret (numeric x).
Proof.
  induction x as [|c x IH]; intros pre rest; cbn [is_numeric_from length numeric forallb app]; [done|].
  rewrite (aget_split _ pre c (x ++ rest)) by done. cbn [obind]. destruct (is_digit c); [|done].
  replace (zlen pre + 1) with (zlen (pre ++ [c])) by zl. rewrite (cons_middle c pre (x ++ rest)), app_assoc. apply IH.
Qed.

Lemma id_value_spec x : forall pre rest v, Forall (fun c => is_digit c = true) x -> 0 <= v -> value v x <= INT_MAX ->
  id_value (length x) (pre ++ x ++ rest) (zlen pre) v = Ret (value v x).
Proof.
  induction x as [|c x IH]; intros pre rest v Hx Hv Hm; [done|]. inversion Hx as [|? ? Hc Hx']; subst.
  change (value v (c :: x)) with (value (v * 10 + (c - ch "0")) x) in *. cbn [id_value length app].
  rewrite (aget_split _ pre c (x ++ rest)) by done. cbn [obind]. apply is_digit_range in Hc.
  assert (0 <= c - ch "0" <= 9) by (chars; lia).
  pose proof (value_mono x Hx' (v * 10 + (c - ch "0")) ltac:(lia)).
  unfold to_int. rewrite decide_True by lia. cbn [obind]. rewrite decide_True by lia. cbn [obind].
  replace (zlen pre + 1) with (zlen (pre ++ [c])) by zl. rewrite (cons_middle c pre (x ++ rest)), app_assoc.
  apply IH; [done|lia|done].
Qed.

(** The loop over the common length, and the comparison of the lengths after it. *)
Lemma id_lex_spec x : forall y prex prey rx ry, zlen prex = zlen prey ->
  (let! c := id_lex (Nat.min (length x) (length y)) (prex ++ x ++ rx) (prey ++ y ++ ry) (zlen prex) in
   if decide (c <> 0) then Ret c
   else Ret (if decide (zlen x <> zlen y) then (if decide (zlen x < zlen y) then -1 else 1) else 0)) =
  Ret (lex_cmp x y).
Proof.
  induction x as [|c x IH]; intros y prex prey rx ry E.
  { cbn [length Nat.min id_lex obind lex_cmp]. rewrite decide_False by lia. destruct y as [|d y]; [done|].
    change (zlen (@nil Z)) with 0. pose proof (zlen_nonneg y). rewrite zlen_cons, !decide_True by lia. done. }
  destruct y as [|d y].
  { cbn [length Nat.min id_lex obind lex_cmp]. rewrite decide_False by lia.
    change (zlen (@nil Z)) with 0. pose proof (zlen_nonneg x). rewrite zlen_cons, decide_True, decide_False by lia. done. }
  cbn [length Nat.min id_lex lex_cmp app]. rewrite (aget_split _ prex c (x ++ rx)) by done. cbn [obind].
  rewrite (aget_split _ prey d (y ++ ry)) by done. cbn [obind]. destruct (decide (c = d)) as [->|D].
  - rewrite decide_False by tauto. rewrite (cons_middle d prex (x ++ rx)), (cons_middle d prey (y ++ ry)), !(app_assoc _ [d]).
    replace (zlen prex + 1) with (zlen (prex ++ [d])) by zl.
    rewrite <- (IH y (prex ++ [d]) (prey ++ [d]) rx ry) by zl. destruct (id_lex _ _ _ _); [|done|done]. cbn [obind].
    destruct (decide (a <> 0)); [done|]. rewrite !zlen_cons.
    f_equal. repeat case_decide; lia.
  - rewrite decide_True by done. cbn [obind]. destruct (decide (schar c < schar d)); by rewrite decide_True by lia.
Qed.

Lemma cmp_pre_id_spec x y rx ry :
  (numeric x = true -> value 0 x <= INT_MAX) -> (numeric y = true -> value 0 y <= INT_MAX) ->
  cmp_pre_id (x ++ rx) (zlen x) (y ++ ry) (zlen y) = Ret (id_cmp x y).
Proof.
  intros Hx Hy. unfold cmp_pre_id, is_numeric, id_cmp.
  pose proof (is_numeric_spec x [] rx) as Nx. pose proof (is_numeric_spec y [] ry) as Ny.
  pose proof (id_value_spec x [] rx 0) as Vx. pose proof (id_value_spec y [] ry 0) as Vy.
  change (zlen (@nil Z)) with 0 in *. cbn [app] in *.
  replace (Z.to_nat (zlen x)) with (length x) by (unfold zlen; lia).
  replace (Z.to_nat (zlen y)) with (length y) by (unfold zlen; lia).
  rewrite Nx, Ny. cbn [obind]. destruct (numeric x && numeric y) eqn:E.
  - apply andb_true_iff in E as [E1 E2].
    rewrite Vx, Vy by auto using numeric_Forall, Z.le_refl.
    cbn [obind]. unfold sign_cmp. f_equal. repeat case_decide; lia.
  - rewrite <- (id_lex_spec x y [] [] rx ry) by done. cbn [app]. change (zlen (@nil Z)) with 0.
    replace (Z.to_nat (if decide (zlen x < zlen y) then zlen x else zlen y)) with (Nat.min (length x) (length y)); [done|].
    unfold zlen. case_decide; lia.
Qed.

(** A string starts with its first identifier. *)
Lemma idents_from_split s : forall x, s <> [] ->
  exists y s', Forall (fun c => c <> ch ".") y /\ ((s = y /\ s' = []) \/ s = y ++ ch "." :: s') /\
    idents_from x s = (x ++ y) :: idents s'.
Proof.
  induction s as [|c s IH]; intros x D; [done|]. cbn [idents_from]. destruct (decide (c = ch ".")) as [->|Dc].
  { exists [], s. rewrite app_nil_r. split_and!; [constructor|by right|by destruct s]. }
  destruct (decide (s = [])) as [->|Ds].
  { exists [c], []. split_and!; [by constructor|by left|done]. }
  destruct (IH (x ++ [c]) Ds) as (y & s' & H1 & H2 & H3). exists (c :: y), s'. split_and!.
  - by constructor.
  - destruct H2 as [[-> ->] | ->]; [by left|by right].
  - rewrite H3. by rewrite <- app_assoc.
Qed.

Lemma find_dot_hit y t : Forall (fun c => c <> ch ".") y -> Forall (fun c => 0 < c < 256) y ->
  forall k, find_dot (y ++ ch "." :: t) k = Ret (Some (k + zlen y)).
Proof.
  induction y as [|c y IH]; intros H1 H2 k; cbn [find_dot app].
  - do 3 f_equal. change (zlen (@nil Z)) with 0. lia.
  - inversion H1; inversion H2; subst. rewrite decide_False by lia. rewrite decide_False by done.
    rewrite IH by done. do 2 f_equal. zl.
Qed.

Lemma find_dot_miss y t : Forall (fun c => c <> ch ".") y -> Forall (fun c => 0 < c < 256) y ->
  forall k, find_dot (y ++ NUL :: t) k = Ret None.
Proof.
  induction y as [|c y IH]; intros H1 H2 k; cbn [find_dot app]; [done|].
  inversion H1; inversion H2; subst. rewrite decide_False by lia. rewrite decide_False by done. by apply IH.
Qed.

Lemma next_ident_spec s rest : Forall (fun c => 0 < c < 256) s ->
  match idents s with
  | [] => next_ident (s ++ NUL :: rest) = Ret None
  | y :: ys => exists s' t, next_ident (s ++ NUL :: rest) = Ret (Some (s ++ NUL :: rest, zlen y, s' ++ NUL :: rest)) /\
      s ++ NUL :: rest = y ++ t /\ Forall (fun c => 0 < c < 256) s' /\ ys = idents s'
  end.
Proof.
  intros Hs. destruct (decide (s = [])) as [->|D]; [done|].
  destruct (idents_from_split s [] D) as (y & s' & H1 & H2 & H3). cbn [app] in H3.
  assert (idents s = y :: idents s') as -> by (by destruct s).
  assert (next_ident (s ++ NUL :: rest) = let! dot := find_dot (s ++ NUL :: rest) 0 in
    match dot with
    | Some d => Ret (Some (s ++ NUL :: rest, d, drop (Z.to_nat (d + 1)) (s ++ NUL :: rest)))
    | None => let! len := strlen (s ++ NUL :: rest) in
              Ret (Some (s ++ NUL :: rest, len, drop (Z.to_nat len) (s ++ NUL :: rest)))
    end) as ->.
  { unfold next_ident. destruct s as [|c s]; [done|]. cbn [app]. rewrite cur_cons. cbn [obind].
    inversion Hs; subst. by rewrite decide_False by lia. }
  destruct H2 as [[-> ->] | ->].
  - rewrite find_dot_miss by done. cbn [obind]. rewrite strlen_app by done. cbn [obind].
    exists [], (NUL :: rest). split_and!; [|done|constructor|done]. do 3 f_equal.
    unfold zlen. by rewrite Nat2Z.id, drop_app_length.
  - apply Forall_app in Hs as [Hy Hs']. apply list.Forall_cons in Hs' as [_ Hs'].
    rewrite <- app_assoc. cbn [app]. rewrite find_dot_hit by done. cbn [obind].
    exists s', (ch "." :: s' ++ NUL :: rest). split_and!; [|done|done|done]. do 3 f_equal.
    rewrite (cons_middle (ch ".") y), app_assoc.
    replace (Z.to_nat (0 + zlen y + 1)) with (length (y ++ [ch "."])) by (rewrite length_app; unfold zlen; simpl; lia).
    by rewrite drop_app_length.
Qed.

Lemma id_cmp_range x y : -1 <= id_cmp x y <= 1.
Proof.
  unfold id_cmp, sign_cmp. destruct (_ && _); [repeat case_decide; lia|]. revert y.
  induction x as [|c x IH]; intros [|d y]; simpl; try lia. repeat case_decide; try lia. apply IH.
Qed.

Lemma cmp_prerelease_spec fuel : forall a b ra rb, Forall (fun c => 0 < c < 256) a -> Forall (fun c => 0 < c < 256) b ->
  small_ids a -> small_ids b -> (length (idents a) < fuel)%nat ->
  cmp_prerelease fuel (a ++ NUL :: ra) (b ++ NUL :: rb) = Ret (ids_cmp (idents a) (idents b)).
Proof.
  induction fuel as [|fuel IH]; intros a b ra rb Ha Hb Sa Sb Hf; [lia|]. cbn [cmp_prerelease].
  pose proof (next_ident_spec a ra Ha) as Na. pose proof (next_ident_spec b rb Hb) as Nb.
  unfold small_ids in Sa, Sb. destruct (idents a) as [|x xs], (idents b) as [|y ys].
  - by rewrite Na, Nb.
  - rewrite Na. by destruct Nb as (? & ? & -> & _).
  - rewrite Nb. by destruct Na as (? & ? & -> & _).
  - destruct Na as (a' & ta & -> & Ea & Ha' & ->), Nb as (b' & tb & -> & Eb & Hb' & ->). cbn [obind].
    apply list.Forall_cons in Sa as [Sx Sa], Sb as [Sy Sb].
    rewrite Ea, Eb, cmp_pre_id_spec by done. cbn [obind ids_cmp].
    destruct (decide (id_cmp x y = 0)) as [E|E].
    + rewrite decide_False by tauto. simpl in Hf. rewrite IH; [done|done|done|done|done|lia].
    + by rewrite decide_True by done.
Qed.

(** ** Antisymmetry *)

Lemma sign_cmp_opp x y : sign_cmp y x = - sign_cmp x y.
Proof. unfold sign_cmp. repeat case_decide; lia. Qed.

Lemma lex_cmp_opp x : forall y, is_bytes x -> is_bytes y -> lex_cmp y x = - lex_cmp x y.
Proof.
  induction x as [|c x IH]; intros [|d y] Hx Hy; try done. inversion Hx; inversion Hy; subst. simpl.
  destruct (decide (d = c)) as [->|D]; [rewrite decide_True by done; by apply IH|].
  rewrite (decide_False (P := c = d)) by congruence.
  assert (schar c <> schar d) by (intros E; apply D; symmetry; by apply schar_inj). repeat case_decide; lia.
Qed.

Lemma ids_cmp_opp xs : forall ys, Forall is_bytes xs -> Forall is_bytes ys -> ids_cmp ys xs = - ids_cmp xs ys.
Proof.
  induction xs as [|x xs IH]; intros [|y ys] Hx Hy; try done. inversion Hx; inversion Hy; subst. simpl.
  assert (id_cmp y x = - id_cmp x y) as E.
  { unfold id_cmp. rewrite (andb_comm (numeric y)). destruct (_ && _); [apply sign_cmp_opp|by apply lex_cmp_opp]. }
  rewrite E. repeat case_decide; try lia. by apply IH.
Qed.

Lemma idents_bytes s : is_bytes s -> Forall is_bytes (idents s).
Proof.
  intros Hs. unfold idents. destruct s as [|c s]; [constructor|].
  assert (forall s x, is_bytes s -> is_bytes x -> Forall is_bytes (idents_from x s)) as H.
  { clear. induction s as [|c s IH]; intros x Hs Hx; cbn [idents_from]; [by constructor|].
    inversion Hs; subst. destruct (decide (c = ch ".")).
    - constructor; [done|]. destruct s; [constructor|]. apply IH; [done|constructor].
    - apply IH; [done|]. apply Forall_app. split; [done|by constructor]. }
  apply H; [done|constructor].
Qed.

Lemma version_cmp_opp a b pa pb : is_bytes pa -> is_bytes pb -> version_cmp b a pb pa = - version_cmp a b pa pb.
Proof.
  intros Ha Hb. unfold version_cmp. repeat case_decide; try congruence; try apply sign_cmp_opp.
  by apply ids_cmp_opp; apply idents_bytes.
Qed.

Lemma compare_sign fuel a b pa pb : comparable a pa -> comparable b pb -> (length (idents pa) < fuel)%nat ->
  exists r, zenit_semver_compare fuel (Some a) (Some b) = Ret r /\ Z.sgn r = Z.sgn (version_cmp a b pa pb).
Proof.
  intros (A1 & A2 & A3 & (ra & Ea & Ca) & Sa) (B1 & B2 & B3 & (rb & Eb & Cb) & Sb) Hf.
  assert (forall x y, x <> y -> Z.sgn (x - y) = Z.sgn (sign_cmp x y)) as Hs
    by (intros x y D; unfold sign_cmp; rewrite decide_False by done; case_decide; lia).
  unfold zenit_semver_compare, version_cmp, to_int.
  repeat (destruct (decide (_ <> _)); [rewrite decide_True by lia; eexists; split; [done|by apply Hs]|]).
  rewrite Ea, Eb, cmp_prerelease_spec by done. by eexists.
Qed.


(** The order is not the one of SemVer 2.0.0, and no order at all: a release
    compares below its own pre-releases, and a numeric identifier is compared with
    an alphanumeric one by characters, so that 9 < 10 < 1a < 9. *)
Theorem semver_compare_cycle fuel ma mi pa b1 b2 b3 : (2 <= fuel)%nat ->
  let v (pre : string) bld := Some (mk_semver ma mi pa (field (lit pre)) bld) in
  zenit_semver_compare fuel (v EmptyString b1) (v "alpha"%string b2) = Ret (-1) /\
  zenit_semver_compare fuel (v "9"%string b1) (v "10"%string b2) = Ret (-1) /\
  zenit_semver_compare fuel (v "10"%string b2) (v "1a"%string b3) = Ret (-1) /\
  zenit_semver_compare fuel (v "1a"%string b3) (v "9"%string b1) = Ret (-1).
Proof.
  intros Hf v. unfold v, zenit_semver_compare. cbn [sv_major sv_minor sv_patch sv_pre_release].
  rewrite !(decide_False (P := _ <> _)) by tauto. destruct fuel as [|[|fuel]]; [lia|lia|]. split_and!; reflexivity.
Qed.

(** ** Witnesses *)

Definition wit_version (pre bld : string) : zenit_semver_t := mk_semver 1 20 3 (field (lit pre)) (field (lit bld)).

Lemma wit_cstr (s : string) : forallb (fun c => bool_decide (0 < c < 256)) (lit s) = true -> zlen (lit s) <= 63 ->
  cstr (field (lit s)) (lit s).
Proof.
  intros H L. destruct (field_cstr (lit s) L) as (r & ->). exists r. split; [done|by apply lit_chars].
Qed.

Lemma wit_small (s : bytes) :
  forallb (fun x => negb (numeric x) || bool_decide (value 0 x <= INT_MAX)) (idents s) = true -> small_ids s.
Proof.
  unfold small_ids. induction (idents s) as [|x xs IH]; [constructor|]. cbn [forallb].
  intros [H1 H2]%andb_true_iff. constructor; [|by apply IH]. intros E. rewrite E in H1. by apply bool_decide_eq_true in H1.
Qed.

Lemma semver_roundtrip_witness :
  let text := version_text 1 20 3 (lit "alpha.1") (lit "b7") in
  exists total, match alloc_fn ZENIT_ALLOCATOR_DEFAULT total empty_heap with
  | (None, c1) => zenit_semver_format_with_allocator (Some (wit_version "alpha.1" "b7")) (Some None)
                    ZENIT_ALLOCATOR_DEFAULT empty_heap = Ret (ZENIT_ERROR_ALLOC, Some None, c1)
  | (Some b, c1) => exists d,
      zenit_semver_format_with_allocator (Some (wit_version "alpha.1" "b7")) (Some None) ZENIT_ALLOCATOR_DEFAULT empty_heap =
        Ret (ZENIT_OK, Some (Some (Block (b_addr b) d)), c1) /\
      cstr d text /\
      zenit_semver_parse (Some d) (Some zero_semver) =
        Ret (ZENIT_OK, Some (mk_semver 1 20 3 (field (lit "alpha.1")) (field (lit "b7"))))
  end.
Proof.
  refine (semver_roundtrip ZENIT_ALLOCATOR_DEFAULT (wit_version "alpha.1" "b7") (lit "alpha.1") (lit "b7") None
    zero_semver empty_heap _).
  unfold semver_wf. split_and!; try (simpl; lia); try (apply wit_cstr; [reflexivity|vm_compute; discriminate]);
    (split; [repeat constructor; vm_compute; done|vm_compute; discriminate]).
Defined.


Lemma semver_compare_cycle_witness :
  let v (pre : string) bld := Some (mk_semver 1 0 0 (field (lit pre)) bld) in
  zenit_semver_compare 2 (v EmptyString []) (v "alpha"%string []) = Ret (-1) /\
  zenit_semver_compare 2 (v "9"%string []) (v "10"%string []) = Ret (-1) /\
  zenit_semver_compare 2 (v "10"%string []) (v "1a"%string []) = Ret (-1) /\
  zenit_semver_compare 2 (v "1a"%string []) (v "9"%string []) = Ret (-1).
Proof. refine (semver_compare_cycle 2 1 0 0 [] [] [] _). lia. Defined.
