(* ===== verification/Str.v ===== *)
(** * String utilities ([src/str.c])

    Trimming, splitting and joining of NUL-terminated strings with the caller's
    allocator.  The array of tokens that [zenit_str_split] builds is its block, which
    the allocator sees, with the pointers it holds beside it. *)

From Stdlib Require Import ZArith Lia Ascii String.
From stdpp Require Import base tactics option list numbers gmap sets.
From S2P Require Import Prelude Mem Result Allocator Links Text.
Open Scope Z_scope.

Definition is_whitespace (c : Z) : bool :=
  bool_decide (c = ch " ") || bool_decide (c = 9) || bool_decide (c = 10) ||
  bool_decide (c = 13) || bool_decide (c = 12) || bool_decide (c = 11).

(** How far [start] moves. *)
Fixpoint skip_ws (s : bytes) (start : Z) : outcome Z :=
  match s with
  | [] => Undef
  | c :: s => if decide (c <> NUL) then if is_whitespace c then skip_ws s (start + 1) else Ret start else Ret start
  end.

(** [end] moves back, at most [n] times. *)
Fixpoint trim_end (n : nat) (s : bytes) (start e : Z) : outcome Z :=
  match n with
  | O => Ret e
  | S n =>
      if decide (start < e) then
        let! c := aget s e in
        if is_whitespace c then trim_end n s start (e - 1) else Ret e
      else Ret e
  end.

(** [strchr(s, c) != NULL]. *)
Fixpoint strchr (s : bytes) (c : Z) : outcome bool :=
  match s with
  | [] => Undef
  | d :: s => if decide (d = c) then Ret true else if decide (d = NUL) then Ret false else strchr s c
  end.

Record char_array : Type := CharArray { ca_block : block; ca_slots : list (option block) }.

Definition SIZEOF_PTR : Z := 8.

Section StrModel.
Context {C : Type}.
Implicit Types (c : C) (a : zenit_allocator_t C).

Fixpoint free_tokens (n : nat) (j : Z) (result : char_array) a c : outcome C :=
  match n with
  | O => Ret c
  | S n =>
      let! p := aget (ca_slots result) j in
      free_tokens n (u64 (j + 1)) result a (free_fn a (paddr p) c)
  end.

Definition free_split_result_with_allocator (result : char_array) (count : Z) a c : outcome C :=
  let! c1 := free_tokens (Z.to_nat count) 0 result a c in
  Ret (free_fn a (Some (b_addr (ca_block result))) c1).

Definition trim_impl (s : option bytes) a c : outcome (option block * C) :=
  match s with
  | None => Ret (None, c)
  | Some s =>
      let! start := skip_ws s 0 in
      let! x0 := aget s start in
      if decide (x0 = NUL) then
        match alloc_fn a 1 c with
        | (None, c1) => Ret (None, c1)
        | (out, c1) => let! out := pset out 0 NUL in Ret (out, c1)
        end
      else
        let! len := strlen s in
        let! e := trim_end (Z.to_nat len) s start (len - 1) in
        let trimmed_len := u64 (e - start + 1) in
        match alloc_fn a (u64 (trimmed_len + 1)) c with
        | (None, c1) => Ret (None, c1)
        | (out, c1) =>
            let! d := rd s start trimmed_len in
            let! out := pwr out 0 d in
            let! out := pset out trimmed_len NUL in
            Ret (out, c1)
        end
  end.

(** The array grown when fewer than two slots are left: [None] when the allocator
    refuses, after which the caller returns. *)
Definition ensure_slots (cap idx : Z) (result : char_array) a c : outcome (option (Z * char_array) * C) :=
  if decide (cap < u64 (idx + 2)) then
    let cap := u64 (cap * 2) in
    let old_size := u64 (cap / 2 * SIZEOF_PTR) in
    let new_size := u64 (cap * SIZEOF_PTR) in
    let! (tmp, c1) := zenit_allocator_realloc a (Some (ca_block result)) old_size new_size c in
    match tmp with
    | None => let! c2 := free_split_result_with_allocator result idx a c1 in Ret (None, c2)
    | Some b =>
        let keep := take (Z.to_nat (new_size / SIZEOF_PTR)) (ca_slots result) in
        Ret (Some (cap, CharArray b (keep ++ replicate (Z.to_nat (new_size / SIZEOF_PTR) - length keep) None)), c1)
    end
  else Ret (Some (cap, result), c).

(** A token of [tlen] bytes from [token_start] on. *)
Definition make_token (s : bytes) (token_start tlen : Z) (tok : block) : outcome (option block) :=
  let! tok :=
    if decide (0 < tlen) then let! d := rd s token_start tlen in pwr (Some tok) 0 d else Ret (Some tok) in
  pset tok tlen NUL.

(** The loop from [i] on, [n] turns left; [None] for an early return of NULL. *)
Fixpoint split_loop (n : nat) (i : Z) (s delim : bytes) (len cap idx token_start : Z) (result : char_array) a c
    : outcome (option (Z * char_array) * C) :=
  match n with
  | O => Ret (Some (idx, result), c)
  | S n =>
      let! is_delim := if decide (i < len) then let! x := aget s i in strchr delim x else Ret false in
      if negb is_delim && bool_decide (i <> len) then
        split_loop n (u64 (i + 1)) s delim len cap idx token_start result a c
      else
        let! (r, c1) := ensure_slots cap idx result a c in
        match r with
        | None => Ret (None, c1)
        | Some (cap, result) =>
            let tlen := u64 (i - token_start) in
            match alloc_fn a (u64 (tlen + 1)) c1 with
            | (None, c2) => let! c3 := free_split_result_with_allocator result idx a c2 in Ret (None, c3)
            | (Some tok, c2) =>
                let! tok := make_token s token_start tlen tok in
                let! slots := aset (ca_slots result) idx tok in
                split_loop n (u64 (i + 1)) s delim len cap (u64 (idx + 1)) (u64 (i + 1))
                  (CharArray (ca_block result) slots) a c2
            end
        end
  end.

(** [out_count] is what the pointer shows. *)
Definition split_impl (s delim : option bytes) (out_count : option Z) a c
    : outcome (option char_array * option Z * C) :=
  match s, delim, out_count with
  | Some s, Some delim, Some _ =>
      let! len := strlen s in
      let cap := 4 in
      match alloc_fn a (u64 (cap * SIZEOF_PTR)) c with
      | (None, c1) => Ret (None, out_count, c1)
      | (Some b, c1) =>
          let! (r, c2) :=
            split_loop (Z.to_nat (len + 1)) 0 s delim len cap 0 0 (CharArray b (replicate (Z.to_nat cap) None)) a c1 in
          match r with
          | None => Ret (None, out_count, c2)
          | Some (idx, result) =>
              let! slots := aset (ca_slots result) idx None in
              Ret (Some (CharArray (ca_block result) slots), Some idx, c2)
          end
      end
  | _, _, _ => Ret (None, out_count, c)
  end.

(** The lengths of the parts that are not NULL, added to [total]. *)
Fixpoint join_total (n : nat) (i : Z) (parts : list (option bytes)) (total : Z) : outcome Z :=
  match n with
  | O => Ret total
  | S n =>
      let! p := aget parts i in
      let! t := match p with None => Ret total | Some p => let! l := strlen p in Ret (u64 (total + l)) end in
      join_total n (u64 (i + 1)) parts t
  end.

Fixpoint join_loop (n : nat) (i : Z) (parts : list (option bytes)) (delim : bytes) (delim_len pos : Z) (out : option block)
    : outcome (Z * option block) :=
  match n with
  | O => Ret (pos, out)
  | S n =>
      let! (pos, out) :=
        if decide (0 < i) then
          let! d := rd delim 0 delim_len in
          let! out := pwr out pos d in Ret (u64 (pos + delim_len), out)
        else Ret (pos, out) in
      let! p := aget parts i in
      let! (pos, out) :=
        match p with
        | None => Ret (pos, out)
        | Some p =>
            let! plen := strlen p in
            let! d := rd p 0 plen in
            let! out := pwr out pos d in Ret (u64 (pos + plen), out)
        end in
      join_loop n (u64 (i + 1)) parts delim delim_len pos out
  end.

Definition join_impl (parts : option (list (option bytes))) (count : Z) (delim : option bytes) a c
    : outcome (option block * C) :=
  match parts, delim with
  | Some parts, Some delim =>
      if decide (count = 0) then
        match alloc_fn a 1 c with
        | (None, c1) => Ret (None, c1)
        | (out, c1) => let! out := pset out 0 NUL in Ret (out, c1)
        end
      else
        let! delim_len := strlen delim in
        let! total := join_total (Z.to_nat count) 0 parts 0 in
        let total := u64 (total + u64 (delim_len * (count - 1))) in
        let total := u64 (total + 1) in
        match alloc_fn a total c with
        | (None, c1) => Ret (None, c1)
        | (out, c1) =>
            let! (pos, out) := join_loop (Z.to_nat count) 0 parts delim delim_len 0 out in
            let! out := pset out pos NUL in
            Ret (out, c1)
        end
  | _, _ => Ret (None, c)
  end.

Definition zenit_str_split_free (result : char_array) (count : Z) a c : outcome C :=
  free_split_result_with_allocator result count a c.
Definition zenit_str_trim_with_allocator (s : option bytes) a c := trim_impl s a c.
Definition zenit_str_split_with_allocator (s delim : option bytes) (out_count : option Z) a c :=
  split_impl s delim out_count a c.
Definition zenit_str_join_with_allocator (parts : option (list (option bytes))) (count : Z) (delim : option bytes) a c :=
  join_impl parts count delim a c.
End StrModel.

Definition zenit_str_trim (s : option bytes) (h : heap) :=
  zenit_str_trim_with_allocator s ZENIT_ALLOCATOR_DEFAULT h.
Definition zenit_str_split (s delim : option bytes) (out_count : option Z) (h : heap) :=
  zenit_str_split_with_allocator s delim out_count ZENIT_ALLOCATOR_DEFAULT h.
Definition zenit_str_join (parts : option (list (option bytes))) (count : Z) (delim : option bytes) (h : heap) :=
  zenit_str_join_with_allocator parts count delim ZENIT_ALLOCATOR_DEFAULT h.

(** ** Specification *)

(** The fields of [s] between the characters of [delims]; [cur] was read before. *)
Fixpoint fields_from (delims cur s : bytes) : list bytes :=
  match s with
  | [] => [cur]
  | x :: s => if decide (x ∈ delims) then cur :: fields_from delims [] s else fields_from delims (cur ++ [x]) s
  end.

Definition fields (delims s : bytes) : list bytes := fields_from delims [] s.

(** Strings joined with [d] in between. *)
Fixpoint joined (d : bytes) (xs : list bytes) : bytes :=
  match xs with
  | [] => []
  | [x] => x
  | x :: xs => x ++ d ++ joined d xs
  end.

(** [t] is [s] without the blanks at its ends. *)
Definition trimmed (s t : bytes) : Prop :=
  exists l r, s = l ++ t ++ r /\ Forall (fun c => is_whitespace c = true) l /\ Forall (fun c => is_whitespace c = true) r /\
    (forall c, head t = Some c -> is_whitespace c = false) /\ (forall c, last t = Some c -> is_whitespace c = false).

(** The strings behind the pointers of an array. *)
Definition token_text (p : option block) : option bytes := b_data <$> p.

(** ** Trimming *)

Abbreviation blank := (fun c => is_whitespace c = true).
Abbreviation chars_of := (Forall (fun c => 0 < c < 256)).

Lemma skip_ws_spec s rest : chars_of s -> forall k,
  exists l t, s = l ++ t /\ Forall blank l /\ (forall c, head t = Some c -> is_whitespace c = false) /\
    skip_ws (s ++ NUL :: rest) k = Ret (k + zlen l).
Proof.
  induction 1 as [|c s Hc _ IH]; intros k; cbn [skip_ws app].
  { exists [], []. split_and!; [done|constructor|done|]. rewrite decide_False by tauto. f_equal. zl. }
  rewrite decide_True by lia. destruct (is_whitespace c) eqn:E.
  - destruct (IH (k + 1)) as (l & t & -> & Hl & Ht & ->). exists (c :: l), t.
    split_and!; [done|by constructor|done|]. f_equal. zl.
  - exists [], (c :: s). split_and!; [done|constructor|by intros ? [= <-]|]. f_equal. zl.
Qed.

Lemma trim_end_spec t : forall n pre rest, t <> [] -> (forall c, head t = Some c -> is_whitespace c = false) ->
  (length t <= n)%nat ->
  exists t' r, t = t' ++ r /\ t' <> [] /\ Forall blank r /\ (forall c, last t' = Some c -> is_whitespace c = false) /\
    trim_end n (pre ++ t ++ rest) (zlen pre) (zlen pre + zlen t - 1) = Ret (zlen pre + zlen t' - 1).
Proof.
  induction t as [|x t IH] using rev_ind; intros n pre rest D Hh Hn; [done|].
  rewrite length_app in Hn. simpl in Hn. destruct n as [|n]; [lia|]. cbn [trim_end].
  destruct (is_whitespace x) eqn:E.
  - destruct (decide (t = [])) as [->|Dt].
    { specialize (Hh x eq_refl). congruence. }
    pose proof (zlen_pos t Dt). rewrite decide_True by zl.
    rewrite <- app_assoc. cbn [app].
    rewrite (aget_split _ (pre ++ t) x rest) by (by rewrite <- app_assoc || zl). cbn [obind]. rewrite E.
    destruct (IH n pre (x :: rest)) as (t' & r & -> & Dt' & Hr & Hl & Et); [done| |lia|].
    { intros c Hc. apply Hh. by destruct t. }
    replace (zlen pre + zlen ((t' ++ r) ++ [x]) - 1 - 1) with (zlen pre + zlen (t' ++ r) - 1) by zl.
    exists t', (r ++ [x]). split_and!; [by rewrite app_assoc|done| |done|exact Et].
    apply Forall_app. split; [done|by constructor].
  - exists (t ++ [x]), []. rewrite app_nil_r. split_and!; [done|by destruct t|constructor| |].
    { intros c. rewrite last_snoc. by intros [= <-]. }
    destruct (decide (zlen pre < zlen pre + zlen (t ++ [x]) - 1)); [|done].
    rewrite <- app_assoc. cbn [app].
    rewrite (aget_split _ (pre ++ t) x rest) by first [by rewrite <- app_assoc | zl]. cbn [obind]. by rewrite E.
Qed.

(** Bytes written to a fresh block of exactly their length and the terminator. *)
Lemma store_string x data t n : zlen data = zlen t + 1 -> n = zlen t ->
  (let! p := pwr (Some (Block x data)) 0 t in pset p n NUL) = Ret (Some (Block x (t ++ [NUL]))).
Proof.
  intros L ->. cbn [pwr b_data b_addr]. destruct (list_split_at data (zlen t)) as (d1 & d2 & -> & L1); [pose proof (zlen_nonneg t); lia|].
  rewrite zlen_app in L. destruct (room_cons d2) as (z & r & -> & Lr); [lia|].
  rewrite zlen_cons in *. assert (r = []) as -> by (apply zlen_0; lia).
  pose proof (wr_app [] d1 t [z] 0 eq_refl ltac:(lia)) as W. cbn [app] in W. rewrite W. cbn [obind].
  rewrite (pset_emit x t z []) by done. by rewrite app_nil_r.
Qed.

Lemma store_nul x data : zlen data = 1 -> pset (Some (Block x data)) 0 NUL = Ret (Some (Block x [NUL])).
Proof.
  intros L. destruct (room_cons data) as (z & r & -> & L'); [lia|]. rewrite L in L'. apply zlen_0 in L' as ->. done.
Qed.

Section StrTheorems.
Context {C : Type} (a : zenit_allocator_t C) {SP : AllocSpec a}.
Implicit Types (c : C).

(** [zenit_str_trim] returns a copy of its string without the blanks at both
    ends, in a block of exactly that size, for any string, also one of blanks
    only; it returns NULL only when the allocator refuses that block. *)
Theorem str_trim_correct buf s c : cstr buf s -> zlen buf <= PTRDIFF_MAX ->
  exists t, trimmed s t /\
    zenit_str_trim_with_allocator (Some buf) a c =
      Ret (match alloc_fn a (zlen t + 1) c with
           | (Some b, c1) => (Some (Block (b_addr b) (t ++ [NUL])), c1)
           | (None, c1) => (None, c1)
           end).
Proof.
  intros (rest & -> & Hs) Hm. unfold zenit_str_trim_with_allocator, trim_impl.
  destruct (skip_ws_spec s rest Hs 0) as (l & t & -> & Hl & Ht & ->). cbn [obind]. rewrite Z.add_0_l.
  autorewrite with zlen in Hm. pose proof (zlen_nonneg l). pose proof (zlen_nonneg rest).
  rewrite <- app_assoc. destruct (decide (t = [])) as [->|Dt].
  - cbn [app]. rewrite (aget_split _ l NUL rest) by done. cbn [obind]. rewrite decide_True by done.
    exists []. split.
    { exists l, []. rewrite !app_nil_r. split_and!; [done|done|constructor|done|done]. }
    change (zlen (@nil Z) + 1) with 1. destruct (alloc_fn a 1 c) as [[[x d]|] c1] eqn:E; [|done].
    apply alloc_some in E as (L & _). simpl in L. by rewrite store_nul.
  - assert (exists x t0, t = x :: t0) as (x & t0 & E) by (destruct t; [done|by eexists _, _]).
    rewrite (aget_split _ l x (t0 ++ NUL :: rest)) by (done || by rewrite E). cbn [obind].
    apply Forall_app in Hs as [Hs1 Hs2]. rewrite decide_False by (rewrite E in Hs2; inversion Hs2; lia).
    pose proof (zlen_pos t Dt). rewrite app_assoc, strlen_app by (by apply Forall_app). cbn [obind].
    rewrite <- app_assoc. destruct (trim_end_spec t (Z.to_nat (zlen (l ++ t))) l (NUL :: rest) Dt Ht)
      as (t' & r & -> & Dt' & Hr & Hlast & Et).
    { rewrite zlen_app. unfold zlen. lia. }
    replace (zlen (l ++ t' ++ r) - 1) with (zlen l + zlen (t' ++ r) - 1) by zl.
    rewrite Et. cbn [obind]. replace (zlen l + zlen t' - 1 - zlen l + 1) with (zlen t') by lia.
    autorewrite with zlen in *. pose proof (zlen_nonneg r). pose proof (zlen_pos t' Dt').
    rewrite (u64_small (zlen t')), (u64_small (zlen t' + 1)) by lia. exists t'. split.
    { exists l, r. split_and!; try done. intros y Hy. apply Ht. by destruct t'. }
    destruct (alloc_fn a (zlen t' + 1) c) as [[[z d]|] c1] eqn:E1; [|done]. apply alloc_some in E1 as (L & _). simpl in L.
    rewrite <- app_assoc, (rd_app l t' (r ++ NUL :: rest)) by done. cbn [obind].
    pose proof (store_string z d t' (zlen t') L eq_refl) as St.
    destruct (pwr (Some (Block z d)) 0 t') as [p| |]; [|done|done]. cbn [obind] in *. by rewrite St.
Qed.

(** *** Splitting *)

(** The array holds the tokens [ts] in the blocks [toks], which with it are what
    was allocated since [c0]. *)
Record tokens_rep c0 c (cap : Z) (result : char_array) (ts : list bytes) (toks : list block) : Prop := {
  tk_slots : exists room, ca_slots result = (Some <$> toks) ++ room;
  tk_texts : Forall2 (fun b x => b_data b = x ++ [NUL]) toks ts;
  tk_cap : zlen (ca_slots result) = cap;
  tk_bytes : zlen (b_data (ca_block result)) = cap * 8;
  tk_limit : cap * 8 <= PTRDIFF_MAX;
  tk_room : zlen ts + 1 <= cap;
  tk_owns : owns a c0 c (b_addr (ca_block result) :: (b_addr <$> toks)) }.
Arguments tk_slots {c0 c cap result ts toks}.
Arguments tk_texts {c0 c cap result ts toks}.
Arguments tk_cap {c0 c cap result ts toks}.
Arguments tk_bytes {c0 c cap result ts toks}.
Arguments tk_limit {c0 c cap result ts toks}.
Arguments tk_room {c0 c cap result ts toks}.
Arguments tk_owns {c0 c cap result ts toks}.

Lemma tokens_count c0 c cap result ts toks : tokens_rep c0 c cap result ts toks -> zlen toks = zlen ts.
Proof. intros R. pose proof (Forall2_length _ _ _ (tk_texts R)). unfold zlen. lia. Qed.

Lemma free_tokens_spec c0 arr result room toks : forall pre c,
  ca_slots result = pre ++ (Some <$> toks) ++ room -> zlen (pre ++ (Some <$> toks)) < two64 ->
  owns a c0 c (arr :: (b_addr <$> toks)) ->
  exists c', free_tokens (length toks) (zlen pre) result a c = Ret c' /\ owns a c0 c' [arr].
Proof.
  induction toks as [|b toks IH]; intros pre c E Hl O; cbn [free_tokens length]; [by exists c|].
  rewrite (aget_split _ pre (Some b) ((Some <$> toks) ++ room)) by done. cbn [obind paddr fmap option_fmap option_map].
  autorewrite with zlen in Hl. pose proof (zlen_nonneg pre). pose proof (zlen_nonneg (Some <$> toks)).
  rewrite u64_small by (rewrite fmap_cons, zlen_cons in Hl; lia).
  replace (zlen pre + 1) with (zlen (pre ++ [Some b])) by zl. apply IH; [by rewrite E, <- app_assoc| |].
  - rewrite fmap_cons, zlen_cons in Hl. zl.
  - apply owns_free. eapply owns_perm; [exact O|]. rewrite fmap_cons. apply Permutation_swap.
Qed.

Lemma free_split_spec c0 c c' cap result ts toks : tokens_rep c0 c cap result ts toks -> live c' = live c ->
  exists c2, free_split_result_with_allocator result (zlen ts) a c' = Ret c2 /\ live c2 = live c0.
Proof.
  intros R El. destruct (tk_slots R) as [room E]. pose proof (tokens_count _ _ _ _ _ _ R) as Lt.
  pose proof (tk_room R). pose proof (tk_limit R). unfold free_split_result_with_allocator.
  destruct (free_tokens_spec c0 (b_addr (ca_block result)) result room toks [] c' E) as (c1 & E1 & O1).
  - cbn [app]. replace (zlen (Some <$> toks)) with (zlen toks) by (unfold zlen; by rewrite length_fmap). lia.
  - eapply owns_same; [exact (tk_owns R)|done].
  - replace (Z.to_nat (zlen ts)) with (length toks) by (unfold zlen in *; lia).
    change (zlen (@nil (option block))) with 0 in E1. rewrite E1. cbn [obind]. eexists. split; [done|].
    by apply (owns_nil a), owns_free.
Qed.

Lemma ensure_slots_spec c0 c cap result ts toks : tokens_rep c0 c cap result ts toks ->
  exists r c1, ensure_slots cap (zlen ts) result a c = Ret (r, c1) /\
  match r with
  | None => live c1 = live c0
  | Some (cap', result') => tokens_rep c0 c1 cap' result' ts toks /\ zlen ts + 2 <= cap'
  end.
Proof.
  intros R. pose proof (tk_room R). pose proof (tk_limit R). pose proof (zlen_nonneg ts).
  unfold ensure_slots, SIZEOF_PTR. rewrite (u64_small (zlen ts + 2)) by lia.
  destruct (decide (cap < zlen ts + 2)); [|eexists _, _; split; [done|]; split; [done|lia]].
  rewrite (u64_small (cap * 2)) by lia. rewrite Z.div_mul by lia.
  rewrite (u64_small (cap * 8)), (u64_small (cap * 2 * 8)) by lia.
  destruct (realloc_cases a (Some (ca_block result)) (cap * 8) (cap * 2 * 8) c) as (r & c1 & -> & Hr).
  { destruct (tk_owns R) as (_ & _ & E). rewrite E. simpl. set_solver. }
  { exact (tk_bytes R). }
  { lia. }
  cbn [obind]. destruct r as [b|].
  - destruct Hr as (Lb & Mb & _ & Hb & Hl). simpl in Hb, Hl. eexists _, _. split; [done|]. split; [|lia].
    rewrite Z.div_mul by lia. pose proof (tk_cap R) as Ec.
    rewrite take_ge by (unfold zlen in Ec; lia). destruct (tk_slots R) as [room E]. split; cbn [ca_slots ca_block].
    + eexists. rewrite E, <- app_assoc. done.
    + exact (tk_texts R).
    + rewrite zlen_app, zlen_replicate. unfold zlen in *. lia.
    + lia.
    + lia.
    + lia.
    + eapply owns_realloc; [exact (tk_owns R)|done|done].
  - destruct (free_split_spec c0 c c1 cap result ts toks R Hr) as (c2 & -> & Hl). cbn [obind]. by eexists None, c2.
Qed.

Lemma strchr_spec dbuf ds x : cstr dbuf ds -> x <> NUL -> strchr dbuf x = Ret (bool_decide (x ∈ ds)).
Proof.
  intros (rest & -> & Hd) Hx. induction Hd as [|d ds Hd0 _ IH]; cbn [strchr app].
  - rewrite decide_False by congruence. rewrite decide_True by done.
    by rewrite bool_decide_eq_false_2 by apply not_elem_of_nil.
  - destruct (decide (d = x)) as [->|D]; [f_equal; symmetry; apply bool_decide_eq_true_2; by left|].
    rewrite decide_False by lia. rewrite IH. f_equal. apply bool_decide_ext. rewrite elem_of_cons. naive_solver.
Qed.

Lemma make_token_spec pre cur rest tok : zlen (b_data tok) = zlen cur + 1 ->
  make_token (pre ++ cur ++ rest) (zlen pre) (zlen cur) tok = Ret (Some (Block (b_addr tok) (cur ++ [NUL]))).
Proof.
  destruct tok as [x d]. cbn [b_data b_addr]. intros L. unfold make_token. destruct (decide (0 < zlen cur)) as [D|D].
  - rewrite (rd_app pre cur rest) by done. cbn [obind].
    pose proof (store_string x d cur (zlen cur) L eq_refl) as St. exact St.
  - assert (cur = []) as -> by (apply zlen_0; pose proof (zlen_nonneg cur); lia).
    cbn [obind]. change (zlen (@nil Z)) with 0 in *. rewrite store_nul by done. done.
Qed.

(** A token added to the array. *)
Lemma tokens_push c0 c c' cap result ts toks b x n : tokens_rep c0 c cap result ts toks -> zlen ts + 2 <= cap ->
  alloc_fn a n c = (Some b, c') ->
  exists slots, aset (ca_slots result) (zlen ts) (Some (Block (b_addr b) (x ++ [NUL]))) = Ret slots /\
    tokens_rep c0 c' cap (CharArray (ca_block result) slots) (ts ++ [x]) (toks ++ [Block (b_addr b) (x ++ [NUL])]).
Proof.
  intros R H2 Ha. destruct (tk_slots R) as [room E]. pose proof (tokens_count _ _ _ _ _ _ R) as Lt.
  pose proof (tk_cap R) as Ec. rewrite E in Ec. rewrite zlen_app in Ec.
  assert (zlen (Some <$> toks) = zlen ts) as Ls by (unfold zlen in *; by rewrite length_fmap).
  destruct room as [|z room]; [change (zlen (@nil (option block))) with 0 in Ec; lia|].
  eexists. split; [by apply (aset_split _ (Some <$> toks) z _ room)|]. split; cbn [ca_slots ca_block].
  - exists room. rewrite fmap_app. done.
  - apply Forall2_app; [exact (tk_texts R)|]. by constructor.
  - rewrite <- Ec. zl.
  - exact (tk_bytes R).
  - exact (tk_limit R).
  - zl.
  - rewrite fmap_app. cbn [fmap list_fmap b_addr]. eapply owns_perm; [exact (owns_alloc a _ _ _ _ _ _ (tk_owns R) Ha)|].
    rewrite Permutation_swap. apply perm_skip. by rewrite Permutation_cons_append.
Qed.

(** One turn that ends a token. *)
Definition split_turn_ok c0 ts cur (k : Z -> Z -> char_array -> C -> outcome (option (Z * char_array) * C))
    (post : option (Z * char_array) -> C -> Prop) : Prop :=
  forall c cap result toks, tokens_rep c0 c cap result (ts ++ [cur]) toks ->
    exists r c', k cap (zlen (ts ++ [cur])) result c = Ret (r, c') /\ post r c'.

Lemma split_turn c0 c cap result ts toks pre cur rest k post :
  tokens_rep c0 c cap result ts toks -> zlen (pre ++ cur ++ rest) <= PTRDIFF_MAX ->
  split_turn_ok c0 ts cur k post ->
  (forall c', live c' = live c0 -> post None c') ->
  exists r c',
    (let! (r, c1) := ensure_slots cap (zlen ts) result a c in
     match r with
     | None => Ret (None, c1)
     | Some (cap, result) =>
         let tlen := u64 (zlen (pre ++ cur) - zlen pre) in
         match alloc_fn a (u64 (tlen + 1)) c1 with
         | (None, c2) => let! c3 := free_split_result_with_allocator result (zlen ts) a c2 in Ret (None, c3)
         | (Some tok, c2) =>
             let! tok := make_token (pre ++ cur ++ rest) (zlen pre) tlen tok in
             let! slots := aset (ca_slots result) (zlen ts) tok in
             k cap (u64 (zlen ts + 1)) (CharArray (ca_block result) slots) c2
         end
     end) = Ret (r, c') /\ post r c'.
Proof.
  intros R Hm Hk Hp. destruct (ensure_slots_spec _ _ _ _ _ _ R) as (r & c1 & -> & H). cbn [obind].
  destruct r as [[cap1 result1]|]; [|eexists None, c1; split; [done|by apply Hp]].
  destruct H as [R1 H2]. autorewrite with zlen in Hm.
  pose proof (zlen_nonneg cur). pose proof (zlen_nonneg rest). pose proof (zlen_nonneg pre). pose proof (zlen_nonneg ts).
  pose proof (tk_limit R1).
  replace (zlen (pre ++ cur) - zlen pre) with (zlen cur) by zl. cbv zeta.
  rewrite (u64_small (zlen cur)), (u64_small (zlen cur + 1)), (u64_small (zlen ts + 1)) by lia.
  destruct (alloc_fn a (zlen cur + 1) c1) as [[tok|] c2] eqn:Ea.
  - rewrite make_token_spec by (by apply alloc_some in Ea as (-> & _)). cbn [obind].
    destruct (tokens_push c0 c1 c2 cap1 result1 ts toks tok cur _ R1 H2 Ea) as (slots & -> & R2). cbn [obind].
    replace (zlen ts + 1) with (zlen (ts ++ [cur])) by zl. by eapply Hk.
  - destruct (free_split_spec c0 c1 c2 cap1 result1 ts toks R1) as (c3 & -> & Hl); [by eapply alloc_none|].
    cbn [obind]. eexists None, c3. split; [done|by apply Hp].
Qed.

(** What the loop returns: the tokens [ts], or NULL and nothing left allocated. *)
Definition split_post c0 ts (r : option (Z * char_array)) c' : Prop :=
  match r with
  | None => live c' = live c0
  | Some (idx, result) => idx = zlen ts /\ exists cap toks, tokens_rep c0 c' cap result ts toks
  end.

(** One turn of the loop. *)
Lemma split_loop_S n i s d len cap idx st res c1 :
  split_loop (S n) i s d len cap idx st res a c1 =
    let! is_delim := if decide (i < len) then let! x := aget s i in strchr d x else Ret false in
    if negb is_delim && bool_decide (i <> len) then split_loop n (u64 (i + 1)) s d len cap idx st res a c1
    else
      let! (r, c1) := ensure_slots cap idx res a c1 in
      match r with
      | None => Ret (None, c1)
      | Some (cap, res) =>
          let tlen := u64 (i - st) in
          match alloc_fn a (u64 (tlen + 1)) c1 with
          | (None, c2) => let! c3 := free_split_result_with_allocator res idx a c2 in Ret (None, c3)
          | (Some tok, c2) =>
              let! tok := make_token s st tlen tok in
              let! slots := aset (ca_slots res) idx tok in
              split_loop n (u64 (i + 1)) s d len cap (u64 (idx + 1)) (u64 (i + 1)) (CharArray (ca_block res) slots) a c2
          end
      end.
Proof. done. Qed.

Lemma split_loop_spec c0 dbuf ds tl rest : cstr dbuf ds -> chars_of rest -> forall pre cur c cap result ts toks,
  zlen (pre ++ cur ++ rest ++ NUL :: tl) <= PTRDIFF_MAX -> tokens_rep c0 c cap result ts toks ->
  exists r c', split_loop (S (length rest)) (zlen (pre ++ cur)) (pre ++ cur ++ rest ++ NUL :: tl) dbuf
      (zlen (pre ++ cur ++ rest)) cap (zlen ts) (zlen pre) result a c = Ret (r, c') /\
    split_post c0 (ts ++ fields_from ds cur rest) r c'.
Proof.
  intros Hd Hr. induction Hr as [|x rest Hx Hr IH]; intros pre cur c cap result ts toks Hm R.
  { cbn [split_loop length fields_from]. rewrite app_nil_r. rewrite decide_False by lia. cbn [obind negb].
    rewrite bool_decide_eq_false_2 by tauto. cbn [andb].
    destruct (split_turn c0 c cap result ts toks pre cur ([] ++ NUL :: tl)
      (fun _ idx res c1 => Ret (Some (idx, res), c1)) (split_post c0 (ts ++ [cur]))) as (r & c' & E & P);
      [done|done| |done|by exists r, c'].
    intros c1 cap1 result1 toks1 R1. eexists (Some (_, _)), c1. split; [done|]. split; [done|by exists cap1, toks1]. }
  cbn [length fields_from]. rewrite split_loop_S.
  autorewrite with zlen in Hm. pose proof (zlen_nonneg rest). pose proof (zlen_nonneg pre). pose proof (zlen_nonneg cur).
  pose proof (zlen_nonneg tl). rewrite decide_True by zl.
  rewrite (aget_split _ (pre ++ cur) x (rest ++ NUL :: tl)) by (done || by rewrite <- app_assoc).
  cbn [obind]. rewrite (strchr_spec dbuf ds x) by (done || lia). cbn [obind].
  rewrite (bool_decide_eq_true_2 (_ <> _)) by zl. rewrite andb_true_r.
  rewrite (u64_small (zlen (pre ++ cur) + 1)) by zl.
  destruct (decide (x ∈ ds)) as [Hin|Hin].
  - rewrite bool_decide_eq_true_2 by done. cbn [negb].
    edestruct (split_turn c0 c cap result ts toks pre cur ((x :: rest) ++ NUL :: tl)
      (fun cap idx res c1 => split_loop (S (length rest)) (zlen (pre ++ cur) + 1) (pre ++ cur ++ (x :: rest) ++ NUL :: tl) dbuf
         (zlen (pre ++ cur ++ x :: rest)) cap idx (zlen (pre ++ cur) + 1) res a c1)
      (split_post c0 (ts ++ cur :: fields_from ds [] rest))) as (r & c' & E & P); [done|zl| |done|by exists r, c'].
    intros c1 cap1 result1 toks1 R1.
    destruct (IH (pre ++ cur ++ [x]) [] c1 cap1 result1 (ts ++ [cur]) toks1) as (r & c' & E & P); [zl|done|].
    exists r, c'. rewrite <- app_assoc in P. split; [|exact P]. rewrite <- E. rewrite app_nil_r. f_equal.
    + zl.
    + by rewrite <- !app_assoc.
    + zl.
    + zl.
  - rewrite bool_decide_eq_false_2 by done. cbn [negb].
    destruct (IH pre (cur ++ [x]) c cap result ts toks) as (r & c' & E & P); [zl|done|].
    exists r, c'. split; [|exact P]. rewrite <- E. f_equal; [zl|by rewrite <- !app_assoc|zl].
Qed.

(** *** Joining *)

(** A part of the array shows the string [x]; NULL stands for the empty one. *)
Definition part_ok (p : option bytes) (x : bytes) : Prop :=
  match p with None => x = [] | Some b => cstr b x end.

Lemma join_total_spec parts0 xs : forall parts pre t, Forall2 part_ok parts xs -> parts0 = pre ++ parts ->
  zlen parts0 < two64 -> 0 <= t -> t + zlen (concat xs) < two64 ->
  join_total (length xs) (zlen pre) parts0 t = Ret (t + zlen (concat xs)).
Proof.
  induction xs as [|x xs IH]; intros parts pre t F E Hl Ht Hm.
  { change (concat []) with (@nil Z). cbn [join_total length]. f_equal. zl. }
  inversion F as [|p ? parts' ? Hp F']; subst. cbn [join_total length concat] in *.
  rewrite (aget_split _ pre p parts') by done. cbn [obind]. autorewrite with zlen in *.
  pose proof (zlen_nonneg pre). pose proof (zlen_nonneg parts'). pose proof (zlen_nonneg x). pose proof (zlen_nonneg (concat xs)).
  assert (match p with None => Ret t | Some p => let! l := strlen p in Ret (u64 (t + l)) end = Ret (t + zlen x)) as ->.
  { destruct p as [b|]; simpl in Hp; [|subst; f_equal; zl]. rewrite (strlen_cstr _ _ Hp). cbn [obind].
    by rewrite u64_small by lia. }
  cbn [obind]. rewrite u64_small by lia. replace (zlen pre + 1) with (zlen (pre ++ [p])) by zl.
  rewrite (IH parts' (pre ++ [p])); [f_equal; lia|done|by rewrite <- app_assoc|zl|lia|lia].
Qed.

(** Bytes stored behind those already there. *)
Lemma pwr_emit z out room d pos : pos = zlen out -> zlen d <= zlen room ->
  exists room', pwr (Some (Block z (out ++ room))) pos d = Ret (Some (Block z ((out ++ d) ++ room'))) /\
    zlen room' = zlen room - zlen d.
Proof.
  intros -> H. destruct (list_split_at room (zlen d)) as (r1 & r2 & -> & L); [pose proof (zlen_nonneg d); lia|].
  exists r2. split; [|zl]. cbn [pwr b_data b_addr]. rewrite (wr_app out r1 d r2) by done. cbn [obind].
  by rewrite <- app_assoc.
Qed.

Definition joined_tail (d : bytes) (xs : list bytes) : bytes := concat ((fun x => d ++ x) <$> xs).

Lemma joined_cons d x xs : joined d (x :: xs) = x ++ joined_tail d xs.
Proof.
  revert x. induction xs as [|y xs IH]; intros x; [by rewrite app_nil_r|].
  change (joined d (x :: y :: xs)) with (x ++ d ++ joined d (y :: xs)). rewrite IH.
  unfold joined_tail. cbn [fmap list_fmap concat]. by rewrite <- app_assoc.
Qed.

(** Storing one part. *)
Lemma part_emit p x z out room pos : part_ok p x -> pos = zlen out -> zlen x <= zlen room -> pos + zlen x < two64 ->
  exists room', zlen room' = zlen room - zlen x /\
    match p with
    | None => Ret (pos, Some (Block z (out ++ room)))
    | Some p =>
        let! plen := strlen p in
        let! d := rd p 0 plen in
        let! out := pwr (Some (Block z (out ++ room))) pos d in Ret (u64 (pos + plen), out)
    end = Ret (zlen (out ++ x), Some (Block z ((out ++ x) ++ room'))).
Proof.
  intros Hp -> Hr Hm. destruct p as [b|]; simpl in Hp.
  - rewrite (strlen_cstr _ _ Hp). cbn [obind]. destruct Hp as (rest & -> & _).
    pose proof (rd_app [] x (NUL :: rest) 0 (zlen x) eq_refl eq_refl) as Er. cbn [app] in Er. rewrite Er. cbn [obind].
    destruct (pwr_emit z out room x (zlen out) eq_refl Hr) as (room' & -> & L'). cbn [obind].
    pose proof (zlen_nonneg out). pose proof (zlen_nonneg x). rewrite u64_small by lia. exists room'. by rewrite zlen_app.
  - subst x. exists room. rewrite app_nil_r. change (zlen (@nil Z)) with 0. split; [lia|done].
Qed.

Lemma join_loop_spec dbuf d z parts0 xs : cstr dbuf d -> zlen parts0 < two64 -> forall parts pre out room,
  Forall2 part_ok parts xs -> parts0 = pre ++ parts -> 0 < zlen pre ->
  zlen (joined_tail d xs) <= zlen room -> zlen (out ++ room) < two64 ->
  exists room', zlen room' = zlen room - zlen (joined_tail d xs) /\
    join_loop (length xs) (zlen pre) parts0 dbuf (zlen d) (zlen out) (Some (Block z (out ++ room))) =
      Ret (zlen (out ++ joined_tail d xs), Some (Block z ((out ++ joined_tail d xs) ++ room'))).
Proof.
  intros Hd Hl. induction xs as [|x xs IH]; intros parts pre out room F E Hp Hr Hm.
  { exists room. change (joined_tail d []) with (@nil Z) in *. rewrite !app_nil_r. split; [zl|done]. }
  inversion F as [|p ? parts' ? Hpx F']; subst. cbn [join_loop length]. rewrite decide_True by done.
  assert (joined_tail d (x :: xs) = d ++ x ++ joined_tail d xs) as Ej
    by (unfold joined_tail; cbn [fmap list_fmap concat]; by rewrite <- app_assoc).
  rewrite Ej in *. autorewrite with zlen in *.
  pose proof (zlen_nonneg out). pose proof (zlen_nonneg d). pose proof (zlen_nonneg x).
  pose proof (zlen_nonneg (joined_tail d xs)). pose proof (zlen_nonneg parts'). pose proof (zlen_nonneg pre).
  destruct Hd as (rest & -> & Hd).
  pose proof (rd_app [] d (NUL :: rest) 0 (zlen d) eq_refl eq_refl) as Er. cbn [app] in Er. rewrite Er. cbn [obind].
  destruct (pwr_emit z out room d (zlen out) eq_refl ltac:(lia)) as (room1 & -> & L1). cbn [obind].
  rewrite u64_small by lia. rewrite (aget_split _ pre p parts') by done. cbn [obind].
  destruct (part_emit p x z (out ++ d) room1 (zlen out + zlen d) Hpx) as (room2 & L2 & ->); [zl|lia|lia|]. cbn [obind].
  rewrite u64_small by lia. replace (zlen pre + 1) with (zlen (pre ++ [p])) by zl.
  destruct (IH parts' (pre ++ [p]) ((out ++ d) ++ x) room2) as (room' & L' & E'); [done|by rewrite <- app_assoc|zl|lia|zl|].
  exists room'. split; [lia|]. rewrite E'. f_equal. f_equal; [zl|by rewrite <- !app_assoc].
Qed.

Lemma joined_length d xs : xs <> [] -> zlen (joined d xs) = zlen (concat xs) + zlen d * (zlen xs - 1).
Proof.
  destruct xs as [|x xs]; [done|]. intros _. rewrite joined_cons. cbn [concat]. autorewrite with zlen.
  assert (zlen (joined_tail d xs) = zlen (concat xs) + zlen d * zlen xs) as ->.
  { unfold joined_tail. induction xs as [|y xs IH]; [change (zlen (@nil bytes)) with 0; simpl; zl|].
    cbn [fmap list_fmap concat]. autorewrite with zlen. lia. }
  lia.
Qed.

Lemma join_impl_spec parts xs dbuf d c : Forall2 part_ok parts xs -> xs <> [] -> cstr dbuf d ->
  zlen parts < two64 -> zlen (joined d xs) + 1 < two64 ->
  join_impl (Some parts) (zlen xs) (Some dbuf) a c =
    Ret (match alloc_fn a (zlen (joined d xs) + 1) c with
         | (Some b, c1) => (Some (Block (b_addr b) (joined d xs ++ [NUL])), c1)
         | (None, c1) => (None, c1)
         end).
Proof.
  intros F D Hd Hl Hm. unfold join_impl. pose proof (zlen_pos xs D). rewrite decide_False by lia.
  rewrite (strlen_cstr _ _ Hd). cbn [obind].
  pose proof (joined_length d xs D) as Ej. pose proof (zlen_nonneg (concat xs)). pose proof (zlen_nonneg d).
  pose proof (join_total_spec parts xs parts [] 0 F eq_refl Hl) as Et. change (zlen (@nil (option bytes))) with 0 in Et.
  replace (Z.to_nat (zlen xs)) with (length xs) by (unfold zlen; lia). rewrite Et by nia. cbn [obind].
  rewrite (u64_small (zlen d * (zlen xs - 1))) by nia.
  replace (0 + zlen (concat xs) + zlen d * (zlen xs - 1)) with (zlen (joined d xs)) by lia.
  pose proof (zlen_nonneg (joined d xs)). rewrite (u64_small (zlen (joined d xs))), u64_small by lia. destruct (alloc_fn a (zlen (joined d xs) + 1) c) as [[[z data]|] c1] eqn:Ea; [|done].
  apply alloc_some in Ea as (Ld & _). cbn [b_data b_addr] in *. clear Et.
  destruct xs as [|x xs]; [done|]. inversion F as [|p ? parts' ? Hp F']; subst. cbn [join_loop length].
  rewrite decide_False by lia. cbn [obind]. rewrite (aget_split _ [] p parts') by done. cbn [obind].
  rewrite joined_cons, zlen_app in *. pose proof (zlen_nonneg x). pose proof (zlen_nonneg (joined_tail d xs)).
  destruct (part_emit p x z [] data 0 Hp eq_refl) as (room1 & L1 & E1); [lia|lia|]. cbn [app] in E1. rewrite E1. cbn [obind].
  rewrite u64_small by lia.
  destruct (join_loop_spec dbuf d z (p :: parts') xs Hd Hl parts' [p] x room1) as (room2 & L2 & E2);
    [done|done|zl|lia|zl|]. change (zlen [p]) with (0 + 1) in E2. rewrite E2. cbn [obind].
  destruct (room_cons room2) as (y & r & -> & Lr); [lia|]. rewrite zlen_cons in *.
  assert (r = []) as -> by (apply zlen_0; lia).
  rewrite pset_emit by done. cbn [obind]. by rewrite app_nil_r.
Qed.

(** *** Splitting and joining *)

Lemma joined_fields d s : forall cur, joined [d] (fields_from [d] cur s) = cur ++ s.
Proof.
  induction s as [|x s IH]; intros cur; cbn [fields_from]; [by rewrite app_nil_r|].
  destruct (decide (x ∈ [d])) as [->%list_elem_of_singleton|D].
  - specialize (IH []). destruct (fields_from [d] [] s) as [|y ys] eqn:E; [by destruct s; simpl in E; try case_decide|].
    change (joined [d] (cur :: y :: ys)) with (cur ++ [d] ++ joined [d] (y :: ys)). by rewrite IH.
  - rewrite IH. by rewrite <- app_assoc.
Qed.

Lemma fields_chars ds s : forall cur, chars_of cur -> chars_of s -> Forall chars_of (fields_from ds cur s).
Proof.
  induction s as [|x s IH]; intros cur Hc Hs; cbn [fields_from]; [by constructor|].
  inversion Hs; subst. case_decide; [constructor; [done|]; by apply IH|].
  apply IH; [|done]. apply Forall_app. split; [done|by constructor].
Qed.

Lemma fields_ne ds s : forall cur, fields_from ds cur s <> [].
Proof. induction s as [|x s IH]; intros cur; cbn [fields_from]; [done|]. case_decide; [done|apply IH]. Qed.

(** The strings of the array that the split built. *)
Lemma tokens_parts c0 c cap result ts toks : tokens_rep c0 c cap result ts toks -> Forall chars_of ts ->
  take (length ts) (ca_slots result) = Some <$> toks /\
  Forall2 part_ok (token_text <$> (Some <$> toks)) ts.
Proof.
  intros R Hc. destruct (tk_slots R) as [room E]. pose proof (Forall2_length _ _ _ (tk_texts R)) as L. split.
  - rewrite E, <- L, <- (length_fmap Some toks). by rewrite take_app_length.
  - clear E. destruct R as [_ F _ _ _ _ _]. induction F as [|b x toks ts Hb F IH]; [constructor|].
    inversion Hc; subst. simpl in L. cbn [fmap list_fmap]. constructor; [|apply IH; [done|lia]].
    simpl. exists []. by rewrite Hb.
Qed.

(** C33. [zenit_str_split] returns NULL with nothing left allocated, or the
    NULL-terminated array of the fields of its string between the characters of
    the delimiter string, empty ones included, each terminated in a block of its
    own, with their number in [out_count]; [zenit_str_split_free] releases exactly
    what was allocated; and for a single delimiter character [zenit_str_join] of
    the array gives the string back. *)
Theorem str_split_join buf s dbuf ds n0 c :
  cstr buf s -> cstr dbuf ds -> zlen buf <= PTRDIFF_MAX ->
  exists r cnt c1, zenit_str_split_with_allocator (Some buf) (Some dbuf) (Some n0) a c = Ret (r, cnt, c1) /\
  match r with
  | None => cnt = Some n0 /\ live c1 = live c
  | Some arr =>
      let n := length (fields ds s) in
      cnt = Some (zlen (fields ds s)) /\
      Forall2 part_ok (token_text <$> take n (ca_slots arr)) (fields ds s) /\ ca_slots arr !! n = Some None /\
      (exists c3, zenit_str_split_free arr (zlen (fields ds s)) a c1 = Ret c3 /\ live c3 = live c) /\
      (forall d c2, ds = [d] ->
         zenit_str_join_with_allocator (Some (token_text <$> take n (ca_slots arr))) (zlen (fields ds s)) (Some dbuf) a c2 =
           Ret (match alloc_fn a (zlen s + 1) c2 with
                | (Some b, c3) => (Some (Block (b_addr b) (s ++ [NUL])), c3)
                | (None, c3) => (None, c3)
                end))
  end.
Proof.
  intros (tl & -> & Hs) Hd Hm. unfold zenit_str_split_with_allocator, split_impl. rewrite strlen_app by done. cbn [obind].
  change (u64 (4 * SIZEOF_PTR)) with 32. destruct (alloc_fn a 32 c) as [[b|] c1] eqn:Ea.
  2:{ eexists None, _, _. split; [done|]. split; [done|]. by eapply alloc_none. }
  assert (tokens_rep c c1 4 (CharArray b (replicate (Z.to_nat 4) None)) [] []) as R0.
  { split; cbn [ca_slots ca_block]; try done; try lia.
    - by eexists.
    - by apply alloc_some in Ea as (-> & _).
    - exact (owns_alloc a _ _ _ _ _ _ (owns_refl a c) Ea). }
  destruct (split_loop_spec c dbuf ds tl s Hd Hs [] [] c1 4 _ [] [] Hm R0) as (r & c2 & E & P). cbn [app] in E, P.
  change (zlen (@nil Z)) with 0 in E. change (zlen (@nil bytes)) with 0 in E.
  replace (Z.to_nat (zlen s + 1)) with (S (length s)) by (unfold zlen; lia). rewrite E. cbn [obind].
  fold (fields ds s) in P. destruct r as [[idx result]|].
  2:{ by eexists None, _, _. }
  destruct P as [-> (cap & toks & R)]. pose proof (tk_room R) as Hr. pose proof (zlen_nonneg (fields ds s)).
  pose proof (tk_limit R). pose proof (tk_cap R) as Hcap.
  rewrite aset_range by lia. cbn [obind]. eexists (Some _), _, c2. split; [done|]. cbv zeta. cbn [ca_slots].
  assert (Z.to_nat (zlen (fields ds s)) = length (fields ds s)) as Ln by (unfold zlen; lia). rewrite Ln.
  destruct (tokens_parts _ _ _ _ _ _ R) as [Et Fp]; [by apply fields_chars; [constructor|]|].
  rewrite take_insert_ge, Et by lia. split_and!; [done|done| | |].
  - apply list_lookup_insert_eq. unfold zlen in *. lia.
  - assert (tokens_rep c c2 cap (CharArray (ca_block result) (<[length (fields ds s) := None]> (ca_slots result))) (fields ds s) toks) as R'.
    { destruct R as [[room Er] R2 R3 R4 R5 R6 R7]. split; cbn [ca_slots ca_block]; try done.
      - rewrite Er. pose proof (Forall2_length _ _ _ R2). rewrite insert_app_r_alt by (rewrite length_fmap; lia). by eexists.
      - by rewrite zlen_insert. }
    by eapply free_split_spec.
  - intros d c3 ->. unfold zenit_str_join_with_allocator.
    pose proof (joined_fields d s []) as Ej. fold (fields [d] s) in Ej. cbn [app] in Ej.
    autorewrite with zlen in Hm. pose proof (zlen_nonneg tl).
    rewrite (join_impl_spec _ (fields [d] s) dbuf [d]); [by rewrite Ej|done|apply fields_ne|done| |rewrite Ej; lia].
    rewrite <- Et. unfold zlen in *. rewrite length_fmap, length_take. lia.
Qed.
End StrTheorems.

(** ** Witnesses *)

Example str_split_example :
  match zenit_str_split (Some (lit "a,,bc,d,e,f" ++ [NUL])) (Some (lit "," ++ [NUL])) (Some 0) empty_heap with
  | Ret (Some arr, cnt, _) => (cnt, token_text <$> take 6 (ca_slots arr))
  | _ => (None, [])
  end = (Some 6, (fun x => Some (lit x ++ [NUL])) <$> ["a"; EmptyString; "bc"; "d"; "e"; "f"]%string).
Proof. vm_compute. reflexivity. Qed.

Lemma str_trim_correct_witness :
  exists t, trimmed (lit "  ab c ") t /\
    zenit_str_trim_with_allocator (Some (lit "  ab c " ++ [NUL])) ZENIT_ALLOCATOR_DEFAULT empty_heap =
      Ret (match alloc_fn ZENIT_ALLOCATOR_DEFAULT (zlen t + 1) empty_heap with
           | (Some b, c1) => (Some (Block (b_addr b) (t ++ [NUL])), c1)
           | (None, c1) => (None, c1)
           end).
Proof.
  refine (str_trim_correct ZENIT_ALLOCATOR_DEFAULT _ (lit "  ab c ") empty_heap _ _);
    [apply lit_cstr; reflexivity|vm_compute; discriminate].
Defined.

Lemma str_split_join_witness :
  exists r cnt c1, zenit_str_split_with_allocator (Some (lit "a,,bc" ++ [NUL])) (Some (lit "," ++ [NUL])) (Some 0)
      no_realloc_allocator empty_heap = Ret (r, cnt, c1) /\
  match r with
  | None => cnt = Some 0 /\ live c1 = live empty_heap
  | Some arr =>
      let n := length (fields (lit ",") (lit "a,,bc")) in
      cnt = Some (zlen (fields (lit ",") (lit "a,,bc"))) /\
      Forall2 part_ok (token_text <$> take n (ca_slots arr)) (fields (lit ",") (lit "a,,bc")) /\
      ca_slots arr !! n = Some None /\
      (exists c3, zenit_str_split_free arr (zlen (fields (lit ",") (lit "a,,bc"))) no_realloc_allocator c1 = Ret c3 /\
         live c3 = live empty_heap) /\
      (forall d c2, lit "," = [d] ->
         zenit_str_join_with_allocator (Some (token_text <$> take n (ca_slots arr)))
           (zlen (fields (lit ",") (lit "a,,bc"))) (Some (lit "," ++ [NUL])) no_realloc_allocator c2 =
           Ret (match alloc_fn no_realloc_allocator (zlen (lit "a,,bc") + 1) c2 with
                | (Some b, c3) => (Some (Block (b_addr b) (lit "a,,bc" ++ [NUL])), c3)
                | (None, c3) => (None, c3)
                end))
  end.
Proof.
  refine (str_split_join no_realloc_allocator _ (lit "a,,bc") _ (lit ",") 0 empty_heap _ _ _);
    [apply lit_cstr; reflexivity|apply lit_cstr; reflexivity|vm_compute; discriminate].
Defined.
