(* ===== verification/Arena.v ===== *)
(** * Arenas ([src/arena.c])

    An arena hands out runs of fixed-size blocks, tracked by a bitmap; inside a run
    a usable arena sub-allocates buffers with boundary tags and an explicit free
    list.  The arena's memory is an array of 64-bit words: headers, footers and
    buffers overlay it, a field is the word at its offset and an [int] field the
    low half of its word; an access that is not aligned or outside the memory is
    undefined.  A pointer into the memory is a byte offset from its start, stored as
    the number [base + offset], with [base] the address of the memory.  The handles
    of usable arenas live in a store, since a buffer header points to its owner. *)

From Stdlib Require Import ZArith Lia.
From stdpp Require Import base tactics option list numbers gmap sets.
From S2P Require Import Prelude Mem Result Allocator Words Links.
Open Scope Z_scope.

Definition BUF_FREE : Z := 0.
Definition BUF_IN_USE : Z := 1.
Definition ALIGNMENT : Z := 8.

(** [sizeof] of the buffer header and footer, and of the two handles. *)
Definition SIZEOF_HEADER : Z := 40.
Definition SIZEOF_FOOTER : Z := 16.
Definition SIZEOF_ARENA : Z := 80.
Definition SIZEOF_USABLE : Z := 48.

Definition MIN_SPLIT_TOTAL : Z := SIZEOF_HEADER + ALIGNMENT + SIZEOF_FOOTER.

Definition align_up (n : Z) : Z :=
  if decide (SIZE_MAX - (ALIGNMENT - 1) < n) then SIZE_MAX
  else Z.land (u64 (n + ALIGNMENT - 1)) (u64 (Z.lnot (ALIGNMENT - 1))).

Record zenit_arena_t (C : Type) : Type := mk_arena {
  ar_self : addr;
  ar_total_size : Z;
  ar_block_size : Z;
  ar_block_count : Z;
  ar_memory : option words;
  ar_bitmap : option block;
  ar_bitmap_size : Z;
  ar_allocator : zenit_allocator_t C }.
Arguments mk_arena {C}.
Arguments ar_self {C}.
Arguments ar_total_size {C}.
Arguments ar_block_size {C}.
Arguments ar_block_count {C}.
Arguments ar_memory {C}.
Arguments ar_bitmap {C}.
Arguments ar_bitmap_size {C}.
Arguments ar_allocator {C}.

Record zenit_usable_arena_t : Type := mk_usable {
  ua_block_offset : Z;
  ua_block_count : Z;
  ua_memory : Z;
  ua_size : Z;
  ua_free_list : option Z }.

Abbreviation usables := (gmap addr zenit_usable_arena_t).

Record zenit_usable_buffer_t : Type := mk_buffer { ub_data : option Z; ub_size : Z }.

Definition set_free_list (p : option Z) (ua : zenit_usable_arena_t) : zenit_usable_arena_t :=
  mk_usable (ua_block_offset ua) (ua_block_count ua) (ua_memory ua) (ua_size ua) p.

(** ** Fields in the memory *)

Definition ld (m : list Z) (off : Z) : outcome Z := if decide (off mod 8 = 0) then aget m (off / 8) else Undef.
Definition st (m : list Z) (off v : Z) : outcome (list Z) :=
  if decide (off mod 8 = 0) then aset m (off / 8) v else Undef.

(** An [int] field: the low half of its word. *)
Definition ld_int (m : list Z) (off : Z) : outcome Z := let! w := ld m off in Ret (w mod two32).
Definition st_int (m : list Z) (off v : Z) : outcome (list Z) :=
  let! w := ld m off in st m off (w / two32 * two32 + v).

Section ArenaModel.
Context (base : Z).

(** Pointers as words. *)
Definition enc (p : option Z) : Z := match p with None => 0 | Some off => base + off end.
Definition dec (w : Z) : option Z := if decide (w = 0) then None else Some (w - base).

Definition h_state (m : list Z) (h : Z) : outcome Z := ld_int m h.
Definition h_ua (m : list Z) (h : Z) : outcome Z := ld m (h + 8).
Definition h_size (m : list Z) (h : Z) : outcome Z := ld m (h + 16).
Definition h_next (m : list Z) (h : Z) : outcome (option Z) := let! w := ld m (h + 24) in Ret (dec w).
Definition h_prev (m : list Z) (h : Z) : outcome (option Z) := let! w := ld m (h + 32) in Ret (dec w).
Definition set_state (m : list Z) (h v : Z) : outcome (list Z) := st_int m h v.
Definition set_ua (m : list Z) (h : Z) (v : addr) : outcome (list Z) := st m (h + 8) (Zpos v).
Definition set_size (m : list Z) (h v : Z) : outcome (list Z) := st m (h + 16) v.
Definition set_next (m : list Z) (h : Z) (p : option Z) : outcome (list Z) := st m (h + 24) (enc p).
Definition set_prev (m : list Z) (h : Z) (p : option Z) : outcome (list Z) := st m (h + 32) (enc p).

Definition footer_sync (m : list Z) (h : Z) : outcome (list Z) :=
  let! size := h_size m h in
  let f := h + size - SIZEOF_FOOTER in
  let! m := st m f size in
  let! s := h_state m h in
  st_int m (f + 8) s.

(** ** The bitmap *)

Definition bitmap_set (bitmap : option block) (index : Z) (value : bool) : outcome (option block) :=
  let byte := index / 8 in
  let bit := index mod 8 in
  let! v := pget bitmap byte in
  pset bitmap byte
    (u8 (if value then Z.lor v (Z.shiftl 1 bit) else Z.land v (u32 (Z.lnot (Z.shiftl 1 bit))))).

Definition bitmap_get (bitmap : option block) (index : Z) : outcome Z :=
  let! v := pget bitmap (index / 8) in
  Ret (Z.land (Z.shiftr v (index mod 8)) 1).

(** The loop from [i] on, [n] blocks left. *)
Fixpoint find_run (n : nat) (bitmap : option block) (i needed run : Z) : outcome (option Z) :=
  match n with
  | O => Ret None
  | S n =>
      let! b := bitmap_get bitmap i in
      if decide (b = 0) then
        let run := u64 (run + 1) in
        if decide (run = needed) then Ret (Some (u64 (u64 (i - needed) + 1)))
        else find_run n bitmap (u64 (i + 1)) needed run
      else find_run n bitmap (u64 (i + 1)) needed 0
  end.

Definition bitmap_find_contiguous (bitmap : option block) (block_count needed : Z) : outcome (option Z) :=
  find_run (Z.to_nat block_count) bitmap 0 needed 0.

(** The blocks [i .. i + n) set to [value]. *)
Fixpoint mark_run (n : nat) (bitmap : option block) (i : Z) (value : bool) : outcome (option block) :=
  match n with
  | O => Ret bitmap
  | S n => let! bm := bitmap_set bitmap i value in mark_run n bm (u64 (i + 1)) value
  end.

(** ** The arena *)

Section WithAllocator.
Context {C : Type}.
Implicit Types (ar : zenit_arena_t C) (us : usables) (c : C) (a : zenit_allocator_t C).

Definition set_bitmap ar (bm : option block) : zenit_arena_t C :=
  mk_arena (ar_self ar) (ar_total_size ar) (ar_block_size ar) (ar_block_count ar) (ar_memory ar) bm
    (ar_bitmap_size ar) (ar_allocator ar).

Definition set_memory ar (m : list Z) : zenit_arena_t C :=
  mk_arena (ar_self ar) (ar_total_size ar) (ar_block_size ar) (ar_block_count ar)
    ((fun w => Words (w_addr w) m) <$> ar_memory ar) (ar_bitmap ar) (ar_bitmap_size ar) (ar_allocator ar).

Definition zenit_arena_create_with_allocator (total_size block_size : Z) a c
    : outcome (option (zenit_arena_t C) * C) :=
  if decide (total_size = 0 \/ block_size = 0) then Ret (None, c)
  else
    let! r := umod total_size block_size in
    if decide (r <> 0) then Ret (None, c)
    else
      match alloc_fn a SIZEOF_ARENA c with
      | (None, c1) => Ret (None, c1)
      | (Some h, c1) =>
          let block_count := total_size / block_size in
          let bitmap_size := u64 (block_count + 7) / 8 in
          let! (mem, c2) := zenit_allocator_alloc_zero a 1 total_size c1 in
          match mem with
          | None => Ret (None, free_fn a (Some (b_addr h)) c2)
          | Some mb =>
              let! (bm, c3) := zenit_allocator_alloc_zero a 1 bitmap_size c2 in
              match bm with
              | None => Ret (None, free_fn a (Some (b_addr h)) (free_fn a (Some (b_addr mb)) c3))
              | Some _ =>
                  Ret (Some (mk_arena (b_addr h) total_size block_size block_count
                               (Some (Words (b_addr mb) (replicate (Z.to_nat (zlen (b_data mb) / 8)) 0)))
                               bm bitmap_size a), c3)
              end
          end
      end.

Definition zenit_arena_destroy (arena : option (zenit_arena_t C)) c : C :=
  match arena with
  | None => c
  | Some ar =>
      let a := ar_allocator ar in
      free_fn a (Some (ar_self ar)) (free_fn a (waddr (ar_memory ar)) (free_fn a (paddr (ar_bitmap ar)) c))
  end.

(** The one free block that covers a new usable arena. *)
Definition init_region (m : list Z) (h : Z) (ua : addr) (size : Z) : outcome (list Z) :=
  let! m := set_state m h BUF_FREE in
  let! m := set_ua m h ua in
  let! m := set_size m h size in
  let! m := set_next m h None in
  let! m := set_prev m h None in
  footer_sync m h.

Definition zenit_arena_acquire (arena : option (zenit_arena_t C)) (size : Z) us c
    : outcome (option addr * option (zenit_arena_t C) * usables * C) :=
  match arena with
  | None => Ret (None, arena, us, c)
  | Some ar =>
      if decide (size = 0) then Ret (None, arena, us, c)
      else
        let! r := umod size (ar_block_size ar) in
        if decide (r <> 0) then Ret (None, arena, us, c)
        else
          let! needed := udiv size (ar_block_size ar) in
          let! found := bitmap_find_contiguous (ar_bitmap ar) (ar_block_count ar) needed in
          match found with
          | None => Ret (None, arena, us, c)
          | Some start =>
              let! bm := mark_run (Z.to_nat needed) (ar_bitmap ar) start true in
              match alloc_fn (ar_allocator ar) SIZEOF_USABLE c with
              | (None, c1) =>
                  let! bm := mark_run (Z.to_nat needed) bm start false in
                  Ret (None, Some (set_bitmap ar bm), us, c1)
              | (Some b, c1) =>
                  let h := u64 (start * ar_block_size ar) in
                  let! m := init_region (wdata (ar_memory ar)) h (b_addr b) size in
                  Ret (Some (b_addr b), Some (set_memory (set_bitmap ar bm) m),
                       <[b_addr b := mk_usable start needed h size (Some h)]> us, c1)
              end
          end
  end.

(** The walk over the blocks of a region; [None] when every one is free. *)
Fixpoint scan_region (fuel : nat) (m : list Z) (pos e : Z) : outcome (option zenit_error_t) :=
  if decide (pos < e) then
    match fuel with
    | O => NoFuel
    | S fuel =>
        let! s := h_state m pos in
        if decide (s = BUF_IN_USE) then Ret (Some ZENIT_ERROR_STATE)
        else
          let! n := h_size m pos in
          if decide (n = 0) then Ret (Some ZENIT_ERROR_CORRUPT)
          else scan_region fuel m (pos + n) e
    end
  else Ret None.

Definition zenit_arena_release (fuel : nat) (arena : option (zenit_arena_t C)) (ua : option addr) us c
    : outcome (zenit_error_t * option (zenit_arena_t C) * usables * C) :=
  match arena, ua with
  | Some ar, Some p =>
      let! u := sget us ua in
      let! r := scan_region fuel (wdata (ar_memory ar)) (ua_memory u) (ua_memory u + ua_size u) in
      match r with
      | Some e => Ret (e, arena, us, c)
      | None =>
          let! bm := mark_run (Z.to_nat (ua_block_count u)) (ar_bitmap ar) (ua_block_offset u) false in
          Ret (ZENIT_OK, Some (set_bitmap ar bm), delete p us, free_fn (ar_allocator ar) ua c)
      end
  | _, _ => Ret (ZENIT_ERROR_NULL, arena, us, c)
  end.
End WithAllocator.

(** ** Buffers *)

(** The leftover of a large block split off behind it. *)
Definition split_block (m : list Z) (ua : addr) (walk needed remainder : Z) : outcome (list Z) :=
  let! m := set_size m walk needed in
  let! m := footer_sync m walk in
  let split := walk + needed in
  let! m := set_state m split BUF_FREE in
  let! m := set_ua m split ua in
  let! m := set_size m split remainder in
  let! m := footer_sync m split in
  let! next := h_next m walk in
  let! m := set_next m split next in
  let! m := set_prev m split (Some walk) in
  let! m := match next with Some n => set_prev m n (Some split) | None => Ret m end in
  set_next m walk (Some split).

(** A block taken out of the free list. *)
Definition unlink_block (m : list Z) (h : Z) (head : option Z) : outcome (list Z * option Z) :=
  let! prev := h_prev m h in
  let! next := h_next m h in
  let! (m, head) :=
    match prev with
    | Some p => let! m := set_next m p next in Ret (m, head)
    | None => Ret (m, next)
    end in
  let! m := match next with Some n => set_prev m n prev | None => Ret m end in
  Ret (m, head).

Definition claim_block (m : list Z) (ua : addr) (u : zenit_usable_arena_t) (walk needed aligned : Z)
    : outcome (zenit_usable_buffer_t * list Z * zenit_usable_arena_t) :=
  let! size := h_size m walk in
  let remainder := u64 (size - needed) in
  let! m := if decide (MIN_SPLIT_TOTAL <= remainder) then split_block m ua walk needed remainder else Ret m in
  let! (m, head) := unlink_block m walk (ua_free_list u) in
  let! m := set_prev m walk None in
  let! m := set_next m walk None in
  let! m := set_state m walk BUF_IN_USE in
  let! m := footer_sync m walk in
  Ret (mk_buffer (Some (walk + SIZEOF_HEADER)) aligned, m, set_free_list head u).

(** The first block of the free list that is large enough. *)
Fixpoint find_block (fuel : nat) (m : list Z) (walk : option Z) (needed : Z) : outcome (option Z) :=
  match walk with
  | None => Ret None
  | Some h =>
      match fuel with
      | O => NoFuel
      | S fuel =>
          let! s := h_state m h in
          let! n := h_size m h in
          if decide (s = BUF_FREE /\ needed <= n) then Ret walk
          else let! next := h_next m h in find_block fuel m next needed
      end
  end.

Definition zenit_usable_arena_allocate (fuel : nat) (m : list Z) (ua : option addr) (size : Z) (us : usables)
    : outcome (zenit_usable_buffer_t * list Z * usables) :=
  let result := mk_buffer None 0 in
  match ua with
  | None => Ret (result, m, us)
  | Some p =>
      if decide (size = 0) then Ret (result, m, us)
      else
        let aligned := align_up size in
        if decide (aligned = SIZE_MAX) then Ret (result, m, us)
        else
          let needed := u64 (u64 (SIZEOF_HEADER + aligned) + SIZEOF_FOOTER) in
          let! u := sget us ua in
          let! walk := find_block fuel m (ua_free_list u) needed in
          match walk with
          | None => Ret (result, m, us)
          | Some h =>
              let! (buf, m, u) := claim_block m p u h needed aligned in
              Ret (buf, m, <[p := u]> us)
          end
  end.

(** [h] and the block after it made one. *)
Definition merge_next (m : list Z) (u : zenit_usable_arena_t) (h : Z) : outcome (list Z * zenit_usable_arena_t) :=
  let! n := h_size m h in
  let next := h + n in
  if decide (next < ua_memory u + ua_size u) then
    let! s := h_state m next in
    if decide (s = BUF_FREE) then
      let! n1 := h_size m next in
      let! n0 := h_size m h in
      let! m := set_size m h (u64 (n0 + n1)) in
      let! m := footer_sync m h in
      let! (m, head) := unlink_block m next (ua_free_list u) in
      Ret (m, set_free_list head u)
    else Ret (m, u)
  else Ret (m, u).

(** The block before [h] grown over it: where the block now starts. *)
Definition merge_prev (m : list Z) (u : zenit_usable_arena_t) (h : Z) : outcome (list Z * Z) :=
  if decide (ua_memory u < h) then
    let! fs := ld_int m (h - SIZEOF_FOOTER + 8) in
    if decide (fs = BUF_FREE) then
      let! fn := ld m (h - SIZEOF_FOOTER) in
      let prev := h - fn in
      let! s := h_state m prev in
      if decide (s = BUF_FREE) then
        let! n0 := h_size m prev in
        let! n1 := h_size m h in
        let! m := set_size m prev (u64 (n0 + n1)) in
        let! m := footer_sync m prev in
        Ret (m, prev)
      else Ret (m, h)
    else Ret (m, h)
  else Ret (m, h).

(** A block put in front of the free list. *)
Definition push_block (m : list Z) (u : zenit_usable_arena_t) (h : Z) : outcome (list Z * zenit_usable_arena_t) :=
  let! m := set_next m h (ua_free_list u) in
  let! m := set_prev m h None in
  let! m := match ua_free_list u with Some x => set_prev m x (Some h) | None => Ret m end in
  Ret (m, set_free_list (Some h) u).

Definition zenit_usable_buffer_free (m : list Z) (buf : option zenit_usable_buffer_t) (us : usables)
    : outcome (zenit_error_t * list Z * usables) :=
  match buf with
  | None => Ret (ZENIT_ERROR_NULL, m, us)
  | Some b =>
      match ub_data b with
      | None => Ret (ZENIT_ERROR_NULL, m, us)
      | Some d =>
          let h := d - SIZEOF_HEADER in
          let! s := h_state m h in
          if decide (s <> BUF_IN_USE) then Ret (ZENIT_ERROR_DOUBLE_FREE, m, us)
          else
            let! m := set_state m h BUF_FREE in
            let! m := footer_sync m h in
            let! w := h_ua m h in
            let p := Z.to_pos w in
            let! u := sget us (Some p) in
            let! (m, u) := merge_next m u h in
            let! (m, h) := merge_prev m u h in
            let! (m, u) := push_block m u h in
            Ret (ZENIT_OK, m, <[p := u]> us)
      end
  end.

Definition zenit_usable_buffer_data (buf : option zenit_usable_buffer_t) : option Z :=
  match buf with None => None | Some b => ub_data b end.
Definition zenit_usable_buffer_size (buf : option zenit_usable_buffer_t) : Z :=
  match buf with None => 0 | Some b => ub_size b end.
End ArenaModel.

Definition zenit_arena_create (total_size block_size : Z) (h : heap) : outcome (option (zenit_arena_t heap) * heap) :=
  zenit_arena_create_with_allocator total_size block_size ZENIT_ALLOCATOR_DEFAULT h.
