(* ===== verification/ArenaBuffers.v ===== *)
(** * Buffers of a usable arena

    What the allocator of [Arena] does inside one region: the region is a sequence
    of blocks, its free list threads the free ones, and every call is a function of
    the two ([spec_step]).  [arena_run_spec] shows that the calls on the memory
    return what the specification says and change nothing outside the region. *)

From Stdlib Require Import ZArith Lia.
From stdpp Require Import base tactics option list numbers gmap sets.
From S2P Require Import Prelude Mem Result Allocator Words Links Machine Arena.
Open Scope Z_scope.

Lemma align_up_spec n : 0 <= n <= SIZE_MAX - 7 -> align_up n = 8 * ((n + 7) / 8).
Proof.
  intros Hn. unfold align_up, ALIGNMENT. rewrite decide_False by lia. rewrite u64_small by lia.
  replace (n + 8 - 1) with (n + 7) by lia. change (u64 (Z.lnot (8 - 1))) with (Z.land (Z.lnot 7) (Z.ones 64)).
  rewrite (Z.land_comm (Z.lnot 7)), Z.land_assoc, Z.land_ones, Z.mod_small by lia.
  change (Z.lnot 7) with (Z.lnot (Z.ones 3)). rewrite <- Z.ldiff_land, Z.ldiff_ones_r by lia.
  rewrite Z.shiftl_mul_pow2, Z.shiftr_div_pow2 by lia. change (2 ^ 3) with 8. lia.
Qed.

(** ** Words of the memory *)

Definition W (m : list Z) (i : Z) : Z := default 0 (m !! Z.to_nat i).
Definition upd (m : list Z) (i v : Z) : list Z := <[Z.to_nat i := v]> m.

Lemma zlen_upd m i v : zlen (upd m i v) = zlen m.
Proof. apply zlen_insert. Qed.

Lemma W_upd m i v j : 0 <= i < zlen m -> 0 <= j -> W (upd m i v) j = if decide (i = j) then v else W m j.
Proof.
  intros Hi Hj. unfold W, upd. destruct (decide (i = j)) as [->|D].
  - rewrite list_lookup_insert_eq; [done|]. unfold zlen in Hi. lia.
  - rewrite list_lookup_insert_ne by lia. done.
Qed.

Lemma word_off o i : o = 8 * i -> o mod 8 = 0 /\ o / 8 = i.
Proof. intros ->. rewrite Z.mul_comm, Z.mod_mul, Z.div_mul by lia. done. Qed.

Lemma ld_word m o i : o = 8 * i -> 0 <= i < zlen m -> ld m o = Ret (W m i).
Proof.
  intros E Hi. destruct (word_off o i E) as [E1 E2]. unfold ld. rewrite decide_True, E2 by done.
  destruct (aget_range m i Hi) as (x & Ex & ->). unfold W. by rewrite Ex.
Qed.

Lemma st_word m o i v : o = 8 * i -> 0 <= i < zlen m -> st m o v = Ret (upd m i v).
Proof.
  intros E Hi. destruct (word_off o i E) as [E1 E2]. unfold st. rewrite decide_True, E2 by done. by rewrite aset_range.
Qed.

(** The low half replaced. *)
Definition low (w v : Z) : Z := w / two32 * two32 + v.

Lemma low_mod w v : 0 <= v < two32 -> low w v mod two32 = v.
Proof. intros Hv. unfold low. rewrite Z.add_comm, Z.mod_add by lia. by apply Z.mod_small. Qed.

Lemma ld_int_word m o i : o = 8 * i -> 0 <= i < zlen m -> ld_int m o = Ret (W m i mod two32).
Proof. intros E Hi. unfold ld_int. by rewrite (ld_word m o i). Qed.

Lemma st_int_word m o i v : o = 8 * i -> 0 <= i < zlen m -> st_int m o v = Ret (upd m i (low (W m i) v)).
Proof. intros E Hi. unfold st_int. rewrite (ld_word m o i) by done. cbn [obind]. by apply st_word. Qed.

(** Evaluate the words of an updated memory. *)
Ltac words :=
  repeat (rewrite W_upd by (rewrite ?zlen_upd; lia));
  repeat match goal with |- context [decide (?a = ?b)] =>
    first [rewrite (decide_True (P := a = b)) by lia | rewrite (decide_False (P := a = b)) by lia] end.

(** ** Regions

    A region starts at word [k] and is cut into blocks; a block has [n] words, five
    of header, two of footer and [n - 7] of contents. *)

(** A block in use carries the words its owner has written. *)
Inductive bstate : Type := Free | Used (d : list (option Z)).

Definition code (s : bstate) : Z := match s with Free => BUF_FREE | Used _ => BUF_IN_USE end.

Definition contents (m : list Z) (k n : Z) (s : bstate) : Prop :=
  match s with
  | Free => True
  | Used d => zlen d = n - 7 /\ forall i x, d !! i = Some (Some x) -> W m (k + 5 + Z.of_nat i) = x
  end.

Record block_at (m : list Z) (p : addr) (k n : Z) (s : bstate) : Prop := {
  bk_size : 8 <= n;
  bk_state : W m k mod two32 = code s;
  bk_ua : W m (k + 1) = Zpos p;
  bk_head : W m (k + 2) = 8 * n;
  bk_foot : W m (k + n - 2) = 8 * n;
  bk_fstate : W m (k + n - 1) mod two32 = code s;
  bk_data : contents m k n s }.
Arguments bk_size {m p k n s}.
Arguments bk_state {m p k n s}.
Arguments bk_ua {m p k n s}.
Arguments bk_head {m p k n s}.
Arguments bk_foot {m p k n s}.
Arguments bk_fstate {m p k n s}.
Arguments bk_data {m p k n s}.

Abbreviation layout := (list (Z * bstate)).

Fixpoint total (bs : layout) : Z := match bs with [] => 0 | (n, _) :: bs => n + total bs end.

Fixpoint laid (m : list Z) (p : addr) (k : Z) (bs : layout) : Prop :=
  match bs with
  | [] => True
  | (n, s) :: bs => block_at m p k n s /\ laid m p (k + n) bs
  end.

(** Where the blocks start, and where the free ones do. *)
Fixpoint starts (k : Z) (bs : layout) : list Z :=
  match bs with [] => [] | (n, _) :: bs => k :: starts (k + n) bs end.

Fixpoint frees (k : Z) (bs : layout) : list Z :=
  match bs with
  | [] => []
  | (n, Free) :: bs => k :: frees (k + n) bs
  | (n, Used _) :: bs => frees (k + n) bs
  end.

Lemma total_app b1 b2 : total (b1 ++ b2) = total b1 + total b2.
Proof. induction b1 as [|[n s] b1 IH]; simpl; [lia|]. rewrite IH. lia. Qed.

Lemma laid_app m p k b1 b2 : laid m p k (b1 ++ b2) <-> laid m p k b1 /\ laid m p (k + total b1) b2.
Proof.
  revert k. induction b1 as [|[n s] b1 IH]; intros k; cbn [laid total app].
  - rewrite Z.add_0_r. tauto.
  - rewrite IH. replace (k + n + total b1) with (k + (n + total b1)) by lia. tauto.
Qed.

Lemma starts_app k b1 b2 : starts k (b1 ++ b2) = starts k b1 ++ starts (k + total b1) b2.
Proof.
  revert k. induction b1 as [|[n s] b1 IH]; intros k; simpl; [by rewrite Z.add_0_r|].
  rewrite IH. do 3 f_equal. lia.
Qed.

Lemma frees_app k b1 b2 : frees k (b1 ++ b2) = frees k b1 ++ frees (k + total b1) b2.
Proof.
  revert k. induction b1 as [|[n s] b1 IH]; intros k; simpl; [by rewrite Z.add_0_r|].
  destruct s; rewrite IH; simpl; do 2 f_equal; try lia; f_equal; lia.
Qed.

Lemma laid_total m p k bs : laid m p k bs -> 0 <= total bs.
Proof. revert k. induction bs as [|[n s] bs IH]; intros k; simpl; [lia|]. intros [B L%IH]. pose proof (bk_size B). lia. Qed.

(** The words of a block stay inside it. *)
Lemma starts_range m p k bs x : laid m p k bs -> x ∈ starts k bs -> k <= x /\ x + 8 <= k + total bs.
Proof.
  revert k. induction bs as [|[n s] bs IH]; intros k; simpl; [by intros _ ?%not_elem_of_nil|].
  intros [B L] [->|H]%elem_of_cons; pose proof (bk_size B); pose proof (laid_total _ _ _ _ L); [lia|].
  apply IH in H; [lia|done].
Qed.

Lemma frees_starts k bs x : x ∈ frees k bs -> x ∈ starts k bs.
Proof.
  revert k. induction bs as [|[n s] bs IH]; intros k; simpl; [done|]. destruct s; rewrite ?elem_of_cons; naive_solver.
Qed.

Lemma NoDup_frees m p k bs : laid m p k bs -> NoDup (frees k bs).
Proof.
  revert k. induction bs as [|[n s] bs IH]; intros k; simpl; [constructor|]. intros [B L].
  destruct s; [|by apply IH]. constructor; [|by apply IH]. intros H%frees_starts.
  pose proof (starts_range _ _ _ _ _ L H). pose proof (bk_size B). lia.
Qed.

(** A free block of the layout. *)
Lemma frees_split k bs x : x ∈ frees k bs -> exists b1 n b2, bs = b1 ++ (n, Free) :: b2 /\ x = k + total b1.
Proof.
  revert k. induction bs as [|[n s] bs IH]; intros k; simpl; [by intros ?%not_elem_of_nil|].
  assert (x ∈ frees (k + n) bs -> exists b1 n0 b2, (n, s) :: bs = b1 ++ (n0, Free) :: b2 /\ x = k + total b1) as H.
  { intros (b1 & n0 & b2 & -> & ->)%IH. exists ((n, s) :: b1), n0, b2. split; [done|simpl; lia]. }
  destruct s; [|done]. intros [->|Hx]%elem_of_cons; [|by apply H]. exists [], n, bs. split; [done|simpl; lia].
Qed.

(** *** Frames *)

Lemma block_ext m m' p k n s : 0 <= k -> (forall j, k <= j < k + n -> j <> k + 3 -> j <> k + 4 -> W m' j = W m j) ->
  block_at m p k n s -> block_at m' p k n s.
Proof.
  intros Hk H [B1 B2 B3 B4 B5 B6 B7]. split; [done|rewrite H by lia; done..|].
  destruct s as [|d]; [done|]. destruct B7 as [L B7]. split; [done|]. intros i x Hi.
  pose proof (lookup_lt_Some _ _ _ Hi). unfold zlen in L. rewrite H by lia. by apply B7.
Qed.

(** Only link words of blocks changed. *)
Lemma laid_links m m' p k bs : 0 <= k ->
  (forall j, k <= j < k + total bs -> (forall x, x ∈ starts k bs -> j <> x + 3 /\ j <> x + 4) -> W m' j = W m j) ->
  laid m p k bs -> laid m' p k bs.
Proof.
  revert k. induction bs as [|[n s] bs IH]; intros k Hk H HL; cbn [laid] in *; [done|]. destruct HL as [B L].
  pose proof (bk_size B). pose proof (laid_total _ _ _ _ L). cbn [total starts] in H. split.
  - eapply block_ext; [done| |exact B]. intros j J1 J2 J3. apply H; [lia|]. intros x [->|Hx]%elem_of_cons; [lia|].
    pose proof (starts_range _ _ _ _ _ L Hx). lia.
  - apply IH; [lia| |done]. intros j Hj Hx. apply H; [lia|]. intros x [->|Hx']%elem_of_cons; [lia|by apply Hx].
Qed.

Lemma laid_ext m m' p k bs : 0 <= k -> (forall j, k <= j < k + total bs -> W m' j = W m j) ->
  laid m p k bs -> laid m' p k bs.
Proof. intros Hk H. apply laid_links; [done|]. auto. Qed.

(** ** The free list *)

(** A word written through a pointer that may be NULL. *)
Definition updo (m : list Z) (o : option Z) (d v : Z) : list Z :=
  match o with Some p => upd m (p + d) v | None => m end.

Lemma zlen_updo m o d v : zlen (updo m o d v) = zlen m.
Proof. destruct o; [apply zlen_upd|done]. Qed.

Lemma W_updo m o d v j : (forall p, o = Some p -> 0 <= p + d < zlen m) -> 0 <= j ->
  W (updo m o d v) j = if decide (o = Some (j - d)) then v else W m j.
Proof.
  intros Ho Hj. destruct o as [p|]; [|done]. simpl. rewrite W_upd by eauto.
  destruct (decide (p + d = j)) as [<-|D].
  - rewrite decide_True; [done|]. f_equal. lia.
  - rewrite decide_False; [done|]. intros [= ->]. lia.
Qed.

(** Positions at least a header apart. *)
Definition spaced (L : list Z) : Prop :=
  forall x y, x ∈ L -> y ∈ L -> x = y \/ x + 8 <= y \/ y + 8 <= x.

Definition inside (m : list Z) (L : list Z) : Prop := forall x, x ∈ L -> 0 <= x /\ x + 8 <= zlen m.

Section FreeList.
Context (base : Z) (Hb : 0 < base).

(** Pointers to words. *)
Definition ptr (q : option Z) : option Z := Z.mul 8 <$> q.
Definition wdec (w : Z) : option (option Z) :=
  if decide (w = 0) then Some None
  else if decide ((w - base) mod 8 = 0) then Some (Some ((w - base) / 8)) else None.

Definition nx (m : list Z) (x : Z) : option (option Z) := wdec (W m (x + 3)).
Definition pv (m : list Z) (x : Z) : option (option Z) := wdec (W m (x + 4)).

Definition chain (m : list Z) (fl : list Z) : Prop := trail (nx m) fl None /\ trail (pv m) (reverse fl) None.

Lemma wdec_enc q : (forall x, q = Some x -> 0 <= x) -> wdec (enc base (ptr q)) = Some q.
Proof using Hb.
  intros H. destruct q as [x|]; [|done]. specialize (H x eq_refl). unfold wdec. simpl.
  rewrite decide_False by lia. replace (base + 8 * x - base) with (x * 8) by lia.
  rewrite Z.mod_mul, Z.div_mul by lia. by rewrite decide_True.
Qed.

Lemma dec_wdec w q : wdec w = Some q -> dec base w = ptr q.
Proof.
  unfold wdec, dec. case_decide; [by intros [= <-]|]. case_decide as D; [|done]. intros [= <-]. simpl. f_equal.
  pose proof (Z.div_mod (w - base) 8 ltac:(lia)). lia.
Qed.

Lemma next_word m x q : 0 <= x -> x + 8 <= zlen m -> nx m x = Some q -> h_next base m (8 * x) = Ret (ptr q).
Proof.
  intros H1 H2 E. unfold h_next. rewrite (ld_word m _ (x + 3)) by lia. cbn [obind]. by rewrite (dec_wdec _ q).
Qed.

Lemma prev_word m x q : 0 <= x -> x + 8 <= zlen m -> pv m x = Some q -> h_prev base m (8 * x) = Ret (ptr q).
Proof.
  intros H1 H2 E. unfold h_prev. rewrite (ld_word m _ (x + 4)) by lia. cbn [obind]. by rewrite (dec_wdec _ q).
Qed.

Lemma set_next_word m x p : 0 <= x -> x + 8 <= zlen m -> set_next base m (8 * x) p = Ret (upd m (x + 3) (enc base p)).
Proof. intros. unfold set_next. apply st_word; lia. Qed.

Lemma set_prev_word m x p : 0 <= x -> x + 8 <= zlen m -> set_prev base m (8 * x) p = Ret (upd m (x + 4) (enc base p)).
Proof. intros. unfold set_prev. apply st_word; lia. Qed.

(** Links of a memory with two words changed. *)
Lemma links_updo m (o1 o2 : option Z) v1 v2 x L : spaced L -> inside m L -> x ∈ L ->
  (forall p, o1 = Some p -> p ∈ L) -> (forall p, o2 = Some p -> p ∈ L) ->
  nx (updo (updo m o1 3 v1) o2 4 v2) x = (if decide (o1 = Some x) then wdec v1 else nx m x) /\
  pv (updo (updo m o1 3 v1) o2 4 v2) x = (if decide (o2 = Some x) then wdec v2 else pv m x).
Proof.
  intros Sp In Hx H1 H2. pose proof (In x Hx).
  assert (forall p, o1 = Some p -> 0 <= p + 3 < zlen m) as R1 by (intros p Hp; pose proof (In p (H1 p Hp)); lia).
  assert (forall p, o2 = Some p -> 0 <= p + 4 < zlen (updo m o1 3 v1)) as R2
    by (intros p Hp; rewrite zlen_updo; pose proof (In p (H2 p Hp)); lia).
  unfold nx, pv. rewrite !W_updo by (done || lia).
  replace (x + 3 - 3) with x by lia. replace (x + 4 - 4) with x by lia.
  split; [rewrite (decide_False (P := o2 = _))|rewrite (decide_False (P := o1 = _))]; try by case_decide.
  - intros E. destruct (Sp (x + 3 - 4) x (H2 _ E) Hx); lia.
  - intros E. destruct (Sp (x + 4 - 3) x (H1 _ E) Hx); lia.
Qed.

Lemma chain_links m fl : chain m fl -> forall l1 x l2, fl = l1 ++ x :: l2 ->
  nx m x = Some (head l2) /\ pv m x = Some (last l1).
Proof.
  intros [C1 C2] l1 x l2 ->. split.
  - rewrite <- hd_or_None. by eapply trail_lookup.
  - rewrite reverse_app, reverse_cons, <- app_assoc in C2. apply trail_lookup in C2.
    by rewrite hd_or_None, head_reverse in C2.
Qed.

Lemma chain_ext m m' fl : (forall x, x ∈ fl -> W m' (x + 3) = W m (x + 3) /\ W m' (x + 4) = W m (x + 4)) ->
  chain m fl -> chain m' fl.
Proof.
  intros H [C1 C2]. split.
  - eapply trail_ext; [|exact C1]. intros x Hx. unfold nx. by destruct (H x Hx) as [-> _].
  - eapply trail_ext; [|exact C2]. intros x Hx. rewrite elem_of_reverse in Hx. unfold pv. by destruct (H x Hx) as [_ ->].
Qed.

(** Words other than links of [L] are kept. *)
Definition only_links (L : list Z) (m m' : list Z) : Prop :=
  zlen m' = zlen m /\ forall j, 0 <= j -> (forall x, x ∈ L -> j <> x + 3 /\ j <> x + 4) -> W m' j = W m j.

Lemma only_links_trans L m1 m2 m3 : only_links L m1 m2 -> only_links L m2 m3 -> only_links L m1 m3.
Proof. intros [L1 H1] [L2 H2]. split; [congruence|]. intros j Hj Hx. rewrite H2, H1; auto. Qed.

Lemma only_links_upd L m x d v : x ∈ L -> inside m L -> d = 3 \/ d = 4 -> only_links L m (upd m (x + d) v).
Proof.
  intros Hx In Hd. pose proof (In x Hx). split; [apply zlen_upd|]. intros j Hj Hl. rewrite W_upd by lia.
  rewrite decide_False; [done|]. destruct (Hl x Hx). lia.
Qed.

Lemma only_links_updo L m o d v : (forall x, o = Some x -> x ∈ L) -> inside m L -> d = 3 \/ d = 4 ->
  only_links L m (updo m o d v).
Proof. intros Ho In Hd. destruct o as [x|]; [by apply only_links_upd; auto|]. by split. Qed.

Lemma inside_len m m' L : zlen m' = zlen m -> inside m L -> inside m' L.
Proof. intros E H x Hx. rewrite E. by apply H. Qed.

Lemma unlink_block_spec m l1 x l2 :
  chain m (l1 ++ x :: l2) -> NoDup (l1 ++ x :: l2) -> spaced (l1 ++ x :: l2) -> inside m (l1 ++ x :: l2) ->
  exists m', unlink_block base m (8 * x) (ptr (head (l1 ++ x :: l2))) = Ret (m', ptr (head (l1 ++ l2))) /\
    chain m' (l1 ++ l2) /\ only_links (l1 ++ l2) m m'.
Proof using Hb.
  intros Ch ND Sp In. destruct (chain_links _ _ Ch l1 x l2 eq_refl) as [Nx Pv].
  assert (x ∈ l1 ++ x :: l2) as Hx by set_solver. pose proof (In x Hx).
  assert (forall p, last l1 = Some p -> p ∈ l1 ++ x :: l2) as H1 by (intros p ?%last_Some_elem_of; set_solver).
  assert (forall p, head l2 = Some p -> p ∈ l1 ++ x :: l2) as H2 by (intros p ?%head_Some_elem_of; set_solver).
  set (m' := updo (updo m (last l1) 3 (enc base (ptr (head l2)))) (head l2) 4 (enc base (ptr (last l1)))).
  exists m'. split.
  { unfold unlink_block. rewrite (prev_word m x (last l1)) by (lia || done). cbn [obind].
    rewrite (next_word m x (head l2)) by (lia || done). cbn [obind]. unfold m'.
    assert (forall mm, zlen mm = zlen m ->
      match ptr (head l2) with Some n => set_prev base mm n (ptr (last l1)) | None => Ret mm end =
      Ret (updo mm (head l2) 4 (enc base (ptr (last l1))))) as Hn.
    { intros mm Lm. destruct (head l2) as [n|] eqn:E; [|done]. cbn [ptr fmap option_fmap option_map].
      pose proof (In n (H2 n eq_refl)). by rewrite set_prev_word by lia. }
    destruct (last l1) as [p|] eqn:E.
    - cbn [ptr fmap option_fmap option_map] in *. pose proof (In p (H1 p eq_refl)).
      rewrite set_next_word by lia. cbn [obind updo]. rewrite Hn by apply zlen_upd. cbn [obind].
      destruct l1; [done|]. done.
    - apply last_None in E as ->. cbn [obind ptr fmap option_fmap option_map updo] in *. by rewrite Hn. }
  split.
  - assert (forall q, q ∈ l1 ++ l2 -> q ∈ l1 ++ x :: l2) as Hin by set_solver.
    assert (NoDup (l1 ++ l2)) as ND' by (rewrite <- Permutation_middle in ND; by apply NoDup_cons in ND as [_ ?]).
    destruct Ch as [C1 C2].
    assert (forall q, head l2 = Some q -> 0 <= q) as E1 by (intros q Hq; pose proof (In q (H2 q Hq)); lia).
    assert (forall q, last l1 = Some q -> 0 <= q) as E2 by (intros q Hq; pose proof (In q (H1 q Hq)); lia).
    split.
    + eapply trail_delete; [exact ND'|exact C1| |].
      * intros q Hq Hl. unfold m'. rewrite (proj1 (links_updo m _ _ _ _ q _ Sp In (Hin q Hq) H1 H2)). by rewrite decide_False.
      * intros q Hl. unfold m'. rewrite (proj1 (links_updo m _ _ _ _ q _ Sp In (H1 q Hl) H1 H2)), decide_True by done.
        rewrite wdec_enc by done. by rewrite hd_or_None.
    + rewrite reverse_app, reverse_cons, <- app_assoc in C2. rewrite reverse_app.
      eapply trail_delete; [rewrite <- reverse_app; by apply NoDup_reversed|exact C2| |].
      * intros q Hq. rewrite last_reverse. intros Hl. rewrite <- reverse_app, elem_of_reverse in Hq.
        unfold m'. rewrite (proj2 (links_updo m _ _ _ _ q _ Sp In (Hin q Hq) H1 H2)). by rewrite decide_False.
      * intros q. rewrite last_reverse. intros Hl. unfold m'.
        rewrite (proj2 (links_updo m _ _ _ _ q _ Sp In (H2 q Hl) H1 H2)), decide_True by done.
        rewrite wdec_enc by done. by rewrite hd_or_None, head_reverse.
  - assert (inside m (l1 ++ l2)) as In' by (intros q Hq; apply In; set_solver).
    apply (only_links_trans _ m (updo m (last l1) 3 (enc base (ptr (head l2))))).
    + apply only_links_updo; [|done|by left]. intros p ?%last_Some_elem_of. set_solver.
    + apply only_links_updo; [|eapply inside_len; [apply zlen_updo|done]|by right].
      intros p ?%head_Some_elem_of. set_solver.
Qed.

(** A block put in front. *)
Lemma push_block_spec m u x fl : ua_free_list u = ptr (head fl) ->
  chain m fl -> NoDup (x :: fl) -> spaced (x :: fl) -> inside m (x :: fl) ->
  exists m', push_block base m u (8 * x) = Ret (m', set_free_list (ptr (Some x)) u) /\
    chain m' (x :: fl) /\ only_links (x :: fl) m m'.
Proof using Hb.
  intros Eu Ch ND Sp In. assert (x ∈ x :: fl) as Hx by set_solver. pose proof (In x Hx).
  assert (forall p, head fl = Some p -> p ∈ x :: fl) as H2 by (intros p ?%head_Some_elem_of; set_solver).
  assert (forall p, head fl = Some p -> p <> x) as Hne.
  { intros p Hp ->. apply NoDup_cons in ND as [ND _]. by apply ND, head_Some_elem_of. }
  set (m1 := upd (upd m (x + 3) (enc base (ptr (head fl)))) (x + 4) (enc base None)).
  set (m' := updo m1 (head fl) 4 (enc base (ptr (Some x)))).
  assert (only_links (x :: fl) m m1) as O1.
  { apply (only_links_trans _ m (upd m (x + 3) (enc base (ptr (head fl))))).
    - apply only_links_upd; [done|done|by left].
    - apply only_links_upd; [done| |by right]. eapply inside_len; [apply zlen_upd|done]. }
  assert (zlen m1 = zlen m) as L1 by apply O1.
  exists m'. split.
  { unfold push_block. rewrite Eu, set_next_word by lia. cbn [obind]. rewrite set_prev_word by (rewrite ?zlen_upd; lia).
    cbn [obind]. fold m1. unfold m'. destruct (head fl) as [y|] eqn:E; [|done].
    cbn [ptr fmap option_fmap option_map]. pose proof (In y (H2 y eq_refl)). by rewrite set_prev_word by lia. }
  assert (only_links (x :: fl) m m') as O2.
  { apply (only_links_trans _ m m1); [done|]. apply only_links_updo; [done| |by right]. by eapply inside_len. }
  split; [|done].
  assert (forall q, q ∈ x :: fl -> nx m' q = if decide (q = x) then Some (head fl) else nx m q) as Hnx.
  { intros q Hq. unfold m', nx. pose proof (In q Hq).
    rewrite W_updo by (lia || intros p Hp; pose proof (In p (H2 p Hp)); lia).
    rewrite (decide_False (P := head fl = _)) by (intros E; destruct (Sp _ q (H2 _ E) Hq); lia).
    unfold m1. rewrite !W_upd by (rewrite ?zlen_upd; lia).
    destruct (Sp x q Hx Hq) as [<-|D].
    - rewrite decide_False, !decide_True by lia. apply wdec_enc. intros p Hp. pose proof (In p (H2 p Hp)). lia.
    - by rewrite !decide_False by lia. }
  assert (forall q, q ∈ x :: fl ->
    pv m' q = if decide (head fl = Some q) then Some (Some x) else if decide (q = x) then Some None else pv m q) as Hpv.
  { intros q Hq. unfold m', pv. pose proof (In q Hq).
    rewrite W_updo by (lia || intros p Hp; pose proof (In p (H2 p Hp)); lia).
    replace (q + 4 - 4) with q by lia. destruct (decide (head fl = Some q)); [apply wdec_enc; intros ? [= <-]; lia|].
    unfold m1. rewrite !W_upd by (rewrite ?zlen_upd; lia).
    destruct (Sp x q Hx Hq) as [<-|D]; [by rewrite !decide_True by lia|by rewrite !decide_False by lia]. }
  apply NoDup_cons in ND as [Hn ND]. destruct Ch as [C1 C2]. split.
  - apply (trail_insert (nx m) (nx m') [] x fl None); [done|done| |done|].
    + intros q Hq _. rewrite Hnx by set_solver. rewrite decide_False; [done|]. intros ->. done.
    + rewrite Hnx, decide_True by done. by rewrite hd_or_None.
  - rewrite reverse_cons. apply (trail_insert (pv m) (pv m') (reverse fl) x [] None).
    + rewrite app_nil_r. by apply NoDup_reversed.
    + by rewrite app_nil_r.
    + intros q. rewrite app_nil_r, last_reverse, elem_of_reverse. intros Hq Hl. rewrite Hpv by set_solver.
      rewrite decide_False by done. rewrite decide_False; [done|]. intros ->. done.
    + intros q. rewrite last_reverse. intros Hl. rewrite Hpv by (apply H2; done). by rewrite decide_True.
    + rewrite Hpv by done. rewrite decide_False by (intros E; by apply (Hne x)). by rewrite decide_True.
Qed.

(** The writes that link [y] in behind [x]. *)
Definition link_behind (m : list Z) (x y : Z) : outcome (list Z) :=
  let! next := h_next base m (8 * x) in
  let! m := set_next base m (8 * y) next in
  let! m := set_prev base m (8 * y) (Some (8 * x)) in
  let! m := match next with Some n => set_prev base m n (Some (8 * y)) | None => Ret m end in
  set_next base m (8 * x) (Some (8 * y)).

(** A position linked in behind [x]. *)
Lemma chain_behind m m' l1 x y l2 : chain m (l1 ++ x :: l2) -> NoDup (l1 ++ x :: l2) -> y ∉ l1 ++ x :: l2 ->
  (forall q, q ∈ l1 ++ x :: y :: l2 -> nx m' q =
     if decide (q = x) then Some (Some y) else if decide (q = y) then Some (head l2) else nx m q) ->
  (forall q, q ∈ l1 ++ x :: y :: l2 -> pv m' q =
     if decide (head l2 = Some q) then Some (Some y) else if decide (q = y) then Some (Some x) else pv m q) ->
  chain m' (l1 ++ x :: y :: l2).
Proof.
  intros [C1 C2] ND' Ny Hnx Hpv.
  assert (forall q, q ∈ l1 ++ x :: l2 -> q ∈ l1 ++ x :: y :: l2 /\ q <> y) as Hin.
  { intros q Hq. split; [set_solver|]. intros ->. done. }
  assert (x <> y) by (intros ->; apply Ny; set_solver).
  assert (y ∈ l1 ++ x :: y :: l2 /\ x ∈ l1 ++ x :: y :: l2) as [Hy Hx] by set_solver.
  assert (forall p, head l2 = Some p -> p ∈ l1 ++ x :: l2) as H2 by (intros p ?%head_Some_elem_of; set_solver).
  assert (head l2 <> Some y) by (intros E%H2; done).
  rewrite (cons_middle x l1 l2), app_assoc in C1, ND'.
  assert (forall q, q ∈ (l1 ++ [x]) ++ l2 -> q ∈ l1 ++ x :: l2) as Hsame by (intros q; by rewrite <- app_assoc).
  split.
  - rewrite (cons_middle x l1), app_assoc. eapply trail_insert; [exact ND'|exact C1| | |].
    + intros q Hq%Hsame. rewrite last_snoc. intros Hl. destruct (Hin q Hq) as [HqL Hqy].
      rewrite Hnx, decide_False, decide_False by (done || congruence). done.
    + intros q. rewrite last_snoc. intros [= <-]. by rewrite Hnx, decide_True.
    + rewrite Hnx by done. rewrite decide_False, decide_True by congruence. by rewrite hd_or_None.
  - rewrite (cons_middle x l1), app_assoc, (reverse_app (l1 ++ [x])), reverse_cons, <- app_assoc.
    rewrite (cons_middle x l1 l2), app_assoc, (reverse_app (l1 ++ [x])) in C2.
    eapply trail_insert; [rewrite <- reverse_app; by apply NoDup_reversed|exact C2| | |].
    + intros q Hq. rewrite last_reverse. intros Hl. rewrite <- reverse_app, elem_of_reverse in Hq.
      destruct (Hin q (Hsame q Hq)) as [HqL Hqy]. by rewrite Hpv, !decide_False by done.
    + intros q. rewrite last_reverse. intros Hl. rewrite Hpv by (apply Hin, H2; done). by rewrite decide_True.
    + rewrite Hpv, decide_False, decide_True by done. by rewrite reverse_snoc.
Qed.

Lemma link_behind_spec m l1 x y l2 :
  chain m (l1 ++ x :: l2) -> NoDup (l1 ++ x :: y :: l2) -> spaced (l1 ++ x :: y :: l2) -> inside m (l1 ++ x :: y :: l2) ->
  exists m', link_behind m x y = Ret m' /\ chain m' (l1 ++ x :: y :: l2) /\ only_links (l1 ++ x :: y :: l2) m m'.
Proof using Hb.
  intros Ch ND Sp In. destruct (chain_links _ _ Ch l1 x l2 eq_refl) as [Nx Pv].
  assert (NoDup (y :: l1 ++ x :: l2)) as [Ny ND']%NoDup_cons.
  { assert (y :: l1 ++ x :: l2 ≡ₚ l1 ++ x :: y :: l2) as -> by solve_Permutation. done. }
  assert (forall p, head l2 = Some p -> p ∈ l1 ++ x :: y :: l2) as H2 by (intros p ?%head_Some_elem_of; set_solver).
  assert (x ∈ l1 ++ x :: y :: l2 /\ y ∈ l1 ++ x :: y :: l2) as [Hx Hy] by set_solver.
  remember (l1 ++ x :: y :: l2) as L eqn:EL. pose proof (In x Hx). pose proof (In y Hy).
  set (m1 := upd (upd m (y + 3) (enc base (ptr (head l2)))) (y + 4) (enc base (ptr (Some x)))).
  set (m2 := updo m1 (head l2) 4 (enc base (ptr (Some y)))). set (m' := upd m2 (x + 3) (enc base (ptr (Some y)))).
  assert (zlen m1 = zlen m /\ zlen m2 = zlen m) as [L1 L2]
    by (subst m2 m1; rewrite zlen_updo, !zlen_upd; done).
  assert (forall p, head l2 = Some p -> 0 <= p + 4 < zlen m1) as R2
    by (intros p Hp; rewrite L1; pose proof (In p (H2 p Hp)); lia).
  exists m'. split_and!.
  - unfold link_behind. rewrite (next_word m x (head l2)) by (lia || done). cbn [obind].
    rewrite set_next_word by lia. cbn [obind]. rewrite set_prev_word by (rewrite ?zlen_upd; lia). cbn [obind].
    change (Some (8 * x)) with (ptr (Some x)). fold m1.
    assert (match ptr (head l2) with Some n => set_prev base m1 n (Some (8 * y)) | None => Ret m1 end = Ret m2) as ->.
    { unfold m2. destruct (head l2) as [n|] eqn:E; [|done]. cbn [ptr fmap option_fmap option_map].
      pose proof (In n (H2 n eq_refl)). by rewrite set_prev_word by lia. }
    cbn [obind]. by rewrite set_next_word by lia.
  - rewrite EL. eapply chain_behind; [exact Ch|done|done| |]; rewrite <- EL; intros q Hq; pose proof (In q Hq).
    + unfold m', nx. rewrite W_upd by lia. unfold m2. rewrite W_updo by (done || lia).
      rewrite (decide_False (P := head l2 = _)) by (intros E; destruct (Sp _ q (H2 _ E) Hq); lia).
      unfold m1. rewrite !W_upd by (rewrite ?zlen_upd; lia). destruct (decide (q = x)) as [->|D].
      { rewrite decide_True by lia. apply wdec_enc. intros ? [= <-]. lia. }
      destruct (Sp x q Hx Hq); [done|]. rewrite decide_False by lia. destruct (decide (q = y)) as [->|D'].
      { rewrite decide_False, decide_True by lia. apply wdec_enc. intros p Hp. pose proof (In p (H2 p Hp)). lia. }
      destruct (Sp y q Hy Hq); [done|]. by rewrite !decide_False by lia.
    + unfold m', pv. rewrite W_upd by lia. unfold m2. rewrite W_updo by (done || lia).
      rewrite (decide_False (P := x + 3 = _)) by (destruct (Sp x q Hx Hq); lia).
      replace (q + 4 - 4) with q by lia. destruct (decide (head l2 = Some q)); [apply wdec_enc; intros ? [= <-]; lia|].
      unfold m1. rewrite !W_upd by (rewrite ?zlen_upd; lia). destruct (decide (q = y)) as [->|D'].
      { rewrite decide_True by lia. apply wdec_enc. intros ? [= <-]. lia. }
      destruct (Sp y q Hy Hq); [done|]. by rewrite !decide_False by lia.
  - apply (only_links_trans _ m m1); [|apply (only_links_trans _ m1 m2)].
    + apply (only_links_trans _ m (upd m (y + 3) (enc base (ptr (head l2))))).
      * apply only_links_upd; [done|done|by left].
      * apply only_links_upd; [done| |by right]. eapply inside_len; [apply zlen_upd|done].
    + apply only_links_updo; [done| |by right]. by eapply inside_len.
    + apply only_links_upd; [done| |by left]. by eapply inside_len.
Qed.
End FreeList.

(** ** Headers and footers *)

(** Words of the block at [k] outside the set [P] are kept. *)
Definition kept (P : Z -> Prop) (m m' : list Z) : Prop :=
  zlen m' = zlen m /\ forall j, 0 <= j -> ~ P j -> W m' j = W m j.

Lemma footer_sync_word m k n : 0 <= k -> 8 <= n -> k + n <= zlen m -> W m (k + 2) = 8 * n ->
  footer_sync m (8 * k) =
    Ret (upd (upd m (k + n - 2) (8 * n)) (k + n - 1) (low (W m (k + n - 1)) (W m k mod two32))).
Proof.
  intros Hk Hn Hl E. unfold footer_sync, h_size, h_state, SIZEOF_FOOTER. rewrite (ld_word m _ (k + 2)) by lia. cbn [obind].
  rewrite E, (st_word m _ (k + n - 2)) by lia. cbn [obind]. rewrite (ld_int_word _ _ k) by (rewrite ?zlen_upd; lia).
  cbn [obind]. rewrite (st_int_word _ _ (k + n - 1)) by (rewrite ?zlen_upd; lia). do 2 f_equal. by words.
Qed.

Lemma code_range s : 0 <= code s < two32.
Proof. destruct s; unfold code, BUF_FREE, BUF_IN_USE; lia. Qed.

(** The state of a block changed, in its header and its footer. *)
Lemma restate_block m p k n s s' : 0 <= k -> k + n <= zlen m -> block_at m p k n s -> contents m k n s' ->
  exists m1 m', set_state m (8 * k) (code s') = Ret m1 /\ footer_sync m1 (8 * k) = Ret m' /\
    block_at m' p k n s' /\ kept (fun j => j = k \/ j = k + n - 2 \/ j = k + n - 1) m m'.
Proof.
  intros Hk Hl [B1 B2 B3 B4 B5 B6 B7] Hc. unfold set_state.
  rewrite (st_int_word m _ k) by lia. eexists _, _. split; [done|]. split.
  { apply footer_sync_word; [done|done|by rewrite zlen_upd|]. by words. }
  pose proof (code_range s').
  assert (kept (fun j => j = k \/ j = k + n - 2 \/ j = k + n - 1) m
    (upd (upd (upd m k (low (W m k) (code s'))) (k + n - 2) (8 * n)) (k + n - 1)
       (low (W (upd m k (low (W m k) (code s'))) (k + n - 1)) (W (upd m k (low (W m k) (code s'))) k mod two32)))) as K.
  { split; [by rewrite !zlen_upd|]. intros j Hj Hn. by words. }
  split; [|exact K]. destruct K as [_ K]. split; [done|..].
  - words. by apply low_mod.
  - words. done.
  - words. done.
  - words. done.
  - words. rewrite low_mod; [by apply low_mod|]. rewrite low_mod by done. done.
  - destruct s' as [|d]; [done|]. destruct Hc as [Ld Hd]. split; [done|]. intros i x Hi.
    pose proof (lookup_lt_Some _ _ _ Hi). unfold zlen in Ld. rewrite K by lia. by apply Hd.
Qed.

(** The size of a free block changed. *)
Lemma resize_block m p k n : 0 <= k -> 8 <= n -> k + n <= zlen m -> W m k mod two32 = 0 -> W m (k + 1) = Zpos p ->
  exists m1 m', set_size m (8 * k) (8 * n) = Ret m1 /\ footer_sync m1 (8 * k) = Ret m' /\
    block_at m' p k n Free /\ kept (fun j => j = k + 2 \/ j = k + n - 2 \/ j = k + n - 1) m m'.
Proof.
  intros Hk Hn Hl E1 E2. unfold set_size. rewrite (st_word m _ (k + 2)) by lia. eexists _, _. split; [done|]. split.
  { apply footer_sync_word; [done|done|by rewrite zlen_upd|]. by words. }
  split.
  - split; try done; words; try done. rewrite E1. by apply low_mod.
  - split; [by rewrite !zlen_upd|]. intros j Hj Hx. by words.
Qed.

(** A new free block. *)
Lemma new_block m p k n : 0 <= k -> 8 <= n -> k + n <= zlen m ->
  exists m1 m2 m3 m', set_state m (8 * k) BUF_FREE = Ret m1 /\ set_ua m1 (8 * k) p = Ret m2 /\
    set_size m2 (8 * k) (8 * n) = Ret m3 /\ footer_sync m3 (8 * k) = Ret m' /\
    block_at m' p k n Free /\
    kept (fun j => j = k \/ j = k + 1 \/ j = k + 2 \/ j = k + n - 2 \/ j = k + n - 1) m m'.
Proof.
  intros Hk Hn Hl. unfold set_state, set_ua, set_size. rewrite (st_int_word m _ k) by lia.
  eexists _, _, _, _. split; [done|]. rewrite (st_word _ _ (k + 1)) by (rewrite ?zlen_upd; lia). split; [done|].
  rewrite (st_word _ _ (k + 2)) by (rewrite ?zlen_upd; lia). split; [done|]. split.
  { apply footer_sync_word; [done|done|by rewrite !zlen_upd|]. by words. }
  split.
  - split; try done; words; try done; [by apply low_mod|]. rewrite (low_mod _ BUF_FREE) by done. by apply low_mod.
  - split; [by rewrite !zlen_upd|]. intros j Hj Hx. by words.
Qed.

(** ** Regions of a usable arena *)

Lemma starts_spaced m p k bs : laid m p k bs -> spaced (starts k bs).
Proof.
  revert k. induction bs as [|[n s] bs IH]; intros k; simpl; [by intros _ x y ?%not_elem_of_nil|].
  intros [B L] x y Hx Hy. pose proof (bk_size B).
  rewrite elem_of_cons in Hx, Hy. destruct Hx as [->|Hx], Hy as [->|Hy].
  - by left.
  - pose proof (starts_range _ _ _ _ _ L Hy). lia.
  - pose proof (starts_range _ _ _ _ _ L Hx). lia.
  - by apply (IH (k + n)).
Qed.

(** The other blocks are outside the one at hand. *)
Lemma starts_other m p k b1 n s b2 y : laid m p k (b1 ++ (n, s) :: b2) ->
  y ∈ starts k (b1 ++ (n, s) :: b2) -> y = k + total b1 \/ y + 8 <= k + total b1 \/ k + total b1 + n <= y.
Proof.
  intros L H. apply laid_app in L as [L1 [B L2]]. rewrite starts_app in H. cbn [starts] in H.
  apply elem_of_app in H as [H|[->|H]%elem_of_cons]; [|by left|].
  - pose proof (starts_range _ _ _ _ _ L1 H). lia.
  - pose proof (starts_range _ _ _ _ _ L2 H). lia.
Qed.

(** ** The specification

    A region is a sequence of blocks and the order of its free list; every call is
    a function of these two. *)

(** The block that starts at word [x], with those before and behind it. *)
Fixpoint split_at (k : Z) (bs : layout) (x : Z) : option (layout * (Z * bstate) * layout) :=
  match bs with
  | [] => None
  | (n, s) :: bs =>
      if decide (x = k) then Some ([], (n, s), bs)
      else match split_at (k + n) bs x with
           | Some (b1, b, b2) => Some ((n, s) :: b1, b, b2)
           | None => None
           end
  end.

Definition size_at (k : Z) (bs : layout) (x : Z) : Z :=
  match split_at k bs x with Some (_, (n, _), _) => n | None => 0 end.

(** The first of the list that is large enough, with those before and behind it. *)
Fixpoint first_fit (sz : Z -> Z) (w : Z) (fl : list Z) : option (list Z * Z * list Z) :=
  match fl with
  | [] => None
  | x :: fl =>
      if decide (w <= sz x) then Some ([], x, fl)
      else match first_fit sz w fl with
           | Some (l1, y, l2) => Some (x :: l1, y, l2)
           | None => None
           end
  end.

Lemma split_at_Some k bs x b1 b b2 : split_at k bs x = Some (b1, b, b2) -> bs = b1 ++ b :: b2 /\ x = k + total b1.
Proof.
  revert k b1. induction bs as [|[n s] bs IH]; intros k b1; cbn [split_at]; [done|]. case_decide as D.
  { intros [= <- <- <-]. split; [done|simpl; lia]. }
  destruct (split_at (k + n) bs x) as [[[c1 c] c2]|] eqn:E; [|done]. intros [= <- <- <-].
  destruct (IH _ _ E) as [-> ->]. split; [done|simpl; lia].
Qed.

Lemma split_at_laid m p k b1 b b2 : laid m p k (b1 ++ b :: b2) ->
  split_at k (b1 ++ b :: b2) (k + total b1) = Some (b1, b, b2).
Proof.
  revert k. induction b1 as [|[n s] b1 IH]; intros k; cbn [app split_at total]; destruct b as [n' s'].
  { intros _. cbn [split_at]. by rewrite decide_True by lia. }
  cbn [laid]. intros [B L]. pose proof (bk_size B). pose proof L as [Lp _]%laid_app. apply laid_total in Lp.
  rewrite decide_False by lia. replace (k + (n + total b1)) with (k + n + total b1) by lia. by rewrite (IH _ L).
Qed.

Lemma first_fit_Some sz w fl l1 x l2 : first_fit sz w fl = Some (l1, x, l2) -> fl = l1 ++ x :: l2 /\ w <= sz x.
Proof.
  revert l1. induction fl as [|y fl IH]; intros l1; cbn [first_fit]; [done|]. case_decide; [by intros [= <- <- <-]|].
  destruct (first_fit sz w fl) as [[[c1 c] c2]|]; [|done]. intros [= <- <- <-]. by destruct (IH _ eq_refl) as [-> ?].
Qed.

(** The block that is handed out, and what is left of it. *)
Definition fresh (n : Z) : list (option Z) := replicate (Z.to_nat (n - 7)) None.
Definition pieces_of (n w : Z) : layout :=
  if decide (8 <= n - w) then [(w, Used (fresh w)); (n - w, Free)] else [(n, Used (fresh n))].
Definition left_of (x n w : Z) : list Z := if decide (8 <= n - w) then [x + w] else [].

(** The block before is not free. *)
Definition guarded (b1 : layout) : Prop := match last b1 with Some (_, Free) => False | _ => True end.

#[export] Instance guarded_dec b1 : Decision (guarded b1).
Proof. unfold guarded. destruct (last b1) as [[n [|d]]|]; apply _. Defined.

(** The block at [x] put back, made one with a free block behind it. *)
Definition put_back (x : Z) (b1 : layout) (n : Z) (b2 : layout) (fl : list Z) : layout * list Z :=
  match b2 with
  | (n2, Free) :: b3 => (b1 ++ (n + n2, Free) :: b3, x :: filter (fun y => y <> x + n) fl)
  | _ => (b1 ++ (n, Free) :: b2, x :: fl)
  end.

Inductive arena_op : Type :=
| AAlloc (size : Z)
| AFree (b : zenit_usable_buffer_t)
| AWrite (data i v : Z)
| ARead (data i : Z).

Inductive arena_res : Type :=
| RBuffer (b : zenit_usable_buffer_t)
| RResult (e : zenit_error_t)
| RWord (v : Z)
| RVoid.

Definition null_buffer : zenit_usable_buffer_t := mk_buffer None 0.

(** [None] where a call is outside the contract: a size whose block size wraps
    around, a pointer that is not a buffer's, a buffer behind a free block, a word
    outside the buffer or never written. *)
Definition spec_step (k : Z) (op : arena_op) (st : layout * list Z) : option (arena_res * (layout * list Z)) :=
  let '(bs, fl) := st in
  let buffer data := if decide (data mod 8 = 0) then split_at k bs (data / 8 - 5) else None in
  match op with
  | AAlloc size =>
      if decide (size = 0 \/ SIZE_MAX - 7 < size) then Some (RBuffer null_buffer, st)
      else if decide (size < 0 \/ SIZE_MAX - 63 < size) then None
      else
        let a := (size + 7) / 8 in
        match first_fit (size_at k bs) (a + 7) fl with
        | None => Some (RBuffer null_buffer, st)
        | Some (l1, x, l2) =>
            match split_at k bs x with
            | Some (b1, (n, _), b2) =>
                Some (RBuffer (mk_buffer (Some (8 * (x + 5))) (8 * a)),
                      (b1 ++ pieces_of n (a + 7) ++ b2, l1 ++ left_of x n (a + 7) ++ l2))
            | None => None
            end
        end
  | AFree (mk_buffer None _) => Some (RResult ZENIT_ERROR_NULL, st)
  | AFree (mk_buffer (Some data) _) =>
      match buffer data with
      | Some (b1, (n, Used _), b2) =>
          if decide (guarded b1) then Some (RResult ZENIT_OK, put_back (data / 8 - 5) b1 n b2 fl) else None
      | Some (_, (_, Free), _) => Some (RResult ZENIT_ERROR_DOUBLE_FREE, st)
      | None => None
      end
  | AWrite data i v =>
      match buffer data with
      | Some (b1, (n, Used d), b2) =>
          if decide (0 <= i < zlen d)
          then Some (RVoid, (b1 ++ (n, Used (<[Z.to_nat i := Some v]> d)) :: b2, fl)) else None
      | _ => None
      end
  | ARead data i =>
      match buffer data with
      | Some (_, (_, Used d), _) =>
          if decide (0 <= i) then
            match d !! Z.to_nat i with Some (Some v) => Some (RWord v, st) | _ => None end
          else None
      | _ => None
      end
  end.

Fixpoint spec_run (k : Z) (ops : list arena_op) (st : layout * list Z) : option (list arena_res * (layout * list Z)) :=
  match ops with
  | [] => Some ([], st)
  | op :: ops =>
      match spec_step k op st with
      | Some (r, st1) => match spec_run k ops st1 with Some (rs, st2) => Some (r :: rs, st2) | None => None end
      | None => None
      end
  end.

(** The same calls made on the memory; the owner of a buffer reads and writes its
    words.  The fuel of the search is the number of words of the memory. *)
Definition arena_exec (base : Z) (p : addr) (op : arena_op) (s : list Z * usables)
    : outcome (arena_res * (list Z * usables)) :=
  let '(m, us) := s in
  match op with
  | AAlloc size =>
      let! (b, m, us) := zenit_usable_arena_allocate base (length m) m (Some p) size us in
      Ret (RBuffer b, (m, us))
  | AFree b =>
      let! (e, m, us) := zenit_usable_buffer_free base m (Some b) us in
      Ret (RResult e, (m, us))
  | AWrite data i v => let! m := st m (data + 8 * i) v in Ret (RVoid, (m, us))
  | ARead data i => let! v := ld m (data + 8 * i) in Ret (RWord v, (m, us))
  end.

Section Regions.
Context (base : Z) (Hb : 0 < base).

(** The region of the usable arena [u] at [p] is cut into [bs], and [fl] lists
    blocks of it. *)
Record region (p : addr) (u : zenit_usable_arena_t) (m : list Z) (k : Z) (bs : layout) (fl : list Z) : Prop := {
  rg_memory : ua_memory u = 8 * k;
  rg_size : ua_size u = 8 * total bs;
  rg_pos : 0 <= k;
  rg_end : k + total bs <= zlen m;
  rg_laid : laid m p k bs;
  rg_chain : chain base m fl;
  rg_nodup : NoDup fl;
  rg_starts x : x ∈ fl -> x ∈ starts k bs;
  rg_head : ua_free_list u = ptr (head fl) }.
Arguments rg_memory {p u m k bs fl}.
Arguments rg_size {p u m k bs fl}.
Arguments rg_pos {p u m k bs fl}.
Arguments rg_end {p u m k bs fl}.
Arguments rg_laid {p u m k bs fl}.
Arguments rg_chain {p u m k bs fl}.
Arguments rg_nodup {p u m k bs fl}.
Arguments rg_starts {p u m k bs fl}.
Arguments rg_head {p u m k bs fl}.

(** The words outside the region are kept. *)
Definition outside (k N : Z) (m m' : list Z) : Prop :=
  zlen m' = zlen m /\ forall j, 0 <= j -> j < k \/ k + N <= j -> W m' j = W m j.

Lemma outside_refl k N m : outside k N m m.
Proof. by split. Qed.

Lemma outside_trans k N m1 m2 m3 : outside k N m1 m2 -> outside k N m2 m3 -> outside k N m1 m3.
Proof. intros [L1 H1] [L2 H2]. split; [congruence|]. intros j Hj Hx. rewrite H2, H1; auto. Qed.

Lemma kept_outside k N (P : Z -> Prop) m m' : kept P m m' -> (forall j, P j -> k <= j < k + N) -> outside k N m m'.
Proof. intros [L H] HP. split; [done|]. intros j Hj Hx. apply H; [done|]. intros ?%HP. lia. Qed.

Lemma links_outside m p k bs L m' : laid m p k bs -> (forall x, x ∈ L -> x ∈ starts k bs) ->
  only_links L m m' -> outside k (total bs) m m'.
Proof.
  intros HL HS [E H]. split; [done|]. intros j Hj Hx. apply H; [done|]. intros x Hxx%HS.
  pose proof (starts_range _ _ _ _ _ HL Hxx). lia.
Qed.

Lemma region_inside p u m k bs fl : region p u m k bs fl -> inside m (starts k bs) /\ inside m fl /\ spaced fl.
Proof.
  intros R. pose proof (rg_pos R). pose proof (rg_end R).
  assert (inside m (starts k bs)) as I by (intros x Hx; pose proof (starts_range _ _ _ _ _ (rg_laid R) Hx); lia).
  split_and!; [done|intros x Hx; apply I, (rg_starts R x Hx)|].
  intros x y Hx Hy. apply (starts_spaced _ _ _ _ (rg_laid R)); by apply (rg_starts R).
Qed.

(** Writes inside one block that keep its links and leave it a block. *)
Lemma region_block p u m m' k b1 n s s' b2 fl (P : Z -> Prop) : region p u m k (b1 ++ (n, s) :: b2) fl ->
  kept P m m' -> (forall j, P j -> k + total b1 <= j < k + total b1 + n /\ j <> k + total b1 + 3 /\ j <> k + total b1 + 4) ->
  block_at m' p (k + total b1) n s' ->
  region p u m' k (b1 ++ (n, s') :: b2) fl /\ outside k (total (b1 ++ (n, s) :: b2)) m m'.
Proof.
  intros R [Lm K] HP B. pose proof (rg_pos R). pose proof (rg_end R) as He. pose proof (rg_laid R) as HL.
  pose proof (bk_size B). rewrite total_app in He. cbn [total] in He.
  pose proof HL as [HL1 [HB HL2]]%laid_app. pose proof (laid_total _ _ _ _ HL1). pose proof (laid_total _ _ _ _ HL2).
  assert (starts k (b1 ++ (n, s') :: b2) = starts k (b1 ++ (n, s) :: b2)) as Es by (by rewrite !starts_app).
  assert (total (b1 ++ (n, s') :: b2) = total (b1 ++ (n, s) :: b2)) as Et by (by rewrite !total_app).
  split.
  - split; try rewrite Et; try rewrite Es; try apply R.
    + rewrite Lm. apply R.
    + apply laid_app. split; [eapply laid_ext; [done| |exact HL1]; intros j Hj; apply K; [lia|]; intros ?%HP; lia|].
      split; [done|]. eapply laid_ext; [lia| |exact HL2]. intros j Hj. apply K; [lia|]. intros ?%HP. lia.
    + eapply chain_ext; [|exact (rg_chain R)]. intros x Hx%(rg_starts R).
      pose proof (starts_range _ _ _ _ _ HL Hx). pose proof (starts_other _ _ _ _ _ _ _ _ HL Hx).
      split; apply K; try lia; intros ?%HP; lia.
  - split; [done|]. intros j Hj Hx. apply K; [done|]. intros ?%HP. rewrite total_app in Hx. cbn [total] in Hx. lia.
Qed.

(** Writes to links. *)
Lemma region_links p u u' m m' k bs fl fl' L : region p u m k bs fl ->
  only_links L m m' -> (forall x, x ∈ L -> x ∈ starts k bs) ->
  ua_memory u' = ua_memory u -> ua_size u' = ua_size u -> ua_free_list u' = ptr (head fl') ->
  chain base m' fl' -> NoDup fl' -> (forall x, x ∈ fl' -> x ∈ starts k bs) ->
  region p u' m' k bs fl' /\ outside k (total bs) m m'.
Proof.
  intros R OL HS E1 E2 E3 Ch ND HF. split; [|by eapply links_outside; [apply R| |exact OL]].
  destruct OL as [Lm K]. split; try done.
  - rewrite E1. apply R.
  - rewrite E2. apply R.
  - apply R.
  - rewrite Lm. apply R.
  - eapply laid_links; [apply R| |exact (rg_laid R)]. intros j Hj Hx. apply K; [pose proof (rg_pos R); lia|].
    intros x Hxx%HS. by apply Hx.
Qed.

(** Blocks replaced by others over the same words. *)
Lemma laid_replace p m m' k b1 bm b2 bs' (P : Z -> Prop) : 0 <= k -> laid m p k (b1 ++ bm ++ b2) -> kept P m m' ->
  (forall j, P j -> k + total b1 <= j < k + total b1 + total bm) ->
  laid m' p (k + total b1) bs' -> total bs' = total bm -> laid m' p k (b1 ++ bs' ++ b2).
Proof.
  intros Hk HL [_ K] HP L' Et. apply laid_app in HL as [L1 L2]. apply laid_app in L2 as [Lm L2].
  pose proof (laid_total _ _ _ _ L1). pose proof (laid_total _ _ _ _ Lm).
  apply laid_app. split; [|apply laid_app; split; [done|rewrite Et]].
  - eapply laid_ext; [done| |exact L1]. intros j Hj. apply K; [lia|]. intros ?%HP. lia.
  - eapply laid_ext; [lia| |exact L2]. intros j Hj. apply K; [lia|]. intros ?%HP. lia.
Qed.

Lemma chain_kept m m' fl (P : Z -> Prop) : chain base m fl -> inside m fl -> kept P m m' ->
  (forall j x, P j -> x ∈ fl -> j <> x + 3 /\ j <> x + 4) -> chain base m' fl.
Proof.
  intros Ch In [_ K] HP. eapply chain_ext; [|exact Ch]. intros x Hx. pose proof (In x Hx).
  split; apply K; try lia; intros Hp; destruct (HP _ x Hp Hx); lia.
Qed.

Lemma kept_trans (P Q : Z -> Prop) m1 m2 m3 : kept P m1 m2 -> kept Q m2 m3 -> kept (fun j => P j \/ Q j) m1 m3.
Proof. intros [L1 H1] [L2 H2]. split; [congruence|]. intros j Hj N. rewrite H2, H1; tauto. Qed.

Lemma links_kept L m m' : only_links L m m' -> kept (fun j => exists x, x ∈ L /\ (j = x + 3 \/ j = x + 4)) m m'.
Proof.
  intros [E H]. split; [done|]. intros j Hj N. apply H; [done|]. intros x Hx.
  split; intros ->; apply N; exists x; tauto.
Qed.

(** A handle of the same run of blocks. *)
Definition same_run (u u' : zenit_usable_arena_t) : Prop :=
  ua_block_offset u' = ua_block_offset u /\ ua_block_count u' = ua_block_count u.

(** *** Splitting *)

Lemma split_spec p u m k b1 n b2 l1 l2 w x : region p u m k (b1 ++ (n, Free) :: b2) (l1 ++ x :: l2) ->
  x = k + total b1 -> 8 <= w -> 8 <= n - w ->
  exists m', split_block base m p (8 * x) (8 * w) (8 * (n - w)) = Ret m' /\
    region p u m' k (b1 ++ (w, Free) :: (n - w, Free) :: b2) (l1 ++ x :: (x + w) :: l2) /\
    outside k (total (b1 ++ (n, Free) :: b2)) m m'.
Proof using Hb.
  intros R Ex Hw Hn. pose proof (rg_pos R) as Hk. pose proof (rg_end R) as He. pose proof (rg_laid R) as HL.
  pose proof HL as [L1 [B L2]]%laid_app. pose proof (laid_total _ _ _ _ L1). pose proof (laid_total _ _ _ _ L2).
  rewrite total_app in He. cbn [total] in He. rewrite <- Ex in B, L2. pose proof (bk_state B) as Bs.
  destruct (resize_block m p x w ltac:(lia) Hw ltac:(lia) Bs (bk_ua B)) as (m1 & m2 & E1 & E2 & B2 & K2).
  destruct (new_block m2 p (x + w) (n - w)) as (m3 & m4 & m5 & m6 & E3 & E4 & E5 & E6 & B6 & K6);
    [lia..|rewrite (proj1 K2); lia|].
  pose proof (kept_trans _ _ _ _ _ K2 K6) as K. pose proof (region_inside _ _ _ _ _ _ R) as (_ & In & Sp).
  match type of K with kept ?P _ _ => assert (forall j, P j -> x <= j < x + n /\ j <> x + 3 /\ j <> x + 4) as HP
    by (simpl; intros j ?; lia) end.
  assert (laid m6 p k (b1 ++ (w, Free) :: (n - w, Free) :: b2)) as L6.
  { apply (laid_replace p m m6 k b1 [(n, Free)] b2 [(w, Free); (n - w, Free)] _ Hk HL K).
    - intros j ?%HP. cbn [total]. lia.
    - cbn [laid]. rewrite <- Ex. split; [|done]. eapply block_ext; [lia| |exact B2]. intros j J1 J2 J3.
      apply K6; lia.
    - cbn [total]. lia. }
  assert (chain base m6 (l1 ++ x :: l2)) as C6.
  { eapply chain_kept; [exact (rg_chain R)|done|exact K|]. intros j y ?%HP Hy%(rg_starts R).
    destruct (starts_other _ _ _ _ _ _ _ _ HL Hy); lia. }
  assert (forall y, y ∈ l1 ++ x :: x + w :: l2 -> y ∈ starts k (b1 ++ (w, Free) :: (n - w, Free) :: b2)) as St.
  { intros y Hy. rewrite starts_app. cbn [starts]. rewrite <- Ex.
    assert (y = x + w \/ y ∈ l1 ++ x :: l2) as [->|Hy'] by set_solver; [set_solver|].
    apply (rg_starts R) in Hy'. rewrite starts_app in Hy'. cbn [starts] in Hy'. rewrite <- Ex in Hy'.
    replace (x + w + (n - w)) with (x + n) by lia. set_solver. }
  assert (zlen m6 = zlen m) as Lm by apply K.
  assert (inside m6 (starts k (b1 ++ (w, Free) :: (n - w, Free) :: b2))) as In6.
  { intros y Hy. pose proof (starts_range _ _ _ _ _ L6 Hy) as Hr. rewrite total_app in Hr. cbn [total] in Hr. lia. }
  assert (NoDup (l1 ++ x :: x + w :: l2)) as ND.
  { assert (l1 ++ x :: x + w :: l2 ≡ₚ (x + w) :: l1 ++ x :: l2) as -> by solve_Permutation.
    constructor; [|apply R]. intros Hy%(rg_starts R). destruct (starts_other _ _ _ _ _ _ _ _ HL Hy); lia. }
  destruct (link_behind_spec base Hb m6 l1 x (x + w) l2 C6 ND) as (m' & E' & C' & O').
  { intros a b Ha%St Hb'%St. by apply (starts_spaced _ _ _ _ L6). }
  { intros y Hy%St. by apply In6. }
  exists m'. split; [|split].
  - unfold split_block. rewrite E1. cbn [obind]. rewrite E2. cbn [obind].
    replace (8 * x + 8 * w) with (8 * (x + w)) by lia. rewrite E3. cbn [obind]. rewrite E4. cbn [obind].
    rewrite E5. cbn [obind]. rewrite E6. exact E'.
  - split; try done.
    + apply R.
    + rewrite (rg_size R), !total_app. cbn [total]. lia.
    + rewrite (proj1 O'), Lm, total_app. cbn [total]. lia.
    + eapply laid_links; [done| |exact L6]. intros j Hj Hx. apply (proj2 O'); [lia|]. intros y Hy%St. by apply Hx.
    + rewrite (rg_head R). by destruct l1.
  - apply (outside_trans _ _ _ m6).
    + eapply kept_outside; [exact K|]. intros j ?%HP. rewrite total_app. cbn [total]. lia.
    + replace (total (b1 ++ (n, Free) :: b2)) with (total (b1 ++ (w, Free) :: (n - w, Free) :: b2))
        by (rewrite !total_app; cbn [total]; lia).
      by eapply links_outside.
Qed.

(** *** Claiming *)

(** The links of a block that is not on the list. *)
Lemma region_free_links p u m m' k bs fl x : region p u m k bs fl -> x ∈ starts k bs -> x ∉ fl ->
  only_links [x] m m' -> region p u m' k bs fl /\ outside k (total bs) m m'.
Proof.
  intros R Hx Nx O. pose proof (region_inside _ _ _ _ _ _ R) as (_ & In & _).
  eapply (region_links p u u m m' k bs fl fl [x]); try done; try apply R.
  - intros y ->%list_elem_of_singleton. done.
  - eapply chain_kept; [apply R|done|exact (links_kept _ _ _ O)|].
    intros j y (z & ->%list_elem_of_singleton & Hj) Hy. assert (y <> x) by (by intros ->).
    destruct (starts_spaced _ _ _ _ (rg_laid R) x y Hx (rg_starts R y Hy)); lia.
Qed.

Lemma fresh_contents m k n : 8 <= n -> contents m k n (Used (fresh n)).
Proof.
  intros Hn. split; [unfold fresh, zlen; rewrite length_replicate; lia|]. by intros i y [? _]%lookup_replicate.
Qed.

Lemma claim_tail p u m k b1 n b2 l1 l2 x : region p u m k (b1 ++ (n, Free) :: b2) (l1 ++ x :: l2) -> x = k + total b1 ->
  exists m1 m2 m3 m4 m', unlink_block base m (8 * x) (ua_free_list u) = Ret (m1, ptr (head (l1 ++ l2))) /\
    set_prev base m1 (8 * x) None = Ret m2 /\ set_next base m2 (8 * x) None = Ret m3 /\
    set_state m3 (8 * x) BUF_IN_USE = Ret m4 /\ footer_sync m4 (8 * x) = Ret m' /\
    region p (set_free_list (ptr (head (l1 ++ l2))) u) m' k (b1 ++ (n, Used (fresh n)) :: b2) (l1 ++ l2) /\
    outside k (total (b1 ++ (n, Free) :: b2)) m m'.
Proof using Hb.
  intros R Ex. pose proof (region_inside _ _ _ _ _ _ R) as (_ & In & Sp).
  destruct (unlink_block_spec base Hb m l1 x l2 (rg_chain R) (rg_nodup R) Sp In) as (m1 & E1 & C1 & O1).
  pose proof (rg_nodup R) as ND. rewrite <- Permutation_middle in ND. apply NoDup_cons in ND as [Nx ND].
  assert (forall y, y ∈ l1 ++ l2 -> y ∈ starts k (b1 ++ (n, Free) :: b2)) as St
    by (intros y Hy; apply (rg_starts R); set_solver).
  assert (x ∈ starts k (b1 ++ (n, Free) :: b2)) as Hx by (apply (rg_starts R); set_solver).
  destruct (region_links p u (set_free_list (ptr (head (l1 ++ l2))) u) _ _ _ _ _ (l1 ++ l2) _ R O1 St)
    as [R1 U1]; [done..|].
  pose proof (region_inside _ _ _ _ _ _ R1) as (In1 & _ & _). pose proof (In1 x Hx).
  assert (inside m1 [x]) as I1 by (intros y ->%list_elem_of_singleton; done).
  assert (x ∈ [x]) as Hxx by set_solver.
  destruct (region_free_links _ _ _ (upd (upd m1 (x + 4) 0) (x + 3) 0) _ _ _ x R1 Hx Nx) as [R3 U3].
  { eapply only_links_trans; [apply (only_links_upd [x] m1 x 4); auto|]. apply (only_links_upd [x] _ x 3); auto.
    eapply inside_len; [|exact I1]. apply zlen_upd. }
  pose proof (rg_laid R3) as [_ [B3 L3]]%laid_app. rewrite <- Ex in B3.
  pose proof (rg_end R3) as He. rewrite total_app in He. cbn [total] in He. pose proof (laid_total _ _ _ _ L3).
  pose proof (bk_size B3) as Hn.
  assert (0 <= x /\ x + n <= zlen (upd (upd m1 (x + 4) 0) (x + 3) 0)) as [Hx0 Hxn] by lia.
  destruct (restate_block _ p x n Free (Used (fresh n)) Hx0 Hxn B3 (fresh_contents _ _ _ Hn))
    as (m4 & m' & E4 & E5 & B5 & K5).
  destruct (region_block _ _ _ m' _ _ _ _ (Used (fresh n)) _ _ _ R3 K5) as [R5 U5];
    [intros j Hj; lia|by rewrite <- Ex|].
  eexists m1, _, _, m4, m'. rewrite (rg_head R). split; [exact E1|].
  rewrite set_prev_word by lia. split; [done|]. rewrite set_next_word by (rewrite ?zlen_upd; lia). split; [done|].
  split; [exact E4|]. split; [exact E5|]. split; [exact R5|].
  eapply outside_trans; [exact U1|]. by eapply outside_trans.
Qed.

Lemma claim_spec p u m k b1 n b2 l1 l2 x w aligned : region p u m k (b1 ++ (n, Free) :: b2) (l1 ++ x :: l2) ->
  x = k + total b1 -> 8 <= w <= n -> 8 * n <= SIZE_MAX ->
  exists m' u', claim_block base m p u (8 * x) (8 * w) aligned =
      Ret (mk_buffer (Some (8 * (x + 5))) aligned, m', u') /\
    same_run u u' /\ region p u' m' k (b1 ++ pieces_of n w ++ b2) (l1 ++ left_of x n w ++ l2) /\
    outside k (total (b1 ++ (n, Free) :: b2)) m m'.
Proof using Hb.
  intros R Ex Hw Hn. pose proof (region_inside _ _ _ _ _ _ R) as (_ & In & _).
  assert (0 <= x /\ x + 8 <= zlen m) as Hx by (apply In; set_solver).
  pose proof (rg_laid R) as [_ [B _]]%laid_app. rewrite <- Ex in B.
  assert (h_size m (8 * x) = Ret (8 * n)) as Es by (unfold h_size; rewrite (ld_word m _ (x + 2)) by lia; by rewrite (bk_head B)).
  assert (u64 (8 * n - 8 * w) = 8 * (n - w)) as Er by (rewrite u64_small by lia; lia).
  assert (8 * x + SIZEOF_HEADER = 8 * (x + 5)) as Ed by (unfold SIZEOF_HEADER; lia).
  unfold claim_block, pieces_of, left_of. rewrite Es. cbn [obind]. rewrite Er. change MIN_SPLIT_TOTAL with 64.
  destruct (decide (8 <= n - w)) as [D|D].
  - rewrite decide_True by lia. destruct (split_spec _ _ _ _ _ _ _ _ _ w x R Ex) as (m0 & E0 & R0 & U0); [lia..|].
    rewrite E0. cbn [obind].
    destruct (claim_tail _ _ _ _ _ _ _ _ _ x R0 Ex) as (m1 & m2 & m3 & m4 & m' & E1 & E2 & E3 & E4 & E5 & R5 & U5).
    rewrite E1. cbn [obind]. rewrite E2. cbn [obind]. rewrite E3. cbn [obind]. rewrite E4. cbn [obind].
    rewrite E5. cbn [obind]. eexists _, (set_free_list _ u). split; [|split; [by split|split; [exact R5|]]].
    + by rewrite Ed.
    + eapply outside_trans; [exact U0|]. rewrite !total_app in U5 |- *. cbn [total] in U5 |- *.
      by replace (total b1 + (n + total b2)) with (total b1 + (w + (n - w + total b2))) by lia.
  - rewrite decide_False by lia. cbn [obind].
    destruct (claim_tail _ _ _ _ _ _ _ _ _ x R Ex) as (m1 & m2 & m3 & m4 & m' & E1 & E2 & E3 & E4 & E5 & R5 & U5).
    rewrite E1. cbn [obind]. rewrite E2. cbn [obind]. rewrite E3. cbn [obind]. rewrite E4. cbn [obind].
    rewrite E5. cbn [obind]. eexists _, (set_free_list _ u). split; [|split; [by split|split; [exact R5|done]]].
    by rewrite Ed.
Qed.

(** *** Searching *)

Lemma find_block_spec m (sz : Z -> Z) w fl fuel : (length fl <= fuel)%nat -> inside m fl -> trail (nx base m) fl None ->
  (forall y, y ∈ fl -> W m y mod two32 = BUF_FREE /\ W m (y + 2) = 8 * sz y) ->
  find_block base fuel m (ptr (head fl)) (8 * w) = Ret (ptr ((fun '(_, x, _) => x) <$> first_fit sz w fl)).
Proof.
  revert fuel. induction fl as [|x fl IH]; intros fuel Hf In Ch Hs; [by destruct fuel|]. cbn [length] in Hf.
  destruct fuel as [|fuel]; [lia|]. destruct Ch as [Nx Ch]. assert (x ∈ x :: fl) as Hx by set_solver.
  pose proof (In x Hx). destruct (Hs x Hx) as [S1 S2]. cbn [find_block head ptr fmap option_fmap option_map first_fit].
  unfold h_state, h_size. rewrite (ld_int_word m _ x) by lia. cbn [obind].
  rewrite (ld_word m _ (x + 2)) by lia. cbn [obind]. rewrite S1, S2. destruct (decide (w <= sz x)) as [D|D].
  { rewrite decide_True by lia. done. }
  rewrite decide_False by lia. rewrite hd_or_None in Nx. rewrite (next_word base m x (head fl)) by (done || lia).
  cbn [obind]. rewrite IH; [|lia|intros y Hy; apply In; set_solver|done|intros y Hy; apply Hs; set_solver].
  by destruct (first_fit sz w fl) as [[[l1 y] l2]|].
Qed.

Lemma region_sizes p u m k bs fl : region p u m k bs fl -> (forall y, y ∈ fl -> y ∈ frees k bs) ->
  forall y, y ∈ fl -> W m y mod two32 = BUF_FREE /\ W m (y + 2) = 8 * size_at k bs y.
Proof.
  intros R Hf y Hy. destruct (frees_split _ _ _ (Hf y Hy)) as (b1 & n & b2 & -> & ->).
  pose proof (rg_laid R) as HL. pose proof HL as [_ [B _]]%laid_app. unfold size_at.
  rewrite (split_at_laid _ _ _ _ _ _ HL). split; apply B.
Qed.

(** The blocks of a region are at least eight words long. *)
Lemma starts_count m p k bs : laid m p k bs -> 8 * Z.of_nat (length (starts k bs)) <= total bs.
Proof.
  revert k. induction bs as [|[n s] bs IH]; intros k; cbn [laid starts total length]; [lia|]. intros [B L%IH].
  pose proof (bk_size B). lia.
Qed.

Lemma frees_length k bs : (length (frees k bs) <= length (starts k bs))%nat.
Proof.
  revert k. induction bs as [|[n s] bs IH]; intros k; cbn [frees starts length]; [lia|].
  specialize (IH (k + n)). destruct s; cbn [length]; lia.
Qed.

(** *** Freeing *)

Lemma block_words p u m k b1 n s b2 fl x : region p u m k (b1 ++ (n, s) :: b2) fl -> x = k + total b1 ->
  8 <= n /\ 0 <= x /\ k <= x /\ x + n + total b2 <= zlen m /\ 0 <= total b2 /\ x + n + total b2 = k + total (b1 ++ (n, s) :: b2) /\
  block_at m p x n s /\ laid m p (x + n) b2.
Proof.
  intros R Ex. pose proof (rg_pos R). pose proof (rg_end R) as He. pose proof (rg_laid R) as [L1 [B L2]]%laid_app.
  rewrite <- Ex in B, L2. pose proof (laid_total _ _ _ _ L1). pose proof (laid_total _ _ _ _ L2).
  pose proof (bk_size B). rewrite total_app in He |- *. cbn [total] in He |- *. split_and!; done || lia.
Qed.

Lemma merge_next_free p u m k b1 n n2 b3 l1 l2 x :
  region p u m k (b1 ++ (n, Free) :: (n2, Free) :: b3) (l1 ++ (x + n) :: l2) -> x = k + total b1 ->
  x ∉ l1 ++ (x + n) :: l2 -> 8 * (n + n2) <= SIZE_MAX ->
  exists m', merge_next base m u (8 * x) = Ret (m', set_free_list (ptr (head (l1 ++ l2))) u) /\
    region p (set_free_list (ptr (head (l1 ++ l2))) u) m' k (b1 ++ (n + n2, Free) :: b3) (l1 ++ l2) /\
    outside k (total (b1 ++ (n, Free) :: (n2, Free) :: b3)) m m'.
Proof using Hb.
  intros R Ex Nx Hs. destruct (block_words _ _ _ _ _ _ _ _ _ x R Ex) as (Hn & H0 & Hkx & He & Ht & Et & B & [B2 L3]).
  cbn [total] in He, Ht, Et. pose proof (bk_size B2) as Hn2. pose proof (laid_total _ _ _ _ L3).
  pose proof (rg_laid R) as HL. pose proof (region_inside _ _ _ _ _ _ R) as (InS & In & Sp).
  assert (x ∈ starts k (b1 ++ (n, Free) :: (n2, Free) :: b3)) as Hx
    by (rewrite starts_app; cbn [starts]; rewrite <- Ex; set_solver).
  destruct (resize_block m p x (n + n2)) as (m1 & m2 & E1 & E2 & Bn & K); [lia..|by rewrite (bk_state B)|apply B|].
  assert (chain base m2 (l1 ++ x + n :: l2)) as C2.
  { eapply chain_kept; [apply R|done|exact K|]. intros j y Hj Hy. pose proof (rg_starts R y Hy) as Hys.
    assert (y <> x) by (by intros ->). pose proof (starts_spaced _ _ _ _ HL x y Hx Hys).
    rewrite (cons_middle _ b1), app_assoc in HL, Hys. pose proof (starts_other _ _ _ _ _ _ _ _ HL Hys) as Ho.
    rewrite total_app in Ho. cbn [total] in Ho. cbn beta in Hj. lia. }
  destruct (unlink_block_spec base Hb m2 l1 (x + n) l2 C2 (rg_nodup R) Sp) as (m' & E3 & C3 & O3).
  { eapply inside_len; [apply K|done]. }
  pose proof (rg_nodup R) as ND. rewrite <- Permutation_middle in ND. apply NoDup_cons in ND as [Ny ND].
  assert (forall y, y ∈ l1 ++ l2 -> y ∈ starts k (b1 ++ (n + n2, Free) :: b3)) as St.
  { intros y Hy. assert (y ∈ l1 ++ x + n :: l2) as Hyy%(rg_starts R) by set_solver.
    rewrite starts_app in Hyy |- *. cbn [starts] in Hyy |- *. rewrite <- Ex in Hyy |- *. rewrite <- Z.add_assoc in Hyy.
    assert (y <> x + n) by (by intros ->). set_solver. }
  assert (laid m2 p k (b1 ++ (n + n2, Free) :: b3)) as L2.
  { apply (laid_replace p m m2 k b1 [(n, Free); (n2, Free)] b3 [(n + n2, Free)] _ (rg_pos R) HL K).
    - intros j Hj. cbn [total]. lia.
    - cbn [laid]. by rewrite <- Ex.
    - cbn [total]. lia. }
  assert (total (b1 ++ (n + n2, Free) :: b3) = total (b1 ++ (n, Free) :: (n2, Free) :: b3)) as Etot
    by (rewrite !total_app; cbn [total]; lia).
  exists m'. split; [|split].
  - unfold merge_next. unfold h_size, h_state. rewrite (ld_word m _ (x + 2)) by lia. cbn [obind]. rewrite (bk_head B).
    rewrite (rg_memory R), (rg_size R), decide_True by lia.
    replace (8 * x + 8 * n) with (8 * (x + n)) by lia. rewrite (ld_int_word m _ (x + n)) by lia. cbn [obind].
    rewrite (bk_state B2). cbn [code]. rewrite decide_True by done. rewrite (ld_word m _ (x + n + 2)) by lia. cbn [obind].
    rewrite (bk_head B2), u64_small by lia. replace (8 * n + 8 * n2) with (8 * (n + n2)) by lia. rewrite E1. cbn [obind].
    rewrite E2. cbn [obind]. rewrite (rg_head R), E3. done.
  - split; try done; rewrite ?Etot; try apply R.
    + rewrite (proj1 O3), (proj1 K). apply R.
    + eapply laid_links; [apply R| |exact L2]. intros j Hj Hy. apply (proj2 O3); [pose proof (rg_pos R); lia|].
      intros y Hyy%St. by apply Hy.
  - apply (outside_trans _ _ _ m2).
    + eapply kept_outside; [exact K|]. intros j Hj. cbn beta in Hj. lia.
    + rewrite <- Etot. by eapply links_outside.
Qed.

(** No free block follows. *)
Lemma merge_next_used p u m k b1 n b2 fl x : region p u m k (b1 ++ (n, Free) :: b2) fl -> x = k + total b1 ->
  (forall n2 b3, b2 <> (n2, Free) :: b3) -> merge_next base m u (8 * x) = Ret (m, u).
Proof.
  intros R Ex Hb2. destruct (block_words _ _ _ _ _ _ _ _ _ x R Ex) as (Hn & H0 & Hkx & He & Ht & Et & B & L).
  unfold merge_next, h_size, h_state. rewrite (ld_word m _ (x + 2)) by lia. cbn [obind]. rewrite (bk_head B).
  rewrite (rg_memory R), (rg_size R). destruct b2 as [|[n2 s2] b3]; cbn [total] in *.
  { by rewrite decide_False by lia. }
  destruct L as [B2 L3]. pose proof (bk_size B2). pose proof (laid_total _ _ _ _ L3). rewrite decide_True by lia.
  rewrite (ld_int_word m _ (x + n)) by lia. cbn [obind]. rewrite (bk_state B2).
  destruct s2; [by destruct (Hb2 n2 b3)|done].
Qed.

Lemma merge_prev_used p u m k b1 n s b2 fl x : region p u m k (b1 ++ (n, s) :: b2) fl -> x = k + total b1 -> guarded b1 ->
  merge_prev m u (8 * x) = Ret (m, 8 * x).
Proof.
  intros R Ex G. destruct (block_words _ _ _ _ _ _ _ _ _ x R Ex) as (Hn & H0 & Hkx & He & Ht & Et & B & L).
  unfold merge_prev. rewrite (rg_memory R). destruct b1 as [|[n0 s0] b0 _] using rev_ind.
  { cbn [total] in Ex. by rewrite decide_False by lia. }
  unfold guarded in G. rewrite last_snoc in G. destruct s0 as [|d]; [done|].
  rewrite <- app_assoc in R. destruct (block_words _ _ _ _ _ _ _ _ _ (k + total b0) R eq_refl) as (Hn0 & _ & ? & _ & _ & _ & B0 & _).
  rewrite total_app in Ex. cbn [total] in Ex. rewrite decide_True by lia.
  rewrite (ld_int_word m _ (x - 1)) by (pose proof (rg_pos R); unfold SIZEOF_FOOTER; lia). cbn [obind].
  pose proof (bk_fstate B0) as E. replace (k + total b0 + n0 - 1) with (x - 1) in E by lia. rewrite E. done.
Qed.

(** A block put in front of the list. *)
Lemma region_push p u m k bs fl x : region p u m k bs fl -> x ∈ starts k bs -> x ∉ fl ->
  exists m', push_block base m u (8 * x) = Ret (m', set_free_list (ptr (Some x)) u) /\
    region p (set_free_list (ptr (Some x)) u) m' k bs (x :: fl) /\ outside k (total bs) m m'.
Proof using Hb.
  intros R Hx Nx. assert (forall y, y ∈ x :: fl -> y ∈ starts k bs) as St.
  { intros y [->|Hy]%elem_of_cons; [done|by apply (rg_starts R)]. }
  pose proof (region_inside _ _ _ _ _ _ R) as (InS & _ & _).
  assert (NoDup (x :: fl)) as ND by (constructor; [done|apply R]).
  destruct (push_block_spec base Hb m u x fl (rg_head R) (rg_chain R) ND) as (m' & E & C & O).
  { intros a b Ha%St Hb'%St. by apply (starts_spaced _ _ _ _ (rg_laid R)). }
  { intros y Hy%St. by apply InS. }
  exists m'. split; [done|]. by eapply region_links.
Qed.

Lemma filter_absent (l : list Z) y : y ∉ l -> filter (fun z => z <> y) l = l.
Proof.
  induction l as [|x l IH]; [done|]. intros N. rewrite filter_cons_True by set_solver. f_equal. apply IH. set_solver.
Qed.

Lemma filter_middle (l1 l2 : list Z) y : NoDup (l1 ++ y :: l2) -> filter (fun z => z <> y) (l1 ++ y :: l2) = l1 ++ l2.
Proof.
  intros ND. rewrite <- Permutation_middle in ND. apply NoDup_cons in ND as [N _]. rewrite filter_app,
    filter_cons_False by (intros H; by apply H). rewrite !filter_absent by set_solver. done.
Qed.

Lemma free_spec p u m k b1 n d b2 fl x us sz : region p u m k (b1 ++ (n, Used d) :: b2) fl -> x = k + total b1 ->
  fl ≡ₚ frees k (b1 ++ (n, Used d) :: b2) -> guarded b1 -> us !! p = Some u ->
  8 * total (b1 ++ (n, Used d) :: b2) <= SIZE_MAX ->
  exists m' u', zenit_usable_buffer_free base m (Some (mk_buffer (Some (8 * (x + 5))) sz)) us =
      Ret (ZENIT_OK, m', <[p := u']> us) /\
    same_run u u' /\ region p u' m' k (put_back x b1 n b2 fl).1 (put_back x b1 n b2 fl).2 /\
    outside k (total (b1 ++ (n, Used d) :: b2)) m m'.
Proof using Hb.
  intros R Ex Hfl G Hu Hs. destruct (block_words _ _ _ _ _ _ _ _ _ x R Ex) as (Hn & H0 & Hkx & He & Ht & Et & B & L2).
  destruct (restate_block m p x n (Used d) Free H0 ltac:(lia) B I) as (m1 & m2 & E1 & E2 & B2 & K2).
  destruct (region_block _ _ _ m2 _ _ _ _ Free _ _ _ R K2) as [R2 U2];
    [intros j Hj; lia|by rewrite <- Ex|].
  assert (x ∉ fl) as Nx.
  { rewrite Hfl, frees_app. cbn [frees]. rewrite <- Ex. pose proof (rg_laid R) as [L1 _]%laid_app.
    intros [Hx%frees_starts|Hx%frees_starts]%elem_of_app; [pose proof (starts_range _ _ _ _ _ L1 Hx)|
      pose proof (starts_range _ _ _ _ _ L2 Hx)]; lia. }
  assert (exists m3 u3 bs3 fl3, merge_next base m2 u (8 * x) = Ret (m3, u3) /\
    same_run u u3 /\ region p u3 m3 k (b1 ++ bs3) fl3 /\ outside k (total (b1 ++ (n, Used d) :: b2)) m2 m3 /\ x ∉ fl3 /\
    total (b1 ++ bs3) = total (b1 ++ (n, Used d) :: b2) /\
    (exists n3 b3, bs3 = (n3, Free) :: b3) /\ put_back x b1 n b2 fl = (b1 ++ bs3, x :: fl3)) as
    (m3 & u3 & bs3 & fl3 & E3 & S3 & R3 & U3 & N3 & Et3 & (n3 & b3 & ->) & Ep).
  { destruct b2 as [|[n2 [|d2]] b3].
    - eexists m2, u, _, fl. split; [eapply merge_next_used; [exact R2|done|done]|]. split; [by split|]. split; [exact R2|].
      split_and!; [apply outside_refl|done|by rewrite !total_app|by eexists _, _|done].
    - assert (x + n ∈ fl) as (l1 & l2 & ->)%list_elem_of_split.
      { rewrite Hfl, frees_app. cbn [frees]. rewrite <- Ex. set_solver. }
      rewrite total_app in Hs. cbn [total] in Hs, Ht. pose proof (rg_laid R) as [L1%laid_total _]%laid_app.
      destruct L2 as [_ L3%laid_total].
      destruct (merge_next_free _ _ _ _ _ _ _ _ _ _ x R2 Ex Nx ltac:(lia)) as (m3 & E3 & R3 & U3).
      eexists m3, _, _, (l1 ++ l2). split; [exact E3|]. split; [by split|]. split; [exact R3|].
      split_and!; [by rewrite !total_app in U3 |- *|set_solver|rewrite !total_app; cbn [total]; lia|by eexists _, _|].
      unfold put_back. by rewrite filter_middle by apply R.
    - eexists m2, u, _, fl. split; [eapply merge_next_used; [exact R2|done|done]|]. split; [by split|]. split; [exact R2|].
      split_and!; [apply outside_refl|done|by rewrite !total_app|by eexists _, _|done]. }
  destruct (region_push p u3 m3 k _ fl3 x R3) as (m4 & E4 & R4 & U4); [|done|].
  { rewrite starts_app. cbn [starts]. rewrite <- Ex. set_solver. }
  exists m4, (set_free_list (ptr (Some x)) u3). rewrite Ep. split; [|split; [exact S3|split; [exact R4|]]].
  - unfold zenit_usable_buffer_free. cbn [ub_data]. replace (8 * (x + 5) - SIZEOF_HEADER) with (8 * x) by (unfold SIZEOF_HEADER; lia).
    unfold h_state at 1. rewrite (ld_int_word m _ x) by lia. cbn [obind]. rewrite (bk_state B). cbn [code].
    rewrite decide_False by (intros Hne; by apply Hne). change (set_state m (8 * x) BUF_FREE) with (set_state m (8 * x) (code Free)).
    rewrite E1. cbn [obind]. rewrite E2. cbn [obind]. unfold h_ua. pose proof (proj1 U2).
    rewrite (ld_word m2 _ (x + 1)) by lia. cbn [obind]. rewrite (bk_ua B2). cbn [Z.to_pos].
    rewrite (sget_Some us p u Hu). cbn [obind]. rewrite E3. cbn [obind].
    rewrite (merge_prev_used _ _ _ _ _ _ _ _ _ x R3 Ex G). cbn [obind]. rewrite E4. done.
  - eapply outside_trans; [exact U2|]. eapply outside_trans; [exact U3|]. by rewrite <- Et3.
Qed.

(** *** Every call *)

Lemma frees_claimed k b1 n b2 l1 l2 x w : x = k + total b1 -> l1 ++ x :: l2 ≡ₚ frees k (b1 ++ (n, Free) :: b2) ->
  l1 ++ left_of x n w ++ l2 ≡ₚ frees k (b1 ++ pieces_of n w ++ b2).
Proof.
  intros Ex. unfold pieces_of, left_of. rewrite !frees_app. cbn [frees]. rewrite <- Ex. intros H.
  assert (l1 ++ l2 ≡ₚ frees k b1 ++ frees (x + n) b2) as H'.
  { apply (Permutation_cons_inv (a := x)). by rewrite (Permutation_middle l1), (Permutation_middle (frees k b1)). }
  case_decide; cbn [frees app total].
  - replace (x + (w + (n - w + 0))) with (x + n) by lia. rewrite <- !Permutation_middle. by rewrite H'.
  - by rewrite Z.add_0_r.
Qed.

Lemma frees_put_back k b1 n d b2 fl x : x = k + total b1 -> NoDup fl -> fl ≡ₚ frees k (b1 ++ (n, Used d) :: b2) ->
  (put_back x b1 n b2 fl).2 ≡ₚ frees k (put_back x b1 n b2 fl).1.
Proof.
  intros Ex ND. unfold put_back. rewrite frees_app. cbn [frees]. rewrite <- Ex. intros H.
  destruct b2 as [|[n2 [|d2]] b3]; cbn [fst snd]; rewrite frees_app; cbn [frees] in H |- *; rewrite <- Ex.
  - rewrite <- Permutation_middle. by rewrite H.
  - assert (x + n ∈ fl) as (l1 & l2 & ->)%list_elem_of_split by (rewrite H; set_solver).
    rewrite filter_middle by done. rewrite <- Permutation_middle. constructor.
    apply (Permutation_cons_inv (a := x + n)). rewrite Z.add_assoc. by rewrite (Permutation_middle l1), (Permutation_middle (frees k b1)).
  - rewrite <- Permutation_middle. by rewrite H.
Qed.

Lemma alloc_spec p u m k bs fl us size : region p u m k bs fl -> fl ≡ₚ frees k bs -> us !! p = Some u ->
  8 * total bs <= SIZE_MAX -> 0 < size <= SIZE_MAX - 63 ->
  exists m' u', match first_fit (size_at k bs) ((size + 7) / 8 + 7) fl with
  | None => zenit_usable_arena_allocate base (length m) m (Some p) size us = Ret (null_buffer, m, us) /\ m' = m /\ u' = u
  | Some (l1, x, l2) => exists b1 n b2, split_at k bs x = Some (b1, (n, Free), b2) /\
      zenit_usable_arena_allocate base (length m) m (Some p) size us =
        Ret (mk_buffer (Some (8 * (x + 5))) (8 * ((size + 7) / 8)), m', <[p := u']> us) /\
      same_run u u' /\ region p u' m' k (b1 ++ pieces_of n ((size + 7) / 8 + 7) ++ b2) (l1 ++ left_of x n ((size + 7) / 8 + 7) ++ l2) /\
      l1 ++ left_of x n ((size + 7) / 8 + 7) ++ l2 ≡ₚ frees k (b1 ++ pieces_of n ((size + 7) / 8 + 7) ++ b2) /\
      outside k (total bs) m m'
  end.
Proof using Hb.
  intros R Hfl Hu Hs Hz. pose proof (rg_laid R) as HL. pose proof (region_inside _ _ _ _ _ _ R) as (_ & In & _).
  assert (0 < (size + 7) / 8 /\ 8 * ((size + 7) / 8) <= size + 7) as [Ha Ha'].
  { split; [apply Z.div_str_pos; lia|]. apply Z.mul_div_le; lia. }
  assert (find_block base (length m) m (ua_free_list u) (8 * ((size + 7) / 8 + 7)) =
    Ret (ptr ((fun '(_, x, _) => x) <$> first_fit (size_at k bs) ((size + 7) / 8 + 7) fl))) as Ef.
  { rewrite (rg_head R). apply find_block_spec; [|done|apply (rg_chain R)|].
    - rewrite Hfl. pose proof (frees_length k bs). pose proof (starts_count _ _ _ _ HL). pose proof (rg_end R).
      pose proof (rg_pos R). unfold zlen in *. lia.
    - eapply region_sizes; [exact R|]. intros y Hy. by rewrite Hfl in Hy. }
  assert (forall X, (X = find_block base (length m) m (ua_free_list u) (8 * ((size + 7) / 8 + 7))) ->
    zenit_usable_arena_allocate base (length m) m (Some p) size us =
    let! walk := X in
    match walk with
    | None => Ret (null_buffer, m, us)
    | Some h => let! (buf, m, u) := claim_block base m p u h (8 * ((size + 7) / 8 + 7)) (8 * ((size + 7) / 8)) in
                Ret (buf, m, <[p := u]> us)
    end) as Ea.
  { intros X ->. unfold zenit_usable_arena_allocate. rewrite decide_False by lia. rewrite align_up_spec by lia.
    rewrite decide_False by lia. rewrite (sget_Some us p u Hu). cbn [obind]. unfold SIZEOF_HEADER, SIZEOF_FOOTER.
    rewrite (u64_small (40 + _)), u64_small by lia.
    by replace (40 + 8 * ((size + 7) / 8) + 16) with (8 * ((size + 7) / 8 + 7)) by lia. }
  rewrite (Ea _ eq_refl), Ef. cbn [obind]. destruct (first_fit _ _ fl) as [[[l1 x] l2]|] eqn:Eff; cbn [fmap option_fmap option_map ptr].
  2: by exists m, u.
  apply first_fit_Some in Eff as [-> Hw].
  assert (x ∈ frees k bs) as Hx by (rewrite <- Hfl; set_solver).
  destruct (frees_split _ _ _ Hx) as (b1 & n & b2 & -> & Ex). pose proof HL as Hsp%split_at_laid. rewrite <- Ex in Hsp.
  unfold size_at in Hw. rewrite Hsp in Hw.
  destruct (block_words _ _ _ _ _ _ _ _ _ x R Ex) as (Hn & H0 & Hkx & He & Ht & Et & B & L2).
  pose proof (rg_pos R).
  destruct (claim_spec _ _ _ _ _ _ _ _ _ x ((size + 7) / 8 + 7) (8 * ((size + 7) / 8)) R Ex) as (m' & u' & E' & S' & R' & U'); [lia..|].
  exists m', u', b1, n, b2. split; [done|]. rewrite E'. split_and!; [done|apply S'..|done| |done].
  by apply frees_claimed.
Qed.

(** The memory and the handle represent the blocks and the free list. *)
Definition arena_rep (p : addr) (u0 : zenit_usable_arena_t) (k N : Z) (m0 : list Z) (us0 : usables) (s : list Z * usables) (a : layout * list Z) : Prop :=
  exists u, same_run u0 u /\ region p u s.1 k a.1 a.2 /\ a.2 ≡ₚ frees k a.1 /\ s.2 = <[p := u]> us0 /\ total a.1 = N /\
    outside k N m0 s.1.

Lemma same_run_trans u u1 u2 : same_run u u1 -> same_run u1 u2 -> same_run u u2.
Proof. unfold same_run. intros [-> ->] [-> ->]. done. Qed.

Lemma rep_step p u0 k N m0 us0 m bs m' u' bs' fl' : same_run u0 u' -> outside k N m0 m -> total bs = N -> total bs' = total bs ->
  region p u' m' k bs' fl' -> fl' ≡ₚ frees k bs' -> outside k (total bs) m m' ->
  arena_rep p u0 k N m0 us0 (m', <[p := u']> us0) (bs', fl').
Proof.
  intros S' U Et Et' R' Hfl U'. exists u'. cbn [fst snd]. rewrite Et in U', Et'.
  split_and!; [done..|by eapply outside_trans].
Qed.

(** A word of a buffer written. *)
Lemma write_spec p u m k b1 n d b2 fl x i v : region p u m k (b1 ++ (n, Used d) :: b2) fl -> x = k + total b1 ->
  0 <= i < zlen d ->
  exists m', st m (8 * (x + 5) + 8 * i) v = Ret m' /\
    region p u m' k (b1 ++ (n, Used (<[Z.to_nat i := Some v]> d)) :: b2) fl /\
    outside k (total (b1 ++ (n, Used d) :: b2)) m m'.
Proof.
  intros R Ex Hi. destruct (block_words _ _ _ _ _ _ _ _ _ x R Ex) as (Hn & H0 & Hkx & He & Ht & Et & B & L2).
  destruct (bk_data B) as [Ld Hd]. exists (upd m (x + 5 + i) v). rewrite (st_word m _ (x + 5 + i)) by lia. split; [done|].
  apply (region_block _ _ _ _ _ _ _ _ _ _ _ (fun j => j = x + 5 + i) R).
  - split; [apply zlen_upd|]. intros j Hj Hne. by rewrite W_upd, decide_False by lia.
  - intros j ->. lia.
  - rewrite <- Ex. destruct B as [B1 B2 B3 B4 B5 B6 _]. split; try done; words; try done.
    split; [by rewrite zlen_insert|]. intros j y. unfold zlen in *. rewrite list_lookup_insert_Some.
    intros [(<- & [= <-] & Hj)|[Hne Hj]].
    + rewrite W_upd, decide_True by (unfold zlen; lia). done.
    + pose proof (lookup_lt_Some _ _ _ Hj). rewrite W_upd, decide_False by (unfold zlen; lia). by apply Hd.
Qed.

Lemma buffer_split k bs data b1 b b2 : data mod 8 = 0 -> split_at k bs (data / 8 - 5) = Some (b1, b, b2) ->
  data = 8 * (data / 8 - 5 + 5) /\ bs = b1 ++ b :: b2 /\ data / 8 - 5 = k + total b1.
Proof.
  intros Hm [-> E]%split_at_Some. split; [|done]. pose proof (Z.div_mod data 8 ltac:(lia)). lia.
Qed.

Lemma put_back_total x b1 n d b2 fl : total (put_back x b1 n b2 fl).1 = total (b1 ++ (n, Used d) :: b2).
Proof. unfold put_back. destruct b2 as [|[n2 [|d2]] b3]; cbn [fst]; rewrite !total_app; cbn [total]; lia. Qed.

Lemma pieces_total n w : total (pieces_of n w) = n.
Proof. unfold pieces_of. case_decide; cbn [total]; lia. Qed.

Lemma exec_alloc p u0 k N m0 us0 m us bs fl size r a : arena_rep p u0 k N m0 us0 (m, us) (bs, fl) -> 8 * N <= SIZE_MAX ->
  spec_step k (AAlloc size) (bs, fl) = Some (r, a) ->
  exists s', arena_exec base p (AAlloc size) (m, us) = Ret (r, s') /\ arena_rep p u0 k N m0 us0 s' a.
Proof using Hb.
  intros (u & Sr & R & Hfl & Eu & Et & U) HN. cbn [fst snd] in *. cbn [spec_step arena_exec].
  assert (us !! p = Some u) as Hu by (by rewrite Eu, lookup_insert_eq).
  case_decide as D1.
  { intros [= <- <-]. exists (m, us). split; [|by exists u]. unfold zenit_usable_arena_allocate.
    case_decide; [done|]. rewrite decide_True; [done|]. unfold align_up. rewrite decide_True; [done|].
    unfold ALIGNMENT. lia. }
  case_decide as D2; [done|].
  destruct (alloc_spec p u m k bs fl us size R Hfl Hu ltac:(lia) ltac:(lia)) as (m' & u' & H).
  destruct (first_fit _ _ fl) as [[[l1 x] l2]|].
  - destruct H as (b1 & n & b2 & Es & Ea & S' & R' & Hfl' & U'). rewrite Es. intros [= <- <-]. rewrite Ea. cbn [obind].
    eexists. split; [done|]. rewrite Eu, insert_insert_eq. apply split_at_Some in Es as [-> Ex].
    eapply rep_step; [by eapply same_run_trans|exact U|exact Et| |exact R'|exact Hfl'|exact U'].
    rewrite !total_app, pieces_total. done.
  - intros [= <- <-]. destruct H as (-> & -> & ->). cbn [obind]. exists (m, us). split; [done|]. by exists u.
Qed.

Lemma exec_free p u0 k N m0 us0 m us bs fl b r a : arena_rep p u0 k N m0 us0 (m, us) (bs, fl) -> 8 * N <= SIZE_MAX ->
  spec_step k (AFree b) (bs, fl) = Some (r, a) ->
  exists s', arena_exec base p (AFree b) (m, us) = Ret (r, s') /\ arena_rep p u0 k N m0 us0 s' a.
Proof using Hb.
  intros (u & Sr & R & Hfl & Eu & Et & U) HN. cbn [fst snd] in *. cbn [spec_step arena_exec].
  assert (us !! p = Some u) as Hu by (by rewrite Eu, lookup_insert_eq).
  destruct b as [[data|] sz]; [|intros [= <- <-]; exists (m, us); split; [done|by exists u]].
  case_decide as Dm; [|done]. destruct (split_at k bs (data / 8 - 5)) as [[[b1 [n s]] b2]|] eqn:Es; [|done].
  destruct (buffer_split _ _ _ _ _ _ Dm Es) as (Ed & -> & Ex). destruct s as [|d].
  - intros [= <- <-]. exists (m, us). split; [|by exists u].
    destruct (block_words _ _ _ _ _ _ _ _ _ _ R Ex) as (Hn & H0 & Hkx & He & Ht & Eq & B & L2).
    unfold zenit_usable_buffer_free, h_state. cbn [ub_data].
    rewrite (ld_int_word m _ (data / 8 - 5)) by (unfold SIZEOF_HEADER; lia). cbn [obind]. rewrite (bk_state B). done.
  - case_decide as G; [|done]. intros [= <- <-].
    destruct (free_spec p u m k b1 n d b2 fl _ us sz R Ex Hfl G Hu ltac:(lia)) as (m' & u' & Ef & S' & R' & U').
    rewrite <- Ed in Ef. rewrite Ef. cbn [obind]. eexists. split; [done|]. rewrite Eu, insert_insert_eq.
    destruct (put_back _ _ _ _ _) as [bs' fl'] eqn:Ep. 
    eapply rep_step; [by eapply same_run_trans|exact U|exact Et| |exact R'| |exact U'].
    + rewrite <- (put_back_total (data / 8 - 5) b1 n d b2 fl). by rewrite Ep.
    + pose proof (frees_put_back k b1 n d b2 fl _ Ex (rg_nodup R) Hfl) as Hp. by rewrite Ep in Hp.
Qed.

Lemma exec_words p u0 k N m0 us0 m us bs fl op r a : arena_rep p u0 k N m0 us0 (m, us) (bs, fl) ->
  match op with AWrite _ _ _ | ARead _ _ => True | _ => False end -> spec_step k op (bs, fl) = Some (r, a) ->
  exists s', arena_exec base p op (m, us) = Ret (r, s') /\ arena_rep p u0 k N m0 us0 s' a.
Proof.
  intros (u & Sr & R & Hfl & Eu & Et & U) Hop. cbn [fst snd] in *.
  destruct op as [| |data i v|data i]; try done; cbn [spec_step arena_exec].
  all: case_decide as Dm; [|done]; destruct (split_at k bs (data / 8 - 5)) as [[[b1 [n [|d]]] b2]|] eqn:Es; [done| |done].
  all: destruct (buffer_split _ _ _ _ _ _ Dm Es) as (Ed & -> & Ex); case_decide as Di; [|done].
  - intros [= <- <-]. destruct (write_spec p u m k b1 n d b2 fl _ i v R Ex Di) as (m' & Ew & R' & U').
    rewrite <- Ed in Ew. rewrite Ew. cbn [obind]. eexists. split; [done|]. rewrite Eu.
    eapply rep_step; [exact Sr|exact U|exact Et| |exact R'| |exact U']; [by rewrite !total_app|].
    rewrite Hfl, !frees_app. done.
  - destruct (d !! Z.to_nat i) as [[w|]|] eqn:Ei; [|done..]. intros [= <- <-]. exists (m, us). split; [|by exists u].
    destruct (block_words _ _ _ _ _ _ _ _ _ _ R Ex) as (Hn & H0 & Hkx & He & Ht & Eq & B & L2).
    destruct (bk_data B) as [Ld Hd]. pose proof (lookup_lt_Some _ _ _ Ei). unfold zlen in Ld.
    rewrite (ld_word m _ (data / 8 - 5 + 5 + i)) by lia. cbn [obind].
    by rewrite <- (Hd _ _ Ei), Z2Nat.id by lia.
Qed.

Lemma exec_spec p u0 k N m0 us0 op s a r a' : 8 * N <= SIZE_MAX -> arena_rep p u0 k N m0 us0 s a ->
  spec_step k op a = Some (r, a') ->
  exists s', arena_exec base p op s = Ret (r, s') /\ arena_rep p u0 k N m0 us0 s' a'.
Proof using Hb.
  intros HN H E. destruct s as [m us], a as [bs fl].
  destruct op; [by eapply exec_alloc|by eapply exec_free|by eapply exec_words..].
Qed.

Lemma arena_run_spec p u0 k N m0 us0 ops : 8 * N <= SIZE_MAX -> forall s a rs a',
  arena_rep p u0 k N m0 us0 s a -> spec_run k ops a = Some (rs, a') ->
  exists s', run (arena_exec base p) ops s = Ret (rs, s') /\ arena_rep p u0 k N m0 us0 s' a'.
Proof using Hb.
  intros HN. induction ops as [|op ops IH]; intros [m us] [bs fl] rs a' H; cbn [spec_run run].
  { intros [= <- <-]. by exists (m, us). }
  destruct (spec_step k op (bs, fl)) as [[r a1]|] eqn:E; [|done].
  destruct (spec_run k ops a1) as [[rs1 a2]|] eqn:E'; [|done]. intros [= <- <-].
  destruct (exec_spec _ _ _ _ _ _ _ _ _ _ _ HN H E) as (s1 & -> & H1). cbn [obind]. destruct (IH _ _ _ _ H1 E') as (s2 & -> & H2). by exists s2.
Qed.

Lemma init_region_spec m k N p : 0 <= k -> 8 <= N -> k + N <= zlen m ->
  exists m', init_region base m (8 * k) p (8 * N) = Ret m' /\ outside k N m m' /\
    forall bo bc, region p (mk_usable bo bc (8 * k) (8 * N) (Some (8 * k))) m' k [(N, Free)] [k].
Proof using Hb.
  intros Hk HN Hl. unfold init_region, set_state, set_ua, set_size. rewrite (st_int_word m _ k) by lia. cbn [obind].
  rewrite (st_word _ _ (k + 1)) by (rewrite ?zlen_upd; lia). cbn [obind].
  rewrite (st_word _ _ (k + 2)) by (rewrite ?zlen_upd; lia). cbn [obind].
  rewrite set_next_word by (rewrite ?zlen_upd; lia). cbn [obind]. rewrite set_prev_word by (rewrite ?zlen_upd; lia).
  cbn [obind]. rewrite (footer_sync_word _ k N) by (rewrite ?zlen_upd; try lia; by words).
  eexists. split; [done|]. split.
  - split; [by rewrite !zlen_upd|]. intros j Hj Hx. by words.
  - intros bo bc. split; try done; cbn [total starts laid]; rewrite ?zlen_upd; try lia.
    + simpl. lia.
    + split; [|done]. split; try done; words; try done; [by apply low_mod|].
      rewrite (low_mod _ BUF_FREE) by done. by apply low_mod.
    + split; simpl; (split; [|done]); unfold nx, pv; words; done.
    + apply NoDup_singleton.
Qed.
End Regions.

Arguments rg_memory {base p u m k bs fl}.
Arguments rg_size {base p u m k bs fl}.
Arguments rg_pos {base p u m k bs fl}.
Arguments rg_end {base p u m k bs fl}.
Arguments rg_laid {base p u m k bs fl}.
Arguments rg_chain {base p u m k bs fl}.
Arguments rg_nodup {base p u m k bs fl}.
Arguments rg_starts {base p u m k bs fl}.
Arguments rg_head {base p u m k bs fl}.
