(* ===== verification/ArenaBlocks.v ===== *)
(** * Blocks of an arena

    The arena of [Arena] as a whole: a bitmap of blocks, runs of them handed out as
    usable arenas, and a region of buffers in every run ([ArenaBuffers]).  The
    invariant [arena_inv] ties the bitmap to the runs and every run to the layout of
    its region; acquiring, releasing and the buffer calls preserve it. *)

From Stdlib Require Import ZArith Lia.
From stdpp Require Import base tactics option list numbers gmap sets.
From S2P Require Import Prelude Mem Result Allocator Words Links Machine Bitset Arena ArenaBuffers.
Open Scope Z_scope.

(** ** The bitmap *)

(** A bitmap of at least [n] bits. *)
Definition bitmap_ok (bm : option block) (n : Z) : Prop := bm <> None /\ n <= 8 * zlen (pbytes bm).
Definition bit (bm : option block) (i : Z) : bool := bit_at (pbytes bm) i.

Lemma bit_byte bm n i : bitmap_ok bm n -> 0 <= i < n ->
  0 <= i / 8 < zlen (pbytes bm) /\ exists v, pbytes bm !! Z.to_nat (i / 8) = Some v /\ pget bm (i / 8) = Ret v /\
    forall j, j / 8 = i / 8 -> bit bm j = Z.testbit v (j mod 8).
Proof.
  intros [Nb Hl] Hi.
  assert (0 <= i / 8 < zlen (pbytes bm)) as Hr by (split; [apply Z.div_pos; lia|apply Z.div_lt_upper_bound; lia]).
  split; [done|]. destruct (aget_range _ _ Hr) as (v & Ev & _). exists v. split; [done|].
  split; [by apply pget_lookup; [|lia|]|]. intros j Ej. unfold bit, bit_at. by rewrite Ej, nth_lookup, Ev.
Qed.

Lemma bitmap_get_spec bm n i : bitmap_ok bm n -> 0 <= i < n -> bitmap_get bm i = Ret (Z.b2z (bit bm i)).
Proof.
  intros H Hi. destruct (bit_byte bm n i H Hi) as (_ & v & _ & Ev & Hb). unfold bitmap_get. rewrite Ev. cbn [obind].
  pose proof (Z.mod_pos_bound i 8 ltac:(lia)). rewrite Hb by done. f_equal.
  change 1 with (Z.ones 1). rewrite Z.land_ones, Z.pow_1_r by lia. rewrite Z.testbit_spec' by lia.
  by rewrite Z.shiftr_div_pow2 by lia.
Qed.

Lemma mask_bits v b k (value : bool) : 0 <= b < 8 -> 0 <= k < 8 ->
  Z.testbit (u8 (if value then Z.lor v (Z.shiftl 1 b) else Z.land v (u32 (Z.lnot (Z.shiftl 1 b))))) k =
  if decide (k = b) then value else Z.testbit v k.
Proof.
  intros Hb Hk. rewrite u8_bits by done.
  assert (forall w, Z.testbit (u32 w) k = Z.testbit w k) as H32
    by (intros w; unfold u32; change two32 with (2 ^ 32); apply Z.mod_pow2_bits_low; lia).
  destruct value; rewrite ?Z.lor_spec, ?Z.land_spec, ?H32, ?Z.lnot_spec, shift1_bits by lia; case_decide as D.
  1,3: rewrite bool_decide_eq_true_2 by done; by destruct (Z.testbit v k).
  all: rewrite bool_decide_eq_false_2 by done; by destruct (Z.testbit v k).
Qed.

Lemma bitmap_set_spec bm n i value : bitmap_ok bm n -> 0 <= i < n ->
  exists bm', bitmap_set bm i value = Ret bm' /\ bitmap_ok bm' n /\ pown bm' = pown bm /\
    forall j, 0 <= j -> bit bm' j = if decide (j = i) then value else bit bm j.
Proof.
  intros H Hi. destruct (bit_byte bm n i H Hi) as (Hr & v & Ev & Eg & Hb). destruct H as [Nb Hl].
  unfold bitmap_set. rewrite Eg. cbn [obind].
  destruct (pset_range bm (i / 8) (u8 (if value then Z.lor v (Z.shiftl 1 (i mod 8))
    else Z.land v (u32 (Z.lnot (Z.shiftl 1 (i mod 8))))))) as (bm' & E & Nb' & Ob & Eb); [done|done|].
  exists bm'. split; [done|]. split; [split; [done|by rewrite Eb, zlen_insert]|]. split; [done|]. intros j Hj.
  pose proof (Z.mod_pos_bound i 8 ltac:(lia)). pose proof (Z.mod_pos_bound j 8 ltac:(lia)).
  pose proof (Z.div_mod i 8 ltac:(lia)). pose proof (Z.div_mod j 8 ltac:(lia)).
  unfold bit. rewrite Eb, bit_at_insert by lia. destruct (decide (j / 8 = i / 8)) as [D|D].
  - rewrite mask_bits by lia. destruct (decide (j = i)) as [->|]; [by rewrite decide_True|].
    rewrite decide_False by lia. symmetry. by apply Hb.
  - rewrite decide_False by congruence. done.
Qed.

(** The blocks [s .. s + c) are free. *)
Definition free_run (f : Z -> bool) (s c : Z) : Prop := forall j, s <= j < s + c -> f j = false.

(** The first run of [c] free blocks below [n]. *)
Definition first_run (f : Z -> bool) (n c : Z) (o : option Z) : Prop :=
  match o with
  | Some s => 0 <= s /\ s + c <= n /\ free_run f s c /\ forall t, 0 <= t < s -> ~ free_run f t c
  | None => forall t, 0 <= t -> t + c <= n -> ~ free_run f t c
  end.

Lemma find_run_spec bm n c : bitmap_ok bm n -> n < two64 -> forall m i r, n = i + Z.of_nat m -> 0 <= r <= i -> r < c < two64 ->
  free_run (bit bm) (i - r) r -> (forall t, 0 <= t < i - r -> ~ free_run (bit bm) t c) ->
  exists o, find_run m bm i c r = Ret o /\ first_run (bit bm) n c o.
Proof.
  intros H Hn. induction m as [|m IH]; intros i r En Hr Hc Fr Hmin; cbn [find_run].
  { exists None. split; [done|]. intros t Ht Hte. apply Hmin. lia. }
  rewrite (bitmap_get_spec bm n i H) by lia. cbn [obind]. destruct (bit bm i) eqn:Ei; cbn [Z.b2z].
  - rewrite decide_False by lia. rewrite u64_small by lia. apply IH; [lia|lia|lia|intros j Hj; lia|].
    intros t Ht Hf. destruct (decide (t < i - r)); [by apply (Hmin t); [lia|]|].
    rewrite Hf in Ei by lia. done.
  - rewrite decide_True by done. rewrite (u64_small (r + 1)) by lia.
    assert (free_run (bit bm) (i - r) (r + 1)) as Fr'.
    { intros j Hj. destruct (decide (j = i)) as [->|]; [done|]. apply Fr. lia. }
    case_decide as D.
    + exists (Some (i - r)). assert (0 <= i - r) by lia. split.
      * do 2 f_equal. destruct (decide (i < c)).
        -- unfold u64. rewrite Zplus_mod_idemp_l. rewrite Z.mod_small by lia. lia.
        -- rewrite (u64_small (i - c)), u64_small by lia. lia.
      * split_and!; [lia|lia|by rewrite <- D|done].
    + rewrite u64_small by lia. apply IH; [lia..| |]; replace (i + 1 - (r + 1)) with (i - r) by lia; done.
Qed.

Lemma find_contiguous_spec bm n c : bitmap_ok bm n -> 0 <= n < two64 -> 0 < c < two64 ->
  exists o, bitmap_find_contiguous bm n c = Ret o /\ first_run (bit bm) n c o.
Proof.
  intros H Hn Hc. unfold bitmap_find_contiguous.
  apply (find_run_spec bm n c H); [lia|lia|lia|lia|intros j Hj; lia|intros t Ht; lia].
Qed.

Lemma mark_run_spec bm n value : n < two64 -> forall c i, bitmap_ok bm n -> 0 <= i -> i + Z.of_nat c <= n ->
  exists bm', mark_run c bm i value = Ret bm' /\ bitmap_ok bm' n /\ pown bm' = pown bm /\
    forall j, 0 <= j -> bit bm' j = if decide (i <= j < i + Z.of_nat c) then value else bit bm j.
Proof.
  intros Hn c. revert bm. induction c as [|c IH]; intros bm i H Hi Hc; cbn [mark_run].
  { exists bm. split_and!; try done. intros j Hj. by rewrite decide_False by lia. }
  destruct (bitmap_set_spec bm n i value H ltac:(lia)) as (bm1 & -> & H1 & O1 & B1). cbn [obind].
  rewrite u64_small by lia. destruct (IH bm1 (i + 1) H1 ltac:(lia) ltac:(lia)) as (bm' & -> & H' & O' & B').
  exists bm'. split_and!; [done|done|by rewrite O', O1|]. intros j Hj. rewrite B', B1 by done.
  repeat case_decide; done || lia.
Qed.

(** ** Frames of a region *)

Lemma length_starts k bs : length (starts k bs) = length bs.
Proof. revert k. induction bs as [|[n s] bs IH]; intros k; [done|]. cbn. by rewrite IH. Qed.

Lemma region_frame base p u m m' k bs fl : region base p u m k bs fl -> zlen m' = zlen m ->
  (forall j, k <= j < k + total bs -> W m' j = W m j) -> region base p u m' k bs fl.
Proof.
  intros R L H. pose proof (rg_laid R) as HL. split; try apply R.
  - rewrite L. apply R.
  - eapply laid_ext; [apply R|exact H|exact HL].
  - eapply chain_ext; [|apply R]. intros x Hx%(rg_starts R). pose proof (starts_range _ _ _ _ _ HL Hx).
    split; apply H; lia.
Qed.

(** No buffer is in use. *)
Definition all_free (bs : layout) : bool := forallb (fun b => match b.2 with Free => true | Used _ => false end) bs.

(** A region with a buffer in use is reported, one without is not. *)
Lemma scan_region_spec m p bs : forall k fuel, laid m p k bs -> 0 <= k -> k + total bs <= zlen m -> (length bs <= fuel)%nat ->
  scan_region fuel m (8 * k) (8 * (k + total bs)) = Ret (if all_free bs then None else Some ZENIT_ERROR_STATE).
Proof.
  induction bs as [|[n s] bs IH]; intros k fuel HL Hk He Hf.
  { cbn [total all_free forallb]. destruct fuel; cbn [scan_region]; by rewrite decide_False by lia. }
  destruct fuel as [|fuel]; [cbn [length] in Hf; lia|]. cbn [laid total length] in *. destruct HL as [B L].
  pose proof (bk_size B). pose proof (laid_total _ _ _ _ L). cbn [scan_region]. rewrite decide_True by lia.
  unfold h_state, h_size. rewrite (ld_int_word m _ k) by lia. cbn [obind]. rewrite (bk_state B).
  destruct s as [|d]; cbn [code all_free forallb snd andb]; [|done].
  rewrite decide_False by done. rewrite (ld_word m _ (k + 2)) by lia. cbn [obind]. rewrite (bk_head B).
  rewrite decide_False by lia. replace (8 * k + 8 * n) with (8 * (k + n)) by lia.
  replace (8 * (k + (n + total bs))) with (8 * (k + n + total bs)) by lia. apply IH; done || lia.
Qed.

(** ** The whole arena

    A run of blocks that was handed out: where it starts, how many blocks it has,
    and the buffers of its region. *)

Record arun : Type := mk_arun { r_start : Z; r_count : Z; r_blocks : layout; r_list : list Z }.

Abbreviation runs := (gmap addr arun).

(** The block [i] is in a run. *)
Definition taken (X : runs) (i : Z) : Prop :=
  exists p r, X !! p = Some r /\ r_start r <= i < r_start r + r_count r.

(** The first place for [c] blocks among [n]. *)
Definition first_place (X : runs) (n c s : Z) : Prop :=
  0 <= s /\ s + c <= n /\ (forall i, s <= i < s + c -> ~ taken X i) /\
  forall t, 0 <= t < s -> exists i, t <= i < t + c /\ taken X i.

Inductive arena_call : Type :=
| CAcquire (size : Z)
| CRelease (p : addr)
| CBuffer (p : addr) (op : arena_op).

Inductive arena_out : Type :=
| OHandle (p : option addr)
| OResult (e : zenit_error_t)
| OBuffer (r : arena_res).

(** The documented behaviour of an arena of [n] blocks of [8 * B] bytes; [oom] says
    whether the allocator may refuse a handle. *)
Inductive arena_step (B n : Z) (oom : Prop) : arena_call -> runs -> arena_out -> runs -> Prop :=
| as_acquire size X p s : 0 < size -> size mod (8 * B) = 0 -> X !! p = None ->
    first_place X n (size / (8 * B)) s ->
    arena_step B n oom (CAcquire size) X (OHandle (Some p))
      (<[p := mk_arun s (size / (8 * B)) [(size / 8, Free)] [s * B]]> X)
| as_bad_size size X : size = 0 \/ size mod (8 * B) <> 0 -> arena_step B n oom (CAcquire size) X (OHandle None) X
| as_full size X : (forall s, ~ first_place X n (size / (8 * B)) s) -> arena_step B n oom (CAcquire size) X (OHandle None) X
| as_no_memory size X : oom -> arena_step B n oom (CAcquire size) X (OHandle None) X
| as_release p r X : X !! p = Some r -> all_free (r_blocks r) = true ->
    arena_step B n oom (CRelease p) X (OResult ZENIT_OK) (delete p X)
| as_in_use p r X : X !! p = Some r -> all_free (r_blocks r) = false ->
    arena_step B n oom (CRelease p) X (OResult ZENIT_ERROR_STATE) X
| as_buffer p op r X res bs fl : X !! p = Some r ->
    spec_step (r_start r * B) op (r_blocks r, r_list r) = Some (res, (bs, fl)) ->
    arena_step B n oom (CBuffer p op) X (OBuffer res) (<[p := mk_arun (r_start r) (r_count r) bs fl]> X).

(** The calls a client may make: on handles it holds, and inside the contract of
    the buffer calls. *)
Definition arena_legal (B : Z) (call : arena_call) (X : runs) : Prop :=
  match call with
  | CAcquire size => 0 <= size < two64
  | CRelease p => is_Some (X !! p)
  | CBuffer p op => exists r, X !! p = Some r /\ is_Some (spec_step (r_start r * B) op (r_blocks r, r_list r))
  end.

(** The calls on the state: the arena, the usable arenas and the allocator. *)
Definition arena_call_exec {C : Type} (base : Z) (call : arena_call) (s : zenit_arena_t C * usables * C)
    : outcome (arena_out * (zenit_arena_t C * usables * C)) :=
  let '(ar, us, c) := s in
  match call with
  | CAcquire size =>
      let! (o, ar', us, c) := zenit_arena_acquire base (Some ar) size us c in
      Ret (OHandle o, (default ar ar', us, c))
  | CRelease p =>
      let! (e, ar', us, c) := zenit_arena_release (length (wdata (ar_memory ar))) (Some ar) (Some p) us c in
      Ret (OResult e, (default ar ar', us, c))
  | CBuffer p op =>
      let! (r, s) := arena_exec base p op (wdata (ar_memory ar), us) in
      Ret (OBuffer r, (set_memory ar s.1, s.2, c))
  end.


Section Arena.
Context (base : Z) (Hb : 0 < base) {C : Type} (a : zenit_allocator_t C) {SP : AllocSpec a}.
Implicit Types (ar : zenit_arena_t C) (us : usables) (c : C) (X : runs).

Definition memory_of ar : list Z := wdata (ar_memory ar).
Definition arena_own ar : gset addr :=
  {[ ar_self ar ]} ∪ pown (ar_bitmap ar) ∪ match ar_memory ar with Some w => {[ w_addr w ]} | None => ∅ end.

(** The run [r] is what the handle [u] says, and its region is in order. *)
Record run_ok ar (B : Z) (p : addr) (u : zenit_usable_arena_t) (r : arun) : Prop := {
  ro_offset : ua_block_offset u = r_start r;
  ro_count : ua_block_count u = r_count r;
  ro_start : 0 <= r_start r;
  ro_pos : 0 < r_count r;
  ro_end : r_start r + r_count r <= ar_block_count ar;
  ro_total : total (r_blocks r) = r_count r * B;
  ro_region : region base p u (memory_of ar) (r_start r * B) (r_blocks r) (r_list r);
  ro_list : r_list r ≡ₚ frees (r_start r * B) (r_blocks r) }.

Record arena_inv (B n : Z) (s : zenit_arena_t C * usables * C) X : Prop := {
  ai_allocator : ar_allocator s.1.1 = a;
  ai_block : ar_block_size s.1.1 = 8 * B;
  ai_min : 8 <= B;
  ai_count : ar_block_count s.1.1 = n;
  ai_size : 0 <= n /\ n * (8 * B) <= SIZE_MAX;
  ai_memory : ar_memory s.1.1 <> None /\ zlen (memory_of s.1.1) = n * B;
  ai_bitmap : bitmap_ok (ar_bitmap s.1.1) n;
  ai_bits i : 0 <= i < n -> bit (ar_bitmap s.1.1) i = true <-> taken X i;
  ai_runs p r : X !! p = Some r -> exists u, s.1.2 !! p = Some u /\ run_ok s.1.1 B p u r;
  ai_dom : dom s.1.2 = dom X;
  ai_apart p q r1 r2 : p <> q -> X !! p = Some r1 -> X !! q = Some r2 ->
    r_start r1 + r_count r1 <= r_start r2 \/ r_start r2 + r_count r2 <= r_start r1;
  ai_live : arena_own s.1.1 ∪ dom X ⊆ live s.2;
  ai_sep : arena_own s.1.1 ## dom X }.
Arguments ro_offset {ar B p u r}.
Arguments ro_count {ar B p u r}.
Arguments ro_start {ar B p u r}.
Arguments ro_pos {ar B p u r}.
Arguments ro_end {ar B p u r}.
Arguments ro_total {ar B p u r}.
Arguments ro_region {ar B p u r}.
Arguments ro_list {ar B p u r}.
Arguments ai_allocator {B n s X}.
Arguments ai_block {B n s X}.
Arguments ai_min {B n s X}.
Arguments ai_count {B n s X}.
Arguments ai_size {B n s X}.
Arguments ai_memory {B n s X}.
Arguments ai_bitmap {B n s X}.
Arguments ai_bits {B n s X}.
Arguments ai_runs {B n s X}.
Arguments ai_dom {B n s X}.
Arguments ai_apart {B n s X}.
Arguments ai_live {B n s X}.
Arguments ai_sep {B n s X}.

Lemma memory_set ar m : ar_memory ar <> None -> memory_of (set_memory ar m) = m.
Proof. unfold memory_of, set_memory. cbn. by destruct (ar_memory ar). Qed.

Lemma own_set ar m : arena_own (set_memory ar m) = arena_own ar.
Proof. unfold arena_own. cbn. by destruct (ar_memory ar). Qed.

(** Writes inside the blocks [s .. s + c) leave the other runs alone. *)
Lemma run_frame ar ar' B p u r s (d : Z) : run_ok ar B p u r -> 0 <= B -> ar_block_count ar' = ar_block_count ar ->
  outside (s * B) (d * B) (memory_of ar) (memory_of ar') ->
  r_start r + r_count r <= s \/ s + d <= r_start r -> run_ok ar' B p u r.
Proof.
  intros [R1 R2 R3 R4 R5 R6 R7 R8] HB En [L H] D. split; try done; [by rewrite En|].
  eapply region_frame; [exact R7|exact L|]. intros j Hj. apply H; [|rewrite R6 in Hj; nia]. nia.
Qed.

(** *** Buffers *)

Lemma buffer_sim B n s X p r op res bs fl : arena_inv B n s X -> X !! p = Some r ->
  spec_step (r_start r * B) op (r_blocks r, r_list r) = Some (res, (bs, fl)) ->
  exists s', arena_call_exec base (CBuffer p op) s = Ret (OBuffer res, s') /\
    arena_inv B n s' (<[p := mk_arun (r_start r) (r_count r) bs fl]> X).
Proof using Hb.
  destruct s as [[ar us] c]. intros I Hp Hs. destruct (ai_runs I p r Hp) as (u & Hu & R). cbn [fst snd] in *.
  pose proof (ai_size I) as [Hn HN]. pose proof (ai_min I) as HB.
  assert (8 * (r_count r * B) <= SIZE_MAX) as HS
    by (pose proof (ro_end R) as He; pose proof (ai_count I); pose proof (ro_start R); cbn in *; nia).
  destruct (exec_spec base Hb p u (r_start r * B) (r_count r * B) (memory_of ar) us op (memory_of ar, us) (r_blocks r, r_list r)
    res (bs, fl) HS) as ([m' us'] & E & u' & [S1 S2] & R' & Hfl & Eu & Et & U); [|exact Hs|].
  { exists u. cbn. split_and!; try apply R; [by split|by rewrite insert_id|apply outside_refl]. }
  cbn [fst snd] in *. exists (set_memory ar m', us', c).
  destruct (ai_memory I) as [Nm Lm]. cbn [fst snd] in Nm, Lm.
  split; [unfold arena_call_exec; fold (memory_of ar); by rewrite E|].
  assert (X !! p = Some r -> dom (<[p := mk_arun (r_start r) (r_count r) bs fl]> X) = dom X) as Ed.
  { intros H%elem_of_dom_2. rewrite dom_insert_L. set_solver. }
  split; cbn [fst snd]; try apply I.
  - split; [by cbn; destruct (ar_memory ar)|]. rewrite memory_set by done. rewrite (proj1 U). done.
  - intros i Hi. rewrite (ai_bits I i Hi). unfold taken. split.
    + intros (q & r0 & Hq & Hr). destruct (decide (q = p)) as [->|D].
      * eexists p, _. rewrite lookup_insert_eq. split; [done|]. simplify_eq. done.
      * exists q, r0. by rewrite lookup_insert_ne.
    + intros (q & r0 & Hq & Hr). apply lookup_insert_Some in Hq as [[<- <-]|[D Hq]]; [by exists p, r|by exists q, r0].
  - intros q r0 Hq. apply lookup_insert_Some in Hq as [[<- <-]|[D Hq]].
    + exists u'. rewrite Eu, lookup_insert_eq. split; [done|]. destruct R as [R1 R2 R3 R4 R5 R6 R7 R8].
      split; cbn; try done; try congruence. by rewrite memory_set.
    + destruct (ai_runs I q r0 Hq) as (v & Hv & Rv). exists v. rewrite Eu, lookup_insert_ne by done.
      split; [done|]. eapply run_frame; [exact Rv|lia|done|by rewrite memory_set|].
      apply (ai_apart I q p); congruence.
  - rewrite Eu, dom_insert_L, Ed by done. rewrite <- (ai_dom I). cbn. apply elem_of_dom_2 in Hu. set_solver.
  - intros q1 q2 r1 r2 D H1 H2. apply lookup_insert_Some in H1 as [[<- <-]|[D1 H1]], H2 as [[<- <-]|[D2 H2]]; cbn.
    + done.
    + by apply (ai_apart I p q2).
    + by apply (ai_apart I q1 p).
    + by apply (ai_apart I q1 q2).
  - rewrite own_set, Ed by done. apply I.
  - rewrite own_set, Ed by done. apply I.
Qed.

(** *** Releasing *)

Lemma own_bitmap ar bm : pown bm = pown (ar_bitmap ar) -> arena_own (set_bitmap ar bm) = arena_own ar.
Proof. intros E. unfold arena_own. cbn. by rewrite E. Qed.

Lemma taken_delete B n s X p r i : arena_inv B n s X -> X !! p = Some r ->
  taken (delete p X) i <-> taken X i /\ ~ (r_start r <= i < r_start r + r_count r).
Proof.
  intros I Hp. unfold taken. split.
  - intros (q & r0 & [D Hq]%lookup_delete_Some & Hr). split; [by exists q, r0|].
    pose proof (ai_apart I p q r r0 D Hp Hq). lia.
  - intros [(q & r0 & Hq & Hr) N]. exists q, r0. split; [|done]. rewrite lookup_delete_ne; [done|].
    intros <-. by simplify_eq.
Qed.

Lemma release_sim B n oom s X p : arena_inv B n s X -> is_Some (X !! p) ->
  exists r s' X', arena_call_exec base (CRelease p) s = Ret (r, s') /\
    arena_step B n oom (CRelease p) X r X' /\ arena_inv B n s' X'.
Proof.
  destruct s as [[ar us] c]. intros I [r Hp]. destruct (ai_runs I p r Hp) as (u & Hu & R). cbn [fst snd] in *.
  pose proof (ai_size I) as [Hn HN]. pose proof (ai_min I) as HB. pose proof (ai_memory I) as [Nm Lm]. cbn [fst snd] in *.
  pose proof (ro_region R) as Rg. pose proof (ro_start R). pose proof (ro_pos R). pose proof (ro_end R) as He.
  pose proof (ai_count I) as En. cbn [fst snd] in En. rewrite En in He.
  unfold arena_call_exec, zenit_arena_release. rewrite (sget_Some us p u Hu). cbn [obind]. fold (memory_of ar).
  rewrite (rg_memory Rg), (rg_size Rg), <- Z.mul_add_distr_l.
  rewrite (scan_region_spec _ p (r_blocks r) _ _ (rg_laid Rg)); [|nia|apply Rg|].
  2:{ pose proof (starts_count _ _ _ _ (rg_laid Rg)) as Hc. rewrite length_starts in Hc. pose proof (rg_end Rg). unfold zlen in *. nia. }
  cbn [obind]. destruct (all_free (r_blocks r)) eqn:Ef.
  2:{ eexists _, _, X. split; [done|]. split; [by eapply as_in_use|done]. }
  rewrite (ro_count R), (ro_offset R).
  destruct (mark_run_spec (ar_bitmap ar) n false) with (c := Z.to_nat (r_count r)) (i := r_start r)
    as (bm & -> & Ob & Pb & Bb); [nia|apply I|done|lia|].
  cbn [obind]. eexists _, _, (delete p X). split; [done|]. split; [by eapply as_release|]. cbn [default from_option id].
  pose proof (ai_allocator I) as Ea. cbn [fst snd] in Ea. rewrite Ea.
  pose proof (ai_live I) as Hl. pose proof (ai_sep I) as Hsep. cbn [fst snd] in Hl, Hsep.
  assert (p ∈ dom X) as Dp by (by apply elem_of_dom_2 in Hp).
  split; cbn [fst snd]; try apply I; try done.
  - intros i Hi. rewrite (taken_delete _ _ _ _ _ _ i I Hp), <- (ai_bits I i Hi). cbn [set_bitmap ar_bitmap fst].
    rewrite Bb by lia. rewrite Z2Nat.id by lia. case_decide; [|tauto]. split; [done|]. tauto.
  - intros q r0 [D Hq]%lookup_delete_Some. destruct (ai_runs I q r0 Hq) as (v & Hv & Rv).
    exists v. cbn in Hv. rewrite lookup_delete_ne by done. split; [done|].
    by destruct Rv as [Q1 Q2 Q3 Q4 Q5 Q6 Q7 Q8]; split.
  - rewrite !dom_delete_L. f_equal. apply (ai_dom I).
  - intros q1 q2 r1 r2 D [_ H1]%lookup_delete_Some [_ H2]%lookup_delete_Some. by apply (ai_apart I q1 q2).
  - rewrite own_bitmap, dom_delete_L, free_some by (done || set_solver). set_solver.
  - rewrite own_bitmap, dom_delete_L by done. set_solver.
Qed.

(** *** Acquiring *)

Lemma inv_bitmap B n ar us c c' X bm : arena_inv B n (ar, us, c) X -> bitmap_ok bm n -> pown bm = pown (ar_bitmap ar) ->
  (forall i, 0 <= i < n -> bit bm i = bit (ar_bitmap ar) i) -> live c' = live c ->
  arena_inv B n (set_bitmap ar bm, us, c') X.
Proof.
  intros I Hb' Ho Hbit Hl. split; cbn [fst snd]; try apply I; try done.
  - intros i Hi. cbn [set_bitmap ar_bitmap]. rewrite Hbit by done. by apply (ai_bits I).
  - intros p r Hp. destruct (ai_runs I p r Hp) as (u & Hu & [Q1 Q2 Q3 Q4 Q5 Q6 Q7 Q8]). by exists u.
  - rewrite own_bitmap, Hl by done. apply I.
  - rewrite own_bitmap by done. apply I.
Qed.

Lemma first_run_place B n s X d t : arena_inv B n s X -> first_run (bit (ar_bitmap s.1.1)) n d (Some t) -> first_place X n d t.
Proof.
  intros I (H1 & H2 & H3 & H4). split_and!; [done|done| |].
  - intros i Hi. rewrite <- (ai_bits I) by lia. by rewrite H3.
  - intros t' Ht. destruct (decide (Exists (fun j => bit (ar_bitmap s.1.1) j = true) (seqZ t' d))) as [E|E].
    + apply Exists_exists in E as (i & Hi%elem_of_seqZ & Ei). exists i. split; [done|]. apply (ai_bits I); [lia|done].
    + destruct (H4 t' Ht). intros j Hj. destruct (bit (ar_bitmap s.1.1) j) eqn:Ej; [|done]. destruct E.
      apply Exists_exists. exists j. split; [by apply elem_of_seqZ|done].
Qed.

Lemma no_run_place B n s X d : arena_inv B n s X -> first_run (bit (ar_bitmap s.1.1)) n d None -> forall t, ~ first_place X n d t.
Proof.
  intros I H t (H1 & H2 & H3 & _). apply (H t H1 H2). intros j Hj.
  destruct (bit (ar_bitmap s.1.1) j) eqn:E; [|done]. destruct (H3 j Hj). apply (ai_bits I); [lia|done].
Qed.

Lemma taken_insert X p r i : X !! p = None -> taken (<[p := r]> X) i <-> taken X i \/ r_start r <= i < r_start r + r_count r.
Proof.
  intros Hp. unfold taken. split.
  - intros (q & r0 & [[<- <-]|[D Hq]]%lookup_insert_Some & Hr); [by right|left; by exists q, r0].
  - intros [(q & r0 & Hq & Hr)|Hr].
    + exists q, r0. rewrite lookup_insert_ne by (intros <-; congruence). done.
    + exists p, r. by rewrite lookup_insert_eq.
Qed.

(** A new run with its one free block. *)
Lemma inv_new_run B n ar us c c' X bm p m' t d :
  arena_inv B n (ar, us, c) X -> first_place X n d t -> 0 < d -> p ∉ live c -> live c' = {[ p ]} ∪ live c ->
  bitmap_ok bm n -> pown bm = pown (ar_bitmap ar) ->
  (forall i, 0 <= i -> bit bm i = if decide (t <= i < t + d) then true else bit (ar_bitmap ar) i) ->
  outside (t * B) (d * B) (memory_of ar) m' ->
  region base p (mk_usable t d (8 * (t * B)) (8 * (d * B)) (Some (8 * (t * B)))) m' (t * B) [(d * B, Free)] [t * B] ->
  arena_inv B n (set_memory (set_bitmap ar bm) m',
    <[p := mk_usable t d (8 * (t * B)) (8 * (d * B)) (Some (8 * (t * B)))]> us, c')
    (<[p := mk_arun t d [(d * B, Free)] [t * B]]> X).
Proof.
  intros I (P1 & P2 & P3 & _) Hd Np Hl Ob Pb Bb U R. pose proof (ai_memory I) as [Nm Lm]. pose proof (ai_live I) as HL.
  pose proof (ai_count I) as En. pose proof (ai_min I). pose proof (ai_sep I) as Hsep. cbn [fst snd] in *.
  assert (X !! p = None) as Xp by (apply not_elem_of_dom; set_solver).
  assert (ar_memory (set_bitmap ar bm) <> None) as Nm' by done.
  assert (forall q r, X !! q = Some r -> r_start r + r_count r <= t \/ t + d <= r_start r) as Hap.
  { intros q r Hq. destruct (ai_runs I q r Hq) as (v & _ & Rv). pose proof (ro_pos Rv).
    destruct (decide (r_start r + r_count r <= t)); [by left|]. destruct (decide (t + d <= r_start r)); [by right|].
    destruct (P3 (Z.max t (r_start r))); [lia|]. exists q, r. split; [done|lia]. }
  split; cbn [fst snd]; try apply I; try done.
  - split; [by cbn; destruct (ar_memory ar)|]. rewrite memory_set by done. by rewrite (proj1 U).
  - intros i Hi. rewrite taken_insert by done. cbn [set_memory set_bitmap ar_bitmap r_start r_count].
    rewrite Bb by lia. rewrite <- (ai_bits I i Hi). case_decide; [tauto|]. cbn. naive_solver lia.
  - intros q r [[<- <-]|[D Hq]]%lookup_insert_Some.
    + eexists. rewrite lookup_insert_eq. split; [done|]. split; cbn; try done; [by rewrite En|lia|by rewrite memory_set].
    + destruct (ai_runs I q r Hq) as (v & Hv & Rv). exists v. rewrite lookup_insert_ne by done. split; [done|].
      eapply run_frame; [exact Rv|lia|done|by rewrite memory_set|by eapply Hap].
  - rewrite !dom_insert_L. f_equal. apply (ai_dom I).
  - intros q1 q2 r1 r2 D [[<- <-]|[D1 H1]]%lookup_insert_Some [[<- <-]|[D2 H2]]%lookup_insert_Some; cbn; [done| | |].
    + pose proof (Hap _ _ H2). lia.
    + by eapply Hap.
    + by apply (ai_apart I q1 q2).
  - rewrite own_set, own_bitmap, dom_insert_L, Hl by done. set_solver.
  - rewrite own_set, own_bitmap, dom_insert_L by done. set_solver.
Qed.

Lemma acquire_sim B n (oom : Prop) s X size : (forall c c', alloc_fn a SIZEOF_USABLE c = (None, c') -> oom) ->
  arena_inv B n s X -> 0 <= size < two64 ->
  exists r s' X', arena_call_exec base (CAcquire size) s = Ret (r, s') /\
    arena_step B n oom (CAcquire size) X r X' /\ arena_inv B n s' X'.
Proof using Hb.
  intros Ho I Hs. destruct s as [[ar us] c]. pose proof (ai_block I) as Eb. pose proof (ai_min I) as HB.
  pose proof (ai_count I) as En. pose proof (ai_size I) as [Hn HN]. pose proof (ai_memory I) as [Nm Lm].
  pose proof (ai_allocator I) as Ea. cbn [fst snd] in *.
  unfold arena_call_exec, zenit_arena_acquire. rewrite Eb, Ea, En. case_decide as D0.
  { eexists _, _, X. split; [done|]. split; [apply as_bad_size; by left|done]. }
  rewrite umod_Ret, udiv_Ret by lia. cbn [obind]. case_decide as D1.
  { eexists _, _, X. split; [done|]. split; [apply as_bad_size; by right|done]. }
  assert (size mod (8 * B) = 0) as Hmod by (destruct (decide (size mod (8 * B) = 0)); [done|by destruct D1]).
  assert (exists d, size = 8 * (d * B)) as [d ->]
    by (exists (size / (8 * B)); pose proof (Z.div_mod size (8 * B) ltac:(lia)); lia).
  assert (8 * (d * B) / (8 * B) = d) as Q1 by (replace (8 * (d * B)) with (d * (8 * B)) by lia; apply Z.div_mul; lia).
  assert (8 * (d * B) / 8 = d * B) as Q2 by (rewrite Z.mul_comm; apply Z.div_mul; lia). rewrite Q1.
  assert (0 < d < two64) as Hd by nia.
  destruct (find_contiguous_spec (ar_bitmap ar) n d (ai_bitmap I) ltac:(nia) Hd) as (o & -> & Fr). cbn [obind].
  destruct o as [t|].
  2:{ eexists _, _, X. split; [done|]. split; [apply as_full; rewrite Q1; by eapply no_run_place|done]. }
  pose proof (first_run_place _ _ _ _ _ _ I Fr) as Fp. destruct Fr as (T1 & T2 & T3 & _).
  destruct (mark_run_spec (ar_bitmap ar) n true) with (c := Z.to_nat d) (i := t)
    as (bm & -> & Ob & Pb & Bb); [nia|apply I|done|lia|]. rewrite Z2Nat.id in Bb by lia. cbn [obind].
  destruct (alloc_fn a SIZEOF_USABLE c) as [[b|] c1] eqn:E.
  - apply alloc_some in E as (_ & _ & Nb & Hl). rewrite u64_small by nia. cbn [set_bitmap ar_memory]. fold (memory_of ar).
    replace (t * (8 * B)) with (8 * (t * B)) by lia.
    destruct (init_region_spec base Hb (memory_of ar) (t * B) (d * B) (b_addr b)) as (m' & Ei & U & R); [nia|nia|nia|].
    rewrite Ei. cbn [obind default from_option id]. eexists _, _, _. split; [done|].
    split; [apply (as_acquire _ _ _ _ X (b_addr b) t); [lia|done| |by rewrite Q1]|].
    + apply not_elem_of_dom. pose proof (ai_live I) as HL. cbn in HL. set_solver.
    + rewrite Q1, Q2. eapply inv_new_run; [exact I|exact Fp|lia|exact Nb|exact Hl|exact Ob|exact Pb|exact Bb|exact U|apply R].
  - pose proof (alloc_none _ _ _ E) as Hl.
    destruct (mark_run_spec bm n false) with (c := Z.to_nat d) (i := t)
      as (bm2 & -> & Ob2 & Pb2 & Bb2); [nia|done|done|lia|]. rewrite Z2Nat.id in Bb2 by lia.
    cbn [obind default from_option id]. eexists _, _, X. split; [done|]. split; [by apply as_no_memory, (Ho c c1)|].
    eapply inv_bitmap; [exact I|done|by rewrite Pb2| |done]. intros i Hi. rewrite Bb2, Bb by lia.
    destruct (decide _); [|done]. symmetry. by apply T3.
Qed.

(** *** Creating *)

(** Freeing what was allocated last. *)
Lemma free_back x c c' : x ∉ live c -> live c' = {[ x ]} ∪ live c -> live (free_fn a (Some x) c') = live c.
Proof. intros N E. rewrite free_some; rewrite E; set_solver. Qed.

Lemma arena_create_spec B n c : 8 <= B -> 0 < n -> n * (8 * B) <= SIZE_MAX ->
  exists o c', zenit_arena_create_with_allocator (n * (8 * B)) (8 * B) a c = Ret (o, c') /\
    match o with
    | None => live c' = live c
    | Some ar => arena_inv B n (ar, ∅, c') ∅ /\ live (zenit_arena_destroy (Some ar) c') = live c
    end.
Proof.
  intros HB Hn HN. unfold zenit_arena_create_with_allocator. rewrite decide_False by nia.
  rewrite umod_Ret by lia. cbn [obind]. rewrite Z.mod_mul by lia. rewrite decide_False by lia. rewrite Z.div_mul by lia.
  destruct (alloc_fn a SIZEOF_ARENA c) as [[h|] c1] eqn:E1; [|by eexists None, _; split; [done|]; eapply alloc_none].
  apply alloc_some in E1 as (_ & _ & N1 & L1). rewrite u64_small by nia.
  destruct (alloc_zero_cases a 1 (n * (8 * B)) c1 ltac:(nia)) as (mem & c2 & -> & Hm). cbn [obind].
  destruct mem as [mb|]; [|eexists None, _; split; [done|]; apply free_back; [done|]; by rewrite Hm].
  destruct Hm as (Em & _ & N2 & L2).
  assert (0 <= (n + 7) / 8 <= n + 7 /\ n <= 8 * ((n + 7) / 8)) as Hq.
  { pose proof (Z.div_mod (n + 7) 8 ltac:(lia)). pose proof (Z.mod_pos_bound (n + 7) 8 ltac:(lia)). lia. }
  destruct (alloc_zero_cases a 1 ((n + 7) / 8) c2 ltac:(nia)) as (bm & c3 & -> & Hbm). cbn [obind].
  destruct bm as [bb|].
  2:{ eexists None, _. split; [done|]. apply free_back; [done|]. rewrite <- L1. apply free_back; [done|]. by rewrite Hbm. }
  destruct Hbm as (Ebm & _ & N3 & L3). eexists (Some _), c3. split; [done|].
  assert (zlen (b_data mb) / 8 = n * B) as Ew.
  { rewrite Em. unfold zlen. rewrite length_replicate, Z2Nat.id by nia.
    replace (1 * (n * (8 * B))) with (n * B * 8) by lia. apply Z.div_mul. lia. }
  split.
  - split; cbn [fst snd ar_allocator ar_block_size ar_block_count ar_bitmap]; try done.
    + lia.
    + split; [done|]. unfold memory_of. cbn. rewrite Ew. unfold zlen. rewrite length_replicate. nia.
    + split; [done|]. cbn. rewrite Ebm. unfold zlen. rewrite length_replicate. lia.
    + intros i Hi. unfold bit. cbn. rewrite Ebm, <- (app_nil_l (replicate _ 0)), bit_at_app_zeros. split.
      * rewrite bit_at_beyond; [done|]. change (zlen (@nil Z)) with 0. lia.
      * by intros (p & r & Hp & _).
    + unfold arena_own. cbn. set_solver.
  - cbn. apply free_back; [done|]. rewrite <- L1. apply free_back; [done|]. rewrite <- L2. by apply free_back.
Qed.
End Arena.


(** The heap of the examples, and an arena of four blocks of 1024 bytes. *)
Definition wit_arena_calls : list arena_call :=
  [CAcquire 1024; CBuffer 5 (AAlloc 20); CBuffer 5 (AWrite 40 0 77); CBuffer 5 (AAlloc 8); CBuffer 5 (ARead 40 0);
   CRelease 5; CBuffer 5 (AFree (mk_buffer (Some 40) 24)); CBuffer 5 (AFree (mk_buffer (Some 40) 24))].


(** ** Where the code leaves its contract *)

(** An arena of one block of 1024 bytes at address 4096, acquired as a whole. *)
Definition one_region : list Z * usables :=
  match zenit_arena_create_with_allocator 1024 1024 ZENIT_ALLOCATOR_DEFAULT (mk_heap ∅ []) with
  | Ret (Some ar, h) =>
      match zenit_arena_acquire 4096 (Some ar) 1024 ∅ h with
      | Ret (_, Some ar, us, _) => (memory_of ar, us)
      | _ => ([], ∅)
      end
  | _ => ([], ∅)
  end.

(** A block whose link leads back to itself. *)
Lemma find_block_cycle base m h needed n : h_state m h = Ret BUF_FREE -> h_size m h = Ret n -> n < needed ->
  h_next base m h = Ret (Some h) -> forall fuel, find_block base fuel m (Some h) needed = NoFuel.
Proof.
  intros E1 E2 Hn E3. induction fuel as [|fuel IH]; [done|]. cbn [find_block]. rewrite E1. cbn [obind].
  rewrite E2. cbn [obind]. rewrite decide_False by lia. rewrite E3. cbn [obind]. exact IH.
Qed.

Definition cycle_ops : list arena_op :=
  [AAlloc 8; AAlloc 8; AAlloc 8; AFree (mk_buffer (Some 40) 8); AFree (mk_buffer (Some 104) 8)].

Definition cycle_state : list Z * usables :=
  match run (arena_exec 4096 5) cycle_ops one_region with Ret (_, s) => s | _ => ([], ∅) end.

(** Two neighbouring buffers freed in address order leave the usable arena
    unusable: the second free joins the buffer with the free block before it, which
    is already on the free list, and inserts that block again, so that the list
    becomes a cycle of one block. An allocation that this block is too small for
    then never returns, for any number of steps, although a free block of 832 bytes
    is there for it. *)
Theorem arena_free_list_cycle fuel :
  run (arena_exec 4096 5) cycle_ops one_region =
    Ret ([RBuffer (mk_buffer (Some 40) 8); RBuffer (mk_buffer (Some 104) 8); RBuffer (mk_buffer (Some 168) 8);
          RResult ZENIT_OK; RResult ZENIT_OK], cycle_state) /\
  h_state cycle_state.1 192 = Ret BUF_FREE /\ h_size cycle_state.1 192 = Ret 832 /\
  zenit_usable_arena_allocate 4096 fuel cycle_state.1 (Some 5%positive) 700 cycle_state.2 = NoFuel.
Proof.
  split; [vm_compute; reflexivity|]. split; [vm_compute; reflexivity|]. split; [vm_compute; reflexivity|].
  assert (exists u, cycle_state.2 !! 5%positive = Some u /\ ua_free_list u = Some 0) as (u & Eu & Ef)
    by (eexists; split; vm_compute; reflexivity).
  assert (find_block 4096 fuel cycle_state.1 (Some 0) 760 = NoFuel) as E
    by (apply (find_block_cycle _ _ _ _ 128); try (vm_compute; reflexivity)).
  unfold zenit_usable_arena_allocate. rewrite decide_False by done.
  change (align_up 700) with 704. rewrite decide_False by done. rewrite (sget_Some _ _ _ Eu). cbn [obind].
  change (u64 (u64 (SIZEOF_HEADER + 704) + SIZEOF_FOOTER)) with 760. rewrite Ef, E. done.
Qed.

