(* ===== verification/Csv.v ===== *)
(** * CSV records ([src/csv.c])

    One line of fields, parsed into an array of strings and printed from one.  A
    pointer into the line is the rest of the line behind it.  The array of fields is
    its block with the pointers it holds beside it, as in [Str].

    [zenit_csv_record_destroy] calls the C library's [free], whatever allocator made
    the record: [cfree] is what that call does to the state of the allocator. *)

From Stdlib Require Import ZArith Lia Ascii String.
From stdpp Require Import base tactics option list numbers gmap sets.
From S2P Require Import Prelude Mem Result Allocator Links Text Str.
Open Scope Z_scope.

Record zenit_csv_record_t : Type := mk_csv { cv_fields : option char_array; cv_count : Z }.

(** A field that is being read: its buffer, the size and the bytes in use. *)
Record fbuf : Type := mk_fbuf { fb_buf : option block; fb_cap : Z; fb_len : Z }.

(** The character behind a pointer. *)
Definition deref (p : bytes) : outcome Z := match p with c :: _ => Ret c | [] => Undef end.

Definition QUOTE : Z := 34.

Section CsvModel.
Context {C : Type} (cfree : option addr -> C -> C).
Implicit Types (c : C) (a : zenit_allocator_t C) (out : zenit_csv_record_t) (fb : fbuf) (p : bytes).

(** The fields from [i] on, [n] of them. *)
Fixpoint destroy_fields (n : nat) (i : Z) (arr : char_array) c : outcome C :=
  match n with
  | O => Ret c
  | S n =>
      let! q := aget (ca_slots arr) i in
      destroy_fields n (u64 (i + 1)) arr (cfree (paddr q) c)
  end.

Definition zenit_csv_record_destroy (record : option zenit_csv_record_t) c : outcome (option zenit_csv_record_t * C) :=
  match record with
  | None => Ret (None, c)
  | Some r =>
      let! c1 :=
        match cv_fields r with
        | None => Ret c
        | Some arr =>
            let! c1 := destroy_fields (Z.to_nat (cv_count r)) 0 arr c in
            Ret (cfree (Some (b_addr (ca_block arr))) c1)
        end in
      Ret (Some (mk_csv None 0), c1)
  end.

(** The record after a failure, which destroys it. *)
Definition destroy_out out c : outcome (zenit_csv_record_t * C) :=
  let! (r, c1) := zenit_csv_record_destroy (Some out) c in Ret (default out r, c1).

(** [None] for the return value 0. *)
Definition grow_buf (buf : option block) (new_cap : Z) out a c : outcome (option block * zenit_csv_record_t * C) :=
  let! (tmp, c1) := zenit_allocator_realloc a buf (new_cap / 2) new_cap c in
  match tmp with
  | None =>
      let c2 := free_fn a (paddr buf) c1 in
      let! (out, c3) := destroy_out out c2 in
      Ret (None, out, c3)
  | Some _ => Ret (tmp, out, c1)
  end.

Definition buf_append fb (x : Z) out a c : outcome (option fbuf * zenit_csv_record_t * C) :=
  let! (r, out, c1) :=
    if decide (fb_cap fb <= u64 (fb_len fb + 1)) then
      let! (buf, out, c1) := grow_buf (fb_buf fb) (u64 (fb_cap fb * 2)) out a c in
      match buf with
      | None => Ret (None, out, c1)
      | Some _ => Ret (Some (mk_fbuf buf (u64 (fb_cap fb * 2)) (fb_len fb)), out, c1)
      end
    else Ret (Some fb, out, c) in
  match r with
  | None => Ret (None, out, c1)
  | Some fb =>
      let! buf := pset (fb_buf fb) (fb_len fb) x in
      Ret (Some (mk_fbuf buf (fb_cap fb) (u64 (fb_len fb + 1))), out, c1)
  end.

(** Behind the opening quote. *)
Fixpoint quoted_loop p fb out a c : outcome (option (bytes * fbuf) * zenit_csv_record_t * C) :=
  match p with
  | [] => Undef
  | x :: q =>
      if decide (x = NUL) then Ret (Some (p, fb), out, c)
      else if decide (x <> QUOTE) then
        let! (r, out, c1) := buf_append fb x out a c in
        match r with None => Ret (None, out, c1) | Some fb => quoted_loop q fb out a c1 end
      else
        match q with
        | [] => Undef
        | y :: q2 =>
            if decide (y = QUOTE) then
              let! (r, out, c1) := buf_append fb QUOTE out a c in
              match r with None => Ret (None, out, c1) | Some fb => quoted_loop q2 fb out a c1 end
            else Ret (Some (q, fb), out, c)
        end
  end.

Definition read_quoted p fb out a c : outcome (option (bytes * fbuf) * zenit_csv_record_t * C) :=
  match p with
  | [] => Undef
  | _ :: q => quoted_loop q fb out a c
  end.

Fixpoint read_unquoted p fb (delim : Z) out a c : outcome (option (bytes * fbuf) * zenit_csv_record_t * C) :=
  match p with
  | [] => Undef
  | x :: q =>
      if decide (x <> NUL /\ x <> delim /\ x <> 10 /\ x <> 13) then
        let! (r, out, c1) := buf_append fb x out a c in
        match r with None => Ret (None, out, c1) | Some fb => read_unquoted q fb delim out a c1 end
      else Ret (Some (p, fb), out, c)
  end.

Definition grow_fields out (cap : Z) a c : outcome (option Z * zenit_csv_record_t * C) :=
  let cap := u64 (cap * 2) in
  let new_size := u64 (cap * SIZEOF_PTR) in
  let! (tmp, c1) := zenit_allocator_realloc a (ca_block <$> cv_fields out) (u64 (cap / 2 * SIZEOF_PTR)) new_size c in
  match tmp with
  | None => let! (out, c2) := destroy_out out c1 in Ret (None, out, c2)
  | Some b =>
      let keep := take (Z.to_nat (new_size / SIZEOF_PTR)) (match cv_fields out with Some arr => ca_slots arr | None => [] end) in
      let arr := CharArray b (keep ++ replicate (Z.to_nat (new_size / SIZEOF_PTR) - length keep) None) in
      Ret (Some cap, mk_csv (Some arr) (cv_count out), c1)
  end.

(** A field stored in the array. *)
Definition store_field out (fi : Z) (buf : option block) : outcome zenit_csv_record_t :=
  match cv_fields out with
  | None => Undef
  | Some arr =>
      let! slots := aset (ca_slots arr) fi buf in
      Ret (mk_csv (Some (CharArray (ca_block arr) slots)) (u64 (fi + 1)))
  end.

Fixpoint parse_fields (fuel : nat) p (delimiter fi field_cap : Z) out a c : outcome (zenit_error_t * zenit_csv_record_t * C) :=
  match fuel with
  | O => NoFuel
  | S fuel =>
      let! (r, out, c) := if decide (field_cap <= fi) then grow_fields out field_cap a c else Ret (Some field_cap, out, c) in
      match r with
      | None => Ret (ZENIT_ERROR_ALLOC, out, c)
      | Some field_cap =>
          match alloc_fn a 64 c with
          | (None, c) => let! (out, c) := destroy_out out c in Ret (ZENIT_ERROR_ALLOC, out, c)
          | (buf, c) =>
              let! x := deref p in
              let! (r, out, c) :=
                if decide (x = QUOTE) then read_quoted p (mk_fbuf buf 64 0) out a c
                else read_unquoted p (mk_fbuf buf 64 0) delimiter out a c in
              match r with
              | None => Ret (ZENIT_ERROR_ALLOC, out, c)
              | Some (p, fb) =>
                  let! (buf, out, c) :=
                    if decide (fb_cap fb <= fb_len fb) then grow_buf (fb_buf fb) (u64 (fb_cap fb + 1)) out a c
                    else Ret (fb_buf fb, out, c) in
                  match buf with
                  | None => Ret (ZENIT_ERROR_ALLOC, out, c)
                  | Some _ =>
                      let! buf := pset buf (fb_len fb) NUL in
                      let! out := store_field out fi buf in
                      let! x := deref p in
                      if decide (x = delimiter) then parse_fields fuel (tail p) delimiter (u64 (fi + 1)) field_cap out a c
                      else Ret (ZENIT_OK, out, c)
                  end
              end
          end
      end
  end.

Definition zenit_csv_parse_record_with_allocator (fuel : nat) (line : option bytes) (delimiter : Z)
    (out : option zenit_csv_record_t) a c : outcome (zenit_error_t * option zenit_csv_record_t * C) :=
  match line, out with
  | Some line, Some _ =>
      match alloc_fn a (u64 (8 * SIZEOF_PTR)) c with
      | (None, c1) => Ret (ZENIT_ERROR_ALLOC, Some (mk_csv None 0), c1)
      | (Some b, c1) =>
          let! (e, out, c2) := parse_fields fuel line delimiter 0 8 (mk_csv (Some (CharArray b (replicate 8 None))) 0) a c1 in
          Ret (e, Some out, c2)
      end
  | _, _ => Ret (ZENIT_ERROR_NULL, out, c)
  end.
End CsvModel.

(** ** Printing *)

Fixpoint has_special (s : bytes) (delimiter : Z) : outcome bool :=
  match s with
  | [] => Undef
  | x :: s =>
      if decide (x = NUL) then Ret false
      else if decide (x = delimiter \/ x = QUOTE \/ x = 10 \/ x = 13) then Ret true
      else has_special s delimiter
  end.

Definition needs_quoting (s : option bytes) (delimiter : Z) : outcome bool :=
  match s with
  | None => Ret true
  | Some s =>
      let! x := deref s in
      if decide (x = NUL) then Ret true
      else if decide (x = ch " " \/ x = 9) then Ret true
      else
        let! len := strlen s in
        let! l := if decide (0 < len) then let! y := aget s (len - 1) in Ret (bool_decide (y = ch " " \/ y = 9)) else Ret false in
        if l : bool then Ret true else has_special s delimiter
  end.

(** The characters with every quote counted twice. *)
Fixpoint quoted_len (s : bytes) (n : Z) : outcome Z :=
  match s with
  | [] => Undef
  | x :: s => if decide (x = NUL) then Ret n else quoted_len s (u64 (u64 (if decide (x = QUOTE) then n + 1 else n) + 1))
  end.

Definition serialised_field_len (s : option bytes) (delimiter : Z) : outcome Z :=
  let! q := needs_quoting s delimiter in
  match s with
  | None => Undef
  | Some s => if q : bool then quoted_len s 2 else strlen s
  end.

Fixpoint quoted_write (s : bytes) (buf : option block) (pos : Z) : outcome (option block * Z) :=
  match s with
  | [] => Undef
  | x :: s =>
      if decide (x = NUL) then Ret (buf, pos)
      else
        let! (buf, pos) :=
          if decide (x = QUOTE) then let! b := pset buf pos QUOTE in Ret (b, u64 (pos + 1)) else Ret (buf, pos) in
        let! buf := pset buf pos x in
        quoted_write s buf (u64 (pos + 1))
  end.

Definition serialised_field_write (s : option bytes) (delimiter : Z) (buf : option block) (pos : Z)
    : outcome (option block * Z) :=
  let! q := needs_quoting s delimiter in
  match s with
  | None => Undef
  | Some s =>
      if q : bool then
        let! buf := pset buf pos QUOTE in
        let! (buf, pos) := quoted_write s buf (u64 (pos + 1)) in
        let! buf := pset buf pos QUOTE in
        Ret (buf, u64 (pos + 1))
      else
        let! flen := strlen s in
        let! d := rd s 0 flen in
        let! buf := pwr buf pos d in
        Ret (buf, u64 (pos + flen))
  end.

Definition field_at (record : zenit_csv_record_t) (i : Z) : outcome (option bytes) :=
  match cv_fields record with
  | None => Undef
  | Some arr => let! q := aget (ca_slots arr) i in Ret (b_data <$> q)
  end.

Fixpoint total_loop (n : nat) (i : Z) (record : zenit_csv_record_t) (delimiter total : Z) : outcome Z :=
  match n with
  | O => Ret total
  | S n =>
      let total := if decide (0 < i) then u64 (total + 1) else total in
      let! s := field_at record i in
      let! l := serialised_field_len s delimiter in
      total_loop n (u64 (i + 1)) record delimiter (u64 (total + l))
  end.

Fixpoint write_loop (n : nat) (i : Z) (record : zenit_csv_record_t) (delimiter : Z) (buf : option block) (pos : Z)
    : outcome (option block * Z) :=
  match n with
  | O => Ret (buf, pos)
  | S n =>
      let! (buf, pos) :=
        if decide (0 < i) then let! b := pset buf pos delimiter in Ret (b, u64 (pos + 1)) else Ret (buf, pos) in
      let! s := field_at record i in
      let! (buf, pos) := serialised_field_write s delimiter buf pos in
      write_loop n (u64 (i + 1)) record delimiter buf pos
  end.

(** [out] is the pointer behind the last argument, written on success. *)
Definition zenit_csv_serialise_record_with_allocator {C : Type} (record : option zenit_csv_record_t) (delimiter : Z)
    (out : option (option block)) (a : zenit_allocator_t C) (c : C) : outcome (zenit_error_t * option (option block) * C) :=
  match record, out with
  | Some r, Some _ =>
      let! total := total_loop (Z.to_nat (cv_count r)) 0 r delimiter 0 in
      match alloc_fn a (u64 (total + 1)) c with
      | (None, c1) => Ret (ZENIT_ERROR_ALLOC, out, c1)
      | (buf, c1) =>
          let! (buf, pos) := write_loop (Z.to_nat (cv_count r)) 0 r delimiter buf 0 in
          let! buf := pset buf pos NUL in
          Ret (ZENIT_OK, Some buf, c1)
      end
  | _, _ => Ret (ZENIT_ERROR_NULL, out, c)
  end.

Definition zenit_csv_parse_record (fuel : nat) (line : option bytes) (delimiter : Z) (out : option zenit_csv_record_t)
    (h : heap) : outcome (zenit_error_t * option zenit_csv_record_t * heap) :=
  zenit_csv_parse_record_with_allocator Allocator.free fuel line delimiter out ZENIT_ALLOCATOR_DEFAULT h.

Definition zenit_csv_serialise_record (record : option zenit_csv_record_t) (delimiter : Z) (out : option (option block))
    (h : heap) : outcome (zenit_error_t * option (option block) * heap) :=
  zenit_csv_serialise_record_with_allocator record delimiter out ZENIT_ALLOCATOR_DEFAULT h.

(** ** Specification *)

(** The quoted text of a field: the field itself and what follows the closing quote. *)
Fixpoint unquote (s : bytes) : bytes * bytes :=
  match s with
  | [] => ([], [])
  | x :: q =>
      if decide (x = QUOTE) then
        match q with
        | y :: q2 => if decide (y = QUOTE) then let '(f, r) := unquote q2 in (QUOTE :: f, r) else ([], q)
        | [] => ([], [])
        end
      else let '(f, r) := unquote q in (x :: f, r)
  end.

(** The characters up to a delimiter or an end of line. *)
Fixpoint plain_field (d : Z) (s : bytes) : bytes * bytes :=
  match s with
  | [] => ([], [])
  | x :: q => if decide (x <> d /\ x <> 10 /\ x <> 13) then let '(f, r) := plain_field d q in (x :: f, r) else ([], s)
  end.

Definition first_field (d : Z) (s : bytes) : bytes * bytes :=
  match s with
  | x :: q => if decide (x = QUOTE) then unquote q else plain_field d s
  | [] => ([], [])
  end.

(** The fields of a line. *)
Fixpoint csv_fields (n : nat) (d : Z) (s : bytes) : list bytes :=
  match n with
  | O => []
  | S n =>
      let '(f, r) := first_field d s in
      f :: match r with x :: r => if decide (x = d) then csv_fields n d r else [] | [] => [] end
  end.

Definition csv_record (d : Z) (s : bytes) : list bytes := csv_fields (S (length s)) d s.

(** Quotes doubled. *)
Fixpoint doubled (s : bytes) : bytes :=
  match s with [] => [] | x :: s => if decide (x = QUOTE) then x :: x :: doubled s else x :: doubled s end.

Definition is_blank (x : Z) : bool := bool_decide (x = 32 \/ x = 9).
Definition is_special (d x : Z) : bool := bool_decide (x = d \/ x = QUOTE \/ x = 10 \/ x = 13).

(** The fields that are printed in quotes: empty ones, those with a blank at an end,
    a delimiter, a quote or an end of line. *)
Definition quotes (d : Z) (s : bytes) : bool :=
  match head s, last s with
  | Some x, Some y => is_blank x || is_blank y || existsb (is_special d) s
  | _, _ => true
  end.

Definition field_text (d : Z) (s : bytes) : bytes := if quotes d s then QUOTE :: doubled s ++ [QUOTE] else s.

Definition csv_text (d : Z) (fs : list bytes) : bytes := joined [d] (field_text d <$> fs).

(** ** Printing and reading back, on strings *)

Lemma unquote_doubled s rest : head rest <> Some QUOTE -> unquote (doubled s ++ QUOTE :: rest) = (s, rest).
Proof.
  intros Hr. induction s as [|x s IH]; cbn [doubled app].
  - cbn [unquote]. rewrite decide_True by done. destruct rest as [|y rest]; [done|].
    rewrite decide_False; [done|]. intros ->. by apply Hr.
  - case_decide as D; cbn [app unquote].
    + rewrite !decide_True by done. by rewrite IH, D.
    + rewrite decide_False by done. by rewrite IH.
Qed.

(** What may follow a field. *)
Definition field_end (d : Z) (rest : bytes) : Prop := match rest with [] => True | x :: _ => x = d end.

Lemma plain_field_app d s rest : existsb (is_special d) s = false -> field_end d rest -> plain_field d (s ++ rest) = (s, rest).
Proof.
  intros Hs Hr. induction s as [|x s IH]; cbn [app].
  - destruct rest as [|y rest]; [done|]. cbn in Hr. subst y. cbn [plain_field]. rewrite decide_False by tauto. done.
  - cbn [existsb] in Hs. apply orb_false_iff in Hs as [Hx Hs]. apply bool_decide_eq_false in Hx. cbn [plain_field].
    rewrite decide_True by tauto. by rewrite IH.
Qed.

Lemma first_field_text d s rest : d <> QUOTE -> field_end d rest -> first_field d (field_text d s ++ rest) = (s, rest).
Proof.
  intros Hd Hr. unfold field_text. destruct (quotes d s) eqn:Q.
  - cbn [app first_field]. rewrite decide_True by done. rewrite <- app_assoc. apply unquote_doubled.
    destruct rest as [|y rest]; [done|]. cbn in *. congruence.
  - unfold quotes in Q. destruct s as [|x s]; [done|]. cbn [head] in Q.
    destruct (last (x :: s)) as [y|]; [|done]. apply orb_false_iff in Q as [_ Hs].
    cbn [app first_field]. rewrite decide_False; [by apply (plain_field_app d (x :: s))|].
    intros ->. cbn [existsb] in Hs. apply orb_false_iff in Hs as [Hx _]. apply bool_decide_eq_false in Hx. tauto.
Qed.

Lemma csv_fields_text d fs : d <> QUOTE -> fs <> [] -> forall n, (length fs <= n)%nat -> csv_fields n d (csv_text d fs) = fs.
Proof.
  intros Hd. unfold csv_text. induction fs as [|f fs IH]; [done|]. intros _ n Hn. cbn [length] in Hn.
  destruct n as [|n]; [lia|]. cbn [fmap list_fmap]. rewrite joined_cons. cbn [csv_fields].
  rewrite first_field_text; [|done|by destruct fs]. f_equal.
  destruct fs as [|g fs]; [done|]. cbn [joined_tail fmap list_fmap concat app]. rewrite decide_True by done.
  specialize (IH ltac:(done) n ltac:(cbn [length] in *; lia)). cbn [fmap list_fmap] in IH. by rewrite joined_cons in IH.
Qed.

(** More fuel than characters changes nothing. *)
Lemma unquote_rest s : (length (unquote s).2 <= length s)%nat.
Proof.
  assert (forall n s, (length s <= n)%nat -> (length (unquote s).2 <= length s)%nat) as H; [|by apply (H (length s))].
  intros n. induction n as [|n IH]; intros [|x q] Hn; cbn [length] in Hn; try (cbn; lia). cbn [unquote].
  case_decide.
  - destruct q as [|y q2]; [cbn; lia|]. case_decide; [|cbn; lia]. cbn [length] in Hn. specialize (IH q2).
    destruct (unquote q2). cbn [snd length] in *. lia.
  - specialize (IH q). destruct (unquote q). cbn [snd length] in *. lia.
Qed.

Lemma plain_field_rest d s : (length (plain_field d s).2 <= length s)%nat.
Proof.
  induction s as [|x s IH]; cbn [plain_field]; [done|]. case_decide; [|done].
  destruct (plain_field d s). cbn [snd length] in *. lia.
Qed.

Lemma first_field_rest d s : (length (first_field d s).2 <= length s)%nat.
Proof.
  destruct s as [|x s]; [done|]. cbn [first_field]. case_decide; [|apply plain_field_rest].
  pose proof (unquote_rest s). cbn [length]. lia.
Qed.

Lemma csv_fields_fuel d : forall n m s, (length s < n)%nat -> (length s < m)%nat -> csv_fields n d s = csv_fields m d s.
Proof.
  induction n as [|n IH]; intros [|m] s Hn Hm; try lia. cbn [csv_fields]. pose proof (first_field_rest d s) as Hr.
  destruct (first_field d s) as [f r]. cbn [snd] in Hr. f_equal. destruct r as [|x r]; [done|]. case_decide; [|done].
  cbn [length] in Hr. apply IH; lia.
Qed.

Lemma csv_text_length d fs : (length fs <= S (length (csv_text d fs)))%nat.
Proof.
  unfold csv_text. destruct fs as [|f fs]; [cbn; lia|]. cbn [fmap list_fmap]. rewrite joined_cons, length_app. unfold joined_tail.
  assert (forall gs : list bytes, length gs <= length (concat ((fun x => [d] ++ x) <$> gs)))%nat as H.
  { induction gs as [|g gs IH]; [done|]. rewrite fmap_cons. simpl. rewrite length_app. simpl in IH. lia. }
  specialize (H (field_text d <$> fs)). rewrite length_fmap in H. cbn [length]. lia.
Qed.

Lemma doubled_chars s : chars_of s -> chars_of (doubled s).
Proof. induction 1 as [|x s Hx _ IH]; [constructor|]. cbn [doubled]. case_decide; repeat (constructor; [done|]); done. Qed.

Lemma csv_text_chars d fs : 0 < d < 256 -> Forall chars_of fs -> chars_of (csv_text d fs).
Proof.
  intros Hd Hf. unfold csv_text.
  assert (Forall chars_of (field_text d <$> fs)) as F.
  { apply Forall_fmap. eapply Forall_impl; [exact Hf|]. intros s Hs. unfold compose, field_text. destruct (quotes d s); [|done].
    constructor; [unfold QUOTE; lia|]. apply Forall_app. split; [by apply doubled_chars|]. repeat constructor. }
  destruct F as [|t ts Ht F]; [constructor|]. rewrite joined_cons. apply Forall_app. split; [done|]. unfold joined_tail.
  induction F as [|t' ts Ht' _ IH]; [constructor|]. cbn [fmap list_fmap concat]. repeat (apply Forall_app; split); try done.
  by constructor.
Qed.

Lemma csv_text_record d fs : d <> QUOTE -> fs <> [] -> csv_record d (csv_text d fs) = fs.
Proof. intros Hd Hf. apply csv_fields_text; [done|done|apply csv_text_length]. Qed.

(** ** Parsing *)

Section CsvProofs.
Context {C : Type} (a : zenit_allocator_t C) {SP : AllocSpec a} (cfree : option addr -> C -> C).
Implicit Types (c : C) (out : zenit_csv_record_t) (fb : fbuf) (L : list addr).

(** The library's [free] is the allocator's. *)
Definition same_free : Prop := forall p c, cfree p c = free_fn a p c.

(** After a failure nothing is left allocated. *)
Definition cleaned (c0 c' : C) : Prop := same_free -> live c' = live c0.

(** The record holds the fields [fs] in the blocks [toks]; with its array and [L]
    they are what was allocated since [c0]. *)
Record fields_rep c0 c L (cap : Z) out (fs : list bytes) (toks : list block) : Prop := {
  fr_array : exists arr room, cv_fields out = Some arr /\ ca_slots arr = (Some <$> toks) ++ room /\
    zlen (ca_slots arr) = cap /\ zlen (b_data (ca_block arr)) = cap * 8 /\
    owns a c0 c (L ++ b_addr (ca_block arr) :: (b_addr <$> toks));
  fr_count : cv_count out = zlen fs;
  fr_texts : Forall2 (fun b x => cstr (b_data b) x) toks fs;
  fr_room : zlen fs <= cap;
  fr_limit : 0 < cap /\ cap * 8 <= PTRDIFF_MAX }.
Arguments fr_array {c0 c L cap out fs toks}.
Arguments fr_count {c0 c L cap out fs toks}.
Arguments fr_texts {c0 c L cap out fs toks}.
Arguments fr_room {c0 c L cap out fs toks}.
Arguments fr_limit {c0 c L cap out fs toks}.

Lemma fields_length c0 c L cap out fs toks : fields_rep c0 c L cap out fs toks -> zlen toks = zlen fs.
Proof. intros R. pose proof (Forall2_length _ _ _ (fr_texts R)). unfold zlen. lia. Qed.

(** The same record with another set of blocks around it. *)
Lemma fields_own c0 c c' L L' cap out fs toks : fields_rep c0 c L cap out fs toks ->
  (forall K, owns a c0 c (L ++ K) -> owns a c0 c' (L' ++ K)) -> fields_rep c0 c' L' cap out fs toks.
Proof.
  intros [(arr & room & E1 & E2 & E3 & E4 & O) R2 R3 R4 R5] H. split; try done.
  exists arr, room. split_and!; try done. by apply H.
Qed.

Lemma destroy_fields_spec c0 x arr room toks : forall pre c,
  ca_slots arr = pre ++ (Some <$> toks) ++ room -> zlen (pre ++ (Some <$> toks)) < two64 ->
  exists c', destroy_fields cfree (length toks) (zlen pre) arr c = Ret c' /\
    (same_free -> owns a c0 c (x :: (b_addr <$> toks)) -> owns a c0 c' [x]).
Proof.
  induction toks as [|b toks IH]; intros pre c E Hl; cbn [destroy_fields length]; [by exists c|].
  rewrite (aget_split _ pre (Some b) ((Some <$> toks) ++ room)) by done. cbn [obind paddr fmap option_fmap option_map].
  rewrite zlen_app, fmap_cons, zlen_cons in Hl. pose proof (zlen_nonneg pre). pose proof (zlen_nonneg (Some <$> toks)).
  rewrite u64_small by lia. replace (zlen pre + 1) with (zlen (pre ++ [Some b])) by zl.
  destruct (IH (pre ++ [Some b]) (cfree (Some (b_addr b)) c)) as (c' & E' & O'); [by rewrite E, <- app_assoc|zl|].
  exists c'. split; [done|]. intros Hs O. apply O'; [done|]. rewrite Hs. apply owns_free.
  eapply owns_perm; [exact O|]. apply Permutation_swap.
Qed.

Lemma csv_destroy_spec c0 c cap out fs toks : fields_rep c0 c [] cap out fs toks ->
  exists c', destroy_out cfree out c = Ret (mk_csv None 0, c') /\ cleaned c0 c'.
Proof.
  intros R. destruct (fr_array R) as (arr & room & E1 & E2 & E3 & E4 & O). pose proof (fields_length _ _ _ _ _ _ _ R) as Lt.
  pose proof (fr_room R). pose proof (fr_limit R).
  unfold destroy_out, zenit_csv_record_destroy. rewrite E1, (fr_count R), <- Lt.
  replace (Z.to_nat (zlen toks)) with (length toks) by (unfold zlen; lia).
  destruct (destroy_fields_spec c0 (b_addr (ca_block arr)) arr room toks [] c E2) as (c1 & E & H1).
  { cbn [app]. replace (zlen (Some <$> toks)) with (zlen toks) by (unfold zlen; by rewrite length_fmap). lia. }
  change (zlen (@nil (option block))) with 0 in E. rewrite E. cbn [obind default from_option id]. eexists. split; [done|].
  intros Hs. rewrite Hs. apply (owns_nil a), owns_free. by apply H1.
Qed.

(** A field that is being read holds [f]. *)
Definition reading fb (x : addr) (f : bytes) : Prop :=
  exists room, fb_buf fb = Some (Block x (f ++ room)) /\ fb_cap fb = zlen (f ++ room) /\ fb_len fb = zlen f /\
    1 <= zlen room /\ 64 <= fb_cap fb <= PTRDIFF_MAX.

(** What a step of the reader leaves: the field [f] and the fields before it, or the
    record destroyed. *)
Definition read_post {T : Type} c0 cap out fs toks (ok : T -> addr -> Prop) (r : option T) out' c' : Prop :=
  match r with
  | None => out' = mk_csv None 0 /\ cleaned c0 c'
  | Some t => out' = out /\ exists x, fields_rep c0 c' [x] cap out fs toks /\ ok t x
  end.

Lemma grow_spec c0 c cap out fs toks x d n : fields_rep c0 c [x] cap out fs toks -> zlen d = n -> 64 <= n <= PTRDIFF_MAX ->
  exists r out' c', grow_buf cfree (Some (Block x d)) (n * 2) out a c = Ret (r, out', c') /\
    read_post c0 cap out fs toks (fun b y => b_addr b = y /\ exists room, b_data b = d ++ room /\ zlen room = n /\ n * 2 <= PTRDIFF_MAX)
      r out' c'.
Proof.
  intros R Ed Hn. unfold grow_buf. rewrite Z.div_mul by lia.
  destruct (fr_array R) as (arr & room & _ & _ & _ & _ & O). pose proof O as (_ & _ & El).
  destruct (realloc_cases a (Some (Block x d)) n (n * 2) c) as (r & c1 & -> & Hr); [cbn; rewrite El; set_solver|done|lia|].
  cbn [obind]. destruct r as [b|].
  - destruct Hr as (Lb & Mb & Tb & Nb & Hl). cbn [pbytes pown b_data b_addr] in *. eexists _, _, _. split; [done|]. split; [done|].
    exists (b_addr b). split.
    + eapply fields_own; [exact R|]. intros K HK. by eapply owns_realloc.
    + split; [done|]. rewrite (take_ge d) in Tb by (unfold zlen in *; lia). exists (drop (length d) (b_data b)).
      rewrite <- Tb at 1. rewrite take_drop. split; [done|]. split; [|done]. rewrite zlen_drop. unfold zlen in *. lia.
  - cbn [paddr fmap option_fmap option_map b_addr].
    destruct (csv_destroy_spec c0 (free_fn a (Some x) c1) cap out fs toks) as (c3 & -> & Hc).
    { eapply fields_own; [exact R|]. intros K HK. apply owns_free. by eapply owns_same. }
    cbn [obind]. by eexists None, _, _.
Qed.

Lemma buf_append_spec c0 c cap out fs toks fb x f y : fields_rep c0 c [x] cap out fs toks -> reading fb x f ->
  exists r out' c', buf_append cfree fb y out a c = Ret (r, out', c') /\
    read_post c0 cap out fs toks (fun fb' x' => reading fb' x' (f ++ [y])) r out' c'.
Proof.
  intros R (room & Eb & Ec & El & Hr & Hc). rewrite zlen_app in Ec. pose proof (zlen_nonneg f). unfold buf_append.
  rewrite (u64_small (fb_len fb + 1)) by lia.
  assert (forall fb1 x1 c1 room1, fb_buf fb1 = Some (Block x1 (f ++ room1)) -> fb_cap fb1 = zlen f + zlen room1 ->
    fb_len fb1 = zlen f -> 2 <= zlen room1 -> 64 <= fb_cap fb1 <= PTRDIFF_MAX -> fields_rep c0 c1 [x1] cap out fs toks ->
    exists r out' c', (let! buf := pset (fb_buf fb1) (fb_len fb1) y in
      Ret (Some (mk_fbuf buf (fb_cap fb1) (u64 (fb_len fb1 + 1))), out, c1)) = Ret (r, out', c') /\
      read_post c0 cap out fs toks (fun fb' x' => reading fb' x' (f ++ [y])) r out' c') as Put.
  { intros fb1 x1 c1 room1 B1 B2 B3 B4 B5 R1. destruct (room_cons room1) as (z & rm & -> & Lr); [lia|].
    rewrite B1, pset_emit by done. cbn [obind]. eexists _, _, _. split; [done|]. split; [done|]. exists x1. split; [done|].
    rewrite zlen_cons in B2. exists rm. cbn [fb_buf fb_cap fb_len]. rewrite B3, u64_small by lia.
    split_and!; [done|zl|zl|lia|lia|lia]. }
  destruct (decide (fb_cap fb <= fb_len fb + 1)) as [D|D].
  - rewrite (u64_small (fb_cap fb * 2)), Eb by lia.
    destruct (grow_spec c0 c cap out fs toks x (f ++ room) (fb_cap fb) R) as (r & out' & c' & -> & HP); [zl|lia|].
    cbn [obind]. destruct r as [b|]; [|by eexists None, _, _].
    destruct HP as (-> & x1 & R1 & E1 & rm & E2 & L2 & L3). destruct b as [bx bd]. cbn [b_addr b_data] in *. subst bx bd.
    cbn [obind]. apply (Put (mk_fbuf (Some (Block x1 ((f ++ room) ++ rm))) (fb_cap fb * 2) (fb_len fb)) x1 c' (room ++ rm));
      cbn [fb_buf fb_cap fb_len]; [by rewrite <- app_assoc|zl|done|zl|lia|done].
  - cbn [obind]. apply (Put fb x c room); [done|done|done|lia|done|done].
Qed.

(** The reader stopped in front of [r], with the field [g] read. *)
Definition stopped (tl f : bytes) (gr : bytes * bytes) (t : bytes * fbuf) (x : addr) : Prop :=
  t.1 = gr.2 ++ NUL :: tl /\ reading t.2 x (f ++ gr.1).

Lemma read_more {T : Type} c0 cap out fs toks (ok1 ok2 : T -> addr -> Prop) r out' c' :
  read_post c0 cap out fs toks ok1 r out' c' -> (forall t x, ok1 t x -> ok2 t x) -> read_post c0 cap out fs toks ok2 r out' c'.
Proof. intros H Hi. destruct r as [t|]; [|done]. destruct H as (-> & x & R & H). split; [done|]. exists x. auto. Qed.

(** One character appended, then the rest of the loop. *)
Lemma append_then c0 c cap out fs toks fb x f y (k : fbuf -> zenit_csv_record_t -> C -> outcome (option (bytes * fbuf) * zenit_csv_record_t * C)) ok :
  fields_rep c0 c [x] cap out fs toks -> reading fb x f ->
  (forall fb1 x1 c1, fields_rep c0 c1 [x1] cap out fs toks -> reading fb1 x1 (f ++ [y]) ->
     exists r out' c', k fb1 out c1 = Ret (r, out', c') /\ read_post c0 cap out fs toks ok r out' c') ->
  exists r out' c', (let! (r, out, c1) := buf_append cfree fb y out a c in
    match r with None => Ret (None, out, c1) | Some fb => k fb out c1 end) = Ret (r, out', c') /\
    read_post c0 cap out fs toks ok r out' c'.
Proof.
  intros R H Hk. destruct (buf_append_spec c0 c cap out fs toks fb x f y R H) as (r & out' & c' & -> & HP). cbn [obind].
  destruct r as [fb1|]; [|by eexists None, _, _]. destruct HP as (-> & x1 & R1 & H1). by eapply Hk.
Qed.

Lemma quoted_spec c0 cap out fs toks tl : forall n s, (length s <= n)%nat -> chars_of s -> forall fb x f c,
  fields_rep c0 c [x] cap out fs toks -> reading fb x f ->
  exists r out' c', quoted_loop cfree (s ++ NUL :: tl) fb out a c = Ret (r, out', c') /\
    read_post c0 cap out fs toks (stopped tl f (unquote s)) r out' c'.
Proof.
  induction n as [|n IH]; intros s Hn Hs fb x f c R H.
  { destruct s; [|cbn in Hn; lia]. cbn. eexists (Some (_, _)), _, _. split; [done|]. split; [done|]. exists x. split; [done|].
    split; [done|]. by rewrite app_nil_r. }
  destruct s as [|y s].
  { apply (IH [] ltac:(cbn; lia) Hs fb x f c R H). }
  apply list.Forall_cons in Hs as [Hy Hs]. cbn [length] in Hn. cbn [app quoted_loop unquote].
  rewrite decide_False by lia. destruct (decide (y = QUOTE)) as [->|D].
  - rewrite decide_False by tauto. destruct s as [|z s]; cbn [app].
    + rewrite decide_False by done. eexists (Some (_, _)), _, _. split; [done|]. split; [done|]. exists x. split; [done|].
      split; [done|]. by rewrite app_nil_r.
    + apply list.Forall_cons in Hs as [Hz Hs]. cbn [length] in Hn. destruct (decide (z = QUOTE)) as [->|D'].
      * apply (append_then _ _ _ _ _ _ _ x f QUOTE (fun fb out c => quoted_loop cfree (s ++ NUL :: tl) fb out a c)); [done|done|].
        intros fb1 x1 c1 R1 H1. destruct (IH s ltac:(lia) Hs fb1 x1 _ c1 R1 H1) as (r & out' & c' & E & HP).
        exists r, out', c'. split; [done|]. eapply read_more; [exact HP|]. intros [p1 f1] x2. unfold stopped.
        destruct (unquote s) as [g rr]. cbn [fst snd]. by rewrite <- app_assoc.
      * eexists (Some (_, _)), _, _. split; [done|]. split; [done|]. exists x. split; [done|].
        split; [done|]. cbn [fst snd]. by rewrite app_nil_r.
  - rewrite decide_True by done.
    apply (append_then _ _ _ _ _ _ _ x f y (fun fb out c => quoted_loop cfree (s ++ NUL :: tl) fb out a c)); [done|done|].
    intros fb1 x1 c1 R1 H1. destruct (IH s ltac:(lia) Hs fb1 x1 _ c1 R1 H1) as (r & out' & c' & E & HP).
    exists r, out', c'. split; [done|]. eapply read_more; [exact HP|]. intros [p1 f1] x2. unfold stopped.
    destruct (unquote s) as [g rr]. cbn [fst snd]. by rewrite <- app_assoc.
Qed.

Lemma plain_spec c0 cap out fs toks tl d s : d <> NUL -> chars_of s -> forall fb x f c,
  fields_rep c0 c [x] cap out fs toks -> reading fb x f ->
  exists r out' c', read_unquoted cfree (s ++ NUL :: tl) fb d out a c = Ret (r, out', c') /\
    read_post c0 cap out fs toks (stopped tl f (plain_field d s)) r out' c'.
Proof.
  intros Hd Hs. induction Hs as [|y s Hy Hs IH]; intros fb x f c R H; cbn [app read_unquoted plain_field].
  { rewrite decide_False by tauto. eexists (Some (_, _)), _, _. split; [done|]. split; [done|]. exists x. split; [done|].
    split; [done|]. cbn [fst snd]. by rewrite app_nil_r. }
  destruct (decide (y <> d /\ y <> 10 /\ y <> 13)) as [D|D].
  - rewrite decide_True by (split_and!; lia || tauto).
    apply (append_then _ _ _ _ _ _ _ x f y (fun fb out c => read_unquoted cfree (s ++ NUL :: tl) fb d out a c)); [done|done|].
    intros fb1 x1 c1 R1 H1. destruct (IH fb1 x1 _ c1 R1 H1) as (r & out' & c' & E & HP).
    exists r, out', c'. split; [done|]. eapply read_more; [exact HP|]. intros [p1 f1] x2. unfold stopped.
    destruct (plain_field d s) as [g rr]. cbn [fst snd]. by rewrite <- app_assoc.
  - rewrite decide_False by tauto. eexists (Some (_, _)), _, _. split; [done|]. split; [done|]. exists x. split; [done|].
    split; [done|]. cbn [fst snd]. by rewrite app_nil_r.
Qed.

Lemma field_spec c0 cap out fs toks tl d s fb x c : d <> NUL -> chars_of s ->
  fields_rep c0 c [x] cap out fs toks -> reading fb x [] ->
  exists r out' c', (let! y := deref (s ++ NUL :: tl) in
      if decide (y = QUOTE) then read_quoted cfree (s ++ NUL :: tl) fb out a c
      else read_unquoted cfree (s ++ NUL :: tl) fb d out a c) = Ret (r, out', c') /\
    read_post c0 cap out fs toks (stopped tl [] (first_field d s)) r out' c'.
Proof.
  intros Hd Hs R H. destruct s as [|y s].
  { cbn [app deref obind]. rewrite decide_False by done. apply (plain_spec c0 cap out fs toks tl d [] Hd Hs fb x [] c R H). }
  cbn [app deref obind first_field]. destruct (decide (y = QUOTE)) as [->|D].
  - cbn [read_quoted]. apply list.Forall_cons in Hs as [_ Hs]. by eapply quoted_spec.
  - apply (plain_spec c0 cap out fs toks tl d (y :: s) Hd Hs fb x [] c R H).
Qed.

Lemma grow_fields_spec c0 c cap out fs toks : fields_rep c0 c [] cap out fs toks -> zlen fs = cap ->
  exists r out' c', grow_fields cfree out cap a c = Ret (r, out', c') /\
    match r with
    | None => out' = mk_csv None 0 /\ cleaned c0 c'
    | Some cap' => fields_rep c0 c' [] cap' out' fs toks /\ zlen fs < cap'
    end.
Proof.
  intros R Hf. destruct (fr_array R) as (arr & room & E1 & E2 & E3 & E4 & O). pose proof (fr_limit R).
  unfold grow_fields, SIZEOF_PTR. rewrite E1. cbn [fmap option_fmap option_map].
  rewrite (u64_small (cap * 2)) by lia. rewrite Z.div_mul by lia. rewrite (u64_small (cap * 8)), (u64_small (cap * 2 * 8)) by lia.
  pose proof O as (_ & _ & El).
  destruct (realloc_cases a (Some (ca_block arr)) (cap * 8) (cap * 2 * 8) c) as (r & c1 & -> & Hr); [cbn; rewrite El; set_solver|done|lia|].
  cbn [obind]. destruct r as [b|].
  - destruct Hr as (Lb & Mb & _ & Nb & Hl). eexists _, _, _. split; [done|]. split; [|lia].
    rewrite Z.div_mul by lia. rewrite take_ge by (unfold zlen in *; lia). split; cbn [cv_count]; try apply R; try lia.
    eexists _, (room ++ replicate (Z.to_nat (cap * 2) - length (ca_slots arr)) None). split; [done|]. cbn [ca_slots ca_block].
    split_and!; [by rewrite E2, <- app_assoc| |lia|by eapply owns_realloc].
    rewrite zlen_app, zlen_replicate. unfold zlen in *. lia.
  - destruct (csv_destroy_spec c0 c1 cap out fs toks) as (c2 & -> & Hc).
    { eapply fields_own; [exact R|]. intros K HK. by eapply owns_same. }
    cbn [obind]. by eexists None, _, _.
Qed.

(** A finished field stored in the array. *)
Lemma store_spec c0 c cap out fs toks x f room : fields_rep c0 c [x] cap out fs toks -> zlen fs < cap -> chars_of f ->
  exists out', store_field out (zlen fs) (Some (Block x ((f ++ [NUL]) ++ room))) = Ret out' /\
    fields_rep c0 c [] cap out' (fs ++ [f]) (toks ++ [Block x ((f ++ [NUL]) ++ room)]).
Proof.
  intros R Hf Hc. destruct (fr_array R) as (arr & rm & E1 & E2 & E3 & E4 & O). pose proof (fields_length _ _ _ _ _ _ _ R) as Lt.
  pose proof (fr_limit R). pose proof (zlen_nonneg fs). unfold store_field. rewrite E1.
  assert (zlen (Some <$> toks) = zlen fs) as Ls by (unfold zlen in *; by rewrite length_fmap).
  assert (zlen rm = cap - zlen fs) as Lr by (rewrite E2 in E3; rewrite zlen_app in E3; lia).
  destruct rm as [|q rm]; [change (zlen (@nil (option block))) with 0 in Lr; lia|].
  rewrite (aset_split _ (Some <$> toks) q _ rm) by done. cbn [obind]. eexists. split; [done|].
  rewrite u64_small by lia. split; cbn [cv_fields cv_count].
  - eexists _, rm. split; [done|]. cbn [ca_slots ca_block]. split_and!; [by rewrite fmap_app| |done|].
    + rewrite <- E3, E2. zl.
    + eapply owns_perm; [exact O|]. rewrite fmap_app. cbn [app fmap list_fmap b_addr]. rewrite Permutation_cons_append.
      by rewrite <- app_comm_cons.
  - zl.
  - apply Forall2_app; [apply R|]. constructor; [|constructor]. cbn [b_data]. exists room. by rewrite <- app_assoc.
  - zl.
  - done.
Qed.

Lemma unquote_chars s : chars_of s -> chars_of (unquote s).1 /\ chars_of (unquote s).2.
Proof.
  assert (forall n s, (length s <= n)%nat -> chars_of s -> chars_of (unquote s).1 /\ chars_of (unquote s).2) as H;
    [|by apply (H (length s))].
  intros n. induction n as [|n IH]; intros [|x q] Hn Hs; cbn [length] in Hn; try done; try lia.
  apply list.Forall_cons in Hs as [Hx Hq]. cbn [unquote]. case_decide.
  - destruct q as [|y q2]; [done|]. case_decide; [|done]. cbn [length] in Hn. apply list.Forall_cons in Hq as [Hy Hq].
    destruct (IH q2 ltac:(lia) Hq) as [H1 H2]. destruct (unquote q2). cbn [fst snd] in *. split; [|done].
    constructor; [unfold QUOTE; lia|done].
  - destruct (IH q ltac:(lia) Hq) as [H1 H2]. destruct (unquote q). cbn [fst snd] in *. split; [by constructor|done].
Qed.

Lemma first_field_chars d s : chars_of s -> chars_of (first_field d s).1 /\ chars_of (first_field d s).2.
Proof.
  intros Hs. destruct s as [|x s]; [done|]. cbn [first_field]. case_decide; [apply unquote_chars; by apply list.Forall_cons in Hs as [_ ?]|].
  induction Hs as [|y s' Hy Hs' IH]; [done|]. cbn [plain_field]. case_decide; [|split; by constructor].
  destruct (plain_field d s') as [g r]. cbn [fst snd] in *. destruct IH as [I1 I2]. split; [by constructor|done].
Qed.

(** What the parser returns: the fields, or a failure. *)
Definition parse_post c0 (fs : list bytes) (e : zenit_error_t) out c' : Prop :=
  (e = ZENIT_OK /\ exists cap toks, fields_rep c0 c' [] cap out fs toks) \/
  (e = ZENIT_ERROR_ALLOC /\ out = mk_csv None 0 /\ cleaned c0 c').

Lemma parse_fields_spec c0 tl d : d <> NUL -> forall n s fs c cap out toks, (length s < n)%nat -> chars_of s ->
  fields_rep c0 c [] cap out fs toks ->
  exists e out' c', parse_fields cfree n (s ++ NUL :: tl) d (zlen fs) cap out a c = Ret (e, out', c') /\
    parse_post c0 (fs ++ csv_fields n d s) e out' c'.
Proof.
  intros Hd. induction n as [|n IH]; intros s fs c cap out toks Hn Hs R; [lia|]. cbn [parse_fields csv_fields].
  assert (exists r out1 c1, (if decide (cap <= zlen fs) then grow_fields cfree out cap a c else Ret (Some cap, out, c)) = Ret (r, out1, c1) /\
    match r with
    | None => out1 = mk_csv None 0 /\ cleaned c0 c1
    | Some cap' => fields_rep c0 c1 [] cap' out1 fs toks /\ zlen fs < cap'
    end) as (r & out1 & c1 & -> & H1).
  { pose proof (fr_room R). destruct (decide (cap <= zlen fs)); [apply grow_fields_spec; [done|lia]|].
    eexists (Some cap), _, _. split; [done|]. split; [done|lia]. }
  cbn [obind]. destruct r as [cap1|]; [|eexists _, _, _; split; [done|]; by right].
  destruct H1 as [R1 Hc1]. destruct (alloc_fn a 64 c1) as [[b|] c2] eqn:Ea.
  2:{ destruct (csv_destroy_spec c0 c2 cap1 out1 fs toks) as (c3 & -> & Hc).
      { eapply fields_own; [exact R1|]. intros K HK. eapply owns_same; [exact HK|]. by eapply alloc_none. }
      cbn [obind]. eexists _, _, _. split; [done|]. by right. }
  assert (fields_rep c0 c2 [b_addr b] cap1 out1 fs toks) as R2.
  { eapply fields_own; [exact R1|]. intros K HK. by eapply owns_alloc. }
  assert (reading (mk_fbuf (Some b) 64 0) (b_addr b) []) as Hb.
  { apply alloc_some in Ea as (Lb & _). exists (b_data b). cbn [fb_buf fb_cap fb_len app]. destruct b. cbn in *.
    split_and!; try done; lia. }
  destruct (field_spec c0 cap1 out1 fs toks tl d s _ _ c2 Hd Hs R2 Hb) as (r & out3 & c3 & E3 & H3).
  destruct (deref (s ++ NUL :: tl)) as [y| |]; [|done|done]. cbn [obind] in E3 |- *. rewrite E3. cbn [obind]. clear E3.
  destruct r as [[p fb]|]; [|eexists _, _, _; split; [done|]; by right].
  destruct H3 as (-> & x & R3 & Ep & room & Eb & Ec & El & Hr & Hcap). cbn [fst snd] in *.
  pose proof (first_field_rest d s) as Hlen. destruct (first_field_chars d s Hs) as [Hg Hrr].
  destruct (first_field d s) as [g rr]. cbn [fst snd app] in *.
  rewrite decide_False by (rewrite Ec, El, zlen_app; lia). cbn [obind]. rewrite Eb, El.
  destruct (room_cons room Hr) as (z & rm & -> & Lr). rewrite pset_emit by done. cbn [obind].
  destruct (store_spec c0 c3 cap1 out1 fs toks x g rm R3 Hc1 Hg) as (out4 & -> & R4). cbn [obind]. rewrite Ep.
  pose proof (fr_limit R4). pose proof (fr_room R4) as Hrm. rewrite zlen_app in Hrm. change (zlen [g]) with 1 in Hrm.
  pose proof (zlen_nonneg fs). rewrite u64_small by lia.
  destruct rr as [|w rr]; cbn [app deref obind tail].
  { rewrite decide_False by congruence. eexists _, _, _. split; [done|]. left. split; [done|]. by eexists _, _. }
  destruct (decide (w = d)) as [->|D].
  - apply list.Forall_cons in Hrr as [_ Hrr]. cbn [length] in Hlen.
    replace (zlen fs + 1) with (zlen (fs ++ [g])) by zl.
    destruct (IH rr (fs ++ [g]) c3 cap1 out4 _ ltac:(lia) Hrr R4) as (e & out5 & c5 & -> & H5).
    eexists _, _, _. split; [done|]. by rewrite <- app_assoc in H5.
  - eexists _, _, _. split; [done|]. left. split; [done|]. by eexists _, _.
Qed.

Lemma parse_spec d n buf s out c : d <> NUL -> cstr buf s -> (length s < n)%nat ->
  exists e out' c', zenit_csv_parse_record_with_allocator cfree n (Some buf) d (Some out) a c = Ret (e, Some out', c') /\
    parse_post c (csv_record d s) e out' c'.
Proof.
  intros Hd (tl & -> & Hs) Hn. unfold zenit_csv_parse_record_with_allocator. change (u64 (8 * SIZEOF_PTR)) with 64.
  destruct (alloc_fn a 64 c) as [[b|] c1] eqn:Ea.
  2:{ eexists _, _, _. split; [done|]. right. split_and!; [done|done|]. intros _. by eapply alloc_none. }
  assert (fields_rep c c1 [] 8 (mk_csv (Some (CharArray b (replicate 8 None))) 0) [] []) as R0.
  { split; cbn [cv_fields cv_count]; try done; try lia. eexists _, (replicate 8 None). split; [done|]. cbn [ca_slots ca_block].
    split_and!; [done|done|by apply alloc_some in Ea as (-> & _)|]. exact (owns_alloc a _ _ _ _ _ _ (owns_refl a c) Ea). }
  destruct (parse_fields_spec c tl d Hd n s [] c1 8 _ [] Hn Hs R0) as (e & out' & c' & E & H).
  change (zlen (@nil bytes)) with 0 in E. rewrite E. cbn [obind]. eexists _, _, _. split; [done|].
  unfold csv_record. by rewrite (csv_fields_fuel d (S (length s)) n) by lia.
Qed.
End CsvProofs.

(** ** Printing *)

(** The record shows the fields [fs]. *)
Definition record_shows (r : zenit_csv_record_t) (fs : list bytes) : Prop :=
  exists arr toks room, cv_fields r = Some arr /\ ca_slots arr = (Some <$> toks) ++ room /\
    Forall2 (fun b x => cstr (b_data b) x) toks fs /\ cv_count r = zlen fs /\ zlen fs < two64.

Lemma has_special_spec s rest d : chars_of s -> has_special (s ++ NUL :: rest) d = Ret (existsb (is_special d) s).
Proof.
  induction 1 as [|x s Hx _ IH]; [done|]. cbn [app has_special existsb]. rewrite decide_False by lia. unfold is_special at 1.
  case_decide; [by rewrite bool_decide_eq_true_2|]. by rewrite bool_decide_eq_false_2.
Qed.

Lemma needs_quoting_spec buf s d : cstr buf s -> needs_quoting (Some buf) d = Ret (quotes d s).
Proof.
  intros H. pose proof (strlen_cstr _ _ H) as El. destruct H as (rest & -> & Hs). unfold needs_quoting, quotes.
  destruct s as [|x s]; [done|]. cbn [app deref obind head]. pose proof Hs as [Hx _]%list.Forall_cons. rewrite decide_False by lia.
  destruct (last (x :: s)) as [y|] eqn:Ey; [|by apply last_None in Ey]. chars. unfold is_blank at 1.
  case_decide as D; [by rewrite bool_decide_eq_true_2|]. rewrite bool_decide_eq_false_2 by done. cbn [orb].
  cbn [app] in El. rewrite El. cbn [obind]. rewrite decide_True by (rewrite zlen_cons; pose proof (zlen_nonneg s); lia).
  apply last_Some in Ey as [s0 Es].
  change (x :: s ++ NUL :: rest) with ((x :: s) ++ NUL :: rest) in *. rewrite Es, <- app_assoc in *.
  rewrite (aget_split _ s0 y ([] ++ NUL :: rest)) by (done || zl). cbn [obind]. unfold is_blank.
  case_bool_decide; [done|]. cbn [orb]. rewrite app_assoc. by rewrite has_special_spec.
Qed.

Lemma quoted_len_spec s rest : chars_of s -> forall n, 0 <= n -> n + zlen (doubled s) < two64 ->
  quoted_len (s ++ NUL :: rest) n = Ret (n + zlen (doubled s)).
Proof.
  induction 1 as [|x s Hx _ IH]; intros n Hn Hm; cbn [app quoted_len doubled].
  { f_equal. zl. }
  rewrite decide_False by lia. cbn [doubled] in Hm. pose proof (zlen_nonneg (doubled s)). case_decide.
  - rewrite !zlen_cons in *. rewrite (u64_small (n + 1)), (u64_small (n + 1 + 1)) by lia. rewrite IH by lia. f_equal. lia.
  - rewrite !zlen_cons in *. rewrite (u64_small n), (u64_small (n + 1)) by lia. rewrite IH by lia. f_equal. lia.
Qed.

Lemma field_len_spec buf s d : cstr buf s -> zlen (field_text d s) < two64 ->
  serialised_field_len (Some buf) d = Ret (zlen (field_text d s)).
Proof.
  intros H Hm. unfold serialised_field_len. rewrite (needs_quoting_spec _ s) by done. cbn [obind].
  pose proof (strlen_cstr _ _ H) as El. destruct H as (rest & -> & Hs). unfold field_text in *. destruct (quotes d s).
  - rewrite zlen_cons, zlen_app in *. change (zlen [QUOTE]) with 1 in *. rewrite quoted_len_spec by (done || lia). f_equal. lia.
  - done.
Qed.

Section Emit.
Context (x : addr).
Implicit Types (out room : bytes).

(** A step that writes [t] behind what is there. *)
Definition emits (t : bytes) (f : option block -> Z -> outcome (option block * Z)) : Prop :=
  forall out room, zlen t <= zlen room -> zlen out + zlen t < two64 ->
  exists room', zlen room' = zlen room - zlen t /\
    f (Some (Block x (out ++ room))) (zlen out) = Ret (Some (Block x ((out ++ t) ++ room')), zlen (out ++ t)).

Lemma emits_byte v : emits [v] (fun buf pos => let! b := pset buf pos v in Ret (b, u64 (pos + 1))).
Proof.
  intros out room Hr Hm. change (zlen [v]) with 1 in *. destruct (room_cons room Hr) as (z & rm & -> & L).
  pose proof (zlen_nonneg out). exists rm. split; [done|]. rewrite pset_emit by done. cbn [obind]. rewrite u64_small by lia.
  by rewrite zlen_app.
Qed.

Lemma emits_nil : emits [] (fun buf pos => Ret (buf, pos)).
Proof. intros out room _ _. exists room. rewrite !app_nil_r. change (zlen (@nil Z)) with 0. split; [lia|done]. Qed.

Lemma emits_bind t1 t2 f g : emits t1 f -> emits t2 g ->
  emits (t1 ++ t2) (fun buf pos => let! (b, q) := f buf pos in g b q).
Proof.
  intros H1 H2 out room Hr Hm. rewrite zlen_app in Hr, Hm. pose proof (zlen_nonneg t1). pose proof (zlen_nonneg t2).
  destruct (H1 out room) as (r1 & L1 & E1); [lia|lia|]. destruct (H2 (out ++ t1) r1) as (r2 & L2 & E2); [lia|zl|].
  exists r2. split; [zl|]. rewrite E1. cbn [obind]. rewrite E2. by rewrite <- !app_assoc.
Qed.

Lemma emits_ext t f g : (forall b q, f b q = g b q) -> emits t f -> emits t g.
Proof. intros H Hf out room Hr Hm. destruct (Hf out room Hr Hm) as (r & L & E). exists r. by rewrite <- H. Qed.

Lemma quoted_write_spec s rest : chars_of s -> emits (doubled s) (quoted_write (s ++ NUL :: rest)).
Proof.
  induction 1 as [|y s Hy _ IH]; cbn [app doubled]; [exact emits_nil|]. case_decide as D.
  - eapply emits_ext; [|exact (emits_bind [y] (y :: doubled s) _ _ (emits_byte y) (emits_bind [y] _ _ _ (emits_byte y) IH))].
    intros b q. cbn [quoted_write]. rewrite decide_False by lia. rewrite (decide_True _ _ D), D.
    destruct (pset b q QUOTE) as [b1| |]; [|done|done]. cbn [obind]. by destruct (pset b1 (u64 (q + 1)) QUOTE).
  - eapply emits_ext; [|exact (emits_bind [y] _ _ _ (emits_byte y) IH)].
    intros b q. cbn [quoted_write]. rewrite decide_False by lia. rewrite (decide_False _ _ D). cbn [obind].
    by destruct (pset b q y).
Qed.

Lemma field_write_spec buf s d : cstr buf s -> emits (field_text d s) (serialised_field_write (Some buf) d).
Proof.
  intros H. pose proof (needs_quoting_spec _ _ d H) as Eq. pose proof (strlen_cstr _ _ H) as El.
  destruct H as (rest & -> & Hs). unfold field_text. destruct (quotes d s).
  - eapply emits_ext; [|exact (emits_bind [QUOTE] (doubled s ++ [QUOTE]) _ _ (emits_byte QUOTE)
      (emits_bind _ [QUOTE] _ _ (quoted_write_spec s rest Hs) (emits_byte QUOTE)))].
    intros b q. unfold serialised_field_write. rewrite Eq. cbn [obind]. destruct (pset b q QUOTE) as [b1| |]; done.
  - intros out room Hr Hm. unfold serialised_field_write. rewrite Eq. cbn [obind]. rewrite El. cbn [obind].
    pose proof (rd_app [] s (NUL :: rest) 0 (zlen s) eq_refl eq_refl) as Er. cbn [app] in Er. rewrite Er. cbn [obind].
    destruct (pwr_emit x out room s (zlen out) eq_refl Hr) as (room' & -> & L'). cbn [obind].
    pose proof (zlen_nonneg out). pose proof (zlen_nonneg s). rewrite u64_small by lia. exists room'. by rewrite zlen_app.
Qed.
End Emit.

(** The text of the fields, the first of them behind a delimiter or not. *)
Fixpoint row_text (d : Z) (sep : bool) (fs : list bytes) : bytes :=
  match fs with
  | [] => []
  | f :: fs => (if sep then [d] else []) ++ field_text d f ++ row_text d true fs
  end.

Lemma row_text_eq d fs : row_text d false fs = csv_text d fs.
Proof.
  unfold csv_text. destruct fs as [|f fs]; [done|]. cbn [row_text fmap list_fmap app]. rewrite joined_cons. f_equal.
  unfold joined_tail. induction fs as [|g fs IH]; [done|]. cbn [row_text fmap list_fmap concat]. rewrite IH. by rewrite <- app_assoc.
Qed.

Lemma field_at_spec r arr toks room pre b x post : cv_fields r = Some arr -> ca_slots arr = (Some <$> toks) ++ room ->
  toks = pre ++ b :: post -> cstr (b_data b) x -> field_at r (zlen pre) = Ret (Some (b_data b)).
Proof.
  intros E1 E2 -> Hx. unfold field_at. rewrite E1.
  rewrite (aget_split _ (Some <$> pre) (Some b) ((Some <$> post) ++ room)); [done| |unfold zlen; by rewrite length_fmap].
  rewrite E2, fmap_app, <- app_assoc. done.
Qed.

Section Rows.
Context (r : zenit_csv_record_t) (arr : char_array) (toks : list block) (room : list (option block)) (d : Z).
Context (E1 : cv_fields r = Some arr) (E2 : ca_slots arr = (Some <$> toks) ++ room) (Hl : zlen toks < two64).

Lemma total_loop_spec fs : forall pre post t, toks = pre ++ post -> Forall2 (fun b x => cstr (b_data b) x) post fs -> 0 <= t ->
  t + zlen (row_text d (bool_decide (0 < zlen pre)) fs) < two64 ->
  total_loop (length fs) (zlen pre) r d t = Ret (t + zlen (row_text d (bool_decide (0 < zlen pre)) fs)).
Proof using E1 E2 Hl.
  induction fs as [|f fs IH]; intros pre post t Et F Ht Hm; cbn [total_loop length row_text].
  { f_equal. zl. }
  inversion F as [|b ? post' ? Hb F']; subst post. rewrite (field_at_spec r arr toks room pre b f post') by done. cbn [obind].
  cbn [row_text] in Hm. rewrite !zlen_app in Hm.
  pose proof (zlen_nonneg (field_text d f)). pose proof (zlen_nonneg (row_text d true fs)). pose proof (zlen_nonneg pre).
  pose proof (zlen_nonneg (if bool_decide (0 < zlen pre) then [d] else [])).
  rewrite (field_len_spec (b_data b) f d Hb) by lia. cbn [obind].
  assert ((if decide (0 < zlen pre) then u64 (t + 1) else t) = t + zlen (if bool_decide (0 < zlen pre) then [d] else [])) as ->.
  { case_bool_decide; [rewrite decide_True by done|rewrite decide_False by done].
    - change (zlen [d]) with 1 in *. by rewrite u64_small by lia.
    - change (zlen (@nil Z)) with 0. lia. }
  assert (zlen pre + 1 < two64) by (rewrite Et, zlen_app, zlen_cons in Hl; pose proof (zlen_nonneg post'); lia).
  rewrite (u64_small (zlen pre + 1)) by lia. rewrite u64_small by lia.
  replace (zlen pre + 1) with (zlen (pre ++ [b])) by zl.
  assert (bool_decide (0 < zlen (pre ++ [b])) = true) as Eb by (apply bool_decide_eq_true_2; zl).
  rewrite (IH (pre ++ [b]) post'); rewrite ?Eb; [f_equal; zl|by rewrite <- app_assoc|done|lia|zl].
Qed.

Lemma write_loop_spec x fs : forall pre post, toks = pre ++ post -> Forall2 (fun b x => cstr (b_data b) x) post fs ->
  emits x (row_text d (bool_decide (0 < zlen pre)) fs) (write_loop (length fs) (zlen pre) r d).
Proof using E1 E2 Hl.
  induction fs as [|f fs IH]; intros pre post Et F; cbn [length row_text]; [exact (emits_nil x)|].
  inversion F as [|b ? post' ? Hb F']; subst post. pose proof (zlen_nonneg pre).
  assert (bool_decide (0 < zlen (pre ++ [b])) = true) as Eb by (apply bool_decide_eq_true_2; zl).
  pose proof (IH (pre ++ [b]) post' ltac:(by rewrite <- app_assoc) F') as Hrest. rewrite Eb in Hrest.
  assert (zlen pre + 1 < two64) by (rewrite Et, zlen_app, zlen_cons in Hl; pose proof (zlen_nonneg post'); lia).
  assert (emits x (if bool_decide (0 < zlen pre) then [d] else [])
    (fun buf pos => if decide (0 < zlen pre) then let! b := pset buf pos d in Ret (b, u64 (pos + 1)) else Ret (buf, pos))) as Hsep.
  { destruct (decide (0 < zlen pre)) as [D|D].
    - rewrite (bool_decide_eq_true_2 _ D). exact (emits_byte x d).
    - rewrite (bool_decide_eq_false_2 _ D). exact (emits_nil x). }
  eapply emits_ext; [|exact (emits_bind x _ _ _ _ Hsep (emits_bind x _ _ _ _ (field_write_spec x _ f d Hb) Hrest))].
  intros buf pos. cbn [write_loop]. rewrite (field_at_spec r arr toks room pre b f post') by done.
  rewrite (u64_small (zlen pre + 1)) by lia. replace (zlen pre + 1) with (zlen (pre ++ [b])) by zl.
  destruct (decide (0 < zlen pre)); [|done]. destruct (pset buf pos d); done.
Qed.
End Rows.

Lemma serialise_spec {C : Type} (a : zenit_allocator_t C) {SP : AllocSpec a} r fs d o c :
  record_shows r fs -> zlen (csv_text d fs) + 1 < two64 ->
  zenit_csv_serialise_record_with_allocator (Some r) d (Some o) a c =
    Ret (match alloc_fn a (zlen (csv_text d fs) + 1) c with
         | (Some b, c1) => (ZENIT_OK, Some (Some (Block (b_addr b) (csv_text d fs ++ [NUL]))), c1)
         | (None, c1) => (ZENIT_ERROR_ALLOC, Some o, c1)
         end).
Proof.
  intros (arr & toks & room & E1 & E2 & F & Ec & Hl) Hm. unfold zenit_csv_serialise_record_with_allocator.
  pose proof (Forall2_length _ _ _ F) as Lf. assert (zlen toks < two64) as Hl' by (unfold zlen in *; lia).
  replace (Z.to_nat (cv_count r)) with (length fs) by (rewrite Ec; unfold zlen; lia).
  pose proof (total_loop_spec r arr toks room d E1 E2 Hl' fs [] toks 0 eq_refl F ltac:(lia)) as Tot.
  pose proof (fun x => write_loop_spec r arr toks room d E1 E2 Hl' x fs [] toks eq_refl F) as Wr.
  change (zlen (@nil block)) with 0 in *. change (bool_decide (0 < 0)) with false in *. rewrite row_text_eq in Tot, Wr.
  pose proof (zlen_nonneg (csv_text d fs)). rewrite Tot by lia. cbn [obind]. rewrite u64_small, Z.add_0_l by lia.
  destruct (alloc_fn a (zlen (csv_text d fs) + 1) c) as [[[x bd]|] c1] eqn:Ea; [|done]. apply alloc_some in Ea as (Lb & _).
  cbn [b_data] in Lb. destruct (Wr x [] bd) as (room' & Lr & Ew); [lia|change (zlen (@nil Z)) with 0; lia|].
  cbn [app] in Ew. change (zlen (@nil Z)) with 0 in Ew. rewrite Ew. cbn [obind].
  destruct (room_cons room') as (z & rm & -> & Lr'); [lia|]. rewrite zlen_cons in Lr. assert (rm = []) as -> by (apply zlen_0; lia).
  rewrite pset_emit by done. cbn [obind b_addr]. by rewrite app_nil_r.
Qed.

(** ** Theorems *)

Section CsvTheorems.
Context {C : Type} (a : zenit_allocator_t C) {SP : AllocSpec a} (cfree : option addr -> C -> C).

Lemma rep_shows c0 c cap out fs toks : fields_rep a c0 c [] cap out fs toks -> record_shows out fs.
Proof.
  intros [(arr & room & E1 & E2 & _ & _ & _) R2 R3 R4 R5]. exists arr, toks, room. split_and!; try done. lia.
Qed.

(** C36. For every string and every delimiter but NUL the parser returns: with the
    fields of the line, a quoted field up to its closing quote and doubled quotes
    made single, or with [ZENIT_ERROR_ALLOC] and an empty record. Where the library's
    [free] is the allocator's, a failure leaves nothing allocated, and destroying the
    record gives back everything that was. *)
Theorem csv_parse_correct d n buf s out c : d <> NUL -> cstr buf s -> (length s < n)%nat ->
  exists e out' c', zenit_csv_parse_record_with_allocator cfree n (Some buf) d (Some out) a c = Ret (e, Some out', c') /\
  ((e = ZENIT_OK /\ record_shows out' (csv_record d s) /\
    exists c'', zenit_csv_record_destroy cfree (Some out') c' = Ret (Some (mk_csv None 0), c'') /\
      (same_free a cfree -> live c'' = live c)) \/
   (e = ZENIT_ERROR_ALLOC /\ out' = mk_csv None 0 /\ (same_free a cfree -> live c' = live c))).
Proof.
  intros Hd Hb Hn. destruct (parse_spec a cfree d n buf s out c Hd Hb Hn) as (e & out' & c' & E & H). exists e, out', c'.
  split; [done|]. destruct H as [[-> (cap & toks & R)]|H]; [left|by right]. split; [done|]. split; [by eapply rep_shows|].
  destruct (csv_destroy_spec a cfree _ _ _ _ _ _ R) as (c2 & E2 & H2). unfold destroy_out in E2.
  cbn [zenit_csv_record_destroy] in E2 |- *.
  destruct (match cv_fields out' with None => _ | Some _ => _ end) as [c3| |]; [|done|done]. cbn [obind] in E2 |- *.
  injection E2 as ->. by exists c2.
Qed.

(** C35. What was printed is read back: for any record with at least one field, fields
    with any characters, also delimiters, quotes, blanks and ends of line, and any
    delimiter but the quote and NUL, the printed line is parsed into the same fields.
    Printing and parsing report [ZENIT_ERROR_ALLOC] when the allocator refuses. *)
Theorem csv_roundtrip d fs r o c : d <> QUOTE -> fs <> [] -> Forall chars_of fs -> 0 < d < 256 ->
  record_shows r fs -> zlen (csv_text d fs) + 1 < two64 ->
  exists e o' c1, zenit_csv_serialise_record_with_allocator (Some r) d (Some o) a c = Ret (e, Some o', c1) /\
  ((e = ZENIT_ERROR_ALLOC /\ o' = o /\ live c1 = live c) \/
   exists b, e = ZENIT_OK /\ o' = Some b /\ live c1 = {[ b_addr b ]} ∪ live c /\
     forall n out c2, (length (b_data b) <= n)%nat ->
       exists e2 out' c3, zenit_csv_parse_record_with_allocator cfree n (Some (b_data b)) d (Some out) a c2 = Ret (e2, Some out', c3) /\
         ((e2 = ZENIT_OK /\ record_shows out' fs) \/ (e2 = ZENIT_ERROR_ALLOC /\ out' = mk_csv None 0))).
Proof.
  intros Hq Hf Hc Hdc Hr Hm. assert (d <> NUL) as Hd by lia. rewrite (serialise_spec a r fs d o c Hr Hm).
  destruct (alloc_fn a (zlen (csv_text d fs) + 1) c) as [[b|] c1] eqn:Ea.
  2:{ eexists _, _, _. split; [done|]. left. split_and!; [done|done|by eapply alloc_none]. }
  apply alloc_some in Ea as (_ & _ & _ & Hl). eexists _, _, _. split; [done|]. right.
  exists (Block (b_addr b) (csv_text d fs ++ [NUL])). split_and!; [done|done|done|]. intros n out c2 Hn. cbn [b_data] in *.
  rewrite length_app in Hn. cbn [length] in Hn.
  destruct (parse_spec a cfree d n (csv_text d fs ++ [NUL]) (csv_text d fs) out c2 Hd) as (e & out' & c' & E & H).
  { apply cstr_intro. by apply csv_text_chars. }
  { lia. }
  rewrite csv_text_record in H by done. exists e, out', c'. split; [done|].
  destruct H as [[-> (cap & toks & R)]|(-> & -> & _)]; [left|by right]. split; [done|by eapply rep_shows].
Qed.
End CsvTheorems.

(** ** Witnesses *)

Definition wit_csv_line : string := "ab,x y,12".

Lemma csv_parse_correct_witness :
  exists e out' c', zenit_csv_parse_record_with_allocator Allocator.free 100 (Some (lit wit_csv_line ++ [NUL])) 44
      (Some (mk_csv None 0)) ZENIT_ALLOCATOR_DEFAULT empty_heap = Ret (e, Some out', c') /\
  ((e = ZENIT_OK /\ record_shows out' [lit "ab"; lit "x y"; lit "12"] /\
    exists c'', zenit_csv_record_destroy Allocator.free (Some out') c' = Ret (Some (mk_csv None 0), c'') /\
      (same_free ZENIT_ALLOCATOR_DEFAULT Allocator.free -> live c'' = live empty_heap)) \/
   (e = ZENIT_ERROR_ALLOC /\ out' = mk_csv None 0 /\
     (same_free ZENIT_ALLOCATOR_DEFAULT Allocator.free -> live c' = live empty_heap))).
Proof.
  refine (csv_parse_correct ZENIT_ALLOCATOR_DEFAULT Allocator.free 44 100 _ (lit wit_csv_line) (mk_csv None 0) empty_heap _ _ _);
    [done|apply lit_cstr; reflexivity|vm_compute; lia].
Defined.

Definition wit_csv_fields : list bytes := [lit "ab"; []; [44; 34; 10]; lit " x"].
Definition wit_csv_record : zenit_csv_record_t :=
  mk_csv (Some (CharArray (Block 1 []) ((fun f => Some (Block 2 (f ++ [NUL]))) <$> wit_csv_fields))) 4.

Lemma csv_roundtrip_witness :
  exists e o' c1, zenit_csv_serialise_record_with_allocator (Some wit_csv_record) 44 (Some None) ZENIT_ALLOCATOR_DEFAULT
      empty_heap = Ret (e, Some o', c1) /\
  ((e = ZENIT_ERROR_ALLOC /\ o' = None /\ live c1 = live empty_heap) \/
   exists b, e = ZENIT_OK /\ o' = Some b /\ live c1 = {[ b_addr b ]} ∪ live empty_heap /\
     forall n out c2, (length (b_data b) <= n)%nat ->
       exists e2 out' c3, zenit_csv_parse_record_with_allocator Allocator.free n (Some (b_data b)) 44 (Some out)
           ZENIT_ALLOCATOR_DEFAULT c2 = Ret (e2, Some out', c3) /\
         ((e2 = ZENIT_OK /\ record_shows out' wit_csv_fields) \/ (e2 = ZENIT_ERROR_ALLOC /\ out' = mk_csv None 0))).
Proof.
  refine (csv_roundtrip ZENIT_ALLOCATOR_DEFAULT Allocator.free 44 wit_csv_fields wit_csv_record None empty_heap _ _ _ _ _ _).
  - done.
  - done.
  - repeat constructor; vm_compute; done.
  - lia.
  - exists (CharArray (Block 1 []) ((fun f => Some (Block 2 (f ++ [NUL]))) <$> wit_csv_fields)),
      ((fun f => Block 2 (f ++ [NUL])) <$> wit_csv_fields), [].
    split_and!; [done|done| |done|done]. repeat constructor; (apply cstr_intro; repeat constructor; vm_compute; done).
  - vm_compute. done.
Defined.
