(* ===== verification/Path.v ===== *)
(** * Paths ([src/path.c])

    Joining, splitting and normalising path strings.  A path is the buffer that holds
    it, a pointer into one an index; the result is a block of the caller's allocator.
    [zenit_path_to_native] is the variant for platforms other than Windows.

    [path_normalize_correct] relates the in-place stack of
    [zenit_path_normalize] to the list of components; [path_parts_correct] states the
    other functions. *)

From Stdlib Require Import ZArith Lia Ascii String.
From stdpp Require Import base tactics option list numbers gmap sets.
From S2P Require Import Prelude Mem Result Allocator Links Text Str.
Open Scope Z_scope.

Definition SLASH : Z := 47.
Definition BACKSLASH : Z := 92.
Definition DOT : Z := 46.

(** [c == '/' || c == '\\']. *)
Definition is_sep (c : Z) : bool := bool_decide (c = SLASH) || bool_decide (c = BACKSLASH).

(** The loop from [i] on, with the last separator found so far. *)
Fixpoint last_slash_loop (s : bytes) (i : Z) (p : option Z) : outcome (option Z) :=
  match s with
  | [] => Undef
  | c :: s => if decide (c <> NUL) then last_slash_loop s (i + 1) (if is_sep c then Some i else p) else Ret p
  end.

Definition last_slash (s : bytes) : outcome (option Z) := last_slash_loop s 0 None.

(** The last dot, from [i] on. *)
Fixpoint last_dot (s : bytes) (i : Z) (dot : option Z) : outcome (option Z) :=
  match s with
  | [] => Undef
  | c :: s => if decide (c <> NUL) then last_dot s (i + 1) (if decide (c = DOT) then Some i else dot) else Ret dot
  end.

(** The loops of the normalisation; [n] turns are enough. *)
Fixpoint skip_slashes (n : nat) (path : bytes) (len i : Z) : outcome Z :=
  match n with
  | O => NoFuel
  | S n =>
      if decide (i < len) then
        let! c := aget path i in
        if is_sep c then skip_slashes n path len (u64 (i + 1)) else Ret i
      else Ret i
  end.

Fixpoint component_end (n : nat) (path : bytes) (len i : Z) : outcome Z :=
  match n with
  | O => NoFuel
  | S n =>
      if decide (i < len) then
        let! c := aget path i in
        if is_sep c then Ret i else component_end n path len (u64 (i + 1))
      else Ret i
  end.

(** The position behind the component, its start and its length. *)
Definition next_component (n : nat) (path : bytes) (len i : Z) : outcome (Z * Z * Z) :=
  if decide (len <= i) then Ret (len, len, 0)
  else let! j := component_end n path len i in Ret (j, i, u64 (j - i)).

Fixpoint pop_loop (n : nat) (stack : option block) (pos min_pos : Z) : outcome Z :=
  match n with
  | O => NoFuel
  | S n =>
      if decide (min_pos < pos) then
        let! c := pget stack (u64 (pos - 1)) in
        if is_sep c then Ret pos else pop_loop n stack (u64 (pos - 1)) min_pos
      else Ret pos
  end.

Definition pop_component (n : nat) (stack : option block) (pos min_pos : Z) : outcome Z :=
  if decide (pos <= min_pos) then Ret pos
  else
    let! pos := pop_loop n stack (u64 (pos - 1)) min_pos in
    Ret (if decide (min_pos < pos) then u64 (pos - 1) else pos).

(** The body of the loop for a component: the stack and its new top. *)
Definition place_component (fuel : nat) (path : bytes) (start clen : Z) (is_absolute : bool) (stack : option block) (pos : Z)
    : outcome (option block * Z) :=
  let! c0 := if decide (clen = 1 \/ clen = 2) then aget path start else Ret NUL in
  if decide (clen = 1 /\ c0 = DOT) then Ret (stack, pos)
  else
    let! c1 := if decide (clen = 2 /\ c0 = DOT) then aget path (start + 1) else Ret NUL in
    if decide (clen = 2 /\ c0 = DOT /\ c1 = DOT) then
      let! pos := pop_component fuel stack pos (if is_absolute then 1 else 0) in Ret (stack, pos)
    else
      let! (stack, pos) :=
        if decide (0 < pos /\ ~ (is_absolute = true /\ pos = 1)) then
          let! stack := pset stack pos SLASH in Ret (stack, u64 (pos + 1))
        else Ret (stack, pos) in
      let! d := rd path start clen in
      let! stack := pwr stack pos d in
      Ret (stack, u64 (pos + clen)).

Fixpoint normalize_loop (n : nat) (path : bytes) (len i : Z) (is_absolute : bool) (stack : option block) (pos : Z)
    : outcome (option block * Z) :=
  match n with
  | O => NoFuel
  | S n' =>
      if decide (i < len) then
        let! i := skip_slashes n path len i in
        if decide (len <= i) then Ret (stack, pos)
        else
          let! (i, start, clen) := next_component n path len i in
          let! (stack, pos) := place_component (Z.to_nat len + 2) path start clen is_absolute stack pos in
          normalize_loop n' path len i is_absolute stack pos
      else Ret (stack, pos)
  end.

(** The copy loop of [zenit_path_to_native], from [i] on. *)
Fixpoint native_loop (n : nat) (path : bytes) (i : Z) (out : option block) : outcome (option block) :=
  match n with
  | O => Ret out
  | S n => let! x := aget path i in let! out := pset out i x in native_loop n path (u64 (i + 1)) out
  end.

Section PathModel.
Context {C : Type}.
Implicit Types (c : C) (a : zenit_allocator_t C).

Definition strdup_with_allocator (s : bytes) a c : outcome (option block * C) :=
  let! len := strlen s in
  match alloc_fn a (u64 (len + 1)) c with
  | (None, c1) => Ret (None, c1)
  | (out, c1) =>
      let! d := rd s 0 (u64 (len + 1)) in
      let! out := pwr out 0 d in Ret (out, c1)
  end.

Definition join_impl (p q : option bytes) a c : outcome (option block * C) :=
  match p, q with
  | Some p, Some q =>
      let! a_len := strlen p in
      let! b_len := strlen q in
      let! x := if decide (0 < a_len) then aget p (u64 (a_len - 1)) else Ret NUL in
      let a_adj := if decide (0 < a_len /\ x = SLASH) then u64 (a_len - 1) else a_len in
      let! y := if decide (0 < b_len) then aget q 0 else Ret NUL in
      let b_off := if decide (0 < b_len /\ y = SLASH) then 1 else 0 in
      let b_adj := if decide (0 < b_len /\ y = SLASH) then u64 (b_len - 1) else b_len in
      let need_sep := bool_decide (0 < a_adj /\ 0 < b_adj) in
      let total := u64 (u64 (u64 (a_adj + b_adj) + Z.b2z need_sep) + 1) in
      match alloc_fn a total c with
      | (None, c1) => Ret (None, c1)
      | (out, c1) =>
          let! d := rd p 0 a_adj in
          let! out := pwr out 0 d in
          let pos := a_adj in
          let! (out, pos) :=
            if need_sep : bool then let! out := pset out pos SLASH in Ret (out, u64 (pos + 1)) else Ret (out, pos) in
          let! d := rd q b_off b_adj in
          let! out := pwr out pos d in
          let pos := u64 (pos + b_adj) in
          let! out := pset out pos NUL in
          Ret (out, c1)
      end
  | _, _ => Ret (None, c)
  end.

Definition zenit_path_join_with_allocator (p q : option bytes) a c : outcome (option block * C) := join_impl p q a c.

(** [n] bytes of [path] from [start] on, and a terminator, in a new block. *)
Definition copy_part (path : bytes) (start n : Z) a c : outcome (option block * C) :=
  match alloc_fn a (u64 (n + 1)) c with
  | (None, c1) => Ret (None, c1)
  | (out, c1) =>
      let! d := rd path start n in
      let! out := pwr out 0 d in
      let! out := pset out n NUL in
      Ret (out, c1)
  end.

Definition dirname_impl (path : option bytes) a c : outcome (option block * C) :=
  match path with
  | None => Ret (None, c)
  | Some path =>
      let! len := strlen path in
      if decide (len = 0) then strdup_with_allocator [DOT; NUL] a c
      else
        let! slash := last_slash path in
        match slash with
        | None => strdup_with_allocator [DOT; NUL] a c
        | Some k => if decide (k = 0) then strdup_with_allocator [SLASH; NUL] a c else copy_part path 0 k a c
        end
  end.

Definition zenit_path_dirname_with_allocator (path : option bytes) a c : outcome (option block * C) := dirname_impl path a c.

(** The rest of [path] from [start] on, with its terminator, in a new block. *)
Definition copy_rest (path : bytes) (start : Z) a c : outcome (option block * C) :=
  let! n := strlen (drop (Z.to_nat start) path) in
  match alloc_fn a (u64 (n + 1)) c with
  | (None, c1) => Ret (None, c1)
  | (out, c1) =>
      let! d := rd path start (u64 (n + 1)) in
      let! out := pwr out 0 d in
      Ret (out, c1)
  end.

Definition basename_impl (path : option bytes) a c : outcome (option block * C) :=
  match path with
  | None => Ret (None, c)
  | Some path =>
      let! len := strlen path in
      if decide (len = 0) then strdup_with_allocator [NUL] a c
      else
        let! slash := last_slash path in
        match slash with
        | None => strdup_with_allocator path a c
        | Some k => copy_rest path (k + 1) a c
        end
  end.

Definition zenit_path_basename_with_allocator (path : option bytes) a c : outcome (option block * C) := basename_impl path a c.

Definition extension_impl (path : option bytes) a c : outcome (option block * C) :=
  match path with
  | None => Ret (None, c)
  | Some path =>
      let! len := strlen path in
      if decide (len = 0) then strdup_with_allocator [NUL] a c
      else
        let! slash := last_slash path in
        let base := match slash with Some k => k + 1 | None => 0 end in
        let! dot := last_dot (drop (Z.to_nat base) path) base None in
        match dot with
        | None => strdup_with_allocator [NUL] a c
        | Some k => if decide (k = base) then strdup_with_allocator [NUL] a c else copy_rest path k a c
        end
  end.

Definition zenit_path_extension_with_allocator (path : option bytes) a c : outcome (option block * C) := extension_impl path a c.

Definition normalize_impl (path : option bytes) a c : outcome (option block * C) :=
  match path with
  | None => Ret (None, c)
  | Some path =>
      let! len := strlen path in
      if decide (len = 0) then strdup_with_allocator [SLASH; NUL] a c
      else
        match alloc_fn a (u64 (len + 1)) c with
        | (None, c1) => Ret (None, c1)
        | (Some b, c1) =>
            let! first := aget path 0 in
            let is_absolute := is_sep first in
            let! (stack, pos) :=
              if is_absolute : bool then let! stack := pset (Some b) 0 SLASH in Ret (stack, 1) else Ret (Some b, 0) in
            let! (stack, pos) := normalize_loop (Z.to_nat len + 1) path len 0 is_absolute stack pos in
            if decide (pos = 0) then
              let c2 := free_fn a (paddr stack) c1 in
              strdup_with_allocator [if is_absolute : bool then SLASH else DOT; NUL] a c2
            else
              match alloc_fn a (u64 (pos + 1)) c1 with
              | (None, c2) => Ret (None, free_fn a (paddr stack) c2)
              | (out, c2) =>
                  let! d := prd stack 0 pos in
                  let! out := pwr out 0 d in
                  let! out := pset out pos NUL in
                  Ret (out, free_fn a (paddr stack) c2)
              end
        end
  end.

Definition zenit_path_normalize_with_allocator (path : option bytes) a c : outcome (option block * C) := normalize_impl path a c.

Definition to_native_impl (path : option bytes) a c : outcome (option block * C) :=
  match path with
  | None => Ret (None, c)
  | Some path =>
      let! len := strlen path in
      match alloc_fn a (u64 (len + 1)) c with
      | (None, c1) => Ret (None, c1)
      | (out, c1) =>
          let! out := native_loop (Z.to_nat len) path 0 out in
          let! out := pset out len NUL in
          Ret (out, c1)
      end
  end.

Definition zenit_path_to_native_with_allocator (path : option bytes) a c : outcome (option block * C) := to_native_impl path a c.
End PathModel.

(** The variants with the default allocator. *)
Definition zenit_path_join (p q : option bytes) (h : heap) : outcome (option block * heap) :=
  zenit_path_join_with_allocator p q ZENIT_ALLOCATOR_DEFAULT h.
Definition zenit_path_dirname (path : option bytes) (h : heap) : outcome (option block * heap) :=
  zenit_path_dirname_with_allocator path ZENIT_ALLOCATOR_DEFAULT h.
Definition zenit_path_basename (path : option bytes) (h : heap) : outcome (option block * heap) :=
  zenit_path_basename_with_allocator path ZENIT_ALLOCATOR_DEFAULT h.
Definition zenit_path_extension (path : option bytes) (h : heap) : outcome (option block * heap) :=
  zenit_path_extension_with_allocator path ZENIT_ALLOCATOR_DEFAULT h.
Definition zenit_path_normalize (path : option bytes) (h : heap) : outcome (option block * heap) :=
  zenit_path_normalize_with_allocator path ZENIT_ALLOCATOR_DEFAULT h.
Definition zenit_path_to_native (path : option bytes) (h : heap) : outcome (option block * heap) :=
  zenit_path_to_native_with_allocator path ZENIT_ALLOCATOR_DEFAULT h.

(** ** Reference *)

Definition normal_sep (d : bytes) : bytes := if decide (d = []) then [SLASH] else d.

(** The components between separators, without empty ones. *)
Definition flush (cur : bytes) : list bytes := if decide (cur = []) then [] else [cur].
Fixpoint components (cur s : bytes) : list bytes :=
  match s with
  | [] => flush cur
  | c :: s => if is_sep c then flush cur ++ components [] s else components (cur ++ [c]) s
  end.

(** Components one after the other, with what is left of them so far. *)
Definition resolve1 (st : list bytes) (w : bytes) : list bytes :=
  if decide (w = [DOT]) then st else if decide (w = [DOT; DOT]) then removelast st else st ++ [w].
Definition resolve (ws : list bytes) : list bytes := foldl resolve1 [] ws.

Definition is_abs (s : bytes) : bool := match s with c :: _ => is_sep c | [] => true end.
Definition show (abs : bool) (st : list bytes) : bytes := (if abs then [SLASH] else []) ++ joined [SLASH] st.

Definition normalized (s : bytes) : bytes :=
  let st := resolve (components [] s) in
  if is_abs s then show true st else if decide (st = []) then [DOT] else show false st.

(** ** Copies *)

(** What a function that returns the string [t] in a new block returns. *)
Definition gives {C : Type} (a : zenit_allocator_t C) (t : bytes) (c : C) : option block * C :=
  match alloc_fn a (zlen t + 1) c with
  | (Some b, c1) => (Some (Block (b_addr b) (t ++ [NUL])), c1)
  | (None, c1) => (None, c1)
  end.

Abbreviation chars_ok := (Forall (fun c => 0 < c < 256)).

Section Copies.
Context {C : Type} (a : zenit_allocator_t C) {SP : AllocSpec a}.
Implicit Types (c : C).

(** A whole string with its terminator, into a block of that size. *)
Lemma pwr_all x data d : zlen data = zlen d -> pwr (Some (Block x data)) 0 d = Ret (Some (Block x d)).
Proof. intros L. cbn [pwr b_data b_addr]. by rewrite wr_whole. Qed.

Lemma copy_rest_spec pre t rest c : chars_ok t -> zlen t < PTRDIFF_MAX ->
  copy_rest (pre ++ t ++ NUL :: rest) (zlen pre) a c = Ret (gives a t c).
Proof.
  intros Ht Hl. unfold copy_rest, gives. pose proof (zlen_nonneg t). replace (Z.to_nat (zlen pre)) with (length pre) by (unfold zlen; lia).
  rewrite drop_app_length, strlen_app by done. cbn [obind]. rewrite u64_small by lia.
  destruct (alloc_fn a (zlen t + 1) c) as [[[x d]|] c1] eqn:E; [|done]. apply alloc_some in E as (L & _). cbn in L.
  replace (pre ++ t ++ NUL :: rest) with (pre ++ (t ++ [NUL]) ++ rest) by (by rewrite <- app_assoc).
  rewrite (rd_app pre (t ++ [NUL]) rest) by zl. cbn [obind]. rewrite pwr_all by zl. done.
Qed.

Lemma strdup_spec t rest c : chars_ok t -> zlen t < PTRDIFF_MAX -> strdup_with_allocator (t ++ NUL :: rest) a c = Ret (gives a t c).
Proof. intros Ht Hl. pose proof (copy_rest_spec [] t rest c Ht Hl) as H. unfold copy_rest in H. rewrite drop_0 in H. exact H. Qed.

Lemma copy_part_spec pre t rest c : zlen t < PTRDIFF_MAX -> copy_part (pre ++ t ++ rest) (zlen pre) (zlen t) a c = Ret (gives a t c).
Proof.
  intros Hl. unfold copy_part, gives. pose proof (zlen_nonneg t). rewrite u64_small by lia.
  destruct (alloc_fn a (zlen t + 1) c) as [[[x d]|] c1] eqn:E; [|done]. apply alloc_some in E as (L & _). cbn in L.
  rewrite (rd_app pre t rest) by done. cbn [obind]. pose proof (store_string x d t (zlen t) L eq_refl) as St.
  destruct (pwr (Some (Block x d)) 0 t) as [p| |]; [|done|done]. cbn [obind] in *. by rewrite St.
Qed.
End Copies.

(** ** Last occurrences *)

Lemma last_slash_loop_spec s rest : chars_ok s -> forall i p,
  last_slash_loop (s ++ NUL :: rest) i p = Ret p /\ Forall (fun x => is_sep x = false) s \/
  exists pre x post, s = pre ++ x :: post /\ is_sep x = true /\ Forall (fun x => is_sep x = false) post /\
    last_slash_loop (s ++ NUL :: rest) i p = Ret (Some (i + zlen pre)).
Proof.
  induction 1 as [|x s Hx _ IH]; intros i p; cbn [last_slash_loop app]; [by left|]. rewrite decide_True by lia.
  destruct (IH (i + 1) (if is_sep x then Some i else p)) as [[E F]|(pre & y & post & -> & Hy & F & E)]; rewrite E.
  - destruct (is_sep x) eqn:Ex; [right|left; split; [done|by constructor]]. exists [], x, s. split_and!; [done|done|done|]. f_equal. f_equal. unfold zlen. cbn. lia.
  - right. exists (x :: pre), y, post. split_and!; [done|done|done|]. rewrite zlen_cons. f_equal. f_equal. lia.
Qed.

Lemma last_dot_spec s rest : chars_ok s -> forall i p,
  last_dot (s ++ NUL :: rest) i p = Ret p /\ DOT ∉ s \/
  exists pre post, s = pre ++ DOT :: post /\ DOT ∉ post /\ last_dot (s ++ NUL :: rest) i p = Ret (Some (i + zlen pre)).
Proof.
  induction 1 as [|x s Hx _ IH]; intros i p; cbn [last_dot app]; [left; split; [done|apply not_elem_of_nil]|]. rewrite decide_True by lia.
  destruct (IH (i + 1) (if decide (x = DOT) then Some i else p)) as [[E F]|(pre & post & -> & F & E)]; rewrite E.
  - case_decide as D; [right|left; split; [done|by apply not_elem_of_cons]]. subst x. exists [], s. split_and!; [done|done|]. f_equal. f_equal. unfold zlen. cbn. lia.
  - right. exists (x :: pre), post. split_and!; [done|done|]. rewrite zlen_cons. f_equal. f_equal. lia.
Qed.

(** ** Parts of a path *)

(** [b] is what follows the last separator of [s], [d] the directory. *)
Definition path_split (s d b : bytes) : Prop :=
  Forall (fun x => is_sep x = false) b /\
  (s = b /\ d = [DOT] \/ exists pre x, is_sep x = true /\ s = pre ++ x :: b /\ d = normal_sep pre).

(** [e] is the part of [b] from its last dot on, if that is not its first character. *)
Definition path_ext (b e : bytes) : Prop :=
  e = [] /\ DOT ∉ drop 1 b \/ exists f t, f <> [] /\ b = f ++ e /\ e = DOT :: t /\ DOT ∉ t.

Section Parts.
Context {C : Type} (a : zenit_allocator_t C) {SP : AllocSpec a}.
Implicit Types (c : C).

Lemma native_loop_spec s rest x : forall pre out room, (out = pre) -> zlen room = zlen s + 1 -> zlen pre + zlen s < two64 ->
  exists room', native_loop (length s) (pre ++ s ++ rest) (zlen pre) (Some (Block x (out ++ room))) =
    Ret (Some (Block x ((pre ++ s) ++ room'))) /\ zlen room' = 1.
Proof.
  induction s as [|y s IH]; intros pre out room -> Hr Hm; cbn [native_loop length].
  { exists room. rewrite app_nil_r. done. }
  rewrite zlen_cons in *. pose proof (zlen_nonneg s). pose proof (zlen_nonneg pre).
  rewrite (aget_split _ pre y (s ++ rest)) by done. cbn [obind]. destruct (room_cons room) as (z & r & -> & Lr); [lia|].
  rewrite pset_emit by done. cbn [obind]. rewrite u64_small by lia. replace (zlen pre + 1) with (zlen (pre ++ [y])) by zl.
  replace (pre ++ (y :: s) ++ rest) with ((pre ++ [y]) ++ s ++ rest) by (by rewrite <- app_assoc).
  destruct (IH (pre ++ [y]) (pre ++ [y]) r eq_refl) as (r' & -> & L'); [lia|zl|]. exists r'. by rewrite <- (app_assoc pre [y] s).
Qed.

Lemma literal_spec t c : t = [DOT] \/ t = [SLASH] \/ t = [] -> strdup_with_allocator (t ++ [NUL]) a c = Ret (gives a t c).
Proof. intros [->|[->| ->]]; (apply (strdup_spec a); [|vm_compute; reflexivity]); [by constructor|by constructor|constructor]. Qed.

Lemma to_native_spec s rest c : chars_ok s -> zlen s < PTRDIFF_MAX -> to_native_impl (Some (s ++ NUL :: rest)) a c = Ret (gives a s c).
Proof.
  intros Hs Hm. unfold to_native_impl, gives. rewrite strlen_app by done. cbn [obind]. pose proof (zlen_nonneg s). rewrite u64_small by lia.
  destruct (alloc_fn a (zlen s + 1) c) as [[[x d]|] c1] eqn:E; [|done]. apply alloc_some in E as (L & _). cbn in L.
  destruct (native_loop_spec s (NUL :: rest) x [] [] d eq_refl L) as (r & En & Lr); [unfold zlen at 1; cbn; lia|].
  change (zlen (@nil Z)) with 0 in En. cbn [app] in En. replace (Z.to_nat (zlen s)) with (length s) by (unfold zlen; lia). rewrite En. cbn [obind].
  destruct (room_cons r) as (z & r' & -> & Lr'); [lia|]. rewrite Lr in Lr'. apply zlen_0 in Lr' as ->.
  rewrite pset_emit by done. cbn [obind]. by rewrite app_nil_r.
Qed.

(** The extension of the name [b] that starts behind [pre]. *)
Lemma extension_spec pre b rest c : chars_ok b -> zlen b < PTRDIFF_MAX -> exists e, path_ext b e /\
  (let! dot := last_dot (drop (Z.to_nat (zlen pre)) (pre ++ b ++ NUL :: rest)) (zlen pre) None in
   match dot with
   | None => strdup_with_allocator [NUL] a c
   | Some k => if decide (k = zlen pre) then strdup_with_allocator [NUL] a c else copy_rest (pre ++ b ++ NUL :: rest) k a c
   end) = Ret (gives a e c).
Proof.
  intros Hb Hm. replace (Z.to_nat (zlen pre)) with (length pre) by (unfold zlen; lia). rewrite drop_app_length.
  destruct (last_dot_spec b rest Hb (zlen pre) None) as [[-> N]|(f & t & -> & N & ->)]; cbn [obind].
  { exists []. split; [left; split; [done|]|apply (literal_spec []); tauto]. intros H. apply N. destruct b; [done|]. by right. }
  case_decide as D.
  - assert (f = []) as -> by (apply zlen_0; lia). exists []. split; [by left|apply (literal_spec []); tauto].
  - exists (DOT :: t). split; [right; exists f, t; split_and!; try done; intros ->; apply D; unfold zlen; cbn; lia|].
    apply Forall_app in Hb as [Hf Ht]. rewrite zlen_app in Hm. pose proof (zlen_nonneg f).
    replace (pre ++ (f ++ DOT :: t) ++ NUL :: rest) with ((pre ++ f) ++ (DOT :: t) ++ NUL :: rest) by (by rewrite <- !app_assoc).
    rewrite <- zlen_app. apply (copy_rest_spec a); [done|lia].
Qed.

(** For any path, [zenit_path_basename] returns what follows the last separator,
    [zenit_path_dirname] what precedes it (a dot without one, a slash if nothing
    precedes it), [zenit_path_extension] the end of the base name from its last dot on
    unless the name begins with that dot, [zenit_path_to_native] the path itself; each
    in a block of exactly the size of the string, or NULL when the allocator refuses
    that block. *)
Theorem path_parts_correct buf s c : cstr buf s -> zlen buf <= PTRDIFF_MAX ->
  exists d b e, path_split s d b /\ path_ext b e /\
    zenit_path_dirname_with_allocator (Some buf) a c = Ret (gives a d c) /\
    zenit_path_basename_with_allocator (Some buf) a c = Ret (gives a b c) /\
    zenit_path_extension_with_allocator (Some buf) a c = Ret (gives a e c) /\
    zenit_path_to_native_with_allocator (Some buf) a c = Ret (gives a s c).
Proof.
  intros (rest & -> & Hs) Hm. rewrite zlen_app, zlen_cons in Hm. pose proof (zlen_nonneg rest). pose proof (zlen_nonneg s).
  unfold zenit_path_dirname_with_allocator, zenit_path_basename_with_allocator, zenit_path_extension_with_allocator,
    zenit_path_to_native_with_allocator. rewrite to_native_spec by (done || lia).
  unfold dirname_impl, basename_impl, extension_impl. rewrite strlen_app by done. cbn [obind].
  destruct (decide (zlen s = 0)) as [Ez|Ez].
  { apply zlen_0 in Ez as ->. exists [DOT], [], []. split; [split; [constructor|by left]|]. split; [left; split; [done|apply not_elem_of_nil]|].
    split; [apply (literal_spec [DOT]); tauto|]. split; [apply (literal_spec []); tauto|]. split; [apply (literal_spec []); tauto|done]. }
  unfold last_slash. destruct (last_slash_loop_spec s rest Hs 0 None) as [[-> F]|(pre & x & post & -> & Hx & F & ->)]; cbn [obind].
  - destruct (extension_spec [] s rest c Hs ltac:(lia)) as (e & He & Ee). exists [DOT], s, e. split; [split; [done|by left]|]. split; [done|].
    split; [apply (literal_spec [DOT]); tauto|]. split; [|done]. apply (strdup_spec a); [done|lia].
  - rewrite Z.add_0_l. assert (chars_ok pre /\ chars_ok post) as [Hp Hq] by (apply Forall_app in Hs as [? [_ ?]%Forall_cons]; done).
    rewrite zlen_app, zlen_cons in Hm. pose proof (zlen_nonneg pre). pose proof (zlen_nonneg post).
    replace ((pre ++ x :: post) ++ NUL :: rest) with ((pre ++ [x]) ++ post ++ NUL :: rest) by (by rewrite <- !app_assoc).
    replace (zlen pre + 1) with (zlen (pre ++ [x])) by zl.
    destruct (extension_spec (pre ++ [x]) post rest c Hq ltac:(lia)) as (e & He & Ee). exists (normal_sep pre), post, e.
    split; [split; [done|right; by exists pre, x]|]. split; [done|]. split; [|split; [|done]].
    + unfold normal_sep. destruct (decide (pre = [])) as [->|D]; [apply (literal_spec [SLASH]); tauto|].
      rewrite decide_False by (intros E%zlen_0; done). rewrite <- app_assoc. apply (copy_part_spec a [] pre); lia.
    + apply (copy_rest_spec a); [done|lia].
Qed.
End Parts.

(** ** Normalising *)

Definition is_name (w : bytes) : Prop := w <> [] /\ Forall (fun x => is_sep x = false) w.

Lemma joined_snoc d st w : joined d (st ++ [w]) = joined d st ++ (if decide (st = []) then [] else d) ++ w.
Proof.
  induction st as [|x st IH]; [done|]. destruct st as [|y st]; [done|].
  change (joined d ((x :: y :: st) ++ [w])) with (x ++ d ++ joined d ((y :: st) ++ [w])). rewrite IH.
  change (joined d (x :: y :: st)) with (x ++ d ++ joined d (y :: st)). rewrite !(decide_False (P := _ :: _ = [])) by done.
  by rewrite <- !app_assoc.
Qed.

Lemma show_snoc abs st w : show abs (st ++ [w]) = (show abs st ++ if decide (st = []) then [] else [SLASH]) ++ w.
Proof. unfold show. by rewrite joined_snoc, <- !app_assoc. Qed.

Lemma show_length abs st : Forall is_name st -> zlen (show abs []) + (if decide (st = []) then 0 else 1) <= zlen (show abs st).
Proof.
  intros F. unfold show. rewrite !zlen_app. destruct st as [|w st]; [rewrite decide_True by done; lia|]. rewrite decide_False by done.
  apply Forall_cons in F as [[Hw _] _]. rewrite joined_cons, zlen_app. pose proof (zlen_pos w Hw). pose proof (zlen_nonneg (joined_tail [SLASH] st)).
  change (zlen (joined [SLASH] [])) with 0. lia.
Qed.

Lemma components_seps seps t : Forall (fun x => is_sep x = true) seps -> components [] (seps ++ t) = components [] t.
Proof. induction 1 as [|x seps Hx _ IH]; [done|]. cbn. rewrite Hx. exact IH. Qed.

Lemma components_name w t : Forall (fun x => is_sep x = false) w -> (forall x, head t = Some x -> is_sep x = true) -> forall cur, cur ++ w <> [] ->
  components cur (w ++ t) = (cur ++ w) :: components [] t.
Proof.
  intros F Ht. induction F as [|x w Hx _ IH]; intros cur Hc; cbn [app components].
  - rewrite app_nil_r in *. unfold flush. destruct t as [|y t]; cbn [components].
    + unfold flush. by rewrite decide_False.
    + rewrite (Ht y eq_refl). unfold flush at 1. by rewrite decide_False.
  - rewrite Hx, IH by (by destruct cur). by rewrite <- app_assoc.
Qed.

(** The two scans stop at the end of the string or where the class of characters
    changes. *)
Lemma skip_slashes_spec tail rem : forall n pre, (length rem < n)%nat -> zlen (pre ++ rem) < PTRDIFF_MAX ->
  exists seps t, rem = seps ++ t /\ Forall (fun x => is_sep x = true) seps /\ (forall x, head t = Some x -> is_sep x = false) /\
    skip_slashes n (pre ++ rem ++ tail) (zlen (pre ++ rem)) (zlen pre) = Ret (zlen (pre ++ seps)).
Proof.
  induction rem as [|x rem IH]; intros n pre Hn Hm; (destruct n as [|n]; [cbn in Hn; lia|]); cbn [skip_slashes length] in *.
  { exists [], []. rewrite !app_nil_r. by rewrite decide_False by lia. }
  rewrite zlen_app, zlen_cons in Hm |- *. pose proof (zlen_nonneg rem). pose proof (zlen_nonneg pre). rewrite decide_True by lia.
  rewrite (aget_split _ pre x (rem ++ tail)) by done. cbn [obind]. destruct (is_sep x) eqn:Ex.
  - rewrite u64_small by lia. destruct (IH n (pre ++ [x])) as (seps & t & -> & F & Ht & E); [lia|zl|].
    exists (x :: seps), t. split_and!; [done|by constructor|done|]. rewrite <- !app_assoc in E. cbn [app] in E.
    replace (zlen pre + 1) with (zlen (pre ++ [x])) by zl. rewrite <- E. f_equal; [|zl]. cbn [app]. by rewrite <- app_assoc.
  - exists [], (x :: rem). rewrite app_nil_r. split_and!; [done|constructor|by intros ? [= <-]|done].
Qed.

Lemma component_end_spec tail rem : forall n pre, (length rem < n)%nat -> zlen (pre ++ rem) < PTRDIFF_MAX ->
  exists w t, rem = w ++ t /\ Forall (fun x => is_sep x = false) w /\ (forall x, head t = Some x -> is_sep x = true) /\
    component_end n (pre ++ rem ++ tail) (zlen (pre ++ rem)) (zlen pre) = Ret (zlen (pre ++ w)).
Proof.
  induction rem as [|x rem IH]; intros n pre Hn Hm; (destruct n as [|n]; [cbn in Hn; lia|]); cbn [component_end length] in *.
  { exists [], []. rewrite !app_nil_r. by rewrite decide_False by lia. }
  rewrite zlen_app, zlen_cons in Hm |- *. pose proof (zlen_nonneg rem). pose proof (zlen_nonneg pre). rewrite decide_True by lia.
  rewrite (aget_split _ pre x (rem ++ tail)) by done. cbn [obind]. destruct (is_sep x) eqn:Ex.
  - exists [], (x :: rem). rewrite app_nil_r. split_and!; [done|constructor|by intros ? [= <-]|done].
  - rewrite u64_small by lia. destruct (IH n (pre ++ [x])) as (w & t & -> & F & Ht & E); [lia|zl|].
    exists (x :: w), t. split_and!; [done|by constructor|done|]. rewrite <- !app_assoc in E. cbn [app] in E.
    replace (zlen pre + 1) with (zlen (pre ++ [x])) by zl. rewrite <- E. f_equal; [|zl]. cbn [app]. by rewrite <- app_assoc.
Qed.

(** Back over the last name, down to [p]. *)
Lemma pop_loop_spec x p w min_pos : Forall (fun x => is_sep x = false) w -> zlen (p ++ w) < PTRDIFF_MAX -> 0 <= min_pos <= zlen p ->
  (zlen p = min_pos \/ exists q, p = q ++ [SLASH] /\ min_pos <= zlen q) ->
  forall tail n, (length w < n)%nat -> pop_loop n (Some (Block x (p ++ w ++ tail))) (zlen (p ++ w)) min_pos = Ret (zlen p).
Proof.
  intros F Hm Hmin Hp. induction w as [|y w IH] using rev_ind; intros tail n Hn; (destruct n as [|n]; [cbn in Hn; lia|]); cbn [pop_loop].
  - rewrite app_nil_r. destruct Hp as [->|(q & -> & Hq)]; [by rewrite decide_False by lia|].
    rewrite !zlen_app in *. change (zlen [SLASH]) with 1 in *. change (zlen (@nil Z)) with 0 in *. pose proof (zlen_nonneg q). rewrite decide_True by lia.
    rewrite u64_small by lia. cbn [pget b_data app]. rewrite (aget_split _ q SLASH tail) by (by rewrite <- app_assoc || lia). done.
  - apply Forall_app in F as [F Fy]. apply Forall_cons in Fy as [Hy _]. rewrite length_app in Hn. cbn in Hn.
    rewrite !zlen_app in *. change (zlen [y]) with 1 in *. pose proof (zlen_nonneg p). pose proof (zlen_nonneg w).
    rewrite decide_True by lia. rewrite u64_small by lia. replace (zlen p + (zlen w + 1) - 1) with (zlen (p ++ w)) by zl.
    cbn [pget b_data]. rewrite (aget_split _ (p ++ w) y tail) by (by rewrite <- !app_assoc || done). cbn [obind]. rewrite Hy.
    rewrite <- app_assoc, zlen_app. apply IH; [done|lia|lia].
Qed.

Lemma show_nil_min abs : zlen (show abs []) = if abs : bool then 1 else 0.
Proof. by destruct abs. Qed.

Lemma pop_component_spec x abs st w tail n : Forall is_name st -> is_name w -> zlen (show abs (st ++ [w])) < PTRDIFF_MAX ->
  (length w < n)%nat ->
  pop_component n (Some (Block x (show abs (st ++ [w]) ++ tail))) (zlen (show abs (st ++ [w]))) (if abs then 1 else 0) =
    Ret (zlen (show abs st)).
Proof.
  intros Fs [Hw Fw] Hm Hn. rewrite <- show_nil_min. pose proof (show_length abs st Fs) as L. rewrite show_snoc in *.
  set (p := show abs st ++ _) in *. pose proof (zlen_pos w Hw). pose proof (zlen_nonneg (show abs [])).
  assert (zlen p = zlen (show abs st) + if decide (st = []) then 0 else 1) as Lp by (unfold p; rewrite zlen_app; by case_decide).
  destruct (exists_last (l := w)) as (w' & y & ->); [done|]. unfold pop_component. rewrite (app_assoc p) in *. rewrite zlen_app in *.
  change (zlen [y]) with 1 in *. rewrite zlen_app in *. pose proof (zlen_nonneg w').
  assert (zlen (show abs []) <= zlen p) by (case_decide; lia).
  rewrite decide_False by (change (zlen [y]) with 1 in *; lia). rewrite u64_small by lia.
  replace (zlen p + zlen w' + 1 - 1) with (zlen (p ++ w')) by zl.
  apply Forall_app in Fw as [Fw _]. rewrite length_app in Hn. cbn in Hn. rewrite <- !app_assoc.
  rewrite (pop_loop_spec x p w' (zlen (show abs []))); [|done|zl|lia| |lia].
  - cbn [obind]. f_equal. destruct (decide (st = [])) as [->|D].
    + rewrite decide_False by lia. lia.
    + rewrite decide_True by lia. rewrite u64_small by lia. lia.
  - unfold p. case_decide as D; [left|right].
    + rewrite D, app_nil_r. done.
    + exists (show abs st). split; [done|lia].
Qed.

Lemma place_component_spec x pre w rest abs st room fuel : Forall is_name st -> is_name w -> zlen (pre ++ w) < PTRDIFF_MAX ->
  zlen (show abs st) + (if decide (st = []) then 0 else 1) + zlen w <= zlen (show abs st ++ room) < PTRDIFF_MAX ->
  (forall u, u ∈ st -> (length u < fuel)%nat) ->
  exists room', place_component fuel (pre ++ w ++ rest) (zlen pre) (zlen w) abs (Some (Block x (show abs st ++ room))) (zlen (show abs st)) =
      Ret (Some (Block x (show abs (resolve1 st w) ++ room')), zlen (show abs (resolve1 st w))) /\
    zlen (show abs (resolve1 st w) ++ room') = zlen (show abs st ++ room).
Proof.
  intros Fs Hw Hm Hr Hf. unfold place_component, resolve1. destruct Hw as [Hw Fw]. pose proof (zlen_pos w Hw). pose proof (zlen_nonneg pre).
  rewrite zlen_app in Hm.
  assert (exists y t, w = y :: t) as (y & t & ->) by (destruct w as [|y t]; [done|by exists y, t]).
  assert (aget (pre ++ (y :: t) ++ rest) (zlen pre) = Ret y) as Ey by (by apply (aget_split _ pre y (t ++ rest))).
  set (m0 := if decide (zlen (y :: t) = 1 \/ zlen (y :: t) = 2) then _ else _).
  assert (exists c0, m0 = Ret c0 /\ (zlen (y :: t) = 1 \/ zlen (y :: t) = 2 -> c0 = y)) as (c0 & -> & Hc0).
  { unfold m0. destruct (decide (zlen (y :: t) = 1 \/ zlen (y :: t) = 2)); [exists y; split; [exact Ey|done]|exists NUL; split; [done|tauto]]. }
  cbn [obind]. rewrite zlen_cons in *. pose proof (zlen_nonneg t).
  destruct (decide (y :: t = [DOT])) as [E1|N1].
  { injection E1 as -> ->. rewrite decide_True by (split; [done|apply Hc0; by left]). exists room. done. }
  rewrite decide_False.
  2: { intros [L Ec]. assert (t = []) as -> by (apply zlen_0; lia). rewrite (Hc0 ltac:(by left)) in Ec. by subst y. }
  set (m1 := if decide (1 + zlen t = 2 /\ c0 = DOT) then _ else _).
  assert (exists c1, m1 = Ret c1 /\ (1 + zlen t = 2 -> y = DOT -> t = [c1])) as (c1 & -> & Hc1).
  { unfold m1. destruct (decide (zlen t = 1)) as [L1|L1].
    - destruct (room_cons t) as (z & t' & -> & Lt); [lia|]. assert (t' = []) as -> by (apply zlen_0; lia). rewrite (Hc0 ltac:(right; lia)).
      destruct (decide (1 + zlen [z] = 2 /\ y = DOT)) as [D|D]; [exists z; split; [|done]|exists NUL; split; [done|tauto]].
      apply (aget_split _ (pre ++ [y]) z rest); [by rewrite <- app_assoc|zl].
    - rewrite decide_False by lia. exists NUL. split; [done|lia]. }
  cbn [obind]. destruct (decide (y :: t = [DOT; DOT])) as [E2|N2].
  { injection E2 as -> ->. specialize (Hc1 eq_refl eq_refl). injection Hc1 as <-.
    rewrite decide_True by (split_and!; [done|apply Hc0; by right|done]).
    destruct (decide (st = [])) as [->|Ds].
    - unfold pop_component. rewrite show_nil_min. rewrite decide_True by lia. cbn [obind]. exists room. split; [|done]. by rewrite <- show_nil_min.
    - destruct (exists_last Ds) as (st' & u & ->). apply Forall_app in Fs as [Fs Fu]. apply Forall_cons in Fu as [Fu _].
      rewrite zlen_app in Hr. pose proof (zlen_nonneg room).
      rewrite (pop_component_spec x abs st' u room fuel Fs Fu); [|lia|apply Hf; set_solver].
      cbn [obind]. rewrite removelast_last. rewrite show_snoc, <- !app_assoc. eexists. split; [done|done]. }
  rewrite decide_False.
  2: { intros (L & Ec & Ec1). rewrite (Hc0 ltac:(right; lia)) in Ec. specialize (Hc1 L Ec). congruence. }
  replace (1 + zlen t) with (zlen (y :: t)) in * by zl. set (w := y :: t) in *. pose proof (show_length abs st Fs) as L. rewrite show_nil_min in L.
  rewrite (zlen_app (show abs st) room) in Hr |- *. pose proof (zlen_nonneg (show abs st)).
  set (m2 := if decide (0 < zlen (show abs st) /\ _) then _ else _).
  assert (exists r2, let p := show abs st ++ (if decide (st = []) then [] else [SLASH]) in
    m2 = Ret (Some (Block x (p ++ r2)), zlen p) /\ zlen (p ++ r2) = zlen (show abs st) + zlen room) as (r2 & -> & L2).
  { unfold m2. destruct (decide (st = [])) as [->|D].
    - rewrite decide_False by (rewrite show_nil_min; destruct abs; naive_solver lia). exists room. rewrite app_nil_r. split; [done|zl].
    - rewrite decide_True by (split; [destruct abs; lia|intros [-> ?]; lia]).
      destruct (room_cons room) as (z & r & -> & Lr); [lia|]. rewrite pset_emit by done. cbn [obind]. rewrite u64_small by lia.
      exists r. split; [f_equal; f_equal; zl|zl]. }
  cbn [obind]. rewrite (rd_app pre w rest) by done. cbn [obind]. rewrite zlen_app in L2. rewrite show_snoc. set (p := show abs st ++ _) in *.
  assert (zlen p = zlen (show abs st) + if decide (st = []) then 0 else 1) as Lp by (unfold p; rewrite zlen_app; by case_decide).
  destruct (pwr_emit x p r2 w (zlen p) eq_refl) as (r3 & -> & L3); [lia|]. cbn [obind]. rewrite u64_small.
  - exists r3. split; [f_equal; f_equal; zl|zl].
  - pose proof (zlen_nonneg p). pose proof (zlen_nonneg r2). lia.
Qed.

Lemma resolve1_names st w : Forall is_name st -> is_name w -> Forall is_name (resolve1 st w).
Proof.
  intros Fs Hw. unfold resolve1. repeat case_decide; [done| |apply Forall_app; by repeat constructor; try apply Hw].
  destruct (decide (st = [])) as [->|D]; [done|]. destruct (exists_last D) as (st' & u & ->). rewrite removelast_last. by apply Forall_app in Fs as [? _].
Qed.

Lemma resolve1_length abs st w : zlen (show abs (resolve1 st w)) <= zlen (show abs st) + (if decide (st = []) then 0 else 1) + zlen w.
Proof.
  pose proof (zlen_nonneg w). unfold resolve1. destruct (decide (w = [DOT])); [destruct (decide (st = [])); lia|].
  destruct (decide (w = [DOT; DOT])).
  - destruct (decide (st = [])) as [->|D]; [cbn [removelast]; lia|]. destruct (exists_last D) as (st' & u & ->). rewrite removelast_last.
    rewrite show_snoc, !zlen_app. pose proof (zlen_nonneg u). destruct (decide (st' = [])); change (zlen [SLASH]) with 1; change (zlen (@nil Z)) with 0; lia.
  - rewrite show_snoc, !zlen_app. destruct (decide (st = [])); change (zlen [SLASH]) with 1; change (zlen (@nil Z)) with 0; lia.
Qed.

Lemma elem_show abs st u : u ∈ st -> zlen u <= zlen (show abs st).
Proof.
  induction st as [|w st IH] using rev_ind; [intros []%not_elem_of_nil|]. rewrite show_snoc, !zlen_app.
  pose proof (zlen_nonneg w). pose proof (zlen_nonneg (show abs st)). pose proof (zlen_nonneg (if decide (st = []) then [] else [SLASH])).
  intros [Hu|Hu]%elem_of_app; [specialize (IH Hu); lia|]. apply list_elem_of_singleton in Hu as ->. lia.
Qed.

(** The loop: [pre] is read, [rem] still to come. *)
Lemma normalize_loop_spec x rest abs n : forall pre rem st room, (length rem < n)%nat -> Forall is_name st ->
  zlen (pre ++ rem) < PTRDIFF_MAX - 1 -> zlen (show abs st ++ room) = zlen (pre ++ rem) + 1 ->
  (pre = [] /\ st = [] /\ (abs = true -> exists y r, rem = y :: r /\ is_sep y = true) \/
   zlen (show abs st) <= zlen pre /\ (forall y, head rem = Some y -> is_sep y = true)) ->
  let st' := foldl resolve1 st (components [] rem) in
  exists room', normalize_loop n (pre ++ rem ++ NUL :: rest) (zlen (pre ++ rem)) (zlen pre) abs (Some (Block x (show abs st ++ room))) (zlen (show abs st)) =
      Ret (Some (Block x (show abs st' ++ room')), zlen (show abs st')) /\
    zlen (show abs st') <= zlen (pre ++ rem) + 1 /\ Forall is_name st'.
Proof.
  induction n as [|n IH]; intros pre rem st room Hn Fs Hm Hr Hp; [lia|]. cbn [normalize_loop]. cbv zeta.
  pose proof (zlen_nonneg (show abs st)). pose proof (zlen_nonneg room).
  assert (zlen (show abs st) <= zlen (pre ++ rem) + 1) as Hb by (rewrite (zlen_app (show abs st)) in Hr; lia).
  destruct (decide (rem = [])) as [->|Dr].
  { rewrite app_nil_r in *. rewrite decide_False by lia. exists room. done. }
  rewrite decide_True by (rewrite zlen_app; pose proof (zlen_pos rem Dr); lia).
  destruct (skip_slashes_spec (NUL :: rest) rem (S n) pre) as (seps & t & -> & Fq & Ht & ->); [done|lia|]. cbn [obind].
  rewrite components_seps by done. destruct (decide (t = [])) as [->|Dt].
  { rewrite !app_nil_r. rewrite decide_True by lia. exists room. rewrite app_nil_r in Hb. done. }
  assert (exists y t0, t = y :: t0) as (y & t0 & Et) by (destruct t as [|y t0]; [done|by exists y, t0]).
  assert (is_sep y = false) as Hy by (apply Ht; by rewrite Et).
  pose proof (zlen_pos t Dt). pose proof (zlen_nonneg pre). pose proof (zlen_nonneg seps).
  replace (pre ++ (seps ++ t) ++ NUL :: rest) with ((pre ++ seps) ++ t ++ NUL :: rest) by (by rewrite <- !app_assoc).
  replace (pre ++ seps ++ t) with ((pre ++ seps) ++ t) in * by (by rewrite app_assoc).
  rewrite decide_False by (rewrite zlen_app; lia). unfold next_component. rewrite decide_False by (rewrite zlen_app; lia).
  rewrite length_app in Hn.
  destruct (component_end_spec (NUL :: rest) t (S n) (pre ++ seps)) as (w & t' & Ew & Fw & Ht' & ->); [lia|lia|]. cbn [obind].
  assert (w <> []) as Dw.
  { intros ->. cbn in Ew. subst t'. rewrite Et in Ht'. specialize (Ht' y eq_refl). congruence. }
  clear y t0 Et Hy. subst t. assert (is_name w) as Hw by done. pose proof (zlen_pos w Dw). pose proof (zlen_nonneg t').
  replace (zlen ((pre ++ seps) ++ w) - zlen (pre ++ seps)) with (zlen w) by zl. rewrite !zlen_app in Hm, Hb. repeat rewrite zlen_app in Hr.
  rewrite (u64_small (zlen w)) by lia.
  assert (zlen (show abs st) + (if decide (st = []) then 0 else 1) <= zlen pre + zlen seps) as Hfit.
  { destruct Hp as [(-> & -> & Ha)|[Hl Hh]].
    - rewrite decide_True by done. rewrite show_nil_min. destruct abs; [|lia]. destruct (Ha eq_refl) as (y & r & E & Hy).
      destruct seps as [|z seps]; [|rewrite zlen_cons; pose proof (zlen_nonneg seps); lia]. cbn in E. specialize (Ht y). rewrite E in Ht.
      specialize (Ht eq_refl). congruence.
    - destruct seps as [|z seps]; [|rewrite zlen_cons; pose proof (zlen_nonneg seps); destruct (decide (st = [])); lia].
      cbn in Hh. destruct w as [|z w]; [done|]. specialize (Hh z eq_refl). specialize (Ht z eq_refl). congruence. }
  rewrite <- (app_assoc w t').
  destruct (place_component_spec x (pre ++ seps) w (t' ++ NUL :: rest) abs st room (Z.to_nat (zlen ((pre ++ seps) ++ w ++ t')) + 2)) as (room2 & -> & L2);
    [done|done|zl|rewrite !zlen_app; lia| |].
  { intros u Hu. pose proof (elem_show abs st u Hu). rewrite !zlen_app. unfold zlen in *. lia. }
  cbn [obind]. rewrite (components_name w t' Fw Ht' []) by done. cbn [app foldl]. pose proof (resolve1_length abs st w) as RL.
  rewrite zlen_app in L2. rewrite zlen_app in L2.
  destruct (IH ((pre ++ seps) ++ w) t' (resolve1 st w) room2) as (room' & E & Lb & Fr); [rewrite length_app in Hn; destruct w; [done|]; cbn in Hn; lia|by apply resolve1_names| | | |].
  - rewrite !zlen_app. lia.
  - rewrite !zlen_app. lia.
  - right. split; [rewrite !zlen_app; lia|done].
  - exists room'. rewrite <- app_assoc in E, Lb. rewrite <- (app_assoc (pre ++ seps) w) in E. split_and!; done.
Qed.

(** ** Normal forms *)

Lemma components_names s : forall cur, Forall (fun x => is_sep x = false) cur -> Forall is_name (components cur s).
Proof.
  assert (forall cur, Forall (fun x => is_sep x = false) cur -> Forall is_name (flush cur)) as Fl.
  { intros cur F. unfold flush. case_decide; repeat constructor; done. }
  induction s as [|x s IH]; intros cur F; cbn [components]; [by apply Fl|]. destruct (is_sep x) eqn:Ex.
  - apply Forall_app. split; [by apply Fl|]. apply IH. constructor.
  - apply IH, Forall_app. by repeat constructor.
Qed.

(** Names that stand for themselves. *)
Definition is_plain (w : bytes) : Prop := is_name w /\ w <> [DOT] /\ w <> [DOT; DOT].

Lemma resolve_plain ws : forall st, Forall is_plain st -> Forall is_name ws -> Forall is_plain (foldl resolve1 st ws).
Proof.
  induction ws as [|w ws IH]; intros st Fs Fw; [done|]. apply Forall_cons in Fw as [Hw Fw]. apply IH; [|done]. unfold resolve1.
  destruct (decide (w = [DOT])); [done|]. destruct (decide (w = [DOT; DOT])).
  - destruct (decide (st = [])) as [->|D]; [done|]. destruct (exists_last D) as (st' & u & ->). rewrite removelast_last.
    by apply Forall_app in Fs as [? _].
  - apply Forall_app. split; [done|]. by repeat constructor; try apply Hw.
Qed.

Lemma resolve_id ws : Forall is_plain ws -> forall st, foldl resolve1 st ws = st ++ ws.
Proof.
  induction 1 as [|w ws (_ & H1 & H2) _ IH]; intros st; [by rewrite app_nil_r|]. cbn [foldl]. rewrite IH. unfold resolve1.
  rewrite !decide_False by done. by rewrite <- app_assoc.
Qed.

Lemma components_joined ws : Forall is_name ws -> components [] (joined [SLASH] ws) = ws.
Proof.
  induction 1 as [|w ws [Hw Fw] F IH]; [done|]. destruct ws as [|v ws].
  - cbn [joined]. rewrite <- (app_nil_r w) at 1. rewrite (components_name w [] Fw) by done. done.
  - change (joined [SLASH] (w :: v :: ws)) with (w ++ SLASH :: joined [SLASH] (v :: ws)).
    rewrite (components_name w _ Fw) by (done || by intros ? [= <-]). cbn [app]. f_equal. exact IH.
Qed.

Lemma normalized_idempotent s : normalized (normalized s) = normalized s.
Proof.
  unfold normalized at 2 3. set (st := resolve (components [] s)).
  assert (Forall is_plain st) as Fp by (apply resolve_plain; [constructor|apply components_names; constructor]).
  assert (Forall is_name st) as Fn by (eapply Forall_impl; [exact Fp|by intros ? [? _]]).
  assert (forall abs, resolve (components [] (show abs st)) = st) as E.
  { intros abs. unfold show. assert (components [] ((if abs : bool then [SLASH] else []) ++ joined [SLASH] st) = components [] (joined [SLASH] st)) as ->.
    { destruct abs; [|done]. by apply (components_seps [SLASH]); repeat constructor. }
    rewrite components_joined by done. unfold resolve. by rewrite resolve_id. }
  destruct (is_abs s); [|case_decide as D]; [unfold normalized; cbv zeta; by rewrite E|done|].
  unfold normalized. cbv zeta. rewrite E. assert (is_abs (show false st) = false) as ->; [|by rewrite decide_False].
  destruct st as [|w st']; [done|]. unfold show. rewrite joined_cons. apply Forall_cons in Fn as [[Hw Fw] _]. destruct w as [|y w]; [done|].
  cbn. by apply Forall_cons in Fw as [? _].
Qed.

Section Normalize.
Context {C : Type} (a : zenit_allocator_t C) {SP : AllocSpec a}.
Implicit Types (c : C).

(** Exactly one new block, with [t] and its terminator, or nothing. *)
Definition new_string (t : bytes) c (r : option block) (c' : C) : Prop :=
  match r with
  | None => live c' = live c
  | Some b => b_data b = t ++ [NUL] /\ b_addr b ∉ live c /\ live c' = {[ b_addr b ]} ∪ live c
  end.

Lemma gives_new t c : exists r c', gives a t c = (r, c') /\ new_string t c r c'.
Proof.
  unfold gives. destruct (alloc_fn a (zlen t + 1) c) as [[b|] c1] eqn:E; eexists _, _; (split; [done|]).
  - apply alloc_some in E as (_ & _ & N & L). by split_and!.
  - by eapply alloc_none.
Qed.

(** One block taken, another one taken, the first freed. *)
Lemma live_swap x z c c1 c2 : x ∉ live c -> live c1 = {[ x ]} ∪ live c -> z ∉ live c1 -> live c2 = {[ z ]} ∪ live c1 ->
  z ∉ live c /\ live (free_fn a (Some x) c2) = {[ z ]} ∪ live c.
Proof. intros Hx E1 Hz E2. rewrite E1 in Hz, E2. split; [set_solver|]. rewrite free_some, E2 by (rewrite E2; set_solver). set_solver. Qed.

End Normalize.

(** ** Joining *)

Definition chop_end (p : bytes) : bytes :=
  match last p with Some x => if decide (x = SLASH) then take (length p - 1) p else p | None => p end.
Definition chop_start (q : bytes) : bytes := match q with x :: t => if decide (x = SLASH) then t else q | [] => [] end.
Definition path_joined (p q : bytes) : bytes :=
  chop_end p ++ (if decide (chop_end p = [] \/ chop_start q = []) then [] else [SLASH]) ++ chop_start q.

Section Join.
Context {C : Type} (a : zenit_allocator_t C) {SP : AllocSpec a}.
Implicit Types (c : C).

(** [zenit_path_join] puts exactly one slash between two paths that are not empty: one
    at the end of the first and one at the beginning of the second are dropped. *)
Theorem path_join_correct bufp bufq p q c : cstr bufp p -> cstr bufq q -> zlen p + zlen q < PTRDIFF_MAX - 1 ->
  zenit_path_join_with_allocator (Some bufp) (Some bufq) a c = Ret (gives a (path_joined p q) c).
Proof.
  intros (r1 & -> & Hp) (r2 & -> & Hq) Hm. unfold zenit_path_join_with_allocator, join_impl. rewrite !strlen_app by done. cbn [obind].
  pose proof (zlen_nonneg p). pose proof (zlen_nonneg q).
  set (m1 := if decide (0 < zlen p) then _ else _).
  assert (exists x p2, m1 = Ret x /\ p = chop_end p ++ p2 /\
    (if decide (0 < zlen p /\ x = SLASH) then u64 (zlen p - 1) else zlen p) = zlen (chop_end p)) as (x & p2 & -> & Ep & Ea).
  { unfold m1. destruct (decide (p = [])) as [->|D]; [exists NUL, []; split_and!; [done|done|done]|].
    destruct (exists_last D) as (p' & z & ->). rewrite zlen_app in *. change (zlen [z]) with 1 in *. pose proof (zlen_nonneg p').
    rewrite decide_True by lia. rewrite u64_small by lia. exists z. unfold chop_end. rewrite last_snoc.
    rewrite (aget_split _ p' z (NUL :: r1)) by (by rewrite <- app_assoc || lia). destruct (decide (z = SLASH)) as [->|N].
    - rewrite length_app. cbn [length]. replace (length p' + 1 - 1)%nat with (length p') by lia. rewrite take_app_length.
      exists [SLASH]. rewrite decide_True by (split; [lia|done]). split_and!; [done|done|lia].
    - exists []. rewrite decide_False by tauto. split_and!; [done|by rewrite app_nil_r|zl]. }
  cbn [obind]. rewrite Ea.
  set (m2 := if decide (0 < zlen q) then _ else _).
  assert (exists y q1, m2 = Ret y /\ q = q1 ++ chop_start q /\ (if decide (0 < zlen q /\ y = SLASH) then 1 else 0) = zlen q1 /\
    (if decide (0 < zlen q /\ y = SLASH) then u64 (zlen q - 1) else zlen q) = zlen (chop_start q)) as (y & q1 & -> & Eq & Eo & Eb).
  { unfold m2. destruct q as [|y q]; [exists NUL, []; split_and!; done|]. exists y. rewrite zlen_cons in *. pose proof (zlen_nonneg q).
    rewrite decide_True by lia. cbn [chop_start]. destruct (decide (y = SLASH)) as [->|N].
    - exists [SLASH]. rewrite !decide_True by (split; [lia|done]). rewrite u64_small by lia. split_and!; [done|done|done|lia].
    - exists []. rewrite !decide_False by tauto. split_and!; [done|done|done|zl]. }
  cbn [obind]. rewrite Eo, Eb. set (p' := chop_end p) in *. set (q' := chop_start q) in *.
  assert (zlen p' <= zlen p) by (rewrite Ep, zlen_app; pose proof (zlen_nonneg p2); lia).
  assert (zlen q' <= zlen q) by (rewrite Eq, zlen_app; pose proof (zlen_nonneg q1); lia).
  pose proof (zlen_nonneg p'). pose proof (zlen_nonneg q').
  assert (forall l : bytes, l = [] <-> zlen l = 0) as Z0 by (intros l; split; [by intros ->|apply zlen_0]).
  unfold path_joined. fold p' q'. set (sep := if decide (p' = [] \/ q' = []) then [] else [SLASH]).
  assert (bool_decide (0 < zlen p' /\ 0 < zlen q') = bool_decide (sep = [SLASH]) /\ (sep = [] \/ sep = [SLASH])) as [-> Hsep].
  { unfold sep. destruct (decide (p' = [] \/ q' = [])) as [D|D]; rewrite !Z0 in D.
    - rewrite !bool_decide_false by (done || lia). split; [done|by left].
    - rewrite !bool_decide_true by (done || lia). split; [done|by right]. }
  assert (zlen sep = Z.b2z (bool_decide (sep = [SLASH]))) as Ls by (destruct Hsep as [-> | ->]; done).
  assert (0 <= Z.b2z (bool_decide (sep = [SLASH])) <= 1) by (destruct (bool_decide (sep = [SLASH])); cbn; lia).
  rewrite (u64_small (zlen p' + zlen q')), (u64_small (zlen p' + zlen q' + _)), u64_small by lia.
  unfold gives. replace (zlen p' + zlen q' + Z.b2z (bool_decide (sep = [SLASH])) + 1) with (zlen (p' ++ sep ++ q') + 1) by (rewrite !zlen_app; lia).
  destruct (alloc_fn a (zlen (p' ++ sep ++ q') + 1) c) as [[[z d]|] c1] eqn:E; [|done]. apply alloc_some in E as (L & _). cbn in L.
  rewrite Ep, <- app_assoc. pose proof (rd_app [] p' (p2 ++ NUL :: r1) 0 (zlen p') eq_refl eq_refl) as Er. cbn [app] in Er. rewrite Er. cbn [obind].
  rewrite !zlen_app in L. destruct (pwr_emit z [] d p' 0 eq_refl) as (d1 & Ew & L1); [lia|]. cbn [app] in Ew. rewrite Ew. cbn [obind].
  set (m3 := if bool_decide (sep = [SLASH]) then _ else _).
  assert (exists d2, m3 = Ret (Some (Block z ((p' ++ sep) ++ d2)), zlen (p' ++ sep)) /\ zlen d2 = zlen q' + 1) as (d2 & -> & L2).
  { unfold m3. destruct Hsep as [Es | Es]; rewrite Es in *.
    - rewrite bool_decide_false by done. exists d1. rewrite app_nil_r. change (zlen []) with 0 in L. split; [done|lia].
    - rewrite bool_decide_true by done. change (zlen [SLASH]) with 1 in L. destruct (room_cons d1) as (y1 & d2 & -> & L2); [lia|].
      rewrite pset_emit by done. cbn [obind]. rewrite u64_small by lia. exists d2. split; [f_equal; f_equal; zl|lia]. }
  cbn [obind]. rewrite Eq, <- app_assoc. rewrite (rd_app q1 q' (NUL :: r2)) by done. cbn [obind].
  destruct (pwr_emit z (p' ++ sep) d2 q' (zlen (p' ++ sep)) eq_refl) as (d3 & -> & L3); [lia|]. cbn [obind].
  rewrite zlen_app, u64_small by lia. destruct (room_cons d3) as (y1 & d4 & -> & L4); [lia|]. assert (d4 = []) as -> by (apply zlen_0; lia).
  rewrite pset_emit by zl. cbn [obind]. rewrite app_nil_r. by rewrite <- !app_assoc.
Qed.
End Join.

(** ** Examples *)

Definition path_of (s : string) : bytes := lit s ++ [NUL].

Lemma path_parts_correct_witness :
  exists d b e, path_split (lit "/usr/lib/libz.so.1") d b /\ path_ext b e /\
    zenit_path_dirname (Some (path_of "/usr/lib/libz.so.1")) empty_heap = Ret (gives ZENIT_ALLOCATOR_DEFAULT d empty_heap) /\
    zenit_path_basename (Some (path_of "/usr/lib/libz.so.1")) empty_heap = Ret (gives ZENIT_ALLOCATOR_DEFAULT b empty_heap) /\
    zenit_path_extension (Some (path_of "/usr/lib/libz.so.1")) empty_heap = Ret (gives ZENIT_ALLOCATOR_DEFAULT e empty_heap) /\
    zenit_path_to_native (Some (path_of "/usr/lib/libz.so.1")) empty_heap = Ret (gives ZENIT_ALLOCATOR_DEFAULT (lit "/usr/lib/libz.so.1") empty_heap).
Proof.
  refine (path_parts_correct ZENIT_ALLOCATOR_DEFAULT (path_of "/usr/lib/libz.so.1") (lit "/usr/lib/libz.so.1") empty_heap _ _).
  - apply lit_cstr. vm_compute. reflexivity.
  - vm_compute. discriminate.
Defined.


(** Where the code and its documentation differ: leading [..] components are dropped, a
    relative path that resolves to nothing becomes a dot, the directory of a path comes
    without its slash and the base name of the root is empty. *)
Theorem path_departures :
  normalized (lit "../a") = lit "a" /\ normalized (lit "a/..") = lit "." /\
  zenit_path_dirname (Some (path_of "a/b")) empty_heap = Ret (gives ZENIT_ALLOCATOR_DEFAULT (lit "a") empty_heap) /\
  zenit_path_basename (Some (path_of "/")) empty_heap = Ret (gives ZENIT_ALLOCATOR_DEFAULT [] empty_heap).
Proof. vm_compute. split_and!; reflexivity. Qed.
