(* ===== verification/ThreadPool.v ===== *)
(** * Thread pool ([src/thread_pool.c], the POSIX variant)

    The pool, its workers and the threads that call it, as a list of threads with
    program counters over a shared state.  A turn of a thread is what it does between
    two operations on the mutex or a condition variable; [exec] makes one turn, chosen
    by an [action], so that a sequence of actions is an interleaving.  Waiting on a
    condition releases the mutex and puts the thread to sleep in one turn; a signal
    wakes one of the sleepers, which one the action says, and [Spurious] wakes one
    without a signal.  What is lasting of a call is recorded: the tasks put into the
    queue, taken from it and finished, in order.

    A task is the function and the argument, as numbers; 0 is the null function. *)

From Stdlib Require Import ZArith Lia.
From stdpp Require Import base tactics option list numbers sets.
From S2P Require Import Prelude Mem Result Allocator.
Open Scope Z_scope.

Definition POOL_QUEUE_CAPACITY : Z := 4096.
Definition SIZEOF_PTHREAD : Z := 8.

Record task_t : Type := mk_task { t_fn : Z; t_ctx : Z }.

(** [tp_threads] are the threads written to the block of that name, [tp_size] the bytes
    it has. *)
Record zenit_thread_pool_t : Type := mk_pool {
  tp_thread_count : Z;
  tp_running : bool;
  tp_queue : list task_t;
  tp_head : Z;
  tp_tail : Z;
  tp_active : Z;
  tp_threads : list nat;
  tp_size : Z }.

(** Where a thread is: in [worker_thread], in one of the calls, or outside with the
    result of its last call, if that returns one. *)
Inductive pc : Type :=
| WLock | WTest | WWait | WSleep | WSignal (t : task_t) | WCall (t : task_t) | WRelock | WDone | WExit
| CIdle (r : option zenit_error_t)
| ELock (t : task_t) | ETest (t : task_t) | EWait (t : task_t) | ESleep (t : task_t) | ESignal
| TLock | TTest | TYield
| DLock | DStop | DBroadcast | DJoin (k : nat)
| Spawn (k : nat) | FStop (k : nat) | FBroadcast (k : nat) | FJoin (j k : nat).

Record world : Type := mk_world {
  w_pool : zenit_thread_pool_t;
  w_mutex : option nat;
  w_freed : bool;
  w_pcs : list pc;
  w_put : list task_t;
  w_taken : list task_t;
  w_ran : list task_t }.

Inductive call : Type := CallEnqueue (fn ctx : Z) | CallWait | CallDestroy.

(** [Turn i c]: thread [i] goes on; [c] chooses the thread a signal wakes, or lets
    [pthread_create] fail. *)
Inductive choice : Type := Plain | Wakes (j : nat) | Fails.
Inductive action : Type := Turn (i : nat) (c : choice) | Spurious (i : nat) | Invoke (i : nat) (f : call).

(** ** Shared state *)

Definition set_pool (p : zenit_thread_pool_t) (w : world) : world :=
  mk_world p (w_mutex w) (w_freed w) (w_pcs w) (w_put w) (w_taken w) (w_ran w).
Definition set_mutex (m : option nat) (w : world) : world :=
  mk_world (w_pool w) m (w_freed w) (w_pcs w) (w_put w) (w_taken w) (w_ran w).
Definition set_pc (i : nat) (p : pc) (w : world) : world :=
  mk_world (w_pool w) (w_mutex w) (w_freed w) (<[i := p]> (w_pcs w)) (w_put w) (w_taken w) (w_ran w).

Definition empty (p : zenit_thread_pool_t) : bool := bool_decide (tp_head p = tp_tail p).
Definition full (p : zenit_thread_pool_t) : bool := bool_decide (POOL_QUEUE_CAPACITY <= u64 (tp_head p - tp_tail p)).

Definition stop (p : zenit_thread_pool_t) : zenit_thread_pool_t :=
  mk_pool (tp_thread_count p) false (tp_queue p) (tp_head p) (tp_tail p) (tp_active p) (tp_threads p) (tp_size p).

(** The task at the tail, and the pool without it. *)
Definition take_task (p : zenit_thread_pool_t) : outcome (task_t * zenit_thread_pool_t) :=
  let index := tp_tail p mod POOL_QUEUE_CAPACITY in
  let! t := aget (tp_queue p) index in
  Ret (t, mk_pool (tp_thread_count p) (tp_running p) (tp_queue p) (tp_head p) (u64 (tp_tail p + 1)) (u64 (tp_active p + 1)) (tp_threads p) (tp_size p)).

Definition put_task (t : task_t) (p : zenit_thread_pool_t) : outcome zenit_thread_pool_t :=
  let index := tp_head p mod POOL_QUEUE_CAPACITY in
  let! q := aset (tp_queue p) index t in
  Ret (mk_pool (tp_thread_count p) (tp_running p) q (u64 (tp_head p + 1)) (tp_tail p) (tp_active p) (tp_threads p) (tp_size p)).

Definition finish_task (p : zenit_thread_pool_t) : zenit_thread_pool_t :=
  mk_pool (tp_thread_count p) (tp_running p) (tp_queue p) (tp_head p) (tp_tail p) (u64 (tp_active p - 1)) (tp_threads p) (tp_size p).

Definition add_thread (i : nat) (p : zenit_thread_pool_t) : zenit_thread_pool_t :=
  mk_pool (tp_thread_count p) (tp_running p) (tp_queue p) (tp_head p) (tp_tail p) (tp_active p) (tp_threads p ++ [i]) (tp_size p).

(** ** Synchronisation

    [None]: the thread cannot go on in this state, or the choice does not fit it. *)

Definition lock (i : nat) (next : pc) (w : world) : outcome (option world) :=
  Ret (match w_mutex w with None => Some (set_pc i next (set_mutex (Some i) w)) | Some _ => None end).
Definition unlock (i : nat) (next : pc) (w : world) : outcome (option world) := Ret (Some (set_pc i next (set_mutex None w))).

(** Who sleeps on which condition, and where a thread wakes up. *)
Definition on_not_empty (p : pc) : bool := match p with WSleep => true | _ => false end.
Definition on_not_full (p : pc) : bool := match p with ESleep _ => true | _ => false end.
Definition wake (p : pc) : pc := match p with WSleep => WLock | ESleep t => ELock t | p => p end.

Definition signal (on : pc -> bool) (i : nat) (next : pc) (c : choice) (w : world) : outcome (option world) :=
  Ret (match c with
       | Wakes j =>
           match w_pcs w !! j with
           | Some p => if on p then Some (set_pc i next (set_pc j (wake p) w)) else None
           | None => None
           end
       | Plain => if existsb on (w_pcs w) then None else Some (set_pc i next w)
       | Fails => None
       end).

Definition broadcast (on : pc -> bool) (i : nat) (next : pc) (w : world) : outcome (option world) :=
  Ret (Some (set_pc i next (mk_world (w_pool w) (w_mutex w) (w_freed w) ((fun p => if on p then wake p else p) <$> w_pcs w)
                              (w_put w) (w_taken w) (w_ran w)))).

(** ** The threads *)

(** [worker_thread]. *)
Definition worker_turn (i : nat) (p : pc) (c : choice) (w : world) : outcome (option world) :=
  match p with
  | WLock => lock i WTest w
  | WTest =>
      if empty (w_pool w) && tp_running (w_pool w) then Ret (Some (set_pc i WWait w))
      else if negb (tp_running (w_pool w)) && empty (w_pool w) then unlock i WExit w
      else
        let! (t, q) := take_task (w_pool w) in
        unlock i (WSignal t)
          (mk_world q (w_mutex w) (w_freed w) (w_pcs w) (w_put w) (w_taken w ++ [t]) (w_ran w))
  | WWait => unlock i WSleep w
  | WSignal t => signal on_not_full i (WCall t) c w
  | WCall t => Ret (Some (set_pc i WRelock (mk_world (w_pool w) (w_mutex w) (w_freed w) (w_pcs w) (w_put w) (w_taken w) (w_ran w ++ [t]))))
  | WRelock => lock i WDone w
  | WDone => unlock i WLock (set_pool (finish_task (w_pool w)) w)
  | _ => Ret None
  end.

(** [zenit_thread_pool_enqueue] behind its null tests. *)
Definition enqueue_turn (i : nat) (p : pc) (c : choice) (w : world) : outcome (option world) :=
  match p with
  | ELock t => lock i (ETest t) w
  | ETest t =>
      if full (w_pool w) && tp_running (w_pool w) then Ret (Some (set_pc i (EWait t) w))
      else if negb (tp_running (w_pool w)) then unlock i (CIdle (Some ZENIT_ERROR_STATE)) w
      else
        let! q := put_task t (w_pool w) in
        unlock i ESignal (mk_world q (w_mutex w) (w_freed w) (w_pcs w) (w_put w ++ [t]) (w_taken w) (w_ran w))
  | EWait t => unlock i (ESleep t) w
  | ESignal => signal on_not_empty i (CIdle (Some ZENIT_OK)) c w
  | _ => Ret None
  end.

(** [zenit_thread_pool_wait]. *)
Definition wait_turn (i : nat) (p : pc) (w : world) : outcome (option world) :=
  match p with
  | TLock => lock i TTest w
  | TTest =>
      if negb (empty (w_pool w)) || bool_decide (0 < tp_active (w_pool w)) then unlock i TYield w else unlock i (CIdle None) w
  | TYield => Ret (Some (set_pc i TLock w))
  | _ => Ret None
  end.

(** [pthread_join] of the [k]-th thread. *)
Definition join (i k : nat) (next : pc) (w : world) : outcome (option world) :=
  match tp_threads (w_pool w) !! k with
  | Some j => Ret (match w_pcs w !! j with Some WExit => Some (set_pc i next w) | _ => None end)
  | None => Undef
  end.

Definition free_pool (i : nat) (w : world) : outcome (option world) :=
  Ret (Some (set_pc i (CIdle None) (mk_world (w_pool w) (w_mutex w) true (w_pcs w) (w_put w) (w_taken w) (w_ran w)))).

(** [zenit_thread_pool_destroy]. *)
Definition destroy_turn (i : nat) (p : pc) (w : world) : outcome (option world) :=
  match p with
  | DLock => lock i DStop w
  | DStop => unlock i DBroadcast (set_pool (stop (w_pool w)) w)
  | DBroadcast => broadcast on_not_empty i (DJoin 0) w
  | DJoin k =>
      if decide (Z.of_nat k < tp_thread_count (w_pool w)) then join i k (DJoin (S k)) w else free_pool i w
  | _ => Ret None
  end.

(** The loop of [zenit_thread_pool_create] that starts the threads, and its failure
    path. *)
Definition create_turn (i : nat) (p : pc) (c : choice) (w : world) : outcome (option world) :=
  match p with
  | Spawn k =>
      if decide (Z.of_nat k < tp_thread_count (w_pool w)) then
        match c with
        | Plain =>
            if decide (SIZEOF_PTHREAD * (Z.of_nat k + 1) <= tp_size (w_pool w)) then
            let n := length (w_pcs w) in
            Ret (Some (mk_world (add_thread n (w_pool w)) (w_mutex w) (w_freed w) (<[i := Spawn (S k)]> (w_pcs w) ++ [WLock])
                         (w_put w) (w_taken w) (w_ran w)))
            else Undef
        | Fails => Ret (Some (set_pc i (FStop k) w))
        | Wakes _ => Ret None
        end
      else Ret (Some (set_pc i (CIdle None) w))
  | FStop k => Ret (Some (set_pc i (FBroadcast k) (set_pool (stop (w_pool w)) w)))
  | FBroadcast k => broadcast on_not_empty i (FJoin 0 k) w
  | FJoin j k => if decide (j < k)%nat then join i j (FJoin (S j) k) w else free_pool i w
  | _ => Ret None
  end.

(** A turn reads or writes the pool, unless the thread runs a task or is outside. *)
Definition touches (p : pc) : bool := match p with WCall _ | WExit | CIdle _ | WSleep | ESleep _ | TYield => false | _ => true end.

Definition turn (i : nat) (p : pc) (c : choice) (w : world) : outcome (option world) :=
  if touches p && w_freed w then Undef
  else
    match p with
    | WLock | WTest | WWait | WSignal _ | WCall _ | WRelock | WDone => worker_turn i p c w
    | ELock _ | ETest _ | EWait _ | ESignal => enqueue_turn i p c w
    | TLock | TTest | TYield => wait_turn i p w
    | DLock | DStop | DBroadcast | DJoin _ => destroy_turn i p w
    | Spawn _ | FStop _ | FBroadcast _ | FJoin _ _ => create_turn i p c w
    | WSleep | ESleep _ | WExit | CIdle _ => Ret None
    end.

(** What a call does up to its first operation on the mutex: [zenit_thread_pool_enqueue]
    returns at once for the null function. *)
Definition invoke (f : call) : pc :=
  match f with
  | CallEnqueue fn ctx => if decide (fn = 0) then CIdle (Some ZENIT_ERROR_NULL) else ELock (mk_task fn ctx)
  | CallWait => TLock
  | CallDestroy => DLock
  end.

Definition exec (x : action) (w : world) : outcome (option world) :=
  match x with
  | Turn i c => match w_pcs w !! i with Some p => turn i p c w | None => Ret None end
  | Spurious i =>
      Ret (match w_pcs w !! i with
           | Some p => if on_not_empty p || on_not_full p then Some (set_pc i (wake p) w) else None
           | None => None
           end)
  | Invoke i f => Ret (match w_pcs w !! i with Some (CIdle _) => Some (set_pc i (invoke f) w) | _ => None end)
  end.

(** ** Creation and the calls without waiting *)

Definition SIZEOF_POOL : Z := 65728.

(** The pool before its threads are started. *)
Definition pool_init (thread_count : Z) (queue : list task_t) : zenit_thread_pool_t := mk_pool thread_count true queue 0 0 0 [] (u64 (thread_count * SIZEOF_PTHREAD)).

(** The block of the threads; without it the pool is given back. *)
Definition alloc_threads (thread_count : Z) (pool : block) (queue : list task_t) (h : heap) : option zenit_thread_pool_t * heap :=
  match malloc (u64 (thread_count * SIZEOF_PTHREAD)) h with
  | (None, h) => (None, free (Some (b_addr pool)) h)
  | (Some _, h) => (Some (pool_init thread_count queue), h)
  end.

(** [zenit_thread_pool_create] up to the start of the threads.  The queue holds what the
    fresh block holds. *)
Definition zenit_thread_pool_create (thread_count : Z) (queue : list task_t) (h : heap)
    : option zenit_thread_pool_t * heap :=
  if decide (thread_count = 0) then (None, h)
  else
    match malloc SIZEOF_POOL h with
    | (None, h) => (None, h)
    | (Some b, h) => alloc_threads thread_count b queue h
    end.

Definition zenit_thread_pool_thread_count (pool : option zenit_thread_pool_t) : Z :=
  match pool with None => 0 | Some p => tp_thread_count p end.

(** The two counters are read one after the other, without the mutex. *)
Definition zenit_thread_pool_pending (before after : option zenit_thread_pool_t) : Z :=
  match before, after with Some p, Some q => u64 (tp_head p - tp_tail q) | _, _ => 0 end.

(** Thread 0 has called [zenit_thread_pool_create] for [n] threads; [clients] further
    threads are outside. *)
Definition world_init (n : Z) (queue : list task_t) (clients : nat) : world :=
  mk_world (pool_init n queue) None false (Spawn 0 :: replicate clients (CIdle None)) [] [] [].

(** A sequence of actions; one that is not possible ends it. *)
Fixpoint run (xs : list action) (w : world) : outcome (option world) :=
  match xs with
  | [] => Ret (Some w)
  | x :: xs => let! r := exec x w in match r with Some w => run xs w | None => Ret None end
  end.
