(* ===== verification/ThreadPoolInv.v ===== *)
(** * The invariant of the thread pool

    What holds of the pool, its workers and its callers between any two turns, as long
    as the pool is used as documented: nobody calls it before it is created or once its
    destruction has begun, and it is destroyed when no other call is under way.  The
    clauses on the threads are equations and inequalities between the numbers of
    threads at each place ([total]), so that a turn, which moves one or two threads,
    is checked by linear arithmetic. *)

From Stdlib Require Import ZArith Lia.
From stdpp Require Import base tactics option list numbers sets relations.
From S2P Require Import Prelude Mem Result Allocator ThreadPool.
Open Scope Z_scope.

(** ** Sums over the threads *)

Fixpoint total (f : pc -> Z) (l : list pc) : Z := match l with [] => 0 | p :: l => f p + total f l end.

Notation "#[ f ] l" := (total (fun p => Z.b2z (f p)) l) (at level 9, f at level 200, l at level 9, format "#[ f ] l").

Lemma weigh_app f l1 l2 : total f (l1 ++ l2) = total f l1 + total f l2.
Proof. induction l1 as [|p l1 IH]; simpl; [done|]. rewrite IH. lia. Qed.

Lemma total_insert f l i p q : l !! i = Some p -> total f (<[i := q]> l) = total f l - f p + f q.
Proof. revert i. induction l as [|a l IH]; intros [|i] H; simplify_eq/=; [lia|]. rewrite (IH _ H). lia. Qed.

Lemma total_fmap f g l : total f (g <$> l) = total (fun p => f (g p)) l.
Proof. induction l as [|p l IH]; csimpl; [done|]. by rewrite IH. Qed.

Lemma total_replicate f n p : total f (replicate n p) = Z.of_nat n * f p.
Proof. induction n as [|n IH]; simpl; [done|]. rewrite IH. lia. Qed.

Lemma total_le f g l : (forall i p, l !! i = Some p -> f p <= g p) -> total f l <= total g l.
Proof.
  induction l as [|a l IH]; intros H; simpl; [lia|]. pose proof (H 0%nat a eq_refl).
  enough (total f l <= total g l) by lia. apply IH. intros i. apply (H (S i)).
Qed.

Lemma total_nonneg f l : (forall p, 0 <= f p) -> 0 <= total f l.
Proof. intros H. induction l as [|a l IH]; simpl; [lia|]. specialize (H a). lia. Qed.

Lemma total_ge f l i p : (forall p, 0 <= f p) -> l !! i = Some p -> f p <= total f l.
Proof.
  intros Hf. revert i. induction l as [|a l IH]; intros [|i] H; simplify_eq/=; [pose proof (total_nonneg f l Hf); lia|].
  specialize (IH _ H). specialize (Hf a). lia.
Qed.

Section Count.
Implicit Types (f g : pc -> bool) (l : list pc).

Lemma count_nonneg f l : 0 <= #[f] l.
Proof. apply total_nonneg. intros p. by destruct (f p). Qed.

Lemma count_ge f l i p : l !! i = Some p -> Z.b2z (f p) <= #[f] l.
Proof. apply (total_ge (fun p => Z.b2z (f p))). intros q. by destruct (f q). Qed.

Lemma count_find f l : 0 < #[f] l -> exists i p, l !! i = Some p /\ f p = true.
Proof.
  induction l as [|a l IH]; simpl; [lia|]. intros H. destruct (f a) eqn:E; [by exists 0%nat, a|].
  destruct IH as (i & p & ? & ?); [simpl in H; lia|]. by exists (S i), p.
Qed.

Lemma count_none f l : #[f] l = 0 -> forall i p, l !! i = Some p -> f p = false.
Proof. intros H i p Hi. pose proof (count_ge f l i p Hi) as G. destruct (f p); [simpl in G; lia|done]. Qed.

Lemma count_one f l i p j q : #[f] l <= 1 -> l !! i = Some p -> f p = true -> l !! j = Some q -> f q = true -> i = j.
Proof.
  revert i j. induction l as [|a l IH]; intros [|i] [|j] H Hi Hp Hj Hq; simplify_eq/=; try done.
  - pose proof (count_ge f l j q Hj). rewrite Hp, Hq in *. simpl in *. lia.
  - pose proof (count_ge f l i p Hi). rewrite Hp, Hq in *. simpl in *. lia.
  - f_equal. apply (IH i j); [destruct (f a); simpl in *; lia|done..].
Qed.

Lemma existsb_count f l : existsb f l = bool_decide (0 < #[f] l).
Proof.
  induction l as [|a l IH]; simpl; [done|]. rewrite IH. pose proof (count_nonneg f l).
  destruct (f a); simpl; repeat case_bool_decide; (done || lia).
Qed.
End Count.

(** ** The ring of tasks *)

(** The ring holds the tasks that are put and not yet taken; the counters are the
    numbers of tasks put and taken so far.  The block of the threads has room for all. *)
Record ring_ok (p : zenit_thread_pool_t) (taken put : list task_t) : Prop := {
  r_threads : tp_size p = SIZEOF_PTHREAD * tp_thread_count p;
  r_len : zlen (tp_queue p) = POOL_QUEUE_CAPACITY;
  r_head : tp_head p = u64 (zlen put);
  r_tail : tp_tail p = u64 (zlen taken);
  r_size : zlen put - zlen taken <= POOL_QUEUE_CAPACITY;
  r_prefix : taken `prefix_of` put;
  r_cell k t : zlen taken <= Z.of_nat k -> put !! k = Some t ->
    tp_queue p !! Z.to_nat (Z.of_nat k mod POOL_QUEUE_CAPACITY) = Some t }.

Lemma u64_slot n : u64 n mod POOL_QUEUE_CAPACITY = n mod POOL_QUEUE_CAPACITY.
Proof. unfold u64, POOL_QUEUE_CAPACITY. symmetry. apply Znumtheory.Zmod_div_mod; [lia|lia|]. by exists 4503599627370496. Qed.

Lemma u64_diff a b : 0 <= b <= a -> a - b < two64 -> u64 (u64 a - u64 b) = a - b.
Proof. intros ? ?. unfold u64. rewrite <- Zminus_mod. by apply Z.mod_small; lia. Qed.

Lemma u64_next n : u64 (u64 n + 1) = u64 (n + 1).
Proof. unfold u64. by rewrite Zplus_mod_idemp_l. Qed.

Section Ring.
Context (p : zenit_thread_pool_t) (taken put : list task_t) (R : ring_ok p taken put).

Lemma ring_le : 0 <= zlen taken <= zlen put.
Proof using R. destruct (r_prefix _ _ _ R) as [l ->]. rewrite zlen_app. pose proof (zlen_nonneg taken). pose proof (zlen_nonneg l). lia. Qed.

Lemma ring_diff : u64 (tp_head p - tp_tail p) = zlen put - zlen taken.
Proof using R. rewrite (r_head _ _ _ R), (r_tail _ _ _ R). pose proof ring_le. pose proof (r_size _ _ _ R) as S. unfold POOL_QUEUE_CAPACITY in S. apply u64_diff; lia. Qed.

Lemma ring_empty : empty p = bool_decide (zlen put = zlen taken).
Proof using R.
  unfold empty. apply bool_decide_ext. pose proof ring_diff as D. pose proof (r_head _ _ _ R). pose proof (r_tail _ _ _ R).
  split; intros E; [|congruence]. rewrite E, Z.sub_diag in D. change (u64 0) with 0 in D. lia.
Qed.

Lemma ring_full : full p = bool_decide (zlen put - zlen taken = POOL_QUEUE_CAPACITY).
Proof using R. unfold full. rewrite ring_diff. apply bool_decide_ext. pose proof (r_size _ _ _ R). lia. Qed.

Lemma ring_drained : zlen put = zlen taken -> put = taken.
Proof using R. destruct (r_prefix _ _ _ R) as [l E]. subst put. rewrite zlen_app. intros ?. rewrite (zlen_0 l) by lia. by rewrite app_nil_r. Qed.

Lemma ring_take : zlen taken < zlen put ->
  exists t p', take_task p = Ret (t, p') /\ ring_ok p' (taken ++ [t]) put /\
    tp_thread_count p' = tp_thread_count p /\ tp_running p' = tp_running p /\ tp_threads p' = tp_threads p /\
    tp_active p' = u64 (tp_active p + 1).
Proof using R.
  intros H. destruct (r_prefix _ _ _ R) as [[|t l] E]; [by subst put; rewrite zlen_app, zlen_nil in H; lia|].
  assert (Ht : put !! length taken = Some t) by by rewrite E, list_lookup_middle.
  pose proof (r_cell _ _ _ R (length taken) t (Z.le_refl _) Ht) as C.
  eexists t, _. unfold take_task. rewrite (r_tail _ _ _ R), u64_slot.
  rewrite (aget_lookup _ _ t) by (done || by apply Z.mod_pos_bound). simpl. split; [done|]. split; [|done].
  destruct R as [Sz L Hh Ht' S P Cl]. constructor; simpl; try done.
  - rewrite u64_next. by rewrite zlen_app.
  - rewrite zlen_app, zlen_cons, zlen_nil. lia.
  - exists l. by rewrite E, <- app_assoc.
  - intros k x Hk. apply Cl. rewrite zlen_app, zlen_cons, zlen_nil in Hk. lia.
Qed.

Lemma ring_put t : zlen put - zlen taken < POOL_QUEUE_CAPACITY ->
  exists p', put_task t p = Ret p' /\ ring_ok p' taken (put ++ [t]) /\
    tp_thread_count p' = tp_thread_count p /\ tp_running p' = tp_running p /\ tp_threads p' = tp_threads p /\
    tp_active p' = tp_active p.
Proof using R.
  intros H. eexists. unfold put_task. rewrite (r_head _ _ _ R), u64_slot.
  pose proof (Z.mod_pos_bound (zlen put) POOL_QUEUE_CAPACITY eq_refl) as B.
  rewrite aset_range by (rewrite (r_len _ _ _ R); lia). simpl. split; [done|]. split; [|done].
  pose proof ring_le. destruct R as [Sz L Hh Ht S P Cl]. constructor; simpl; try done.
  - by rewrite zlen_insert.
  - rewrite u64_next. by rewrite zlen_app.
  - rewrite zlen_app, zlen_cons, zlen_nil. lia.
  - by apply prefix_app_r.
  - intros k x Hk Hx. apply lookup_snoc_Some in Hx as [[Hl Hx]|[-> ->]].
    + rewrite list_lookup_insert_ne; [by apply Cl|]. intros E. apply Z2Nat.inj in E; [|lia|by apply Z.mod_pos_bound].
      unfold zlen, POOL_QUEUE_CAPACITY in *. pose proof (Z.div_mod (Z.of_nat (length put)) 4096 ltac:(lia)).
      pose proof (Z.div_mod (Z.of_nat k) 4096 ltac:(lia)). rewrite E in *. nia.
    + rewrite list_lookup_insert_eq; [done|]. unfold zlen in *. lia.
Qed.
End Ring.

(** ** Places *)

Definition holds (p : pc) : bool :=
  match p with WTest | WWait | WDone | ETest _ | EWait _ | TTest | DStop => true | _ => false end.
Definition worker (p : pc) : bool :=
  match p with WLock | WTest | WWait | WSleep | WSignal _ | WCall _ | WRelock | WDone | WExit => true | _ => false end.
Definition in_task (p : pc) : bool := match p with WSignal _ | WCall _ | WRelock | WDone => true | _ => false end.
Definition awake (p : pc) : bool := match p with WLock | WTest | WSignal _ | WCall _ | WRelock | WDone => true | _ => false end.
Definition wwait (p : pc) : bool := match p with WWait => true | _ => false end.
Definition wsleep (p : pc) : bool := match p with WSleep => true | _ => false end.
Definition wsignal (p : pc) : bool := match p with WSignal _ => true | _ => false end.
Definition wexit (p : pc) : bool := match p with WExit => true | _ => false end.
Definition entering (p : pc) : bool := match p with ELock _ | ETest _ => true | _ => false end.
Definition ewait (p : pc) : bool := match p with EWait _ => true | _ => false end.
Definition esleep (p : pc) : bool := match p with ESleep _ => true | _ => false end.
Definition esignal (p : pc) : bool := match p with ESignal => true | _ => false end.
Definition creating (p : pc) : bool := match p with Spawn _ => true | _ => false end.
Definition failing (p : pc) : bool := match p with FStop _ | FBroadcast _ | FJoin _ _ => true | _ => false end.
Definition announced (p : pc) : bool := match p with DBroadcast | DJoin _ => true | _ => false end.
Definition broadcasting (p : pc) : bool := match p with DBroadcast => true | _ => false end.
Definition owner (p : pc) : bool := match p with Spawn _ | FStop _ | FBroadcast _ | FJoin _ _ | DLock | DStop | DBroadcast | DJoin _ => true | _ => false end.
Definition busy (p : pc) : bool := negb (worker p) && match p with CIdle _ => false | _ => true end.

(** How the numbers of threads at these places compare. *)
Lemma places l :
  #[worker] l = #[awake] l + #[wwait] l + #[wsleep] l + #[wexit] l /\ #[in_task] l <= #[awake] l /\ #[wsignal] l <= #[in_task] l /\
  #[wwait] l + #[ewait] l <= #[holds] l /\ #[entering] l + #[ewait] l + #[esleep] l + #[esignal] l + #[owner] l <= #[busy] l /\
  #[creating] l + #[failing] l + #[announced] l <= #[owner] l /\ #[broadcasting] l <= #[announced] l /\
  0 <= #[wwait] l /\ 0 <= #[wsleep] l /\ 0 <= #[wexit] l /\ 0 <= #[wsignal] l /\ 0 <= #[ewait] l /\ 0 <= #[entering] l /\
  0 <= #[esleep] l /\ 0 <= #[esignal] l /\ 0 <= #[creating] l /\ 0 <= #[failing] l /\ 0 <= #[broadcasting] l.
Proof. induction l as [|p l IH]; simpl; [lia|]. destruct p; simpl; lia. Qed.

(** ** Documented use *)

(** Threads start without failing; a call is made on a created pool that nobody is
    destroying, and [zenit_thread_pool_destroy] when no other call is under way. *)
Definition legal (x : action) (w : world) : bool :=
  match x with
  | Turn _ Fails => false
  | Turn _ _ | Spurious _ => true
  | Invoke _ CallDestroy => negb (w_freed w) && negb (existsb busy (w_pcs w))
  | Invoke _ _ => negb (w_freed w) && negb (existsb owner (w_pcs w))
  end.

Definition step (w w' : world) : Prop := exists x, legal x w = true /\ exec x w = Ret (Some w').

(** ** The invariant *)

(** Tasks taken and not finished. *)
Definition task_of (p : pc) : list task_t := match p with WSignal t | WCall t => [t] | _ => [] end.
Definition flight (l : list pc) : list task_t := l ≫= task_of.

(** Numbers of threads: [n] threads asked for, [k] started, [r] running, [f] freed, [m]
    the mutex is held, [d] tasks in the ring, [a] active. *)
Record numbers_ok (n k r f m d a : Z) (l : list pc) : Prop := {
  n_count : 0 < n < two64 /\ k <= n /\ #[worker] l = k /\ (#[creating] l = 0 -> k = n);
  n_active : a = #[in_task] l;
  n_holds : #[holds] l = m;
  n_failing : #[failing] l = 0;
  n_owner : 0 < #[owner] l -> #[busy] l = 1;
  n_freed : f = 1 -> #[busy] l = 0 /\ r = 0 /\ #[worker] l = #[wexit] l;
  n_running : r = 0 -> 0 < #[announced] l \/ f = 1;
  n_announced : 0 < #[announced] l -> r = 0;
  n_wwait : 0 < #[wwait] l -> r = 1 /\ d = 0;
  n_ewait : 0 < #[ewait] l -> r = 1 /\ d = POOL_QUEUE_CAPACITY;
  n_wexit : 0 < #[wexit] l -> r = 0 /\ d = 0;
  n_awake : 0 < d -> 0 < #[awake] l + #[esignal] l;
  n_asleep : r = 0 -> #[wsleep] l = 0 \/ 0 < #[broadcasting] l;
  n_room : 0 < #[esleep] l -> POOL_QUEUE_CAPACITY - d <= #[wsignal] l + #[entering] l }.

(** Which thread is where. *)
Record index_ok (m : option nat) (threads : list nat) (l : list pc) : Prop := {
  x_mutex i : m = Some i -> exists p, l !! i = Some p /\ holds p = true;
  x_threads j : j ∈ threads <-> exists p, l !! j = Some p /\ worker p = true;
  x_spawn i k : l !! i = Some (Spawn k) -> k = length threads;
  x_join i k n j : l !! i = Some (DJoin k) -> (n < k)%nat -> threads !! n = Some j -> l !! j = Some WExit }.

Definition in_ring (w : world) : Z := zlen (w_put w) - zlen (w_taken w).

Definition holder (m : option nat) : Z := match m with Some _ => 1 | None => 0 end.

Record pool_inv (w : world) : Prop := {
  v_ring : ring_ok (w_pool w) (w_taken w) (w_put w);
  v_flight : w_taken w ≡ₚ w_ran w ++ flight (w_pcs w);
  v_numbers : numbers_ok (tp_thread_count (w_pool w)) (zlen (tp_threads (w_pool w))) (Z.b2z (tp_running (w_pool w)))
    (Z.b2z (w_freed w)) (holder (w_mutex w)) (in_ring w) (tp_active (w_pool w)) (w_pcs w);
  v_index : index_ok (w_mutex w) (tp_threads (w_pool w)) (w_pcs w) }.

(** ** Moving one thread *)

Lemma flight_insert l i p q :
  l !! i = Some p -> task_of p ++ flight (<[i := q]> l) ≡ₚ task_of q ++ flight l.
Proof.
  unfold flight. revert i. induction l as [|a l IH]; intros [|i] H; simplify_eq/=; [solve_Permutation|].
  etrans; [apply Permutation_app_swap_app|]. etrans; [|apply Permutation_app_swap_app]. apply Permutation_app_head. by apply IH.
Qed.

Lemma flight_same l i p q : l !! i = Some p -> task_of p = task_of q -> flight (<[i := q]> l) ≡ₚ flight l.
Proof. intros H E. pose proof (flight_insert l i p q H) as F. rewrite E in F. by apply Permutation_app_inv_l in F. Qed.

(** What the place of a thread says of the threads started and joined. *)
Definition fits (threads : list nat) (l : list pc) (q : pc) : Prop :=
  match q with
  | Spawn k => k = length threads
  | DJoin k => forall n j, (n < k)%nat -> threads !! n = Some j -> l !! j = Some WExit
  | _ => True
  end.

(** The new place of a thread among the others. *)
Lemma index_move m m' threads l i p q :
  index_ok m threads l -> l !! i = Some p -> worker p = worker q -> p <> WExit ->
  fits threads l q ->
  (m' = None \/ m' = Some i /\ holds q = true \/ m' = m /\ holds p = holds q) ->
  index_ok m' threads (<[i := q]> l).
Proof.
  intros [M T S J] Hi Hw He Hq Hm.
  assert (Hl : (i < length l)%nat) by by eapply lookup_lt_Some. constructor.
  - intros j E. destruct (decide (i = j)) as [<-|D].
    + exists q. split; [by rewrite list_lookup_insert_eq|]. destruct Hm as [?|[[_ ?]|[-> Hh]]]; [congruence|done|].
      destruct (M i E) as (p' & ? & ?). congruence.
    + rewrite list_lookup_insert_ne by done. apply M. destruct Hm as [?|[[? _]|[? _]]]; congruence.
  - intros j. rewrite T. destruct (decide (i = j)) as [<-|D].
    + rewrite list_lookup_insert_eq, Hi by done. split; intros (? & [= <-] & ?); eexists; (split; [done|congruence]).
    + by rewrite list_lookup_insert_ne.
  - intros j k [(<- & E & _)|[_ E]]%list_lookup_insert_Some; [by subst q|by eapply S].
  - intros j k n t Hk Hn Ht. enough (l !! t = Some WExit) by (rewrite list_lookup_insert_ne; [done|]; intros <-; congruence).
    apply list_lookup_insert_Some in Hk as [(<- & E & _)|[_ E]]; [subst q; by eapply Hq|by eapply J].
Qed.

(** The numbers after one move, by arithmetic: most clauses follow from themselves, the
    held mutex and a fact [T] about this move. *)
Ltac tally_with T :=
  match goal with
  | H : numbers_ok _ _ _ _ _ _ _ ?l, Hi : ?l !! ?i = Some ?p |- numbers_ok _ _ _ _ _ _ _ ?l' =>
      let Tp := fresh "Tp" in let Tq := fresh "Tq" in
      pose proof (places l) as Tp; pose proof (places l') as Tq;
      rewrite ?weigh_app, !(total_insert _ l i p _ Hi) in Tq; cbn in Tq;
      destruct H as [Nc Na Nh Nl No Nf Nr Nd Nw Ne Nx Nk Ns Nm];
      constructor; rewrite ?weigh_app, ?(total_insert _ l i p _ Hi); cbn;
      [ first [clear - Tp Tq Nh T Nc; lia | lia] | first [clear - Tp Tq Nh T Na; lia | lia] | first [clear - Tp Tq Nh T Nh; lia | lia]
      | first [clear - Tp Tq Nh T Nl; lia | lia] | first [clear - Tp Tq Nh T No; lia | lia] | first [clear - Tp Tq Nh T Nf; lia | lia]
      | first [clear - Tp Tq Nh T Nr; lia | lia] | first [clear - Tp Tq Nh T Nd; lia | lia] | first [clear - Tp Tq Nh T Nw; lia | lia]
      | first [clear - Tp Tq Nh T Ne; lia | lia] | first [clear - Tp Tq Nh T Nx; lia | lia] | first [clear - Tp Tq Nh T Nk; lia | lia]
      | first [clear - Tp Tq Nh T Ns; lia | lia] | first [clear - Tp Tq Nh T Nm; lia | lia] ]
  end.

Ltac tally := let T := fresh in assert (T : True) by done; tally_with T.

Lemma inv_move w i p q m :
  pool_inv w -> w_pcs w !! i = Some p -> worker p = worker q -> p <> WExit -> task_of p = task_of q ->
  fits (tp_threads (w_pool w)) (w_pcs w) q ->
  (m = None \/ m = Some i /\ holds q = true \/ m = w_mutex w /\ holds p = holds q) ->
  numbers_ok (tp_thread_count (w_pool w)) (zlen (tp_threads (w_pool w))) (Z.b2z (tp_running (w_pool w)))
    (Z.b2z (w_freed w)) (holder m) (in_ring w) (tp_active (w_pool w)) (<[i := q]> (w_pcs w)) ->
  pool_inv (set_pc i q (set_mutex m w)).
Proof.
  intros [R F N X] Hi Hw He Ht Hq Hm Hn. constructor; simpl; [done| |done|by eapply index_move].
  by rewrite (flight_same _ i p q Hi Ht).
Qed.

(** A turn is safe: it is defined, and what it leads to satisfies the invariant. *)
Definition safe (o : outcome (option world)) : Prop :=
  match o with Ret (Some w) => pool_inv w | Ret None => True | _ => False end.

Ltac move p := apply (inv_move _ _ p); simpl; try done; [naive_solver|].

Section Turns.
Context (w : world) (i : nat) (V : pool_inv w).
Local Notation pcs := (w_pcs w).
Local Notation numbers m l := (numbers_ok (tp_thread_count (w_pool w)) (zlen (tp_threads (w_pool w)))
  (Z.b2z (tp_running (w_pool w))) (Z.b2z (w_freed w)) (holder m) (in_ring w) (tp_active (w_pool w)) l).

Lemma held p : pcs !! i = Some p -> holds p = true -> w_mutex w = Some i.
Proof using V.
  intros Hi Hp. destruct V as [_ _ N X]. pose proof (n_holds _ _ _ _ _ _ _ _ N) as H.
  pose proof (count_ge holds _ _ _ Hi) as G. rewrite Hp in G. simpl in G.
  destruct (w_mutex w) as [j|] eqn:E; simpl in H; [|lia]. f_equal. symmetry.
  destruct (x_mutex _ _ _ X j eq_refl) as (q & Hj & Hq). eapply (count_one holds); [|done..]. lia.
Qed.

Lemma lock_safe p q :
  pcs !! i = Some p -> worker p = worker q -> p <> WExit -> task_of p = task_of q -> holds q = true ->
  fits (tp_threads (w_pool w)) (w_pcs w) q ->
  (numbers None pcs -> numbers (Some i) (<[i := q]> pcs)) ->
  safe (lock i q w).
Proof using V.
  intros Hi Hw He Ht Hh Hq Hn. unfold lock. destruct (w_mutex w) eqn:E; simpl; [done|].
  apply (inv_move w i p); try done; [naive_solver|]. apply Hn. rewrite <- E. apply V.
Qed.

Lemma unlock_safe p q :
  pcs !! i = Some p -> worker p = worker q -> p <> WExit -> task_of p = task_of q -> holds p = true ->
  fits (tp_threads (w_pool w)) (w_pcs w) q ->
  (numbers (Some i) pcs -> numbers None (<[i := q]> pcs)) ->
  safe (unlock i q w).
Proof using V.
  intros Hi Hw He Ht Hh Hq Hn. pose proof (held p Hi Hh) as E. unfold unlock; simpl.
  apply (inv_move w i p); try done; [naive_solver|]. apply Hn. rewrite <- E. apply V.
Qed.

Lemma go_safe p q :
  pcs !! i = Some p -> worker p = worker q -> p <> WExit -> task_of p = task_of q -> holds p = holds q ->
  fits (tp_threads (w_pool w)) (w_pcs w) q ->
  (numbers (w_mutex w) pcs -> numbers (w_mutex w) (<[i := q]> pcs)) ->
  pool_inv (set_pc i q w).
Proof using V.
  intros Hi Hw He Ht Hh Hq Hn. replace (set_pc i q w) with (set_pc i q (set_mutex (w_mutex w) w)) by by destruct w.
  apply (inv_move w i p); try done; [naive_solver|]. apply Hn. apply V.
Qed.

Ltac place p := first [apply (lock_safe p) | apply (unlock_safe p) | apply (go_safe p)]; try done; intros N; simpl in N |- *.

Lemma lock_turn p :
  pcs !! i = Some p -> match p with WLock | WRelock | ELock _ | TLock | DLock => True | _ => False end ->
  safe (lock i match p with WLock => WTest | WRelock => WDone | ELock t => ETest t | TLock => TTest | _ => DStop end w).
Proof using V. intros Hi Hp. destruct p; try done; (eapply lock_safe; [exact Hi|done..|]); intros N; simpl in N |- *; tally. Qed.

Lemma drained : in_ring w = 0 <-> empty (w_pool w) = true.
Proof using V. rewrite (ring_empty _ _ _ (v_ring _ V)), bool_decide_eq_true. unfold in_ring. lia. Qed.

Lemma test_waits : pcs !! i = Some WTest -> empty (w_pool w) && tp_running (w_pool w) = true -> pool_inv (set_pc i WWait w).
Proof using V.
  intros Hi [Hd%drained Hr]%andb_prop. eapply go_safe; [exact Hi|done..|]. rewrite Hr, Hd. simpl. intros N. tally.
Qed.

Lemma test_exits : pcs !! i = Some WTest -> negb (tp_running (w_pool w)) && empty (w_pool w) = true -> safe (unlock i WExit w).
Proof using V.
  intros Hi [Hr%negb_true_iff Hd%drained]%andb_prop. eapply unlock_safe; [exact Hi|done..|]. rewrite Hr, Hd. simpl. intros N. tally.
Qed.

Lemma waiting_runs : pcs !! i = Some WWait -> tp_running (w_pool w) = true.
Proof using V.
  intros Hi. destruct (n_wwait _ _ _ _ _ _ _ _ (v_numbers _ V)) as [Hr _]; [|by destruct (tp_running (w_pool w))].
  pose proof (count_ge wwait _ _ _ Hi) as G. simpl in G. lia.
Qed.

Lemma wait_sleeps : pcs !! i = Some WWait -> safe (unlock i WSleep w).
Proof using V.
  intros Hi. eapply unlock_safe; [exact Hi|done..|]. rewrite (waiting_runs Hi). simpl. intros N. tally.
Qed.

(** A pool with another ring, and its numbers. *)
Lemma inv_pool p q pool put taken :
  pcs !! i = Some p -> worker p = worker q -> p <> WExit -> holds p = true ->
  fits (tp_threads (w_pool w)) (w_pcs w) q ->
  ring_ok pool taken put -> taken ≡ₚ w_ran w ++ flight (<[i := q]> pcs) ->
  tp_thread_count pool = tp_thread_count (w_pool w) -> tp_threads pool = tp_threads (w_pool w) ->
  (numbers (Some i) pcs ->
   numbers_ok (tp_thread_count (w_pool w)) (zlen (tp_threads (w_pool w))) (Z.b2z (tp_running pool)) (Z.b2z (w_freed w)) 0
     (zlen put - zlen taken) (tp_active pool) (<[i := q]> pcs)) ->
  pool_inv (set_pc i q (set_mutex None (mk_world pool (w_mutex w) (w_freed w) pcs put taken (w_ran w)))).
Proof using V.
  intros Hi Hw He Hh Hq R F Hc Ht Hn. pose proof (held p Hi Hh) as E. pose proof V as [_ _ N X].
  constructor; simpl; [done|done| |].
  - rewrite Hc, Ht. apply Hn. by rewrite <- E.
  - rewrite Ht. eapply index_move; [done|done|done|done|done|]. by left.
Qed.

Lemma active_range : 0 <= tp_active (w_pool w) <= tp_thread_count (w_pool w) /\ tp_thread_count (w_pool w) < two64.
Proof using V. destruct (v_numbers _ V) as [Nc Na _ _ _ _ _ _ _ _ _ _ _ _]. pose proof (places pcs). pose proof (count_nonneg in_task pcs). lia. Qed.

Lemma test_takes :
  pcs !! i = Some WTest -> empty (w_pool w) = false ->
  safe (let! (t, q) := take_task (w_pool w) in
        unlock i (WSignal t) (mk_world q (w_mutex w) (w_freed w) pcs (w_put w) (w_taken w ++ [t]) (w_ran w))).
Proof using V.
  intros Hi He. pose proof (v_ring _ V) as R. rewrite (ring_empty _ _ _ R), bool_decide_eq_false in He.
  pose proof (ring_le _ _ _ R). destruct (ring_take _ _ _ R) as (t & p' & -> & R' & Hc & Hr & Ht & Ha); [lia|]. simpl.
  eapply inv_pool; [exact Hi|done|done|done|done|done| |done|done|].
  - pose proof (flight_insert _ i _ (WSignal t) Hi) as F. simpl in F. rewrite F, (v_flight _ V).
    rewrite <- app_assoc. apply Permutation_app_head. symmetry. apply Permutation_cons_append.
  - pose proof active_range as [A ?]. rewrite Ha, Hr. replace (zlen (w_put w) - zlen (w_taken w ++ [t])) with (in_ring w - 1)
      by (unfold in_ring; rewrite zlen_app, zlen_cons, zlen_nil; lia).
    assert (tp_active (w_pool w) < tp_thread_count (w_pool w)) as A'.
    { destruct (v_numbers _ V) as [Nc Na _ _ _ _ _ _ _ _ _ _ _ _]. pose proof (places (<[i := CIdle None]> pcs)) as P.
      rewrite !(total_insert _ _ i _ _ Hi) in P. simpl in P. pose proof (count_nonneg in_task (<[i := CIdle None]> pcs)). lia. }
    rewrite u64_small by lia. simpl. intros N. assert (T : 0 < in_ring w) by (unfold in_ring; lia). tally_with T.
Qed.

(** The end of a task. *)
Lemma call_returns t :
  pcs !! i = Some (WCall t) ->
  pool_inv (set_pc i WRelock (mk_world (w_pool w) (w_mutex w) (w_freed w) pcs (w_put w) (w_taken w) (w_ran w ++ [t]))).
Proof using V.
  intros Hi. pose proof V as [R F N X]. constructor; simpl; [done| | |].
  - pose proof (flight_insert _ i _ WRelock Hi) as G. simpl in G. rewrite F, <- app_assoc. by rewrite <- G.
  - unfold in_ring; simpl. change (zlen (w_put w) - zlen (w_taken w)) with (in_ring w). tally.
  - eapply index_move; [done..|]. naive_solver.
Qed.

Lemma done_finishes : pcs !! i = Some WDone -> safe (unlock i WLock (set_pool (finish_task (w_pool w)) w)).
Proof using V.
  intros Hi. simpl. pose proof (v_ring _ V) as R. eapply inv_pool; [exact Hi|done|done|done|done| | |done|done|].
  - by destruct R.
  - rewrite (v_flight _ V). by rewrite (flight_same _ _ _ _ Hi).
  - pose proof active_range. pose proof (count_ge in_task _ _ _ Hi) as G. simpl in G.
    rewrite <- (n_active _ _ _ _ _ _ _ _ (v_numbers _ V)) in G. simpl. rewrite u64_small by lia.
    change (zlen (w_put w) - zlen (w_taken w)) with (in_ring w). intros N. tally.
Qed.

(** A sleeping thread wakes up. *)
Lemma wakes p : pcs !! i = Some p -> on_not_empty p || on_not_full p = true -> pool_inv (set_pc i (wake p) w).
Proof using V.
  intros Hi Hp. destruct p; try done; (eapply go_safe; [exact Hi|done..|]); simpl; intros N; tally.
Qed.

(** While a call other than the pool's creation or destruction is under way, the pool
    has all its threads. *)
Lemma started p : pcs !! i = Some p -> busy p = true -> owner p = false ->
  #[owner] pcs = 0 /\ #[worker] pcs = tp_thread_count (w_pool w) /\ 0 < tp_thread_count (w_pool w).
Proof using V.
  intros Hi Hb Ho. destruct (v_numbers _ V) as [Nc _ _ _ No _ _ _ _ _ _ _ _ _]. pose proof (places pcs) as Tp.
  pose proof (places (<[i := CIdle None]> pcs)) as Tq. rewrite !(total_insert _ _ i _ _ Hi), Hb, Ho in Tq. simpl in Tq.
  destruct p; simpl in *; try done; lia.
Qed.
End Turns.

Ltac sleepers H := rewrite existsb_count in H; apply bool_decide_eq_false in H.

Lemma signal_room w i t c : pool_inv w -> w_pcs w !! i = Some (WSignal t) -> safe (signal on_not_full i (WCall t) c w).
Proof.
  intros V Hi. destruct c as [|j|]; simpl; [| |done].
  - destruct (existsb _ _) eqn:E; [done|]. sleepers E. simpl. eapply go_safe; [done|exact Hi|done..|]. intros N.
    assert (T : #[esleep] (w_pcs w) <= 0) by (change esleep with on_not_full; lia). tally_with T.
  - destruct (w_pcs w !! j) as [p|] eqn:Hj; [|done]. destruct (on_not_full p) eqn:Hp; [|done]. simpl.
    assert (Dij : i <> j) by (intros <-; simplify_eq/=).
    pose proof (n_room _ _ _ _ _ _ _ _ (v_numbers _ V)) as T. pose proof (count_ge esleep _ _ _ Hj) as G.
    pose proof (wakes w j V p Hj ltac:(by rewrite Hp, orb_true_r)) as V'. destruct p as [| | | | | | | | | | | | |u| | | | | | | | | | | |]; try done. simpl in *.
    specialize (T ltac:(lia)).
    assert (T' : POOL_QUEUE_CAPACITY - in_ring w <= #[wsignal] (<[j := ELock u]> (w_pcs w)) + #[entering] (<[j := ELock u]> (w_pcs w)) - 1)
      by (rewrite !(total_insert _ _ _ _ _ Hj); simpl; lia).
    assert (Hi' : <[j := ELock u]> (w_pcs w) !! i = Some (WSignal t)) by by rewrite list_lookup_insert_ne.
    apply (go_safe _ i V' (WSignal t) (WCall t)); try done. simpl. intros N. unfold in_ring in *; simpl in *. tally_with T'.
Qed.

Lemma signal_work w i c : pool_inv w -> w_pcs w !! i = Some ESignal -> safe (signal on_not_empty i (CIdle (Some ZENIT_OK)) c w).
Proof.
  intros V Hi. destruct c as [|j|]; simpl; [| |done].
  - destruct (existsb _ _) eqn:E; [done|]. sleepers E. simpl. eapply go_safe; [done|exact Hi|done..|]. intros N.
    assert (T : 0 < in_ring w -> 0 < #[awake] (w_pcs w)).
    { intros D. destruct (started w i V _ Hi) as (_ & S & P); [done..|]. pose proof (places (w_pcs w)) as Tp.
      change on_not_empty with wsleep in E. destruct N as [_ _ _ _ _ _ _ _ Nw _ Nx _ _ _]. lia. }
    tally_with T.
  - destruct (w_pcs w !! j) as [p|] eqn:Hj; [|done]. destruct (on_not_empty p) eqn:Hp; [|done]. simpl.
    assert (Dij : i <> j) by (intros <-; simplify_eq/=).
    pose proof (wakes w j V p Hj ltac:(by rewrite Hp)) as V'. destruct p; try done. simpl in *.
    assert (Hj' : <[j := WLock]> (w_pcs w) !! j = Some WLock) by (apply list_lookup_insert_eq; by eapply lookup_lt_Some).
    pose proof (count_ge awake _ _ _ Hj') as T. simpl in T.
    assert (Hi' : <[j := WLock]> (w_pcs w) !! i = Some ESignal) by by rewrite list_lookup_insert_ne.
    apply (go_safe _ i V' ESignal (CIdle (Some ZENIT_OK))); try done. simpl. intros N. tally_with T.
Qed.

(** ** Callers *)

Section Callers.
Context (w : world) (i : nat) (V : pool_inv w).
Local Notation pcs := (w_pcs w).

Lemma crowded : in_ring w = POOL_QUEUE_CAPACITY <-> full (w_pool w) = true.
Proof using V. by rewrite (ring_full _ _ _ (v_ring _ V)), bool_decide_eq_true. Qed.

(** Nobody stops the pool while another call is under way. *)
Lemma calls_run p : pcs !! i = Some p -> busy p = true -> owner p = false -> tp_running (w_pool w) = true.
Proof using V.
  intros Hi Hb Ho. destruct (started w i V p Hi Hb Ho) as (O & _). destruct (tp_running (w_pool w)) eqn:E; [done|exfalso].
  destruct (v_numbers _ V) as [_ _ _ _ _ Nf Nr _ _ _ _ _ _ _]. rewrite E in *. simpl in *. pose proof (places pcs).
  pose proof (count_ge busy _ _ _ Hi) as G. rewrite Hb in G. simpl in G. lia.
Qed.

Lemma enqueue_waits t : pcs !! i = Some (ETest t) -> full (w_pool w) = true -> pool_inv (set_pc i (EWait t) w).
Proof using V.
  intros Hi Hf%crowded. pose proof (calls_run _ Hi eq_refl eq_refl) as Hr. eapply go_safe; [done|exact Hi|done..|].
  rewrite Hf, Hr. simpl. intros N. tally.
Qed.

Lemma enqueue_sleeps t : pcs !! i = Some (EWait t) -> safe (unlock i (ESleep t) w).
Proof using V.
  intros Hi. pose proof (count_ge ewait _ _ _ Hi) as G. simpl in G.
  destruct (n_ewait _ _ _ _ _ _ _ _ (v_numbers _ V) ltac:(lia)) as [_ Hd]. eapply unlock_safe; [done|exact Hi|done..|].
  rewrite Hd. simpl. intros N. tally.
Qed.

Lemma enqueue_puts t :
  pcs !! i = Some (ETest t) -> full (w_pool w) = false ->
  safe (let! q := put_task t (w_pool w) in
        unlock i ESignal (mk_world q (w_mutex w) (w_freed w) pcs (w_put w ++ [t]) (w_taken w) (w_ran w))).
Proof using V.
  intros Hi Hf. pose proof (v_ring _ V) as R. rewrite (ring_full _ _ _ R), bool_decide_eq_false in Hf.
  pose proof (r_size _ _ _ R). pose proof (calls_run _ Hi eq_refl eq_refl) as Hrun.
  destruct (ring_put _ _ _ R t) as (p' & -> & R' & Hc & Hr & Ht & Ha); [lia|]. simpl.
  eapply inv_pool; [done|exact Hi|done|done|done|done|done| |done|done|].
  - rewrite (v_flight _ V). by rewrite (flight_same _ _ _ _ Hi).
  - rewrite Ha, Hr, Hrun. replace (zlen (w_put w ++ [t]) - zlen (w_taken w)) with (in_ring w + 1)
      by (unfold in_ring; rewrite zlen_app, zlen_cons, zlen_nil; lia).
    simpl. intros N. tally.
Qed.

Lemma wait_turns p : pcs !! i = Some p ->
  (p = TTest -> forall q, q = TYield \/ q = CIdle None -> safe (unlock i q w)) /\ (p = TYield -> pool_inv (set_pc i TLock w)).
Proof using V.
  intros Hi. split.
  - intros -> q [-> | ->]; (eapply unlock_safe; [done|exact Hi|done..|]); simpl; intros N; tally.
  - intros ->. eapply go_safe; [done|exact Hi|done..|]. intros N. tally.
Qed.

Lemma invoke_safe r f :
  pcs !! i = Some (CIdle r) -> legal (Invoke i f) w = true -> pool_inv (set_pc i (invoke f) w).
Proof using V.
  intros Hi Hl. eapply go_safe; [done|exact Hi|try by destruct f; simpl; try case_decide..|]. intros N.
  assert (Hf : w_freed w = false) by (destruct f; simpl in Hl; apply andb_prop in Hl as [Hl _]; by apply negb_true_iff in Hl).
  rewrite Hf in *. destruct f; simpl in *; rewrite Hf in Hl; apply negb_true_iff in Hl; sleepers Hl; [case_decide| |]; tally_with Hl.
Qed.
End Callers.

(** ** Creation and destruction *)

Definition roused (p : pc) : pc := if on_not_empty p then wake p else p.

Lemma roused_places l :
  let l' := roused <$> l in
  #[worker] l' = #[worker] l /\ #[awake] l' = #[awake] l + #[wsleep] l /\ #[in_task] l' = #[in_task] l /\ #[wsleep] l' = 0 /\
  #[wwait] l' = #[wwait] l /\ #[wexit] l' = #[wexit] l /\ #[wsignal] l' = #[wsignal] l /\ #[holds] l' = #[holds] l /\
  #[entering] l' = #[entering] l /\ #[ewait] l' = #[ewait] l /\ #[esleep] l' = #[esleep] l /\ #[esignal] l' = #[esignal] l /\
  #[creating] l' = #[creating] l /\ #[failing] l' = #[failing] l /\ #[announced] l' = #[announced] l /\
  #[broadcasting] l' = #[broadcasting] l /\ #[owner] l' = #[owner] l /\ #[busy] l' = #[busy] l /\ flight l' = flight l.
Proof.
  induction l as [|p l IH]; [done|]. csimpl in *. destruct_and! IH. destruct p; csimpl; unfold flight in *; csimpl; split_and!; try lia; congruence.
Qed.

Lemma roused_lookup (l : list pc) (i : nat) p : (roused <$> l) !! i = Some p <-> exists q, l !! i = Some q /\ p = roused q.
Proof. rewrite list_lookup_fmap, fmap_Some. done. Qed.

(** The broadcast on [cv_not_empty]. *)
Lemma rouse_safe w :
  pool_inv w -> pool_inv (mk_world (w_pool w) (w_mutex w) (w_freed w) (roused <$> w_pcs w) (w_put w) (w_taken w) (w_ran w)).
Proof.
  intros [R F N [M T S J]]. pose proof (roused_places (w_pcs w)) as P. simpl in P. destruct_and! P. constructor; simpl; [done|congruence| |].
  - unfold in_ring in *; simpl. pose proof (count_nonneg wsleep (w_pcs w)) as W. destruct N as [Nc Na Nh Nl No Nf Nr Nd Nw Ne Nx Nk Ns Nm].
    constructor; repeat match goal with E : _ = _ |- _ => rewrite !E end; try done; [clear - Nk W; lia|by left].
  - constructor.
    + intros i E. destruct (M i E) as (p & Hi & Hp). exists p. rewrite roused_lookup. split; [|done]. exists p. by destruct p.
    + intros j. rewrite T. setoid_rewrite roused_lookup. split.
      * intros (p & ? & Hp). exists (roused p). split; [by eauto|]. by destruct p.
      * intros (q & (p & ? & ->) & Hq). exists p. split; [done|]. by destruct p.
    + intros i k (q & Hi & E)%roused_lookup. destruct q; cbv in E; simplify_eq; by eapply S.
    + intros i k n j (q & Hi & E)%roused_lookup Hn Ht. apply roused_lookup. exists WExit. split; [|done].
      destruct q; cbv in E; simplify_eq; by eapply J.
Qed.

Section Lifetime.
Context (w : world) (i : nat) (V : pool_inv w).
Local Notation pcs := (w_pcs w).

Lemma destroy_stops : pcs !! i = Some DStop -> safe (unlock i DBroadcast (set_pool (stop (w_pool w)) w)).
Proof using V.
  intros Hi. simpl. pose proof (v_ring _ V) as R. eapply inv_pool; [done|exact Hi|done|done|done|done| | |done|done|].
  - by destruct R.
  - rewrite (v_flight _ V). by rewrite (flight_same _ _ _ _ Hi).
  - simpl. change (zlen (w_put w) - zlen (w_taken w)) with (in_ring w). intros N. tally.
Qed.

Lemma destroy_rouses : pcs !! i = Some DBroadcast -> safe (broadcast on_not_empty i (DJoin 0) w).
Proof using V.
  intros Hi. simpl. pose proof (rouse_safe w V) as V'. pose proof (roused_places pcs) as P. simpl in P. destruct P as (_ & _ & _ & T & _).
  assert (Hi' : (roused <$> pcs) !! i = Some DBroadcast) by (apply roused_lookup; by exists DBroadcast).
  apply (go_safe _ i V' DBroadcast); try done; [intros ? ? ?; lia|]. simpl. intros N. tally_with T.
Qed.

Lemma destroy_joins k j :
  pcs !! i = Some (DJoin k) -> tp_threads (w_pool w) !! k = Some j -> pcs !! j = Some WExit -> pool_inv (set_pc i (DJoin (S k)) w).
Proof using V.
  intros Hi Hk Hj. eapply go_safe; [done|exact Hi|done..| |intros N; tally].
  intros n t Hn Ht. destruct (decide (n = k)) as [->|]; [by simplify_eq|].
  eapply (x_join _ _ _ (v_index _ V)); [exact Hi| |done]. lia.
Qed.

(** Who destroys the pool finds all its threads started, and is alone. *)
Lemma destroyer k : pcs !! i = Some (DJoin k) ->
  zlen (tp_threads (w_pool w)) = tp_thread_count (w_pool w) /\ tp_running (w_pool w) = false /\ #[busy] pcs = 1.
Proof using V.
  intros Hi. destruct (v_numbers _ V) as [Nc _ _ _ No _ _ Nd _ _ _ _ _ _]. pose proof (places pcs) as Tp.
  pose proof (places (<[i := CIdle None]> pcs)) as Tq. rewrite !(total_insert _ _ i _ _ Hi) in Tq. simpl in Tq.
  pose proof (count_ge announced _ _ _ Hi) as G. simpl in G. split; [lia|]. split; [|lia].
  destruct (tp_running (w_pool w)); [simpl in *; lia|done].
Qed.

Lemma all_joined k : pcs !! i = Some (DJoin k) -> tp_thread_count (w_pool w) <= Z.of_nat k -> #[worker] pcs = #[wexit] pcs.
Proof using V.
  intros Hi Hk. destruct (destroyer k Hi) as (Hn & _). apply Z.le_antisymm; apply total_le; intros j p Hj; [|by destruct p].
  destruct (worker p) eqn:Hp; [|by destruct (wexit p)].
  destruct (x_threads _ _ _ (v_index _ V) j) as [_ M]. destruct (list_elem_of_lookup_1 _ _ (M ltac:(eauto))) as [n Hn'].
  rewrite (x_join _ _ _ (v_index _ V) i k n j Hi) in Hj; [by simplify_eq| |done].
  apply lookup_lt_Some in Hn'. unfold zlen in Hn. lia.
Qed.

Lemma destroy_frees k :
  pcs !! i = Some (DJoin k) -> tp_thread_count (w_pool w) <= Z.of_nat k -> safe (free_pool i w).
Proof using V.
  intros Hi Hk. pose proof (all_joined k Hi Hk) as T. destruct (destroyer k Hi) as (_ & Hr & T2).
  simpl. pose proof V as [R F N X]. constructor; simpl; [done| | |].
  - by rewrite (flight_same _ _ _ _ Hi).
  - unfold in_ring in *; simpl. rewrite Hr in *. simpl in *. assert (T' := conj T T2). tally_with T'.
  - eapply index_move; [done..|]. naive_solver.
Qed.
Lemma index_spawn m threads l k :
  index_ok m threads l -> #[creating] l = 1 -> #[owner] l = 1 -> l !! i = Some (Spawn k) ->
  index_ok m (threads ++ [length l]) (<[i := Spawn (S k)]> l ++ [WLock]).
Proof.
  intros [M T Sp J] Hc Ho Hi. assert (Hl : (i < length l)%nat) by by eapply lookup_lt_Some.
  assert (L : forall j p, (<[i := Spawn (S k)]> l ++ [WLock]) !! j = Some p <->
    j = i /\ p = Spawn (S k) \/ j <> i /\ l !! j = Some p \/ j = length l /\ p = WLock).
  { intros j p. rewrite lookup_snoc_Some, length_insert, list_lookup_insert_Some. split.
    - intros [[? [(<- & <- & _)|[? ?]]]|[-> <-]]; [tauto|right; left; split; [congruence|done]|tauto].
    - intros [[-> ->]|[[? Hj]|[-> ->]]]; [by left; split; [|left]| |by right].
      left. split; [by eapply lookup_lt_Some|right; split; [congruence|done]]. }
  constructor.
  - intros j E. destruct (M j E) as (p & Hj & Hp). exists p. split; [|done]. apply L. right; left. split; [|done].
    intros ->. by simplify_eq.
  - intros j. rewrite elem_of_app, list_elem_of_singleton, T. setoid_rewrite L. split.
    + intros [(p & Hj & Hp)| ->]; [|by exists WLock; auto]. exists p. split; [|done]. right; left. split; [|done].
      intros ->. by simplify_eq.
    + intros (p & [[-> ->]|[[? Hj]|[-> ->]]] & Hp); [done|left; by exists p|by right].
  - intros j n [[-> [= ->]]|[[D Hj]|[_ ?]]]%L; [|exfalso; apply D|done].
    + rewrite length_app. simpl. rewrite (Sp _ _ Hi). lia.
    + symmetry. eapply (count_one creating); [|done..]. lia.
  - intros j n m' t [[_ ?]|[[D Hj]|[_ ?]]]%L Hm Ht; [done|exfalso|done]. apply D.
    eapply (count_one owner); [|done..]. lia.
Qed.

Lemma spawner k : pcs !! i = Some (Spawn k) -> #[creating] pcs = 1 /\ #[owner] pcs = 1.
Proof using V.
  intros Hi. destruct (v_numbers _ V) as [_ _ _ _ No _ _ _ _ _ _ _ _ _]. pose proof (places pcs) as Tp.
  pose proof (count_ge creating _ _ _ Hi) as G. simpl in G. lia.
Qed.

Lemma spawn_starts k :
  pcs !! i = Some (Spawn k) -> Z.of_nat k < tp_thread_count (w_pool w) ->
  pool_inv (mk_world (add_thread (length pcs) (w_pool w)) (w_mutex w) (w_freed w) (<[i := Spawn (S k)]> pcs ++ [WLock])
              (w_put w) (w_taken w) (w_ran w)).
Proof using V.
  intros Hi Hk. pose proof V as [R F N X]. destruct (spawner k Hi) as [Hc Ho]. pose proof (x_spawn _ _ _ X i k Hi) as Hn.
  constructor; simpl; [by destruct R| | |by apply index_spawn].
  - unfold flight. rewrite bind_app, app_nil_r. change (w_taken w ≡ₚ w_ran w ++ flight (<[i := Spawn (S k)]> pcs)).
    by rewrite (flight_same _ _ _ _ Hi).
  - unfold in_ring in *; simpl in *. assert (T : zlen (tp_threads (w_pool w)) < tp_thread_count (w_pool w)) by (unfold zlen; lia).
    rewrite zlen_app. change (zlen [length pcs]) with 1. tally_with T.
Qed.

Lemma spawn_ends k :
  pcs !! i = Some (Spawn k) -> ~ Z.of_nat k < tp_thread_count (w_pool w) -> pool_inv (set_pc i (CIdle None) w).
Proof using V.
  intros Hi Hk. pose proof (x_spawn _ _ _ (v_index _ V) i k Hi) as Hn.
  assert (T : tp_thread_count (w_pool w) <= zlen (tp_threads (w_pool w))) by (unfold zlen; lia).
  eapply go_safe; [done|exact Hi|done..|]. intros N. tally_with T.
Qed.
End Lifetime.

(** ** Turns and runs *)

Section Turn.
Context (w : world) (i : nat) (V : pool_inv w).

Lemma worker_safe p c : w_pcs w !! i = Some p -> safe (worker_turn i p c w).
Proof using V.
  intros Hi. destruct p; try done; simpl.
  - by apply (lock_turn w i V WLock).
  - destruct (empty _ && tp_running _) eqn:E; [by apply test_waits|].
    destruct (negb _ && empty _) eqn:E'; [by apply test_exits|]. apply test_takes; [done..|].
    by destruct (empty (w_pool w)), (tp_running (w_pool w)).
  - by apply wait_sleeps.
  - by apply signal_room.
  - by apply call_returns.
  - by apply (lock_turn w i V WRelock).
  - by apply done_finishes.
Qed.

Lemma enqueue_safe p c : w_pcs w !! i = Some p -> safe (enqueue_turn i p c w).
Proof using V.
  intros Hi. destruct p; try done; simpl.
  - by apply (lock_turn w i V (ELock t)).
  - rewrite (calls_run w i V _ Hi eq_refl eq_refl). rewrite andb_true_r. destruct (full _) eqn:E; [by apply enqueue_waits|].
    by apply enqueue_puts.
  - by apply enqueue_sleeps.
  - by apply signal_work.
Qed.

Lemma waiter_safe p : w_pcs w !! i = Some p -> safe (wait_turn i p w).
Proof using V.
  intros Hi. destruct p; try done; simpl.
  - by apply (lock_turn w i V TLock).
  - destruct (_ || _); (apply (wait_turns w i V _ Hi); [done|]); [by left|by right].
  - by apply (wait_turns w i V _ Hi).
Qed.

Lemma destroy_safe p : w_pcs w !! i = Some p -> safe (destroy_turn i p w).
Proof using V.
  intros Hi. destruct p; try done; simpl.
  - by apply (lock_turn w i V DLock).
  - by apply destroy_stops.
  - by apply destroy_rouses.
  - case_decide as D; [|eapply destroy_frees; [done|exact Hi|lia]]. unfold join.
    destruct (tp_threads (w_pool w) !! k) as [j|] eqn:Hk.
    + simpl. destruct (w_pcs w !! j) as [q|] eqn:Hj; [|done]. destruct q; try done. by eapply destroy_joins.
    + apply lookup_ge_None in Hk. destruct (destroyer w i V k Hi) as [E _]. unfold zlen in E. lia.
Qed.

Lemma create_safe p c : c <> Fails -> w_pcs w !! i = Some p -> failing p = false -> safe (create_turn i p c w).
Proof using V.
  intros Hc Hi Hp. destruct p; try done; simpl. case_decide as D; [|by eapply spawn_ends].
  destruct c; try done. rewrite decide_True; [by apply spawn_starts|].
  rewrite (r_threads _ _ _ (v_ring _ V)). unfold SIZEOF_PTHREAD. lia.
Qed.

(** A freed pool is not touched. *)
Lemma untouched p : w_pcs w !! i = Some p -> touches p && w_freed w = false.
Proof using V.
  intros Hi. destruct (w_freed w) eqn:E; [|apply andb_false_r]. rewrite andb_true_r.
  pose proof (n_freed _ _ _ _ _ _ _ _ (v_numbers _ V)) as Nf. rewrite E in Nf. destruct (Nf eq_refl) as (B & _ & W).
  pose proof (count_none busy _ B _ _ Hi) as Hb. pose proof (places (w_pcs w)) as P.
  assert (A : #[awake] (w_pcs w) = 0) by (pose proof (count_nonneg awake (w_pcs w)); lia).
  assert (A' : #[wwait] (w_pcs w) = 0) by lia.
  pose proof (count_none awake _ A _ _ Hi). pose proof (count_none wwait _ A' _ _ Hi). by destruct p.
Qed.

Lemma turn_safe p c : c <> Fails -> w_pcs w !! i = Some p -> safe (turn i p c w).
Proof using V.
  intros Hc Hi. unfold turn. rewrite (untouched p Hi).
  pose proof (count_none failing _ (n_failing _ _ _ _ _ _ _ _ (v_numbers _ V)) _ _ Hi) as Hf.
  destruct p; first [done | by apply worker_safe | by apply enqueue_safe | by apply waiter_safe | by apply destroy_safe | by apply create_safe].
Qed.
End Turn.

Lemma exec_safe w x : pool_inv w -> legal x w = true -> safe (exec x w).
Proof.
  intros V Hl. destruct x as [i c|i|i f]; simpl.
  - destruct (w_pcs w !! i) eqn:Hi; [|done]. apply turn_safe; [done| |done]. by intros ->.
  - destruct (w_pcs w !! i) eqn:Hi; [|done]. destruct (_ || _) eqn:E; [|done]. by apply wakes.
  - destruct (w_pcs w !! i) as [p|] eqn:Hi; [|done]. destruct p; try done. by eapply invoke_safe.
Qed.

(** More threads than this, and the size of their block wraps around. *)
Definition MAX_THREADS : Z := 2305843009213693952.

Lemma init_inv n queue clients : 0 < n < MAX_THREADS -> zlen queue = POOL_QUEUE_CAPACITY -> pool_inv (world_init n queue clients).
Proof.
  unfold MAX_THREADS. intros Hn Hq. constructor; simpl.
  - constructor; try done. simpl. unfold SIZEOF_PTHREAD. rewrite u64_small by lia. lia.
  - unfold flight. simpl. by induction clients.
  - change (in_ring _) with 0. change (zlen []) with 0. constructor; simpl; rewrite ?total_replicate; simpl; unfold POOL_QUEUE_CAPACITY; lia.
  - constructor; simpl; [done| | |].
    + intros j. split; [by intros ?%not_elem_of_nil|]. by intros (p & [[-> <-]|[? [-> _]%lookup_replicate]]%lookup_cons_Some & ?).
    + by intros i k [[-> [= <-]]|[? [? _]%lookup_replicate]]%lookup_cons_Some.
    + by intros i k m j [[-> ?]|[? [? _]%lookup_replicate]]%lookup_cons_Some.
Qed.

Lemma reach_inv w w' : pool_inv w -> rtc step w w' -> pool_inv w'.
Proof.
  intros V H. induction H as [|w w1 w2 (x & Hl & He) _ IH]; [done|]. apply IH.
  pose proof (exec_safe w x V Hl) as S. by rewrite He in S.
Qed.
