(* ===== verification/ThreadPoolLive.v ===== *)
(** * What the thread pool promises

    Under every interleaving of documented use: no call is undefined, tasks leave the
    queue in the order they entered it, each is run once, waiting and destroying end
    only when all tasks have run, and from every state the threads can go on until
    every call has returned and every task has run. *)

From Stdlib Require Import ZArith Lia.
From stdpp Require Import base tactics option list numbers sets relations.
From S2P Require Import Prelude Mem Result Allocator ThreadPool ThreadPoolInv.
Open Scope Z_scope.

(** ** Work left *)

(** How many turns a thread can make before it sleeps, ends or returns, with those it
    gives to others; [n] is the number of workers. *)
Definition weight (n : Z) (p : pc) : Z :=
  match p with
  | WSleep | WExit | CIdle _ => 0
  | WWait => 1 | WTest => 2 | WLock => 3 | WDone => 4 | WRelock => 5 | WCall _ => 6 | WSignal _ => 10
  | ESignal => 4 | ESleep _ => 12 | EWait _ => 13 | ETest _ => 14 | ELock _ => 15
  | TYield => 1 | TTest => 2 | TLock => 3
  | DLock => 4 * n + 4 | DStop => 4 * n + 3 | DBroadcast => 4 * n + 2 | DJoin k => Z.max 0 (n - Z.of_nat k) + 1
  | Spawn k => 4 * Z.max 0 (n - Z.of_nat k) + 1
  | FStop _ | FBroadcast _ | FJoin _ _ => 0
  end.

Definition work (w : world) : Z := 9 * in_ring w + total (weight (tp_thread_count (w_pool w))) (w_pcs w).

Lemma weight_nonneg n p : 0 <= n -> 0 <= weight n p.
Proof. destruct p; simpl; lia. Qed.

Lemma in_ring_nonneg w : pool_inv w -> 0 <= in_ring w <= POOL_QUEUE_CAPACITY.
Proof. intros V. pose proof (ring_le _ _ _ (v_ring _ V)). pose proof (r_size _ _ _ (v_ring _ V)). unfold in_ring. lia. Qed.

Lemma work_nonneg w : pool_inv w -> 0 <= work w.
Proof.
  intros V. pose proof (in_ring_nonneg w V). unfold work. destruct (v_numbers _ V) as [Nc _ _ _ _ _ _ _ _ _ _ _ _ _].
  pose proof (total_nonneg (weight (tp_thread_count (w_pool w))) (w_pcs w) ) as T.
  enough (forall p, 0 <= weight (tp_thread_count (w_pool w)) p) by (specialize (T ltac:(done)); lia).
  intros p. apply weight_nonneg. lia.
Qed.

(** Threads whose turn brings the work forward; those that need the mutex for it. *)
Definition eager (p : pc) : bool :=
  match p with
  | WLock | WTest | WWait | WSignal _ | WCall _ | WRelock | WDone | ELock _ | ETest _ | EWait _ | ESignal | TTest
  | DLock | DStop | DBroadcast | Spawn _ => true
  | _ => false
  end.
Definition locking (p : pc) : bool := match p with WLock | WRelock | ELock _ | DLock => true | _ => false end.

(** A turn that lessens the work. *)
Definition advances (i : nat) (w : world) : Prop :=
  exists c w', c <> Fails /\ exec (Turn i c) w = Ret (Some w') /\ work w' < work w.

Section Progress.
Context (w : world) (V : pool_inv w).
Local Notation pcs := (w_pcs w).
Local Notation n := (tp_thread_count (w_pool w)).

Lemma exec_turn i p c : pcs !! i = Some p -> exec (Turn i c) w =
    match p with
    | WLock | WTest | WWait | WSignal _ | WCall _ | WRelock | WDone => worker_turn i p c w
    | ELock _ | ETest _ | EWait _ | ESignal => enqueue_turn i p c w
    | TLock | TTest | TYield => wait_turn i p w
    | DLock | DStop | DBroadcast | DJoin _ => destroy_turn i p w
    | Spawn _ | FStop _ | FBroadcast _ | FJoin _ _ => create_turn i p c w
    | WSleep | ESleep _ | WExit | CIdle _ => Ret None
    end.
Proof using V. intros Hi. simpl. rewrite Hi. unfold turn. by rewrite (untouched w i V p Hi). Qed.

(** A turn that moves one thread and leaves the ring as it is. *)
Lemma advance_by i p q c w' :
  pcs !! i = Some p -> c <> Fails -> exec (Turn i c) w = Ret (Some w') ->
  w_pcs w' = <[i := q]> pcs -> in_ring w' = in_ring w -> tp_thread_count (w_pool w') = n ->
  weight n q < weight n p -> advances i w.
Proof.
  intros Hi Hc E Hp Hr Hn Hw. exists c, w'. split; [done|]. split; [done|]. unfold work. rewrite Hr, Hn, Hp, (total_insert _ _ _ _ _ Hi). lia.
Qed.

(** A turn that signals. *)
Lemma signal_advances i p q u (on : pc -> bool) :
  pcs !! i = Some p -> on p = false -> (forall c, exec (Turn i c) w = signal on i q c w) ->
  (forall x, on x = true -> weight n (wake x) <= weight n x + u) -> 0 <= u -> weight n q + u < weight n p -> advances i w.
Proof.
  intros Hi Hon E Hu Hu0 Hw. destruct (existsb on pcs) eqn:X.
  - rewrite existsb_count, bool_decide_eq_true in X. apply count_find in X as (j & x & Hj & Hx).
    exists (Wakes j), (set_pc i q (set_pc j (wake x) w)). split; [done|]. rewrite E. unfold signal. rewrite Hj, Hx. split; [done|].
    unfold work; simpl. change (in_ring (set_pc i q (set_pc j (wake x) w))) with (in_ring w).
    assert (Hi' : <[j := wake x]> pcs !! i = Some p) by (rewrite list_lookup_insert_ne; [done|intros <-; congruence]).
    rewrite (total_insert _ _ _ _ _ Hi'), (total_insert _ _ _ _ _ Hj). specialize (Hu x Hx). lia.
  - eapply (advance_by i p q Plain); [done|done|rewrite E; unfold signal; by rewrite X|done..|lia].
Qed.

Lemma lock_advances i p q :
  pcs !! i = Some p -> w_mutex w = None -> (forall c, exec (Turn i c) w = lock i q w) -> weight n q < weight n p -> advances i w.
Proof. intros Hi Hm E Hw. eapply (advance_by i p q Plain); [done|done|rewrite E; unfold lock; by rewrite Hm|done..]. Qed.

Ltac apply_advance :=
  match goal with Hi : w_pcs _ !! _ = Some _, E : exec (Turn _ Plain) _ = _ |- _ => eapply (advance_by _ _ _ Plain _ Hi); [done|exact E|done..|simpl; lia] end.

Lemma test_advances i : pcs !! i = Some WTest -> advances i w.
Proof using V.
  intros Hi. pose proof (exec_turn i _ Plain Hi) as E. unfold worker_turn, enqueue_turn in E. pose proof (v_ring _ V) as R.
  destruct (empty (w_pool w) && tp_running (w_pool w)) eqn:B1; [apply_advance|].
  destruct (negb (tp_running (w_pool w)) && empty (w_pool w)) eqn:B2; [apply_advance|].
  assert (He : empty (w_pool w) = false) by by destruct (empty (w_pool w)), (tp_running (w_pool w)).
  rewrite (ring_empty _ _ _ R), bool_decide_eq_false in He. pose proof (ring_le _ _ _ R).
  destruct (ring_take _ _ _ R) as (t & p' & E' & _ & Hc & _); [lia|]. rewrite E' in E. simpl in E.
  exists Plain. eexists. split; [done|]. split; [exact E|]. unfold work, in_ring; simpl. rewrite Hc, (total_insert _ _ _ _ _ Hi).
  rewrite zlen_app, zlen_cons, zlen_nil. simpl. lia.
Qed.

Lemma enqueue_advances i t : pcs !! i = Some (ETest t) -> advances i w.
Proof using V.
  intros Hi. pose proof (exec_turn i _ Plain Hi) as E. unfold worker_turn, enqueue_turn in E. pose proof (v_ring _ V) as R.
  rewrite (calls_run w i V _ Hi eq_refl eq_refl), andb_true_r in E.
  destruct (full (w_pool w)) eqn:B1; [apply_advance|]. simpl in E.
  rewrite (ring_full _ _ _ R), bool_decide_eq_false in B1. pose proof (r_size _ _ _ R).
  destruct (ring_put _ _ _ R t) as (p' & E' & _ & Hc & _); [lia|]. rewrite E' in E. simpl in E.
  exists Plain. eexists. split; [done|]. split; [exact E|]. unfold work, in_ring; simpl. rewrite Hc, (total_insert _ _ _ _ _ Hi).
  rewrite zlen_app, zlen_cons, zlen_nil. simpl. lia.
Qed.

Lemma waiter_advances i : pcs !! i = Some TTest -> advances i w.
Proof using V.
  intros Hi. pose proof (exec_turn i _ Plain Hi) as E. unfold wait_turn in E. destruct (_ || _); apply_advance.
Qed.

Lemma broadcast_advances i : pcs !! i = Some DBroadcast -> advances i w.
Proof using V.
  intros Hi. exists Plain. eexists. split; [done|]. rewrite (exec_turn i _ Plain Hi). split; [done|].
  assert (Hi' : (roused <$> pcs) !! i = Some DBroadcast) by (apply roused_lookup; by exists DBroadcast).
  unfold work, in_ring; simpl. rewrite (total_insert _ _ i DBroadcast _ Hi'), total_fmap.
  assert (T : total (fun p => weight n (roused p)) pcs <= total (weight n) pcs + 3 * #[wsleep] pcs).
  { clear. induction pcs as [|p l IH]; simpl; [lia|]. destruct p; simpl in *; lia. }
  destruct (v_numbers _ V) as [Nc _ _ _ _ _ _ _ _ _ _ _ _ _]. pose proof (places pcs). pose proof (count_nonneg awake pcs). simpl. lia.
Qed.

Lemma spawn_advances i k : pcs !! i = Some (Spawn k) -> advances i w.
Proof using V.
  intros Hi. exists Plain. rewrite (exec_turn i _ Plain Hi). simpl. rewrite (r_threads _ _ _ (v_ring _ V)).
  case_decide as D; [rewrite decide_True by (unfold SIZEOF_PTHREAD; lia)|]; eexists; (split; [done|]); (split; [done|]);
    unfold work, in_ring; simpl; rewrite ?weigh_app, (total_insert _ _ _ _ _ Hi); simpl; lia.
Qed.

Lemma eager_advances i p : pcs !! i = Some p -> eager p = true -> (locking p = true -> w_mutex w = None) -> advances i w.
Proof using V.
  intros Hi He Hl. pose proof (fun c => exec_turn i p c Hi) as E. destruct p; try done.
  all: try (specialize (Hl eq_refl); eapply lock_advances; [done|done|exact E|simpl; lia]).
  all: try first [by eapply test_advances | by eapply enqueue_advances | by eapply waiter_advances | by eapply broadcast_advances | by eapply spawn_advances].
  - by eapply (advance_by i _ WSleep Plain _ Hi); [|exact (E Plain)|..].
  - by eapply (signal_advances i _ (WCall t) 3 on_not_full Hi); [|exact E|intros []; simpl; try done; lia|..].
  - by eapply (advance_by i _ WRelock Plain _ Hi); [|exact (E Plain)|..].
  - by eapply (advance_by i _ WLock Plain _ Hi); [|exact (E Plain)|..].
  - by eapply (advance_by i _ (ESleep t) Plain _ Hi); [|exact (E Plain)|..].
  - by eapply (signal_advances i _ (CIdle (Some ZENIT_OK)) 3 on_not_empty Hi); [|exact E|intros []; simpl; try done; lia|..].
  - eapply (advance_by i _ DBroadcast Plain _ Hi); [|exact (E Plain)|..]; try done. simpl; lia.
Qed.
End Progress.

(** ** Rest *)

(** Every thread is outside the pool, asleep for want of tasks, or has ended. *)
Definition outside (p : pc) : bool := match p with CIdle _ | WSleep | WExit => true | _ => false end.
Definition settled (w : world) : Prop := forall i p, w_pcs w !! i = Some p -> outside p = true.

(** Turns only: nobody calls the pool, nobody wakes without a signal. *)
Definition is_turn (x : action) : bool := match x with Turn _ Fails => false | Turn _ _ => true | _ => false end.

Lemma is_turn_legal x w : is_turn x = true -> legal x w = true.
Proof. by destruct x. Qed.

Lemma run_app xs ys w : run (xs ++ ys) w = let! r := run xs w in match r with Some w => run ys w | None => Ret None end.
Proof. revert w. induction xs as [|x xs IH]; intros w; simpl; [done|]. destruct (exec x w) as [[w'|]| |]; simpl; try done; apply IH. Qed.

Lemma run_inv xs w w' : pool_inv w -> forallb is_turn xs = true -> run xs w = Ret (Some w') -> pool_inv w'.
Proof.
  revert w. induction xs as [|x xs IH]; intros w V; simpl; [intros _; by intros [= <-]|].
  intros [Hx Hxs]%andb_prop. pose proof (exec_safe w x V (is_turn_legal x w Hx)) as S.
  destruct (exec x w) as [[w1|]| |]; simpl in *; try done. by apply IH.
Qed.

Lemma count_zero (f : pc -> bool) l : (forall i p, l !! i = Some p -> f p = false) -> #[f] l = 0.
Proof.
  intros H. pose proof (count_nonneg f l). destruct (decide (0 < #[f] l)) as [D|]; [|lia].
  apply count_find in D as (i & p & Hi & Hp). specialize (H i p Hi). congruence.
Qed.

Lemma flight_nil l : (forall i p, l !! i = Some p -> task_of p = []) -> flight l = [].
Proof.
  unfold flight. induction l as [|a l IH]; intros H; simpl; [done|]. rewrite (H 0%nat a eq_refl). apply IH. intros i. apply (H (S i)).
Qed.

Section Rest.
Context (w : world) (V : pool_inv w) (L : forall i p, w_pcs w !! i = Some p -> eager p = false).
Local Notation pcs := (w_pcs w).

Ltac lazy_count := apply count_zero; intros ? p Hp; apply L in Hp; by destruct p.

(** Without eager threads the queue is empty and nobody waits for room in it. *)
Lemma lazy_rest : in_ring w = 0 /\ tp_active (w_pool w) = 0 /\ #[esleep] pcs = 0 /\ w_mutex w = None /\ #[broadcasting] pcs = 0.
Proof using V L.
  assert (A : #[awake] pcs = 0) by lazy_count. assert (S : #[esignal] pcs = 0) by lazy_count.
  assert (I : #[in_task] pcs = 0) by lazy_count. assert (W : #[wsignal] pcs = 0) by lazy_count.
  assert (E : #[entering] pcs = 0) by lazy_count. assert (H : #[holds] pcs = 0) by lazy_count.
  assert (B : #[broadcasting] pcs = 0) by lazy_count.
  pose proof (in_ring_nonneg w V). pose proof (count_nonneg esleep pcs).
  destruct (v_numbers _ V) as [_ Na Nh _ _ _ _ _ _ _ _ Nk _ Nm]. unfold POOL_QUEUE_CAPACITY in *.
  assert (in_ring w = 0) by lia. split; [done|]. split; [lia|]. split; [lia|]. split; [|done].
  destruct (w_mutex w); simpl in Nh; [lia|done].
Qed.

Lemma joiner_advances i k : pcs !! i = Some (DJoin k) -> advances i w.
Proof using V L.
  intros Hi. pose proof (exec_turn w V i _ Plain Hi) as E. unfold destroy_turn in E. case_decide as D.
  - destruct (destroyer w i V k Hi) as (Hn & Hr & _). unfold join in E.
    destruct (tp_threads (w_pool w) !! k) as [j|] eqn:Hk; [|apply lookup_ge_None in Hk; unfold zlen in Hn; lia].
    destruct (proj1 (x_threads _ _ _ (v_index _ V) j)) as (p & Hj & Hp); [by eapply list_elem_of_lookup_2|].
    destruct lazy_rest as (_ & _ & _ & _ & B).
    assert (X : p = WExit).
    { destruct (n_asleep _ _ _ _ _ _ _ _ (v_numbers _ V)) as [S|S]; [by rewrite Hr| |lia].
      pose proof (count_none wsleep _ S _ _ Hj). pose proof (L _ _ Hj). by destruct p. }
    subst p. rewrite Hj in E. eapply (advance_by w i _ _ Plain _ Hi); [done|exact E|done..|]. simpl. lia.
  - eapply (advance_by w i _ _ Plain _ Hi); [done|exact E|done..|]. simpl. lia.
Qed.

(** A caller that waits for the tasks returns. *)
Lemma waiter_returns i p : pcs !! i = Some p -> p = TLock \/ p = TYield ->
  exists xs w', forallb is_turn xs = true /\ run xs w = Ret (Some w') /\ work w' < work w.
Proof using V L.
  intros Hi Hp. destruct lazy_rest as (Hd & Ha & _ & Hm & _).
  assert (Hl : (i < length pcs)%nat) by by eapply lookup_lt_Some.
  set (w1 := set_pc i TTest (set_mutex (Some i) w)). set (w2 := set_pc i (CIdle None) (set_mutex None w1)).
  assert (Hf : w_freed w = false).
  { destruct (w_freed w) eqn:E; [|done]. pose proof (n_freed _ _ _ _ _ _ _ _ (v_numbers _ V)) as Nf. rewrite E in Nf.
    destruct (Nf eq_refl) as (B & _). pose proof (count_none busy _ B _ _ Hi). by destruct Hp as [-> | ->]. }
  assert (He : empty (w_pool w) = true) by by apply drained.
  assert (R : forall l, l !! i = Some TLock -> l = pcs \/ l = <[i := TLock]> pcs ->
    run [Turn i Plain; Turn i Plain] (mk_world (w_pool w) (w_mutex w) (w_freed w) l (w_put w) (w_taken w) (w_ran w)) = Ret (Some w2)).
  { intros l Hil Hl'. simpl. rewrite Hil. unfold turn; simpl. rewrite Hf, Hm. simpl. rewrite list_lookup_insert_eq by by eapply lookup_lt_Some.
    simpl. rewrite He, Ha. simpl. unfold w2, w1, set_pc, set_mutex. simpl. do 3 f_equal; [done|].
    by destruct Hl' as [-> | ->]; rewrite ?list_insert_insert_eq. }
  assert (Hw : work w2 < work w).
  { unfold work; simpl. rewrite list_insert_insert_eq, (total_insert _ _ _ _ _ Hi). change (in_ring w2) with (in_ring w).
    destruct Hp as [-> | ->]; simpl; lia. }
  destruct Hp as [-> | ->].
  - exists [Turn i Plain; Turn i Plain], w2. split; [done|]. split; [|done]. rewrite <- (R pcs); [by destruct w|done|by left].
  - exists (Turn i Plain :: [Turn i Plain; Turn i Plain]), w2. split; [done|]. split; [|done].
    rewrite <- (R (<[i := TLock]> pcs)); [|by rewrite list_lookup_insert_eq|by right]. simpl. rewrite Hi. unfold turn; simpl. by rewrite list_lookup_insert_eq.
Qed.
End Rest.

(** Either everybody is at rest, or a few turns lessen the work. *)
Lemma progress w : pool_inv w ->
  settled w \/ exists xs w', forallb is_turn xs = true /\ run xs w = Ret (Some w') /\ work w' < work w.
Proof.
  intros V. assert (One : forall i, advances i w -> exists xs w', forallb is_turn xs = true /\ run xs w = Ret (Some w') /\ work w' < work w).
  { intros i (c & w' & Hc & E & Hw). exists [Turn i c], w'. split; [by destruct c|]. split; [|done]. change (run [Turn i c] w) with
      (let! r := exec (Turn i c) w in match r with Some w => run [] w | None => Ret None end). by rewrite E. }
  destruct (w_mutex w) as [i|] eqn:Hm.
  { destruct (x_mutex _ _ _ (v_index _ V) i Hm) as (p & Hi & Hp). right. apply (One i).
    eapply eager_advances; [done|exact Hi|by destruct p|by destruct p]. }
  destruct (decide (0 < #[eager] (w_pcs w))) as [D|D].
  { apply count_find in D as (i & p & Hi & Hp). right. apply (One i). by eapply eager_advances. }
  assert (L : forall i p, w_pcs w !! i = Some p -> eager p = false).
  { apply count_none. pose proof (count_nonneg eager (w_pcs w)). lia. }
  destruct (decide (0 < #[fun p => negb (outside p)] (w_pcs w))) as [O|O].
  - apply count_find in O as (i & p & Hi & Hp). right. pose proof (L i p Hi).
    destruct (lazy_rest w V L) as (_ & _ & E & _). pose proof (count_none _ _ E _ _ Hi).
    pose proof (count_none _ _ (n_failing _ _ _ _ _ _ _ _ (v_numbers _ V)) _ _ Hi).
    destruct p; try done; first [by eapply waiter_returns; [..|exact Hi|auto] | by eapply (One i), joiner_advances].
  - left. intros i p Hi. apply negb_false_iff. eapply (count_none (fun p => negb (outside p))); [|exact Hi].
    pose proof (count_nonneg (fun p => negb (outside p)) (w_pcs w)). lia.
Qed.

Lemma settles w : pool_inv w -> exists xs w', forallb is_turn xs = true /\ run xs w = Ret (Some w') /\ settled w'.
Proof.
  remember (Z.to_nat (work w)) as m eqn:Hm. assert (H : work w <= Z.of_nat m) by lia. clear Hm. revert w H.
  induction m as [m IH] using lt_wf_ind. intros w H V.
  destruct (progress w V) as [S|(xs & w' & Hxs & R & Hw)]; [by exists [], w|].
  pose proof (run_inv _ _ _ V Hxs R) as V'. pose proof (work_nonneg w' V').
  destruct (IH (Z.to_nat (work w')) ltac:(lia) w' ltac:(lia) V') as (ys & w2 & Hys & R' & S).
  exists (xs ++ ys), w2. split; [by rewrite forallb_app, Hxs, Hys|]. split; [|done]. rewrite run_app, R. done.
Qed.

Lemma settled_done w : pool_inv w -> settled w -> w_ran w ≡ₚ w_put w.
Proof.
  intros V S. assert (L : forall i p, w_pcs w !! i = Some p -> eager p = false) by (intros i p Hi; apply S in Hi; by destruct p).
  destruct (lazy_rest w V L) as (D & _). pose proof (v_flight _ V) as F.
  rewrite flight_nil, app_nil_r in F by (intros i p Hi; apply S in Hi; by destruct p).
  rewrite (ring_drained _ _ _ (v_ring _ V)) by (unfold in_ring in D; lia). done.
Qed.

(** ** Runs of documented use *)

Fixpoint legal_run (xs : list action) (w : world) : option world :=
  match xs with
  | [] => Some w
  | x :: xs => if legal x w then match exec x w with Ret (Some w) => legal_run xs w | _ => None end else None
  end.

Lemma legal_run_reach xs w w' : legal_run xs w = Some w' -> rtc step w w'.
Proof.
  revert w. induction xs as [|x xs IH]; intros w; simpl; [by intros [= ->]|].
  destruct (legal x w) eqn:L; [|done]. destruct (exec x w) as [[w1|]| |] eqn:E; try done. intros H. eapply rtc_l; [by exists x|by apply IH].
Qed.

Definition reachable (n : Z) (queue : list task_t) (clients : nat) (w : world) : Prop := rtc step (world_init n queue clients) w.

Section Reached.
Context (n : Z) (queue : list task_t) (clients : nat) (Hn : 0 < n < MAX_THREADS) (Hq : zlen queue = POOL_QUEUE_CAPACITY).

Lemma reachable_inv w : reachable n queue clients w -> pool_inv w.
Proof using Hn Hq. apply reach_inv. by apply init_inv. Qed.
End Reached.

(** C17. Safety of the thread pool under every interleaving of documented use: no action is
    undefined (no access outside the queue or the block of the threads, and none to the
    pool once it is freed); the tasks are taken in the order in which they were put;
    those taken are the ones that have run and those a worker is at, each once; and no
    two threads are inside the mutex. *)
Theorem pool_safe n queue clients w x :
  0 < n < MAX_THREADS -> zlen queue = POOL_QUEUE_CAPACITY -> reachable n queue clients w -> legal x w = true ->
  (exists r, exec x w = Ret r) /\ w_taken w `prefix_of` w_put w /\ w_taken w ≡ₚ w_ran w ++ flight (w_pcs w) /\
  (forall i j p q, w_pcs w !! i = Some p -> w_pcs w !! j = Some q -> holds p = true -> holds q = true -> i = j).
Proof.
  intros Hn Hq Hw Hx. pose proof (reachable_inv _ _ _ Hn Hq w Hw) as V. split; [|split; [|split]].
  - pose proof (exec_safe w x V Hx) as S. destruct (exec x w) as [r| |]; [by exists r|done..].
  - apply V.
  - apply V.
  - intros i j p q Hi Hj Hp Hq'. eapply (count_one holds); [|done..]. rewrite (n_holds _ _ _ _ _ _ _ _ (v_numbers _ V)).
    by destruct (w_mutex w); simpl.
Qed.

(** C18. When [zenit_thread_pool_wait] returns, every task put so far has run; and when
    [zenit_thread_pool_destroy] has freed the pool, every task ever put has run exactly
    once and every worker has ended. *)
Theorem pool_completes n queue clients w :
  0 < n < MAX_THREADS -> zlen queue = POOL_QUEUE_CAPACITY -> reachable n queue clients w ->
  (forall i c w', w_pcs w !! i = Some TTest -> exec (Turn i c) w = Ret (Some w') -> w_pcs w' !! i = Some (CIdle None) ->
     w_ran w' ≡ₚ w_put w' /\ w_put w' = w_put w) /\
  (w_freed w = true -> w_ran w ≡ₚ w_put w /\ forall i p, w_pcs w !! i = Some p -> worker p = true -> p = WExit).
Proof.
  intros Hn Hq Hw. pose proof (reachable_inv _ _ _ Hn Hq w Hw) as V. split.
  - intros i c w' Hi E Hi'. rewrite (exec_turn w V i _ c Hi) in E. unfold wait_turn in E.
    assert (Hl : (i < length (w_pcs w))%nat) by by eapply lookup_lt_Some.
    destruct (negb _ || _) eqn:B; injection E as <-; simpl in *; rewrite list_lookup_insert_eq in Hi' by done; [done|].
    apply orb_false_elim in B as [He%negb_false_iff Ha%bool_decide_eq_false]. apply (drained w V) in He. split; [|done].
    pose proof (v_flight _ V) as F. rewrite flight_nil, app_nil_r in F.
    + rewrite <- F, (ring_drained _ _ _ (v_ring _ V)); [done|]. unfold in_ring in He. lia.
    + intros j p Hj. pose proof (n_active _ _ _ _ _ _ _ _ (v_numbers _ V)) as A. pose proof (count_nonneg in_task (w_pcs w)).
      pose proof (count_none in_task (w_pcs w) ltac:(lia) _ _ Hj). by destruct p.
  - intros Hf. pose proof (n_freed _ _ _ _ _ _ _ _ (v_numbers _ V)) as Nf. rewrite Hf in Nf. destruct (Nf eq_refl) as (B & _ & W).
    pose proof (places (w_pcs w)) as P. pose proof (count_nonneg awake (w_pcs w)).
    assert (X : forall i p, w_pcs w !! i = Some p -> worker p = true -> p = WExit).
    { intros i p Hi Hp. pose proof (count_none awake (w_pcs w) ltac:(lia) _ _ Hi). pose proof (count_none wwait (w_pcs w) ltac:(lia) _ _ Hi).
      pose proof (count_none wsleep (w_pcs w) ltac:(lia) _ _ Hi). by destruct p. }
    split; [|exact X]. apply settled_done; [done|]. intros i p Hi. pose proof (count_none busy _ B _ _ Hi) as Hb.
    destruct (worker p) eqn:Hp; [by rewrite (X i p Hi Hp)|]. by destruct p.
Qed.

(** C19. Liveness of the thread pool: from every state that documented use can reach, the
    threads can go on by turns of their own until every call has returned, every worker
    sleeps for want of tasks or has ended, and every task put has run exactly once.  No
    wakeup is lost, on either condition, and no schedule leads to a deadlock. *)
Theorem pool_live n queue clients w :
  0 < n < MAX_THREADS -> zlen queue = POOL_QUEUE_CAPACITY -> reachable n queue clients w ->
  exists xs w', forallb is_turn xs = true /\ run xs w = Ret (Some w') /\
    (forall i p, w_pcs w' !! i = Some p -> outside p = true) /\ w_ran w' ≡ₚ w_put w'.
Proof.
  intros Hn Hq Hw. pose proof (reachable_inv _ _ _ Hn Hq w Hw) as V. destruct (settles w V) as (xs & w' & Hxs & R & S).
  exists xs, w'. split; [done|]. split; [done|]. split; [done|]. apply settled_done; [|done]. by eapply run_inv.
Qed.

(** C. When [pthread_create] fails, [zenit_thread_pool_create] clears [running] without
    the mutex: a worker that has just found it set goes to sleep after the broadcast, and
    the call waits for that worker for good.  With two threads asked for and the second
    failing, seven turns lead to a state in which no thread can make a turn. *)
Theorem create_failure_hangs queue : exists xs w,
  run xs (world_init 2 queue 0) = Ret (Some w) /\ w_pcs w !! 0%nat = Some (FJoin 0 1) /\ w_freed w = false /\
  forall i c, exec (Turn i c) w = Ret None.
Proof.
  exists [Turn 0 Plain; Turn 1 Plain; Turn 1 Plain; Turn 0 Fails; Turn 0 Plain; Turn 0 Plain; Turn 1 Plain].
  eexists. split; [reflexivity|]. split; [done|]. split; [done|]. by intros [|[|i]] c.
Qed.

(** Asked for [2 ^ 61] threads, the size of their block wraps around to 0 and the first
    thread's handle is written outside it. *)
Theorem create_size_wraps queue : run [Turn 0 Plain] (world_init MAX_THREADS queue 0) = Undef.
Proof. reflexivity. Qed.

(** [zenit_thread_pool_pending] counts the tasks in the queue, not those under way. *)
Theorem pending_counts_queue n queue clients w :
  0 < n < MAX_THREADS -> zlen queue = POOL_QUEUE_CAPACITY -> reachable n queue clients w ->
  zenit_thread_pool_pending (Some (w_pool w)) (Some (w_pool w)) = zlen (w_put w) - zlen (w_taken w).
Proof. intros Hn Hq Hw. simpl. apply ring_diff, (reachable_inv _ _ _ Hn Hq w Hw). Qed.

(** [zenit_thread_pool_enqueue] waits when the queue is full, and does not return an
    error. *)
Theorem enqueue_full_waits n queue clients w i t :
  0 < n < MAX_THREADS -> zlen queue = POOL_QUEUE_CAPACITY -> reachable n queue clients w ->
  w_pcs w !! i = Some (ETest t) -> full (w_pool w) = true -> exec (Turn i Plain) w = Ret (Some (set_pc i (EWait t) w)).
Proof.
  intros Hn Hq Hw Hi Hf. pose proof (reachable_inv _ _ _ Hn Hq w Hw) as V. rewrite (exec_turn w V i _ Plain Hi).
  unfold enqueue_turn. by rewrite Hf, (calls_run w i V _ Hi eq_refl eq_refl).
Qed.

(** ** A run *)

Definition blank_queue : list task_t := replicate (Z.to_nat POOL_QUEUE_CAPACITY) (mk_task 0 0).

(** One worker and two callers: the first creates the pool and puts a task; the worker
    takes it; the second caller waits for the tasks. *)
Definition example_actions : list action :=
  [Turn 0 Plain; Turn 0 Plain; Turn 2 Plain; Turn 2 Plain; Turn 2 Plain; Invoke 0 (CallEnqueue 7 8); Turn 0 Plain; Turn 0 Plain;
   Turn 0 (Wakes 2); Turn 2 Plain; Turn 2 Plain; Invoke 1 CallWait].
Definition example_world : world := default (world_init 1 blank_queue 1) (legal_run example_actions (world_init 1 blank_queue 1)).

Lemma example_reached : reachable 1 blank_queue 1 example_world.
Proof. apply (legal_run_reach example_actions). by vm_compute. Qed.

Lemma pool_safe_witness :
  (exists r, exec (Turn 2 Plain) example_world = Ret r) /\ w_taken example_world `prefix_of` w_put example_world /\
  w_taken example_world ≡ₚ w_ran example_world ++ flight (w_pcs example_world) /\
  (forall i j p q, w_pcs example_world !! i = Some p -> w_pcs example_world !! j = Some q -> holds p = true -> holds q = true -> i = j).
Proof. refine (pool_safe 1 blank_queue 1 example_world (Turn 2 Plain) _ _ example_reached _); [by unfold MAX_THREADS|by vm_compute|by vm_compute]. Defined.

(** The worker runs the task and comes back; the second caller then tests. *)
Definition finished_actions : list action :=
  example_actions ++ [Turn 2 Plain; Turn 2 Plain; Turn 2 Plain; Turn 2 Plain; Turn 1 Plain].
Definition finished_world : world := default (world_init 1 blank_queue 1) (legal_run finished_actions (world_init 1 blank_queue 1)).

Lemma finished_reached : reachable 1 blank_queue 1 finished_world.
Proof. apply (legal_run_reach finished_actions). by vm_compute. Qed.

Lemma pool_completes_witness :
  w_pcs finished_world !! 1%nat = Some TTest /\
  (forall i c w', w_pcs finished_world !! i = Some TTest -> exec (Turn i c) finished_world = Ret (Some w') ->
     w_pcs w' !! i = Some (CIdle None) -> w_ran w' ≡ₚ w_put w' /\ w_put w' = w_put finished_world) /\
  (w_freed finished_world = true -> w_ran finished_world ≡ₚ w_put finished_world /\
     forall i p, w_pcs finished_world !! i = Some p -> worker p = true -> p = WExit).
Proof.
  split; [by vm_compute|].
  refine (pool_completes 1 blank_queue 1 finished_world _ _ finished_reached); [by unfold MAX_THREADS|by vm_compute].
Defined.

Lemma pool_live_witness :
  w_pcs example_world = [CIdle (Some ZENIT_OK); TLock; WSignal (mk_task 7 8)] /\
  exists xs w', forallb is_turn xs = true /\ run xs example_world = Ret (Some w') /\
    (forall i p, w_pcs w' !! i = Some p -> outside p = true) /\ w_ran w' ≡ₚ w_put w'.
Proof.
  split; [by vm_compute|]. refine (pool_live 1 blank_queue 1 example_world _ _ example_reached); [by unfold MAX_THREADS|by vm_compute].
Defined.
