(* ===== verification/Arrays.v ===== *)
(** * Typed arrays

    An array of elements larger than a byte is the block the allocator sees with the
    elements beside it.  The elements that [realloc] adds, and those behind the old
    size it is told, are unspecified ([junk]). *)

From Stdlib Require Import ZArith Lia.
From stdpp Require Import base tactics option list numbers gmap sets.
From S2P Require Import Prelude Mem Result Allocator Links.
Open Scope Z_scope.

Record tarr (A : Type) : Type := TArr { ta_block : block; ta_data : list A }.
Arguments TArr {A}.
Arguments ta_block {A}.
Arguments ta_data {A}.

Section Access.
Context {A : Type}.
Implicit Types (p : option (tarr A)).

Definition tdata p : list A := match p with Some t => ta_data t | None => [] end.
Definition taddr p : option addr := (fun t => b_addr (ta_block t)) <$> p.

Definition tget p (i : Z) : outcome A := match p with Some t => aget (ta_data t) i | None => Undef end.
Definition tset p (i : Z) (v : A) : outcome (option (tarr A)) :=
  match p with
  | Some t => let! d := aset (ta_data t) i v in Ret (Some (TArr (ta_block t) d))
  | None => Undef
  end.

(** [memset] and [memmove] by elements. *)
Definition tfill p (off n : Z) (v : A) : outcome (option (tarr A)) :=
  match p with
  | Some t =>
      if decide (0 <= off /\ 0 <= n /\ off + n <= zlen (ta_data t)) then
        Ret (Some (TArr (ta_block t) (take (Z.to_nat off) (ta_data t) ++ replicate (Z.to_nat n) v ++
                                      drop (Z.to_nat (off + n)) (ta_data t))))
      else Undef
  | None => Undef
  end.

Definition tmove p (dst src n : Z) : outcome (option (tarr A)) :=
  match p with
  | Some t =>
      if decide (0 <= dst /\ 0 <= src /\ 0 <= n /\ dst + n <= zlen (ta_data t) /\ src + n <= zlen (ta_data t)) then
        Ret (Some (TArr (ta_block t) (take (Z.to_nat dst) (ta_data t) ++ take (Z.to_nat n) (drop (Z.to_nat src) (ta_data t)) ++
                                      drop (Z.to_nat (dst + n)) (ta_data t))))
      else Undef
  | None => Undef
  end.

Lemma tget_lookup p i x : p <> None -> 0 <= i -> tdata p !! Z.to_nat i = Some x -> tget p i = Ret x.
Proof. destruct p; [|done]. intros _ Hi E. by apply aget_lookup. Qed.

Lemma tget_range p i : p <> None -> 0 <= i < zlen (tdata p) -> exists x, tdata p !! Z.to_nat i = Some x /\ tget p i = Ret x.
Proof. destruct p as [t|]; [|done]. intros _ Hi. destruct (aget_range _ _ Hi) as (x & E & H). by exists x. Qed.

Lemma tset_range p i v : p <> None -> 0 <= i < zlen (tdata p) ->
  exists p', tset p i v = Ret p' /\ p' <> None /\ taddr p' = taddr p /\ tdata p' = <[Z.to_nat i := v]> (tdata p).
Proof. destruct p as [t|]; [|done]. intros _ Hi. simpl in *. rewrite aset_range by done. by eexists. Qed.
End Access.

(** ** Allocation *)

Section Alloc.
Context {C : Type} {A : Type}.
Implicit Types (a : zenit_allocator_t C) (c : C).

(** [zenit_allocator_alloc_zero] of [n] elements of [sz] bytes. *)
Definition talloc_zero a (n sz : Z) (zero : A) c : outcome (option (tarr A) * C) :=
  let! (b, c1) := zenit_allocator_alloc_zero a n sz c in
  Ret ((fun b => TArr b (replicate (Z.to_nat (zlen (b_data b) / sz)) zero)) <$> b, c1).

(** [zenit_allocator_realloc], with both sizes in bytes. *)
Definition trealloc a (p : option (tarr A)) (old_size new_size sz : Z) (junk : A) c : outcome (option (tarr A) * C) :=
  let! (b, c1) := zenit_allocator_realloc a (ta_block <$> p) old_size new_size c in
  let keep := take (Z.to_nat (Z.min old_size new_size / sz)) (tdata p) in
  Ret ((fun b => TArr b (keep ++ replicate (Z.to_nat (new_size / sz) - length keep) junk)) <$> b, c1).
End Alloc.

Section Contract.
Context {C : Type} (a : zenit_allocator_t C) {SP : AllocSpec a}.
Implicit Types (c : C).

(** [zenit_allocator_realloc] told a size below the block's: the bytes up to that size
    are kept. *)
Lemma realloc_prefix ptr old_size new_size c :
  pown ptr ⊆ live c -> 0 <= old_size <= zlen (pbytes ptr) -> 0 <= new_size ->
  exists r c', zenit_allocator_realloc a ptr old_size new_size c = Ret (r, c') /\
    match r with
    | None => live c' = live c
    | Some b => zlen (b_data b) = new_size /\ new_size <= PTRDIFF_MAX /\
        take (Z.to_nat (Z.min old_size new_size)) (b_data b) = take (Z.to_nat (Z.min old_size new_size)) (pbytes ptr) /\
        (b_addr b ∉ live c ∖ pown ptr) /\ live c' = {[ b_addr b ]} ∪ (live c ∖ pown ptr)
    end.
Proof.
  intros Hp Ho Hn. unfold zenit_allocator_realloc. destruct (realloc_fn a) as [f|] eqn:F.
  { destruct (f ptr new_size c) as [[b|] c'] eqn:E; eexists _, c'; (split; [done|]).
    - destruct (realloc_some _ _ _ _ _ _ F Hp E) as (L & M & T & N & Hl). split_and!; try done.
      apply (f_equal (take (Z.to_nat (Z.min old_size new_size)))) in T. rewrite !take_take in T.
      unfold zlen in *. replace (_ `min` length (pbytes ptr))%nat with (Z.to_nat (Z.min old_size new_size)) in T by lia.
      by replace (Z.to_nat (Z.min old_size new_size) `min` Z.to_nat new_size)%nat with (Z.to_nat (Z.min old_size new_size)) in T by lia.
    - by eapply realloc_none. }
  destruct (alloc_fn a new_size c) as [[b|] c1] eqn:E.
  2: { eexists None, c1. split; [done|]. by eapply alloc_none. }
  apply alloc_some in E as (L & M & Hb & Hl). destruct ptr as [p|]; simpl in *.
  2: { eexists (Some b), c1. split; [done|]. split_and!; [done|done| |set_solver|set_solver].
       unfold zlen in Ho. simpl in Ho. replace (Z.min old_size new_size) with 0 by lia. done. }
  set (k := if decide _ then _ else _).
  assert (k = Z.min old_size new_size) as -> by (unfold k; case_decide; lia).
  rewrite rd_Ret by lia. simpl. rewrite drop_0. unfold wr. rewrite decide_True by zl. simpl.
  assert (Hlen : length (take (Z.to_nat (Z.min old_size new_size)) (b_data p)) = Z.to_nat (Z.min old_size new_size))
    by (rewrite length_take; unfold zlen in *; lia).
  eexists (Some _), _. split; [done|]. simpl. split_and!; [|done| |set_solver|].
  - rewrite zlen_app, zlen_drop. unfold zlen in *. rewrite Hlen. lia.
  - rewrite <- Hlen at 1. by rewrite take_app_length.
  - rewrite free_some by set_solver. rewrite Hl. set_solver.
Qed.

Lemma talloc_zero_cases {A : Type} (n sz : Z) (zero : A) c c0 L : owns a c0 c L -> 0 < sz -> 0 <= n -> n * sz < two64 ->
  exists r c', talloc_zero a n sz zero c = Ret (r, c') /\ owns a c0 c' (opt_addr (taddr r) ++ L) /\
    match r with
    | None => True
    | Some t => ta_data t = replicate (Z.to_nat n) zero /\ zlen (b_data (ta_block t)) = n * sz /\ n * sz <= PTRDIFF_MAX
    end.
Proof.
  intros (ND & Dj & El) Hs Hn Hm. unfold talloc_zero.
  destruct (alloc_zero_cases a n sz c) as (r & c' & -> & H); [nia|]. cbn [obind]. eexists _, _. split; [done|].
  destruct r as [b|]; cbn [fmap option_fmap option_map taddr opt_addr app ta_data ta_block].
  - destruct H as (Ed & M & N & Hl). rewrite Ed. unfold zlen. rewrite length_replicate, Z2Nat.id by nia.
    rewrite Z.div_mul by lia. split; [|done]. rewrite El in N, Hl. split_and!; [constructor; set_solver|set_solver|].
    rewrite Hl. simpl. set_solver.
  - split; [|done]. split_and!; [done|done|by rewrite H].
Qed.

Lemma trealloc_cases {A : Type} (p : option (tarr A)) (k n sz : Z) (junk : A) c c0 L :
  owns a c0 c (opt_addr (taddr p) ++ L) -> 0 < sz -> 0 <= k <= n -> k <= zlen (tdata p) ->
  zlen (pbytes (ta_block <$> p)) = zlen (tdata p) * sz ->
  exists r c', trealloc a p (k * sz) (n * sz) sz junk c = Ret (r, c') /\
    match r with
    | None => owns a c0 c' (opt_addr (taddr p) ++ L)
    | Some t => owns a c0 c' (b_addr (ta_block t) :: L) /\ zlen (ta_data t) = n /\ zlen (b_data (ta_block t)) = n * sz /\
        n * sz <= PTRDIFF_MAX /\ take (Z.to_nat k) (ta_data t) = take (Z.to_nat k) (tdata p)
    end.
Proof.
  intros O Hs Hk Hl Hb. unfold trealloc. pose proof O as (ND & Dj & El).
  destruct (realloc_prefix (ta_block <$> p) (k * sz) (n * sz) c) as (r & c' & -> & H).
  { destruct p; cbn in *; [rewrite El; set_solver|set_solver]. }
  { nia. }
  { nia. }
  cbn [obind]. eexists _, _. split; [done|]. destruct r as [b|]; cbn [fmap option_fmap option_map].
  - destruct H as (Lb & M & _ & N & Hl'). cbn [ta_block ta_data].
    replace (Z.min (k * sz) (n * sz)) with (k * sz) by nia. rewrite !Z.div_mul by lia.
    assert (length (take (Z.to_nat k) (tdata p)) = Z.to_nat k) as Lt by (rewrite length_take; unfold zlen in *; lia).
    split_and!; [|rewrite zlen_app, zlen_replicate; unfold zlen; rewrite Lt; lia|done|done|].
    + destruct p as [t|]; cbn in *; [by eapply owns_realloc|]. split_and!; [constructor; [|done]|set_solver|].
      * rewrite El in N. set_solver.
      * rewrite Hl', El. set_solver.
    + rewrite take_app_le by lia. by rewrite take_ge by lia.
  - by eapply owns_same.
Qed.
End Contract.
