(* ===== verification/Graph.v ===== *)
(** * Graphs ([src/graph.c])

    Adjacency lists in arrays indexed by vertex, with removed slots reused.  The
    graph's own arrays come from its allocator; the traversals and
    [zenit_graph_get_neighbors] take theirs from the C heap.  An [int] is a [Z] in its
    range, [cast_int] the conversion of a [size_t] to it. *)

From Stdlib Require Import ZArith Lia.
From stdpp Require Import base tactics option list numbers gmap sets.
From S2P Require Import Prelude Mem Result Allocator Links Arrays Machine.
Open Scope Z_scope.

Definition INT_MAX : Z := 2147483647.
Definition cast_int (x : Z) : Z := let r := x mod two32 in if decide (r <= INT_MAX) then r else r - two32.

Definition SIZEOF_INT : Z := 4.
Definition SIZEOF_PTR : Z := 8.
Definition SIZEOF_SIZE : Z := 8.
Definition SIZEOF_GRAPH : Z := 96.

(** What the bytes of a [removed] flag are after [memset(..., 1, ...)]. *)
Definition REMOVED_INIT : Z := 16843009.

Record zenit_graph_t (C : Type) : Type := mk_graph {
  g_self : addr;
  g_adj : option (tarr (option (tarr Z)));
  g_counts : option (tarr Z);
  g_capacities : option (tarr Z);
  g_vertex_count : Z;
  g_vertex_capacity : Z;
  g_edge_count : Z;
  g_directed : bool;
  g_removed : option (tarr Z);
  g_allocator : zenit_allocator_t C }.
Arguments mk_graph {C}.
Arguments g_self {C}.
Arguments g_adj {C}.
Arguments g_counts {C}.
Arguments g_capacities {C}.
Arguments g_vertex_count {C}.
Arguments g_vertex_capacity {C}.
Arguments g_edge_count {C}.
Arguments g_directed {C}.
Arguments g_removed {C}.
Arguments g_allocator {C}.

Definition ZENIT_GRAPH_DEFAULT_CAP : Z := 8.

Definition grow_capacity (old : Z) : Z := if decide (old = 0) then ZENIT_GRAPH_DEFAULT_CAP else u64 (old + old / 2).

(** The [removed] flags from [i] on, [n] of them, set to 1. *)
Fixpoint mark_removed (n : nat) (i : Z) (removed : option (tarr Z)) : outcome (option (tarr Z)) :=
  match n with
  | O => Ret removed
  | S n => let! r := tset removed i 1 in mark_removed n (u64 (i + 1)) r
  end.

Section GraphModel.
Context {C : Type}.
Implicit Types (g : zenit_graph_t C) (c : C) (a : zenit_allocator_t C).

Definition set_adj (x : option (tarr (option (tarr Z)))) g : zenit_graph_t C :=
  mk_graph (g_self g) x (g_counts g) (g_capacities g) (g_vertex_count g) (g_vertex_capacity g) (g_edge_count g)
    (g_directed g) (g_removed g) (g_allocator g).
Definition set_counts (x : option (tarr Z)) g : zenit_graph_t C :=
  mk_graph (g_self g) (g_adj g) x (g_capacities g) (g_vertex_count g) (g_vertex_capacity g) (g_edge_count g)
    (g_directed g) (g_removed g) (g_allocator g).
Definition set_capacities (x : option (tarr Z)) g : zenit_graph_t C :=
  mk_graph (g_self g) (g_adj g) (g_counts g) x (g_vertex_count g) (g_vertex_capacity g) (g_edge_count g)
    (g_directed g) (g_removed g) (g_allocator g).
Definition set_vertex_count (x : Z) g : zenit_graph_t C :=
  mk_graph (g_self g) (g_adj g) (g_counts g) (g_capacities g) x (g_vertex_capacity g) (g_edge_count g)
    (g_directed g) (g_removed g) (g_allocator g).
Definition set_vertex_capacity (x : Z) g : zenit_graph_t C :=
  mk_graph (g_self g) (g_adj g) (g_counts g) (g_capacities g) (g_vertex_count g) x (g_edge_count g)
    (g_directed g) (g_removed g) (g_allocator g).
Definition set_edge_count (x : Z) g : zenit_graph_t C :=
  mk_graph (g_self g) (g_adj g) (g_counts g) (g_capacities g) (g_vertex_count g) (g_vertex_capacity g) x
    (g_directed g) (g_removed g) (g_allocator g).
Definition set_removed (x : option (tarr Z)) g : zenit_graph_t C :=
  mk_graph (g_self g) (g_adj g) (g_counts g) (g_capacities g) (g_vertex_count g) (g_vertex_capacity g) (g_edge_count g)
    (g_directed g) x (g_allocator g).

Definition grow_vertex_arrays g c : outcome (zenit_error_t * zenit_graph_t C * C) :=
  let old_cap := g_vertex_capacity g in
  let new_cap := grow_capacity old_cap in
  let a := g_allocator g in
  let! (p, c) := trealloc a (g_adj g) (u64 (old_cap * SIZEOF_PTR)) (u64 (new_cap * SIZEOF_PTR)) SIZEOF_PTR None c in
  match p with
  | None => Ret (ZENIT_ERROR_ALLOC, g, c)
  | Some _ =>
      let g := set_adj p g in
      let! (p, c) := trealloc a (g_counts g) (u64 (old_cap * SIZEOF_SIZE)) (u64 (new_cap * SIZEOF_SIZE)) SIZEOF_SIZE 0 c in
      match p with
      | None => Ret (ZENIT_ERROR_ALLOC, g, c)
      | Some _ =>
          let g := set_counts p g in
          let! (p, c) := trealloc a (g_capacities g) (u64 (old_cap * SIZEOF_SIZE)) (u64 (new_cap * SIZEOF_SIZE)) SIZEOF_SIZE 0 c in
          match p with
          | None => Ret (ZENIT_ERROR_ALLOC, g, c)
          | Some _ =>
              let g := set_capacities p g in
              let! (p, c) := trealloc a (g_removed g) (u64 (old_cap * SIZEOF_INT)) (u64 (new_cap * SIZEOF_INT)) SIZEOF_INT 0 c in
              match p with
              | None => Ret (ZENIT_ERROR_ALLOC, g, c)
              | Some _ =>
                  let g := set_removed p g in
                  let n := u64 (new_cap - old_cap) in
                  let! p := tfill (g_adj g) old_cap n None in
                  let! q := tfill (g_counts g) old_cap n 0 in
                  let! r := tfill (g_capacities g) old_cap n 0 in
                  let g := set_capacities r (set_counts q (set_adj p g)) in
                  let! s := mark_removed (Z.to_nat (new_cap - old_cap)) old_cap (g_removed g) in
                  Ret (ZENIT_OK, set_vertex_capacity new_cap (set_removed s g), c)
              end
          end
      end
  end.

Definition grow_adj_list g (vertex : Z) c : outcome (zenit_error_t * zenit_graph_t C * C) :=
  let! old_cap := tget (g_capacities g) vertex in
  let new_cap := grow_capacity old_cap in
  let a := g_allocator g in
  let! old_list := tget (g_adj g) vertex in
  let! (p, c) := trealloc a old_list (u64 (old_cap * SIZEOF_INT)) (u64 (new_cap * SIZEOF_INT)) SIZEOF_INT 0 c in
  match p with
  | None => Ret (ZENIT_ERROR_ALLOC, g, c)
  | Some _ =>
      let! adj := tset (g_adj g) vertex p in
      let! caps := tset (g_capacities g) vertex new_cap in
      Ret (ZENIT_OK, set_capacities caps (set_adj adj g), c)
  end.

(** The neighbour at position [j] taken out of the list of [i]. *)
Definition cut_neighbor g (i j : Z) : outcome (zenit_graph_t C) :=
  let! l := tget (g_adj g) i in
  let! n := tget (g_counts g) i in
  let! l := tmove l j (j + 1) (u64 (u64 (n - j) - 1)) in
  let! adj := tset (g_adj g) i l in
  let! counts := tset (g_counts g) i (u64 (n - 1)) in
  Ret (set_counts counts (set_adj adj g)).

(** The neighbour at position [j] of the list of [i]. *)
Definition neighbor g (i j : Z) : outcome Z := let! l := tget (g_adj g) i in tget l j.

(** From position [j] on; every turn cuts the list or moves on. *)
Fixpoint remove_loop (fuel : nat) g (i vertex j : Z) : outcome (zenit_graph_t C) :=
  let! n := tget (g_counts g) i in
  if decide (j < n) then
    match fuel with
    | O => NoFuel
    | S fuel =>
        let! u := neighbor g i j in
        if decide (u = vertex) then
          let! g := cut_neighbor g i j in
          let g := if g_directed g then set_edge_count (u64 (g_edge_count g - 1)) g else g in
          remove_loop fuel g i vertex j
        else remove_loop fuel g i vertex (u64 (j + 1))
    end
  else Ret g.

Definition remove_vertex_from_adj g (i vertex : Z) : outcome (zenit_graph_t C) :=
  let! n := tget (g_counts g) i in
  remove_loop (Z.to_nat n) g i vertex 0.

Definition zenit_graph_create_with_allocator (initial_capacity : Z) (directed : bool) a c
    : outcome (option (zenit_graph_t C) * C) :=
  let cap := if decide (initial_capacity = 0) then ZENIT_GRAPH_DEFAULT_CAP else initial_capacity in
  match alloc_fn a SIZEOF_GRAPH c with
  | (None, c) => Ret (None, c)
  | (Some h, c) =>
      let! (adj, c) := talloc_zero a cap SIZEOF_PTR None c in
      let! (counts, c) := talloc_zero a cap SIZEOF_SIZE 0 c in
      let! (capacities, c) := talloc_zero a cap SIZEOF_SIZE 0 c in
      let! (removed, c) := talloc_zero a cap SIZEOF_INT 0 c in
      if decide (taddr adj = None \/ taddr counts = None \/ taddr capacities = None \/ taddr removed = None) then
        let c := free_fn a (taddr adj) c in
        let c := free_fn a (taddr counts) c in
        let c := free_fn a (taddr capacities) c in
        let c := free_fn a (taddr removed) c in
        Ret (None, free_fn a (Some (b_addr h)) c)
      else
        let! removed := tfill removed 0 cap REMOVED_INIT in
        Ret (Some (mk_graph (b_addr h) adj counts capacities 0 cap 0 directed removed a), c)
  end.

(** The adjacency lists from [i] on, [n] of them, freed. *)
Fixpoint free_lists (n : nat) (i : Z) g c : outcome C :=
  match n with
  | O => Ret c
  | S n =>
      let! l := tget (g_adj g) i in
      free_lists n (u64 (i + 1)) g (match l with Some _ => free_fn (g_allocator g) (taddr l) c | None => c end)
  end.

Definition zenit_graph_destroy (g : option (zenit_graph_t C)) c : outcome C :=
  match g with
  | None => Ret c
  | Some g =>
      let a := g_allocator g in
      let! c := free_lists (Z.to_nat (g_vertex_capacity g)) 0 g c in
      let c := free_fn a (taddr (g_adj g)) c in
      let c := free_fn a (taddr (g_counts g)) c in
      let c := free_fn a (taddr (g_capacities g)) c in
      let c := free_fn a (taddr (g_removed g)) c in
      Ret (free_fn a (Some (g_self g)) c)
  end.

(** The first slot from [i] on that is removed, [n] slots left; -1 without one. *)
Fixpoint find_slot (n : nat) (i : Z) (removed : option (tarr Z)) : outcome Z :=
  match n with
  | O => Ret (-1)
  | S n =>
      let! r := tget removed i in
      if decide (r <> 0) then Ret (cast_int i) else find_slot n (u64 (i + 1)) removed
  end.

Definition zenit_graph_add_vertex (g : option (zenit_graph_t C)) c : outcome (zenit_error_t * option (zenit_graph_t C) * C) :=
  match g with
  | None => Ret (ZENIT_ERROR_NULL, g, c)
  | Some g =>
      let! slot := find_slot (Z.to_nat (g_vertex_capacity g)) 0 (g_removed g) in
      let! (r, slot, g, c) :=
        if decide (slot = -1) then
          let! (r, g, c) := grow_vertex_arrays g c in
          Ret (r, cast_int (g_vertex_count g), g, c)
        else Ret (ZENIT_OK, slot, g, c) in
      if decide (r <> ZENIT_OK) then Ret (r, Some g, c)
      else
        let! removed := tset (g_removed g) slot 0 in
        Ret (ZENIT_OK, Some (set_vertex_count (u64 (g_vertex_count g + 1)) (set_removed removed g)), c)
  end.

(** The edges to [vertex] taken out of the lists from [i] on, [n] slots left. *)
Fixpoint remove_from_all (n : nat) (i vertex : Z) g : outcome (zenit_graph_t C) :=
  match n with
  | O => Ret g
  | S n =>
      let! r := tget (g_removed g) i in
      let! g := if decide (r <> 0) then Ret g else remove_vertex_from_adj g i vertex in
      remove_from_all n (u64 (i + 1)) vertex g
  end.

(** [vertex] is a slot in use. *)
Definition valid_vertex g (vertex : Z) : outcome bool :=
  if decide (vertex < 0 \/ g_vertex_capacity g <= vertex) then Ret false
  else let! r := tget (g_removed g) vertex in Ret (bool_decide (r = 0)).

(** The list of [vertex] freed and its slot reset. *)
Definition reset_slot (vertex : Z) g c : outcome (zenit_graph_t C * C) :=
  let! l := tget (g_adj g) vertex in
  let! (adj, c) :=
    match l with
    | Some _ => let! adj := tset (g_adj g) vertex None in Ret (adj, free_fn (g_allocator g) (taddr l) c)
    | None => Ret (g_adj g, c)
    end in
  let! counts := tset (g_counts g) vertex 0 in
  let! caps := tset (g_capacities g) vertex 0 in
  let! removed := tset (g_removed g) vertex 1 in
  Ret (set_removed removed (set_capacities caps (set_counts counts (set_adj adj g))), c).

Definition zenit_graph_remove_vertex (g : option (zenit_graph_t C)) (vertex : Z) c
    : outcome (zenit_error_t * option (zenit_graph_t C) * C) :=
  match g with
  | None => Ret (ZENIT_ERROR_NULL, g, c)
  | Some g0 =>
      let! v := valid_vertex g0 vertex in
      if v : bool then
        let! n := tget (g_counts g0) vertex in
        let g1 := set_edge_count (u64 (g_edge_count g0 - n)) g0 in
        let! g2 := remove_from_all (Z.to_nat (g_vertex_capacity g1)) 0 vertex g1 in
        let! (g3, c) := reset_slot vertex g2 c in
        Ret (ZENIT_OK, Some (set_vertex_count (u64 (g_vertex_count g3 - 1)) g3), c)
      else Ret (ZENIT_ERROR_PARAM, g, c)
  end.

(** Where [to] is in the list of [from], looked for from [i] on, [n] positions left. *)
Fixpoint find_neighbor (n : nat) (i : Z) g (from to : Z) : outcome (option Z) :=
  match n with
  | O => Ret None
  | S n =>
      let! u := neighbor g from i in
      if decide (u = to) then Ret (Some i) else find_neighbor n (u64 (i + 1)) g from to
  end.

Definition zenit_graph_has_edge (g : option (zenit_graph_t C)) (from to : Z) : outcome bool :=
  match g with
  | None => Ret false
  | Some g =>
      let! v := valid_vertex g from in
      let! w := if v : bool then valid_vertex g to else Ret false in
      if w : bool then
        let! n := tget (g_counts g) from in
        let! r := find_neighbor (Z.to_nat n) 0 g from to in
        Ret (bool_decide (r <> None))
      else Ret false
  end.

(** [x] put behind the list of [v]. *)
Definition append_neighbor (v x : Z) g : outcome (zenit_graph_t C) :=
  let! l := tget (g_adj g) v in
  let! n := tget (g_counts g) v in
  let! l := tset l n x in
  let! adj := tset (g_adj g) v l in
  let! counts := tset (g_counts g) v (u64 (n + 1)) in
  Ret (set_counts counts (set_adj adj g)).

(** Room for one more neighbour of [v]. *)
Definition ensure_adj g (v : Z) c : outcome (zenit_error_t * zenit_graph_t C * C) :=
  let! n := tget (g_counts g) v in
  let! k := tget (g_capacities g) v in
  if decide (n = k) then grow_adj_list g v c else Ret (ZENIT_OK, g, c).

Definition zenit_graph_add_edge (g : option (zenit_graph_t C)) (from to : Z) c
    : outcome (zenit_error_t * option (zenit_graph_t C) * C) :=
  match g with
  | None => Ret (ZENIT_ERROR_NULL, g, c)
  | Some g0 =>
      let! v := valid_vertex g0 from in
      let! w := if v : bool then valid_vertex g0 to else Ret false in
      if w : bool then
        let! has := zenit_graph_has_edge g from to in
        if has : bool then Ret (ZENIT_OK, g, c)
        else
          let! (r, g1, c) := ensure_adj g0 from c in
          if decide (r <> ZENIT_OK) then Ret (r, Some g1, c)
          else
            let! g2 := append_neighbor from to g1 in
            let g2 := set_edge_count (u64 (g_edge_count g2 + 1)) g2 in
            if decide (g_directed g2 = false /\ from <> to) then
              let! (r, g3, c) := ensure_adj g2 to c in
              if decide (r <> ZENIT_OK) then
                let! n := tget (g_counts g3) from in
                let! counts := tset (g_counts g3) from (u64 (n - 1)) in
                Ret (r, Some (set_edge_count (u64 (g_edge_count g3 - 1)) (set_counts counts g3)), c)
              else
                let! g4 := append_neighbor to from g3 in
                Ret (ZENIT_OK, Some g4, c)
            else Ret (ZENIT_OK, Some g2, c)
      else Ret (ZENIT_ERROR_PARAM, g, c)
  end.

Definition zenit_graph_remove_edge (g : option (zenit_graph_t C)) (from to : Z)
    : outcome (zenit_error_t * option (zenit_graph_t C)) :=
  match g with
  | None => Ret (ZENIT_ERROR_NULL, g)
  | Some g0 =>
      let! v := valid_vertex g0 from in
      let! w := if v : bool then valid_vertex g0 to else Ret false in
      if w : bool then
        let! n := tget (g_counts g0) from in
        let! r := find_neighbor (Z.to_nat n) 0 g0 from to in
        match r with
        | None => Ret (ZENIT_OK, g)
        | Some i =>
            let! g1 := cut_neighbor g0 from i in
            let g1 := set_edge_count (u64 (g_edge_count g1 - 1)) g1 in
            if decide (g_directed g1 = false /\ from <> to) then
              let! n := tget (g_counts g1) to in
              let! r := find_neighbor (Z.to_nat n) 0 g1 to from in
              match r with
              | None => Ret (ZENIT_OK, Some g1)
              | Some i => let! g2 := cut_neighbor g1 to i in Ret (ZENIT_OK, Some g2)
              end
            else Ret (ZENIT_OK, Some g1)
        end
      else Ret (ZENIT_ERROR_PARAM, g)
  end.

Definition zenit_graph_vertex_count (g : option (zenit_graph_t C)) : Z :=
  match g with None => 0 | Some g => g_vertex_count g end.
Definition zenit_graph_edge_count (g : option (zenit_graph_t C)) : Z :=
  match g with None => 0 | Some g => g_edge_count g end.
Definition zenit_graph_is_directed (g : option (zenit_graph_t C)) : bool :=
  match g with None => false | Some g => g_directed g end.

(** The slots from [i] on, [n] of them, reset. *)
Fixpoint clear_loop (n : nat) (i : Z) g c : outcome (zenit_graph_t C * C) :=
  match n with
  | O => Ret (g, c)
  | S n => let! (g, c) := reset_slot i g c in clear_loop n (u64 (i + 1)) g c
  end.

Definition zenit_graph_clear (g : option (zenit_graph_t C)) c : outcome (option (zenit_graph_t C) * C) :=
  match g with
  | None => Ret (None, c)
  | Some g =>
      let! (g, c) := clear_loop (Z.to_nat (g_vertex_capacity g)) 0 g c in
      Ret (Some (set_edge_count 0 (set_vertex_count 0 g)), c)
  end.

(** [out_neighbors] and [out_count] are what the pointers show. *)
Definition zenit_graph_get_neighbors (g : option (zenit_graph_t C)) (vertex : Z)
    (out_neighbors : option (option (tarr Z))) (out_count : option Z) (h : heap)
    : outcome (Z * option (option (tarr Z)) * option Z * heap) :=
  match g, out_neighbors, out_count with
  | Some g, Some _, Some _ =>
      let! v := valid_vertex g vertex in
      if v : bool then
        let! n := tget (g_counts g) vertex in
        if decide (n = 0) then Ret (0, Some None, Some 0, h)
        else
          match malloc (u64 (n * SIZEOF_INT)) h with
          | (None, h) => Ret (-1, Some None, Some 0, h)
          | (Some b, h) =>
              let! l := tget (g_adj g) vertex in
              let! d := rd (tdata l) 0 n in
              Ret (cast_int n, Some (Some (TArr b d)), Some n, h)
          end
      else Ret (-1, Some None, Some 0, h)
  | _, _, _ => Ret (-1, out_neighbors, out_count, h)
  end.
End GraphModel.

(** ** Traversals *)

Definition calloc (nmemb size : Z) (h : heap) : option block * heap :=
  if decide (two64 <= nmemb * size) then (None, h) else malloc (nmemb * size) h.

Section Traversal.
Context {C X : Type} (visit : Z -> X -> Z * X).
Implicit Types (g : zenit_graph_t C) (visited queue stack : option (tarr Z)) (ctx : X).

(** [x] put into the array at [n], and marked. *)
Definition enqueue visited queue (n x : Z) : outcome (option (tarr Z) * option (tarr Z) * Z) :=
  let! visited := tset visited x 1 in
  let! queue := tset queue n x in
  Ret (visited, queue, u64 (n + 1)).

(** The neighbours of [v] from position [i] on, [n] of them. *)
Fixpoint bfs_scan (n : nat) (i : Z) g (v : Z) visited queue (tail : Z)
    : outcome (option (tarr Z) * option (tarr Z) * Z) :=
  match n with
  | O => Ret (visited, queue, tail)
  | S n =>
      let! u := neighbor g v i in
      let! x := tget visited u in
      let! (visited, queue, tail) := if decide (x = 0) then enqueue visited queue tail u else Ret (visited, queue, tail) in
      bfs_scan n (u64 (i + 1)) g v visited queue tail
  end.

Fixpoint bfs_loop (fuel : nat) g ctx visited queue (head tail : Z) : outcome X :=
  if decide (head < tail) then
    match fuel with
    | O => NoFuel
    | S fuel =>
        let! v := tget queue head in
        let '(r, ctx) := visit v ctx in
        if decide (r <> 0) then Ret ctx
        else
          let! n := tget (g_counts g) v in
          let! (visited, queue, tail) := bfs_scan (Z.to_nat n) 0 g v visited queue tail in
          bfs_loop fuel g ctx visited queue (u64 (head + 1)) tail
    end
  else Ret ctx.

(** The neighbours of [v] below position [i]. *)
Fixpoint dfs_scan (i : nat) g (v : Z) visited stack (sp : Z) : outcome (option (tarr Z) * option (tarr Z) * Z) :=
  match i with
  | O => Ret (visited, stack, sp)
  | S i =>
      let! u := neighbor g v (Z.of_nat i) in
      let! x := tget visited u in
      let! (visited, stack, sp) := if decide (x = 0) then enqueue visited stack sp u else Ret (visited, stack, sp) in
      dfs_scan i g v visited stack sp
  end.

Fixpoint dfs_loop (fuel : nat) g ctx visited stack (sp : Z) : outcome X :=
  if decide (0 < sp) then
    match fuel with
    | O => NoFuel
    | S fuel =>
        let sp := u64 (sp - 1) in
        let! v := tget stack sp in
        let '(r, ctx) := visit v ctx in
        if decide (r <> 0) then Ret ctx
        else
          let! n := tget (g_counts g) v in
          let! (visited, stack, sp) := dfs_scan (Z.to_nat n) g v visited stack sp in
          dfs_loop fuel g ctx visited stack sp
    end
  else Ret ctx.

End Traversal.

(** The two functions differ in their loop: [loop] runs it with the start vertex in
    the array and marked. *)
Definition traverse {C X : Type}
    (loop : (Z -> X -> Z * X) -> zenit_graph_t C -> X -> option (tarr Z) -> option (tarr Z) -> Z -> outcome X)
    (g : option (zenit_graph_t C)) (start : Z) (visit : option (Z -> X -> Z * X)) (ctx : X) (h : heap)
    : outcome (zenit_error_t * X * heap) :=
  match g, visit with
  | Some g, Some visit =>
      let! ok := valid_vertex g start in
      if ok : bool then
        let cap := g_vertex_capacity g in
        match calloc cap SIZEOF_INT h with
        | (None, h) => Ret (ZENIT_ERROR_ALLOC, ctx, h)
        | (Some b, h) =>
            let visited := Some (TArr b (replicate (Z.to_nat cap) 0)) in
            match malloc (u64 (cap * SIZEOF_INT)) h with
            | (None, h) => Ret (ZENIT_ERROR_ALLOC, ctx, free (Some (b_addr b)) h)
            | (Some q, h) =>
                let queue := Some (TArr q (replicate (Z.to_nat (zlen (b_data q) / SIZEOF_INT)) 0)) in
                let! (visited, queue, n) := enqueue visited queue 0 start in
                let! ctx := loop visit g ctx visited queue n in
                Ret (ZENIT_OK, ctx, free (Some (b_addr b)) (free (Some (b_addr q)) h))
            end
        end
      else Ret (ZENIT_ERROR_PARAM, ctx, h)
  | _, _ => Ret (ZENIT_ERROR_NULL, ctx, h)
  end.

Definition zenit_graph_bfs {C X : Type} (fuel : nat) (g : option (zenit_graph_t C)) (start : Z)
    (visit : option (Z -> X -> Z * X)) (ctx : X) (h : heap) : outcome (zenit_error_t * X * heap) :=
  traverse (fun visit g ctx visited queue tail => bfs_loop visit fuel g ctx visited queue 0 tail) g start visit ctx h.

Definition zenit_graph_dfs {C X : Type} (fuel : nat) (g : option (zenit_graph_t C)) (start : Z)
    (visit : option (Z -> X -> Z * X)) (ctx : X) (h : heap) : outcome (zenit_error_t * X * heap) :=
  traverse (fun visit g ctx visited stack sp => dfs_loop visit fuel g ctx visited stack sp) g start visit ctx h.

Definition zenit_graph_create (initial_capacity : Z) (directed : bool) (h : heap)
    : outcome (option (zenit_graph_t heap) * heap) :=
  zenit_graph_create_with_allocator initial_capacity directed ZENIT_ALLOCATOR_DEFAULT h.
