(* ===== verification/GraphMemory.v ===== *)
(** * Graphs: the arrays and the lists

    What the helpers of [Graph] do to the four arrays ([reslot], [moved]), to the
    neighbour list of a slot ([nbrs]) and to the memory the graph owns ([holds]). *)

From Stdlib Require Import ZArith Lia.
From stdpp Require Import base tactics option list numbers gmap sets.
From S2P Require Import Prelude Mem Result Allocator Links Arrays Machine Graph.
Open Scope Z_scope.

(** ** Slots *)

(** What the four arrays hold for a vertex. *)
Record gslot : Type := mk_slot { sl_adj : option (tarr Z); sl_count : Z; sl_cap : Z; sl_removed : Z }.

Section Slots.
Context {C : Type}.
Implicit Types (g : zenit_graph_t C) (v w n : Z).

Definition slot_at g v : gslot :=
  mk_slot (default None (tdata (g_adj g) !! Z.to_nat v)) (default 0 (tdata (g_counts g) !! Z.to_nat v))
    (default 0 (tdata (g_capacities g) !! Z.to_nat v)) (default 0 (tdata (g_removed g) !! Z.to_nat v)).

(** An array with at least [n] elements of [sz] bytes. *)
Definition array_ok {A : Type} (p : option (tarr A)) (n sz : Z) : Prop :=
  p <> None /\ n <= zlen (tdata p) /\ zlen (pbytes (ta_block <$> p)) = zlen (tdata p) * sz.

Record arrays_ok g n : Prop := {
  ao_adj : array_ok (g_adj g) n 8;
  ao_counts : array_ok (g_counts g) n 8;
  ao_caps : array_ok (g_capacities g) n 8;
  ao_removed : array_ok (g_removed g) n 4 }.
Arguments ao_adj {g n}.
Arguments ao_counts {g n}.
Arguments ao_caps {g n}.
Arguments ao_removed {g n}.

Lemma array_get {A : Type} (p : option (tarr A)) n sz v (d : A) : array_ok p n sz -> 0 <= v < n ->
  tget p v = Ret (default d (tdata p !! Z.to_nat v)).
Proof. intros (Np & Hn & _) Hv. destruct (tget_range p v Np) as (x & E & ->); [lia|]. by rewrite E. Qed.

Lemma array_set {A : Type} (p : option (tarr A)) n sz v (x d : A) : array_ok p n sz -> 0 <= v < n ->
  exists p', tset p v x = Ret p' /\ array_ok p' n sz /\ taddr p' = taddr p /\
    forall w, 0 <= w -> default d (tdata p' !! Z.to_nat w) = if decide (w = v) then x else default d (tdata p !! Z.to_nat w).
Proof.
  intros (Np & Hn & Hb) Hv. destruct p as [t|]; [|done]. cbn [tdata] in *. unfold tset. rewrite aset_range by lia. cbn [obind].
  eexists. split; [done|]. unfold array_ok. cbn [tdata ta_data ta_block pbytes fmap option_fmap option_map taddr] in *.
  rewrite zlen_insert. split; [done|]. split; [done|]. intros w Hw. destruct (decide (w = v)) as [->|D].
  - rewrite list_lookup_insert_eq; [done|]. unfold zlen in *. lia.
  - rewrite list_lookup_insert_ne by lia. done.
Qed.

(** [g'] is [g] with the slots [F]. *)
Record reslot n g g' (F : Z -> gslot) : Prop := {
  rs_ok : arrays_ok g' n;
  rs_slots v : 0 <= v < n -> slot_at g' v = F v;
  rs_self : g_self g' = g_self g;
  rs_alloc : g_allocator g' = g_allocator g;
  rs_directed : g_directed g' = g_directed g;
  rs_vcount : g_vertex_count g' = g_vertex_count g;
  rs_vcap : g_vertex_capacity g' = g_vertex_capacity g;
  rs_ecount : g_edge_count g' = g_edge_count g;
  rs_adj : taddr (g_adj g') = taddr (g_adj g);
  rs_counts : taddr (g_counts g') = taddr (g_counts g);
  rs_caps : taddr (g_capacities g') = taddr (g_capacities g);
  rs_removed : taddr (g_removed g') = taddr (g_removed g) }.

Definition put (F : Z -> gslot) v (s : gslot) (w : Z) : gslot := if decide (w = v) then s else F w.

Lemma get_adj g n v : arrays_ok g n -> 0 <= v < n -> tget (g_adj g) v = Ret (sl_adj (slot_at g v)).
Proof. intros H Hv. exact (array_get _ _ _ _ None (ao_adj H) Hv). Qed.
Lemma get_count g n v : arrays_ok g n -> 0 <= v < n -> tget (g_counts g) v = Ret (sl_count (slot_at g v)).
Proof. intros H Hv. exact (array_get _ _ _ _ 0 (ao_counts H) Hv). Qed.
Lemma get_cap g n v : arrays_ok g n -> 0 <= v < n -> tget (g_capacities g) v = Ret (sl_cap (slot_at g v)).
Proof. intros H Hv. exact (array_get _ _ _ _ 0 (ao_caps H) Hv). Qed.
Lemma get_removed g n v : arrays_ok g n -> 0 <= v < n -> tget (g_removed g) v = Ret (sl_removed (slot_at g v)).
Proof. intros H Hv. exact (array_get _ _ _ _ 0 (ao_removed H) Hv). Qed.

Ltac set_slot H lem :=
  destruct lem as (p' & E & O & A & L); [apply H|done|]; exists p'; split; [exact E|];
  split; try done; [destruct H; by split|]; intros w Hw; unfold put, slot_at; cbn; rewrite L by lia; case_decide; [by subst|done].

Lemma set_adj_spec g n v x : arrays_ok g n -> 0 <= v < n ->
  exists p', tset (g_adj g) v x = Ret p' /\
    reslot n g (set_adj p' g) (put (slot_at g) v (mk_slot x (sl_count (slot_at g v)) (sl_cap (slot_at g v)) (sl_removed (slot_at g v)))).
Proof. intros H Hv. set_slot H (array_set (g_adj g) n 8 v x None). Qed.

Lemma set_counts_spec g n v x : arrays_ok g n -> 0 <= v < n ->
  exists p', tset (g_counts g) v x = Ret p' /\
    reslot n g (set_counts p' g) (put (slot_at g) v (mk_slot (sl_adj (slot_at g v)) x (sl_cap (slot_at g v)) (sl_removed (slot_at g v)))).
Proof. intros H Hv. set_slot H (array_set (g_counts g) n 8 v x 0). Qed.

Lemma set_capacities_spec g n v x : arrays_ok g n -> 0 <= v < n ->
  exists p', tset (g_capacities g) v x = Ret p' /\
    reslot n g (set_capacities p' g) (put (slot_at g) v (mk_slot (sl_adj (slot_at g v)) (sl_count (slot_at g v)) x (sl_removed (slot_at g v)))).
Proof. intros H Hv. set_slot H (array_set (g_capacities g) n 8 v x 0). Qed.

Lemma set_removed_spec g n v x : arrays_ok g n -> 0 <= v < n ->
  exists p', tset (g_removed g) v x = Ret p' /\
    reslot n g (set_removed p' g) (put (slot_at g) v (mk_slot (sl_adj (slot_at g v)) (sl_count (slot_at g v)) (sl_cap (slot_at g v)) x)).
Proof. intros H Hv. set_slot H (array_set (g_removed g) n 4 v x 0). Qed.

Lemma reslot_refl n g : arrays_ok g n -> reslot n g g (slot_at g).
Proof. by split. Qed.

Lemma reslot_trans n g g1 g2 F G : reslot n g g1 F -> reslot n g1 g2 G -> reslot n g g2 G.
Proof. intros [] []. split; try done; congruence. Qed.

Lemma reslot_ext n g g' F G : reslot n g g' F -> (forall v, 0 <= v < n -> G v = F v) -> reslot n g g' G.
Proof. intros [] H. split; try done. intros v Hv. rewrite H by done. auto. Qed.

Lemma reslot_at n g g' F v s : reslot n g g' (put F v s) -> 0 <= v < n -> slot_at g' v = s.
Proof. intros R Hv. rewrite (rs_slots _ _ _ _ R v Hv). unfold put. by rewrite decide_True. Qed.

Lemma reslot_edges n g g' F e : reslot n g g' F -> reslot n (set_edge_count e g) (set_edge_count e g') F.
Proof. intros [[] ? ? ? ? ? ? ? ? ? ? ?]. split; try done. Qed.

Lemma reslot_put n g g1 g2 v s1 s2 : reslot n g g1 (put (slot_at g) v s1) -> reslot n g1 g2 (put (slot_at g1) v s2) ->
  reslot n g g2 (put (slot_at g) v s2).
Proof.
  intros R1 R2. eapply reslot_ext; [exact (reslot_trans _ _ _ _ _ _ R1 R2)|]. intros w Hw. unfold put.
  destruct (decide (w = v)) as [->|D]; [done|]. rewrite (rs_slots _ _ _ _ R1 w Hw). unfold put. by rewrite decide_False.
Qed.
End Slots.

(** ** Adjacency lists *)

(** The list of a slot is [ns]. *)
Record nbrs (s : gslot) (ns : list Z) : Prop := {
  nb_count : sl_count s = zlen ns;
  nb_len : zlen (tdata (sl_adj s)) = sl_cap s;
  nb_bytes : zlen (pbytes (ta_block <$> sl_adj s)) = sl_cap s * 4;
  nb_room : exists room, tdata (sl_adj s) = ns ++ room;
  nb_limit : sl_cap s = 0 \/ 8 <= sl_cap s /\ sl_cap s * 4 <= PTRDIFF_MAX }.
Arguments nb_count {s ns}.
Arguments nb_len {s ns}.
Arguments nb_bytes {s ns}.
Arguments nb_room {s ns}.
Arguments nb_limit {s ns}.

Lemma nbrs_bound s ns : nbrs s ns -> zlen ns <= sl_cap s <= PTRDIFF_MAX / 4.
Proof.
  intros N. destruct (nb_room N) as [room E]. pose proof (nb_len N) as L. rewrite E, zlen_app in L.
  pose proof (zlen_nonneg room). change (PTRDIFF_MAX / 4) with 2305843009213693951. destruct (nb_limit N); lia.
Qed.

Lemma nbrs_Some s ns : nbrs s ns -> 0 < sl_cap s -> exists t, sl_adj s = Some t.
Proof. intros N H. pose proof (nb_len N) as L. destruct (sl_adj s) as [t|]; [by exists t|]. change (zlen (tdata None)) with 0 in L. lia. Qed.

(** A slot with a new list in the same block. *)
Lemma nbrs_replace s ns t d ns' room : nbrs s ns -> sl_adj s = Some t -> zlen d = zlen (ta_data t) -> d = ns' ++ room ->
  nbrs (mk_slot (Some (TArr (ta_block t) d)) (zlen ns') (sl_cap s) (sl_removed s)) ns'.
Proof.
  intros [N1 N2 N3 N4 N5] E L ->. rewrite E in N2, N3. split; cbn [sl_count sl_adj sl_cap tdata ta_data]; try done; [|by eexists].
  by rewrite L.
Qed.

Section Lists.
Context {C : Type}.
Implicit Types (g : zenit_graph_t C).

Lemma neighbor_spec g n i pre x post : arrays_ok g n -> 0 <= i < n -> nbrs (slot_at g i) (pre ++ x :: post) ->
  neighbor g i (zlen pre) = Ret x.
Proof.
  intros O Hi N. unfold neighbor. rewrite (get_adj g n i O Hi). cbn [obind]. destruct (nb_room N) as [room E].
  destruct (nbrs_Some _ _ N) as [t Et].
  { pose proof (nbrs_bound _ _ N) as Hb. rewrite zlen_app, zlen_cons in Hb. pose proof (zlen_nonneg pre).
    pose proof (zlen_nonneg post). lia. }
  rewrite Et in E |- *. cbn [tdata tget] in *. apply aget_lookup; [apply zlen_nonneg|]. rewrite E. unfold zlen.
  rewrite Nat2Z.id, <- app_assoc. by apply list_lookup_middle.
Qed.

Lemma find_neighbor_spec g n v to ns : arrays_ok g n -> 0 <= v < n -> nbrs (slot_at g v) ns ->
  exists r, find_neighbor (Z.to_nat (zlen ns)) 0 g v to = Ret r /\
    match r with
    | None => to ∉ ns
    | Some i => exists pre post, ns = pre ++ to :: post /\ i = zlen pre
    end.
Proof.
  intros O Hv N. pose proof (nbrs_bound _ _ N) as Hb. change (PTRDIFF_MAX / 4) with 2305843009213693951 in Hb.
  assert (forall post pre, ns = pre ++ post -> to ∉ pre ->
    exists r, find_neighbor (length post) (zlen pre) g v to = Ret r /\
      match r with None => to ∉ ns | Some i => exists pre post, ns = pre ++ to :: post /\ i = zlen pre end) as H.
  { induction post as [|x post IH]; intros pre E Hp; cbn [find_neighbor length].
    { exists None. split; [done|]. rewrite E, app_nil_r. done. }
    rewrite (neighbor_spec g n v pre x post) by (done || by rewrite <- E). cbn [obind].
    destruct (decide (x = to)) as [->|D]; [exists (Some (zlen pre)); split; [done|by exists pre, post]|].
    assert (zlen pre + 1 <= zlen ns) by (rewrite E, zlen_app, zlen_cons; pose proof (zlen_nonneg post); lia).
    pose proof (zlen_nonneg pre). rewrite u64_small by lia. replace (zlen pre + 1) with (zlen (pre ++ [x])) by zl.
    apply IH; [by rewrite E, <- app_assoc|]. set_solver. }
  replace (Z.to_nat (zlen ns)) with (length ns) by (unfold zlen; lia). apply (H ns []); [done|set_solver].
Qed.

Lemma cut_neighbor_spec g n i pre x post : arrays_ok g n -> 0 <= i < n -> nbrs (slot_at g i) (pre ++ x :: post) ->
  exists g' s', cut_neighbor g i (zlen pre) = Ret g' /\ reslot n g g' (put (slot_at g) i s') /\ nbrs s' (pre ++ post) /\
    taddr (sl_adj s') = taddr (sl_adj (slot_at g i)) /\ sl_removed s' = sl_removed (slot_at g i).
Proof.
  intros O Hi N. pose proof (nbrs_bound _ _ N) as Hb. change (PTRDIFF_MAX / 4) with 2305843009213693951 in Hb.
  rewrite zlen_app, zlen_cons in Hb. pose proof (zlen_nonneg pre). pose proof (zlen_nonneg post).
  destruct (nbrs_Some _ _ N ltac:(lia)) as [t Et]. destruct (nb_room N) as [room E]. rewrite Et in E. cbn [tdata] in E.
  unfold cut_neighbor. rewrite (get_adj g n i O Hi), Et. cbn [obind]. rewrite (get_count g n i O Hi), (nb_count N). cbn [obind].
  assert (exists y, ta_data t = pre ++ (x :: post) ++ room /\ drop (length (pre ++ post)) (pre ++ (x :: post) ++ room) = y :: room) as (y & Ed & Ey).
  { destruct (exists_last (l := x :: post)) as (l & y & El); [done|]. exists y. split; [by rewrite E, <- app_assoc|].
    rewrite El, !app_assoc, <- app_assoc. rewrite drop_app_length'; [done|]. apply (f_equal length) in El.
    rewrite !length_app in *. cbn [length] in *. lia. }
  assert (u64 (u64 (zlen (pre ++ x :: post) - zlen pre) - 1) = zlen post) as ->.
  { rewrite zlen_app, zlen_cons. rewrite (u64_small (_ - zlen pre)), u64_small by lia. lia. }
  assert (zlen (ta_data t) = zlen pre + (zlen post + 1) + zlen room) as Lt by (rewrite Ed; zl).
  pose proof (zlen_nonneg room). cbn [tmove]. rewrite decide_True by lia. cbn [obind].
  assert (take (Z.to_nat (zlen pre)) (ta_data t) ++ take (Z.to_nat (zlen post)) (drop (Z.to_nat (zlen pre + 1)) (ta_data t)) ++
    drop (Z.to_nat (zlen pre + zlen post)) (ta_data t) = (pre ++ post) ++ y :: room) as ->.
  { rewrite Ed. unfold zlen. rewrite !Nat2Z.id. rewrite take_app_length.
    replace (Z.to_nat (Z.of_nat (length pre) + 1)) with (length (pre ++ [x])) by (rewrite length_app; cbn; lia).
    assert (drop (length (pre ++ [x])) (pre ++ (x :: post) ++ room) = post ++ room) as ->.
    { assert (pre ++ (x :: post) ++ room = (pre ++ [x]) ++ post ++ room) as -> by (by rewrite <- app_assoc).
      apply drop_app_length. }
    rewrite take_app_length.
    replace (Z.to_nat (Z.of_nat (length pre) + Z.of_nat (length post))) with (length (pre ++ post)) by (rewrite length_app; lia).
    rewrite Ey. by rewrite <- app_assoc. }
  destruct (set_adj_spec g n i (Some (TArr (ta_block t) ((pre ++ post) ++ y :: room))) O Hi) as (p1 & -> & R1). cbn [obind].
  destruct (set_counts_spec (set_adj p1 g) n i (u64 (zlen (pre ++ x :: post) - 1)) (rs_ok _ _ _ _ R1) Hi) as (p2 & E2 & R2).
  change (g_counts (set_adj p1 g)) with (g_counts g) in E2. rewrite E2. cbn [obind].
  rewrite zlen_app, zlen_cons in R2. rewrite u64_small in R2 by lia.
  eexists _, _. split; [done|]. split; [exact (reslot_put _ _ _ _ _ _ _ R1 R2)|].
  rewrite (reslot_at _ _ _ _ _ _ R1 Hi). cbn [sl_adj sl_count sl_cap sl_removed]. split; [|done].
  replace (zlen pre + (1 + zlen post) - 1) with (zlen (pre ++ post)) by zl.
  eapply nbrs_replace; [exact N|exact Et| |done]. rewrite Ed. zl.
Qed.

Lemma append_neighbor_spec g n v x ns : arrays_ok g n -> 0 <= v < n -> nbrs (slot_at g v) ns -> zlen ns < sl_cap (slot_at g v) ->
  exists g' s', append_neighbor v x g = Ret g' /\ reslot n g g' (put (slot_at g) v s') /\ nbrs s' (ns ++ [x]) /\
    taddr (sl_adj s') = taddr (sl_adj (slot_at g v)) /\ sl_removed s' = sl_removed (slot_at g v).
Proof.
  intros O Hv N Hc. pose proof (nbrs_bound _ _ N) as Hb. change (PTRDIFF_MAX / 4) with 2305843009213693951 in Hb.
  pose proof (zlen_nonneg ns). destruct (nbrs_Some _ _ N ltac:(lia)) as [t Et]. destruct (nb_room N) as [room E].
  pose proof (nb_len N) as L. rewrite Et in E, L. cbn [tdata] in E, L.
  destruct room as [|y room]; [rewrite E, app_nil_r in L; lia|].
  unfold append_neighbor. rewrite (get_adj g n v O Hv), Et. cbn [obind]. rewrite (get_count g n v O Hv), (nb_count N). cbn [obind tset].
  rewrite aset_range by lia. cbn [obind].
  assert (<[Z.to_nat (zlen ns) := x]> (ta_data t) = (ns ++ [x]) ++ room) as ->.
  { rewrite E. unfold zlen. rewrite Nat2Z.id, <- app_assoc. rewrite <- (Nat.add_0_r (length ns)). by rewrite insert_app_r. }
  destruct (set_adj_spec g n v (Some (TArr (ta_block t) ((ns ++ [x]) ++ room))) O Hv) as (p1 & -> & R1). cbn [obind].
  destruct (set_counts_spec (set_adj p1 g) n v (u64 (zlen ns + 1)) (rs_ok _ _ _ _ R1) Hv) as (p2 & E2 & R2).
  change (g_counts (set_adj p1 g)) with (g_counts g) in E2. rewrite E2. cbn [obind]. rewrite u64_small in R2 by lia.
  eexists _, _. split; [done|]. split; [exact (reslot_put _ _ _ _ _ _ _ R1 R2)|].
  rewrite (reslot_at _ _ _ _ _ _ R1 Hv). cbn [sl_adj sl_count sl_cap sl_removed]. split; [|done].
  replace (zlen ns + 1) with (zlen (ns ++ [x])) by zl. eapply nbrs_replace; [exact N|exact Et| |done]. rewrite E. zl.
Qed.

(** Every occurrence of [x] behind [pre] leaves the list; in a directed graph each of
    them is one edge less. *)
Lemma u64_sub x y : u64 (u64 x - y) = u64 (x - y).
Proof. unfold u64. by rewrite Zminus_mod_idemp_l. Qed.

Definition minus_edges g (k : Z) : Z := if g_directed g then u64 (g_edge_count g - k) else g_edge_count g.

Lemma remove_loop_spec n i x post : forall pre fuel g, (length post <= fuel)%nat -> arrays_ok g n -> 0 <= i < n ->
  nbrs (slot_at g i) (pre ++ post) -> 0 <= g_edge_count g < two64 ->
  exists g' s', remove_loop fuel g i x (zlen pre) = Ret g' /\
    reslot n (set_edge_count (minus_edges g (zlen (filter (fun y => y = x) post))) g) g' (put (slot_at g) i s') /\
    nbrs s' (pre ++ filter (fun y => y <> x) post) /\
    taddr (sl_adj s') = taddr (sl_adj (slot_at g i)) /\ sl_removed s' = sl_removed (slot_at g i).
Proof.
  induction post as [|y post IH]; intros pre fuel g Hf O Hi N He;
    (pose proof (nbrs_bound _ _ N) as Hb; change (PTRDIFF_MAX / 4) with 2305843009213693951 in Hb).
  { destruct fuel; cbn [remove_loop]; rewrite (get_count g n i O Hi), (nb_count N), app_nil_r; cbn [obind]; rewrite decide_False by lia;
      (exists g, (slot_at g i); split; [done|]; rewrite !filter_nil; split; [|done]);
      (eapply reslot_ext; [|intros w Hw; unfold put; destruct (decide (w = i)) as [->|]; exact eq_refl]);
      (split; try done; cbn; unfold minus_edges; destruct (g_directed g); [rewrite zlen_nil, Z.sub_0_r; by rewrite u64_small|done]). }
  rewrite zlen_app, zlen_cons in Hb. pose proof (zlen_nonneg pre). pose proof (zlen_nonneg post).
  destruct fuel as [|fuel]; cbn [length] in Hf; [lia|]. cbn [remove_loop].
  rewrite (get_count g n i O Hi), (nb_count N). cbn [obind]. rewrite decide_True by (zl).
  rewrite (neighbor_spec g n i pre y post O Hi N). cbn [obind]. destruct (decide (y = x)) as [->|D].
  - destruct (cut_neighbor_spec g n i pre x post O Hi N) as (g1 & s1 & -> & R1 & N1 & A1 & F1). cbn [obind].
    rewrite filter_cons_True, filter_cons_False by naive_solver. rewrite zlen_cons.
    assert ((if g_directed g1 then set_edge_count (u64 (g_edge_count g1 - 1)) g1 else g1) = set_edge_count (minus_edges g1 1) g1)
      as -> by (unfold minus_edges; by destruct (g_directed g1), g1).
    assert (0 <= minus_edges g1 1 < two64) as He1.
    { unfold minus_edges. destruct (g_directed g1); [apply u64_range|]. by rewrite (rs_ecount _ _ _ _ R1). }
    pose proof (reslot_edges _ _ _ _ (minus_edges g1 1) R1) as R1'. pose proof (reslot_at _ _ _ _ _ _ R1' Hi) as E1.
    destruct (IH pre fuel (set_edge_count (minus_edges g1 1) g1)) as (g' & s' & -> & R2 & N2 & A2 & F2);
      [lia|apply R1'|done|by rewrite E1|done|].
    exists g', s'. split; [done|]. rewrite E1 in A2, F2. split; [|by rewrite A2, F2].
    assert (minus_edges g (1 + zlen (filter (fun y => y = x) post)) =
      minus_edges (set_edge_count (minus_edges g1 1) g1) (zlen (filter (fun y => y = x) post))) as ->.
    { unfold minus_edges. cbn. rewrite (rs_directed _ _ _ _ R1), (rs_ecount _ _ _ _ R1). destruct (g_directed g); [|done].
      rewrite u64_sub. f_equal. lia. }
    exact (reslot_put _ _ _ _ _ _ _ (reslot_edges _ _ _ _ _ R1) R2).
  - rewrite filter_cons_False, filter_cons_True by done. rewrite u64_small by lia. replace (zlen pre + 1) with (zlen (pre ++ [y])) by zl.
    destruct (IH (pre ++ [y]) fuel g) as (g' & s' & -> & R2 & N2 & A2 & F2); [lia|done|done|by rewrite <- app_assoc|done|].
    exists g', s'. rewrite <- app_assoc in N2. done.
Qed.
End Lists.

Lemma remove_vertex_from_adj_spec {C : Type} (g : zenit_graph_t C) n i x ns : arrays_ok g n -> 0 <= i < n -> nbrs (slot_at g i) ns ->
  0 <= g_edge_count g < two64 ->
  exists g' s', remove_vertex_from_adj g i x = Ret g' /\
    reslot n (set_edge_count (minus_edges g (zlen (filter (fun y => y = x) ns))) g) g' (put (slot_at g) i s') /\
    nbrs s' (filter (fun y => y <> x) ns) /\
    taddr (sl_adj s') = taddr (sl_adj (slot_at g i)) /\ sl_removed s' = sl_removed (slot_at g i).
Proof.
  intros O Hi N He. unfold remove_vertex_from_adj. rewrite (get_count g n i O Hi), (nb_count N). cbn [obind].
  apply (remove_loop_spec n i x ns []); try done. unfold zlen. lia.
Qed.

Lemma grow_capacity_bounds k : 2 <= k <= PTRDIFF_MAX -> k < grow_capacity k /\ 2 * grow_capacity k <= 3 * k.
Proof.
  intros Hk. unfold grow_capacity. rewrite decide_False by lia. pose proof (Z.div_mod k 2). pose proof (Z.mod_pos_bound k 2).
  rewrite u64_small; lia.
Qed.

(** ** Memory *)

(** The addresses of the lists of the first [n] slots, and of the handle and the four
    arrays. *)
Definition addrs (n : Z) (F : Z -> gslot) : list addr := mjoin ((fun v => opt_addr (taddr (sl_adj (F v)))) <$> seqZ 0 n).
Definition heads {C : Type} (g : zenit_graph_t C) : list addr :=
  g_self g :: opt_addr (taddr (g_adj g)) ++ opt_addr (taddr (g_counts g)) ++ opt_addr (taddr (g_capacities g)) ++
    opt_addr (taddr (g_removed g)).

Lemma mjoin_nil {A : Type} (ls : list (list A)) : (forall x, x ∈ ls -> x = []) -> mjoin ls = [].
Proof. induction ls as [|l ls IH]; intros H; [done|]. cbn [mjoin list_join]. rewrite (H l) by set_solver. apply IH. set_solver. Qed.

Lemma addrs_ext n F G : (forall v, 0 <= v < n -> taddr (sl_adj (F v)) = taddr (sl_adj (G v))) -> addrs n F = addrs n G.
Proof. intros H. unfold addrs. f_equal. apply list_fmap_ext. intros i v [-> Hv]%lookup_seqZ. rewrite H; [done|lia]. Qed.

Lemma addrs_put n F v : 0 <= v < n -> exists rest, forall s, addrs n (put F v s) ≡ₚ opt_addr (taddr (sl_adj s)) ++ rest.
Proof.
  intros Hv. exists (addrs v F ++ mjoin ((fun v => opt_addr (taddr (sl_adj (F v)))) <$> seqZ (v + 1) (n - v - 1))). intros s.
  unfold addrs. replace n with (v + (1 + (n - v - 1))) at 1 by lia. rewrite (seqZ_app 0 v), (seqZ_app (0 + v) 1) by lia.
  rewrite !fmap_app, !join_app. replace (seqZ (0 + v) 1) with [v] by (rewrite seqZ_cons by lia; done).
  cbn [fmap list_fmap mjoin list_join app]. unfold put at 2. rewrite decide_True by done. rewrite app_nil_r.
  assert (forall lo k, v < lo \/ lo + k <= v ->
    ((fun w => opt_addr (taddr (sl_adj (put F v s w)))) <$> seqZ lo k) = ((fun w => opt_addr (taddr (sl_adj (F w)))) <$> seqZ lo k)) as H.
  { intros lo k Hk. apply list_fmap_ext. intros i w [-> Hw]%lookup_seqZ. unfold put. rewrite decide_False; [done|lia]. }
  rewrite H by lia. rewrite H by lia. replace (0 + v + 1) with (v + 1) by lia. by rewrite Permutation_app_swap_app.
Qed.

Lemma addrs_at n F v : 0 <= v < n -> exists rest, addrs n F ≡ₚ opt_addr (taddr (sl_adj (F v))) ++ rest /\
  forall s, addrs n (put F v s) ≡ₚ opt_addr (taddr (sl_adj s)) ++ rest.
Proof.
  intros Hv. destruct (addrs_put n F v Hv) as [rest H]. exists rest. split; [|done]. rewrite <- H.
  erewrite addrs_ext; [done|]. intros w Hw. unfold put. destruct (decide (w = v)) as [->|]; done.
Qed.

Lemma heads_reslot {C : Type} n (g g' : zenit_graph_t C) F : reslot n g g' F -> heads g' = heads g.
Proof. intros []. unfold heads. congruence. Qed.

Lemma addrs_reslot {C : Type} n (g g' : zenit_graph_t C) F : reslot n g g' F -> addrs n (slot_at g') = addrs n F.
Proof. intros R. apply addrs_ext. intros v Hv. by rewrite (rs_slots _ _ _ _ R v Hv). Qed.

Section Memory.
Context {C : Type} (a : zenit_allocator_t C) {SP : AllocSpec a}.
Implicit Types (g : zenit_graph_t C) (c : C).

Definition holds c0 c n g : Prop := owns a c0 c (heads g ++ addrs n (slot_at g)).

Lemma holds_reslot c0 c n g g' F : holds c0 c n g -> reslot n g g' F ->
  (forall v, 0 <= v < n -> taddr (sl_adj (F v)) = taddr (sl_adj (slot_at g v))) -> holds c0 c n g'.
Proof.
  intros H R HF. unfold holds. rewrite (heads_reslot _ _ _ _ R), (addrs_reslot _ _ _ _ R), (addrs_ext n F (slot_at g)); done.
Qed.

Lemma ensure_adj_spec g n v ns c0 c : arrays_ok g n -> 0 <= v < n -> nbrs (slot_at g v) ns -> g_allocator g = a -> holds c0 c n g ->
  exists r g' s' c', ensure_adj g v c = Ret (r, g', c') /\ reslot n g g' (put (slot_at g) v s') /\ nbrs s' ns /\
    sl_removed s' = sl_removed (slot_at g v) /\ holds c0 c' n g' /\ (r = ZENIT_OK /\ zlen ns < sl_cap s' \/ r = ZENIT_ERROR_ALLOC).
Proof.
  intros O Hv N Ha H. pose proof (nbrs_bound _ _ N) as Hb. change (PTRDIFF_MAX / 4) with 2305843009213693951 in Hb.
  assert (reslot n g g (put (slot_at g) v (slot_at g v))) as Rid.
  { eapply reslot_ext; [by apply reslot_refl|]. intros w Hw. unfold put. destruct (decide (w = v)) as [->|]; done. }
  unfold ensure_adj. rewrite (get_count g n v O Hv), (nb_count N). cbn [obind]. rewrite (get_cap g n v O Hv). cbn [obind].
  case_decide as D.
  2: { exists ZENIT_OK, g, (slot_at g v), c. split_and!; try done. left. split; [done|lia]. }
  unfold grow_adj_list. rewrite (get_cap g n v O Hv). cbn [obind]. rewrite (get_adj g n v O Hv). cbn [obind].
  set (k := sl_cap (slot_at g v)) in *. pose proof (zlen_nonneg ns).
  assert (k < grow_capacity k /\ 8 <= grow_capacity k /\ grow_capacity k * 4 < two64) as (G1 & G2 & G3).
  { pose proof (nb_limit N) as Hl. fold k in Hl. destruct (decide (k = 0)) as [->|K]; [done|].
    pose proof (grow_capacity_bounds k). lia. }
  destruct (addrs_at n (slot_at g) v Hv) as (rest & P & P').
  unfold SIZEOF_INT. rewrite (u64_small (k * 4)), (u64_small (grow_capacity k * 4)) by lia. rewrite Ha.
  assert (owns a c0 c (opt_addr (taddr (sl_adj (slot_at g v))) ++ heads g ++ rest)) as Ho.
  { eapply owns_perm; [exact H|]. rewrite P. by rewrite Permutation_app_swap_app. }
  destruct (trealloc_cases a (sl_adj (slot_at g v)) k (grow_capacity k) 4 0 c c0 (heads g ++ rest)) as (p & c' & -> & Hp);
    [done|lia|lia|rewrite (nb_len N); done|rewrite (nb_len N); apply (nb_bytes N)|]. cbn [obind].
  destruct p as [t|].
  2: { exists ZENIT_ERROR_ALLOC, g, (slot_at g v), c'. split_and!; try done; [|by right]. eapply owns_perm; [exact Hp|].
       rewrite P. by rewrite Permutation_app_swap_app. }
  destruct Hp as (Hp & Lt & Bt & Mt & Kt).
  destruct (set_adj_spec g n v (Some t) O Hv) as (p1 & -> & R1). cbn [obind].
  destruct (set_capacities_spec (set_adj p1 g) n v (grow_capacity k) (rs_ok _ _ _ _ R1) Hv) as (p2 & E2 & R2).
  change (g_capacities (set_adj p1 g)) with (g_capacities g) in E2. rewrite E2. cbn [obind].
  pose proof (reslot_put _ _ _ _ _ _ _ R1 R2) as R. rewrite (reslot_at _ _ _ _ _ _ R1 Hv) in R. cbn [sl_adj sl_count sl_removed] in R.
  eexists _, _, _, _. split; [done|]. split; [exact R|]. split_and!; [|done| |left; split; [done|]; cbn [sl_cap]; lia].
  - split; cbn [sl_adj sl_count sl_cap tdata pbytes fmap option_fmap option_map]; [apply N|done|done| |lia].
    destruct (nb_room N) as [room E]. assert (room = []) as ->.
    { pose proof (nb_len N) as L. rewrite E, zlen_app in L. destruct room; [done|]. rewrite zlen_cons in L. pose proof (zlen_nonneg room). lia. }
    rewrite app_nil_r in E. rewrite E in Kt. exists (drop (Z.to_nat k) (ta_data t)).
    rewrite <- (take_drop (Z.to_nat k) (ta_data t)) at 1. rewrite Kt, take_ge; [done|]. unfold zlen in *. lia.
  - unfold holds. rewrite (heads_reslot _ _ _ _ R), (addrs_reslot _ _ _ _ R). eapply owns_perm; [exact Hp|]. rewrite P'.
    apply (Permutation_middle (heads g) rest).
Qed.

Lemma set_adj_same n g v : arrays_ok g n -> 0 <= v < n ->
  reslot n g (set_adj (g_adj g) g) (put (slot_at g) v (mk_slot (sl_adj (slot_at g v)) (sl_count (slot_at g v)) (sl_cap (slot_at g v)) (sl_removed (slot_at g v)))).
Proof.
  intros O Hv. assert (set_adj (g_adj g) g = g) as -> by (by destruct g). eapply reslot_ext; [by apply reslot_refl|].
  intros w Hw. unfold put. destruct (decide (w = v)) as [->|]; [by destruct (slot_at g v)|done].
Qed.

Lemma reset_slot_spec g n v c0 c : arrays_ok g n -> 0 <= v < n -> g_allocator g = a -> holds c0 c n g ->
  exists g' c', reset_slot v g c = Ret (g', c') /\ reslot n g g' (put (slot_at g) v (mk_slot None 0 0 1)) /\ holds c0 c' n g'.
Proof.
  intros O Hv Ha H. destruct (addrs_at n (slot_at g) v Hv) as (rest & P & P').
  assert (owns a c0 c (opt_addr (taddr (sl_adj (slot_at g v))) ++ heads g ++ rest)) as Ho.
  { eapply owns_perm; [exact H|]. rewrite P. by rewrite Permutation_app_swap_app. }
  unfold reset_slot. rewrite (get_adj g n v O Hv). cbn [obind].
  set (m := match sl_adj (slot_at g v) with Some _ => _ | None => _ end).
  assert (exists p1 c1, m = Ret (p1, c1) /\
    reslot n g (set_adj p1 g) (put (slot_at g) v (mk_slot None (sl_count (slot_at g v)) (sl_cap (slot_at g v)) (sl_removed (slot_at g v)))) /\
    owns a c0 c1 (heads g ++ rest)) as (p1 & c1 & -> & R1 & Ho1).
  { unfold m. destruct (sl_adj (slot_at g v)) as [t|] eqn:E.
    - destruct (set_adj_spec g n v None O Hv) as (p1 & -> & R1). cbn [obind]. eexists _, _. split; [done|]. split; [exact R1|].
      rewrite Ha. by apply owns_free_opt.
    - eexists _, _. split; [done|]. split; [|done]. rewrite <- E. by apply set_adj_same. }
  cbn [obind].
  destruct (set_counts_spec (set_adj p1 g) n v 0 (rs_ok _ _ _ _ R1) Hv) as (p2 & E2 & R2).
  change (g_counts (set_adj p1 g)) with (g_counts g) in E2. rewrite E2. cbn [obind].
  pose proof (reslot_put _ _ _ _ _ _ _ R1 R2) as R. rewrite (reslot_at _ _ _ _ _ _ R1 Hv) in R. cbn [sl_adj sl_count sl_cap sl_removed] in R.
  destruct (set_capacities_spec _ n v 0 (rs_ok _ _ _ _ R) Hv) as (p3 & E3 & R3).
  change (g_capacities (set_counts p2 (set_adj p1 g))) with (g_capacities g) in E3. rewrite E3. cbn [obind].
  pose proof (reslot_put _ _ _ _ _ _ _ R R3) as R'. rewrite (reslot_at _ _ _ _ _ _ R Hv) in R'. cbn [sl_adj sl_count sl_cap sl_removed] in R'.
  destruct (set_removed_spec _ n v 1 (rs_ok _ _ _ _ R') Hv) as (p4 & E4 & R4).
  change (g_removed (set_capacities p3 (set_counts p2 (set_adj p1 g)))) with (g_removed g) in E4. rewrite E4. cbn [obind].
  pose proof (reslot_put _ _ _ _ _ _ _ R' R4) as R''. rewrite (reslot_at _ _ _ _ _ _ R' Hv) in R''. cbn [sl_adj sl_count sl_cap sl_removed] in R''.
  eexists _, _. split; [done|]. split; [exact R''|]. unfold holds. rewrite (heads_reslot _ _ _ _ R''), (addrs_reslot _ _ _ _ R'').
  eapply owns_perm; [exact Ho1|]. by rewrite P'.
Qed.

Lemma graph_clear_loop_spec n c0 (k : nat) : forall i g c, arrays_ok g n -> 0 <= i -> i + Z.of_nat k <= n -> n < two64 -> g_allocator g = a -> holds c0 c n g ->
  exists g' c', clear_loop k i g c = Ret (g', c') /\
    reslot n g g' (fun v => if decide (i <= v < i + Z.of_nat k) then mk_slot None 0 0 1 else slot_at g v) /\ holds c0 c' n g'.
Proof.
  induction k as [|k IH]; intros i g c O Hi Hk Hn Ha H; cbn [clear_loop].
  { exists g, c. split; [done|]. split; [|done]. eapply reslot_ext; [by apply reslot_refl|]. intros v Hv. by rewrite decide_False by lia. }
  destruct (reset_slot_spec g n i c0 c) as (g1 & c1 & -> & R1 & H1); [done|lia|done|done|]. cbn [obind].
  rewrite u64_small by lia.
  destruct (IH (i + 1) g1 c1) as (g' & c' & -> & R2 & H2); [apply R1|lia|lia|done|by rewrite (rs_alloc _ _ _ _ R1)|done|].
  exists g', c'. split; [done|]. split; [|done]. eapply reslot_ext; [exact (reslot_trans _ _ _ _ _ _ R1 R2)|].
  intros v Hv. cbn beta. rewrite (rs_slots _ _ _ _ R1 v Hv). unfold put.
  repeat case_decide; try done; lia.
Qed.

(** ** Growing the vertex arrays *)

(** The arrays may have moved; the first [n] slots and the rest are as they were. *)
Record moved n g g' : Prop := {
  mv_ok : arrays_ok g' n;
  mv_slots v : 0 <= v < n -> slot_at g' v = slot_at g v;
  mv_self : g_self g' = g_self g;
  mv_alloc : g_allocator g' = g_allocator g;
  mv_directed : g_directed g' = g_directed g;
  mv_vcount : g_vertex_count g' = g_vertex_count g;
  mv_ecount : g_edge_count g' = g_edge_count g }.

Lemma moved_holds c0 c n g g' : moved n g g' -> owns a c0 c (heads g' ++ addrs n (slot_at g)) -> holds c0 c n g'.
Proof. intros M H. unfold holds. rewrite (addrs_ext n _ (slot_at g)); [done|]. intros v Hv. by rewrite (mv_slots _ _ _ M). Qed.
End Memory.

Section Grow.
Context {A : Type}.
Implicit Types (p : option (tarr A)).

Lemma array_ok_le p n k sz : array_ok p n sz -> k <= n -> array_ok p k sz.
Proof. intros (? & ? & ?) ?. split_and!; [done|lia|done]. Qed.

Definition same_upto (d : A) (k : Z) p q : Prop :=
  forall v, 0 <= v < k -> default d (tdata p !! Z.to_nat v) = default d (tdata q !! Z.to_nat v).

Lemma grow_array {C : Type} (a : zenit_allocator_t C) {SP : AllocSpec a} p (k n sz : Z) (junk : A) c c0 P L :
  array_ok p k sz -> owns a c0 c (P ++ opt_addr (taddr p) ++ L) -> 0 <= k <= n -> 0 < sz -> n * sz < two64 ->
  exists r c', trealloc a p (u64 (k * sz)) (u64 (n * sz)) sz junk c = Ret (r, c') /\
    match r with
    | None => owns a c0 c' (P ++ opt_addr (taddr p) ++ L)
    | Some t => owns a c0 c' (P ++ opt_addr (taddr r) ++ L) /\ array_ok r n sz /\ n * sz <= PTRDIFF_MAX /\ forall d, same_upto d k r p
    end.
Proof.
  intros (Np & Hl & Hb) O Hk Hs Hn. rewrite (u64_small (k * sz)), (u64_small (n * sz)) by nia.
  assert (forall X, P ++ X ++ L ≡ₚ X ++ P ++ L) as Sw by (intros X; apply Permutation_app_swap_app).
  destruct (trealloc_cases a p k n sz junk c c0 (P ++ L)) as (r & c' & -> & H); [by eapply owns_perm|done..|].
  exists r, c'. split; [done|]. destruct r as [t|]; [|by eapply owns_perm].
  destruct H as (H & Lt & Bt & Mt & Kt). split_and!; [by eapply owns_perm| |done|].
  - split_and!; [done|cbn; lia|cbn; by rewrite Bt, Lt].
  - intros d v Hv. cbn [tdata]. apply (f_equal (fun l => l !! Z.to_nat v)) in Kt. rewrite !lookup_take_lt in Kt by lia. by rewrite Kt.
Qed.

Lemma tfill_spec p k n sz (x d : A) : array_ok p n sz -> 0 <= k <= n -> exists p', tfill p k (n - k) x = Ret p' /\ array_ok p' n sz /\
  taddr p' = taddr p /\ forall w, 0 <= w < n -> default d (tdata p' !! Z.to_nat w) = if decide (k <= w) then x else default d (tdata p !! Z.to_nat w).
Proof.
  intros (Np & Hl & Hb) Hk. destruct p as [t|]; [|done]. cbn [tdata tfill] in *. rewrite decide_True by lia. eexists. split; [done|].
  cbn [taddr fmap option_fmap option_map ta_block tdata ta_data]. set (d' := _ ++ _).
  assert (zlen d' = zlen (ta_data t)) as Ld.
  { unfold d'. rewrite !zlen_app, zlen_replicate, zlen_take, zlen_drop. unfold zlen in *. lia. }
  split; [|split; [done|]].
  { split_and!; [done|cbn; lia|cbn in *; by rewrite Ld]. }
  assert (length (take (Z.to_nat k) (ta_data t)) = Z.to_nat k) as Lk by (rewrite length_take; unfold zlen in *; lia).
  intros w Hw. unfold d'. case_decide.
  - rewrite lookup_app_r by lia. rewrite lookup_app_l by (rewrite length_replicate; lia). rewrite lookup_replicate_2 by lia. done.
  - rewrite lookup_app_l by lia. by rewrite lookup_take_lt by lia.
Qed.
End Grow.

Lemma mark_removed_spec (m : nat) : forall p k n, array_ok p n 4 -> 0 <= k -> k + Z.of_nat m = n -> n < two64 ->
  exists p', mark_removed m k p = Ret p' /\ array_ok p' n 4 /\ taddr p' = taddr p /\
    forall w, 0 <= w < n -> default 0 (tdata p' !! Z.to_nat w) = if decide (k <= w) then 1 else default 0 (tdata p !! Z.to_nat w).
Proof.
  induction m as [|m IH]; intros p k n O Hk E Hn; cbn [mark_removed].
  { exists p. split_and!; try done; try apply O. intros w Hw. by rewrite decide_False by lia. }
  destruct (array_set p n 4 k 1 0 O) as (p1 & -> & O1 & A1 & G1); [lia|]. cbn [obind]. rewrite u64_small by lia.
  destruct (IH p1 (k + 1) n) as (p' & -> & O2 & A2 & G2); [done|lia|lia|done|]. exists p'. split_and!; [done|done|congruence|].
  intros w Hw. rewrite G2, G1 by lia. repeat case_decide; done || lia.
Qed.

Section GrowVertices.
Context {C : Type} (a : zenit_allocator_t C) {SP : AllocSpec a}.
Implicit Types (g : zenit_graph_t C) (c : C).

Lemma moved_refl n g : arrays_ok g n -> moved n g g.
Proof. by split. Qed.

Ltac moved_tac := intros [[] S] O E; split; try done; try (by split); intros v Hv; rewrite <- S by done; unfold slot_at; cbn; by rewrite E.

Lemma moved_adj k g0 g p : moved k g0 g -> array_ok p k 8 -> same_upto None k p (g_adj g) -> moved k g0 (set_adj p g).
Proof. moved_tac. Qed.
Lemma moved_counts k g0 g p : moved k g0 g -> array_ok p k 8 -> same_upto 0 k p (g_counts g) -> moved k g0 (set_counts p g).
Proof. moved_tac. Qed.
Lemma moved_capacities k g0 g p : moved k g0 g -> array_ok p k 8 -> same_upto 0 k p (g_capacities g) -> moved k g0 (set_capacities p g).
Proof. moved_tac. Qed.
Lemma moved_removed k g0 g p : moved k g0 g -> array_ok p k 4 -> same_upto 0 k p (g_removed g) -> moved k g0 (set_removed p g).
Proof. moved_tac. Qed.

(** The slots added by growth are free. *)
Definition fresh_slot : gslot := mk_slot None 0 0 1.

Ltac heads_eq :=
  unfold heads; cbn [set_vertex_capacity set_removed set_capacities set_counts set_adj g_self g_adj g_counts g_capacities g_removed];
  congruence.

(** With all four arrays at the new size. *)
Lemma fill_new_slots k n g : arrays_ok g n -> 0 <= k <= n -> n < two64 ->
  exists p q r s, tfill (g_adj g) k (n - k) None = Ret p /\ tfill (g_counts g) k (n - k) 0 = Ret q /\
    tfill (g_capacities g) k (n - k) 0 = Ret r /\ mark_removed (Z.to_nat (n - k)) k (g_removed g) = Ret s /\
    let g' := set_vertex_capacity n (set_removed s (set_capacities r (set_counts q (set_adj p g)))) in
    arrays_ok g' n /\ heads g' = heads g /\ (forall v, 0 <= v < k -> slot_at g' v = slot_at g v) /\
    (forall v, k <= v < n -> slot_at g' v = fresh_slot).
Proof.
  intros O Hk Hn. destruct (tfill_spec (g_adj g) k n 8 None None (ao_adj _ _ O) Hk) as (p & Ep & Op & Ap & Gp).
  destruct (tfill_spec (g_counts g) k n 8 0 0 (ao_counts _ _ O) Hk) as (q & Eq & Oq & Aq & Gq).
  destruct (tfill_spec (g_capacities g) k n 8 0 0 (ao_caps _ _ O) Hk) as (r & Er & Or & Ar & Gr).
  destruct (mark_removed_spec (Z.to_nat (n - k)) (g_removed g) k n (ao_removed _ _ O)) as (s & Es & Os & As & Gs); [lia|lia|done|].
  exists p, q, r, s. split_and!; try done. cbv zeta. split_and!; [by split|heads_eq| |];
    intros v Hv; unfold slot_at, fresh_slot; cbn; rewrite Gp, Gq, Gr, Gs by lia; repeat case_decide; done || lia.
Qed.

(** What growth may return. *)
Definition grown c0 g (m : outcome (zenit_error_t * zenit_graph_t C * C)) : Prop :=
  let k := g_vertex_capacity g in
  exists r g' c', m = Ret (r, g', c') /\ moved k g g' /\
    (r = ZENIT_ERROR_ALLOC /\ g_vertex_capacity g' = k /\ holds a c0 c' k g' \/
     r = ZENIT_OK /\ exists n, g_vertex_capacity g' = n /\ k < n /\ n * 8 <= PTRDIFF_MAX /\ arrays_ok g' n /\
       (forall v, k <= v < n -> slot_at g' v = fresh_slot) /\ holds a c0 c' n g').

Lemma grown_fails c0 g g' c' : let k := g_vertex_capacity g in
  moved k g g' -> owns a c0 c' (heads g' ++ addrs k (slot_at g)) -> g_vertex_capacity g' = k -> grown c0 g (Ret (ZENIT_ERROR_ALLOC, g', c')).
Proof.
  intros k M H E. exists ZENIT_ERROR_ALLOC, g', c'. split; [done|]. split; [done|]. left. split_and!; [done|done|].
  by eapply moved_holds.
Qed.

(** The last part of growth: all arrays have their new size. *)
Lemma grown_ok c0 g g' c' n : let k := g_vertex_capacity g in
  0 <= k < n -> n * 8 <= PTRDIFF_MAX -> moved k g g' -> arrays_ok g' n -> owns a c0 c' (heads g' ++ addrs k (slot_at g)) ->
  grown c0 g (
    let! p := tfill (g_adj g') k (u64 (n - k)) None in
    let! q := tfill (g_counts g') k (u64 (n - k)) 0 in
    let! r := tfill (g_capacities g') k (u64 (n - k)) 0 in
    let g2 := set_capacities r (set_counts q (set_adj p g')) in
    let! s := mark_removed (Z.to_nat (n - k)) k (g_removed g2) in
    Ret (ZENIT_OK, set_vertex_capacity n (set_removed s g2), c')).
Proof.
  intros k Hk Hn M O H. rewrite u64_small by lia.
  destruct (fill_new_slots k n g' O) as (p & q & r & s & -> & -> & -> & Es & O2 & Hh & S1 & S2); [lia|lia|]. cbn [obind].
  change (g_removed (set_capacities r (set_counts q (set_adj p g')))) with (g_removed g'). rewrite Es. cbn [obind].
  eexists _, _, _. split; [done|]. fold k. set (g2 := set_vertex_capacity _ _) in *. split.
  { destruct M. split; try done; [|intros v Hv; rewrite S1; auto]. split; eapply array_ok_le; try apply O2; lia. }
  right. split; [done|]. exists n. split_and!; try done; try lia. unfold holds. rewrite Hh.
  assert (addrs n (slot_at g2) = addrs k (slot_at g)) as ->; [|done].
  unfold addrs. replace n with (k + (n - k)) by lia. rewrite seqZ_app, fmap_app, join_app by lia.
  replace (mjoin ((fun v => opt_addr (taddr (sl_adj (slot_at g2 v)))) <$> seqZ (0 + k) (n - k))) with (@nil addr).
  - rewrite app_nil_r. f_equal. apply list_fmap_ext. intros i v [-> Hv]%lookup_seqZ. rewrite S1 by lia. by rewrite (mv_slots _ _ _ M) by lia.
  - symmetry. apply mjoin_nil. intros x (v & -> & Hv)%list_elem_of_fmap. apply elem_of_seqZ in Hv. by rewrite S2 by lia.
Qed.

Lemma grow_vertex_arrays_spec g c0 c : let k := g_vertex_capacity g in
  arrays_ok g k -> 2 <= k -> k * 8 <= PTRDIFF_MAX -> g_allocator g = a -> holds a c0 c k g -> grown c0 g (grow_vertex_arrays g c).
Proof.
  intros k O Hk Hm Ha H. unfold grow_vertex_arrays. fold k. rewrite Ha. destruct (grow_capacity_bounds k) as [G1 G2]; [lia|].
  set (n := grow_capacity k) in *. unfold SIZEOF_PTR, SIZEOF_SIZE, SIZEOF_INT. set (R := addrs k (slot_at g)).
  assert (moved k g g) as M0 by (by apply moved_refl).
  unfold holds, heads in H. rewrite <- app_comm_cons, <- !app_assoc in H.
  destruct (grow_array a (g_adj g) k n 8 None c c0 [g_self g]
    (opt_addr (taddr (g_counts g)) ++ opt_addr (taddr (g_capacities g)) ++ opt_addr (taddr (g_removed g)) ++ R))
    as (p1 & c1 & -> & H1); [apply O|exact H|lia|lia|lia|]; cbn [obind].
  destruct p1 as [t1|]; [|apply grown_fails; [done| |done]; unfold heads; by rewrite <- app_comm_cons, <- !app_assoc].
  destruct H1 as (H1 & O1 & B1 & S1).
  pose proof (moved_adj k g g (Some t1) M0 (array_ok_le _ _ _ _ O1 (Z.lt_le_incl _ _ G1)) (S1 None)) as M1. set (g1 := set_adj (Some t1) g) in *.
  destruct (grow_array a (g_counts g1) k n 8 0 c1 c0 ([g_self g] ++ opt_addr (taddr (Some t1)))
    (opt_addr (taddr (g_capacities g)) ++ opt_addr (taddr (g_removed g)) ++ R))
    as (p2 & c2 & -> & H2); [apply M1|by rewrite <- app_assoc|lia|lia|lia|]; cbn [obind].
  destruct p2 as [t2|]; [|apply grown_fails; [done| |done]; unfold heads; rewrite <- app_comm_cons, <- !app_assoc; by rewrite <- app_assoc in H2].
  destruct H2 as (H2 & O2 & _ & S2).
  pose proof (moved_counts k g g1 (Some t2) M1 (array_ok_le _ _ _ _ O2 (Z.lt_le_incl _ _ G1)) (S2 0)) as M2. set (g2 := set_counts (Some t2) g1) in *.
  destruct (grow_array a (g_capacities g2) k n 8 0 c2 c0 (([g_self g] ++ opt_addr (taddr (Some t1))) ++ opt_addr (taddr (Some t2)))
    (opt_addr (taddr (g_removed g)) ++ R))
    as (p3 & c3 & -> & H3); [apply M2|by rewrite <- app_assoc|lia|lia|lia|]; cbn [obind].
  destruct p3 as [t3|]; [|apply grown_fails; [done| |done]; unfold heads; rewrite <- app_comm_cons, <- !app_assoc; by rewrite <- !app_assoc in H3].
  destruct H3 as (H3 & O3 & _ & S3).
  pose proof (moved_capacities k g g2 (Some t3) M2 (array_ok_le _ _ _ _ O3 (Z.lt_le_incl _ _ G1)) (S3 0)) as M3. set (g3 := set_capacities (Some t3) g2) in *.
  destruct (grow_array a (g_removed g3) k n 4 0 c3 c0 ((([g_self g] ++ opt_addr (taddr (Some t1))) ++ opt_addr (taddr (Some t2))) ++ opt_addr (taddr (Some t3))) R)
    as (p4 & c4 & -> & H4); [apply M3|by rewrite <- app_assoc|lia|lia|lia|]; cbn [obind].
  destruct p4 as [t4|]; [|apply grown_fails; [done| |done]; unfold heads; rewrite <- app_comm_cons, <- !app_assoc; by rewrite <- !app_assoc in H4].
  destruct H4 as (H4 & O4 & _ & S4).
  pose proof (moved_removed k g g3 (Some t4) M3 (array_ok_le _ _ _ _ O4 (Z.lt_le_incl _ _ G1)) (S4 0)) as M4. set (g4 := set_removed (Some t4) g3) in *.
  apply (grown_ok c0 g g4 c4 n); [lia|lia|done|by split|]. unfold heads. rewrite <- app_comm_cons, <- !app_assoc. by rewrite <- !app_assoc in H4.
Qed.
End GrowVertices.
