(* ===== verification/GraphSpec.v ===== *)
(** * Graphs: the operations on an adjacency map

    A graph is a finite map from the vertices in use to their lists of neighbours.
    [graph_rep] ties the arrays of [Graph] to it, [graph_wf] says what the lists obey,
    and every call is a step on the map ([graph_step]); the theorem is
    [graph_refines]. *)

From Stdlib Require Import ZArith Lia.
From stdpp Require Import base tactics option list numbers gmap sets.
From S2P Require Import Prelude Mem Result Allocator Links Arrays Machine Graph GraphMemory.
Open Scope Z_scope.

Abbreviation amap := (gmap Z (list Z)).

(** ** Sums over a map *)

Definition esum (f : Z -> list Z -> Z) (m : amap) : Z := map_fold (fun v ns acc => f v ns + acc) 0 m.

Lemma esum_insert f m v ns : m !! v = None -> esum f (<[v := ns]> m) = f v ns + esum f m.
Proof. intros E. unfold esum. rewrite map_fold_insert_L; [done|lia|done]. Qed.

Lemma esum_delete f m v ns : m !! v = Some ns -> esum f (delete v m) = esum f m - f v ns.
Proof.
  intros E. assert (m = <[v := ns]> (delete v m)) as Em by (by rewrite insert_delete_id). rewrite Em at 2.
  rewrite esum_insert by apply lookup_delete_eq. lia.
Qed.

Lemma esum_update f m v ns ns' : m !! v = Some ns -> esum f (<[v := ns']> m) = esum f m - f v ns + f v ns'.
Proof.
  intros E. rewrite <- insert_delete_eq, esum_insert by apply lookup_delete_eq. rewrite (esum_delete f m v ns E). lia.
Qed.

Lemma esum_ext f f' m : (forall v ns, m !! v = Some ns -> f v ns = f' v ns) -> esum f m = esum f' m.
Proof.
  induction m as [|v ns m Hv IH] using map_ind; intros H; [done|]. rewrite !esum_insert by done.
  rewrite (H v ns) by apply lookup_insert_eq. f_equal. apply IH. intros w ws E. apply H. rewrite lookup_insert_ne; [done|congruence].
Qed.

Lemma esum_minus f f' m : esum (fun v ns => f v ns - f' v ns) m = esum f m - esum f' m.
Proof. induction m as [|v ns m Hv IH] using map_ind; [done|]. rewrite !esum_insert by done. lia. Qed.

Lemma esum_fmap f (h : list Z -> list Z) m : esum f (h <$> m) = esum (fun v ns => f v (h ns)) m.
Proof.
  induction m as [|v ns m Hv IH] using map_ind; [by rewrite fmap_empty|]. rewrite fmap_insert, !esum_insert; [lia|done|].
  by rewrite lookup_fmap, Hv.
Qed.

(** A list of distinct vertices is as long as the number of vertices in it. *)
Lemma esum_members m (l : list Z) : NoDup l -> (forall u, u ∈ l -> is_Some (m !! u)) ->
  esum (fun u _ => if decide (u ∈ l) then 1 else 0) m = zlen l.
Proof.
  induction 1 as [|x l Hx _ IH]; intros Hd.
  { rewrite (esum_ext _ (fun _ _ => 0 - 0)) by (intros; by rewrite decide_False by set_solver). rewrite esum_minus. change (zlen []) with 0. lia. }
  rewrite zlen_cons, <- IH by set_solver. destruct (Hd x) as [ns E]; [set_solver|].
  assert (m = <[x := ns]> (delete x m)) as -> by (by rewrite insert_delete_id).
  rewrite !esum_insert by apply lookup_delete_eq. rewrite decide_True, decide_False by set_solver.
  rewrite (esum_ext _ (fun u _ => if decide (u ∈ l) then 1 else 0)); [lia|]. intros u us Eu.
  apply lookup_delete_Some in Eu as [D _]. repeat case_decide; set_solver.
Qed.

(** ** The specification *)

Definition nb (m : amap) (v : Z) : list Z := default [] (m !! v).

Definition graph_wf (directed : bool) (m : amap) : Prop :=
  forall v, NoDup (nb m v) /\ forall u, u ∈ nb m v -> is_Some (m !! u) /\ (directed = false -> v ∈ nb m u).

(** An undirected edge is counted where its first end is the smaller one. *)
Definition edge_share (directed : bool) (v : Z) (ns : list Z) : Z :=
  zlen (if directed then ns else filter (fun u => v <= u) ns).
Definition edges (directed : bool) (m : amap) : Z := esum (edge_share directed) m.

Definition link (u v : Z) (m : amap) : amap := <[u := nb m u ++ [v]]> m.
Definition unlink (u v : Z) (m : amap) : amap := <[u := filter (fun x => x <> v) (nb m u)]> m.

Definition spec_add_edge (directed : bool) (u v : Z) (m : amap) : amap :=
  if decide (v ∈ nb m u) then m
  else if decide (directed = false /\ u <> v) then link v u (link u v m) else link u v m.
Definition spec_remove_edge (directed : bool) (u v : Z) (m : amap) : amap :=
  if decide (directed = false /\ u <> v) then unlink v u (unlink u v m) else unlink u v m.
Definition spec_remove_vertex (v : Z) (m : amap) : amap := delete v (filter (fun x => x <> v) <$> m).

(** ** The lists stay well formed *)

Lemma nb_insert m u l w : nb (<[u := l]> m) w = if decide (w = u) then l else nb m w.
Proof. unfold nb. case_decide as D; [subst; by rewrite lookup_insert_eq|by rewrite lookup_insert_ne]. Qed.

Lemma nb_Some m v ns : m !! v = Some ns -> nb m v = ns.
Proof. unfold nb. by intros ->. Qed.

Lemma is_Some_insert (m : amap) u l w : is_Some (m !! w) -> is_Some (<[u := l]> m !! w).
Proof. destruct (decide (w = u)) as [->|D]; [rewrite lookup_insert_eq; by eexists|by rewrite lookup_insert_ne]. Qed.

Lemma wf_empty dir : graph_wf dir empty.
Proof. intros v. unfold nb. rewrite lookup_empty. split; [constructor|set_solver]. Qed.

Lemma wf_add_vertex dir m v : graph_wf dir m -> m !! v = None -> graph_wf dir (<[v := []]> m).
Proof.
  intros W E w. rewrite nb_insert. case_decide; [split; [constructor|set_solver]|]. split; [apply W|]. intros u Hu.
  destruct (proj2 (W w) u Hu) as [Hd Hs]. split; [by apply is_Some_insert|]. rewrite nb_insert. case_decide; [|done].
  subst. rewrite E in Hd. by destruct Hd.
Qed.

Lemma wf_link dir m u v : graph_wf dir m -> is_Some (m !! v) -> v ∉ nb m u -> (dir = false -> u = v) -> graph_wf dir (link u v m).
Proof.
  intros W Hv N Hd w. unfold link. rewrite nb_insert. case_decide as D.
  - subst w. split; [apply NoDup_app; split_and!; [apply W|set_solver|apply NoDup_singleton]|]. intros x [Hx| ->%list_elem_of_singleton]%elem_of_app.
    + destruct (proj2 (W u) x Hx) as [? Hs]. split; [by apply is_Some_insert|]. intros E. rewrite nb_insert. case_decide; set_solver.
    + split; [by apply is_Some_insert|]. intros E. rewrite nb_insert. rewrite (Hd E). rewrite decide_True by done. set_solver.
  - split; [apply W|]. intros x Hx. destruct (proj2 (W w) x Hx) as [? Hs]. split; [by apply is_Some_insert|].
    intros E. rewrite nb_insert. case_decide; [subst; set_solver|auto].
Qed.

Lemma wf_link2 m u v : graph_wf false m -> is_Some (m !! u) -> is_Some (m !! v) -> v ∉ nb m u -> u <> v ->
  graph_wf false (link v u (link u v m)).
Proof.
  intros W Hu Hv N D. assert (u ∉ nb m v) as N' by (intros H; apply N; by apply (W v)).
  assert (forall w, nb (link v u (link u v m)) w = if decide (w = v) then nb m v ++ [u] else if decide (w = u) then nb m u ++ [v] else nb m w) as E.
  { intros w. unfold link. rewrite !nb_insert. rewrite (decide_False (P := v = u)) by done. done. }
  intros w. rewrite E. split.
  { repeat case_decide; subst; [apply NoDup_app; split_and!; [apply W|set_solver|apply NoDup_singleton]..|apply W]. }
  intros x Hx. split.
  - do 2 apply is_Some_insert. repeat case_decide; subst; [apply elem_of_app in Hx as [Hx|Hx]..|]; try (by eapply W); set_solver.
  - intros _. rewrite E.
    assert (x ∈ nb m w \/ w = v /\ x = u \/ w = u /\ x = v) as H by (repeat case_decide; subst; set_solver).
    destruct H as [H|[[-> ->]|[-> ->]]]; [apply W in H as [_ H]; specialize (H eq_refl)|..]; repeat case_decide; subst; set_solver.
Qed.

Lemma wf_add_edge dir m u v : graph_wf dir m -> is_Some (m !! u) -> is_Some (m !! v) -> graph_wf dir (spec_add_edge dir u v m).
Proof.
  intros W Hu Hv. unfold spec_add_edge. case_decide; [done|]. case_decide as D.
  - destruct D as [-> D]. by apply wf_link2.
  - apply wf_link; try done. intros E. destruct (decide (u = v)); [done|]. tauto.
Qed.

Lemma elem_of_remove_edge dir m u v w x :
  x ∈ nb (spec_remove_edge dir u v m) w <-> x ∈ nb m w /\ ~ (w = u /\ x = v \/ dir = false /\ w = v /\ x = u).
Proof.
  unfold spec_remove_edge, unlink. case_decide as D.
  - rewrite !nb_insert. rewrite (decide_False (P := v = u)) by naive_solver.
    repeat case_decide; rewrite ?list_elem_of_filter; naive_solver.
  - rewrite nb_insert. case_decide; rewrite ?list_elem_of_filter; [|naive_solver].
    subst. destruct (decide (u = v)); naive_solver.
Qed.

Lemma wf_remove_edge dir m u v : graph_wf dir m -> graph_wf dir (spec_remove_edge dir u v m).
Proof.
  intros W w. split.
  - unfold spec_remove_edge, unlink. case_decide; rewrite !nb_insert; repeat case_decide; repeat apply NoDup_filter; apply W.
  - intros x [Hx N]%elem_of_remove_edge. destruct (proj2 (W w) x Hx) as [Hs Hd]. split.
    + unfold spec_remove_edge, unlink. case_decide; by repeat apply is_Some_insert.
    + intros E. apply elem_of_remove_edge. split; [auto|]. naive_solver.
Qed.

Lemma nb_remove_vertex m v w : nb (spec_remove_vertex v m) w = if decide (w = v) then [] else filter (fun x => x <> v) (nb m w).
Proof.
  unfold nb, spec_remove_vertex. case_decide; [subst; by rewrite lookup_delete_eq|]. rewrite lookup_delete_ne, lookup_fmap by done.
  by destruct (m !! w).
Qed.

Lemma wf_remove_vertex dir m v : graph_wf dir m -> graph_wf dir (spec_remove_vertex v m).
Proof.
  intros W w. rewrite nb_remove_vertex. case_decide as D; [split; [constructor|set_solver]|]. split; [apply NoDup_filter, W|].
  intros x [N Hx]%list_elem_of_filter. destruct (proj2 (W w) x Hx) as [Hs Hd]. split.
  - unfold spec_remove_vertex. rewrite lookup_delete_ne, lookup_fmap by done. by apply fmap_is_Some.
  - intros E. rewrite nb_remove_vertex, decide_False by done. apply list_elem_of_filter. auto.
Qed.

(** ** How many edges there are *)

Lemma share_app dir v l1 l2 : edge_share dir v (l1 ++ l2) = edge_share dir v l1 + edge_share dir v l2.
Proof. unfold edge_share. destruct dir; [|rewrite filter_app]; by rewrite zlen_app. Qed.

Lemma share_one dir v u : edge_share dir v [u] = if decide (dir = true \/ v <= u) then 1 else 0.
Proof.
  unfold edge_share. destruct dir; [by rewrite decide_True by (by left)|]. rewrite filter_cons, filter_nil.
  repeat case_decide; try done; naive_solver.
Qed.

Lemma edges_link dir m u v : is_Some (m !! u) -> edges dir (link u v m) = edges dir m + edge_share dir u [v].
Proof.
  intros [ns E]. unfold edges, link. rewrite (esum_update _ _ _ _ _ E), (nb_Some _ _ _ E), share_app. lia.
Qed.

Lemma edges_add_edge dir m u v : is_Some (m !! u) -> is_Some (m !! v) -> v ∉ nb m u ->
  edges dir (spec_add_edge dir u v m) = edges dir m + 1.
Proof.
  intros Hu Hv N. unfold spec_add_edge. rewrite decide_False by done. case_decide as D.
  - destruct D as [-> D]. rewrite !edges_link by (try done; by apply is_Some_insert). rewrite !share_one. repeat case_decide; naive_solver lia.
  - rewrite edges_link, share_one by done. destruct (decide (u = v)); case_decide; destruct dir; naive_solver lia.
Qed.

Lemma filter_notin (x : Z) (l : list Z) : x ∉ l -> filter (fun y => y <> x) l = l.
Proof. induction l as [|y l IH]; intros Hl; [done|]. rewrite filter_cons_True, IH; set_solver. Qed.

(** Taking [x] out of a list of distinct vertices. *)
Lemma share_filter dir v x (l : list Z) : NoDup l ->
  edge_share dir v (filter (fun y => y <> x) l) = edge_share dir v l - (if decide (x ∈ l) then edge_share dir v [x] else 0).
Proof.
  intros ND. case_decide as D.
  - apply list_elem_of_split in D as (l1 & l2 & ->). apply NoDup_app in ND as (_ & N1 & ND). apply NoDup_cons in ND as [N2 _].
    rewrite filter_app, filter_cons_False by naive_solver. rewrite !filter_notin by set_solver. rewrite (share_app dir v l1 (x :: l2)).
    change (x :: l2) with ([x] ++ l2). rewrite !share_app. lia.
  - rewrite filter_notin by done. lia.
Qed.

Lemma edges_unlink dir m u v : graph_wf dir m -> is_Some (m !! u) ->
  edges dir (unlink u v m) = edges dir m - (if decide (v ∈ nb m u) then edge_share dir u [v] else 0).
Proof.
  intros W [ns E]. unfold edges, unlink. rewrite (esum_update _ _ _ _ _ E), (nb_Some _ _ _ E), share_filter; [lia|].
  rewrite <- (nb_Some _ _ _ E). apply W.
Qed.

Lemma edges_remove_edge dir m u v : graph_wf dir m -> is_Some (m !! u) -> is_Some (m !! v) ->
  edges dir (spec_remove_edge dir u v m) = edges dir m - (if decide (v ∈ nb m u) then 1 else 0).
Proof.
  intros W Hu Hv. unfold spec_remove_edge. case_decide as D.
  - destruct D as [-> D].
    assert (edges false (unlink v u (unlink u v m)) = edges false (unlink u v m) - (if decide (u ∈ nb m v) then edge_share false v [u] else 0)) as ->.
    { destruct Hv as [vs Ev]. unfold edges, unlink at 1. rewrite (esum_update _ _ v vs) by (unfold unlink; by rewrite lookup_insert_ne).
      unfold unlink at 2. rewrite nb_insert, decide_False by done. rewrite (nb_Some _ _ _ Ev), share_filter; [lia|].
      rewrite <- (nb_Some _ _ _ Ev). apply W. }
    rewrite edges_unlink by done. assert (u ∈ nb m v <-> v ∈ nb m u) as Hs by (split; intros H; apply W in H as [_ H]; auto).
    rewrite !share_one. repeat case_decide; naive_solver lia.
  - rewrite edges_unlink, share_one by done. destruct (decide (u = v)); repeat case_decide; destruct dir; naive_solver lia.
Qed.

(** What goes with a vertex: the edges that leave it, and for each other vertex the
    edge to it. *)
Lemma edges_remove_vertex dir m v ns : graph_wf dir m -> m !! v = Some ns ->
  edges dir (spec_remove_vertex v m) =
    edges dir m - edge_share dir v ns - esum (fun u us => if decide (u <> v /\ v ∈ us) then edge_share dir u [v] else 0) m.
Proof.
  intros W E. unfold edges, spec_remove_vertex. rewrite (esum_delete _ _ v (filter (fun x => x <> v) ns)) by (by rewrite lookup_fmap, E).
  rewrite esum_fmap. rewrite (esum_ext _ (fun u us => edge_share dir u us - (if decide (v ∈ us) then edge_share dir u [v] else 0))).
  2: { intros u us Eu. apply share_filter. rewrite <- (nb_Some _ _ _ Eu). apply W. }
  rewrite esum_minus, share_filter by (rewrite <- (nb_Some _ _ _ E); apply W).
  assert (m = <[v := ns]> (delete v m)) as Em by (by rewrite insert_delete_id). set (m' := delete v m) in *.
  assert (m' !! v = None) as N by apply lookup_delete_eq. rewrite Em, !esum_insert by done. rewrite (decide_False (P := v <> v /\ _)) by naive_solver.
  rewrite (esum_ext (fun u us => if decide (u <> v /\ v ∈ us) then edge_share dir u [v] else 0)
    (fun u us => if decide (v ∈ us) then edge_share dir u [v] else 0) m'); [lia|].
  intros u us Eu. assert (u <> v) by congruence. repeat case_decide; naive_solver.
Qed.

Lemma edges_remove_vertex_undirected m v ns : graph_wf false m -> m !! v = Some ns ->
  edges false (spec_remove_vertex v m) = edges false m - zlen ns.
Proof.
  intros W E. rewrite (edges_remove_vertex _ _ _ _ W E). pose proof (nb_Some _ _ _ E) as En.
  rewrite (esum_ext _ (fun u _ => if decide (u ∈ filter (fun x => x < v) ns) then 1 else 0)).
  2: { intros u us Eu. rewrite share_one. assert (u ∈ ns <-> v ∈ us) as Hs.
       { rewrite <- En, <- (nb_Some _ _ _ Eu). split; intros H; apply W in H as [_ H]; auto. }
       assert (u ∈ filter (fun x => x < v) ns <-> u < v /\ u ∈ ns) as Hf by (by rewrite list_elem_of_filter).
       destruct (Z.lt_trichotomy u v) as [?|[?|?]]; repeat case_decide; try done; exfalso; naive_solver lia. }
  rewrite esum_members.
  - unfold edge_share. enough (zlen ns = zlen (filter (fun u => v <= u) ns) + zlen (filter (fun u => u < v) ns)) by lia.
    clear. induction ns as [|x ns IH]; [done|]. rewrite !filter_cons. repeat case_decide; rewrite ?zlen_cons; lia.
  - apply NoDup_filter. rewrite <- En. apply W.
  - intros u [_ Hu]%list_elem_of_filter. rewrite <- En in Hu. by eapply W.
Qed.

(** Taking out an edge that is not there changes nothing. *)
Lemma remove_edge_absent dir m u v : graph_wf dir m -> is_Some (m !! u) -> is_Some (m !! v) -> v ∉ nb m u -> spec_remove_edge dir u v m = m.
Proof.
  intros W [us Eu] [vs Ev] N. assert (unlink u v m = m) as U.
  { unfold unlink. rewrite filter_notin, (nb_Some _ _ _ Eu) by done. by apply insert_id. }
  unfold spec_remove_edge. rewrite U. case_decide as D; [|done]. destruct D as [-> D]. unfold unlink.
  rewrite filter_notin, (nb_Some _ _ _ Ev); [by apply insert_id|]. intros H. apply N. by apply (W v).
Qed.

Lemma spec_add_edge_size dir m u v : is_Some (m !! u) /\ is_Some (m !! v) -> size (spec_add_edge dir u v m) = size m.
Proof.
  intros [Hu Hv]. unfold spec_add_edge, link. repeat case_decide; [done| |].
  - rewrite !map_size_insert_Some; [done|done|by apply is_Some_insert].
  - by rewrite map_size_insert_Some.
Qed.
