(* ===== verification/GraphRefine.v ===== *)
(** * Graphs: the calls implement the adjacency map

    [graph_rep] holds between the arrays and the map of [GraphSpec]; every call keeps
    it and answers as the specification [graph_step] says. *)

From Stdlib Require Import ZArith Lia.
From stdpp Require Import base tactics option list numbers gmap sets.
From S2P Require Import Prelude Mem Result Allocator Links Arrays Machine Graph GraphMemory GraphSpec.
Open Scope Z_scope.

Definition slot_ok (s : gslot) (o : option (list Z)) : Prop :=
  match o with
  | None => sl_adj s = None /\ sl_count s = 0 /\ sl_cap s = 0 /\ sl_removed s <> 0
  | Some ns => sl_removed s = 0 /\ nbrs s ns
  end.

Section Refine.
Context {C : Type} (a : zenit_allocator_t C) {SP : AllocSpec a}.
Implicit Types (g : zenit_graph_t C) (c : C) (m : amap) (v w : Z).

(** The arrays hold the map. *)
Record graph_base c0 c g m : Prop := {
  gr_cap : 2 <= g_vertex_capacity g /\ g_vertex_capacity g * 8 <= PTRDIFF_MAX;
  gr_arrays : arrays_ok g (g_vertex_capacity g);
  gr_slots v : 0 <= v < g_vertex_capacity g -> slot_ok (slot_at g v) (m !! v);
  gr_dom v : is_Some (m !! v) -> 0 <= v < g_vertex_capacity g;
  gr_alloc : g_allocator g = a;
  gr_mem : holds a c0 c (g_vertex_capacity g) g;
  gr_vertices : g_vertex_count g = Z.of_nat (size m) }.
Arguments gr_cap {c0 c g m}.
Arguments gr_arrays {c0 c g m}.
Arguments gr_slots {c0 c g m}.
Arguments gr_dom {c0 c g m}.
Arguments gr_alloc {c0 c g m}.
Arguments gr_mem {c0 c g m}.
Arguments gr_vertices {c0 c g m}.

(** Between two calls the edges are counted and the lists well formed, too. *)
Record graph_rep c0 c g m : Prop := {
  gr_base : graph_base c0 c g m;
  gr_edges : g_edge_count g = u64 (edges (g_directed g) m);
  gr_wf : graph_wf (g_directed g) m }.
Arguments gr_base {c0 c g m}.
Arguments gr_edges {c0 c g m}.
Arguments gr_wf {c0 c g m}.

Lemma base_slot c0 c g m v ns : graph_base c0 c g m -> m !! v = Some ns ->
  0 <= v < g_vertex_capacity g /\ sl_removed (slot_at g v) = 0 /\ nbrs (slot_at g v) ns.
Proof.
  intros H E. assert (0 <= v < g_vertex_capacity g) as Hv by (apply H; by rewrite E). pose proof (gr_slots H v Hv) as S. by rewrite E in S.
Qed.

(** The vertices are numbers below the capacity. *)
Lemma size_bound c0 c g m : graph_base c0 c g m -> Z.of_nat (size m) <= g_vertex_capacity g < two64.
Proof.
  intros H. pose proof (gr_cap H). split; [|lia]. rewrite <- size_dom.
  assert (size (dom m) <= size (list_to_set (seqZ 0 (g_vertex_capacity g)) : gset Z))%nat as L.
  { apply subseteq_size. intros v [ns E]%elem_of_dom. apply elem_of_list_to_set, elem_of_seqZ. apply H. by eexists. }
  rewrite size_list_to_set, length_seqZ in L by apply NoDup_seqZ. lia.
Qed.

Lemma base_edges c0 c g m e : graph_base c0 c g m -> graph_base c0 c (set_edge_count e g) m.
Proof. intros [? [] ? ? ? ? ?]. split; try done. Qed.

Lemma valid_vertex_spec c0 c g m v : graph_base c0 c g m -> valid_vertex g v = Ret (bool_decide (is_Some (m !! v))).
Proof.
  intros H. unfold valid_vertex. case_decide as D.
  { rewrite bool_decide_false; [done|]. intros Hs%(gr_dom H). lia. }
  rewrite (get_removed g _ v (gr_arrays H)) by lia. cbn [obind]. pose proof (gr_slots H v ltac:(lia)) as S.
  destruct (m !! v); cbn in S; f_equal; apply bool_decide_ext; naive_solver.
Qed.

(** Two vertices checked one after the other, as the edge operations do. *)
Lemma valid_both {B : Type} c0 c g m u v (k : bool -> outcome B) : graph_base c0 c g m ->
  (let! x := valid_vertex g u in let! y := if x : bool then valid_vertex g v else Ret false in k y) =
    k (bool_decide (is_Some (m !! u) /\ is_Some (m !! v))).
Proof.
  intros H. rewrite (valid_vertex_spec _ _ _ _ u H). cbn [obind]. case_bool_decide; [rewrite (valid_vertex_spec _ _ _ _ v H)|];
    cbn [obind]; f_equal; [apply bool_decide_ext|symmetry; apply bool_decide_false]; tauto.
Qed.

(** A change of the slot of [v]. *)
Lemma base_put c0 c c' g g' m v s ns : graph_base c0 c g m -> is_Some (m !! v) ->
  reslot (g_vertex_capacity g) g g' (put (slot_at g) v s) -> slot_ok s (Some ns) ->
  holds a c0 c' (g_vertex_capacity g) g' -> graph_base c0 c' g' (<[v := ns]> m).
Proof.
  intros H Hv [] S Hm.
  split; rewrite ?rs_vcap, ?rs_alloc, ?rs_vcount, ?rs_ecount, ?rs_directed; try done; try apply H.
  - intros w Hw. rewrite rs_slots by done. unfold put. case_decide as D; [subst; by rewrite lookup_insert_eq|].
    rewrite lookup_insert_ne by done. by apply H.
  - intros w Hw. apply H. destruct (decide (w = v)) as [->|D]; [done|by rewrite lookup_insert_ne in Hw].
  - destruct Hv as [x Hv]. rewrite (gr_vertices H). rewrite map_size_insert_Some by (by rewrite Hv). done.
Qed.

(** The same, with the list where it was. *)
Lemma base_put_in_place c0 c g g' m v s ns : graph_base c0 c g m -> is_Some (m !! v) ->
  reslot (g_vertex_capacity g) g g' (put (slot_at g) v s) -> nbrs s ns -> taddr (sl_adj s) = taddr (sl_adj (slot_at g v)) ->
  sl_removed s = sl_removed (slot_at g v) -> graph_base c0 c g' (<[v := ns]> m).
Proof.
  intros H [l Hv] R N A F. destruct (base_slot _ _ _ _ _ _ H Hv) as (_ & Fv & _). eapply base_put; [done|by eexists|done| |].
  - by rewrite <- F in Fv.
  - eapply holds_reslot; [apply H|done|]. intros w Hw. unfold put. case_decide; by subst.
Qed.

Lemma has_edge_spec c0 c g m u v : graph_base c0 c g m ->
  zenit_graph_has_edge (Some g) u v = Ret (bool_decide (is_Some (m !! u) /\ is_Some (m !! v) /\ v ∈ nb m u)).
Proof.
  intros H. unfold zenit_graph_has_edge. rewrite (valid_both _ _ _ _ _ _ _ H). case_bool_decide as D.
  2: { rewrite bool_decide_false; [done|tauto]. }
  destruct D as [[ns E] Hv]. destruct (base_slot _ _ _ _ _ _ H E) as (Hu & _ & N).
  rewrite (get_count g _ u (gr_arrays H) Hu), (nb_count N). cbn [obind].
  destruct (find_neighbor_spec g _ u v ns (gr_arrays H) Hu N) as (r & -> & Hr). cbn [obind]. f_equal. apply bool_decide_ext.
  rewrite (nb_Some _ _ _ E), E. destruct r as [i|]; [destruct Hr as (? & ? & -> & ->); set_solver|naive_solver].
Qed.

Lemma filter_one (x : Z) pre post : NoDup (pre ++ x :: post) -> filter (fun y => y <> x) (pre ++ x :: post) = pre ++ post.
Proof.
  intros (_ & N1 & ND)%NoDup_app. apply NoDup_cons in ND as [N2 _]. rewrite filter_app, filter_cons_False by naive_solver.
  rewrite !filter_notin by set_solver. done.
Qed.

(** One end of an edge: found and taken out, or not there. *)
Lemma cut_spec c0 c g m u v ns : graph_base c0 c g m -> m !! u = Some ns -> NoDup ns ->
  exists r, find_neighbor (Z.to_nat (zlen ns)) 0 g u v = Ret r /\
    match r with
    | None => v ∉ ns
    | Some i => v ∈ ns /\ exists g', cut_neighbor g u i = Ret g' /\ graph_base c0 c g' (unlink u v m) /\
        g_directed g' = g_directed g /\ g_edge_count g' = g_edge_count g
    end.
Proof.
  intros H E ND. destruct (base_slot _ _ _ _ _ _ H E) as (Hu & _ & N).
  destruct (find_neighbor_spec g _ u v ns (gr_arrays H) Hu N) as (r & -> & Hr). exists r. split; [done|].
  destruct r as [i|]; [|done]. destruct Hr as (pre & post & -> & ->). split; [set_solver|].
  destruct (cut_neighbor_spec g _ u pre v post (gr_arrays H) Hu N) as (g' & s & -> & R & N' & A & F). exists g'. split; [done|].
  split; [|split; apply R]. unfold unlink. rewrite (nb_Some _ _ _ E), filter_one by done.
  eapply base_put_in_place; [done|by eexists|done..].
Qed.

Lemma remove_edge_spec c0 c g m u v : graph_rep c0 c g m ->
  exists g', zenit_graph_remove_edge (Some g) u v =
      Ret (if decide (is_Some (m !! u) /\ is_Some (m !! v)) then ZENIT_OK else ZENIT_ERROR_PARAM, Some g') /\
    graph_rep c0 c g' (if decide (is_Some (m !! u) /\ is_Some (m !! v)) then spec_remove_edge (g_directed g) u v m else m) /\
    g_directed g' = g_directed g.
Proof.
  intros [B Ee W]. unfold zenit_graph_remove_edge. rewrite (valid_both _ _ _ _ _ _ _ B). case_bool_decide as D.
  2: { rewrite !decide_False by done. exists g. by split_and!. }
  rewrite !decide_True by done. destruct D as [[ns E] [vs Ev]]. destruct (base_slot _ _ _ _ _ _ B E) as (Hu & _ & N).
  rewrite (get_count g _ u (gr_arrays B) Hu), (nb_count N). cbn [obind].
  pose proof (W u) as [ND _]. rewrite (nb_Some _ _ _ E) in ND.
  pose proof (edges_remove_edge (g_directed g) m u v W ltac:(by eexists) ltac:(by eexists)) as EE. rewrite (nb_Some _ _ _ E) in EE.
  pose proof (wf_remove_edge _ _ u v W) as W'.
  destruct (cut_spec c0 c g m u v ns B E ND) as (r & -> & Hr). cbn [obind]. destruct r as [i|].
  - destruct Hr as (Hin & g1 & -> & B1 & D1 & E1). cbn [obind]. rewrite decide_True in EE by done.
    set (g2 := set_edge_count (u64 (g_edge_count g1 - 1)) g1).
    assert (g_edge_count g2 = u64 (edges (g_directed g) (spec_remove_edge (g_directed g) u v m))) as E2.
    { rewrite EE. cbn. by rewrite E1, Ee, u64_sub. }
    assert (graph_base c0 c g2 (unlink u v m)) as B2 by (by apply base_edges).
    change (g_directed g2) with (g_directed g1). rewrite D1. unfold spec_remove_edge in *. case_decide as U.
    + destruct U as [Ed D]. assert (unlink u v m !! v = Some vs) as Ev1 by (unfold unlink; by rewrite lookup_insert_ne).
      destruct (base_slot _ _ _ _ _ _ B2 Ev1) as (Hv & _ & Nv).
      rewrite (get_count g2 _ v (gr_arrays B2) Hv), (nb_count Nv). cbn [obind].
      destruct (cut_spec c0 c g2 _ v u vs B2 Ev1) as (r & -> & Hr); [rewrite <- (nb_Some _ _ _ Ev); apply W|]. cbn [obind].
      assert (u ∈ vs) as Huv by (rewrite <- (nb_Some _ _ _ Ev); apply (W u); [by rewrite (nb_Some _ _ _ E)|done]).
      destruct r as [j|]; [|done]. destruct Hr as (_ & g3 & -> & B3 & D3 & E3). cbn [obind]. exists g3. split; [done|].
      rewrite D3. split; [|done].
      split; rewrite ?D3, ?E3; [done| |]; change (g_directed g2) with (g_directed g1); by rewrite D1.
    + exists g2. split; [done|]. split; [|done].
      split; [done| |]; change (g_directed g2) with (g_directed g1); by rewrite D1.
  - exists g. split; [done|]. split; [|done]. rewrite remove_edge_absent; [by split|done|by eexists..|by rewrite (nb_Some _ _ _ E)].
Qed.

Lemma graph_ensure_spec c0 c g m v ns : graph_base c0 c g m -> m !! v = Some ns ->
  exists r g' c', ensure_adj g v c = Ret (r, g', c') /\ graph_base c0 c' g' m /\ g_directed g' = g_directed g /\
    g_edge_count g' = g_edge_count g /\ (r = ZENIT_OK /\ zlen ns < sl_cap (slot_at g' v) \/ r = ZENIT_ERROR_ALLOC).
Proof.
  intros H E. destruct (base_slot _ _ _ _ _ _ H E) as (Hv & Fv & N).
  destruct (ensure_adj_spec a g _ v ns c0 c (gr_arrays H) Hv N (gr_alloc H) (gr_mem H)) as (r & g' & s & c' & -> & R & N' & F & Hh & Hr).
  exists r, g', c'. split; [done|]. rewrite (reslot_at _ _ _ _ _ _ R Hv). split_and!; [|apply R|apply R|done].
  rewrite <- (insert_id m v ns E). eapply base_put; [done|by eexists|done|split; [congruence|done]|done].
Qed.

Lemma graph_append_spec c0 c g m u v ns : graph_base c0 c g m -> m !! u = Some ns -> zlen ns < sl_cap (slot_at g u) ->
  exists g', append_neighbor u v g = Ret g' /\ graph_base c0 c g' (link u v m) /\ g_directed g' = g_directed g /\
    g_edge_count g' = g_edge_count g.
Proof.
  intros H E Hc. destruct (base_slot _ _ _ _ _ _ H E) as (Hu & _ & N).
  destruct (append_neighbor_spec g _ u v ns (gr_arrays H) Hu N Hc) as (g' & s & -> & R & N' & A & F). exists g'. split; [done|].
  split_and!; [|apply R|apply R]. unfold link. rewrite (nb_Some _ _ _ E). eapply base_put_in_place; [done|by eexists|done..].
Qed.

(** The last neighbour dropped again. *)
Lemma undo_spec c0 c g m u v ns : graph_base c0 c g (<[u := ns ++ [v]]> m) -> m !! u = Some ns ->
  exists n p, tget (g_counts g) u = Ret n /\ tset (g_counts g) u (u64 (n - 1)) = Ret p /\ graph_base c0 c (set_counts p g) m.
Proof.
  intros H E. assert (<[u := ns ++ [v]]> m !! u = Some (ns ++ [v])) as E1 by apply lookup_insert_eq.
  destruct (base_slot _ _ _ _ _ _ H E1) as (Hu & Fu & N). pose proof (nbrs_bound _ _ N) as Hb.
  change (PTRDIFF_MAX / 4) with 2305843009213693951 in Hb. rewrite zlen_app in Hb. change (zlen [v]) with 1 in Hb. pose proof (zlen_nonneg ns).
  exists (zlen (ns ++ [v])). rewrite (get_count g _ u (gr_arrays H) Hu), (nb_count N). rewrite zlen_app. change (zlen [v]) with 1.
  rewrite u64_small by lia. replace (zlen ns + 1 - 1) with (zlen ns) by lia.
  destruct (set_counts_spec g _ u (zlen ns) (gr_arrays H) Hu) as (p & -> & R). exists p. split_and!; [done|done|].
  replace m with (<[u := ns]> (<[u := ns ++ [v]]> m)) by (rewrite insert_insert_eq; by apply insert_id).
  eapply base_put_in_place; [done|by eexists|exact R| |done|done].
  destruct N as [N1 N2 N3 [room N4] N5]. split; cbn [sl_adj sl_count sl_cap]; try done. exists (v :: room). by rewrite N4, <- app_assoc.
Qed.

Lemma add_edge_spec c0 c g m u v : graph_rep c0 c g m ->
  exists r g' c' m', zenit_graph_add_edge (Some g) u v c = Ret (r, Some g', c') /\ graph_rep c0 c' g' m' /\ g_directed g' = g_directed g /\
    (if decide (is_Some (m !! u) /\ is_Some (m !! v)) then r = ZENIT_OK /\ m' = spec_add_edge (g_directed g) u v m \/
       r = ZENIT_ERROR_ALLOC /\ m' = m /\ v ∉ nb m u
     else r = ZENIT_ERROR_PARAM /\ m' = m).
Proof.
  intros [B Ee W]. unfold zenit_graph_add_edge. rewrite (valid_both _ _ _ _ _ _ _ B).
  destruct (decide (is_Some (m !! u) /\ is_Some (m !! v))) as [D|D].
  2: { rewrite bool_decide_false by done. eexists _, _, _, m. split; [done|]. by split_and!. }
  rewrite bool_decide_true by done. destruct D as [[us Eu] [vs Ev]].
  rewrite (has_edge_spec _ _ _ _ _ _ B), Eu, Ev. cbn [obind]. case_bool_decide as Hin.
  { eexists _, _, _, m. split; [done|]. split; [done|]. split; [done|]. left. unfold spec_add_edge. by rewrite decide_True by apply Hin. }
  assert (v ∉ nb m u) as N by (intros ?; apply Hin; split_and!; [by eexists..|done]). clear Hin.
  destruct (graph_ensure_spec c0 c g m u us B Eu) as (r & g1 & c1 & -> & B1 & D1 & E1 & [[-> Hr]|Hr]); cbn [obind].
  2: { subst r. rewrite decide_True by done. eexists _, _, _, m. split; [done|]. split; [|split; [done|by right]].
       split; rewrite ?E1, ?D1; done. }
  rewrite decide_False by naive_solver.
  destruct (graph_append_spec c0 c1 g1 m u v us B1 Eu Hr) as (g2 & -> & B2 & D2 & E2). cbn [obind].
  set (g3 := set_edge_count (u64 (g_edge_count g2 + 1)) g2). assert (graph_base c0 c1 g3 (link u v m)) as B3 by (by apply base_edges).
  pose proof (edges_add_edge (g_directed g) m u v ltac:(by eexists) ltac:(by eexists) N) as EE.
  pose proof (wf_add_edge _ _ u v W ltac:(by eexists) ltac:(by eexists)) as W'.
  assert (g_edge_count g3 = u64 (edges (g_directed g) (spec_add_edge (g_directed g) u v m))) as E3.
  { rewrite EE. cbn. rewrite E2, E1, Ee. unfold u64. by rewrite Zplus_mod_idemp_l. }
  assert (g_directed g3 = g_directed g) as D3 by (cbn; by rewrite D2). rewrite D3.
  assert (spec_add_edge (g_directed g) u v m =
    if decide (g_directed g = false /\ u <> v) then link v u (link u v m) else link u v m) as ES by (unfold spec_add_edge; by rewrite decide_False).
  rewrite ES in *. clear ES. case_decide as U.
  2: { eexists _, _, _, _. split; [done|]. split; [|split; [done|by left]]. split; rewrite ?D3; done. }
  destruct U as [Ed D]. assert (link u v m !! v = Some vs) as Ev1 by (unfold link; by rewrite lookup_insert_ne).
  destruct (graph_ensure_spec c0 c1 g3 _ v vs B3 Ev1) as (r & g4 & c2 & -> & B4 & D4 & E4 & [[-> Hv]|Hv]); cbn [obind].
  - rewrite decide_False by naive_solver.
    destruct (graph_append_spec c0 c2 g4 _ v u vs B4 Ev1 Hv) as (g5 & -> & B5 & D5 & E5). cbn [obind].
    eexists _, _, _, _. split; [done|]. split; [|split; [congruence|by left]]. split; rewrite ?E5, ?E4, ?D5, ?D4, ?D3; done.
  - subst r. rewrite decide_True by done. unfold link in B4. rewrite (nb_Some _ _ _ Eu) in B4.
    destruct (undo_spec _ _ _ _ _ _ _ B4 Eu) as (n & p & -> & E5 & B5). cbn [obind]. rewrite E5. cbn [obind].
    eexists _, _, _, m. split; [done|]. split; [|split; [cbn; congruence|by right]].
    split; [by apply base_edges| |]; cbn; rewrite D4, D3; [|done]. rewrite E4, E3, EE, u64_sub. f_equal. lia.
Qed.

Lemma filter_split (x : Z) (l : list Z) : zlen (filter (fun y => y = x) l) = zlen l - zlen (filter (fun y => y <> x) l).
Proof. induction l as [|y l IH]; [done|]. rewrite !filter_cons. repeat case_decide; rewrite ?zlen_cons; naive_solver lia. Qed.

(** The lists of the slots from [i] on without [v]. *)
Lemma remove_from_all_spec c0 c v (k : nat) : forall i g m, graph_base c0 c g m -> 0 <= i -> i + Z.of_nat k <= g_vertex_capacity g ->
  0 <= g_edge_count g < two64 ->
  exists g' m', remove_from_all k i v g = Ret g' /\ graph_base c0 c g' m' /\ g_directed g' = g_directed g /\
    g_vertex_capacity g' = g_vertex_capacity g /\
    (forall u, m' !! u = if decide (i <= u < i + Z.of_nat k) then filter (fun x => x <> v) <$> m !! u else m !! u) /\
    g_edge_count g' = minus_edges g (edges true m - edges true m').
Proof.
  induction k as [|k IH]; intros i g m H Hi Hk He; cbn [remove_from_all].
  { exists g, m. split_and!; try done; [intros u; by rewrite decide_False by lia|]. unfold minus_edges. destruct (g_directed g); [|done].
    rewrite Z.sub_diag, Z.sub_0_r. by rewrite u64_small. }
  pose proof (gr_cap H) as [Hc1 Hc2]. rewrite (get_removed g _ i (gr_arrays H)) by lia. cbn [obind].
  pose proof (gr_slots H i ltac:(lia)) as S. rewrite u64_small by lia. destruct (m !! i) as [ns|] eqn:E; cbn [slot_ok] in S.
  - destruct S as [Fi N]. rewrite decide_False by lia.
    destruct (remove_vertex_from_adj_spec g _ i v ns (gr_arrays H) ltac:(lia) N He) as (g1 & s & -> & R & N' & A & F). cbn [obind].
    set (e := minus_edges g _) in R.
    assert (graph_base c0 c g1 (<[i := filter (fun x => x <> v) ns]> m)) as B1.
    { eapply base_put_in_place; [exact (base_edges _ _ _ _ e H)|by eexists|exact R|done..]. }
    pose proof (rs_vcap _ _ _ _ R) as V1. pose proof (rs_directed _ _ _ _ R) as D1. pose proof (rs_ecount _ _ _ _ R) as E1. cbn in V1, D1, E1.
    destruct (IH (i + 1) g1 _ B1) as (g' & m' & -> & B2 & D2 & V2 & L2 & E2); [lia|rewrite V1; lia| |].
    { rewrite E1. unfold e, minus_edges. destruct (g_directed g); [apply u64_range|done]. }
    exists g', m'. split_and!; [done|done|congruence|congruence| |].
    + intros u. rewrite L2. destruct (decide (u = i)) as [->|D].
      * rewrite decide_False, decide_True by lia. by rewrite lookup_insert_eq, E.
      * rewrite lookup_insert_ne by done. repeat case_decide; done || lia.
    + rewrite E2. unfold minus_edges. rewrite D1, E1. unfold e, minus_edges. destruct (g_directed g); [|done]. rewrite u64_sub. f_equal.
      rewrite filter_split. unfold edges. rewrite (esum_update _ _ _ _ _ E). unfold edge_share. lia.
  - destruct S as (_ & _ & _ & Fi). rewrite decide_True by done. cbn [obind].
    destruct (IH (i + 1) g m H) as (g' & m' & -> & B2 & D2 & V2 & L2 & E2); [lia|lia|done|].
    exists g', m'. split_and!; try done. intros u. rewrite L2. destruct (decide (u = i)) as [->|D].
    + rewrite decide_False, decide_True by lia. by rewrite E.
    + repeat case_decide; done || lia.
Qed.

(** Freeing a slot takes the vertex out of the map. *)
Lemma reset_spec c0 c g m v ns : graph_base c0 c g m -> m !! v = Some ns ->
  exists g' c', reset_slot v g c = Ret (g', c') /\ g_directed g' = g_directed g /\ g_edge_count g' = g_edge_count g /\
    g_vertex_count g' = g_vertex_count g /\ graph_base c0 c' (set_vertex_count (u64 (g_vertex_count g - 1)) g') (delete v m).
Proof.
  intros H E. destruct (base_slot _ _ _ _ _ _ H E) as (Hv & _ & _).
  destruct (reset_slot_spec a g _ v c0 c (gr_arrays H) Hv (gr_alloc H) (gr_mem H)) as (g' & c' & -> & R & Hm).
  exists g', c'. split; [done|]. split_and!; [apply R..|]. destruct R. split; cbn; rewrite ?rs_vcap; try apply H.
  - destruct rs_ok. by split.
  - intros w Hw. change (slot_ok (slot_at g' w) (delete v m !! w)). rewrite rs_slots by done. unfold put. case_decide as D.
    + subst. rewrite lookup_delete_eq. done.
    + rewrite lookup_delete_ne by done. by apply H.
  - intros w Hw. apply H. destruct (decide (w = v)) as [->|D]; [by eexists|by rewrite lookup_delete_ne in Hw].
  - rewrite rs_alloc. apply H.
  - done.
  - rewrite (gr_vertices H). rewrite map_size_delete_Some by (by eexists).
    assert (size m <> 0%nat) by (intros ?%map_size_empty_inv; subst; by rewrite lookup_empty in E).
    pose proof (size_bound _ _ _ _ H). rewrite u64_small; lia.
Qed.

Lemma remove_vertex_spec c0 c g m v : graph_rep c0 c g m -> (g_directed g = true -> v ∉ nb m v) ->
  exists g' c', zenit_graph_remove_vertex (Some g) v c =
      Ret (if decide (is_Some (m !! v)) then ZENIT_OK else ZENIT_ERROR_PARAM, Some g', c') /\ g_directed g' = g_directed g /\
    graph_rep c0 c' g' (if decide (is_Some (m !! v)) then spec_remove_vertex v m else m).
Proof.
  intros [B Ee W] Hl. unfold zenit_graph_remove_vertex. rewrite (valid_vertex_spec _ _ _ _ v B). cbn [obind].
  destruct (decide (is_Some (m !! v))) as [D|D]; [rewrite bool_decide_true by done|by rewrite bool_decide_false by done; exists g, c].
  destruct D as [ns E]. destruct (base_slot _ _ _ _ _ _ B E) as (Hv & _ & N).
  rewrite (get_count g _ v (gr_arrays B) Hv), (nb_count N). cbn [obind]. set (g1 := set_edge_count _ g).
  pose proof (gr_cap B) as [Hc _].
  destruct (remove_from_all_spec c0 c v (Z.to_nat (g_vertex_capacity g1)) 0 g1 m) as (g2 & m2 & -> & B2 & D2 & V2 & L2 & E2);
    [by apply base_edges|lia|cbn; lia|apply u64_range|]. cbn [obind].
  assert (m2 = filter (fun x => x <> v) <$> m) as ->.
  { apply map_eq. intros u. rewrite L2, lookup_fmap. case_decide as Du; [done|]. destruct (m !! u) eqn:Eu; [|done].
    assert (0 <= u < g_vertex_capacity g) by (apply B; by eexists). cbn in Du. lia. }
  destruct (reset_spec c0 c g2 _ v (filter (fun x => x <> v) ns) B2) as (g3 & c3 & -> & D3 & E3 & C3 & B3); [by rewrite lookup_fmap, E|].
  cbn [obind]. eexists _, _. split; [done|]. cbn [g_directed set_vertex_count]. rewrite D3, D2. split; [done|].
  split; cbn [g_directed g_edge_count set_vertex_count]; rewrite ?C3; [done| |by rewrite D3, D2; apply wf_remove_vertex].
  rewrite E3, E2, D3, D2. unfold minus_edges. cbn [g_directed g_edge_count g1 set_edge_count]. rewrite Ee. destruct (g_directed g) eqn:Ed.
  - rewrite u64_sub, <- Z.sub_add_distr, u64_sub. f_equal. unfold edges, spec_remove_vertex.
    rewrite (esum_delete _ _ v (filter (fun x => x <> v) ns)) by (by rewrite lookup_fmap, E).
    specialize (Hl eq_refl). rewrite (nb_Some _ _ _ E) in Hl. rewrite filter_notin by done. unfold edge_share. lia.
  - rewrite u64_sub. f_equal. by rewrite (edges_remove_vertex_undirected _ _ _ W E).
Qed.

(** ** Adding a vertex *)

Lemma below_size m v : 0 <= v -> (forall u, 0 <= u < v -> is_Some (m !! u)) -> v <= Z.of_nat (size m).
Proof.
  intros Hv H. rewrite <- size_dom. assert (size (list_to_set (seqZ 0 v) : gset Z) <= size (dom m))%nat as L.
  { apply subseteq_size. intros u Hu%elem_of_list_to_set. apply elem_of_seqZ in Hu. apply elem_of_dom, H. lia. }
  rewrite size_list_to_set, length_seqZ in L by apply NoDup_seqZ. lia.
Qed.

Lemma cast_int_small x : 0 <= x <= INT_MAX -> cast_int x = x.
Proof. intros H. unfold cast_int, INT_MAX in *. rewrite Z.mod_small by lia. by rewrite decide_True by lia. Qed.

Lemma find_slot_spec c0 c g m (k : nat) : graph_base c0 c g m -> Z.of_nat (size m) <= INT_MAX ->
  forall i, 0 <= i -> i + Z.of_nat k = g_vertex_capacity g -> (forall u, 0 <= u < i -> is_Some (m !! u)) ->
  exists r, find_slot k i (g_removed g) = Ret r /\
    (r = -1 /\ (forall u, 0 <= u < g_vertex_capacity g -> is_Some (m !! u)) \/
     0 <= r < g_vertex_capacity g /\ m !! r = None /\ (forall u, 0 <= u < r -> is_Some (m !! u))).
Proof.
  intros H Hs. induction k as [|k IH]; intros i Hi Hk Hb; cbn [find_slot].
  { exists (-1). split; [done|]. left. split; [done|]. intros u Hu. apply Hb. lia. }
  pose proof (gr_cap H). rewrite (get_removed g _ i (gr_arrays H)) by lia. cbn [obind]. pose proof (gr_slots H i ltac:(lia)) as S.
  pose proof (below_size m i Hi Hb). destruct (m !! i) as [ns|] eqn:E; cbn [slot_ok] in S.
  - rewrite decide_False by (destruct S; lia). rewrite u64_small by lia. apply IH; [lia|lia|]. intros u Hu.
    destruct (decide (u = i)) as [->|]; [by eexists|apply Hb; lia].
  - rewrite decide_True by tauto. exists (cast_int i). split; [done|]. right. rewrite cast_int_small by lia. split_and!; try done; lia.
Qed.

Lemma activate_spec c0 c g m v : graph_base c0 c g m -> 0 <= v < g_vertex_capacity g -> m !! v = None ->
  exists p, tset (g_removed g) v 0 = Ret p /\
    graph_base c0 c (set_vertex_count (u64 (g_vertex_count g + 1)) (set_removed p g)) (<[v := []]> m).
Proof.
  intros H Hv E. destruct (set_removed_spec g _ v 0 (gr_arrays H) Hv) as (p & -> & R). exists p. split; [done|].
  pose proof (gr_slots H v Hv) as S. rewrite E in S. destruct S as (S1 & S2 & S3 & _). destruct R. cbn in rs_vcap.
  split; cbn [set_vertex_count g_vertex_capacity g_allocator g_vertex_count]; try apply H.
  - destruct rs_ok. by split.
  - intros w Hw. change (slot_ok (slot_at (set_removed p g) w) (<[v := []]> m !! w)). rewrite rs_slots by done. unfold put. case_decide as D.
    + subst w. rewrite lookup_insert_eq. rewrite S1, S2, S3. split; [done|]. split; try done; [by exists []|by left].
    + rewrite lookup_insert_ne by done. by apply H.
  - intros w [x Hw]. destruct (decide (w = v)) as [->|D]; [done|]. rewrite lookup_insert_ne in Hw by done. apply H. by eexists.
  - change (holds a c0 c (g_vertex_capacity g) (set_removed p g)). eapply holds_reslot; [apply H|by split|].
    intros w Hw. cbn beta. rewrite <- rs_slots by done. done.
  - rewrite (gr_vertices H). rewrite map_size_insert_None by done.
    pose proof (size_bound _ _ _ _ H). pose proof (gr_cap H). rewrite u64_small; lia.
Qed.

Lemma base_moved c0 c c' g g' m : graph_base c0 c g m -> moved (g_vertex_capacity g) g g' ->
  g_vertex_capacity g <= g_vertex_capacity g' -> g_vertex_capacity g' * 8 <= PTRDIFF_MAX -> arrays_ok g' (g_vertex_capacity g') ->
  (forall v, g_vertex_capacity g <= v < g_vertex_capacity g' -> slot_at g' v = fresh_slot) ->
  holds a c0 c' (g_vertex_capacity g') g' -> graph_base c0 c' g' m.
Proof.
  intros H [] Hc Hm O Hf Hh. pose proof (gr_cap H). split; try done; [lia| | |rewrite mv_alloc; apply H|rewrite mv_vcount; apply H].
  - intros v Hv. destruct (decide (v < g_vertex_capacity g)) as [D|D]; [rewrite mv_slots by lia; apply H; lia|].
    rewrite Hf by lia. destruct (m !! v) eqn:E; [|done]. assert (0 <= v < g_vertex_capacity g) by (apply H; by eexists). lia.
  - intros v Hv%(gr_dom H). lia.
Qed.

Definition least_free m v : Prop := 0 <= v /\ m !! v = None /\ forall u, 0 <= u < v -> is_Some (m !! u).

Lemma edges_add_vertex dir m v : m !! v = None -> edges dir (<[v := []]> m) = edges dir m.
Proof. intros E. unfold edges. rewrite esum_insert by done. unfold edge_share. destruct dir; [done|]. by rewrite filter_nil. Qed.

Lemma add_vertex_spec c0 c g m : graph_rep c0 c g m -> Z.of_nat (size m) <= INT_MAX ->
  exists r g' c' m', zenit_graph_add_vertex (Some g) c = Ret (r, Some g', c') /\ graph_rep c0 c' g' m' /\ g_directed g' = g_directed g /\
    (r = ZENIT_ERROR_ALLOC /\ m' = m \/ r = ZENIT_OK /\ exists v, least_free m v /\ m' = <[v := []]> m).
Proof.
  intros [B Ee W] Hs. unfold zenit_graph_add_vertex. pose proof (gr_cap B) as [Hc Hc8].
  destruct (find_slot_spec c0 c g m (Z.to_nat (g_vertex_capacity g)) B Hs 0) as (r & -> & Hr); [lia|lia|lia|]. cbn [obind].
  assert (forall v g1 c1, graph_base c0 c1 g1 m -> 0 <= v < g_vertex_capacity g1 -> least_free m v -> g_directed g1 = g_directed g ->
    g_edge_count g1 = g_edge_count g -> exists r g' c' m',
      (let! removed := tset (g_removed g1) v 0 in
       Ret (ZENIT_OK, Some (set_vertex_count (u64 (g_vertex_count g1 + 1)) (set_removed removed g1)), c1)) = Ret (r, Some g', c') /\
      graph_rep c0 c' g' m' /\ g_directed g' = g_directed g /\
      (r = ZENIT_ERROR_ALLOC /\ m' = m \/ r = ZENIT_OK /\ exists v, least_free m v /\ m' = <[v := []]> m)) as Fin.
  { intros v g1 c1 B1 Hv Hf D1 E1. destruct (activate_spec c0 c1 g1 m v B1 Hv) as (p & -> & B2); [apply Hf|]. cbn [obind].
    eexists _, _, _, _. split; [done|]. split; [|split; [done|right; split; [done|by exists v]]].
    split; cbn; rewrite ?D1, ?E1; [done|by rewrite edges_add_vertex by apply Hf|]. apply wf_add_vertex; [done|apply Hf]. }
  destruct Hr as [[-> Hall]|(Hr & En & Hb)].
  - rewrite decide_True by done. pose proof (grow_vertex_arrays_spec a g c0 c (gr_arrays B) Hc Hc8 (gr_alloc B) (gr_mem B)) as
      (r & g1 & c1 & -> & M & [(-> & V & Hh)|(-> & n & V & Hn & Hn8 & O & Hf & Hh)]); cbn [obind].
    + eexists _, _, _, m. split; [done|]. split; [|split; [apply M|by left]]. pose proof (mv_ok _ _ _ M) as O. rewrite <- V in O, Hh.
      split; rewrite ?(mv_ecount _ _ _ M), ?(mv_directed _ _ _ M); [|done|done].
      eapply base_moved; [done|done|lia|lia|done|lia|done].
    + rewrite decide_False by naive_solver. subst n.
      assert (graph_base c0 c1 g1 m) as B1 by (eapply base_moved; [done|done|lia|done..]).
      assert (g_vertex_count g1 = g_vertex_capacity g) as Ev.
      { rewrite (mv_vcount _ _ _ M), (gr_vertices B). pose proof (size_bound _ _ _ _ B). pose proof (below_size m (g_vertex_capacity g) ltac:(lia) Hall). lia. }
      assert (cast_int (g_vertex_count g1) = g_vertex_capacity g) as ->.
      { rewrite Ev. apply cast_int_small. pose proof (below_size m (g_vertex_capacity g) ltac:(lia) Hall). lia. }
      apply Fin; [done|lia| |apply M|apply M]. split_and!; [lia| |done].
      destruct (m !! g_vertex_capacity g) eqn:E; [|done]. assert (0 <= g_vertex_capacity g < g_vertex_capacity g) by (apply B; by eexists). lia.
  - rewrite decide_False by lia. cbn [obind]. rewrite decide_False by naive_solver. apply Fin; try done; try lia. split_and!; [lia|done|done].
Qed.

(** ** Clearing, creating, destroying *)

Lemma graph_clear_spec c0 c g m : graph_rep c0 c g m ->
  exists g' c', zenit_graph_clear (Some g) c = Ret (Some g', c') /\ graph_rep c0 c' g' empty /\ g_directed g' = g_directed g.
Proof.
  intros [B Ee W]. unfold zenit_graph_clear. pose proof (gr_cap B) as [Hc Hc8].
  destruct (graph_clear_loop_spec a (g_vertex_capacity g) c0 (Z.to_nat (g_vertex_capacity g)) 0 g c) as (g1 & c1 & -> & R & Hh);
    [apply B|lia|lia|lia|apply B|apply B|]. cbn [obind]. eexists _, _. split; [done|]. cbn [g_directed set_edge_count set_vertex_count].
  split; [|apply R]. split; cbn [g_directed g_edge_count set_edge_count set_vertex_count]; [|done|apply wf_empty].
  destruct R. split; cbn [g_vertex_capacity g_allocator g_vertex_count set_edge_count set_vertex_count]; rewrite ?rs_vcap; try done.
  - destruct rs_ok. by split.
  - intros v Hv. change (slot_ok (slot_at g1 v) ((empty : amap) !! v)). rewrite rs_slots by done. rewrite decide_True by lia. by rewrite lookup_empty.
  - intros v [x Hv]. by rewrite lookup_empty in Hv.
  - rewrite rs_alloc. apply B.
Qed.

Lemma perm_rev4 {A : Type} (w x y z t : list A) : w ++ x ++ y ++ z ++ t ≡ₚ z ++ y ++ x ++ w ++ t.
Proof.
  rewrite (Permutation_app_swap_app w x), (Permutation_app_swap_app w y), (Permutation_app_swap_app w z).
  rewrite (Permutation_app_swap_app x y), (Permutation_app_swap_app x z). by rewrite (Permutation_app_swap_app y z).
Qed.

Lemma graph_create_spec cap directed c : 0 <= cap -> cap <> 1 -> cap * 8 < two64 ->
  exists r c', zenit_graph_create_with_allocator cap directed a c = Ret (r, c') /\
    match r with
    | None => live c' = live c
    | Some g => g_directed g = directed /\ graph_rep c c' g empty
    end.
Proof.
  intros H0 H1 H8. unfold zenit_graph_create_with_allocator.
  assert (exists k, (if decide (cap = 0) then ZENIT_GRAPH_DEFAULT_CAP else cap) = k /\ 2 <= k /\ k * 8 < two64) as (k & -> & Hk & Hk8).
  { unfold ZENIT_GRAPH_DEFAULT_CAP. case_decide; [by exists 8|exists cap; split; [done|lia]]. }
  destruct (alloc_fn a SIZEOF_GRAPH c) as [[h|] c1] eqn:E; [|eexists None, _; split; [done|]; by eapply alloc_none].
  pose proof (owns_alloc _ _ _ _ _ _ _ (owns_refl a c) E) as W. unfold SIZEOF_PTR, SIZEOF_SIZE, SIZEOF_INT.
  destruct (talloc_zero_cases a k 8 (@None (tarr Z)) c1 c _ W) as (p1 & c2 & -> & W1 & P1); [lia..|]. cbn [obind].
  destruct (talloc_zero_cases a k 8 0 c2 c _ W1) as (p2 & c3 & -> & W2 & P2); [lia..|]. cbn [obind].
  destruct (talloc_zero_cases a k 8 0 c3 c _ W2) as (p3 & c4 & -> & W3 & P3); [lia..|]. cbn [obind].
  destruct (talloc_zero_cases a k 4 0 c4 c _ W3) as (p4 & c5 & -> & W4 & P4); [lia..|]. cbn [obind].
  eapply owns_perm in W4; [|apply perm_rev4]. case_decide as D.
  { eexists None, _. split; [done|]. apply (owns_nil a). apply (owns_free a). by do 4 apply (owns_free_opt a). }
  destruct p1 as [t1|]; [|cbn in D; tauto]. destruct p2 as [t2|]; [|cbn in D; tauto]. destruct p3 as [t3|]; [|cbn in D; tauto].
  destruct p4 as [t4|]; [|cbn in D; tauto]. clear D. destruct P1 as (T1 & Z1 & M1), P2 as (T2 & Z2 & M2), P3 as (T3 & Z3 & M3), P4 as (T4 & Z4 & M4).
  assert (forall {A : Type} (t : tarr A) x sz, ta_data t = replicate (Z.to_nat k) x -> zlen (b_data (ta_block t)) = k * sz -> array_ok (Some t) k sz) as OK.
  { intros A t x sz Et Eb. split_and!; [done|cbn; rewrite Et, zlen_replicate; lia|cbn]. rewrite Et, zlen_replicate. lia. }
  destruct (tfill_spec (Some t4) 0 k 4 REMOVED_INIT 0) as (p4 & E4 & O4 & A4 & G4); [by eapply OK|lia|]. rewrite Z.sub_0_r in E4.
  rewrite E4. cbn [obind]. eexists (Some _), _. split; [done|]. cbn [g_directed]. split; [done|].
  assert (forall v, 0 <= v < k -> slot_at (mk_graph (b_addr h) (Some t1) (Some t2) (Some t3) 0 k 0 directed p4 a) v = mk_slot None 0 0 REMOVED_INIT) as S.
  { intros v Hv. unfold slot_at. cbn [g_adj g_counts g_capacities g_removed tdata]. rewrite G4, T1, T2, T3 by lia. rewrite decide_True by lia.
    rewrite !lookup_replicate_2 by lia. done. }
  split; [|done|apply wf_empty]. split; cbn [g_vertex_capacity g_allocator g_vertex_count]; try done; [| | |].
  - split; cbn; [by eapply OK..|done].
  - intros v Hv. rewrite S by done. by rewrite lookup_empty.
  - intros v [x Hv]. by rewrite lookup_empty in Hv.
  - unfold holds, heads. cbn [g_self g_adj g_counts g_capacities g_removed]. rewrite A4.
    rewrite (addrs_ext _ _ (fun _ => fresh_slot)) by (intros v Hv; by rewrite S).
    replace (addrs k (fun _ => fresh_slot)) with (@nil addr).
    + rewrite app_nil_r. eapply owns_perm; [exact W4|]. rewrite !app_assoc. by rewrite <- Permutation_cons_append.
    + unfold addrs. rewrite mjoin_nil; [done|]. by intros x (v & -> & Hv)%list_elem_of_fmap.
Qed.

Lemma free_lists_spec c0 g n (k : nat) L : arrays_ok g n -> n < two64 -> g_allocator g = a -> forall i c, 0 <= i -> i + Z.of_nat k <= n ->
  owns a c0 c (mjoin ((fun v => opt_addr (taddr (sl_adj (slot_at g v)))) <$> seqZ i (Z.of_nat k)) ++ L) ->
  exists c', free_lists k i g c = Ret c' /\ owns a c0 c' L.
Proof.
  intros O Hn Ha. induction k as [|k IH]; intros i c Hi Hk W; cbn [free_lists].
  { exists c. split; [done|]. by rewrite seqZ_nil in W. }
  rewrite (get_adj g n i O) by lia. cbn [obind]. rewrite u64_small by lia. rewrite seqZ_cons in W by lia.
  replace (Z.pred (Z.of_nat (S k))) with (Z.of_nat k) in W by lia. replace (Z.succ i) with (i + 1) in W by lia.
  cbn [fmap list_fmap mjoin list_join] in W. rewrite <- app_assoc in W. apply IH; [lia|lia|]. rewrite Ha.
  destruct (sl_adj (slot_at g i)); [by apply (owns_free_opt a)|done].
Qed.

Lemma graph_destroy_spec c0 c g m : graph_rep c0 c g m -> exists c', zenit_graph_destroy (Some g) c = Ret c' /\ live c' = live c0.
Proof.
  intros [B _ _]. unfold zenit_graph_destroy. pose proof (gr_cap B). pose proof (gr_mem B) as W. unfold holds in W.
  destruct (free_lists_spec c0 g (g_vertex_capacity g) (Z.to_nat (g_vertex_capacity g)) (heads g) (gr_arrays B) ltac:(lia) (gr_alloc B) 0 c) as (c1 & -> & W1);
    [lia|lia|rewrite Z2Nat.id by lia; eapply owns_perm; [exact W|apply Permutation_app_comm]|].
  cbn [obind]. eexists. split; [done|]. rewrite (gr_alloc B). apply (owns_nil a). apply (owns_free a). do 4 apply (owns_free_opt a).
  eapply owns_perm; [exact W1|]. unfold heads. rewrite !app_assoc. by rewrite <- Permutation_cons_append.
Qed.

Lemma get_neighbors_spec c0 c g m v o k h : graph_base c0 c g m ->
  exists r l n h', zenit_graph_get_neighbors (Some g) v (Some o) (Some k) h = Ret (r, Some l, Some n, h') /\ n = zlen (tdata l) /\
    match m !! v with
    | None => r = -1 /\ l = None
    | Some ns => r = cast_int (zlen ns) /\ tdata l = ns \/ ns <> [] /\ r = -1 /\ l = None
    end.
Proof.
  intros H. unfold zenit_graph_get_neighbors. rewrite (valid_vertex_spec _ _ _ _ v H). cbn [obind].
  destruct (m !! v) as [ns|] eqn:E.
  2: { rewrite bool_decide_false by (by intros [? ?]). eexists _, _, _, _. split; [done|]. by split_and!. }
  rewrite bool_decide_true by (by eexists). destruct (base_slot _ _ _ _ _ _ H E) as (Hv & _ & N).
  rewrite (get_count g _ v (gr_arrays H) Hv), (nb_count N). cbn [obind]. case_decide as D.
  { destruct ns; [|rewrite zlen_cons in D; pose proof (zlen_nonneg ns); lia]. eexists _, _, _, _. split; [done|]. split; [done|]. by left. }
  destruct (malloc (u64 (zlen ns * SIZEOF_INT)) h) as [[b|] h'].
  2: { eexists _, _, _, _. split; [done|]. split; [done|]. right. split_and!; [|done|done]. by intros ->. }
  rewrite (get_adj g _ v (gr_arrays H) Hv). cbn [obind]. destruct (nb_room N) as [room Er]. rewrite Er.
  rewrite (rd_Ret (ns ++ room) 0 (zlen ns)) by (rewrite ?zlen_app; pose proof (zlen_nonneg room); pose proof (zlen_nonneg ns); lia).
  cbn [obind]. rewrite drop_0. unfold zlen at 2. rewrite Nat2Z.id, take_app_length. eexists _, _, _, _. split; [done|]. split; [done|]. by left.
Qed.
End Refine.

(** ** The machine *)

Inductive graph_op : Type :=
| OpAddVertex | OpRemoveVertex (v : Z) | OpAddEdge (u v : Z) | OpRemoveEdge (u v : Z) | OpHasEdge (u v : Z) | OpNeighbors (v : Z)
| OpVertexCount | OpEdgeCount | OpIsDirected | OpClear | OpDestroy.

Inductive graph_res (C : Type) : Type :=
| ResError (e : zenit_error_t) | ResBool (b : bool) | ResNum (n : Z) | ResNeighbors (r : Z) (l : list Z) | ResDone | ResFreed (c : C).
Arguments ResError {C}.
Arguments ResBool {C}.
Arguments ResNum {C}.
Arguments ResNeighbors {C}.
Arguments ResDone {C}.
Arguments ResFreed {C}.

Section Calls.
Context {C : Type} (a : zenit_allocator_t C) {SP : AllocSpec a}.

(** A call on a graph, NULL after it was destroyed; [heap] is where
    [zenit_graph_get_neighbors] takes its copies from. *)
Definition graph_exec (op : graph_op) (s : option (zenit_graph_t C) * C * heap)
    : outcome (graph_res C * (option (zenit_graph_t C) * C * heap)) :=
  let '(g, c, h) := s in
  match op with
  | OpAddVertex => let! (r, g, c) := zenit_graph_add_vertex g c in Ret (ResError r, (g, c, h))
  | OpRemoveVertex v => let! (r, g, c) := zenit_graph_remove_vertex g v c in Ret (ResError r, (g, c, h))
  | OpAddEdge u v => let! (r, g, c) := zenit_graph_add_edge g u v c in Ret (ResError r, (g, c, h))
  | OpRemoveEdge u v => let! (r, g) := zenit_graph_remove_edge g u v in Ret (ResError r, (g, c, h))
  | OpHasEdge u v => let! b := zenit_graph_has_edge g u v in Ret (ResBool b, s)
  | OpNeighbors v =>
      let! (r, l, n, h) := zenit_graph_get_neighbors g v (Some None) (Some 0) h in
      Ret (ResNeighbors r (tdata (default None l)), (g, c, h))
  | OpVertexCount => Ret (ResNum (zenit_graph_vertex_count g), s)
  | OpEdgeCount => Ret (ResNum (zenit_graph_edge_count g), s)
  | OpIsDirected => Ret (ResBool (zenit_graph_is_directed g), s)
  | OpClear => let! (g, c) := zenit_graph_clear g c in Ret (ResDone, (g, c, h))
  | OpDestroy => let! c := zenit_graph_destroy g c in Ret (ResFreed c, (None, c, h))
  end.

Abbreviation both m u v := (is_Some (m !! u) /\ is_Some (m !! v)) (only parsing).

(** What a call on a graph may answer, and the map afterwards. *)
Definition live_step (directed : bool) (before : gset addr) (op : graph_op) (m : amap) (r : graph_res C) (x : option amap) : Prop :=
  match op with
  | OpAddVertex => r = ResError ZENIT_ERROR_ALLOC /\ x = Some m \/
      r = ResError ZENIT_OK /\ exists v, least_free m v /\ x = Some (<[v := []]> m)
  | OpRemoveVertex v =>
      if decide (is_Some (m !! v)) then r = ResError ZENIT_OK /\ x = Some (spec_remove_vertex v m)
      else r = ResError ZENIT_ERROR_PARAM /\ x = Some m
  | OpAddEdge u v =>
      if decide (both m u v) then r = ResError ZENIT_OK /\ x = Some (spec_add_edge directed u v m) \/
        r = ResError ZENIT_ERROR_ALLOC /\ x = Some m /\ v ∉ nb m u
      else r = ResError ZENIT_ERROR_PARAM /\ x = Some m
  | OpRemoveEdge u v =>
      if decide (both m u v) then r = ResError ZENIT_OK /\ x = Some (spec_remove_edge directed u v m)
      else r = ResError ZENIT_ERROR_PARAM /\ x = Some m
  | OpHasEdge u v => r = ResBool (bool_decide (v ∈ nb m u)) /\ x = Some m
  | OpNeighbors v => x = Some m /\
      match m !! v with
      | None => r = ResNeighbors (-1) []
      | Some ns => r = ResNeighbors (cast_int (zlen ns)) ns \/ ns <> [] /\ r = ResNeighbors (-1) []
      end
  | OpVertexCount => r = ResNum (Z.of_nat (size m)) /\ x = Some m
  | OpEdgeCount => r = ResNum (u64 (edges directed m)) /\ x = Some m
  | OpIsDirected => r = ResBool directed /\ x = Some m
  | OpClear => r = ResDone /\ x = Some empty
  | OpDestroy => (exists c, r = ResFreed c /\ live c = before) /\ x = None
  end.

(** ... and on a null pointer. *)
Definition null_answer (op : graph_op) (r : graph_res C) : Prop :=
  match op with
  | OpAddVertex | OpRemoveVertex _ | OpAddEdge _ _ | OpRemoveEdge _ _ => r = ResError ZENIT_ERROR_NULL
  | OpHasEdge _ _ | OpIsDirected => r = ResBool false
  | OpNeighbors _ => r = ResNeighbors (-1) []
  | OpVertexCount | OpEdgeCount => r = ResNum 0
  | OpClear => r = ResDone
  | OpDestroy => exists c, r = ResFreed c
  end.

Definition graph_step (directed : bool) (before : gset addr) (op : graph_op) (x : option amap) (r : graph_res C) (x' : option amap) : Prop :=
  match x with
  | Some m => live_step directed before op m r x' /\ match x' with Some m' => graph_wf directed m' | None => True end
  | None => null_answer op r /\ x' = None
  end.

(** The vertices have [int] numbers, and a directed graph loses no vertex with an edge
    to itself. *)
Definition graph_legal (directed : bool) (op : graph_op) (x : option amap) : Prop :=
  match op, x with
  | OpAddVertex, Some m => Z.of_nat (size m) <= INT_MAX
  | OpRemoveVertex v, Some m => directed = true -> v ∉ nb m v
  | _, _ => True
  end.

Definition graph_state_rep (directed : bool) (c0 : C) (s : option (zenit_graph_t C) * C * heap) (x : option amap) : Prop :=
  match s, x with
  | (Some g, c, _), Some m => graph_rep a c0 c g m /\ g_directed g = directed
  | (None, _, _), None => True
  | _, _ => False
  end.

Lemma nb_dom m u v : v ∈ nb m u -> is_Some (m !! u).
Proof. unfold nb. destruct (m !! u) eqn:E; [by eexists|]. cbn. set_solver. Qed.

Lemma rep_wf c0 c g m directed : graph_rep a c0 c g m -> g_directed g = directed -> graph_wf directed m.
Proof. intros H <-. apply H. Qed.

Lemma graph_sim directed c0 op s x : graph_state_rep directed c0 s x -> graph_legal directed op x ->
  exists r s' x', graph_exec op s = Ret (r, s') /\ graph_step directed (live c0) op x r x' /\ graph_state_rep directed c0 s' x'.
Proof.
  destruct s as [[[g|] c] h], x as [m|]; try done.
  2: { intros _ _. destruct op; cbn; eexists _, _, None; (split; [done|]); (split; [split; [by eexists || done|done]|done]). }
  intros [H <-] Hl. destruct op as [|v|u v|u v|u v|v| | | | |]; cbn [graph_exec graph_legal] in *.
  - destruct (add_vertex_spec a c0 c g m H Hl) as (r & g' & c' & m' & -> & H' & D & Hr). cbn [obind].
    eexists _, _, (Some m'). split; [done|]. split; [|by split]. split; [|exact (rep_wf _ _ _ _ _ H' D)].
    destruct Hr as [[-> ->]|(-> & v & Hv & ->)]; [by left|right; split; [done|by exists v]].
  - destruct (remove_vertex_spec a c0 c g m v H Hl) as (g' & c' & -> & D & H'). cbn [obind].
    eexists _, _, (Some _). split; [done|]. split; [|by split]. split; [|exact (rep_wf _ _ _ _ _ H' D)]. cbn [live_step]. by case_decide.
  - destruct (add_edge_spec a c0 c g m u v H) as (r & g' & c' & m' & -> & H' & D & Hr). cbn [obind].
    eexists _, _, (Some m'). split; [done|]. split; [|by split]. split; [|exact (rep_wf _ _ _ _ _ H' D)]. cbn [live_step].
    case_decide; [destruct Hr as [[-> ->]|(-> & -> & N)]; [by left|by right]|by destruct Hr as [-> ->]].
  - destruct (remove_edge_spec a c0 c g m u v H) as (g' & -> & H' & D). cbn [obind].
    eexists _, _, (Some _). split; [done|]. split; [|by split]. split; [|exact (rep_wf _ _ _ _ _ H' D)]. cbn [live_step]. by case_decide.
  - rewrite (has_edge_spec a c0 c g m u v) by apply H. cbn [obind]. eexists _, _, (Some m). split; [done|]. split; [|by split].
    split; [|apply H]. cbn [live_step]. split; [|done]. f_equal. apply bool_decide_ext. split; [tauto|]. intros Hv.
    split_and!; [by eapply nb_dom|by eapply (gr_wf _ _ _ _ _ H)|done].
  - destruct (get_neighbors_spec a c0 c g m v None 0 h) as (r & l & n & h' & -> & _ & Hr); [apply H|]. cbn [obind].
    eexists _, _, (Some m). split; [done|]. split; [|by split]. split; [|apply H]. cbn [live_step default]. split; [done|].
    destruct (m !! v) as [ns|]; [|by destruct Hr as [-> ->]]. destruct Hr as [[-> Hr]|(N & -> & ->)]; [left; by rewrite <- Hr|by right].
  - eexists _, _, (Some m). split; [done|]. split; [|by split]. split; [|apply H]. split; [|done]. cbn. f_equal. apply H.
  - eexists _, _, (Some m). split; [done|]. split; [|by split]. split; [|apply H]. split; [|done]. cbn. f_equal. apply H.
  - eexists _, _, (Some m). split; [done|]. split; [|by split]. split; [|apply H]. done.
  - destruct (graph_clear_spec a c0 c g m H) as (g' & c' & -> & H' & D). cbn [obind]. eexists _, _, (Some empty). split; [done|].
    split; [|by split]. split; [done|apply wf_empty].
  - destruct (graph_destroy_spec a c0 c g m H) as (c' & -> & L). cbn [obind]. eexists _, _, None. split; [done|]. split; [|done].
    split; [|done]. split; [by exists c'|done].
Qed.

End Calls.

