(* ===== verification/GraphWalk.v ===== *)
(** * Graphs: the traversals

    Both traversals are instances of one walk ([walk]) that keeps the vertices seen but
    not yet visited: [zenit_graph_bfs] puts new ones behind them, [zenit_graph_dfs] in
    front.  The walk visits what can be reached, once; with new vertices behind, in the
    order of the distances ([bfs_correct], [dfs_correct]). *)

From Stdlib Require Import ZArith Lia Sorting.Sorted.
From stdpp Require Import base tactics option list numbers gmap sets sorting.
From S2P Require Import Prelude Mem Result Allocator Links Arrays Machine Graph GraphMemory GraphSpec GraphRefine.
Open Scope Z_scope.

(** ** Reference *)

(** A path of [k] edges. *)
Inductive path (m : amap) (s : Z) : Z -> nat -> Prop :=
| path_here : path m s s 0
| path_step u v k : path m s u k -> v ∈ nb m u -> path m s v (S k).

Definition reachable (m : amap) (s v : Z) : Prop := exists k, path m s v k.
Definition distance (m : amap) (s v : Z) (k : nat) : Prop := path m s v k /\ forall j, path m s v j -> (k <= j)%nat.

(** The callback over a list of vertices, until it returns something else than 0. *)
Fixpoint visit_all {X : Type} (visit : Z -> X -> Z * X) (vs : list Z) (ctx : X) : X :=
  match vs with
  | [] => ctx
  | v :: vs => let '(r, ctx) := visit v ctx in if decide (r <> 0) then ctx else visit_all visit vs ctx
  end.

(** The vertices visited, with [pend] seen and [done] visited before. *)
Fixpoint walk (join : list Z -> list Z -> list Z) (fuel : nat) (m : amap) (done pend : list Z) : list Z :=
  match pend, fuel with
  | v :: p, S fuel => v :: walk join fuel m (v :: done) (join p (filter (fun u => u ∉ done ++ pend) (nb m v)))
  | _, _ => []
  end.

Definition closed (m : amap) : Prop := forall v, NoDup (nb m v) /\ forall u, u ∈ nb m v -> is_Some (m !! u).

Lemma wf_closed dir m : graph_wf dir m -> closed m.
Proof. intros W v. split; [apply W|]. intros u Hu. by eapply W. Qed.

Lemma nodup_size (m : amap) (l : list Z) : NoDup l -> (forall v, v ∈ l -> is_Some (m !! v)) -> (length l <= size m)%nat.
Proof.
  intros ND H. rewrite <- size_dom, <- (size_list_to_set (C := gset Z)) by done. apply subseteq_size.
  intros v Hv%elem_of_list_to_set. apply elem_of_dom. auto.
Qed.

Section Walk.
Context (join : list Z -> list Z -> list Z) (Hjoin : forall p q, join p q ≡ₚ p ++ q) (m : amap) (Hm : closed m).

(** One turn keeps the vertices distinct and in the graph. *)
Definition walk_inv (done pend : list Z) : Prop := NoDup (done ++ pend) /\ forall v, v ∈ done ++ pend -> is_Some (m !! v).

Lemma walk_inv_next done v p : walk_inv done (v :: p) ->
  walk_inv (v :: done) (join p (filter (fun u => u ∉ done ++ v :: p) (nb m v))).
Proof.
  intros [ND Hd]. set (q := filter _ _).
  assert ((v :: done) ++ join p q ≡ₚ (done ++ v :: p) ++ q) as E.
  { rewrite Hjoin. cbn [app]. rewrite <- app_assoc. cbn [app]. by rewrite Permutation_middle. }
  split.
  - rewrite E. apply NoDup_app. split_and!; [done| |apply NoDup_filter, Hm]. intros x Hx [Hq _]%list_elem_of_filter. done.
  - intros x. rewrite E, elem_of_app. intros [Hx|[_ Hx]%list_elem_of_filter]; [auto|]. by eapply Hm.
Qed.

Lemma graph_walk_spec fuel : forall done pend, walk_inv done pend -> (size m <= length done + fuel)%nat ->
  let l := walk join fuel m done pend in
  walk_inv done l /\ pend ⊆ l /\ (forall v u, v ∈ l -> u ∈ nb m v -> u ∈ done ++ l) /\
    forall P : Z -> Prop, (forall v, v ∈ pend -> P v) -> (forall v u, P v -> u ∈ nb m v -> P u) -> forall v, v ∈ l -> P v.
Proof.
  induction fuel as [|fuel IH]; intros done [|v p] Hi Hf; cbn [walk].
  1, 3: rewrite app_nil_r in *; split_and!; try done; set_solver.
  { destruct Hi as [ND Hd]. pose proof (nodup_size m _ ND Hd) as L. rewrite length_app in L. cbn in L. lia. }
  pose proof (walk_inv_next _ _ _ Hi) as Hn. destruct (IH _ _ Hn) as (I1 & I2 & I3 & I4); [cbn; lia|].
  set (l := walk _ _ _ _ _) in *. set (q := filter _ _) in *.
  assert ((v :: done) ++ l ≡ₚ done ++ v :: l) as E by (cbn; by rewrite Permutation_middle).
  assert (forall x, x ∈ join p q <-> x ∈ p \/ x ∈ q) as Ej by (intros x; rewrite Hjoin; apply elem_of_app).
  assert (forall u, u ∈ q <-> u ∉ done ++ v :: p /\ u ∈ nb m v) as Eq by (intros u; unfold q; by rewrite list_elem_of_filter).
  split_and!.
  - destruct I1 as [ND Hd]. rewrite E in ND. split; [done|]. intros x. rewrite <- E. apply Hd.
  - intros x [->|Hx]%elem_of_cons; [set_solver|]. apply elem_of_cons. right. apply I2, Ej. by left.
  - intros x u [->|Hx]%elem_of_cons Hu; rewrite <- E.
    + destruct (decide (u ∈ done ++ v :: p)) as [Hs|Hs]; [|apply elem_of_app; right; apply I2, Ej; right; by apply Eq].
      apply elem_of_app in Hs as [Hs|Hs]; [set_solver|]. apply elem_of_cons in Hs as [->|Hs]; [set_solver|].
      apply elem_of_app. right. apply I2, Ej. by left.
    + by apply (I3 x).
  - intros P HP Hc x [->|Hx]%elem_of_cons; [apply HP; set_solver|]. apply (I4 P); try done.
    intros y [Hy|Hy]%Ej; [apply HP; set_solver|]. apply Eq in Hy as [_ Hy]. apply (Hc v); [apply HP; set_solver|done].
Qed.

(** From a vertex, what can be reached is visited, and once. *)
Lemma walk_reaches s fuel : is_Some (m !! s) -> (size m <= fuel)%nat ->
  let l := walk join fuel m [] [s] in NoDup l /\ forall v, v ∈ l <-> reachable m s v.
Proof.
  intros Hs Hf. destruct (graph_walk_spec fuel [] [s]) as (I1 & I2 & I3 & I4); [|done|].
  { split; [apply NoDup_singleton|set_solver]. }
  split; [apply I1|]. intros v. split.
  - apply I4; [intros x ->%list_elem_of_singleton; exists 0%nat; constructor|]. intros x u [k Hk] Hu. exists (S k). by econstructor.
  - intros [k Hk]. induction Hk as [|u v k _ IH Hu]; [set_solver|]. by apply (I3 u).
Qed.
End Walk.

(** ** Distances *)

Section Distances.
Context (m : amap) (Hm : closed m) (s : Z).
Abbreviation vd := (Z * nat)%type.

(** Every edge that leaves a vertex of [D] leads at most one step further. *)
Definition one_further (D S : list vd) : Prop :=
  forall x u, x ∈ D -> u ∈ nb m x.1 -> exists e, (u, e) ∈ S /\ (e <= x.2 + 1)%nat.

Record dist_inv (D P : list vd) : Prop := {
  di_walk : walk_inv m D.*1 P.*1;
  di_path x : x ∈ D ++ P -> path m s x.1 x.2;
  di_sorted : StronglySorted le P.*2;
  di_before x y : x ∈ D -> y ∈ P -> (x.2 <= y.2)%nat;
  di_near x p y : P = x :: p -> y ∈ P -> (y.2 <= x.2 + 1)%nat;
  di_further : one_further D (D ++ P) }.

Definition label (d : nat) (us : list Z) : list vd := (fun u => (u, d)) <$> us.

Lemma label_fst d us : (label d us).*1 = us.
Proof. unfold label. induction us as [|u us IH]; [done|]. cbn. by rewrite IH. Qed.

Lemma elem_of_label x d us : x ∈ label d us <-> x.1 ∈ us /\ x.2 = d.
Proof.
  unfold label. rewrite list_elem_of_fmap. split; [intros (u & -> & Hu); done|]. intros [Hu <-]. exists x.1. split; [by destruct x|done].
Qed.

Lemma label_sorted d us : StronglySorted le (label d us).*2.
Proof.
  induction us as [|u us IH]; [constructor|]. cbn. constructor; [done|]. apply Forall_forall. intros k (x & -> & Hx)%list_elem_of_fmap.
  apply elem_of_label in Hx as [_ ->]. done.
Qed.

Lemma dist_inv_next D v d p : dist_inv D ((v, d) :: p) ->
  dist_inv ((v, d) :: D) (p ++ label (d + 1) (filter (fun u => u ∉ D.*1 ++ v :: p.*1) (nb m v))).
Proof.
  intros [W HP HS HB HN HF]. set (q := filter _ _).
  assert (forall x, x ∈ q <-> x ∉ D.*1 ++ v :: p.*1 /\ x ∈ nb m v) as Eq by (intros x; unfold q; by rewrite list_elem_of_filter).
  cbn [fmap list_fmap fst snd] in HS. apply StronglySorted_inv in HS as [HS HS1]. rewrite Forall_forall in HS1.
  assert (forall y, y ∈ p -> (d <= y.2)%nat) as Hlo by (intros y Hy; apply HS1, list_elem_of_fmap; by exists y).
  assert (forall y, y ∈ p -> (y.2 <= d + 1)%nat) as Hhi by (intros y Hy; apply (HN (v, d) p y); [done|by right]).
  split.
  - cbn [fmap list_fmap fst]. rewrite fmap_app, label_fst. by apply (walk_inv_next app).
  - intros x Hx. rewrite elem_of_app, elem_of_cons, elem_of_app in Hx. destruct Hx as [[->|Hx]|[Hx|Hx]].
    1-3: apply HP; rewrite elem_of_app, elem_of_cons; tauto.
    apply elem_of_label in Hx as [Hx ->]. rewrite Nat.add_1_r.
    econstructor; [apply (HP (v, d)); rewrite elem_of_app, elem_of_cons; tauto|]. by apply Eq in Hx as [_ Hx].
  - rewrite fmap_app. apply StronglySorted_app_2; [|done|apply label_sorted]. intros i j (y & -> & Hy)%list_elem_of_fmap (z & -> & Hz)%list_elem_of_fmap.
    apply elem_of_label in Hz as [_ ->]. auto.
  - intros x y Hx Hy. assert (x.2 <= d /\ d <= y.2)%nat as [? ?]; [|lia]. split.
    + apply elem_of_cons in Hx as [->|Hx]; [done|]. apply (HB x (v, d)); [done|by left].
    + apply elem_of_app in Hy as [Hy|Hy]; [auto|]. apply elem_of_label in Hy as [_ ->]. lia.
  - intros x p' y E Hy. assert (x ∈ p ++ label (d + 1) q) as Hx by (rewrite E; by left).
    assert (y.2 <= d + 1 /\ d <= x.2)%nat as [? ?]; [|lia]. split.
    + apply elem_of_app in Hy as [Hy|Hy]; [auto|]. apply elem_of_label in Hy as [_ ->]. lia.
    + apply elem_of_app in Hx as [Hx|Hx]; [auto|]. apply elem_of_label in Hx as [_ ->]. lia.
  - intros x u Hx Hu. assert (forall z, z ∈ D ++ (v, d) :: p -> z ∈ ((v, d) :: D) ++ p ++ label (d + 1) q) as Hin.
    { intros z. rewrite !elem_of_app, !elem_of_cons. tauto. }
    apply elem_of_cons in Hx as [->|Hx].
    + cbn [fst snd] in *. destruct (decide (u ∈ D.*1 ++ v :: p.*1)) as [Hs|Hs].
      * assert (exists z, z ∈ D ++ (v, d) :: p /\ u = z.1) as (z & Hz & ->).
        { change (v :: p.*1) with (((v, d) :: p).*1) in Hs. rewrite <- fmap_app in Hs. apply list_elem_of_fmap in Hs as (z & -> & Hz). by exists z. }
        exists z.2. split; [apply Hin; by destruct z|]. apply elem_of_app in Hz as [Hz|Hz]; [|by apply (HN (v, d) p)].
        assert (z.2 <= d)%nat; [|lia]. apply (HB z (v, d)); [done|by left].
      * exists (d + 1)%nat. split; [|done]. rewrite !elem_of_app. right. right. apply elem_of_label. split; [by apply Eq|done].
    + destruct (HF x u Hx Hu) as (e & He & Hle). exists e. auto.
Qed.

Lemma walk_distances fuel : forall D P, dist_inv D P -> (size m <= length D + fuel)%nat ->
  exists L, walk app fuel m D.*1 P.*1 = L.*1 /\ StronglySorted le L.*2 /\ (forall x, x ∈ L -> path m s x.1 x.2) /\
    (forall x y, x ∈ D -> y ∈ L -> (x.2 <= y.2)%nat) /\ P ⊆ L /\ one_further (D ++ L) (D ++ L).
Proof.
  induction fuel as [|fuel IH]; intros D [|[v d] p] H Hf; cbn [walk fmap list_fmap fst].
  1, 3: exists []; destruct H; rewrite app_nil_r in *; split_and!; try done; try constructor; set_solver.
  { destruct (di_walk _ _ H) as [ND Hd]. pose proof (nodup_size m _ ND Hd) as L. rewrite length_app, !length_fmap in L. cbn in L. lia. }
  pose proof (dist_inv_next _ _ _ _ H) as Hn. destruct (IH _ _ Hn) as (L & E & HS & HP & HB & HI & HF); [cbn; lia|].
  exists ((v, d) :: L). cbn [fmap list_fmap fst] in E. rewrite fmap_app, label_fst in E. rewrite E.
  assert (forall z, z ∈ ((v, d) :: D) ++ L <-> z ∈ D ++ (v, d) :: L) as Hin.
  { intros z. rewrite !elem_of_app, !elem_of_cons. tauto. }
  split_and!.
  - done.
  - cbn. constructor; [done|]. apply Forall_forall. intros k (y & -> & Hy)%list_elem_of_fmap. apply (HB (v, d)); [by left|done].
  - intros x [->|Hx]%elem_of_cons; [|auto]. apply (di_path _ _ H (v, d)). rewrite elem_of_app, elem_of_cons. tauto.
  - intros x y Hx [->|Hy]%elem_of_cons; [apply (di_before _ _ H x (v, d)); [done|by left]|]. apply HB; [by right|done].
  - intros x [->|Hx]%elem_of_cons; [by left|]. right. apply HI. apply elem_of_app. by left.
  - intros x u Hx Hu. apply Hin in Hx. destruct (HF x u Hx Hu) as (e & He & Hle). exists e. split; [by apply Hin|done].
Qed.
End Distances.

Lemma fst_inj_nodup (L : list (Z * nat)) v d e : NoDup L.*1 -> (v, d) ∈ L -> (v, e) ∈ L -> d = e.
Proof.
  induction L as [|[w k] L IH]; cbn; intros ND Hd He; [by apply not_elem_of_nil in Hd|]. apply NoDup_cons in ND as [Hn ND].
  assert (forall k', (w, k') ∉ L) as Hk by (intros k' Hk; apply Hn, list_elem_of_fmap; by exists (w, k')).
  apply elem_of_cons in Hd as [Ed|Hd]; apply elem_of_cons in He as [Ee|He]; [|by injection Ed as -> ->; destruct (Hk e)|by injection Ee as -> ->; destruct (Hk d)|auto].
  congruence.
Qed.

Lemma bfs_distances (m : amap) s fuel : closed m -> is_Some (m !! s) -> (size m <= fuel)%nat ->
  exists ds, StronglySorted le ds /\ Forall2 (distance m s) (walk app fuel m [] [s]) ds.
Proof.
  intros Hm Hs Hf. destruct (walk_distances m Hm s fuel [] [(s, 0%nat)]) as (L & E & HS & HP & _ & HI & HF); [|done|].
  { split.
    - split; [apply NoDup_singleton|set_solver].
    - intros x ->%list_elem_of_singleton. constructor.
    - cbn. repeat constructor.
    - intros x y []%not_elem_of_nil.
    - intros x p y E ->%list_elem_of_singleton. injection E as <- <-. cbn. lia.
    - intros x u []%not_elem_of_nil. }
  destruct (walk_reaches app (fun p q => reflexivity _) m Hm s fuel Hs Hf) as [ND _]. cbn [fmap list_fmap fst] in E. rewrite E in *.
  exists L.*2. split; [done|]. apply Forall2_fmap_2, Forall_Forall2_diag, Forall_forall. intros [v d] Hx. cbn.
  split; [by apply (HP (v, d))|]. intros j Hj. enough (exists e, (v, e) ∈ L /\ (e <= j)%nat) as (e & He & Hle).
  { by rewrite (fst_inj_nodup L v d e ND Hx He). }
  clear Hx d. induction Hj as [|u v k _ (e & He & Hle) Hu]; [exists 0%nat; split; [apply HI; by left|lia]|].
  destruct (HF (u, e) v He Hu) as (e' & He' & Hle'). exists e'. split; [done|]. cbn in Hle'. lia.
Qed.

(** ** The loops *)

Definition marks (visited : option (tarr Z)) (n : Z) (seen : list Z) : Prop :=
  array_ok visited n 4 /\ forall w, 0 <= w < n -> default 0 (tdata visited !! Z.to_nat w) = 0 <-> w ∉ seen.
Definition starts (queue : option (tarr Z)) (n : Z) (l : list Z) : Prop :=
  array_ok queue n 4 /\ take (length l) (tdata queue) = l.

Lemma marks_ext v n l l' : marks v n l -> (forall x, x ∈ l <-> x ∈ l') -> marks v n l'.
Proof. intros [O H] E. split; [done|]. intros w Hw. rewrite H by done. by rewrite E. Qed.

Lemma queue_starts_app q n l l' : starts q n (l ++ l') -> starts q n l.
Proof.
  intros [O H]. split; [done|]. apply (f_equal (take (length l))) in H. rewrite take_take, take_app_length, length_app in H.
  by rewrite Nat.min_l in H by lia.
Qed.

Lemma starts_get q n l x l' : starts q n (l ++ x :: l') -> tget q (zlen l) = Ret x.
Proof.
  intros [(Nq & Hn & _) H]. destruct q as [t|]; [|done]. apply aget_lookup; [apply zlen_nonneg|]. cbn [tdata ta_data] in *.
  unfold zlen. rewrite Nat2Z.id. rewrite <- (lookup_take_lt (ta_data t) (length (l ++ x :: l'))) by (rewrite length_app; cbn; lia).
  rewrite H. by apply list_lookup_middle.
Qed.

Lemma enqueue_spec visited queue n seen l x : marks visited n seen -> starts queue n l -> 0 <= x < n -> zlen l < n < two64 ->
  exists v' q', enqueue visited queue (zlen l) x = Ret (v', q', zlen (l ++ [x])) /\ marks v' n (x :: seen) /\ starts q' n (l ++ [x]).
Proof.
  intros [Ov Hv] [Oq Hq] Hx Hl. unfold enqueue. pose proof (zlen_nonneg l).
  destruct (array_set visited n 4 x 1 0 Ov Hx) as (v' & -> & Ov' & _ & Gv). cbn [obind].
  destruct (tset_range queue (zlen l) x) as (q' & Eq & Nq' & _ & Dq); [apply Oq|destruct Oq as (_ & ? & _); lia|].
  destruct (array_set queue n 4 (zlen l) x 0 Oq) as (q1 & Eq1 & Oq' & _ & _); [lia|]. rewrite Eq in Eq1. injection Eq1 as <-.
  rewrite Eq. cbn [obind]. rewrite u64_small by lia. replace (zlen l + 1) with (zlen (l ++ [x])) by zl. exists v', q'. split; [done|]. split.
  - split; [done|]. intros w Hw. rewrite Gv by lia. case_decide as D; [subst; split; [done|set_solver]|]. rewrite Hv by done. set_solver.
  - split; [done|]. rewrite Dq. unfold zlen. rewrite Nat2Z.id, length_app. cbn [length]. rewrite Nat.add_1_r.
    destruct Oq as (_ & Hn & _). assert (length l < length (tdata queue))%nat by (unfold zlen in *; lia).
    erewrite take_S_r by (apply list_lookup_insert_eq; lia). rewrite take_insert_ge by lia. by rewrite Hq.
Qed.

Section Loops.
Context {C X : Type} (a : zenit_allocator_t C) {SP : AllocSpec a} (visit : Z -> X -> Z * X).
Context (g : zenit_graph_t C) (c0 c : C) (m : amap) (B : graph_base a c0 c g m) (Hm : closed m).
Abbreviation n := (g_vertex_capacity g).

Lemma seen_range v : is_Some (m !! v) -> 0 <= v < n.
Proof. apply (gr_dom _ _ _ _ _ B). Qed.

Lemma room (l : list Z) x : NoDup l -> (forall v, v ∈ l -> is_Some (m !! v)) -> x ∉ l -> is_Some (m !! x) -> zlen l < n < two64.
Proof.
  intros ND Hd Hx Hs. pose proof (size_bound _ _ _ _ _ B).
  assert (length (x :: l) <= size m)%nat as L; [|cbn in L; unfold zlen; lia].
  apply nodup_size; [by constructor|]. intros v [->|Hv]%elem_of_cons; auto.
Qed.

Lemma filter_push (x : Z) (l l' ns : list Z) : x ∉ ns -> (forall y, y ∈ l' <-> y = x \/ y ∈ l) ->
  filter (fun u => u ∉ l') ns = filter (fun u => u ∉ l) ns.
Proof.
  intros Hx El. induction ns as [|u ns IH]; [done|]. apply not_elem_of_cons in Hx as [D Hx]. rewrite !filter_cons, IH by done.
  repeat case_decide; try done; exfalso; naive_solver.
Qed.

(** What the scans read and test. *)
Lemma scan_step v ns1 u ns2 visited seen : is_Some (m !! v) -> nb m v = ns1 ++ u :: ns2 -> marks visited n seen ->
  neighbor g v (zlen ns1) = Ret u /\ is_Some (m !! u) /\
  exists x, tget visited u = Ret x /\ (x = 0 <-> u ∉ seen).
Proof.
  intros [ns E] En [O Hv]. rewrite (nb_Some _ _ _ E) in En. subst ns. destruct (base_slot _ _ _ _ _ _ _ B E) as (Hr & _ & N).
  split; [by eapply neighbor_spec; [apply B| |]|]. assert (is_Some (m !! u)) as Hu.
  { apply (Hm v). rewrite (nb_Some _ _ _ E). set_solver. }
  split; [done|]. pose proof (seen_range u Hu). eexists. split; [eapply (array_get visited n 4 u 0 O); done|]. by apply Hv.
Qed.

Lemma bfs_scan_spec v ns2 : forall ns1 visited queue l, is_Some (m !! v) -> nb m v = ns1 ++ ns2 -> marks visited n l -> starts queue n l ->
  NoDup l -> (forall x, x ∈ l -> is_Some (m !! x)) ->
  exists v' q', let l' := l ++ filter (fun u => u ∉ l) ns2 in
    bfs_scan (length ns2) (zlen ns1) g v visited queue (zlen l) = Ret (v', q', zlen l') /\ marks v' n l' /\ starts q' n l'.
Proof.
  induction ns2 as [|u ns2 IH]; intros ns1 visited queue l Hv En Mk St ND Hd; cbn [bfs_scan length].
  { exists visited, queue. rewrite filter_nil, app_nil_r. done. }
  destruct (scan_step v ns1 u ns2 visited l Hv En Mk) as (-> & Hu & x & Ex & Hx). cbn [obind]. rewrite Ex. cbn [obind]. clear Ex.
  assert (u64 (zlen ns1 + 1) = zlen (ns1 ++ [u])) as ->.
  { destruct Hv as [ns E]. destruct (base_slot _ _ _ _ _ _ _ B E) as (_ & _ & N). pose proof (nbrs_bound _ _ N) as Hb.
    rewrite (nb_Some _ _ _ E) in En. rewrite En, zlen_app, zlen_cons in Hb. change (PTRDIFF_MAX / 4) with 2305843009213693951 in Hb.
    pose proof (zlen_nonneg ns1). pose proof (zlen_nonneg ns2). rewrite u64_small by lia. zl. }
  pose proof (proj1 (Hm v)) as NDn. rewrite En in NDn. apply NoDup_app in NDn as (_ & _ & NDn). apply NoDup_cons in NDn as [Hun _].
  rewrite filter_cons. destruct (decide (x = 0)) as [Ex|Ex].
  - rewrite decide_True by (by apply Hx). apply Hx in Ex.
    destruct (enqueue_spec visited queue n l l u Mk St) as (v1 & q1 & -> & M1 & S1); [by apply seen_range|by eapply room|]. cbn [obind].
    destruct (IH (ns1 ++ [u]) v1 q1 (l ++ [u])) as (v' & q' & E & M' & S'); try done.
    + by rewrite <- app_assoc.
    + eapply marks_ext; [exact M1|]. set_solver.
    + apply NoDup_app. split_and!; [done|set_solver|apply NoDup_singleton].
    + set_solver.
    + exists v', q'. cbv zeta in *. rewrite (filter_push u l) in E, M', S' by (try done; set_solver). rewrite <- app_assoc in E, M', S'. done.
  - rewrite decide_False by tauto. cbn [obind]. apply IH; try done. by rewrite <- app_assoc.
Qed.

Lemma bfs_loop_spec fuel : forall D P visited queue ctx, walk_inv m (reverse D) P -> (size m <= length D + fuel)%nat ->
  marks visited n (D ++ P) -> starts queue n (D ++ P) ->
  bfs_loop visit fuel g ctx visited queue (zlen D) (zlen (D ++ P)) = Ret (visit_all visit (walk app fuel m (reverse D) P) ctx).
Proof.
  induction fuel as [|fuel IH]; intros D [|v p] visited queue ctx W Hf Mk St; cbn [bfs_loop walk];
    try (rewrite decide_False by (rewrite app_nil_r; lia); done).
  { destruct W as [ND Hd]. pose proof (nodup_size m _ ND Hd) as L. rewrite length_app, length_reverse in L. cbn in L. lia. }
  rewrite decide_True by (rewrite zlen_app, zlen_cons; pose proof (zlen_nonneg p); lia).
  rewrite (starts_get queue n D v p St). cbn [obind visit_all]. destruct (visit v ctx) as [r ctx1]. case_decide as Dr; [done|].
  assert (forall x, x ∈ reverse D ++ v :: p <-> x ∈ D ++ v :: p) as El by (intros x; rewrite !elem_of_app; by rewrite elem_of_reverse).
  assert (is_Some (m !! v)) as Hv by (apply W, El; set_solver). pose proof Hv as [ns E].
  destruct (base_slot _ _ _ _ _ _ _ B E) as (Hr & _ & N). rewrite (get_count g n v (gr_arrays _ _ _ _ _ B) Hr), (nb_count N). cbn [obind].
  replace (Z.to_nat (zlen ns)) with (length (nb m v)) by (rewrite (nb_Some _ _ _ E); unfold zlen; lia).
  assert (NoDup (D ++ v :: p)) as ND by (destruct W as [ND _]; by rewrite reverse_Permutation in ND).
  destruct (bfs_scan_spec v (nb m v) [] visited queue (D ++ v :: p)) as (v' & q' & Es & M' & S'); try done.
  { intros x Hx. by apply W, El. }
  change (zlen []) with 0 in Es. rewrite Es. cbn [obind].
  assert (zlen D + 1 < two64) as HD.
  { pose proof (size_bound _ _ _ _ _ B). pose proof (gr_cap _ _ _ _ _ B). destruct W as [ND' Hd']. pose proof (nodup_size m _ ND' Hd') as L.
    rewrite length_app, length_reverse in L. cbn in L. unfold zlen. lia. }
  pose proof (zlen_nonneg D). rewrite u64_small by lia. replace (zlen D + 1) with (zlen (D ++ [v])) by zl.
  assert (filter (fun u => u ∉ reverse D ++ v :: p) (nb m v) = filter (fun u => u ∉ D ++ v :: p) (nb m v)) as Ef
    by (apply list_filter_iff; intros x; by rewrite El).
  pose proof (walk_inv_next app (fun p q => reflexivity _) m Hm _ _ _ W) as W'. rewrite Ef in *. set (q := filter _ _) in *.
  replace ((D ++ v :: p) ++ q) with ((D ++ [v]) ++ p ++ q) in * by (by rewrite <- !app_assoc).
  rewrite IH; [|by rewrite reverse_snoc|rewrite length_app; cbn; lia|done|done]. by rewrite reverse_snoc.
Qed.

(** The scan of [zenit_graph_dfs] runs from the last neighbour to the first; the top of
    the stack is the head of [stk]. *)
Lemma dfs_scan_spec v ns1 : forall ns2 visited stack seen stk, is_Some (m !! v) -> nb m v = ns1 ++ ns2 -> marks visited n seen ->
  starts stack n (reverse stk) -> NoDup seen -> stk ⊆+ seen -> (forall x, x ∈ seen -> is_Some (m !! x)) ->
  exists v' s', let q := filter (fun u => u ∉ seen) ns1 in
    dfs_scan (length ns1) g v visited stack (zlen stk) = Ret (v', s', zlen (q ++ stk)) /\ marks v' n (q ++ seen) /\
    starts s' n (reverse (q ++ stk)).
Proof.
  induction ns1 as [|u ns1 IH] using rev_ind; intros ns2 visited stack seen stk Hv En Mk St ND Hsub Hd.
  { exists visited, stack. done. }
  rewrite length_app, Nat.add_1_r. cbn [dfs_scan]. rewrite <- app_assoc in En. cbn [app] in En.
  destruct (scan_step v ns1 u ns2 visited seen Hv En Mk) as (E1 & Hu & x & Ex & Hx). unfold zlen in E1. rewrite E1. cbn [obind].
  rewrite Ex. cbn [obind]. clear E1 Ex. rewrite filter_app, filter_cons, filter_nil.
  pose proof (proj1 (Hm v)) as NDn. rewrite En in NDn. apply NoDup_app in NDn as (_ & NDn & _).
  assert (u ∉ ns1) as Hun by (intros Hun; apply (NDn u Hun); by left). destruct (decide (x = 0)) as [Ex|Ex].
  - rewrite decide_True by (by apply Hx). apply Hx in Ex.
    assert (zlen (reverse stk) = zlen stk) as Lr by (unfold zlen; by rewrite length_reverse).
    destruct (enqueue_spec visited stack n seen (reverse stk) u Mk St) as (v1 & s1 & E1 & M1 & S1); [by apply seen_range| |].
    { pose proof (room seen u ND Hd Ex Hu) as R. apply submseteq_length in Hsub. rewrite Lr. unfold zlen in *. lia. }
    rewrite Lr in E1. rewrite E1. cbn [obind]. rewrite <- reverse_cons in S1.
    replace (zlen (reverse stk ++ [u])) with (zlen (u :: stk)) by (unfold zlen; rewrite length_app, length_reverse; cbn; lia).
    destruct (IH (u :: ns2) v1 s1 (u :: seen) (u :: stk)) as (v' & s' & E & M' & S'); try done.
    + by constructor.
    + by apply submseteq_skip.
    + intros y [->|Hy]%elem_of_cons; auto.
    + exists v', s'. cbv zeta in *. rewrite (filter_push u seen) in E, M', S' by (try done; set_solver). rewrite <- !app_assoc. done.
  - rewrite decide_False by tauto. cbn [obind]. rewrite app_nil_r. by apply (IH (u :: ns2)).
Qed.

Abbreviation in_front := (fun p q : list Z => q ++ p).

Lemma dfs_loop_spec fuel : forall D stk visited stack ctx, walk_inv m D stk -> (size m <= length D + fuel)%nat ->
  marks visited n (D ++ stk) -> starts stack n (reverse stk) ->
  dfs_loop visit fuel g ctx visited stack (zlen stk) = Ret (visit_all visit (walk in_front fuel m D stk) ctx).
Proof.
  induction fuel as [|fuel IH]; intros D [|v p] visited stack ctx W Hf Mk St; cbn [dfs_loop walk];
    try (rewrite decide_False by done; done).
  { destruct W as [ND Hd]. pose proof (nodup_size m _ ND Hd) as L. rewrite length_app in L. cbn in L. lia. }
  pose proof (zlen_nonneg p). pose proof (size_bound _ _ _ _ _ B). pose proof (gr_cap _ _ _ _ _ B).
  assert (zlen (v :: p) < two64) as Hl.
  { destruct W as [ND Hd]. pose proof (nodup_size m _ ND Hd) as L. rewrite length_app in L. unfold zlen. lia. }
  rewrite zlen_cons in Hl |- *. rewrite decide_True by lia. rewrite u64_small by lia. replace (1 + zlen p - 1) with (zlen p) by lia.
  rewrite reverse_cons in St. replace (zlen p) with (zlen (reverse p)) at 1 by (unfold zlen; by rewrite length_reverse).
  rewrite (starts_get stack n (reverse p) v [] St). cbn [obind visit_all]. destruct (visit v ctx) as [r ctx1]. case_decide as Dr; [done|].
  assert (is_Some (m !! v)) as Hv by (apply W; set_solver). pose proof Hv as [ns E].
  destruct (base_slot _ _ _ _ _ _ _ B E) as (Hr & _ & N). rewrite (get_count g n v (gr_arrays _ _ _ _ _ B) Hr), (nb_count N). cbn [obind].
  replace (Z.to_nat (zlen ns)) with (length (nb m v)) by (rewrite (nb_Some _ _ _ E); unfold zlen; lia).
  destruct (dfs_scan_spec v (nb m v) [] visited stack (D ++ v :: p) p) as (v' & s' & Es & M' & S'); try done.
  { by rewrite app_nil_r. }
  { by eapply queue_starts_app. }
  { apply W. }
  { apply submseteq_inserts_l. by apply submseteq_cons. }
  { apply W. }
  rewrite Es. cbn [obind]. apply IH; [|cbn; lia| |done].
  - apply (walk_inv_next in_front); [intros p' q; apply Permutation_app_comm|done|done].
  - eapply marks_ext; [exact M'|]. intros y. cbn beta. rewrite !elem_of_app, !elem_of_cons. tauto.
Qed.
End Loops.

(** ** The calls *)

Section Calls.
Context {C X : Type} (a : zenit_allocator_t C) {SP : AllocSpec a}.
Implicit Types (g : zenit_graph_t C) (m : amap) (h : heap).

(** Around the loop: the two arrays are taken and given back. *)
Lemma traverse_spec loop g c0 c m start (visit : Z -> X -> Z * X) ctx ctx' h :
  graph_base a c0 c g m -> is_Some (m !! start) ->
  (forall visited queue, marks visited (g_vertex_capacity g) [start] -> starts queue (g_vertex_capacity g) [start] ->
     loop visit g ctx visited queue 1 = Ret ctx') ->
  exists r h', traverse loop (Some g) start (Some visit) ctx h = Ret (r, if decide (r = ZENIT_OK) then ctx' else ctx, h') /\
    h_live h' = h_live h /\ (r = ZENIT_OK \/ r = ZENIT_ERROR_ALLOC).
Proof.
  intros B Hs HL. unfold traverse. rewrite (valid_vertex_spec _ _ _ _ _ _ B), bool_decide_true by done. cbn [obind].
  pose proof (gr_cap _ _ _ _ _ B). set (n := g_vertex_capacity g) in *. unfold calloc, SIZEOF_INT. rewrite decide_False by lia.
  destruct (malloc (n * 4) h) as [[b|] h1] eqn:E1.
  2: { eexists ZENIT_ERROR_ALLOC, _. split; [done|]. split; [exact (malloc_none _ _ _ E1)|by right]. }
  destruct (malloc_some _ _ _ _ E1) as (Lb & _ & Nb & Hl1). rewrite u64_small by lia.
  destruct (malloc (n * 4) h1) as [[q|] h2] eqn:E2.
  2: { eexists ZENIT_ERROR_ALLOC, _. split; [done|]. split; [|by right].
       pose proof (malloc_none _ _ _ E2) as Hl2. rewrite free_addr_live by set_solver. set_solver. }
  destruct (malloc_some _ _ _ _ E2) as (Lq & _ & Nq & Hl2).
  assert (forall b' : block, zlen (b_data b') = n * 4 -> array_ok (Some (TArr b' (replicate (Z.to_nat n) 0))) n 4) as OK.
  { intros b' L. split_and!; [done|cbn; rewrite zlen_replicate; lia|cbn]. rewrite zlen_replicate. lia. }
  rewrite Lq, Z.div_mul by lia.
  destruct (enqueue_spec (Some (TArr b (replicate (Z.to_nat n) 0))) (Some (TArr q (replicate (Z.to_nat n) 0))) n [] [] start)
    as (v' & q' & Ee & Mk & St).
  { split; [by apply OK|]. intros w Hw. cbn. rewrite lookup_replicate_2 by lia. set_solver. }
  { split; [by apply OK|done]. }
  { by apply B. }
  { change (zlen (@nil Z)) with 0. lia. }
  change (zlen (@nil Z)) with 0 in Ee. rewrite Ee. cbn [obind app]. change (zlen [start]) with 1. rewrite (HL v' q' Mk St). cbn [obind].
  eexists ZENIT_OK, _. split; [done|]. split; [|by left].
  rewrite free_addr_live; rewrite free_addr_live; set_solver.
Qed.

Lemma traverse_errors loop g c0 c m start (visit : option (Z -> X -> Z * X)) (ctx : X) h : graph_base a c0 c g m ->
  traverse (C := C) loop None start visit ctx h = Ret (ZENIT_ERROR_NULL, ctx, h) /\
  traverse loop (Some g) start None ctx h = Ret (ZENIT_ERROR_NULL, ctx, h) /\
  (m !! start = None -> visit <> None -> traverse loop (Some g) start visit ctx h = Ret (ZENIT_ERROR_PARAM, ctx, h)).
Proof.
  intros B. split_and!; [done|done|]. intros E Hv. destruct visit as [visit|]; [|done]. unfold traverse.
  by rewrite (valid_vertex_spec _ _ _ _ _ _ B), E, bool_decide_false by (by intros []).
Qed.

(** C16. [zenit_graph_bfs] on a graph and a start vertex: there is an order of the vertices
    that can be reached from it, each once and by increasing distance, and the call
    hands them to the callback in that order until it asks to stop; it returns within
    as many turns as there are vertices, and frees its two arrays.  If one of them
    cannot be had it reports that and calls nothing. *)
Theorem bfs_correct g c0 c m start (fuel : nat) :
  graph_rep a c0 c g m -> is_Some (m !! start) -> (size m <= fuel)%nat ->
  exists order ds, NoDup order /\ (forall v, v ∈ order <-> reachable m start v) /\
    StronglySorted le ds /\ Forall2 (distance m start) order ds /\
    forall (visit : Z -> X -> Z * X) ctx h, exists r h',
      zenit_graph_bfs fuel (Some g) start (Some visit) ctx h =
        Ret (r, if decide (r = ZENIT_OK) then visit_all visit order ctx else ctx, h') /\
      h_live h' = h_live h /\ (r = ZENIT_OK \/ r = ZENIT_ERROR_ALLOC).
Proof.
  intros [B _ W%wf_closed] Hs Hf. destruct (bfs_distances m start fuel W Hs Hf) as (ds & HS & HD).
  destruct (walk_reaches app (fun p q => reflexivity _) m W start fuel Hs Hf) as [ND HR].
  exists (walk app fuel m [] [start]), ds. split_and!; [done..|]. intros visit ctx h. eapply traverse_spec; [exact B|done|].
  intros visited queue Mk St. apply (bfs_loop_spec a visit g c0 c m B W fuel [] [start]); [|done..].
  split; [apply NoDup_singleton|]. intros v ->%list_elem_of_singleton. done.
Qed.

(** [zenit_graph_dfs] on a graph and a start vertex: it hands every vertex that can be
    reached from there to the callback, each once, in an order that does not depend on
    the callback, until that asks to stop; it returns within as many turns as there are
    vertices, and frees its two arrays. *)
Theorem dfs_correct g c0 c m start (fuel : nat) :
  graph_rep a c0 c g m -> is_Some (m !! start) -> (size m <= fuel)%nat ->
  exists order, NoDup order /\ (forall v, v ∈ order <-> reachable m start v) /\
    forall (visit : Z -> X -> Z * X) ctx h, exists r h',
      zenit_graph_dfs fuel (Some g) start (Some visit) ctx h =
        Ret (r, if decide (r = ZENIT_OK) then visit_all visit order ctx else ctx, h') /\
      h_live h' = h_live h /\ (r = ZENIT_OK \/ r = ZENIT_ERROR_ALLOC).
Proof.
  intros [B _ W%wf_closed] Hs Hf.
  destruct (walk_reaches (fun p q => q ++ p) (fun p q => Permutation_app_comm _ _) m W start fuel Hs Hf) as [ND HR].
  eexists. split_and!; [done..|]. intros visit ctx h. eapply traverse_spec; [exact B|done|].
  intros visited stack Mk St. apply (dfs_loop_spec a visit g c0 c m B W fuel [] [start]); [|done..].
  split; [apply NoDup_singleton|]. intros v ->%list_elem_of_singleton. done.
Qed.
End Calls.

(** ** Examples *)

(** A graph made by a sequence of calls. *)
Definition graph_after (cap : Z) (directed : bool) (ops : list graph_op) : outcome (option (zenit_graph_t heap) * heap * heap) :=
  let! (g, c) := zenit_graph_create cap directed empty_heap in
  let! (_, s) := run graph_exec ops (g, c, empty_heap) in Ret s.

(** The order in which a traversal from 0 calls back. *)
Definition visits (call : option (zenit_graph_t heap) -> Z -> option (Z -> list Z -> Z * list Z) -> list Z -> heap -> outcome (zenit_error_t * list Z * heap))
    (s : outcome (option (zenit_graph_t heap) * heap * heap)) : outcome (list Z) :=
  let! (g, c, h) := s in
  let! (r, vs, h) := call g 0 (Some (fun v vs => (0, vs ++ [v]))) [] h in Ret vs.

Lemma least_free_unique m v k : least_free m v -> least_free m k -> v = k.
Proof.
  intros (Hv & Ev & Bv) (Hk & Ek & Bk). destruct (Z.lt_trichotomy v k) as [L|[L|L]]; [|done|].
  - destruct (Bk v ltac:(lia)). congruence.
  - destruct (Bv k ltac:(lia)). congruence.
Qed.

(** A plan: a vertex with the number it will get, or an edge. *)
Definition plan_op (x : Z + Z * Z) : graph_op := match x with inl _ => OpAddVertex | inr (u, v) => OpAddEdge u v end.

Fixpoint planned (directed : bool) (plan : list (Z + Z * Z)) (m : amap) : option amap :=
  match plan with
  | [] => Some m
  | inl k :: plan =>
      if bool_decide (0 <= k /\ m !! k = None) && forallb (fun u => bool_decide (is_Some (m !! u))) (seqZ 0 k)
      then planned directed plan (<[k := []]> m) else None
  | inr (u, v) :: plan => planned directed plan (spec_add_edge directed u v m)
  end.

Lemma planned_rep directed plan : forall (g : zenit_graph_t heap) c h m m' s, graph_rep ZENIT_ALLOCATOR_DEFAULT empty_heap c g m ->
  g_directed g = directed -> Z.of_nat (size m + length plan) <= INT_MAX -> planned directed plan m = Some m' ->
  run graph_exec (plan_op <$> plan) (Some g, c, h) = Ret (replicate (length plan) (ResError ZENIT_OK), s) ->
  exists g' c', s = (Some g', c', h) /\ graph_rep ZENIT_ALLOCATOR_DEFAULT empty_heap c' g' m'.
Proof.
  induction plan as [|[k|[u v]] plan IH]; intros g c h m m' s H D Hs P E; cbn [planned length fmap list_fmap plan_op run replicate] in *.
  { injection P as <-. injection E as <-. by exists g, c. }
  - destruct (bool_decide _ && _) eqn:Eb; [|done]. apply andb_true_iff in Eb as [[Hk En]%bool_decide_eq_true Hb].
    assert (least_free m k) as Lk.
    { split_and!; [done|done|]. intros w Hw. rewrite forallb_forall in Hb.
      apply (bool_decide_eq_true (is_Some (m !! w))), Hb. apply list_elem_of_In, elem_of_seqZ. lia. }
    destruct (add_vertex_spec ZENIT_ALLOCATOR_DEFAULT _ _ _ _ H ltac:(lia)) as (r & g1 & c1 & m1 & E1 & H1 & D1 & Hr).
    cbn [graph_exec] in E. rewrite E1 in E. cbn [obind] in E. apply obind_Ret_inv in E as ([rs s2] & E2 & E). injection E as -> -> ->.
    destruct Hr as [[[=] _]|(_ & v & Hv & ->)]. rewrite (least_free_unique m k v) in P by done.
    eapply IH; [exact H1|congruence| |exact P|exact E2]. rewrite map_size_insert_None by apply Hv. lia.
  - destruct (add_edge_spec ZENIT_ALLOCATOR_DEFAULT _ _ _ _ u v H) as (r & g1 & c1 & m1 & E1 & H1 & D1 & Hr).
    cbn [graph_exec] in E. rewrite E1 in E. cbn [obind] in E. apply obind_Ret_inv in E as ([rs s2] & E2 & E). injection E as -> -> ->.
    case_decide as Db; [|by destruct Hr]. destruct Hr as [[_ ->]|[[=] _]]. rewrite D in *.
    eapply IH; [exact H1|congruence| |exact P|exact E2]. rewrite spec_add_edge_size by apply Db. lia.
Qed.

(** Three vertices in a row, 0 -> 1 -> 2. *)
Definition row_plan : list (Z + Z * Z) := [inl 0; inl 1; inl 2; inr (0, 1); inr (1, 2)].
Definition row_map : amap := <[1 := [2]]> (<[0 := [1]]> (<[2 := []]> (<[1 := []]> (<[0 := []]> empty)))).

Lemma row_rep : exists g c, graph_after 2 true (plan_op <$> row_plan) = Ret (Some g, c, empty_heap) /\
  graph_rep ZENIT_ALLOCATOR_DEFAULT empty_heap c g row_map.
Proof.
  assert (match zenit_graph_create 2 true empty_heap with
          | Ret (g, c) => match run graph_exec (plan_op <$> row_plan) (g, c, empty_heap) with Ret (rs, _) => rs | _ => [] end
          | _ => [] end = replicate (length row_plan) (ResError ZENIT_OK)) as E by (vm_compute; reflexivity).
  unfold graph_after, zenit_graph_create in *.
  destruct (graph_create_spec ZENIT_ALLOCATOR_DEFAULT 2 true empty_heap) as (r & c & Ec & H); [lia..|].
  rewrite Ec in *. cbn [obind]. destruct (run _ _ _) as [[rs s]| |] eqn:Er; [|done..]. subst rs. destruct r as [g|].
  2: { vm_compute in Er. discriminate. }
  destruct H as [D H]. destruct (planned_rep true row_plan g c empty_heap empty row_map s H D) as (g' & c' & -> & H');
    [done|vm_compute; reflexivity|done|]. by exists g', c'.
Qed.

Lemma bfs_correct_witness :
  exists g c, graph_after 2 true (plan_op <$> row_plan) = Ret (Some g, c, empty_heap) /\
    (exists order ds, NoDup order /\ (forall v, v ∈ order <-> reachable row_map 0 v) /\ StronglySorted le ds /\
       Forall2 (distance row_map 0) order ds) /\
    visits (zenit_graph_bfs 3) (graph_after 2 true (plan_op <$> row_plan)) = Ret [0; 1; 2].
Proof.
  destruct row_rep as (g & c & E & H). exists g, c. split; [exact E|]. split; [|vm_compute; reflexivity].
  refine (match bfs_correct (X := list Z) ZENIT_ALLOCATOR_DEFAULT g empty_heap c row_map 0 3 H _ _ with
          | ex_intro _ order (ex_intro _ ds (conj A (conj B (conj D (conj F _))))) =>
              ex_intro _ order (ex_intro _ ds (conj A (conj B (conj D F)))) end).
  - vm_compute. by eexists.
  - vm_compute. lia.
Defined.

Lemma dfs_correct_witness :
  exists g c, graph_after 2 true (plan_op <$> row_plan) = Ret (Some g, c, empty_heap) /\
    (exists order, NoDup order /\ (forall v, v ∈ order <-> reachable row_map 0 v)) /\
    visits (zenit_graph_dfs 3) (graph_after 2 true (plan_op <$> row_plan)) = Ret [0; 1; 2].
Proof.
  destruct row_rep as (g & c & E & H). exists g, c. split; [exact E|]. split; [|vm_compute; reflexivity].
  refine (match dfs_correct (X := list Z) ZENIT_ALLOCATOR_DEFAULT g empty_heap c row_map 0 3 H _ _ with
          | ex_intro _ order (conj A (conj B _)) => ex_intro _ order (conj A B) end).
  - vm_compute. by eexists.
  - vm_compute. lia.
Defined.

(** ** Where the code does not do what it says *)

(** A graph created for one vertex does not grow: the second vertex is written past
    the arrays. *)
Theorem graph_capacity_one_undefined : graph_after 1 false [OpAddVertex; OpAddVertex] = Undef.
Proof. vm_compute. reflexivity. Qed.

(** Removing a vertex with an edge to itself from a directed graph takes that edge off
    the count twice. *)
Theorem graph_self_loop_counted_twice :
  (let! (g, c) := zenit_graph_create 2 true empty_heap in
   let! (rs, _) := run graph_exec [OpAddVertex; OpAddEdge 0 0; OpRemoveVertex 0; OpEdgeCount] (g, c, empty_heap) in Ret rs) =
  Ret [ResError ZENIT_OK; ResError ZENIT_OK; ResError ZENIT_OK; ResNum (two64 - 1)].
Proof. vm_compute. reflexivity. Qed.

(** The traversal called depth-first marks vertices when they are pushed: with the edges
    below, 2 is visited between 1 and 3, though 3 is a neighbour of 1 and 2 is not. *)
Theorem dfs_not_depth_first :
  visits (zenit_graph_dfs 5) (graph_after 5 true
    [OpAddVertex; OpAddVertex; OpAddVertex; OpAddVertex; OpAddVertex;
     OpAddEdge 0 1; OpAddEdge 0 2; OpAddEdge 0 3; OpAddEdge 1 3; OpAddEdge 3 4]) = Ret [0; 1; 2; 3; 4].
Proof. vm_compute. reflexivity. Qed.
