(* ===== verification/JsonNumber.v ===== *)
(** * Numbers as text: [strtod] and [snprintf] of a [double]

    What [json.c] uses of the C library for numbers.  A [double] is a [spec_float] of
    the binary64 format; [strtod] rounds the decimal number to the nearest [double],
    [%.0f] and [%.*g] round the exact value of the [double] to the nearest decimal
    number of the precision, both to even on ties, in the C locale.  The sign of a NaN
    is not modelled.  The text [strtod] is given does not start with white space. *)

From Stdlib Require Import ZArith Lia Ascii String SpecFloat.
From stdpp Require Import base tactics option list numbers.
From S2P Require Import Prelude Mem Allocator Text Semver.
Open Scope Z_scope.

Abbreviation double := spec_float (only parsing).

(** ** Decimal and binary values *)

(** The [double] nearest to [num / den]. *)
Definition of_ratio (s : bool) (num den : Z) : double :=
  if decide (num = 0) then S754_zero s
  else let '(q, e, l) := SFdiv_core_binary 53 1024 num 0 den 0 in binary_round_aux 53 1024 s q e l.

(** [m * base ^ e]. *)
Definition of_scaled (s : bool) (base m e : Z) : double := of_ratio s (m * base ^ Z.max e 0) (base ^ Z.max (- e) 0).

Definition of_int (n : Z) : double := of_ratio (bool_decide (n < 0)) (Z.abs n) 1.

(** The absolute value of a finite [double] as a fraction. *)
Definition fraction (x : double) : Z * Z :=
  match x with
  | S754_finite _ m e => (Z.pos m * 2 ^ Z.max e 0, 2 ^ Z.max (- e) 0)
  | _ => (0, 1)
  end.

Definition sign (x : double) : bool := match x with S754_zero s | S754_infinity s | S754_finite s _ _ => s | S754_nan => false end.

(** ** [strtod] *)

Definition is_hex (c : Z) : bool := is_digit c || bool_decide (ch "a" <= c <= ch "f") || bool_decide (ch "A" <= c <= ch "F").
Definition hex_value (c : Z) : Z :=
  if is_digit c then c - ch "0" else if decide (ch "a" <= c <= ch "f") then c - ch "a" + 10 else c - ch "A" + 10.

(** The character behind a pointer. *)
Definition look (s : bytes) : outcome Z := match s with c :: _ => Ret c | [] => Undef end.

(** The longest run of characters with [f], added to [acc] in the base; also how many. *)
Fixpoint scan_run (f : Z -> bool) (value : Z -> Z) (base : Z) (s : bytes) (acc n : Z) : outcome (Z * Z * bytes) :=
  match s with
  | [] => Undef
  | c :: s' => if f c then scan_run f value base s' (acc * base + value c) (n + 1) else Ret (acc, n, s)
  end.

(** Does [s] go on with [w], in either case? *)
Fixpoint match_word (w s : bytes) : outcome bool :=
  match w with
  | [] => Ret true
  | x :: w =>
      let! c := look s in
      if decide (c = x \/ c = x - 32) then match_word w (tl s) else Ret false
  end.

(** An exponent after [e] or [p]: its value and the rest, or none. *)
Definition scan_exponent (low up : Z) (s : bytes) : outcome (Z * bytes) :=
  let! c := look s in
  if decide (c = low \/ c = up) then
    let! d := look (tl s) in
    let neg := bool_decide (d = ch "-") in
    let s' := if decide (d = ch "-" \/ d = ch "+") then tl (tl s) else tl s in
    let! (e, n, rest) := scan_run is_digit (fun c => c - ch "0") 10 s' 0 0 in
    if decide (n = 0) then Ret (0, s) else Ret (if neg then - e else e, rest)
  else Ret (0, s).

(** Digits with an optional fraction: the digits as a number, how many come after the
    point, and how many there are. *)
Definition scan_mantissa (f : Z -> bool) (value : Z -> Z) (base : Z) (s : bytes) : outcome (Z * Z * Z * bytes) :=
  let! (m, n, rest) := scan_run f value base s 0 0 in
  let! c := look rest in
  if decide (c = ch ".") then
    let! (m2, n2, rest2) := scan_run f value base (tl rest) m 0 in
    if decide (n + n2 = 0) then Ret (0, 0, 0, s) else Ret (m2, n2, n + n2, rest2)
  else Ret (m, 0, n, rest).

Definition scan_decimal (neg : bool) (s : bytes) : outcome (option (double * bytes)) :=
  let! (m, frac, n, rest) := scan_mantissa is_digit (fun c => c - ch "0") 10 s in
  if decide (n = 0) then Ret None
  else
    let! (e, rest) := scan_exponent (ch "e") (ch "E") rest in
    Ret (Some (of_scaled neg 10 m (e - frac), rest)).

Definition scan_hex (neg : bool) (s : bytes) : outcome (option (double * bytes)) :=
  let! (m, frac, n, rest) := scan_mantissa is_hex hex_value 16 s in
  if decide (n = 0) then Ret None
  else
    let! (e, rest) := scan_exponent (ch "p") (ch "P") rest in
    Ret (Some (of_scaled neg 2 m (e - 4 * frac), rest)).

(** The characters of [nan(...)], up to the parenthesis that closes it. *)
Fixpoint scan_nan (s : bytes) : outcome (option bytes) :=
  match s with
  | [] => Undef
  | c :: s =>
      if decide (c = ch ")") then Ret (Some s)
      else if is_digit c || bool_decide (ch "a" <= c <= ch "z") || bool_decide (ch "A" <= c <= ch "Z") || bool_decide (c = ch "_")
      then scan_nan s else Ret None
  end.

Definition scan_unsigned (neg : bool) (s : bytes) : outcome (option (double * bytes)) :=
  let! c := look s in
  if decide (c = ch "0") then
    let! x := look (tl s) in
    if decide (x = ch "x" \/ x = ch "X") then
      let! r := scan_hex neg (tl (tl s)) in
      match r with Some _ => Ret r | None => Ret (Some (S754_zero neg, tl s)) end
    else scan_decimal neg s
  else
    let! inf := match_word (lit "inf") s in
    if inf : bool then
      let! long := match_word (lit "infinity") s in
      Ret (Some (S754_infinity neg, drop (if long : bool then 8 else 3) s))
    else
      let! nan := match_word (lit "nan") s in
      if nan : bool then
        let! c := look (drop 3 s) in
        let! close := if decide (c = ch "(") then scan_nan (drop 4 s) else Ret None in
        Ret (Some (S754_nan, default (drop 3 s) close))
      else scan_decimal neg s.

(** The value and the rest of the text; without a number, zero and the whole text. *)
Definition strtod (s : bytes) : outcome (double * bytes) :=
  let! c := look s in
  let! r := scan_unsigned (bool_decide (c = ch "-")) (if decide (c = ch "-" \/ c = ch "+") then tl s else s) in
  match r with Some (x, rest) => Ret (x, rest) | None => Ret (S754_zero false, s) end.

(** ** [snprintf] *)

(** [n / d] rounded to the nearest integer, to even on ties. *)
Definition nearest (n d : Z) : Z :=
  let q := n / d in let r := n mod d in
  if decide (2 * r < d) then q else if decide (d < 2 * r) then q + 1 else if Z.even q then q else q + 1.

(** More digits than a [double] has before and after the point. *)
Definition DIGITS : nat := 800.
Definition decimal (n : Z) : bytes := digits DIGITS n [].

(** At least [k] digits. *)
Definition decimal_pad (k : Z) (n : Z) : bytes := let ds := decimal n in replicate (Z.to_nat (k - zlen ds)) (ch "0") ++ ds.

Definition minus (x : double) : bytes := if sign x then [ch "-"] else [].

Definition special (x : double) : option bytes :=
  match x with
  | S754_infinity _ => Some (minus x ++ lit "inf")
  | S754_nan => Some (lit "nan")
  | _ => None
  end.

(** [%.0f]. *)
Definition show_f0 (x : double) : bytes :=
  match special x with
  | Some t => t
  | None => let '(n, d) := fraction x in minus x ++ decimal (nearest n d)
  end.

(** The decimal exponent of [n / d]: that of the first digit. *)
Definition exponent (n d : Z) : Z := zlen (decimal (n * 10 ^ 400 / d)) - 401.

(** [n / d] to [p] digits, as a number of [p] digits and its exponent. *)
Definition significant (p n d : Z) : Z * Z :=
  let x := exponent n d in
  let k := p - 1 - x in
  let m := nearest (n * 10 ^ Z.max k 0) (d * 10 ^ Z.max (- k) 0) in
  if decide (m = 10 ^ p) then (10 ^ (p - 1), x + 1) else (m, x).

Fixpoint strip (rev : bytes) : bytes :=
  match rev with c :: rev' => if decide (c = ch "0") then strip rev' else rev | [] => [] end.
(** A fraction without the zeros at its end, and without the point if none is left. *)
Definition fraction_text (ds : bytes) : bytes :=
  match strip (reverse ds) with [] => [] | l => ch "." :: reverse l end.

(** [%.pg]. *)
Definition show_g (p : Z) (x : double) : bytes :=
  match special x, x with
  | Some t, _ => t
  | _, S754_finite _ _ _ =>
      let '(n, d) := fraction x in
      let '(m, e) := significant p n d in
      let ds := decimal m in
      minus x ++
      (if decide (-4 <= e < p) then
         if decide (0 <= e) then take (Z.to_nat (e + 1)) ds ++ fraction_text (drop (Z.to_nat (e + 1)) ds)
         else ch "0" :: fraction_text (replicate (Z.to_nat (- e - 1)) (ch "0") ++ ds)
       else
         take 1 ds ++ fraction_text (drop 1 ds) ++ ch "e" :: (if decide (e < 0) then ch "-" else ch "+") :: decimal_pad 2 (Z.abs e))
  | _, _ => minus x ++ [ch "0"]
  end.

(** [snprintf] into a buffer of [size] bytes: the string it holds afterwards. *)
Definition into_buf (size : Z) (text : bytes) : bytes := take (Z.to_nat (size - 1)) text.

(** ** [modf] and the comparisons *)

Definition modf_zero (x : double) : bool :=
  match x with
  | S754_finite _ _ _ => let '(n, d) := fraction x in bool_decide (n mod d = 0)
  | S754_nan => false
  | _ => true
  end.
