(* ===== verification/Json.v ===== *)
(** * JSON documents ([src/json.c])

    Values are nodes in a store, reached by their addresses; a document is its handle
    with the root and the chain of all its values.  The union of a value is a payload
    with the fields of the type it is tagged with, all zero after [value_alloc].  The
    values of a document carry its allocator, which is an argument here.  A pointer
    into the text is the rest of the text behind it, with the distance to its end.

    The elements of a fresh array that were never written are [junk]. *)

From Stdlib Require Import ZArith Lia Ascii String SpecFloat.
From stdpp Require Import base tactics option list numbers gmap sets.
From S2P Require Import Prelude Mem Result Allocator Links Text Arrays StringBuilder Semver JsonNumber.
Open Scope Z_scope.

Inductive zenit_json_type_t : Set :=
| ZENIT_JSON_NULL | ZENIT_JSON_BOOL | ZENIT_JSON_NUMBER | ZENIT_JSON_STRING | ZENIT_JSON_ARRAY | ZENIT_JSON_OBJECT.

#[export] Instance zenit_json_type_t_eq_dec : EqDecision zenit_json_type_t.
Proof. solve_decision. Defined.

Inductive payload : Type :=
| JNull
| JBool (bool_val : Z)
| JNumber (num_val : double)
| JString (str : option block)
| JArray (items : option (tarr (option addr))) (count capacity : Z)
| JObject (keys : option (tarr (option block))) (values : option (tarr (option addr))) (count capacity : Z).

Record zenit_json_value_t : Type := mk_value { v_data : payload; v_next : option addr }.

Definition v_type (v : zenit_json_value_t) : zenit_json_type_t :=
  match v_data v with
  | JNull => ZENIT_JSON_NULL
  | JBool _ => ZENIT_JSON_BOOL
  | JNumber _ => ZENIT_JSON_NUMBER
  | JString _ => ZENIT_JSON_STRING
  | JArray _ _ _ => ZENIT_JSON_ARRAY
  | JObject _ _ _ _ => ZENIT_JSON_OBJECT
  end.

Abbreviation store := (gmap addr zenit_json_value_t) (only parsing).

(** The document at the address [j_self]. *)
Record zenit_json_t : Type := mk_json { j_self : addr; j_root : option addr; j_head : option addr; j_tail : option addr }.

Definition SIZEOF_VALUE : Z := 80.
Definition SIZEOF_JSON : Z := 56.
Definition SIZEOF_POINTER : Z := 8.

Definition set_data (d : payload) (v : zenit_json_value_t) : zenit_json_value_t := mk_value d (v_next v).
Definition set_next (n : option addr) (v : zenit_json_value_t) : zenit_json_value_t := mk_value (v_data v) n.

(** Comparison of two strings. *)
Fixpoint strcmp_eq (s t : bytes) : outcome bool :=
  match s, t with
  | x :: s, y :: t => if decide (x = y) then if decide (x = NUL) then Ret true else strcmp_eq s t else Ret false
  | _, _ => Undef
  end.

(** A string that must be there. *)
Definition deref_str (p : option block) : outcome bytes := match p with Some b => Ret (b_data b) | None => Undef end.

Section JsonModel.
Context {C : Type} (a : zenit_allocator_t C) (junk : option addr).
Implicit Types (c : C) (m : store) (doc : zenit_json_t).

(** ** Memory *)

Definition value_free_string (str : option block) c : C :=
  match str with Some b => free_fn a (Some (b_addr b)) c | None => c end.

Definition value_free_array (items : option (tarr (option addr))) c : C :=
  match items with Some t => free_fn a (Some (b_addr (ta_block t))) c | None => c end.

(** The keys from [i] on, [n] of them. *)
Fixpoint free_keys (n : nat) (i : Z) (keys : option (tarr (option block))) c : outcome C :=
  match n with
  | O => Ret c
  | S n =>
      let! k := tget keys i in
      free_keys n (u64 (i + 1)) keys (match k with Some b => free_fn a (Some (b_addr b)) c | None => c end)
  end.

Definition value_free_object (keys : option (tarr (option block))) (values : option (tarr (option addr))) (count : Z) c : outcome C :=
  let! c1 :=
    match keys with
    | Some t => let! c1 := free_keys (Z.to_nat count) 0 keys c in Ret (free_fn a (Some (b_addr (ta_block t))) c1)
    | None => Ret c
    end in
  Ret (match values with Some t => free_fn a (Some (b_addr (ta_block t))) c1 | None => c1 end).

(** The value is freed next, so that of the fields it clears nothing is seen. *)
Definition value_free_payload (v : zenit_json_value_t) c : outcome C :=
  match v_data v with
  | JString str => Ret (value_free_string str c)
  | JArray items _ _ => Ret (value_free_array items c)
  | JObject keys values count _ => value_free_object keys values count c
  | _ => Ret c
  end.

Definition value_alloc doc m c : outcome (option addr * zenit_json_t * store * C) :=
  match alloc_fn a SIZEOF_VALUE c with
  | (None, c1) => Ret (None, doc, m, c1)
  | (Some b, c1) =>
      let val := b_addr b in
      let m1 := <[val := mk_value JNull None]> m in
      match j_tail doc with
      | Some _ =>
          let! m2 := supd m1 (j_tail doc) (set_next (Some val)) in
          Ret (Some val, mk_json (j_self doc) (j_root doc) (j_head doc) (Some val), m2, c1)
      | None => Ret (Some val, mk_json (j_self doc) (j_root doc) (Some val) (Some val), m1, c1)
      end
  end.

Definition str_dup_n (s : bytes) (n : Z) c : outcome (option block * C) :=
  match alloc_fn a (u64 (n + 1)) c with
  | (None, c1) => Ret (None, c1)
  | (copy, c1) =>
      let! d := rd s 0 n in
      let! copy := pwr copy 0 d in
      let! copy := pset copy n NUL in
      Ret (copy, c1)
  end.

Definition str_dup (s : bytes) c : outcome (option block * C) := let! n := strlen s in str_dup_n s n c.

(** ** Growth *)

(** [false] for the return value 0. *)
Definition array_grow (items : option (tarr (option addr))) (old_cap : Z) c
    : outcome (option (option (tarr (option addr)) * Z) * C) :=
  let new_cap := if decide (old_cap = 0) then 8 else u64 (old_cap + old_cap / 2) in
  let new_size := u64 (new_cap * SIZEOF_POINTER) in
  let! (new_items, c1) :=
    match items with
    | None => let '(b, c1) := alloc_fn a new_size c in
        Ret ((fun b => TArr b (replicate (Z.to_nat (new_size / SIZEOF_POINTER)) junk)) <$> b, c1)
    | Some _ => trealloc a items (u64 (old_cap * SIZEOF_POINTER)) new_size SIZEOF_POINTER junk c
    end in
  match new_items with
  | None => Ret (None, c1)
  | Some _ => Ret (Some (new_items, new_cap), c1)
  end.

(** [memcpy] of [size] bytes of pointers to the start of another array. *)
Definition tcopy {A : Type} (dst src : option (tarr A)) (size : Z) : outcome (option (tarr A)) :=
  let n := Z.to_nat (size / SIZEOF_POINTER) in
  match dst, src with
  | Some d, Some s =>
      if decide (n <= length (ta_data d) /\ n <= length (ta_data s))%nat
      then Ret (Some (TArr (ta_block d) (take n (ta_data s) ++ drop n (ta_data d)))) else Undef
  | _, _ => Undef
  end.

(** The old array copied and freed, if there is one. *)
Definition move_array {A : Type} (new old : option (tarr A)) (old_size : Z) c : outcome (option (tarr A) * C) :=
  match old with
  | Some t => let! new := tcopy new old old_size in Ret (new, free_fn a (Some (b_addr (ta_block t))) c)
  | None => Ret (new, c)
  end.

Definition object_grow (keys : option (tarr (option block))) (values : option (tarr (option addr))) (old_cap : Z) c
    : outcome (option (option (tarr (option block)) * option (tarr (option addr)) * Z) * C) :=
  let new_cap := if decide (old_cap = 0) then 8 else u64 (old_cap + old_cap / 2) in
  let old_size := u64 (old_cap * SIZEOF_POINTER) in
  let! (new_keys, c1) := talloc_zero a new_cap SIZEOF_POINTER (None : option block) c in
  match new_keys with
  | None => Ret (None, c1)
  | Some nk =>
      let! (new_values, c2) := talloc_zero a new_cap SIZEOF_POINTER (None : option addr) c1 in
      match new_values with
      | None => Ret (None, free_fn a (Some (b_addr (ta_block nk))) c2)
      | Some _ =>
          let! (new_keys, c3) := move_array new_keys keys old_size c2 in
          let! (new_values, c4) := move_array new_values values old_size c3 in
          Ret (Some (new_keys, new_values, new_cap), c4)
      end
  end.

(** ** The parser *)

(** [p_pos] is the text from the position on, [p_left] the distance to the end; the
    values and the allocator's state are what the position's document lives in. *)
Record parser_t : Type := mk_parser {
  p_pos : bytes; p_left : Z; p_doc : zenit_json_t; p_error : bool; p_mem : store; p_ctx : C }.
Implicit Types (p : parser_t).

Definition set_pos (s : bytes) (k : Z) p : parser_t := mk_parser s k (p_doc p) (p_error p) (p_mem p) (p_ctx p).
Definition set_ctx c p : parser_t := mk_parser (p_pos p) (p_left p) (p_doc p) (p_error p) (p_mem p) c.
Definition set_mem m p : parser_t := mk_parser (p_pos p) (p_left p) (p_doc p) (p_error p) m (p_ctx p).
Definition fail p : parser_t := mk_parser (p_pos p) (p_left p) (p_doc p) true (p_mem p) (p_ctx p).
Definition advance (n : nat) p : parser_t := set_pos (drop n (p_pos p)) (p_left p - Z.of_nat n) p.

Definition is_ws (ch0 : Z) : bool := bool_decide (ch0 = 32 \/ ch0 = 9 \/ ch0 = 10 \/ ch0 = 13).

Fixpoint skip_from (s : bytes) (k : Z) : outcome (bytes * Z) :=
  if decide (0 < k) then
    match s with
    | [] => Undef
    | x :: s' => if is_ws x then skip_from s' (k - 1) else Ret (s, k)
    end
  else Ret (s, k).

Definition skip_ws p : outcome parser_t := let! (s, k) := skip_from (p_pos p) (p_left p) in Ret (set_pos s k p).

(** [p->pos >= p->end || *p->pos != x]. *)
Definition not_at (x : Z) p : outcome bool :=
  if decide (0 < p_left p) then let! y := look (p_pos p) in Ret (bool_decide (y <> x)) else Ret true.

(** A string that is being read: its buffer, the size and the bytes in use. *)
Record sbuf : Type := mk_sbuf { sb_buf : option block; sb_cap : Z; sb_len : Z }.

Definition buf_grow (buf : sbuf) (needed : Z) p : outcome (option sbuf * parser_t) :=
  if decide (u64 (sb_len buf + needed) <= sb_cap buf) then Ret (Some buf, p)
  else
    let new_cap := u64 (sb_cap buf * 2) in
    let! (nb, c1) := zenit_allocator_realloc a (sb_buf buf) (sb_len buf) new_cap (p_ctx p) in
    match nb with
    | None => Ret (None, fail (set_ctx (free_fn a (paddr (sb_buf buf)) c1) p))
    | Some _ => Ret (Some (mk_sbuf nb new_cap (sb_len buf)), set_ctx c1 p)
    end.

(** The four digits after [\u], from the [i]-th on. *)
Fixpoint hex_digits (n : nat) (s : bytes) (cp : Z) : outcome (option Z) :=
  match n with
  | O => Ret (Some cp)
  | S n =>
      let! h := look s in
      let cp := u32 (Z.shiftl cp 4) in
      if decide (ch "0" <= h <= ch "9") then hex_digits n (tl s) (Z.lor cp (h - ch "0"))
      else if decide (ch "a" <= h <= ch "f") then hex_digits n (tl s) (Z.lor cp (h - ch "a" + 10))
      else if decide (ch "A" <= h <= ch "F") then hex_digits n (tl s) (Z.lor cp (h - ch "A" + 10))
      else Ret None
  end.

Definition parse_unicode_cp p : outcome (option Z * parser_t) :=
  if decide (p_left p < 4) then Ret (None, fail p)
  else
    let! cp := hex_digits 4 (p_pos p) 0 in
    match cp with
    | None => Ret (None, fail p)
    | Some cp => Ret (Some cp, advance 4 p)
    end.

(** [( *buf)[( *len)++] = x] for each of [xs]. *)
Fixpoint put_bytes (xs : bytes) (buf : sbuf) : outcome sbuf :=
  match xs with
  | [] => Ret buf
  | x :: xs =>
      let! b := pset (sb_buf buf) (sb_len buf) x in
      put_bytes xs (mk_sbuf b (sb_cap buf) (u64 (sb_len buf + 1)))
  end.

(** Room for [xs], and [xs] in it. *)
Definition grow_put (xs : bytes) (buf : sbuf) p : outcome (option sbuf * parser_t) :=
  let! (r, p1) := buf_grow buf (zlen xs) p in
  match r with
  | None => Ret (None, p1)
  | Some buf => let! buf := put_bytes xs buf in Ret (Some buf, p1)
  end.

Definition utf8 (cp : Z) : bytes :=
  if decide (cp <= 127) then [u8 cp]
  else if decide (cp <= 2047) then [u8 (Z.lor 192 (Z.shiftr cp 6)); u8 (Z.lor 128 (Z.land cp 63))]
  else [u8 (Z.lor 224 (Z.shiftr cp 12)); u8 (Z.lor 128 (Z.land (Z.shiftr cp 6) 63)); u8 (Z.lor 128 (Z.land cp 63))].

Definition encode_utf8 (buf : sbuf) (cp : Z) p : outcome (option sbuf * parser_t) := grow_put (utf8 cp) buf p.

Definition parse_simple_escape (esc : Z) : option Z :=
  if decide (esc = 34) then Some 34
  else if decide (esc = ch "\") then Some (ch "\")
  else if decide (esc = ch "/") then Some (ch "/")
  else if decide (esc = ch "b") then Some 8
  else if decide (esc = ch "f") then Some 12
  else if decide (esc = ch "n") then Some 10
  else if decide (esc = ch "r") then Some 13
  else if decide (esc = ch "t") then Some 9
  else None.

(** [None] for the return value -1. *)
Definition parse_escape_seq p : outcome (option Z * parser_t) :=
  if decide (p_left p <= 0) then Ret (None, fail p)
  else
    let! x := look (p_pos p) in
    match parse_simple_escape x with
    | Some cp => Ret (Some cp, advance 1 p)
    | None => if decide (x = ch "u") then parse_unicode_cp (advance 1 p) else Ret (None, fail p)
    end.

(** The loop of [parse_string_raw]. *)
Fixpoint string_loop (n : nat) (buf : sbuf) p : outcome (option block * parser_t) :=
  match n with
  | O => NoFuel
  | S n =>
      if decide (0 < p_left p) then
        let! x := look (p_pos p) in
        if decide (x = 34) then
          let! b := pset (sb_buf buf) (sb_len buf) NUL in Ret (b, advance 1 p)
        else if decide (x <> ch "\") then
          let! (r, p1) := grow_put [x] buf p in
          match r with None => Ret (None, p1) | Some buf => string_loop n buf (advance 1 p1) end
        else
          let! (cp, p1) := parse_escape_seq (advance 1 p) in
          match cp with
          | None => Ret (None, set_ctx (free_fn a (paddr (sb_buf buf)) (p_ctx p1)) p1)
          | Some cp =>
              let! (r, p2) := encode_utf8 buf cp p1 in
              match r with None => Ret (None, p2) | Some buf => string_loop n buf p2 end
          end
      else Ret (None, fail (set_ctx (free_fn a (paddr (sb_buf buf)) (p_ctx p)) p))
  end.

Definition parse_string_raw (fuel : nat) p : outcome (option block * parser_t) :=
  let p := advance 1 p in
  let '(buf, c1) := alloc_fn a 64 (p_ctx p) in
  match buf with
  | None => Ret (None, fail (set_ctx c1 p))
  | Some _ => string_loop fuel (mk_sbuf buf 64 0) (set_ctx c1 p)
  end.

(** [k] is the distance to the end of the number. *)
Fixpoint digits_loop (s : bytes) (k : Z) : outcome (bytes * Z) :=
  if decide (0 < k) then
    match s with
    | [] => Undef
    | x :: s' => if is_digit x then digits_loop s' (k - 1) else Ret (s, k)
    end
  else Ret (s, k).

Definition parse_number_digits (s : bytes) (k : Z) : outcome (option (bytes * Z)) :=
  if decide (k <= 0) then Ret None
  else
    let! x := look s in
    if is_digit x then
      if decide (x = ch "0") then Ret (Some (tl s, k - 1)) else let! r := digits_loop s k in Ret (Some r)
    else Ret None.

(** [s < end && *s == x] for an [x] in the list. *)
Definition at_one (xs : bytes) (s : bytes) (k : Z) : outcome bool :=
  if decide (0 < k) then let! x := look s in Ret (bool_decide (x ∈ xs)) else Ret false.

Definition parse_number p : outcome (double * parser_t) :=
  let bad := Ret (S754_zero false, fail p) in
  let start := p_pos p in
  let! (result, e) := strtod start in
  let k := zlen start - zlen e in
  if decide (k = 0) then bad
  else
    let! x := look start in
    let '(s, k1) := if decide (x = ch "-") then (tl start, k - 1) else (start, k) in
    let! r := parse_number_digits s k1 in
    match r with
    | None => bad
    | Some (s, k1) =>
        let! dot := at_one [ch "."] s k1 in
        let! r := if dot : bool then parse_number_digits (tl s) (k1 - 1) else Ret (Some (s, k1)) in
        match r with
        | None => bad
        | Some (s, k1) =>
            let! ex := at_one [ch "e"; ch "E"] s k1 in
            let! r :=
              if ex : bool then
                let! sg := at_one [ch "+"; ch "-"] (tl s) (k1 - 1) in
                if sg : bool then parse_number_digits (tl (tl s)) (k1 - 2) else parse_number_digits (tl s) (k1 - 1)
              else Ret (Some (s, k1)) in
            match r with
            | None => bad
            | Some (s, k1) => if decide (k1 <> 0) then bad else Ret (result, set_pos e (p_left p - k) p)
            end
        end
    end.

(** A new value of the parser's document. *)
Definition new_value p : outcome (option addr * parser_t) :=
  let! (val, doc, m, c) := value_alloc (p_doc p) (p_mem p) (p_ctx p) in
  Ret (val, mk_parser (p_pos p) (p_left p) doc (p_error p) m c).

Definition set_value (val : addr) (d : payload) p : outcome parser_t :=
  let! m := supd (p_mem p) (Some val) (set_data d) in Ret (set_mem m p).

(** [p->end - p->pos >= n && memcmp(p->pos, word, n) == 0], and the value for it. *)
Definition parse_literal (word : bytes) (d : payload) p : outcome (option addr * parser_t) :=
  if decide (zlen word <= p_left p) then
    let! s := rd (p_pos p) 0 (zlen word) in
    if decide (s = word) then
      let! (val, p1) := new_value p in
      match val with
      | None => Ret (None, fail p1)
      | Some v => let! p2 := set_value v d p1 in Ret (Some v, advance (length word) p2)
      end
    else Ret (None, fail p)
  else Ret (None, fail p).

Definition parse_literal_null p := parse_literal (lit "null") JNull p.
Definition parse_literal_true p := parse_literal (lit "true") (JBool 1) p.
Definition parse_literal_false p := parse_literal (lit "false") (JBool 0) p.

(** The separators of arrays and objects, which end with [close]: 0, 1 or 2. *)
Definition parse_separator (close : Z) p : outcome (Z * parser_t) :=
  let! p := skip_ws p in
  if decide (p_left p <= 0) then Ret (0, fail p)
  else
    let! x := look (p_pos p) in
    if decide (x = ch ",") then
      let! p := skip_ws (advance 1 p) in
      if decide (p_left p <= 0) then Ret (0, fail p)
      else
        let! y := look (p_pos p) in
        if decide (y = close) then Ret (0, fail p) else Ret (1, p)
    else if decide (x = close) then Ret (2, advance 1 p)
    else Ret (0, fail p).

Definition parse_array_separator p := parse_separator (ch "]") p.
Definition parse_object_separator p := parse_separator (ch "}") p.

(** [arr->arr.items[arr->arr.count++] = elem] behind the test for room; [false] when the
    array cannot grow. *)
Definition array_push (arr elem : addr) m c : outcome (bool * store * C) :=
  let! v := sget m (Some arr) in
  match v_data v with
  | JArray items count cap =>
      let! (r, c1) := if decide (cap <= count) then array_grow items cap c else Ret (Some (items, cap), c) in
      match r with
      | None => Ret (false, m, c1)
      | Some (items, cap) =>
          let! items := tset items count (Some elem) in
          let! m := supd m (Some arr) (set_data (JArray items (u64 (count + 1)) cap)) in
          Ret (true, m, c1)
      end
  | _ => Undef
  end.

(** [obj->obj.keys[obj->obj.count] = key] and so on, behind the test for room. *)
Definition object_push (obj : addr) (key : block) (val : addr) m c : outcome (bool * store * C) :=
  let! v := sget m (Some obj) in
  match v_data v with
  | JObject keys values count cap =>
      let! (r, c1) := if decide (cap <= count) then object_grow keys values cap c else Ret (Some (keys, values, cap), c) in
      match r with
      | None => Ret (false, m, c1)
      | Some (keys, values, cap) =>
          let! keys := tset keys count (Some key) in
          let! values := tset values count (Some val) in
          let! m := supd m (Some obj) (set_data (JObject keys values (u64 (count + 1)) cap)) in
          Ret (true, m, c1)
      end
  | _ => Undef
  end.

Section Containers.
Context (parse_value : parser_t -> outcome (option addr * parser_t)).

Fixpoint array_loop (n : nat) (arr : addr) p : outcome (option addr * parser_t) :=
  match n with
  | O => NoFuel
  | S n =>
      let! (elem, p) := parse_value p in
      match elem with
      | None => Ret (None, p)
      | Some elem =>
          if p_error p then Ret (None, p)
          else
            let! (ok, m, c) := array_push arr elem (p_mem p) (p_ctx p) in
            let p := set_ctx c (set_mem m p) in
            if ok : bool then
              let! (sep, p) := parse_array_separator p in
              if decide (sep = 0) then Ret (None, p)
              else if decide (sep = 2) then Ret (Some arr, p)
              else array_loop n arr p
            else Ret (None, fail p)
      end
  end.

Definition parse_array (n : nat) p : outcome (option addr * parser_t) :=
  let! no := not_at (ch "[") p in
  if no : bool then Ret (None, fail p)
  else
    let! (arr, p) := new_value (advance 1 p) in
    match arr with
    | None => Ret (None, fail p)
    | Some arr =>
        let! p := set_value arr (JArray None 0 0) p in
        let! p := skip_ws p in
        let! more := not_at (ch "]") p in
        if more : bool then array_loop n arr p else Ret (Some arr, advance 1 p)
    end.

Definition free_key (key : block) p : parser_t := set_ctx (free_fn a (Some (b_addr key)) (p_ctx p)) p.

Fixpoint object_loop (n fuel : nat) (obj : addr) p : outcome (option addr * parser_t) :=
  match n with
  | O => NoFuel
  | S n =>
      let! p := skip_ws p in
      let! no := not_at 34 p in
      if no : bool then Ret (None, fail p)
      else
        let! (key, p) := parse_string_raw fuel p in
        match key with
        | None => Ret (None, p)
        | Some key =>
            let! p := skip_ws p in
            let! no := not_at (ch ":") p in
            if no : bool then Ret (None, fail (free_key key p))
            else
              let! (val, p) := parse_value (advance 1 p) in
              match val with
              | None => Ret (None, free_key key p)
              | Some val =>
                  if p_error p then Ret (None, free_key key p)
                  else
                    let! (ok, m, c) := object_push obj key val (p_mem p) (p_ctx p) in
                    let p := set_ctx c (set_mem m p) in
                    if ok : bool then
                      let! (sep, p) := parse_object_separator p in
                      if decide (sep = 0) then Ret (None, p)
                      else if decide (sep = 2) then Ret (Some obj, p)
                      else object_loop n fuel obj p
                    else Ret (None, fail (free_key key p))
              end
        end
  end.

Definition parse_object (n : nat) p : outcome (option addr * parser_t) :=
  let! no := not_at (ch "{") p in
  if no : bool then Ret (None, fail p)
  else
    let! (obj, p) := new_value (advance 1 p) in
    match obj with
    | None => Ret (None, fail p)
    | Some obj =>
        let! p := set_value obj (JObject None None 0 0) p in
        let! p := skip_ws p in
        let! more := not_at (ch "}") p in
        if more : bool then object_loop n n obj p else Ret (Some obj, advance 1 p)
    end.
End Containers.

Definition parse_string_value (fuel : nat) p : outcome (option addr * parser_t) :=
  let! (str, p) := parse_string_raw fuel p in
  match str with
  | None => Ret (None, p)
  | Some str =>
      let! (val, p) := new_value p in
      match val with
      | None => Ret (None, fail (set_ctx (free_fn a (Some (b_addr str)) (p_ctx p)) p))
      | Some val => let! p := set_value val (JString (Some str)) p in Ret (Some val, p)
      end
  end.

Definition parse_number_value p : outcome (option addr * parser_t) :=
  let! (val, p) := new_value p in
  match val with
  | None => Ret (None, fail p)
  | Some val =>
      let! (x, p) := parse_number p in
      let! p := set_value val (JNumber x) p in
      if p_error p then Ret (None, p) else Ret (Some val, p)
  end.

(** The fuel is for the depth of the value and for every loop. *)
Fixpoint parse_value (fuel : nat) p : outcome (option addr * parser_t) :=
  match fuel with
  | O => NoFuel
  | S fuel =>
      let! p := skip_ws p in
      if decide (p_left p <= 0) then Ret (None, fail p)
      else
        let! x := look (p_pos p) in
        if decide (x = ch "n") then parse_literal_null p
        else if decide (x = ch "t") then parse_literal_true p
        else if decide (x = ch "f") then parse_literal_false p
        else if decide (x = ch "[") then parse_array (parse_value fuel) fuel p
        else if decide (x = ch "{") then parse_object (parse_value fuel) fuel p
        else if decide (x = 34) then parse_string_value fuel p
        else if decide (x = ch "-" \/ ch "0" <= x <= ch "9") then parse_number_value p
        else Ret (None, fail p)
  end.

(** ** Documents *)

Definition zenit_json_create_with_allocator c : option zenit_json_t * C :=
  match alloc_fn a SIZEOF_JSON c with
  | (None, c1) => (None, c1)
  | (Some b, c1) => (Some (mk_json (b_addr b) None None None), c1)
  end.

(** A value that is freed leaves the store. *)
Fixpoint value_destroy_chain (fuel : nat) (head : option addr) m c : outcome (store * C) :=
  match head with
  | None => Ret (m, c)
  | Some x =>
      match fuel with
      | O => NoFuel
      | S fuel =>
          let! v := sget m (Some x) in
          let! c1 := value_free_payload v c in
          value_destroy_chain fuel (v_next v) (delete x m) (free_fn a (Some x) c1)
      end
  end.

Definition zenit_json_destroy (fuel : nat) (json : option zenit_json_t) m c : outcome (store * C) :=
  match json with
  | None => Ret (m, c)
  | Some json =>
      let! (m1, c1) := value_destroy_chain fuel (j_head json) m c in
      Ret (m1, free_fn a (Some (j_self json)) c1)
  end.

(** [None] for the return value 0; the document, the values and the state in any case. *)
Definition json_parse_into (fuel : nat) doc (data : bytes) (length : Z) m c : outcome (bool * zenit_json_t * store * C) :=
  let! (val, p) := parse_value fuel (mk_parser data length doc false m c) in
  match val with
  | None => Ret (false, p_doc p, p_mem p, p_ctx p)
  | Some val =>
      if p_error p then Ret (false, p_doc p, p_mem p, p_ctx p)
      else
        let! p := skip_ws p in
        let d := p_doc p in
        if decide (p_left p <> 0) then Ret (false, d, p_mem p, p_ctx p)
        else Ret (true, mk_json (j_self d) (Some val) (j_head d) (j_tail d), p_mem p, p_ctx p)
  end.

(** [chain] is fuel for the chain of values. *)
Definition zenit_json_parse_with_length_and_allocator (fuel chain : nat) (input : option bytes) (length : Z) m c
    : outcome (option zenit_json_t * store * C) :=
  match input with
  | None => Ret (None, m, c)
  | Some data =>
      match zenit_json_create_with_allocator c with
      | (None, c1) => Ret (None, m, c1)
      | (Some doc, c1) =>
          let! (ok, doc, m1, c2) := json_parse_into fuel doc data length m c1 in
          if ok : bool then Ret (Some doc, m1, c2)
          else let! (m2, c3) := zenit_json_destroy chain (Some doc) m1 c2 in Ret (None, m2, c3)
      end
  end.

Definition zenit_json_parse_with_allocator (fuel chain : nat) (input : option bytes) m c
    : outcome (option zenit_json_t * store * C) :=
  match input with
  | None => Undef
  | Some data => let! n := strlen data in zenit_json_parse_with_length_and_allocator fuel chain input n m c
  end.

(** ** Values *)

Definition zenit_json_value_null (json : option zenit_json_t) m c : outcome (option addr * option zenit_json_t * store * C) :=
  match json with
  | None => Ret (None, None, m, c)
  | Some doc => let! (val, doc, m, c) := value_alloc doc m c in Ret (val, Some doc, m, c)
  end.

(** A fresh value with the payload [d]. *)
Definition make_value (json : option zenit_json_t) (d : payload) m c : outcome (option addr * option zenit_json_t * store * C) :=
  match json with
  | None => Ret (None, None, m, c)
  | Some doc =>
      let! (val, doc, m, c) := value_alloc doc m c in
      match val with
      | None => Ret (None, Some doc, m, c)
      | Some _ => let! m := supd m val (set_data d) in Ret (val, Some doc, m, c)
      end
  end.

Definition zenit_json_value_bool (json : option zenit_json_t) (bool_val : Z) m c :=
  make_value json (JBool (if decide (bool_val <> 0) then 1 else 0)) m c.
Definition zenit_json_value_number (json : option zenit_json_t) (num_val : double) m c := make_value json (JNumber num_val) m c.
Definition zenit_json_value_array (json : option zenit_json_t) m c := make_value json (JArray None 0 0) m c.
Definition zenit_json_value_object (json : option zenit_json_t) m c := make_value json (JObject None None 0 0) m c.

Definition zenit_json_value_string (json : option zenit_json_t) (str_val : option bytes) m c
    : outcome (option addr * option zenit_json_t * store * C) :=
  match json with
  | None => Ret (None, None, m, c)
  | Some doc =>
      let! (val, doc, m, c) := value_alloc doc m c in
      match val with
      | None => Ret (None, Some doc, m, c)
      | Some _ =>
          let! (str, c) := str_dup (default [NUL] str_val) c in
          let! m := supd m val (set_data (JString str)) in
          match str with None => Ret (None, Some doc, m, c) | Some _ => Ret (val, Some doc, m, c) end
      end
  end.

(** ** Arrays *)

Definition array_of (val : option addr) m : outcome (option (option (tarr (option addr)) * Z * Z)) :=
  match val with
  | None => Ret None
  | Some _ => let! v := sget m val in
      Ret (match v_data v with JArray items count cap => Some (items, count, cap) | _ => None end)
  end.

Definition zenit_json_array_count (val : option addr) m : outcome Z :=
  let! r := array_of val m in Ret (match r with Some (_, count, _) => count | None => 0 end).

Definition zenit_json_array_get (val : option addr) (index : Z) m : outcome (option addr) :=
  let! r := array_of val m in
  match r with
  | Some (items, count, _) => if decide (count <= index) then Ret None else tget items index
  | None => Ret None
  end.

(** Behind the tests for NULL: the array with room for one more. *)
Definition array_grow_or_error (items : option (tarr (option addr))) (count cap : Z) c
    : outcome (zenit_error_t * option (tarr (option addr)) * Z * C) :=
  if decide (cap <= count) then
    let! (r, c1) := array_grow items cap c in
    match r with
    | None => Ret (ZENIT_ERROR_ALLOC, items, cap, c1)
    | Some (items, cap) => Ret (ZENIT_OK, items, cap, c1)
    end
  else Ret (ZENIT_OK, items, cap, c).

Definition zenit_json_array_append (arr item : option addr) m c : outcome (zenit_error_t * store * C) :=
  if decide (arr = None \/ item = None) then Ret (ZENIT_ERROR_NULL, m, c)
  else
    let! r := array_of arr m in
    match r with
    | None => Ret (ZENIT_ERROR_PARAM, m, c)
    | Some (items, count, cap) =>
        let! (e, items, cap, c1) := array_grow_or_error items count cap c in
        if decide (e <> ZENIT_OK) then Ret (e, m, c1)
        else
          let! items := tset items count item in
          let! m := supd m arr (set_data (JArray items (u64 (count + 1)) cap)) in
          Ret (ZENIT_OK, m, c1)
    end.

(** [items[i - 1] = items[i]] from [i] on, [n] times. *)
Fixpoint shift_down {A : Type} (n : nat) (i : Z) (t : option (tarr A)) : outcome (option (tarr A)) :=
  match n with
  | O => Ret t
  | S n => let! x := tget t i in let! t := tset t (i - 1) x in shift_down n (u64 (i + 1)) t
  end.

(** [items[i] = items[i - 1]] from [i] down, [n] times. *)
Fixpoint shift_up {A : Type} (n : nat) (i : Z) (t : option (tarr A)) : outcome (option (tarr A)) :=
  match n with
  | O => Ret t
  | S n => let! x := tget t (i - 1) in let! t := tset t i x in shift_up n (i - 1) t
  end.

Definition zenit_json_array_remove (arr : option addr) (index : Z) m c : outcome (zenit_error_t * store * C) :=
  if decide (arr = None) then Ret (ZENIT_ERROR_NULL, m, c)
  else
    let! r := array_of arr m in
    match r with
    | None => Ret (ZENIT_ERROR_PARAM, m, c)
    | Some (items, count, cap) =>
        if decide (count <= index) then Ret (ZENIT_ERROR_PARAM, m, c)
        else
          let! items := shift_down (Z.to_nat (count - (index + 1))) (index + 1) items in
          let! m := supd m arr (set_data (JArray items (u64 (count - 1)) cap)) in
          Ret (ZENIT_OK, m, c)
    end.

Definition zenit_json_array_insert (arr : option addr) (index : Z) (item : option addr) m c : outcome (zenit_error_t * store * C) :=
  if decide (arr = None \/ item = None) then Ret (ZENIT_ERROR_NULL, m, c)
  else
    let! r := array_of arr m in
    match r with
    | None => Ret (ZENIT_ERROR_PARAM, m, c)
    | Some (items, count, cap) =>
        if decide (count < index) then Ret (ZENIT_ERROR_PARAM, m, c)
        else
          let! (e, items, cap, c1) := array_grow_or_error items count cap c in
          if decide (e <> ZENIT_OK) then Ret (e, m, c1)
          else
            let! items := shift_up (Z.to_nat (count - index)) count items in
            let! items := tset items index item in
            let! m := supd m arr (set_data (JArray items (u64 (count + 1)) cap)) in
            Ret (ZENIT_OK, m, c1)
    end.

(** ** Objects *)

Definition object_of (val : option addr) m : outcome (option (option (tarr (option block)) * option (tarr (option addr)) * Z * Z)) :=
  match val with
  | None => Ret None
  | Some _ => let! v := sget m val in
      Ret (match v_data v with JObject keys values count cap => Some (keys, values, count, cap) | _ => None end)
  end.

Definition zenit_json_object_count (val : option addr) m : outcome Z :=
  let! r := object_of val m in Ret (match r with Some (_, _, count, _) => count | None => 0 end).

Definition zenit_json_object_key (val : option addr) (index : Z) m : outcome (option block) :=
  let! r := object_of val m in
  match r with
  | Some (keys, _, count, _) => if decide (count <= index) then Ret None else tget keys index
  | None => Ret None
  end.

Definition zenit_json_object_value_at (val : option addr) (index : Z) m : outcome (option addr) :=
  let! r := object_of val m in
  match r with
  | Some (_, values, count, _) => if decide (count <= index) then Ret None else tget values index
  | None => Ret None
  end.

(** The first of [n] keys from [i] on that equals [key]. *)
Fixpoint find_key (n : nat) (i : Z) (keys : option (tarr (option block))) (key : bytes) : outcome (option Z) :=
  match n with
  | O => Ret None
  | S n =>
      let! k := tget keys i in
      let! k := deref_str k in
      let! same := strcmp_eq k key in
      if same : bool then Ret (Some i) else find_key n (u64 (i + 1)) keys key
  end.

Definition zenit_json_object_get (val : option addr) (key : option bytes) m : outcome (option addr) :=
  let! r := object_of val m in
  match r, key with
  | Some (keys, values, count, _), Some key =>
      let! i := find_key (Z.to_nat count) 0 keys key in
      match i with Some i => tget values i | None => Ret None end
  | _, _ => Ret None
  end.

Definition zenit_json_object_set (obj : option addr) (key : option bytes) (val : option addr) m c : outcome (zenit_error_t * store * C) :=
  match obj, key, val with
  | Some _, Some key, Some _ =>
      let! r := object_of obj m in
      match r with
      | None => Ret (ZENIT_ERROR_PARAM, m, c)
      | Some (keys, values, count, cap) =>
          let! i := find_key (Z.to_nat count) 0 keys key in
          match i with
          | Some i =>
              let! values := tset values i val in
              let! m := supd m obj (set_data (JObject keys values count cap)) in
              Ret (ZENIT_OK, m, c)
          | None =>
              let! (g, c1) := if decide (cap <= count) then object_grow keys values cap c else Ret (Some (keys, values, cap), c) in
              match g with
              | None => Ret (ZENIT_ERROR_ALLOC, m, c1)
              | Some (keys, values, cap) =>
                  let! m1 := supd m obj (set_data (JObject keys values count cap)) in
                  let! (copy, c2) := str_dup key c1 in
                  match copy with
                  | None => Ret (ZENIT_ERROR_ALLOC, m1, c2)
                  | Some _ =>
                      let! keys := tset keys count copy in
                      let! values := tset values count val in
                      let! m2 := supd m1 obj (set_data (JObject keys values (u64 (count + 1)) cap)) in
                      Ret (ZENIT_OK, m2, c2)
                  end
              end
          end
      end
  | _, _, _ => Ret (ZENIT_ERROR_NULL, m, c)
  end.

Definition zenit_json_object_remove (obj : option addr) (key : option bytes) m c : outcome (zenit_error_t * store * C) :=
  match obj, key with
  | Some _, Some key =>
      let! r := object_of obj m in
      match r with
      | None => Ret (ZENIT_ERROR_PARAM, m, c)
      | Some (keys, values, count, cap) =>
          let! i := find_key (Z.to_nat count) 0 keys key in
          match i with
          | None => Ret (ZENIT_ERROR_NOT_FOUND, m, c)
          | Some i =>
              let! k := tget keys i in
              let c1 := free_fn a (paddr k) c in
              let! keys := shift_down (Z.to_nat (count - (i + 1))) (i + 1) keys in
              let! values := shift_down (Z.to_nat (count - (i + 1))) (i + 1) values in
              let! m := supd m obj (set_data (JObject keys values (u64 (count - 1)) cap)) in
              Ret (ZENIT_OK, m, c1)
          end
      end
  | _, _ => Ret (ZENIT_ERROR_NULL, m, c)
  end.
End JsonModel.
Arguments parser_t : clear implicits.

(** ** Reading *)

Definition zenit_json_root (json : option zenit_json_t) : option addr := json ≫= j_root.

Definition zenit_json_set_root (json : option zenit_json_t) (val : option addr) : zenit_error_t * option zenit_json_t :=
  match json with
  | None => (ZENIT_ERROR_NULL, None)
  | Some d => (ZENIT_OK, Some (mk_json (j_self d) val (j_head d) (j_tail d)))
  end.

Section Reading.
Implicit Types (m : store) (val : option addr).

Definition zenit_json_value_type val m : outcome zenit_json_type_t :=
  match val with None => Ret ZENIT_JSON_NULL | Some _ => let! v := sget m val in Ret (v_type v) end.

Definition zenit_json_value_is_null val m : outcome bool :=
  match val with None => Ret true | Some _ => let! v := sget m val in Ret (bool_decide (v_type v = ZENIT_JSON_NULL)) end.

Definition zenit_json_value_get_bool val m : outcome Z :=
  match val with None => Ret 0 | Some _ => let! v := sget m val in Ret (match v_data v with JBool b => b | _ => 0 end) end.

Definition zenit_json_value_get_number val m : outcome double :=
  match val with
  | None => Ret (S754_zero false)
  | Some _ => let! v := sget m val in Ret (match v_data v with JNumber x => x | _ => S754_zero false end)
  end.

Definition zenit_json_value_get_string val m : outcome (option block) :=
  match val with None => Ret None | Some _ => let! v := sget m val in Ret (match v_data v with JString s => s | _ => None end) end.
End Reading.

(** ** The serializer

    The output is a string builder with an allocator of its own. *)

(** 2 ^ 53. *)
Definition INT_LIMIT : double := of_int 9007199254740992.

Definition format_number_loop (num : double) (best : bytes) : nat -> outcome bytes :=
  fix loop (prec : nat) : outcome bytes :=
  match prec with
  | O => Ret best
  | S q =>
      let test := into_buf 64 (show_g (Z.of_nat prec) num) in
      let! (roundtrip, e) := strtod (test ++ [NUL]) in
      let! x := look e in
      if SFeqb roundtrip num && bool_decide (x = NUL) then Ret (into_buf 64 (show_g (Z.of_nat prec) num)) else loop q
  end.

(** The string in the buffer. *)
Definition format_number (num : double) (buf_size : Z) : outcome bytes :=
  if modf_zero num && SFleb (SFopp INT_LIMIT) num && SFleb num INT_LIMIT then Ret (into_buf buf_size (show_f0 num))
  else
    let! best := format_number_loop num (into_buf 64 (show_g 17 num)) 16 in
    Ret (into_buf buf_size best).

Section Serializer.
Context {D : Type} (fuel : nat).
Implicit Types (out : zenit_string_t D) (d : D) (m : store).

(** The return value of an append, with the string after it. *)
Definition appended (r : outcome (zenit_error_t * option (zenit_string_t D) * D)) : outcome (bool * zenit_string_t D * D) :=
  let! (e, s, d) := r in
  match s with Some s => Ret (bool_decide (e = ZENIT_OK), s, d) | None => Undef end.

(** [s] without its terminator. *)
Definition append_cstr out (s : bytes) d : outcome (bool * zenit_string_t D * D) :=
  appended (zenit_string_append_cstr fuel (Some out) (Some (s ++ [NUL])) d).
Definition append_char out (x : Z) d : outcome (bool * zenit_string_t D * D) :=
  appended (zenit_string_append fuel (Some out) (Some [x]) 1 d).

Definition hex_char (n : Z) : Z := if decide (n < 10) then ch "0" + n else ch "a" + n - 10.

Definition serialize_escape_char (x : Z) out d : outcome (bool * zenit_string_t D * D) :=
  if decide (x = 34) then append_cstr out [ch "\"; 34] d
  else if decide (x = ch "\") then append_cstr out (lit "\\") d
  else if decide (x = 8) then append_cstr out (lit "\b") d
  else if decide (x = 12) then append_cstr out (lit "\f") d
  else if decide (x = 10) then append_cstr out (lit "\n") d
  else if decide (x = 13) then append_cstr out (lit "\r") d
  else if decide (x = 9) then append_cstr out (lit "\t") d
  else if decide (x < 32) then append_cstr out (lit "\u00" ++ [hex_char (x / 16); hex_char (x mod 16)]) d
  else append_char out x d.

Fixpoint escape_loop (s : bytes) out d : outcome (bool * zenit_string_t D * D) :=
  match s with
  | [] => Undef
  | x :: s =>
      if decide (x = NUL) then Ret (true, out, d)
      else
        let! (ok, out, d) := serialize_escape_char x out d in
        if ok : bool then escape_loop s out d else Ret (false, out, d)
  end.

Definition string_escape_into (s : option block) out d : outcome (bool * zenit_string_t D * D) :=
  let! (ok, out, d) := append_cstr out [34] d in
  if ok : bool then
    let! s := deref_str s in
    let! (ok, out, d) := escape_loop s out d in
    if ok : bool then append_cstr out [34] d else Ret (false, out, d)
  else Ret (false, out, d).

Section Elements.
Context (serialize : option addr -> zenit_string_t D -> D -> outcome (bool * zenit_string_t D * D)).

(** The comma before all but the first element. *)
Definition comma (i : Z) out d : outcome (bool * zenit_string_t D * D) :=
  if decide (0 < i) then append_cstr out (lit ",") d else Ret (true, out, d).

Fixpoint array_items (n : nat) (i : Z) (items : option (tarr (option addr))) out d : outcome (bool * zenit_string_t D * D) :=
  match n with
  | O => Ret (true, out, d)
  | S n =>
      let! (ok, out, d) := comma i out d in
      if ok : bool then
        let! x := tget items i in
        let! (ok, out, d) := serialize x out d in
        if ok : bool then array_items n (u64 (i + 1)) items out d else Ret (false, out, d)
      else Ret (false, out, d)
  end.

Definition serialize_array (items : option (tarr (option addr))) (count : Z) out d : outcome (bool * zenit_string_t D * D) :=
  let! (ok, out, d) := append_cstr out (lit "[") d in
  if ok : bool then
    let! (ok, out, d) := array_items (Z.to_nat count) 0 items out d in
    if ok : bool then append_cstr out (lit "]") d else Ret (false, out, d)
  else Ret (false, out, d).

Fixpoint object_items (n : nat) (i : Z) (keys : option (tarr (option block))) (values : option (tarr (option addr))) out d
    : outcome (bool * zenit_string_t D * D) :=
  match n with
  | O => Ret (true, out, d)
  | S n =>
      let! (ok, out, d) := comma i out d in
      if ok : bool then
        let! k := tget keys i in
        let! (ok, out, d) := string_escape_into k out d in
        if ok : bool then
          let! (ok, out, d) := append_cstr out (lit ":") d in
          if ok : bool then
            let! x := tget values i in
            let! (ok, out, d) := serialize x out d in
            if ok : bool then object_items n (u64 (i + 1)) keys values out d else Ret (false, out, d)
          else Ret (false, out, d)
        else Ret (false, out, d)
      else Ret (false, out, d)
  end.

Definition serialize_object (keys : option (tarr (option block))) (values : option (tarr (option addr))) (count : Z) out d
    : outcome (bool * zenit_string_t D * D) :=
  let! (ok, out, d) := append_cstr out (lit "{") d in
  if ok : bool then
    let! (ok, out, d) := object_items (Z.to_nat count) 0 keys values out d in
    if ok : bool then append_cstr out (lit "}") d else Ret (false, out, d)
  else Ret (false, out, d).
End Elements.

(** [depth] is fuel for the depth of the value. *)
Fixpoint value_serialize_into (depth : nat) m (val : option addr) out d : outcome (bool * zenit_string_t D * D) :=
  match depth with
  | O => NoFuel
  | S depth =>
      match val with
      | None => append_cstr out (lit "null") d
      | Some _ =>
          let! v := sget m val in
          match v_data v with
          | JNull => append_cstr out (lit "null") d
          | JBool b => if decide (b <> 0) then append_cstr out (lit "true") d else append_cstr out (lit "false") d
          | JNumber x => let! buf := format_number x 64 in append_cstr out buf d
          | JString s => string_escape_into s out d
          | JArray items count _ => serialize_array (value_serialize_into depth m) items count out d
          | JObject keys values count _ => serialize_object (value_serialize_into depth m) keys values count out d
          end
      end
  end.

Definition zenit_json_value_serialize_with_allocator (depth : nat) m (val : option addr) (allocator : zenit_allocator_t D) d
    : outcome (option block * D) :=
  let! (s, d) := zenit_string_create_with_allocator fuel allocator d in
  match s with
  | None => Ret (None, d)
  | Some s =>
      let! (ok, s, d) := value_serialize_into depth m val s d in
      if ok : bool then
        match zenit_string_cstr (Some s), sb_vec s with
        | Some off, Some v =>
            let! text := deref_str (Vector.v_buffer v) in
            let! (result, d) := str_dup allocator (drop (Z.to_nat off) text) d in
            Ret (result, zenit_string_destroy (Some s) d)
        | _, _ => Undef
        end
      else Ret (None, zenit_string_destroy (Some s) d)
  end.

Definition zenit_json_serialize_with_allocator (depth : nat) (json : option zenit_json_t) m (allocator : zenit_allocator_t D) d
    : outcome (option block * D) :=
  match json ≫= j_root with
  | None => Ret (None, d)
  | val => zenit_json_value_serialize_with_allocator depth m val allocator d
  end.
End Serializer.

(** ** With the default allocator *)

Definition zenit_json_create (h : heap) := zenit_json_create_with_allocator ZENIT_ALLOCATOR_DEFAULT h.
Definition zenit_json_parse_with_length (junk : option addr) (fuel chain : nat) (input : option bytes) (length : Z) m (h : heap) :=
  zenit_json_parse_with_length_and_allocator ZENIT_ALLOCATOR_DEFAULT junk fuel chain input length m h.
Definition zenit_json_parse (junk : option addr) (fuel chain : nat) (input : option bytes) (m : store) (h : heap)
    : outcome (option zenit_json_t * store * heap) :=
  match input with
  | None => Undef
  | Some data =>
      let! n := strlen data in
      zenit_json_parse_with_length_and_allocator ZENIT_ALLOCATOR_DEFAULT junk fuel chain input n m h
  end.
Definition zenit_json_value_serialize (fuel depth : nat) (m : store) (val : option addr) (h : heap) :=
  zenit_json_value_serialize_with_allocator fuel depth m val ZENIT_ALLOCATOR_DEFAULT h.
Definition zenit_json_serialize (fuel depth : nat) (json : option zenit_json_t) (m : store) (h : heap) : outcome (option block * heap) :=
  match json ≫= j_root with
  | None => Ret (None, h)
  | val => zenit_json_value_serialize fuel depth m val h
  end.
