(* ===== verification/JsonSpec.v ===== *)
(** * JSON as values and as text

    The values that documents hold, the text of a value and the value of a text, as
    functions on lists of bytes.  [parse_text] accepts what the parser of [json.c]
    accepts, which is JSON but for the digits of fractions and exponents (see
    [json_number]) and for strings, in which any character may stand for itself. *)

From Stdlib Require Import ZArith Lia Ascii String SpecFloat.
From stdpp Require Import base tactics option list numbers.
From S2P Require Import Prelude Mem Allocator Text Semver JsonNumber Json.
Open Scope Z_scope.

Inductive json : Type :=
| VNull
| VBool (b : bool)
| VNum (x : double)
| VStr (s : bytes)
| VArr (vs : list json)
| VObj (kvs : list (bytes * json)).

Section JsonInd.
Context (P : json -> Prop) (Hnull : P VNull) (Hbool : forall b, P (VBool b)) (Hnum : forall x, P (VNum x)) (Hstr : forall s, P (VStr s))
  (Harr : forall vs, Forall P vs -> P (VArr vs)) (Hobj : forall kvs, Forall (fun kv => P kv.2) kvs -> P (VObj kvs)).

Fixpoint json_deep_ind (v : json) : P v :=
  match v with
  | VNull => Hnull
  | VBool b => Hbool b
  | VNum x => Hnum x
  | VStr s => Hstr s
  | VArr vs => Harr vs ((fix go vs : Forall P vs := match vs with [] => Forall_nil_2 _ | v :: vs => Forall_cons_2 _ _ _ (json_deep_ind v) (go vs) end) vs)
  | VObj kvs =>
      Hobj kvs ((fix go kvs : Forall (fun kv => P kv.2) kvs :=
        match kvs with [] => Forall_nil_2 _ | kv :: kvs => Forall_cons_2 _ _ _ (json_deep_ind kv.2) (go kvs) end) kvs)
  end.
End JsonInd.

(** ** Text of a value *)

Definition escape (x : Z) : bytes :=
  if decide (x = 34) then [ch "\"; 34]
  else if decide (x = ch "\") then lit "\\"
  else if decide (x = 8) then lit "\b"
  else if decide (x = 12) then lit "\f"
  else if decide (x = 10) then lit "\n"
  else if decide (x = 13) then lit "\r"
  else if decide (x = 9) then lit "\t"
  else if decide (x < 32) then lit "\u00" ++ [hex_char (x / 16); hex_char (x mod 16)]
  else [x].

Definition quote (s : bytes) : bytes := 34 :: (s ≫= escape) ++ [34].

Definition number_text (x : double) : bytes := match format_number x 64 with Ret t => t | _ => [] end.

(** Separated by commas. *)
Fixpoint commas (xs : list bytes) : bytes :=
  match xs with [] => [] | [x] => x | x :: xs => x ++ ch "," :: commas xs end.

Fixpoint print (v : json) : bytes :=
  match v with
  | VNull => lit "null"
  | VBool b => if b then lit "true" else lit "false"
  | VNum x => number_text x
  | VStr s => quote s
  | VArr vs => ch "[" :: commas (print <$> vs) ++ [ch "]"]
  | VObj kvs => ch "{" :: commas ((fun kv => quote kv.1 ++ ch ":" :: print kv.2) <$> kvs) ++ [ch "}"]
  end.

(** ** Value of a text *)

Fixpoint ws (s : bytes) : bytes := match s with x :: r => if is_ws x then ws r else s | [] => [] end.

Definition code_point (hs : bytes) : option Z :=
  if forallb is_hex hs then Some (foldl (fun n h => n * 16 + hex_value h) 0 hs) else None.

(** The characters of a string up to its closing quote, and what follows. *)
Fixpoint chars_of_string (s : bytes) : option (bytes * bytes) :=
  match s with
  | [] => None
  | x :: r =>
      if decide (x = 34) then Some ([], r)
      else if decide (x <> ch "\") then prod_map (cons x) id <$> chars_of_string r
      else
        match r with
        | [] => None
        | e :: r =>
            match parse_simple_escape e with
            | Some cp => prod_map (app (utf8 cp)) id <$> chars_of_string r
            | None =>
                if decide (e = ch "u") then
                  match r with
                  | h1 :: h2 :: h3 :: h4 :: r =>
                      match code_point [h1; h2; h3; h4] with
                      | Some cp => prod_map (app (utf8 cp)) id <$> chars_of_string r
                      | None => None
                      end
                  | _ => None
                  end
                else None
            end
        end
  end.

(** What is left after zero, or after digits the first of which is not zero. *)
Fixpoint skip_digits (u : bytes) : bytes := match u with x :: r => if is_digit x then skip_digits r else u | [] => [] end.
Definition integer_part (u : bytes) : option bytes :=
  match u with
  | x :: r => if is_digit x then if decide (x = ch "0") then Some r else Some (skip_digits u) else None
  | [] => None
  end.

Definition starts (xs u : bytes) : bool := match u with x :: _ => bool_decide (x ∈ xs) | [] => false end.

(** The numbers the parser accepts: the digits after the point, and those of the
    exponent, must not start with zero either. *)
Definition json_number (u : bytes) : bool :=
  let r := integer_part (if starts [ch "-"] u then tl u else u) in
  let r := r ≫= fun u => if starts [ch "."] u then integer_part (tl u) else Some u in
  let r := r ≫= fun u =>
    if starts [ch "e"; ch "E"] u then integer_part (if starts [ch "+"; ch "-"] (tl u) then tl (tl u) else tl u) else Some u in
  bool_decide (r = Some []).

(** The number that [strtod] reads from a text, and what it leaves. *)
Definition strtod_text (s : bytes) : double * bytes :=
  match strtod (s ++ [NUL]) with Ret (x, e) => (x, take (length e - 1) e) | _ => (S754_zero false, s) end.

Definition number_at (s : bytes) : option (double * bytes) :=
  let '(x, r) := strtod_text s in
  if json_number (take (length s - length r) s) then Some (x, r) else None.

(** Rejected, an access outside a buffer, or a value and what follows. *)
Inductive parsed (A : Type) : Type := PNo | PCrash | PYes (v : A) (r : bytes).
Arguments PNo {A}.
Arguments PCrash {A}.
Arguments PYes {A} v r.

Definition pbind {A B : Type} (x : parsed A) (k : A -> bytes -> parsed B) : parsed B :=
  match x with PNo => PNo | PCrash => PCrash | PYes v r => k v r end.

(** The lengths of a string at which its buffer is full when the terminator is written. *)
Definition overruns (n : Z) : bool := bool_decide (64 <= n /\ n = 2 ^ Z.log2 n).

Definition string_at (s : bytes) : parsed bytes :=
  match chars_of_string s with
  | None => PNo
  | Some (t, r) => if overruns (zlen t) then PCrash else PYes t r
  end.

Definition word_at {A : Type} (w : bytes) (v : A) (s : bytes) : parsed A :=
  if decide (take (length w) s = w) then PYes v (drop (length w) s) else PNo.

(** After an element: the end, a further element, or neither. *)
Definition separator_at (close : Z) (s : bytes) : parsed bool :=
  match ws s with
  | [] => PNo
  | x :: r =>
      if decide (x = ch ",") then
        match ws r with
        | [] => PNo
        | y :: _ => if decide (y = close) then PNo else PYes true (ws r)
        end
      else if decide (x = close) then PYes false r
      else PNo
  end.

Fixpoint elements_at {A : Type} (element : bytes -> parsed A) (close : Z) (n : nat) (s : bytes) : parsed (list A) :=
  match n with
  | O => PNo
  | S n =>
      pbind (element s) (fun v r =>
      pbind (separator_at close r) (fun more r =>
      if more then pbind (elements_at element close n r) (fun vs r => PYes (v :: vs) r) else PYes [v] r))
  end.

Definition member_at (value : bytes -> parsed json) (s : bytes) : parsed (bytes * json) :=
  match ws s with
  | x :: r =>
      if decide (x = 34) then
        pbind (string_at r) (fun k r =>
        match ws r with
        | y :: r => if decide (y = ch ":") then pbind (value r) (fun v r => PYes (k, v) r) else PNo
        | [] => PNo
        end)
      else PNo
  | [] => PNo
  end.

(** Nothing between the brackets, or elements. *)
Definition elements_or_none {A : Type} (element : bytes -> parsed A) (close : Z) (n : nat) (s : bytes) : parsed (list A) :=
  match ws s with
  | x :: r => if decide (x = close) then PYes [] r else elements_at element close n (ws s)
  | [] => elements_at element close n []
  end.

Definition pmap {A B : Type} (f : A -> B) (x : parsed A) : parsed B := pbind x (fun v r => PYes (f v) r).

Fixpoint value_at (n : nat) (s : bytes) : parsed json :=
  match n with
  | O => PNo
  | S n =>
      match ws s with
      | [] => PNo
      | x :: r =>
          if decide (x = ch "n") then word_at (lit "null") VNull (x :: r)
          else if decide (x = ch "t") then word_at (lit "true") (VBool true) (x :: r)
          else if decide (x = ch "f") then word_at (lit "false") (VBool false) (x :: r)
          else if decide (x = ch "[") then pmap VArr (elements_or_none (value_at n) (ch "]") n r)
          else if decide (x = ch "{") then pmap VObj (elements_or_none (member_at (value_at n)) (ch "}") n r)
          else if decide (x = 34) then pmap VStr (string_at r)
          else if decide (x = ch "-" \/ ch "0" <= x <= ch "9") then
            match number_at (x :: r) with Some (y, r) => PYes (VNum y) r | None => PNo end
          else PNo
      end
  end.

Definition parse_text (s : bytes) : parsed json :=
  pbind (value_at (S (length s)) s) (fun v r => if decide (ws r = []) then PYes v [] else PNo).
