(* ===== verification/JsonText.v ===== *)
(** * Facts about JSON text

    [strtod] on a text that goes on with a character no number goes on with; what the
    functions of [JsonSpec] leave of a text; and that the text of a value is read back
    as that value. *)

From Stdlib Require Import ZArith Lia Ascii String SpecFloat.
From stdpp Require Import base tactics option list numbers.
From S2P Require Import Prelude Mem Allocator Text Semver JsonNumber Json JsonSpec.
Open Scope Z_scope.

(** ** Where numbers end *)

Definition alpha (c : Z) : bool := bool_decide (97 <= c <= 122) || bool_decide (65 <= c <= 90).

(** Characters no number goes on with. *)
Definition stops (c : Z) : bool := negb (is_digit c || alpha c || bool_decide (c ∈ [46; 43; 45; 95; 40; 41])).

Lemma stops_spec c : stops c = true ->
  is_digit c = false /\ is_hex c = false /\ ~ (97 <= c <= 122) /\ ~ (65 <= c <= 90) /\
  c <> 46 /\ c <> 43 /\ c <> 45 /\ c <> 95 /\ c <> 40 /\ c <> 41.
Proof.
  unfold stops, alpha. rewrite negb_true_iff, !orb_false_iff, !bool_decide_eq_false, !elem_of_cons, elem_of_nil.
  intros [[Hd [Ha Hb]] Hc]. rewrite Hd. split; [done|]. split; [|tauto].
  unfold is_hex. rewrite Hd. chars. simpl. rewrite !bool_decide_eq_false_2 by lia. done.
Qed.

Section Uniform.
(** [o] reads a text and what follows it, [res] is its result with what it leaves of the
    text. *)
Definition uniform {A : Type} (f : bytes -> outcome A) (t : bytes) (res : bytes -> A) : Prop :=
  forall c r, stops c = true -> f (t ++ c :: r) = Ret (res (c :: r)).

Lemma look_uniform t : exists x, forall c r, stops c = true -> look (t ++ c :: r) = Ret (default c x) /\ (x = head t).
Proof. exists (head t). intros c r _. by destruct t. Qed.

Lemma scan_run_uniform f v b t acc n : (forall c, stops c = true -> f c = false) ->
  exists acc' n' u t', t = u ++ t' /\ n' = n + zlen u /\ uniform (fun s => scan_run f v b s acc n) t (fun s => (acc', n', t' ++ s)).
Proof.
  intros Hf. revert acc n. induction t as [|x t IH]; intros acc n.
  - exists acc, n, [], []. split; [done|]. split; [rewrite zlen_nil; lia|]. intros c r Hc. simpl. by rewrite (Hf c Hc).
  - destruct (f x) eqn:E.
    + destruct (IH (acc * b + v x) (n + 1)) as (acc' & n' & u & t' & -> & -> & H). exists acc', (n + 1 + zlen u), (x :: u), t'.
      split; [done|]. split; [rewrite zlen_cons; lia|]. intros c r Hc. simpl. rewrite E. by apply H.
    + exists acc, n, [], (x :: t). split; [done|]. split; [rewrite zlen_nil; lia|]. intros c r Hc. simpl. by rewrite E.
Qed.

Ltac stop_facts := repeat match goal with H : stops ?c = true |- _ => pose proof (stops_spec c H); clear H end.

Lemma exponent_uniform lo up t : (97 <= lo <= 122 /\ 65 <= up <= 90) ->
  exists e u t', t = u ++ t' /\ uniform (scan_exponent lo up) t (fun s => (e, t' ++ s)).
Proof.
  intros Hl. destruct t as [|x t].
  { exists 0, [], []. split; [done|]. intros c r Hc. unfold scan_exponent. simpl. stop_facts. by rewrite decide_False by lia. }
  destruct (decide (x = lo \/ x = up)) as [D|D].
  2:{ exists 0, [], (x :: t). split; [done|]. intros c r Hc. unfold scan_exponent. simpl. by rewrite decide_False. }
  assert (Hd : forall c, stops c = true -> is_digit c = false) by (intros c Hc; by apply stops_spec in Hc as [? _]).
  set (sg := match t with y :: _ => bool_decide (y = 45 \/ y = 43) | [] => false end).
  set (t1 := if sg then tl t else t). set (neg := match t with y :: _ => bool_decide (y = 45) | [] => false end).
  destruct (scan_run_uniform is_digit (fun c => c - ch "0") 10 t1 0 0 Hd) as (acc & k & u & t' & E & Ek & H).
  assert (G : uniform (scan_exponent lo up) (x :: t) (fun s => if decide (k = 0) then (0, (x :: t) ++ s) else (if neg then - acc else acc, t' ++ s))).
  { intros c r Hc. unfold scan_exponent. cbn [look app tl obind]. rewrite decide_True by done.
    assert (L : look (t ++ c :: r) = Ret (default c (head t))) by by destruct t. rewrite L. cbn [obind].
    assert (B : bool_decide (default c (head t) = ch "-") = neg).
    { unfold neg. destruct t as [|y t]; [|done]. stop_facts. simpl. apply bool_decide_eq_false. chars. lia. }
    rewrite B.
    assert (S : (if decide (default c (head t) = ch "-" \/ default c (head t) = ch "+") then tl (t ++ c :: r) else t ++ c :: r) = t1 ++ c :: r).
    { unfold t1, sg. destruct t as [|y t]; [stop_facts; simpl; rewrite decide_False; [done|chars; lia]|]. simpl.
      destruct (decide (y = ch "-" \/ y = ch "+")) as [D1|D1]; revert D1; chars; intros D1;
        [by rewrite bool_decide_eq_true_2|by rewrite bool_decide_eq_false_2]. }
    rewrite S, (H c r Hc). cbn [obind]. by destruct (decide (k = 0)). }
  destruct (decide (k = 0)) as [K|K].
  - exists 0, [], (x :: t). split; [done|]. intros c r Hc. by rewrite (G c r Hc).
  - exists (if neg then - acc else acc), (x :: (if sg then take 1 t else []) ++ u), t'. split.
    + simpl. f_equal. unfold t1 in E. destruct sg eqn:Sg; [|done]. destruct t as [|y t]; [done|]. simpl in *. by rewrite E.
    + intros c r Hc. by rewrite (G c r Hc).
Qed.

Lemma mantissa_uniform f v b t : (forall c, stops c = true -> f c = false) ->
  exists m k n u t', t = u ++ t' /\ uniform (scan_mantissa f v b) t (fun s => (m, k, n, t' ++ s)).
Proof.
  intros Hf. destruct (scan_run_uniform f v b t 0 0 Hf) as (m & n & u & t1 & -> & -> & H).
  destruct t1 as [|x t1].
  { exists m, 0, (0 + zlen u), u, []. split; [done|]. intros c r Hc. unfold scan_mantissa. rewrite (H c r Hc). simpl. stop_facts.
    rewrite decide_False by (chars; lia). done. }
  destruct (decide (x = ch ".")) as [->|D].
  2:{ exists m, 0, (0 + zlen u), u, (x :: t1). split; [done|]. intros c r Hc. unfold scan_mantissa. rewrite (H c r Hc). simpl. by rewrite decide_False. }
  destruct (scan_run_uniform f v b t1 m 0 Hf) as (m2 & n2 & u2 & t2 & E & -> & H2).
  assert (G : uniform (scan_mantissa f v b) (u ++ ch "." :: t1)
    (fun s => if decide (0 + zlen u + (0 + zlen u2) = 0) then (0, 0, 0, (u ++ ch "." :: t1) ++ s) else (m2, 0 + zlen u2, 0 + zlen u + (0 + zlen u2), t2 ++ s))).
  { intros c r Hc. unfold scan_mantissa. rewrite (H c r Hc). cbn [obind look app tl]. rewrite decide_True by done.
    rewrite (H2 c r Hc). cbn [obind]. by destruct (decide (0 + zlen u + (0 + zlen u2) = 0)). }
  destruct (decide (0 + zlen u + (0 + zlen u2) = 0)) as [K|K].
  - exists 0, 0, 0, [], (u ++ ch "." :: t1). split; [done|]. intros c r Hc. by rewrite (G c r Hc).
  - eexists m2, _, _, (u ++ ch "." :: u2), t2. split; [rewrite E, <- app_assoc; done|]. intros c r Hc. by rewrite (G c r Hc).
Qed.

(** A scanner of numbers, which may find none. *)
Definition finds (f : bytes -> outcome (option (double * bytes))) (t : bytes) : Prop :=
  uniform f t (fun _ => None) \/ exists x u t', t = u ++ t' /\ uniform f t (fun s => Some (x, t' ++ s)).

Lemma decimal_uniform neg t : finds (scan_decimal neg) t.
Proof.
  destruct (mantissa_uniform is_digit (fun c => c - ch "0") 10 t) as (m & k & n & u & t' & -> & H); [intros c Hc; by apply stops_spec in Hc as [? _]|].
  destruct (decide (n = 0)) as [D|D].
  { left. intros c r Hc. unfold scan_decimal. rewrite (H c r Hc). simpl. by rewrite decide_True. }
  destruct (exponent_uniform (ch "e") (ch "E") t') as (e & u2 & t2 & -> & H2); [chars; lia|].
  right. exists (of_scaled neg 10 m (e - k)), (u ++ u2), t2. split; [by rewrite app_assoc|]. intros c r Hc. unfold scan_decimal.
  rewrite (H c r Hc). cbn [obind]. rewrite decide_False by done. by rewrite (H2 c r Hc).
Qed.

Lemma hex_uniform neg t : finds (scan_hex neg) t.
Proof.
  destruct (mantissa_uniform is_hex hex_value 16 t) as (m & k & n & u & t' & -> & H); [intros c Hc; by apply stops_spec in Hc as (_ & ? & _)|].
  destruct (decide (n = 0)) as [D|D].
  { left. intros c r Hc. unfold scan_hex. rewrite (H c r Hc). simpl. by rewrite decide_True. }
  destruct (exponent_uniform (ch "p") (ch "P") t') as (e & u2 & t2 & -> & H2); [chars; lia|].
  right. exists (of_scaled neg 2 m (e - 4 * k)), (u ++ u2), t2. split; [by rewrite app_assoc|]. intros c r Hc. unfold scan_hex.
  rewrite (H c r Hc). cbn [obind]. rewrite decide_False by done. by rewrite (H2 c r Hc).
Qed.

Lemma word_uniform w t : Forall (fun x => 97 <= x <= 122) w ->
  exists b, uniform (match_word w) t (fun _ => b) /\ (b = true -> exists u t', t = u ++ t' /\ length u = length w).
Proof.
  intros Hw. revert t. induction Hw as [|x w Hx _ IH]; intros t; [by exists true; split; [|exists [], t]|].
  destruct t as [|y t].
  { exists false. split; [|done]. intros c r Hc. simpl. stop_facts. by rewrite decide_False by lia. }
  destruct (decide (y = x \/ y = x - 32)) as [D|D].
  - destruct (IH t) as (b & H & Hb). exists b. split.
    + intros c r Hc. simpl. rewrite decide_True by done. by apply H.
    + intros E. destruct (Hb E) as (u & t' & -> & L). exists (y :: u), t'. simpl. by rewrite L.
  - exists false. split; [|done]. intros c r Hc. simpl. by rewrite decide_False.
Qed.

Lemma nan_uniform t : uniform scan_nan t (fun _ => None) \/ exists u t', t = u ++ t' /\ uniform scan_nan t (fun s => Some (t' ++ s)).
Proof.
  induction t as [|x t IH].
  { left. intros c r Hc. simpl. apply stops_spec in Hc as (Hd & _ & ? & ? & ? & ? & ? & ? & ? & ?). rewrite Hd.
    rewrite decide_False by (chars; lia). chars. rewrite !bool_decide_eq_false_2 by lia. done. }
  destruct (decide (x = ch ")")) as [D|D].
  { right. exists [x], t. split; [done|]. intros c r Hc. simpl. by rewrite decide_True. }
  destruct (is_digit x || bool_decide (ch "a" <= x <= ch "z") || bool_decide (ch "A" <= x <= ch "Z") || bool_decide (x = ch "_")) eqn:E.
  - destruct IH as [H|(u & t' & -> & H)]; [left|right; exists (x :: u), t'; split; [done|]];
      intros c r Hc; cbn [scan_nan app]; rewrite decide_False by done; rewrite E; by apply H.
  - left. intros c r Hc. cbn [scan_nan app]. rewrite decide_False by done. by rewrite E.
Qed.

Lemma letters_lit s : forallb (fun x => bool_decide (97 <= x <= 122)) (lit s) = true -> Forall (fun x => 97 <= x <= 122) (lit s).
Proof. intros H. apply Forall_forall. intros x Hx. rewrite forallb_forall in H. by apply (bool_decide_eq_true_1 _ (H x Hx)). Qed.

Lemma uniform_ext {A : Type} (f g : bytes -> outcome A) t res :
  (forall c r, stops c = true -> f (t ++ c :: r) = g (t ++ c :: r)) -> uniform g t res -> uniform f t res.
Proof. intros E H c r Hc. rewrite E by done. by apply H. Qed.

Lemma finds_ext f g t : (forall c r, stops c = true -> f (t ++ c :: r) = g (t ++ c :: r)) -> finds g t -> finds f t.
Proof.
  intros E [H|(x & u & t' & Et & H)]; [left; by eapply uniform_ext|right]. exists x, u, t'. split; [done|by eapply uniform_ext].
Qed.

Lemma zero_uniform neg t : finds (scan_unsigned neg) (ch "0" :: t).
Proof.
  destruct t as [|x t].
  { eapply finds_ext; [|apply (decimal_uniform neg)]. intros c r Hc. unfold scan_unsigned. cbn [app look obind tl]. rewrite decide_True by done.
    stop_facts. by rewrite decide_False by (chars; lia). }
  destruct (decide (x = ch "x" \/ x = ch "X")) as [D|D].
  2:{ eapply finds_ext; [|apply (decimal_uniform neg)]. intros c r Hc. unfold scan_unsigned. cbn [app look obind tl]. rewrite decide_True by done.
      by rewrite decide_False. }
  right. destruct (hex_uniform neg t) as [H|(y & u & t' & -> & H)].
  - exists (S754_zero neg), [ch "0"], (x :: t). split; [done|]. intros c r Hc. unfold scan_unsigned. cbn [app look obind tl].
    rewrite decide_True by done. rewrite decide_True by done. by rewrite (H c r Hc).
  - exists y, (ch "0" :: x :: u), t'. split; [done|]. intros c r Hc. unfold scan_unsigned. cbn [app look obind tl].
    rewrite decide_True by done. rewrite decide_True by done. by rewrite (H c r Hc).
Qed.

Lemma drop_word k u t (s : bytes) : length u = k -> drop k ((u ++ t) ++ s) = t ++ s.
Proof. intros <-. rewrite <- app_assoc. by rewrite drop_app_length. Qed.

Lemma unsigned_uniform neg t : finds (scan_unsigned neg) t.
Proof.
  destruct (decide (head t = Some (ch "0"))) as [Z|Z].
  { destruct t as [|x t]; [done|]. injection Z as ->. apply zero_uniform. }
  assert (N0 : forall c r, stops c = true -> exists y, look (t ++ c :: r) = Ret y /\ y <> ch "0").
  { intros c r Hc. destruct t as [|y t]; [exists c; split; [done|]|by exists y; split; [|intros ->]].
    apply stops_spec in Hc as [Hd _]. intros ->. by vm_compute in Hd. }
  destruct (word_uniform (lit "inf") t) as (b & H & Hb); [by apply letters_lit|].
  destruct (word_uniform (lit "infinity") t) as (b1 & H1 & Hb1); [by apply letters_lit|].
  destruct (word_uniform (lit "nan") t) as (b2 & H2 & Hb2); [by apply letters_lit|].
  destruct b; [|destruct b2].
  - right. destruct (Hb eq_refl) as (u & t' & Et & Lu). set (k := (if b1 then 8 else 3)%nat).
    assert (exists u' t'', t = u' ++ t'' /\ length u' = k) as (u' & t'' & Et' & Lu').
    { unfold k. destruct b1; [apply (Hb1 eq_refl)|by exists u, t']. }
    exists (S754_infinity neg), u', t''. split; [done|]. intros c r Hc. destruct (N0 c r Hc) as (y & L & Hy). unfold scan_unsigned.
    rewrite L. cbn [obind]. rewrite decide_False by done. rewrite (H c r Hc). cbn [obind]. rewrite (H1 c r Hc). cbn [obind].
    fold k. rewrite Et'. by rewrite drop_word.
  - right. destruct (Hb2 eq_refl) as (u & t' & Et & Lu).
    assert (exists u' t'', t = u' ++ t'' /\ uniform (fun s => let! c := look (drop 3 s) in
       let! close := if decide (c = ch "(") then scan_nan (drop 4 s) else Ret None in Ret (default (drop 3 s) close)) t (fun s => t'' ++ s))
      as (u' & t'' & Et' & G).
    { destruct t' as [|y t'].
      - exists u, []. split; [done|]. intros c r Hc. rewrite Et, drop_word by done. stop_facts. simpl. by rewrite decide_False by (chars; lia).
      - assert (D4 : forall s, drop 4 ((u ++ y :: t') ++ s) = t' ++ s).
        { intros s. change 4%nat with (1 + 3)%nat. rewrite Nat.add_comm, <- drop_drop, drop_word by done. done. }
        destruct (decide (y = ch "(")) as [->|D].
        + destruct (nan_uniform t') as [N|(u2 & t2 & E2 & N)].
          * exists u, (ch "(" :: t'). split; [done|]. intros c r Hc. rewrite Et, D4, drop_word by done. simpl. by rewrite (N c r Hc).
          * exists (u ++ ch "(" :: u2), t2. split; [rewrite Et, E2, <- app_assoc; done|].
            intros c r Hc. rewrite Et, D4, drop_word by done. simpl. by rewrite (N c r Hc).
        + exists u, (y :: t'). split; [done|]. intros c r Hc. rewrite Et, drop_word by done. simpl. by rewrite decide_False. }
    exists S754_nan, u', t''. split; [done|]. intros c r Hc. destruct (N0 c r Hc) as (y & L & Hy). unfold scan_unsigned.
    rewrite L. cbn [obind]. rewrite decide_False by done. rewrite (H c r Hc). cbn [obind]. rewrite (H2 c r Hc). cbn [obind].
    specialize (G c r Hc). cbv beta in G. destruct (look (drop 3 (t ++ c :: r))); [|done|done]. cbn [obind] in *.
    destruct (if decide _ then _ else _); [|done|done]. cbn [obind] in *. by injection G as ->.
  - eapply finds_ext; [|apply (decimal_uniform neg)]. intros c r Hc. destruct (N0 c r Hc) as (y & L & Hy). unfold scan_unsigned at 1.
    rewrite L. cbn [obind]. rewrite decide_False by done. rewrite (H c r Hc). cbn [obind]. by rewrite (H2 c r Hc).
Qed.

Lemma strtod_uniform t : exists x u t', t = u ++ t' /\ uniform strtod t (fun s => (x, t' ++ s)).
Proof.
  set (sg := match t with y :: _ => bool_decide (y = 45 \/ y = 43) | [] => false end).
  set (neg := match t with y :: _ => bool_decide (y = 45) | [] => false end). set (t1 := if sg then tl t else t).
  assert (G : forall c r, stops c = true -> strtod (t ++ c :: r) =
    let! q := scan_unsigned neg (t1 ++ c :: r) in match q with Some (x, rest) => Ret (x, rest) | None => Ret (S754_zero false, t ++ c :: r) end).
  { intros c r Hc. unfold strtod, t1, sg, neg. destruct t as [|y t]; cbn [app look obind tl].
    - stop_facts. rewrite bool_decide_eq_false_2 by (chars; lia). by rewrite decide_False by (chars; lia).
    - chars. destruct (decide (y = 45 \/ y = 43)) as [D|D]; [by rewrite (bool_decide_eq_true_2 _ D)|by rewrite (bool_decide_eq_false_2 _ D)]. }
  destruct (unsigned_uniform neg t1) as [H|(x & u & t' & E & H)].
  - exists (S754_zero false), [], t. split; [done|]. intros c r Hc. rewrite (G c r Hc), (H c r Hc). done.
  - exists x, ((if sg then take 1 t else []) ++ u), t'. split.
    + rewrite <- app_assoc, <- E. unfold t1. destruct sg eqn:S; [|done]. by destruct t.
    + intros c r Hc. rewrite (G c r Hc), (H c r Hc). done.
Qed.
End Uniform.

Lemma strtod_stop t c r : stops c = true -> exists u, t = u ++ (strtod_text t).2 /\
  strtod (t ++ c :: r) = Ret ((strtod_text t).1, (strtod_text t).2 ++ c :: r).
Proof.
  intros Hc. destruct (strtod_uniform t) as (x & u & t' & E & H). unfold strtod_text.
  rewrite (H NUL []) by done. rewrite length_app. simpl. rewrite Nat.add_sub, take_app_length. exists u. split; [done|]. by apply H.
Qed.

(** ** Reading back what was printed *)

(** What may come after a value. *)
Definition ends (r : bytes) : Prop := match r with [] => True | c :: _ => stops c = true end.

Definition reads_back (x : double) : Prop := number_at (number_text x) = Some (x, []).
Definition plain (s : bytes) : Prop := Forall (fun c => 0 < c < 256) s /\ overruns (zlen s) = false.

(** Values whose numbers are read back from their text and whose strings have no NUL and
    fit their buffers. *)
Fixpoint printable (v : json) : Prop :=
  match v with
  | VNull | VBool _ => True
  | VNum x => reads_back x
  | VStr s => plain s
  | VArr vs => (fix go vs := match vs with [] => True | v :: vs => printable v /\ go vs end) vs
  | VObj kvs => (fix go kvs := match kvs with [] => True | (k, v) :: kvs => plain k /\ printable v /\ go kvs end) kvs
  end.

Lemma printable_arr vs : printable (VArr vs) <-> Forall printable vs.
Proof. simpl. induction vs as [|v vs IH]; [done|]. rewrite list.Forall_cons. by rewrite <- IH. Qed.

Lemma printable_obj kvs : printable (VObj kvs) <-> Forall (fun kv => plain kv.1 /\ printable kv.2) kvs.
Proof. simpl. induction kvs as [|[k v] kvs IH]; [done|]. rewrite list.Forall_cons, <- IH. simpl. tauto. Qed.

Lemma strtod_text_app t x r : strtod_text t = (x, []) -> ends r -> strtod_text (t ++ r) = (x, r).
Proof.
  intros E He. destruct r as [|c r]; [by rewrite app_nil_r|].
  destruct (strtod_stop t c (r ++ [NUL]) He) as (u & _ & H). rewrite E in H. simpl in H.
  unfold strtod_text. rewrite <- app_assoc. simpl. rewrite H. simpl. rewrite length_app. simpl.
  f_equal. replace (length r + 1 - 0)%nat with (length (c :: r)) by (simpl; lia). by rewrite app_comm_cons, take_app_length.
Qed.

Lemma number_reads x r : reads_back x -> ends r -> number_at (number_text x ++ r) = Some (x, r).
Proof.
  unfold reads_back, number_at. intros H He. destruct (strtod_text (number_text x)) as [y e] eqn:E.
  destruct (json_number _) eqn:J; [|done]. injection H as -> ->. rewrite (strtod_text_app _ _ _ E He).
  simpl in J. rewrite Nat.sub_0_r, firstn_all in J. rewrite length_app, Nat.add_sub, take_app_length. by rewrite J.
Qed.

Lemma integer_part_digit u r : integer_part u = Some r -> exists d u', u = d :: u' /\ is_digit d = true.
Proof. destruct u as [|d u]; [done|]. simpl. destruct (is_digit d) eqn:E; [|done]. by exists d, u. Qed.

Lemma number_starts x : reads_back x -> exists d t, number_text x = d :: t /\ (d = ch "-" \/ ch "0" <= d <= ch "9").
Proof.
  unfold reads_back, number_at. destruct (strtod_text _) as [y e] eqn:E. destruct (json_number _) eqn:J; [|done]. intros [= -> ->].
  simpl in J. rewrite Nat.sub_0_r, firstn_all in J. unfold json_number in J. apply bool_decide_eq_true in J.
  destruct (number_text x) as [|d t]; [done|]. exists d, t. split; [done|]. simpl in J.
  destruct (bool_decide (d ∈ [ch "-"])) eqn:B.
  - apply bool_decide_eq_true, list_elem_of_singleton in B. by left.
  - right. destruct (integer_part (d :: t)) as [r|] eqn:I; [|done]. apply integer_part_digit in I as (d' & t' & [= -> ->] & Hd).
    apply is_digit_range in Hd. chars. lia.
Qed.

(** *** Strings *)

Lemma escape_reads x r : 0 <= x < 256 -> chars_of_string (escape x ++ r) = prod_map (cons x) id <$> chars_of_string r.
Proof.
  intros Hx. destruct (decide (x < 32)) as [D|D].
  - assert (x = 0 \/ x = 1 \/ x = 2 \/ x = 3 \/ x = 4 \/ x = 5 \/ x = 6 \/ x = 7 \/ x = 8 \/ x = 9 \/ x = 10 \/ x = 11 \/ x = 12 \/ x = 13 \/
      x = 14 \/ x = 15 \/ x = 16 \/ x = 17 \/ x = 18 \/ x = 19 \/ x = 20 \/ x = 21 \/ x = 22 \/ x = 23 \/ x = 24 \/ x = 25 \/ x = 26 \/ x = 27 \/
      x = 28 \/ x = 29 \/ x = 30 \/ x = 31) as E by lia.
    repeat destruct E as [->|E]; try subst x; reflexivity.
  - unfold escape. destruct (decide (x = 34)) as [->|N1]; [reflexivity|]. destruct (decide (x = ch "\")) as [->|N2]; [reflexivity|].
    rewrite !decide_False by lia. cbn [app chars_of_string]. rewrite decide_False by done. by rewrite decide_True.
Qed.

Lemma escapes_read s r : Forall (fun c => 0 <= c < 256) s -> chars_of_string ((s ≫= escape) ++ 34 :: r) = Some (s, r).
Proof.
  induction 1 as [|x s Hx _ IH]; [done|]. cbn [mbind list_bind]. rewrite <- app_assoc, escape_reads by done.
  change (list_bind _ _ escape s) with (s ≫= escape). by rewrite IH.
Qed.

Lemma quote_reads s r : plain s -> string_at ((s ≫= escape) ++ 34 :: r) = PYes s r.
Proof.
  intros [Hs Ho]. unfold string_at. rewrite escapes_read; [by rewrite Ho|]. clear Ho. induction Hs; constructor; [lia|done].
Qed.

(** *** Values *)

Lemma ws_nonspace s : match s with x :: _ => is_ws x = false | [] => True end -> ws s = s.
Proof. destruct s as [|x s]; [done|]. simpl. by intros ->. Qed.

Lemma not_ws x : x <> 32 -> x <> 9 -> x <> 10 -> x <> 13 -> is_ws x = false.
Proof. intros. apply bool_decide_eq_false. lia. Qed.

(** The first character of a printed value. *)
Lemma print_starts v : printable v -> exists d t, print v = d :: t /\ is_ws d = false /\ d <> 93 /\ d <> 125.
Proof.
  destruct v as [|[]|x|s|vs|kvs]; intros Hv; try by eexists _, _.
  destruct (number_starts x Hv) as (d & t & E & Hd). exists d, t. simpl. split; [done|]. revert Hd. chars. intros Hd.
  split; [apply not_ws; lia|lia].
Qed.

Lemma commas_cons x y xs : commas (x :: y :: xs) = x ++ ch "," :: commas (y :: xs).
Proof. done. Qed.

(** Elements separated by commas are read one by one. *)
Lemma elements_read {A : Type} (element : bytes -> parsed A) (close : Z) (show : A -> bytes) vs :
  close = ch "]" \/ close = ch "}" -> vs <> [] ->
  Forall (fun v => (exists d t, show v = d :: t /\ is_ws d = false /\ d <> close) /\
    forall r, ends r -> element (show v ++ r) = PYes v r) vs ->
  forall n r, (length (commas (show <$> vs)) < n)%nat -> elements_at element close n (commas (show <$> vs) ++ close :: r) = PYes vs r.
Proof.
  intros Hc Hne H. induction H as [|v vs [Hs Hv] H IH]; [done|]. intros [|n] r Hn; [lia|]. cbn [elements_at].
  assert (Es : ends (close :: r)) by by destruct Hc as [-> | ->].
  destruct vs as [|w vs].
  - change (commas (show <$> [v])) with (show v). rewrite (Hv (close :: r) Es). cbn [pbind]. unfold separator_at.
    rewrite ws_nonspace by (by destruct Hc as [-> | ->]). rewrite decide_False by (by destruct Hc as [-> | ->]). rewrite decide_True by done. done.
  - rewrite !fmap_cons, commas_cons in *. rewrite <- app_assoc, <- app_comm_cons. rewrite Hv by done. cbn [pbind].
    unfold separator_at at 1. rewrite ws_nonspace by done. rewrite decide_True by done.
    apply list.Forall_cons in H as [[(d & t & Ed & Wd & Nd) _] _].
    assert (W : ws (commas (show w :: (show <$> vs)) ++ close :: r) = commas (show w :: (show <$> vs)) ++ close :: r).
    { apply ws_nonspace. simpl. rewrite Ed. by destruct (show <$> vs). }
    rewrite W. assert (exists t', commas (show w :: (show <$> vs)) ++ close :: r = d :: t') as [t' Et].
    { simpl. rewrite Ed. destruct (show <$> vs); by eexists. }
    rewrite Et at 1. rewrite decide_False by done. cbn [pbind]. rewrite IH; [done|done|].
    rewrite length_app in Hn. cbn [length] in Hn. lia.
Qed.

Lemma commas_length (xs : list bytes) x : x ∈ xs -> (length x <= length (commas xs))%nat.
Proof.
  induction xs as [|y [|z xs] IH]; [by intros ?%not_elem_of_nil|by intros ->%list_elem_of_singleton|].
  rewrite commas_cons, length_app. cbn [length]. intros [->|H]%elem_of_cons; [lia|]. specialize (IH H). lia.
Qed.

Lemma elements_or_none_read {A : Type} (element : bytes -> parsed A) (close : Z) (show : A -> bytes) vs n r :
  close = ch "]" \/ close = ch "}" ->
  Forall (fun v => (exists d t, show v = d :: t /\ is_ws d = false /\ d <> close) /\
    forall r, ends r -> element (show v ++ r) = PYes v r) vs ->
  (length (commas (show <$> vs)) < n)%nat -> elements_or_none element close n (commas (show <$> vs) ++ close :: r) = PYes vs r.
Proof.
  intros Hc F Hn. pose proof F as F'. unfold elements_or_none. destruct vs as [|w vs].
  { simpl. rewrite (not_ws close) by (destruct Hc as [-> | ->]; by vm_compute). by rewrite decide_True. }
  apply list.Forall_cons in F as [[(d & t & Ed & Wd & Nd) _] _].
  assert (exists t', commas (show <$> w :: vs) ++ close :: r = d :: t') as [t' Et].
  { rewrite fmap_cons. destruct (show <$> vs) as [|y ys] eqn:Ey; [|rewrite commas_cons]; rewrite Ed; by eexists. }
  rewrite Et, ws_nonspace by done. rewrite decide_False by done. rewrite <- Et. by apply elements_read.
Qed.

Lemma member_reads n k v r : plain k -> (forall r, ends r -> value_at n (print v ++ r) = PYes v r) -> ends r ->
  member_at (value_at n) ((quote k ++ ch ":" :: print v) ++ r) = PYes (k, v) r.
Proof.
  intros Hk Hv He. unfold member_at, quote. rewrite <- app_assoc, <- !app_comm_cons, ws_nonspace by done. rewrite decide_True by done.
  rewrite <- app_assoc. cbn [app]. rewrite quote_reads by done. cbn [pbind]. rewrite ws_nonspace by done. rewrite decide_True by done.
  by rewrite Hv.
Qed.

(** A value is read back, whatever follows that cannot go on a number. *)
Lemma print_reads v : printable v -> forall n r, (length (print v) < n)%nat -> ends r -> value_at n (print v ++ r) = PYes v r.
Proof.
  induction v as [|b|x|s|vs IH|kvs IH] using json_deep_ind; intros Hv [|n] r Hn He; try lia.
  - done.
  - by destruct b.
  - destruct (number_starts x Hv) as (d & t & E & Hd). cbn [value_at print]. pose proof (number_reads x r Hv He) as H. rewrite E in *.
    cbn [app] in *. rewrite ws_nonspace by (apply not_ws; revert Hd; chars; lia).
    do 6 (rewrite decide_False; [|revert Hd; chars; lia]). rewrite decide_True by done. by rewrite H.
  - cbn [value_at print]. change (quote s ++ r) with (34 :: ((s ≫= escape) ++ [34]) ++ r). rewrite ws_nonspace by done.
    rewrite !decide_False by done. rewrite decide_True by done. rewrite <- app_assoc. cbn [app]. by rewrite quote_reads.
  - rewrite printable_arr in Hv. cbn [value_at print]. rewrite <- app_comm_cons, ws_nonspace by done. rewrite !decide_False by done.
    rewrite decide_True by done. rewrite <- app_assoc. cbn [app print length] in *. rewrite length_app in Hn. cbn [length] in Hn.
    rewrite elements_or_none_read; [done|by left| |lia]. apply Forall_forall. intros v Hin. rewrite Forall_forall in Hv, IH. split.
    + destruct (print_starts v (Hv v Hin)) as (d & t & ? & ? & ? & ?). by exists d, t.
    + intros r' He'. apply IH; [done|by apply Hv| |done].
      assert (length (print v) <= length (commas (print <$> vs)))%nat by (apply commas_length, list_elem_of_fmap_2; by apply list_elem_of_In). lia.
  - rewrite printable_obj in Hv. cbn [value_at print]. rewrite <- app_comm_cons, ws_nonspace by done. rewrite !decide_False by done.
    rewrite decide_True by done. rewrite <- app_assoc. cbn [app print length] in *. rewrite length_app in Hn. cbn [length] in Hn.
    rewrite elements_or_none_read; [done|by right| |lia]. apply Forall_forall. intros [k v] Hin. rewrite Forall_forall in Hv, IH.
    destruct (Hv _ Hin) as [Hk Hp]. split; [by eexists _, _|]. intros r' He'. apply member_reads; [done| |done].
    intros r'' He''. apply (IH _ Hin); [done| |done].
    assert (length (quote k ++ ch ":" :: print v) <= length (commas ((fun kv => quote kv.1 ++ ch ":" :: print kv.2) <$> kvs)))%nat
      by (apply commas_length, (list_elem_of_fmap_2 (fun kv => quote kv.1 ++ ch ":" :: print kv.2) kvs (k, v)); by apply list_elem_of_In).
    rewrite length_app in *. simpl in *. lia.
Qed.

Lemma print_parses v : printable v -> parse_text (print v) = PYes v [].
Proof.
  intros Hv. unfold parse_text. rewrite <- (app_nil_r (print v)) at 2. rewrite print_reads by (done || lia). done.
Qed.

(** ** What is left of a text *)

Definition shortens {A : Type} (f : bytes -> parsed A) : Prop := forall s v r, f s = PYes v r -> (length r < length s)%nat.

Lemma ws_length s : (length (ws s) <= length s)%nat.
Proof. induction s as [|x s IH]; [done|]. simpl. destruct (is_ws x); simpl; lia. Qed.

Lemma chars_shorten n : forall s t r, (length s < n)%nat -> chars_of_string s = Some (t, r) -> (length r < length s)%nat.
Proof.
  induction n as [|n IH]; intros s t r Hn; [lia|]. destruct s as [|x s]; [done|]. cbn [chars_of_string length] in *.
  assert (K : forall s' f, (length s' < n)%nat -> (length s' <= length s)%nat -> prod_map f id <$> chars_of_string s' = Some (t, r) -> (length r < S (length s))%nat).
  { intros s' f H1 H2. destruct (chars_of_string s') as [[t' r']|] eqn:E; [|done]. intros [= _ <-]. specialize (IH _ _ _ H1 E). lia. }
  case_decide; [intros [= _ <-]; lia|]. case_decide; [apply K; lia|]. destruct s as [|e s]; [done|]. cbn [length] in *.
  destruct (parse_simple_escape e); [apply K; lia|]. case_decide; [|done].
  destruct s as [|h1 [|h2 [|h3 [|h4 s]]]]; try done. cbn [length] in *. destruct (code_point _); [|done]. apply K; lia.
Qed.

Lemma string_shortens : shortens string_at.
Proof.
  intros s v r. unfold string_at. destruct (chars_of_string s) as [[t r']|] eqn:E; [|done].
  destruct (overruns _); [done|]. intros [= _ <-]. by apply (chars_shorten (S (length s)) _ _ _ (Nat.lt_succ_diag_r _) E).
Qed.

Lemma number_shorter s x r : number_at s = Some (x, r) -> (length r < length s)%nat.
Proof.
  unfold number_at. destruct (strtod_text s) as [y e]. destruct (json_number _) eqn:J; [|done]. intros [= _ <-].
  destruct (decide (length e < length s)%nat) as [|D]; [done|]. replace (length s - length e)%nat with 0%nat in J by lia. done.
Qed.

Lemma word_shortens {A : Type} w (v : A) : w <> [] -> shortens (word_at w v).
Proof.
  intros Hw s v' r. unfold word_at. case_decide as D; [|done]. intros [= _ <-]. rewrite length_drop.
  apply (f_equal length) in D. rewrite length_take in D.
  assert (0 < length w)%nat by (destruct w; [done|simpl; lia]). lia.
Qed.

Lemma separator_shortens close : shortens (separator_at close).
Proof.
  intros s v r. unfold separator_at. pose proof (ws_length s) as L. destruct (ws s) as [|x s']; [done|]. simpl in L.
  case_decide.
  - pose proof (ws_length s') as L2. destruct (ws s') as [|y s2]; [done|]. case_decide; [done|]. intros [= _ <-]. lia.
  - case_decide; [|done]. intros [= _ <-]. lia.
Qed.

Lemma elements_shorten {A : Type} (element : bytes -> parsed A) close n : shortens element -> shortens (elements_at element close n).
Proof.
  intros He. induction n as [|n IH]; intros s v r; [done|]. cbn [elements_at].
  destruct (element s) as [| |x r1] eqn:E1; [done..|]. cbn [pbind]. apply He in E1.
  destruct (separator_at close r1) as [| |more r2] eqn:E2; [done..|]. cbn [pbind]. apply separator_shortens in E2.
  destruct more; [|intros [= _ <-]; lia]. destruct (elements_at _ _ _ _) as [| |vs r3] eqn:E3; [done..|]. apply IH in E3. intros [= _ <-]. lia.
Qed.

Lemma member_shortens value : shortens value -> shortens (member_at value).
Proof.
  intros Hv s v r. unfold member_at. pose proof (ws_length s) as L. destruct (ws s) as [|x s']; [done|]. case_decide; [|done].
  destruct (string_at s') as [| |k r1] eqn:E1; [done..|]. apply string_shortens in E1. cbn [pbind].
  pose proof (ws_length r1) as L2. destruct (ws r1) as [|y r2]; [done|]. case_decide; [|done].
  destruct (value r2) as [| |w r3] eqn:E3; [done..|]. apply Hv in E3. intros [= _ <-]. simpl in *. lia.
Qed.

Lemma elements_or_none_shorten {A : Type} (element : bytes -> parsed A) close n s v r :
  shortens element -> elements_or_none element close n s = PYes v r -> (length r < S (length s))%nat.
Proof.
  intros He. unfold elements_or_none. pose proof (ws_length s) as L. destruct (ws s) as [|x s'] eqn:E.
  - intros H. apply (elements_shorten _ _ _ He) in H. simpl in H. lia.
  - case_decide; [intros [= _ <-]; simpl in L; lia|]. intros E2%(elements_shorten _ _ _ He). lia.
Qed.

Lemma value_shortens n : shortens (value_at n).
Proof.
  induction n as [|n IH]; intros s v r; [done|]. cbn [value_at]. pose proof (ws_length s) as L. destruct (ws s) as [|x s']; [done|].
  case_decide; [intros E%word_shortens; [lia|done]|]. case_decide; [intros E%word_shortens; [lia|done]|].
  case_decide; [intros E%word_shortens; [lia|done]|]. simpl in L. case_decide.
  { unfold pmap. destruct (elements_or_none _ _ _ _) eqn:E; [done..|]. intros [= _ <-]. apply elements_or_none_shorten in E; [lia|done]. }
  case_decide.
  { unfold pmap. destruct (elements_or_none _ _ _ _) eqn:E; [done..|]. intros [= _ <-]. apply elements_or_none_shorten in E; [lia|by apply member_shortens]. }
  case_decide.
  { unfold pmap. destruct (string_at s') eqn:E; [done..|]. intros [= _ <-]. apply string_shortens in E. lia. }
  case_decide; [|done]. destruct (number_at _) as [[y r']|] eqn:E; [|done]. intros [= _ <-]. apply number_shorter in E. simpl in E. lia.
Qed.

(** ** Enough fuel *)

Lemma elements_fuel {A : Type} (f g : bytes -> parsed A) close : shortens g ->
  forall n m s, (forall s', (length s' <= length s)%nat -> f s' = g s') -> (length s < n)%nat -> (length s < m)%nat ->
  elements_at f close n s = elements_at g close m s.
Proof.
  intros Hg. induction n as [|n IH]; intros m s Hs Hn Hm; [lia|]. destruct m as [|m]; [lia|]. cbn [elements_at].
  rewrite (Hs s) by lia. destruct (g s) as [| |x r1] eqn:E1; [done..|]. cbn [pbind]. apply Hg in E1.
  destruct (separator_at close r1) as [| |more r2] eqn:E2; [done..|]. apply separator_shortens in E2. cbn [pbind].
  destruct more; [|done]. rewrite (IH m r2); [done| |lia|lia]. intros s' ?. apply Hs. lia.
Qed.

Lemma value_fuel n m s : (length s < n)%nat -> (length s < m)%nat -> value_at n s = value_at m s.
Proof.
  revert m s. induction n as [|n IH]; intros m s Hn Hm; [lia|]. destruct m as [|m]; [lia|]. cbn [value_at].
  pose proof (ws_length s) as L. destruct (ws s) as [|x s']; [done|]. simpl in L.
  assert (El : forall (A : Type) (f g : bytes -> parsed A) close, shortens g -> (forall t, (length t < n)%nat -> (length t < m)%nat -> f t = g t) ->
    elements_or_none f close n s' = elements_or_none g close m s').
  { intros A f g close Hg H. unfold elements_or_none. pose proof (ws_length s') as L'. destruct (ws s') as [|y t].
    - apply elements_fuel; [done| |simpl; lia|simpl; lia]. intros t ?. simpl in *. apply H; lia.
    - case_decide; [done|]. apply elements_fuel; [done| |lia|lia]. intros t' ?. apply H; lia. }
  rewrite (El _ (value_at n) (value_at m)) by (apply value_shortens || (intros; by apply IH)).
  rewrite (El _ (member_at (value_at n)) (member_at (value_at m))); [done|apply member_shortens, value_shortens|].
  intros t H1 H2. unfold member_at. pose proof (ws_length t) as Lt. destruct (ws t) as [|y t']; [done|]. case_decide; [|done].
  destruct (string_at t') as [| |k r1] eqn:E; [done..|]. apply string_shortens in E. cbn [pbind]. pose proof (ws_length r1) as Lr.
  destruct (ws r1) as [|z r2]; [done|]. case_decide; [|done]. simpl in *. by rewrite (IH m r2) by lia.
Qed.
