(* ===== verification/JsonMemory.v ===== *)
(** * The memory of a JSON document

    What a document owns: its handle, the values on its chain and the blocks of their
    payloads.  The lemmas say what allocating a value, growing and changing a payload
    and destroying the chain do to the memory, for every allocator that meets its
    contract, and whether a request was refused. *)

From Stdlib Require Import ZArith Lia Ascii String SpecFloat.
From stdpp Require Import base tactics option list numbers gmap sets.
From S2P Require Import Prelude Mem Result Allocator Links Text Arrays JsonNumber Json.
Open Scope Z_scope.

(** ** Refused requests *)

(** An allocator whose state tells whether every request so far was granted. *)
Class Watched {C : Type} (a : zenit_allocator_t C) : Type := {
  granted : C -> Prop;
  granted_alloc n c b c' : alloc_fn a n c = (b, c') -> granted c' -> b <> None /\ granted c;
  granted_realloc f p n c b c' : realloc_fn a = Some f -> f p n c = (b, c') -> granted c' -> b <> None /\ granted c;
  granted_free x c : granted (free_fn a x c) -> granted c }.

(** Any allocator with a flag that is set when it refuses a request. *)
Section Watching.
Context {C : Type} (a : zenit_allocator_t C).

Definition note (f : bool) (r : option block * C) : option block * (C * bool) :=
  (r.1, (r.2, f || match r.1 with None => true | Some _ => false end)).

Definition watched : zenit_allocator_t (C * bool) :=
  mk_allocator (fun n s => note s.2 (alloc_fn a n s.1))
    ((fun f p n s => note s.2 (f p n s.1)) <$> realloc_fn a)
    (fun x s => (free_fn a x s.1, s.2)).

#[export] Program Instance watched_spec {SP : AllocSpec a} : AllocSpec watched := {| live s := live s.1 |}.
Next Obligation.
  intros SP n [c f] b [c' f'] E. simpl in E. unfold note in E. injection E as E1 E2 E3. simpl in *.
  apply (alloc_some n). rewrite <- E1, <- E2. by destruct (alloc_fn a n c).
Qed.
Next Obligation.
  intros SP n [c f] [c' f'] E. simpl in E. unfold note in E. injection E as E1 E2 E3. simpl in *.
  apply (alloc_none n). rewrite <- E1, <- E2. by destruct (alloc_fn a n c).
Qed.
Next Obligation.
  intros SP g p n [c f] b [c' f'] G P E. simpl in G. destruct (realloc_fn a) as [h|] eqn:R; [|done]. simpl in G. injection G as <-.
  unfold note in E. simpl in E. injection E as E1 E2 E3. simpl in *. eapply (realloc_some h); [done|done|].
  rewrite <- E1, <- E2. by destruct (h p n c).
Qed.
Next Obligation.
  intros SP g p n [c f] [c' f'] G E. simpl in G. destruct (realloc_fn a) as [h|] eqn:R; [|done]. simpl in G. injection G as <-.
  unfold note in E. simpl in E. injection E as E1 E2 E3. simpl in *. eapply (realloc_none h p n); [done|].
  rewrite <- E1, <- E2. by destruct (h p n c).
Qed.
Next Obligation. intros SP x [c f] H. by apply free_some. Qed.
Next Obligation. intros SP [c f]. apply free_none. Qed.

#[export] Program Instance watched_watched : Watched watched := {| granted s := s.2 = false |}.
Next Obligation.
  intros n [c f] b [c' f'] E G. simpl in *. subst f'. unfold note in E. injection E as E1 E2 E3.
  apply orb_false_elim in E3 as [-> E3]. split; [|done]. rewrite <- E1. by destruct (alloc_fn a n c).1.
Qed.
Next Obligation.
  intros g p n [c f] b [c' f'] R E G. simpl in *. destruct (realloc_fn a) as [h|]; [|done]. simpl in R. injection R as <-.
  subst f'. unfold note in E. injection E as E1 E2 E3. apply orb_false_elim in E3 as [-> E3]. split; [|done]. rewrite <- E1.
  by destruct (h p n c).1.
Qed.
Next Obligation. done. Qed.
End Watching.

(** An allocator of which nothing is known. *)
#[refine] Definition unwatched {C : Type} (a : zenit_allocator_t C) : Watched a := {| granted _ := False |}.
Proof. all: done. Defined.

Section Requests.
Context {C : Type} (a : zenit_allocator_t C) {W : Watched a}.
Implicit Types (c : C).

Lemma realloc_granted p o n c r c' : zenit_allocator_realloc a p o n c = Ret (r, c') -> granted c' -> r <> None /\ granted c.
Proof.
  unfold zenit_allocator_realloc. destruct (realloc_fn a) as [f|] eqn:F; [intros [= E]; by eapply granted_realloc|].
  destruct (alloc_fn a n c) as [[b|] c1] eqn:E.
  - destruct p as [p|].
    + destruct (rd _ _ _); [|done|done]. cbn [obind]. destruct (pwr _ _ _) as [q| |] eqn:Q; [|done|done]. cbn [obind]. intros [= <- <-] G.
      apply granted_free in G. split; [|by eapply granted_alloc]. cbn [pwr] in Q. destruct (wr _ _ _); [|done|done]. by injection Q as <-.
    + intros [= <- <-] G. split; [done|]. by eapply granted_alloc.
  - intros [= <- <-]. by eapply granted_alloc.
Qed.

Lemma alloc_zero_granted k n c r c' : zenit_allocator_alloc_zero a k n c = Ret (r, c') -> granted c' -> r <> None /\ granted c.
Proof.
  unfold zenit_allocator_alloc_zero. destruct (alloc_fn a _ c) as [[b|] c1] eqn:E.
  - destruct (pmemset _ _ _ _) as [p| |] eqn:P; [|done|done]. intros [= <- <-] G. split; [|by eapply granted_alloc].
    unfold pmemset, pwr in P. case_decide; [|done]. destruct (wr _ _ _); [|done|done]. by injection P as <-.
  - intros [= <- <-]. by eapply granted_alloc.
Qed.

Lemma trealloc_granted {A : Type} (p : option (tarr A)) o n sz junk c r c' :
  trealloc a p o n sz junk c = Ret (r, c') -> granted c' -> r <> None /\ granted c.
Proof.
  unfold trealloc. destruct (zenit_allocator_realloc _ _ _ _ _) as [[b c1]| |] eqn:E; [|done|done]. cbn [obind]. intros [= <- <-] G.
  destruct (realloc_granted _ _ _ _ _ _ E G) as [Hb ?]. by destruct b.
Qed.

Lemma talloc_zero_granted {A : Type} n sz (zero : A) c r c' :
  talloc_zero a n sz zero c = Ret (r, c') -> granted c' -> r <> None /\ granted c.
Proof.
  unfold talloc_zero. destruct (zenit_allocator_alloc_zero _ _ _ _) as [[b c1]| |] eqn:E; [|done|done]. cbn [obind]. intros [= <- <-] G.
  destruct (alloc_zero_granted _ _ _ _ _ E G) as [Hb ?]. by destruct b.
Qed.
End Requests.

(** ** What a value owns *)

Definition key_addrs (ks : list (option block)) : list addr := ks ≫= (fun k => opt_addr (paddr k)).

Definition payload_blocks (d : payload) : list addr :=
  match d with
  | JString s => opt_addr (paddr s)
  | JArray items _ _ => opt_addr (taddr items)
  | JObject keys values count _ => opt_addr (taddr keys) ++ opt_addr (taddr values) ++ key_addrs (take (Z.to_nat count) (tdata keys))
  | _ => []
  end.

(** An array of [cap] pointers; none for capacity 0. *)
Record slots_ok {A : Type} (t : option (tarr A)) (cap : Z) : Prop := {
  so_cap : cap = 0 \/ 8 <= cap;
  so_null : t = None <-> cap = 0;
  so_data : zlen (tdata t) = cap;
  so_block : zlen (pbytes (ta_block <$> t)) = zlen (tdata t) * SIZEOF_POINTER;
  so_max : cap * SIZEOF_POINTER <= PTRDIFF_MAX }.

Definition payload_ok (d : payload) : Prop :=
  match d with
  | JArray items count cap => slots_ok items cap /\ 0 <= count <= cap
  | JObject keys values count cap =>
      slots_ok keys cap /\ slots_ok values cap /\ 0 <= count <= cap /\
      Forall (fun k => k <> None) (take (Z.to_nat count) (tdata keys))
  | _ => True
  end.

Definition blocks (m : store) (ps : list addr) : list addr :=
  ps ≫= (fun x => match m !! x with Some v => payload_blocks (v_data v) | None => [] end).

Lemma blocks_ext m m' ps :
  (forall x, x ∈ ps -> v_data <$> m' !! x = v_data <$> m !! x) -> blocks m' ps = blocks m ps.
Proof.
  unfold blocks. induction ps as [|x ps IH]; intros H; simpl; [done|]. f_equal; [|apply IH; intros y Hy; apply H; by right].
  specialize (H x ltac:(by left)). destruct (m' !! x), (m !! x); simplify_eq/=; congruence.
Qed.

Lemma blocks_app m ps1 ps2 : blocks m (ps1 ++ ps2) = blocks m ps1 ++ blocks m ps2.
Proof. apply bind_app. Qed.

Lemma blocks_cons m x ps : blocks m (x :: ps) = match m !! x with Some v => payload_blocks (v_data v) | None => [] end ++ blocks m ps.
Proof. done. Qed.

(** The blocks of one value among those of all. *)
Lemma blocks_split m ps x v : NoDup ps -> x ∈ ps -> m !! x = Some v ->
  exists R, blocks m ps ≡ₚ payload_blocks (v_data v) ++ R /\
    forall v', blocks (<[x := v']> m) ps ≡ₚ payload_blocks (v_data v') ++ R.
Proof.
  intros ND (ps1 & ps2 & ->)%list_elem_of_split E. exists (blocks m ps1 ++ blocks m ps2).
  apply NoDup_app in ND as (_ & N1 & N2). apply NoDup_cons in N2 as [N2 _].
  assert (F : forall v', blocks (<[x := v']> m) ps1 = blocks m ps1 /\ blocks (<[x := v']> m) ps2 = blocks m ps2).
  { intros v'. split; apply blocks_ext; intros y Hy; rewrite lookup_insert_ne; try done; intros <-; [apply (N1 x Hy); by left|done]. }
  split.
  - rewrite blocks_app, blocks_cons, E. apply Permutation_app_swap_app.
  - intros v'. rewrite blocks_app, blocks_cons, lookup_insert_eq. destruct (F v') as [F1 F2]. rewrite F1, F2. apply Permutation_app_swap_app.
Qed.

(** ** Documents *)

Section Documents.
Context {C : Type} (a : zenit_allocator_t C) {SP : AllocSpec a} {W : Watched a} (junk : option addr).
Implicit Types (c : C) (m : store) (doc : zenit_json_t) (ps E : list addr).

(** The document [doc] with the values [ps], in the order of its chain; [E] are further
    blocks that are in use, [m0] the values there were before. *)
Record doc_inv E c0 m0 doc m c ps : Prop := {
  d_frame x : x ∉ ps -> m !! x = m0 !! x;
  d_nodes x : x ∈ ps -> exists v, m !! x = Some v /\ payload_ok (v_data v);
  d_trail : trail (fun x => v_next <$> m !! x) ps None;
  d_head : j_head doc = head ps;
  d_tail : j_tail doc = last ps;
  d_owns : owns a c0 c (E ++ j_self doc :: ps ++ blocks m ps) }.

Lemma d_nodup E c0 m0 doc m c ps : doc_inv E c0 m0 doc m c ps -> NoDup ps.
Proof.
  intros D. destruct (d_owns _ _ _ _ _ _ _ D) as (ND & _ & _). apply NoDup_app in ND as (_ & _ & ND).
  apply NoDup_cons in ND as [_ ND]. by apply NoDup_app in ND as (ND & _ & _).
Qed.

Lemma doc_inv_mem E E' c0 m0 doc m c c' ps :
  doc_inv E c0 m0 doc m c ps -> (forall R, owns a c0 c (E ++ R) -> owns a c0 c' (E' ++ R)) -> doc_inv E' c0 m0 doc m c' ps.
Proof. intros [] H. constructor; try done. by apply H. Qed.

Lemma doc_inv_same E c0 m0 doc m c c' ps : doc_inv E c0 m0 doc m c ps -> live c' = live c -> doc_inv E c0 m0 doc m c' ps.
Proof. intros D H. eapply doc_inv_mem; [exact D|]. intros R O. by eapply owns_same. Qed.

Lemma doc_inv_free E c0 m0 doc m c ps x : doc_inv (x :: E) c0 m0 doc m c ps -> doc_inv E c0 m0 doc m (free_fn a (Some x) c) ps.
Proof. intros D. eapply doc_inv_mem; [exact D|]. intros R O. by apply owns_free. Qed.

(** One value taken out of a document, and put back with another payload. *)
Lemma doc_focus E c0 m0 doc m c ps x v :
  doc_inv E c0 m0 doc m c ps -> x ∈ ps -> m !! x = Some v ->
  payload_ok (v_data v) /\ exists B,
    owns a c0 c (payload_blocks (v_data v) ++ E ++ j_self doc :: ps ++ B) /\
    (forall c', owns a c0 c' (payload_blocks (v_data v) ++ E ++ j_self doc :: ps ++ B) -> doc_inv E c0 m0 doc m c' ps) /\
    (forall c' E' d, payload_ok d -> owns a c0 c' (payload_blocks d ++ E' ++ j_self doc :: ps ++ B) ->
       doc_inv E' c0 m0 doc (<[x := set_data d v]> m) c' ps).
Proof.
  intros D Hx Hv. pose proof (d_nodup _ _ _ _ _ _ _ D) as ND. destruct (blocks_split m ps x v ND Hx Hv) as (B & B1 & B2).
  destruct D as [Df Dn Dt Dh Dl Do]. split; [destruct (Dn x Hx) as (v' & E' & ?); by simplify_eq|]. exists B.
  assert (P : forall E' L, payload_blocks L ++ E' ++ j_self doc :: ps ++ B ≡ₚ E' ++ j_self doc :: ps ++ payload_blocks L ++ B)
    by (intros; solve_Permutation).
  split; [|split].
  - eapply owns_perm; [exact Do|]. by rewrite B1, P.
  - intros c' O. constructor; try done. eapply owns_perm; [exact O|]. by rewrite B1, P.
  - intros c' E' d Hd O. constructor; try done.
    + intros y Hy. rewrite lookup_insert_ne by congruence. by apply Df.
    + intros y Hy. destruct (decide (y = x)) as [->|N]; [rewrite lookup_insert_eq; by eexists|]. rewrite lookup_insert_ne by done. by apply Dn.
    + eapply trail_ext; [|exact Dt]. intros y _. destruct (decide (y = x)) as [->|N]; [by rewrite lookup_insert_eq, Hv|by rewrite lookup_insert_ne].
    + eapply owns_perm; [exact O|]. by rewrite (B2 (set_data d v)), P.
Qed.

Lemma value_alloc_spec E c0 m0 doc m c ps :
  doc_inv E c0 m0 doc m c ps ->
  exists r doc' m' c', value_alloc a doc m c = Ret (r, doc', m', c') /\ (granted c' -> granted c) /\
    j_self doc' = j_self doc /\ j_root doc' = j_root doc /\
    match r with
    | None => doc_inv E c0 m0 doc' m' c' ps /\ ~ granted c'
    | Some x => doc_inv E c0 m0 doc' m' c' (ps ++ [x]) /\ x ∉ ps /\ m' !! x = Some (mk_value JNull None) /\
        forall y, y <> x -> v_data <$> m' !! y = v_data <$> m !! y
    end.
Proof.
  intros D. unfold value_alloc. destruct (alloc_fn a SIZEOF_VALUE c) as [[b|] c1] eqn:A.
  2:{ exists None, doc, m, c1. split; [done|]. split; [by intros G; apply (granted_alloc _ _ _ _ A G)|]. split; [done|]. split; [done|].
      split; [|by intros G; destruct (granted_alloc _ _ _ _ A G)]. eapply doc_inv_same; [exact D|]. by eapply alloc_none. }
  pose proof (d_owns _ _ _ _ _ _ _ D) as O. pose proof (owns_alloc a _ _ _ _ _ _ O A) as O1. set (x := b_addr b) in *.
  assert (Hx : x ∉ ps). { destruct O1 as (ND & _). apply NoDup_cons in ND as [N _]. set_solver. }
  assert (G : granted c1 -> granted c) by (intros G; apply (granted_alloc _ _ _ _ A G)).
  pose proof (d_nodup _ _ _ _ _ _ _ D) as ND.
  set (m1 := <[x := mk_value JNull None]> m).
  assert (K : forall m', (forall y, y <> x -> v_data <$> m' !! y = v_data <$> m !! y) -> m' !! x = Some (mk_value JNull None) ->
    (forall y, y ∉ ps ++ [x] -> m' !! y = m !! y) -> trail (fun y => v_next <$> m' !! y) (ps ++ [x]) None ->
    forall hd, hd = head (ps ++ [x]) -> doc_inv E c0 m0 (mk_json (j_self doc) (j_root doc) hd (Some x)) m' c1 (ps ++ [x])).
  { intros m' H1 H2 H3 H4 hd Hhd. destruct D as [Df Dn Dt Dh Dl Do]. constructor; simpl; [| |done|done|by rewrite last_snoc|].
    - intros y Hy. rewrite H3 by done. apply Df. set_solver.
    - intros y [Hy|Hy]%elem_of_app.
      + assert (y <> x) as N by congruence. destruct (Dn y Hy) as (v & E1 & E2). specialize (H1 y N). rewrite E1 in H1. simpl in H1.
        destruct (m' !! y) as [v'|]; [|done]. simplify_eq/=. exists v'. split; [done|]. by rewrite H1.
      + apply list_elem_of_singleton in Hy as ->. by eexists.
    - eapply owns_perm; [exact O1|]. rewrite blocks_app, blocks_cons, H2. simpl. rewrite app_nil_r.
      rewrite (blocks_ext m m') by (intros y Hy; apply H1; congruence). rewrite Permutation_middle. apply Permutation_app_head.
      rewrite perm_swap. apply perm_skip. rewrite <- app_assoc. apply Permutation_middle. }
  destruct (j_tail doc) as [t|] eqn:T.
  - pose proof (d_tail _ _ _ _ _ _ _ D) as Dl. rewrite T in Dl. assert (Ht : t ∈ ps) by (by apply last_Some_elem_of).
    destruct (d_nodes _ _ _ _ _ _ _ D t Ht) as (v & Ev & _). assert (N : t <> x) by congruence.
    assert (E1 : m1 !! t = Some v) by (unfold m1; by rewrite lookup_insert_ne). rewrite (supd_Some _ _ _ _ E1). cbn [obind].
    eexists _, _, _, _. split; [done|]. split; [done|]. split; [done|]. split; [done|].
    assert (X1 : <[t := set_next (Some x) v]> m1 !! x = Some (mk_value JNull None)) by (rewrite lookup_insert_ne by done; apply lookup_insert_eq).
    assert (X2 : forall y, y <> x -> v_data <$> <[t := set_next (Some x) v]> m1 !! y = v_data <$> m !! y).
    { intros y Hy. destruct (decide (y = t)) as [->|N']; [by rewrite lookup_insert_eq, Ev|]. rewrite lookup_insert_ne by done. unfold m1. by rewrite lookup_insert_ne. }
    split; [|split; [done|split; [done|exact X2]]]. apply K; [done|done| | |].
    + intros y Hy. rewrite lookup_insert_ne by (intros <-; apply Hy; set_solver). unfold m1. rewrite lookup_insert_ne; [done|]. intros <-. apply Hy. set_solver.
    + eapply (trail_insert (fun y => v_next <$> m !! y) _ ps x [] None); rewrite ?app_nil_r; [done|apply D| | |].
      * intros p Hp Hl. rewrite lookup_insert_ne by congruence. unfold m1. rewrite lookup_insert_ne; [done|]. intros <-. done.
      * intros p Hp. rewrite <- Dl in Hp. injection Hp as <-. by rewrite lookup_insert_eq.
      * by rewrite X1.
    + rewrite (d_head _ _ _ _ _ _ _ D). by destruct ps.
  - pose proof (d_tail _ _ _ _ _ _ _ D) as Dl. rewrite T in Dl. symmetry in Dl. apply last_None in Dl. subst ps.
    eexists _, _, _, _. split; [done|]. split; [done|]. split; [done|]. split; [done|].
    assert (X2 : forall y, y <> x -> v_data <$> m1 !! y = v_data <$> m !! y) by (intros y Hy; unfold m1; by rewrite lookup_insert_ne).
    split; [|split; [done|split; [apply lookup_insert_eq|exact X2]]]. apply K; [done|apply lookup_insert_eq| | |done].
    + intros y Hy. unfold m1. rewrite lookup_insert_ne; [done|]. intros <-. apply Hy. set_solver.
    + simpl. split; [|done]. unfold m1. by rewrite lookup_insert_eq.
Qed.

(** ** Growth *)

(** The array after growth: the old elements and room for one more. *)
Definition grown {A : Type} (t : option (tarr A)) (cap : Z) (t' : option (tarr A)) (cap' : Z) : Prop :=
  slots_ok t' cap' /\ cap < cap' /\ take (Z.to_nat cap) (tdata t') = tdata t.

Definition next_cap (cap : Z) : Z := if decide (cap = 0) then 8 else u64 (cap + cap / 2).

Lemma next_cap_spec cap : cap = 0 \/ 8 <= cap -> cap * SIZEOF_POINTER <= PTRDIFF_MAX ->
  next_cap cap = (if decide (cap = 0) then 8 else cap + cap / 2) /\ cap < next_cap cap /\ 8 <= next_cap cap /\
  next_cap cap * SIZEOF_POINTER < two64.
Proof.
  unfold next_cap, SIZEOF_POINTER. intros H M. case_decide as D; [lia|].
  assert (cap / 2 <= cap) by (apply Z.div_le_upper_bound; lia). assert (1 <= cap / 2) by (apply Z.div_le_lower_bound; lia).
  assert (2 * (cap / 2) <= cap) by (apply Z.mul_div_le; lia). rewrite u64_small by lia. lia.
Qed.

Lemma slots_replicate {A : Type} b n (x : A) : 8 <= n -> n * SIZEOF_POINTER <= PTRDIFF_MAX -> zlen (b_data b) = n * SIZEOF_POINTER ->
  slots_ok (Some (TArr b (replicate (Z.to_nat n) x))) n.
Proof.
  intros H M L. constructor; simpl; [by right|split; [done|lia]| | |done].
  - rewrite zlen_replicate. lia.
  - rewrite zlen_replicate, L. lia.
Qed.

Lemma slots_empty {A : Type} : slots_ok (None : option (tarr A)) 0.
Proof. constructor; (done || by left). Qed.

Lemma slots_null {A : Type} (t : option (tarr A)) : slots_ok t 0 -> t = None.
Proof. intros H. by apply (so_null _ _ H). Qed.

Lemma slots_some {A : Type} (t : option (tarr A)) cap : slots_ok t cap -> cap <> 0 -> exists u, t = Some u.
Proof. intros H N. destruct t as [u|]; [by exists u|]. exfalso. apply N. by apply (so_null _ _ H). Qed.

Lemma array_grow_spec c0 c items cap R :
  slots_ok items cap -> owns a c0 c (opt_addr (taddr items) ++ R) ->
  exists r c', array_grow a junk items cap c = Ret (r, c') /\ (granted c' -> granted c) /\
    match r with
    | None => owns a c0 c' (opt_addr (taddr items) ++ R) /\ ~ granted c'
    | Some (items', cap') => owns a c0 c' (opt_addr (taddr items') ++ R) /\ grown items cap items' cap'
    end.
Proof.
  intros S O. unfold array_grow. fold (next_cap cap).
  destruct (next_cap_spec cap (so_cap _ _ S) (so_max _ _ S)) as (_ & Hlt & H8 & Hw).
  assert (u64 (next_cap cap * SIZEOF_POINTER) = next_cap cap * SIZEOF_POINTER) as -> by (apply u64_small; unfold SIZEOF_POINTER in *; lia).
  destruct (decide (cap = 0)) as [->|N].
  - rewrite (slots_null _ S) in *. simpl in O. destruct (alloc_fn a _ c) as [[b|] c1] eqn:A; cbn [obind fmap option_fmap option_map].
    + eexists _, _. split; [done|]. split; [intros G; apply (granted_alloc _ _ _ _ A G)|].
      split; [simpl; by eapply owns_alloc|]. destruct (alloc_some _ _ _ _ A) as (L & M & _). rewrite Z.div_mul by done.
      split; [by apply slots_replicate|]. done.
    + eexists _, _. split; [done|]. split; [intros G; apply (granted_alloc _ _ _ _ A G)|].
      split; [eapply owns_same; [exact O|]; by eapply alloc_none|]. intros G. by destruct (granted_alloc _ _ _ _ A G).
  - destruct (slots_some _ _ S N) as [u ->].
    assert (u64 (cap * SIZEOF_POINTER) = cap * SIZEOF_POINTER) as -> by (apply u64_small; pose proof (so_max _ _ S); pose proof (so_cap _ _ S); unfold SIZEOF_POINTER in *; lia).
    pose proof (so_cap _ _ S). pose proof (so_data _ _ S) as Sd.
    destruct (trealloc_cases a (Some u) cap (next_cap cap) SIZEOF_POINTER junk c c0 R O) as (r & c1 & E & Hr); [done|lia|lia|apply S|].
    rewrite E. cbn [obind]. pose proof (trealloc_granted a _ _ _ _ _ _ _ _ E) as G. destruct r as [t|].
    + eexists _, _. split; [done|]. split; [intros G'; apply (G G')|]. destruct Hr as (O' & L & Lb & M & T). split; [done|].
      split; [|split; [done|]].
      * constructor; simpl; [by right|split; [done|lia]|done|by rewrite L|done].
      * simpl. rewrite T. apply take_ge. simpl in Sd. unfold zlen in Sd. lia.
    + eexists _, _. split; [done|]. split; [intros G'; apply (G G')|]. split; [done|]. intros G'. by destruct (G G').
Qed.

(** The old elements copied and their block freed. *)
Lemma move_array_spec {A : Type} c0 c (new : tarr A) (old : option (tarr A)) cap cap' x R :
  slots_ok old cap -> slots_ok (Some new) cap' -> cap < cap' -> ta_data new = replicate (Z.to_nat cap') x ->
  owns a c0 c (opt_addr (taddr old) ++ R) ->
  exists t c', move_array a (Some new) old (cap * SIZEOF_POINTER) c = Ret (t, c') /\ (granted c' -> granted c) /\ owns a c0 c' R /\
    grown old cap t cap' /\ taddr t = Some (b_addr (ta_block new)).
Proof.
  intros So Sn Hlt Hd O. unfold move_array. destruct old as [u|].
  - unfold tcopy. rewrite Z.div_mul by done. pose proof (so_data _ _ So) as Ho. pose proof (so_data _ _ Sn) as Hn. simpl in Ho, Hn. unfold zlen in Ho, Hn.
    rewrite decide_True by lia. cbn [obind]. eexists _, _. split; [done|]. split; [apply granted_free|]. split; [by apply (owns_free_opt a _ _ (Some _))|].
    split; [|done]. split; [|split; [done|]].
    + destruct Sn as [N1 N2 N3 N4 N5]. simpl in *. assert (L : zlen (take (Z.to_nat cap) (ta_data u) ++ drop (Z.to_nat cap) (ta_data new)) = zlen (ta_data new)).
      { rewrite zlen_app. unfold zlen in *. rewrite length_take, length_drop. lia. }
      constructor; simpl; [done|split; [done|by intros ?%N2]|lia|lia|done].
    + simpl. rewrite take_app_le by (rewrite length_take; lia). rewrite take_take, Nat.min_id. apply take_ge. lia.
  - assert (cap = 0) as -> by (by apply (so_null _ _ So)). eexists _, _. split; [done|]. split; [done|]. split; [done|]. by split.
Qed.

Lemma object_grow_spec c0 c keys values cap R :
  slots_ok keys cap -> slots_ok values cap -> owns a c0 c (opt_addr (taddr keys) ++ opt_addr (taddr values) ++ R) ->
  exists r c', object_grow a keys values cap c = Ret (r, c') /\ (granted c' -> granted c) /\
    match r with
    | None => owns a c0 c' (opt_addr (taddr keys) ++ opt_addr (taddr values) ++ R) /\ ~ granted c'
    | Some (keys', values', cap') => owns a c0 c' (opt_addr (taddr keys') ++ opt_addr (taddr values') ++ R) /\
        grown keys cap keys' cap' /\ grown values cap values' cap'
    end.
Proof.
  intros Sk Sv O. unfold object_grow. fold (next_cap cap).
  destruct (next_cap_spec cap (so_cap _ _ Sk) (so_max _ _ Sk)) as (_ & Hlt & H8 & Hw). set (n := next_cap cap) in *.
  assert (u64 (cap * SIZEOF_POINTER) = cap * SIZEOF_POINTER) as -> by (apply u64_small; pose proof (so_max _ _ Sk); pose proof (so_cap _ _ Sk); unfold SIZEOF_POINTER in *; lia).
  destruct (talloc_zero_cases a n SIZEOF_POINTER (None : option block) c c0 _ O) as (r1 & c1 & E1 & O1 & H1); [done|lia|lia|].
  rewrite E1. cbn [obind]. pose proof (talloc_zero_granted a _ _ _ _ _ _ E1) as G1.
  destruct r1 as [nk|]; [|eexists _, _; split; [done|]; split; [intros G; apply (G1 G)|]; split; [done|]; intros G; by destruct (G1 G)].
  destruct (talloc_zero_cases a n SIZEOF_POINTER (None : option addr) c1 c0 _ O1) as (r2 & c2 & E2 & O2 & H2); [done|lia|lia|].
  rewrite E2. cbn [obind]. pose proof (talloc_zero_granted a _ _ _ _ _ _ E2) as G2.
  destruct r2 as [nv|].
  2:{ eexists _, _. split; [done|]. split; [intros G%granted_free; apply G1, (G2 G)|]. split; [by apply owns_free|]. intros G%granted_free. by destruct (G2 G). }
  destruct H1 as (D1 & L1 & M1). destruct H2 as (D2 & L2 & M2). destruct nk as [bk dk]. destruct nv as [bv dv]. cbn [ta_data ta_block] in *. subst dk dv.
  assert (Nk : slots_ok (Some (TArr bk (replicate (Z.to_nat n) (None : option block)))) n) by by apply slots_replicate.
  assert (Nv : slots_ok (Some (TArr bv (replicate (Z.to_nat n) (None : option addr)))) n) by by apply slots_replicate.
  destruct (move_array_spec c0 c2 _ keys cap n None (opt_addr (taddr values) ++ b_addr bk :: b_addr bv :: R) Sk Nk Hlt eq_refl) as (tk & c3 & E3 & G3 & O3 & Gr3 & T3).
  { eapply owns_perm; [exact O2|]. cbn [taddr opt_addr fmap option_fmap option_map app ta_block]. solve_Permutation. }
  rewrite E3. cbn [obind].
  destruct (move_array_spec c0 c3 _ values cap n None (b_addr bk :: b_addr bv :: R) Sv Nv Hlt eq_refl O3) as (tv & c4 & E4 & G4 & O4 & Gr4 & T4).
  rewrite E4. cbn [obind]. eexists _, _. split; [done|]. split; [intros G; apply G1, (G2 (G3 (G4 G)))|]. split; [|done].
  rewrite T3, T4. done.
Qed.

(** ** Adding an element *)

Lemma slots_tset {A : Type} (t : option (tarr A)) cap i x : slots_ok t cap -> 0 <= i < cap ->
  exists t', tset t i x = Ret t' /\ slots_ok t' cap /\ taddr t' = taddr t /\ tdata t' = <[Z.to_nat i := x]> (tdata t).
Proof.
  intros S Hi. destruct (slots_some _ _ S) as [u ->]; [lia|]. destruct S as [S1 S2 S3 S4 S5]. simpl in *.
  rewrite aset_range by lia. cbn [obind]. eexists. split; [done|]. split; [|done].
  constructor; simpl; rewrite ?zlen_insert; try done. split; [done|]. by intros ?%S2.
Qed.

Lemma take_snoc {A : Type} (l : list A) (n : Z) x : 0 <= n < zlen l -> take (Z.to_nat (n + 1)) (<[Z.to_nat n := x]> l) = take (Z.to_nat n) l ++ [x].
Proof.
  intros Hn. replace (Z.to_nat (n + 1)) with (S (Z.to_nat n)) by lia. erewrite take_S_r by (apply list_lookup_insert_eq; unfold zlen in Hn; lia).
  by rewrite take_insert_ge by lia.
Qed.

Lemma grown_take {A : Type} (t t' : option (tarr A)) cap cap' count : grown t cap t' cap' -> 0 <= count <= cap -> zlen (tdata t) = cap ->
  take (Z.to_nat count) (tdata t') = take (Z.to_nat count) (tdata t).
Proof.
  intros (_ & _ & T) Hc Hl. rewrite <- T. rewrite take_take. f_equal. lia.
Qed.

Lemma array_room_spec c0 c items count cap R :
  slots_ok items cap -> 0 <= count <= cap -> owns a c0 c (opt_addr (taddr items) ++ R) ->
  exists r c', (if decide (cap <= count) then array_grow a junk items cap c else Ret (Some (items, cap), c)) = Ret (r, c') /\
    (granted c' -> granted c) /\
    match r with
    | None => owns a c0 c' (opt_addr (taddr items) ++ R) /\ ~ granted c'
    | Some (items', cap') => owns a c0 c' (opt_addr (taddr items') ++ R) /\ slots_ok items' cap' /\ count < cap' /\
        take (Z.to_nat count) (tdata items') = take (Z.to_nat count) (tdata items)
    end.
Proof.
  intros S Hc O. case_decide as D.
  - destruct (array_grow_spec c0 c items cap R S O) as (r & c' & E & G & H). exists r, c'. split; [done|]. split; [done|].
    destruct r as [[items' cap']|]; [|done]. destruct H as [O' Gr]. split; [done|]. pose proof Gr as (S' & Hlt & _).
    split; [done|]. split; [lia|]. eapply grown_take; [done|done|]. apply S.
  - exists (Some (items, cap)), c. split; [done|]. split; [done|]. split; [done|]. split; [done|]. split; [lia|done].
Qed.

Lemma object_room_spec c0 c keys values count cap R :
  slots_ok keys cap -> slots_ok values cap -> 0 <= count <= cap -> owns a c0 c (opt_addr (taddr keys) ++ opt_addr (taddr values) ++ R) ->
  exists r c', (if decide (cap <= count) then object_grow a keys values cap c else Ret (Some (keys, values, cap), c)) = Ret (r, c') /\
    (granted c' -> granted c) /\
    match r with
    | None => owns a c0 c' (opt_addr (taddr keys) ++ opt_addr (taddr values) ++ R) /\ ~ granted c'
    | Some (keys', values', cap') => owns a c0 c' (opt_addr (taddr keys') ++ opt_addr (taddr values') ++ R) /\
        slots_ok keys' cap' /\ slots_ok values' cap' /\ count < cap' /\
        take (Z.to_nat count) (tdata keys') = take (Z.to_nat count) (tdata keys) /\
        take (Z.to_nat count) (tdata values') = take (Z.to_nat count) (tdata values)
    end.
Proof.
  intros Sk Sv Hc O. case_decide as D.
  - destruct (object_grow_spec c0 c keys values cap R Sk Sv O) as (r & c' & E & G & H). exists r, c'. split; [done|]. split; [done|].
    destruct r as [[[keys' values'] cap']|]; [|done]. destruct H as (O' & Gk & Gv). split; [done|]. pose proof Gk as (Sk' & Hlt & _).
    pose proof Gv as (Sv' & _). split; [done|]. split; [done|]. split; [lia|]. split; eapply grown_take; try done; [apply Sk|apply Sv].
  - exists (Some (keys, values, cap)), c. split; [done|]. split; [done|]. split_and!; try done. lia.
Qed.

Lemma array_push_spec E c0 m0 doc m c ps x v items count cap e :
  doc_inv E c0 m0 doc m c ps -> x ∈ ps -> m !! x = Some v -> v_data v = JArray items count cap ->
  exists ok m' c', array_push a junk x e m c = Ret (ok, m', c') /\ (granted c' -> granted c) /\ doc_inv E c0 m0 doc m' c' ps /\
    if ok : bool then exists items' cap', m' = <[x := set_data (JArray items' (count + 1) cap') v]> m /\
      take (Z.to_nat (count + 1)) (tdata items') = take (Z.to_nat count) (tdata items) ++ [Some e]
    else m' = m /\ ~ granted c'.
Proof.
  intros D Hx Hv Hd. unfold array_push. rewrite (sget_Some _ _ _ Hv). cbn [obind].
  destruct (doc_focus _ _ _ _ _ _ _ _ _ D Hx Hv) as (Ok & B & O & Keep & Put). rewrite Hd in *. destruct Ok as [S Hc].
  destruct (array_room_spec c0 c items count cap _ S Hc O) as (r & c1 & E1 & G & H). rewrite E1. cbn [obind]. clear E1.
  destruct r as [[items' cap']|]; [|exists false, m, c1; split; [done|]; split; [done|]; split; [apply Keep, H|split; [done|apply H]]].
  destruct H as (O' & S' & Hlt & T). destruct (slots_tset items' cap' count (Some e) S') as (items2 & E2 & S2 & A2 & D2); [lia|].
  rewrite E2. cbn [obind]. rewrite (supd_Some _ _ _ _ Hv). cbn [obind]. rewrite u64_small by (pose proof (so_max _ _ S'); unfold SIZEOF_POINTER in *; lia).
  exists true. eexists _, c1. split; [done|]. split; [done|]. split.
  - apply Put; [simpl; split; [done|lia]|]. simpl. by rewrite A2.
  - exists items2, cap'. split; [done|]. rewrite D2, take_snoc; [by rewrite T|]. rewrite (so_data _ _ S'). lia.
Qed.

Lemma object_push_spec E c0 m0 doc m c ps x v keys values count cap (k : block) e :
  doc_inv (b_addr k :: E) c0 m0 doc m c ps -> x ∈ ps -> m !! x = Some v -> v_data v = JObject keys values count cap ->
  exists ok m' c', object_push a x k e m c = Ret (ok, m', c') /\ (granted c' -> granted c) /\
    if ok : bool then doc_inv E c0 m0 doc m' c' ps /\ exists keys' values' cap',
      m' = <[x := set_data (JObject keys' values' (count + 1) cap') v]> m /\
      take (Z.to_nat (count + 1)) (tdata keys') = take (Z.to_nat count) (tdata keys) ++ [Some k] /\
      take (Z.to_nat (count + 1)) (tdata values') = take (Z.to_nat count) (tdata values) ++ [Some e]
    else doc_inv (b_addr k :: E) c0 m0 doc m' c' ps /\ m' = m /\ ~ granted c'.
Proof.
  intros D Hx Hv Hd. unfold object_push. rewrite (sget_Some _ _ _ Hv). cbn [obind].
  destruct (doc_focus _ _ _ _ _ _ _ _ _ D Hx Hv) as (Ok & B & O & Keep & Put). rewrite Hd in *. destruct Ok as (Sk & Sv & Hc & Hk).
  simpl payload_blocks in O, Keep. rewrite <- !app_assoc in O. setoid_rewrite <- app_assoc in Keep. setoid_rewrite <- app_assoc in Keep.
  destruct (object_room_spec c0 c keys values count cap _ Sk Sv Hc O) as (r & c1 & E1 & G & H). rewrite E1. cbn [obind]. clear E1.
  destruct r as [[[keys' values'] cap']|]; [|exists false, m, c1; split; [done|]; split; [done|]; split; [apply Keep, H|split; [done|apply H]]].
  destruct H as (O' & Sk' & Sv' & Hlt & Tk & Tv).
  destruct (slots_tset keys' cap' count (Some k) Sk') as (keys2 & Ek & Sk2 & Ak & Dk); [lia|].
  destruct (slots_tset values' cap' count (Some e) Sv') as (values2 & Ev & Sv2 & Av & Dv); [lia|].
  rewrite Ek. cbn [obind]. rewrite Ev. cbn [obind]. rewrite (supd_Some _ _ _ _ Hv). cbn [obind].
  rewrite u64_small by (pose proof (so_max _ _ Sk'); unfold SIZEOF_POINTER in *; lia).
  assert (Tk' : take (Z.to_nat (count + 1)) (tdata keys2) = take (Z.to_nat count) (tdata keys) ++ [Some k])
    by (rewrite Dk, take_snoc; [by rewrite Tk|rewrite (so_data _ _ Sk'); lia]).
  exists true. eexists _, c1. split; [done|]. split; [done|]. split.
  - apply Put.
    + simpl. split; [done|]. split; [done|]. split; [lia|]. rewrite Tk'. apply Forall_app. split; [done|]. by constructor.
    + simpl. rewrite Ak, Av, Tk'. unfold key_addrs. rewrite bind_app. eapply owns_perm; [exact O'|]. simpl. solve_Permutation.
  - exists keys2, values2, cap'. split; [done|]. split; [done|]. rewrite Dv, take_snoc; [by rewrite Tv|]. rewrite (so_data _ _ Sv'). lia.
Qed.

(** ** Destruction *)

Lemma free_keys_spec keys : forall n i c c0 R,
  0 <= i -> i + Z.of_nat n <= zlen (tdata keys) -> zlen (tdata keys) < two64 ->
  owns a c0 c (key_addrs (take n (drop (Z.to_nat i) (tdata keys))) ++ R) ->
  exists c', free_keys a n i keys c = Ret c' /\ owns a c0 c' R /\ (granted c' -> granted c).
Proof.
  induction n as [|n IH]; intros i c c0 R Hi Hn Hb O; [by exists c|]. cbn [free_keys].
  destruct (lookup_lt_is_Some_2 (tdata keys) (Z.to_nat i)) as [k Ek]; [unfold zlen in *; lia|].
  rewrite (tget_lookup keys i k) by (done || (intros ->; simpl in *; unfold zlen in *; simpl in *; lia)). cbn [obind].
  rewrite (drop_S _ _ _ Ek) in O. cbn [take key_addrs] in O. rewrite u64_small by lia.
  replace (S (Z.to_nat i)) with (Z.to_nat (i + 1)) in O by lia.
  assert (O1 : owns a c0 (match k with Some b => free_fn a (Some (b_addr b)) c | None => c end) (key_addrs (take n (drop (Z.to_nat (i + 1)) (tdata keys))) ++ R)).
  { destruct k as [b|]; [apply owns_free|]; exact O. }
  destruct (IH (i + 1) _ c0 R ltac:(lia) ltac:(lia) Hb O1) as (c' & E & O' & G). exists c'. split; [done|]. split; [done|].
  intros G'. apply G in G'. destruct k; [by apply granted_free in G'|done].
Qed.

Lemma free_payload_spec v c c0 R : payload_ok (v_data v) -> owns a c0 c (payload_blocks (v_data v) ++ R) ->
  exists c', value_free_payload a v c = Ret c' /\ owns a c0 c' R /\ (granted c' -> granted c).
Proof.
  intros Ok O. unfold value_free_payload. destruct (v_data v) as [|b|x|s|items count cap|keys values count cap]; try by exists c.
  - eexists. split; [done|]. destruct s as [b|]; [|by split]. split; [by apply owns_free|apply granted_free].
  - eexists. split; [done|]. destruct items as [t|]; [|by split]. split; [by apply owns_free|apply granted_free].
  - destruct Ok as (Sk & Sv & Hc & Hk). simpl in O. unfold value_free_object.
    assert (exists c1, match keys with
        | Some t => let! c1 := free_keys a (Z.to_nat count) 0 keys c in Ret (free_fn a (Some (b_addr (ta_block t))) c1)
        | None => Ret c end = Ret c1 /\ owns a c0 c1 (opt_addr (taddr values) ++ R) /\ (granted c1 -> granted c)) as (c1 & E1 & O1 & G1).
    { destruct keys as [t|].
      - pose proof (so_max _ _ Sk). pose proof (so_data _ _ Sk) as Sd. unfold SIZEOF_POINTER in *.
        destruct (free_keys_spec (Some t) (Z.to_nat count) 0 c c0 (opt_addr (taddr (Some t)) ++ opt_addr (taddr values) ++ R)) as (c1 & -> & O1 & G1); [lia|lia|lia| |].
        { eapply owns_perm; [exact O|]. rewrite drop_0. solve_Permutation. }
        cbn [obind]. eexists. split; [done|]. split; [by apply owns_free|]. intros G%granted_free. auto.
      - exists c. split; [done|]. split; [|done]. simpl in O. rewrite take_nil in O. simpl in O. by rewrite app_nil_r in O. }
    rewrite E1. cbn [obind]. eexists. split; [done|]. destruct values as [t|]; [|by split]. split; [by apply owns_free|]. intros G%granted_free. auto.
Qed.

Lemma destroy_chain_spec : forall ps fuel m c c0 R,
  trail (fun x => v_next <$> m !! x) ps None -> (forall x, x ∈ ps -> exists v, m !! x = Some v /\ payload_ok (v_data v)) ->
  owns a c0 c (R ++ ps ++ blocks m ps) -> (length ps <= fuel)%nat ->
  exists m' c', value_destroy_chain a fuel (head ps) m c = Ret (m', c') /\ owns a c0 c' R /\ (granted c' -> granted c) /\
    forall x, m' !! x = if decide (x ∈ ps) then None else m !! x.
Proof.
  induction ps as [|x ps IH]; intros fuel m c c0 R T N O Hf.
  { exists m, c. destruct fuel; (split; [done|]); (split; [by rewrite app_nil_r in O|]); (split; [done|]); intros y; by rewrite decide_False by set_solver. }
  destruct fuel as [|fuel]; [simpl in Hf; lia|]. cbn [value_destroy_chain head].
  destruct (N x ltac:(by left)) as (v & Ev & Ok). rewrite (sget_Some _ _ _ Ev). cbn [obind].
  rewrite blocks_cons, Ev in O.
  assert (ND : NoDup (x :: ps)). { destruct O as (ND & _). apply NoDup_app in ND as (_ & _ & ND). by apply NoDup_app in ND as (ND & _). }
  apply NoDup_cons in ND as [Nx ND].
  destruct (free_payload_spec v c c0 (x :: R ++ ps ++ blocks m ps) Ok) as (c1 & -> & O1 & G1); [eapply owns_perm; [exact O|solve_Permutation]|].
  cbn [obind]. destruct T as [T1 T2]. rewrite Ev in T1. simpl in T1. injection T1 as T1. rewrite hd_or_None in T1. rewrite T1.
  apply owns_free in O1.
  assert (F : forall y, y ∈ ps -> delete x m !! y = m !! y) by (intros y Hy; rewrite lookup_delete_ne; [done|intros <-; done]).
  destruct (IH fuel (delete x m) (free_fn a (Some x) c1) c0 R) as (m' & c' & E & O' & G & H).
  - eapply trail_ext; [|exact T2]. intros y Hy. cbv beta. by rewrite F.
  - intros y Hy. rewrite F by done. apply N. by right.
  - rewrite (blocks_ext m (delete x m)); [done|]. intros y Hy. by rewrite F.
  - simpl in Hf. lia.
  - exists m', c'. split; [done|]. split; [done|]. split; [intros G'; by apply G1, (granted_free (Some x)), G|]. intros y. rewrite H.
    destruct (decide (y = x)) as [->|D]; [rewrite decide_False by done; rewrite decide_True by (by left); by rewrite lookup_delete_eq|].
    rewrite lookup_delete_ne by done. destruct (decide (y ∈ ps)) as [D'|D']; [by rewrite decide_True by (by right)|].
    rewrite decide_False; [done|]. intros [?|?]%elem_of_cons; done.
Qed.

Lemma json_destroy_spec E c0 m0 doc m c ps fuel : doc_inv E c0 m0 doc m c ps -> (length ps <= fuel)%nat ->
  exists m' c', zenit_json_destroy a fuel (Some doc) m c = Ret (m', c') /\ owns a c0 c' E /\ (granted c' -> granted c) /\
    forall x, m' !! x = if decide (x ∈ ps) then None else m0 !! x.
Proof.
  intros [Df Dn Dt Dh Dl Do] Hf. unfold zenit_json_destroy. rewrite Dh.
  destruct (destroy_chain_spec ps fuel m c c0 (j_self doc :: E) Dt Dn) as (m' & c' & -> & O & G & H); [|done|].
  { eapply owns_perm; [exact Do|]. simpl. symmetry. apply Permutation_middle. }
  cbn [obind]. eexists _, _. split; [done|]. split; [by apply owns_free|]. split; [intros G'%granted_free; auto|].
  intros x. rewrite H. case_decide; [done|by apply Df].
Qed.
End Documents.
