(* ===== verification/JsonTree.v ===== *)
(** * Values in the store

    [tree m x v N]: the node [x] stands for the value [v], and [N] are the nodes it is
    made of, each before those below it.  What a node stands for depends on the payloads
    of its nodes alone, not on the chain that links them. *)

From Stdlib Require Import ZArith Lia Ascii String SpecFloat.
From stdpp Require Import base tactics option list numbers gmap sets.
From S2P Require Import Prelude Mem Result Allocator Links Text Arrays JsonNumber Json JsonSpec.
Open Scope Z_scope.

Definition data_at (m : store) (x : addr) : option payload := v_data <$> m !! x.

(** The string [s] with its terminator at the start of the block. *)
Definition str_in (b : block) (s : bytes) : Prop := exists rest, b_data b = s ++ NUL :: rest.

Inductive tree (m : store) : addr -> json -> list addr -> Prop :=
| tree_null x : data_at m x = Some JNull -> tree m x VNull [x]
| tree_bool x b : data_at m x = Some (JBool (if b : bool then 1 else 0)) -> tree m x (VBool b) [x]
| tree_num x y : data_at m x = Some (JNumber y) -> tree m x (VNum y) [x]
| tree_str x b s : data_at m x = Some (JString (Some b)) -> str_in b s -> tree m x (VStr s) [x]
| tree_arr x items cap xs vs N :
    data_at m x = Some (JArray items (zlen xs) cap) -> take (length xs) (tdata items) = Some <$> xs ->
    trees m xs vs N -> tree m x (VArr vs) (x :: N)
| tree_obj x keys values cap bs xs kvs N :
    data_at m x = Some (JObject keys values (zlen xs) cap) ->
    take (length xs) (tdata keys) = Some <$> bs -> take (length xs) (tdata values) = Some <$> xs ->
    Forall2 (fun b kv => str_in b kv.1) bs kvs -> trees m xs kvs.*2 N -> tree m x (VObj kvs) (x :: N)
with trees (m : store) : list addr -> list json -> list addr -> Prop :=
| trees_nil : trees m [] [] []
| trees_cons x v N xs vs N' : tree m x v N -> trees m xs vs N' -> trees m (x :: xs) (v :: vs) (N ++ N').

Scheme tree_mut := Induction for tree Sort Prop
with trees_mut := Induction for trees Sort Prop.
Combined Scheme tree_trees_ind from tree_mut, trees_mut.

#[export] Hint Constructors tree trees : json.

Section Trees.
Implicit Types (m : store) (N : list addr).

(** The payloads of [N] are the same. *)
Definition keeps N m m' : Prop := forall y, y ∈ N -> data_at m' y = data_at m y.

Lemma keeps_app N1 N2 m m' : keeps (N1 ++ N2) m m' -> keeps N1 m m' /\ keeps N2 m m'.
Proof. intros H. split; intros y Hy; apply H; apply elem_of_app; auto. Qed.

Lemma keeps_trans N m1 m2 m3 : keeps N m1 m2 -> keeps N m2 m3 -> keeps N m1 m3.
Proof. intros H1 H2 y Hy. rewrite H2, H1; done. Qed.

Lemma keeps_insert N m x v : x ∉ N -> keeps N m (<[x := v]> m).
Proof. intros H y Hy. unfold data_at. rewrite lookup_insert_ne; [done|congruence]. Qed.

Lemma tree_frames m m' :
  (forall x v N, tree m x v N -> keeps N m m' -> tree m' x v N) /\
  (forall xs vs N, trees m xs vs N -> keeps N m m' -> trees m' xs vs N).
Proof.
  assert (K : forall (x : addr) N d, data_at m x = Some d -> keeps (x :: N) m m' -> data_at m' x = Some d)
    by (intros x N d E H; rewrite <- E; apply H; by left).
  apply (tree_trees_ind m (fun x v N _ => keeps N m m' -> tree m' x v N) (fun xs vs N _ => keeps N m m' -> trees m' xs vs N)); intros;
    try match goal with H : keeps (_ :: _) m m' |- _ => pose proof (keeps_app [_] _ _ _ H) as [_ ?] end;
    try match goal with H : keeps (_ ++ _) m m' |- _ => apply keeps_app in H as [? ?] end; eauto 6 with json.
Qed.

Lemma tree_frame m m' x v N : tree m x v N -> keeps N m m' -> tree m' x v N.
Proof. apply tree_frames. Qed.
Lemma trees_frame m m' xs vs N : trees m xs vs N -> keeps N m m' -> trees m' xs vs N.
Proof. apply tree_frames. Qed.

Lemma trees_snoc m xs vs N x v N' : trees m xs vs N -> tree m x v N' -> trees m (xs ++ [x]) (vs ++ [v]) (N ++ N').
Proof.
  induction 1; intros T; simpl; [rewrite <- (app_nil_r N'); auto with json|]. rewrite <- app_assoc. auto with json.
Qed.

Lemma tree_head m x v N : tree m x v N -> exists N', N = x :: N'.
Proof. destruct 1; by eexists. Qed.

Lemma trees_length m xs vs N : trees m xs vs N -> length xs = length vs.
Proof. induction 1; simpl; congruence. Qed.
End Trees.

(** The number of nodes of a value. *)
Fixpoint json_size (v : json) : nat :=
  match v with
  | VArr vs => S (sum_list (json_size <$> vs))
  | VObj kvs => S (sum_list ((fun kv => json_size kv.2) <$> kvs))
  | _ => 1
  end.

Lemma tree_sizes m :
  (forall x v N, tree m x v N -> length N = json_size v) /\ (forall xs vs N, trees m xs vs N -> length N = sum_list (json_size <$> vs)).
Proof.
  apply (tree_trees_ind m (fun x v N _ => length N = json_size v) (fun xs vs N _ => length N = sum_list (json_size <$> vs))); intros; cbn; try done.
  - by f_equal.
  - f_equal. rewrite H. clear. induction kvs as [|kv kvs IH]; cbn; [done|]. by f_equal.
  - rewrite length_app, H, H0. done.
Qed.

Lemma tree_size m x v N : tree m x v N -> length N = json_size v.
Proof. apply tree_sizes. Qed.
