(* ===== verification/JsonParse.v ===== *)
(** * The JSON parser

    [parse_value] against [value_at]: on a text that ends with NUL the parser returns a
    value exactly when the text has one and no request for memory is refused; the value
    it builds is that of the text, and whatever it returns the document owns all that
    was allocated. *)

From Stdlib Require Import ZArith Lia Ascii String SpecFloat.
From stdpp Require Import base tactics option list numbers gmap sets.
From S2P Require Import Prelude Mem Result Allocator Links Text Arrays Semver JsonNumber Json JsonSpec JsonText JsonMemory JsonTree.
Open Scope Z_scope.

(** ** Text *)

Lemma skip_from_text s tail : skip_from (s ++ NUL :: tail) (zlen s) = Ret (ws s ++ NUL :: tail, zlen (ws s)).
Proof.
  induction s as [|x s IH]; [done|]. cbn [skip_from app]. rewrite zlen_cons. pose proof (zlen_nonneg s). rewrite decide_True by lia.
  simpl. destruct (is_ws x); [by replace (1 + zlen s - 1) with (zlen s) by lia|by rewrite zlen_cons].
Qed.

Lemma digits_loop_text u y : digits_loop (u ++ y) (zlen u) = Ret (skip_digits u ++ y, zlen (skip_digits u)).
Proof.
  induction u as [|x u IH]; [by destruct y|]. cbn [digits_loop app]. rewrite zlen_cons. pose proof (zlen_nonneg u). rewrite decide_True by lia.
  simpl. destruct (is_digit x); [by replace (1 + zlen u - 1) with (zlen u) by lia|by rewrite zlen_cons].
Qed.

Lemma number_digits_text u y : parse_number_digits (u ++ y) (zlen u) = Ret ((fun u' => (u' ++ y, zlen u')) <$> integer_part u).
Proof.
  unfold parse_number_digits. destruct u as [|x u]; [done|]. pose proof (zlen_nonneg u). rewrite decide_False by (rewrite zlen_cons; lia).
  cbn [look app obind integer_part]. destruct (is_digit x) eqn:E; [|done]. case_decide.
  - simpl. by replace (zlen (x :: u) - 1) with (zlen u) by (rewrite zlen_cons; lia).
  - change (x :: u ++ y) with ((x :: u) ++ y). rewrite digits_loop_text. done.
Qed.

Lemma at_one_text xs u y : at_one xs (u ++ y) (zlen u) = Ret (starts xs u).
Proof. unfold at_one. destruct u as [|x u]; [done|]. pose proof (zlen_nonneg u). rewrite decide_True by (rewrite zlen_cons; lia). done. Qed.

Lemma starts_cons xs u : starts xs u = true -> exists x u', u = x :: u' /\ x ∈ xs.
Proof. destruct u as [|x u]; [done|]. simpl. intros H%bool_decide_eq_true. by exists x, u. Qed.

Lemma starts_tl xs u y : starts xs u = true -> tl (u ++ y) = tl u ++ y /\ zlen u - 1 = zlen (tl u).
Proof. intros (x & u' & -> & _)%starts_cons. rewrite zlen_cons. simpl. split; [done|lia]. Qed.

Lemma hex_step cp d : 0 <= cp < 4096 -> 0 <= d < 16 -> Z.lor (u32 (Z.shiftl cp 4)) d = cp * 16 + d.
Proof.
  intros Hc Hd. rewrite u32_small by (rewrite Z.shiftl_mul_pow2 by lia; lia). rewrite Z.lor_comm.
  pose proof (Z.add_lor_land d (Z.shiftl cp 4)) as A.
  assert (Z.land d (Z.shiftl cp 4) = 0) as L.
  { apply Z.bits_inj'. intros n Hn. rewrite Z.land_spec, Z.bits_0, Z.shiftl_spec by lia.
    destruct (decide (n < 4)) as [D|D]; [by rewrite (Z.testbit_neg_r cp) by lia; rewrite andb_false_r|].
    replace (Z.testbit d n) with false; [done|]. symmetry. apply Z.bits_above_log2; [lia|].
    destruct (decide (d = 0)) as [->|]; [simpl; lia|]. apply Z.log2_lt_pow2; [lia|]. assert (2 ^ 4 <= 2 ^ n) by (apply Z.pow_le_mono_r; lia). lia. }
  rewrite L in A. rewrite Z.shiftl_mul_pow2 in * by lia. lia.
Qed.

Lemma hex_value_range h : is_hex h = true -> 0 <= hex_value h < 16.
Proof.
  unfold is_hex, hex_value. rewrite !orb_true_iff, !bool_decide_eq_true. destruct (is_digit h) eqn:D.
  - apply is_digit_range in D. chars. lia.
  - chars. intros [[?|?]|?]; [done|rewrite decide_True by lia; lia|rewrite decide_False by lia; lia].
Qed.

(** The digits of a code point, one by one. *)
Lemma hex_digits_text hs y : forall cp, 0 <= cp -> (cp + 1) * 16 ^ zlen hs <= 65536 ->
  hex_digits (length hs) (hs ++ y) cp = Ret (if forallb is_hex hs then Some (foldl (fun n h => n * 16 + hex_value h) cp hs) else None).
Proof.
  induction hs as [|h hs IH]; intros cp Hc Hm; [done|]. cbn [length hex_digits look app obind tl forallb foldl].
  rewrite zlen_cons in Hm. pose proof (zlen_nonneg hs). rewrite Z.pow_add_r in Hm by lia. change (16 ^ 1) with 16 in Hm.
  assert (0 < 16 ^ zlen hs) by (apply Z.pow_pos_nonneg; lia). assert (cp < 4096) by nia.
  assert (N : is_hex h = true -> 0 <= cp * 16 + hex_value h /\ (cp * 16 + hex_value h + 1) * 16 ^ zlen hs <= 65536).
  { intros Hh%hex_value_range. split; [lia|]. assert (cp * 16 + hex_value h + 1 <= (cp + 1) * 16) by lia. nia. }
  unfold is_hex, hex_value in N |- *. destruct (is_digit h) eqn:D.
  { apply is_digit_range in D. destruct (N eq_refl). rewrite decide_True by (chars; lia).
    rewrite hex_step by (chars; lia). simpl orb. simpl andb. by rewrite IH. }
  assert (~ 48 <= h <= 57) by (intros X; apply is_digit_range in X; congruence). rewrite decide_False by (chars; lia). simpl orb in *.
  destruct (decide (ch "a" <= h <= ch "f")) as [D2|D2].
  { rewrite bool_decide_eq_true_2 in * by done. destruct (N eq_refl). rewrite hex_step by (revert D2; chars; lia). simpl. by rewrite IH. }
  rewrite (bool_decide_eq_false_2 (ch "a" <= h <= ch "f")) in * by done. simpl orb in *.
  destruct (decide (ch "A" <= h <= ch "F")) as [D3|D3].
  { rewrite bool_decide_eq_true_2 in * by done. destruct (N eq_refl). rewrite hex_step by (revert D3; chars; lia). simpl. by rewrite IH. }
  by rewrite bool_decide_eq_false_2.
Qed.

Lemma code_point_text h1 h2 h3 h4 y : hex_digits 4 (h1 :: h2 :: h3 :: h4 :: y) 0 = Ret (code_point [h1; h2; h3; h4]).
Proof. apply (hex_digits_text [h1; h2; h3; h4] y 0); [lia|vm_compute; done]. Qed.

Lemma utf8_length cp : 1 <= zlen (utf8 cp) <= 3.
Proof. unfold utf8. repeat case_decide; by vm_compute. Qed.

(** ** Strings *)

(** The sizes that the buffer of a string of [n] characters may have. *)
Definition doubling (cap n : Z) : Prop := exists k, 0 <= k /\ cap = 64 * 2 ^ k /\ (cap = 64 \/ cap < 2 * n).

(** The characters [t] in the buffer at [x]. *)
Definition holds (x : addr) (t : bytes) (buf : sbuf) : Prop :=
  exists room, sb_buf buf = Some (Block x (t ++ room)) /\ sb_cap buf = zlen t + zlen room /\ sb_len buf = zlen t /\
    doubling (sb_cap buf) (zlen t) /\ sb_cap buf <= PTRDIFF_MAX.

(** The terminator does not fit exactly when the length is one of those of [overruns]. *)
Lemma doubling_full cap n : doubling cap n -> n <= cap -> 0 <= n -> overruns n = bool_decide (n = cap).
Proof.
  intros (k & Hk & E & H) Hle Hn. unfold overruns. apply bool_decide_ext. assert (64 * 2 ^ k = 2 ^ (6 + k)) as E6 by (by rewrite Z.pow_add_r by lia).
  rewrite E6 in E. split.
  - intros [H64 El]. destruct H as [H|H]; [lia|]. assert (0 <= Z.log2 n) by apply Z.log2_nonneg.
    assert (Z.log2 n <= 6 + k) by (apply (Z.pow_le_mono_r_iff 2 (Z.log2 n) (6 + k)); rewrite <- ?El, <- ?E; lia).
    assert (6 + k < Z.log2 n + 1) by (apply (Z.pow_lt_mono_r_iff 2 (6 + k) (Z.log2 n + 1)); rewrite ?Z.pow_add_r by lia; rewrite <- ?El, <- ?E6, <- ?E; lia).
    replace (6 + k) with (Z.log2 n) in E by lia. lia.
  - intros ->. rewrite E. split; [rewrite <- E6; assert (0 < 2 ^ k) by (apply Z.pow_pos_nonneg; lia); lia|]. by rewrite Z.log2_pow2 by lia.
Qed.

Lemma doubling_grow cap n d : doubling cap n -> n <= cap -> 0 <= d -> doubling (if decide (n + d <= cap) then cap else cap * 2) (n + d).
Proof.
  intros (k & Hk & E & H) Hn Hd. case_decide.
  - exists k. split; [done|]. split; [done|]. lia.
  - exists (k + 1). split; [lia|]. rewrite Z.pow_add_r by lia. split; lia.
Qed.

Lemma put_bytes_spec x : forall xs t room cap, zlen xs <= zlen room -> zlen t + zlen room < two64 ->
  exists room', put_bytes xs (mk_sbuf (Some (Block x (t ++ room))) cap (zlen t)) = Ret (mk_sbuf (Some (Block x ((t ++ xs) ++ room'))) cap (zlen (t ++ xs))) /\
    zlen room' = zlen room - zlen xs.
Proof.
  induction xs as [|y xs IH]; intros t room cap Hl Hm.
  { exists room. rewrite app_nil_r. split; [done|]. unfold zlen. simpl. lia. }
  rewrite zlen_cons in Hl. pose proof (zlen_nonneg xs). pose proof (zlen_nonneg t). destruct (room_cons room) as (z & room1 & -> & L); [lia|]. cbn [put_bytes sb_buf sb_len sb_cap].
  rewrite pset_emit by done. cbn [obind]. rewrite zlen_cons in *. rewrite u64_small by lia.
  destruct (IH (t ++ [y]) room1 cap) as (room' & E & L'); [lia|zl|].
  exists room'. replace (zlen t + 1) with (zlen (t ++ [y])) by zl. rewrite E, <- (app_assoc t [y] xs). split; [done|]. rewrite ?zlen_cons. lia.
Qed.

Section Parser.
Context {C : Type} (a : zenit_allocator_t C) {SP : AllocSpec a} {W : Watched a} (junk : option addr).
Context (c0 : C) (m0 : store) (tail : bytes).
Implicit Types (c : C) (m : store) (p : parser_t C) (E ps : list addr).

(** The parser stands before [s], the rest of a text that ends with NUL. *)
Definition at_text p (s : bytes) : Prop := p_pos p = s ++ NUL :: tail /\ p_left p = zlen s /\ p_error p = false.

Definition pinv E p ps : Prop := doc_inv a E c0 m0 (p_doc p) (p_mem p) (p_ctx p) ps.

(** No request that was refused by [p] is granted by [p']. *)
Definition calm p p' : Prop := granted (p_ctx p') -> granted (p_ctx p).

(** What a parsing function may return for a text of which [spec] is the value. *)
Inductive returns {A B : Type} (spec : parsed A) (r : outcome (option B * parser_t C))
    (no : parser_t C -> Prop) (yes : A -> bytes -> B -> parser_t C -> Prop) : Prop :=
| returns_crash : r = Undef -> spec = PCrash -> returns spec r no yes
| returns_none p' : r = Ret (None, p') -> (spec <> PNo -> ~ granted (p_ctx p')) -> no p' -> returns spec r no yes
| returns_some b p' v s' : r = Ret (Some b, p') -> spec = PYes v s' -> yes v s' b p' -> returns spec r no yes.

Lemma returns_fuel {A B : Type} (spec : parsed A) (r : outcome (option B * parser_t C)) no yes : returns spec r no yes -> r <> NoFuel.
Proof. by intros [ -> | ? -> | ? ? ? ? -> ]. Qed.

(** Reallocation of a block of which only the characters [t] matter. *)
Lemma realloc_string x t room n c R :
  owns a c0 c (x :: R) -> zlen t <= n ->
  exists r c', zenit_allocator_realloc a (Some (Block x (t ++ room))) (zlen t) n c = Ret (r, c') /\
    match r with
    | None => owns a c0 c' (x :: R)
    | Some b => owns a c0 c' (b_addr b :: R) /\ n <= PTRDIFF_MAX /\ exists room', b_data b = t ++ room' /\ zlen t + zlen room' = n
    end.
Proof.
  intros O Hn. assert (Hx : x ∈ live c) by (destruct O as (_ & _ & ->); set_solver). pose proof (zlen_nonneg t). pose proof (zlen_nonneg room).
  destruct (realloc_prefix a (Some (Block x (t ++ room))) (zlen t) n c) as (r & c' & E & H1); [simpl; set_solver|simpl; rewrite zlen_app; lia|lia|].
  exists r, c'. split; [done|]. destruct r as [b|]; [|by eapply owns_same]. destruct H1 as (L & M & T & Nb & Hl). simpl in T, Nb, Hl.
  split; [by eapply owns_realloc|]. split; [done|]. rewrite Z.min_l in T by lia. unfold zlen in T. rewrite Nat2Z.id, take_app_length in T.
  exists (drop (length t) (b_data b)). rewrite <- T at 1. rewrite take_drop. split; [done|].
  rewrite <- (take_drop (length t) (b_data b)), T, zlen_app in L. done.
Qed.

Lemma at_text_advance p w s : at_text p (w ++ s) -> at_text (advance (length w) p) s.
Proof.
  intros (E1 & E2 & E3). unfold at_text, advance, set_pos. cbn [p_pos p_left p_error]. rewrite E1, E2, <- app_assoc, drop_app_length. split; [done|]. split; [|done].
  rewrite zlen_app. unfold zlen. lia.
Qed.

Lemma at_text_next p x s : at_text p (x :: s) -> at_text (advance 1 p) s.
Proof. apply (at_text_advance p [x]). Qed.

Lemma pinv_ctx E E' p c' ps : pinv E p ps -> (forall R, owns a c0 (p_ctx p) (E ++ R) -> owns a c0 c' (E' ++ R)) -> pinv E' (set_ctx c' p) ps.
Proof. intros D H. eapply doc_inv_mem; [exact D|done]. Qed.

Lemma pinv_free E p ps x : pinv (x :: E) p ps -> pinv E (set_ctx (free_fn a (Some x) (p_ctx p)) p) ps.
Proof. intros D. apply (doc_inv_free a _ _ _ _ _ _ _ x D). Qed.

(** Room for [xs], and [xs] behind [t]. *)
Lemma grow_put_spec x t buf xs p E ps :
  holds x t buf -> pinv (x :: E) p ps -> 1 <= zlen xs <= 64 ->
  (exists p', grow_put a xs buf p = Ret (None, p') /\ pinv E p' ps /\ calm p p' /\ ~ granted (p_ctx p')) \/
  (exists buf' p' y, grow_put a xs buf p = Ret (Some buf', p') /\ holds y (t ++ xs) buf' /\ pinv (y :: E) p' ps /\ calm p p' /\
     p_mem p' = p_mem p /\ p_doc p' = p_doc p /\ forall s, at_text p s -> at_text p' s).
Proof.
  intros (room & Eb & Ec & El & Db & Hm) D Hx. pose proof (zlen_nonneg t). pose proof (zlen_nonneg room).
  pose proof (doubling_grow _ _ (zlen xs) Db ltac:(lia) ltac:(lia)) as Dg. unfold grow_put, buf_grow. rewrite El, u64_small by lia. case_decide as Hc.
  - cbn [obind]. right. destruct buf as [b cap len]. cbn [sb_buf sb_cap sb_len] in *. subst b len.
    destruct (put_bytes_spec x xs t room cap) as (room' & Ep & Lr); [lia|lia|].
    rewrite Ep. cbn [obind]. eexists _, p, x. split; [done|]. split; [|by unfold calm].
    exists room'. cbn [sb_buf sb_cap sb_len]. rewrite zlen_app in *. split_and!; try done; lia.
  - assert (64 <= sb_cap buf) by (destruct Db as (k & ? & -> & _); assert (0 < 2 ^ k) by (apply Z.pow_pos_nonneg; lia); lia).
    rewrite u64_small by lia. rewrite Eb. pose proof (d_owns _ _ _ _ _ _ _ _ D) as O.
    destruct (realloc_string x t room (sb_cap buf * 2) (p_ctx p) _ O) as (r & c1 & Er & Hr); [lia|]. rewrite Er. cbn [obind].
    pose proof (realloc_granted a _ _ _ _ _ _ Er) as G. destruct r as [[y d]|].
    + destruct Hr as (O1 & M1 & room1 & Ed & L1). cbn [b_data b_addr] in *. subst d. right. cbn [obind].
      destruct (put_bytes_spec y xs t room1 (sb_cap buf * 2)) as (room' & Ep & Lr); [lia|lia|].
      rewrite Ep. cbn [obind]. eexists _, (set_ctx c1 p), y. split; [done|].
      split; [|split; [destruct D; constructor; try done|split; [by intros G1; apply G in G1 as [_ ?]|done]]].
      exists room'. cbn [sb_buf sb_cap sb_len]. rewrite zlen_app in *. split_and!; try done; lia.
    + left. eexists. split; [done|]. unfold fail, set_ctx, pinv, calm. cbn [p_ctx p_doc p_mem paddr fmap option_fmap option_map b_addr].
      split; [|split; [intros G1%granted_free; apply G, G1|intros G1%granted_free; by apply G in G1 as [? _]]].
      apply doc_inv_free. destruct D. constructor; try done.
Qed.

(** The character of an escape sequence, and what follows it. *)
Definition escape_at (s : bytes) : option (Z * bytes) :=
  match s with
  | [] => None
  | e :: r =>
      match parse_simple_escape e with
      | Some cp => Some (cp, r)
      | None =>
          if decide (e = ch "u") then
            match r with
            | h1 :: h2 :: h3 :: h4 :: r => (fun cp => (cp, r)) <$> code_point [h1; h2; h3; h4]
            | _ => None
            end
          else None
      end
  end.

Lemma chars_escape x s : x <> 34 -> x = ch "\" ->
  chars_of_string (x :: s) = match escape_at s with Some (cp, r) => prod_map (app (utf8 cp)) id <$> chars_of_string r | None => None end.
Proof.
  intros N ->. cbn [chars_of_string]. rewrite decide_False by done. destruct (decide (ch "\" <> ch "\")) as [?|_]; [done|].
  destruct s as [|e s]; [done|]. cbn [escape_at]. destruct (parse_simple_escape e); [done|]. case_decide; [|done].
  destruct s as [|h1 [|h2 [|h3 [|h4 s]]]]; try done. by destruct (code_point _).
Qed.

Definition same_but_pos p p' : Prop := p_doc p' = p_doc p /\ p_mem p' = p_mem p /\ p_ctx p' = p_ctx p.

Lemma escape_seq_text p s : at_text p s ->
  exists p', parse_escape_seq p = Ret (fst <$> escape_at s, p') /\ same_but_pos p p' /\ forall cp r, escape_at s = Some (cp, r) -> at_text p' r.
Proof.
  intros T. pose proof T as (E1 & E2 & E3). unfold parse_escape_seq. rewrite E2. destruct s as [|e s]; [by eexists|]. pose proof (zlen_nonneg s).
  rewrite decide_False by (rewrite zlen_cons; lia). rewrite E1. cbn [app look obind escape_at]. destruct (parse_simple_escape e).
  { eexists. split; [done|]. split; [done|]. intros cp r [= <- <-]. by eapply at_text_next. }
  destruct (decide (e = ch "u")); [|by eexists]. apply at_text_next in T. pose proof T as (A1 & A2 & A3). unfold parse_unicode_cp. rewrite A2.
  destruct (decide (zlen s < 4)) as [D|D].
  { exists (fail (advance 1 p)). destruct s as [|h1 [|h2 [|h3 [|h4 s]]]]; try by split_and!. rewrite !zlen_cons in D. pose proof (zlen_nonneg s). lia. }
  destruct s as [|h1 [|h2 [|h3 [|h4 s]]]]; try (by destruct D). rewrite A1. cbn [app]. rewrite code_point_text. cbn [obind].
  destruct (code_point _); [|by eexists]. eexists. split; [done|]. split; [done|]. intros cp r [= <- <-]. by apply (at_text_advance _ [h1; h2; h3; h4]).
Qed.

(** Changing the value that was specified. *)
Lemma returns_map {A B : Type} (spec spec' : parsed A) (f : A -> A) (r : outcome (option B * parser_t C)) no yes no' yes' :
  returns spec r no yes -> (spec = PNo -> spec' = PNo) -> (spec = PCrash -> spec' = PCrash) ->
  (forall v s, spec = PYes v s -> spec' = PYes (f v) s) ->
  (forall p', no p' -> no' p') -> (forall v s b p', yes v s b p' -> yes' (f v) s b p') -> returns spec' r no' yes'.
Proof.
  intros [-> Hs|p' -> Hs Hn|b p' v s -> Hs Hy] K1 K2 K3 N Y.
  - apply returns_crash; auto.
  - eapply returns_none; [done| |auto]. intros X. apply Hs. intros ->. by apply X, K1.
  - eapply returns_some; [done|by apply K3|auto].
Qed.

(** The rest of a string of which [t] has been read. *)
Definition rest_of_string (t s : bytes) : parsed bytes :=
  match chars_of_string s with
  | None => PNo
  | Some (t', r) => if overruns (zlen (t ++ t')) then PCrash else PYes (t ++ t') r
  end.

Lemma rest_step t xs s r : chars_of_string s = prod_map (app xs) id <$> chars_of_string r -> rest_of_string t s = rest_of_string (t ++ xs) r.
Proof. unfold rest_of_string. intros ->. destruct (chars_of_string r) as [[t' r']|]; [|done]. simpl. by rewrite app_assoc. Qed.

(** A string was read: its block, and all else as before. *)
Definition string_read p E ps (t s : bytes) (b : block) p' : Prop :=
  at_text p' s /\ pinv (b_addr b :: E) p' ps /\ calm p p' /\ p_mem p' = p_mem p /\ exists rest, b_data b = t ++ NUL :: rest.

Definition string_not_read p E ps p' : Prop := pinv E p' ps /\ calm p p'.

Lemma string_loop_spec E ps : forall n x t buf s p,
  (length s < n)%nat -> at_text p s -> holds x t buf -> pinv (x :: E) p ps ->
  returns (rest_of_string t s) (string_loop a n buf p) (string_not_read p E ps) (string_read p E ps).
Proof.
  induction n as [|n IH]; intros x t buf s p Hn T H D; [lia|]. cbn [string_loop]. pose proof T as (E1 & E2 & E3). rewrite E1, E2.
  pose proof H as (room & Eb & Ec & El & Db & Hm). destruct s as [|y s].
  { cbn. eapply returns_none; [done|done|]. rewrite Eb. split; [apply (pinv_free _ _ _ _ D)|]. unfold calm. simpl. apply granted_free. }
  pose proof (zlen_nonneg s). rewrite decide_True by (rewrite zlen_cons; lia). cbn [app look obind length] in *.
  assert (Step : forall xs r p1 f, chars_of_string (y :: s) = prod_map (app xs) id <$> chars_of_string r -> 1 <= zlen xs <= 64 ->
    (length r < n)%nat -> same_but_pos p p1 -> (forall q, same_but_pos q (f q)) ->
    (forall q, (forall s', at_text p1 s' -> at_text q s') -> at_text (f q) r) ->
    returns (rest_of_string t (y :: s)) (let! (q, p2) := grow_put a xs buf p1 in match q with None => Ret (None, p2) | Some buf => string_loop a n buf (f p2) end)
      (string_not_read p E ps) (string_read p E ps)).
  { intros xs r p1 f Hs Hx Hl (S1 & S2 & S3) Hf Ht. assert (D1 : pinv (x :: E) p1 ps) by (unfold pinv; by rewrite S1, S2, S3).
    assert (calm p p1) as Cm by (unfold calm; by rewrite S3).
    destruct (grow_put_spec x t buf xs p1 E ps H D1 Hx) as [(p' & Eg & D' & Cm' & G)|(buf' & p' & z & Eg & H' & D' & Cm' & M & Dc & K)]; rewrite Eg; cbn [obind].
    - eapply returns_none; [done|by intros _|]. split; [done|]. intros G'. auto.
    - destruct (Hf p') as (F1 & F2 & F3). rewrite (rest_step t xs (y :: s) r Hs).
      assert (D2 : pinv (z :: E) (f p') ps) by (unfold pinv; by rewrite F1, F2, F3).
      eapply (returns_map _ _ id); [apply (IH z (t ++ xs) buf' r (f p') Hl (Ht p' K) H' D2)|done|done|done| |].
      + intros q (X1 & X2). split; [done|]. intros G. apply X2 in G. rewrite F3 in G. auto.
      + intros v s' b q (X1 & X2 & X3 & X4 & X5). split_and!; try done; [|congruence]. intros G. apply X3 in G. rewrite F3 in G. auto. }
  destruct (decide (y = 34)) as [->|N34].
  - unfold rest_of_string. cbn [chars_of_string]. rewrite decide_True by done. rewrite app_nil_r, (doubling_full (sb_cap buf)) by (done || zl).
    rewrite Eb, El. destruct (decide (zlen t = sb_cap buf)) as [F|F].
    + rewrite bool_decide_eq_true_2 by done. apply returns_crash; [|done]. assert (room = []) as -> by (apply zlen_0; lia). rewrite app_nil_r.
      cbn [pset b_data]. unfold aset. rewrite decide_False; [done|lia].
    + rewrite bool_decide_eq_false_2 by done. pose proof (zlen_nonneg room). destruct (room_cons room) as (z & room' & -> & L); [lia|].
      rewrite pset_emit by done. cbn [obind]. eapply returns_some; [done|done|].
      split; [by eapply at_text_next|]. split; [done|]. split; [by unfold calm|]. split; [done|]. exists room'. cbn [b_data]. by rewrite <- app_assoc.
  - destruct (decide (y <> ch "\")) as [N92|N92].
    + apply (Step [y] s p (advance 1)); try done; [|lia|].
      * cbn [chars_of_string]. rewrite decide_False, decide_True by done. done.
      * intros q Hq. eapply at_text_next. by apply Hq.
    + destruct (escape_seq_text (advance 1 p) s) as (p' & Ee & Sm & Hc); [by eapply at_text_next|]. rewrite Ee. cbn [obind].
      assert (y = ch "\") as Ey by (destruct (decide (y = ch "\")); [done|by destruct N92]).
      pose proof (chars_escape y s N34 Ey) as Hch. destruct (escape_at s) as [[cp r]|] eqn:Er; csimpl.
      * apply (Step (utf8 cp) r p' id); try done; [pose proof (utf8_length cp); lia| |intros q Hq; by apply Hq, (Hc cp)].
        assert (length r <= length s)%nat; [|lia]. clear - Er. destruct s as [|e s]; [done|]. cbn [escape_at] in Er.
        destruct (parse_simple_escape e); [injection Er as <- <-; simpl; lia|]. case_decide; [|done].
        destruct s as [|h1 [|h2 [|h3 [|h4 s]]]]; try done. destruct (code_point _); [|done]. injection Er as <- <-. simpl. lia.
      * eapply returns_none; [done|unfold rest_of_string; by rewrite Hch|]. rewrite Eb. destruct Sm as (S1 & S2 & S3).
        split; [|unfold calm; simpl; rewrite S3; apply granted_free].
        apply (pinv_free E p' ps x). unfold pinv. by rewrite S1, S2, S3.
Qed.

Lemma string_raw_spec E ps fuel s p : (length s < fuel)%nat -> at_text p (34 :: s) -> pinv E p ps ->
  returns (string_at s) (parse_string_raw a fuel p) (string_not_read p E ps) (string_read p E ps).
Proof.
  intros Hf T D. unfold parse_string_raw. apply at_text_next in T. change (p_ctx (advance 1 p)) with (p_ctx p).
  destruct (alloc_fn a 64 (p_ctx p)) as [[b|] c1] eqn:A.
  - pose proof (d_owns _ _ _ _ _ _ _ _ D) as O. pose proof (owns_alloc a _ _ _ _ _ _ O A) as O1. pose proof A as (L & M & _)%alloc_some.
    eapply (returns_map _ _ id);
      [apply (string_loop_spec E ps fuel (b_addr b) [] (mk_sbuf (Some b) 64 0) s (set_ctx c1 (advance 1 p)) Hf T)|done..| |].
    + destruct b as [x d]. exists d. cbn [sb_buf sb_cap sb_len b_data b_addr app] in *. rewrite zlen_nil. split; [done|]. split; [lia|]. split; [done|]. split; [|lia].
      exists 0. split; [lia|]. split; [done|by left].
    + destruct D. constructor; try done.
    + intros p' [X1 X2]. split; [done|]. intros G. apply X2 in G. by apply (granted_alloc _ _ _ _ A G).
    + intros v r b' p' (X1 & X2 & X3 & X4 & X5). split_and!; try done. intros G. apply X3 in G. by apply (granted_alloc _ _ _ _ A G).
  - eapply returns_none; [done|intros _ G; by destruct (granted_alloc _ _ _ _ A G)|].
    split; [|intros G; by apply (granted_alloc _ _ _ _ A G)]. eapply doc_inv_same; [exact D|]. by eapply alloc_none.
Qed.

(** ** Numbers *)

Lemma parse_number_spec p s : at_text p s ->
  exists x p', parse_number p = Ret (x, p') /\ same_but_pos p p' /\
    match number_at s with Some (y, r) => x = y /\ at_text p' r | None => p_error p' = true end.
Proof.
  intros (E1 & E2 & E3). unfold parse_number. rewrite E1. destruct (strtod_stop s NUL tail) as (u & Es & St); [done|]. rewrite St. cbn [obind].
  unfold number_at. destruct (strtod_text s) as [x r]. cbn [fst snd] in *.
  assert (take (length s - length r) s = u) as -> by (rewrite Es, length_app, Nat.add_sub; by rewrite take_app_length).
  replace (s ++ NUL :: tail) with (u ++ r ++ NUL :: tail) by (by rewrite Es, <- app_assoc). set (y := r ++ NUL :: tail).
  replace (zlen (u ++ y) - zlen y) with (zlen u) by (rewrite zlen_app; lia).
  assert (Hbad : json_number u = false -> exists x' p', Ret (S754_zero false, fail p) = Ret (x', p') /\ same_but_pos p p' /\
    match (if json_number u then Some (x, r) else None) with Some (y, r) => x' = y /\ at_text p' r | None => p_error p' = true end)
    by (intros ->; by eexists _, _).
  destruct u as [|d u']; [by apply Hbad|]. rewrite decide_False by (rewrite zlen_cons; pose proof (zlen_nonneg u'); lia). cbn [app look obind].
  change (d :: u' ++ y) with ((d :: u') ++ y). set (u := d :: u') in *.
  assert (Sg : (if decide (d = ch "-") then (tl (u ++ y), zlen u - 1) else (u ++ y, zlen u)) =
    let u1 := if starts [ch "-"] u then tl u else u in (u1 ++ y, zlen u1)).
  { unfold u. cbn [starts]. case_decide as Dd; [rewrite bool_decide_eq_true_2 by (by apply list_elem_of_singleton)|
      rewrite bool_decide_eq_false_2 by (by rewrite list_elem_of_singleton)]; [|done]. cbn. rewrite zlen_cons. f_equal. lia. }
  rewrite Sg. clear Sg. unfold json_number in *. set (u1 := if starts [ch "-"] u then tl u else u) in *. cbv zeta beta in *. cbv iota.
  rewrite number_digits_text. cbn [obind]. destruct (integer_part u1) as [u2|]; csimpl; [|by apply Hbad]. simpl mbind in *.
  rewrite at_one_text. cbn [obind].
  assert (Sf : (if starts [ch "."] u2 then parse_number_digits (tl (u2 ++ y)) (zlen u2 - 1) else Ret (Some (u2 ++ y, zlen u2))) =
    Ret ((fun u' => (u' ++ y, zlen u')) <$> (if starts [ch "."] u2 then integer_part (tl u2) else Some u2))).
  { destruct (starts [ch "."] u2) eqn:B; [|done]. destruct (starts_tl _ _ y B) as [-> ->]. apply number_digits_text. }
  rewrite Sf. clear Sf. cbn [obind]. destruct (if starts [ch "."] u2 then _ else _) as [u3|]; csimpl; [|by apply Hbad]. simpl mbind in *.
  rewrite at_one_text. cbn [obind].
  assert (Se : (if starts [ch "e"; ch "E"] u3 then
      let! sg := at_one [ch "+"; ch "-"] (tl (u3 ++ y)) (zlen u3 - 1) in
      if sg : bool then parse_number_digits (tl (tl (u3 ++ y))) (zlen u3 - 2) else parse_number_digits (tl (u3 ++ y)) (zlen u3 - 1)
      else Ret (Some (u3 ++ y, zlen u3))) =
    Ret ((fun u' => (u' ++ y, zlen u')) <$> (if starts [ch "e"; ch "E"] u3 then
      integer_part (if starts [ch "+"; ch "-"] (tl u3) then tl (tl u3) else tl u3) else Some u3))).
  { destruct (starts [ch "e"; ch "E"] u3) eqn:B; [|done]. replace (zlen u3 - 2) with (zlen u3 - 1 - 1) by lia.
    destruct (starts_tl _ _ y B) as [-> ->]. rewrite at_one_text. cbn [obind]. destruct (starts [ch "+"; ch "-"] (tl u3)) eqn:B2; [|apply number_digits_text].
    destruct (starts_tl _ _ y B2) as [-> ->]. apply number_digits_text. }
  rewrite Se. clear Se. cbn [obind]. destruct (if starts [ch "e"; ch "E"] u3 then _ else _) as [u4|]; csimpl; [|by apply Hbad]. simpl mbind in *.
  destruct (decide (zlen u4 <> 0)) as [Dz|Dz]; [apply Hbad; rewrite bool_decide_eq_false_2; [done|by intros [= ->]]|]. assert (u4 = []) as -> by (apply zlen_0; lia).
  rewrite bool_decide_eq_true_2 by done. eexists _, _. split; [done|]. split; [done|]. split; [done|]. split; [done|]. split; [|done].
  cbn [p_left set_pos]. rewrite E2, Es, zlen_app. lia.
Qed.

(** ** Values *)

Lemma skip_ws_text p s : at_text p s -> exists p', skip_ws p = Ret p' /\ at_text p' (ws s) /\ same_but_pos p p'.
Proof. intros (E1 & E2 & E3). unfold skip_ws. rewrite E1, E2, skip_from_text. cbn [obind]. by eexists. Qed.

Lemma not_at_text p s x : at_text p s -> not_at x p = Ret (match s with y :: _ => bool_decide (y <> x) | [] => true end).
Proof.
  intros (E1 & E2 & E3). unfold not_at. rewrite E1, E2. destruct s as [|y s]; [done|]. pose proof (zlen_nonneg s). by rewrite decide_True by (rewrite zlen_cons; lia).
Qed.

Lemma separator_text close p s : at_text p s ->
  exists k p', parse_separator close p = Ret (k, p') /\ same_but_pos p p' /\
    match separator_at close s with
    | PNo => k = 0
    | PCrash => False
    | PYes more r => k = (if more then 1 else 2) /\ at_text p' r
    end.
Proof.
  intros T. unfold parse_separator, separator_at. destruct (skip_ws_text p s T) as (p1 & -> & T1 & S1). cbn [obind]. pose proof T1 as (A1 & A2 & A3).
  rewrite A1, A2. destruct (ws s) as [|x r]; [by eexists _, _|]. pose proof (zlen_nonneg r). rewrite decide_False by (rewrite zlen_cons; lia). cbn [app look obind].
  apply at_text_next in T1. case_decide.
  - destruct (skip_ws_text _ r T1) as (p2 & -> & T2 & S2). cbn [obind]. pose proof T2 as (B1 & B2 & B3).
    assert (S12 : same_but_pos p p2) by (destruct S1 as (? & ? & ?), S2 as (? & ? & ?); unfold same_but_pos; simpl in *; split_and!; congruence).
    rewrite B1, B2. destruct (ws r) as [|y r2]; [by eexists _, _|]. pose proof (zlen_nonneg r2). rewrite decide_False by (rewrite zlen_cons; lia). cbn [app look obind].
    case_decide; by eexists _, _.
  - case_decide; by eexists _, _.
Qed.

(** A value was read from [s0]: [N] are its nodes, which are now the last of the document;
    the other values are as they were. *)
Definition value_read (s0 : bytes) p E ps (v : json) (s : bytes) (x : addr) p' : Prop :=
  exists N, at_text p' s /\ pinv E p' (ps ++ N) /\ calm p p' /\ tree (p_mem p') x v N /\ keeps ps (p_mem p) (p_mem p') /\
    (length N + length s <= length s0)%nat.

Definition not_read (s0 : bytes) p E ps p' : Prop :=
  exists ps', pinv E p' ps' /\ calm p p' /\ (length ps' <= length ps + length s0)%nat.

(** [parse] reads what [value] says from every text of less than [k] characters. *)
Definition reads (k : nat) (parse : parser_t C -> outcome (option addr * parser_t C)) (value : bytes -> parsed json) : Prop :=
  forall E ps s p, (length s < k)%nat -> at_text p s -> pinv E p ps -> returns (value s) (parse p) (not_read s p E ps) (value_read s p E ps).

Lemma pinv_same E p p' ps : same_but_pos p p' -> pinv E p ps -> pinv E p' ps.
Proof. intros (H1 & H2 & H3). unfold pinv. by rewrite H1, H2, H3. Qed.

Lemma not_read_same s0 p p' E ps : same_but_pos p p' -> pinv E p ps -> not_read s0 p E ps p'.
Proof. intros S D. exists ps. split; [by eapply pinv_same|]. split; [|lia]. destruct S as (_ & _ & S3). unfold calm. by rewrite S3. Qed.

(** The position is the same. *)
Definition same_pos p p' : Prop := p_pos p' = p_pos p /\ p_left p' = p_left p /\ p_error p' = p_error p.

Lemma at_text_pos p p' s : same_pos p p' -> at_text p s -> at_text p' s.
Proof. intros (H1 & H2 & H3). unfold at_text. by rewrite H1, H2, H3. Qed.

(** A new value, and its payload, which may be set after the position has moved. *)
Lemma new_value_spec E p ps : pinv E p ps ->
  (exists p', new_value a p = Ret (None, p') /\ pinv E p' ps /\ calm p p' /\ ~ granted (p_ctx p')) \/
  (exists x p1, new_value a p = Ret (Some x, p1) /\ same_pos p p1 /\ calm p p1 /\ x ∉ ps /\
     forall d p2, payload_ok d -> same_but_pos p1 p2 -> exists p', set_value x d p2 = Ret p' /\ same_pos p2 p' /\ calm p p' /\
       data_at (p_mem p') x = Some d /\ keeps ps (p_mem p) (p_mem p') /\ forall E', payload_blocks d ++ E' ≡ₚ E -> pinv E' p' (ps ++ [x])).
Proof.
  intros D. unfold new_value.
  destruct (value_alloc_spec a E c0 m0 (p_doc p) (p_mem p) (p_ctx p) ps D) as (r & doc' & m' & c' & -> & G & _ & _ & H). cbn [obind].
  destruct r as [x|]; [right|left; eexists; split; [done|]; split; [apply H|]; split; [done|apply H]].
  destruct H as (D' & Nx & Ex & K). exists x, (mk_parser (p_pos p) (p_left p) doc' (p_error p) m' c'). split; [done|]. split; [done|]. split; [done|]. split; [done|].
  intros d p2 Hd (S1 & S2 & S3). cbn [p_doc p_mem p_ctx] in *. unfold set_value. rewrite S2, (supd_Some _ _ _ _ Ex). cbn [obind]. eexists. split; [done|]. split; [done|].
  unfold calm, data_at, pinv. cbn [set_mem p_mem p_ctx p_doc]. rewrite S1, S3, lookup_insert_eq. split; [done|]. split; [done|]. split.
  - intros y Hy. unfold data_at. rewrite lookup_insert_ne by congruence. apply K. congruence.
  - intros E' P. destruct (doc_focus a _ _ _ _ _ _ _ x _ D' ltac:(set_solver) Ex) as (_ & B & O & _ & Put). apply Put; [done|].
    eapply owns_perm; [exact O|]. cbn [v_data payload_blocks app]. rewrite <- P. by rewrite <- app_assoc.
Qed.

Lemma json_literal_spec (w : bytes) (d : payload) (v : json) : w <> [] -> payload_ok d -> payload_blocks d = [] ->
  (forall m x, data_at m x = Some d -> tree m x v [x]) -> forall k, reads k (parse_literal a w d) (word_at w v).
Proof.
  intros Hw Hd Hb Ht k E ps s p _ T D. unfold parse_literal, word_at. pose proof T as (E1 & E2 & E3). rewrite E1, E2.
  destruct (decide (take (length w) s = w)) as [Es|Es].
  2:{ assert (forall p', p' = fail p -> returns PNo (Ret (None, p')) (not_read s p E ps) (value_read s p E ps)) as Hn.
      { intros p' ->. eapply returns_none; [done|done|]. by apply not_read_same. }
      case_decide; [|by apply Hn]. rewrite rd_Ret by (pose proof (zlen_nonneg w); zl). cbn [obind]. rewrite decide_False; [by apply Hn|].
      unfold zlen in *. rewrite drop_0, Nat2Z.id, take_app_le by lia. done. }
  assert (Hs : s = w ++ drop (length w) s) by (rewrite <- Es at 1; by rewrite take_drop).
  rewrite decide_True by (rewrite Hs, zlen_app; pose proof (zlen_nonneg (drop (length w) s)); lia).
  replace (s ++ NUL :: tail) with (w ++ drop (length w) s ++ NUL :: tail) by (by rewrite app_assoc, <- Hs). rewrite (rd_app [] w (drop (length w) s ++ NUL :: tail) 0 (zlen w) eq_refl eq_refl : rd (w ++ _) _ _ = _). cbn [obind]. rewrite decide_True by done.
  destruct (new_value_spec E p ps D) as [(p' & -> & D' & Cm & G)|(x & p1 & -> & S1 & Cm & Nx & Set_)]; cbn [obind].
  { eapply returns_none; [done|by intros _|]. exists ps. split; [done|]. split; [done|lia]. }
  destruct (Set_ d p1 Hd ltac:(done)) as (p' & -> & S2 & Cm' & Ed & K & D'). cbn [obind]. eapply returns_some; [done|done|].
  exists [x]. split; [apply at_text_advance; rewrite <- Hs; by do 2 (eapply at_text_pos; [done|])|].
  split; [apply D'; by rewrite Hb|]. split; [done|]. split; [by apply Ht|]. split; [done|].
  rewrite Hs at 2. rewrite length_app. destruct w; [done|simpl; lia].
Qed.

Lemma number_value_spec E ps s p : s <> [] -> at_text p s -> pinv E p ps ->
  returns (match number_at s with Some (y, r) => PYes (VNum y) r | None => PNo end) (parse_number_value a p) (not_read s p E ps) (value_read s p E ps).
Proof.
  intros Hs T D. unfold parse_number_value.
  destruct (new_value_spec E p ps D) as [(p' & -> & D' & Cm & G)|(x & p1 & -> & S1 & Cm & Nx & Set_)]; cbn [obind].
  { eapply returns_none; [done|by intros _|]. exists ps. split; [done|]. split; [done|lia]. }
  pose proof (at_text_pos _ _ _ S1 T) as T1. destruct (parse_number_spec p1 s T1) as (y & p2 & -> & S2 & H). cbn [obind].
  destruct (Set_ (JNumber y) p2 I S2) as (p' & -> & S3 & Cm' & Ed & K & D'). cbn [obind]. specialize (D' E (reflexivity _)).
  destruct (number_at s) as [[z r]|] eqn:Na.
  - destruct H as [-> T2]. pose proof (at_text_pos _ _ _ S3 T2) as T3. pose proof T3 as (_ & _ & ->). eapply returns_some; [done|done|].
    exists [x]. split; [done|]. split; [done|]. split; [done|]. split; [by constructor|]. split; [done|]. apply number_shorter in Na. simpl. lia.
  - destruct S3 as (_ & _ & S3). rewrite S3, H. eapply returns_none; [done|done|]. exists (ps ++ [x]). split; [done|]. split; [done|].
    rewrite length_app. destruct s as [|d s]; [done|simpl; lia].
Qed.

Lemma string_value_spec fuel E ps s p : (length s < fuel)%nat -> at_text p (34 :: s) -> pinv E p ps ->
  returns (pmap VStr (string_at s)) (parse_string_value a fuel p) (not_read (34 :: s) p E ps) (value_read (34 :: s) p E ps).
Proof.
  intros Hs T D. unfold parse_string_value.
  destruct (string_raw_spec E ps fuel s p Hs T D) as [-> Hsp|p' -> Hsp [D' Cm]|b p' t r -> Hsp (T' & D' & Cm & M & Hb)].
  - apply returns_crash; [done|by rewrite Hsp].
  - eapply returns_none; [done| |exists ps; split; [done|]; split; [done|lia]]. intros X. apply Hsp. by intros Y; rewrite Y in X.
  - cbn [obind]. rewrite Hsp. unfold pmap. cbn [pbind].
    destruct (new_value_spec _ p' ps D') as [(p2 & -> & D2 & Cm2 & G)|(x & p1 & -> & S1 & Cm1 & Nx & Set_)]; cbn [obind].
    { eapply returns_none; [done| |].
      - intros _ G'. apply G. revert G'. apply granted_free.
      - exists ps. split; [by apply pinv_free|]. split; [|lia]. intros G'%granted_free. auto. }
    destruct (Set_ (JString (Some b)) p1 I ltac:(done)) as (p2 & -> & S3 & Cm2 & Ed & K & D2). cbn [obind]. eapply returns_some; [done|done|].
    exists [x]. split; [by do 2 (eapply at_text_pos; [done|])|]. split; [by apply D2|]. split; [intros G; auto|]. split; [by econstructor|].
    split; [by rewrite <- M|]. apply string_shortens in Hsp. simpl. lia.
Qed.

(** ** Arrays *)

Lemma data_at_Some m x d : data_at m x = Some d -> exists v, m !! x = Some v /\ v_data v = d.
Proof. unfold data_at. destruct (m !! x) as [v|]; [|done]. intros [= <-]. by exists v. Qed.

(** One more element behind those of an array. *)
Lemma array_push_tree E doc m c ps arr N vs e v N' :
  doc_inv a E c0 m0 doc m c (ps ++ arr :: N ++ N') -> tree m arr (VArr vs) (arr :: N) -> tree m e v N' ->
  exists ok m' c', array_push a junk arr e m c = Ret (ok, m', c') /\ (granted c' -> granted c) /\
    doc_inv a E c0 m0 doc m' c' (ps ++ arr :: N ++ N') /\
    if ok : bool then tree m' arr (VArr (vs ++ [v])) (arr :: N ++ N') /\ keeps ps m m' else ~ granted c'.
Proof.
  intros D T1 T2. pose proof (d_nodup _ _ _ _ _ _ _ _ D) as ND. inversion T1 as [| | | |? items cap xs ? ? Ed Ei Ts|]; subst.
  destruct (data_at_Some _ _ _ Ed) as (w & Ew & Dw).
  destruct (array_push_spec a junk _ _ _ _ _ _ _ arr w items (zlen xs) cap e D ltac:(set_solver) Ew Dw) as (ok & m' & c' & Ep & G & D' & H).
  exists ok, m', c'. split; [done|]. split; [done|]. split; [done|]. destruct ok; [|apply H]. destruct H as (items' & cap' & -> & Ei').
  apply NoDup_app in ND as (_ & Np & ND). apply NoDup_cons in ND as [Na _].
  split; [|apply keeps_insert; intros Hy; apply (Np _ Hy); by left].
  assert (L : Z.to_nat (zlen xs + 1) = length (xs ++ [e])) by (rewrite length_app; unfold zlen; simpl; lia). rewrite L in Ei'.
  replace (zlen xs + 1) with (zlen (xs ++ [e])) by zl. eapply tree_arr.
  - unfold data_at. by rewrite lookup_insert_eq.
  - rewrite Ei', fmap_app. unfold zlen. by rewrite Nat2Z.id, Ei.
  - apply trees_snoc; [eapply trees_frame; [exact Ts|]|eapply tree_frame; [exact T2|]]; apply keeps_insert; set_solver.
Qed.

(** The array or object [arr] after its elements. *)
Definition container_read {A : Type} (wrap : list A -> json) (len : nat) p E ps (arr : addr) (vs : list A) (s : bytes) (x : addr) p' : Prop :=
  x = arr /\ exists N, at_text p' s /\ pinv E p' (ps ++ arr :: N) /\ calm p p' /\ tree (p_mem p') arr (wrap vs) (arr :: N) /\
    keeps ps (p_mem p) (p_mem p') /\ (length N + length s <= len)%nat.

Lemma calm_trans p1 p2 p3 : calm p1 p2 -> calm p2 p3 -> calm p1 p3.
Proof. unfold calm. auto. Qed.

Lemma calm_same p p' : same_but_pos p p' -> calm p p'.
Proof. intros (_ & _ & S3). unfold calm. by rewrite S3. Qed.

Lemma not_read_le s0 s p p1 p' E ps ps1 : calm p p1 -> not_read s0 p1 E ps1 p' -> (length ps1 + length s0 <= length ps + length s)%nat -> not_read s p E ps p'.
Proof. intros Cm (ps' & D & Cm' & L) H. exists ps'. split; [done|]. split; [by eapply calm_trans|lia]. Qed.

Lemma container_read_le {A : Type} (wrap : list A -> json) len1 len p p1 E ps arr vs s x p' :
  container_read wrap len1 p1 E ps arr vs s x p' -> calm p p1 -> keeps ps (p_mem p) (p_mem p1) -> (len1 <= len)%nat ->
  container_read wrap len p E ps arr vs s x p'.
Proof.
  intros (-> & N & T & D & Cm & Tr & K & L) Cm1 K1 H. split; [done|]. exists N. split_and!; try done; [by eapply calm_trans|by eapply keeps_trans|lia].
Qed.

(** After an element has been added to the container: the separator, and what [loop] does
    when another element follows. *)
Lemma next_element {A : Type} (wrap : list A -> json) close (rest : bytes -> parsed (list A)) (loop : parser_t C -> outcome (option addr * parser_t C))
    E ps arr N N2 vs v s r p p2 :
  at_text p2 r -> pinv E p2 (ps ++ arr :: N2) -> calm p p2 -> tree (p_mem p2) arr (wrap (vs ++ [v])) (arr :: N2) -> keeps ps (p_mem p) (p_mem p2) ->
  (length N2 + length r <= length N + length s)%nat ->
  (forall r2 p3, (length r2 < length r)%nat -> at_text p3 r2 -> pinv E p3 (ps ++ arr :: N2) -> tree (p_mem p3) arr (wrap (vs ++ [v])) (arr :: N2) ->
     returns (pmap (app (vs ++ [v])) (rest r2)) (loop p3) (not_read r2 p3 E (ps ++ arr :: N2)) (container_read wrap (length N2 + length r2) p3 E ps arr)) ->
  returns (pmap (app vs) (pbind (separator_at close r) (fun more r => if more then pbind (rest r) (fun vs r => PYes (v :: vs) r) else PYes [v] r)))
    (let! (sep, p) := parse_separator close p2 in
     if decide (sep = 0) then Ret (None, p) else if decide (sep = 2) then Ret (Some arr, p) else loop p)
    (not_read s p E (ps ++ arr :: N)) (container_read wrap (length N + length s) p E ps arr).
Proof.
  intros T2 D2 Cm2 Tr2 K2 L2 Next. destruct (separator_text close p2 r T2) as (sep & p3 & Es & S3 & H3). rewrite Es. cbn [obind].
  pose proof (pinv_same E p2 p3 _ S3 D2) as D3. pose proof (calm_trans _ _ _ Cm2 (calm_same _ _ S3)) as Cm3.
  destruct S3 as (_ & M3 & _). rewrite <- M3 in Tr2, K2. unfold pmap in *.
  assert (Ll : (length (ps ++ arr :: N2) + length r <= length (ps ++ arr :: N) + length s)%nat) by (rewrite !length_app; simpl; lia).
  destruct (separator_at close r) as [| |more r2] eqn:Esep; [|done|]; cbn [pbind].
  { subst sep. cbn. eapply returns_none; [done|done|]. exists (ps ++ arr :: N2). split; [done|]. split; [done|lia]. }
  destruct H3 as [-> T3]. apply separator_shortens in Esep. destruct more; cbn.
  - eapply (returns_map _ _ id); [apply (Next r2 p3 Esep T3 D3 Tr2)|by destruct (rest r2)|by destruct (rest r2)| | |].
    + destruct (rest r2); [done..|]. cbn. intros ? ? [= <- <-]. by rewrite <- app_assoc.
    + intros q Nr. eapply not_read_le; [exact Cm3|exact Nr|lia].
    + intros ws r' x q Cr. eapply container_read_le; [exact Cr|done|done|lia].
  - eapply returns_some; [done|done|]. split; [done|]. exists N2. split_and!; try done. lia.
Qed.

Lemma array_loop_spec pv value k : reads k pv value -> forall n E ps arr N vs s p,
  (length s < n)%nat -> (length s < k)%nat -> at_text p s -> pinv E p (ps ++ arr :: N) -> tree (p_mem p) arr (VArr vs) (arr :: N) ->
  returns (pmap (app vs) (elements_at value (ch "]") n s)) (array_loop a junk pv n arr p)
    (not_read s p E (ps ++ arr :: N)) (container_read VArr (length N + length s) p E ps arr).
Proof.
  intros Rd. induction n as [|n IH]; intros E ps arr N vs s p Hn Hk T D Tr; [lia|]. cbn [array_loop elements_at].
  destruct (Rd E _ s p Hk T D) as [-> Hsp|p' -> Hsp Nr|e p1 v r -> Hsp (N' & T1 & D1 & Cm1 & Tr1 & K1 & L1)]; rewrite ?Hsp; cbn [obind].
  { by apply returns_crash. }
  { eapply returns_none; [done| |done]. intros X. apply Hsp. intros Y. by rewrite Y in X. }
  pose proof T1 as (_ & _ & ->). unfold pmap. cbn [pbind]. rewrite <- app_assoc in D1. cbn [app] in D1.
  apply keeps_app in K1 as [K1 K1']. destruct (array_push_tree E _ _ _ ps arr N vs e v N' D1 (tree_frame _ _ _ _ _ Tr K1') Tr1)
    as (ok & m2 & c2 & -> & G2 & D2 & H2). cbn [obind]. set (p2 := set_ctx c2 (set_mem m2 p1)).
  assert (Cm2 : calm p p2) by (intros G; auto). destruct (tree_head _ _ _ _ Tr1) as [N2 HN].
  destruct ok.
  2:{ eapply returns_none; [done|by intros _|]. exists (ps ++ arr :: N ++ N'). split; [done|]. split; [done|].
      rewrite !length_app. simpl. rewrite length_app. lia. }
  destruct H2 as [Tr2 K2]. apply (next_element VArr (ch "]") _ _ E ps arr N (N ++ N')); try done.
  - by eapply keeps_trans.
  - rewrite length_app. lia.
  - intros r2 p3 Hr T3 D3 Tr3. assert (length N' = S (length N2)) by (by rewrite HN). apply IH; (done || lia).
Qed.

Lemma same_but_pos_trans p1 p2 p3 : same_but_pos p1 p2 -> same_but_pos p2 p3 -> same_but_pos p1 p3.
Proof. unfold same_but_pos. intros (-> & -> & ->) (-> & -> & ->). done. Qed.

(** A container that has just been made, and the elements that a loop adds to it. *)
Lemma container_spec {A : Type} (wrap : list A -> json) (d : payload) (open close : Z) (element : bytes -> parsed A)
    (loop : nat -> addr -> parser_t C -> outcome (option addr * parser_t C)) n E ps s p :
  payload_ok d -> payload_blocks d = [] -> (forall m x, data_at m x = Some d -> tree m x (wrap []) [x]) ->
  (forall x s' p', (length s' <= length s)%nat -> at_text p' s' -> pinv E p' (ps ++ [x]) -> tree (p_mem p') x (wrap []) [x] ->
     returns (elements_at element close n s') (loop n x p') (not_read s' p' E (ps ++ [x])) (container_read wrap (length s') p' E ps x)) ->
  at_text p (open :: s) -> pinv E p ps ->
  returns (pmap wrap (elements_or_none element close n s))
    (let! no := not_at open p in
     if no : bool then Ret (None, fail p)
     else
       let! (arr, p) := new_value a (advance 1 p) in
       match arr with
       | None => Ret (None, fail p)
       | Some arr =>
           let! p := set_value arr d p in
           let! p := skip_ws p in
           let! more := not_at close p in
           if more : bool then loop n arr p else Ret (Some arr, advance 1 p)
       end)
    (not_read (open :: s) p E ps) (value_read (open :: s) p E ps).
Proof.
  intros Hd Hb Ht Hl T D. rewrite (not_at_text _ _ _ T). cbn [obind]. rewrite bool_decide_eq_false_2 by auto.
  apply at_text_next in T. destruct (new_value_spec E (advance 1 p) ps D) as [(p' & -> & D' & Cm & G)|(x & p1 & -> & S1 & Cm & Nx & Set_)]; cbn [obind].
  { eapply returns_none; [done|by intros _|]. exists ps. split; [done|]. split; [done|simpl; lia]. }
  destruct (Set_ d p1 Hd ltac:(done)) as (p2 & -> & S2 & Cm2 & Ed & K & D2). cbn [obind]. specialize (D2 E ltac:(by rewrite Hb)).
  destruct (skip_ws_text p2 s) as (p3 & -> & T3 & S3); [by do 2 (eapply at_text_pos; [done|])|]. cbn [obind]. rewrite (not_at_text _ _ _ T3). cbn [obind].
  pose proof (calm_trans _ _ _ Cm2 (calm_same _ _ S3)) as Cm3. change (calm p p3) in Cm3. pose proof (pinv_same E p2 p3 _ S3 D2) as D3.
  assert (M3 : p_mem p3 = p_mem p2) by apply S3. rewrite <- M3 in Ed, K. pose proof (ws_length s) as Lw.
  assert (Loop : returns (pmap wrap (elements_at element close n (ws s))) (loop n x p3) (not_read (open :: s) p E ps) (value_read (open :: s) p E ps)).
  { destruct (Hl x (ws s) p3 Lw T3 D3 (Ht _ _ Ed)) as [-> Hsp|p' -> Hsp Nr|b p' vs r -> Hsp Cr].
    - by apply returns_crash; [|rewrite Hsp].
    - eapply returns_none; [done| |eapply not_read_le; [exact Cm3|exact Nr|rewrite length_app; simpl; lia]]. intros X. apply Hsp. intros Y. by rewrite Y in X.
    - destruct Cr as (-> & N & T' & D' & Cm' & Tr & K' & L). eapply returns_some; [done|by rewrite Hsp|]. exists (x :: N).
      split; [done|]. split; [done|]. split; [by eapply calm_trans|]. split; [done|]. split; [by eapply keeps_trans|simpl; lia]. }
  unfold elements_or_none. destruct (ws s) as [|y r]; [done|]. case_decide as Dy.
  - rewrite bool_decide_eq_false_2 by auto. eapply returns_some; [done|done|]. exists [x]. split; [by eapply at_text_next|]. split; [done|]. split; [done|].
    split; [by apply Ht|]. split; [done|]. simpl in *. lia.
  - by rewrite bool_decide_eq_true_2 by done.
Qed.

Lemma parse_array_spec pv value k n E ps s p : reads k pv value -> (length s < n)%nat -> (length s < k)%nat ->
  at_text p (ch "[" :: s) -> pinv E p ps ->
  returns (pmap VArr (elements_or_none value (ch "]") n s)) (parse_array a junk pv n p)
    (not_read (ch "[" :: s) p E ps) (value_read (ch "[" :: s) p E ps).
Proof.
  intros Rd Hn Hk T D. apply (container_spec VArr (JArray None 0 0) (ch "[") (ch "]") value (array_loop a junk pv)); try done.
  - simpl. split; [|lia]. apply slots_empty.
  - intros m x H. by eapply (tree_arr m x None 0 [] [] []); [|constructor|constructor].
  - intros x s' p' Hs' T' D' Tr. pose proof (array_loop_spec pv value k Rd n E ps x [] [] s' p' ltac:(lia) ltac:(lia) T' D' Tr) as H.
    unfold pmap in H. cbn [app length Nat.add] in H. by destruct (elements_at _ _ _ _).
Qed.

(** ** Objects *)

(** One more member behind those of an object, which then owns the key. *)
Lemma object_push_tree E doc m c ps obj N kvs (b : block) key e v N' :
  doc_inv a (b_addr b :: E) c0 m0 doc m c (ps ++ obj :: N ++ N') -> tree m obj (VObj kvs) (obj :: N) -> str_in b key -> tree m e v N' ->
  exists ok m' c', object_push a obj b e m c = Ret (ok, m', c') /\ (granted c' -> granted c) /\
    if ok : bool then doc_inv a E c0 m0 doc m' c' (ps ++ obj :: N ++ N') /\ tree m' obj (VObj (kvs ++ [(key, v)])) (obj :: N ++ N') /\ keeps ps m m'
    else doc_inv a (b_addr b :: E) c0 m0 doc m' c' (ps ++ obj :: N ++ N') /\ ~ granted c'.
Proof.
  intros D T1 Hb T2. pose proof (d_nodup _ _ _ _ _ _ _ _ D) as ND. inversion T1 as [| | | | |? keys values cap bs xs ? ? Ed Ek Ev Fk Ts]; subst.
  destruct (data_at_Some _ _ _ Ed) as (w & Ew & Dw).
  destruct (object_push_spec a _ _ _ _ _ _ _ obj w keys values (zlen xs) cap b e D ltac:(set_solver) Ew Dw) as (ok & m' & c' & Ep & G & H).
  exists ok, m', c'. split; [done|]. split; [done|]. destruct ok; [|by destruct H as (? & -> & ?)]. destruct H as (D' & keys' & values' & cap' & -> & Ek' & Ev').
  split; [done|]. apply NoDup_app in ND as (_ & Np & ND). apply NoDup_cons in ND as [Na _].
  split; [|apply keeps_insert; intros Hy; apply (Np _ Hy); by left].
  assert (L : Z.to_nat (zlen xs + 1) = length (xs ++ [e])) by (rewrite length_app; unfold zlen; simpl; lia). rewrite L in Ek', Ev'.
  unfold zlen in Ek', Ev'. rewrite Nat2Z.id in Ek', Ev'.
  replace (zlen xs + 1) with (zlen (xs ++ [e])) by zl. eapply (tree_obj _ _ _ _ _ (bs ++ [b])).
  - unfold data_at. by rewrite lookup_insert_eq.
  - by rewrite Ek', fmap_app, Ek.
  - by rewrite Ev', fmap_app, Ev.
  - apply Forall2_app; [done|]. by constructor.
  - rewrite fmap_app. apply trees_snoc; [eapply trees_frame; [exact Ts|]|eapply tree_frame; [exact T2|]]; apply keeps_insert; set_solver.
Qed.

Lemma not_read_key E (b : block) p p' s ps ps' : pinv (b_addr b :: E) p' ps' -> calm p p' -> (length ps' <= length ps + length s)%nat ->
  not_read s p E ps (free_key a b p').
Proof. intros D Cm L. exists ps'. split; [by apply pinv_free|]. split; [|done]. intros G%granted_free. auto. Qed.

Lemma object_loop_spec pv value k fuel : reads k pv value -> forall n E ps obj N kvs s p,
  (length s < n)%nat -> (length s < k)%nat -> (length s < fuel)%nat -> at_text p s -> pinv E p (ps ++ obj :: N) -> tree (p_mem p) obj (VObj kvs) (obj :: N) ->
  returns (pmap (app kvs) (elements_at (member_at value) (ch "}") n s)) (object_loop a pv n fuel obj p)
    (not_read s p E (ps ++ obj :: N)) (container_read VObj (length N + length s) p E ps obj).
Proof.
  intros Rd. induction n as [|n IH]; intros E ps obj N kvs s p Hn Hk Hf T D Tr; [lia|]. cbn [object_loop elements_at]. unfold member_at at 1.
  destruct (skip_ws_text p s T) as (p1 & -> & T1 & S1). cbn [obind]. rewrite (not_at_text _ _ _ T1). cbn [obind]. pose proof (ws_length s) as L1.
  pose proof (pinv_same E p p1 _ S1 D) as D1. pose proof (calm_same _ _ S1) as Cm1.
  assert (No : forall q, same_but_pos p1 q -> returns (PNo : parsed (list (bytes * json))) (Ret (None, q)) (not_read s p E (ps ++ obj :: N)) (container_read VObj (length N + length s) p E ps obj)).
  { intros q Sq. eapply returns_none; [done|done|]. eapply not_read_same; [|done]. by eapply same_but_pos_trans. }
  destruct (ws s) as [|x s1]; [by apply No|]. destruct (decide (x = 34)) as [->|Nx]; [rewrite bool_decide_eq_false_2 by auto|rewrite bool_decide_eq_true_2 by done; by apply No].
  simpl in L1.
  destruct (string_raw_spec E _ fuel s1 p1 ltac:(lia) T1 D1) as [-> Hsp|p2 -> Hsp [D2 Cm2]|b p2 key r -> Hsp (T2 & D2 & Cm2 & M2 & Hb)]; cbn [obind].
  { by apply returns_crash; [|rewrite Hsp]. }
  { eapply returns_none; [done| |exists (ps ++ obj :: N); split; [done|]; split; [by eapply calm_trans|lia]]. intros X. apply Hsp. intros Y. by rewrite Y in X. }
  rewrite Hsp. cbn [pbind]. apply string_shortens in Hsp. pose proof (calm_trans _ _ _ Cm1 Cm2) as Cm12.
  destruct (skip_ws_text p2 r T2) as (p3 & -> & T3 & S3). cbn [obind]. rewrite (not_at_text _ _ _ T3). cbn [obind]. pose proof (ws_length r) as L3.
  pose proof (pinv_same _ p2 p3 _ S3 D2) as D3. pose proof (calm_trans _ _ _ Cm12 (calm_same _ _ S3)) as Cm3.
  assert (No3 : returns (PNo : parsed (list (bytes * json))) (Ret (None, fail (free_key a b p3))) (not_read s p E (ps ++ obj :: N)) (container_read VObj (length N + length s) p E ps obj)).
  { eapply returns_none; [done|done|]. apply (not_read_key E b p p3 s _ (ps ++ obj :: N)); [done|done|lia]. }
  destruct (ws r) as [|y r1]; [by apply No3|]. destruct (decide (y = ch ":")) as [->|Ny]; [rewrite bool_decide_eq_false_2 by auto|rewrite bool_decide_eq_true_2 by done; by apply No3].
  simpl in L3. apply at_text_next in T3. clear No No3.
  assert (M3 : p_mem p3 = p_mem p). { destruct S3 as (_ & -> & _), S1 as (_ & M1 & _). by rewrite M2. }
  destruct (Rd (b_addr b :: E) _ r1 (advance 1 p3) ltac:(lia) T3 D3) as [-> Hv|p4 -> Hv (ps' & D4 & Cm4 & L4)|e p4 v r2 -> Hv (N' & T4 & D4 & Cm4 & Tr4 & K4 & L4)]; cbn [obind].
  { by apply returns_crash; [|rewrite Hv]. }
  { eapply returns_none; [done| |eapply not_read_key; [exact D4|by eapply calm_trans|lia]].
    intros X G%granted_free. revert G. apply Hv. intros Y. by rewrite Y in X. }
  rewrite Hv. cbn [pbind]. pose proof T4 as (_ & _ & ->). rewrite <- app_assoc in D4. cbn [app] in D4. pose proof (calm_trans _ _ _ Cm3 Cm4) as Cm5.
  change (p_mem (advance 1 p3)) with (p_mem p3) in K4. rewrite M3 in K4. apply keeps_app in K4 as [K4 K4'].
  destruct (object_push_tree E _ _ _ ps obj N kvs b key e v N' D4 (tree_frame _ _ _ _ _ Tr K4') Hb Tr4) as (ok & m5 & c5 & -> & G5 & H5).
  cbn [obind]. set (p5 := set_ctx c5 (set_mem m5 p4)). assert (Cm6 : calm p p5) by (intros G; apply Cm5; by apply G5).
  destruct (tree_head _ _ _ _ Tr4) as [N2 HN]. assert (length N' = S (length N2)) by (by rewrite HN).
  assert (Ll : (length (ps ++ obj :: N ++ N') <= length (ps ++ obj :: N) + length s)%nat) by (rewrite !length_app; simpl; rewrite length_app; lia).
  destruct ok.
  2:{ destruct H5 as [D5 G6]. eapply returns_none; [done| |].
      - intros _ G%granted_free. done.
      - apply (not_read_key E b p p5 s (ps ++ obj :: N) (ps ++ obj :: N ++ N')); done. }
  destruct H5 as (D5 & Tr5 & K5). apply (next_element VObj (ch "}") _ _ E ps obj N (N ++ N')); try done.
  - by eapply keeps_trans.
  - rewrite length_app. lia.
  - intros r3 p6 Hr T6 D6 Tr6. apply IH; (done || lia).
Qed.

Lemma parse_object_spec pv value k n E ps s p : reads k pv value -> (length s < n)%nat -> (length s < k)%nat ->
  at_text p (ch "{" :: s) -> pinv E p ps ->
  returns (pmap VObj (elements_or_none (member_at value) (ch "}") n s)) (parse_object a pv n p)
    (not_read (ch "{" :: s) p E ps) (value_read (ch "{" :: s) p E ps).
Proof.
  intros Rd Hn Hk T D.
  apply (container_spec VObj (JObject None None 0 0) (ch "{") (ch "}") (member_at value) (fun n => object_loop a pv n n)); try done.
  - simpl. split_and!; try lia; try apply slots_empty. constructor.
  - intros m x H. by eapply (tree_obj m x None None 0 [] [] [] []); [|constructor..].
  - intros x s' p' Hs' T' D' Tr. pose proof (object_loop_spec pv value k n Rd n E ps x [] [] s' p' ltac:(lia) ltac:(lia) ltac:(lia) T' D' Tr) as H.
    unfold pmap in H. cbn [app length Nat.add] in H. by destruct (elements_at _ _ _ _).
Qed.

(** ** Any value *)

Lemma returns_le (s s' : bytes) spec r p p' E ps :
  returns spec r (not_read s' p' E ps) (value_read s' p' E ps) -> same_but_pos p p' -> (length s' <= length s)%nat ->
  returns spec r (not_read s p E ps) (value_read s p E ps).
Proof.
  intros R S L. pose proof (calm_same _ _ S) as Cm. destruct S as (_ & M & _).
  eapply (returns_map _ _ id); [exact R|done|done|done| |].
  - intros q Nr. eapply not_read_le; [exact Cm|exact Nr|lia].
  - intros v r' x q (N & T & D & Cm' & Tr & K & L'). exists N. split; [done|]. split; [done|]. split; [by eapply calm_trans|].
    split; [done|]. rewrite M in K. split; [done|lia].
Qed.

Lemma parse_value_spec : forall fuel, reads fuel (parse_value a junk fuel) (value_at fuel).
Proof.
  induction fuel as [|fuel IH]; intros E ps s p Hs T D; [lia|]. cbn [parse_value value_at].
  destruct (skip_ws_text p s T) as (p1 & -> & T1 & S1). cbn [obind]. pose proof (pinv_same E p p1 _ S1 D) as D1. pose proof (ws_length s) as L.
  apply (returns_le s (ws s) _ _ p p1); [|done|done]. pose proof T1 as (A1 & A2 & A3). rewrite A1, A2.
  destruct (ws s) as [|x r]; [eapply returns_none; [done|done|]; by apply not_read_same|].
  pose proof (zlen_nonneg r). destruct (decide (zlen (x :: r) <= 0)) as [Z|_]; [rewrite zlen_cons in Z; lia|]. cbn [app look obind]. simpl in L.
  case_decide; [apply (json_literal_spec (lit "null") JNull VNull ltac:(done) I eq_refl (tree_null) (S (S (length r)))); (done || simpl; lia)|].
  case_decide; [apply (json_literal_spec (lit "true") (JBool 1) (VBool true) ltac:(done) I eq_refl (fun m x => tree_bool m x true) (S (S (length r)))); (done || simpl; lia)|].
  case_decide; [apply (json_literal_spec (lit "false") (JBool 0) (VBool false) ltac:(done) I eq_refl (fun m x => tree_bool m x false) (S (S (length r)))); (done || simpl; lia)|].
  case_decide; [subst x; apply (parse_array_spec _ _ fuel); (done || lia)|].
  case_decide; [subst x; apply (parse_object_spec _ _ fuel); (done || lia)|].
  case_decide; [subst x; apply string_value_spec; (done || lia)|].
  case_decide; [by apply number_value_spec|]. eapply returns_none; [done|done|]. by apply not_read_same.
Qed.
End Parser.

(** ** Documents *)

Section ParseDocuments.
Context {C : Type} (a : zenit_allocator_t C) {SP : AllocSpec a} {W : Watched a} (junk : option addr).
Implicit Types (c : C) (m : store).

(** A document that holds [v] and owns all that was allocated since [c0]. *)
Definition document c0 m0 (doc : zenit_json_t) (v : json) m c : Prop :=
  exists x N, j_root doc = Some x /\ tree m x v N /\ doc_inv a [] c0 m0 doc m c N.

(** Destroying a document gives back what it owns, and its values leave the store. *)
Lemma document_destroy c0 m0 doc m c N chain : dom m0 ⊆ live c0 -> doc_inv a [] c0 m0 doc m c N -> (length N <= chain)%nat ->
  exists c', zenit_json_destroy a chain (Some doc) m c = Ret (m0, c') /\ live c' = live c0 /\ (granted c' -> granted c).
Proof.
  intros Hm D L. destruct (json_destroy_spec a [] c0 m0 doc m c N chain D L) as (m' & c' & E & O & G & H). exists c'.
  assert (m' = m0) as ->; [|split; [done|]; split; [by apply owns_nil|done]].
  apply map_eq. intros x. rewrite H. case_decide as Dx; [|done]. symmetry. apply not_elem_of_dom. intros Hx%Hm. revert Hx.
  destruct (d_owns _ _ _ _ _ _ _ _ D) as (_ & Nl & _). apply Nl. set_solver.
Qed.

Lemma json_create_spec c m r c' : zenit_json_create_with_allocator a c = (r, c') ->
  (granted c' -> granted c) /\
  match r with None => live c' = live c /\ ~ granted c' | Some doc => doc_inv a [] c m doc m c' [] end.
Proof.
  unfold zenit_json_create_with_allocator. destruct (alloc_fn a SIZEOF_JSON c) as [[b|] c1] eqn:A; intros [= <- <-];
    (split; [by intros G; apply (granted_alloc _ _ _ _ A G)|]).
  - constructor; try done; [by intros x ?%not_elem_of_nil|]. simpl. apply (owns_alloc a _ _ _ _ _ _ (owns_refl a c) A).
  - split; [by eapply alloc_none|]. intros G. by destruct (granted_alloc _ _ _ _ A G).
Qed.

Lemma text_fuel fuel s : (length s < fuel)%nat ->
  parse_text s = pbind (value_at fuel s) (fun v r => if decide (ws r = []) then PYes v [] else PNo).
Proof. intros H. unfold parse_text. by rewrite (value_fuel (S (length s)) fuel) by lia. Qed.

(** Parsing into a document that has no values yet. *)
Lemma parse_into_spec fuel doc s tail m c c1 :
  (length s < fuel)%nat -> doc_inv a [] c m doc m c1 [] ->
  (json_parse_into a junk fuel doc (s ++ NUL :: tail) (zlen s) m c1 = Undef /\ parse_text s = PCrash) \/
  exists ok doc' m' c' N, json_parse_into a junk fuel doc (s ++ NUL :: tail) (zlen s) m c1 = Ret (ok, doc', m', c') /\
    doc_inv a [] c m doc' m' c' N /\ (length N <= length s)%nat /\ (granted c' -> granted c1) /\
    if ok : bool then exists x v, j_root doc' = Some x /\ tree m' x v N /\ parse_text s = PYes v [] else parse_text s <> PNo -> ~ granted c'.
Proof.
  intros Hf D. unfold json_parse_into. rewrite (text_fuel fuel s Hf). set (p0 := mk_parser _ _ _ _ _ _).
  destruct (parse_value_spec a junk c m tail fuel [] [] s p0 Hf) as [-> Hsp|p' -> Hsp (ps' & D' & Cm & L)|x p' v r -> Hsp (N & T & D' & Cm & Tr & K & L)];
    [done|done| | |]; cbn [obind].
  - left. by rewrite Hsp.
  - right. eexists false, _, _, _, ps'. split; [done|]. split; [done|]. split; [simpl in L; lia|]. split; [done|].
    intros X. apply Hsp. intros Y. by rewrite Y in X.
  - right. rewrite Hsp. cbn [pbind]. pose proof T as (_ & _ & ->). destruct (skip_ws_text tail p' r T) as (p2 & -> & T2 & S1 & S2 & S3). cbn [obind].
    pose proof T2 as (_ & A2 & _). rewrite A2, S1, S2, S3. cbn [app] in D'. destruct (decide (ws r = [])) as [Er|Er].
    + rewrite Er, decide_False by (by intros []). eexists true, _, _, _, N. split; [done|]. split; [by destruct D'|]. split; [lia|]. split; [done|]. by exists x, v.
    + rewrite decide_True by (by intros X%zlen_0). eexists false, _, _, _, N. split; [done|]. split; [done|]. split; [lia|]. split; [done|]. done.
Qed.

Lemma parse_with_length_spec fuel chain s tail m c :
  (length s < fuel)%nat -> (length s <= chain)%nat -> dom m ⊆ live c ->
  let run := zenit_json_parse_with_length_and_allocator a junk fuel chain (Some (s ++ NUL :: tail)) (zlen s) m c in
  (run = Undef /\ parse_text s = PCrash) \/
  (exists c', run = Ret (None, m, c') /\ live c' = live c /\ (parse_text s <> PNo -> ~ granted c')) \/
  (exists doc m' c' v, run = Ret (Some doc, m', c') /\ parse_text s = PYes v [] /\ document c m doc v m' c' /\
     exists c'', zenit_json_destroy a chain (Some doc) m' c' = Ret (m, c'') /\ live c'' = live c).
Proof.
  intros Hf Hc Hm run. unfold run, zenit_json_parse_with_length_and_allocator.
  destruct (zenit_json_create_with_allocator a c) as [[doc|] c1] eqn:Ec; destruct (json_create_spec c m _ _ Ec) as [G1 D].
  2:{ right. left. exists c1. split; [done|]. split; [apply D|]. intros _. apply D. }
  destruct (parse_into_spec fuel doc s tail m c c1 Hf D) as [[-> Hp]|(ok & doc' & m' & c' & N & -> & D' & L & G & H)]; [by left|]. right. cbn [obind].
  destruct (document_destroy c m doc' m' c' N chain Hm D' ltac:(lia)) as (c'' & Ed & Hl & G'').
  destruct ok; [right|left].
  - destruct H as (x & v & Hr & Tr & Hp). exists doc', m', c', v. split; [done|]. split; [done|]. split; [by exists x, N|]. by exists c''.
  - rewrite Ed. cbn [obind]. exists c''. split; [done|]. split; [done|]. intros X G'. by apply H, G''.
Qed.

Lemma parse_by_length fuel chain s tail m c : Forall (fun x => 0 < x < 256) s ->
  zenit_json_parse_with_allocator a junk fuel chain (Some (s ++ NUL :: tail)) m c =
  zenit_json_parse_with_length_and_allocator a junk fuel chain (Some (s ++ NUL :: tail)) (zlen s) m c.
Proof. intros Hs. unfold zenit_json_parse_with_allocator. by rewrite strlen_app. Qed.

(** A document was returned. *)
Lemma parsed_document fuel chain s tail m c v : Forall (fun x => 0 < x < 256) s -> (length s < fuel)%nat -> (length s <= chain)%nat -> dom m ⊆ live c ->
  parse_text s = PYes v [] ->
  match zenit_json_parse_with_allocator a junk fuel chain (Some (s ++ NUL :: tail)) m c with Ret (Some _, _, _) => True | _ => False end ->
  exists doc m' c', zenit_json_parse_with_allocator a junk fuel chain (Some (s ++ NUL :: tail)) m c = Ret (Some doc, m', c') /\ document c m doc v m' c'.
Proof.
  intros Hs Hf Hc Hm P. rewrite parse_by_length by done. pose proof (parse_with_length_spec fuel chain s tail m c Hf Hc Hm) as T. cbv zeta in T. rewrite P in T.
  destruct T as [[-> _]|[(c2 & -> & _)|(d2 & m2 & c2 & v2 & -> & Y & D & _)]]; [done|done|]. intros _. injection Y as <-. by exists d2, m2, c2.
Qed.

End ParseDocuments.

(** ** A concrete run *)

Definition wit_text : bytes := lit "{" ++ [34] ++ lit "a" ++ [34] ++ lit ": [1, true]}".
Definition wit_value : json := VObj [(lit "a", VArr [VNum (of_int 1); VBool true])].
Abbreviation wit_parse :=
  (zenit_json_parse_with_allocator (watched ZENIT_ALLOCATOR_DEFAULT) None 20 20 (Some (wit_text ++ [NUL])) empty (empty_heap, false)) (only parsing).

Lemma wit_text_value : parse_text wit_text = PYes wit_value [].
Proof. vm_compute. reflexivity. Qed.

Lemma wit_text_chars : Forall (fun x => 0 < x < 256) wit_text.
Proof. by repeat constructor. Qed.

Lemma wit_parse_some : match wit_parse with Ret (Some _, _, _) => True | _ => False end.
Proof. vm_compute. exact I. Qed.

