(* ===== verification/JsonPrint.v ===== *)
(** * The JSON serializer

    [value_serialize_into] appends [print v] to its output, for a node that stands for
    [v]; the string that is returned is [print v], and for a printable value the parser
    makes [v] of it again. *)

From Stdlib Require Import ZArith Lia Ascii String SpecFloat.
From stdpp Require Import base tactics option list numbers gmap sets.
From S2P Require Import Prelude Mem Result Allocator Growth Vector Links Text Arrays StringBuilder Semver JsonNumber Json JsonSpec JsonText JsonMemory JsonTree JsonParse.
Open Scope Z_scope.

(** ** Characters of a text *)

Definition chars (t : bytes) : Prop := Forall (fun c => 0 < c < 256) t.

Lemma chars_app t u : chars (t ++ u) <-> chars t /\ chars u.
Proof. apply Forall_app. Qed.

Lemma chars_take n t : chars t -> chars (take n t).
Proof. apply Forall_take. Qed.

Lemma chars_drop n t : chars t -> chars (drop n t).
Proof. apply Forall_drop. Qed.

Lemma chars_replicate n x : 0 < x < 256 -> chars (replicate n x).
Proof. intros H. apply Forall_replicate. done. Qed.

Lemma chars_digits fuel : forall n acc, chars acc -> chars (digits fuel n acc).
Proof.
  induction fuel as [|fuel IH]; intros n acc H; [done|]. cbn [digits].
  assert (chars ((ch "0" + n mod 10) :: acc)) by (constructor; [pose proof (Z.mod_pos_bound n 10); chars; lia|done]).
  case_decide; auto.
Qed.

Lemma chars_decimal n : chars (decimal n).
Proof. apply chars_digits. constructor. Qed.

Lemma chars_minus x : chars (minus x).
Proof. unfold minus. destruct (sign x); [by repeat constructor|constructor]. Qed.

Lemma chars_lit s : forallb (fun c => bool_decide (0 < c < 256)) (lit s) = true -> chars (lit s).
Proof. apply lit_chars. Qed.

Lemma chars_special x t : special x = Some t -> chars t.
Proof.
  destruct x; simpl; try done; intros [= <-]; [apply chars_app; split; [apply chars_minus|]|]; by apply chars_lit.
Qed.

Lemma strip_suffix t : exists k, strip t = drop k t.
Proof.
  induction t as [|x t [k IH]]; [by exists O|]. simpl. case_decide; [by exists (S k)|by exists O].
Qed.

Lemma chars_reverse t : chars t -> chars (reverse t).
Proof. unfold chars. by rewrite Forall_reverse. Qed.

Lemma chars_fraction t : chars t -> chars (fraction_text t).
Proof.
  intros H. unfold fraction_text. destruct (strip_suffix (reverse t)) as [k E]. rewrite E.
  pose proof (chars_drop k _ (chars_reverse _ H)) as H'. destruct (drop k (reverse t)) as [|y l]; [constructor|].
  constructor; [done|by apply chars_reverse].
Qed.

Lemma chars_f0 x : chars (show_f0 x).
Proof.
  unfold show_f0. destruct (special x) eqn:E; [by eapply chars_special|]. destruct (fraction x). apply chars_app. split; [apply chars_minus|apply chars_decimal].
Qed.

Lemma chars_g p x : chars (show_g p x).
Proof.
  unfold show_g. destruct (special x) eqn:E; [by eapply chars_special|]. destruct x; try (apply chars_app; split; [apply chars_minus|by repeat constructor]).
  destruct (fraction _) as [n d]. destruct (significant p n d) as [k ex]. pose proof (chars_decimal k) as Hk.
  apply chars_app. split; [apply chars_minus|]. repeat case_decide.
  - apply chars_app. split; [by apply chars_take|by apply chars_fraction, chars_drop].
  - constructor; [done|]. apply chars_fraction, chars_app. split; [by apply chars_replicate|done].
  - apply chars_app. split; [by apply chars_take|]. apply chars_app. split; [by apply chars_fraction, chars_drop|]. constructor; [done|]. constructor; [done|].
    apply chars_app. split; [by apply chars_replicate|apply chars_decimal].
  - apply chars_app. split; [by apply chars_take|]. apply chars_app. split; [by apply chars_fraction, chars_drop|]. constructor; [done|]. constructor; [done|].
    apply chars_app. split; [by apply chars_replicate|apply chars_decimal].
Qed.

Lemma chars_buf n t : chars t -> chars (into_buf n t).
Proof. apply chars_take. Qed.

(** The text of a number is found, whatever the number. *)
Lemma format_number_text x : format_number x 64 = Ret (number_text x) /\ chars (number_text x) /\ zlen (number_text x) < 64.
Proof.
  assert (L : forall t, zlen (into_buf 64 t) < 64) by (intros t; unfold into_buf, zlen; rewrite length_take; lia).
  assert (H : exists t, format_number x 64 = Ret (into_buf 64 t) /\ chars t).
  { unfold format_number. destruct (_ && _); [exists (show_f0 x); split; [done|apply chars_f0]|].
    assert (exists t, format_number_loop x (into_buf 64 (show_g 17 x)) 16 = Ret t /\ chars t) as (t & -> & Ht); [|by exists t].
    generalize 16%nat. intros n. induction n as [|n (t & IH & Ht)]; [eexists; split; [done|apply chars_buf, chars_g]|].
    cbn [format_number_loop]. destruct (strtod_stop (into_buf 64 (show_g (Z.of_nat (S n)) x)) NUL [] eq_refl) as (u & _ & ->). cbn [obind].
    assert (exists y, look ((strtod_text (into_buf 64 (show_g (Z.of_nat (S n)) x))).2 ++ [NUL]) = Ret y) as [y ->] by (destruct (_.2); by eexists).
    cbn [obind]. destruct (_ && _); [eexists; split; [done|apply chars_buf, chars_g]|by exists t]. }
  destruct H as (t & E & Ht). unfold number_text. rewrite E. split; [done|]. split; [by apply chars_buf|apply L].
Qed.

(** ** Appending *)

Section Serializing.
Context {D : Type} (a : zenit_allocator_t D) {SP : AllocSpec a} {W : Watched a} (fuel : nat).
Implicit Types (out : zenit_string_t D) (d : D) (m : store) (w : bytes).

(** A vector of this allocator. *)
Definition ours (v : option (zenit_vector_t D)) : Prop := match v with Some v => v_allocator v = a | None => True end.

Lemma realloc_buffer_granted v n d r v' d' : realloc_buffer v n d = Ret (r, v', d') -> ours (Some v) ->
  ours (Some v') /\ (granted d' -> r = ZENIT_OK /\ granted d).
Proof.
  unfold realloc_buffer, ours. intros E Hv. rewrite Hv in E. case_decide; [injection E as <- <- <-; split; [done|]; by intros G%granted_free|].
  destruct (zenit_allocator_realloc _ _ _ _ _) as [[b d1]| |] eqn:R; [|done|done]. cbn [obind] in E.
  pose proof (realloc_granted a _ _ _ _ _ _ R) as G. destruct b as [b|]; injection E as <- <- <-; (split; [done|]); intros G'; by destruct (G G').
Qed.

Lemma reserve_granted v n d r v' d' : zenit_vector_reserve v n d = Ret (r, v', d') -> ours v -> v <> None ->
  ours v' /\ (granted d' -> r = ZENIT_OK /\ granted d).
Proof.
  unfold zenit_vector_reserve. destruct v as [v|]; [|done]. intros E Hv _. case_decide; [by injection E as <- <- <-|].
  destruct (realloc_buffer v n d) as [[[r1 v1] d1]| |] eqn:R; [|done|done]. cbn [obind] in E. injection E as <- <- <-. by eapply realloc_buffer_granted.
Qed.

Lemma push_granted v e d r v' d' : zenit_vector_push fuel v e d = Ret (r, v', d') -> ours v ->
  ours v' /\ (granted d' -> granted d /\ (v <> None -> e <> None -> r = ZENIT_OK)).
Proof.
  unfold zenit_vector_push. destruct v as [v|]; [|intros [= <- <- <-]; done]. destruct e as [e|]; [|intros [= <- <- <-]; done]. intros E Hv.
  destruct (if decide _ then _ else _) as [[[r1 v1] d1]| |] eqn:G; [|done|done]. cbn [obind] in E.
  assert (ours (Some v1) /\ (granted d1 -> r1 = ZENIT_OK /\ granted d)) as [O1 G1].
  { clear E. case_decide; [|by injection G as <- <- <-]. unfold grow in G. destruct (grow15 _ _ _); [|done|done]. cbn [obind] in G.
    by eapply realloc_buffer_granted. }
  case_decide; [injection E as <- <- <-; split; [done|]; intros X; by destruct (G1 X)|]. destruct (rd _ _ _); [|done|done]. cbn [obind] in E. destruct (pwr _ _ _); [|done|done]. cbn [obind] in E.
  injection E as <- <- <-. split; [done|]. intros X. by destruct (G1 X).
Qed.

Lemma push_null_granted out d r out' d' : push_null fuel out d = Ret (r, out', d') -> ours (sb_vec out) ->
  ours (sb_vec out') /\ (granted d' -> granted d /\ (sb_vec out <> None -> r = ZENIT_OK)).
Proof.
  unfold push_null. destruct (zenit_vector_push _ _ _ _) as [[[r1 v1] d1]| |] eqn:P; [|done|done]. cbn [obind]. intros [= <- <- <-] O.
  destruct (push_granted _ _ _ _ _ _ P O) as [O1 G1]. split; [done|]. intros G. destruct (G1 G) as [? X]. split; [done|]. intros Y. by apply X.
Qed.

Lemma append_loop_granted n : forall i data v d v' d', append_loop n fuel i data v d = Ret (v', d') -> ours v -> ours v' /\ (granted d' -> granted d).
Proof.
  induction n as [|n IH]; intros i data v d v' d' E O; [by injection E as <- <-|]. cbn [append_loop] in E.
  destruct (zenit_vector_push _ _ _ _) as [[[r1 v1] d1]| |] eqn:P; [|done|done]. cbn [obind] in E. destruct (push_granted _ _ _ _ _ _ P O) as [O1 G1].
  destruct (IH _ _ _ _ _ _ E O1) as [? G2]. split; [done|]. intros G. by apply G1, G2.
Qed.

Lemma append_granted out data n d r o d' : zenit_string_append fuel (Some out) (Some data) n d = Ret (r, o, d') ->
  ours (sb_vec out) -> sb_vec out <> None -> granted d' -> r = ZENIT_OK /\ granted d.
Proof.
  unfold zenit_string_append. rewrite decide_False by naive_solver. intros E O Hn. case_decide; [by injection E as <- <- <-|].
  destruct (zenit_vector_reserve _ _ _) as [[[r1 v1] d1]| |] eqn:R; [|done|done]. cbn [obind] in E. destruct (reserve_granted _ _ _ _ _ _ R O Hn) as [O1 G1].
  case_decide; [injection E as <- <- <-; done|]. destruct (zenit_vector_pop _ _) as [[[r2 v2] z]| |] eqn:P; [|done|done]. cbn [obind] in E.
  assert (O2 : ours v2).
  { clear E. unfold zenit_vector_pop in P. destruct v1 as [v1|]; [|by injection P as <- <- <-]. case_decide; [by injection P as <- <- <-|].
    destruct (prd _ _ _); [|done|done]. cbn [obind] in P. destruct (wr _ _ _); [|done|done]. cbn [obind] in P. by injection P as <- <- <-. }
  destruct (append_loop _ _ _ _ _ _) as [[v3 d3]| |] eqn:L; [|done|done]. cbn [obind] in E. destruct (append_loop_granted _ _ _ _ _ _ _ L O2) as [O3 G3].
  destruct (push_null _ _ _) as [[[r4 t4] d4]| |] eqn:Q; [|done|done]. cbn [obind] in E. injection E as <- <- <-. intros G. split; [done|].
  apply G1, G3. destruct (push_null_granted _ _ _ _ _ Q O3) as [_ G4]. by apply G4.
Qed.

(** What [f] does to the output: it appends [w], or fails because a request was refused. *)
Definition appends (f : zenit_string_t D -> D -> outcome (bool * zenit_string_t D * D)) w : Prop :=
  forall F out d t, holds_string a F (out, d) t -> exists ok out' d' t', f out d = Ret (ok, out', d') /\
    holds_string a F (out', d') t' /\ (ok = true -> t' = t ++ w) /\ (granted d' -> ok = true /\ granted d).

Lemma appends_then f g w1 w2 : appends f w1 -> appends g w2 ->
  appends (fun out d => let! (ok, out, d) := f out d in if ok : bool then g out d else Ret (false, out, d)) (w1 ++ w2).
Proof.
  intros Hf Hg F out d t H. destruct (Hf F out d t H) as (ok & out1 & d1 & t1 & -> & H1 & E1 & G1). cbn [obind]. destruct ok.
  - destruct (Hg F out1 d1 t1 H1) as (ok2 & out2 & d2 & t2 & -> & H2 & E2 & G2). exists ok2, out2, d2, t2. split; [done|]. split; [done|].
    split; [intros X; rewrite E2 by done; rewrite E1 by done; by rewrite <- app_assoc|]. intros G. destruct (G2 G). split; [done|]. by apply G1.
  - exists false, out1, d1, t1. split; [done|]. split; [done|]. split; [done|]. intros G. by destruct (G1 G).
Qed.

Lemma appends_nothing : appends (fun out d => Ret (true, out, d)) [].
Proof. intros F out d t H. exists true, out, d, t. by rewrite app_nil_r. Qed.

Lemma appends_bytes w rest : zlen (w ++ rest) <= PTRDIFF_MAX ->
  appends (fun out d => appended (zenit_string_append fuel (Some out) (Some (w ++ rest)) (zlen w) d)) w.
Proof.
  intros Hl F out d t (v & R). destruct (append_spec a F out d v t w rest fuel R Hl) as (r & out' & d' & E & H). cbn [fst snd] in *.
  assert (G : granted d' -> r = ZENIT_OK /\ granted d).
  { eapply append_granted; [exact E|rewrite (sr_vec R); apply (vr_alloc _ _ _ _ (sr_rep R))|by rewrite (sr_vec R)]. }
  rewrite E. unfold appended. cbn [obind]. destruct H as [[-> H]|[-> H]]; eexists _, out', d', _; (split; [done|]); (split; [exact H|]); (split; [done|]).
  - intros G'. by split; [|apply G].
  - intros G'. by destruct (G G').
Qed.

Lemma appends_ext f g w : (forall out d, f out d = g out d) -> appends g w -> appends f w.
Proof. intros E H F out d t Ht. rewrite E. by apply H. Qed.

Lemma appends_cstr w : chars w -> zlen w < PTRDIFF_MAX -> appends (fun out d => append_cstr fuel out w d) w.
Proof.
  intros Hw Hl. destruct w as [|x w].
  { eapply appends_ext; [|apply appends_nothing]. intros out d. done. }
  eapply appends_ext; [|apply (appends_bytes (x :: w) [NUL]); rewrite zlen_app; change (zlen [NUL]) with 1; lia].
  intros out d. unfold append_cstr, zenit_string_append_cstr. pose proof Hw as Hw'. apply Forall_cons_1 in Hw' as [Hx _].
  rewrite (aget_lookup _ 0 x) by done. cbn [obind]. rewrite decide_False by lia. by rewrite strlen_app.
Qed.

Lemma appends_char x : appends (fun out d => append_char fuel out x d) [x].
Proof. apply (appends_bytes [x] []). by vm_compute. Qed.

(** *** Strings *)

Lemma hex_chars n : 0 <= n < 16 -> 0 < hex_char n < 256.
Proof. intros H. unfold hex_char. chars. case_decide; lia. Qed.

Lemma chars_escape_char x : 0 < x < 256 -> chars (escape x).
Proof.
  intros Hx. unfold escape. repeat (case_decide; [by (try (apply chars_lit); repeat constructor)|]).
  case_decide; [|by constructor; [|constructor]]. apply chars_app. split; [by apply chars_lit|].
  constructor; [apply hex_chars; split; [apply Z.div_pos; lia|apply Z.div_lt_upper_bound; lia]|]. constructor; [|constructor].
  apply hex_chars, Z.mod_pos_bound. lia.
Qed.

Lemma escape_length x : zlen (escape x) <= 6.
Proof. unfold escape. repeat case_decide; by vm_compute. Qed.

Lemma appends_escape x : 0 < x < 256 -> appends (fun out d => serialize_escape_char fuel x out d) (escape x).
Proof.
  intros Hx. pose proof (chars_escape_char x Hx) as Hc. pose proof (escape_length x) as Hl. unfold serialize_escape_char, escape in *.
  repeat (destruct (decide _); [apply appends_cstr; [done|lia]|]). apply appends_char.
Qed.

Lemma appends_escapes s rest : chars s -> appends (fun out d => escape_loop fuel (s ++ NUL :: rest) out d) (s ≫= escape).
Proof.
  induction 1 as [|x s Hx _ IH]; [apply appends_nothing|]. eapply appends_ext; [|apply (appends_then _ _ _ _ (appends_escape x Hx) IH)].
  intros out d. cbn [app escape_loop]. by rewrite decide_False by lia.
Qed.

Lemma appends_string b s : str_in b s -> chars s -> appends (fun out d => string_escape_into fuel (Some b) out d) (quote s).
Proof.
  intros [rest E] Hs. assert (Q : appends (fun out d => append_cstr fuel out [34] d) [34]) by (apply appends_cstr; [by repeat constructor|by vm_compute]).
  pose proof (appends_then _ _ _ _ Q (appends_then _ _ _ _ (appends_escapes s rest Hs) Q)) as H. eapply appends_ext; [|exact H].
  intros out d. unfold string_escape_into. cbn [deref_str obind]. by rewrite E.
Qed.

(** *** Arrays and objects *)

(** All but the first element come after a comma. *)
Definition after_comma (i : Z) (ts : list bytes) : bytes := match ts with [] => [] | _ => if decide (0 < i) then ch "," :: commas ts else commas ts end.

Lemma after_comma_cons i t ts : 0 <= i -> after_comma i (t :: ts) = (if decide (0 < i) then [ch ","] else []) ++ t ++ after_comma (i + 1) ts.
Proof.
  intros Hi. unfold after_comma. destruct ts as [|t2 ts].
  - rewrite app_nil_r. by case_decide.
  - rewrite (decide_True (P := 0 < i + 1)) by lia. rewrite commas_cons. by case_decide.
Qed.

Lemma appends_comma i : appends (fun out d => comma fuel i out d) (if decide (0 < i) then [ch ","] else []).
Proof. unfold comma. case_decide; [apply (appends_cstr (lit ",")); [by apply chars_lit|by vm_compute]|apply appends_nothing]. Qed.

Lemma appends_lit s : forallb (fun c => bool_decide (0 < c < 256)) (lit s) = true -> zlen (lit s) < PTRDIFF_MAX -> appends (fun out d => append_cstr fuel out (lit s) d) (lit s).
Proof. intros H L. apply appends_cstr; [by apply chars_lit|done]. Qed.

Lemma slot_get {A : Type} (t : option (tarr A)) (xs : list A) i x : take (length xs) (tdata t) = xs -> xs !! Z.to_nat i = Some x -> 0 <= i -> tget t i = Ret x.
Proof.
  intros E Hx Hi. assert (tdata t !! Z.to_nat i = Some x) as Hd by (rewrite <- E in Hx; by apply lookup_take_Some in Hx as [? _]).
  apply tget_lookup; [|done|done]. by intros ->.
Qed.

Lemma appends_array_items serialize items xs ts : take (length xs) (tdata items) = Some <$> xs -> zlen xs < two64 ->
  Forall2 (fun x t => appends (serialize (Some x)) t) xs ts ->
  forall n i, 0 <= i -> i + Z.of_nat n = zlen xs ->
  appends (fun out d => array_items fuel serialize n i items out d) (after_comma i (drop (Z.to_nat i) ts)).
Proof.
  intros Ei Hm F. induction n as [|n IH]; intros i Hi Hn.
  { rewrite drop_ge; [apply appends_nothing|]. rewrite <- (Forall2_length _ _ _ F). unfold zlen in *. lia. }
  destruct (lookup_lt_is_Some_2 xs (Z.to_nat i)) as [x Hx]; [unfold zlen in *; lia|]. destruct (Forall2_lookup_l _ _ _ _ _ F Hx) as (t & Ht & At).
  rewrite (drop_S _ _ _ Ht), after_comma_cons by done. replace (S (Z.to_nat i)) with (Z.to_nat (i + 1)) by lia.
  pose proof (appends_then _ _ _ _ (appends_comma i) (appends_then _ _ _ _ At (IH (i + 1) ltac:(lia) ltac:(lia)))) as H. eapply appends_ext; [|exact H].
  intros out d. cbn [array_items]. rewrite (slot_get items (Some <$> xs) i (Some x)); [|by rewrite length_fmap|by rewrite list_lookup_fmap, Hx|done].
  cbn [obind]. by rewrite u64_small by lia.
Qed.

Lemma appends_object_items serialize keys values bs xs ks ts :
  take (length xs) (tdata keys) = Some <$> bs -> take (length xs) (tdata values) = Some <$> xs -> zlen xs < two64 ->
  Forall2 (fun b k => str_in b k /\ chars k) bs ks -> Forall2 (fun x t => appends (serialize (Some x)) t) xs ts -> length bs = length xs ->
  forall n i, 0 <= i -> i + Z.of_nat n = zlen xs ->
  appends (fun out d => object_items fuel serialize n i keys values out d) (after_comma i (drop (Z.to_nat i) (zip_with (fun k t => quote k ++ ch ":" :: t) ks ts))).
Proof.
  intros Ek Ev Hm Fk F Lb. pose proof (Forall2_length _ _ _ F) as Lt. pose proof (Forall2_length _ _ _ Fk) as Lk. induction n as [|n IH]; intros i Hi Hn.
  { rewrite drop_ge; [apply appends_nothing|]. rewrite length_zip_with. unfold zlen in *. lia. }
  destruct (lookup_lt_is_Some_2 xs (Z.to_nat i)) as [x Hx]; [unfold zlen in *; lia|]. destruct (Forall2_lookup_l _ _ _ _ _ F Hx) as (t & Ht & At).
  destruct (lookup_lt_is_Some_2 bs (Z.to_nat i)) as [b Hb]; [unfold zlen in *; lia|]. destruct (Forall2_lookup_l _ _ _ _ _ Fk Hb) as (k & Hk & Sk & Ck).
  assert (Hz : zip_with (fun k t => quote k ++ ch ":" :: t) ks ts !! Z.to_nat i = Some (quote k ++ ch ":" :: t)) by (by rewrite lookup_zip_with, Hk, Ht).
  rewrite (drop_S _ _ _ Hz), after_comma_cons by done. replace (S (Z.to_nat i)) with (Z.to_nat (i + 1)) by lia.
  pose proof (appends_then _ _ _ _ (appends_comma i) (appends_then _ _ _ _ (appends_string b k Sk Ck)
    (appends_then _ _ _ _ (appends_lit ":" eq_refl ltac:(by vm_compute)) (appends_then _ _ _ _ At (IH (i + 1) ltac:(lia) ltac:(lia)))))) as H.
  rewrite <- app_assoc. eapply appends_ext; [|exact H].
  intros out d. cbn [object_items]. rewrite (slot_get keys (Some <$> bs) i (Some b)); [|by rewrite length_fmap, Lb|by rewrite list_lookup_fmap, Hb|done].
  rewrite (slot_get values (Some <$> xs) i (Some x)); [|by rewrite length_fmap|by rewrite list_lookup_fmap, Hx|done].
  cbn [obind]. by rewrite u64_small by lia.
Qed.

(** *** Values *)

(** No string of the value has a NUL. *)
Fixpoint clean (v : json) : Prop :=
  match v with
  | VStr s => chars s
  | VArr vs => (fix go vs := match vs with [] => True | v :: vs => clean v /\ go vs end) vs
  | VObj kvs => (fix go kvs := match kvs with [] => True | (k, v) :: kvs => chars k /\ clean v /\ go kvs end) kvs
  | _ => True
  end.

Lemma clean_arr vs : clean (VArr vs) <-> Forall clean vs.
Proof. simpl. induction vs as [|v vs IH]; [by split|]. rewrite Forall_cons, <- IH. done. Qed.

Lemma clean_obj kvs : clean (VObj kvs) <-> Forall (fun kv => chars kv.1 /\ clean kv.2) kvs.
Proof. simpl. induction kvs as [|[k v] kvs IH]; [by split|]. rewrite Forall_cons, <- IH. simpl. tauto. Qed.

Definition nodes_ok m (N : list addr) : Prop := Forall (fun y => exists v, m !! y = Some v /\ payload_ok (v_data v)) N.

Lemma node_ok m x N (q : payload) : nodes_ok m (x :: N) -> data_at m x = Some q -> payload_ok q.
Proof. intros [(v & E & Ok) _]%Forall_cons_1 Hd. unfold data_at in Hd. rewrite E in Hd. by injection Hd as <-. Qed.

Lemma commas_after ts : commas ts = after_comma 0 ts.
Proof. by destruct ts. Qed.

Lemma zip_members kvs : (fun kv => quote kv.1 ++ ch ":" :: print kv.2) <$> kvs = zip_with (fun k t => quote k ++ ch ":" :: t) kvs.*1 (print <$> kvs.*2).
Proof. induction kvs as [|[k v] kvs IH]; [done|]. cbn. f_equal. exact IH. Qed.

(** One level of [value_serialize_into]. *)
Lemma appends_node m x q depth f w : data_at m x = Some q ->
  (forall out d, match q with
    | JNull => append_cstr fuel out (lit "null") d
    | JBool b => if decide (b <> 0) then append_cstr fuel out (lit "true") d else append_cstr fuel out (lit "false") d
    | JNumber y => let! buf := format_number y 64 in append_cstr fuel out buf d
    | JString s => string_escape_into fuel s out d
    | JArray items count _ => serialize_array fuel (value_serialize_into fuel depth m) items count out d
    | JObject keys values count _ => serialize_object fuel (value_serialize_into fuel depth m) keys values count out d
    end = f out d) -> appends f w -> appends (value_serialize_into fuel (S depth) m (Some x)) w.
Proof.
  intros Hd Hf H. eapply appends_ext; [|exact H]. intros out d. rewrite <- Hf. cbn [value_serialize_into]. unfold data_at in Hd.
  destruct (m !! x) as [v|] eqn:E; [|done]. injection Hd as <-. by rewrite (sget_Some _ _ _ E).
Qed.

(** The brackets around the elements. *)
Lemma appends_between l r f w : forallb (fun c => bool_decide (0 < c < 256)) (lit l ++ lit r) = true -> zlen (lit l ++ lit r) < PTRDIFF_MAX -> appends f w ->
  appends (fun out d => let! (ok, out, d) := append_cstr fuel out (lit l) d in
    if ok : bool then let! (ok, out, d) := f out d in if ok : bool then append_cstr fuel out (lit r) d else Ret (false, out, d) else Ret (false, out, d))
    (lit l ++ w ++ lit r).
Proof.
  rewrite forallb_app, andb_true_iff, zlen_app. intros [Hl Hr] Hz Hf. pose proof (zlen_nonneg (lit l)). pose proof (zlen_nonneg (lit r)).
  apply (appends_then _ _ _ _ (appends_lit l Hl ltac:(lia)) (appends_then _ _ _ _ Hf (appends_lit r Hr ltac:(lia)))).
Qed.

Lemma appends_array m depth items cap xs vs : payload_ok (JArray items (zlen xs) cap) -> take (length xs) (tdata items) = Some <$> xs ->
  Forall2 (fun x t => appends (value_serialize_into fuel depth m (Some x)) t) xs (print <$> vs) ->
  appends (fun out d => serialize_array fuel (value_serialize_into fuel depth m) items (zlen xs) out d) (print (VArr vs)).
Proof.
  intros [So Hcap] Hi F. pose proof (so_max _ _ So) as Hm. unfold SIZEOF_POINTER in Hm. cbn [print]. rewrite commas_after.
  apply (appends_between "[" "]"); [done|by vm_compute|].
  apply (appends_array_items _ items xs _ Hi ltac:(lia) F (Z.to_nat (zlen xs)) 0); lia.
Qed.

Lemma appends_object m depth keys values cap bs xs kvs : payload_ok (JObject keys values (zlen xs) cap) ->
  take (length xs) (tdata keys) = Some <$> bs -> take (length xs) (tdata values) = Some <$> xs ->
  Forall2 (fun b kv => str_in b kv.1) bs kvs -> Forall (fun kv => chars kv.1 /\ clean kv.2) kvs ->
  Forall2 (fun x t => appends (value_serialize_into fuel depth m (Some x)) t) xs (print <$> kvs.*2) ->
  appends (fun out d => serialize_object fuel (value_serialize_into fuel depth m) keys values (zlen xs) out d) (print (VObj kvs)).
Proof.
  intros (So & _ & Hcap & _) Hk Hv Fk Hc F. pose proof (so_max _ _ So) as Hm. unfold SIZEOF_POINTER in Hm. cbn [print]. rewrite zip_members, commas_after.
  assert (Hks : Forall2 (fun b k => str_in b k /\ chars k) bs kvs.*1).
  { apply Forall2_fmap_r. clear - Fk Hc. induction Fk as [|b kv bs kvs Hb _ IH]; [constructor|]. apply Forall_cons_1 in Hc as [[Hk _] Hc]. constructor; auto. }
  assert (Lb : length bs = length xs) by (rewrite (Forall2_length _ _ _ Fk), (Forall2_length _ _ _ F); by rewrite !length_fmap).
  apply (appends_between "{" "}"); [done|by vm_compute|].
  apply (appends_object_items _ keys values bs xs _ _ Hk Hv ltac:(lia) Hks F Lb (Z.to_nat (zlen xs)) 0); lia.
Qed.

Lemma serialize_appends m :
  (forall x v N, tree m x v N -> forall depth, nodes_ok m N -> clean v -> (length N <= depth)%nat -> appends (value_serialize_into fuel depth m (Some x)) (print v)) /\
  (forall xs vs N, trees m xs vs N -> forall depth, nodes_ok m N -> Forall clean vs -> (length N <= depth)%nat ->
     Forall2 (fun x t => appends (value_serialize_into fuel depth m (Some x)) t) xs (print <$> vs)).
Proof.
  apply (tree_trees_ind m (fun x v N _ => forall depth, nodes_ok m N -> clean v -> (length N <= depth)%nat -> appends (value_serialize_into fuel depth m (Some x)) (print v))
    (fun xs vs N _ => forall depth, nodes_ok m N -> Forall clean vs -> (length N <= depth)%nat ->
     Forall2 (fun x t => appends (value_serialize_into fuel depth m (Some x)) t) xs (print <$> vs))).
  1-6: intros x.
  1-4: intros; destruct depth as [|depth]; [simpl in *; lia|].
  - eapply appends_node; [done|done|]. by apply (appends_lit "null").
  - eapply appends_node; [done|done|]. destruct b; [by apply (appends_lit "true")|by apply (appends_lit "false")].
  - destruct (format_number_text y) as (Ef & Ec & El). eapply appends_node; [done|intros; cbv beta iota; by rewrite Ef|]. apply (appends_cstr (number_text y)); [done|lia].
  - eapply appends_node; [done|done|]. by apply appends_string.
  - intros items cap xs vs N Hd Hi Ts IH [|depth] Hn Hc Hl; [simpl in Hl; lia|]. pose proof (node_ok _ _ _ _ Hn Hd) as Ok.
    apply Forall_cons_1 in Hn as [_ Hn]. apply clean_arr in Hc. eapply appends_node; [exact Hd|done|]. eapply appends_array; [exact Ok|done|].
    apply IH; [done|done|simpl in Hl; lia].
  - intros keys values cap bs xs kvs N Hd Hk Hv Fk Ts IH [|depth] Hn Hc Hl; [simpl in Hl; lia|]. pose proof (node_ok _ _ _ _ Hn Hd) as Ok.
    apply Forall_cons_1 in Hn as [_ Hn]. apply clean_obj in Hc. eapply appends_node; [exact Hd|done|]. eapply appends_object; [exact Ok|done..|].
    apply IH; [done| |simpl in Hl; lia]. apply Forall_fmap. eapply Forall_impl; [exact Hc|]. by intros kv [_ ?].
  - constructor.
  - intros x v N xs vs N' T IH Ts IHs depth Hn Hc Hl. apply Forall_app in Hn as [Hn Hn']. apply Forall_cons_1 in Hc as [Hc Hcs]. rewrite length_app in Hl.
    csimpl. constructor; [apply IH; (done || lia)|apply IHs; (done || lia)].
Qed.

(** ** The string that is returned *)

Lemma string_create_granted d r d' : string_create_empty fuel a d = Ret (r, d') -> granted d' -> r <> None /\ granted d.
Proof.
  unfold string_create_empty. destruct (alloc_fn a SIZEOF_STRING d) as [[h|] d1] eqn:A; [|intros [= <- <-] G; by destruct (granted_alloc _ _ _ _ A G)].
  unfold zenit_vector_create_with_allocator. rewrite decide_False by done.
  destruct (alloc_fn a SIZEOF_VECTOR d1) as [[k|] d2] eqn:B; [|intros [= <- <-] G%granted_free; by destruct (granted_alloc _ _ _ _ B G)].
  destruct (push_null _ _ _) as [[[r1 s1] d3]| |] eqn:P; [|done|done]. cbn [obind]. destruct (push_null_granted _ _ _ _ _ P eq_refl) as [O1 G1].
  assert (G2 : granted d3 -> granted d /\ r1 = ZENIT_OK).
  { intros G. destruct (G1 G) as [G2 E]. destruct (granted_alloc _ _ _ _ B G2) as [_ G3]. split; [apply (granted_alloc _ _ _ _ A G3)|by apply E]. }
  case_decide as N; intros [= <- <-] G; [|by split; [|apply G2]]. exfalso. apply N, G2. apply granted_free in G.
  destruct (sb_vec s1) as [w|]; [|done]. simpl in G, O1. rewrite O1 in G. by do 2 apply granted_free in G.
Qed.

Lemma string_destroy_granted F out d t : holds_string a F (out, d) t -> granted (zenit_string_destroy (Some out) d) -> granted d.
Proof.
  intros (v & H). cbn [fst snd] in H. cbn [zenit_string_destroy]. rewrite (sr_vec H), (sr_alloc H). cbn [zenit_vector_destroy].
  rewrite (vr_alloc _ _ _ _ (sr_rep H)). intros G. by do 3 apply granted_free in G.
Qed.

Lemma str_dup_text t rest d : chars t -> zlen t < PTRDIFF_MAX ->
  str_dup a (t ++ NUL :: rest) d =
    Ret (match alloc_fn a (zlen t + 1) d with (None, d') => (None, d') | (Some b, d') => (Some (Block (b_addr b) (t ++ [NUL])), d') end).
Proof.
  intros Ht Hl. pose proof (zlen_nonneg t). unfold str_dup. rewrite strlen_app by done. cbn [obind]. unfold str_dup_n. rewrite u64_small by lia.
  destruct (alloc_fn a (zlen t + 1) d) as [[[x data]|] d'] eqn:A; [|done]. apply alloc_some in A as (L & _). cbn [b_data b_addr] in *.
  rewrite (rd_app [] t (NUL :: rest) 0 (zlen t) eq_refl eq_refl : rd (t ++ _) _ _ = _). cbn [obind].
  destruct (list_split_at data (zlen t)) as (d1 & d2 & -> & L1); [lia|]. rewrite zlen_app in L. destruct (room_cons d2) as (z & d3 & -> & L3); [lia|].
  rewrite zlen_cons in L. assert (d3 = []) as -> by (apply zlen_0; lia). cbn [pwr b_data b_addr].
  rewrite (wr_app [] d1 t [z] 0 eq_refl ltac:(lia) : wr (d1 ++ _) _ _ = _). cbn [obind app]. rewrite pset_emit by done. cbn [obind]. by rewrite app_nil_r.
Qed.

Lemma chars_print v : clean v -> chars (print v).
Proof.
  assert (Cm : forall ts, Forall chars ts -> chars (commas ts)).
  { intros ts H. induction H as [|t ts Ht H IH]; [constructor|]. destruct ts as [|u ts]; [done|]. rewrite commas_cons. apply chars_app. split; [done|]. by constructor. }
  assert (Q : forall s, chars s -> chars (quote s)).
  { intros s Hs. constructor; [done|]. apply chars_app. split; [|by repeat constructor]. induction Hs as [|x s Hx _ IH]; [constructor|].
    apply chars_app. split; [by apply chars_escape_char|done]. }
  induction v as [|b|x|s|vs IH|kvs IH] using json_deep_ind; intros Hc; cbn [print].
  - by apply chars_lit.
  - destruct b; by apply chars_lit.
  - apply format_number_text.
  - by apply Q.
  - apply clean_arr in Hc. constructor; [done|]. apply chars_app. split; [|by repeat constructor]. apply Cm, Forall_fmap.
    eapply Forall_impl; [apply (proj2 (Forall_and _ _) (conj IH Hc))|]. intros v [H1 H2]. by apply H1.
  - apply clean_obj in Hc. constructor; [done|]. apply chars_app. split; [|by repeat constructor]. apply Cm, Forall_fmap.
    eapply Forall_impl; [apply (proj2 (Forall_and _ _) (conj IH Hc))|]. intros [k v] (H1 & H2 & H3). apply chars_app. split; [by apply Q|]. constructor; [done|]. by apply H1.
Qed.

(** The text of the value at [x], or NULL because a request was refused; nothing else is left. *)
Lemma value_serialize_spec depth m x v N d :
  (1 <= fuel)%nat -> tree m x v N -> nodes_ok m N -> clean v -> (length N <= depth)%nat ->
  exists r d', zenit_json_value_serialize_with_allocator fuel depth m (Some x) a d = Ret (r, d') /\
    match r with
    | None => live d' = live d /\ ~ granted d'
    | Some b => b_data b = print v ++ [NUL] /\ (b_addr b ∉ live d) /\ live d' = {[ b_addr b ]} ∪ live d
    end.
Proof.
  intros Hf T Hn Hc Hd. unfold zenit_json_value_serialize_with_allocator, zenit_string_create_with_allocator.
  destruct (string_created a fuel d Hf) as (r & d1 & Ec & R). rewrite Ec. cbn [obind]. pose proof (string_create_granted _ _ _ Ec) as G1.
  destruct r as [s|]; [|eexists None, d1; split; [done|]; split; [done|]; intros G; by destruct (G1 G)].
  destruct (proj1 (serialize_appends m) x v N T depth Hn Hc Hd (live d) s d1 [] R) as (ok & s2 & d2 & t & -> & R2 & Et & G2). cbn [obind]. destruct ok.
  2:{ eexists None, _. split; [done|]. split; [by eapply string_destroyed|]. intros G. eapply string_destroy_granted in G; [|exact R2]. by destruct (G2 G). }
  rewrite (Et eq_refl) in R2. cbn [app] in R2. destruct (string_text a _ _ _ _ R2) as (-> & Hl & w & b & rest & Ew & Eb & Er). rewrite Ew. cbn [Vector.v_buffer].
  rewrite Eb. cbn [deref_str obind]. rewrite Er. change (Z.to_nat 0) with 0%nat. rewrite drop_0, str_dup_text by (done || by apply chars_print). cbn [obind].
  destruct (alloc_fn a (zlen (print v) + 1) d2) as [[q|] d3] eqn:A.
  - destruct (string_alloc a _ _ _ _ _ _ _ R2 A) as [R3 Nq]. eexists (Some _), _. split; [done|]. cbn [b_data b_addr]. split; [done|]. split; [done|].
    by eapply string_destroyed.
  - eexists None, _. split; [done|]. pose proof (alloc_none _ _ _ A) as Hl3.
    assert (R3 : holds_string a (live d) (s2, d3) (print v)).
    { destruct R2 as (w' & [Q1 Q2 Q3 Q4 Q5 Q6 Q7]). exists w'. cbn [fst snd] in *. constructor; cbn [fst snd]; rewrite ?Hl3; try done. eapply vec_rep_live; [exact Q2|]. rewrite Hl3. apply Q2. }
    split; [by eapply string_destroyed|]. intros G. eapply string_destroy_granted in G; [|exact R3]. by destruct (granted_alloc _ _ _ _ A G).
Qed.
End Serializing.

Lemma printable_clean v : printable v -> clean v.
Proof.
  induction v as [|b|x|s|vs IH|kvs IH] using json_deep_ind; intros H; try done; [apply H| |].
  - apply printable_arr in H. apply clean_arr. eapply Forall_impl; [apply (proj2 (Forall_and _ _) (conj IH H))|]. intros v [H1 H2]. by apply H1.
  - apply printable_obj in H. apply clean_obj. eapply Forall_impl; [apply (proj2 (Forall_and _ _) (conj IH H))|]. intros kv (H1 & H2 & H3). split; [apply H2|by apply H1].
Qed.

Section Results.
Context {B C D : Type} (a : zenit_allocator_t B) {SP : AllocSpec a} (b : zenit_allocator_t D) {SQ : AllocSpec b} {WQ : Watched b}.
Context (a2 : zenit_allocator_t C) {SP2 : AllocSpec a2} {W2 : Watched a2} (junk : option addr).

Lemma doc_nodes_ok c0 m0 doc m c N : doc_inv a [] c0 m0 doc m c N -> nodes_ok m N.
Proof. intros Di. apply Forall_forall. intros y Hy. by apply (d_nodes _ _ _ _ _ _ _ _ Di). Qed.


End Results.

(** ** A concrete run *)

Lemma wit_document : exists doc m c, wit_parse = Ret (Some doc, m, c) /\ document (watched ZENIT_ALLOCATOR_DEFAULT) (empty_heap, false) empty doc wit_value m c.
Proof.
  assert (H0 : dom (empty : store) ⊆ live (a := watched ZENIT_ALLOCATOR_DEFAULT) (empty_heap, false)) by (rewrite dom_empty_L; set_solver).
  apply (parsed_document (watched ZENIT_ALLOCATOR_DEFAULT) None 20 20 wit_text [] empty (empty_heap, false) wit_value wit_text_chars);
    [vm_compute; lia|vm_compute; lia|exact H0|apply wit_text_value|exact wit_parse_some].
Qed.

Lemma wit_printable : printable wit_value.
Proof. repeat split; try (vm_compute; reflexivity); repeat constructor. Qed.

(** The state of the serializer's allocator, and its text for the value. *)
Definition wit_printed : bytes := lit "{" ++ [34] ++ lit "a" ++ [34] ++ lit ":[1,true]}".



(** ** Departures from what is documented *)

(** Whether a text is accepted. *)
Definition accepts (s : bytes) : option bool :=
  match zenit_json_parse None 80 80 (Some (s ++ [NUL])) empty empty_heap with
  | Ret (Some _, _, _) => Some true
  | Ret (None, _, _) => Some false
  | _ => None
  end.

(** Digits after the point or in the exponent that start with zero are refused. *)
Theorem json_leading_zeros_refused :
  accepts (lit "0.5") = Some true /\ accepts (lit "0.05") = Some false /\ accepts (lit "1e5") = Some true /\ accepts (lit "1e05") = Some false.
Proof. vm_compute. done. Qed.

(** The terminator of a string of 64 characters is written behind its buffer. *)
Theorem json_string_overrun :
  accepts (34 :: replicate 63 (ch "a") ++ [34]) = Some true /\ accepts (34 :: replicate 64 (ch "a") ++ [34]) = None.
Proof. vm_compute. done. Qed.

(** A number at the end of a text of known length is read past that end: the text [1]
    without a terminator is read outside, and a digit behind it makes it be refused. *)
Theorem json_length_ignored :
  zenit_json_parse_with_length None 9 9 (Some (lit "1")) 1 empty empty_heap = Undef /\
  match zenit_json_parse_with_length None 9 9 (Some (lit "12" ++ [NUL])) 1 empty empty_heap with Ret (None, _, _) => True | _ => False end.
Proof. vm_compute. done. Qed.

(** The text of an infinite number, which the parser makes of [1e999], is refused. *)
Theorem json_infinity_unreadable :
  accepts (lit "1e999") = Some true /\ strtod (lit "1e999" ++ [NUL]) = Ret (S754_infinity false, [NUL]) /\
  print (VNum (S754_infinity false)) = lit "inf" /\ accepts (lit "inf") = Some false.
Proof. vm_compute. done. Qed.
