(* ===== verification/JsonEdit.v ===== *)
(** * Editing a JSON document

    A document as its clients see it: a graph of values, each of which is a scalar, a
    list of values or a list of keys with values.  Values are named by their addresses; a
    value may be in several arrays and objects, or in none. *)

From Stdlib Require Import ZArith Lia Ascii String SpecFloat.
From stdpp Require Import base tactics option list numbers gmap sets.
From S2P Require Import Prelude Mem Result Allocator Links Text Arrays Machine StringBuilder JsonNumber Json JsonMemory JsonTree JsonParse JsonPrint.
Open Scope Z_scope.

Inductive node : Type :=
| NNull
| NBool (b : Z)
| NNum (x : double)
| NStr (s : option bytes)
| NArr (xs : list (option addr))
| NObj (kvs : list (bytes * option addr)).

(** The payload of a value that its clients see as [n]. *)
Definition shows (d : payload) (n : node) : Prop :=
  match d, n with
  | JNull, NNull => True
  | JBool b, NBool b' => b = b'
  | JNumber x, NNum x' => x = x'
  | JString None, NStr None => True
  | JString (Some b), NStr (Some s) => cstr (b_data b) s
  | JArray items count _, NArr xs => take (Z.to_nat count) (tdata items) = xs
  | JObject keys values count _, NObj kvs =>
      Forall2 (fun k kv => exists b, k = Some b /\ cstr (b_data b) kv.1) (take (Z.to_nat count) (tdata keys)) kvs /\
      take (Z.to_nat count) (tdata values) = kvs.*2
  | _, _ => False
  end.

(** ** Shifting *)

Section Shifting.
Context {A : Type}.
Implicit Types (t : option (tarr A)) (pre mid rest : list A).

Lemma shift_down_spec mid : forall pre x rest t cap i, slots_ok t cap -> cap < two64 -> tdata t = pre ++ x :: mid ++ rest -> i = zlen pre + 1 ->
  exists t' y, shift_down (length mid) i t = Ret t' /\ slots_ok t' cap /\ taddr t' = taddr t /\ tdata t' = pre ++ mid ++ y :: rest.
Proof.
  induction mid as [|y mid IH]; intros pre x rest t cap i S Hm E ->; [by exists t, x|]. cbn [shift_down length].
  pose proof (so_data _ _ S) as Hc. rewrite E in Hc. pose proof (zlen_nonneg pre). pose proof (zlen_nonneg mid). pose proof (zlen_nonneg rest).
  assert (Hl : zlen pre + 1 < cap) by (rewrite <- Hc, zlen_app, !zlen_cons; simpl; rewrite zlen_cons, zlen_app; lia).
  destruct (slots_some _ _ S) as [u Eu]; [lia|].
  rewrite (tget_lookup t (zlen pre + 1) y); [|by rewrite Eu|lia|].
  2:{ rewrite E, lookup_app_r by (unfold zlen; lia). by replace (Z.to_nat (zlen pre + 1) - length pre)%nat with 1%nat by (unfold zlen; lia). }
  cbn [obind]. destruct (slots_tset t cap (zlen pre + 1 - 1) y S) as (t1 & -> & S1 & A1 & D1); [lia|]. cbn [obind]. rewrite u64_small by lia.
  destruct (IH (pre ++ [y]) y rest t1 cap (zlen pre + 1 + 1) S1 Hm) as (t' & z & -> & S' & A' & D').
  - rewrite D1, E. replace (Z.to_nat (zlen pre + 1 - 1)) with (length pre + 0)%nat by (unfold zlen; lia). rewrite insert_app_r. by rewrite <- app_assoc.
  - zl.
  - exists t', z. split; [done|]. split; [done|]. split; [by rewrite A'|]. by rewrite D', <- app_assoc.
Qed.

Lemma shift_up_spec mid : forall pre z rest t cap, slots_ok t cap -> tdata t = pre ++ mid ++ z :: rest ->
  exists t' y, shift_up (length mid) (zlen (pre ++ mid)) t = Ret t' /\ slots_ok t' cap /\ taddr t' = taddr t /\ tdata t' = pre ++ y :: mid ++ rest.
Proof.
  induction mid as [|w mid IH] using rev_ind; intros pre z rest t cap S E; [by exists t, z|]. rewrite length_app, Nat.add_comm. cbn [shift_up length Nat.add].
  rewrite <- app_assoc in E. cbn [app] in E. pose proof (so_data _ _ S) as Hc. rewrite E in Hc. pose proof (zlen_nonneg (pre ++ mid)).
  assert (Hp : zlen (pre ++ mid ++ [w]) = zlen (pre ++ mid) + 1) by zl.
  assert (Hl : zlen (pre ++ mid) + 1 < cap) by (rewrite <- Hc, !zlen_app, !zlen_cons; pose proof (zlen_nonneg rest); lia).
  destruct (slots_some _ _ S) as [u Eu]; [lia|]. rewrite Hp.
  rewrite (tget_lookup t (zlen (pre ++ mid) + 1 - 1) w); [|by rewrite Eu|lia|].
  2:{ rewrite E, app_assoc. replace (Z.to_nat (zlen (pre ++ mid) + 1 - 1)) with (length (pre ++ mid)) by (unfold zlen; lia).
      by rewrite lookup_app_r, Nat.sub_diag by lia. }
  cbn [obind]. destruct (slots_tset t cap (zlen (pre ++ mid) + 1) w S) as (t1 & -> & S1 & A1 & D1); [lia|]. cbn [obind].
  replace (zlen (pre ++ mid) + 1 - 1) with (zlen (pre ++ mid)) by lia.
  destruct (IH pre w (w :: rest) t1 cap S1) as (t' & y & -> & S' & A' & D').
  - rewrite D1, E, app_assoc. replace (Z.to_nat (zlen (pre ++ mid) + 1)) with (length (pre ++ mid) + 1)%nat by (unfold zlen; lia).
    by rewrite insert_app_r, <- app_assoc.
  - exists t', y. split; [done|]. split; [done|]. split; [by rewrite A'|]. by rewrite D', <- app_assoc.
Qed.
End Shifting.

(** ** Keys *)

Definition key_is (p : option block) (kv : bytes * option addr) : Prop := exists b, p = Some b /\ cstr (b_data b) kv.1.

(** The position of the first member with the key [k]. *)
Fixpoint find_pos (k : bytes) (kvs : list (bytes * option addr)) : option nat :=
  match kvs with [] => None | kv :: r => if decide (kv.1 = k) then Some O else S <$> find_pos k r end.

Lemma strcmp_eq_spec s t x y : cstr s x -> cstr t y -> strcmp_eq s t = Ret (bool_decide (x = y)).
Proof.
  intros (rs & -> & Hx) (rt & -> & Hy). revert y Hy. induction Hx as [|c x Hc _ IH]; intros y Hy; destruct Hy as [|e y He Hy]; cbn [app strcmp_eq].
  - rewrite !decide_True by done. by rewrite bool_decide_eq_true_2.
  - rewrite decide_False by lia. by rewrite bool_decide_eq_false_2.
  - rewrite decide_False by lia. by rewrite bool_decide_eq_false_2.
  - case_decide as D; [subst e; rewrite decide_False by lia; rewrite IH by done|]; f_equal; [apply bool_decide_ext; naive_solver|].
    symmetry. apply bool_decide_eq_false. congruence.
Qed.

Lemma find_key_spec keys key k : cstr key k -> forall kvs i, 0 <= i -> i + zlen kvs < two64 ->
  Forall2 key_is (take (length kvs) (drop (Z.to_nat i) (tdata keys))) kvs ->
  find_key (length kvs) i keys key = Ret ((fun j => i + Z.of_nat j) <$> find_pos k kvs).
Proof.
  intros Hk. induction kvs as [|kv kvs IH]; intros i Hi Hm F; [done|]. cbn [find_key length find_pos].
  destruct (drop (Z.to_nat i) (tdata keys)) as [|p rest] eqn:E; [inversion F|]. cbn [take length] in F. inversion F as [|? ? ? ? (b & -> & Hb) F']; subst.
  assert (Ep : tdata keys !! Z.to_nat i = Some (Some b)) by (rewrite <- (Nat.add_0_r (Z.to_nat i)), <- lookup_drop, E; done).
  rewrite (tget_lookup keys i (Some b)); [|by intros ->|done|done]. cbn [obind deref_str]. rewrite (strcmp_eq_spec _ _ _ _ Hb Hk). cbn [obind]. rewrite zlen_cons in Hm.
  pose proof (zlen_nonneg kvs). case_decide as D; [rewrite bool_decide_eq_true_2 by done; cbn; f_equal; f_equal; lia|]. rewrite bool_decide_eq_false_2 by done.
  rewrite u64_small by lia. rewrite (IH (i + 1)); [|lia|lia|].
  - destruct (find_pos k kvs); cbn; [|done]. f_equal. f_equal. lia.
  - replace (Z.to_nat (i + 1)) with (Z.to_nat i + 1)%nat by lia. rewrite <- drop_drop, E. done.
Qed.

Lemma find_pos_Some k kvs j : find_pos k kvs = Some j -> exists v, kvs !! j = Some (k, v).
Proof.
  revert j. induction kvs as [|[k' v] kvs IH]; intros j; [done|]. cbn [find_pos]. case_decide as D; [intros [= <-]; simpl in D; subst; by exists v|].
  destruct (find_pos k kvs) as [i|]; [|done]. intros [= <-]. by apply IH.
Qed.

(** ** Calls on a document and what they promise *)

Inductive json_op : Type :=
| ENull | EBool (b : Z) | ENumber (x : double) | EString (s : option bytes) | EArray | EObject
| EAppend (arr item : option addr) | EInsert (arr : option addr) (index : Z) (item : option addr) | ERemove (arr : option addr) (index : Z)
| ECount (val : option addr) | EGet (val : option addr) (index : Z)
| ESet (obj : option addr) (key : option bytes) (val : option addr) | EDelete (obj : option addr) (key : option bytes)
| EMembers (val : option addr) | EKey (val : option addr) (index : Z) | EValueAt (val : option addr) (index : Z) | EFind (val : option addr) (key : option bytes)
| EType (val : option addr) | EIsNull (val : option addr) | EBoolOf (val : option addr) | ENumberOf (val : option addr) | EStringOf (val : option addr)
| ERoot | ESetRoot (val : option addr)
| EDestroy.

Inductive json_res : Type :=
| RVal (o : option addr) | RErr (e : zenit_error_t) | RInt (z : Z) | RText (s : option bytes) | RDouble (x : double)
| RType (t : zenit_json_type_t) | RFlag (b : bool) | RGone (m : store) (l : gset addr).

(** The values and the root. *)
Abbreviation doc_view := (gmap addr node * option addr)%type (only parsing).

Definition node_at (g : gmap addr node) (v : option addr) : option node := v ≫= fun x => g !! x.
Definition arr_at g v : option (list (option addr)) := match node_at g v with Some (NArr xs) => Some xs | _ => None end.
Definition obj_at g v : option (list (bytes * option addr)) := match node_at g v with Some (NObj kvs) => Some kvs | _ => None end.

Definition put g (v : option addr) (n : node) : gmap addr node := match v with Some x => <[x := n]> g | None => g end.

(** The value that a call makes. *)
Definition makes (op : json_op) : option node :=
  match op with
  | ENull => Some NNull
  | EBool b => Some (NBool (if decide (b <> 0) then 1 else 0))
  | ENumber x => Some (NNum x)
  | EString s => Some (NStr (Some (match s with Some b => str_of b | None => [] end)))
  | EArray => Some (NArr [])
  | EObject => Some (NObj [])
  | _ => None
  end.

(** What a call that changes an array or object returns, the values after it, and whether
    it needs memory. *)
Definition edit (op : json_op) g : option (zenit_error_t * gmap addr node * bool) :=
  match op with
  | EAppend arr item =>
      Some (if decide (arr = None \/ item = None) then (ZENIT_ERROR_NULL, g, false)
            else match arr_at g arr with
                 | None => (ZENIT_ERROR_PARAM, g, false)
                 | Some xs => (ZENIT_OK, put g arr (NArr (xs ++ [item])), true)
                 end)
  | EInsert arr i item =>
      Some (if decide (arr = None \/ item = None) then (ZENIT_ERROR_NULL, g, false)
            else match arr_at g arr with
                 | None => (ZENIT_ERROR_PARAM, g, false)
                 | Some xs => if decide (zlen xs < i) then (ZENIT_ERROR_PARAM, g, false)
                     else (ZENIT_OK, put g arr (NArr (take (Z.to_nat i) xs ++ item :: drop (Z.to_nat i) xs)), true)
                 end)
  | ERemove arr i =>
      Some (if decide (arr = None) then (ZENIT_ERROR_NULL, g, false)
            else match arr_at g arr with
                 | None => (ZENIT_ERROR_PARAM, g, false)
                 | Some xs => if decide (zlen xs <= i) then (ZENIT_ERROR_PARAM, g, false)
                     else (ZENIT_OK, put g arr (NArr (take (Z.to_nat i) xs ++ drop (S (Z.to_nat i)) xs)), false)
                 end)
  | ESet obj key val =>
      Some (match obj, key, val with
            | Some _, Some key, Some _ =>
                match obj_at g obj with
                | None => (ZENIT_ERROR_PARAM, g, false)
                | Some kvs =>
                    match find_pos (str_of key) kvs with
                    | Some j => (ZENIT_OK, put g obj (NObj (<[j := (str_of key, val)]> kvs)), false)
                    | None => (ZENIT_OK, put g obj (NObj (kvs ++ [(str_of key, val)])), true)
                    end
                end
            | _, _, _ => (ZENIT_ERROR_NULL, g, false)
            end)
  | EDelete obj key =>
      Some (match obj, key with
            | Some _, Some key =>
                match obj_at g obj with
                | None => (ZENIT_ERROR_PARAM, g, false)
                | Some kvs =>
                    match find_pos (str_of key) kvs with
                    | Some j => (ZENIT_OK, put g obj (NObj (take j kvs ++ drop (S j) kvs)), false)
                    | None => (ZENIT_ERROR_NOT_FOUND, g, false)
                    end
                end
            | _, _ => (ZENIT_ERROR_NULL, g, false)
            end)
  | _ => None
  end.

Definition node_type (n : option node) : zenit_json_type_t :=
  match n with
  | Some (NBool _) => ZENIT_JSON_BOOL
  | Some (NNum _) => ZENIT_JSON_NUMBER
  | Some (NStr _) => ZENIT_JSON_STRING
  | Some (NArr _) => ZENIT_JSON_ARRAY
  | Some (NObj _) => ZENIT_JSON_OBJECT
  | Some NNull | None => ZENIT_JSON_NULL
  end.

(** What a call that reads returns. *)
Definition read (op : json_op) (s : doc_view) : option json_res :=
  let g := s.1 in
  match op with
  | ECount v => Some (RInt (match arr_at g v with Some xs => zlen xs | None => 0 end))
  | EGet v i => Some (RVal (match arr_at g v with Some xs => mjoin (xs !! Z.to_nat i) | None => None end))
  | EMembers v => Some (RInt (match obj_at g v with Some kvs => zlen kvs | None => 0 end))
  | EKey v i => Some (RText (match obj_at g v with Some kvs => fst <$> kvs !! Z.to_nat i | None => None end))
  | EValueAt v i => Some (RVal (match obj_at g v with Some kvs => mjoin (snd <$> kvs !! Z.to_nat i) | None => None end))
  | EFind v key => Some (RVal (match obj_at g v, key with
                               | Some kvs, Some k => match find_pos (str_of k) kvs with Some j => mjoin (snd <$> kvs !! j) | None => None end
                               | _, _ => None
                               end))
  | EType v => Some (RType (node_type (node_at g v)))
  | EIsNull v => Some (RFlag (bool_decide (node_type (node_at g v) = ZENIT_JSON_NULL)))
  | EBoolOf v => Some (RInt (match node_at g v with Some (NBool b) => b | _ => 0 end))
  | ENumberOf v => Some (RDouble (match node_at g v with Some (NNum x) => x | _ => S754_zero false end))
  | EStringOf v => Some (RText (match node_at g v with Some (NStr s) => s | _ => None end))
  | ERoot => Some (RVal s.2)
  | _ => None
  end.

(** The calls on a document; after [EDestroy] there is none.  [m0] are the values and [l0]
    the blocks there were before it was created. *)
Inductive json_step (m0 : store) (l0 : gset addr) : json_op -> option doc_view -> json_res -> option doc_view -> Prop :=
| js_make op n x g root : makes op = Some n -> g !! x = None ->
    json_step m0 l0 op (Some (g, root)) (RVal (Some x)) (Some (<[x := n]> g, root))
| js_make_failed op n s : makes op = Some n -> json_step m0 l0 op (Some s) (RVal None) (Some s)
| js_string_failed s x g root : g !! x = None ->
    json_step m0 l0 (EString s) (Some (g, root)) (RVal None) (Some (<[x := NStr None]> g, root))
| js_edit op g root e g' mem : edit op g = Some (e, g', mem) -> json_step m0 l0 op (Some (g, root)) (RErr e) (Some (g', root))
| js_edit_failed op g root e g' : edit op g = Some (e, g', true) -> json_step m0 l0 op (Some (g, root)) (RErr ZENIT_ERROR_ALLOC) (Some (g, root))
| js_read op s r : read op s = Some r -> json_step m0 l0 op (Some s) r (Some s)
| js_set_root val g root : json_step m0 l0 (ESetRoot val) (Some (g, root)) (RErr ZENIT_OK) (Some (g, val))
| js_destroy s : json_step m0 l0 EDestroy (Some s) (RGone m0 l0) None.

(** A pointer that is NULL or one of the values. *)
Definition known (g : gmap addr node) (v : option addr) : Prop := match v with Some x => x ∈ dom g | None => True end.
Definition c_string (s : option bytes) : Prop := match s with Some b => exists t, cstr b t /\ zlen t < PTRDIFF_MAX | None => True end.

(** [chain] is what [zenit_json_destroy] may use of fuel. *)
Definition json_legal (chain : nat) (op : json_op) (s : option doc_view) : Prop :=
  match s with
  | None => False
  | Some (g, _) =>
      match op with
      | ENull | EBool _ | ENumber _ | EArray | EObject | ERoot | ESetRoot _ => True
      | EString s => c_string s
      | EAppend v _ | ECount v | EMembers v | EType v | EIsNull v | EBoolOf v | ENumberOf v | EStringOf v => known g v
      | EInsert v i _ | ERemove v i | EGet v i | EKey v i | EValueAt v i => known g v /\ 0 <= i < two64
      | ESet v k _ | EDelete v k | EFind v k => known g v /\ c_string k
      | EDestroy => (size g <= chain)%nat
      end
  end.

(** ** The document *)

Section Edit.
Context {C : Type} (a : zenit_allocator_t C) {SP : AllocSpec a} {W : Watched a} (junk : option addr).
Context (c0 : C) (m0 : store).
Implicit Types (c : C) (m : store) (doc : zenit_json_t) (g : gmap addr node).

(** The document [doc] with the values [g]. *)
Definition edit_rep doc m c g : Prop :=
  exists ps, doc_inv a [] c0 m0 doc m c ps /\ dom g = list_to_set ps /\
    forall x n, g !! x = Some n -> exists d, data_at m x = Some d /\ shows d n.

(** One value of the document, and what may be done to it. *)
Lemma edit_focus doc m c g x n : edit_rep doc m c g -> g !! x = Some n ->
  exists v R, m !! x = Some v /\ shows (v_data v) n /\ payload_ok (v_data v) /\ owns a c0 c (payload_blocks (v_data v) ++ R) /\
    (forall c', owns a c0 c' (payload_blocks (v_data v) ++ R) -> edit_rep doc m c' g) /\
    (forall c' d n', payload_ok d -> shows d n' -> owns a c0 c' (payload_blocks d ++ R) -> edit_rep doc (<[x := set_data d v]> m) c' (<[x := n']> g)).
Proof.
  intros (ps & D & Hd & Hs) Hx. assert (Px : x ∈ ps).
  { assert (x ∈ dom g) as X by (by apply elem_of_dom_2 in Hx). rewrite Hd in X. by apply elem_of_list_to_set in X. }
  destruct (d_nodes _ _ _ _ _ _ _ _ D x Px) as (v & Ev & _). destruct (doc_focus a _ _ _ _ _ _ _ _ _ D Px Ev) as (Ok & B & O & Keep & Put).
  exists v, ([] ++ j_self doc :: ps ++ B). destruct (Hs x n Hx) as (d & Ed & Sh). unfold data_at in Ed. rewrite Ev in Ed. injection Ed as <-.
  split; [done|]. split; [done|]. split; [done|]. split; [done|]. split.
  - intros c' O'. exists ps. split; [by apply Keep|done].
  - intros c' d n' Hok Hsh O'. exists ps. split; [by apply Put|]. split; [rewrite dom_insert_lookup_L; [done|by eexists]|].
    intros y z. destruct (decide (y = x)) as [->|Ny].
    + rewrite lookup_insert_eq. intros [= <-]. exists d. unfold data_at. by rewrite lookup_insert_eq.
    + rewrite lookup_insert_ne by done. intros Hy. destruct (Hs y z Hy) as (e & Ee & Se). exists e. unfold data_at. by rewrite lookup_insert_ne.
Qed.

(** ** New values *)

Lemma edit_alloc doc m c g : edit_rep doc m c g ->
  exists r doc' m' c', value_alloc a doc m c = Ret (r, doc', m', c') /\ j_root doc' = j_root doc /\
    match r with
    | None => edit_rep doc' m' c' g
    | Some x => g !! x = None /\ edit_rep doc' m' c' (<[x := NNull]> g)
    end.
Proof.
  intros (ps & D & Hd & Hs). destruct (value_alloc_spec a _ _ _ _ _ _ _ D) as (r & doc' & m' & c' & E & _ & _ & Hr & H). exists r, doc', m', c'.
  split; [done|]. split; [done|]. destruct r as [x|].
  - destruct H as (D' & Nx & Ex & K). assert (Gx : g !! x = None) by (apply not_elem_of_dom; rewrite Hd; by rewrite elem_of_list_to_set).
    split; [done|]. exists (ps ++ [x]). split; [done|]. split; [rewrite dom_insert_L, Hd, list_to_set_app_L; simpl; set_solver|].
    intros y n. destruct (decide (y = x)) as [->|Ny].
    + rewrite lookup_insert_eq. intros [= <-]. exists JNull. unfold data_at. by rewrite Ex.
    + rewrite lookup_insert_ne by done. intros Hy. destruct (Hs y n Hy) as (e & Ee & Se). exists e. unfold data_at in *. by rewrite K.
  - (* the failed allocation returns the document as it was *)
    destruct H as [D' _]. exists ps. split; [done|]. split; [done|]. unfold value_alloc in E. destruct (alloc_fn a SIZEOF_VALUE c) as [[b|] c1]; [|by injection E as <- <- <-].
    destruct (j_tail doc); [destruct (supd _ _ _); [|done|done]; by injection E|by injection E].
Qed.

Lemma edit_make doc m c g d n : edit_rep doc m c g -> payload_ok d -> payload_blocks d = [] -> shows d n ->
  exists r doc' m' c', make_value a (Some doc) d m c = Ret (r, Some doc', m', c') /\ j_root doc' = j_root doc /\
    match r with None => edit_rep doc' m' c' g | Some x => g !! x = None /\ edit_rep doc' m' c' (<[x := n]> g) end.
Proof.
  intros H Hd Hb Hs. unfold make_value. destruct (edit_alloc doc m c g H) as (r & doc' & m' & c' & -> & Hr & H'). cbn [obind].
  destruct r as [x|]; [|eexists None, _, _, _; split; [done|]; split; [done|exact H']]. destruct H' as [Gx H'].
  destruct (edit_focus doc' m' c' _ x NNull H' (lookup_insert_eq _ _ _)) as (v & R & Ev & Sv & _ & O & _ & Put). rewrite (supd_Some _ _ _ _ Ev). cbn [obind].
  eexists (Some x), _, _, _. split; [done|]. split; [done|]. split; [done|]. rewrite <- (insert_insert_eq g x n NNull). apply Put; [done|done|].
  rewrite Hb. by destruct (v_data v) as [| | |[]| |].
Qed.

Lemma edit_string doc m c g s : edit_rep doc m c g -> c_string s ->
  exists r doc' m' c', zenit_json_value_string a (Some doc) s m c = Ret (r, Some doc', m', c') /\ j_root doc' = j_root doc /\
    match r with
    | None => edit_rep doc' m' c' g \/ exists x, g !! x = None /\ edit_rep doc' m' c' (<[x := NStr None]> g)
    | Some x => g !! x = None /\ edit_rep doc' m' c' (<[x := NStr (Some (match s with Some b => str_of b | None => [] end))]> g)
    end.
Proof.
  intros H Hs. unfold zenit_json_value_string. destruct (edit_alloc doc m c g H) as (r & doc' & m' & c' & -> & Hr & H'). cbn [obind].
  destruct r as [x|]; [|eexists None, _, _, _; split; [done|]; split; [done|by left]]. destruct H' as [Gx H'].
  destruct (edit_focus doc' m' c' _ x NNull H' (lookup_insert_eq _ _ _)) as (v & R & Ev & Sv & _ & O & _ & Put).
  assert (payload_blocks (v_data v) = []) as Eb by (by destruct (v_data v) as [| | |[]| |]). rewrite Eb in O.
  set (t := match s with Some b => str_of b | None => [] end).
  assert (exists rest, default [NUL] s = t ++ NUL :: rest /\ chars t /\ zlen t < PTRDIFF_MAX) as (rest & -> & Ht & Hl).
  { unfold t. destruct s as [b|]; [|exists []; split; [done|]; split; [constructor|by vm_compute]]. destruct Hs as (t' & Hc & Hl). rewrite (str_of_cstr _ _ Hc).
    destruct Hc as (rest & -> & Ht). by exists rest. }
  rewrite str_dup_text by done. cbn [obind]. destruct (alloc_fn a (zlen t + 1) c') as [[b|] c1] eqn:A; cbn [obind]; rewrite (supd_Some _ _ _ _ Ev); cbn [obind].
  - eexists (Some x), _, _, _. split; [done|]. split; [done|]. split; [done|]. rewrite <- (insert_insert_eq g x (NStr (Some t)) NNull). apply Put; [done| |].
    + simpl. exists []. done.
    + simpl. by apply (owns_alloc a _ _ _ _ _ _ O A).
  - eexists None, _, _, _. split; [done|]. split; [done|]. right. exists x. split; [done|]. rewrite <- (insert_insert_eq g x (NStr None) NNull). apply Put; [done|done|].
    eapply owns_same; [exact O|by eapply alloc_none].
Qed.

(** ** Arrays *)

Lemma array_of_spec doc m c g val : edit_rep doc m c g -> known g val ->
  match arr_at g val with
  | Some xs => exists x v items cap R, val = Some x /\ m !! x = Some v /\ v_data v = JArray items (zlen xs) cap /\
      array_of val m = Ret (Some (items, zlen xs, cap)) /\ take (Z.to_nat (zlen xs)) (tdata items) = xs /\ slots_ok items cap /\ zlen xs <= cap /\
      owns a c0 c (opt_addr (taddr items) ++ R) /\
      (forall c', owns a c0 c' (opt_addr (taddr items) ++ R) -> edit_rep doc m c' g) /\
      (forall c' items' ys cap', slots_ok items' cap' -> zlen ys <= cap' -> take (Z.to_nat (zlen ys)) (tdata items') = ys ->
         owns a c0 c' (opt_addr (taddr items') ++ R) ->
         edit_rep doc (<[x := set_data (JArray items' (zlen ys) cap') v]> m) c' (<[x := NArr ys]> g))
  | None => array_of val m = Ret None
  end.
Proof.
  intros H Hk. unfold arr_at, node_at. destruct val as [x|]; [|done]. cbn [mbind option_bind]. unfold known in Hk. apply elem_of_dom in Hk as [n Hn]. rewrite Hn.
  destruct (edit_focus doc m c g x n H Hn) as (v & R & Ev & Sv & Ok & O & Keep & Put). unfold array_of. rewrite (sget_Some _ _ _ Ev). cbn [obind].
  destruct n as [| | | |xs|kvs]; try (destruct (v_data v) as [| | |[]| |]; done). destruct (v_data v) as [| | |[]|items count cap|] eqn:Ed; try done.
  destruct Ok as [So Hc]. simpl in Sv. assert (Hz : zlen xs = count) by (rewrite <- Sv; unfold zlen; rewrite length_take; pose proof (so_data _ _ So); unfold zlen in *; lia).
  exists x, v, items, cap, R. rewrite Hz. split_and!; try done; [lia|]. intros c' items' ys cap' So' Hc' Hy O'. apply Put; [|done|done].
  split; [done|]. pose proof (zlen_nonneg ys). lia.
Qed.

(** A call that changes a value did what [edit] says, or failed for lack of memory. *)
Definition edits op doc g (r : outcome (zenit_error_t * store * C)) : Prop :=
  exists e m' c' g', r = Ret (e, m', c') /\ edit_rep doc m' c' g' /\
    ((exists mem, edit op g = Some (e, g', mem)) \/ (e = ZENIT_ERROR_ALLOC /\ g' = g /\ exists e0 g0, edit op g = Some (e0, g0, true))).

Lemma edits_done op doc g r e m' c' g' mem : r = Ret (e, m', c') -> edit_rep doc m' c' g' -> edit op g = Some (e, g', mem) -> edits op doc g r.
Proof. intros E H S. exists e, m', c', g'. split; [done|]. split; [done|]. left. by exists mem. Qed.

Lemma edits_failed op doc g r m' c' e0 g0 : r = Ret (ZENIT_ERROR_ALLOC, m', c') -> edit_rep doc m' c' g -> edit op g = Some (e0, g0, true) -> edits op doc g r.
Proof. intros E H S. exists ZENIT_ERROR_ALLOC, m', c', g. split; [done|]. split; [done|]. right. split; [done|]. split; [done|]. by exists e0, g0. Qed.

Lemma grow_or_error_spec c items count cap R : slots_ok items cap -> 0 <= count <= cap -> owns a c0 c (opt_addr (taddr items) ++ R) ->
  (exists c', array_grow_or_error a junk items count cap c = Ret (ZENIT_ERROR_ALLOC, items, cap, c') /\ owns a c0 c' (opt_addr (taddr items) ++ R)) \/
  (exists items' cap' c', array_grow_or_error a junk items count cap c = Ret (ZENIT_OK, items', cap', c') /\ owns a c0 c' (opt_addr (taddr items') ++ R) /\
     slots_ok items' cap' /\ count < cap' /\ take (Z.to_nat count) (tdata items') = take (Z.to_nat count) (tdata items)).
Proof.
  intros S Hc O. destruct (array_room_spec a junk c0 c items count cap R S Hc O) as (r & c' & E & _ & H). unfold array_grow_or_error.
  destruct (decide (cap <= count)) as [D|D].
  - rewrite E. cbn [obind]. destruct r as [[items' cap']|]; [right; by exists items', cap', c'|left; exists c'; split; [done|apply H]].
  - injection E as <- <-. right. by exists items, cap, c.
Qed.

Lemma append_edits doc m c g arr item : edit_rep doc m c g -> known g arr -> edits (EAppend arr item) doc g (zenit_json_array_append a junk arr item m c).
Proof.
  intros H Hk. unfold zenit_json_array_append. destruct (decide (arr = None \/ item = None)) as [D|D].
  { eapply edits_done; [done|done|]. cbn [edit]. by rewrite decide_True. }
  pose proof (array_of_spec doc m c g arr H Hk) as A. destruct (arr_at g arr) as [xs|] eqn:Ea.
  2:{ rewrite A. cbn [obind]. eapply edits_done; [done|done|]. cbn [edit]. by rewrite decide_False, Ea by done. }
  destruct A as (x & v & items & cap & R & -> & Ev & Ed & -> & Tk & So & Hc & O & Keep & Put). cbn [obind].
  assert (Hedit : edit (EAppend (Some x) item) g = Some (ZENIT_OK, put g (Some x) (NArr (xs ++ [item])), true)) by (cbn [edit]; by rewrite decide_False, Ea by done).
  pose proof (zlen_nonneg xs). destruct (grow_or_error_spec c items (zlen xs) cap R So ltac:(lia) O) as [(c' & -> & O')|(items' & cap' & c' & -> & O' & So' & Hlt & Tk')]; cbn [obind].
  { rewrite decide_True by done. eapply edits_failed; [done|by apply Keep|exact Hedit]. }
  rewrite decide_False by (by intros []). destruct (slots_tset items' cap' (zlen xs) item So') as (items2 & -> & So2 & A2 & D2); [lia|]. cbn [obind].
  rewrite (supd_Some _ _ _ _ Ev). cbn [obind]. pose proof (so_max _ _ So') as Hm. unfold SIZEOF_POINTER in Hm. rewrite u64_small by lia.
  assert (Hy : zlen (xs ++ [item]) = zlen xs + 1) by zl. rewrite <- Hy. eapply edits_done; [done| |exact Hedit].
  apply Put; [done|lia| |by rewrite A2]. rewrite Hy, D2, take_snoc by (rewrite (so_data _ _ So'); lia). by rewrite Tk', Tk.
Qed.

Lemma take_data {A : Type} (t : option (tarr A)) xs : take (Z.to_nat (zlen xs)) (tdata t) = xs -> tdata t = xs ++ drop (Z.to_nat (zlen xs)) (tdata t).
Proof. intros E. rewrite <- E at 1. by rewrite take_drop. Qed.

Lemma take_exact {A : Type} (xs rest : list A) : take (Z.to_nat (zlen xs)) (xs ++ rest) = xs.
Proof. unfold zlen. by rewrite Nat2Z.id, take_app_length. Qed.

Lemma remove_edits doc m c g arr i : edit_rep doc m c g -> known g arr -> 0 <= i -> edits (ERemove arr i) doc g (zenit_json_array_remove arr i m c).
Proof.
  intros H Hk Hi. unfold zenit_json_array_remove. destruct (decide (arr = None)) as [D|D].
  { eapply edits_done; [done|done|]. cbn [edit]. by rewrite decide_True. }
  pose proof (array_of_spec doc m c g arr H Hk) as A. destruct (arr_at g arr) as [xs|] eqn:Ea.
  2:{ rewrite A. cbn [obind]. eapply edits_done; [done|done|]. cbn [edit]. by rewrite decide_False, Ea by done. }
  destruct A as (x & v & items & cap & R & -> & Ev & Ed & -> & Tk & So & Hc & O & Keep & Put). cbn [obind].
  destruct (decide (zlen xs <= i)) as [Di|Di].
  { eapply edits_done; [done|done|]. cbn [edit]. by rewrite decide_False, Ea, decide_True by done. }
  apply take_data in Tk. destruct (list_split_at xs i) as (pre & suf & -> & Lp); [lia|]. destruct suf as [|y mid]; [rewrite app_nil_r in Di; lia|].
  rewrite zlen_app, zlen_cons in *. pose proof (zlen_nonneg mid). pose proof (so_max _ _ So) as Hm. unfold SIZEOF_POINTER in Hm. rewrite <- app_assoc in Tk. cbn [app] in Tk.
  replace (Z.to_nat (zlen pre + (1 + zlen mid) - (i + 1))) with (length mid) by (unfold zlen in *; lia).
  destruct (shift_down_spec mid pre y _ items cap (i + 1) So ltac:(lia) Tk ltac:(lia)) as (items2 & z & -> & So2 & A2 & D2). cbn [obind].
  rewrite (supd_Some _ _ _ _ Ev). cbn [obind]. rewrite u64_small by lia.
  replace (zlen pre + (1 + zlen mid) - 1) with (zlen (pre ++ mid)) by zl. eapply edits_done; [done| |].
  - apply Put; [done|zl|by rewrite D2, app_assoc, take_exact|by rewrite A2].
  - cbn [edit]. rewrite decide_False, Ea, decide_False by (done || zl). cbn [put]. do 4 f_equal.
    replace (Z.to_nat i) with (length pre) by (unfold zlen in *; lia). rewrite take_app_length. f_equal.
    rewrite drop_app_ge by lia. by replace (S (length pre) - length pre)%nat with 1%nat by lia.
Qed.

Lemma insert_edits doc m c g arr i item : edit_rep doc m c g -> known g arr -> 0 <= i ->
  edits (EInsert arr i item) doc g (zenit_json_array_insert a junk arr i item m c).
Proof.
  intros H Hk Hi. unfold zenit_json_array_insert. destruct (decide (arr = None \/ item = None)) as [D|D].
  { eapply edits_done; [done|done|]. cbn [edit]. by rewrite decide_True. }
  pose proof (array_of_spec doc m c g arr H Hk) as A. destruct (arr_at g arr) as [xs|] eqn:Ea.
  2:{ rewrite A. cbn [obind]. eapply edits_done; [done|done|]. cbn [edit]. by rewrite decide_False, Ea by done. }
  destruct A as (x & v & items & cap & R & -> & Ev & Ed & -> & Tk & So & Hc & O & Keep & Put). cbn [obind].
  destruct (decide (zlen xs < i)) as [Di|Di].
  { eapply edits_done; [done|done|]. cbn [edit]. by rewrite decide_False, Ea, decide_True by done. }
  assert (Hedit : edit (EInsert (Some x) i item) g = Some (ZENIT_OK, put g (Some x) (NArr (take (Z.to_nat i) xs ++ item :: drop (Z.to_nat i) xs)), true))
    by (cbn [edit]; by rewrite decide_False, Ea, decide_False by done).
  pose proof (zlen_nonneg xs). destruct (grow_or_error_spec c items (zlen xs) cap R So ltac:(lia) O) as [(c' & -> & O')|(items' & cap' & c' & -> & O' & So' & Hlt & Tk')]; cbn [obind].
  { rewrite decide_True by done. eapply edits_failed; [done|by apply Keep|exact Hedit]. }
  rewrite decide_False by (by intros []). rewrite Tk in Tk'. apply take_data in Tk'. pose proof (so_max _ _ So') as Hm. unfold SIZEOF_POINTER in Hm.
  assert (exists z rest, drop (Z.to_nat (zlen xs)) (tdata items') = z :: rest) as (z & rest & Er).
  { destruct (drop (Z.to_nat (zlen xs)) (tdata items')) as [|z rest] eqn:Er; [|by exists z, rest]. apply (f_equal length) in Er. rewrite length_drop in Er.
    pose proof (so_data _ _ So'). unfold zlen in *. simpl in Er. lia. }
  rewrite Er in Tk'. destruct (list_split_at xs i) as (pre & mid & Exs & Lp); [lia|].
  assert (E1 : take (Z.to_nat i) xs = pre) by (rewrite Exs, <- Lp; apply take_exact).
  assert (E2 : drop (Z.to_nat i) xs = mid) by (rewrite Exs, <- Lp; unfold zlen; rewrite Nat2Z.id; by rewrite drop_app_length).
  rewrite E1, E2 in Hedit. rewrite Exs, <- app_assoc in Tk'.
  replace (Z.to_nat (zlen xs - i)) with (length mid) by (rewrite Exs, zlen_app; unfold zlen in *; lia).
  destruct (shift_up_spec mid pre z rest items' cap' So' Tk') as (items2 & y & Es & So2 & A2 & D2). rewrite Exs at 1. rewrite Es. cbn [obind]. clear Es.
  destruct (slots_tset items2 cap' i item So2) as (items3 & -> & So3 & A3 & D3); [lia|]. cbn [obind]. rewrite (supd_Some _ _ _ _ Ev). cbn [obind]. rewrite u64_small by lia.
  assert (Hy : zlen xs + 1 = zlen (pre ++ item :: mid)) by (rewrite Exs; zl). rewrite Hy. eapply edits_done; [done| |exact Hedit].
  apply Put; [done|lia| |by rewrite A3, A2]. rewrite D3, D2. replace (Z.to_nat i) with (length pre + 0)%nat by (unfold zlen in *; lia). rewrite insert_app_r. cbn [insert list_insert].
  by rewrite (app_assoc pre (item :: mid) rest : pre ++ item :: mid ++ rest = _), take_exact.
Qed.

(** ** Objects *)

Lemma object_of_spec doc m c g val : edit_rep doc m c g -> known g val ->
  match obj_at g val with
  | Some kvs => exists x v keys values cap R, val = Some x /\ m !! x = Some v /\ v_data v = JObject keys values (zlen kvs) cap /\
      object_of val m = Ret (Some (keys, values, zlen kvs, cap)) /\ Forall2 key_is (take (Z.to_nat (zlen kvs)) (tdata keys)) kvs /\
      take (Z.to_nat (zlen kvs)) (tdata values) = kvs.*2 /\ slots_ok keys cap /\ slots_ok values cap /\ zlen kvs <= cap /\
      owns a c0 c (opt_addr (taddr keys) ++ opt_addr (taddr values) ++ key_addrs (take (Z.to_nat (zlen kvs)) (tdata keys)) ++ R) /\
      (forall c', owns a c0 c' (opt_addr (taddr keys) ++ opt_addr (taddr values) ++ key_addrs (take (Z.to_nat (zlen kvs)) (tdata keys)) ++ R) -> edit_rep doc m c' g) /\
      (forall c' keys' values' kvs' cap', slots_ok keys' cap' -> slots_ok values' cap' -> zlen kvs' <= cap' ->
         Forall2 key_is (take (Z.to_nat (zlen kvs')) (tdata keys')) kvs' -> take (Z.to_nat (zlen kvs')) (tdata values') = kvs'.*2 ->
         owns a c0 c' (opt_addr (taddr keys') ++ opt_addr (taddr values') ++ key_addrs (take (Z.to_nat (zlen kvs')) (tdata keys')) ++ R) ->
         edit_rep doc (<[x := set_data (JObject keys' values' (zlen kvs') cap') v]> m) c' (<[x := NObj kvs']> g))
  | None => object_of val m = Ret None
  end.
Proof.
  intros H Hk. unfold obj_at, node_at. destruct val as [x|]; [|done]. cbn [mbind option_bind]. unfold known in Hk. apply elem_of_dom in Hk as [n Hn]. rewrite Hn.
  destruct (edit_focus doc m c g x n H Hn) as (v & R & Ev & Sv & Ok & O & Keep & Put). unfold object_of. rewrite (sget_Some _ _ _ Ev). cbn [obind].
  destruct n as [| | | |xs|kvs]; try (destruct (v_data v) as [| | |[]| |]; done). destruct (v_data v) as [| | |[]| |keys values count cap] eqn:Ed; try done.
  destruct Ok as (Sk & So & Hc & _). destruct Sv as [Sv1 Sv2].
  assert (Hz : zlen kvs = count). { apply (f_equal zlen) in Sv2. unfold zlen in *. rewrite length_take, length_fmap in Sv2. pose proof (so_data _ _ So). unfold zlen in *. lia. }
  exists x, v, keys, values, cap, R. rewrite Hz. split_and!; try done; [lia|cbn [payload_blocks] in O; by rewrite <- !app_assoc in O|intros c' O'; apply Keep; cbn [payload_blocks]; by rewrite <- !app_assoc|].
  intros c' keys' values' kvs' cap' Sk' So' Hc' Hf Hv O'. apply Put; [|done|cbn [payload_blocks]; by rewrite <- !app_assoc].
  split; [done|]. split; [done|]. pose proof (zlen_nonneg kvs'). split; [lia|]. clear - Hf. induction Hf as [|k kv ks kvs (b & -> & _) _ IH]; by constructor.
Qed.

Lemma find_of keys key k kvs cap : slots_ok keys cap -> zlen kvs <= cap -> cstr key k -> Forall2 key_is (take (Z.to_nat (zlen kvs)) (tdata keys)) kvs ->
  find_key (Z.to_nat (zlen kvs)) 0 keys key = Ret (Z.of_nat <$> find_pos k kvs).
Proof.
  intros So Hc Hk F. pose proof (so_max _ _ So) as Hm. unfold SIZEOF_POINTER in Hm. pose proof (zlen_nonneg kvs).
  replace (Z.to_nat (zlen kvs)) with (length kvs) in * by (unfold zlen; lia). rewrite (find_key_spec keys key k Hk kvs 0); [|lia|lia|by rewrite drop_0].
  by destruct (find_pos k kvs).
Qed.

(** The arrays of keys and of values, each without one element. *)
Lemma shift_out {A : Type} (t : option (tarr A)) cap pre x mid : slots_ok t cap -> take (Z.to_nat (zlen (pre ++ x :: mid))) (tdata t) = pre ++ x :: mid ->
  exists t', shift_down (length mid) (zlen pre + 1) t = Ret t' /\ slots_ok t' cap /\ taddr t' = taddr t /\ take (Z.to_nat (zlen (pre ++ mid))) (tdata t') = pre ++ mid.
Proof.
  intros So Tk. apply take_data in Tk. pose proof (so_max _ _ So) as Hm. unfold SIZEOF_POINTER in Hm. rewrite <- app_assoc in Tk. cbn [app] in Tk.
  destruct (shift_down_spec mid pre x _ t cap (zlen pre + 1) So ltac:(lia) Tk eq_refl) as (t' & z & E & So' & A' & D'). exists t'.
  split; [done|]. split; [done|]. split; [done|]. by rewrite D', app_assoc, take_exact.
Qed.

Lemma delete_edits doc m c g obj key : edit_rep doc m c g -> known g obj -> c_string key -> edits (EDelete obj key) doc g (zenit_json_object_remove a obj key m c).
Proof.
  intros H Hk Hc. unfold zenit_json_object_remove. destruct obj as [x0|]; [|by eapply edits_done]. destruct key as [key|]; [|by eapply edits_done].
  pose proof (object_of_spec doc m c g (Some x0) H Hk) as A. destruct (obj_at g (Some x0)) as [kvs|] eqn:Eo.
  2:{ rewrite A. cbn [obind]. eapply edits_done; [done|done|]. cbn [edit]. by rewrite Eo. }
  destruct A as (x & v & keys & values & cap & R & [= ->] & Ev & Ed & -> & Fk & Tv & Sk & So & Hl & O & _ & Put). cbn [obind].
  destruct Hc as (k & Hc & _). rewrite (find_of keys key k kvs cap) by done. cbn [obind]. pose proof (str_of_cstr _ _ Hc) as Ek.
  destruct (find_pos k kvs) as [j|] eqn:Ef; cbn [fmap option_fmap option_map].
  2:{ eapply edits_done; [done|done|]. cbn [edit]. by rewrite Eo, Ek, Ef. }
  destruct (find_pos_Some _ _ _ Ef) as (val & Hj). apply list_elem_of_split_length in Hj as (pre & mid & -> & Lj).
  apply Forall2_app_inv_r in Fk as (kp & ks & Fp & Fs & Ek1). inversion Fs as [|kb ? km ? (b & -> & Hb) Fm]; subst ks.
  assert (Lp : length kp = j) by (rewrite (Forall2_length _ _ _ Fp); done). assert (Lm : length km = length mid) by (by apply Forall2_length in Fm).
  assert (Lz : zlen (pre ++ (k, val) :: mid) = zlen (kp ++ Some b :: km)) by (rewrite !zlen_app, !zlen_cons; unfold zlen; lia).
  assert (Ej : Z.of_nat j = zlen kp) by (unfold zlen; lia).
  rewrite (tget_lookup keys (Z.of_nat j) (Some b)); [|intros ->; simpl in Ek1; by rewrite take_nil in Ek1; destruct kp|lia|].
  2:{ rewrite Lz in Ek1. apply take_data in Ek1. rewrite Ek1, Nat2Z.id, <- app_assoc, lookup_app_r, Lp, Nat.sub_diag by lia. done. }
  cbn [obind]. replace (Z.to_nat (zlen (pre ++ (k, val) :: mid) - (Z.of_nat j + 1))) with (length km) by (rewrite Lz, zlen_app, zlen_cons; unfold zlen; lia).
  rewrite Ek1 in O. rewrite Lz in Ek1. destruct (shift_out keys cap kp (Some b) km Sk Ek1) as (keys' & Es & Sk' & A' & D'). rewrite Ej, Es. cbn [obind]. clear Es.
  assert (Tv' : take (Z.to_nat (zlen (pre.*2 ++ val :: mid.*2))) (tdata values) = pre.*2 ++ val :: mid.*2).
  { rewrite fmap_app in Tv. replace (zlen (pre.*2 ++ val :: mid.*2)) with (zlen (pre ++ (k, val) :: mid)); [done|]. unfold zlen. rewrite !length_app. cbn. by rewrite !length_fmap. }
  destruct (shift_out values cap _ val _ So Tv') as (values' & Es & So' & Av & Dv). rewrite !length_fmap in Es.
  replace (zlen pre.*2) with (zlen kp) in Es by (unfold zlen; rewrite length_fmap; lia). rewrite Lm, Es. cbn [obind]. clear Es.
  rewrite (supd_Some _ _ _ _ Ev). cbn [obind]. pose proof (so_max _ _ So) as Hm. unfold SIZEOF_POINTER in Hm.
  pose proof (zlen_nonneg (pre ++ mid)). assert (Lk : zlen (pre ++ (k, val) :: mid) - 1 = zlen (pre ++ mid)) by zl. rewrite u64_small by (rewrite Lk; zl). rewrite Lk.
  assert (Lk' : zlen (kp ++ km) = zlen (pre ++ mid)) by (rewrite !zlen_app; unfold zlen; lia). rewrite Lk' in D'.
  assert (Lv' : zlen (pre.*2 ++ mid.*2) = zlen (pre ++ mid)) by (rewrite !zlen_app; unfold zlen; by rewrite !length_fmap). rewrite Lv' in Dv.
  eapply edits_done; [done| |].
  - apply (Put _ keys' values' (pre ++ mid) cap); [done|done|zl|rewrite D'; by apply Forall2_app|by rewrite Dv, fmap_app|].
    rewrite D', A', Av. apply owns_free. eapply owns_perm; [exact O|]. unfold key_addrs. rewrite !bind_app. cbn. solve_Permutation.
  - cbn [edit]. rewrite Eo, Ek, Ef. cbn [put]. do 4 f_equal. rewrite Lj, take_app_length, drop_app_ge by lia. by replace (S (length pre) - length pre)%nat with 1%nat by lia.
Qed.

(** A member that is there gets another value. *)
Lemma set_existing doc m c g x v keys values kvs cap R j k w val :
  slots_ok keys cap -> slots_ok values cap -> zlen kvs <= cap -> Forall2 key_is (take (Z.to_nat (zlen kvs)) (tdata keys)) kvs ->
  take (Z.to_nat (zlen kvs)) (tdata values) = kvs.*2 -> kvs !! j = Some (k, w) ->
  owns a c0 c (opt_addr (taddr keys) ++ opt_addr (taddr values) ++ key_addrs (take (Z.to_nat (zlen kvs)) (tdata keys)) ++ R) ->
  (forall c' keys' values' kvs' cap', slots_ok keys' cap' -> slots_ok values' cap' -> zlen kvs' <= cap' ->
     Forall2 key_is (take (Z.to_nat (zlen kvs')) (tdata keys')) kvs' -> take (Z.to_nat (zlen kvs')) (tdata values') = kvs'.*2 ->
     owns a c0 c' (opt_addr (taddr keys') ++ opt_addr (taddr values') ++ key_addrs (take (Z.to_nat (zlen kvs')) (tdata keys')) ++ R) ->
     edit_rep doc (<[x := set_data (JObject keys' values' (zlen kvs') cap') v]> m) c' (<[x := NObj kvs']> g)) ->
  exists values', tset values (Z.of_nat j) val = Ret values' /\
    edit_rep doc (<[x := set_data (JObject keys values' (zlen kvs) cap) v]> m) c (<[x := NObj (<[j := (k, val)]> kvs)]> g).
Proof.
  intros Sk So Hl Fk Tv Hj O Put. pose proof (lookup_lt_Some _ _ _ Hj) as Lj.
  destruct (slots_tset values cap (Z.of_nat j) val So) as (values' & Et & So' & A' & D'); [unfold zlen in *; lia|]. exists values'. split; [done|].
  assert (Lz : zlen (<[j := (k, val)]> kvs) = zlen kvs) by (unfold zlen; by rewrite length_insert). rewrite <- Lz. apply Put; rewrite ?Lz; try done.
  - destruct (Forall2_lookup_r _ _ _ _ _ Fk Hj) as (p & Hp & Hkey). rewrite <- (list_insert_id _ _ _ Hp). by apply Forall2_insert.
  - rewrite D', Nat2Z.id, take_insert_lt by (unfold zlen; lia). by rewrite Tv, list_fmap_insert.
  - by rewrite A'.
Qed.

Lemma set_edits doc m c g obj key val : edit_rep doc m c g -> known g obj -> c_string key ->
  edits (ESet obj key val) doc g (zenit_json_object_set a obj key val m c).
Proof.
  intros H Hk Hc. unfold zenit_json_object_set. destruct obj as [x0|]; [|by eapply edits_done]. destruct key as [key|]; [|by eapply edits_done].
  destruct val as [val|]; [|by eapply edits_done]. pose proof (object_of_spec doc m c g (Some x0) H Hk) as A. destruct (obj_at g (Some x0)) as [kvs|] eqn:Eo.
  2:{ rewrite A. cbn [obind]. eapply edits_done; [done|done|]. cbn [edit]. by rewrite Eo. }
  destruct A as (x & v & keys & values & cap & R & [= ->] & Ev & Ed & -> & Fk & Tv & Sk & So & Hl & O & Keep & Put). cbn [obind].
  destruct Hc as (k & Hc & Hz). rewrite (find_of keys key k kvs cap) by done. cbn [obind]. pose proof (str_of_cstr _ _ Hc) as Ek.
  destruct (find_pos k kvs) as [j|] eqn:Ef; cbn [fmap option_fmap option_map].
  { destruct (find_pos_Some _ _ _ Ef) as (w & Hj).
    destruct (set_existing doc m c g x v keys values kvs cap R j k w (Some val) Sk So Hl Fk Tv Hj O Put) as (values' & -> & H').
    cbn [obind]. rewrite (supd_Some _ _ _ _ Ev). cbn [obind]. eapply edits_done; [done|exact H'|]. cbn [edit]. by rewrite Eo, Ek, Ef. }
  assert (Hedit : edit (ESet (Some x) (Some key) (Some val)) g = Some (ZENIT_OK, put g (Some x) (NObj (kvs ++ [(k, Some val)])), true)) by (cbn [edit]; by rewrite Eo, Ek, Ef).
  pose proof (zlen_nonneg kvs). destruct (object_room_spec a c0 c keys values (zlen kvs) cap _ Sk So ltac:(lia) O) as (r & c1 & -> & _ & Hr). cbn [obind].
  destruct r as [[[keys1 values1] cap1]|]; [|eapply edits_failed; [done|apply Keep, Hr|exact Hedit]]. destruct Hr as (O1 & Sk1 & So1 & Hlt & Tk1 & Tv1).
  rewrite (supd_Some _ _ _ _ Ev). cbn [obind]. destruct Hc as (rest & -> & Hch). rewrite str_dup_text by done. cbn [obind].
  assert (Gx : <[x := NObj kvs]> g = g) by (apply insert_id; unfold obj_at, node_at in Eo; cbn in Eo; destruct (g !! x) as [[]|]; by simplify_eq).
  destruct (alloc_fn a (zlen k + 1) c1) as [[b|] c2] eqn:Al; cbn [obind].
  2:{ eapply edits_failed; [done| |exact Hedit]. rewrite <- Gx. apply Put; rewrite ?Tk1, ?Tv1; try done; [lia|]. eapply owns_same; [exact O1|by eapply alloc_none]. }
  destruct (slots_tset keys1 cap1 (zlen kvs) (Some (Block (b_addr b) (k ++ [NUL]))) Sk1) as (keys2 & -> & Sk2 & Ak & Dk); [lia|].
  destruct (slots_tset values1 cap1 (zlen kvs) (Some val) So1) as (values2 & Et & So2 & Av & Dv); [lia|]. cbn [obind]. rewrite Et. cbn [obind].
  erewrite supd_Some by apply lookup_insert_eq. cbn [obind]. rewrite insert_insert_eq. pose proof (so_max _ _ Sk1) as Hm. unfold SIZEOF_POINTER in Hm. rewrite u64_small by lia.
  assert (Ln : zlen kvs + 1 = zlen (kvs ++ [(k, Some val)])) by zl. pose proof (so_data _ _ Sk1) as Lk. pose proof (so_data _ _ So1) as Lv.
  assert (Dk' : take (Z.to_nat (zlen kvs + 1)) (tdata keys2) = take (Z.to_nat (zlen kvs)) (tdata keys) ++ [Some (Block (b_addr b) (k ++ [NUL]))])
    by (rewrite Dk, take_snoc by lia; by rewrite Tk1).
  assert (Dv' : take (Z.to_nat (zlen kvs + 1)) (tdata values2) = kvs.*2 ++ [Some val]) by (rewrite Dv, take_snoc by lia; by rewrite Tv1, Tv).
  eapply edits_done; [done| |exact Hedit]. rewrite Ln in *. apply Put; [done|done|lia| | |].
  - rewrite Dk'. apply Forall2_app; [done|]. constructor; [|constructor]. exists (Block (b_addr b) (k ++ [NUL])). split; [done|]. by exists [].
  - by rewrite Dv', fmap_app.
  - rewrite Dk', Ak, Av. eapply owns_perm; [apply (owns_alloc a _ _ _ _ _ _ O1 Al)|]. unfold key_addrs. rewrite bind_app. cbn. solve_Permutation.
Qed.
End Edit.

(** ** Any sequence of calls *)

Section Run.
Context {C : Type} (a : zenit_allocator_t C) {SP : AllocSpec a} (junk : option addr) (chain : nat).

(** What a call returns, as a string for those that return a pointer to one. *)
Definition text_of (b : option block) : option bytes := (fun b => str_of (b_data b)) <$> b.

Definition json_exec (op : json_op) (st : option zenit_json_t * store * C) : outcome (json_res * (option zenit_json_t * store * C)) :=
  let '(json, m, c) := st in
  let made (r : outcome (option addr * option zenit_json_t * store * C)) := let! (val, json, m, c) := r in Ret (RVal val, (json, m, c)) in
  let edited (r : outcome (zenit_error_t * store * C)) := let! (e, m, c) := r in Ret (RErr e, (json, m, c)) in
  let reads {A : Type} (f : A -> json_res) (r : outcome A) := let! x := r in Ret (f x, st) in
  match op with
  | ENull => made (zenit_json_value_null a json m c)
  | EBool b => made (zenit_json_value_bool a json b m c)
  | ENumber x => made (zenit_json_value_number a json x m c)
  | EString s => made (zenit_json_value_string a json s m c)
  | EArray => made (zenit_json_value_array a json m c)
  | EObject => made (zenit_json_value_object a json m c)
  | EAppend arr item => edited (zenit_json_array_append a junk arr item m c)
  | EInsert arr i item => edited (zenit_json_array_insert a junk arr i item m c)
  | ERemove arr i => edited (zenit_json_array_remove arr i m c)
  | ECount v => reads RInt (zenit_json_array_count v m)
  | EGet v i => reads RVal (zenit_json_array_get v i m)
  | ESet obj key val => edited (zenit_json_object_set a obj key val m c)
  | EDelete obj key => edited (zenit_json_object_remove a obj key m c)
  | EMembers v => reads RInt (zenit_json_object_count v m)
  | EKey v i => reads (fun b => RText (text_of b)) (zenit_json_object_key v i m)
  | EValueAt v i => reads RVal (zenit_json_object_value_at v i m)
  | EFind v key => reads RVal (zenit_json_object_get v key m)
  | EType v => reads RType (zenit_json_value_type v m)
  | EIsNull v => reads RFlag (zenit_json_value_is_null v m)
  | EBoolOf v => reads RInt (zenit_json_value_get_bool v m)
  | ENumberOf v => reads RDouble (zenit_json_value_get_number v m)
  | EStringOf v => reads (fun b => RText (text_of b)) (zenit_json_value_get_string v m)
  | ERoot => Ret (RVal (zenit_json_root json), st)
  | ESetRoot val => let '(e, json) := zenit_json_set_root json val in Ret (RErr e, (json, m, c))
  | EDestroy => let! (m, c) := zenit_json_destroy a chain json m c in Ret (RGone m (live c), (None, m, c))
  end.

Section Simulation.
Context {W : Watched a} (c0 : C) (m0 : store) (Hm0 : dom m0 ⊆ live c0).
Implicit Types (c : C) (m : store) (doc : zenit_json_t) (g : gmap addr node).

Definition state_rep (st : option zenit_json_t * store * C) (s : option doc_view) : Prop :=
  match st, s with
  | (Some doc, m, c), Some (g, root) => edit_rep a c0 m0 doc m c g /\ j_root doc = root
  | (None, _, _), None => True
  | _, _ => False
  end.

(** One value and what is read of it. *)
Lemma read_value doc m c g v :
  edit_rep a c0 m0 doc m c g -> known g v ->
  match v with Some x => exists w n, m !! x = Some w /\ node_at g v = Some n /\ shows (v_data w) n | None => node_at g v = None end.
Proof.
  intros H Hk. destruct v as [x|]; [|done]. unfold known in Hk. apply elem_of_dom in Hk as [n Hn].
  destruct (edit_focus a c0 m0 doc m c g x n H Hn) as (w & R & Ew & Sw & _). by exists w, n.
Qed.

Lemma array_reads doc m c g v i : edit_rep a c0 m0 doc m c g -> known g v -> 0 <= i ->
  zenit_json_array_count v m = Ret (match arr_at g v with Some xs => zlen xs | None => 0 end) /\
  zenit_json_array_get v i m = Ret (match arr_at g v with Some xs => mjoin (xs !! Z.to_nat i) | None => None end).
Proof.
  intros H Hk Hi. unfold zenit_json_array_count, zenit_json_array_get. pose proof (array_of_spec a c0 m0 doc m c g v H Hk) as A.
  destruct (arr_at g v) as [xs|]; [|rewrite A; done]. destruct A as (x & w & items & cap & R & -> & _ & _ & -> & Tk & So & Hc & _). cbn [obind]. split; [done|].
  case_decide as D; [rewrite lookup_ge_None_2; [done|unfold zlen in *; lia]|].
  destruct (lookup_lt_is_Some_2 xs (Z.to_nat i)) as [y Hy]; [unfold zlen in *; lia|]. rewrite Hy. cbn [mjoin option_join].
  apply (slot_get items xs i y); [|done|done]. unfold zlen in Tk. by rewrite Nat2Z.id in Tk.
Qed.

Lemma object_reads doc m c g v i key : edit_rep a c0 m0 doc m c g -> known g v -> 0 <= i -> c_string key ->
  zenit_json_object_count v m = Ret (match obj_at g v with Some kvs => zlen kvs | None => 0 end) /\
  (exists b, zenit_json_object_key v i m = Ret b /\ text_of b = match obj_at g v with Some kvs => fst <$> kvs !! Z.to_nat i | None => None end) /\
  zenit_json_object_value_at v i m = Ret (match obj_at g v with Some kvs => mjoin (snd <$> kvs !! Z.to_nat i) | None => None end) /\
  zenit_json_object_get v key m = Ret (match obj_at g v, key with
    | Some kvs, Some k => match find_pos (str_of k) kvs with Some j => mjoin (snd <$> kvs !! j) | None => None end
    | _, _ => None end).
Proof.
  intros H Hk Hi Hc. unfold zenit_json_object_count, zenit_json_object_key, zenit_json_object_value_at, zenit_json_object_get.
  pose proof (object_of_spec a c0 m0 doc m c g v H Hk) as A.
  destruct (obj_at g v) as [kvs|]; [|rewrite A; split_and!; [done|by exists None|done|done]].
  destruct A as (x & w & keys & values & cap & R & -> & _ & _ & -> & Fk & Tv & Sk & So & Hl & _). cbn [obind]. split; [done|].
  assert (Hn : Z.to_nat (zlen kvs) = length kvs) by (unfold zlen; lia).
  assert (G : forall j kv, 0 <= j -> kvs !! Z.to_nat j = Some kv -> tget values j = Ret kv.2).
  { intros j kv Hj Ej. apply (slot_get values kvs.*2); [by rewrite length_fmap, <- Hn|by rewrite list_lookup_fmap, Ej|done]. }
  split; [|split].
  - destruct (decide (zlen kvs <= i)) as [D|D]; [exists None; split; [done|]; by rewrite lookup_ge_None_2 by (unfold zlen in *; lia)|].
    destruct (lookup_lt_is_Some_2 kvs (Z.to_nat i)) as [kv Hkv]; [unfold zlen in *; lia|].
    destruct (Forall2_lookup_r _ _ _ _ _ Fk Hkv) as (p & Hp & b & -> & Hb). exists (Some b). rewrite Hkv. cbn. rewrite (str_of_cstr _ _ Hb). split; [|done].
    apply lookup_take_Some in Hp as [Hp _]. apply tget_lookup; [by intros ->|done|done].
  - case_decide as D; [by rewrite lookup_ge_None_2 by (unfold zlen in *; lia)|].
    destruct (lookup_lt_is_Some_2 kvs (Z.to_nat i)) as [kv Hkv]; [unfold zlen in *; lia|]. rewrite Hkv. cbn. by apply G.
  - destruct key as [key|]; [|done]. destruct Hc as (k & Hc & _). rewrite (find_of keys key k kvs cap) by done. cbn [obind]. rewrite (str_of_cstr _ _ Hc).
    destruct (find_pos k kvs) as [j|] eqn:Ef; [|done]. cbn [fmap option_fmap option_map]. destruct (find_pos_Some _ _ _ Ef) as (u & Hj). rewrite Hj. cbn.
    apply (G (Z.of_nat j) (k, u)); [lia|by rewrite Nat2Z.id].
Qed.

Lemma step_make op n doc m c g root (r : outcome (option addr * option zenit_json_t * store * C)) : makes op = Some n ->
  (exists v doc' m' c', r = Ret (v, Some doc', m', c') /\ j_root doc' = root /\
    match v with None => edit_rep a c0 m0 doc' m' c' g | Some x => g !! x = None /\ edit_rep a c0 m0 doc' m' c' (<[x := n]> g) end) ->
  exists res st' s', (let! (val, json, m, c) := r in Ret (RVal val, (json, m, c))) = Ret (res, st') /\ json_step m0 (live c0) op (Some (g, root)) res s' /\ state_rep st' s'.
Proof.
  intros Ho (v & doc' & m' & c' & -> & Hr & H). cbn [obind]. destruct v as [x|].
  - destruct H as [Gx H]. eexists _, _, (Some (<[x := n]> g, root)). split; [done|]. split; [by apply js_make|done].
  - eexists _, _, (Some (g, root)). split; [done|]. split; [by eapply js_make_failed|done].
Qed.

Lemma step_edit op doc g root (r : outcome (zenit_error_t * store * C)) : edits a c0 m0 op doc g r -> j_root doc = root ->
  exists res st' s', (let! (e, m, c) := r in Ret (RErr e, (Some doc, m, c))) = Ret (res, st') /\ json_step m0 (live c0) op (Some (g, root)) res s' /\ state_rep st' s'.
Proof.
  intros (e & m' & c' & g' & -> & H & E) Hr. cbn [obind]. eexists _, _, (Some (g', root)). split; [done|]. split; [|done].
  destruct E as [[mem E]|(-> & -> & e0 & g0 & E)]; [by eapply js_edit|by eapply js_edit_failed].
Qed.

Lemma step_read {A : Type} op doc m c g root (f : A -> json_res) (r : outcome A) x : edit_rep a c0 m0 doc m c g -> j_root doc = root ->
  r = Ret x -> read op (g, root) = Some (f x) ->
  exists res st' s', (let! x := r in Ret (f x, (Some doc, m, c))) = Ret (res, st') /\ json_step m0 (live c0) op (Some (g, root)) res s' /\ state_rep st' s'.
Proof. intros H Hr -> E. eexists _, _, (Some (g, root)). split; [done|]. split; [by apply js_read|done]. Qed.

(** What the calls that look at one value return. *)
Lemma value_reads doc m c g v : edit_rep a c0 m0 doc m c g -> known g v ->
  zenit_json_value_type v m = Ret (node_type (node_at g v)) /\
  zenit_json_value_is_null v m = Ret (bool_decide (node_type (node_at g v) = ZENIT_JSON_NULL)) /\
  zenit_json_value_get_bool v m = Ret (match node_at g v with Some (NBool b) => b | _ => 0 end) /\
  zenit_json_value_get_number v m = Ret (match node_at g v with Some (NNum x) => x | _ => S754_zero false end) /\
  exists b, zenit_json_value_get_string v m = Ret b /\ text_of b = match node_at g v with Some (NStr s) => s | _ => None end.
Proof.
  intros H Hk. pose proof (read_value doc m c g v H Hk) as R.
  unfold zenit_json_value_type, zenit_json_value_is_null, zenit_json_value_get_bool, zenit_json_value_get_number, zenit_json_value_get_string.
  destruct v as [x|]; [|rewrite R; split_and!; try done; by exists None]. destruct R as (w & n & Ew & -> & Sw). rewrite (sget_Some _ _ _ Ew). cbn [obind]. unfold v_type.
  destruct (v_data w) as [| | |[b|]| |]; destruct n as [| | |[s|]| |]; try done; simpl in Sw; subst; split_and!; try done; try (by exists None).
  exists (Some b). split; [done|]. cbn. by rewrite (str_of_cstr _ _ Sw).
Qed.

Lemma edit_destroy doc m c g : edit_rep a c0 m0 doc m c g -> (size g <= chain)%nat ->
  exists c', zenit_json_destroy a chain (Some doc) m c = Ret (m0, c') /\ live c' = live c0.
Proof.
  intros (ps & D & Hd & _) Hs. assert (length ps <= chain)%nat.
  { rewrite <- (size_dom (D := gset addr) g), Hd, size_list_to_set in Hs; [done|by eapply d_nodup]. }
  destruct (document_destroy a c0 m0 doc m c ps chain Hm0 D) as (c' & E & L & _); [done|]. by exists c'.
Qed.

Lemma json_sim op st s : state_rep st s -> json_legal chain op s ->
  exists r st' s', json_exec op st = Ret (r, st') /\ json_step m0 (live c0) op s r s' /\ state_rep st' s'.
Proof.
  destruct st as [[[doc|] m] c]; destruct s as [[g root]|]; try done. intros [H Hr] L. cbn [json_legal] in L.
  assert (Mk : forall op d n, makes op = Some n -> payload_ok d -> payload_blocks d = [] -> shows d n -> exists res st' s',
    (let! (val, json, m, c) := make_value a (Some doc) d m c in Ret (RVal val, (json, m, c))) = Ret (res, st') /\ json_step m0 (live c0) op (Some (g, root)) res s' /\ state_rep st' s').
  { intros op' d n Ho Hd Hb Hs. apply (step_make op' n doc m c g root _ Ho). destruct (edit_make a c0 m0 doc m c g d n H Hd Hb Hs) as (r & doc' & m' & c' & E & Hr' & H').
    exists r, doc', m', c'. split; [done|]. split; [congruence|done]. }
  destruct op; cbn [json_exec].
  - apply (step_make ENull NNull doc m c g root); [done|]. destruct (edit_alloc a c0 m0 doc m c g H) as (r & doc' & m' & c' & E & Hr' & H').
    exists r, doc', m', c'. cbn [zenit_json_value_null]. rewrite E. split; [done|]. split; [congruence|done].
  - by apply (Mk (EBool b) (JBool (if decide (b <> 0) then 1 else 0)) (NBool (if decide (b <> 0) then 1 else 0))).
  - by apply (Mk (ENumber x) (JNumber x) (NNum x)).
  - destruct (edit_string a c0 m0 doc m c g s H L) as (r & doc' & m' & c' & -> & Hr' & H'). cbn [obind]. destruct r as [x|].
    + destruct H' as [Gx H']. eexists _, _, (Some (_, root)). split; [done|]. split; [by apply js_make|]. split; [exact H'|congruence].
    + destruct H' as [H'|(x & Gx & H')]; eexists _, _, (Some (_, root)); (split; [done|]); (split; [|split; [exact H'|congruence]]); [by eapply js_make_failed|by apply js_string_failed].
  - apply (Mk EArray (JArray None 0 0) (NArr [])); try done. split; [apply slots_empty|lia].
  - apply (Mk EObject (JObject None None 0 0) (NObj [])); try done. split_and!; try apply slots_empty; try lia. constructor.
  - apply step_edit; [by eapply append_edits|done].
  - destruct L as [L1 L2]. apply step_edit; [apply (insert_edits a junk c0 m0 doc m c g arr index item H L1); lia|done].
  - destruct L as [L1 L2]. apply step_edit; [apply (remove_edits a c0 m0 doc m c g arr index H L1); lia|done].
  - eapply step_read; [done|done|apply (array_reads doc m c g val 0 H L ltac:(lia))|done].
  - destruct L as [L1 L2]. eapply step_read; [done|done|apply (array_reads doc m c g val index H L1 ltac:(lia))|done].
  - destruct L as [L1 L2]. apply step_edit; [by eapply set_edits|done].
  - destruct L as [L1 L2]. apply step_edit; [by eapply delete_edits|done].
  - eapply step_read; [done|done|apply (object_reads doc m c g val 0 None H L ltac:(lia) I)|done].
  - destruct L as [L1 L2]. destruct (object_reads doc m c g val index None H L1 ltac:(lia) I) as (_ & (b & E & T) & _). eapply step_read; [done|done|exact E|]. cbn [read fst]. by rewrite T.
  - destruct L as [L1 L2]. eapply step_read; [done|done|apply (object_reads doc m c g val index None H L1 ltac:(lia) I)|done].
  - destruct L as [L1 L2]. eapply step_read; [done|done|apply (object_reads doc m c g val 0 key H L1 ltac:(lia) L2)|done].
  - eapply step_read; [done|done|apply (value_reads doc m c g val H L)|done].
  - eapply step_read; [done|done|apply (value_reads doc m c g val H L)|done].
  - eapply step_read; [done|done|apply (value_reads doc m c g val H L)|done].
  - eapply step_read; [done|done|apply (value_reads doc m c g val H L)|done].
  - destruct (value_reads doc m c g val H L) as (_ & _ & _ & _ & b & E & T). eapply step_read; [done|done|exact E|]. cbn [read fst]. by rewrite T.
  - eexists _, _, (Some (g, root)). split; [done|]. split; [apply js_read; cbn; by rewrite Hr|done].
  - eexists _, _, (Some (g, val)). split; [done|]. split; [apply js_set_root|]. split; [|done]. destruct H as (ps & D & Hd & Hs). exists ps. split; [by destruct D|done].
  - destruct (edit_destroy doc m c g H L) as (c' & -> & Lv). cbn [obind]. eexists _, _, None. split; [done|]. split; [rewrite Lv; apply js_destroy|done].
Qed.
End Simulation.

End Run.

(** Calls on a document in an empty heap, where the array, the number and the object get
    the addresses 3, 4 and 6. *)
Definition wit_calls : list json_op :=
  [EArray; ENumber (of_int 7); EAppend (Some 3%positive) (Some 4%positive); EInsert (Some 3%positive) 0 (Some 3%positive); ECount (Some 3%positive);
   ERemove (Some 3%positive) 5; ERemove (Some 3%positive) 0; EGet (Some 3%positive) 0;
   EObject; ESet (Some 6%positive) (Some (lit "k" ++ [NUL])) (Some 3%positive); ESet (Some 6%positive) (Some (lit "k" ++ [NUL])) (Some 4%positive);
   EMembers (Some 6%positive); EFind (Some 6%positive) (Some (lit "k" ++ [NUL])); EKey (Some 6%positive) 0; EAppend (Some 6%positive) (Some 3%positive);
   EDelete (Some 6%positive) (Some (lit "x" ++ [NUL])); EAppend None (Some 3%positive); EDestroy].

Definition wit_results : list json_res :=
  [RVal (Some 3%positive); RVal (Some 4%positive); RErr ZENIT_OK; RErr ZENIT_OK; RInt 2; RErr ZENIT_ERROR_PARAM; RErr ZENIT_OK; RVal (Some 4%positive);
   RVal (Some 6%positive); RErr ZENIT_OK; RErr ZENIT_OK; RInt 1; RVal (Some 4%positive); RText (Some (lit "k")); RErr ZENIT_ERROR_PARAM;
   RErr ZENIT_ERROR_NOT_FOUND; RErr ZENIT_ERROR_NULL; RGone empty empty].

