(* ===== verification/Posix.v ===== *)
(** * File calls of the platform

    The POSIX calls that [io.c] makes, as a record of functions over the state [W] of the
    operating system, and [PosixSpec], what POSIX documents of them: the state has a view
    with names, the contents they lead to, open descriptors and the number of calls that
    the system refused; reads and writes may transfer fewer bytes than asked, and every call
    may be refused.  The contents change only through these calls.  [memfs] is a file
    system in memory, with a plan of refusals and short transfers, that meets the contract. *)

From Stdlib Require Import ZArith Lia.
From stdpp Require Import base tactics option list numbers gmap sets.
From S2P Require Import Prelude Mem Result Allocator.
Open Scope Z_scope.

(** The flags of [open] that the code combines; without [o_wronly] they are [O_RDONLY]. *)
Record oflags : Set := OFlags { o_wronly : bool; o_creat : bool; o_append : bool; o_trunc : bool }.
Definition O_RDONLY : oflags := OFlags false false false false.

(** The calls with their results: [sys_stat] and [sys_fstat] return the [st_size] they
    store, [sys_read] the bytes it stores in the caller's buffer. *)
Record posix (W : Type) : Type := mk_posix {
  sys_open : bytes -> oflags -> Z -> W -> Z * W;
  sys_close : Z -> W -> W;
  sys_fstat : Z -> W -> (Z * Z) * W;
  sys_stat : bytes -> W -> (Z * Z) * W;
  sys_read : Z -> Z -> W -> (Z * bytes) * W;
  sys_write : Z -> bytes -> W -> Z * W;
  sys_access : bytes -> W -> Z * W;
  sys_unlink : bytes -> W -> Z * W }.
Arguments mk_posix {W}.
Arguments sys_open {W}.
Arguments sys_close {W}.
Arguments sys_fstat {W}.
Arguments sys_stat {W}.
Arguments sys_read {W}.
Arguments sys_write {W}.
Arguments sys_access {W}.
Arguments sys_unlink {W}.

(** ** What a program can observe of the files *)

Abbreviation ino := positive.
Record ofile : Set := OFile { of_ino : ino; of_pos : Z; of_append : bool }.
Record fsview : Type := FsView {
  v_names : gmap bytes ino;
  v_data : gmap ino bytes;
  v_fds : gmap Z ofile;
  v_faults : nat }.

Definition content (v : fsview) (p : bytes) : option bytes := v_names v !! p ≫= fun i => v_data v !! i.

(** Every name and descriptor leads to contents, whose size is an [off_t]. *)
Record fs_wf (v : fsview) : Prop := {
  wf_names p i : v_names v !! p = Some i -> is_Some (v_data v !! i);
  wf_fds d f : v_fds v !! d = Some f -> is_Some (v_data v !! of_ino f);
  wf_sizes i x : v_data v !! i = Some x -> zlen x <= PTRDIFF_MAX }.

(** The effects of the calls. *)
Definition fault (v : fsview) : fsview := FsView (v_names v) (v_data v) (v_fds v) (S (v_faults v)).

Definition opened (d : Z) (p : bytes) (fl : oflags) (i : ino) (v : fsview) : fsview :=
  FsView (<[p := i]> (v_names v))
         (<[i := if o_trunc fl then [] else default [] (v_data v !! i)]> (v_data v))
         (<[d := OFile i 0 (o_append fl)]> (v_fds v)) (v_faults v).

(** The file that [open] of [p] leads to: the one of that name, or a new one. *)
Definition target (p : bytes) (fl : oflags) (v : fsview) (i : ino) : Prop :=
  match v_names v !! p with
  | Some j => i = j
  | None => o_creat fl = true /\ v_data v !! i = None
  end.

Definition closed (d : Z) (v : fsview) : fsview :=
  FsView (v_names v) (v_data v) (delete d (v_fds v)) (v_faults v).

Definition seeked (d : Z) (f : ofile) (pos : Z) (v : fsview) : fsview :=
  FsView (v_names v) (v_data v) (<[d := OFile (of_ino f) pos (of_append f)]> (v_fds v)) (v_faults v).

(** [chunk] stored at [pos]: a gap behind the end is filled with zeros. *)
Definition overwrite (x : bytes) (pos : Z) (chunk : bytes) : bytes :=
  take (Z.to_nat pos) x ++ replicate (Z.to_nat (pos - zlen x)) 0 ++ chunk ++
  drop (Z.to_nat (pos + zlen chunk)) x.

Definition write_pos (f : ofile) (x : bytes) : Z := if of_append f then zlen x else of_pos f.

Definition written (d : Z) (f : ofile) (x chunk : bytes) (v : fsview) : fsview :=
  seeked d f (write_pos f x + zlen chunk)
    (FsView (v_names v) (<[of_ino f := overwrite x (write_pos f x) chunk]> (v_data v)) (v_fds v) (v_faults v)).

(** [p] is removed; contents stay while a name or a descriptor leads to them. *)
Definition unlinked (p : bytes) (D : gmap ino bytes) (v v' : fsview) : Prop :=
  v' = FsView (delete p (v_names v)) D (v_fds v) (v_faults v) /\ D ⊆ v_data v /\
  (forall q i, q <> p -> v_names v !! q = Some i -> D !! i = v_data v !! i) /\
  (forall d f, v_fds v !! d = Some f -> D !! of_ino f = v_data v !! of_ino f).

(** ** The contract of the calls *)

Class PosixSpec {W : Type} (os : posix W) : Type := {
  view : W -> fsview;
  open_ok p fl m w d w' : sys_open os p fl m w = (d, w') -> 0 <= d ->
    v_fds (view w) !! d = None /\ exists i, target p fl (view w) i /\ view w' = opened d p fl i (view w);
  open_fails p fl m w d w' : sys_open os p fl m w = (d, w') -> d < 0 ->
    (o_creat fl = false /\ v_names (view w) !! p = None /\ view w' = view w) \/ view w' = fault (view w);
  close_ok d w : is_Some (v_fds (view w) !! d) -> view (sys_close os d w) = closed d (view w);
  fstat_ok d f x w r s w' : v_fds (view w) !! d = Some f -> v_data (view w) !! of_ino f = Some x ->
    sys_fstat os d w = ((r, s), w') ->
    (r < 0 /\ view w' = fault (view w)) \/ (0 <= r /\ s = zlen x /\ view w' = view w);
  stat_ok p w r s w' : sys_stat os p w = ((r, s), w') ->
    (r < 0 /\ (view w' = fault (view w) \/ v_names (view w) !! p = None /\ view w' = view w)) \/
    (0 <= r /\ view w' = view w /\ exists x, content (view w) p = Some x /\ s = zlen x);
  read_ok d f x n w r bs w' : v_fds (view w) !! d = Some f -> v_data (view w) !! of_ino f = Some x ->
    0 <= of_pos f -> 0 <= n -> sys_read os d n w = ((r, bs), w') ->
    (r < 0 /\ view w' = fault (view w)) \/
    (0 <= r <= n /\ zlen bs = r /\ bs = take (Z.to_nat r) (drop (Z.to_nat (of_pos f)) x) /\
     (r = 0 -> n = 0 \/ zlen x <= of_pos f) /\ view w' = seeked d f (of_pos f + r) (view w));
  write_ok d f x bs w r w' : v_fds (view w) !! d = Some f -> v_data (view w) !! of_ino f = Some x ->
    0 <= of_pos f -> sys_write os d bs w = (r, w') ->
    (r < 0 /\ view w' = fault (view w)) \/
    (0 <= r <= zlen bs /\ (r = 0 -> bs = []) /\ write_pos f x + r <= PTRDIFF_MAX /\
     view w' = written d f x (take (Z.to_nat r) bs) (view w));
  access_ok p w r w' : sys_access os p w = (r, w') ->
    (view w' = view w /\ (r = 0 <-> is_Some (v_names (view w) !! p))) \/ (r <> 0 /\ view w' = fault (view w));
  unlink_ok p w r w' : sys_unlink os p w = (r, w') ->
    (r < 0 /\ (view w' = fault (view w) \/ v_names (view w) !! p = None /\ view w' = view w)) \/
    (0 <= r /\ is_Some (v_names (view w) !! p) /\ exists D, unlinked p D (view w) (view w')) }.

(** ** Facts about views *)

Lemma overwrite_end (x chunk : bytes) : overwrite x (zlen x) chunk = x ++ chunk.
Proof.
  unfold overwrite. rewrite Z.sub_diag. unfold zlen. rewrite take_ge, drop_ge by lia. simpl. by rewrite app_nil_r.
Qed.

Lemma fault_wf v : fs_wf v -> fs_wf (fault v).
Proof. intros [H1 H2 H3]. by split. Qed.

Lemma closed_wf d v : fs_wf v -> fs_wf (closed d v).
Proof. intros [H1 H2 H3]. split; simpl; [done| |done]. intros d' f [_ H]%lookup_delete_Some. by eapply H2. Qed.

Lemma insert_still_Some {A : Type} (m : gmap ino A) i j x : is_Some (m !! i) -> is_Some (<[j := x]> m !! i).
Proof. rewrite lookup_insert_is_Some'. by right. Qed.

Lemma opened_wf d p fl i v : fs_wf v -> fs_wf (opened d p fl i v).
Proof.
  intros [H1 H2 H3]. split; simpl.
  - intros q j [[<- <-]|[_ H]]%lookup_insert_Some; [by rewrite lookup_insert_eq|]. apply insert_still_Some. by eapply H1.
  - intros e f [[<- <-]|[_ H]]%lookup_insert_Some; [by rewrite lookup_insert_eq|]. apply insert_still_Some. by eapply H2.
  - intros j x [[<- <-]|[_ H]]%lookup_insert_Some; [|by eapply H3].
    case_match; [done|]. destruct (v_data v !! i) eqn:E; simpl; [by eapply H3|done].
Qed.

Lemma seeked_wf d f pos v : v_fds v !! d = Some f -> fs_wf v -> fs_wf (seeked d f pos v).
Proof.
  intros E [H1 H2 H3]. split; simpl; [done| |done].
  intros e g [[<- <-]|[_ H]]%lookup_insert_Some; simpl; by eapply H2.
Qed.

Lemma zlen_overwrite x pos chunk : 0 <= pos -> zlen (overwrite x pos chunk) = Z.max (zlen x) (pos + zlen chunk).
Proof. intros. unfold overwrite. autorewrite with zlen. pose proof (zlen_nonneg x). pose proof (zlen_nonneg chunk). lia. Qed.

Lemma written_wf d f x chunk v : v_fds v !! d = Some f -> v_data v !! of_ino f = Some x -> 0 <= of_pos f ->
  write_pos f x + zlen chunk <= PTRDIFF_MAX -> fs_wf v -> fs_wf (written d f x chunk v).
Proof.
  intros E D P L [H1 H2 H3]. apply seeked_wf; [done|]. split; simpl.
  - intros q j H. apply insert_still_Some. by eapply H1.
  - intros e g H. apply insert_still_Some. by eapply H2.
  - intros j y [[<- <-]|[_ H]]%lookup_insert_Some; [|by eapply H3]. rewrite zlen_overwrite.
    + apply H3 in D. lia.
    + unfold write_pos. case_match; [apply zlen_nonneg|done].
Qed.

Lemma unlinked_wf p D v v' : unlinked p D v v' -> fs_wf v -> fs_wf v'.
Proof.
  intros (-> & S & HN & HF) [H1 H2 H3]. split; simpl.
  - intros q i [Hq H]%lookup_delete_Some. rewrite (HN q i) by done. by eapply H1.
  - intros d f H. rewrite (HF d f H). by eapply H2.
  - intros i x H. eapply H3. by eapply lookup_weaken.
Qed.

Lemma unlinked_content p D v v' q : unlinked p D v v' -> content v' q = if decide (q = p) then None else content v q.
Proof.
  intros (-> & S & HN & HF). unfold content. simpl. case_decide as Hq; [subst q; by rewrite lookup_delete_eq|].
  rewrite lookup_delete_ne by done. destruct (v_names v !! q) as [i|] eqn:E; [simpl|done]. by eapply HN.
Qed.

(** No two names of one file. *)
Definition single_names (v : fsview) : Prop :=
  forall p q i, v_names v !! p = Some i -> v_names v !! q = Some i -> p = q.

(** The same files and descriptors, perhaps after refused calls. *)
Definition same_files (v v' : fsview) : Prop :=
  v_names v' = v_names v /\ v_data v' = v_data v /\ v_fds v' = v_fds v.

(** Some call was refused between [v] and [v']. *)
Definition refused (v v' : fsview) : Prop := (v_faults v < v_faults v')%nat.

(** ** A file system in memory

    [m_plan] has one entry for each call to come: a negative one refuses the call, a
    positive one bounds the bytes that are transferred. *)
Record memfs_state : Type := MemFs { m_view : fsview; m_plan : list Z }.

Definition m_limit (m : memfs_state) : option Z := head (m_plan m).
Definition m_step (v : fsview) (m : memfs_state) : memfs_state := MemFs v (tail (m_plan m)).
Definition m_refuses (m : memfs_state) : bool :=
  match m_limit m with Some k => bool_decide (k < 0) | None => false end.
Definition m_refuse (m : memfs_state) : memfs_state := m_step (fault (m_view m)) m.

(** At least one byte, at most what the plan says. *)
Definition m_count (n : Z) (m : memfs_state) : Z :=
  match m_limit m with Some k => Z.min n (Z.max 1 k) | None => n end.

Definition fresh_fd (v : fsview) : Z := 1 + foldr Z.max 0 (map_to_list (v_fds v)).*1.
Definition fresh_ino (v : fsview) : ino := Pos.succ (foldr Pos.max 1%positive (map_to_list (v_data v)).*1).

Definition mem_open (p : bytes) (fl : oflags) (mode : Z) (m : memfs_state) : Z * memfs_state :=
  let v := m_view m in
  if m_refuses m then (-1, m_refuse m)
  else match v_names v !! p with
       | Some i => (fresh_fd v, m_step (opened (fresh_fd v) p fl i v) m)
       | None =>
           if o_creat fl then (fresh_fd v, m_step (opened (fresh_fd v) p fl (fresh_ino v) v) m)
           else (-1, m_step v m)
       end.

Definition mem_close (d : Z) (m : memfs_state) : memfs_state := MemFs (closed d (m_view m)) (m_plan m).

Definition mem_fstat (d : Z) (m : memfs_state) : (Z * Z) * memfs_state :=
  if m_refuses m then ((-1, 0), m_refuse m)
  else match v_fds (m_view m) !! d with
       | Some f => ((0, zlen (default [] (v_data (m_view m) !! of_ino f))), m_step (m_view m) m)
       | None => ((-1, 0), m_refuse m)
       end.

Definition mem_stat (p : bytes) (m : memfs_state) : (Z * Z) * memfs_state :=
  if m_refuses m then ((-1, 0), m_refuse m)
  else match content (m_view m) p with
       | Some x => ((0, zlen x), m_step (m_view m) m)
       | None => ((-1, 0), m_refuse m)
       end.

Definition mem_read (d n : Z) (m : memfs_state) : (Z * bytes) * memfs_state :=
  let v := m_view m in
  if m_refuses m then ((-1, []), m_refuse m)
  else match v_fds v !! d with
       | Some f =>
           let bs := take (Z.to_nat (m_count n m)) (drop (Z.to_nat (of_pos f)) (default [] (v_data v !! of_ino f))) in
           ((zlen bs, bs), m_step (seeked d f (of_pos f + zlen bs) v) m)
       | None => ((-1, []), m_refuse m)
       end.

Definition mem_write (d : Z) (bs : bytes) (m : memfs_state) : Z * memfs_state :=
  let v := m_view m in
  if m_refuses m then (-1, m_refuse m)
  else match v_fds v !! d with
       | Some f =>
           let x := default [] (v_data v !! of_ino f) in
           let chunk := take (Z.to_nat (m_count (zlen bs) m)) bs in
           if decide (write_pos f x + zlen chunk <= PTRDIFF_MAX)
           then (zlen chunk, m_step (written d f x chunk v) m)
           else (-1, m_refuse m)
       | None => (-1, m_refuse m)
       end.

Definition mem_access (p : bytes) (m : memfs_state) : Z * memfs_state :=
  if m_refuses m then (-1, m_refuse m)
  else (if decide (is_Some (v_names (m_view m) !! p)) then 0 else -1, m_step (m_view m) m).

Definition mem_unlink (p : bytes) (m : memfs_state) : Z * memfs_state :=
  let v := m_view m in
  if m_refuses m then (-1, m_refuse m)
  else match v_names v !! p with
       | Some i => (0, m_step (FsView (delete p (v_names v)) (v_data v) (v_fds v) (v_faults v)) m)
       | None => (-1, m_step v m)
       end.

Definition memfs : posix memfs_state :=
  mk_posix mem_open mem_close mem_fstat mem_stat mem_read mem_write mem_access mem_unlink.

(** An empty file system whose calls follow [plan]. *)
Definition empty_fs (plan : list Z) : memfs_state := MemFs (FsView ∅ ∅ ∅ 0) plan.

Lemma fresh_fd_fresh v : v_fds v !! fresh_fd v = None /\ 0 <= fresh_fd v.
Proof.
  assert (B : forall l x, x ∈ l -> x <= foldr Z.max 0 l).
  { induction l as [|y l IH]; intros x Hx; [by apply elem_of_nil in Hx|].
    apply elem_of_cons in Hx as [->|Hx]; simpl; [lia|]. specialize (IH _ Hx). lia. }
  assert (P : forall l, 0 <= foldr Z.max 0 l) by (induction l; simpl; lia).
  split; [|unfold fresh_fd; specialize (P (map_to_list (v_fds v)).*1); lia].
  destruct (v_fds v !! fresh_fd v) as [f|] eqn:E; [|done]. exfalso.
  apply elem_of_map_to_list, (list_elem_of_fmap_2 fst), B in E. unfold fresh_fd in E. simpl in E. lia.
Qed.

Lemma fresh_ino_fresh v : v_data v !! fresh_ino v = None.
Proof.
  assert (B : forall l x, x ∈ l -> (x <= foldr Pos.max 1 l)%positive).
  { induction l as [|y l IH]; intros x Hx; [by apply elem_of_nil in Hx|].
    apply elem_of_cons in Hx as [->|Hx]; simpl; [lia|]. specialize (IH _ Hx). lia. }
  destruct (v_data v !! fresh_ino v) as [f|] eqn:E; [|done]. exfalso.
  apply elem_of_map_to_list, (list_elem_of_fmap_2 fst), B in E. unfold fresh_ino in E. simpl in E. lia.
Qed.

Lemma m_count_range n m : 0 <= n -> 0 <= m_count n m <= n /\ (m_count n m = 0 -> n = 0).
Proof. intros. unfold m_count. case_match; lia. Qed.

Lemma take_length_take {A : Type} (n : nat) (l : list A) : take (n `min` length l) l = take n l.
Proof. rewrite <- take_take. f_equal. by rewrite take_ge. Qed.

Ltac refuses :=
  match goal with |- context [m_refuses ?m] => destruct (m_refuses m) | H : context [m_refuses ?m] |- _ => destruct (m_refuses m) end.

#[export] Program Instance memfs_spec : PosixSpec memfs := {| view := m_view |}.
Next Obligation.
  intros p fl md m d m'. simpl. unfold mem_open. pose proof (fresh_fd_fresh (m_view m)) as [F ?].
  refuses; [intros [= <- <-] ?; lia|]. destruct (v_names (m_view m) !! p) as [i|] eqn:E; [|destruct (o_creat fl) eqn:K];
    intros [= <- <-] ?; [| |lia]; (split; [done|]); eexists; (split; [|done]); unfold target; rewrite E; [done|].
  split; [done|apply fresh_ino_fresh].
Qed.
Next Obligation.
  intros p fl md m d m'. simpl. unfold mem_open. pose proof (fresh_fd_fresh (m_view m)) as [F ?].
  refuses; [intros [= <- <-] ?; by right|]. destruct (v_names (m_view m) !! p) as [i|] eqn:E; [|destruct (o_creat fl) eqn:K];
    intros [= <- <-] ?; try lia. by left.
Qed.
Next Obligation. done. Qed.
Next Obligation.
  intros d f x m r s m' E D. simpl. unfold mem_fstat. rewrite E, D. refuses; intros [= <- <- <-]; simpl; [left|right]; split_and!; done.
Qed.
Next Obligation.
  intros p m r s m'. simpl. unfold mem_stat. refuses; [intros [= <- <- <-]; left; split; [lia|by left]|].
  destruct (content (m_view m) p) as [x|] eqn:E; intros [= <- <- <-].
  - right. split_and!; [lia|done|]. by exists x.
  - left. split; [lia|by left].
Qed.
Next Obligation.
  intros d f x n m r bs m' E D P N. simpl. unfold mem_read. rewrite E, D. refuses; intros [= <- <- <-]; simpl; [left; split; [lia|done]|right].
  set (y := drop _ x). destruct (m_count_range n m N) as [R Z]. rewrite zlen_take. pose proof (zlen_nonneg y) as L.
  split_and!; try lia; try done.
  - unfold zlen. rewrite <- (take_length_take (Z.to_nat (m_count n m)) y) at 1. f_equal. lia.
  - assert (zlen y = Z.max 0 (zlen x - of_pos f)) by (unfold y; rewrite zlen_drop; lia). lia.
Qed.
Next Obligation.
  intros d f x bs m r m' E D P. simpl. unfold mem_write. rewrite E, D. refuses; simpl; [intros [= <- <-]; left; split; [lia|done]|].
  destruct (m_count_range (zlen bs) m (zlen_nonneg bs)) as [R Z]. set (k := m_count (zlen bs) m) in *.
  assert (Hk : zlen (take (Z.to_nat k) bs) = k) by (rewrite zlen_take; lia). rewrite Hk.
  case_decide; intros [= <- <-]; [right|left; split; [lia|done]].
  split_and!; [lia|lia| |done|done]. intros Hz. apply zlen_0. lia.
Qed.
Next Obligation.
  intros p m r m'. simpl. unfold mem_access. refuses; intros [= <- <-]; [by right|left]. split; [done|].
  case_decide; by split.
Qed.
Next Obligation.
  intros p m r m'. simpl. unfold mem_unlink. refuses; [intros [= <- <-]; left; split; [lia|by left]|].
  destruct (v_names (m_view m) !! p) as [i|] eqn:E; intros [= <- <-]; [right|left; split; [lia|by right]].
  split_and!; try done. exists (v_data (m_view m)). by split_and!.
Qed.

Lemma empty_fs_wf plan : fs_wf (m_view (empty_fs plan)).
Proof. split; simpl; intros ? ?; by rewrite lookup_empty. Qed.
