(* ===== verification/Io.v ===== *)
(** * File access ([include/libzenit/io.h], [src/io.c], the POSIX variant)

    Reading a file or its first line into memory, writing, appending, copying, deleting and
    asking for the size, over the calls of [Posix].  A path is the text of the string.  An
    output parameter that is not NULL holds a value before and after the call.  [n] is the
    fuel of the loops, more than the bytes that are transferred. *)

From Stdlib Require Import ZArith Lia.
From stdpp Require Import base tactics option list numbers gmap sets.
From S2P Require Import Prelude Mem Result Allocator Links Text Arrays JsonMemory Posix.
Open Scope Z_scope.

Definition IO_COPY_BUF_SIZE : Z := 65536.
Definition READ_LINE_BUF_SIZE : Z := 8192.
(** [S_IRUSR | S_IWUSR | S_IRGRP | S_IROTH] *)
Definition MODE_0644 : Z := 420.
Definition NEWLINE : Z := 10.

(** A local array before anything is stored in it. *)
Definition local_array (n : Z) : bytes := replicate (Z.to_nat n) 165.

Section Io.
Context {W C : Type} (os : posix W) (a : zenit_allocator_t C).
Implicit Types (w : W) (c : C) (buf : option block).

(** ** Whole files *)

Fixpoint read_loop (n : nat) (fd : Z) buf (size total_read : Z) c w : outcome (option (option block * Z) * C * W) :=
  match n with
  | O => NoFuel
  | S n =>
      if decide (total_read < size) then
        let '((r, data), w1) := sys_read os fd (u64 (size - total_read)) w in
        if decide (r < 0) then Ret (None, free_fn a (paddr buf) c, sys_close os fd w1)
        else
          let! buf1 := pwr buf total_read data in
          read_loop n fd buf1 size (u64 (total_read + r)) c w1
      else Ret (Some (buf, total_read), c, w)
  end.

Definition zenit_file_read_with_allocator (n : nat) (path : option bytes) (out_data : option (option block))
    (out_len : option Z) c w : outcome (zenit_error_t * option (option block) * option Z * C * W) :=
  match path, out_data, out_len with
  | Some p, Some _, Some _ =>
      let '(fd, w1) := sys_open os p O_RDONLY 0 w in
      if decide (fd < 0) then Ret (ZENIT_ERROR_NOT_FOUND, out_data, out_len, c, w1)
      else
        let '((r, st_size), w2) := sys_fstat os fd w1 in
        if decide (r < 0) then Ret (ZENIT_ERROR_NOT_FOUND, out_data, out_len, c, sys_close os fd w2)
        else
          let size := u64 st_size in
          match alloc_fn a (u64 (size + 1)) c with
          | (None, c1) => Ret (ZENIT_ERROR_ALLOC, out_data, out_len, c1, sys_close os fd w2)
          | (buf, c1) =>
              let! (res, c2, w3) := read_loop n fd buf size 0 c1 w2 in
              match res with
              | None => Ret (ZENIT_ERROR_NOT_FOUND, out_data, out_len, c2, w3)
              | Some (buf1, total_read) =>
                  let w4 := sys_close os fd w3 in
                  let! buf2 := pset buf1 total_read NUL in
                  Ret (ZENIT_OK, Some buf2, Some total_read, c2, w4)
              end
          end
  | _, _, _ => Ret (ZENIT_ERROR_NULL, out_data, out_len, c, w)
  end.

(** ** The first line *)

Definition grow_line_buf buf (cap len : Z) c : outcome (zenit_error_t * option block * Z * C) :=
  if decide (u64 (len + 2) <= cap) then Ret (ZENIT_OK, buf, cap, c)
  else
    let new_cap := u64 (cap * 2) in
    let! (tmp, c1) := zenit_allocator_realloc a buf cap new_cap c in
    match tmp with
    | None => Ret (ZENIT_ERROR_ALLOC, buf, cap, c1)
    | Some _ => Ret (ZENIT_OK, tmp, new_cap, c1)
    end.

(** How the scan of the read-ahead buffer ends: [grow_line_buf] failed, a newline was
    stored, or the buffer is used up. *)
Inductive scan : Type :=
| ScanError (r : zenit_error_t)
| ScanLine
| ScanMore.

Fixpoint scan_line (k : nat) (read_buf : bytes) (pos fin : Z) buf (cap len : Z) c
    : outcome (scan * Z * option block * Z * Z * C) :=
  match k with
  | O => Ret (ScanMore, pos, buf, cap, len, c)
  | S k =>
      if decide (pos < fin) then
        let! x := aget read_buf pos in
        let! (grow_r, buf1, cap1, c1) := grow_line_buf buf cap len c in
        if decide (grow_r <> ZENIT_OK) then
          Ret (ScanError grow_r, u64 (pos + 1), buf1, cap1, len, free_fn a (paddr buf1) c1)
        else
          let! buf2 := pset buf1 len x in
          if decide (x = NEWLINE) then Ret (ScanLine, u64 (pos + 1), buf2, cap1, u64 (len + 1), c1)
          else scan_line k read_buf (u64 (pos + 1)) fin buf2 cap1 (u64 (len + 1)) c1
      else Ret (ScanMore, pos, buf, cap, len, c)
  end.

(** The outer loop; [inl] is the error it returns with. *)
Fixpoint line_loop (n : nat) (fd : Z) (read_buf : bytes) (pos fin : Z) buf (cap len : Z) c w
    : outcome ((zenit_error_t + option block * Z) * C * W) :=
  match n with
  | O => NoFuel
  | S n =>
      let turn (read_buf : bytes) (pos fin : Z) (w : W) :=
        let! (res, pos1, buf1, cap1, len1, c1) :=
          scan_line (Z.to_nat (fin - pos)) read_buf pos fin buf cap len c in
        match res with
        | ScanError r => Ret (inl r, c1, sys_close os fd w)
        | ScanLine => Ret (inr (buf1, len1), c1, w)
        | ScanMore => line_loop n fd read_buf pos1 fin buf1 cap1 len1 c1 w
        end in
      if decide (fin <= pos) then
        let '((r, data), w1) := sys_read os fd READ_LINE_BUF_SIZE w in
        if decide (r < 0) then Ret (inl ZENIT_ERROR_NOT_FOUND, free_fn a (paddr buf) c, sys_close os fd w1)
        else if decide (r = 0) then Ret (inr (buf, len), c, w1)
        else let! read_buf1 := wr read_buf 0 data in turn read_buf1 0 r w1
      else turn read_buf pos fin w
  end.

Definition zenit_file_read_line_with_allocator (n : nat) (path : option bytes) (out_line : option (option block)) c w
    : outcome (zenit_error_t * option (option block) * C * W) :=
  match path, out_line with
  | Some p, Some _ =>
      let '(fd, w1) := sys_open os p O_RDONLY 0 w in
      if decide (fd < 0) then Ret (ZENIT_ERROR_NOT_FOUND, out_line, c, w1)
      else
        match alloc_fn a 64 c with
        | (None, c1) => Ret (ZENIT_ERROR_ALLOC, out_line, c1, sys_close os fd w1)
        | (buf, c1) =>
            let! (res, c2, w2) := line_loop n fd (local_array READ_LINE_BUF_SIZE) 0 0 buf 64 0 c1 w1 in
            match res with
            | inl r => Ret (r, out_line, c2, w2)
            | inr (buf1, len) =>
                let w3 := sys_close os fd w2 in
                let! buf2 := pset buf1 len NUL in
                Ret (ZENIT_OK, Some buf2, c2, w3)
            end
        end
  | _, _ => Ret (ZENIT_ERROR_NULL, out_line, c, w)
  end.

(** ** Writing *)

(** [write] of [data] from [total_written] up to [len], until everything is written or a
    call fails ([false]). *)
Fixpoint write_loop (n : nat) (fd : Z) (data : bytes) (len total_written : Z) w : outcome (bool * W) :=
  match n with
  | O => NoFuel
  | S n =>
      if decide (total_written < len) then
        let! chunk := rd data total_written (u64 (len - total_written)) in
        let '(r, w1) := sys_write os fd chunk w in
        if decide (r < 0) then Ret (false, w1)
        else write_loop n fd data len (u64 (total_written + r)) w1
      else Ret (true, w)
  end.

Definition file_write_impl (n : nat) (path data : option bytes) (len : Z) (append : bool) w : outcome (zenit_error_t * W) :=
  match path, data with
  | Some p, Some d =>
      let flags := OFlags true true append (negb append) in
      let '(fd, w1) := sys_open os p flags MODE_0644 w in
      if decide (fd < 0) then Ret (ZENIT_ERROR_NOT_FOUND, w1)
      else
        let! (ok, w2) := write_loop n fd d len 0 w1 in
        if ok then Ret (ZENIT_OK, sys_close os fd w2) else Ret (ZENIT_ERROR_SIZE, sys_close os fd w2)
  | _, _ => Ret (ZENIT_ERROR_NULL, w)
  end.

Definition zenit_file_write (n : nat) (path data : option bytes) (len : Z) w := file_write_impl n path data len false w.
Definition zenit_file_append (n : nat) (path data : option bytes) (len : Z) w := file_write_impl n path data len true w.

Definition zenit_file_exists (path : option bytes) w : Z * W :=
  match path with
  | None => (0, w)
  | Some p => let '(r, w1) := sys_access os p w in (if decide (r = 0) then 1 else 0, w1)
  end.

Definition zenit_file_delete (path : option bytes) w : zenit_error_t * W :=
  match path with
  | None => (ZENIT_ERROR_NULL, w)
  | Some p =>
      let '(r, w1) := sys_unlink os p w in
      if decide (r < 0) then (ZENIT_ERROR_NOT_FOUND, w1) else (ZENIT_OK, w1)
  end.

Definition zenit_file_size (path : option bytes) (out_size : option Z) w : zenit_error_t * option Z * W :=
  match path, out_size with
  | Some p, Some _ =>
      let '((r, st_size), w1) := sys_stat os p w in
      if decide (r < 0) then (ZENIT_ERROR_NOT_FOUND, out_size, w1) else (ZENIT_OK, Some (u64 st_size), w1)
  | _, _ => (ZENIT_ERROR_NULL, out_size, w)
  end.

(** ** Copying *)

(** The outer loop of [zenit_file_copy]: the last result of [read], or [None] after a
    failed write. *)
Fixpoint copy_loop (n : nat) (fd_src fd_dst : Z) (buf : bytes) w : outcome (option Z * W) :=
  match n with
  | O => NoFuel
  | S n' =>
      let '((r, data), w1) := sys_read os fd_src IO_COPY_BUF_SIZE w in
      if decide (0 < r) then
        let! filled := wr buf 0 data in
        let! (ok, w2) := write_loop n fd_dst filled r 0 w1 in
        if ok then copy_loop n' fd_src fd_dst filled w2 else Ret (None, w2)
      else Ret (Some r, w1)
  end.

Definition zenit_file_copy (n : nat) (src dst : option bytes) w : outcome (zenit_error_t * W) :=
  match src, dst with
  | Some s, Some d =>
      let '(fd_src, w1) := sys_open os s O_RDONLY 0 w in
      if decide (fd_src < 0) then Ret (ZENIT_ERROR_NOT_FOUND, w1)
      else
        let '(fd_dst, w2) := sys_open os d (OFlags true true false true) MODE_0644 w1 in
        if decide (fd_dst < 0) then Ret (ZENIT_ERROR_NOT_FOUND, sys_close os fd_src w2)
        else
          let! (res, w3) := copy_loop n fd_src fd_dst (local_array IO_COPY_BUF_SIZE) w2 in
          let w4 := sys_close os fd_dst (sys_close os fd_src w3) in
          match res with
          | None => Ret (ZENIT_ERROR_SIZE, w4)
          | Some r => if decide (r < 0) then Ret (ZENIT_ERROR_NOT_FOUND, w4) else Ret (ZENIT_OK, w4)
          end
  | _, _ => Ret (ZENIT_ERROR_NULL, w)
  end.
End Io.

Definition zenit_file_read {W : Type} (os : posix W) (n : nat) (path : option bytes) (out_data : option (option block))
    (out_len : option Z) (h : heap) (w : W) :=
  zenit_file_read_with_allocator os ZENIT_ALLOCATOR_DEFAULT n path out_data out_len h w.
Definition zenit_file_read_line {W : Type} (os : posix W) (n : nat) (path : option bytes) (out_line : option (option block))
    (h : heap) (w : W) :=
  zenit_file_read_line_with_allocator os ZENIT_ALLOCATOR_DEFAULT n path out_line h w.
