(* ===== verification/IoFiles.v ===== *)
(** * File access is correct

    What [Io] does to the files, the descriptors and the memory, for every platform that
    meets [PosixSpec] and every allocator that meets [AllocSpec]: the loops go on after short
    transfers until everything is transferred, an error is reported only when a call was
    refused or the file is missing, every descriptor is closed and no memory is left behind. *)

From Stdlib Require Import ZArith Lia String.
From stdpp Require Import base tactics option list numbers gmap sets.
From S2P Require Import Prelude Mem Result Allocator Links Text Str Arrays JsonMemory Posix Io.
Open Scope Z_scope.

Section Calls.
Context {W : Type} (os : posix W) {PS : PosixSpec os}.
Implicit Types (w : W) (N : gmap bytes ino) (D : gmap ino bytes) (F : gmap Z ofile).

(** A file opened for reading. *)
Lemma open_read p m w fd w' N D F k : view w = FsView N D F k -> fs_wf (view w) ->
  sys_open os p O_RDONLY m w = (fd, w') ->
  (fd < 0 /\ ((N !! p = None /\ view w' = FsView N D F k) \/ view w' = FsView N D F (S k))) \/
  (0 <= fd /\ F !! fd = None /\ exists i x, N !! p = Some i /\ D !! i = Some x /\ zlen x <= PTRDIFF_MAX /\
   view w' = FsView N D (<[fd := OFile i 0 false]> F) k).
Proof.
  intros V WF E. destruct (decide (fd < 0)) as [Hn|Hn].
  - left. split; [done|]. destruct (open_fails _ _ _ _ _ _ E Hn) as [(_ & H & ->)| ->]; rewrite V in *; [by left|by right].
  - right. destruct (open_ok _ _ _ _ _ _ E ltac:(lia)) as (HF & i & T & V'). rewrite V in *. unfold target in T. simpl in *.
    split; [lia|split; [done|]]. destruct (N !! p) as [j|] eqn:En; [|by destruct T]. subst j.
    destruct WF as [H1 H2 H3]. destruct (H1 p i En) as [x Ex]. exists i, x. split_and!; [done|done|exact (H3 i x Ex)|].
    rewrite V'. unfold opened. simpl in *. rewrite Ex. simpl. by rewrite (insert_id N), (insert_id D).
Qed.

Lemma read_step fd i done rest m w r bs w' N D F k :
  view w = FsView N D (<[fd := OFile i (zlen done) false]> F) k -> D !! i = Some (done ++ rest) -> 0 <= m ->
  sys_read os fd m w = ((r, bs), w') ->
  (r < 0 /\ view w' = FsView N D (<[fd := OFile i (zlen done) false]> F) (S k)) \/
  (0 <= r <= m /\ zlen bs = r /\ (exists rest', rest = bs ++ rest') /\ (r = 0 -> m = 0 \/ rest = []) /\
   view w' = FsView N D (<[fd := OFile i (zlen (done ++ bs)) false]> F) k).
Proof.
  intros V E Hm R. pose proof (read_ok fd (OFile i (zlen done) false) (done ++ rest) m w r bs w') as H.
  rewrite V in H. simpl in H. rewrite lookup_insert_eq in H. specialize (H eq_refl E (zlen_nonneg _) Hm R).
  rewrite (drop_app_length' done rest (Z.to_nat (zlen done))) in H by (unfold zlen; lia).
  destruct H as [[H1 ->]|(H1 & H2 & H3 & H4 & ->)]; [left; by split|right].
  split_and!; [lia|lia|done| | |].
  - exists (drop (Z.to_nat r) rest). rewrite H3 at 1. by rewrite take_drop.
  - intros Hz. destruct (H4 Hz) as [?|L]; [by left|right]. apply zlen_0. zl.
  - unfold seeked. simpl. rewrite insert_insert_eq. do 3 f_equal. zl.
Qed.

(** Bytes appended to a file that is open for writing. *)
Lemma write_step fd i x pos ap bs w r w' N D F k :
  view w = FsView N D (<[fd := OFile i pos ap]> F) k -> D !! i = Some x -> 0 <= pos -> (ap = false -> pos = zlen x) ->
  sys_write os fd bs w = (r, w') ->
  (r < 0 /\ view w' = FsView N D (<[fd := OFile i pos ap]> F) (S k)) \/
  (0 <= r /\ exists b1 b2, bs = b1 ++ b2 /\ zlen b1 = r /\ (r = 0 -> bs = []) /\ zlen (x ++ b1) <= PTRDIFF_MAX /\
   view w' = FsView N (<[i := x ++ b1]> D) (<[fd := OFile i (zlen (x ++ b1)) ap]> F) k).
Proof.
  intros V E Hp Ha R. pose proof (write_ok fd (OFile i pos ap) x bs w r w') as H.
  rewrite V in H. simpl in H. rewrite lookup_insert_eq in H. specialize (H eq_refl E Hp R).
  assert (P : write_pos (OFile i pos ap) x = zlen x) by (unfold write_pos; destruct ap; simpl; auto).
  unfold written in H. rewrite P, overwrite_end in H.
  destruct H as [[H1 ->]|(H1 & H2 & H3 & ->)]; [left; by split|right]. split; [lia|].
  exists (take (Z.to_nat r) bs), (drop (Z.to_nat r) bs). rewrite take_drop. split_and!; [done| |done| |].
  - rewrite zlen_take. lia.
  - rewrite zlen_app, zlen_take. lia.
  - unfold seeked. simpl. by rewrite insert_insert_eq, zlen_app.
Qed.

Lemma close_step fd f w N D F k : F !! fd = None -> view w = FsView N D (<[fd := f]> F) k ->
  view (sys_close os fd w) = FsView N D F k.
Proof.
  intros HF V. rewrite close_ok; rewrite V; simpl; [|by rewrite lookup_insert_eq].
  unfold closed. simpl. by rewrite delete_insert_id.
Qed.

(** [write] in a loop stores everything or a call was refused. *)
Lemma file_write_loop_spec fd i ap N F k data : forall n rest sent out x pos D w,
  data = sent ++ rest ++ out -> zlen data < two64 -> view w = FsView N D (<[fd := OFile i pos ap]> F) k -> D !! i = Some x ->
  0 <= pos -> (ap = false -> pos = zlen x) -> (length rest < n)%nat ->
  exists ok w' y pos', write_loop os n fd data (zlen (sent ++ rest)) (zlen sent) w = Ret (ok, w') /\
    0 <= pos' /\ (ap = false -> pos' = zlen (x ++ y)) /\
    (zlen x <= PTRDIFF_MAX -> zlen (x ++ y) <= PTRDIFF_MAX) /\
    view w' = FsView N (<[i := x ++ y]> D) (<[fd := OFile i pos' ap]> F) (if (ok : bool) then k else S k) /\
    (if ok then y = rest else exists z, rest = y ++ z).
Proof.
  induction n as [|n IH]; intros rest sent out x pos D w HD L V E Hp Ha Hn; [lia|]. simpl.
  pose proof (zlen_nonneg sent). pose proof (zlen_nonneg rest). pose proof (zlen_nonneg out).
  assert (zlen data = zlen sent + zlen rest + zlen out) by (rewrite HD; zl).
  case_decide as Hlt.
  2: { assert (rest = []) as -> by (apply zlen_0; zl). exists true, w, [], pos. rewrite app_nil_r.
       split_and!; try done. by rewrite insert_id. }
  rewrite u64_small by zl.
  assert (rd data (zlen sent) (zlen (sent ++ rest) - zlen sent) = Ret rest) as -> by (rewrite HD; apply rd_app; zl). simpl.
  destruct (sys_write os fd rest w) as [r w1] eqn:R.
  destruct (write_step _ _ _ _ _ _ _ _ _ _ _ _ _ V E Hp Ha R) as [[Hr V1]|(Hr & b1 & b2 & B & Z & NZ & S & V1)].
  { rewrite decide_True by done. exists false, w1, [], pos. rewrite app_nil_r.
    split_and!; try done; [by rewrite insert_id|by exists rest]. }
  rewrite decide_False by lia. subst rest. rewrite u64_small by zl.
  assert (b1 <> []). { intros ->. assert (r = 0) as HZ by (rewrite <- Z; done). rewrite (NZ HZ) in Hlt. zl. }
  replace (zlen sent + r) with (zlen (sent ++ b1)) by zl. rewrite app_assoc.
  edestruct (IH b2 (sent ++ b1) out (x ++ b1) (zlen (x ++ b1)) (<[i := x ++ b1]> D) w1) as (ok & w' & y & pos' & HR & HP & HA & HS & HV & HY).
  - by rewrite <- !app_assoc in *.
  - zl.
  - done.
  - by rewrite lookup_insert_eq.
  - zl.
  - done.
  - rewrite length_app in Hn. destruct b1; [done|]. simpl in Hn. lia.
  - exists ok, w', (b1 ++ y), pos'. rewrite <- !app_assoc in *. rewrite insert_insert_eq in HV.
    split_and!; try done.
    + intros _. by apply HS.
    + destruct ok; [by subst y|]. destruct HY as [z ->]. exists z. by rewrite <- app_assoc.
Qed.
End Calls.

(** ** What a call leaves behind *)

(** [q] is not a name of the file [p]. *)
Definition apart (v : fsview) (p q : bytes) : Prop :=
  q <> p /\ forall i, v_names v !! q = Some i -> v_names v !! p <> Some i.

(** The file [p] now holds [y]; all other files and the descriptors are as before. *)
Definition updates (p y : bytes) (v v' : fsview) : Prop :=
  content v' p = Some y /\ (forall q, apart v p q -> content v' q = content v q) /\
  v_fds v' = v_fds v /\ fs_wf v' /\ (single_names v -> single_names v').

(** The contents [p] has for a writer: none when the file is cut or new. *)
Definition base (ap : bool) (v : fsview) (p : bytes) : bytes :=
  if ap then default [] (content v p) else [].

(** The file behind [p], or a new one, holds [y]. *)
Definition put (p y : bytes) (i : ino) (v : fsview) (k : nat) : fsview :=
  FsView (<[p := i]> (v_names v)) (<[i := y]> (v_data v)) (v_fds v) k.

Section Put.
Context (v : fsview) (p : bytes) (fl : oflags) (i : ino).
Hypothesis WF : fs_wf v.
Hypothesis T : target p fl v i.

Lemma put_wf y k : zlen y <= PTRDIFF_MAX -> fs_wf (put p y i v k).
Proof.
  destruct WF as [H1 H2 H3]. intros L. split; simpl.
  - intros q j [[<- <-]|[_ H]]%lookup_insert_Some; [by rewrite lookup_insert_eq|]. apply insert_still_Some. by eapply H1.
  - intros d f H. apply insert_still_Some. by eapply H2.
  - intros j x [[<- <-]|[_ H]]%lookup_insert_Some; [done|by eapply H3].
Qed.

Lemma put_single y k : single_names v -> single_names (put p y i v k).
Proof.
  intros S. assert (A : forall q, v_names v !! q = Some i -> q = p).
  { intros q Hq. unfold target in T. destruct (v_names v !! p) as [j|] eqn:P; [subst j; by eapply S|].
    destruct T as [_ H]. destruct (wf_names v WF q i Hq) as [x Hx]. congruence. }
  intros q r j. simpl. intros [[<- <-]|[_ H]]%lookup_insert_Some [[<- E]|[_ H']]%lookup_insert_Some; try done.
  - symmetry. by apply A.
  - subst j. by apply A.
  - by eapply S.
Qed.

Lemma put_updates y k : zlen y <= PTRDIFF_MAX -> updates p y v (put p y i v k).
Proof.
  intros L. split_and!; [|intros q [Hq A]|done|by apply put_wf|by apply put_single].
  - unfold content. simpl. by rewrite lookup_insert_eq; simpl; rewrite lookup_insert_eq.
  - unfold content. simpl. rewrite lookup_insert_ne by done. destruct (v_names v !! q) as [j|] eqn:E; [simpl|done].
    rewrite lookup_insert_ne; [done|]. intros <-. unfold target in T.
    destruct (v_names v !! p) as [l|] eqn:P; [subst l; by eapply A|]. destruct T as [_ Hn].
    destruct (wf_names v WF q i E) as [x Ex]. congruence.
Qed.

Lemma target_content : default [] (v_data v !! i) = default [] (content v p).
Proof.
  unfold target, content in *. destruct (v_names v !! p) as [j|]; [by subst j|]. destruct T as [_ ->]. done.
Qed.
End Put.

Section Writing.
Context {W : Type} (os : posix W) {PS : PosixSpec os}.
Implicit Types (w : W).

(** A file opened to be created, cut or extended. *)
Lemma open_write p ap tr m w fd w' : sys_open os p (OFlags true true ap tr) m w = (fd, w') ->
  (fd < 0 /\ view w' = fault (view w)) \/
  (0 <= fd /\ v_fds (view w) !! fd = None /\ exists i, target p (OFlags true true ap tr) (view w) i /\
   view w' = FsView (<[p := i]> (v_names (view w)))
     (<[i := if tr then [] else default [] (content (view w) p)]> (v_data (view w)))
     (<[fd := OFile i 0 ap]> (v_fds (view w))) (v_faults (view w))).
Proof.
  intros E. destruct (decide (fd < 0)) as [Hn|Hn].
  - left. split; [done|]. by destruct (open_fails _ _ _ _ _ _ E Hn) as [(? & _)|V].
  - right. destruct (open_ok _ _ _ _ _ _ E ltac:(lia)) as (HF & i & T & V). split; [lia|split; [done|]]. exists i.
    split; [done|]. rewrite V. unfold opened. simpl. by rewrite (target_content _ _ _ _ T).
Qed.

Lemma file_write_spec n p data extra (ap : bool) w : fs_wf (view w) -> zlen (data ++ extra) < two64 -> (length data < n)%nat ->
  exists err w', file_write_impl os n (Some p) (Some (data ++ extra)) (zlen data) ap w = Ret (err, w') /\
  match err with
  | ZENIT_OK => updates p (base ap (view w) p ++ data) (view w) (view w') /\ v_faults (view w') = v_faults (view w)
  | ZENIT_ERROR_SIZE => refused (view w) (view w') /\
      exists y z, data = y ++ z /\ updates p (base ap (view w) p ++ y) (view w) (view w')
  | ZENIT_ERROR_NOT_FOUND => refused (view w) (view w') /\ same_files (view w) (view w')
  | _ => False
  end.
Proof.
  intros WF L Hn. unfold file_write_impl. destruct (sys_open os p _ _ w) as [fd w1] eqn:O.
  destruct (open_write _ _ _ _ _ _ _ O) as [[Hf V]|(Hf & HF & i & T & V)].
  { rewrite decide_True by done. do 2 eexists. split; [done|]. simpl. rewrite V. split; [unfold refused; simpl; lia|done]. }
  rewrite decide_False by lia.
  assert ((if negb ap then [] else default [] (content (view w) p)) = base ap (view w) p) as B by (by destruct ap).
  rewrite B in V. set (x := base ap (view w) p) in *.
  assert (X : zlen x <= PTRDIFF_MAX).
  { unfold x, base. destruct ap; [|done]. unfold content. destruct (v_names (view w) !! p) as [j|]; [simpl|done].
    destruct (v_data (view w) !! j) as [y|] eqn:Ej; [by eapply wf_sizes|done]. }
  destruct (file_write_loop_spec os fd i ap _ _ _ (data ++ extra) n data [] extra x 0 _ w1 eq_refl L V)
    as (ok & w2 & y & pos & R & _ & _ & S & V2 & Y); try done.
  { by rewrite lookup_insert_eq. }
  { intros ->. done. }
  simpl in R. change (zlen []) with 0 in R. rewrite R. simpl. rewrite insert_insert_eq in V2.
  pose proof (close_step os _ _ _ _ _ _ _ HF V2) as V3. specialize (S X).
  assert (U := fun k => put_updates (view w) p _ i WF T (x ++ y) k S).
  destruct ok; do 2 eexists; (split; [done|]); simpl; rewrite V3.
  - subst y. split; [apply U|done].
  - destruct Y as [z ->]. split; [unfold refused; simpl; lia|]. exists y, z. split; [done|apply U].
Qed.
End Writing.

Section Reading.
Context {W C : Type} (os : posix W) {PS : PosixSpec os} (a : zenit_allocator_t C) {SP : AllocSpec a} {WA : Watched a}.
Implicit Types (w : W) (c : C) (N : gmap bytes ino) (D : gmap ino bytes) (F : gmap Z ofile).

(** [read] in a loop fetches the whole file or a call was refused. *)
Lemma file_read_loop_spec fd i x z N D F k c : D !! i = Some x -> zlen x <= PTRDIFF_MAX -> F !! fd = None ->
  forall n done rest room w, x = done ++ rest ->
  view w = FsView N D (<[fd := OFile i (zlen done) false]> F) k -> zlen room = zlen rest + 1 -> (length rest < n)%nat ->
  exists res c' w', read_loop os a n fd (Some (Block z (done ++ room))) (zlen x) (zlen done) c w = Ret (res, c', w') /\
  match res with
  | Some (b, t) => exists y, b = Some (Block z (x ++ [y])) /\ t = zlen x /\ c' = c /\
      view w' = FsView N D (<[fd := OFile i (zlen x) false]> F) k
  | None => c' = free_fn a (Some z) c /\ view w' = FsView N D F (S k)
  end.
Proof.
  intros E LX HF. induction n as [|n IH]; intros done rest room w HX V R Hn; [lia|]. cbn [read_loop].
  pose proof (zlen_nonneg rest). pose proof (zlen_nonneg done). assert (zlen x = zlen done + zlen rest) by (rewrite HX; zl).
  case_decide as Hlt.
  2: { assert (rest = []) as -> by (apply zlen_0; lia). rewrite app_nil_r in HX. subst done.
       do 3 eexists. split; [done|]. simpl. destruct room as [|y [|? ?]]; [| |zl]; [done|]. by exists y. }
  rewrite u64_small by lia. destruct (sys_read os fd _ w) as [[r bs] w1] eqn:Er.
  assert (Hm : 0 <= zlen x - zlen done) by lia. rewrite HX in E.
  destruct (read_step os _ _ _ _ _ _ _ _ _ _ _ _ _ V E Hm Er) as [[Hr V1]|(Hr & Hz & [rest' ->] & NZ & V1)].
  { rewrite decide_True by done. do 3 eexists. split; [done|]. simpl. split; [done|]. by eapply close_step. }
  rewrite decide_False by lia.
  destruct (pwr_emit z done room bs (zlen done) eq_refl ltac:(zl)) as (room' & -> & Hroom). simpl.
  assert (bs <> []). { intros ->. change (zlen []) with 0 in Hz. destruct NZ as [?|Hs]; [done|lia|]. simpl in Hs. subst rest'. zl. }
  rewrite u64_small by zl. replace (zlen done + r) with (zlen (done ++ bs)) by zl.
  apply (IH _ rest'); [by rewrite <- app_assoc|done|zl|].
  rewrite length_app in Hn. destruct bs; [done|]. simpl in Hn. lia.
Qed.

(** A new buffer that holds [x] and a NUL. *)
Definition fresh_text (c c' : C) (x : bytes) (p : option block) : Prop :=
  exists b, p = Some b /\ b_data b = x ++ [NUL] /\ owns a c c' [b_addr b].

Lemma file_read_spec n p d0 l0 c w : fs_wf (view w) ->
  (forall x, content (view w) p = Some x -> (length x < n)%nat) ->
  exists err d l c' w', zenit_file_read_with_allocator os a n (Some p) (Some d0) (Some l0) c w = Ret (err, Some d, Some l, c', w') /\
  same_files (view w) (view w') /\
  match err with
  | ZENIT_OK => exists x, content (view w) p = Some x /\ l = zlen x /\ fresh_text c c' x d /\
      v_faults (view w') = v_faults (view w)
  | ZENIT_ERROR_NOT_FOUND => (content (view w) p = None \/ refused (view w) (view w')) /\ d = d0 /\ l = l0 /\ live c' = live c
  | ZENIT_ERROR_ALLOC => ~ granted c' /\ d = d0 /\ l = l0 /\ live c' = live c
  | _ => False
  end.
Proof.
  intros WF Hn. unfold zenit_file_read_with_allocator. destruct (sys_open os p _ _ w) as [fd w1] eqn:O.
  destruct (view w) as [N D F k] eqn:V0. pose proof WF as WF'. rewrite <- V0 in WF'.
  destruct (open_read os _ _ _ _ _ _ _ _ _ V0 WF' O) as [[Hf V]|(Hf & HF & i & x & Ni & Di & LX & V)].
  { rewrite decide_True by done. do 5 eexists. split; [done|]. simpl.
    destruct V as [[Hp ->]| ->]; (split; [done|]); (split_and!; try done); [left|right; unfold refused; simpl; lia].
    unfold content. simpl. by rewrite Hp. }
  assert (Cx : content (FsView N D F k) p = Some x) by (unfold content; simpl; by rewrite Ni).
  rewrite decide_False by lia. destruct (sys_fstat os fd w1) as [[r s] w2] eqn:St.
  assert (Fd : v_fds (view w1) !! fd = Some (OFile i 0 false)) by (rewrite V; simpl; by rewrite lookup_insert_eq).
  assert (Dx : v_data (view w1) !! i = Some x) by (by rewrite V).
  destruct (fstat_ok fd _ x w1 r s w2 Fd Dx St) as [[Hr V2]|(Hr & -> & V2)]; rewrite V in V2.
  { rewrite decide_True by done. do 5 eexists. split; [done|]. unfold fault in V2. simpl in V2.
    rewrite (close_step os _ _ _ _ _ _ _ HF V2). split; [done|]. split_and!; try done. right. unfold refused. simpl. lia. }
  rewrite decide_False by lia. pose proof (zlen_nonneg x). rewrite !(u64_small (zlen x)), u64_small by lia.
  destruct (alloc_fn a (zlen x + 1) c) as [[[z room]|] c1] eqn:Al.
  2: { do 5 eexists. split; [done|]. rewrite (close_step os _ _ _ _ _ _ _ HF V2). split; [done|]. split_and!; try done.
       - intros G. by destruct (granted_alloc _ _ _ _ Al G).
       - by eapply alloc_none. }
  pose proof (owns_alloc a _ _ _ _ _ _ (owns_refl a c) Al) as Ho.
  pose proof (alloc_some _ _ _ _ Al) as (Lz & _). simpl in Lz.
  destruct (file_read_loop_spec fd i x z N D F k c1 Di LX HF n [] x room w2 eq_refl V2 Lz) as (res & c2 & w3 & R & P).
  { by apply Hn. }
  simpl in R. change (zlen []) with 0 in R. rewrite R. simpl. destruct res as [[b t]|].
  - destruct P as (y & -> & -> & -> & V3). rewrite pset_emit by done. simpl. do 5 eexists. split; [done|].
    rewrite (close_step os _ _ _ _ _ _ _ HF V3). split; [done|]. exists x. split_and!; try done.
    eexists. split; [done|]. simpl. by rewrite app_nil_r.
  - destruct P as (-> & V3). do 5 eexists. split; [done|]. rewrite V3. split; [done|]. split_and!; try done.
    + right. unfold refused. simpl. lia.
    + by apply owns_nil, owns_free.
Qed.
End Reading.
