(* ===== verification/IoLine.v ===== *)
(** * The first line of a file

    [zenit_file_read_line_with_allocator] returns the bytes of the file up to its first
    newline, however the reads are cut, in a buffer that grows as the line does. *)

From Stdlib Require Import ZArith Lia String.
From stdpp Require Import base tactics option list numbers gmap sets.
From S2P Require Import Prelude Mem Result Allocator Links Text Arrays JsonMemory Posix Io IoFiles.
Open Scope Z_scope.

(** The reference: up to the first newline, which is included. *)
Fixpoint first_line (x : bytes) : bytes :=
  match x with
  | [] => []
  | c :: x => if decide (c = NEWLINE) then [c] else c :: first_line x
  end.

Lemma first_line_found x rest : NEWLINE ∈ x -> first_line (x ++ rest) = first_line x.
Proof.
  induction x as [|c x IH]; intros H; [by apply elem_of_nil in H|]. simpl. case_decide; [done|].
  f_equal. apply IH. set_solver.
Qed.

Lemma first_line_more x rest : NEWLINE ∉ x -> first_line (x ++ rest) = x ++ first_line rest.
Proof.
  induction x as [|c x IH]; intros H; [done|]. simpl. rewrite decide_False by set_solver. f_equal. apply IH. set_solver.
Qed.

Lemma first_line_whole x : NEWLINE ∉ x -> first_line x = x.
Proof. intros H. rewrite <- (app_nil_r x) at 1. rewrite first_line_more by done. apply app_nil_r. Qed.

Section Line.
Context {W C : Type} (os : posix W) {PS : PosixSpec os} (a : zenit_allocator_t C) {SP : AllocSpec a} {WA : Watched a} (c0 : C).
Implicit Types (w : W) (c : C) (N : gmap bytes ino) (D : gmap ino bytes) (F : gmap Z ofile).

(** A buffer of [cap] bytes that starts with [out] and has room behind it. *)
Definition line_buf (out : bytes) (buf : option block) (cap : Z) c (spare : Z) : Prop :=
  exists z room, buf = Some (Block z (out ++ room)) /\ cap = zlen (out ++ room) /\ 64 <= cap <= PTRDIFF_MAX /\
    spare <= zlen room /\ owns a c0 c [z].

Lemma grow_line_buf_spec out buf cap c : line_buf out buf cap c 1 ->
  exists e buf' cap' c', grow_line_buf a buf cap (zlen out) c = Ret (e, buf', cap', c') /\
  match e with
  | ZENIT_OK => line_buf out buf' cap' c' 2
  | ZENIT_ERROR_ALLOC => ~ granted c' /\ owns a c0 c' (opt_addr (paddr buf'))
  | _ => False
  end.
Proof.
  intros (z & room & -> & -> & HC & HR & Ho). unfold grow_line_buf. pose proof (zlen_nonneg out).
  rewrite (u64_small (zlen out + 2)) by zl. case_decide as Hc.
  { do 4 eexists. split; [done|]. exists z, room. split_and!; try done; zl. }
  set (cap := zlen (out ++ room)) in *. rewrite u64_small by lia.
  assert (HL : z ∈ live c) by (destruct Ho as (_ & _ & ->); set_solver).
  destruct (realloc_prefix a (Some (Block z (out ++ room))) cap (cap * 2) c) as (r & c' & E & P); simpl; [set_solver|lia|lia|].
  rewrite E. simpl. destruct r as [[y d]|].
  2: { do 4 eexists. split; [done|]. simpl. split; [|by eapply owns_same].
       intros G. by destruct (realloc_granted _ _ _ _ _ _ _ E G). }
  do 4 eexists. split; [done|]. simpl in *. destruct P as (L & M & T & Hy & Hl).
  replace (cap `min` (cap * 2)) with cap in T by lia.
  rewrite (take_ge (out ++ room)) in T by (unfold cap, zlen; lia).
  exists y, (room ++ drop (Z.to_nat cap) d). rewrite app_assoc, <- T, take_drop. split_and!; [done|done|lia|lia| |].
  - rewrite zlen_app, zlen_drop. zl.
  - by eapply owns_realloc.
Qed.

Lemma scan_line_spec bs junk : zlen bs < two64 - 1 -> forall left seen out buf cap c, bs = seen ++ left ->
  line_buf out buf cap c 1 ->
  exists res pos' buf' cap' len' c',
  scan_line a (length left) (bs ++ junk) (zlen seen) (zlen bs) buf cap (zlen out) c = Ret (res, pos', buf', cap', len', c') /\
  match res with
  | ScanError r => r = ZENIT_ERROR_ALLOC /\ ~ granted c' /\ owns a c0 c' []
  | ScanLine => NEWLINE ∈ left /\ line_buf (out ++ first_line left) buf' cap' c' 1 /\ len' = zlen (out ++ first_line left)
  | ScanMore => NEWLINE ∉ left /\ line_buf (out ++ left) buf' cap' c' 1 /\ len' = zlen (out ++ left) /\ pos' = zlen bs
  end.
Proof.
  intros LB. induction left as [|x left IH]; intros seen out buf cap c E B.
  { rewrite app_nil_r in E. subst seen. do 6 eexists. split; [done|]. simpl. rewrite app_nil_r. split; [|done]. set_solver. }
  cbn [scan_line length]. pose proof (zlen_nonneg seen). pose proof (zlen_nonneg left). pose proof (zlen_nonneg out).
  assert (zlen bs = zlen seen + 1 + zlen left) by (rewrite E; zl). rewrite decide_True by lia.
  rewrite (aget_split _ seen x (left ++ junk)) by (done || by rewrite E, <- app_assoc). cbn [obind].
  destruct (grow_line_buf_spec _ _ _ _ B) as (e & b1 & cap1 & c1 & -> & P). cbn [obind].
  destruct e; try done.
  2: { rewrite decide_True by done. do 6 eexists. split; [done|]. destruct P as [G O]. split; [done|]. split.
       - intros G'. by apply granted_free in G'.
       - apply owns_free_opt. by rewrite app_nil_r. }
  rewrite decide_False by (intros H'; by apply H'). destruct P as (z & room & -> & -> & HC & HR & Ho).
  destruct (room_cons room) as (y & room' & -> & LR); [lia|]. rewrite pset_emit by done. cbn [obind].
  rewrite !u64_small by zl.
  assert (B' : line_buf (out ++ [x]) (Some (Block z ((out ++ [x]) ++ room'))) (zlen (out ++ y :: room')) c1 1).
  { exists z, room'. split_and!; try done; zl. }
  case_decide as Hx.
  { do 6 eexists. split; [done|]. simpl. rewrite decide_True by done. split_and!; [set_solver|done|zl]. }
  replace (zlen seen + 1) with (zlen (seen ++ [x])) by zl. replace (zlen out + 1) with (zlen (out ++ [x])) by zl.
  destruct (IH (seen ++ [x]) (out ++ [x]) _ _ c1 ltac:(by rewrite E, <- app_assoc) B')
    as (res & pos' & b2 & cap2 & len2 & c2 & -> & P). do 6 eexists. split; [done|]. simpl. rewrite decide_False by done.
  rewrite <- !app_assoc in P. destruct res; [done| |]; destruct P as (Hin & P); (split; [set_solver|]); exact P.
Qed.

Lemma line_loop_spec fd i x N D F k : D !! i = Some x -> F !! fd = None ->
  forall n done rest rb pos fin buf cap c w, x = done ++ rest -> NEWLINE ∉ done -> fin <= pos -> zlen rb = READ_LINE_BUF_SIZE ->
  view w = FsView N D (<[fd := OFile i (zlen done) false]> F) k -> line_buf done buf cap c 1 -> (length rest < n)%nat ->
  exists res c' w', line_loop os a n fd rb pos fin buf cap (zlen done) c w = Ret (res, c', w') /\
  match res with
  | inl r => owns a c0 c' [] /\
      (r = ZENIT_ERROR_NOT_FOUND /\ view w' = FsView N D F (S k) \/
       r = ZENIT_ERROR_ALLOC /\ ~ granted c' /\ view w' = FsView N D F k)
  | inr (buf', len) => len = zlen (first_line x) /\ (exists cap', line_buf (first_line x) buf' cap' c' 1) /\
      exists q, view w' = FsView N D (<[fd := OFile i q false]> F) k
  end.
Proof.
  intros E HF. induction n as [|n IH]; intros done rest rb pos fin buf cap c w HX ND HP LRB V B Hn; [lia|].
  cbn [line_loop]. rewrite decide_True by done. destruct (sys_read os fd _ w) as [[r bs] w1] eqn:Er.
  assert (Hm : 0 <= READ_LINE_BUF_SIZE) by done. rewrite HX in E. destruct (read_step os _ _ _ _ _ _ _ _ _ _ _ _ _ V E Hm Er)
    as [[Hr V1]|(Hr & Hz & [rest' ->] & NZ & V1)].
  { rewrite decide_True by done. do 3 eexists. split; [done|]. split.
    - destruct B as (z & room & -> & _ & _ & _ & Ho). simpl. by apply owns_free.
    - left. split; [done|]. by eapply close_step. }
  rewrite decide_False by lia. case_decide as Hr0.
  { destruct (NZ Hr0) as [?|Hs]; [done|]. apply app_nil in Hs as [-> ->]. rewrite app_nil_r in HX. subst done.
    do 3 eexists. split; [done|]. rewrite first_line_whole by done. split; [done|]. split; [by eexists|]. eexists. by rewrite V1, app_nil_r. }
  destruct (list_split_at rb r) as (r1 & r2 & -> & L1); [lia|].
  assert (wr (r1 ++ r2) 0 bs = Ret (bs ++ r2)) as -> by (apply (wr_app [] r1 bs r2); [done|zl]). cbn [obind].
  replace (Z.to_nat (r - 0)) with (length bs) by (unfold zlen in Hz; lia). rewrite <- Hz.
  unfold READ_LINE_BUF_SIZE in *.
  destruct (scan_line_spec bs r2 ltac:(lia) bs [] done buf cap c eq_refl B) as (res & p1 & b1 & cap1 & len1 & c1 & R & P).
  change (zlen []) with 0 in R. rewrite R. cbn [obind]. destruct res as [e| |].
  - destruct P as (-> & G & O). do 3 eexists. split; [done|]. split; [done|]. right. split_and!; [done|done|]. by eapply close_step.
  - destruct P as (Hin & B1 & ->). do 3 eexists. split; [done|]. rewrite HX, first_line_more, first_line_found by done.
    split; [done|]. split; [by eexists|]. by eexists.
  - destruct P as (Hin & B1 & -> & ->). rewrite <- HX in E.
    apply (IH (done ++ bs) rest'); [by rewrite <- app_assoc|set_solver|done|zl|done|done|].
    rewrite length_app in Hn. destruct bs; [done|]. simpl in Hn. lia.
Qed.
End Line.

Section ReadLine.
Context {W C : Type} (os : posix W) {PS : PosixSpec os} (a : zenit_allocator_t C) {SP : AllocSpec a} {WA : Watched a}.
Implicit Types (w : W) (c : C).

Lemma file_read_line_spec n p l0 c w : fs_wf (view w) ->
  (forall x, content (view w) p = Some x -> (length x < n)%nat) ->
  exists err l c' w', zenit_file_read_line_with_allocator os a n (Some p) (Some l0) c w = Ret (err, Some l, c', w') /\
  same_files (view w) (view w') /\
  match err with
  | ZENIT_OK => v_faults (view w') = v_faults (view w) /\ exists x b junk, content (view w) p = Some x /\
      l = Some b /\ b_data b = first_line x ++ NUL :: junk /\ owns a c c' [b_addr b]
  | ZENIT_ERROR_NOT_FOUND => (content (view w) p = None \/ refused (view w) (view w')) /\ l = l0 /\ live c' = live c
  | ZENIT_ERROR_ALLOC => ~ granted c' /\ l = l0 /\ live c' = live c
  | _ => False
  end.
Proof.
  intros WF Hn. unfold zenit_file_read_line_with_allocator. destruct (sys_open os p _ _ w) as [fd w1] eqn:O.
  destruct (view w) as [N D F k] eqn:V0. pose proof WF as WF'. rewrite <- V0 in WF'.
  destruct (open_read os _ _ _ _ _ _ _ _ _ V0 WF' O) as [[Hf V]|(Hf & HF & i & x & Ni & Di & LX & V)].
  { rewrite decide_True by done. do 4 eexists. split; [done|]. simpl.
    destruct V as [[Hp ->]| ->]; (split; [done|]); (split_and!; try done); [left|right; unfold refused; simpl; lia].
    unfold content. simpl. by rewrite Hp. }
  assert (Cx : content (FsView N D F k) p = Some x) by (unfold content; simpl; by rewrite Ni).
  rewrite decide_False by lia. destruct (alloc_fn a 64 c) as [[[z room]|] c1] eqn:Al.
  2: { do 4 eexists. split; [done|]. rewrite (close_step os _ _ _ _ _ _ _ HF V). split; [done|]. split_and!; try done.
       - intros G. by destruct (granted_alloc _ _ _ _ Al G).
       - by eapply alloc_none. }
  pose proof (alloc_some _ _ _ _ Al) as (Lz & Mz & _). simpl in Lz.
  pose proof (owns_alloc a _ _ _ _ _ _ (owns_refl a c) Al) as Ho.
  assert (B : line_buf a c [] (Some (Block z room)) 64 c1 1) by (exists z, room; split_and!; done || lia).
  destruct (line_loop_spec os a c fd i x N D F k Di HF n [] x (local_array READ_LINE_BUF_SIZE) 0 0 (Some (Block z room)) 64 c1 w1 eq_refl)
    as (res & c2 & w2 & R & P); [set_solver|done|done|done|exact B|by apply Hn|].
  change (zlen []) with 0 in R. rewrite R. cbn [obind]. destruct res as [r|[b len]].
  - destruct P as (O2%owns_nil & [[-> V2]|(-> & G & V2)]); do 4 eexists; (split; [done|]); rewrite V2; (split; [done|]); [|done].
    split_and!; try done. right. unfold refused. simpl. lia.
  - destruct P as (-> & (cap & z' & room' & -> & _ & _ & HR & Ho') & q & V2).
    destruct (room_cons room' HR) as (y & junk & -> & _). rewrite pset_emit by done. cbn [obind].
    do 4 eexists. split; [done|]. rewrite (close_step os _ _ _ _ _ _ _ HF V2). split; [done|]. split; [done|].
    exists x, (Block z' ((first_line x ++ [NUL]) ++ junk)), junk. split_and!; try done. by rewrite <- app_assoc.
Qed.
End ReadLine.
