(* ===== verification/IoCopy.v ===== *)
(** * Copying files, and what callers of the file functions rely on *)

From Stdlib Require Import ZArith Lia String.
From stdpp Require Import base tactics option list numbers gmap sets.
From S2P Require Import Prelude Mem Result Allocator Links Text Arrays JsonMemory Posix Io IoFiles IoLine.
Open Scope Z_scope.

Section Copy.
Context {W : Type} (os : posix W) {PS : PosixSpec os}.
Implicit Types (w : W).

(** Both descriptors are at the end of what was copied. *)
Lemma file_copy_loop_spec s d i j x N F k : s <> d -> i <> j -> zlen x <= PTRDIFF_MAX ->
  forall n done rest buf D w, x = done ++ rest -> D !! i = Some x -> zlen buf = IO_COPY_BUF_SIZE -> (length rest < n)%nat ->
  view w = FsView N (<[j := done]> D) (<[d := OFile j (zlen done) false]> (<[s := OFile i (zlen done) false]> F)) k ->
  exists res w' y p q, copy_loop os n s d buf w = Ret (res, w') /\
    view w' = FsView N (<[j := y]> D) (<[d := OFile j q false]> (<[s := OFile i p false]> F)) (match res with Some 0 => k | _ => S k end) /\
    (exists z, x = y ++ z) /\
    match res with Some r => r <= 0 /\ (r = 0 -> y = x) | None => True end.
Proof.
  intros SD IJ LX. induction n as [|n IH]; intros done rest buf D w HX E LB Hn V; [lia|].
  cbn [copy_loop]. destruct (sys_read os s _ w) as [[r bs] w1] eqn:Er.
  assert (V' := V). rewrite insert_insert_ne in V' by done.
  assert (E' : <[j := done]> D !! i = Some (done ++ rest)) by (rewrite lookup_insert_ne by done; by rewrite E, HX).
  assert (Hm : 0 <= IO_COPY_BUF_SIZE) by done.
  destruct (read_step os _ _ _ _ _ _ _ _ _ _ _ _ _ V' E' Hm Er) as [[Hr V1]|(Hr & Hz & [rest' ->] & NZ & V1)];
    rewrite insert_insert_ne in V1 by done.
  { rewrite decide_False by lia. exists (Some r), w1, done, (zlen done), (zlen done). split; [done|].
    split; [|split; [by eexists|split; lia]]. rewrite V1. by destruct r. }
  case_decide as Hr0.
  2: { assert (r = 0) as -> by lia. destruct (NZ eq_refl) as [?|Hs]; [done|]. apply app_nil in Hs as [-> ->]. rewrite !app_nil_r in *. subst done.
       exists (Some 0), w1, x, (zlen x), (zlen x). split; [done|]. split; [done|]. split; [by exists []; rewrite app_nil_r|done]. }
  destruct (list_split_at buf r) as (r1 & r2 & -> & L1); [lia|].
  assert (wr (r1 ++ r2) 0 bs = Ret (bs ++ r2)) as -> by (apply (wr_app [] r1 bs r2); [done|zl]). cbn [obind].
  destruct (file_write_loop_spec os d j false N (<[s := OFile i (zlen (done ++ bs)) false]> F) k (bs ++ r2) (S n) bs [] r2 done (zlen done)
              (<[j := done]> D) w1) as (ok & w2 & y & q & R & Hq & Q & _ & V2 & Y).
  - done.
  - unfold IO_COPY_BUF_SIZE in *. zl.
  - done.
  - by rewrite lookup_insert_eq.
  - zl.
  - done.
  - rewrite length_app in Hn. lia.
  - simpl app in R. change (zlen []) with 0 in R. rewrite Hz in R. rewrite R. cbn [obind]. rewrite insert_insert_eq in V2. destruct ok.
    + subst y. rewrite (Q eq_refl) in V2. apply (IH (done ++ bs) rest'); [by rewrite <- app_assoc|done|zl| |done].
      rewrite length_app in Hn. destruct bs; [change (zlen []) with 0 in Hz; lia|]. simpl in Hn. lia.
    + destruct Y as [t ->]. exists None, w2, (done ++ y), (zlen (done ++ y ++ t)), q. split_and!; [done|done| |done].
      exists (t ++ rest'). by rewrite HX, <- !app_assoc.
Qed.

(** What may be left of a copy that did not succeed. *)
Definition partial_copy (v v' : fsview) (src dst : bytes) : Prop :=
  exists y z, content v src = Some (y ++ z) /\ updates dst y v v'.

Lemma file_copy_spec n src dst w : fs_wf (view w) -> apart (view w) dst src ->
  (forall x, content (view w) src = Some x -> (length x < n)%nat) ->
  exists err w', zenit_file_copy os n (Some src) (Some dst) w = Ret (err, w') /\
  match err with
  | ZENIT_OK => exists x, content (view w) src = Some x /\ updates dst x (view w) (view w') /\
      v_faults (view w') = v_faults (view w)
  | ZENIT_ERROR_SIZE => refused (view w) (view w') /\ partial_copy (view w) (view w') src dst
  | ZENIT_ERROR_NOT_FOUND =>
      same_files (view w) (view w') /\ (content (view w) src = None \/ refused (view w) (view w')) \/
      refused (view w) (view w') /\ partial_copy (view w) (view w') src dst
  | _ => False
  end.
Proof.
  intros WF [NE AP] Hn. unfold zenit_file_copy. destruct (sys_open os src _ _ w) as [s w1] eqn:O.
  destruct (view w) as [N D F k] eqn:V0. pose proof WF as WF'. rewrite <- V0 in WF'.
  destruct (open_read os _ _ _ _ _ _ _ _ _ V0 WF' O) as [[Hf V]|(Hf & HF & i & x & Ni & Di & LX & V)].
  { rewrite decide_True by done. do 2 eexists. split; [done|]. left.
    destruct V as [[Hp ->]| ->]; (split; [done|]); [left; unfold content; simpl; by rewrite Hp|right; unfold refused; simpl; lia]. }
  assert (Cx : content (FsView N D F k) src = Some x) by (unfold content; simpl; by rewrite Ni).
  rewrite decide_False by lia. destruct (sys_open os dst _ _ w1) as [d w2] eqn:O2.
  destruct (open_write os _ _ _ _ _ _ _ O2) as [[Hd V2]|(Hd & Hd2 & j & T & V2)]; rewrite V in *.
  { rewrite decide_True by done. do 2 eexists. split; [done|]. left. unfold fault in V2. simpl in V2.
    rewrite (close_step os _ _ _ _ _ _ _ HF V2). split; [done|]. right. unfold refused. simpl. lia. }
  rewrite decide_False by lia. simpl in V2, Hd2. apply lookup_insert_None in Hd2 as [Fd SD].
  assert (IJ : i <> j).
  { intros <-. unfold target in T. simpl in *. destruct (N !! dst) as [l|] eqn:Nd; [subst l; by eapply AP|].
    destruct T as [_ T]. congruence. }
  destruct (file_copy_loop_spec s d i j x (<[dst := j]> N) F k SD IJ LX n [] x (local_array IO_COPY_BUF_SIZE) D w2)
    as (res & w3 & y & p & q & R & V3 & [z HX] & Q); try done.
  { by apply Hn. }
  rewrite R. cbn [obind]. rewrite insert_insert_ne in V3 by done.
  assert (V4 : view (sys_close os s w3) = _) by (eapply close_step; [|exact V3]; by rewrite lookup_insert_ne).
  pose proof (close_step os _ _ _ _ _ _ _ Fd V4) as V5.
  assert (T' : target dst (OFlags true true false true) (FsView N D F k) j) by exact T.
  assert (LY : zlen y <= PTRDIFF_MAX) by (rewrite HX in LX; zl).
  assert (U := fun m => put_updates (FsView N D F k) dst _ j WF T' y m LY). unfold put in U. simpl in U.
  destruct res as [r|].
  - destruct Q as [Hr Hy]. case_decide as Hr0; do 2 eexists; (split; [done|]); rewrite V5.
    + right. split; [unfold refused; simpl; destruct r; lia|]. exists y, z. split; [by rewrite Cx, HX|apply U].
    + assert (r = 0) as -> by lia. rewrite (Hy eq_refl) in *. exists x. split_and!; [done|apply U|done].
  - do 2 eexists. split; [done|]. rewrite V5. split; [unfold refused; simpl; lia|]. exists y, z. split; [by rewrite Cx, HX|apply U].
Qed.
End Copy.
