(* ===== verification/IoClient.v ===== *)
(** * What callers of the file functions rely on

    The abstract file system is a finite map from names to contents with a count of refused
    calls.  Clients of the file functions see it, whatever the reads and writes transfer at a
    time; they see an error only when the file is missing, when memory is refused or when the
    platform refused a call, and what a failed call leaves behind is part of the specification. *)

From Stdlib Require Import ZArith Lia String.
From stdpp Require Import base tactics option list numbers gmap sets.
From S2P Require Import Prelude Mem Result Allocator Links Text Arrays Machine JsonMemory Posix Io IoFiles IoLine IoCopy.
Open Scope Z_scope.

Inductive file_op : Type :=
| FWrite (append : bool) (p data : bytes)
| FRead (p : bytes)
| FReadLine (p : bytes)
| FSize (p : bytes)
| FExists (p : bytes)
| FDelete (p : bytes)
| FCopy (src dst : bytes).

(** A code, with the buffer and the length or the number that the call returns. *)
Inductive file_res : Type :=
| RCode (e : zenit_error_t)
| RData (e : zenit_error_t) (buf : bytes) (len : Z)
| RSize (e : zenit_error_t) (size : Z)
| RExists (yes : Z).

Section Exec.
Context {W C : Type} (os : posix W) (a : zenit_allocator_t C) (n : nat).

(** A client's call; buffers that it gets are freed once it has seen them. *)
Definition file_exec (op : file_op) (s : C * W) : outcome (file_res * (C * W)) :=
  let '(c, w) := s in
  match op with
  | FWrite false p d => let! (e, w1) := zenit_file_write os n (Some p) (Some d) (zlen d) w in Ret (RCode e, (c, w1))
  | FWrite true p d => let! (e, w1) := zenit_file_append os n (Some p) (Some d) (zlen d) w in Ret (RCode e, (c, w1))
  | FRead p =>
      let! (e, d, l, c1, w1) := zenit_file_read_with_allocator os a n (Some p) (Some None) (Some 0) c w in
      let buf := default None d in
      Ret (RData e (pbytes buf) (default 0 l), (free_fn a (paddr buf) c1, w1))
  | FReadLine p =>
      let! (e, d, c1, w1) := zenit_file_read_line_with_allocator os a n (Some p) (Some None) c w in
      let buf := default None d in
      Ret (RData e (pbytes buf) 0, (free_fn a (paddr buf) c1, w1))
  | FSize p => let '(e, s, w1) := zenit_file_size os (Some p) (Some 0) w in Ret (RSize e (default 0 s), (c, w1))
  | FExists p => let '(r, w1) := zenit_file_exists os (Some p) w in Ret (RExists r, (c, w1))
  | FDelete p => let '(e, w1) := zenit_file_delete os (Some p) w in Ret (RCode e, (c, w1))
  | FCopy src dst => let! (e, w1) := zenit_file_copy os n (Some src) (Some dst) w in Ret (RCode e, (c, w1))
  end.
End Exec.

(** ** The specification *)

Record files : Type := Files { f_map : gmap bytes bytes; f_refused : nat }.

(** Nothing changed, and the reason is a missing file or a refused call. *)
Definition fails (x x' : files) (p : bytes) : Prop :=
  f_map x' = f_map x /\ (f_map x !! p = None \/ (f_refused x < f_refused x')%nat).

(** A refused call left [p] with a part of what was to be stored behind [old]. *)
Definition cut_short (x x' : files) (p old data : bytes) : Prop :=
  (f_refused x < f_refused x')%nat /\ exists y z, data = y ++ z /\ f_map x' = <[p := old ++ y]> (f_map x).

Definition file_step (op : file_op) (x : files) (r : file_res) (x' : files) : Prop :=
  match op, r with
  | FWrite ap p d, RCode e =>
      let old := if ap then default [] (f_map x !! p) else [] in
      match e with
      | ZENIT_OK => x' = Files (<[p := old ++ d]> (f_map x)) (f_refused x)
      | ZENIT_ERROR_SIZE => cut_short x x' p old d
      | ZENIT_ERROR_NOT_FOUND => f_map x' = f_map x /\ (f_refused x < f_refused x')%nat
      | _ => False
      end
  | FRead p, RData e buf len =>
      match e with
      | ZENIT_OK => x' = x /\ exists d, f_map x !! p = Some d /\ buf = d ++ [NUL] /\ len = zlen d
      | ZENIT_ERROR_NOT_FOUND => fails x x' p
      | ZENIT_ERROR_ALLOC => f_map x' = f_map x
      | _ => False
      end
  | FReadLine p, RData e buf _ =>
      match e with
      | ZENIT_OK => x' = x /\ exists d junk, f_map x !! p = Some d /\ buf = first_line d ++ NUL :: junk
      | ZENIT_ERROR_NOT_FOUND => fails x x' p
      | ZENIT_ERROR_ALLOC => f_map x' = f_map x
      | _ => False
      end
  | FSize p, RSize e s =>
      match e with
      | ZENIT_OK => x' = x /\ exists d, f_map x !! p = Some d /\ s = zlen d
      | ZENIT_ERROR_NOT_FOUND => fails x x' p
      | _ => False
      end
  | FExists p, RExists r =>
      (r = 1 /\ is_Some (f_map x !! p) /\ x' = x) \/ (r = 0 /\ fails x x' p)
  | FDelete p, RCode e =>
      match e with
      | ZENIT_OK => is_Some (f_map x !! p) /\ x' = Files (delete p (f_map x)) (f_refused x)
      | ZENIT_ERROR_NOT_FOUND => fails x x' p
      | _ => False
      end
  | FCopy src dst, RCode e =>
      match e with
      | ZENIT_OK => exists d, f_map x !! src = Some d /\ x' = Files (<[dst := d]> (f_map x)) (f_refused x)
      | ZENIT_ERROR_SIZE => exists d, f_map x !! src = Some d /\ cut_short x x' dst [] d
      | ZENIT_ERROR_NOT_FOUND => fails x x' src \/ exists d, f_map x !! src = Some d /\ cut_short x x' dst [] d
      | _ => False
      end
  | _, _ => False
  end.

(** Files stay below the fuel, data is an object of C, a file is not copied to itself. *)
Definition file_legal (n : nat) (op : file_op) (x : files) : Prop :=
  match op with
  | FWrite _ _ d => (length d < n)%nat /\ zlen d < two64
  | FRead p | FReadLine p => forall d, f_map x !! p = Some d -> (length d < n)%nat
  | FCopy src dst => src <> dst /\ forall d, f_map x !! src = Some d -> (length d < n)%nat
  | _ => True
  end.

Section Refine.
Context {W C : Type} (os : posix W) {PS : PosixSpec os} (a : zenit_allocator_t C) {SP : AllocSpec a}.
Implicit Types (w : W) (c : C) (x : files) (p : bytes).

(** The map behind a state in which the client holds no memory and the descriptors [F]
    are open. *)
Record file_rep (c0 : C) (F : gmap Z ofile) (s : C * W) x : Prop := {
  fr_wf : fs_wf (view s.2);
  fr_single : single_names (view s.2);
  fr_fds : v_fds (view s.2) = F;
  fr_map p : content (view s.2) p = f_map x !! p;
  fr_faults : v_faults (view s.2) = f_refused x;
  fr_live : live s.1 = live c0 }.

Context (c0 : C) (F : gmap Z ofile).

Lemma rep_updates p y c c' w w' x : file_rep c0 F (c, w) x -> updates p y (view w) (view w') -> live c' = live c ->
  file_rep c0 F (c', w') (Files (<[p := y]> (f_map x)) (v_faults (view w'))).
Proof.
  intros [H1 H2 H3 H4 H5 H6] (U1 & U2 & U3 & U4 & U5) L. simpl in *. split; simpl; try done; [by apply U5|congruence| |congruence].
  intros q. destruct (decide (q = p)) as [->|Hq]; [by rewrite lookup_insert_eq|]. rewrite lookup_insert_ne by done.
  rewrite U2; [done|]. split; [done|]. intros i Hi Hp. apply Hq. by eapply H2.
Qed.

Lemma rep_same c c' w w' x : file_rep c0 F (c, w) x -> same_files (view w) (view w') -> live c' = live c ->
  file_rep c0 F (c', w') (Files (f_map x) (v_faults (view w'))).
Proof.
  intros [H1 H2 H3 H4 H5 H6] (U1 & U2 & U3) L. simpl in *. split; simpl; try congruence.
  - destruct H1 as [A B D]. split; [rewrite U1, U2|rewrite U3, U2|rewrite U2]; done.
  - intros p q i. rewrite U1. apply H2.
  - intros p. rewrite <- H4. unfold content. by rewrite U1, U2.
Qed.

Lemma rep_name c w x p : file_rep c0 F (c, w) x -> is_Some (v_names (view w) !! p) <-> is_Some (f_map x !! p).
Proof.
  intros [[H1 _ _] _ _ H4 _ _]. rewrite <- H4. unfold content. simpl in *. destruct (v_names (view w) !! p) as [i|] eqn:E; simpl.
  - split; [intros _; by eapply H1|done].
  - split; by intros [? [=]].
Qed.

Lemma rep_missing c w x p : file_rep c0 F (c, w) x -> v_names (view w) !! p = None -> f_map x !! p = None.
Proof.
  intros H E. destruct (f_map x !! p) as [d|] eqn:D; [|done].
  destruct (proj2 (rep_name c w x p H)) as [? ?]; [by rewrite D|congruence].
Qed.

Lemma rep_base c w x ap p : file_rep c0 F (c, w) x ->
  base ap (view w) p = if ap then default [] (f_map x !! p) else [].
Proof. intros H. unfold base. by rewrite (fr_map _ _ _ _ H). Qed.

Lemma rep_refused c w w' x m : file_rep c0 F (c, w) x -> refused (view w) (view w') ->
  (f_refused x < f_refused (Files m (v_faults (view w'))))%nat.
Proof. intros H. unfold refused. pose proof (fr_faults _ _ _ _ H) as E. simpl in *. lia. Qed.

(** A block that the client gives back. *)
Lemma given_back c c' z : owns a c c' [z] -> live (free_fn a (Some z) c') = live c.
Proof. intros H. by apply owns_nil, owns_free. Qed.

Ltac settle H := first [done | by apply (rep_same _ _ _ _ _ H) | by eapply (rep_refused _ _ _ _ _ H)].

Lemma write_sim n ap p d c w x : file_rep c0 F (c, w) x -> file_legal n (FWrite ap p d) x ->
  exists r s' x', file_exec os a n (FWrite ap p d) (c, w) = Ret (r, s') /\ file_step (FWrite ap p d) x r x' /\ file_rep c0 F s' x'.
Proof.
  intros H [Hn L]. destruct (file_write_spec os n p d [] ap w (fr_wf _ _ _ _ H)) as (e & w' & E & P); [by rewrite app_nil_r|done|].
  rewrite app_nil_r in E. rewrite (rep_base _ _ _ ap p H) in P.
  assert (file_exec os a n (FWrite ap p d) (c, w) = Ret (RCode e, (c, w'))) as ->.
  { destruct ap; unfold file_exec, zenit_file_write, zenit_file_append; by rewrite E. }
  pose proof (fr_faults _ _ _ _ H) as FF. simpl in FF. destruct e; try done.
  - destruct P as [U Ek]. eexists _, _, _. split; [done|]. split; [done|]. rewrite <- FF, <- Ek. by eapply rep_updates.
  - destruct P as [R S]. eexists _, _, _. split; [done|]. split; [split; [|settle H]|settle H]. done.
  - destruct P as (R & y & z & -> & U). eexists _, _, _. split; [done|]. split; [|by apply (rep_updates _ _ _ _ _ _ _ H U)].
    split; [settle H|]. by exists y, z.
Qed.

Lemma read_sim n p c w x : file_rep c0 F (c, w) x -> file_legal n (FRead p) x ->
  exists r s' x', file_exec os a n (FRead p) (c, w) = Ret (r, s') /\ file_step (FRead p) x r x' /\ file_rep c0 F s' x'.
Proof.
  intros H Hn. pose proof (fr_map _ _ _ _ H) as HM. pose proof (fr_faults _ _ _ _ H) as FF. simpl in HM, FF.
  destruct (file_read_spec (WA := unwatched a) os a n p None 0 c w (fr_wf _ _ _ _ H)) as (e & d & l & c' & w' & E & S & P).
  { intros y. rewrite HM. apply Hn. }
  unfold file_exec. rewrite E. cbn [obind default]. destruct e; try done.
  - destruct P as (y & Cy & -> & (b & -> & Db & Ho) & Ek). eexists _, _, x. split; [done|]. split.
    + split; [done|]. exists y. rewrite <- HM. simpl. by rewrite Db.
    + destruct x as [m k]. simpl in FF. rewrite <- FF, <- Ek. apply (rep_same _ _ _ _ _ H S). by apply given_back.
  - destruct P as (_ & -> & -> & L). eexists _, _, (Files _ _). split; [done|]. split; [done|].
    apply (rep_same _ _ _ _ _ H S). simpl. by rewrite free_none.
  - destruct P as (R & -> & -> & L). eexists _, _, (Files _ _). split; [done|]. split.
    + split; [done|]. destruct R as [R|R]; [left; by rewrite <- HM|right; settle H].
    + apply (rep_same _ _ _ _ _ H S). simpl. by rewrite free_none.
Qed.

Lemma read_line_sim n p c w x : file_rep c0 F (c, w) x -> file_legal n (FReadLine p) x ->
  exists r s' x', file_exec os a n (FReadLine p) (c, w) = Ret (r, s') /\ file_step (FReadLine p) x r x' /\ file_rep c0 F s' x'.
Proof.
  intros H Hn. pose proof (fr_map _ _ _ _ H) as HM. pose proof (fr_faults _ _ _ _ H) as FF. simpl in HM, FF.
  destruct (file_read_line_spec (WA := unwatched a) os a n p None c w (fr_wf _ _ _ _ H)) as (e & d & c' & w' & E & S & P).
  { intros y. rewrite HM. apply Hn. }
  unfold file_exec. rewrite E. cbn [obind default]. destruct e; try done.
  - destruct P as (Ek & y & b & junk & Cy & -> & Db & Ho). eexists _, _, x. split; [done|]. split.
    + split; [done|]. exists y, junk. by rewrite <- HM.
    + destruct x as [m k]. simpl in FF. rewrite <- FF, <- Ek. apply (rep_same _ _ _ _ _ H S). by apply given_back.
  - destruct P as (_ & -> & L). eexists _, _, (Files _ _). split; [done|]. split; [done|].
    apply (rep_same _ _ _ _ _ H S). simpl. by rewrite free_none.
  - destruct P as (R & -> & L). eexists _, _, (Files _ _). split; [done|]. split.
    + split; [done|]. destruct R as [R|R]; [left; by rewrite <- HM|right; settle H].
    + apply (rep_same _ _ _ _ _ H S). simpl. by rewrite free_none.
Qed.

Lemma query_sim n op c w x : file_rep c0 F (c, w) x -> (exists p, op = FSize p \/ op = FExists p \/ op = FDelete p) ->
  exists r s' x', file_exec os a n op (c, w) = Ret (r, s') /\ file_step op x r x' /\ file_rep c0 F s' x'.
Proof.
  intros H [p Hop]. pose proof (fr_map _ _ _ _ H) as HM. pose proof (fr_faults _ _ _ _ H) as FF. simpl in HM, FF.
  assert (Sm : forall w', view w' = view w -> file_rep c0 F (c, w') x).
  { intros w' V. destruct H. split; simpl in *; by rewrite ?V. }
  assert (Fm : forall w', view w' = fault (view w) -> file_rep c0 F (c, w') (Files (f_map x) (v_faults (view w')))).
  { intros w' V. apply (rep_same _ _ _ _ _ H); [by rewrite V|done]. }
  assert (Fl : forall w', view w' = fault (view w) -> fails x (Files (f_map x) (v_faults (view w'))) p).
  { intros w' V. split; [done|right]. rewrite V. simpl. lia. }
  assert (Ms : v_names (view w) !! p = None -> fails x x p) by (intros E; split; [done|left; by eapply rep_missing]).
  destruct Hop as [->|[->| ->]]; cbn [file_exec].
  - unfold zenit_file_size. destruct (sys_stat os p w) as [[r st] w1] eqn:E.
    destruct (stat_ok p w r st w1 E) as [[Hr [V|[En V]]]|(Hr & V & y & Cy & ->)].
    + rewrite decide_True by done. eexists _, _, _. split; [done|]. split; [by apply Fl|by apply Fm].
    + rewrite decide_True by done. eexists _, _, x. split; [done|]. split; [by apply Ms|by apply Sm].
    + rewrite decide_False by lia. eexists _, _, x. split; [done|]. split; [|by apply Sm]. split; [done|]. exists y.
      rewrite <- HM. split; [done|]. simpl. apply u64_small. pose proof (zlen_nonneg y).
      assert (zlen y <= PTRDIFF_MAX); [|lia]. unfold content in Cy. destruct (v_names (view w) !! p) as [i|]; [|done].
      by eapply (wf_sizes _ (fr_wf _ _ _ _ H)).
  - unfold zenit_file_exists. destruct (sys_access os p w) as [r w1] eqn:E.
    destruct (access_ok p w r w1 E) as [[V Hr]|[Hr V]].
    + case_decide as Hz; eexists _, _, x; (split; [done|]); (split; [|by apply Sm]).
      * left. split_and!; try done. by apply (rep_name _ _ _ _ H), Hr.
      * right. split; [done|]. apply Ms. destruct (v_names (view w) !! p); [|done]. by destruct Hz; apply Hr.
    + rewrite decide_False by done. eexists _, _, _. split; [done|]. split; [right; split; [done|by apply Fl]|by apply Fm].
  - unfold zenit_file_delete. destruct (sys_unlink os p w) as [r w1] eqn:E.
    destruct (unlink_ok p w r w1 E) as [[Hr [V|[En V]]]|(Hr & Hs & D & U)].
    + rewrite decide_True by done. eexists _, _, _. split; [done|]. split; [by apply Fl|by apply Fm].
    + rewrite decide_True by done. eexists _, _, x. split; [done|]. split; [by apply Ms|by apply Sm].
    + rewrite decide_False by lia. eexists _, _, _. split; [done|]. split; [split; [by apply (rep_name _ _ _ _ H)|done]|].
      pose proof (fun q => unlinked_content p D _ _ q U) as UC. destruct H as [H1 H2 H3 H4 H5 H6]. simpl in *.
      split; simpl; try done; [by eapply unlinked_wf| | | |].
      * destruct U as (-> & _). intros q q' i. simpl. intros [_ ?]%lookup_delete_Some [_ ?]%lookup_delete_Some. by eapply H2.
      * by destruct U as (-> & _).
      * intros q. rewrite UC, H4. symmetry. case_decide; [subst q; apply lookup_delete_eq|by apply lookup_delete_ne].
      * by destruct U as (-> & _).
Qed.

Lemma copy_sim n src dst c w x : file_rep c0 F (c, w) x -> file_legal n (FCopy src dst) x ->
  exists r s' x', file_exec os a n (FCopy src dst) (c, w) = Ret (r, s') /\ file_step (FCopy src dst) x r x' /\ file_rep c0 F s' x'.
Proof.
  intros H [NE Hn]. pose proof (fr_map _ _ _ _ H) as HM. pose proof (fr_faults _ _ _ _ H) as FF. simpl in HM, FF.
  destruct (file_copy_spec os n src dst w (fr_wf _ _ _ _ H)) as (e & w' & E & P).
  { split; [done|]. intros i Hi Hj. apply NE. by eapply (fr_single _ _ _ _ H). }
  { intros y. rewrite HM. apply Hn. }
  unfold file_exec. rewrite E. cbn [obind].
  assert (Part : refused (view w) (view w') -> partial_copy (view w) (view w') src dst ->
    exists x', (exists d, f_map x !! src = Some d /\ cut_short x x' dst [] d) /\ file_rep c0 F (c, w') x').
  { intros R (y & z & Cy & U). eexists. split; [|by apply (rep_updates _ _ _ _ _ _ _ H U)]. exists (y ++ z).
    rewrite <- HM. split; [done|]. split; [settle H|]. by exists y, z. }
  destruct e; try done.
  - destruct P as (y & Cy & U & Ek). eexists _, _, _. split; [done|].
    split; [exists y; rewrite <- HM; by split|]. rewrite <- FF, <- Ek. by apply (rep_updates _ _ _ _ _ _ _ H U).
  - destruct P as [[S R]|[R P]].
    + eexists _, _, _. split; [done|]. split; [left|by apply (rep_same _ _ _ _ _ H S)]. split; [done|].
      destruct R as [R|R]; [left; by rewrite <- HM|right; settle H].
    + destruct (Part R P) as (x' & S & H'). eexists _, _, x'. split; [done|]. split; [by right|done].
  - destruct P as [R P]. destruct (Part R P) as (x' & S & H'). by eexists _, _, x'.
Qed.

Lemma file_sim n op c w x : file_rep c0 F (c, w) x -> file_legal n op x ->
  exists r s' x', file_exec os a n op (c, w) = Ret (r, s') /\ file_step op x r x' /\ file_rep c0 F s' x'.
Proof.
  intros H L. destruct op as [ap p d|p|p|p|p|p|src dst].
  1: by apply write_sim. 1: by apply read_sim. 1: by apply read_line_sim. 4: by apply copy_sim.
  all: eapply query_sim; [done|]; eauto.
Qed.
End Refine.

(** The map of a view. *)
Definition files_of (v : fsview) : files := Files (omap (fun i => v_data v !! i) (v_names v)) (v_faults v).


(** What was written is read back, unless the platform refuses a call or the allocator a
    request, in which case the functions say so. *)
Theorem file_roundtrip {W C : Type} (os : posix W) {PS : PosixSpec os} (a : zenit_allocator_t C) {SP : AllocSpec a} {WA : Watched a}
    n p data c w :
  fs_wf (view w) -> zlen data < two64 -> (length data < n)%nat ->
  exists e1 w1, zenit_file_write os n (Some p) (Some data) (zlen data) w = Ret (e1, w1) /\
    (e1 <> ZENIT_OK -> refused (view w) (view w1)) /\
    (e1 = ZENIT_OK -> exists e2 d l c' w2,
       zenit_file_read_with_allocator os a n (Some p) (Some None) (Some 0) c w1 = Ret (e2, Some d, Some l, c', w2) /\
       (e2 <> ZENIT_OK -> (refused (view w1) (view w2) \/ ~ granted c') /\ live c' = live c) /\
       (e2 = ZENIT_OK -> l = zlen data /\ fresh_text a c c' data d /\ same_files (view w1) (view w2))).
Proof.
  intros WF L Hn. destruct (file_write_spec os n p data [] false w WF) as (e1 & w1 & E1 & P); [by rewrite app_nil_r|done|].
  rewrite app_nil_r in E1. exists e1, w1. split; [exact E1|]. split; [destruct e1; naive_solver|].
  intros ->. destruct P as [(Cp & _ & _ & WF1 & _) _]. simpl in Cp.
  destruct (file_read_spec os a n p None 0 c w1 WF1) as (e2 & d & l & c' & w2 & E2 & S & P).
  { intros y. rewrite Cp. by intros [= <-]. }
  exists e2, d, l, c', w2. split; [exact E2|]. rewrite Cp in P. destruct e2; try done; split; try done.
  - intros _. destruct P as (y & [= <-] & -> & T & _). done.
  - intros _. naive_solver.
  - intros _. naive_solver.
Qed.

(** ** Examples and departures *)

Definition path_a : bytes := lit "a"%string.
Definition path_b : bytes := lit "b"%string.

(** Writes of two bytes at a time, appended, copied, read back and a line of it. *)
Example file_session :
  match run (file_exec memfs ZENIT_ALLOCATOR_DEFAULT 50)
    [FWrite false path_a [72; 105; 10]; FWrite true path_a [33]; FCopy path_a path_b; FRead path_b; FDelete path_b;
     FRead path_b; FSize path_a; FExists path_a] (empty_heap, empty_fs [0; 2; 1; 0; 1; 0; 0; 3; 1; 2]) with
  | Ret (rs, _) => Some rs
  | _ => None
  end = Some [RCode ZENIT_OK; RCode ZENIT_OK; RCode ZENIT_OK; RData ZENIT_OK [72; 105; 10; 33; 0] 4; RCode ZENIT_OK;
              RData ZENIT_ERROR_NOT_FOUND [] 0; RSize ZENIT_OK 4; RExists 1].
Proof. vm_compute. reflexivity. Qed.


Lemma file_roundtrip_witness :
  exists w1, zenit_file_write memfs 50 (Some path_a) (Some [72; 105]) 2 (empty_fs [0; 1]) = Ret (ZENIT_OK, w1) /\
  exists e d l c' w2, zenit_file_read_with_allocator memfs (watched ZENIT_ALLOCATOR_DEFAULT) 50 (Some path_a) (Some None) (Some 0)
      (empty_heap, false) w1 = Ret (e, Some d, Some l, c', w2) /\
    (e = ZENIT_OK -> l = 2 /\ fresh_text (watched ZENIT_ALLOCATOR_DEFAULT) (empty_heap, false) c' [72; 105] d).
Proof.
  destruct (file_roundtrip memfs (watched ZENIT_ALLOCATOR_DEFAULT) 50 path_a [72; 105] (empty_heap, false) (empty_fs [0; 1]))
    as (e1 & w1 & E & _ & H).
  - apply empty_fs_wf.
  - done.
  - simpl. lia.
  - assert (e1 = ZENIT_OK) as -> by (vm_compute in E; congruence). exists w1. split; [exact E|].
    destruct (H eq_refl) as (e & d & l & c' & w2 & R & _ & P). exists e, d, l, c', w2. split; [exact R|].
    intros He. destruct (P He) as (-> & T & _). done.
Defined.

(** A file that became shorter between [fstat] and [read]: [read] returns 0 for ever and
    [zenit_file_read] does not end. *)
Definition shrunk_os : posix unit :=
  mk_posix (fun _ _ _ w => (3, w)) (fun _ w => w) (fun _ w => ((0, 1), w)) (fun _ w => ((0, 0), w))
    (fun _ _ w => ((0, []), w)) (fun _ bs w => (zlen bs, w)) (fun _ w => (0, w)) (fun _ w => (0, w)).

Theorem file_read_shrunk_hangs n : zenit_file_read shrunk_os n (Some path_a) (Some None) (Some 0) empty_heap tt = NoFuel.
Proof.
  assert (L : forall n z c, read_loop shrunk_os ZENIT_ALLOCATOR_DEFAULT n 3 (Some (Block z [165; 165])) 1 0 c tt = NoFuel).
  { induction n0 as [|m IH]; intros z c; [done|]. cbn. apply IH. }
  unfold zenit_file_read, zenit_file_read_with_allocator. simpl. by rewrite L.
Qed.

(** A file copied to itself is empty afterwards, and [zenit_file_copy] reports success. *)
Theorem file_copy_self_loses :
  match zenit_file_write memfs 50 (Some path_a) (Some [72; 105]) 2 (empty_fs []) with
  | Ret (_, w) => match zenit_file_copy memfs 50 (Some path_a) (Some path_a) w with
                  | Ret (e, w') => (content (view w) path_a, e, content (view w') path_a) = (Some [72; 105], ZENIT_OK, Some [])
                  | _ => False
                  end
  | _ => False
  end.
Proof. vm_compute. reflexivity. Qed.
