(* ===== verification/Dir.v ===== *)
(** * Directories ([include/libzenit/dir.h], [src/dir.c], the POSIX variant)

    Creating a directory with its parents, removing it, asking whether it is there, walking
    and listing its entries, over a record of the directory calls of the platform.  A path
    is the buffer that holds it; the calls get the text up to the terminator. *)

From Stdlib Require Import ZArith Lia Ascii.
From stdpp Require Import base tactics option list numbers gmap sets.
From S2P Require Import Prelude Mem Result Allocator Text Str Graph.
Open Scope Z_scope.

(** [struct dirent]: the buffer of its name and the type. *)
Record dirent : Set := Dirent { d_name : bytes; d_type : Z }.

(** [sys_mkdir] returns its result and [errno], [sys_stat_dir] its result and
    [S_ISDIR(st_mode)]. *)
Record dir_calls (W : Type) : Type := mk_dir_calls {
  sys_mkdir : bytes -> Z -> W -> (Z * Z) * W;
  sys_rmdir : bytes -> W -> Z * W;
  sys_stat_dir : bytes -> W -> (Z * bool) * W;
  sys_opendir : bytes -> W -> option Z * W;
  sys_readdir : Z -> W -> option dirent * W;
  sys_closedir : Z -> W -> W }.
Arguments mk_dir_calls {W}.
Arguments sys_mkdir {W}.
Arguments sys_rmdir {W}.
Arguments sys_stat_dir {W}.
Arguments sys_opendir {W}.
Arguments sys_readdir {W}.
Arguments sys_closedir {W}.

(** Values of the platform's constants. *)
Definition EEXIST : Z := 17.
Definition DT_DIR : Z := 4.
Definition MODE_0755 : Z := 493.
Definition NAME_SIZE : Z := 256.
Definition SIZEOF_DIR_ITER : Z := 8.

(** The string in a buffer. *)
Definition ctext (buf : bytes) : outcome bytes := let! n := strlen buf in rd buf 0 n.
Definition ptext (p : option block) : outcome bytes := match p with Some b => ctext (b_data b) | None => Undef end.

Definition is_sep (c : Z) : bool := bool_decide (c = ch "/") || bool_decide (c = ch "\").

Record zenit_dir_iter_t : Set := DirIter { di_self : addr; di_dir : Z }.
Record zenit_dir_entry_t : Set := DirEntry { de_name : bytes; de_is_directory : Z }.

Section Dir.
Context {W : Type} (os : dir_calls W).
Implicit Types (w : W) (h : heap) (tmp : option block).

(** ** Creating *)

(** The loop that strips the separators at the end. *)
Fixpoint strip_seps (n : nat) tmp (len : Z) : outcome (option block * Z) :=
  match n with
  | O => NoFuel
  | S n =>
      if decide (0 < len) then
        let! c := pget tmp (len - 1) in
        if is_sep c then let! tmp1 := pset tmp (len - 1) NUL in strip_seps n tmp1 (len - 1)
        else Ret (tmp, len)
      else Ret (tmp, len)
  end.

(** [mkdir(tmp, 0755) != 0 && errno != EEXIST], negated. *)
Definition make_one tmp w : outcome (bool * W) :=
  let! t := ptext tmp in
  let '((r, errno), w1) := sys_mkdir os t MODE_0755 w in
  Ret (bool_decide (r = 0) || bool_decide (errno = EEXIST), w1).

(** The loop over the separators, from [p] on. *)
Fixpoint make_parents (n : nat) tmp (p : Z) w : outcome (bool * option block * W) :=
  match n with
  | O => NoFuel
  | S n =>
      let! saved := pget tmp p in
      if decide (saved = NUL) then Ret (true, tmp, w)
      else if is_sep saved then
        let! tmp1 := pset tmp p NUL in
        let! (ok, w1) := make_one tmp1 w in
        let! tmp2 := pset tmp1 p saved in
        if ok then make_parents n tmp2 (p + 1) w1 else Ret (false, tmp2, w1)
      else make_parents n tmp (p + 1) w
  end.

Definition create_dir_recursive (path : bytes) h w : outcome (zenit_error_t * heap * W) :=
  let! len := strlen path in
  match malloc (u64 (len + 1)) h with
  | (None, h1) => Ret (ZENIT_ERROR_ALLOC, h1, w)
  | (tmp, h1) =>
      let! d := rd path 0 (u64 (len + 1)) in
      let! tmp1 := pwr tmp 0 d in
      let! (tmp2, len2) := strip_seps (S (Z.to_nat len)) tmp1 len in
      if decide (len2 = 0) then Ret (ZENIT_OK, free (paddr tmp2) h1, w)
      else
        let! (ok, tmp3, w1) := make_parents (S (Z.to_nat len)) tmp2 1 w in
        if negb ok then Ret (ZENIT_ERROR_NOT_FOUND, free (paddr tmp3) h1, w1)
        else
          let! (ok, w2) := make_one tmp3 w1 in
          if negb ok then Ret (ZENIT_ERROR_NOT_FOUND, free (paddr tmp3) h1, w2)
          else Ret (ZENIT_OK, free (paddr tmp3) h1, w2)
  end.

Definition zenit_dir_exists (path : option bytes) w : outcome (Z * W) :=
  match path with
  | None => Ret (0, w)
  | Some buf =>
      let! p := ctext buf in
      let '((r, isdir), w1) := sys_stat_dir os p w in
      if decide (r <> 0) then Ret (0, w1) else Ret (if (isdir : bool) then 1 else 0, w1)
  end.

Definition zenit_dir_create (path : option bytes) h w : outcome (zenit_error_t * heap * W) :=
  match path with
  | None => Ret (ZENIT_ERROR_NULL, h, w)
  | Some buf =>
      let! (there, w1) := zenit_dir_exists path w in
      if decide (there <> 0) then Ret (ZENIT_OK, h, w1) else create_dir_recursive buf h w1
  end.

Definition zenit_dir_remove (path : option bytes) w : outcome (zenit_error_t * W) :=
  match path with
  | None => Ret (ZENIT_ERROR_NULL, w)
  | Some buf =>
      let! p := ctext buf in
      let '(r, w1) := sys_rmdir os p w in
      if decide (r <> 0) then Ret (ZENIT_ERROR_NOT_FOUND, w1) else Ret (ZENIT_OK, w1)
  end.

(** ** Walking *)

Definition zenit_dir_iter (path : option bytes) h w : outcome (option zenit_dir_iter_t * heap * W) :=
  match path with
  | None => Ret (None, h, w)
  | Some buf =>
      let! p := ctext buf in
      match sys_opendir os p w with
      | (None, w1) => Ret (None, h, w1)
      | (Some dir, w1) =>
          match malloc SIZEOF_DIR_ITER h with
          | (None, h1) => Ret (None, h1, sys_closedir os dir w1)
          | (Some b, h1) => Ret (Some (DirIter (b_addr b) dir), h1, w1)
          end
      end
  end.

Definition zenit_dir_next (iter : option zenit_dir_iter_t) (out_entry : option zenit_dir_entry_t) w
    : outcome (Z * option zenit_dir_entry_t * W) :=
  match iter, out_entry with
  | Some it, Some e =>
      match sys_readdir os (di_dir it) w with
      | (None, w1) => Ret (0, out_entry, w1)
      | (Some entry, w1) =>
          let! name_len := strlen (d_name entry) in
          let name_len := if decide (NAME_SIZE <= name_len) then NAME_SIZE - 1 else name_len in
          let! d := rd (d_name entry) 0 name_len in
          let! name := wr (de_name e) 0 d in
          let! name := aset name name_len NUL in
          Ret (1, Some (DirEntry name (if decide (d_type entry = DT_DIR) then 1 else 0)), w1)
      end
  | _, _ => Ret (0, out_entry, w)
  end.

Definition zenit_dir_iter_destroy (iter : option zenit_dir_iter_t) h w : heap * W :=
  match iter with
  | None => (h, w)
  | Some it => (free (Some (di_self it)) h, sys_closedir os (di_dir it) w)
  end.

(** ** Listing *)

(** The first pass: the entries are counted. *)
Fixpoint count_entries (n : nat) (iter : option zenit_dir_iter_t) (entry : option zenit_dir_entry_t) (count : Z) w
    : outcome (option zenit_dir_entry_t * Z * W) :=
  match n with
  | O => NoFuel
  | S n =>
      let! (r, entry1, w1) := zenit_dir_next iter entry w in
      if decide (r <> 0) then count_entries n iter entry1 (u64 (count + 1)) w1 else Ret (entry1, count, w1)
  end.

(** [dst[c] = name[c]] for [k] characters from [c] on. *)
Fixpoint copy_name (k : nat) (c : Z) (name : bytes) (dst : option block) : outcome (option block) :=
  match k with
  | O => Ret dst
  | S k =>
      let! x := aget name c in
      let! dst1 := pset dst c x in
      copy_name k (u64 (c + 1)) name dst1
  end.

(** [names[i] = p]; [names] is NULL when the first pass found nothing. *)
Definition set_slot (names : option char_array) (i : Z) (p : option block) : outcome (option char_array) :=
  match names with
  | None => Undef
  | Some arr => let! s := aset (ca_slots arr) i p in Ret (Some (CharArray (ca_block arr) s))
  end.

(** The second pass: at most [count] names are copied. *)
Fixpoint fill_names (n : nat) (iter : option zenit_dir_iter_t) (entry : option zenit_dir_entry_t) (names : option char_array)
    (count i : Z) h w : outcome (zenit_error_t * option char_array * Z * heap * W) :=
  match n with
  | O => NoFuel
  | S n =>
      let! (r, entry1, w1) := zenit_dir_next iter entry w in
      if decide (r <> 0 /\ i < count) then
        match entry1 with
        | None => Undef
        | Some e =>
            let! slen := strlen (de_name e) in
            match malloc (u64 (slen + 1)) h with
            | (None, h1) =>
                let! names1 := set_slot names i None in
                Ret (ZENIT_ERROR_ALLOC, names1, i, h1, w1)
            | (p, h1) =>
                let! dst := copy_name (S (Z.to_nat slen)) 0 (de_name e) p in
                let! names1 := set_slot names i dst in
                fill_names n iter entry1 names1 count (u64 (i + 1)) h1 w1
            end
        end
      else Ret (ZENIT_OK, names, i, h, w1)
  end.

(** The names stored so far are freed. *)
Fixpoint free_names (k : nat) (j : Z) (names : option char_array) h : outcome heap :=
  match k with
  | O => Ret h
  | S k =>
      match names with
      | None => Undef
      | Some arr => let! p := aget (ca_slots arr) j in free_names k (u64 (j + 1)) names (free (paddr p) h)
      end
  end.

Definition array_addr (names : option char_array) : option addr := (fun arr => b_addr (ca_block arr)) <$> names.

(** The second half of [zenit_dir_list]: the directory is opened again and its names copied. *)
Definition second_pass (n : nat) (path : option bytes) (out_names : option (option char_array)) (out_count : option Z)
    (entry : option zenit_dir_entry_t) (count : Z) (names : option char_array) h w
    : outcome (zenit_error_t * option (option char_array) * option Z * heap * W) :=
  let! (iter, h1, w1) := zenit_dir_iter path h w in
  if decide (iter = None) then Ret (ZENIT_ERROR_NOT_FOUND, out_names, out_count, free (array_addr names) h1, w1)
  else
    let! (result, names1, i, h2, w2) := fill_names n iter entry names count 0 h1 w1 in
    let '(h3, w3) := zenit_dir_iter_destroy iter h2 w2 in
    if decide (result <> ZENIT_OK) then
      let! h4 := free_names (Z.to_nat i) 0 names1 h3 in
      Ret (result, out_names, out_count, free (array_addr names1) h4, w3)
    else Ret (ZENIT_OK, Some names1, Some i, h3, w3).

Definition zenit_dir_list (n : nat) (path : option bytes) (out_names : option (option char_array)) (out_count : option Z) h w
    : outcome (zenit_error_t * option (option char_array) * option Z * heap * W) :=
  match path, out_names, out_count with
  | Some _, Some _, Some _ =>
      let entry := Some (DirEntry (replicate (Z.to_nat NAME_SIZE) 165) 165) in
      let! (iter, h1, w1) := zenit_dir_iter path h w in
      if decide (iter = None) then Ret (ZENIT_ERROR_NOT_FOUND, out_names, out_count, h1, w1)
      else
        let! (entry1, count, w2) := count_entries n iter entry 0 w1 in
        let '(h2, w3) := zenit_dir_iter_destroy iter h1 w2 in
        if decide (0 < count) then
          match calloc count SIZEOF_PTR h2 with
          | (None, h3) => Ret (ZENIT_ERROR_ALLOC, out_names, out_count, h3, w3)
          | (Some b, h3) =>
              second_pass n path out_names out_count entry1 count (Some (CharArray b (replicate (Z.to_nat count) None))) h3 w3
          end
        else second_pass n path out_names out_count entry1 count None h2 w3
  | _, _, _ => Ret (ZENIT_ERROR_NULL, out_names, out_count, h, w)
  end.
End Dir.
