(* ===== verification/DirCreate.v ===== *)
(** * Directories are created with their parents

    [DirSpec] is what POSIX documents of the directory calls: which paths are there and
    whether they are directories, the entries of a directory, the open streams and how many
    calls the system refused.  [zenit_dir_create] makes every prefix of the path that a
    separator ends, from the shortest on; it fails only when the system refuses a call or a
    prefix is there but is not a directory. *)

From Stdlib Require Import ZArith Lia Ascii String.
From stdpp Require Import base tactics option list numbers gmap sets.
From S2P Require Import Prelude Mem Result Allocator Links Text Str Graph Dir.
Open Scope Z_scope.

(** The text before the last slash, if there is any. *)
Fixpoint before_slash (t : bytes) : option bytes :=
  match t with
  | [] => None
  | c :: t =>
      match before_slash t with
      | Some p => Some (c :: p)
      | None => if decide (c = ch "/") then Some [] else None
      end
  end.
Definition parent (t : bytes) : option bytes :=
  match before_slash t with Some (c :: p) => Some (c :: p) | _ => None end.

(** Nothing disappears, and what is new is a directory. *)
Definition grows (k k' : bytes -> option bool) : Prop :=
  (forall q b, k q = Some b -> k' q = Some b) /\ (forall q, k' q = Some false -> k q = Some false).

Class DirSpec {W : Type} (os : dir_calls W) : Type := {
  kinds : W -> bytes -> option bool;
  entries : W -> bytes -> list dirent;
  streams : W -> gmap Z (list dirent);
  refusals : W -> nat;
  dsame (w w' : W) : Prop := (forall q, kinds w' q = kinds w q) /\ (forall q, entries w' q = entries w q);
  mkdir_law t m w r e w' : t <> [] -> sys_mkdir os t m w = ((r, e), w') -> streams w' = streams w /\
    ((r = 0 /\ refusals w' = refusals w /\ kinds w' t = Some true /\ grows (kinds w) (kinds w')) \/
     (r <> 0 /\ dsame w w' /\
      ((e = EEXIST /\ refusals w' = refusals w /\ is_Some (kinds w t)) \/
       (e <> EEXIST /\ refusals w' = S (refusals w)) \/
       (e <> EEXIST /\ refusals w' = refusals w /\ exists q, parent t = Some q /\ kinds w q <> Some true))));
  stat_law p w r b w' : sys_stat_dir os p w = ((r, b), w') -> dsame w w' /\ streams w' = streams w /\
    ((r = 0 /\ refusals w' = refusals w /\ (b = true <-> kinds w p = Some true)) \/
     (r <> 0 /\ (refusals w' = S (refusals w) \/ refusals w' = refusals w /\ kinds w p = None)));
  opendir_law p w o w' : sys_opendir os p w = (o, w') -> dsame w w' /\
    match o with
    | Some d => streams w !! d = None /\ streams w' = <[d := entries w p]> (streams w) /\ refusals w' = refusals w
    | None => streams w' = streams w /\ (refusals w' = S (refusals w) \/ refusals w' = refusals w /\ kinds w p <> Some true)
    end;
  readdir_law d L w o w' : streams w !! d = Some L -> sys_readdir os d w = (o, w') -> dsame w w' /\
    match o with
    | Some e => exists L', L = e :: L' /\ streams w' = <[d := L']> (streams w) /\ refusals w' = refusals w
    | None => streams w' = streams w /\ (refusals w' = S (refusals w) \/ refusals w' = refusals w /\ L = [])
    end;
  closedir_law d w : is_Some (streams w !! d) -> dsame w (sys_closedir os d w) /\
    streams (sys_closedir os d w) = delete d (streams w) /\ refusals (sys_closedir os d w) = refusals w }.

Lemma grows_refl k k' : (forall q, k' q = k q) -> grows k k'.
Proof. intros H. split; intros; [by rewrite H|by rewrite <- H]. Qed.

Lemma grows_trans k1 k2 k3 : grows k1 k2 -> grows k2 k3 -> grows k1 k3.
Proof. intros [A B] [D E]. split; auto. Qed.

(** ** Paths *)

(** Without the separators at the end. *)
Fixpoint stripped (s : bytes) : bytes :=
  match s with
  | [] => []
  | c :: s => match stripped s with [] => if is_sep c then [] else [c] | t => c :: t end
  end.

(** The prefixes that [create_dir_recursive] makes of [s], then [s]: [done] is the part
    already looked at. *)
Fixpoint cuts (done s : bytes) : list bytes :=
  match s with
  | [] => [done]
  | c :: s => (if is_sep c then [done] else []) ++ cuts (done ++ [c]) s
  end.

Definition made (s : bytes) : list bytes := match s with [] => [] | c :: s => cuts [c] s end.

(** None of the paths [Q] is there as something else than a directory. *)
Definition clean {W : Type} {os : dir_calls W} {DS : DirSpec os} (w : W) (Q : list bytes) : Prop :=
  forall q, q ∈ Q -> kinds w q <> Some false.

Lemma before_slash_split t p : before_slash t = Some p -> exists rest, t = p ++ ch "/" :: rest.
Proof.
  revert p. induction t as [|c t IH]; intros p; [done|]. cbn [before_slash]. destruct (before_slash t) as [q|].
  - intros [= <-]. destruct (IH q eq_refl) as [rest ->]. by exists rest.
  - case_decide as E; [|done]. intros [= <-]. exists t. by rewrite E.
Qed.

Lemma parent_split t q : parent t = Some q -> q <> [] /\ exists rest, t = q ++ ch "/" :: rest.
Proof.
  unfold parent. destruct (before_slash t) as [[|c p]|] eqn:E; [done| |done]. intros [= <-]. split; [done|]. by apply before_slash_split.
Qed.

Lemma stripped_split s : exists t, s = stripped s ++ t /\ forallb is_sep t = true /\
  (forall c, last (stripped s) = Some c -> is_sep c = false).
Proof.
  induction s as [|c s (t & E & F & L)]; [by exists []|]. simpl. destruct (stripped s) as [|d r] eqn:S.
  - simpl in E. subst t. destruct (is_sep c) eqn:C.
    + exists (c :: s). simpl. by rewrite C.
    + exists s. split_and!; try done. by intros ? [= <-].
  - exists t. split_and!; [simpl in *; by rewrite E at 1|done|]. intros x. rewrite last_cons_cons. apply L.
Qed.

Lemma cuts_self done s : (done ++ s) ∈ cuts done s.
Proof.
  revert done. induction s as [|c s IH]; intros done; simpl; [rewrite app_nil_r; by left|].
  apply elem_of_app. right. specialize (IH (done ++ [c])). by rewrite <- app_assoc in IH.
Qed.

(** A prefix that is made is the whole path or ends at a separator. *)
Lemma cuts_cases done s q : q ∈ cuts done s -> done <> [] ->
  q = done ++ s \/ exists c rest, done ++ s = q ++ c :: rest /\ is_sep c = true /\ q <> [].
Proof.
  revert done. induction s as [|c s IH]; intros done; simpl.
  - intros ->%list_elem_of_singleton _. left. by rewrite app_nil_r.
  - intros [Hq|Hq]%elem_of_app Hd.
    + right. destruct (is_sep c) eqn:S; [|set_solver]. apply list_elem_of_singleton in Hq as ->. by exists c, s.
    + apply IH in Hq; [|by destruct done]. by rewrite <- app_assoc in Hq.
Qed.

Section Create.
Context {W : Type} (os : dir_calls W) {DS : DirSpec os} (Q : list bytes).
Implicit Types (w : W).

(** Everything before a separator of [t] is there and among [Q]. *)
Definition walked w (t : bytes) : Prop :=
  forall q c rest, t = q ++ c :: rest -> is_sep c = true -> q <> [] -> is_Some (kinds w q) /\ q ∈ Q.

(** A call was refused, or a path is there that is no directory. *)
Definition blocked w w' : Prop := (refusals w < refusals w')%nat \/ ~ clean w Q.

Lemma walked_grows w w' t : walked w t -> grows (kinds w) (kinds w') -> walked w' t.
Proof. intros H [G _] q c rest E S N. destruct (H q c rest E S N) as [[b Hb] ?]. split; [exists b; auto|done]. Qed.

Lemma walked_snoc w t c : walked w t -> (is_sep c = true -> is_Some (kinds w t) /\ t ∈ Q) -> walked w (t ++ [c]).
Proof.
  intros H Hc q d rest E S N. destruct rest as [|x rest _] using rev_ind.
  - apply app_inj_tail in E as [<- <-]. by apply Hc.
  - rewrite app_comm_cons, app_assoc in E. apply app_inj_tail in E as [-> _]. by apply (H q d rest).
Qed.

Lemma make_one_spec z t junk w : Forall (fun c => 0 < c < 256) t -> t <> [] -> t ∈ Q -> walked w t ->
  exists ok w', make_one os (Some (Block z (t ++ NUL :: junk))) w = Ret (ok, w') /\
    streams w' = streams w /\ grows (kinds w) (kinds w') /\
    if (ok : bool) then refusals w' = refusals w /\ is_Some (kinds w' t) else blocked w w'.
Proof.
  intros Ht Hn HQ Hw. unfold make_one, ptext, ctext. cbn [b_data]. rewrite strlen_app by done. cbn [obind].
  rewrite (rd_app [] t (NUL :: junk)) by done. cbn [obind]. destruct (sys_mkdir os t MODE_0755 w) as [[r e] w'] eqn:E.
  do 2 eexists. split; [done|]. destruct (mkdir_law _ _ _ _ _ _ Hn E) as [ES [(-> & R & K & G)|(Hr & [K _] & F)]].
  { split_and!; [done|done|]. simpl. by rewrite K. }
  split_and!; [done|by apply grows_refl|]. rewrite (bool_decide_false (r = 0)) by done. simpl.
  destruct F as [(-> & R & P)|[(Ne & R)|(Ne & R & q & Pq & Kq)]].
  - rewrite bool_decide_true by done. by rewrite K.
  - rewrite bool_decide_false by done. left. lia.
  - rewrite bool_decide_false by done. right. intros C. destruct (parent_split _ _ Pq) as [Nq [rest Eq]].
    destruct (Hw q (ch "/") rest Eq eq_refl Nq) as [[b Kb] HQq]. destruct b; [done|]. by apply (C q).
Qed.

Lemma make_parents_spec z junk : forall rest n done w, Forall (fun c => 0 < c < 256) (done ++ rest) -> done <> [] ->
  (forall q, q ∈ cuts done rest -> q ∈ Q) -> walked w done -> (length rest < n)%nat ->
  exists ok w', make_parents os n (Some (Block z (done ++ rest ++ NUL :: junk))) (zlen done) w =
      Ret (ok, Some (Block z (done ++ rest ++ NUL :: junk)), w') /\
    streams w' = streams w /\ grows (kinds w) (kinds w') /\
    if (ok : bool) then refusals w' = refusals w /\ walked w' (done ++ rest) else blocked w w'.
Proof.
  induction rest as [|c rest IH]; intros [|n] done w Hc Hd HQ Hw Hn; simpl in Hn; try lia; cbn [make_parents].
  { rewrite (pget_lookup _ _ NUL); [|done|apply zlen_nonneg|].
    2: { simpl. rewrite lookup_app_r; unfold zlen; rewrite Nat2Z.id; [by rewrite Nat.sub_diag|lia]. }
    cbn [obind]. rewrite decide_True by done. rewrite app_nil_r. exists true, w. by split_and!. }
  assert (Hx : 0 < c < 256) by (apply Forall_app in Hc as [_ Hc]; by inversion Hc).
  rewrite (pget_lookup _ _ c); [|done|apply zlen_nonneg|].
  2: { simpl. rewrite lookup_app_r; unfold zlen; rewrite Nat2Z.id; [by rewrite Nat.sub_diag|lia]. }
  cbn [obind]. rewrite decide_False by lia.
  assert (Next : forall w1, walked w1 (done ++ [c]) -> exists ok w',
    make_parents os n (Some (Block z (done ++ (c :: rest) ++ NUL :: junk))) (zlen done + 1) w1 =
      Ret (ok, Some (Block z (done ++ (c :: rest) ++ NUL :: junk)), w') /\
    streams w' = streams w1 /\ grows (kinds w1) (kinds w') /\
    if (ok : bool) then refusals w' = refusals w1 /\ walked w' (done ++ c :: rest) else blocked w1 w').
  { intros w1 H1. destruct (IH n (done ++ [c]) w1) as (ok & w' & E & P); [by rewrite <- app_assoc|by destruct done| |done|lia|].
    - intros q Hq. apply HQ. simpl. apply elem_of_app. by right.
    - exists ok, w'. rewrite <- !app_assoc in *. simpl in *. replace (zlen done + 1) with (zlen (done ++ [c])) by zl. done. }
  destruct (is_sep c) eqn:Sc.
  2: { apply Next. apply walked_snoc; [done|by rewrite Sc]. }
  assert (HT : done ∈ Q) by (apply HQ; simpl; rewrite Sc; by left).
  simpl app. rewrite pset_emit by done. cbn [obind]. rewrite <- app_assoc. simpl app.
  destruct (make_one_spec z done (rest ++ NUL :: junk) w) as (ok & w1 & -> & S1 & G1 & P1); try done.
  { by apply Forall_app in Hc as [? _]. }
  cbn [obind]. rewrite pset_emit by done. cbn [obind]. rewrite <- app_assoc. simpl app. destruct ok.
  2: { exists false, w1. by split_and!. }
  destruct P1 as [R1 K1]. destruct (Next w1) as (ok & w' & E & S2 & G2 & P2).
  { apply walked_snoc; [by eapply walked_grows|done]. }
  exists ok, w'. split; [exact E|]. split_and!; [congruence|by eapply grows_trans|].
  destruct ok; [destruct P2; split; [congruence|done]|].
  destruct P2 as [R2|C]; [left; lia|right]. intros C'. apply C. intros q Hq Hf. apply (C' q Hq). by apply G1.
Qed.
End Create.

Lemma strip_seps_spec z r : (forall c, last r = Some c -> is_sep c = false) -> forall t n junk, forallb is_sep t = true ->
  (length t < n)%nat ->
  exists junk', strip_seps n (Some (Block z (r ++ t ++ NUL :: junk))) (zlen (r ++ t)) = Ret (Some (Block z (r ++ NUL :: junk')), zlen r).
Proof.
  intros Hr. induction t as [|c t IH] using rev_ind; intros [|n] junk Ht Hn; try (rewrite ?length_app in Hn; simpl in Hn; lia).
  - exists junk. rewrite app_nil_r. simpl app. cbn [strip_seps]. case_decide as Hp; [|done].
    destruct r as [|x r _] using rev_ind; [done|].
    rewrite (pget_lookup _ _ x); [|done|lia|].
    2: { simpl. rewrite <- app_assoc. replace (Z.to_nat _) with (length r) by (unfold zlen; rewrite length_app; simpl; lia).
         rewrite lookup_app_r by lia. by rewrite Nat.sub_diag. }
    cbn [obind]. by rewrite (Hr x) by (by rewrite last_snoc).
  - rewrite forallb_app in Ht. apply andb_prop in Ht as [Ht Hc]. simpl in Hc. rewrite andb_true_r in Hc.
    rewrite length_app in Hn. simpl in Hn. cbn [strip_seps].
    rewrite decide_True by zl. replace (zlen (r ++ t ++ [c]) - 1) with (zlen (r ++ t)) by zl.
    replace (r ++ (t ++ [c]) ++ NUL :: junk) with ((r ++ t) ++ c :: NUL :: junk) by (by rewrite <- !app_assoc).
    rewrite (pget_lookup _ _ c); [|done|apply zlen_nonneg|].
    2: { simpl. unfold zlen. rewrite Nat2Z.id, lookup_app_r by lia. by rewrite Nat.sub_diag. }
    cbn [obind]. rewrite Hc, pset_emit by done. cbn [obind].
    destruct (IH n (NUL :: junk) Ht ltac:(lia)) as [junk' E]. exists junk'. rewrite <- E. by rewrite <- !app_assoc.
Qed.

Section Correct.
Context {W : Type} (os : dir_calls W) {DS : DirSpec os}.
Implicit Types (w : W).

Lemma create_recursive_spec buf s h w : cstr buf s -> zlen s < PTRDIFF_MAX ->
  exists e h' w', create_dir_recursive os buf h w = Ret (e, h', w') /\ h_live h' = h_live h /\
    streams w' = streams w /\ grows (kinds w) (kinds w') /\
    match e with
    | ZENIT_OK => refusals w' = refusals w /\ forall q, q ∈ made (stripped s) -> is_Some (kinds w' q)
    | ZENIT_ERROR_NOT_FOUND => (refusals w < refusals w')%nat \/ ~ clean w (made (stripped s))
    | ZENIT_ERROR_ALLOC => exists h1, malloc (zlen s + 1) h = (None, h1)
    | _ => False
    end.
Proof.
  intros (rest & -> & Hs) L. unfold create_dir_recursive. rewrite strlen_app by done. cbn [obind].
  pose proof (zlen_nonneg s). rewrite u64_small by lia. destruct (malloc (zlen s + 1) h) as [[[z room]|] h1] eqn:M.
  2: { eexists _, _, w. split; [done|]. apply malloc_none in M as M'. split_and!; try done. by exists h1. }
  apply malloc_some in M as (Lz & _ & Fr & Lv). simpl in Lz, Fr, Lv.
  assert (Free : h_live (free (Some z) h1) = h_live h) by (simpl; rewrite Lv; set_solver).
  replace (s ++ NUL :: rest) with ((s ++ [NUL]) ++ rest) by (by rewrite <- app_assoc).
  rewrite (rd_app [] (s ++ [NUL]) rest) by (done || zl). cbn [obind pwr b_data b_addr].
  rewrite wr_whole by zl. cbn [obind]. destruct (stripped_split s) as (t & E & Ht & Hl). set (r := stripped s) in *.
  assert (Z.to_nat (zlen s) = length s) as -> by (unfold zlen; lia).
  destruct (strip_seps_spec z r Hl t (S (length s)) [] Ht) as [junk Es]; [rewrite E, length_app; lia|].
  rewrite app_assoc, <- E in Es. rewrite Es. cbn [obind].
  destruct r as [|c r'] eqn:R.
  { rewrite decide_True by done. eexists _, _, w. split; [done|]. split_and!; try done. set_solver. }
  rewrite decide_False by zl.
  assert (Hc : Forall (fun c => 0 < c < 256) ([c] ++ r')) by (rewrite E in Hs; by apply Forall_app in Hs as [? _]).
  assert (Hw : walked os (made (c :: r')) w [c]).
  { intros [|a [|]] d u; [by intros ? ? []|done|done]. }
  destruct (make_parents_spec os (made (c :: r')) z junk r' (S (length s)) [c] w) as (ok & w1 & Ep & S1 & G1 & P1); try done.
  { rewrite E, length_app. simpl. lia. }
  change (zlen [c]) with 1 in Ep. simpl app in Ep. simpl app. rewrite Ep. cbn [obind negb]. destruct ok; cbn [negb].
  2: { eexists _, _, w1. split; [done|]. by split_and!. }
  destruct P1 as [R1 W1].
  destruct (make_one_spec os (made (c :: r')) z (c :: r') junk w1) as (ok & w2 & Eo & S2 & G2 & P2); try done.
  { apply (cuts_self [c]). }
  simpl app in Eo. rewrite Eo. cbn [obind]. assert (G := grows_trans _ _ _ G1 G2). destruct ok; cbn [negb].
  - destruct P2 as [R2 K2]. eexists _, _, w2. split; [done|]. split_and!; [done|congruence|done|congruence|].
    intros q Hq. apply cuts_cases in Hq as [->|(d & u & Hq & Sd & Nq)]; [done| |done].
    assert (is_Some (kinds w1 q)) as [b Kb]; [|exists b; by apply G2]. by apply (W1 q d u).
  - eexists _, _, w2. split; [done|]. split_and!; [done|congruence|done|].
    destruct P2 as [R2|C]; [left; lia|right]. intros C'. apply C. intros q Hq Hf. apply (C' q Hq). by apply G1.
Qed.

End Correct.

(** ** Directories in memory

    The paths that are there with their kinds, the entries of directories, and a plan that
    says which of the next calls are refused. *)
Record memdirs_state : Type := MemDirs {
  md_kinds : gmap bytes bool;
  md_entries : gmap bytes (list dirent);
  md_streams : gmap Z (list dirent);
  md_refusals : nat;
  md_plan : list bool }.

Definition md_refuses (m : memdirs_state) : bool := default false (head (md_plan m)).
Definition md_refuse (m : memdirs_state) : memdirs_state :=
  MemDirs (md_kinds m) (md_entries m) (md_streams m) (S (md_refusals m)) (tail (md_plan m)).
Definition md_with (k : gmap bytes bool) (s : gmap Z (list dirent)) (m : memdirs_state) : memdirs_state :=
  MemDirs k (md_entries m) s (md_refusals m) (tail (md_plan m)).

Definition mem_mkdir (t : bytes) (mode : Z) (m : memdirs_state) : (Z * Z) * memdirs_state :=
  let same := md_with (md_kinds m) (md_streams m) m in
  if md_refuses m then ((-1, 13), md_refuse m)
  else match md_kinds m !! t with
       | Some _ => ((-1, EEXIST), same)
       | None =>
           match parent t with
           | Some q => if decide (md_kinds m !! q = Some true) then ((0, 0), md_with (<[t := true]> (md_kinds m)) (md_streams m) m)
                       else ((-1, 2), same)
           | None => ((0, 0), md_with (<[t := true]> (md_kinds m)) (md_streams m) m)
           end
       end.

Definition mem_rmdir (t : bytes) (m : memdirs_state) : Z * memdirs_state :=
  if md_refuses m then (-1, md_refuse m)
  else if decide (md_kinds m !! t = Some true) then (0, md_with (delete t (md_kinds m)) (md_streams m) m)
  else (-1, md_with (md_kinds m) (md_streams m) m).

Definition mem_stat_dir (t : bytes) (m : memdirs_state) : (Z * bool) * memdirs_state :=
  if md_refuses m then ((-1, false), md_refuse m)
  else match md_kinds m !! t with
       | Some b => ((0, b), md_with (md_kinds m) (md_streams m) m)
       | None => ((-1, false), md_with (md_kinds m) (md_streams m) m)
       end.

Definition fresh_stream (m : memdirs_state) : Z := 1 + foldr Z.max 0 (map_to_list (md_streams m)).*1.

Definition mem_opendir (t : bytes) (m : memdirs_state) : option Z * memdirs_state :=
  if md_refuses m then (None, md_refuse m)
  else if decide (md_kinds m !! t = Some true) then
    (Some (fresh_stream m), md_with (md_kinds m) (<[fresh_stream m := default [] (md_entries m !! t)]> (md_streams m)) m)
  else (None, md_with (md_kinds m) (md_streams m) m).

Definition mem_readdir (d : Z) (m : memdirs_state) : option dirent * memdirs_state :=
  if md_refuses m then (None, md_refuse m)
  else match md_streams m !! d with
       | Some (e :: l) => (Some e, md_with (md_kinds m) (<[d := l]> (md_streams m)) m)
       | _ => (None, md_with (md_kinds m) (md_streams m) m)
       end.

Definition mem_closedir (d : Z) (m : memdirs_state) : memdirs_state :=
  MemDirs (md_kinds m) (md_entries m) (delete d (md_streams m)) (md_refusals m) (md_plan m).

Definition memdirs : dir_calls memdirs_state :=
  mk_dir_calls mem_mkdir mem_rmdir mem_stat_dir mem_opendir mem_readdir mem_closedir.

Lemma fresh_stream_fresh m : md_streams m !! fresh_stream m = None.
Proof.
  assert (B : forall l x, x ∈ l -> x <= foldr Z.max 0 l).
  { induction l as [|y l IH]; intros x Hx; [by apply elem_of_nil in Hx|].
    apply elem_of_cons in Hx as [->|Hx]; simpl; [lia|]. specialize (IH _ Hx). lia. }
  destruct (md_streams m !! fresh_stream m) as [f|] eqn:E; [|done]. exfalso.
  apply elem_of_map_to_list, (list_elem_of_fmap_2 fst), B in E. unfold fresh_stream in E. simpl in E. lia.
Qed.

Lemma mkdir_grows (k : gmap bytes bool) t : k !! t = None -> grows (fun q => k !! q) (fun q => <[t := true]> k !! q).
Proof.
  intros E. split; intros q; [intros b H|intros H].
  - rewrite lookup_insert_ne; [done|]. intros <-. congruence.
  - by apply lookup_insert_Some in H as [[_ [=]]|[_ H]].
Qed.

#[export] Program Instance memdirs_spec : DirSpec memdirs := {|
  kinds m q := md_kinds m !! q;
  entries m q := default [] (md_entries m !! q);
  streams := md_streams;
  refusals := md_refusals |}.
Next Obligation.
  intros t md m r e m' Ht. simpl. unfold mem_mkdir. destruct (md_refuses m); [intros [= <- <- <-]; split; [done|right]; naive_solver|].
  destruct (md_kinds m !! t) as [b|] eqn:K.
  { intros [= <- <- <-]. split; [done|right]. split; [done|split; [done|]]. left. by split_and!. }
  destruct (parent t) as [q|] eqn:P; [case_decide as D|]; intros [= <- <- <-]; (split; [done|]); simpl.
  2: { right. split; [done|split; [done|]]. right. right. split_and!; [done|done|]. by exists q. }
  all: left; (split; [done|split; [done|split; [apply lookup_insert_eq|by apply mkdir_grows]]]).
Qed.
Next Obligation.
  intros p m r b m'. simpl. unfold mem_stat_dir. destruct (md_refuses m); [intros [= <- <- <-]; split; [done|split; [done|]]; right; split; [done|by left]|].
  destruct (md_kinds m !! p) as [[]|] eqn:K; intros [= <- <- <-]; (split; [done|split; [done|]]); simpl; try (left; split_and!; by rewrite ?K).
  right. split; [done|]. by right.
Qed.
Next Obligation.
  intros p m o m'. simpl. unfold mem_opendir. destruct (md_refuses m); [intros [= <- <-]; split; [done|]; split; [done|by left]|].
  case_decide; intros [= <- <-]; (split; [done|]); simpl; [split_and!; [apply fresh_stream_fresh|done|done]|]. split; [done|by right].
Qed.
Next Obligation.
  intros d L m o m' E. simpl in *. unfold mem_readdir. rewrite E. destruct (md_refuses m); [intros [= <- <-]; split; [done|]; split; [done|by left]|].
  destruct L as [|x L]; intros [= <- <-]; (split; [done|]); simpl; [split; [done|by right]|]. by exists L.
Qed.
Next Obligation. done. Qed.

(** ** Examples and departures *)

Definition entry_of (s : bytes) (t : Z) : dirent := Dirent (s ++ [NUL]) t.

(** A directory with two entries and a regular file. *)
Definition some_dirs (plan : list bool) : memdirs_state :=
  MemDirs (<[lit "d"%string := true]> (<[lit "f"%string := false]> ∅))
    (<[lit "d"%string := [entry_of (lit "x"%string) 8; entry_of (lit "yz"%string) DT_DIR]]> ∅) ∅ 0 plan.


(** A regular file is in the way: [zenit_dir_create] reports success and there is no
    directory. *)
Theorem dir_create_over_file :
  match zenit_dir_create memdirs (Some (lit "f"%string ++ [NUL])) empty_heap (some_dirs []) with
  | Ret (e, _, w') => e = ZENIT_OK /\ kinds w' (lit "f"%string) = Some false
  | _ => False
  end.
Proof. vm_compute. done. Qed.
