(* ===== verification/DirList.v ===== *)
(** * Directories are listed completely

    [zenit_dir_list] counts the entries in a first pass and copies their names in a second:
    it returns the names of the directory, cut to 255 characters, each in a block of its own,
    or gives all memory back.  A name is missing only when the system refused a call. *)

From Stdlib Require Import ZArith Lia Ascii String.
From stdpp Require Import base tactics option list numbers gmap sets.
From S2P Require Import Prelude Mem Result Allocator Links Text Str Graph Dir DirCreate.
Open Scope Z_scope.

(** What fits in [zenit_dir_entry_t]. *)
Definition cut (s : bytes) : bytes := take 255 s.

Definition texts (L : list dirent) (S : list bytes) : Prop := Forall2 (fun e s => cstr (d_name e) s) L S.

(** The failures the heap still has planned. *)
Definition later (h h' : heap) : Prop := forall b, b ∈ h_fail h' -> b ∈ h_fail h.

Lemma later_trans h1 h2 h3 : later h1 h2 -> later h2 h3 -> later h1 h3.
Proof. intros A B b H. auto. Qed.

Lemma malloc_later n h p h' : malloc n h = (p, h') -> later h h'.
Proof.
  unfold malloc. destruct (h_refuse n h); intros [= <- <-] b; simpl; destruct (h_fail h); simpl; set_solver.
Qed.

Lemma malloc_planned n h h' : 0 <= n <= PTRDIFF_MAX -> malloc n h = (None, h') -> true ∈ h_fail h.
Proof.
  intros Hn. unfold malloc. destruct (h_refuse n h) eqn:E; [intros _|done]. unfold h_refuse in E.
  rewrite !bool_decide_false in E by lia. simpl in E. destruct (h_fail h) as [|b l]; [done|]. simpl in E. subst b. by left.
Qed.

Abbreviation mowns := (owns ZENIT_ALLOCATOR_DEFAULT).

Lemma mowns_alloc h0 h L n b h' : mowns h0 h L -> malloc n h = (Some b, h') -> mowns h0 h' (b_addr b :: L).
Proof. exact (owns_alloc ZENIT_ALLOCATOR_DEFAULT h0 h L n b h'). Qed.

Lemma mowns_none h0 h L n h' : mowns h0 h L -> malloc n h = (None, h') -> mowns h0 h' L.
Proof. intros O M. eapply (owns_same ZENIT_ALLOCATOR_DEFAULT); [exact O|]. by eapply malloc_none. Qed.

Lemma mowns_free h0 h x L : mowns h0 h (x :: L) -> mowns h0 (free (Some x) h) L.
Proof. exact (owns_free ZENIT_ALLOCATOR_DEFAULT h0 h x L). Qed.

Lemma mowns_nil h0 h : mowns h0 h [] -> h_live h = h_live h0.
Proof. exact (owns_nil ZENIT_ALLOCATOR_DEFAULT h0 h). Qed.

Section List.
Context {W : Type} (os : dir_calls W) {DS : DirSpec os}.
Implicit Types (w : W) (L : list dirent) (S : list bytes).

(** Calls that only read. *)
Definition looked w w' : Prop := dsame w w' /\ (refusals w <= refusals w')%nat.

Lemma looked_refl w : looked w w.
Proof. done. Qed.

Lemma looked_trans w1 w2 w3 : looked w1 w2 -> looked w2 w3 -> looked w1 w3.
Proof.
  intros [[A B] C] [[D E] F]. split; [split|lia]; intros q; [by rewrite D|by rewrite E].
Qed.

Lemma next_spec it e L S w : streams w !! di_dir it = Some L -> texts L S -> zlen (de_name e) = NAME_SIZE ->
  exists r e' w', zenit_dir_next os (Some it) (Some e) w = Ret (r, Some e', w') /\ zlen (de_name e') = NAME_SIZE /\ looked w w' /\
  ((r = 1 /\ exists x L' s S', L = x :: L' /\ S = s :: S' /\ texts L' S' /\ cstr (de_name e') (cut s) /\
      streams w' = <[di_dir it := L']> (streams w) /\ refusals w' = refusals w) \/
   (r = 0 /\ streams w' = streams w /\ (refusals w' = Datatypes.S (refusals w) \/ refusals w' = refusals w /\ L = []))).
Proof.
  intros E T B. unfold zenit_dir_next. destruct (sys_readdir os (di_dir it) w) as [[x|] w'] eqn:R.
  2: { destruct (readdir_law _ _ _ _ _ E R) as (D & S1 & P). exists 0, e, w'. split_and!; try done; [|by right].
       split; [done|]. destruct P as [->|[-> _]]; lia. }
  destruct (readdir_law _ _ _ _ _ E R) as (D & L' & -> & S1 & R1). inversion T as [|? s ? S' Hx HT]; subst.
  destruct Hx as (rest & Ex & Hs). rewrite Ex, strlen_app by done. cbn [obind].
  set (k := if decide _ then _ else _). unfold NAME_SIZE in *.
  assert (Hk : k = zlen (cut s)) by (unfold k, cut; rewrite zlen_take; case_decide; lia).
  assert (Hc : zlen (cut s) <= 255) by (unfold cut; rewrite zlen_take; lia).
  assert (Es : s ++ NUL :: rest = cut s ++ (drop 255 s ++ NUL :: rest)) by (unfold cut; by rewrite app_assoc, take_drop).
  rewrite Es, Hk. pose proof (rd_app [] (cut s) (drop 255 s ++ NUL :: rest) 0 (zlen (cut s)) eq_refl eq_refl) as Rd.
  cbn [app] in Rd. rewrite Rd. cbn [obind].
  destruct (list_split_at (de_name e) (zlen (cut s))) as (d1 & d2 & Ed & L1); [pose proof (zlen_nonneg (cut s)); lia|].
  rewrite Ed. pose proof (wr_app [] d1 (cut s) d2 0 eq_refl (eq_sym L1)) as Wr. cbn [app] in Wr. rewrite Wr. cbn [obind].
  destruct (room_cons d2) as (y & room & -> & Lr); [rewrite Ed in B; zl|].
  rewrite (aset_split _ (cut s) y NUL room) by done. cbn [obind].
  eexists 1, _, w'. split; [done|]. cbn [de_name]. split; [rewrite Ed in B; zl|]. split; [split; [done|lia]|]. left. split; [done|].
  exists x, L', s, S'. split_and!; try done. exists room. split; [by rewrite <- app_assoc|]. unfold cut. by apply Forall_take.
Qed.

Lemma count_spec it d0 : di_dir it = d0 -> forall n L S e k w, streams w !! d0 = Some L -> texts L S -> zlen (de_name e) = NAME_SIZE ->
  (length L < n)%nat -> 0 <= k -> k + zlen L < two64 ->
  exists e' c L' w', count_entries os n (Some it) (Some e) k w = Ret (Some e', c, w') /\ zlen (de_name e') = NAME_SIZE /\ looked w w' /\
    streams w' = <[d0 := L']> (streams w) /\ k <= c <= k + zlen L /\ (refusals w' = refusals w -> c = k + zlen L).
Proof.
  intros <-. induction n as [|n IH]; intros L S e k w E T B Hn Hk Hb; [lia|]. cbn [count_entries].
  destruct (next_spec it e L S w E T B) as (r & e1 & w1 & -> & B1 & K1 & [(-> & x & L' & s & S' & -> & -> & T' & _ & S1 & R1)|(-> & S1 & P)]);
    cbn [obind].
  - rewrite decide_True by done. rewrite u64_small by zl.
    destruct (IH L' S' e1 (k + 1) w1) as (e' & c & L2 & w' & -> & B2 & K2 & S2 & Hc & Rc); try done; [by rewrite S1, lookup_insert_eq|simpl in Hn; lia|lia|zl|].
    exists e', c, L2, w'. split_and!; try done; [by eapply looked_trans|by rewrite S2, S1, insert_insert_eq|lia|zl|].
    intros R. rewrite zlen_cons, Rc; [lia|]. congruence.
  - rewrite decide_False by naive_solver. exists e1, k, L, w1. pose proof (zlen_nonneg L).
    split_and!; try done; [by rewrite S1, insert_id|lia|]. intros R. destruct P as [P|[_ ->]]; [lia|]. by rewrite zlen_nil, Z.add_0_r.
Qed.

(** The copy of a name into a block of its size. *)
Lemma copy_name_spec z name t rest : name = t ++ rest -> zlen t < two64 -> forall k done todo room, t = done ++ todo ->
  k = length todo -> zlen room = zlen todo ->
  copy_name k (zlen done) name (Some (Block z (done ++ room))) = Ret (Some (Block z t)).
Proof.
  intros -> Lt k done todo. revert k done. induction todo as [|x todo IH]; intros k done room E -> Lr; cbn [copy_name length].
  - apply zlen_0 in Lr as ->. by rewrite E.
  - destruct room as [|y room]; [zl|]. rewrite (aget_split _ done x (todo ++ rest)) by (done || by rewrite E, <- app_assoc).
    cbn [obind]. rewrite pset_emit by done. cbn [obind]. pose proof (zlen_nonneg todo). pose proof (zlen_nonneg done).
    rewrite u64_small by (rewrite E in Lt; zl). replace (zlen done + 1) with (zlen (done ++ [x])) by zl.
    apply (IH (length todo)); [by rewrite <- app_assoc|done|zl].
Qed.

(** The array with the names [S] in the blocks [toks]. *)
Definition named (toks : list block) S : Prop := Forall2 (fun b s => b_data b = cut s ++ [NUL]) toks S.

Lemma fill_names_spec it d0 arr count h0 : di_dir it = d0 -> 0 <= count < two64 -> forall n L S e toks S0 h w,
  streams w !! d0 = Some L -> texts L S -> zlen (de_name e) = NAME_SIZE -> (length L < n)%nat -> named toks S0 ->
  zlen toks <= count -> mowns h0 h (b_addr arr :: di_self it :: (b_addr <$> toks)) ->
  exists res toks' S1 S2 room i h' w' L',
  fill_names os n (Some it) (Some e) (Some (CharArray arr ((Some <$> toks) ++ replicate (Z.to_nat (count - zlen toks)) None)))
    count (zlen toks) h w = Ret (res, Some (CharArray arr ((Some <$> toks') ++ room)), i, h', w') /\
  S = S1 ++ S2 /\ named toks' (S0 ++ S1) /\ i = zlen toks' /\ zlen toks' <= count /\
  mowns h0 h' (b_addr arr :: di_self it :: (b_addr <$> toks')) /\ later h h' /\ looked w w' /\ streams w' = <[d0 := L']> (streams w) /\
  match res with
  | ZENIT_OK => refusals w' = refusals w -> S2 = [] \/ zlen toks' = count
  | ZENIT_ERROR_ALLOC => true ∈ h_fail h
  | _ => False
  end.
Proof.
  intros <- HC. induction n as [|n IH]; intros L S e toks S0 h w E T B Hn Hnm Hi Ho; [lia|]. cbn [fill_names].
  destruct (next_spec it e L S w E T B) as (r & e1 & w1 & -> & B1 & K1 & [(-> & x & L' & s & S' & -> & -> & T' & Hcs & S1 & R1)|(-> & S1 & P)]);
    cbn [obind].
  2: { rewrite decide_False by naive_solver. eexists ZENIT_OK, toks, [], S, _, _, h, w1, L. rewrite (app_nil_r S0).
       split; [reflexivity|]. split_and!; try done; try (by rewrite S1, insert_id); [by intros b|]. intros R. left. destruct P as [P|[_ ->]]; [lia|]. by inversion T. }
  case_decide as Hc.
  2: { eexists ZENIT_OK, toks, [], (s :: S'), _, _, h, w1, L'. rewrite (app_nil_r S0). split; [reflexivity|]. split_and!; try done; [by intros b|].
       intros _. right. destruct (decide (zlen toks < count)); [naive_solver|lia]. }
  destruct Hc as [_ Hc]. destruct Hcs as (rest & En & Hs). rewrite En, strlen_app by done. cbn [obind].
  assert (Lc : 0 <= zlen (cut s) <= 255) by (unfold cut; rewrite zlen_take; pose proof (zlen_nonneg s); lia).
  rewrite u64_small by lia. pose proof (zlen_nonneg toks) as Lt.
  destruct (Z.to_nat (count - zlen toks)) as [|m] eqn:Em; [lia|]. cbn [replicate].
  assert (Lf : zlen (Some <$> toks) = zlen toks) by (unfold zlen; by rewrite length_fmap).
  destruct (malloc (zlen (cut s) + 1) h) as [[[z room]|] h1] eqn:M.
  2: { cbn [set_slot ca_slots ca_block]. rewrite (aset_split _ (Some <$> toks) None None (replicate m None)) by done. cbn [obind].
       eexists ZENIT_ERROR_ALLOC, toks, [], (s :: S'), _, _, h1, w1, L'. rewrite (app_nil_r S0), <- app_assoc. split; [reflexivity|].
       split_and!; try done; [by eapply mowns_none|by eapply malloc_later|]. by eapply malloc_planned; [|exact M]; lia. }
  apply malloc_some in M as M'. destruct M' as (Lz & _). cbn [b_data] in Lz.
  assert (Ho1 := mowns_alloc _ _ _ _ _ _ Ho M). cbn [b_addr] in Ho1.
  rewrite (copy_name_spec z (cut s ++ NUL :: rest) (cut s ++ [NUL]) rest (app_assoc _ [NUL] rest) ltac:(zl) _ [] (cut s ++ [NUL]) room);
    [|done|rewrite length_app; unfold zlen; simpl; lia|zl].
  cbn [obind set_slot ca_slots ca_block]. rewrite (aset_split _ (Some <$> toks) None (Some (Block z (cut s ++ [NUL]))) (replicate m None)) by done.
  cbn [obind]. rewrite u64_small by lia. set (b := Block z (cut s ++ [NUL])).
  destruct (IH L' S' e1 (toks ++ [b]) (S0 ++ [s]) h1 w1) as (res & toks' & T1 & T2 & room' & i & h' & w' & L2 & Ef & ES & Hnm' & Hi' & Hc' & Ho' & Hl' & Hk' & Sw & Q); try done.
  { by rewrite S1, lookup_insert_eq. }
  { simpl in Hn. lia. }
  { apply Forall2_app; [done|]. constructor; [done|constructor]. }
  { zl. }
  { eapply owns_perm; [exact Ho1|]. rewrite fmap_app. simpl. change (b_addr b) with z. solve_Permutation. }
  exists res, toks', (s :: T1), T2, room', i, h', w', L2.
  split.
  { rewrite <- Ef. rewrite fmap_app, <- !app_assoc. simpl. rewrite zlen_app. change (zlen [b]) with 1. do 4 f_equal. do 2 f_equal. f_equal. f_equal. lia. }
  split_and!; try done.
  - simpl. by rewrite ES.
  - by rewrite <- app_assoc in Hnm'.
  - eapply later_trans; [by eapply malloc_later|done].
  - by eapply looked_trans.
  - by rewrite Sw, S1, insert_insert_eq.
  - destruct res; try done; [intros R; apply Q; congruence|]. by eapply malloc_later; [exact M|].
Qed.

Lemma free_names_spec arr room : forall (toks : list block) pre h h0 (O : list addr), zlen (pre ++ (Some <$> toks)) < two64 ->
  mowns h0 h (O ++ (b_addr <$> toks)) ->
  exists h', free_names (length toks) (zlen pre) (Some (CharArray arr (pre ++ (Some <$> toks) ++ room))) h = Ret h' /\
    mowns h0 h' O /\ later h h'.
Proof.
  induction toks as [|b toks IH]; intros pre h h0 O Hl Ho; cbn [free_names length].
  { exists h. simpl in Ho. rewrite app_nil_r in Ho. by split_and!; [| |intros ?]. }
  cbn [ca_slots]. rewrite (aget_split _ pre (Some b) ((Some <$> toks) ++ room)) by done. cbn [obind paddr fmap option_fmap option_map].
  rewrite fmap_cons in *. pose proof (zlen_nonneg pre). pose proof (zlen_nonneg (Some <$> toks)). rewrite u64_small by zl.
  replace (zlen pre + 1) with (zlen (pre ++ [Some b])) by zl.
  destruct (IH (pre ++ [Some b]) (free (Some (b_addr b)) h) h0 O) as (h' & E & O' & F).
  - rewrite <- app_assoc. done.
  - apply mowns_free. eapply owns_perm; [exact Ho|]. rewrite fmap_cons. solve_Permutation.
  - exists h'. rewrite <- app_assoc in E. by split_and!.
Qed.

Lemma iter_spec buf p h w : cstr buf p ->
  exists o h' w', zenit_dir_iter os (Some buf) h w = Ret (o, h', w') /\ looked w w' /\ later h h' /\
  match o with
  | None => h_live h' = h_live h /\ streams w' = streams w /\
      (kinds w p <> Some true \/ (refusals w < refusals w')%nat \/ true ∈ h_fail h)
  | Some it => streams w !! di_dir it = None /\ streams w' = <[di_dir it := entries w p]> (streams w) /\
      refusals w' = refusals w /\ forall h0 O, mowns h0 h O -> mowns h0 h' (di_self it :: O)
  end.
Proof.
  intros (rest & -> & Hp). unfold zenit_dir_iter, ctext. rewrite strlen_app by done. cbn [obind].
  rewrite (rd_app [] p (NUL :: rest)) by done. cbn [obind].
  destruct (sys_opendir os p w) as [[d|] w1] eqn:O; destruct (opendir_law _ _ _ _ O) as [D P].
  - destruct P as (F & S1 & R1). destruct (malloc SIZEOF_DIR_ITER h) as [[b|] h1] eqn:M.
    + eexists (Some _), h1, w1. split; [done|]. split; [split; [done|lia]|]. split; [by eapply malloc_later|]. simpl.
      split_and!; try done. intros h0 L H. by eapply mowns_alloc.
    + assert (is_Some (streams w1 !! d)) as Hd by (by rewrite S1, lookup_insert_eq).
      destruct (closedir_law d w1 Hd) as (D2 & S2 & R2). eexists None, h1, _. split; [done|].
      split; [eapply looked_trans; split; [exact D|lia|exact D2|lia]|]. split; [by eapply malloc_later|].
      split_and!; [by eapply malloc_none|by rewrite S2, S1, delete_insert_id|]. right. right. by eapply malloc_planned; [|exact M].
  - destruct P as (S1 & P). eexists None, h, w1. split; [done|]. split; [split; [done|destruct P as [->|[-> _]]; lia]|].
    split; [by intros b|]. split_and!; [done|done|]. destruct P as [P|[_ P]]; [right; left; lia|by left].
Qed.

Lemma iter_destroy_spec it w0 h w L : streams w = <[di_dir it := L]> (streams w0) -> streams w0 !! di_dir it = None ->
  exists w', zenit_dir_iter_destroy os (Some it) h w = (free (Some (di_self it)) h, w') /\
    looked w w' /\ streams w' = streams w0 /\ refusals w' = refusals w.
Proof.
  intros S F. assert (is_Some (streams w !! di_dir it)) as H by (by rewrite S, lookup_insert_eq).
  destruct (closedir_law _ _ H) as (D & S1 & R). eexists. split; [done|]. split; [split; [done|lia]|].
  split; [|done]. by rewrite S1, S, delete_insert_id.
Qed.

(** What a listing of the directory [p] with the names [S] may return. *)
Definition listed w p S h o0 k0 e ns (k : Z) h' w' : Prop :=
  looked w w' /\ streams w' = streams w /\
  match e with
  | ZENIT_OK => exists toks S1 S2, S = S1 ++ S2 /\ named toks S1 /\ k = zlen toks /\ (refusals w' = refusals w -> S2 = []) /\
      match ns with
      | None => toks = [] /\ h_live h' = h_live h
      | Some arr => (exists room, ca_slots arr = (Some <$> toks) ++ room) /\
          mowns h h' (b_addr (ca_block arr) :: (b_addr <$> toks))
      end
  | ZENIT_ERROR_NOT_FOUND => ns = o0 /\ k = k0 /\ h_live h' = h_live h /\
      (kinds w p <> Some true \/ (refusals w < refusals w')%nat \/ true ∈ h_fail h)
  | ZENIT_ERROR_ALLOC => ns = o0 /\ k = k0 /\ h_live h' = h_live h /\ (true ∈ h_fail h \/ PTRDIFF_MAX < 8 * zlen S)
  | _ => False
  end.

Lemma owns_array_free h0 h (names : option char_array) : mowns h0 h (opt_addr (array_addr names)) ->
  h_live (free (array_addr names) h) = h_live h0.
Proof.
  intros H. apply mowns_nil. apply (owns_free_opt ZENIT_ALLOCATOR_DEFAULT). by rewrite app_nil_r.
Qed.

(** How the second pass ends: what was stored, what is owned and why it stopped. *)
Definition filled it S h0 h w ns' toks S1 S2 i (full : Prop) res h' w' : Prop :=
  S = S1 ++ S2 /\ named toks S1 /\ i = zlen toks /\ zlen toks < two64 /\ later h h' /\ looked w w' /\
  (exists L', streams w' = <[di_dir it := L']> (streams w)) /\
  match ns' with
  | None => toks = [] /\ mowns h0 h' [di_self it]
  | Some arr => (exists room, ca_slots arr = (Some <$> toks) ++ room) /\
      mowns h0 h' (b_addr (ca_block arr) :: di_self it :: (b_addr <$> toks))
  end /\
  match res with
  | ZENIT_OK => refusals w' = refusals w -> full -> S2 = []
  | ZENIT_ERROR_ALLOC => true ∈ h_fail h /\ ns' <> None
  | _ => False
  end.

Lemma fill_any it L S n e count names h0 h w : streams w !! di_dir it = Some L -> texts L S -> (length S < n)%nat ->
  zlen (de_name e) = NAME_SIZE -> 0 <= count <= zlen S -> zlen S < two64 -> mowns h0 h (di_self it :: opt_addr (array_addr names)) ->
  (names = None /\ count = 0 \/ exists b, names = Some (CharArray b (replicate (Z.to_nat count) None))) ->
  exists res ns' toks S1 S2 i h' w', fill_names os n (Some it) (Some e) names count 0 h w = Ret (res, ns', i, h', w') /\
    filled it S h0 h w ns' toks S1 S2 i (count = zlen S) res h' w'.
Proof.
  intros E T Hn Be HC LS Ho Hnames. pose proof (Forall2_length _ _ _ T) as LT. destruct Hnames as [[-> ->]|[b ->]].
  - destruct n as [|n]; [lia|]. cbn [fill_names].
    destruct (next_spec it e _ S w E T Be) as (r & e1 & w2 & -> & _ & K2 & P). cbn [obind]. rewrite decide_False by naive_solver.
    exists ZENIT_OK, None, [], [], S, 0, h, w2. split; [done|]. split_and!; try done; [constructor|by intros b| |].
    + destruct P as [(-> & x & L' & s & S' & _ & _ & _ & _ & S2 & _)|(-> & S2 & _)]; [by exists L'|exists L; by rewrite S2, insert_id].
    + intros _ Hz. by apply zlen_0.
  - destruct (fill_names_spec it (di_dir it) b count h0 eq_refl ltac:(lia) n _ S e [] [] h w E T Be ltac:(lia))
      as (res & toks & S1 & S2 & room & i & h2 & w2 & L' & Ef & ES & Hnm & -> & Hc & Ho2 & F2 & K2 & Sw & Q); [constructor|zl| |].
    { eapply owns_perm; [exact Ho|]. simpl. apply Permutation_swap. }
    change (zlen []) with 0 in Ef. rewrite Z.sub_0_r in Ef. cbn [fmap list_fmap app] in Ef.
    eexists res, _, toks, S1, S2, _, h2, w2. split; [exact Ef|]. split_and!; try done; [lia|by exists L'|by exists room|].
    destruct res; try done. intros R Hf. destruct (Q R) as [->|Q']; [done|]. pose proof (Forall2_length _ _ _ Hnm) as LN.
    apply zlen_0. rewrite ES in Hf. unfold zlen in *. rewrite length_app in Hf. simpl in LN. lia.
Qed.

Lemma second_pass_spec n buf p S o0 k0 e count names h0 h w0 w : cstr buf p -> texts (entries w0 p) S -> (length S < n)%nat ->
  zlen (de_name e) = NAME_SIZE -> 0 <= count <= zlen S -> zlen S < two64 ->
  looked w0 w -> streams w = streams w0 -> later h0 h -> (refusals w = refusals w0 -> count = zlen S) ->
  mowns h0 h (opt_addr (array_addr names)) ->
  (names = None /\ count = 0 \/ exists b, names = Some (CharArray b (replicate (Z.to_nat count) None))) ->
  exists er ns k h' w', second_pass os n (Some buf) (Some o0) (Some k0) (Some e) count names h w = Ret (er, Some ns, Some k, h', w') /\
    listed w0 p S h0 o0 k0 er ns k h' w'.
Proof.
  intros Hb T Hn Be HC LS K0 S0 F0 HR Ho Hnames. unfold second_pass.
  destruct (iter_spec buf p h w Hb) as (o & h1 & w1 & -> & K1 & F1 & P). cbn [obind]. pose proof K0 as [[KK KE] KR].
  destruct o as [it|].
  2: { rewrite decide_True by done. destruct P as (Hl & S1 & P). do 5 eexists. split; [done|].
       split; [by eapply looked_trans|]. split; [congruence|]. split_and!; [done|done| |].
       - rewrite <- (owns_array_free h0 h names Ho). destruct names; simpl; congruence.
       - rewrite KK in P. destruct K1 as [_ K1]. destruct P as [P|[P|P]]; [by left|right; left; lia|right; right; auto]. }
  rewrite decide_False by done. destruct P as (Fr & S1 & R1 & O1). specialize (O1 _ _ Ho). rewrite S0 in Fr, S1.
  rewrite KE in S1.
  assert (E1 : streams w1 !! di_dir it = Some (entries w0 p)) by (by rewrite S1, lookup_insert_eq).
  destruct (fill_any it _ S n e count names h0 h1 w1 E1 T Hn Be HC LS O1 Hnames)
    as (res & ns' & toks & S1' & S2 & i & h2 & w2 & -> & ES & Hnm & -> & Lt & F2 & K2 & [L' Sw] & Hns & Q). cbn [obind].
  rewrite S1, insert_insert_eq in Sw. destruct (iter_destroy_spec it w0 h2 w2 L' Sw Fr) as (w3 & -> & K3 & S3 & R3).
  assert (K : looked w0 w3) by (eapply looked_trans; [exact K0|]; eapply looked_trans; [exact K1|]; by eapply looked_trans).
  destruct res; try done.
  - rewrite decide_False by naive_solver. do 5 eexists. split; [done|]. split; [done|]. split; [done|]. exists toks, S1', S2.
    split_and!; try done; [|].
    { intros R. destruct K1 as [_ ?], K2 as [_ ?]. apply Q; [lia|]. apply HR. lia. }
    destruct ns' as [arr|].
    + destruct Hns as [? O3]. split; [done|]. apply mowns_free. eapply owns_perm; [exact O3|]. apply Permutation_swap.
    + destruct Hns as [-> O3]. split; [done|]. by apply mowns_nil, mowns_free.
  - rewrite decide_True by done. destruct Q as [Pl Hne]. destruct ns' as [[b sl]|]; [|done]. destruct Hns as [[room Er] O3]. simpl in Er, O3. subst sl.
    destruct (free_names_spec b room toks [] (free (Some (di_self it)) h2) h0 [b_addr b]) as (h4 & Ef & O4 & _).
    { simpl. unfold zlen. rewrite length_fmap. done. }
    { apply mowns_free. eapply owns_perm; [exact O3|]. apply Permutation_swap. }
    change (zlen []) with 0 in Ef. cbn [app] in Ef. replace (Z.to_nat (zlen toks)) with (length toks) by (unfold zlen; lia). rewrite Ef. cbn [obind].
    do 5 eexists. split; [done|]. split; [done|]. split; [done|]. split_and!; [done|done| |left; auto].
    by apply mowns_nil, mowns_free.
Qed.

(** C26. [zenit_dir_list] returns the names of the directory's entries, cut to 255 characters,
    in their order, each in a block of its own, and their number; it returns fewer only when
    the system refused a call.  Otherwise it reports that the directory could not be opened or
    that memory was refused, stores nothing and keeps no memory; no stream stays open. *)
Theorem dir_list_correct n buf p S o0 k0 h w : cstr buf p -> texts (entries w p) S -> (length S < n)%nat -> zlen S < two64 ->
  exists e ns k h' w', zenit_dir_list os n (Some buf) (Some o0) (Some k0) h w = Ret (e, Some ns, Some k, h', w') /\
    listed w p S h o0 k0 e ns k h' w'.
Proof.
  intros Hb T Hn LS. unfold zenit_dir_list. destruct (iter_spec buf p h w Hb) as (o & h1 & w1 & -> & K1 & F1 & P). cbn [obind].
  destruct o as [it|].
  2: { rewrite decide_True by done. destruct P as (Hl & S1 & P). do 5 eexists. split; [done|]. by split_and!. }
  rewrite decide_False by done. destruct P as (Fr & S1 & R1 & O1). pose proof (Forall2_length _ _ _ T) as LT.
  assert (LE : zlen (entries w p) = zlen S) by (unfold zlen; lia).
  destruct (count_spec it (di_dir it) eq_refl n (entries w p) S (DirEntry (replicate (Z.to_nat NAME_SIZE) 165) 165) 0 w1)
    as (e1 & c & L' & w2 & -> & B1 & K2 & S2 & Hc & Rc); try done; [by rewrite S1, lookup_insert_eq|lia|lia|]. cbn [obind].
  rewrite S1, insert_insert_eq in S2. destruct (iter_destroy_spec it w h1 w2 L' S2 Fr) as (w3 & -> & K3 & S3 & R3).
  assert (K : looked w w3) by (eapply looked_trans; [exact K1|]; by eapply looked_trans).
  assert (O2 : mowns h (free (Some (di_self it)) h1) []) by (apply mowns_free, O1, owns_refl).
  assert (HR : refusals w3 = refusals w -> c = zlen S) by (intros R; rewrite Rc; lia).
  rewrite LE, Z.add_0_l in Hc. case_decide as Hp.
  2: { apply (second_pass_spec n buf p S o0 k0 e1 c None h _ w); try done. left. split; [done|lia]. }
  unfold calloc, SIZEOF_PTR. set (h2 := free (Some (di_self it)) h1) in *.
  assert (Fail : forall h3, h_live h3 = h_live h2 -> true ∈ h_fail h \/ PTRDIFF_MAX < 8 * zlen S ->
    listed w p S h o0 k0 ZENIT_ERROR_ALLOC o0 k0 h3 w3).
  { intros h3 Hl Hf. split; [done|]. split; [done|]. split_and!; try done. rewrite Hl. by apply mowns_nil. }
  case_decide as Hbig; [|destruct (malloc (c * 8) h2) as [[b|] h3] eqn:M].
  - do 5 eexists. split; [done|]. apply Fail; [done|right; lia].
  - apply (second_pass_spec n buf p S o0 k0 e1 c _ h _ w); try done.
    + eapply later_trans; [exact F1|]. by eapply (malloc_later _ h2).
    + by eapply mowns_alloc.
    + right. by exists b.
  - do 5 eexists. split; [done|]. apply Fail; [by eapply malloc_none|].
    destruct (decide (c * 8 <= PTRDIFF_MAX)); [left|right; lia]. apply F1. by eapply (malloc_planned _ h2); [|exact M]; lia.
Qed.
End List.

(** ** Examples and departures *)

Lemma dir_list_correct_witness :
  exists e ns k h' w', zenit_dir_list memdirs 5 (Some (lit "d"%string ++ [NUL])) (Some None) (Some 0) empty_heap (some_dirs []) =
      Ret (e, Some ns, Some k, h', w') /\
    listed memdirs (some_dirs []) (lit "d"%string) [lit "x"%string; lit "yz"%string] empty_heap None 0 e ns k h' w'.
Proof.
  apply (dir_list_correct memdirs 5 (lit "d"%string ++ [NUL]) (lit "d"%string) [lit "x"%string; lit "yz"%string]).
  - by apply lit_cstr.
  - assert (entries (some_dirs []) (lit "d"%string) = [entry_of (lit "x"%string) 8; entry_of (lit "yz"%string) DT_DIR]) as -> by (vm_compute; reflexivity).
    constructor; [by apply lit_cstr|]. constructor; [by apply lit_cstr|]. constructor.
  - simpl. lia.
  - done.
Defined.

Example dir_list_runs :
  match zenit_dir_list memdirs 5 (Some (lit "d"%string ++ [NUL])) (Some None) (Some 0) empty_heap (some_dirs []) with
  | Ret (e, Some (Some arr), Some k, _, _) => Some (e, map pbytes (ca_slots arr), k)
  | _ => None
  end = Some (ZENIT_OK, [lit "x"%string ++ [NUL]; lit "yz"%string ++ [NUL]], 2).
Proof. vm_compute. reflexivity. Qed.

(** No memory for the iterator: [zenit_dir_list] reports that the directory was not found. *)
Theorem dir_list_alloc_not_found :
  match zenit_dir_list memdirs 5 (Some (lit "d"%string ++ [NUL])) (Some None) (Some 0) (mk_heap ∅ [true]) (some_dirs []) with
  | Ret (e, _, _, _, _) => e = ZENIT_ERROR_NOT_FOUND
  | _ => False
  end.
Proof. vm_compute. done. Qed.
