(* ===== verification/Timer.v ===== *)
(** * Points in time ([include/libzenit/timer.h], [src/timer.c], the POSIX variant)

    [long long] arithmetic is undefined when it overflows; a [double] is a number of the
    binary64 format as in [JsonNumber].  The clock is a function on its state. *)

From Stdlib Require Import ZArith Lia SpecFloat.
From stdpp Require Import base tactics option list numbers.
From S2P Require Import Prelude JsonNumber.
Open Scope Z_scope.

Record zenit_time_t : Set := Time { sec : Z; nsec : Z }.

Abbreviation NS := 1000000000.

(** The result of a [long long] operation. *)
Definition i64 (x : Z) : outcome Z := if decide (- two63 <= x < two63) then Ret x else Undef.

(** [clock_gettime(CLOCK_MONOTONIC, &ts)] stores seconds and nanoseconds. *)
Definition zenit_time_now {W : Type} (clock : W -> (Z * Z) * W) (w : W) : zenit_time_t * W :=
  let '((tv_sec, tv_nsec), w1) := clock w in (Time tv_sec tv_nsec, w1).

Definition to_ns (t : zenit_time_t) : outcome Z :=
  let! s := i64 (sec t * NS) in i64 (s + nsec t).

Definition elapsed (start fin : zenit_time_t) : outcome Z :=
  let! e := to_ns fin in let! s := to_ns start in i64 (e - s).

Definition fdiv (x y : double) : double := SFdiv 53 1024 x y.

Definition zenit_time_elapsed_s (start fin : zenit_time_t) : outcome double :=
  let! d := elapsed start fin in Ret (fdiv (of_int d) (of_int 1000000000)).
Definition zenit_time_elapsed_ms (start fin : zenit_time_t) : outcome double :=
  let! d := elapsed start fin in Ret (fdiv (of_int d) (of_int 1000000)).
Definition zenit_time_elapsed_us (start fin : zenit_time_t) : outcome double :=
  let! d := elapsed start fin in Ret (fdiv (of_int d) (of_int 1000)).
Definition zenit_time_elapsed_ns (start fin : zenit_time_t) : outcome double :=
  let! d := elapsed start fin in Ret (of_int d).

Definition zenit_time_add (a b : zenit_time_t) : outcome zenit_time_t :=
  let! s := i64 (sec a + sec b) in
  let! n := i64 (nsec a + nsec b) in
  if decide (NS <= n) then
    let! s1 := i64 (s + 1) in
    let! n1 := i64 (n - NS) in
    Ret (Time s1 n1)
  else Ret (Time s n).

Definition zenit_time_sub (a b : zenit_time_t) : outcome zenit_time_t :=
  let! s := i64 (sec a - sec b) in
  let! n := i64 (nsec a - nsec b) in
  if decide (n < 0) then
    let! s1 := i64 (s - 1) in
    let! n1 := i64 (n + NS) in
    Ret (Time s1 n1)
  else Ret (Time s n).

Definition zenit_time_cmp (a b : zenit_time_t) : Z :=
  if decide (sec a < sec b) then -1
  else if decide (sec b < sec a) then 1
  else if decide (nsec a < nsec b) then -1
  else if decide (nsec b < nsec a) then 1
  else 0.

(** ** Time points as numbers of nanoseconds *)

(** What the documentation asks of a time point, within 292 years of the epoch so that the
    nanoseconds fit in a [long long]. *)
Definition valid (t : zenit_time_t) : Prop := 0 <= nsec t < NS /\ - 4611686018 <= sec t < 4611686018.
Definition ns (t : zenit_time_t) : Z := sec t * NS + nsec t.

Lemma i64_Ret x : - two63 <= x < two63 -> i64 x = Ret x.
Proof. intros. unfold i64. by rewrite decide_True. Qed.

Lemma to_ns_valid t : valid t -> to_ns t = Ret (ns t).
Proof. intros [? ?]. unfold to_ns. rewrite i64_Ret by lia. cbn [obind]. by rewrite i64_Ret by lia. Qed.

Lemma elapsed_valid start fin : valid start -> valid fin -> elapsed start fin = Ret (ns fin - ns start).
Proof.
  intros Hs Hf. unfold elapsed. rewrite !to_ns_valid by done. cbn [obind]. apply i64_Ret.
  destruct Hs, Hf. unfold ns. lia.
Qed.

(** Sums and differences are those of the nanoseconds and have their nanoseconds in range;
    the comparison has the sign of the difference; adding and subtracting undo each other. *)
Theorem time_arithmetic a b : valid a -> valid b ->
  (exists r, zenit_time_add a b = Ret r /\ ns r = ns a + ns b /\ 0 <= nsec r < NS /\ zenit_time_sub r b = Ret a) /\
  (exists r, zenit_time_sub a b = Ret r /\ ns r = ns a - ns b /\ 0 <= nsec r < NS /\ zenit_time_add r b = Ret a) /\
  zenit_time_cmp a b = Z.sgn (ns a - ns b).
Proof.
  destruct a as [sa na], b as [sb nb]. intros [Ha Ha'] [Hb Hb']. simpl in *.
  unfold zenit_time_add, zenit_time_sub, zenit_time_cmp, ns. simpl. split_and!.
  - rewrite !i64_Ret by lia. cbn [obind]. case_decide; rewrite ?i64_Ret by lia; cbn [obind];
      (eexists; split; [done|]); simpl; (split; [lia|]); (split; [lia|]); rewrite ?i64_Ret by lia; cbn [obind];
      case_decide; rewrite ?i64_Ret by lia; cbn [obind]; try lia; do 2 f_equal; lia.
  - rewrite !i64_Ret by lia. cbn [obind]. case_decide; rewrite ?i64_Ret by lia; cbn [obind];
      (eexists; split; [done|]); simpl; (split; [lia|]); (split; [lia|]); rewrite ?i64_Ret by lia; cbn [obind];
      case_decide; rewrite ?i64_Ret by lia; cbn [obind]; try lia; do 2 f_equal; lia.
  - repeat case_decide; lia.
Qed.

Lemma time_arithmetic_witness : zenit_time_cmp (Time 1 999999999) (Time 2 1) = Z.sgn (-2).
Proof. apply (time_arithmetic (Time 1 999999999) (Time 2 1)); (split; simpl; lia). Defined.

Example elapsed_runs : zenit_time_elapsed_ms (Time 1 999999999) (Time 2 499999) = Ret (of_ratio false 1 2).
Proof. vm_compute. reflexivity. Qed.
